(* ===== verification/_CoqProject ===== *)
-Q . S2P
Prelude.v
Number.v
Bytes.v
Types.v
Write.v
Lock.v
ConcurrencyManager.v
Engine.v
Cursor.v
Reader.v
Versions.v
AbsState.v
ReaderSpec.v
MvccTxn.v
Prewrite.v
TxnStatus.v
Commands.v
PrewriteCommand.v
AcquirePessimisticLock.v
KeyInv.v
Protocol.v
Values.v
Effects.v
PrewriteSpec.v
PrewriteRequest.v
System.v
Runs.v
SystemSpec.v
CommandSpec.v
PrewriteCorrect.v
SpanKeys.v
SpanRegistry.v
SstBatcher.v
StreamIngest.v
Latch.v
Deadlock.v
Producer.v
InitialScan.v
Gc.v
GcWorker.v
PointGetter.v
Scanner.v
ScannerSpec.v
ForwardScanner.v
BackwardScanner.v
ReadProgress.v
Resolver.v
ChangeLog.v
ResolvedTs.v
ResolvedTsSpec.v
Leadership.v
RtsEndpoint.v
ResolvedTsStore.v
