(* ===== verification/Prelude.v ===== *)
(** * TiKV 8.5 with physical cluster replication: a verification library

    The repository is TiKV 8.5, a transactional key-value server, with a
    replication of whole clusters ("PCR") built into it.  The library models the
    code that decides what is stored and what is replicated, under
    [src/tikv85]:

    - the transactional store: how keys, timestamps, write records and locks are
      encoded, how the MVCC reader finds them, how prewrite, commit, rollback
      and the other commands change them, the latches that serialize commands
      and the detector of deadlocks between transactions;
    - the stale reads of replicas: how the locks of a region are tracked and
      timestamps resolved, and when a replica may read at one;
    - the producer of replication in [components/cdc]: a delegate turns the
      changes of its region into events, batches them and sends them to the
      subscribers; a new subscription first gets a scan of the store;
    - the consumer in [components/stream-ingest]: a control plane decides which
      spans and regions are replicated, ingest workers buffer events and write
      them to the target, the task keeps checkpoints and drives the cutover.

    ** Files

    Encodings.  [Number] and [Bytes] model [tikv_util/src/codec/number.rs] and
    [bytes.rs]; [Types], [Write] and [Lock] the files [timestamp.rs],
    [types.rs], [write.rs] and [lock.rs] of [components/txn_types].

    Store.  [Engine] states what is used of an engine as the class
    [EngineSnapshot] with the laws [EngineSnapshotLaws] and has the in-memory
    engine of [components/tikv_kv] as an instance; [Cursor] models the cursors
    of [components/tikv_kv/src/cursor.rs] over an iterator of the engine.
    [ConcurrencyManager] models [components/concurrency_manager], [Reader] the
    readers of [src/storage/mvcc/reader], [MvccTxn] the buffer of [src/storage/mvcc/txn.rs],
    [Prewrite] and [TxnStatus] the actions of [src/storage/txn/actions],
    [Commands] the [process_write] of eight commands of
    [src/storage/txn/commands], [PrewriteCommand] the two prewrite requests of
    [prewrite.rs] there, with async and one-phase commit, and
    [AcquirePessimisticLock] the action and the command of that name.  [Latch] models [src/storage/txn/latch.rs] and
    [Deadlock] the [DetectTable] of [src/server/lock_manager/deadlock.rs].

    Reads and collection.  [PointGetter], [Scanner], [ForwardScanner] and
    [BackwardScanner] model [point_getter.rs] and the scanners of
    [src/storage/mvcc/reader/scanner]; [ScannerSpec] has the lemmas that both
    directions share.  [Gc] models the action [gc.rs] and [GcWorker] the
    collection of keys of [src/server/gc_worker/gc_worker.rs].

    Proofs about the store.  [AbsState] has the abstract state, a lock, write
    records and values for every key, and that engine updates implement its
    updates; [Versions] the sorted versions of a key in a column family;
    [ReaderSpec] what readers return in terms of it; [KeyInv] the
    invariant of a key; [Protocol] the effects that actions have on a key;
    [Values] the values stored apart from their records; [Effects] commands as
    effects on several keys; [PrewriteSpec] the loop of a prewrite and
    [PrewriteRequest] the two requests as such effects; [System] the step
    relation of a store under commands; [Runs] concrete runs; [SystemSpec],
    [CommandSpec] and [PrewriteCorrect] the theorems.

    Stale reads.  [ReadProgress] models [RegionReadProgress] and its registry of
    [components/raftstore/src/store/util.rs]; [Resolver], [ChangeLog] and
    [ResolvedTs] the files [resolver.rs] (with the memory quota of [tikv_util]),
    [cmd.rs] and the observed regions of [endpoint.rs] of
    [components/resolved_ts/src]; [Leadership] its [advance.rs] and [RtsEndpoint]
    the tasks of its endpoint.  [ResolvedTsSpec] has the life of a region as a
    step relation with its theorems, and [ResolvedTsStore] feeds the resolver with
    the commands of the store.

    Replication.  [Producer] models the batcher, the registry, the delegate and
    the endpoint of [components/cdc/src]; [InitialScan] the scans of
    [pcr_snapshot.rs], [span_bridge.rs] and [pcr_service.rs].  [SpanKeys] and
    [SpanRegistry] model [span_ctl] of [components/stream-ingest/src],
    [SstBatcher] its [sst_batcher.rs] and the ingest worker, [StreamIngest] its
    [checkpoint.rs], [task.rs], [subscriber.rs] and [direct_ingest.rs].

    ** Conventions

    A Rust integer is a [Z] with its range as a predicate; arithmetic that wraps,
    saturates or panics is written out.  A byte string is a list of [Z].  Fallible
    code returns [res E A]: a value, an error or a panic.  A [HashMap] or
    [BTreeMap] is a [gmap]; where the code iterates over one, the model takes the
    order of [map_to_list].  State is passed explicitly, or by the monad
    [st_res] where a routine threads state and errors through many calls, and a
    definition has the name of the Rust function, prefixed by its type where names repeat.  Clocks,
    the timestamp oracle, the placement driver, [mysql], files and the network
    are not part of the sources: their answers are arguments, or the methods of a
    class whose laws say what the code relies on ([EngineSnapshotLaws],
    [IngestLaws], [PcrWireLaws]), each with an instance.  Metrics, logging and
    fault injection are left out.

    ** What the theorems show

    - Encodings: the key encoding keeps the byte order and is inverted by its
      decoder, which accepts nothing else; versions of a key are sorted newest
      first; write and lock records are read back as they were written; the
      varint decoder is classified on every input, overflow included.
    - Store: from the empty store, under any sequence of commands of optimistic
      and pessimistic transactions, a transaction is decided at most once on a key, committed data is never lost, reads
      return the newest committed change and can be repeated, and a read that
      passed the lock check is not changed by later commits, one-phase commits on
      a node that has noted the read included.  Commit and rollback
      succeed exactly when each key allows it, and leave the decision on each; a
      request for a pessimistic lock is answered on every state of its key.  A
      prewrite request writes nothing or its answer is true of each of its
      mutations, and what it answers under async commit can be committed.  A run
      shows where one-phase commit fails: with a for-update timestamp below that
      of the pessimistic lock it commits below a newer record.
      In-memory locks and the maximum read timestamp keep a reader below the
      commit timestamps it has not seen.
    - Reads: a cursor that steps towards its target, with its bounds and its
      sought-before shortcuts, stands where a fresh search puts it; the point
      getter, the forward and the backward scanner return what one reference
      read per key returns, errors and locks included, except that the backward
      scanner misses the conflicts of [RcCheckTs] on a key with many versions, as
      a run shows.
    - Collection: removing versions below a safe point, in rounds of bounded
      size, ends, keeps every read at or above the safe point and leaves no more
      than one record at or below it, at one safe point after the other.
    - Scheduling: commands that hold latches share none, and whatever the
      interleaving all of them finish; the graph of waiting transactions
      has no cycle, and the detector answers with a deadlock exactly when the new
      edge closes one.
    - Stale reads: the changes that arrive while the locks of a region are
      scanned leave it with exactly the locks of its history, if no transaction
      leaves a record on a key that another has locked; from then on, for every
      commit of a lock that was not disturbed in this way, no commit is at or below
      a timestamp that was resolved before it, and a replica that reads at its safe
      timestamp has applied every such commit at or below it, in whatever order it
      hears of timestamps.  Across region merges a safe timestamp is right for all
      ranges but those whose merge an older item has crossed.  Only one leader of a region is
      confirmed at a time, and a superseded one no more.  The memory quota counts
      what is held, and messages for a former registration are ignored.  Two
      runs show that the exceptions are real: a rollback on another transaction's
      key hides its lock, and an item published before a merge undoes its effect.
    - Replication: event batches lose nothing; committed records reach the
      subscriber unchanged, with their inlined values; a full scan copies the store
      and a delta scan sends what is newer within its bounds; an ingest worker
      refines the sequential application of its events, unless one puts a key that
      is buffered or under a buffered delete range; the reverse index of regions is
      complete after any operations, but for workers that were started on their
      span alone; a task resumes from its recorded minimum, also after a
      pause, and the target is protected while it replicates.
    - Where the replication code does not do what its comments or its design
      say, a theorem shows the behaviour it has: a delta scan bounded by a
      region's end key is empty, a put after a buffered delete range is lost, a
      duplicate key loses the batch, a split hides a lagging region from the
      cutover, a checkpoint is recorded ahead of queued data, a value that is
      not inlined is replaced by the empty one, and the published checkpoint does
      not depend on the locks.

    ** Fuel

    Loops that are not structural carry fuel.  A reader's loop has the number of
    entries of its column family plus two, and each iteration moves to a later
    entry; the search of the deadlock detector has the number of vertices that
    edges lead to plus two, and each iteration takes a vertex that was not
    pushed before; decoding loops have the length of their input.  A scanner's
    loop over user keys has the entries of the write and the lock column family
    plus one, since each round passes the entries of a key; a collection of keys
    has the number of keys plus the entries of the write column family plus one,
    since each round finishes a key or removes a full batch.  Lemmas
    show that the fuel is enough, so that no theorem holds because a loop gave
    up.

    ** Not modelled

    - Consensus ([raftstore], [raftstore-v2]), the engines, the network, the
      thread pools and the scheduler's task slots: asynchronous systems over
      libraries that are not among the sources.  Commands are steps on a snapshot,
      which the latches justify.  Of Raft the confirmation of leaders assumes that
      a store's term does not fall and that a term has one leader; the scans of
      regions and the answers of other stores are arguments, in any order.
    - The assumption on transactions under which resolved timestamps are sound, a
      commit is above the timestamps taken before its lock was applied, is a
      premise of the step relation of [ResolvedTsSpec]; that the store's
      asynchronous commits meet it is shown ([advance_ts_covered]).  Rows of large
      (pipelined) transactions and foreign rollbacks are in that relation, but the
      commits they concern are outside the conclusions.  Records that come by
      ingested files are not part of the histories.
    - The scan policies that return entries or deltas, timestamp hints of
      iterators, flashback, the waiting queues of lock requests, flushes of
      pipelined transactions and the batch form of resolve: the store's step
      relation has the prewrite of one key and of requests, the acquisition of
      pessimistic locks and the commands of [Commands].
      Collection is a theorem about reads of a reachable store and not a step of
      that relation, since a rollback record it removes no longer refuses a late
      prewrite.
    - Keys that a pessimistic transaction prewrites with neither a lock nor the
      version check: the code accepts them whatever the key holds and relies on
      the primary key's decision, so that they are not steps of the relation.  Of
      clients the relation assumes that a commit timestamp is above the for-update
      timestamps of the locks, that the for-update timestamp of a one-phase
      prewrite covers them, and that a transaction does not prewrite a pessimistic
      lock that a late request has taken on a key it has committed.
    - The TiCDC half of the [cdc] component, which enters as its outcome; the
      relaying tasks of [pcr_service.rs]; HTTP control, schema synchronisation,
      [pcr-ctl] and configuration, which only call what is modelled or run
      external programs.
    - Coprocessor, backup, import, encryption and resource control, which take no
      part in transactions or replication. *)

From Stdlib Require Import ZArith Lia.
From stdpp Require Import base numbers list gmap sorting.

Open Scope Z_scope.

(** ** Machine integers

    Unsigned Rust integers are [Z] with their range written out. *)

Abbreviation u8 := Z (only parsing).
Abbreviation u64 := Z (only parsing).
Abbreviation i64 := Z (only parsing).
Abbreviation bytes := (list Z).

Definition u64_max : Z := 2 ^ 64 - 1.

Definition u8_ok (b : Z) : Prop := 0 <= b < 256.
Definition u64_ok (v : Z) : Prop := 0 <= v < 2 ^ 64.
Definition i64_ok (v : Z) : Prop := - 2 ^ 63 <= v < 2 ^ 63.
Definition bytes_ok (l : bytes) : Prop := Forall u8_ok l.

#[export] Instance u8_ok_dec b : Decision (u8_ok b).
Proof. unfold u8_ok. apply _. Defined.
#[export] Instance u64_ok_dec v : Decision (u64_ok v).
Proof. unfold u64_ok. apply _. Defined.

(** [v as u64] of a signed or wider value, [v as i64] of an unsigned one. *)
Definition as_u64 (v : Z) : Z := v mod 2 ^ 64.
Definition as_i64 (v : Z) : Z := if v <? 2 ^ 63 then v else v - 2 ^ 64.
(** [v as u8]. *)
Definition as_u8 (v : Z) : Z := v mod 256.

(** Bitwise negation [!v] at width 8 and 64. *)
Definition not_u8 (b : Z) : Z := Z.lxor b 255.
Definition not_u64 (v : Z) : Z := Z.lxor v u64_max.

(** Length of a byte slice as an integer. *)
Definition zlen (l : bytes) : Z := Z.of_nat (length l).

Lemma testbit_high a n i : 0 <= a < 2 ^ n -> n <= i -> Z.testbit a i = false.
Proof.
  intros Ha Hi. destruct (Z.lt_ge_cases n 0).
  { rewrite Z.pow_neg_r in Ha by lia. lia. }
  destruct (Z.eq_dec a 0) as [->|]; [apply Z.bits_0|].
  apply Z.bits_above_log2; [lia|]. apply Z.log2_lt_pow2; [lia|].
  eapply Z.lt_le_trans; [apply Ha|]. apply Z.pow_le_mono_r; lia.
Qed.

Lemma lxor_ones n a : 0 <= n -> 0 <= a < 2 ^ n -> Z.lxor a (2 ^ n - 1) = 2 ^ n - 1 - a.
Proof.
  intros Hn Ha.
  replace (2 ^ n - 1) with (Z.ones n) by (rewrite Z.ones_equiv; lia).
  rewrite Z.sub_nocarry_ldiff; apply Z.bits_inj'; intros i Hi;
    rewrite ?Z.lxor_spec, ?Z.ldiff_spec, ?Z.bits_0; destruct (Z.lt_ge_cases i n).
  - rewrite Z.ones_spec_low by lia. by destruct (Z.testbit a i).
  - by rewrite Z.ones_spec_high, (testbit_high a n) by lia.
  - rewrite Z.ones_spec_low by lia. by rewrite andb_false_r.
  - by rewrite (testbit_high a n) by lia.
Qed.

Lemma not_u8_eq b : u8_ok b -> not_u8 b = 255 - b.
Proof. intros H. apply (lxor_ones 8); unfold u8_ok in H; lia. Qed.

Lemma not_u64_eq v : u64_ok v -> not_u64 v = u64_max - v.
Proof. intros H. apply (lxor_ones 64); unfold u64_ok in H; lia. Qed.

Lemma not_u8_ok b : u8_ok b -> u8_ok (not_u8 b).
Proof. intros H. rewrite not_u8_eq by done. unfold u8_ok in *. lia. Qed.

Lemma not_u64_ok v : u64_ok v -> u64_ok (not_u64 v).
Proof. intros H. rewrite not_u64_eq by done. unfold u64_ok, u64_max in *. lia. Qed.

Lemma not_u8_involutive b : not_u8 (not_u8 b) = b.
Proof. unfold not_u8. by rewrite Z.lxor_assoc, Z.lxor_nilpotent, Z.lxor_0_r. Qed.

Lemma not_u64_involutive v : not_u64 (not_u64 v) = v.
Proof. unfold not_u64. by rewrite Z.lxor_assoc, Z.lxor_nilpotent, Z.lxor_0_r. Qed.

(** ** Results of Rust code

    [Ok]/[Err] are the source's [Result]; [Panic] is an [assert!], an
    [unwrap] of the wrong variant or an index out of range.  The release and dev
    profiles of the code turn overflow checks off, so arithmetic wraps. *)

Inductive res (E A : Type) : Type :=
| Ok (a : A)
| Err (e : E)
| Panic.
Arguments Ok {E A} a.
Arguments Err {E A} e.
Arguments Panic {E A}.

#[export] Instance res_ret E : MRet (res E) := fun A a => Ok a.
#[export] Instance res_bind E : MBind (res E) := fun A B f m =>
  match m with Ok a => f a | Err e => Err e | Panic => Panic end.
#[export] Instance res_fmap E : FMap (res E) := fun A B f m =>
  match m with Ok a => Ok (f a) | Err e => Err e | Panic => Panic end.

(** [r.map_err(f)], also the conversion made by the [?] operator. *)
Definition map_err {E F A} (f : E -> F) (m : res E A) : res F A :=
  match m with Ok a => Ok a | Err e => Err (f e) | Panic => Panic end.

(** [o.ok_or(e)]. *)
Definition ok_or {E A} (e : E) (o : option A) : res E A :=
  match o with Some a => Ok a | None => Err e end.

(** [o.unwrap()]. *)
Definition unwrap {E A} (o : option A) : res E A :=
  match o with Some a => Ok a | None => Panic end.
(** [Result::unwrap] *)
Definition unwrap_ok {E E' A} (r : res E A) : res E' A :=
  match r with Ok a => Ok a | _ => Panic end.

(** [assert!(b)]. *)
Definition assert_ {E} (b : bool) : res E unit := if b then Ok tt else Panic.

Definition is_ok {E A} (m : res E A) : bool :=
  match m with Ok _ => true | _ => false end.

Lemma res_bind_ok {E A B} (f : A -> res E B) (m : res E A) b :
  m ≫= f = Ok b <-> exists a, m = Ok a /\ f a = Ok b.
Proof. split; [destruct m; cbn; eauto; discriminate|]. by intros (a & -> & <-). Qed.

Lemma map_err_ok {E F A} (f : E -> F) (m : res E A) a :
  map_err f m = Ok a <-> m = Ok a.
Proof. split; [destruct m; cbn; congruence|]. by intros ->. Qed.

(** ** Methods that change their object and may fail

    What a method did to its object before it failed is kept. *)

Definition st_res (S E A : Type) : Type := S -> res E A * S.

#[export] Instance st_ret S E : MRet (st_res S E) := fun A a s => (Ok a, s).
#[export] Instance st_bind S E : MBind (st_res S E) := fun A B f m s =>
  match m s with
  | (Ok a, s) => f a s
  | (Err e, s) => (Err e, s)
  | (Panic, s) => (Panic, s)
  end.

Definition lift {S E A} (m : res E A) : st_res S E A := fun s => (m, s).
Definition gets {S E A} (f : S -> A) : st_res S E A := fun s => (Ok (f s), s).
Definition modify {S E} (f : S -> S) : st_res S E unit := fun s => (Ok tt, f s).
Definition throw {S E A} (e : E) : st_res S E A := fun s => (Err e, s).

(** A result kept as a value, with its error. *)
Definition catch {S E A} (m : st_res S E A) : st_res S E (res E A) :=
  fun s => match m s with
           | (Panic, s) => (Panic, s)
           | (r, s) => (Ok r, s)
           end.

(** A method of a component of the object. *)
Definition zoom {S T E A} (get : S -> T) (set : S -> T -> S) (m : T -> res E (T * A)) : st_res S E A :=
  fun s => match m (get s) with
           | Ok (t, a) => (Ok a, set s t)
           | Err e => (Err e, s)
           | Panic => (Panic, s)
           end.

Lemma st_bind_eq {S E A B} (f : A -> st_res S E B) (m : st_res S E A) s r s' :
  m s = (r, s') ->
  (m ≫= f) s = match r with Ok a => f a s' | Err e => (Err e, s') | Panic => (Panic, s') end.
Proof. intros Hm. unfold mbind, st_bind. rewrite Hm. by destruct r. Qed.

Lemma st_bind_ok {S E A B} (f : A -> st_res S E B) (m : st_res S E A) s a s' :
  m s = (Ok a, s') -> (m ≫= f) s = f a s'.
Proof. apply (st_bind_eq f m s (Ok a) s'). Qed.

Lemma st_bind_err {S E A B} (f : A -> st_res S E B) (m : st_res S E A) s e s' :
  m s = (Err e, s') -> (m ≫= f) s = (Err e, s').
Proof. apply (st_bind_eq f m s (Err e) s'). Qed.

Lemma zoom_ok {S T E A} get set (m : T -> res E (T * A)) (s : S) t a :
  m (get s) = Ok (t, a) -> zoom get set m s = (Ok a, set s t).
Proof. intros Hm. unfold zoom. by rewrite Hm. Qed.

Lemma catch_eq {S E A} (m : st_res S E A) s r s' : m s = (r, s') -> r <> Panic -> catch m s = (Ok r, s').
Proof. intros Hm Hr. unfold catch. rewrite Hm. by destruct r. Qed.

(** Splits a successful composed computation into its successful steps. *)
Ltac res_inv :=
  repeat match goal with
  | H : _ ≫= _ = Ok _ |- _ =>
      apply res_bind_ok in H; let a := fresh "a" in let Ha := fresh "H" in
      destruct H as [a [Ha H]]
  | H : map_err _ _ = Ok _ |- _ => apply map_err_ok in H
  | H : assert_ ?b = Ok _ |- _ =>
      let E := fresh "E" in destruct b eqn:E; cbn in H; [|discriminate H]
  | H : Ok _ = Ok _ |- _ => injection H as H; subst
  | H : Err _ = Ok _ |- _ => discriminate H
  | H : Panic = Ok _ |- _ => discriminate H
  end.

(** Case analysis on the boolean tests of integers in the goal and the
    hypotheses. *)
Ltac zcase :=
  repeat match goal with
  | |- context [?a =? ?b] => destruct (Z.eqb_spec a b)
  | |- context [?a <? ?b] => destruct (Z.ltb_spec a b)
  | |- context [?a <=? ?b] => destruct (Z.leb_spec a b)
  | H : context [?a =? ?b] |- _ => destruct (Z.eqb_spec a b)
  | H : context [?a <? ?b] |- _ => destruct (Z.ltb_spec a b)
  | H : context [?a <=? ?b] |- _ => destruct (Z.leb_spec a b)
  end.

(** ** Byte strings and their order

    [bytes_cmp] is [Ord::cmp] on slices: lexicographic, a strict prefix is
    smaller. *)

Fixpoint bytes_cmp (a b : bytes) : comparison :=
  match a, b with
  | [], [] => Eq
  | [], _ :: _ => Lt
  | _ :: _, [] => Gt
  | x :: a', y :: b' =>
      match Z.compare x y with
      | Eq => bytes_cmp a' b'
      | c => c
      end
  end.

Definition bytes_ltb (a b : bytes) : bool :=
  match bytes_cmp a b with Lt => true | _ => false end.
Definition bytes_leb (a b : bytes) : bool :=
  match bytes_cmp a b with Gt => false | _ => true end.
Definition bytes_eqb (a b : bytes) : bool :=
  match bytes_cmp a b with Eq => true | _ => false end.

(** [Ordering::then]. *)
Definition then_cmp (c d : comparison) : comparison :=
  match c with Eq => d | _ => c end.

Lemma bytes_cmp_refl a : bytes_cmp a a = Eq.
Proof. induction a; cbn; [done|]. by rewrite Z.compare_refl. Qed.

Lemma bytes_cmp_eq a b : bytes_cmp a b = Eq <-> a = b.
Proof.
  split; [|intros ->; apply bytes_cmp_refl].
  revert b. induction a as [|x a IH]; intros [|y b]; cbn; try done.
  destruct (Z.compare_spec x y); try done. intros H'. by rewrite (IH b), H.
Qed.

Lemma bytes_cmp_antisym a b : bytes_cmp b a = CompOpp (bytes_cmp a b).
Proof.
  revert b. induction a as [|x a IH]; intros [|y b]; cbn; try done.
  rewrite Z.compare_antisym. by destruct (Z.compare x y); cbn.
Qed.

Lemma bytes_cmp_lt_trans a b c :
  bytes_cmp a b = Lt -> bytes_cmp b c = Lt -> bytes_cmp a c = Lt.
Proof.
  revert b c. induction a as [|x a IH]; intros [|y b] [|z c]; cbn; try done.
  destruct (Z.compare_spec x y), (Z.compare_spec y z), (Z.compare_spec x z);
    subst; try done; try lia; eauto.
Qed.

Lemma bytes_eqb_eq a b : bytes_eqb a b = true <-> a = b.
Proof.
  unfold bytes_eqb. rewrite <-bytes_cmp_eq. by destruct (bytes_cmp a b).
Qed.

Lemma bytes_ltb_irrefl a : bytes_ltb a a = false.
Proof. unfold bytes_ltb. by rewrite bytes_cmp_refl. Qed.

Lemma bytes_leb_ltb a b : bytes_leb a b = negb (bytes_ltb b a).
Proof.
  unfold bytes_leb, bytes_ltb. rewrite (bytes_cmp_antisym a b).
  by destruct (bytes_cmp a b).
Qed.

Lemma bytes_leb_lt_or_eq a b :
  bytes_leb a b = true <-> bytes_cmp a b = Lt \/ a = b.
Proof.
  unfold bytes_leb. rewrite <-bytes_cmp_eq. destruct (bytes_cmp a b); intuition done.
Qed.

Lemma bytes_leb_trans a b c :
  bytes_leb a b = true -> bytes_leb b c = true -> bytes_leb a c = true.
Proof.
  rewrite !bytes_leb_lt_or_eq. intros [?| ->] [?| <-]; auto.
  left. by eapply bytes_cmp_lt_trans.
Qed.

Lemma bytes_leb_total a b : bytes_leb a b = true \/ bytes_leb b a = true.
Proof.
  unfold bytes_leb. rewrite (bytes_cmp_antisym a b).
  destruct (bytes_cmp a b); cbn; auto.
Qed.

Lemma bytes_leb_antisym a b :
  bytes_leb a b = true -> bytes_leb b a = true -> a = b.
Proof.
  rewrite (bytes_leb_lt_or_eq a b). unfold bytes_leb.
  rewrite (bytes_cmp_antisym a b). intros [H|H]; [by rewrite H|done].
Qed.

(** Equal-length prefixes are compared first. *)
Lemma bytes_ltb_ge a b : bytes_ltb a b = false <-> bytes_leb b a = true.
Proof. rewrite (bytes_leb_ltb b a). by destruct (bytes_ltb a b). Qed.

Lemma bytes_leb_gt a b : bytes_leb a b = false <-> bytes_ltb b a = true.
Proof. rewrite (bytes_leb_ltb a b). by destruct (bytes_ltb b a). Qed.

Lemma bytes_ltb_leb a b : bytes_ltb a b = true -> bytes_leb a b = true.
Proof. unfold bytes_ltb, bytes_leb. by destruct (bytes_cmp a b). Qed.

Lemma bytes_ltb_leb_trans a b c : bytes_ltb a b = true -> bytes_leb b c = true -> bytes_ltb a c = true.
Proof.
  rewrite <-!bytes_leb_gt. intros Hab Hbc. destruct (bytes_leb c a) eqn:Hca; [|done].
  by rewrite (bytes_leb_trans b c a Hbc Hca) in Hab.
Qed.

Lemma bytes_leb_ltb_trans a b c : bytes_leb a b = true -> bytes_ltb b c = true -> bytes_ltb a c = true.
Proof.
  rewrite <-!bytes_leb_gt. intros Hab Hbc. destruct (bytes_leb c a) eqn:Hca; [|done].
  by rewrite (bytes_leb_trans c a b Hca Hab) in Hbc.
Qed.

Lemma bytes_cmp_app a b x y :
  length a = length b ->
  bytes_cmp (a ++ x) (b ++ y) = then_cmp (bytes_cmp a b) (bytes_cmp x y).
Proof.
  revert b. induction a as [|u a IH]; intros [|v b] Hl; cbn in *; try done.
  destruct (Z.compare u v); cbn; auto.
Qed.

Lemma bytes_cmp_app_l p x y : bytes_cmp (p ++ x) (p ++ y) = bytes_cmp x y.
Proof. rewrite bytes_cmp_app by done. by rewrite bytes_cmp_refl. Qed.

Lemma bytes_ok_app a b : bytes_ok (a ++ b) <-> bytes_ok a /\ bytes_ok b.
Proof. apply Forall_app. Qed.

Lemma bytes_ok_take n l : bytes_ok l -> bytes_ok (take n l).
Proof. apply Forall_take. Qed.

Lemma bytes_ok_drop n l : bytes_ok l -> bytes_ok (drop n l).
Proof. apply Forall_drop. Qed.

Lemma bytes_ok_replicate n b : u8_ok b -> bytes_ok (replicate n b).
Proof. intros. by apply Forall_replicate. Qed.

Lemma bytes_ok_map_not l : bytes_ok l -> bytes_ok (map not_u8 l).
Proof. induction 1; cbn; constructor; auto using not_u8_ok. Qed.

Lemma map_not_u8_involutive l : map not_u8 (map not_u8 l) = l.
Proof. induction l; cbn; [done|]. by rewrite not_u8_involutive, IHl. Qed.

Lemma map_not_replicate n b : map not_u8 (replicate n b) = replicate n (not_u8 b).
Proof. induction n; cbn; [done|]. by rewrite IHn. Qed.

(** Negating every byte reverses the order of strings of equal length. *)
Lemma bytes_cmp_map_not a b :
  length a = length b -> bytes_ok a -> bytes_ok b ->
  bytes_cmp (map not_u8 a) (map not_u8 b) = bytes_cmp b a.
Proof.
  intros Hl Ha. revert b Hl. induction Ha as [|x a Hx Ha IH]; intros [|y b] Hl Hb;
    cbn in *; try done.
  inversion Hb; subst. rewrite !not_u8_eq by done.
  rewrite IH by (try done; lia).
  replace (255 - x ?= 255 - y) with (y ?= x); [done|].
  destruct (Z.compare_spec y x), (Z.compare_spec (255 - x) (255 - y)); try done; lia.
Qed.

(** ** Sorted lists *)

Lemma sublist_Forall {A} (P : A -> Prop) l k : sublist l k -> Forall P k -> Forall P l.
Proof. induction 1; intros Hf; inversion_clear Hf; auto. Qed.

Lemma StronglySorted_sublist {A} (R : relation A) l k : sublist l k -> StronglySorted R k -> StronglySorted R l.
Proof.
  induction 1 as [|x l k Hlk IH|x l k Hlk IH]; [done| |]; intros Hs; inversion_clear Hs as [|?? Hk Hx].
  - constructor; [by apply IH|]. by eapply sublist_Forall.
  - by apply IH.
Qed.

(** ** Shared hints *)

Create HintDb tikv.
#[export] Hint Resolve not_u8_ok not_u64_ok bytes_ok_take bytes_ok_drop
  bytes_ok_replicate bytes_ok_map_not : tikv.
#[export] Hint Extern 1 (u8_ok _) => unfold u8_ok in *; lia : tikv.
#[export] Hint Extern 1 (u64_ok _) => unfold u64_ok in *; lia : tikv.
