(* ===== verification/Number.v ===== *)
(** * Fixed-width and variable-length integers of the codec

    Models [components/tikv_util/src/codec/number.rs] and the varint reader of
    [components/codec/src/number.rs] (the one [WriteRef::parse] uses).  A
    decoder takes the remaining input and returns the value together with the
    input that is left, which is what the [&mut BytesSlice] argument becomes.
    An [f64] is represented by its bits. *)

From Stdlib Require Import ZArith Lia.
From stdpp Require Import base numbers list.
From S2P Require Import Prelude.

Open Scope Z_scope.

(** ** Errors ([components/tikv_util/src/codec/mod.rs]) *)

Inductive io_error_kind : Type := UnexpectedEof | InvalidData.

Inductive codec_error : Type :=
| Io (k : io_error_kind)
| KeyLength
| KeyPadding
| KeyNotFound
| ValueLength
| ValueMeta.

Definition unexpected_eof : codec_error := Io UnexpectedEof.

Definition codec_error_maybe_clone (e : codec_error) : option codec_error :=
  match e with
  | KeyLength => Some KeyLength
  | KeyPadding => Some KeyPadding
  | KeyNotFound => Some KeyNotFound
  | ValueLength => Some ValueLength
  | ValueMeta => Some ValueMeta
  | Io _ => None
  end.

Abbreviation codec_res := (res codec_error).

Definition read_slice (data : bytes) (size : nat) : codec_res (bytes * bytes) :=
  if (size <=? length data)%nat then Ok (take size data, drop size data)
  else Err unexpected_eof.

(** The loop of [next_prefix_of] over the reversed key: a trailing [0xff] is
    popped, the first other byte is incremented and ends the loop. *)
Fixpoint next_prefix_loop (rev_key : bytes) : bytes :=
  match rev_key with
  | [] => []
  | b :: r => if b =? 255 then next_prefix_loop r else (b + 1) :: r
  end.

Definition next_prefix_of (key : bytes) : bytes := rev (next_prefix_loop (rev key)).

(** ** Byte order *)

Fixpoint be_bytes (n : nat) (v : Z) : bytes :=
  match n with
  | O => []
  | S n' => (v / 256 ^ Z.of_nat n') mod 256 :: be_bytes n' (v mod 256 ^ Z.of_nat n')
  end.

Fixpoint be_value (l : bytes) : Z :=
  match l with
  | [] => 0
  | b :: l' => b * 256 ^ Z.of_nat (length l') + be_value l'
  end.

Fixpoint le_bytes (n : nat) (v : Z) : bytes :=
  match n with
  | O => []
  | S n' => v mod 256 :: le_bytes n' (v / 256)
  end.

Fixpoint le_value (l : bytes) : Z :=
  match l with
  | [] => 0
  | b :: l' => b + 256 * le_value l'
  end.

(** ** Encoders *)

Definition SIGN_MARK : Z := 2 ^ 63.
Definition MAX_VAR_U64_LEN : nat := 10.
Definition U64_SIZE : nat := 8.

Definition order_encode_i64 (v : i64) : u64 := Z.lxor (as_u64 v) SIGN_MARK.
Definition order_decode_i64 (u : u64) : i64 := as_i64 (Z.lxor u SIGN_MARK).

(** [v.is_sign_positive()] reads the top bit of the representation. *)
Definition order_encode_f64 (bits : u64) : u64 :=
  if negb (Z.testbit bits 63) then Z.lor bits SIGN_MARK else not_u64 bits.
Definition order_decode_f64 (u : u64) : u64 :=
  if 0 <? Z.land u SIGN_MARK then Z.land u (not_u64 SIGN_MARK) else not_u64 u.

Definition encode_u64 (v : u64) : bytes := be_bytes 8 v.
Definition encode_u64_desc (v : u64) : bytes := be_bytes 8 (not_u64 v).
Definition encode_i64 (v : i64) : bytes := encode_u64 (order_encode_i64 v).
Definition encode_i64_desc (v : i64) : bytes := encode_u64_desc (order_encode_i64 v).
Definition encode_f64 (bits : u64) : bytes := encode_u64 (order_encode_f64 bits).
Definition encode_f64_desc (bits : u64) : bytes := encode_u64_desc (order_encode_f64 bits).
Definition encode_u32 (v : Z) : bytes := be_bytes 4 v.
Definition encode_u16 (v : Z) : bytes := be_bytes 2 v.
Definition encode_u16_le (v : Z) : bytes := le_bytes 2 v.
Definition encode_u32_le (v : Z) : bytes := le_bytes 4 v.
Definition encode_u64_le (v : u64) : bytes := le_bytes 8 v.
Definition encode_i64_le (v : i64) : bytes := le_bytes 8 (as_u64 v).

(** The [while v >= 0x80] loop of [encode_var_u64].  Ten rounds are enough for
    64 bits ([encode_var_u64_unfold]). *)
Fixpoint encode_var_u64_loop (fuel : nat) (v : u64) : bytes :=
  match fuel with
  | O => []
  | S fuel' =>
      if 128 <=? v then Z.lor (as_u8 v) 128 :: encode_var_u64_loop fuel' (Z.shiftr v 7)
      else [as_u8 v]
  end.

Definition encode_var_u64 (v : u64) : bytes := encode_var_u64_loop 10 v.

Definition encode_var_i64 (v : i64) : bytes :=
  let vx := as_u64 (Z.shiftl (as_u64 v) 1) in
  encode_var_u64 (if v <? 0 then not_u64 vx else vx).

(** ** Decoders *)

Definition read_num_bytes {A} (size : nat) (data : bytes) (f : bytes -> A)
    : codec_res (A * bytes) :=
  if (size <=? length data)%nat then Ok (f (take size data), drop size data)
  else Err unexpected_eof.

Definition decode_u64 (data : bytes) : codec_res (u64 * bytes) :=
  read_num_bytes 8 data be_value.
Definition decode_u32 (data : bytes) : codec_res (Z * bytes) :=
  read_num_bytes 4 data be_value.
Definition decode_u16 (data : bytes) : codec_res (Z * bytes) :=
  read_num_bytes 2 data be_value.
Definition decode_u64_desc (data : bytes) : codec_res (u64 * bytes) :=
  '(v, rest) ← decode_u64 data; Ok (not_u64 v, rest).
Definition decode_i64 (data : bytes) : codec_res (i64 * bytes) :=
  '(u, rest) ← decode_u64 data; Ok (order_decode_i64 u, rest).
Definition decode_i64_desc (data : bytes) : codec_res (i64 * bytes) :=
  '(u, rest) ← decode_u64_desc data; Ok (order_decode_i64 u, rest).
Definition decode_f64 (data : bytes) : codec_res (u64 * bytes) :=
  '(u, rest) ← decode_u64 data; Ok (order_decode_f64 u, rest).
Definition decode_f64_desc (data : bytes) : codec_res (u64 * bytes) :=
  '(u, rest) ← decode_u64_desc data; Ok (order_decode_f64 u, rest).
Definition decode_u16_le (data : bytes) : codec_res (Z * bytes) :=
  read_num_bytes 2 data le_value.
Definition decode_u32_le (data : bytes) : codec_res (Z * bytes) :=
  read_num_bytes 4 data le_value.
Definition decode_u64_le (data : bytes) : codec_res (u64 * bytes) :=
  read_num_bytes 8 data le_value.
Definition decode_i64_le (data : bytes) : codec_res (i64 * bytes) :=
  '(v, rest) ← decode_u64_le data; Ok (as_i64 v, rest).

Definition read_u8 (data : bytes) : codec_res (u8 * bytes) :=
  match data with
  | b :: rest => Ok (b, rest)
  | [] => Err unexpected_eof
  end.

(** The unrolled branch of [decode_var_u64]: [n] rounds of the [0..9] loop are
    left, [i] is its index, and the tenth byte follows.  [get_unchecked] past
    the end is [Panic]. *)
Fixpoint decode_var_u64_fast (n : nat) (i : Z) (acc : u64) (data : bytes)
    : codec_res (u64 * bytes) :=
  match n, data with
  | _, [] => Panic
  | O, b :: rest =>
      if b <=? 1 then
        Ok (Z.lor acc (as_u64 (Z.shiftl (Z.land b 127) (i * 7))), rest)
      else Err (Io InvalidData)
  | S n', b :: rest =>
      let acc' := Z.lor acc (as_u64 (Z.shiftl (Z.land b 127) (i * 7))) in
      if b <? 128 then Ok (acc', rest) else decode_var_u64_fast n' (i + 1) acc' rest
  end.

(** The last loop, over the whole remaining input. *)
Fixpoint decode_var_u64_slow (i : Z) (acc : u64) (data : bytes)
    : codec_res (u64 * bytes) :=
  match data with
  | [] => Err unexpected_eof
  | b :: rest =>
      let acc' := Z.lor acc (as_u64 (Z.shiftl (Z.land b 127) (i * 7))) in
      if b <? 128 then Ok (acc', rest) else decode_var_u64_slow (i + 1) acc' rest
  end.

Definition decode_var_u64 (data : bytes) : codec_res (u64 * bytes) :=
  match data with
  | [] => decode_var_u64_slow 0 0 data
  | b0 :: rest =>
      if b0 <? 128 then Ok (Z.land b0 127, rest)
      else if ((10 <=? length data)%nat || (List.last data 0 <? 128))%bool
      then decode_var_u64_fast 9 0 0 data
      else decode_var_u64_slow 0 0 data
  end.

Definition decode_var_i64 (data : bytes) : codec_res (i64 * bytes) :=
  '(v, rest) ← decode_var_u64 data;
  let vx := Z.shiftr v 1 in
  if Z.land v 1 =? 0 then Ok (as_i64 vx, rest) else Ok (as_i64 (not_u64 vx), rest).

(** *** The second varint reader ([NumberCodec::try_decode_var_u64])

    [n] rounds of its [1..=9] loop are left; the tenth byte is masked with
    [0x01], so this reader has no overflow error. *)
Fixpoint try_decode_var_u64_fast (n : nat) (shift : Z) (val : u64) (buf : bytes)
    : codec_res (u64 * bytes) :=
  match n, buf with
  | _, [] => Panic
  | O, b :: rest => Ok (Z.lor val (as_u64 (Z.shiftl (Z.land b 1) shift)), rest)
  | S n', b :: rest =>
      let val' := Z.lor val (as_u64 (Z.shiftl (Z.land b 127) shift)) in
      if b <? 128 then Ok (val', rest) else try_decode_var_u64_fast n' (shift + 7) val' rest
  end.

Fixpoint try_decode_var_u64_slow (shift : Z) (val : u64) (buf : bytes)
    : codec_res (u64 * bytes) :=
  match buf with
  | [] => Err unexpected_eof
  | b :: rest =>
      if 128 <=? b then
        try_decode_var_u64_slow (shift + 7)
          (Z.lor val (as_u64 (Z.shiftl (Z.land b 127) shift))) rest
      else Ok (Z.lor val (as_u64 (Z.shiftl b shift)), rest)
  end.

Definition try_decode_var_u64 (buf : bytes) : codec_res (u64 * bytes) :=
  if (10 <=? length buf)%nat then try_decode_var_u64_fast 9 0 0 buf
  else try_decode_var_u64_slow 0 0 buf.

(** [NumberDecoder::read_var_u64] advances the reader by the decoded bytes. *)
Definition read_var_u64 (buf : bytes) : codec_res (u64 * bytes) := try_decode_var_u64 buf.

(** ** Fixed-width lemmas *)

Lemma be_bytes_length n v : length (be_bytes n v) = n.
Proof. revert v. induction n; intros; cbn; auto. Qed.

Lemma be_bytes_ok n v : bytes_ok (be_bytes n v).
Proof.
  revert v. induction n; intros; cbn; constructor; [|apply IHn].
  unfold u8_ok. apply Z.mod_pos_bound. lia.
Qed.

Lemma pow256_S n : 256 ^ Z.of_nat (S n) = 256 * 256 ^ Z.of_nat n.
Proof. rewrite Nat2Z.inj_succ, Z.pow_succ_r by lia. done. Qed.

Lemma pow256_pos n : 0 < 256 ^ Z.of_nat n.
Proof. apply Z.pow_pos_nonneg; lia. Qed.

Lemma be_value_bytes n v : 0 <= v < 256 ^ Z.of_nat n -> be_value (be_bytes n v) = v.
Proof.
  revert v. induction n as [|n IH]; intros v Hv; cbn [be_bytes be_value].
  - change (256 ^ Z.of_nat 0) with 1 in Hv. lia.
  - rewrite be_bytes_length. pose proof (pow256_pos n). rewrite pow256_S in Hv.
    rewrite IH by (apply Z.mod_pos_bound; lia).
    rewrite (Z.mod_small (v / _)); [|split; [apply Z.div_pos|apply Z.div_lt_upper_bound]; lia].
    pose proof (Z.div_mod v (256 ^ Z.of_nat n)). lia.
Qed.

Lemma be_value_range l : bytes_ok l -> 0 <= be_value l < 256 ^ Z.of_nat (length l).
Proof.
  induction 1 as [|b l Hb Hl IH]; [cbn; lia|].
  cbn [be_value length]. rewrite pow256_S. unfold u8_ok in Hb. nia.
Qed.

Lemma be_bytes_value l : bytes_ok l -> be_bytes (length l) (be_value l) = l.
Proof.
  induction 1 as [|b l Hb Hl IH]; [done|]. cbn [be_value length be_bytes].
  pose proof (be_value_range l Hl). pose proof (pow256_pos (length l)).
  rewrite Z.add_comm, Z.div_add, Z_mod_plus_full by lia.
  rewrite (Z.div_small (be_value l)), (Z.mod_small (be_value l)), IH by lia.
  unfold u8_ok in Hb. rewrite Z.mod_small by lia. f_equal; lia.
Qed.

Lemma be_value_cmp a b :
  length a = length b -> bytes_ok a -> bytes_ok b ->
  bytes_cmp a b = Z.compare (be_value a) (be_value b).
Proof.
  intros Hl Ha. revert b Hl. induction Ha as [|x a Hx Ha IH]; intros [|y b] Hl Hb;
    cbn in Hl; try done.
  inversion Hb as [|?? Hy Hb']; subst. cbn [bytes_cmp be_value].
  rewrite (IH b) by (try done; lia).
  pose proof (be_value_range _ Ha). pose proof (be_value_range _ Hb').
  replace (length b) with (length a) in * by lia.
  pose proof (pow256_pos (length a)).
  set (p := 256 ^ Z.of_nat (length a)) in *.
  destruct (Z.compare_spec x y).
  - subst. destruct (Z.compare_spec (be_value a) (be_value b)),
      (Z.compare_spec (y * p + be_value a) (y * p + be_value b)); try done; lia.
  - symmetry. apply Z.compare_lt_iff. nia.
  - symmetry. apply Z.compare_gt_iff. nia.
Qed.

Lemma be_bytes_cmp n u v :
  0 <= u < 256 ^ Z.of_nat n -> 0 <= v < 256 ^ Z.of_nat n ->
  bytes_cmp (be_bytes n u) (be_bytes n v) = Z.compare u v.
Proof.
  intros Hu Hv. rewrite be_value_cmp by (rewrite ?be_bytes_length; auto using be_bytes_ok).
  by rewrite !be_value_bytes.
Qed.

Lemma le_bytes_length n v : length (le_bytes n v) = n.
Proof. revert v. induction n; intros; cbn; auto. Qed.

Lemma le_value_bytes n v : 0 <= v < 256 ^ Z.of_nat n -> le_value (le_bytes n v) = v.
Proof.
  revert v. induction n as [|n IH]; intros v Hv; cbn [le_bytes le_value].
  - change (256 ^ Z.of_nat 0) with 1 in Hv. lia.
  - rewrite pow256_S in Hv.
    rewrite IH; [pose proof (Z.div_mod v 256); lia|].
    split; [apply Z.div_pos|apply Z.div_lt_upper_bound]; lia.
Qed.

Lemma read_num_bytes_app {A} n l s (f : bytes -> A) :
  length l = n -> read_num_bytes n (l ++ s) f = Ok (f l, s).
Proof.
  intros <-. unfold read_num_bytes. rewrite length_app.
  destruct (Nat.leb_spec (length l) (length l + length s)); [|lia].
  by rewrite take_app_length, drop_app_length.
Qed.

Lemma read_num_bytes_short {A} n l (f : bytes -> A) :
  (length l < n)%nat -> read_num_bytes n l f = Err unexpected_eof.
Proof. intros. unfold read_num_bytes. destruct (Nat.leb_spec n (length l)); [lia|done]. Qed.

Lemma u64_ok_range v : u64_ok v -> 0 <= v < 256 ^ Z.of_nat 8.
Proof. exact id. Qed.

Lemma encode_u64_length v : length (encode_u64 v) = 8%nat.
Proof. apply be_bytes_length. Qed.

Lemma encode_u64_desc_length v : length (encode_u64_desc v) = 8%nat.
Proof. apply be_bytes_length. Qed.

Lemma encode_u64_desc_ok v : bytes_ok (encode_u64_desc v).
Proof. apply be_bytes_ok. Qed.

Lemma decode_encode_u64 v s : u64_ok v -> decode_u64 (encode_u64 v ++ s) = Ok (v, s).
Proof.
  intros Hv. unfold decode_u64, encode_u64.
  rewrite read_num_bytes_app by apply be_bytes_length.
  rewrite be_value_bytes; [done|by apply u64_ok_range].
Qed.

Lemma decode_encode_u64_desc v s :
  u64_ok v -> decode_u64_desc (encode_u64_desc v ++ s) = Ok (v, s).
Proof.
  intros Hv. unfold decode_u64_desc, encode_u64_desc.
  rewrite (decode_encode_u64 (not_u64 v)) by auto with tikv. cbn.
  by rewrite not_u64_involutive.
Qed.

(** The descending encoding reverses the order of timestamps. *)
Lemma encode_u64_desc_cmp u v :
  u64_ok u -> u64_ok v ->
  bytes_cmp (encode_u64_desc u) (encode_u64_desc v) = Z.compare v u.
Proof.
  intros Hu Hv. unfold encode_u64_desc.
  rewrite be_bytes_cmp by auto using u64_ok_range with tikv.
  rewrite !not_u64_eq by done.
  destruct (Z.compare_spec v u), (Z.compare_spec (u64_max - u) (u64_max - v)); try done; lia.
Qed.

Lemma encode_u64_desc_inj u v :
  u64_ok u -> u64_ok v -> encode_u64_desc u = encode_u64_desc v -> u = v.
Proof.
  intros Hu Hv H. pose proof (encode_u64_desc_cmp u v Hu Hv) as Hc.
  rewrite H, bytes_cmp_refl in Hc. symmetry in Hc. apply Z.compare_eq in Hc. done.
Qed.

Lemma encode_u64_desc_surj l :
  length l = 8%nat -> bytes_ok l -> exists v, u64_ok v /\ encode_u64_desc v = l.
Proof.
  intros Hl Hb. exists (not_u64 (be_value l)).
  pose proof (be_value_range l Hb) as Hr. rewrite Hl in Hr.
  split; [apply not_u64_ok; exact Hr|].
  unfold encode_u64_desc. rewrite not_u64_involutive, <-Hl. by apply be_bytes_value.
Qed.

(** ** Order-preserving signed integers and floats *)

Lemma lxor_sign u : u64_ok u ->
  Z.lxor u SIGN_MARK = if u <? 2 ^ 63 then u + 2 ^ 63 else u - 2 ^ 63.
Proof.
  intros Hu. unfold SIGN_MARK, u64_ok in *. destruct (Z.ltb_spec u (2 ^ 63)).
  - rewrite Z.add_nocarry_lxor; [done|]. apply Z.bits_inj'. intros i Hi.
    rewrite Z.land_spec, Z.bits_0, Z.pow2_bits_eqb by lia.
    destruct (Z.eqb_spec 63 i); [|by rewrite andb_false_r].
    by rewrite (testbit_high u 63) by lia.
  - rewrite <-(Z.lxor_0_r (u - 2 ^ 63)), <-(Z.lxor_nilpotent (2 ^ 63)), <-Z.lxor_assoc.
    f_equal. rewrite <-Z.add_nocarry_lxor; [lia|]. apply Z.bits_inj'. intros i Hi.
    rewrite Z.land_spec, Z.bits_0, Z.pow2_bits_eqb by lia.
    destruct (Z.eqb_spec 63 i); [|by rewrite andb_false_r].
    by rewrite (testbit_high (u - 2 ^ 63) 63) by lia.
Qed.

Lemma order_encode_i64_eq v : i64_ok v -> order_encode_i64 v = v + 2 ^ 63.
Proof.
  intros Hv. unfold order_encode_i64, i64_ok in *.
  assert (as_u64 v = if v <? 0 then v + 2 ^ 64 else v) as E.
  { unfold as_u64. destruct (Z.ltb_spec v 0); [|apply Z.mod_small; lia].
    rewrite <-(Z_mod_plus_full v 1). apply Z.mod_small. lia. }
  rewrite lxor_sign by (unfold u64_ok; rewrite E; zcase; lia). rewrite E. zcase; lia.
Qed.

Lemma order_encode_i64_ok v : i64_ok v -> u64_ok (order_encode_i64 v).
Proof. intros H. rewrite order_encode_i64_eq by done. unfold i64_ok, u64_ok in *. lia. Qed.

Lemma order_decode_encode_i64 v : i64_ok v -> order_decode_i64 (order_encode_i64 v) = v.
Proof.
  intros Hv. rewrite order_encode_i64_eq by done. unfold order_decode_i64, i64_ok in *.
  rewrite lxor_sign by (unfold u64_ok; lia). unfold as_i64. zcase; lia.
Qed.

Lemma testbit_63 u : u64_ok u -> Z.testbit u 63 = (2 ^ 63 <=? u).
Proof.
  intros Hu. unfold u64_ok in *. destruct (Z.leb_spec (2 ^ 63) u).
  - rewrite Z.testbit_true by lia.
    assert (u / 2 ^ 63 = 1) as ->; [|done]. symmetry.
    apply (Z.div_unique _ _ 1 (u - 2 ^ 63)); lia.
  - apply (testbit_high u 63); lia.
Qed.

(** The IEEE total order of representations: negative numbers by descending
    magnitude, then positive numbers by magnitude. *)
Definition f64_rank (bits : u64) : Z :=
  if 2 ^ 63 <=? bits then 2 ^ 63 - 1 - bits else bits.

Lemma order_encode_f64_eq bits :
  u64_ok bits -> order_encode_f64 bits = f64_rank bits + 2 ^ 63.
Proof.
  intros Hb. unfold order_encode_f64, f64_rank. rewrite testbit_63 by done.
  destruct (Z.leb_spec (2 ^ 63) bits); cbn [negb].
  - rewrite not_u64_eq by done. unfold u64_max. lia.
  - pose proof (lxor_sign bits Hb) as E. destruct (Z.ltb_spec bits (2 ^ 63)); [|lia].
    rewrite <-E. symmetry. apply Z.lxor_lor. apply Z.bits_inj'. intros i Hi.
    unfold SIGN_MARK. rewrite Z.land_spec, Z.bits_0, Z.pow2_bits_eqb by lia.
    destruct (Z.eqb_spec 63 i); [|by rewrite andb_false_r].
    unfold u64_ok in Hb. by rewrite (testbit_high bits 63) by lia.
Qed.

Lemma order_encode_f64_ok bits : u64_ok bits -> u64_ok (order_encode_f64 bits).
Proof.
  intros H. rewrite order_encode_f64_eq by done. unfold f64_rank, u64_ok in *. zcase; lia.
Qed.

Lemma land_sign u : u64_ok u -> Z.land u SIGN_MARK = if 2 ^ 63 <=? u then 2 ^ 63 else 0.
Proof.
  intros Hu. rewrite <-(testbit_63 u Hu). apply Z.bits_inj'. intros i Hi.
  unfold SIGN_MARK. rewrite Z.land_spec, Z.pow2_bits_eqb by lia.
  destruct (Z.eqb_spec 63 i) as [<-|Hne].
  - destruct (Z.testbit u 63); [by rewrite Z.pow2_bits_true by lia|by rewrite Z.bits_0].
  - rewrite andb_false_r.
    destruct (Z.testbit u 63); [by rewrite Z.pow2_bits_false by lia|by rewrite Z.bits_0].
Qed.

Lemma land_not_sign u : u64_ok u ->
  Z.land u (not_u64 SIGN_MARK) = if 2 ^ 63 <=? u then u - 2 ^ 63 else u.
Proof.
  intros Hu. rewrite (not_u64_eq SIGN_MARK) by (unfold SIGN_MARK, u64_ok; lia).
  change (u64_max - SIGN_MARK) with (Z.ones 63). rewrite Z.land_ones by lia.
  unfold u64_ok in Hu. destruct (Z.leb_spec (2 ^ 63) u); [|apply Z.mod_small; lia].
  rewrite <-(Z_mod_plus_full u (-1)). apply Z.mod_small. lia.
Qed.

Lemma order_decode_encode_f64 bits :
  u64_ok bits -> order_decode_f64 (order_encode_f64 bits) = bits.
Proof.
  intros Hb. pose proof (order_encode_f64_ok bits Hb) as Ho.
  unfold order_decode_f64. rewrite land_sign, land_not_sign, not_u64_eq by done.
  rewrite order_encode_f64_eq in * by done. unfold f64_rank, u64_max, u64_ok in *.
  repeat (zcase; cbn in *); lia.
Qed.

(** ** Varints

    [var_enc l v]: [l] is a well-formed base-128 string (every byte but the
    last has its top bit set) of value [v]. *)
Inductive var_enc : bytes -> Z -> Prop :=
| var_enc_last b : 0 <= b < 128 -> var_enc [b] b
| var_enc_more b l v : 128 <= b < 256 -> var_enc l v -> var_enc (b :: l) (b - 128 + 128 * v).

Lemma var_enc_nonneg l v : var_enc l v -> 0 <= v.
Proof. induction 1; lia. Qed.

Lemma land_127 b : u8_ok b -> Z.land b 127 = if b <? 128 then b else b - 128.
Proof.
  intros Hb. change 127 with (Z.ones 7). rewrite Z.land_ones by lia. unfold u8_ok in Hb.
  change (2 ^ 7) with 128. destruct (Z.ltb_spec b 128); [apply Z.mod_small; lia|].
  rewrite <-(Z_mod_plus_full b (-1)). apply Z.mod_small. lia.
Qed.

Lemma lor_shift a b s :
  0 <= s -> 0 <= a < 2 ^ s -> 0 <= b -> Z.lor a (Z.shiftl b s) = a + b * 2 ^ s.
Proof.
  intros Hs Ha Hb. rewrite <-Z.shiftl_mul_pow2 by lia.
  rewrite <-Z.lxor_lor, Z.add_nocarry_lxor; [done| |]; apply Z.bits_inj'; intros i Hi;
    rewrite Z.land_spec, Z.bits_0;
    (destruct (Z.lt_ge_cases i s);
      [rewrite Z.shiftl_spec_low, andb_false_r by lia; done
      |by rewrite (testbit_high a s) by lia]).
Qed.

(** One round of a varint loop adds the next base-128 digit. *)
Lemma var_step acc b s :
  0 <= s -> 0 <= acc < 2 ^ s -> 0 <= b -> b * 2 ^ s < 2 ^ 64 ->
  Z.lor acc (as_u64 (Z.shiftl b s)) = acc + b * 2 ^ s.
Proof.
  intros Hs Ha Hb Hlt. unfold as_u64. rewrite Z.mod_small; [by apply lor_shift|].
  rewrite Z.shiftl_mul_pow2 by lia. pose proof (Z.pow_pos_nonneg 2 s). nia.
Qed.

Lemma lor_128 b : 0 <= b < 128 -> Z.lor b 128 = b + 128.
Proof. intros H. exact (lor_shift b 1 7 ltac:(lia) H ltac:(lia)). Qed.

Lemma as_u8_lor_128 v : 0 <= v -> Z.lor (as_u8 v) 128 = v mod 128 + 128.
Proof.
  intros Hv. unfold as_u8.
  assert (v mod 256 = v mod 128 \/ v mod 256 = v mod 128 + 128) as [->| ->].
  { pose proof (Z.mod_pos_bound v 128). pose proof (Z.mod_pos_bound v 256).
    pose proof (Z.div_mod v 128). pose proof (Z.div_mod v 256). lia. }
  - apply lor_128. apply Z.mod_pos_bound. lia.
  - rewrite <-lor_128 by (apply Z.mod_pos_bound; lia).
    by rewrite <-Z.lor_assoc, Z.lor_diag.
Qed.

Lemma shiftr_7 v : Z.shiftr v 7 = v / 128.
Proof. by rewrite Z.shiftr_div_pow2 by lia. Qed.

Lemma encode_var_u64_loop_enc fuel v :
  0 <= v < 128 ^ Z.of_nat fuel -> (0 < fuel)%nat ->
  var_enc (encode_var_u64_loop fuel v) v
  /\ (length (encode_var_u64_loop fuel v) <= fuel)%nat.
Proof.
  revert v. induction fuel as [|fuel IH]; intros v Hv Hf; [lia|].
  cbn [encode_var_u64_loop]. rewrite Nat2Z.inj_succ, Z.pow_succ_r in Hv by lia.
  destruct (Z.leb_spec 128 v) as [Hge|Hlt].
  - assert (0 < fuel)%nat by (destruct fuel; [cbn in Hv; lia|lia]).
    rewrite as_u8_lor_128, shiftr_7 by lia.
    destruct (IH (v / 128)) as [He Hl];
      [split; [apply Z.div_pos|apply Z.div_lt_upper_bound]; lia|done|].
    pose proof (Z.mod_pos_bound v 128). pose proof (Z.div_mod v 128).
    split; [|cbn [length]; lia].
    apply (var_enc_more (v mod 128 + 128)) in He; [|lia].
    by replace (v mod 128 + 128 - 128 + 128 * (v / 128)) with v in He by lia.
  - unfold as_u8. rewrite Z.mod_small by lia. split; [constructor; lia|cbn; lia].
Qed.

Lemma u64_128 v : u64_ok v -> 0 <= v < 128 ^ Z.of_nat 10.
Proof. unfold u64_ok. change (128 ^ Z.of_nat 10) with (2 ^ 70). lia. Qed.

Lemma encode_var_u64_enc v : u64_ok v -> var_enc (encode_var_u64 v) v.
Proof. intros Hv. apply encode_var_u64_loop_enc; [by apply u64_128|lia]. Qed.

Lemma encode_var_u64_length v : u64_ok v -> (length (encode_var_u64 v) <= 10)%nat.
Proof. intros Hv. apply encode_var_u64_loop_enc; [by apply u64_128|lia]. Qed.

Lemma pow7_succ i : 0 <= i -> 2 ^ ((i + 1) * 7) = 128 * 2 ^ (i * 7).
Proof.
  intros Hi. replace ((i + 1) * 7) with (7 + i * 7) by lia. by rewrite Z.pow_add_r by lia.
Qed.

Lemma u8_ok_of_enc b l v : var_enc (b :: l) v -> u8_ok b.
Proof. inversion 1; unfold u8_ok; lia. Qed.

(** The value accumulated so far and the bounds that keep every shift within
    64 bits. *)
Definition var_inv (i acc v : Z) : Prop :=
  0 <= i /\ 0 <= acc < 2 ^ (i * 7) /\ v * 2 ^ (i * 7) < 2 ^ 64.

Lemma var_inv_0 v : u64_ok v -> var_inv 0 0 v.
Proof. unfold var_inv, u64_ok. cbn. lia. Qed.

Lemma var_inv_step i acc b v :
  128 <= b < 256 -> 0 <= v -> var_inv i acc (b - 128 + 128 * v) ->
  Z.lor acc (as_u64 (Z.shiftl (Z.land b 127) (i * 7))) = acc + (b - 128) * 2 ^ (i * 7)
  /\ var_inv (i + 1) (acc + (b - 128) * 2 ^ (i * 7)) v.
Proof.
  intros Hb Hv (Hi & Ha & Hlt). rewrite land_127 by (unfold u8_ok; lia).
  destruct (Z.ltb_spec b 128); [lia|].
  rewrite var_step by nia. split; [done|]. unfold var_inv. rewrite pow7_succ by lia. nia.
Qed.

Lemma var_inv_last i acc b :
  0 <= b < 128 -> var_inv i acc b ->
  Z.lor acc (as_u64 (Z.shiftl b (i * 7))) = acc + b * 2 ^ (i * 7).
Proof. intros Hb (Hi & Ha & Hlt). by rewrite var_step by lia. Qed.

Lemma land_127_small b : 0 <= b < 128 -> Z.land b 127 = b.
Proof. intros. rewrite land_127 by (unfold u8_ok; lia). zcase; lia. Qed.

Lemma var_sum acc b v i :
  0 <= i -> acc + (b - 128) * 2 ^ (i * 7) + v * 2 ^ ((i + 1) * 7)
  = acc + (b - 128 + 128 * v) * 2 ^ (i * 7).
Proof. intros. rewrite pow7_succ by lia. lia. Qed.

Lemma decode_var_u64_slow_enc l v s i acc :
  var_enc l v -> var_inv i acc v ->
  decode_var_u64_slow i acc (l ++ s) = Ok (acc + v * 2 ^ (i * 7), s).
Proof.
  intros He. revert i acc. induction He as [b Hb|b l v Hb He IH]; intros i acc Hinv; cbn.
  - rewrite land_127_small, var_inv_last by done. zcase; [done|lia].
  - pose proof (var_enc_nonneg _ _ He).
    destruct (var_inv_step i acc b v) as [-> Hinv']; [done..|].
    destruct (Z.ltb_spec b 128); [lia|]. rewrite IH by done.
    destruct Hinv. by rewrite var_sum.
Qed.

Lemma decode_var_u64_fast_enc l v s n i acc :
  var_enc l v -> var_inv i acc v -> (length l <= S n)%nat -> i = 9 - Z.of_nat n ->
  decode_var_u64_fast n i acc (l ++ s) = Ok (acc + v * 2 ^ (i * 7), s).
Proof.
  intros He. revert n i acc. induction He as [b Hb|b l v Hb He IH]; intros n i acc Hinv Hl Hi.
  - destruct n; cbn; rewrite land_127_small, var_inv_last by done; zcase; try done; try lia.
    destruct Hinv as (_ & _ & Hlt). replace i with 9 in Hlt by lia. cbn in Hlt. lia.
  - cbn [length] in Hl. destruct n; [inversion He; subst; cbn in Hl; lia|]. cbn.
    pose proof (var_enc_nonneg _ _ He).
    destruct (var_inv_step i acc b v) as [-> Hinv']; [done..|].
    destruct (Z.ltb_spec b 128); [lia|]. rewrite IH by (try done; lia).
    destruct Hinv. by rewrite var_sum.
Qed.

Lemma decode_var_u64_enc l v s :
  var_enc l v -> u64_ok v -> (length l <= 10)%nat ->
  decode_var_u64 (l ++ s) = Ok (v, s).
Proof.
  intros He Hv Hl. pose proof (var_inv_0 v Hv).
  destruct l as [|b l]; [inversion He|]. cbn [app decode_var_u64].
  change (b :: l ++ s) with ((b :: l) ++ s).
  destruct (Z.ltb_spec b 128).
  - inversion He; subst; [|lia]. by rewrite land_127_small.
  - destruct (_ || _)%bool.
    + rewrite (decode_var_u64_fast_enc _ v) by (try done; cbn in *; lia). f_equal. f_equal. lia.
    + rewrite (decode_var_u64_slow_enc _ v) by done. f_equal. f_equal. lia.
Qed.

Lemma try_decode_var_u64_slow_enc l v s i acc :
  var_enc l v -> var_inv i acc v ->
  try_decode_var_u64_slow (i * 7) acc (l ++ s) = Ok (acc + v * 2 ^ (i * 7), s).
Proof.
  intros He. revert i acc. induction He as [b Hb|b l v Hb He IH]; intros i acc Hinv; cbn.
  - destruct (Z.leb_spec 128 b); [lia|]. by rewrite var_inv_last.
  - pose proof (var_enc_nonneg _ _ He).
    destruct (var_inv_step i acc b v) as [-> Hinv']; [done..|].
    destruct (Z.leb_spec 128 b); [|lia].
    replace (i * 7 + 7) with ((i + 1) * 7) by lia. rewrite IH by done.
    destruct Hinv. by rewrite var_sum.
Qed.

Lemma try_decode_var_u64_fast_enc l v s n i acc :
  var_enc l v -> var_inv i acc v -> (length l <= S n)%nat -> i = 9 - Z.of_nat n ->
  try_decode_var_u64_fast n (i * 7) acc (l ++ s) = Ok (acc + v * 2 ^ (i * 7), s).
Proof.
  intros He. revert n i acc. induction He as [b Hb|b l v Hb He IH]; intros n i acc Hinv Hl Hi.
  - destruct n; cbn.
    + assert (b = 0 \/ b = 1) as [-> | ->].
      { destruct Hinv as (_ & _ & Hlt). replace i with 9 in Hlt by lia. cbn in Hlt. lia. }
      all: rewrite ?Z.land_0_l, ?(land_127_small 1), ?Z.land_diag, var_inv_last by (done || lia); done.
    + rewrite land_127_small, var_inv_last by done. zcase; [done|lia].
  - cbn [length] in Hl. destruct n; [inversion He; subst; cbn in Hl; lia|]. cbn.
    pose proof (var_enc_nonneg _ _ He).
    destruct (var_inv_step i acc b v) as [-> Hinv']; [done..|].
    destruct (Z.ltb_spec b 128); [lia|].
    replace (i * 7 + 7) with ((i + 1) * 7) by lia. rewrite IH by (try done; lia).
    destruct Hinv. by rewrite var_sum.
Qed.

Lemma try_decode_var_u64_enc l v s :
  var_enc l v -> u64_ok v -> (length l <= 10)%nat ->
  try_decode_var_u64 (l ++ s) = Ok (v, s).
Proof.
  intros He Hv Hl. pose proof (var_inv_0 v Hv). unfold try_decode_var_u64.
  change 0 with (0 * 7) at 1 3. destruct (_ <=? _)%nat.
  - rewrite (try_decode_var_u64_fast_enc _ v) by (try done; lia). f_equal. f_equal. lia.
  - rewrite (try_decode_var_u64_slow_enc _ v) by done. f_equal. f_equal. lia.
Qed.

Lemma decode_encode_var_u64 v s :
  u64_ok v -> decode_var_u64 (encode_var_u64 v ++ s) = Ok (v, s).
Proof. auto using decode_var_u64_enc, encode_var_u64_enc, encode_var_u64_length. Qed.

Lemma try_decode_encode_var_u64 v s :
  u64_ok v -> try_decode_var_u64 (encode_var_u64 v ++ s) = Ok (v, s).
Proof. auto using try_decode_var_u64_enc, encode_var_u64_enc, encode_var_u64_length. Qed.

Lemma var_enc_bound l v : var_enc l v -> v < 128 ^ Z.of_nat (length l).
Proof.
  induction 1; [cbn; lia|]. cbn [length]. rewrite Nat2Z.inj_succ, Z.pow_succ_r by lia. lia.
Qed.

(** Every input starts with a varint or consists of continuation bytes only. *)
Lemma var_enc_split d :
  bytes_ok d ->
  (exists l v rest, d = l ++ rest /\ var_enc l v) \/ Forall (fun b => 128 <= b) d.
Proof.
  induction 1 as [|b d Hb Hd IH]; [by right|]. unfold u8_ok in Hb.
  destruct (Z.lt_ge_cases b 128).
  - left. exists [b], b, d. split; [done|]. constructor; lia.
  - destruct IH as [(l & v & rest & -> & He)|Hall]; [left|right; by constructor].
    exists (b :: l), (b - 128 + 128 * v), rest. split; [done|]. constructor; [lia|done].
Qed.

Lemma decode_var_u64_fast_overflow p b r n i acc :
  Forall (fun x => 128 <= x) p -> length p = n -> 1 < b ->
  decode_var_u64_fast n i acc (p ++ b :: r) = Err (Io InvalidData).
Proof.
  intros Hp. revert n i acc. induction Hp as [|x p Hx Hp IH]; intros n i acc <- Hb; cbn.
  - zcase; [lia|done].
  - destruct (Z.ltb_spec x 128); [lia|]. by apply IH.
Qed.

Lemma decode_var_u64_overflow p b r :
  Forall (fun x => 128 <= x) p -> length p = 9%nat -> 1 < b ->
  decode_var_u64 (p ++ b :: r) = Err (Io InvalidData).
Proof.
  intros Hp Hl Hb. pose proof (decode_var_u64_fast_overflow p b r 9 0 0 Hp Hl Hb) as E.
  destruct p as [|x p]; [done|]. cbn [app] in *. unfold decode_var_u64.
  inversion Hp; subst. destruct (Z.ltb_spec x 128); [lia|].
  rewrite E. replace (10 <=? _)%nat with true; [done|]. symmetry. apply Nat.leb_le.
  cbn in *. rewrite length_app. cbn. lia.
Qed.

Lemma decode_var_u64_slow_eof d i acc :
  Forall (fun x => 128 <= x) d -> decode_var_u64_slow i acc d = Err unexpected_eof.
Proof.
  intros Hd. revert i acc. induction Hd as [|x d Hx Hd IH]; intros; cbn; [done|].
  destruct (Z.ltb_spec x 128); [lia|]. apply IH.
Qed.

Lemma decode_var_u64_eof d :
  Forall (fun x => 128 <= x) d -> (length d < 10)%nat ->
  decode_var_u64 d = Err unexpected_eof.
Proof.
  intros Hd Hl. pose proof (decode_var_u64_slow_eof d 0 0 Hd) as E.
  unfold decode_var_u64. destruct d as [|b d']; [done|]. inversion Hd; subst.
  destruct (Z.ltb_spec b 128); [lia|].
  destruct (Nat.leb_spec 10 (length (b :: d'))); [lia|].
  destruct (Z.ltb_spec (List.last (b :: d') 0) 128) as [Hlast|]; [|done].
  exfalso. assert (128 <= List.last (b :: d') 0); [|lia].
  rewrite Forall_forall in Hd. apply Hd. rewrite list_elem_of_In.
  destruct (@exists_last _ (b :: d')) as (l' & a & ->); [done|].
  rewrite last_last. apply in_or_app. right. by left.
Qed.

Lemma take_drop_mid {A} (d : list A) n :
  (n < length d)%nat -> exists p b r, d = p ++ b :: r /\ length p = n.
Proof.
  intros Hn. destruct (lookup_lt_is_Some_2 d n Hn) as [b Hb].
  exists (take n d), b, (drop (S n) d). split.
  - by rewrite take_drop_middle.
  - rewrite length_take. lia.
Qed.

Lemma var_enc_prefix_more l v p b r :
  var_enc l v -> l = p ++ b :: r -> Forall (fun x => 128 <= x) p.
Proof.
  intros He. revert p. induction He as [x Hx|x l v Hx He IH]; intros [|y p] E; cbn in E;
    try by constructor.
  - injection E as -> E. by destruct p.
  - injection E as -> E. constructor; [lia|]. by apply (IH p).
Qed.

Lemma var_enc_tenth l v :
  var_enc l v -> (9 < length l)%nat -> u64_ok v /\ length l = 10%nat \/
  exists p b r, l = p ++ b :: r /\ length p = 9%nat /\ Forall (fun x => 128 <= x) p /\ 1 < b.
Proof.
  intros He Hl. destruct (take_drop_mid l 9 Hl) as (p & b & r & -> & Hp).
  pose proof (var_enc_prefix_more _ _ p b r He eq_refl) as Hall.
  destruct (Z.lt_ge_cases 1 b); [right; by exists p, b, r|left].
  assert (forall q w, var_enc (q ++ b :: r) w ->
    r = [] /\ w < 128 ^ Z.of_nat (length q) * 2) as Hind.
  { intros q. induction q as [|y q IHq]; intros w Hw; cbn [app] in Hw;
      inversion Hw; subst; cbn [length]; rewrite ?Nat2Z.inj_succ, ?Z.pow_succ_r by lia;
      try (split; [done|cbn; lia]); try (by destruct q); try lia.
    destruct (IHq v0) as [? ?]; [done|]. split; [done|lia]. }
  destruct (Hind p v He) as [-> Hb]. rewrite Hp in Hb.
  pose proof (var_enc_nonneg _ _ He). unfold u64_ok. change (128 ^ Z.of_nat 9) with (2 ^ 63) in Hb.
  rewrite length_app. cbn [length]. split; lia.
Qed.

Lemma u64_ok_short_varint l v : var_enc l v -> (length l <= 9)%nat -> u64_ok v.
Proof.
  intros He Hl. pose proof (var_enc_nonneg _ _ He). pose proof (var_enc_bound _ _ He).
  assert (128 ^ Z.of_nat (length l) <= 128 ^ 9) by (apply Z.pow_le_mono_r; lia).
  change (128 ^ 9) with (2 ^ 63) in *. unfold u64_ok. lia.
Qed.

(** ** Theorems *)

(** The varint decoder is characterised on every byte string: it returns
    the value of a leading base-128 string of at most ten bytes that fits in 64
    bits, with the rest of the input; it reports end of input exactly when
    fewer than ten bytes are there and none ends the number; it reports
    overflow when nine continuation bytes are followed by a byte above one.  In
    particular none of its unchecked reads is out of bounds. *)
Theorem decode_var_u64_classify d :
  bytes_ok d ->
  (exists l v rest, d = l ++ rest /\ var_enc l v /\ u64_ok v /\ (length l <= 10)%nat
     /\ decode_var_u64 d = Ok (v, rest))
  \/ (Forall (fun b => 128 <= b) d /\ (length d < 10)%nat
     /\ decode_var_u64 d = Err unexpected_eof)
  \/ (exists p b r, d = p ++ b :: r /\ length p = 9%nat /\ Forall (fun b => 128 <= b) p
     /\ 1 < b /\ decode_var_u64 d = Err (Io InvalidData)).
Proof.
  intros Hd. destruct (var_enc_split d Hd) as [(l & v & rest & -> & He)|Hall].
  - destruct (Nat.le_gt_cases (length l) 9) as [Hs|Hs].
    + left. exists l, v, rest. pose proof (u64_ok_short_varint l v He Hs).
      repeat split; auto using decode_var_u64_enc with lia; try apply H; lia.
    + destruct (var_enc_tenth l v He Hs) as [[Hv Hl]|(p & b & r & -> & Hp & Hall & Hb)].
      * left. exists l, v, rest. repeat split; auto; try apply Hv; try lia.
        apply decode_var_u64_enc; auto; lia.
      * right; right. exists p, b, (r ++ rest). rewrite <-app_assoc. cbn.
        auto 10 using decode_var_u64_overflow.
  - destruct (Nat.le_gt_cases 10 (length d)) as [Hl|Hl].
    + right; right. destruct (take_drop_mid d 9) as (p & b & r & -> & Hp); [lia|].
      apply Forall_app in Hall as [Hp' Hb]. inversion Hb; subst.
      exists p, b, r. repeat split; auto; [lia|]. apply decode_var_u64_overflow; auto; lia.
    + right; left. auto using decode_var_u64_eof.
Qed.

Lemma decode_var_u64_classify_witness :
  bytes_ok [200; 1; 7] /\ decode_var_u64 [200; 1; 7] = Ok (200, [7]).
Proof.
  assert (H : bytes_ok [200; 1; 7]) by (repeat constructor; lia).
  split; [exact H|].
  destruct (decode_var_u64_classify _ H) as [_|[_|_]]; reflexivity.
Defined.

(** A 64-bit value written as a varint is read back by both varint readers
    of the code base, whatever follows it, and takes at most ten bytes. *)
Theorem var_u64_roundtrip v s :
  u64_ok v ->
  decode_var_u64 (encode_var_u64 v ++ s) = Ok (v, s)
  /\ read_var_u64 (encode_var_u64 v ++ s) = Ok (v, s)
  /\ (length (encode_var_u64 v) <= MAX_VAR_U64_LEN)%nat.
Proof.
  intros Hv. auto using decode_encode_var_u64, try_decode_encode_var_u64, encode_var_u64_length.
Qed.

Lemma var_u64_roundtrip_witness :
  u64_ok u64_max /\ decode_var_u64 (encode_var_u64 u64_max ++ [5]) = Ok (u64_max, [5]).
Proof.
  assert (H : u64_ok u64_max) by (unfold u64_ok, u64_max; lia).
  split; [exact H|]. exact (proj1 (var_u64_roundtrip u64_max [5] H)).
Defined.

(** The zig-zag value of a signed integer. *)
Lemma zigzag_eq v : i64_ok v ->
  (if v <? 0 then not_u64 (as_u64 (Z.shiftl (as_u64 v) 1)) else as_u64 (Z.shiftl (as_u64 v) 1))
  = if v <? 0 then - 2 * v - 1 else 2 * v.
Proof.
  intros Hv. unfold i64_ok in Hv. rewrite Z.shiftl_mul_pow2 by lia.
  change (2 ^ 1) with 2. unfold as_u64. rewrite Zmult_mod_idemp_l.
  destruct (Z.ltb_spec v 0).
  - rewrite <-(Z_mod_plus_full (v * 2) 1), Z.mod_small by lia.
    rewrite not_u64_eq by (unfold u64_ok; lia). unfold u64_max. lia.
  - rewrite Z.mod_small by lia. lia.
Qed.

Lemma land_1 v : Z.land v 1 = v mod 2.
Proof. exact (Z.land_ones v 1 ltac:(lia)). Qed.

Lemma decode_encode_var_i64 v s :
  i64_ok v -> decode_var_i64 (encode_var_i64 v ++ s) = Ok (v, s).
Proof.
  intros Hv. unfold decode_var_i64, encode_var_i64. rewrite zigzag_eq by done.
  unfold i64_ok in Hv.
  rewrite decode_encode_var_u64 by (unfold u64_ok; zcase; lia). cbn.
  rewrite Z.shiftr_div_pow2, land_1 by lia. change (2 ^ 1) with 2.
  destruct (Z.ltb_spec v 0).
  - replace (-2 * v - 1) with (1 + (- v - 1) * 2) by lia.
    rewrite Z_mod_plus_full, Z.div_add by lia. change (1 mod 2 =? 0) with false.
    change (1 / 2) with 0. rewrite not_u64_eq by (unfold u64_ok; lia). unfold as_i64, u64_max.
    f_equal. f_equal. zcase; lia.
  - replace (2 * v) with (0 + v * 2) by lia. rewrite Z_mod_plus_full, Z.div_add by lia.
    change (0 mod 2 =? 0) with true. change (0 / 2) with 0. unfold as_i64. f_equal. f_equal. zcase; lia.
Qed.

Lemma encode_i64_cmp u v :
  i64_ok u -> i64_ok v -> bytes_cmp (encode_i64 u) (encode_i64 v) = Z.compare u v.
Proof.
  intros Hu Hv. unfold encode_i64, encode_u64.
  rewrite be_bytes_cmp by auto using u64_ok_range, order_encode_i64_ok.
  rewrite !order_encode_i64_eq by done.
  destruct (Z.compare_spec u v), (Z.compare_spec (u + 2 ^ 63) (v + 2 ^ 63)); try done; lia.
Qed.

Lemma encode_f64_cmp u v :
  u64_ok u -> u64_ok v ->
  bytes_cmp (encode_f64 u) (encode_f64 v) = Z.compare (f64_rank u) (f64_rank v).
Proof.
  intros Hu Hv. unfold encode_f64, encode_u64.
  rewrite be_bytes_cmp by auto using u64_ok_range, order_encode_f64_ok.
  rewrite !order_encode_f64_eq by done.
  destruct (Z.compare_spec (f64_rank u) (f64_rank v)),
    (Z.compare_spec (f64_rank u + 2 ^ 63) (f64_rank v + 2 ^ 63)); try done; lia.
Qed.

(** Signed integers and floats are memory-comparable: byte order of the
    encodings is the order of the numbers (for floats the IEEE total order of
    their representations), and each decoder inverts its encoder. *)
Theorem number_memcomparable :
  (forall u v s, i64_ok u -> i64_ok v ->
     bytes_cmp (encode_i64 u) (encode_i64 v) = Z.compare u v
     /\ decode_i64 (encode_i64 u ++ s) = Ok (u, s)
     /\ decode_i64_desc (encode_i64_desc u ++ s) = Ok (u, s)
     /\ decode_var_i64 (encode_var_i64 u ++ s) = Ok (u, s))
  /\ (forall u v s, u64_ok u -> u64_ok v ->
     bytes_cmp (encode_f64 u) (encode_f64 v) = Z.compare (f64_rank u) (f64_rank v)
     /\ decode_f64 (encode_f64 u ++ s) = Ok (u, s)
     /\ decode_f64_desc (encode_f64_desc u ++ s) = Ok (u, s)).
Proof.
  split; intros u v s Hu Hv.
  - pose proof (order_encode_i64_ok u Hu).
    unfold decode_i64, decode_i64_desc, encode_i64_desc. rewrite decode_encode_u64_desc by done.
    rewrite encode_i64_cmp, decode_encode_var_i64 by done. unfold encode_i64.
    rewrite decode_encode_u64 by done. cbn. by rewrite order_decode_encode_i64.
  - pose proof (order_encode_f64_ok u Hu).
    unfold decode_f64, decode_f64_desc, encode_f64_desc. rewrite decode_encode_u64_desc by done.
    rewrite encode_f64_cmp by done. unfold encode_f64.
    rewrite decode_encode_u64 by done. cbn. by rewrite order_decode_encode_f64.
Qed.

(** The two varint readers disagree on a tenth byte above one: one reports an
    overflow, the other drops the excess bits. *)
Theorem varint_readers_differ :
  decode_var_u64 (replicate 9 128 ++ [2]) = Err (Io InvalidData)
  /\ read_var_u64 (replicate 9 128 ++ [2]) = Ok (0, []).
Proof. split; reflexivity. Qed.

(** ** Prefix successor *)

Lemma next_prefix_loop_split r :
  bytes_ok r ->
  (next_prefix_loop r = [] /\ Forall (eq 255) r)
  \/ exists f b t, r = f ++ b :: t /\ Forall (eq 255) f /\ 0 <= b < 255
     /\ next_prefix_loop r = (b + 1) :: t.
Proof.
  induction 1 as [|b r Hb Hr IH]; cbn; [by left|]. unfold u8_ok in Hb.
  destruct (Z.eqb_spec b 255) as [->|Hne].
  - destruct IH as [[-> Hf]|(f & b & t & -> & Hf & Hb' & ->)].
    + left. by split; [|constructor].
    + right. exists (255 :: f), b, t. repeat split; auto; lia.
  - right. exists [], b, r. repeat split; auto; lia.
Qed.

Lemma prefix_of_255 f k :
  Forall (eq 255) f -> bytes_ok k -> bytes_leb f k = true -> f `prefix_of` k.
Proof.
  intros Hf. revert k. induction Hf as [|x f <- Hf IH]; intros [|y k] Hk Hle;
    try (unfold bytes_leb in Hle; cbn in Hle; done).
  - apply prefix_nil.
  - inversion Hk as [|?? Hy Hk']; subst. unfold bytes_leb in Hle. cbn [bytes_cmp] in Hle.
    unfold u8_ok in Hy. destruct (Z.compare_spec 255 y); [subst|lia|done].
    apply prefix_cons. by apply IH.
Qed.

Lemma bytes_leb_prefix p k : p `prefix_of` k -> bytes_leb p k = true.
Proof.
  intros [s ->]. unfold bytes_leb. rewrite <-(app_nil_r p) at 1.
  rewrite bytes_cmp_app_l. by destruct s.
Qed.

Lemma bytes_leb_app_l p x y : bytes_leb (p ++ x) (p ++ y) = bytes_leb x y.
Proof. unfold bytes_leb. by rewrite bytes_cmp_app_l. Qed.

(** Between [t ++ b :: f] (with [f] all [0xff]) and [t ++ [b + 1]] lie exactly
    the extensions of the former. *)
Lemma between_prefix t b f k :
  bytes_ok k -> Forall (eq 255) f ->
  bytes_leb (t ++ b :: f) k = true -> bytes_ltb k (t ++ [b + 1]) = true ->
  (t ++ b :: f) `prefix_of` k.
Proof.
  revert k. induction t as [|x t IH]; intros [|y k] Hk Hf; unfold bytes_leb, bytes_ltb;
    cbn; try done; inversion Hk; subst.
  - destruct (Z.compare_spec b y); [subst|..]; try done.
    + destruct (Z.compare_spec y (y + 1)); try lia. intros Hle _.
      apply prefix_cons. by apply prefix_of_255.
    + destruct (Z.compare_spec y (b + 1)); try lia; try done. destruct k; done.
  - destruct (Z.compare_spec x y); [subst|..]; try done.
    + rewrite Z.compare_refl. intros Hle Hlt. apply prefix_cons. by apply IH.
    + destruct (Z.compare_spec y x); try lia; done.
Qed.

Lemma bytes_ok_rev l : bytes_ok l -> bytes_ok (rev l).
Proof. unfold bytes_ok. rewrite !List.Forall_forall. intros H x Hx. apply H. by apply in_rev. Qed.

(** The half-open range from a key to its prefix successor, the empty
    successor meaning infinity, contains exactly the keys that extend the
    key. *)
Theorem next_prefix_of_spec p k :
  bytes_ok p -> bytes_ok k ->
  p `prefix_of` k <->
  bytes_leb p k = true /\ (next_prefix_of p = [] \/ bytes_ltb k (next_prefix_of p) = true).
Proof.
  intros Hp Hk. unfold next_prefix_of.
  destruct (next_prefix_loop_split (rev p) (bytes_ok_rev p Hp))
    as [[-> Hf]|(f & b & t & E & Hf & Hb & ->)].
  - apply Forall_rev in Hf. rewrite rev_involutive in Hf.
    split; [auto using bytes_leb_prefix|]. intros [Hle _]. by apply prefix_of_255.
  - apply (f_equal (@rev Z)) in E. rewrite rev_involutive, rev_app_distr in E. cbn in E |- *.
    rewrite <-app_assoc in E. cbn in E. subst p.
    assert (Forall (eq 255) (rev f)) as Hf' by (apply Forall_rev in Hf; done).
    split.
    + intros Hpre. split; [by apply bytes_leb_prefix|right].
      destruct Hpre as [s ->]. unfold bytes_ltb. rewrite <-app_assoc, bytes_cmp_app_l. cbn.
      destruct (Z.compare_spec b (b + 1)); [lia|done|lia].
    + intros [Hle [Hn|Hlt]]; [by destruct (rev t)|]. by apply between_prefix.
Qed.

Lemma next_prefix_of_spec_witness :
  bytes_ok [42; 255] /\ bytes_ok [42; 255; 3]
  /\ [42; 255] `prefix_of` [42; 255; 3] /\ next_prefix_of [42; 255] = [43].
Proof.
  assert (H1 : bytes_ok [42; 255]) by (repeat constructor; lia).
  assert (H2 : bytes_ok [42; 255; 3]) by (repeat constructor; lia).
  split; [exact H1|]. split; [exact H2|]. split; [|reflexivity].
  apply (next_prefix_of_spec _ _ H1 H2). split; [reflexivity|right; reflexivity].
Defined.
