(* ===== verification/Bytes.v ===== *)
(** * Memory-comparable and compact byte strings

    Models [components/tikv_util/src/codec/bytes.rs].  A key is cut into groups
    of eight bytes, each followed by a marker byte that tells how many bytes of
    the group are padding, so that the byte order of encodings is the byte
    order of keys.  Theorems: the order is preserved even when suffixes follow,
    the decoder inverts the encoder and accepts nothing else, the in-place
    decoder and the [is_encoded_from] shortcut agree with it. *)

From Stdlib Require Import ZArith Lia.
From stdpp Require Import base numbers list.
From S2P Require Import Prelude Number.

Open Scope Z_scope.

Definition ENC_GROUP_SIZE : nat := 8.
Definition ENC_MARKER : u8 := 255.

Definition max_encoded_bytes_size (n : nat) : nat :=
  (n / ENC_GROUP_SIZE + 1) * (ENC_GROUP_SIZE + 1).

(** ** Encoding *)

Definition adjust_bytes_order (bs : bytes) (desc : bool) : bytes :=
  if desc then map not_u8 bs else bs.

(** [&l[from..to]]. *)
Definition slice (l : bytes) (from to : nat) : bytes := take (to - from) (drop from l).

Fixpoint encode_bytes_loop (fuel index : nat) (key : bytes) (desc : bool) : bytes :=
  match fuel with
  | O => []
  | S fuel' =>
      let len := length key in
      if (index <=? len)%nat then
        let remain := (len - index)%nat in
        let '(group, pad) :=
          if (ENC_GROUP_SIZE <? remain)%nat then
            (adjust_bytes_order (slice key index (index + ENC_GROUP_SIZE)) desc, O)
          else
            let pad := (ENC_GROUP_SIZE - remain)%nat in
            (adjust_bytes_order (drop index key) desc
               ++ (if desc then replicate pad 255 else replicate pad 0), pad) in
        group ++ adjust_bytes_order [ENC_MARKER - Z.of_nat pad] desc
          ++ encode_bytes_loop fuel' (index + ENC_GROUP_SIZE) key desc
      else []
  end.

Definition encode_order_bytes (bs : bytes) (desc : bool) : bytes :=
  encode_bytes_loop (length bs / 8 + 2) 0 bs desc.
Definition encode_bytes (bs : bytes) : bytes := encode_order_bytes bs false.
Definition encode_bytes_desc (bs : bytes) : bytes := encode_order_bytes bs true.

Definition encode_compact_bytes (data : bytes) : bytes :=
  encode_var_i64 (zlen data) ++ data.

(** ** Lengths of encoded data *)

Definition encoded_compact_len (encoded : bytes) : Z :=
  match decode_var_i64 encoded with
  | Ok (vn, rest) => as_u64 (as_u64 vn + (zlen encoded - zlen rest))
  | _ => zlen encoded
  end.

Fixpoint encoded_bytes_len_loop (fuel idx : nat) (encoded : bytes) (desc : bool) : nat :=
  match fuel with
  | O => length encoded
  | S fuel' =>
      if (length encoded <? idx + 1)%nat then length encoded
      else
        let marker := nth idx encoded 0 in
        if ((desc && negb (marker =? 0)) || (negb desc && negb (marker =? ENC_MARKER)))%bool
        then (idx + 1)%nat
        else encoded_bytes_len_loop fuel' (idx + ENC_GROUP_SIZE + 1) encoded desc
  end.

Definition encoded_bytes_len (encoded : bytes) (desc : bool) : nat :=
  encoded_bytes_len_loop (length encoded) ENC_GROUP_SIZE encoded desc.

(** ** Decoding *)

Definition decode_compact_bytes (data : bytes) : codec_res (bytes * bytes) :=
  '(vn, data) ← decode_var_i64 data;
  let vn := as_u64 vn in
  if vn <=? zlen data then Ok (take (Z.to_nat vn) data, drop (Z.to_nat vn) data)
  else Err unexpected_eof.

(** [CompactBytesFromFileDecoder::decode_compact_bytes]: the length is read
    byte by byte; [vec![0; vn]] panics above [isize::MAX]. *)
Fixpoint read_var_data (n : nat) (reader : bytes) : codec_res (bytes * bytes) :=
  match n with
  | O => Ok ([], reader)
  | S n' =>
      '(b, reader) ← read_u8 reader;
      if b <? 128 then Ok ([b], reader)
      else '(l, reader) ← read_var_data n' reader; Ok (b :: l, reader)
  end.

Definition decode_compact_bytes_from_file (reader : bytes) : codec_res (bytes * bytes) :=
  '(var_data, reader) ← read_var_data MAX_VAR_U64_LEN reader;
  '(vn, _) ← decode_var_i64 var_data;
  let vn := as_u64 vn in
  if 2 ^ 63 <=? vn then Panic
  else if vn <=? zlen reader then Ok (take (Z.to_nat vn) reader, drop (Z.to_nat vn) reader)
  else Err unexpected_eof.

(** The number of padding bytes a marker announces. *)
Definition pad_size_of (desc : bool) (marker : u8) : Z :=
  if desc then marker else ENC_MARKER - marker.

(** The loop of [decode_bytes]; [data] is the input from [offset] on. *)
Fixpoint decode_bytes_loop (fuel : nat) (key data : bytes) (desc : bool)
    : codec_res (bytes * bytes) :=
  match fuel with
  | O => Panic
  | S fuel' =>
      if negb (ENC_GROUP_SIZE + 1 <=? length data)%nat then Err unexpected_eof
      else
        let chunk := take (ENC_GROUP_SIZE + 1) data in
        let data := drop (ENC_GROUP_SIZE + 1) data in
        let marker := nth ENC_GROUP_SIZE chunk 0 in
        let bs := take ENC_GROUP_SIZE chunk in
        let pad_size := pad_size_of desc marker in
        if pad_size =? 0 then decode_bytes_loop fuel' (key ++ bs) data desc
        else if 8 <? pad_size then Err KeyPadding
        else
          let split := (ENC_GROUP_SIZE - Z.to_nat pad_size)%nat in
          let key := key ++ take split bs in
          let pad_byte := if desc then 255 else 0 in
          if existsb (fun x => negb (x =? pad_byte)) (drop split bs) then Err KeyPadding
          else Ok (if desc then map not_u8 key else key, data)
  end.

Definition decode_bytes (data : bytes) (desc : bool) : codec_res (bytes * bytes) :=
  decode_bytes_loop (length data / 9 + 1) [] data desc.

(** [ptr::copy(data + from, data + to, n)]: the source is read before it is
    overwritten. *)
Definition memmove (data : bytes) (from to n : nat) : bytes :=
  take to data ++ slice data from (from + n) ++ drop (to + n) data.

Fixpoint decode_bytes_in_place_loop (fuel write_offset read_offset : nat) (data : bytes)
    (desc : bool) : codec_res bytes :=
  match fuel with
  | O => Panic
  | S fuel' =>
      let marker_offset := (read_offset + ENC_GROUP_SIZE)%nat in
      if (length data <=? marker_offset)%nat then Err unexpected_eof
      else
        let data := memmove data read_offset write_offset ENC_GROUP_SIZE in
        let write_offset := (write_offset + ENC_GROUP_SIZE)%nat in
        let read_offset := (read_offset + ENC_GROUP_SIZE + 1)%nat in
        let marker := nth marker_offset data 0 in
        let pad_size := pad_size_of desc marker in
        if 0 <? pad_size then
          if 8 <? pad_size then Err KeyPadding
          else
            let pad := Z.to_nat pad_size in
            let padding_slice := replicate pad (if desc then 255 else 0) in
            if negb (bytes_eqb (slice data (write_offset - pad) write_offset) padding_slice)
            then Err KeyPadding
            else
              let data := take (write_offset - pad) data in
              Ok (if desc then map not_u8 data else data)
        else decode_bytes_in_place_loop fuel' write_offset read_offset data desc
  end.

Definition decode_bytes_in_place (data : bytes) (desc : bool) : codec_res bytes :=
  decode_bytes_in_place_loop (length data / 9 + 1) 0 0 data desc.

(** ** [is_encoded_from] *)

(** [l.chunks_exact(n)] and its remainder; [l.rchunks_exact(n)] and its. *)
Fixpoint chunks_exact_loop (fuel n : nat) (l : bytes) : list bytes :=
  match fuel with
  | O => []
  | S fuel' =>
      if (n <=? length l)%nat then take n l :: chunks_exact_loop fuel' n (drop n l) else []
  end.
Definition chunks_exact (n : nat) (l : bytes) : list bytes := chunks_exact_loop (length l) n l.
Definition chunks_remainder (n : nat) (l : bytes) : bytes := drop (length l / n * n) l.
Definition rchunks_exact (n : nat) (l : bytes) : list bytes :=
  rev (chunks_exact n (drop (length l mod n) l)).
Definition rchunks_remainder (n : nat) (l : bytes) : bytes := take (length l mod n) l.

Definition check_single_chunk (desc : bool) (encoded raw : bytes) : bool :=
  let len := length raw in
  let pad := Z.of_nat (ENC_GROUP_SIZE - len) in
  if desc then
    (nth ENC_GROUP_SIZE encoded 0 =? not_u8 (ENC_MARKER - pad))
    && forallb (fun p => fst p =? not_u8 (snd p)) (zip (take len encoded) raw)
    && forallb (fun v => v =? ENC_MARKER) (slice encoded len (length encoded - 1))
  else
    (nth ENC_GROUP_SIZE encoded 0 =? ENC_MARKER - pad)
    && bytes_eqb (take len encoded) raw
    && forallb (fun v => v =? not_u8 ENC_MARKER) (slice encoded len (length encoded - 1)).

Definition is_encoded_from (encoded raw : bytes) (desc : bool) : bool :=
  if negb (bytes_eqb (rchunks_remainder (ENC_GROUP_SIZE + 1) encoded) []) then false
  else
    let raw_chunks := chunks_exact ENC_GROUP_SIZE raw in
    match rchunks_exact (ENC_GROUP_SIZE + 1) encoded with
    | [] => false
    | encoded_chunk :: rev_encoded_chunks =>
        if check_single_chunk desc encoded_chunk (chunks_remainder ENC_GROUP_SIZE raw) then
          if negb (length rev_encoded_chunks =? length raw_chunks)%nat then false
          else forallb (fun p => check_single_chunk desc (fst p) (snd p))
                 (zip rev_encoded_chunks (rev raw_chunks))
        else false
    end.

(** ** Reference encoding

    [group_enc] is one nine-byte unit, [enc_ref] the encoding by recursion on
    eight-byte groups. *)

Definition group_enc (g : bytes) : bytes :=
  g ++ replicate (8 - length g) 0 ++ [247 + Z.of_nat (length g)].

Fixpoint enc_ref (l : bytes) : bytes :=
  match l with
  | a :: b :: c :: d :: e :: f :: g :: h :: t =>
      group_enc [a; b; c; d; e; f; g; h] ++ enc_ref t
  | _ => group_enc l
  end.

Lemma split_group {A} (l : list A) :
  (8 <= length l)%nat -> exists g t, l = g ++ t /\ length g = 8%nat.
Proof.
  intros H. exists (take 8 l), (drop 8 l).
  split; [by rewrite take_drop|rewrite length_take; lia].
Qed.

Lemma enc_ref_group g t : length g = 8%nat -> enc_ref (g ++ t) = group_enc g ++ enc_ref t.
Proof. intros Hg. do 8 (destruct g as [|? g]; [done|]). by destruct g. Qed.

Lemma enc_ref_short l : (length l < 8)%nat -> enc_ref l = group_enc l.
Proof. intros Hl. do 8 (destruct l as [|? l]; [done|]). cbn in Hl. lia. Qed.

Lemma group_enc_8 g : length g = 8%nat -> group_enc g = g ++ [255].
Proof. intros Hg. unfold group_enc. by rewrite Hg. Qed.

Lemma group_enc_length g : (length g <= 8)%nat -> length (group_enc g) = 9%nat.
Proof. intros. unfold group_enc. rewrite !length_app, length_replicate. cbn. lia. Qed.

Lemma group_enc_ok g : bytes_ok g -> (length g <= 8)%nat -> bytes_ok (group_enc g).
Proof.
  intros Hg Hl. unfold group_enc. rewrite !bytes_ok_app. split; [done|].
  split; [apply bytes_ok_replicate; unfold u8_ok; lia|]. constructor; [unfold u8_ok; lia|done].
Qed.

(** Induction by groups of eight. *)
Lemma group_ind (P : bytes -> Prop) :
  (forall l, (length l < 8)%nat -> P l) ->
  (forall g t, length g = 8%nat -> P t -> P (g ++ t)) ->
  forall l, P l.
Proof.
  intros Hs Hg l. induction l as [l IH] using (induction_ltof1 _ (@length Z)).
  destruct (Nat.le_gt_cases 8 (length l)) as [Hl|Hl]; [|by apply Hs].
  destruct (split_group l Hl) as (g & t & -> & Hlg). apply Hg; [done|].
  apply IH. unfold ltof. rewrite length_app. lia.
Qed.

(** ** The encoder computes the reference encoding *)

Lemma adjust_app desc a b :
  adjust_bytes_order (a ++ b) desc = adjust_bytes_order a desc ++ adjust_bytes_order b desc.
Proof. destruct desc; cbn; [apply map_app|done]. Qed.

Lemma encode_bytes_loop_short fuel p l desc :
  (length l < 8)%nat ->
  encode_bytes_loop (S fuel) (length p) (p ++ l) desc
  = adjust_bytes_order (group_enc l) desc.
Proof.
  intros Hl. cbn [encode_bytes_loop]. rewrite length_app.
  destruct (Nat.leb_spec (length p) (length p + length l)); [|lia].
  unfold ENC_GROUP_SIZE. replace (length p + length l - length p)%nat with (length l) by lia.
  destruct (Nat.ltb_spec 8 (length l)); [lia|]. rewrite drop_app_length.
  assert (encode_bytes_loop fuel (length p + 8) (p ++ l) desc = []) as ->.
  { destruct fuel; [done|]. cbn [encode_bytes_loop]. rewrite length_app.
    by destruct (Nat.leb_spec (length p + 8) (length p + length l)); [lia|]. }
  rewrite app_nil_r. unfold group_enc, ENC_MARKER. rewrite !adjust_app, <-app_assoc.
  f_equal. f_equal.
  - destruct desc; cbn; [|done]. by rewrite map_not_replicate.
  - f_equal. f_equal. lia.
Qed.

Lemma encode_bytes_loop_group fuel p g t desc :
  length g = 8%nat ->
  encode_bytes_loop (S fuel) (length p) (p ++ g ++ t) desc
  = adjust_bytes_order (group_enc g) desc
    ++ encode_bytes_loop fuel (length (p ++ g)) ((p ++ g) ++ t) desc.
Proof.
  intros Hg. rewrite <-app_assoc. cbn [encode_bytes_loop]. rewrite !length_app, Hg.
  destruct (Nat.leb_spec (length p) (length p + (8 + length t))); [|lia].
  unfold ENC_GROUP_SIZE, slice, ENC_MARKER. rewrite drop_app_length, group_enc_8, (adjust_app desc g [255]) by done.
  destruct (Nat.ltb_spec 8 (length p + (8 + length t) - length p)).
  - rewrite take_app_le, take_ge by lia. cbn [adjust_bytes_order].
    by rewrite <-!app_assoc.
  - assert (t = []) as -> by (destruct t; [done|cbn in *; lia]).
    replace (8 - _)%nat with 0%nat by (cbn; lia). rewrite !app_nil_r.
    rewrite <-!app_assoc. f_equal. by destruct desc.
Qed.

Lemma encode_bytes_loop_ref desc l : forall p fuel,
  (length l / 8 < fuel)%nat ->
  encode_bytes_loop fuel (length p) (p ++ l) desc = adjust_bytes_order (enc_ref l) desc.
Proof.
  induction l as [l Hl|g t Hg IH] using group_ind; intros p fuel Hf;
    (destruct fuel as [|fuel]; [lia|]).
  - by rewrite encode_bytes_loop_short, enc_ref_short.
  - rewrite encode_bytes_loop_group, IH, enc_ref_group, adjust_app; try done.
    rewrite length_app, Hg in Hf.
    replace (8 + length t)%nat with (length t + 1 * 8)%nat in Hf by lia.
    rewrite Nat.div_add in Hf by lia. lia.
Qed.

Lemma encode_order_bytes_ref l desc :
  encode_order_bytes l desc = adjust_bytes_order (enc_ref l) desc.
Proof. apply (encode_bytes_loop_ref desc l []). lia. Qed.

Lemma encode_bytes_ref l : encode_bytes l = enc_ref l.
Proof. apply encode_order_bytes_ref. Qed.

Lemma enc_ref_length l : length (enc_ref l) = max_encoded_bytes_size (length l).
Proof.
  unfold max_encoded_bytes_size, ENC_GROUP_SIZE.
  induction l as [l Hl|g t Hg IH] using group_ind.
  - rewrite enc_ref_short, group_enc_length, Nat.div_small by lia. done.
  - rewrite enc_ref_group, !length_app, group_enc_length, IH, Hg by lia.
    replace (8 + length t)%nat with (length t + 1 * 8)%nat by lia.
    rewrite Nat.div_add by lia. lia.
Qed.

Lemma enc_ref_ok l : bytes_ok l -> bytes_ok (enc_ref l).
Proof.
  induction l as [l Hl|g t Hg IH] using group_ind; intros H.
  - rewrite enc_ref_short by done. apply group_enc_ok; [done|lia].
  - apply bytes_ok_app in H as [??]. rewrite enc_ref_group, bytes_ok_app by done.
    split; [apply group_enc_ok; [done|lia]|auto].
Qed.

(** ** Order *)

Lemma cmp_zeros n g m m' x y :
  length g = n -> Forall (Z.le 0) g -> m < m' ->
  bytes_cmp (replicate n 0 ++ m :: x) (g ++ m' :: y) = Lt.
Proof.
  intros <- Hg Hm. induction Hg as [|v g Hv Hg IH]; cbn [length replicate app bytes_cmp].
  - by destruct (Z.compare_spec m m'); [lia| |lia].
  - by destruct (Z.compare_spec 0 v); [| |lia].
Qed.

(** A padded group compares like its content, then like what follows. *)
Lemma cmp_padded c n a b x y :
  (length a <= n)%nat -> (length b <= n)%nat -> Forall (Z.le 0) a -> Forall (Z.le 0) b ->
  bytes_cmp (a ++ replicate (n - length a) 0 ++ (c + Z.of_nat (length a)) :: x)
            (b ++ replicate (n - length b) 0 ++ (c + Z.of_nat (length b)) :: y)
  = then_cmp (bytes_cmp a b) (bytes_cmp x y).
Proof.
  intros Hla Hlb Ha. revert c n b Hla Hlb.
  assert (forall c n v b x y, (length (v :: b) <= n)%nat -> Forall (Z.le 0) (v :: b) ->
    bytes_cmp (replicate n 0 ++ c :: x)
      ((v :: b) ++ replicate (n - length (v :: b)) 0 ++ (c + Z.of_nat (length (v :: b))) :: y) = Lt)
    as Hz.
  { intros c n v b x' y' Hl Hf. rewrite app_assoc. apply cmp_zeros.
    - rewrite length_app, length_replicate. lia.
    - apply Forall_app. split; [done|]. by apply Forall_replicate.
    - cbn [length]. lia. }
  induction Ha as [|u a Hu Ha IH]; intros c n [|v b] Hla Hlb Hb.
  - cbn [length app]. by rewrite bytes_cmp_app_l; cbn [bytes_cmp]; rewrite Z.compare_refl.
  - change (c + Z.of_nat (length [])) with (c + 0). rewrite Z.add_0_r.
    cbn [length] in Hz |- *. rewrite Nat.sub_0_r. cbn [app]. by apply Hz.
  - rewrite bytes_cmp_antisym. change (c + Z.of_nat (length [])) with (c + 0).
    rewrite Z.add_0_r, Nat.sub_0_r. cbn [app] in Hz |- *.
    rewrite Hz by (try done; by constructor). done.
  - inversion Hb; subst. cbn [app bytes_cmp].
    destruct (Z.compare u v); [|done..]. cbn [length] in *.
    replace (c + Z.of_nat (S (length a))) with (c + 1 + Z.of_nat (length a)) by lia.
    replace (c + Z.of_nat (S (length b))) with (c + 1 + Z.of_nat (length b)) by lia.
    destruct n as [|n]; [lia|]. apply IH; [lia..|done].
Qed.

Lemma bytes_ok_nonneg l : bytes_ok l -> Forall (Z.le 0) l.
Proof. intros H. eapply Forall_impl; [exact H|]. unfold u8_ok. lia. Qed.

Lemma group_enc_cmp a b x y :
  (length a <= 8)%nat -> (length b <= 8)%nat -> bytes_ok a -> bytes_ok b ->
  bytes_cmp (group_enc a ++ x) (group_enc b ++ y) = then_cmp (bytes_cmp a b) (bytes_cmp x y).
Proof.
  intros. unfold group_enc. rewrite <-!app_assoc. cbn [app].
  apply (cmp_padded 247); auto using bytes_ok_nonneg.
Qed.

Lemma bytes_cmp_longer a g t :
  (length a < length g)%nat ->
  bytes_cmp a (g ++ t) = bytes_cmp a g /\ bytes_cmp a g <> Eq.
Proof.
  intros Hl. split; [|by intros ->%bytes_cmp_eq; lia].
  revert g Hl. induction a as [|u a IH]; intros [|v g] Hl; cbn in *; try done; try lia.
  destruct (Z.compare u v); [|done..]. apply IH. lia.
Qed.

Lemma then_cmp_assoc c d e : then_cmp (then_cmp c d) e = then_cmp c (then_cmp d e).
Proof. by destruct c. Qed.

Lemma then_cmp_ne c d : c <> Eq -> then_cmp c d = c.
Proof. by destruct c. Qed.

Lemma CompOpp_then c d : CompOpp (then_cmp c d) = then_cmp (CompOpp c) (CompOpp d).
Proof. by destruct c. Qed.

Lemma enc_ref_cmp_short_group a g t x y :
  (length a < 8)%nat -> length g = 8%nat -> bytes_ok a -> bytes_ok g ->
  bytes_cmp (enc_ref a ++ x) (enc_ref (g ++ t) ++ y)
  = then_cmp (bytes_cmp a (g ++ t)) (bytes_cmp x y).
Proof.
  intros Hla Hlg Ha Hg. destruct (bytes_cmp_longer a g t) as [-> Hne]; [lia|].
  rewrite enc_ref_short, enc_ref_group, <-app_assoc, group_enc_cmp by (auto; lia).
  by rewrite !then_cmp_ne.
Qed.

Lemma enc_ref_cmp a : forall b x y,
  bytes_ok a -> bytes_ok b ->
  bytes_cmp (enc_ref a ++ x) (enc_ref b ++ y) = then_cmp (bytes_cmp a b) (bytes_cmp x y).
Proof.
  induction a as [a Hla|g t Hg IH] using group_ind; intros b x y Ha Hb;
    (destruct (Nat.le_gt_cases 8 (length b)) as [Hlb|Hlb];
      [destruct (split_group b Hlb) as (g' & t' & -> & Hg'); apply bytes_ok_app in Hb as [??]|]).
  - by apply enc_ref_cmp_short_group.
  - rewrite !enc_ref_short, group_enc_cmp by (auto; lia). done.
  - apply bytes_ok_app in Ha as [??].
    rewrite !enc_ref_group, <-!app_assoc, group_enc_cmp, IH by (auto; lia).
    rewrite (bytes_cmp_app g g') by congruence. by rewrite then_cmp_assoc.
  - apply bytes_ok_app in Ha as [??].
    rewrite bytes_cmp_antisym, enc_ref_cmp_short_group by done.
    by rewrite CompOpp_then, <-!bytes_cmp_antisym.
Qed.

Lemma encode_bytes_cmp a b x y :
  bytes_ok a -> bytes_ok b ->
  bytes_cmp (encode_bytes a ++ x) (encode_bytes b ++ y)
  = then_cmp (bytes_cmp a b) (bytes_cmp x y).
Proof. rewrite !encode_bytes_ref. apply enc_ref_cmp. Qed.

Lemma encode_bytes_app_inj a b x y :
  bytes_ok a -> bytes_ok b -> encode_bytes a ++ x = encode_bytes b ++ y -> a = b /\ x = y.
Proof.
  intros Ha Hb E. pose proof (encode_bytes_cmp a b x y Ha Hb) as H.
  rewrite E, bytes_cmp_refl in H. symmetry in H. rewrite <-!bytes_cmp_eq.
  by destruct (bytes_cmp a b).
Qed.

Lemma encode_bytes_inj a b : bytes_ok a -> bytes_ok b -> encode_bytes a = encode_bytes b -> a = b.
Proof.
  intros Ha Hb E. eapply (encode_bytes_app_inj a b [] []); [done..|]. by rewrite E.
Qed.

Lemma encode_bytes_ok l : bytes_ok l -> bytes_ok (encode_bytes l).
Proof. rewrite encode_bytes_ref. apply enc_ref_ok. Qed.

Lemma encode_bytes_length l : length (encode_bytes l) = max_encoded_bytes_size (length l).
Proof. rewrite encode_bytes_ref. apply enc_ref_length. Qed.

#[export] Hint Resolve encode_bytes_ok enc_ref_ok : tikv.

(** ** Decoding *)

(** The nine bytes at the head of an input: a full group goes on, a padded one
    ends the key. *)
Lemma decode_bytes_loop_unit fuel key u rest :
  length u = 9%nat ->
  decode_bytes_loop (S fuel) key (u ++ rest) false =
  let p := 255 - nth 8 u 0 in
  if p =? 0 then decode_bytes_loop fuel (key ++ take 8 u) rest false
  else if 8 <? p then Err KeyPadding
  else if existsb (fun x => negb (x =? 0)) (drop (8 - Z.to_nat p) (take 8 u)) then Err KeyPadding
  else Ok (key ++ take (8 - Z.to_nat p) u, rest).
Proof.
  intros Hu. cbn [decode_bytes_loop]. unfold ENC_GROUP_SIZE, ENC_MARKER. cbn [Nat.add].
  rewrite length_app, Hu. destruct (Nat.leb_spec 9 (9 + length rest)); [cbn [negb]|lia].
  assert (take 9 (u ++ rest) = u) as -> by (rewrite <-Hu; apply take_app_length).
  assert (drop 9 (u ++ rest) = rest) as -> by (rewrite <-Hu; apply drop_app_length).
  unfold pad_size_of, ENC_MARKER. rewrite take_take, Nat.min_l by lia. done.
Qed.

Lemma decode_bytes_loop_group fuel key g rest :
  length g = 8%nat ->
  decode_bytes_loop (S fuel) key (group_enc g ++ rest) false
  = decode_bytes_loop fuel (key ++ g) rest false.
Proof.
  intros Hg. rewrite decode_bytes_loop_unit by (apply group_enc_length; lia).
  rewrite group_enc_8 by done. rewrite app_nth2, Hg by lia. cbn.
  by rewrite take_app_le, take_ge by lia.
Qed.

Lemma existsb_replicate_0 n : existsb (fun x => negb (x =? 0)) (replicate n 0) = false.
Proof. by induction n. Qed.

Lemma decode_bytes_loop_last fuel key l rest :
  (length l < 8)%nat ->
  decode_bytes_loop (S fuel) key (group_enc l ++ rest) false = Ok (key ++ l, rest).
Proof.
  intros Hl. rewrite decode_bytes_loop_unit by (apply group_enc_length; lia).
  unfold group_enc. set (z := replicate (8 - length l) 0).
  assert (length (l ++ z) = 8%nat) as H8 by (unfold z; rewrite length_app, length_replicate; lia).
  rewrite !app_assoc, (app_nth2 (l ++ z)) by lia. rewrite H8. cbn [nth Nat.sub].
  cbv zeta. replace (255 - (247 + Z.of_nat (length l))) with (8 - Z.of_nat (length l)) by lia.
  destruct (Z.eqb_spec (8 - Z.of_nat (length l)) 0); [lia|].
  destruct (Z.ltb_spec 8 (8 - Z.of_nat (length l))); [lia|].
  replace (8 - Z.to_nat (8 - Z.of_nat (length l)))%nat with (length l) by lia.
  rewrite (take_app_le (l ++ z)), (take_ge (l ++ z)), drop_app_length by lia.
  unfold z. rewrite existsb_replicate_0. by rewrite <-app_assoc, take_app_length.
Qed.

Lemma decode_bytes_loop_enc l : forall key rest fuel,
  (length l / 8 < fuel)%nat ->
  decode_bytes_loop fuel key (enc_ref l ++ rest) false = Ok (key ++ l, rest).
Proof.
  induction l as [l Hl|g t Hg IH] using group_ind; intros key rest fuel Hf;
    (destruct fuel as [|fuel]; [lia|]).
  - rewrite enc_ref_short by done. by apply decode_bytes_loop_last.
  - rewrite enc_ref_group, <-app_assoc, decode_bytes_loop_group, IH by
      (try done; rewrite length_app, Hg in Hf;
       replace (8 + length t)%nat with (length t + 1 * 8)%nat in Hf by lia;
       rewrite Nat.div_add in Hf by lia; lia).
    by rewrite <-app_assoc.
Qed.

Lemma decode_encode_bytes l rest : decode_bytes (encode_bytes l ++ rest) false = Ok (l, rest).
Proof.
  unfold decode_bytes. rewrite encode_bytes_ref.
  apply (decode_bytes_loop_enc l []).
  rewrite length_app, enc_ref_length. unfold max_encoded_bytes_size, ENC_GROUP_SIZE.
  change (8 + 1)%nat with 9%nat. rewrite Nat.div_add_l by lia. lia.
Qed.

Lemma split_unit (d : bytes) :
  (9 <= length d)%nat ->
  exists g m rest, d = (g ++ [m]) ++ rest /\ length g = 8%nat.
Proof.
  intros H. destruct (split_group d) as (g & t & -> & Hg); [lia|].
  destruct t as [|m rest]; [rewrite length_app in H; cbn in H; lia|].
  exists g, m, rest. by rewrite <-app_assoc.
Qed.

Lemma existsb_all_0 l :
  existsb (fun x => negb (x =? 0)) l = false -> l = replicate (length l) 0.
Proof.
  induction l as [|x l IH]; cbn; [done|]. destruct (Z.eqb_spec x 0) as [->|]; [|done].
  cbn. intros H. by rewrite <-IH.
Qed.

Lemma decode_bytes_loop_eof fuel key d desc :
  (length d < 9)%nat -> decode_bytes_loop (S fuel) key d desc = Err unexpected_eof.
Proof.
  intros H. cbn [decode_bytes_loop]. unfold ENC_GROUP_SIZE.
  by destruct (Nat.leb_spec (8 + 1) (length d)); [lia|].
Qed.

(** A padded group the decoder accepts is the one the encoder writes. *)
Lemma group_enc_of_unit g m p :
  length g = 8%nat -> p = 255 - m -> 1 <= p <= 8 ->
  existsb (fun x => negb (x =? 0)) (drop (8 - Z.to_nat p) g) = false ->
  g ++ [m] = group_enc (take (8 - Z.to_nat p) g)
  /\ (length (take (8 - Z.to_nat p) g) < 8)%nat.
Proof.
  intros Hg Hp Hr Hex. apply existsb_all_0 in Hex. rewrite length_drop, Hg in Hex.
  assert (length (take (8 - Z.to_nat p) g) = 8 - Z.to_nat p)%nat as Hl
    by (rewrite length_take; lia).
  split; [|lia]. unfold group_enc. rewrite Hl, app_assoc, <-Hex, take_drop.
  f_equal. f_equal. lia.
Qed.

Lemma decode_bytes_loop_canonical fuel : forall key d k rest,
  bytes_ok d -> decode_bytes_loop fuel key d false = Ok (k, rest) ->
  exists l, k = key ++ l /\ d = enc_ref l ++ rest.
Proof.
  induction fuel as [|fuel IH]; intros key d k rest Hd H; [done|].
  destruct (Nat.le_gt_cases 9 (length d)) as [Hl|Hl]; [|by rewrite decode_bytes_loop_eof in H].
  destruct (split_unit d Hl) as (g & m & d' & -> & Hg).
  rewrite decode_bytes_loop_unit in H by (rewrite length_app, Hg; done).
  apply bytes_ok_app in Hd as [Hu Hd']. apply bytes_ok_app in Hu as [_ Hm].
  inversion Hm as [|?? Hm8]; subst. unfold u8_ok in Hm8.
  rewrite app_nth2, Hg in H by lia. cbn [nth Nat.sub] in H. cbv zeta in H.
  rewrite !(take_app_le g) in H by lia. rewrite (take_ge g 8) in H by lia.
  destruct (Z.eqb_spec (255 - m) 0).
  - destruct (IH _ _ _ _ Hd' H) as (l & -> & ->). exists (g ++ l).
    rewrite enc_ref_group, group_enc_8, <-!app_assoc by done. split; [done|].
    replace m with 255 by lia. done.
  - destruct (Z.ltb_spec 8 (255 - m)); [done|].
    destruct (existsb _ _) eqn:Hex; [done|]. injection H as <- <-.
    destruct (group_enc_of_unit g m (255 - m)) as [-> Hs]; [done..|lia|done|].
    exists (take (8 - Z.to_nat (255 - m)) g). by rewrite enc_ref_short.
Qed.

Lemma decode_bytes_canonical d k rest :
  bytes_ok d -> decode_bytes d false = Ok (k, rest) -> d = encode_bytes k ++ rest.
Proof.
  intros Hd H. apply decode_bytes_loop_canonical in H as (l & -> & ->); [|done].
  by rewrite encode_bytes_ref.
Qed.

Lemma decode_bytes_loop_total desc fuel : forall key d,
  (length d / 9 < fuel)%nat -> decode_bytes_loop fuel key d desc <> Panic.
Proof.
  induction fuel as [|fuel IH]; intros key d Hf; [lia|].
  destruct (Nat.le_gt_cases 9 (length d)) as [Hl|Hl]; [|by rewrite decode_bytes_loop_eof].
  cbn [decode_bytes_loop]. unfold ENC_GROUP_SIZE.
  destruct (Nat.leb_spec (8 + 1) (length d)); cbn [negb]; [|lia].
  destruct (_ =? 0).
  - apply IH. rewrite length_drop.
    replace (length d) with (length d - 9 + 1 * 9)%nat in Hf by lia.
    rewrite Nat.div_add in Hf by lia. change (8 + 1)%nat with 9%nat. lia.
  - destruct (8 <? _); [done|]. by destruct (existsb _ _).
Qed.

Lemma decode_bytes_total d desc : decode_bytes d desc <> Panic.
Proof. apply decode_bytes_loop_total. lia. Qed.

(** *** Descending mode is ascending mode on negated bytes *)

Lemma map_take {A B} (f : A -> B) n l : map f (take n l) = take n (map f l).
Proof. revert n. induction l; intros [|n]; cbn; f_equal; auto. Qed.

Lemma map_drop {A B} (f : A -> B) n l : map f (drop n l) = drop n (map f l).
Proof. revert n. induction l; intros [|n]; cbn; auto. Qed.

Lemma existsb_pad_desc l :
  bytes_ok l ->
  existsb (fun x => negb (x =? 255)) l = existsb (fun x => negb (x =? 0)) (map not_u8 l).
Proof.
  induction 1 as [|x l Hx Hl IH]; cbn; [done|]. rewrite IH, not_u8_eq by done.
  f_equal. f_equal. destruct (Z.eqb_spec x 255), (Z.eqb_spec (255 - x) 0); try done; lia.
Qed.

Lemma decode_bytes_loop_desc fuel : forall key d,
  bytes_ok d ->
  decode_bytes_loop fuel key d true
  = fmap (M:=res codec_error) (fun p => (fst p, map not_u8 (snd p)))
      (decode_bytes_loop fuel (map not_u8 key) (map not_u8 d) false).
Proof.
  induction fuel as [|fuel IH]; intros key d Hd; [done|].
  cbn [decode_bytes_loop]. unfold ENC_GROUP_SIZE. rewrite length_map.
  destruct (Nat.leb_spec (8 + 1) (length d)); cbn [negb]; [|done].
  rewrite <-!map_take, <-!map_drop.
  set (c := take (8 + 1) d). set (d' := drop (8 + 1) d).
  assert (length c = 9%nat) as Hc by (unfold c; rewrite length_take; lia).
  assert (bytes_ok c) as Hco by (unfold c; auto with tikv).
  assert (u8_ok (nth 8 c 0)) as Hm.
  { unfold bytes_ok in Hco. rewrite List.Forall_forall in Hco. apply Hco, nth_In. lia. }
  unfold pad_size_of, ENC_MARKER.
  rewrite (nth_indep (map not_u8 c) 0 (not_u8 0)) by (rewrite length_map; lia).
  rewrite map_nth, not_u8_eq by done.
  replace (255 - (255 - nth 8 c 0)) with (nth 8 c 0) by lia. set (m := nth 8 c 0) in *.
  destruct (m =? 0).
  - rewrite IH by (unfold d'; auto with tikv). by rewrite map_app.
  - destruct (8 <? m); [done|].
    rewrite existsb_pad_desc by auto with tikv. rewrite map_drop.
    destruct (existsb _ _); [done|]. cbn. by rewrite map_app, !map_take, map_not_u8_involutive.
Qed.

Lemma decode_bytes_desc d :
  bytes_ok d ->
  decode_bytes d true
  = fmap (M:=res codec_error) (fun p => (fst p, map not_u8 (snd p))) (decode_bytes (map not_u8 d) false).
Proof.
  intros Hd. unfold decode_bytes. rewrite length_map. by apply (decode_bytes_loop_desc _ []).
Qed.

(** *** In-place decoding *)

Lemma slice_drop_take l from to : slice l from to = drop from (take to l).
Proof. unfold slice. by rewrite skipn_firstn_comm. Qed.

Lemma length_slice l from n :
  (from + n <= length l)%nat -> length (slice l from (from + n)) = n.
Proof. intros. unfold slice. rewrite length_take, length_drop. lia. Qed.

Section Memmove.
Context (data : bytes) (w r n : nat).
Hypothesis (Hwr : (w <= r)%nat) (Hr : (r + n <= length data)%nat).

Lemma take_memmove : take (w + n) (memmove data r w n) = take w data ++ slice data r (r + n).
Proof.
  unfold memmove. rewrite app_assoc, take_app_length'; [done|].
  rewrite length_app, length_take, length_slice; lia.
Qed.

Lemma length_memmove : length (memmove data r w n) = length data.
Proof.
  unfold memmove. rewrite !length_app, length_take, length_slice, length_drop by lia. lia.
Qed.

Lemma drop_memmove k : (w + n <= k)%nat -> drop k (memmove data r w n) = drop k data.
Proof.
  intros Hk. unfold memmove. rewrite app_assoc, drop_app_ge;
    rewrite length_app, length_take, length_slice by lia; [|lia].
  rewrite drop_drop. f_equal. lia.
Qed.
End Memmove.

Lemma nth_drop_hd (l : bytes) k : nth k l 0 = nth 0 (drop k l) 0.
Proof. revert k. induction l; intros [|k]; cbn; auto. Qed.

Lemma bytes_eqb_pad l c :
  bytes_eqb l (replicate (length l) c) = negb (existsb (fun x => negb (x =? c)) l).
Proof.
  unfold bytes_eqb. induction l as [|x l IH]; cbn; [done|].
  destruct (Z.eqb_spec x c) as [->|Hne]; cbn.
  - by rewrite Z.compare_refl.
  - destruct (Z.compare_spec x c); try done.
Qed.

Lemma pad_size_nonneg desc m : u8_ok m -> 0 <= pad_size_of desc m.
Proof. unfold u8_ok, pad_size_of, ENC_MARKER. destruct desc; lia. Qed.

(** The marker survives the move, being beyond the destination. *)
Lemma nth_marker_memmove w r data :
  (w <= r)%nat -> (r + 9 <= length data)%nat ->
  nth (r + 8) (memmove data r w 8) 0 = nth 8 (take (8 + 1) (drop r data)) 0.
Proof.
  intros. rewrite (nth_drop_hd (memmove _ _ _ _)), drop_memmove, <-drop_drop, <-nth_drop_hd by lia.
  rewrite <-(take_drop 9 (drop r data)) at 1. rewrite app_nth1; [done|].
  rewrite length_take, length_drop. lia.
Qed.

Lemma bytes_ok_nth l k : bytes_ok l -> (k < length l)%nat -> u8_ok (nth k l 0).
Proof. unfold bytes_ok. rewrite List.Forall_forall. intros H Hk. apply H, nth_In, Hk. Qed.

Lemma decode_bytes_in_place_loop_eq desc fuel : forall w r data,
  bytes_ok data -> (w <= r)%nat ->
  decode_bytes_in_place_loop fuel w r data desc
  = fst <$> decode_bytes_loop fuel (take w data) (drop r data) desc.
Proof.
  induction fuel as [|fuel IH]; intros w r data Hok Hwr; [done|].
  cbn [decode_bytes_in_place_loop decode_bytes_loop]. unfold ENC_GROUP_SIZE.
  rewrite length_drop.
  destruct (Nat.leb_spec (length data) (r + 8)), (Nat.leb_spec (8 + 1) (length data - r));
    try lia; cbn [negb]; [done|].
  assert (take 8 (take (8 + 1) (drop r data)) = slice data r (r + 8)) as ->.
  { rewrite take_take. unfold slice. f_equal. lia. }
  rewrite nth_marker_memmove by lia. set (m := nth 8 (take (8 + 1) (drop r data)) 0).
  assert (u8_ok m) as Hm.
  { apply bytes_ok_nth; [auto with tikv|]. rewrite length_take, length_drop. lia. }
  pose proof (pad_size_nonneg desc m Hm) as Hp.
  destruct (Z.ltb_spec 0 (pad_size_of desc m)), (Z.eqb_spec (pad_size_of desc m) 0); try lia.
  - destruct (Z.ltb_spec 8 (pad_size_of desc m)); [done|].
    set (p := Z.to_nat (pad_size_of desc m)). assert (p <= 8)%nat by (unfold p; lia).
    assert (length (slice data r (r + 8)) = 8%nat) as Hs by (apply length_slice; lia).
    assert (length (take w data) = w) as Hw by (rewrite length_take; lia).
    rewrite slice_drop_take, take_memmove by lia.
    rewrite drop_app_ge, Hw by lia. replace (w + 8 - p - w)%nat with (8 - p)%nat by lia.
    assert (length (drop (8 - p) (slice data r (r + 8))) = p) as Hlp
      by (rewrite length_drop; lia).
    rewrite <-Hlp at 2. rewrite bytes_eqb_pad, negb_involutive.
    destruct (existsb _ _); [done|]. cbn.
    assert (take (w + 8 - p) (memmove data r w 8)
      = take w data ++ take (8 - p) (slice data r (r + 8))) as ->; [|done].
    replace (w + 8 - p)%nat with (Nat.min (w + 8 - p) (w + 8)) by lia.
    rewrite <-take_take, take_memmove by lia. rewrite take_app_ge, Hw by lia.
    do 2 f_equal. lia.
  - rewrite IH; [|unfold memmove; rewrite !bytes_ok_app; unfold slice; auto with tikv|lia].
    rewrite take_memmove, drop_memmove by lia. by rewrite drop_drop, Nat.add_assoc.
Qed.

Lemma decode_bytes_in_place_eq data desc :
  bytes_ok data -> decode_bytes_in_place data desc = fst <$> decode_bytes data desc.
Proof. intros. by apply (decode_bytes_in_place_loop_eq _ _ 0 0). Qed.

(** ** [is_encoded_from] *)

Lemma chunks_exact_loop_concat n ls rem fuel :
  (0 < n)%nat -> Forall (fun c => length c = n) ls -> (length rem < n)%nat ->
  (length ls < fuel)%nat -> chunks_exact_loop fuel n (concat ls ++ rem) = ls.
Proof.
  intros Hn Hls Hrem. revert fuel. induction Hls as [|c ls Hc Hls IH]; intros [|fuel] Hf;
    cbn in Hf; try lia; cbn [concat chunks_exact_loop app].
  - by destruct (Nat.leb_spec n (length rem)); [lia|].
  - rewrite <-app_assoc, length_app.
    destruct (Nat.leb_spec n (length c + length (concat ls ++ rem))); [|lia].
    rewrite take_app_length' by done. rewrite drop_app_length' by done.
    by rewrite IH by lia.
Qed.

Lemma length_concat_const {A} n (ls : list (list A)) :
  Forall (fun c => length c = n) ls -> length (concat ls) = (length ls * n)%nat.
Proof. induction 1; cbn; [done|]. rewrite length_app. lia. Qed.

Lemma chunks_exact_concat n ls rem :
  (1 < n)%nat -> Forall (fun c => length c = n) ls -> (length rem < n)%nat ->
  chunks_exact n (concat ls ++ rem) = ls.
Proof.
  intros Hn Hls Hrem. destruct ls as [|c ls], rem as [|x rem]; try done;
    (apply chunks_exact_loop_concat; try done; try lia);
    rewrite length_app, (length_concat_const n) by done; cbn [length]; nia.
Qed.

Lemma chunks_exact_whole n ls :
  (1 < n)%nat -> Forall (fun c => length c = n) ls -> chunks_exact n (concat ls) = ls.
Proof.
  intros Hn Hls. rewrite <-(app_nil_r (concat ls)). apply chunks_exact_concat; cbn; auto; lia.
Qed.

Lemma chunks_remainder_concat n ls rem :
  (0 < n)%nat -> Forall (fun c => length c = n) ls -> (length rem < n)%nat ->
  chunks_remainder n (concat ls ++ rem) = rem.
Proof.
  intros Hn Hls Hrem. unfold chunks_remainder. rewrite length_app, (length_concat_const n) by done.
  rewrite Nat.div_add_l, (Nat.div_small (length rem)), Nat.add_0_r by lia.
  rewrite <-(length_concat_const n) by done. apply drop_app_length.
Qed.

(** Every byte string is a sequence of whole chunks and a shorter remainder. *)
Lemma split_chunks n (l : bytes) :
  (0 < n)%nat ->
  exists ls rem, l = concat ls ++ rem /\ Forall (fun c => length c = n) ls /\ (length rem < n)%nat.
Proof.
  intros Hn. induction l as [l IH] using (induction_ltof1 _ (@length Z)).
  destruct (Nat.le_gt_cases n (length l)) as [Hl|Hl]; [|by exists [], l].
  destruct (IH (drop n l)) as (ls & rem & E & Hls & Hrem).
  { unfold ltof. rewrite length_drop. lia. }
  exists (take n l :: ls), rem. cbn. rewrite <-app_assoc, <-E, take_drop.
  repeat split; [|done]. constructor; [rewrite length_take; lia|done].
Qed.

Lemma enc_ref_concat ls rem :
  Forall (fun c => length c = 8%nat) ls -> (length rem < 8)%nat ->
  enc_ref (concat ls ++ rem) = concat (map group_enc ls) ++ group_enc rem.
Proof.
  induction 1; intros; cbn; [by apply enc_ref_short|].
  rewrite <-!app_assoc, enc_ref_group by done. by rewrite IHForall.
Qed.

Lemma forallb_replicate c l :
  forallb (fun v => v =? c) l = true <-> l = replicate (length l) c.
Proof.
  induction l as [|x l IH]; cbn; [done|]. rewrite andb_true_iff, Z.eqb_eq, IH.
  split; [by intros [-> <-]|]. by intros [= -> <-].
Qed.

Lemma forallb_zip_not x g :
  length x = length g ->
  forallb (fun p => fst p =? not_u8 (snd p)) (zip x g) = true <-> x = map not_u8 g.
Proof.
  revert g. induction x as [|a x IH]; intros [|b g] Hl; cbn in *; try done.
  rewrite andb_true_iff, Z.eqb_eq, IH by lia. split; [by intros [-> ->]|]. by intros [= -> ->].
Qed.

Lemma app3_eq (x y x' y' : bytes) k k' :
  length x = length x' -> length y = length y' ->
  (x ++ y) ++ [k] = x' ++ y' ++ [k'] <-> k = k' /\ x = x' /\ y = y'.
Proof.
  intros Hx Hy. split; [|by intros (-> & -> & ->); rewrite app_assoc].
  rewrite <-app_assoc. intros [-> [-> [=]]%app_inj_1]%app_inj_1; done.
Qed.

(** A chunk passes the check exactly when it is the encoding of the group. *)
Lemma check_single_chunk_spec desc c g :
  length c = 9%nat -> (length g <= 8)%nat ->
  check_single_chunk desc c g = true <-> c = adjust_bytes_order (group_enc g) desc.
Proof.
  intros Hc Hg. destruct (split_unit c) as (b & m & rest & -> & Hb); [lia|].
  assert (rest = []) as -> by (rewrite !length_app in Hc; destruct rest; [done|cbn in Hc; lia]).
  rewrite app_nil_r. rewrite <-(take_drop (length g) b).
  assert (length (take (length g) b) = length g) as Hx by (rewrite length_take; lia).
  assert (length (drop (length g) b) = 8 - length g)%nat as Hy by (rewrite length_drop; lia).
  revert Hx Hy. generalize (take (length g) b) (drop (length g) b). clear b Hb Hc.
  intros x y Hx Hy. unfold check_single_chunk, ENC_GROUP_SIZE, ENC_MARKER, group_enc.
  assert (nth 8 ((x ++ y) ++ [m]) 0 = m) as ->.
  { rewrite app_nth2; rewrite length_app; [|lia]. by replace (8 - _)%nat with 0%nat by lia. }
  assert (take (length g) ((x ++ y) ++ [m]) = x) as ->.
  { rewrite <-app_assoc. by rewrite take_app_length'. }
  assert (slice ((x ++ y) ++ [m]) (length g) (length ((x ++ y) ++ [m]) - 1) = y) as ->.
  { rewrite slice_drop_take, take_app_length' by (rewrite (length_app (x ++ y)); cbn [length]; lia).
    by rewrite drop_app_length'. }
  replace (255 - Z.of_nat (8 - length g)) with (247 + Z.of_nat (length g)) by lia.
  rewrite <-Hy. change (not_u8 255) with 0.
  destruct desc; cbn [adjust_bytes_order]; rewrite ?map_app, ?map_not_replicate; cbn [map];
    rewrite app3_eq by (rewrite ?length_map, ?length_replicate; done);
    rewrite !andb_true_iff, forallb_replicate, Z.eqb_eq, ?bytes_eqb_eq, ?forallb_zip_not by done;
    change (not_u8 0) with 255; intuition done.
Qed.

Lemma forallb_zip_check desc cs gs :
  length cs = length gs -> Forall (fun c => length c = 9%nat) cs ->
  Forall (fun g => (length g <= 8)%nat) gs ->
  forallb (fun p => check_single_chunk desc (fst p) (snd p)) (zip cs gs) = true
  <-> cs = map (fun g => adjust_bytes_order (group_enc g) desc) gs.
Proof.
  intros Hl Hcs. revert gs Hl. induction Hcs as [|c cs Hc Hcs IH]; intros [|g gs] Hl Hgs;
    cbn in *; try done.
  inversion Hgs; subst. rewrite andb_true_iff, check_single_chunk_spec, IH by (auto; lia).
  split; [by intros [-> ->]|]. by intros [= -> ->].
Qed.

Lemma length_rev_map_group desc ls :
  Forall (fun g => length g = 8%nat) ls ->
  Forall (fun c => length c = 9%nat) (map (fun g => adjust_bytes_order (group_enc g) desc) ls).
Proof.
  induction 1; constructor; [|done]. destruct desc; cbn; rewrite ?length_map, group_enc_length; lia.
Qed.

Lemma encode_order_bytes_concat ls rem desc :
  Forall (fun c => length c = 8%nat) ls -> (length rem < 8)%nat ->
  encode_order_bytes (concat ls ++ rem) desc
  = concat (map (fun g => adjust_bytes_order (group_enc g) desc) ls
            ++ [adjust_bytes_order (group_enc rem) desc]).
Proof.
  intros Hls Hrem. rewrite encode_order_bytes_ref, enc_ref_concat by done.
  rewrite concat_app, adjust_app. cbn. rewrite app_nil_r. f_equal.
  destruct desc; cbn; [|done]. by rewrite concat_map, map_map.
Qed.

(** The check of [is_encoded_from] on an encoding cut in whole units. *)
Lemma is_encoded_from_units cs c raw desc :
  Forall (fun c => length c = 9%nat) (cs ++ [c]) ->
  is_encoded_from (concat (cs ++ [c])) raw desc = true
  <-> concat (cs ++ [c]) = encode_order_bytes raw desc.
Proof.
  intros Hcs. destruct (split_chunks 8 raw) as (ls & rem & -> & Hls & Hrem); [lia|].
  rewrite encode_order_bytes_concat by done. unfold is_encoded_from.
  unfold rchunks_remainder, rchunks_exact, ENC_GROUP_SIZE. change (8 + 1)%nat with 9%nat.
  rewrite (length_concat_const 9), Nat.Div0.mod_mul by done. cbn [take drop].
  rewrite take_0, drop_0. cbn [bytes_eqb bytes_cmp negb].
  rewrite (chunks_exact_whole 9) by (done || lia). rewrite rev_app_distr. cbn [rev app].
  rewrite (chunks_exact_concat 8), chunks_remainder_concat by (done || lia).
  apply Forall_app in Hcs as [Hcs Hc%Forall_inv].
  set (G := fun g => adjust_bytes_order (group_enc g) desc).
  transitivity (c = G rem /\ cs = map G ls).
  - destruct (check_single_chunk desc c rem) eqn:Hlast.
    + apply check_single_chunk_spec in Hlast; [|done|lia]. rewrite length_rev.
      destruct (Nat.eqb_spec (length cs) (length ls)) as [El|El]; cbn [negb].
      * rewrite forallb_zip_check; [|by rewrite !length_rev|by apply Forall_rev|].
        -- rewrite map_rev. split; [intros E|by intros [_ ->]].
           split; [done|]. by rewrite <-(rev_involutive cs), E, rev_involutive.
        -- apply Forall_rev. eapply Forall_impl; [exact Hls|]. cbn. lia.
      * split; [done|]. intros [_ ->]. by rewrite length_map in El.
    + split; [done|]. intros [E _]. apply check_single_chunk_spec in E; [congruence|done|lia].
  - split; [by intros [-> ->]|]. intros E.
    assert (cs ++ [c] = map G ls ++ [G rem]) as [-> [= ->]]%app_inj_tail; [|done].
    transitivity (chunks_exact 9 (concat (cs ++ [c]))).
    { symmetry. apply chunks_exact_whole; [lia|]. apply Forall_app; auto. }
    rewrite E. apply chunks_exact_whole; [lia|]. apply Forall_app. split.
    + by apply length_rev_map_group.
    + constructor; [|done]. destruct desc; cbn; rewrite ?length_map, group_enc_length; lia.
Qed.

Lemma is_encoded_from_spec e raw desc :
  is_encoded_from e raw desc = true <-> e = encode_order_bytes raw desc.
Proof.
  destruct (split_chunks 9 e) as (cs & rem & -> & Hcs & Hrem); [lia|].
  destruct rem as [|x rem].
  - rewrite app_nil_r. destruct cs as [|c cs _] using rev_ind; [|by apply is_encoded_from_units].
    split; [done|]. rewrite encode_order_bytes_ref. intros E.
    apply (f_equal (@length Z)) in E. cbn [concat length] in E.
    destruct desc; cbn in E; rewrite ?length_map, enc_ref_length in E; unfold max_encoded_bytes_size, ENC_GROUP_SIZE in E; lia.
  - unfold is_encoded_from, rchunks_remainder. cbn [ENC_GROUP_SIZE Nat.add].
    rewrite length_app, (length_concat_const 9), Nat.add_comm, Nat.Div0.mod_add by done.
    rewrite Nat.mod_small by done. cbn [length take]. split.
    + destruct (concat cs ++ x :: rem) eqn:E; [by destruct (concat cs)|]. done.
    + intros E. apply (f_equal (@length Z)) in E. exfalso.
      rewrite encode_order_bytes_ref, length_app, (length_concat_const 9) in E by done.
      assert (length (adjust_bytes_order (enc_ref raw) desc) mod 9 = 0)%nat as H0.
      { destruct desc; cbn [adjust_bytes_order]; rewrite ?length_map, enc_ref_length;
          apply Nat.Div0.mod_mul. }
      rewrite <-E, Nat.add_comm, Nat.Div0.mod_add, Nat.mod_small in H0 by done. done.
Qed.

(** *** Order in descending mode *)

Lemma bytes_cmp_map_not_noprefix p q x y :
  ~ p `prefix_of` q -> ~ q `prefix_of` p -> bytes_ok p -> bytes_ok q ->
  bytes_cmp (map not_u8 p ++ x) (map not_u8 q ++ y) = bytes_cmp q p.
Proof.
  revert q. induction p as [|u p IH]; intros [|v q] Hpq Hqp Hp Hq;
    try (exfalso; apply Hpq, prefix_nil); try (exfalso; apply Hqp, prefix_nil).
  inversion Hp; inversion Hq; subst. cbn [map app bytes_cmp]. rewrite !not_u8_eq by done.
  destruct (Z.compare_spec v u) as [->|Hlt|Hlt].
  - rewrite Z.compare_refl. apply IH; auto; intros ?; [apply Hpq|apply Hqp]; by apply prefix_cons.
  - by destruct (Z.compare_spec (255 - u) (255 - v)); [lia| |lia].
  - by destruct (Z.compare_spec (255 - u) (255 - v)); [lia|lia|].
Qed.

Lemma enc_ref_prefix_free a b :
  bytes_ok a -> bytes_ok b -> enc_ref a `prefix_of` enc_ref b -> a = b.
Proof.
  intros Ha Hb [s E]. eapply (encode_bytes_app_inj a b s []); [done..|].
  by rewrite !encode_bytes_ref, app_nil_r.
Qed.

Lemma encode_bytes_desc_cmp a b x y :
  bytes_ok a -> bytes_ok b ->
  bytes_cmp (encode_bytes_desc a ++ x) (encode_bytes_desc b ++ y)
  = then_cmp (bytes_cmp b a) (bytes_cmp x y).
Proof.
  intros Ha Hb. unfold encode_bytes_desc. rewrite !encode_order_bytes_ref. cbn.
  destruct (bytes_cmp b a) eqn:E.
  - apply bytes_cmp_eq in E as ->. apply bytes_cmp_app_l.
  - rewrite bytes_cmp_map_not_noprefix; auto with tikv;
      [|intros ->%enc_ref_prefix_free; try done; by rewrite bytes_cmp_refl in E..].
    pose proof (enc_ref_cmp b a [] [] Hb Ha) as H. rewrite !app_nil_r, E in H. done.
  - rewrite bytes_cmp_map_not_noprefix; auto with tikv;
      [|intros ->%enc_ref_prefix_free; try done; by rewrite bytes_cmp_refl in E..].
    pose proof (enc_ref_cmp b a [] [] Hb Ha) as H. rewrite !app_nil_r, E in H. done.
Qed.

(** ** Theorems *)

(** Memory comparability: whatever follows them, encodings compare as the
    keys do and, for equal keys, as what follows; descending encodings compare
    in the reverse order of the keys. *)
Theorem encode_bytes_order a b x y :
  bytes_ok a -> bytes_ok b ->
  bytes_cmp (encode_bytes a ++ x) (encode_bytes b ++ y)
    = then_cmp (bytes_cmp a b) (bytes_cmp x y)
  /\ bytes_cmp (encode_bytes_desc a ++ x) (encode_bytes_desc b ++ y)
    = then_cmp (bytes_cmp b a) (bytes_cmp x y).
Proof. auto using encode_bytes_cmp, encode_bytes_desc_cmp. Qed.

Lemma encode_bytes_order_witness :
  bytes_ok [1; 2] /\ bytes_ok [1; 2; 0]
  /\ bytes_cmp (encode_bytes [1; 2] ++ [9]) (encode_bytes [1; 2; 0] ++ [3]) = Lt.
Proof.
  assert (Ha : bytes_ok [1; 2]) by (repeat constructor; lia).
  assert (Hb : bytes_ok [1; 2; 0]) by (repeat constructor; lia).
  split; [exact Ha|]. split; [exact Hb|].
  rewrite (proj1 (encode_bytes_order [1; 2] [1; 2; 0] [9] [3] Ha Hb)). reflexivity.
Defined.

(** The decoder accepts exactly the encodings: it returns a key and the
    rest of the input if and only if the input is the encoding of that key
    followed by that rest, in both modes, and it always returns. *)
Theorem decode_bytes_iff d k rest desc :
  bytes_ok d ->
  (decode_bytes d desc = Ok (k, rest) <-> d = encode_order_bytes k desc ++ rest)
  /\ decode_bytes d desc <> Panic.
Proof.
  intros Hd. split; [|apply decode_bytes_total]. destruct desc.
  - rewrite decode_bytes_desc, encode_order_bytes_ref by done. cbn [adjust_bytes_order]. split.
    + destruct (decode_bytes (map not_u8 d) false) as [[k' r']| |] eqn:E; cbn; try done.
      intros [= -> <-]. apply decode_bytes_canonical in E; [|auto with tikv].
      rewrite encode_bytes_ref in E. rewrite <-map_app, <-E. by rewrite map_not_u8_involutive.
    + intros ->. rewrite map_app, map_not_u8_involutive, <-encode_bytes_ref.
      rewrite decode_encode_bytes. cbn. by rewrite map_not_u8_involutive.
  - split; [by apply decode_bytes_canonical|]. intros ->. apply decode_encode_bytes.
Qed.

Lemma decode_bytes_iff_witness :
  bytes_ok (encode_bytes_desc [7; 8] ++ [1])
  /\ decode_bytes (encode_bytes_desc [7; 8] ++ [1]) true = Ok ([7; 8], [1]).
Proof.
  assert (H : bytes_ok (encode_bytes_desc [7; 8] ++ [1]))
    by (vm_compute; repeat (constructor; [split; congruence|]); constructor).
  split; [exact H|]. apply (decode_bytes_iff _ [7; 8] [1] true H). reflexivity.
Defined.

(** The allocation-free decoder computes what [decode_bytes] computes, the
    same errors included. *)
Theorem decode_bytes_in_place_equiv data desc :
  bytes_ok data -> decode_bytes_in_place data desc = fst <$> decode_bytes data desc.
Proof. apply decode_bytes_in_place_eq. Qed.

Lemma decode_bytes_in_place_equiv_witness :
  bytes_ok (encode_bytes [1; 2; 3; 4; 5; 6; 7; 8; 9])
  /\ decode_bytes_in_place (encode_bytes [1; 2; 3; 4; 5; 6; 7; 8; 9]) false
     = Ok [1; 2; 3; 4; 5; 6; 7; 8; 9].
Proof.
  assert (H : bytes_ok (encode_bytes [1; 2; 3; 4; 5; 6; 7; 8; 9]))
    by (vm_compute; repeat (constructor; [split; congruence|]); constructor).
  split; [exact H|]. rewrite (decode_bytes_in_place_equiv _ false H). reflexivity.
Defined.

(** The comparison shortcut that looks at the last group first answers
    true exactly when its first argument is the encoding of its second. *)
Theorem is_encoded_from_correct encoded raw desc :
  is_encoded_from encoded raw desc = true <-> encoded = encode_order_bytes raw desc.
Proof. apply is_encoded_from_spec. Qed.

(** ** Lengths and compact strings *)

Lemma marker_test desc g :
  (length g <= 8)%nat ->
  ((desc && negb (nth 8 (adjust_bytes_order (group_enc g) desc) 0 =? 0))
   || (negb desc && negb (nth 8 (adjust_bytes_order (group_enc g) desc) 0 =? ENC_MARKER)))%bool
  = negb (length g =? 8)%nat.
Proof.
  intros Hg. assert (nth 8 (group_enc g) 0 = 247 + Z.of_nat (length g)) as Hm.
  { unfold group_enc. rewrite app_assoc, app_nth2; rewrite length_app, length_replicate; [|lia].
    by replace (8 - _)%nat with 0%nat by lia. }
  destruct desc; cbn [adjust_bytes_order andb orb negb]; rewrite ?orb_false_r.
  - rewrite (nth_indep _ 0 (not_u8 0)) by (rewrite length_map, group_enc_length; lia).
    rewrite map_nth, Hm, not_u8_eq by (unfold u8_ok; lia).
    destruct (Z.eqb_spec (255 - (247 + Z.of_nat (length g))) 0), (Nat.eqb_spec (length g) 8);
      try done; lia.
  - rewrite Hm. unfold ENC_MARKER.
    destruct (Z.eqb_spec (247 + Z.of_nat (length g)) 255), (Nat.eqb_spec (length g) 8);
      try done; lia.
Qed.

Lemma adjust_length desc l : length (adjust_bytes_order l desc) = length l.
Proof. destruct desc; cbn; [apply length_map|done]. Qed.

Lemma encoded_bytes_len_unit fuel p g rest desc :
  (length g <= 8)%nat ->
  encoded_bytes_len_loop (S fuel) (length p + 8)
    (p ++ adjust_bytes_order (group_enc g) desc ++ rest) desc
  = if (length g =? 8)%nat
    then encoded_bytes_len_loop fuel (length (p ++ adjust_bytes_order (group_enc g) desc) + 8)
           ((p ++ adjust_bytes_order (group_enc g) desc) ++ rest) desc
    else (length p + 9)%nat.
Proof.
  intros Hg. cbn [encoded_bytes_len_loop]. rewrite !length_app, adjust_length, group_enc_length by done.
  destruct (Nat.ltb_spec (length p + (9 + length rest)) (length p + 8 + 1)); [lia|].
  rewrite app_nth2 by lia. replace (length p + 8 - length p)%nat with 8%nat by lia.
  rewrite app_nth1 by (rewrite adjust_length, group_enc_length; lia).
  rewrite marker_test by done. unfold ENC_GROUP_SIZE.
  destruct (Nat.eqb_spec (length g) 8); cbn [negb]; [|lia].
  rewrite <-app_assoc. f_equal. lia.
Qed.

Lemma encoded_bytes_len_loop_enc desc l : forall p s fuel,
  (length l / 8 < fuel)%nat ->
  encoded_bytes_len_loop fuel (length p + 8) (p ++ adjust_bytes_order (enc_ref l) desc ++ s) desc
  = (length p + length (enc_ref l))%nat.
Proof.
  induction l as [l Hl|g t Hg IH] using group_ind; intros p s fuel Hf;
    (destruct fuel as [|fuel]; [lia|]).
  - rewrite enc_ref_short, encoded_bytes_len_unit, group_enc_length by lia.
    destruct (Nat.eqb_spec (length l) 8); [lia|done].
  - rewrite enc_ref_group, adjust_app, <-app_assoc, encoded_bytes_len_unit, Hg by lia.
    cbn [Nat.eqb]. rewrite IH.
    + rewrite !length_app, adjust_length. lia.
    + rewrite length_app, Hg in Hf.
      replace (8 + length t)%nat with (length t + 1 * 8)%nat in Hf by lia.
      rewrite Nat.div_add in Hf by lia. lia.
Qed.

(** Sizes: the capacity reserved for an encoding is its exact length, and
    the length scanner finds that length whatever follows the encoding. *)
Theorem encoded_lengths bs s desc :
  length (encode_order_bytes bs desc) = max_encoded_bytes_size (length bs)
  /\ encoded_bytes_len (encode_order_bytes bs desc ++ s) desc
     = max_encoded_bytes_size (length bs).
Proof.
  rewrite encode_order_bytes_ref, adjust_length, enc_ref_length. split; [done|].
  unfold encoded_bytes_len.
  pose proof (encoded_bytes_len_loop_enc desc bs [] s) as H. cbn [app length Nat.add] in H.
  rewrite H; [apply enc_ref_length|].
  rewrite length_app, adjust_length, enc_ref_length. unfold max_encoded_bytes_size, ENC_GROUP_SIZE.
  lia.
Qed.

Lemma decode_compact_prefix data s :
  zlen data < 2 ^ 63 ->
  decode_var_i64 (encode_compact_bytes data ++ s) = Ok (zlen data, data ++ s)
  /\ as_u64 (zlen data) = zlen data.
Proof.
  intros Hl. unfold encode_compact_bytes. rewrite <-app_assoc. unfold zlen in *.
  rewrite decode_encode_var_i64 by (unfold i64_ok; lia).
  split; [done|]. unfold as_u64. apply Z.mod_small. lia.
Qed.

Lemma take_zlen (data s : bytes) :
  (if zlen data <=? zlen (data ++ s)
   then Ok (take (Z.to_nat (zlen data)) (data ++ s), drop (Z.to_nat (zlen data)) (data ++ s))
   else Err unexpected_eof) = (Ok (data, s) : codec_res _).
Proof.
  unfold zlen. rewrite length_app, Nat2Z.id.
  destruct (Z.leb_spec (Z.of_nat (length data)) (Z.of_nat (length data + length s))); [|lia].
  by rewrite take_app_length, drop_app_length.
Qed.

Lemma read_var_data_enc l v s n :
  var_enc l v -> (length l <= n)%nat -> read_var_data n (l ++ s) = Ok (l, s).
Proof.
  intros He. revert n. induction He as [b Hb|b l v Hb He IH]; intros [|n] Hl; cbn in *; try lia.
  - by destruct (Z.ltb_spec b 128); [|lia].
  - destruct (Z.ltb_spec b 128); [lia|]. by rewrite IH by lia.
Qed.

(** Compact strings round trip through both decoders, and their length is
    recovered without decoding them. *)
Theorem compact_bytes_roundtrip data s :
  zlen data < 2 ^ 63 - 10 ->
  decode_compact_bytes (encode_compact_bytes data ++ s) = Ok (data, s)
  /\ decode_compact_bytes_from_file (encode_compact_bytes data ++ s) = Ok (data, s)
  /\ encoded_compact_len (encode_compact_bytes data ++ s) = zlen (encode_compact_bytes data).
Proof.
  intros Hl. destruct (decode_compact_prefix data s) as [E Eu]; [lia|].
  assert (0 <= zlen data) by (unfold zlen; lia).
  assert (i64_ok (zlen data)) as Hi by (unfold i64_ok; lia).
  assert (exists v, u64_ok v /\ encode_var_i64 (zlen data) = encode_var_u64 v) as (v & Hv & Ev).
  { unfold encode_var_i64. rewrite zigzag_eq by done. eexists. split; [|done].
    unfold u64_ok, i64_ok in *. zcase; lia. }
  split; [|split].
  - unfold decode_compact_bytes. rewrite E. cbn. rewrite Eu. apply take_zlen.
  - unfold decode_compact_bytes_from_file, encode_compact_bytes. rewrite <-app_assoc, Ev.
    rewrite (read_var_data_enc _ v) by auto using encode_var_u64_enc, encode_var_u64_length.
    cbn [mbind res_bind]. rewrite <-Ev, <-(app_nil_r (encode_var_i64 _)).
    rewrite decode_encode_var_i64 by done. cbn. rewrite Eu.
    destruct (Z.leb_spec (2 ^ 63) (zlen data)); [lia|]. apply take_zlen.
  - unfold encoded_compact_len. rewrite E, Eu. unfold encode_compact_bytes, zlen in *.
    rewrite Ev, !length_app. pose proof (encode_var_u64_length v Hv).
    unfold as_u64. rewrite Z.mod_small; lia.
Qed.

Lemma compact_bytes_roundtrip_witness :
  zlen [3; 1; 4] < 2 ^ 63 - 10
  /\ decode_compact_bytes (encode_compact_bytes [3; 1; 4] ++ [9]) = Ok ([3; 1; 4], [9]).
Proof.
  assert (H : zlen [3; 1; 4] < 2 ^ 63 - 10) by reflexivity.
  split; [exact H|]. exact (proj1 (compact_bytes_roundtrip [3; 1; 4] [9] H)).
Defined.
