(* ===== verification/Types.v ===== *)
(** * Timestamps, keys, mutations and small transaction types

    Models [components/txn_types/src/timestamp.rs] and
    [components/txn_types/src/types.rs].  A [TimeStamp] is its [u64]; a [Key] is
    its encoded byte string.  Methods are named [Type_method]. *)

From Stdlib Require Import ZArith Lia.
From stdpp Require Import base numbers list gmap.
From S2P Require Import Prelude Number Bytes.

Open Scope Z_scope.

(** ** Timestamps *)

Abbreviation TimeStamp := Z (only parsing).

Definition TSO_PHYSICAL_SHIFT_BITS : Z := 18.

(** Both the shift and the sum wrap at 64 bits. *)
Definition TimeStamp_compose (physical logical : u64) : TimeStamp :=
  as_u64 (as_u64 (Z.shiftl physical TSO_PHYSICAL_SHIFT_BITS) + logical).
Definition TimeStamp_zero : TimeStamp := 0.
Definition TimeStamp_max : TimeStamp := u64_max.
Definition TimeStamp_physical (ts : TimeStamp) : u64 := Z.shiftr ts TSO_PHYSICAL_SHIFT_BITS.
Definition TimeStamp_logical (ts : TimeStamp) : u64 :=
  Z.land ts (Z.shiftl 1 TSO_PHYSICAL_SHIFT_BITS - 1).
Definition TimeStamp_next {E} (ts : TimeStamp) : res E TimeStamp :=
  _ ← assert_ (ts <? u64_max); Ok (ts + 1).
Definition TimeStamp_prev {E} (ts : TimeStamp) : res E TimeStamp :=
  _ ← assert_ (0 <? ts); Ok (ts - 1).
Definition TimeStamp_is_zero (ts : TimeStamp) : bool := ts =? 0.
Definition TimeStamp_is_max (ts : TimeStamp) : bool := ts =? u64_max.

Definition TS_SET_USE_VEC_LIMIT : nat := 8.

Inductive TsSet : Type :=
| TsEmpty
| TsVec (ts : list TimeStamp)
| TsSetOf (ts : gset TimeStamp).

Definition TsSet_new (ts : list TimeStamp) : TsSet :=
  match ts with
  | [] => TsEmpty
  | _ => if (length ts <=? TS_SET_USE_VEC_LIMIT)%nat then TsVec ts
         else TsSetOf (list_to_set ts)
  end.
Definition TsSet_from_u64s (ts : list u64) : TsSet := TsSet_new ts.
Definition TsSet_vec (ts : list TimeStamp) : TsSet :=
  match ts with [] => TsEmpty | _ => TsVec ts end.
Definition TsSet_vec_from_u64s (ts : list u64) : TsSet := TsSet_vec ts.
Definition TsSet_contains (s : TsSet) (ts : TimeStamp) : bool :=
  match s with
  | TsEmpty => false
  | TsVec vec => existsb (Z.eqb ts) vec
  | TsSetOf set => bool_decide (ts ∈ set)
  end.

(** ** Keys *)

Definition SHORT_VALUE_MAX_LEN : nat := 255.
Definition is_short_value (value : bytes) : bool := (length value <=? SHORT_VALUE_MAX_LEN)%nat.

Abbreviation Value := bytes (only parsing).
Abbreviation Key := bytes (only parsing).

Definition Key_from_raw (key : bytes) : Key := encode_bytes key.
Definition Key_from_raw_maybe_unbounded (key : bytes) : option Key :=
  match key with [] => None | _ => Some (Key_from_raw key) end.
Definition Key_into_raw (k : Key) : codec_res bytes := decode_bytes_in_place k false.
Definition Key_to_raw (k : Key) : codec_res bytes := fst <$> decode_bytes k false.
Definition Key_append_ts (k : Key) (ts : TimeStamp) : Key := k ++ encode_u64_desc ts.

Definition Key_decode_ts_from (key : bytes) : codec_res TimeStamp :=
  if (length key <? U64_SIZE)%nat then Err KeyLength
  else fst <$> decode_u64_desc (drop (length key - U64_SIZE) key).
Definition Key_decode_ts (k : Key) : codec_res TimeStamp := Key_decode_ts_from k.
Definition Key_truncate_ts (k : Key) : codec_res Key :=
  if (length k <? U64_SIZE)%nat then Err KeyLength
  else Ok (take (length k - U64_SIZE) k).
Definition Key_split_on_ts_for (key : bytes) : codec_res (bytes * TimeStamp) :=
  if (length key <? U64_SIZE)%nat then Err KeyLength
  else
    let pos := (length key - U64_SIZE)%nat in
    '(ts, _) ← decode_u64_desc (drop pos key); Ok (take pos key, ts).
Definition Key_truncate_ts_for (key : bytes) : codec_res bytes :=
  if (length key <? U64_SIZE)%nat then Err KeyLength
  else Ok (take (length key - U64_SIZE) key).
Definition Key_decode_ts_bytes_from (key : bytes) : codec_res bytes :=
  if (length key <? U64_SIZE)%nat then Err KeyLength
  else Ok (drop (length key - U64_SIZE) key).

(** The last eight bytes are compared as one machine word first (the host is
    little endian). *)
Definition Key_is_user_key_eq (ts_encoded_key user_key : bytes) : bool :=
  let n := length user_key in
  if negb (length ts_encoded_key =? n + U64_SIZE)%nat then false
  else if (U64_SIZE <=? n)%nat then
    let left := le_value (take 8 (drop (n - 8) ts_encoded_key)) in
    let right := le_value (take 8 (drop (n - 8) user_key)) in
    if negb (left =? right) then false
    else bytes_eqb (take (n - 8) ts_encoded_key) (take (n - 8) user_key)
  else bytes_eqb (take n ts_encoded_key) user_key.

Definition Key_is_encoded_from (k : Key) (raw_key : bytes) : bool := is_encoded_from k raw_key false.

(** ** Mutations *)

(** [kvproto::kvrpcpb::Assertion], re-exported by the request types. *)
Inductive Assertion : Type := ANone | AExist | ANotExist.

Inductive MutationType : Type := MtPut | MtDelete | MtLock | MtInsert | MtOther.

Inductive Mutation : Type :=
| MPut (k : Key) (v : Value) (a : Assertion)
| MDelete (k : Key) (a : Assertion)
| MLock (k : Key) (a : Assertion)
| MInsert (k : Key) (v : Value) (a : Assertion)
| MCheckNotExists (k : Key) (a : Assertion).

Definition Mutation_key (m : Mutation) : Key :=
  match m with
  | MPut key _ _ => key
  | MDelete key _ => key
  | MLock key _ => key
  | MInsert key _ _ => key
  | MCheckNotExists key _ => key
  end.
Definition Mutation_mutation_type (m : Mutation) : MutationType :=
  match m with
  | MPut _ _ _ => MtPut
  | MDelete _ _ => MtDelete
  | MLock _ _ => MtLock
  | MInsert _ _ _ => MtInsert
  | MCheckNotExists _ _ => MtOther
  end.
Definition Mutation_into_key_value (m : Mutation) : Key * option Value :=
  match m with
  | MPut key value _ => (key, Some value)
  | MDelete key _ => (key, None)
  | MLock key _ => (key, None)
  | MInsert key value _ => (key, Some value)
  | MCheckNotExists key _ => (key, None)
  end.
Definition Mutation_should_not_exists (m : Mutation) : bool :=
  match m with MInsert _ _ _ | MCheckNotExists _ _ => true | _ => false end.
Definition Mutation_should_not_write (m : Mutation) : bool :=
  match m with MCheckNotExists _ _ => true | _ => false end.
Definition Mutation_get_assertion (m : Mutation) : Assertion :=
  match m with
  | MPut _ _ a | MDelete _ a | MLock _ a | MInsert _ _ a | MCheckNotExists _ a => a
  end.
Definition Mutation_set_assertion (m : Mutation) (a : Assertion) : Mutation :=
  match m with
  | MPut k v _ => MPut k v a
  | MDelete k _ => MDelete k a
  | MLock k _ => MLock k a
  | MInsert k v _ => MInsert k v a
  | MCheckNotExists k _ => MCheckNotExists k a
  end.

(** The operations of a request mutation the conversion accepts, and any other. *)
Inductive Op : Type := OpPut | OpDel | OpLock | OpInsert | OpCheckNotExists | OpOther.

Definition Mutation_from {E} (op : Op) (key value : bytes) (a : Assertion) : res E Mutation :=
  match op with
  | OpPut => Ok (MPut (Key_from_raw key) value a)
  | OpDel => Ok (MDelete (Key_from_raw key) a)
  | OpLock => Ok (MLock (Key_from_raw key) a)
  | OpInsert => Ok (MInsert (Key_from_raw key) value a)
  | OpCheckNotExists => Ok (MCheckNotExists (Key_from_raw key) a)
  | OpOther => Panic
  end.

(** ** Old values *)

Inductive OldValue : Type :=
| OvValue (value : Value)
| OvValueTimeStamp (start_ts : TimeStamp)
| OvNone
| OvUnspecified
| OvSeekWrite (k : Key).

Definition OldValue_seek_write (raw_user_key : bytes) (ts : u64) : OldValue :=
  OvSeekWrite (Key_append_ts (Key_from_raw raw_user_key) ts).
Definition OldValue_resolved (o : OldValue) : bool :=
  match o with
  | OvValue _ | OvValueTimeStamp _ | OvNone => true
  | OvUnspecified | OvSeekWrite _ => false
  end.
Definition OldValue_finalized {E} (o : OldValue) : res E (option Value) :=
  match o with
  | OvValue value => Ok (Some value)
  | OvNone | OvUnspecified => Ok None
  | _ => Panic
  end.

(** The map of old values of a transaction, by timestamped key. *)
Definition insert_old_value_if_resolved
    (old_values : gmap Key (OldValue * option MutationType)) (key : Key) (start_ts : TimeStamp)
    (old_value : OldValue) (mutation_type : option MutationType)
    : gmap Key (OldValue * option MutationType) :=
  if OldValue_resolved old_value
  then <[Key_append_ts key start_ts := (old_value, mutation_type)]> old_values
  else old_values.

(** ** Last change *)

Inductive LastChange : Type :=
| LcUnknown
| LcExist (last_change_ts : TimeStamp) (estimated_versions_to_last_change : u64)
| LcNotExist.

Definition LastChange_make_exist {E} (last_change_ts : TimeStamp)
    (estimated_versions_to_last_change : u64) : res E LastChange :=
  _ ← assert_ (negb (TimeStamp_is_zero last_change_ts));
  _ ← assert_ (0 <? estimated_versions_to_last_change);
  Ok (LcExist last_change_ts estimated_versions_to_last_change).

Definition LastChange_to_parts (c : LastChange) : TimeStamp * u64 :=
  match c with
  | LcUnknown => (TimeStamp_zero, 0)
  | LcExist ts versions => (ts, versions)
  | LcNotExist => (TimeStamp_zero, 1)
  end.

Definition LastChange_from_parts {E} (last_change_ts : TimeStamp)
    (estimated_versions_to_last_change : u64) : res E LastChange :=
  if TimeStamp_is_zero last_change_ts then
    if 0 <? estimated_versions_to_last_change then Ok LcNotExist else Ok LcUnknown
  else LastChange_make_exist last_change_ts estimated_versions_to_last_change.

(** ** Lock types and errors ([lock.rs], [lib.rs] of [txn_types])

    [LockInfo], [IsolationLevel] and [WriteConflictReason] are the protobuf
    messages of the client protocol; a [LockInfo] has the fields
    [Lock::into_lock_info] sets, its operation kept as the [LockType] it is
    converted from; the conflict reasons are those the code constructs. *)

Inductive LockType : Type := LtPut | LtDelete | LtLock | LtPessimistic.

Definition LockType_from_mutation (m : Mutation) : option LockType :=
  match m with
  | MPut _ _ _ | MInsert _ _ _ => Some LtPut
  | MDelete _ _ => Some LtDelete
  | MLock _ _ => Some LtLock
  | MCheckNotExists _ _ => None
  end.

Record LockInfo : Type := {
  li_primary_lock : bytes;
  li_lock_version : u64;
  li_key : bytes;
  li_lock_ttl : u64;
  li_txn_size : u64;
  li_lock_type : LockType;
  li_lock_for_update_ts : u64;
  li_use_async_commit : bool;
  li_min_commit_ts : u64;
  li_secondaries : list bytes
}.

Inductive IsolationLevel : Type := Si | Rc | RcCheckTs.

Inductive WriteConflictReason : Type :=
| WcOptimistic | WcPessimisticRetry | WcSelfRolledBack | WcRcCheckTs | WcLazyUniquenessCheck.

Inductive txn_types_error : Type :=
| TtIo (k : io_error_kind)
| TtCodec (e : codec_error)
| BadFormatLock
| BadFormatWrite
| TtKeyIsLocked (info : LockInfo)
| TtWriteConflict (start_ts conflict_start_ts conflict_commit_ts : TimeStamp)
    (key primary : bytes) (reason : WriteConflictReason).

Definition txn_types_error_maybe_clone (e : txn_types_error) : option txn_types_error :=
  match e with
  | TtCodec e => TtCodec <$> codec_error_maybe_clone e
  | BadFormatLock => Some BadFormatLock
  | BadFormatWrite => Some BadFormatWrite
  | TtKeyIsLocked info => Some (TtKeyIsLocked info)
  | TtIo _ => None
  | TtWriteConflict a b c k p r => Some (TtWriteConflict a b c k p r)
  end.

Abbreviation txn_types_res := (res txn_types_error).

#[export] Instance LockType_eq_dec : EqDecision LockType.
Proof. solve_decision. Defined.

#[export] Instance Assertion_eq_dec : EqDecision Assertion.
Proof. solve_decision. Defined.
#[export] Instance LastChange_eq_dec : EqDecision LastChange.
Proof. solve_decision. Defined.
#[export] Instance Mutation_eq_dec : EqDecision Mutation.
Proof. solve_decision. Defined.

(** ** Lemmas on keys *)

Lemma Key_from_raw_ok raw : bytes_ok raw -> bytes_ok (Key_from_raw raw).
Proof. apply encode_bytes_ok. Qed.

Lemma Key_append_ts_ok k ts : bytes_ok k -> bytes_ok (Key_append_ts k ts).
Proof. intros. unfold Key_append_ts. rewrite bytes_ok_app. auto using encode_u64_desc_ok. Qed.

Lemma Key_append_ts_length k ts : length (Key_append_ts k ts) = (length k + 8)%nat.
Proof. unfold Key_append_ts. by rewrite length_app, encode_u64_desc_length. Qed.

Lemma Key_from_raw_inj a b :
  bytes_ok a -> bytes_ok b -> Key_from_raw a = Key_from_raw b -> a = b.
Proof. apply encode_bytes_inj. Qed.

Lemma Key_append_ts_inj k k' t t' :
  u64_ok t -> u64_ok t' -> Key_append_ts k t = Key_append_ts k' t' -> k = k' /\ t = t'.
Proof.
  intros Ht Ht' E. unfold Key_append_ts in E. apply app_inj_2 in E as [-> E].
  - split; [done|]. by apply encode_u64_desc_inj.
  - by rewrite !encode_u64_desc_length.
Qed.

Lemma Key_append_ts_cmp_same k t t' :
  u64_ok t -> u64_ok t' ->
  bytes_cmp (Key_append_ts k t) (Key_append_ts k t') = Z.compare t' t.
Proof. intros. unfold Key_append_ts. by rewrite bytes_cmp_app_l, encode_u64_desc_cmp. Qed.

Lemma Key_append_ts_cmp a b t t' :
  bytes_ok a -> bytes_ok b -> u64_ok t -> u64_ok t' ->
  bytes_cmp (Key_append_ts (Key_from_raw a) t) (Key_append_ts (Key_from_raw b) t')
  = then_cmp (bytes_cmp a b) (Z.compare t' t).
Proof.
  intros. unfold Key_append_ts, Key_from_raw.
  by rewrite encode_bytes_cmp, encode_u64_desc_cmp.
Qed.

Lemma Key_split_append k ts :
  u64_ok ts -> Key_split_on_ts_for (Key_append_ts k ts) = Ok (k, ts).
Proof.
  intros Hts. unfold Key_split_on_ts_for. rewrite Key_append_ts_length. unfold U64_SIZE.
  destruct (Nat.ltb_spec (length k + 8) 8); [lia|].
  replace (length k + 8 - 8)%nat with (length k) by lia. unfold Key_append_ts.
  rewrite drop_app_length, take_app_length, <-(app_nil_r (encode_u64_desc ts)).
  by rewrite decode_encode_u64_desc.
Qed.

Lemma Key_truncate_append k ts : Key_truncate_ts (Key_append_ts k ts) = Ok k.
Proof.
  unfold Key_truncate_ts. rewrite Key_append_ts_length. unfold U64_SIZE.
  destruct (Nat.ltb_spec (length k + 8) 8); [lia|].
  replace (length k + 8 - 8)%nat with (length k) by lia. unfold Key_append_ts.
  by rewrite take_app_length.
Qed.

Lemma Key_decode_append k ts : u64_ok ts -> Key_decode_ts_from (Key_append_ts k ts) = Ok ts.
Proof.
  intros Hts. unfold Key_decode_ts_from. rewrite Key_append_ts_length. unfold U64_SIZE.
  destruct (Nat.ltb_spec (length k + 8) 8); [lia|].
  replace (length k + 8 - 8)%nat with (length k) by lia. unfold Key_append_ts.
  rewrite drop_app_length, <-(app_nil_r (encode_u64_desc ts)).
  by rewrite decode_encode_u64_desc.
Qed.

Lemma Key_to_raw_append raw ts : Key_to_raw (Key_append_ts (Key_from_raw raw) ts) = Ok raw.
Proof. unfold Key_to_raw, Key_append_ts, Key_from_raw. by rewrite decode_encode_bytes. Qed.

Lemma Key_to_raw_from_raw raw : Key_to_raw (Key_from_raw raw) = Ok raw.
Proof.
  unfold Key_to_raw, Key_from_raw. rewrite <-(app_nil_r (encode_bytes raw)).
  by rewrite decode_encode_bytes.
Qed.

Lemma le_value_inj a b :
  length a = length b -> bytes_ok a -> bytes_ok b -> le_value a = le_value b -> a = b.
Proof.
  intros Hl Ha. revert b Hl. induction Ha as [|x a Hx Ha IH]; intros [|y b] Hl Hb E;
    cbn in *; try done.
  inversion Hb; subst. unfold u8_ok in *. f_equal; [|apply IH; auto; lia]. lia.
Qed.

Lemma take_app_drop_eq {A} (a b : list A) n m :
  take n a = take n b -> take m (drop n a) = take m (drop n b) -> take (n + m) a = take (n + m) b.
Proof.
  intros H1 H2. rewrite <-(take_drop n (take (n + m) a)), <-(take_drop n (take (n + m) b)).
  rewrite !take_take, !Nat.min_l by lia. rewrite H1. f_equal.
  rewrite !skipn_firstn_comm. by replace (n + m - n)%nat with m by lia.
Qed.

Lemma Key_is_user_key_eq_spec tk uk :
  bytes_ok tk -> bytes_ok uk ->
  Key_is_user_key_eq tk uk = true
  <-> length tk = (length uk + 8)%nat /\ take (length uk) tk = uk.
Proof.
  intros Ht Hu. unfold Key_is_user_key_eq, U64_SIZE.
  destruct (Nat.eqb_spec (length tk) (length uk + 8)) as [Hl|Hl]; cbn [negb];
    [|split; [done|intros []; done]].
  destruct (Nat.leb_spec 8 (length uk)) as [H8|H8]; [|by rewrite bytes_eqb_eq; split; [|intros []]].
  set (n := (length uk - 8)%nat).
  destruct (Z.eqb_spec (le_value (take 8 (drop n tk))) (le_value (take 8 (drop n uk)))) as [E|E];
    cbn [negb].
  - apply le_value_inj in E; [|rewrite !length_take, !length_drop; lia|auto with tikv..].
    rewrite bytes_eqb_eq. split.
    + intros Hn. split; [done|]. rewrite <-(take_ge uk (length uk)) at 2 by lia.
      replace (length uk) with (n + 8)%nat by lia. by apply take_app_drop_eq.
    + intros [_ Hn]. rewrite <-Hn at 1. by rewrite take_take, Nat.min_l by lia.
  - split; [done|]. intros [_ Hn]. exfalso. apply E. rewrite <-Hn at 1.
    rewrite skipn_firstn_comm, take_take. do 2 f_equal. lia.
Qed.

Lemma Key_is_user_key_eq_append k ts uk :
  bytes_ok k -> bytes_ok uk -> u64_ok ts ->
  Key_is_user_key_eq (Key_append_ts k ts) uk = true <-> k = uk.
Proof.
  intros Hk Hu Hts. rewrite Key_is_user_key_eq_spec by auto using Key_append_ts_ok.
  rewrite Key_append_ts_length. unfold Key_append_ts. split.
  - intros [Hl E]. assert (length k = length uk) as Hl' by lia.
    rewrite <-Hl', take_app_length in E. done.
  - intros ->. by rewrite take_app_length.
Qed.

Lemma TsSet_contains_new ts t : TsSet_contains (TsSet_new ts) t = existsb (Z.eqb t) ts.
Proof.
  unfold TsSet_new. destruct ts as [|x ts]; [done|].
  destruct (_ <=? _)%nat; [done|]. unfold TsSet_contains. apply eq_true_iff_eq.
  rewrite bool_decide_eq_true, elem_of_list_to_set, existsb_exists, list_elem_of_In.
  split; [intros; exists t; by rewrite Z.eqb_refl|]. intros (y & ? & ->%Z.eqb_eq). done.
Qed.

Lemma LastChange_parts_roundtrip c :
  (match c with LcExist ts n => 0 < ts /\ 0 < n | _ => True end) ->
  forall E, LastChange_from_parts (E:=E) (fst (LastChange_to_parts c)) (snd (LastChange_to_parts c))
  = Ok c.
Proof.
  intros H E. destruct c as [|ts n|]; cbn; try done.
  unfold LastChange_from_parts, LastChange_make_exist, TimeStamp_is_zero.
  destruct (Z.eqb_spec ts 0); [lia|]. cbn. by destruct (Z.ltb_spec 0 n); [|lia].
Qed.

#[export] Hint Resolve Key_from_raw_ok Key_append_ts_ok : tikv.

(** ** Theorems *)

(** Versioned keys are stored newest first: timestamped keys compare by raw
    user key, then by descending timestamp. *)
Theorem key_version_order a b t t' :
  bytes_ok a -> bytes_ok b -> u64_ok t -> u64_ok t' ->
  bytes_cmp (Key_append_ts (Key_from_raw a) t) (Key_append_ts (Key_from_raw b) t')
  = then_cmp (bytes_cmp a b) (Z.compare t' t).
Proof. apply Key_append_ts_cmp. Qed.

Lemma key_version_order_witness :
  bytes_ok [97] /\ u64_ok 20 /\ u64_ok 10
  /\ bytes_cmp (Key_append_ts (Key_from_raw [97]) 20) (Key_append_ts (Key_from_raw [97]) 10) = Lt.
Proof.
  assert (Ha : bytes_ok [97]) by (repeat constructor; lia).
  assert (H20 : u64_ok 20) by (unfold u64_ok; lia).
  assert (H10 : u64_ok 10) by (unfold u64_ok; lia).
  split; [exact Ha|]. split; [exact H20|]. split; [exact H10|].
  rewrite (key_version_order [97] [97] 20 10 Ha Ha H20 H10). reflexivity.
Defined.

(** Key round trips: the raw key is recovered from an encoded key with or
    without a timestamp, by both decoders, and a timestamped key splits into its
    parts; the word-wise comparison [is_user_key_eq] recognises exactly the
    timestamped versions of the user key. *)
Theorem key_roundtrip raw uk ts :
  bytes_ok raw -> bytes_ok uk -> u64_ok ts ->
  let k := Key_from_raw raw in
  Key_to_raw k = Ok raw
  /\ Key_into_raw (Key_append_ts k ts) = Ok raw
  /\ Key_split_on_ts_for (Key_append_ts k ts) = Ok (k, ts)
  /\ Key_truncate_ts (Key_append_ts k ts) = Ok k
  /\ Key_decode_ts (Key_append_ts k ts) = Ok ts
  /\ (Key_is_user_key_eq (Key_append_ts k ts) uk = true <-> k = uk).
Proof.
  intros Hr Hu Hts k. unfold k. repeat split; auto using Key_to_raw_from_raw, Key_split_append,
    Key_truncate_append, Key_decode_append.
  - unfold Key_into_raw. rewrite decode_bytes_in_place_eq by auto with tikv. apply Key_to_raw_append.
  - apply Key_is_user_key_eq_append; auto with tikv.
  - apply Key_is_user_key_eq_append; auto with tikv.
Qed.

Lemma key_roundtrip_witness :
  bytes_ok [1; 2; 3] /\ u64_ok 77
  /\ Key_split_on_ts_for (Key_append_ts (Key_from_raw [1; 2; 3]) 77)
     = Ok (Key_from_raw [1; 2; 3], 77).
Proof.
  assert (Ha : bytes_ok [1; 2; 3]) by (repeat constructor; lia).
  assert (H : u64_ok 77) by (unfold u64_ok; lia).
  split; [exact Ha|]. split; [exact H|].
  exact (proj1 (proj2 (proj2 (key_roundtrip [1; 2; 3] [1; 2; 3] 77 Ha Ha H)))).
Defined.

Lemma TimeStamp_compose_parts physical logical :
  0 <= physical < 2 ^ 46 -> 0 <= logical < 2 ^ 18 ->
  TimeStamp_physical (TimeStamp_compose physical logical) = physical
  /\ TimeStamp_logical (TimeStamp_compose physical logical) = logical.
Proof.
  intros Hp Hl. unfold TimeStamp_physical, TimeStamp_logical, TimeStamp_compose,
    TSO_PHYSICAL_SHIFT_BITS, as_u64.
  rewrite Z.shiftl_mul_pow2, (Z.mod_small (physical * 2 ^ 18)), Z.mod_small by lia.
  rewrite Z.shiftr_div_pow2 by lia. change (Z.shiftl 1 18 - 1) with (Z.ones 18).
  rewrite Z.land_ones, Z.add_comm, Z.div_add, Z_mod_plus_full by lia.
  rewrite Z.div_small, Z.mod_small by lia. lia.
Qed.
