(* ===== verification/Write.v ===== *)
(** * Write records

    Models [components/txn_types/src/write.rs]: the record a transaction leaves
    in the write column family for each key and its byte format.  [WriteRef] is
    a borrowed [Write]; both are the record [Write] here.  The loop over tagged
    fields, shared with the lock format, is [fields_loop]. *)

From Stdlib Require Import ZArith Lia.
From stdpp Require Import base numbers list.
From S2P Require Import Prelude Number Bytes Types.

Open Scope Z_scope.

(** ** The loop over tagged fields

    [while !b.is_empty() { match b.read_u8()? ... }]: [step] handles one tag
    and returns the updated locals with the remaining input, or nothing when the
    tag is unknown, which ends the loop.  Every round consumes a byte, so the
    length of the input is enough fuel ([parse_fields_cons]). *)

Fixpoint fields_loop {F E} (step : u8 -> F -> bytes -> res E (option (F * bytes)))
    (fuel : nat) (f : F) (b : bytes) : res E F :=
  match b with
  | [] => Ok f
  | c :: b =>
      match fuel with
      | O => Panic
      | S fuel' =>
          r ← step c f b;
          match r with
          | Some (f, b) => fields_loop step fuel' f b
          | None => Ok f
          end
      end
  end.

Definition parse_fields {F E} (step : u8 -> F -> bytes -> res E (option (F * bytes)))
    (f : F) (b : bytes) : res E F := fields_loop step (length b) f b.

(** ** Records *)

Inductive WriteType : Type := WtPut | WtDelete | WtLock | WtRollback.

#[export] Instance WriteType_eq_dec : EqDecision WriteType.
Proof. solve_decision. Defined.

Definition FLAG_PUT : u8 := 80.
Definition FLAG_DELETE : u8 := 68.
Definition FLAG_LOCK : u8 := 76.
Definition FLAG_ROLLBACK : u8 := 82.
Definition FLAG_OVERLAPPED_ROLLBACK : u8 := 82.
Definition SHORT_VALUE_PREFIX : u8 := 118.
Definition GC_FENCE_PREFIX : u8 := 70.
Definition LAST_CHANGE_PREFIX : u8 := 108.
Definition W_TXN_SOURCE_PREFIX : u8 := 83.
Definition PROTECTED_ROLLBACK_SHORT_VALUE : bytes := [112].

Definition WriteType_from_lock_type (tp : LockType) : option WriteType :=
  match tp with
  | LtPut => Some WtPut
  | LtDelete => Some WtDelete
  | LtLock => Some WtLock
  | LtPessimistic => None
  end.

Definition WriteType_from_u8 (b : u8) : option WriteType :=
  if b =? FLAG_PUT then Some WtPut
  else if b =? FLAG_DELETE then Some WtDelete
  else if b =? FLAG_LOCK then Some WtLock
  else if b =? FLAG_ROLLBACK then Some WtRollback
  else None.

Definition WriteType_to_u8 (t : WriteType) : u8 :=
  match t with
  | WtPut => FLAG_PUT
  | WtDelete => FLAG_DELETE
  | WtLock => FLAG_LOCK
  | WtRollback => FLAG_ROLLBACK
  end.

Record Write : Type := {
  w_write_type : WriteType;
  w_start_ts : TimeStamp;
  w_short_value : option Value;
  w_has_overlapped_rollback : bool;
  w_gc_fence : option TimeStamp;
  w_last_change : LastChange;
  w_txn_source : u64
}.

#[export] Instance Write_eq_dec : EqDecision Write.
Proof. solve_decision. Defined.

Definition Write_new (write_type : WriteType) (start_ts : TimeStamp)
    (short_value : option Value) : Write :=
  {| w_write_type := write_type; w_start_ts := start_ts; w_short_value := short_value;
     w_has_overlapped_rollback := false; w_gc_fence := None; w_last_change := LcUnknown;
     w_txn_source := 0 |}.

Definition Write_new_rollback (start_ts : TimeStamp) (protected : bool) : Write :=
  {| w_write_type := WtRollback; w_start_ts := start_ts;
     w_short_value := if protected then Some PROTECTED_ROLLBACK_SHORT_VALUE else None;
     w_has_overlapped_rollback := false; w_gc_fence := None; w_last_change := LcUnknown;
     w_txn_source := 0 |}.

Definition Write_set_overlapped_rollback (w : Write) (has_overlapped_rollback : bool)
    (gc_fence : option TimeStamp) : Write :=
  {| w_write_type := w_write_type w; w_start_ts := w_start_ts w;
     w_short_value := w_short_value w; w_has_overlapped_rollback := has_overlapped_rollback;
     w_gc_fence := gc_fence; w_last_change := w_last_change w; w_txn_source := w_txn_source w |}.

Definition Write_set_last_change (w : Write) (last_change : LastChange) : Write :=
  {| w_write_type := w_write_type w; w_start_ts := w_start_ts w;
     w_short_value := w_short_value w; w_has_overlapped_rollback := w_has_overlapped_rollback w;
     w_gc_fence := w_gc_fence w; w_last_change := last_change; w_txn_source := w_txn_source w |}.

Definition Write_set_txn_source (w : Write) (source : u64) : Write :=
  {| w_write_type := w_write_type w; w_start_ts := w_start_ts w;
     w_short_value := w_short_value w; w_has_overlapped_rollback := w_has_overlapped_rollback w;
     w_gc_fence := w_gc_fence w; w_last_change := w_last_change w; w_txn_source := source |}.

Definition Write_parse_type (b : bytes) : txn_types_res WriteType :=
  '(t, _) ← map_err (fun _ => BadFormatWrite) (read_u8 b);
  ok_or BadFormatWrite (WriteType_from_u8 t).

(** ** The byte format *)

(** The local variables of [WriteRef::parse]. *)
Record write_fields : Type := {
  wf_short_value : option Value;
  wf_has_overlapped_rollback : bool;
  wf_gc_fence : option TimeStamp;
  wf_last_change_ts : TimeStamp;
  wf_versions : u64;
  wf_txn_source : u64
}.

(** One round of the loop of [WriteRef::parse] after its tag is read. *)
Definition WriteRef_parse_field (tag : u8) (f : write_fields) (b : bytes)
    : txn_types_res (option (write_fields * bytes)) :=
  let '(Build_write_fields sv o gc ts n src) := f in
  if tag =? SHORT_VALUE_PREFIX then
    '(len, b) ← map_err (fun _ => BadFormatWrite) (read_u8 b);
    if zlen b <? len then Panic
    else Ok (Some (Build_write_fields (Some (take (Z.to_nat len) b)) o gc ts n src,
                   drop (Z.to_nat len) b))
  else if tag =? FLAG_OVERLAPPED_ROLLBACK then
    Ok (Some (Build_write_fields sv true gc ts n src, b))
  else if tag =? GC_FENCE_PREFIX then
    '(g, b) ← map_err TtCodec (decode_u64 b);
    Ok (Some (Build_write_fields sv o (Some g) ts n src, b))
  else if tag =? LAST_CHANGE_PREFIX then
    '(ts, b) ← map_err TtCodec (decode_u64 b);
    '(n, b) ← map_err TtCodec (decode_var_u64 b);
    Ok (Some (Build_write_fields sv o gc ts n src, b))
  else if tag =? W_TXN_SOURCE_PREFIX then
    '(src, b) ← map_err TtCodec (decode_var_u64 b);
    Ok (Some (Build_write_fields sv o gc ts n src, b))
  else Ok None.

Definition WriteRef_parse (b : bytes) : txn_types_res Write :=
  '(write_type_bytes, b) ← map_err (fun _ => BadFormatWrite) (read_u8 b);
  write_type ← ok_or BadFormatWrite (WriteType_from_u8 write_type_bytes);
  '(start_ts, b) ← map_err (fun _ => BadFormatWrite) (read_var_u64 b);
  f ← parse_fields WriteRef_parse_field (Build_write_fields None false None 0 0 0) b;
  last_change ← LastChange_from_parts (wf_last_change_ts f) (wf_versions f);
  Ok {| w_write_type := write_type; w_start_ts := start_ts;
        w_short_value := wf_short_value f;
        w_has_overlapped_rollback := wf_has_overlapped_rollback f;
        w_gc_fence := wf_gc_fence f; w_last_change := last_change;
        w_txn_source := wf_txn_source f |}.

Definition WriteRef_to_bytes (w : Write) : bytes :=
  [WriteType_to_u8 (w_write_type w)] ++ encode_var_u64 (w_start_ts w)
  ++ match w_short_value w with
     | Some v => SHORT_VALUE_PREFIX :: as_u8 (zlen v) :: v
     | None => []
     end
  ++ (if w_has_overlapped_rollback w then [FLAG_OVERLAPPED_ROLLBACK] else [])
  ++ match w_gc_fence w with
     | Some ts => GC_FENCE_PREFIX :: encode_u64 ts
     | None => []
     end
  ++ match w_last_change w with
     | LcUnknown => []
     | LcNotExist | LcExist _ _ =>
         let '(last_change_ts, versions) := LastChange_to_parts (w_last_change w) in
         LAST_CHANGE_PREFIX :: encode_u64 last_change_ts ++ encode_var_u64 versions
     end
  ++ (if negb (w_txn_source w =? 0) then W_TXN_SOURCE_PREFIX :: encode_var_u64 (w_txn_source w)
      else []).

Definition WriteRef_pre_allocate_size (w : Write) : nat :=
  (1 + MAX_VAR_U64_LEN + (if w_has_overlapped_rollback w then 1 else 0)
   + match w_short_value w with Some v => 2 + length v | None => 0 end
   + match w_gc_fence w with Some _ => 1 + 8 | None => 0 end
   + match w_last_change w with
     | LcUnknown => 0
     | LcNotExist | LcExist _ _ => 1 + 8 + MAX_VAR_U64_LEN
     end
   + (if negb (w_txn_source w =? 0)%Z then 1 + MAX_VAR_U64_LEN else 0))%nat.

(** ** Queries *)

Definition WriteRef_check_gc_fence_as_latest_version (w : Write) (read_ts : TimeStamp) : bool :=
  match w_gc_fence w with
  | Some gc_fence_ts =>
      if (negb (TimeStamp_is_zero gc_fence_ts) && (gc_fence_ts <=? read_ts))%bool
      then false else true
  | None => true
  end.

Definition WriteRef_is_protected (w : Write) : bool :=
  bool_decide (w_write_type w = WtRollback)
  && match w_short_value w with
     | Some v => bytes_eqb v PROTECTED_ROLLBACK_SHORT_VALUE
     | None => false
     end.

Definition WriteRef_to_owned (w : Write) : Write :=
  Write_set_txn_source
    (Write_set_last_change
       (Write_set_overlapped_rollback
          (Write_new (w_write_type w) (w_start_ts w) (w_short_value w))
          (w_has_overlapped_rollback w) (w_gc_fence w))
       (w_last_change w))
    (w_txn_source w).

(** ** Lemmas *)

Section FieldsLoop.
Context {F E : Type} (step : u8 -> F -> bytes -> res E (option (F * bytes))).
Hypothesis step_consumes : forall c f b f' b',
  step c f b = Ok (Some (f', b')) -> (length b' <= length b)%nat.

Lemma fields_loop_fuel n : forall m f b,
  (length b <= n)%nat -> (length b <= m)%nat ->
  fields_loop step n f b = fields_loop step m f b.
Proof.
  induction n as [|n IH]; intros m f [|c b] Hn Hm; cbn in Hn; try lia; [by destruct m..|].
  destruct m as [|m]; cbn in Hm; [lia|]. cbn.
  destruct (step c f b) as [[[f' b']|]| |] eqn:Es; cbn; try done.
  apply step_consumes in Es. apply IH; lia.
Qed.

Lemma parse_fields_cons c f b :
  parse_fields step f (c :: b)
  = r ← step c f b; match r with Some (f, b) => parse_fields step f b | None => Ok f end.
Proof.
  unfold parse_fields. cbn. destruct (step c f b) as [[[f' b']|]| |] eqn:Es; cbn; try done.
  apply step_consumes in Es. apply fields_loop_fuel; lia.
Qed.
End FieldsLoop.

Lemma read_u8_rest b x b' : read_u8 b = Ok (x, b') -> (length b' <= length b)%nat.
Proof. destruct b; cbn; intros [=]; subst; lia. Qed.

Lemma decode_u64_rest b x b' : decode_u64 b = Ok (x, b') -> (length b' <= length b)%nat.
Proof.
  unfold decode_u64, read_num_bytes. destruct (_ <=? _)%nat; [|done].
  intros [= _ <-]. rewrite length_drop. lia.
Qed.

Lemma decode_var_u64_slow_rest b : forall i acc x b',
  decode_var_u64_slow i acc b = Ok (x, b') -> (length b' <= length b)%nat.
Proof.
  induction b as [|c b IH]; intros i acc x b'; cbn; [done|].
  destruct (c <? 128); [intros [= _ <-]; lia|]. intros H%IH. lia.
Qed.

Lemma decode_var_u64_fast_rest n : forall b i acc x b',
  decode_var_u64_fast n i acc b = Ok (x, b') -> (length b' <= length b)%nat.
Proof.
  induction n as [|n IH]; intros [|c b] i acc x b'; cbn; try done.
  - destruct (c <=? 1); [intros [= _ <-]; lia|done].
  - destruct (c <? 128); [intros [= _ <-]; lia|]. intros H%IH. lia.
Qed.

Lemma decode_var_u64_rest b x b' : decode_var_u64 b = Ok (x, b') -> (length b' <= length b)%nat.
Proof.
  unfold decode_var_u64. destruct b as [|c b]; [done|].
  destruct (c <? 128); [intros [= _ <-]; cbn; lia|].
  destruct (_ || _)%bool; [apply decode_var_u64_fast_rest|apply decode_var_u64_slow_rest].
Qed.

Lemma length_drop_le {A} (l : list A) n m : (length l <= m)%nat -> (length (drop n l) <= m)%nat.
Proof. rewrite length_drop. lia. Qed.

(** Solves "the step consumes input" goals by splitting the step. *)
Ltac consumes :=
  repeat match goal with
  | H : context [if ?b then _ else _] |- _ => destruct b
  | H : _ ≫= _ = Ok _ |- _ => apply res_bind_ok in H as ([? ?] & ? & H)
  | H : map_err _ _ = Ok _ |- _ => apply map_err_ok in H
  | H : Ok _ = Ok _ |- _ => injection H as; subst
  | H : read_u8 _ = Ok _ |- _ => apply read_u8_rest in H
  | H : decode_u64 _ = Ok _ |- _ => apply decode_u64_rest in H
  | H : decode_var_u64 _ = Ok _ |- _ => apply decode_var_u64_rest in H
  end; try discriminate; rewrite ?length_drop; lia.

Lemma WriteRef_parse_field_consumes c f b f' b' :
  WriteRef_parse_field c f b = Ok (Some (f', b')) -> (length b' <= length b)%nat.
Proof.
  destruct f. unfold WriteRef_parse_field. intros H. consumes.
Qed.

Definition write_parse_cons := parse_fields_cons WriteRef_parse_field WriteRef_parse_field_consumes.

(** A last change the code constructs: [make_exist] asserts both parts. *)
Definition last_change_ok (c : LastChange) : Prop :=
  match c with
  | LcExist ts n => 0 < ts < 2 ^ 64 /\ 0 < n < 2 ^ 64
  | _ => True
  end.

Definition short_value_ok (o : option Value) : Prop :=
  match o with Some v => (length v <= 255)%nat | None => True end.

Record write_ok (w : Write) : Prop := {
  write_ok_start_ts : u64_ok (w_start_ts w);
  write_ok_short_value : short_value_ok (w_short_value w);
  write_ok_gc_fence : match w_gc_fence w with Some ts => u64_ok ts | None => True end;
  write_ok_last_change : last_change_ok (w_last_change w);
  write_ok_txn_source : u64_ok (w_txn_source w)
}.

Lemma take_drop_short (v rest : bytes) :
  (length v <= 255)%nat ->
  (zlen (v ++ rest) <? as_u8 (zlen v)) = false
  /\ take (Z.to_nat (as_u8 (zlen v))) (v ++ rest) = v
  /\ drop (Z.to_nat (as_u8 (zlen v))) (v ++ rest) = rest.
Proof.
  intros Hv. unfold as_u8, zlen. rewrite Z.mod_small, Nat2Z.id, length_app by lia.
  rewrite take_app_length, drop_app_length. repeat split.
  destruct (Z.ltb_spec (Z.of_nat (length v + length rest)) (Z.of_nat (length v))); [lia|done].
Qed.

Lemma last_change_parts_ok c :
  last_change_ok c ->
  u64_ok (fst (LastChange_to_parts c)) /\ u64_ok (snd (LastChange_to_parts c)).
Proof. unfold u64_ok, LastChange_to_parts, TimeStamp_zero. destruct c; cbn; lia. Qed.

Lemma last_change_roundtrip c E :
  last_change_ok c ->
  LastChange_from_parts (E:=E) (fst (LastChange_to_parts c)) (snd (LastChange_to_parts c)) = Ok c.
Proof. intros H. apply LastChange_parts_roundtrip. destruct c; cbn in *; lia. Qed.

Section WriteSegments.
Context (o : bool) (gc : option TimeStamp) (sv : option Value) (ts n src : Z) (rest : bytes).

Lemma write_parse_short_value v : short_value_ok v ->
  parse_fields WriteRef_parse_field (Build_write_fields None o gc ts n src)
    (match v with Some v => SHORT_VALUE_PREFIX :: as_u8 (zlen v) :: v | None => [] end ++ rest)
  = parse_fields WriteRef_parse_field (Build_write_fields v o gc ts n src) rest.
Proof.
  destruct v as [v|]; [|done]. intros Hv. cbn [app]. rewrite write_parse_cons. cbn -[as_u8].
  destruct (take_drop_short v rest Hv) as (-> & -> & ->). done.
Qed.

Lemma write_parse_overlapped (b : bool) :
  parse_fields WriteRef_parse_field (Build_write_fields sv false gc ts n src)
    ((if b then [FLAG_OVERLAPPED_ROLLBACK] else []) ++ rest)
  = parse_fields WriteRef_parse_field (Build_write_fields sv b gc ts n src) rest.
Proof. destruct b; [|done]. cbn [app]. by rewrite write_parse_cons. Qed.

Lemma write_parse_gc_fence g : match g with Some ts => u64_ok ts | None => True end ->
  parse_fields WriteRef_parse_field (Build_write_fields sv o None ts n src)
    (match g with Some ts => GC_FENCE_PREFIX :: encode_u64 ts | None => [] end ++ rest)
  = parse_fields WriteRef_parse_field (Build_write_fields sv o g ts n src) rest.
Proof.
  destruct g as [g|]; [|done]. intros Hg. cbn [app]. rewrite write_parse_cons.
  unfold WriteRef_parse_field at 1. cbn -[decode_u64 encode_u64]. by rewrite decode_encode_u64.
Qed.

Lemma write_parse_last_change c : last_change_ok c ->
  parse_fields WriteRef_parse_field (Build_write_fields sv o gc 0 0 src)
    (match c with
     | LcUnknown => []
     | LcNotExist | LcExist _ _ =>
         let '(last_change_ts, versions) := LastChange_to_parts c in
         LAST_CHANGE_PREFIX :: encode_u64 last_change_ts ++ encode_var_u64 versions
     end ++ rest)
  = parse_fields WriteRef_parse_field
      (Build_write_fields sv o gc (fst (LastChange_to_parts c)) (snd (LastChange_to_parts c)) src)
      rest.
Proof.
  intros Hc. pose proof (last_change_parts_ok c Hc) as [H1 H2].
  destruct c as [|t m|]; [done|..]; cbn [LastChange_to_parts fst snd app] in *;
    rewrite write_parse_cons; unfold WriteRef_parse_field at 1;
    cbn -[decode_u64 decode_var_u64 encode_u64 encode_var_u64]; rewrite <-app_assoc;
    rewrite decode_encode_u64 by done; cbn -[decode_var_u64 encode_var_u64];
    by rewrite decode_encode_var_u64.
Qed.

Lemma write_parse_txn_source s : u64_ok s ->
  parse_fields WriteRef_parse_field (Build_write_fields sv o gc ts n 0)
    ((if negb (s =? 0) then W_TXN_SOURCE_PREFIX :: encode_var_u64 s else []) ++ rest)
  = parse_fields WriteRef_parse_field (Build_write_fields sv o gc ts n s) rest.
Proof.
  intros Hs. destruct (Z.eqb_spec s 0) as [->|]; cbn [negb app]; [done|].
  rewrite write_parse_cons. unfold WriteRef_parse_field at 1.
  cbn -[decode_var_u64 encode_var_u64]. by rewrite decode_encode_var_u64.
Qed.
End WriteSegments.

Lemma WriteType_u8_roundtrip t : WriteType_from_u8 (WriteType_to_u8 t) = Some t.
Proof. by destruct t. Qed.

(** Bytes the parser stops at: none, or an unknown tag and anything. *)
Definition write_trailer (b : bytes) : Prop :=
  match b with
  | [] => True
  | c :: _ => c ∉ [SHORT_VALUE_PREFIX; FLAG_OVERLAPPED_ROLLBACK; GC_FENCE_PREFIX;
                   LAST_CHANGE_PREFIX; W_TXN_SOURCE_PREFIX]
  end.

Lemma write_parse_trailer f b :
  write_trailer b -> parse_fields WriteRef_parse_field f b = Ok f.
Proof.
  destruct b as [|c b]; [done|]. cbn [write_trailer]. rewrite !not_elem_of_cons.
  intros (? & ? & ? & ? & ? & _). rewrite write_parse_cons. destruct f.
  unfold WriteRef_parse_field. zcase; done.
Qed.

Lemma write_roundtrip_trailer w b :
  write_ok w -> write_trailer b -> WriteRef_parse (WriteRef_to_bytes w ++ b) = Ok w.
Proof.
  intros [Hts Hsv Hgc Hlc Hsrc] Hb. unfold WriteRef_parse, WriteRef_to_bytes.
  rewrite <-!app_assoc.
  cbn [app read_u8 map_err mbind res_bind]. rewrite WriteType_u8_roundtrip. cbn [ok_or].
  unfold read_var_u64. rewrite try_decode_encode_var_u64 by done. cbn [map_err mbind res_bind].
  rewrite write_parse_short_value, write_parse_overlapped, write_parse_gc_fence,
    write_parse_last_change, write_parse_txn_source, write_parse_trailer by done.
  cbn. rewrite last_change_roundtrip by done. cbn. by destruct w.
Qed.

Lemma write_roundtrip w : write_ok w -> WriteRef_parse (WriteRef_to_bytes w) = Ok w.
Proof.
  intros H. rewrite <-(app_nil_r (WriteRef_to_bytes w)). by apply write_roundtrip_trailer.
Qed.

Lemma WriteRef_to_owned_id w : WriteRef_to_owned w = w.
Proof. by destruct w. Qed.

Lemma WriteRef_to_bytes_inj w w' :
  write_ok w -> write_ok w' -> WriteRef_to_bytes w = WriteRef_to_bytes w' -> w = w'.
Proof. intros H H' E. apply write_roundtrip in H, H'. rewrite E in H. congruence. Qed.

Lemma write_new_ok t ts sv :
  u64_ok ts -> short_value_ok sv -> write_ok (Write_new t ts sv).
Proof. intros. split; cbn; auto with tikv. Qed.

Lemma write_new_rollback_ok ts p : u64_ok ts -> write_ok (Write_new_rollback ts p).
Proof. intros. split; cbn; auto with tikv. destruct p; cbn; lia. Qed.

(** ** Theorems *)

(** A write record is read back exactly as written, also when a newer
    version of the program appends fields with tags this one does not know; its
    type is readable on its own and the reserved capacity is never exceeded. *)
Theorem write_record_roundtrip w b :
  write_ok w -> write_trailer b ->
  WriteRef_parse (WriteRef_to_bytes w ++ b) = Ok w
  /\ Write_parse_type (WriteRef_to_bytes w) = Ok (w_write_type w)
  /\ WriteRef_to_owned w = w
  /\ (length (WriteRef_to_bytes w) <= WriteRef_pre_allocate_size w)%nat.
Proof.
  intros Hw Hb. split; [by apply write_roundtrip_trailer|].
  split; [unfold Write_parse_type; cbn; by rewrite WriteType_u8_roundtrip|].
  split; [apply WriteRef_to_owned_id|]. destruct Hw as [Hts Hsv Hgc Hlc Hsrc].
  unfold WriteRef_to_bytes, WriteRef_pre_allocate_size, MAX_VAR_U64_LEN.
  pose proof (encode_var_u64_length _ Hts). pose proof (encode_var_u64_length _ Hsrc).
  rewrite !length_app. cbn [length].
  assert (length (match w_last_change w with
     | LcUnknown => []
     | LcNotExist | LcExist _ _ =>
         let '(last_change_ts, versions) := LastChange_to_parts (w_last_change w) in
         LAST_CHANGE_PREFIX :: encode_u64 last_change_ts ++ encode_var_u64 versions
     end) <= match w_last_change w with LcUnknown => 0 | _ => 19 end)%nat as Hlen.
  { destruct (last_change_parts_ok _ Hlc) as [_ Hn%encode_var_u64_length].
    destruct (w_last_change w); cbn in Hn |- *;
      rewrite ?length_app, ?encode_u64_length; lia. }
  revert Hlen. match goal with |- (length ?s <= _)%nat -> _ => generalize (length s) end.
  intros k Hk. destruct (w_short_value w), (w_has_overlapped_rollback w), (w_gc_fence w),
    (negb (w_txn_source w =? 0)); cbn [length]; rewrite ?encode_u64_length;
    destruct (w_last_change w); lia.
Qed.

Lemma write_record_roundtrip_witness :
  let w := Write_set_last_change
    (Write_set_overlapped_rollback (Write_new WtPut 400 (Some [1; 2])) true (Some 0))
    (LcExist 300 2) in
  write_ok w /\ WriteRef_parse (WriteRef_to_bytes w ++ [1; 2; 3]) = Ok w.
Proof.
  intros w.
  assert (Hw : write_ok w) by (split; cbn; unfold u64_ok; lia).
  assert (Hb : write_trailer [1; 2; 3]) by (cbn; rewrite !not_elem_of_cons; repeat split; auto; apply not_elem_of_nil).
  split; [exact Hw|]. exact (proj1 (write_record_roundtrip w [1; 2; 3] Hw Hb)).
Defined.
