(* ===== verification/Lock.v ===== *)
(** * Lock records

    Models [components/txn_types/src/lock.rs]: locks and their byte format, the
    lock checks made by readers, in-memory pessimistic locks. *)

From Stdlib Require Import ZArith Lia.
From stdpp Require Import base numbers list.
From S2P Require Import Prelude Number Bytes Types Write.

Open Scope Z_scope.

Definition FLAG_PESSIMISTIC : u8 := 83.
Definition FOR_UPDATE_TS_PREFIX : u8 := 102.
Definition TXN_SIZE_PREFIX : u8 := 116.
Definition MIN_COMMIT_TS_PREFIX : u8 := 99.
Definition ASYNC_COMMIT_PREFIX : u8 := 97.
Definition ROLLBACK_TS_PREFIX : u8 := 114.
Definition L_TXN_SOURCE_PREFIX : u8 := 115.
Definition PESSIMISTIC_LOCK_WITH_CONFLICT_PREFIX : u8 := 70.
Definition GENERATION_PREFIX : u8 := 103.

Definition LockType_from_u8 (b : u8) : option LockType :=
  if b =? FLAG_PUT then Some LtPut
  else if b =? FLAG_DELETE then Some LtDelete
  else if b =? FLAG_LOCK then Some LtLock
  else if b =? FLAG_PESSIMISTIC then Some LtPessimistic
  else None.

Definition LockType_to_u8 (t : LockType) : u8 :=
  match t with
  | LtPut => FLAG_PUT
  | LtDelete => FLAG_DELETE
  | LtLock => FLAG_LOCK
  | LtPessimistic => FLAG_PESSIMISTIC
  end.

Record Lock : Type := {
  l_lock_type : LockType;
  l_primary : bytes;
  l_ts : TimeStamp;
  l_ttl : u64;
  l_short_value : option Value;
  l_for_update_ts : TimeStamp;
  l_txn_size : u64;
  l_min_commit_ts : TimeStamp;
  l_use_async_commit : bool;
  l_use_one_pc : bool;
  l_secondaries : list bytes;
  l_rollback_ts : list TimeStamp;
  l_last_change : LastChange;
  l_txn_source : u64;
  l_is_locked_with_conflict : bool;
  l_generation : u64
}.

#[export] Instance Lock_eq_dec : EqDecision Lock.
Proof. solve_decision. Defined.

Definition Lock_new (lock_type : LockType) (primary : bytes) (ts : TimeStamp) (ttl : u64)
    (short_value : option Value) (for_update_ts : TimeStamp) (txn_size : u64)
    (min_commit_ts : TimeStamp) (is_locked_with_conflict : bool) : Lock :=
  {| l_lock_type := lock_type; l_primary := primary; l_ts := ts; l_ttl := ttl;
     l_short_value := short_value; l_for_update_ts := for_update_ts; l_txn_size := txn_size;
     l_min_commit_ts := min_commit_ts; l_use_async_commit := false; l_use_one_pc := false;
     l_secondaries := []; l_rollback_ts := []; l_last_change := LcUnknown; l_txn_source := 0;
     l_is_locked_with_conflict := is_locked_with_conflict; l_generation := 0 |}.

(** The builder methods, and the assignments to single fields the transaction
    actions make. *)
Definition Lock_use_async_commit (l : Lock) (secondaries : list bytes) : Lock :=
  let '(Build_Lock t p ts ttl sv fu size mc _ pc _ rb lc src cf g) := l in
  Build_Lock t p ts ttl sv fu size mc true pc secondaries rb lc src cf g.
Definition Lock_with_rollback_ts (l : Lock) (rollback_ts : list TimeStamp) : Lock :=
  let '(Build_Lock t p ts ttl sv fu size mc ac pc sec _ lc src cf g) := l in
  Build_Lock t p ts ttl sv fu size mc ac pc sec rollback_ts lc src cf g.
Definition Lock_set_last_change (l : Lock) (last_change : LastChange) : Lock :=
  let '(Build_Lock t p ts ttl sv fu size mc ac pc sec rb _ src cf g) := l in
  Build_Lock t p ts ttl sv fu size mc ac pc sec rb last_change src cf g.
Definition Lock_set_txn_source (l : Lock) (source : u64) : Lock :=
  let '(Build_Lock t p ts ttl sv fu size mc ac pc sec rb lc _ cf g) := l in
  Build_Lock t p ts ttl sv fu size mc ac pc sec rb lc source cf g.
Definition Lock_with_generation (l : Lock) (generation : u64) : Lock :=
  let '(Build_Lock t p ts ttl sv fu size mc ac pc sec rb lc src cf _) := l in
  Build_Lock t p ts ttl sv fu size mc ac pc sec rb lc src cf generation.
Definition Lock_set_short_value (l : Lock) (v : option Value) : Lock :=
  let '(Build_Lock t p ts ttl _ fu size mc ac pc sec rb lc src cf g) := l in
  Build_Lock t p ts ttl v fu size mc ac pc sec rb lc src cf g.
Definition Lock_set_min_commit_ts (l : Lock) (mc : TimeStamp) : Lock :=
  let '(Build_Lock t p ts ttl sv fu size _ ac pc sec rb lc src cf g) := l in
  Build_Lock t p ts ttl sv fu size mc ac pc sec rb lc src cf g.
Definition Lock_set_use_async_commit (l : Lock) (ac : bool) : Lock :=
  let '(Build_Lock t p ts ttl sv fu size mc _ pc sec rb lc src cf g) := l in
  Build_Lock t p ts ttl sv fu size mc ac pc sec rb lc src cf g.
Definition Lock_set_use_one_pc (l : Lock) (pc : bool) : Lock :=
  let '(Build_Lock t p ts ttl sv fu size mc ac _ sec rb lc src cf g) := l in
  Build_Lock t p ts ttl sv fu size mc ac pc sec rb lc src cf g.
Definition Lock_set_secondaries (l : Lock) (sec : list bytes) : Lock :=
  let '(Build_Lock t p ts ttl sv fu size mc ac pc _ rb lc src cf g) := l in
  Build_Lock t p ts ttl sv fu size mc ac pc sec rb lc src cf g.

(** ** The byte format *)

Definition Lock_to_bytes (l : Lock) : bytes :=
  [LockType_to_u8 (l_lock_type l)] ++ encode_compact_bytes (l_primary l)
  ++ encode_var_u64 (l_ts l) ++ encode_var_u64 (l_ttl l)
  ++ match l_short_value l with
     | Some v => SHORT_VALUE_PREFIX :: as_u8 (zlen v) :: v
     | None => []
     end
  ++ (if negb (TimeStamp_is_zero (l_for_update_ts l))
      then FOR_UPDATE_TS_PREFIX :: encode_u64 (l_for_update_ts l) else [])
  ++ (if 0 <? l_txn_size l then TXN_SIZE_PREFIX :: encode_u64 (l_txn_size l) else [])
  ++ (if negb (TimeStamp_is_zero (l_min_commit_ts l))
      then MIN_COMMIT_TS_PREFIX :: encode_u64 (l_min_commit_ts l) else [])
  ++ (if l_use_async_commit l
      then ASYNC_COMMIT_PREFIX :: encode_var_u64 (Z.of_nat (length (l_secondaries l)))
             ++ concat (map encode_compact_bytes (l_secondaries l))
      else [])
  ++ match l_rollback_ts l with
     | [] => []
     | _ :: _ => ROLLBACK_TS_PREFIX :: encode_var_u64 (Z.of_nat (length (l_rollback_ts l)))
                ++ concat (map encode_u64 (l_rollback_ts l))
     end
  ++ match l_last_change l with
     | LcUnknown => []
     | LcNotExist | LcExist _ _ =>
         let '(last_change_ts, versions) := LastChange_to_parts (l_last_change l) in
         LAST_CHANGE_PREFIX :: encode_u64 last_change_ts ++ encode_var_u64 versions
     end
  ++ (if negb (l_txn_source l =? 0) then L_TXN_SOURCE_PREFIX :: encode_var_u64 (l_txn_source l)
      else [])
  ++ (if l_is_locked_with_conflict l then [PESSIMISTIC_LOCK_WITH_CONFLICT_PREFIX] else [])
  ++ (if 0 <? l_generation l then GENERATION_PREFIX :: encode_u64 (l_generation l) else []).

Definition Lock_pre_allocate_size (l : Lock) : nat :=
  (1 + 10 + length (l_primary l) + MAX_VAR_U64_LEN * 2
   + match l_short_value l with Some v => 2 + length v | None => 0 end
   + (if negb (TimeStamp_is_zero (l_for_update_ts l)) then 1 + 8 else 0)
   + (if (0 <? l_txn_size l)%Z then 1 + 8 else 0)
   + (if negb (TimeStamp_is_zero (l_min_commit_ts l)) then 1 + 8 else 0)
   + (if l_use_async_commit l
      then 1 + MAX_VAR_U64_LEN + sum_list (map (fun k => 10 + length k)%nat (l_secondaries l))
      else 0)
   + match l_rollback_ts l with
     | [] => 0
     | _ :: _ => 1 + MAX_VAR_U64_LEN + 8 * length (l_rollback_ts l)
     end
   + match l_last_change l with
     | LcUnknown => 0
     | LcNotExist | LcExist _ _ => 1 + 8 + MAX_VAR_U64_LEN
     end
   + (if negb (l_txn_source l =? 0)%Z then 1 + MAX_VAR_U64_LEN else 0)
   + (if l_is_locked_with_conflict l then 1 else 0)
   + (if (0 <? l_generation l)%Z then 1 + 8 else 0))%nat.

(** [n] decodings one after the other. *)
Fixpoint decode_many {A} (dec : bytes -> codec_res (A * bytes)) (n : nat) (b : bytes)
    : codec_res (list A * bytes) :=
  match n with
  | O => Ok ([], b)
  | S n' =>
      '(x, b) ← dec b;
      '(xs, b) ← decode_many dec n' b;
      Ok (x :: xs, b)
  end.

(** The local variables of [Lock::parse]. *)
Record lock_fields : Type := {
  lf_short_value : option Value;
  lf_for_update_ts : TimeStamp;
  lf_txn_size : u64;
  lf_min_commit_ts : TimeStamp;
  lf_use_async_commit : bool;
  lf_secondaries : list bytes;
  lf_rollback_ts : list TimeStamp;
  lf_last_change_ts : TimeStamp;
  lf_versions : u64;
  lf_txn_source : u64;
  lf_is_locked_with_conflict : bool;
  lf_generation : u64
}.

(** One round of the loop of [Lock::parse] after its tag is read.  A vector
    whose capacity exceeds [isize::MAX] bytes is a panic. *)
Definition Lock_parse_field (tag : u8) (f : lock_fields) (b : bytes)
    : txn_types_res (option (lock_fields * bytes)) :=
  let '(Build_lock_fields sv fu size mc ac sec rb ts n src cf g) := f in
  if tag =? SHORT_VALUE_PREFIX then
    '(len, b) ← map_err (fun _ => TtIo UnexpectedEof) (read_u8 b);
    if zlen b <? len then Panic
    else Ok (Some (Build_lock_fields (Some (take (Z.to_nat len) b)) fu size mc ac sec rb ts n src cf g,
                   drop (Z.to_nat len) b))
  else if tag =? FOR_UPDATE_TS_PREFIX then
    '(fu, b) ← map_err TtCodec (decode_u64 b);
    Ok (Some (Build_lock_fields sv fu size mc ac sec rb ts n src cf g, b))
  else if tag =? TXN_SIZE_PREFIX then
    '(size, b) ← map_err TtCodec (decode_u64 b);
    Ok (Some (Build_lock_fields sv fu size mc ac sec rb ts n src cf g, b))
  else if tag =? MIN_COMMIT_TS_PREFIX then
    '(mc, b) ← map_err TtCodec (decode_u64 b);
    Ok (Some (Build_lock_fields sv fu size mc ac sec rb ts n src cf g, b))
  else if tag =? ASYNC_COMMIT_PREFIX then
    '(len, b) ← map_err TtCodec (decode_var_u64 b);
    '(sec, b) ← map_err TtCodec (decode_many decode_compact_bytes (Z.to_nat len) b);
    Ok (Some (Build_lock_fields sv fu size mc true sec rb ts n src cf g, b))
  else if tag =? ROLLBACK_TS_PREFIX then
    '(len, b) ← map_err TtCodec (decode_var_u64 b);
    if 2 ^ 63 <=? as_u64 (len + 1) * 8 then Panic
    else
      '(rb, b) ← map_err TtCodec (decode_many decode_u64 (Z.to_nat len) b);
      Ok (Some (Build_lock_fields sv fu size mc ac sec rb ts n src cf g, b))
  else if tag =? LAST_CHANGE_PREFIX then
    '(ts, b) ← map_err TtCodec (decode_u64 b);
    '(n, b) ← map_err TtCodec (decode_var_u64 b);
    Ok (Some (Build_lock_fields sv fu size mc ac sec rb ts n src cf g, b))
  else if tag =? L_TXN_SOURCE_PREFIX then
    '(src, b) ← map_err TtCodec (decode_var_u64 b);
    Ok (Some (Build_lock_fields sv fu size mc ac sec rb ts n src cf g, b))
  else if tag =? PESSIMISTIC_LOCK_WITH_CONFLICT_PREFIX then
    Ok (Some (Build_lock_fields sv fu size mc ac sec rb ts n src true g, b))
  else if tag =? GENERATION_PREFIX then
    '(g, b) ← map_err TtCodec (decode_u64 b);
    Ok (Some (Build_lock_fields sv fu size mc ac sec rb ts n src cf g, b))
  else Ok None.

Definition lock_fields_default : lock_fields :=
  Build_lock_fields None 0 0 0 false [] [] 0 0 0 false 0.

Definition Lock_parse (b : bytes) : txn_types_res Lock :=
  match b with
  | [] => Err BadFormatLock
  | _ =>
      '(t, b) ← map_err (fun _ => TtIo UnexpectedEof) (read_u8 b);
      lock_type ← ok_or BadFormatLock (LockType_from_u8 t);
      '(primary, b) ← map_err TtCodec (decode_compact_bytes b);
      '(ts, b) ← map_err TtCodec (decode_var_u64 b);
      '(ttl, b) ← match b with [] => Ok (0, b) | _ => map_err TtCodec (decode_var_u64 b) end;
      match b with
      | [] => Ok (Lock_new lock_type primary ts ttl None 0 0 0 false)
      | _ =>
          f ← parse_fields Lock_parse_field lock_fields_default b;
          last_change ← LastChange_from_parts (lf_last_change_ts f) (lf_versions f);
          let lock :=
            Lock_with_generation
              (Lock_with_rollback_ts
                 (Lock_set_txn_source
                    (Lock_set_last_change
                       (Lock_new lock_type primary ts ttl (lf_short_value f) (lf_for_update_ts f)
                          (lf_txn_size f) (lf_min_commit_ts f) (lf_is_locked_with_conflict f))
                       last_change)
                    (lf_txn_source f))
                 (lf_rollback_ts f))
              (lf_generation f) in
          Ok (if lf_use_async_commit f then Lock_use_async_commit lock (lf_secondaries f) else lock)
      end
  end.

(** ** Conversions and conflict checks *)

Definition Lock_into_lock_info (l : Lock) (raw_key : bytes) : LockInfo :=
  {| li_primary_lock := l_primary l; li_lock_version := l_ts l; li_key := raw_key;
     li_lock_ttl := l_ttl l; li_txn_size := l_txn_size l; li_lock_type := l_lock_type l;
     li_lock_for_update_ts := l_for_update_ts l; li_use_async_commit := l_use_async_commit l;
     li_min_commit_ts := l_min_commit_ts l; li_secondaries := l_secondaries l |}.

Definition Lock_is_pessimistic_txn (l : Lock) : bool :=
  negb (TimeStamp_is_zero (l_for_update_ts l)).
Definition Lock_is_pessimistic_lock (l : Lock) : bool :=
  bool_decide (l_lock_type l = LtPessimistic).
Definition Lock_is_pessimistic_lock_with_conflict (l : Lock) : bool :=
  Lock_is_pessimistic_lock l && l_is_locked_with_conflict l.

Definition Lock_check_ts_conflict_si (lock : Lock) (key : Key) (ts : TimeStamp)
    (bypass_locks : TsSet) (is_replica_read : bool) : txn_types_res unit :=
  if ((ts <? l_ts lock) || bool_decide (l_lock_type lock = LtLock)
      || Lock_is_pessimistic_lock lock)%bool
  then Ok tt
  else if ts <? l_min_commit_ts lock then Ok tt
  else if TsSet_contains bypass_locks (l_ts lock) then Ok tt
  else
    raw_key ← map_err TtCodec (Key_to_raw key);
    if ((ts =? TimeStamp_max) && is_replica_read)%bool
    then Err (TtKeyIsLocked (Lock_into_lock_info lock raw_key))
    else if ((ts =? TimeStamp_max) && bytes_eqb raw_key (l_primary lock)
             && negb (l_use_async_commit lock) && negb (l_use_one_pc lock))%bool
    then Ok tt
    else Err (TtKeyIsLocked (Lock_into_lock_info lock raw_key)).

Definition Lock_check_ts_conflict_rc_check_ts (lock : Lock) (key : Key) (ts : TimeStamp)
    (bypass_locks : TsSet) : txn_types_res unit :=
  if (bool_decide (l_lock_type lock = LtLock) || Lock_is_pessimistic_lock lock)%bool then Ok tt
  else if TsSet_contains bypass_locks (l_ts lock) then Ok tt
  else
    raw_key ← map_err TtCodec (Key_to_raw key);
    Err (TtWriteConflict ts (l_ts lock) 0 raw_key (l_primary lock) WcRcCheckTs).

Definition Lock_check_ts_conflict (lock : Lock) (key : Key) (ts : TimeStamp)
    (bypass_locks : TsSet) (iso_level : IsolationLevel) : txn_types_res unit :=
  match iso_level with
  | Si => Lock_check_ts_conflict_si lock key ts bypass_locks false
  | RcCheckTs => Lock_check_ts_conflict_rc_check_ts lock key ts bypass_locks
  | Rc => Ok tt
  end.

Definition Lock_check_ts_conflict_for_replica_read (lock : Lock) (key : Key) (ts : TimeStamp)
    (bypass_locks : TsSet) (iso_level : IsolationLevel) : txn_types_res unit :=
  match iso_level with
  | Si => Lock_check_ts_conflict_si lock key ts bypass_locks true
  | RcCheckTs => Panic
  | Rc => Ok tt
  end.

(** ** In-memory pessimistic locks *)

Record PessimisticLock : Type := {
  pl_primary : bytes;
  pl_start_ts : TimeStamp;
  pl_ttl : u64;
  pl_for_update_ts : TimeStamp;
  pl_min_commit_ts : TimeStamp;
  pl_last_change : LastChange;
  pl_is_locked_with_conflict : bool
}.

Definition PessimisticLock_to_lock (p : PessimisticLock) : Lock :=
  Lock_set_last_change
    (Lock_new LtPessimistic (pl_primary p) (pl_start_ts p) (pl_ttl p) None (pl_for_update_ts p) 0
       (pl_min_commit_ts p) (pl_is_locked_with_conflict p))
    (pl_last_change p).
Definition PessimisticLock_into_lock (p : PessimisticLock) : Lock := PessimisticLock_to_lock p.

Inductive TxnLockRef : Type :=
| InMemory (p : PessimisticLock)
| Persisted (l : Lock).

Definition TxnLockRef_get_start_ts (r : TxnLockRef) : TimeStamp :=
  match r with InMemory p => pl_start_ts p | Persisted l => l_ts l end.
Definition TxnLockRef_get_for_update_ts (r : TxnLockRef) : TimeStamp :=
  match r with InMemory p => pl_for_update_ts p | Persisted l => l_for_update_ts l end.
Definition TxnLockRef_is_pessimistic_lock (r : TxnLockRef) : bool :=
  match r with InMemory _ => true | Persisted l => Lock_is_pessimistic_lock l end.
Definition TxnLockRef_get_lock_type (r : TxnLockRef) : LockType :=
  match r with InMemory _ => LtPessimistic | Persisted l => l_lock_type l end.

(** ** Lemmas *)

Lemma decode_many_rest {A} (dec : bytes -> codec_res (A * bytes)) :
  (forall b x b', dec b = Ok (x, b') -> (length b' <= length b)%nat) ->
  forall n b xs b', decode_many dec n b = Ok (xs, b') -> (length b' <= length b)%nat.
Proof.
  intros Hdec n. induction n as [|n IH]; intros b xs b' H; cbn in H; [by injection H as _ <-|].
  apply res_bind_ok in H as ([x b1] & H1 & H). apply res_bind_ok in H as ([xs' b2] & H2 & H).
  injection H as _ <-. apply Hdec in H1. apply IH in H2. lia.
Qed.

Lemma decode_compact_bytes_rest b x b' :
  decode_compact_bytes b = Ok (x, b') -> (length b' <= length b)%nat.
Proof.
  unfold decode_compact_bytes, decode_var_i64. intros H.
  apply res_bind_ok in H as ([vn b1] & H1 & H). apply res_bind_ok in H1 as ([v b2] & H1 & H2).
  apply decode_var_u64_rest in H1.
  assert (b2 = b1) as -> by (destruct (_ =? 0); by injection H2).
  destruct (_ <=? _); [|done]. injection H as _ <-. rewrite length_drop. lia.
Qed.

Lemma Lock_parse_field_consumes c f b f' b' :
  Lock_parse_field c f b = Ok (Some (f', b')) -> (length b' <= length b)%nat.
Proof.
  destruct f. unfold Lock_parse_field. intros H.
  repeat match goal with
  | H : context [if ?b then _ else _] |- _ => destruct b
  | H : _ ≫= _ = Ok _ |- _ => apply res_bind_ok in H as ([? ?] & ? & H)
  | H : map_err _ _ = Ok _ |- _ => apply map_err_ok in H
  | H : decode_many _ _ _ = Ok _ |- _ =>
      apply decode_many_rest in H; [|apply decode_compact_bytes_rest || apply decode_u64_rest]
  end; consumes.
Qed.

Definition lock_parse_cons := parse_fields_cons Lock_parse_field Lock_parse_field_consumes.

(** Locks the program writes: values in range, a short value that fits its
    length byte, no secondaries without async commit, and no one-phase-commit
    flag, which is not persisted. *)
Record lock_ok (l : Lock) : Prop := {
  lock_ok_primary : zlen (l_primary l) < 2 ^ 62;
  lock_ok_ts : u64_ok (l_ts l);
  lock_ok_ttl : u64_ok (l_ttl l);
  lock_ok_short_value : short_value_ok (l_short_value l);
  lock_ok_for_update_ts : u64_ok (l_for_update_ts l);
  lock_ok_txn_size : u64_ok (l_txn_size l);
  lock_ok_min_commit_ts : u64_ok (l_min_commit_ts l);
  lock_ok_one_pc : l_use_one_pc l = false;
  lock_ok_secondaries : Forall (fun k => zlen k < 2 ^ 62) (l_secondaries l);
  lock_ok_secondaries_len : Z.of_nat (length (l_secondaries l)) < 2 ^ 62;
  lock_ok_secondaries_async : l_use_async_commit l = false -> l_secondaries l = [];
  lock_ok_rollback_ts : Forall u64_ok (l_rollback_ts l);
  lock_ok_rollback_ts_len : Z.of_nat (length (l_rollback_ts l)) < 2 ^ 59;
  lock_ok_last_change : last_change_ok (l_last_change l);
  lock_ok_txn_source : u64_ok (l_txn_source l);
  lock_ok_generation : u64_ok (l_generation l)
}.

Lemma decode_encode_compact k rest :
  zlen k < 2 ^ 62 -> decode_compact_bytes (encode_compact_bytes k ++ rest) = Ok (k, rest).
Proof.
  intros Hk. destruct (decode_compact_prefix k rest) as [E Eu]; [lia|].
  unfold decode_compact_bytes. rewrite E. cbn. rewrite Eu. apply take_zlen.
Qed.

Lemma decode_many_encode {A} (dec : bytes -> codec_res (A * bytes)) (enc : A -> bytes) P xs rest :
  (forall x rest, P x -> dec (enc x ++ rest) = Ok (x, rest)) -> Forall P xs ->
  decode_many dec (length xs) (concat (map enc xs) ++ rest) = Ok (xs, rest).
Proof.
  intros Hdec. induction 1 as [|x xs Hx Hxs IH]; cbn; [done|].
  rewrite <-app_assoc, Hdec by done. cbn. by rewrite IH.
Qed.

(** Runs one round of the parser on a field whose tag is known. *)
Ltac parse_one_field :=
  cbn [app]; rewrite lock_parse_cons; unfold Lock_parse_field at 1;
  cbn -[decode_u64 encode_u64 decode_var_u64 encode_var_u64 decode_many as_u8 as_u64 Z.leb
        Z.to_nat Z.of_nat].

Section LockSegments.
Context (sv : option Value) (fu size mc : Z) (ac : bool) (sec : list bytes) (rb : list TimeStamp)
  (ts n src : Z) (cf : bool) (g : Z) (rest : bytes).

Lemma lock_parse_short_value v : short_value_ok v ->
  parse_fields Lock_parse_field (Build_lock_fields None fu size mc ac sec rb ts n src cf g)
    (match v with Some v => SHORT_VALUE_PREFIX :: as_u8 (zlen v) :: v | None => [] end ++ rest)
  = parse_fields Lock_parse_field (Build_lock_fields v fu size mc ac sec rb ts n src cf g) rest.
Proof.
  destruct v as [v|]; [|done]. intros Hv. parse_one_field.
  destruct (take_drop_short v rest Hv) as (-> & -> & ->). done.
Qed.

Lemma lock_parse_for_update_ts x : u64_ok x ->
  parse_fields Lock_parse_field (Build_lock_fields sv 0 size mc ac sec rb ts n src cf g)
    ((if negb (TimeStamp_is_zero x) then FOR_UPDATE_TS_PREFIX :: encode_u64 x else []) ++ rest)
  = parse_fields Lock_parse_field (Build_lock_fields sv x size mc ac sec rb ts n src cf g) rest.
Proof.
  intros Hx. unfold TimeStamp_is_zero. destruct (Z.eqb_spec x 0) as [->|]; [done|].
  cbn [negb]. parse_one_field. by rewrite decode_encode_u64.
Qed.

Lemma lock_parse_txn_size x : u64_ok x ->
  parse_fields Lock_parse_field (Build_lock_fields sv fu 0 mc ac sec rb ts n src cf g)
    ((if 0 <? x then TXN_SIZE_PREFIX :: encode_u64 x else []) ++ rest)
  = parse_fields Lock_parse_field (Build_lock_fields sv fu x mc ac sec rb ts n src cf g) rest.
Proof.
  intros Hx. unfold u64_ok in Hx. destruct (Z.ltb_spec 0 x); [|by replace x with 0 by lia].
  parse_one_field. by rewrite decode_encode_u64.
Qed.

Lemma lock_parse_min_commit_ts x : u64_ok x ->
  parse_fields Lock_parse_field (Build_lock_fields sv fu size 0 ac sec rb ts n src cf g)
    ((if negb (TimeStamp_is_zero x) then MIN_COMMIT_TS_PREFIX :: encode_u64 x else []) ++ rest)
  = parse_fields Lock_parse_field (Build_lock_fields sv fu size x ac sec rb ts n src cf g) rest.
Proof.
  intros Hx. unfold TimeStamp_is_zero. destruct (Z.eqb_spec x 0) as [->|]; [done|].
  cbn [negb]. parse_one_field. by rewrite decode_encode_u64.
Qed.

Lemma lock_parse_async_commit (b : bool) xs :
  Forall (fun k => zlen k < 2 ^ 62) xs -> Z.of_nat (length xs) < 2 ^ 62 -> (b = false -> xs = []) ->
  parse_fields Lock_parse_field (Build_lock_fields sv fu size mc false [] rb ts n src cf g)
    ((if b then ASYNC_COMMIT_PREFIX :: encode_var_u64 (Z.of_nat (length xs))
                  ++ concat (map encode_compact_bytes xs) else []) ++ rest)
  = parse_fields Lock_parse_field (Build_lock_fields sv fu size mc b xs rb ts n src cf g) rest.
Proof.
  intros Hxs Hl Hb. destruct b; [|by rewrite Hb]. parse_one_field.
  rewrite <-app_assoc, decode_encode_var_u64 by (unfold u64_ok; lia).
  cbn -[decode_many Z.to_nat Z.of_nat]. rewrite Nat2Z.id.
  by rewrite (decode_many_encode decode_compact_bytes _ (fun k => zlen k < 2 ^ 62))
    by auto using decode_encode_compact.
Qed.

Lemma lock_parse_rollback_ts xs :
  Forall u64_ok xs -> Z.of_nat (length xs) < 2 ^ 59 ->
  parse_fields Lock_parse_field (Build_lock_fields sv fu size mc ac sec [] ts n src cf g)
    (match xs with
     | [] => []
     | _ :: _ => ROLLBACK_TS_PREFIX :: encode_var_u64 (Z.of_nat (length xs))
                ++ concat (map encode_u64 xs)
     end ++ rest)
  = parse_fields Lock_parse_field (Build_lock_fields sv fu size mc ac sec xs ts n src cf g) rest.
Proof.
  intros Hxs Hl. destruct (decide (xs = [])) as [->|Hne]; [done|].
  assert (match xs with
     | [] => []
     | _ :: _ => ROLLBACK_TS_PREFIX :: encode_var_u64 (Z.of_nat (length xs))
                ++ concat (map encode_u64 xs)
     end = ROLLBACK_TS_PREFIX :: encode_var_u64 (Z.of_nat (length xs))
                ++ concat (map encode_u64 xs)) as -> by by destruct xs.
  parse_one_field.
  rewrite <-app_assoc, decode_encode_var_u64 by (unfold u64_ok; lia).
  cbn -[decode_many Z.to_nat Z.of_nat as_u64 Z.leb length map concat]. unfold as_u64.
  rewrite Z.mod_small, Nat2Z.id by lia.
  destruct (Z.leb_spec (2 ^ 63) ((Z.of_nat (length xs) + 1) * 8)); [lia|].
  by rewrite (decode_many_encode decode_u64 _ u64_ok) by auto using decode_encode_u64.
Qed.

Lemma lock_parse_last_change c : last_change_ok c ->
  parse_fields Lock_parse_field (Build_lock_fields sv fu size mc ac sec rb 0 0 src cf g)
    (match c with
     | LcUnknown => []
     | LcNotExist | LcExist _ _ =>
         let '(last_change_ts, versions) := LastChange_to_parts c in
         LAST_CHANGE_PREFIX :: encode_u64 last_change_ts ++ encode_var_u64 versions
     end ++ rest)
  = parse_fields Lock_parse_field
      (Build_lock_fields sv fu size mc ac sec rb (fst (LastChange_to_parts c))
         (snd (LastChange_to_parts c)) src cf g) rest.
Proof.
  intros Hc. pose proof (last_change_parts_ok c Hc) as [H1 H2].
  destruct c as [|t m|]; [done|..]; cbn [LastChange_to_parts fst snd] in *;
    parse_one_field; rewrite <-app_assoc, decode_encode_u64 by done;
    cbn -[decode_var_u64 encode_var_u64]; by rewrite decode_encode_var_u64.
Qed.

Lemma lock_parse_txn_source s : u64_ok s ->
  parse_fields Lock_parse_field (Build_lock_fields sv fu size mc ac sec rb ts n 0 cf g)
    ((if negb (s =? 0) then L_TXN_SOURCE_PREFIX :: encode_var_u64 s else []) ++ rest)
  = parse_fields Lock_parse_field (Build_lock_fields sv fu size mc ac sec rb ts n s cf g) rest.
Proof.
  intros Hs. destruct (Z.eqb_spec s 0) as [->|]; cbn [negb]; [done|].
  parse_one_field. by rewrite decode_encode_var_u64.
Qed.

Lemma lock_parse_conflict (b : bool) :
  parse_fields Lock_parse_field (Build_lock_fields sv fu size mc ac sec rb ts n src false g)
    ((if b then [PESSIMISTIC_LOCK_WITH_CONFLICT_PREFIX] else []) ++ rest)
  = parse_fields Lock_parse_field (Build_lock_fields sv fu size mc ac sec rb ts n src b g) rest.
Proof. destruct b; [|done]. by parse_one_field. Qed.

Lemma lock_parse_generation x : u64_ok x ->
  parse_fields Lock_parse_field (Build_lock_fields sv fu size mc ac sec rb ts n src cf 0)
    ((if 0 <? x then GENERATION_PREFIX :: encode_u64 x else []) ++ rest)
  = parse_fields Lock_parse_field (Build_lock_fields sv fu size mc ac sec rb ts n src cf x) rest.
Proof.
  intros Hx. unfold u64_ok in Hx. destruct (Z.ltb_spec 0 x); [|by replace x with 0 by lia].
  parse_one_field. by rewrite decode_encode_u64.
Qed.
End LockSegments.

Lemma LockType_u8_roundtrip t : LockType_from_u8 (LockType_to_u8 t) = Some t.
Proof. by destruct t. Qed.

(** Bytes the parser stops at: none, or an unknown tag and anything. *)
Definition lock_trailer (b : bytes) : Prop :=
  match b with
  | [] => True
  | c :: _ => c ∉ [SHORT_VALUE_PREFIX; FOR_UPDATE_TS_PREFIX; TXN_SIZE_PREFIX;
                   MIN_COMMIT_TS_PREFIX; ASYNC_COMMIT_PREFIX; ROLLBACK_TS_PREFIX;
                   LAST_CHANGE_PREFIX; L_TXN_SOURCE_PREFIX;
                   PESSIMISTIC_LOCK_WITH_CONFLICT_PREFIX; GENERATION_PREFIX]
  end.

Lemma lock_parse_trailer f b : lock_trailer b -> parse_fields Lock_parse_field f b = Ok f.
Proof.
  destruct b as [|c b]; [done|]. cbn [lock_trailer]. rewrite !not_elem_of_cons.
  intros (? & ? & ? & ? & ? & ? & ? & ? & ? & ? & _). rewrite lock_parse_cons. destruct f.
  unfold Lock_parse_field. by do 10 (case_match; [lia|]).
Qed.

(** What [Lock::parse] does after the four leading fields; the early return on
    an exhausted input is the general case. *)
Lemma lock_parse_tail lock_type primary ts ttl b :
  match b with
  | [] => Ok (Lock_new lock_type primary ts ttl None 0 0 0 false)
  | _ =>
      f ← parse_fields Lock_parse_field lock_fields_default b;
      last_change ← LastChange_from_parts (lf_last_change_ts f) (lf_versions f);
      let lock :=
        Lock_with_generation
          (Lock_with_rollback_ts
             (Lock_set_txn_source
                (Lock_set_last_change
                   (Lock_new lock_type primary ts ttl (lf_short_value f) (lf_for_update_ts f)
                      (lf_txn_size f) (lf_min_commit_ts f) (lf_is_locked_with_conflict f))
                   last_change)
                (lf_txn_source f))
             (lf_rollback_ts f))
          (lf_generation f) in
      Ok (if lf_use_async_commit f then Lock_use_async_commit lock (lf_secondaries f) else lock)
  end
  = f ← parse_fields Lock_parse_field lock_fields_default b;
    last_change ← LastChange_from_parts (lf_last_change_ts f) (lf_versions f);
    Ok (Build_Lock lock_type primary ts ttl (lf_short_value f) (lf_for_update_ts f)
          (lf_txn_size f) (lf_min_commit_ts f) (lf_use_async_commit f) false
          (if lf_use_async_commit f then lf_secondaries f else []) (lf_rollback_ts f) last_change
          (lf_txn_source f) (lf_is_locked_with_conflict f) (lf_generation f))
    : txn_types_res Lock.
Proof.
  destruct b; [done|].
  destruct (parse_fields Lock_parse_field lock_fields_default _) as [f| |]; cbn [mbind res_bind]; try done.
  destruct (LastChange_from_parts _ _); cbn [mbind res_bind]; try done.
  destruct f as [????[]]; done.
Qed.

Lemma encode_var_u64_cons v s : u64_ok v -> exists c r, encode_var_u64 v ++ s = c :: r.
Proof.
  intros Hv. pose proof (encode_var_u64_enc v Hv) as He.
  destruct (encode_var_u64 v) as [|c r]; [inversion He|]. by eexists _, _.
Qed.

Lemma lock_roundtrip_trailer l b :
  lock_ok l -> lock_trailer b -> Lock_parse (Lock_to_bytes l ++ b) = Ok l.
Proof.
  intros [] Hb. unfold Lock_parse, Lock_to_bytes. rewrite <-!app_assoc.
  cbn [app read_u8 map_err mbind res_bind]. rewrite LockType_u8_roundtrip. cbn [ok_or].
  rewrite decode_encode_compact by done. cbn [map_err mbind res_bind].
  rewrite decode_encode_var_u64 by done. cbn [map_err mbind res_bind].
  match goal with |- context [encode_var_u64 (l_ttl l) ++ ?s] =>
    destruct (encode_var_u64_cons (l_ttl l) s) as (c & r & E); [done|];
    rewrite E, <-E, decode_encode_var_u64 by done end.
  cbn [map_err mbind res_bind]. rewrite lock_parse_tail. unfold lock_fields_default.
  rewrite lock_parse_short_value, lock_parse_for_update_ts, lock_parse_txn_size,
    lock_parse_min_commit_ts, lock_parse_async_commit, lock_parse_rollback_ts,
    lock_parse_last_change, lock_parse_txn_source, lock_parse_conflict, lock_parse_generation,
    lock_parse_trailer by done.
  cbn -[LastChange_from_parts LastChange_to_parts]. rewrite last_change_roundtrip by done. cbn.
  destruct l as [????????[]]; cbn in *; subst; [done|]. by rewrite lock_ok_secondaries_async0.
Qed.

Lemma lock_roundtrip l : lock_ok l -> Lock_parse (Lock_to_bytes l) = Ok l.
Proof.
  intros H. rewrite <-(app_nil_r (Lock_to_bytes l)). by apply lock_roundtrip_trailer.
Qed.

(** ** Sizes *)

Lemma encode_compact_length k :
  zlen k < 2 ^ 62 -> (length (encode_compact_bytes k) <= 10 + length k)%nat.
Proof.
  intros Hk. unfold encode_compact_bytes, encode_var_i64. rewrite length_app.
  rewrite zigzag_eq by (unfold i64_ok, zlen in *; lia).
  assert (u64_ok (if zlen k <? 0 then - 2 * zlen k - 1 else 2 * zlen k)) as Hv
    by (unfold u64_ok, zlen in *; zcase; lia).
  pose proof (encode_var_u64_length _ Hv). lia.
Qed.

Lemma concat_compact_length ks :
  Forall (fun k => zlen k < 2 ^ 62) ks ->
  (length (concat (map encode_compact_bytes ks)) <= sum_list (map (fun k => 10 + length k) ks))%nat.
Proof.
  induction 1 as [|k ks Hk Hks IH]; cbn [map concat sum_list]; [done|].
  rewrite length_app. pose proof (encode_compact_length k Hk). unfold id in *. lia.
Qed.

Lemma concat_u64_length ts : length (concat (map encode_u64 ts)) = (8 * length ts)%nat.
Proof. induction ts; cbn [map concat length]; [done|]. rewrite length_app, encode_u64_length. lia. Qed.

Lemma last_change_seg_length c :
  last_change_ok c ->
  (length (match c with
     | LcUnknown => []
     | LcNotExist | LcExist _ _ =>
         let '(last_change_ts, versions) := LastChange_to_parts c in
         LAST_CHANGE_PREFIX :: encode_u64 last_change_ts ++ encode_var_u64 versions
     end) <= match c with LcUnknown => 0 | LcNotExist | LcExist _ _ => 1 + 8 + 10 end)%nat.
Proof.
  intros Hlc. destruct (last_change_parts_ok _ Hlc) as [_ Hn%encode_var_u64_length].
  destruct c; cbn in Hn |- *; rewrite ?length_app, ?encode_u64_length; lia.
Qed.

Lemma u64_seg_length (b : bool) p v :
  length (if b then p :: encode_u64 v else []) = (if b then 1 + 8 else 0)%nat.
Proof. destruct b; cbn [length]; by rewrite ?encode_u64_length. Qed.

Lemma lock_bytes_length l :
  lock_ok l -> (length (Lock_to_bytes l) <= Lock_pre_allocate_size l)%nat.
Proof.
  intros []. unfold Lock_to_bytes, Lock_pre_allocate_size, MAX_VAR_U64_LEN.
  rewrite !length_app, !u64_seg_length.
  pose proof (encode_compact_length _ lock_ok_primary0).
  pose proof (encode_var_u64_length _ lock_ok_ts0).
  pose proof (encode_var_u64_length _ lock_ok_ttl0).
  pose proof (encode_var_u64_length _ lock_ok_txn_source0).
  pose proof (last_change_seg_length _ lock_ok_last_change0).
  pose proof (concat_compact_length _ lock_ok_secondaries0).
  assert (length (encode_var_u64 (Z.of_nat (length (l_secondaries l)))) <= 10)%nat
    by (apply encode_var_u64_length; unfold u64_ok; lia).
  assert (length (encode_var_u64 (Z.of_nat (length (l_rollback_ts l)))) <= 10)%nat
    by (apply encode_var_u64_length; unfold u64_ok; lia).
  pose proof (concat_u64_length (l_rollback_ts l)). cbn [length].
  destruct (l_short_value l), (l_use_async_commit l), (l_rollback_ts l),
    (negb (l_txn_source l =? 0)), (l_is_locked_with_conflict l); cbn [length] in *;
    rewrite ?length_app; lia.
Qed.

(** ** Theorems *)

(** C36. A lock is read back exactly as written, also when unknown fields follow
    it, and fits the capacity reserved for it. *)
Theorem lock_record_roundtrip l b :
  lock_ok l -> lock_trailer b ->
  Lock_parse (Lock_to_bytes l ++ b) = Ok l
  /\ (length (Lock_to_bytes l) <= Lock_pre_allocate_size l)%nat.
Proof. auto using lock_roundtrip_trailer, lock_bytes_length. Qed.

Definition sample_lock : Lock :=
  Lock_use_async_commit
    (Lock_with_rollback_ts
       (Lock_set_last_change (Lock_new LtPut [112; 107] 100 3000 (Some [1]) 105 2 106 false)
          (LcExist 90 1)) [95; 97]) [[115; 49]; [115; 50]].

Lemma sample_lock_ok : lock_ok sample_lock.
Proof. split; cbn; unfold u64_ok, zlen; repeat constructor; cbn; lia. Qed.

Lemma lock_record_roundtrip_witness :
  lock_ok sample_lock /\ lock_trailer [] /\ Lock_parse (Lock_to_bytes sample_lock ++ []) = Ok sample_lock.
Proof.
  split; [exact sample_lock_ok|]. split; [exact I|].
  exact (proj1 (lock_record_roundtrip sample_lock [] sample_lock_ok I)).
Defined.
