(* ===== verification/ConcurrencyManager.v ===== *)
(** * The concurrency manager

    Models [components/concurrency_manager/src]: the maximum read timestamp
    with its limit, and the table of in-memory locks.  Instants and durations
    are nanoseconds.  The clock ([now]) and the answer of the timestamp oracle
    ([tso]: [None] when there is no provider, an error or a timeout) are
    arguments.  A key handle is in the table while its guard is alive.

    Theorems: the effect of [update_max_ts] on every branch; range checks; and
    the interleaving argument of async commit: a reader that registered its
    timestamp and found no memory lock is below the commit timestamp. *)

From Stdlib Require Import ZArith Lia Sorting.
From stdpp Require Import base numbers list gmap sorting.
From S2P Require Import Prelude Number Bytes Types Write Lock.

Open Scope Z_scope.

Inductive ActionOnInvalidMaxTs : Type := ActPanic | ActError | ActLog.

Record MaxTsLimit : Type := { ml_limit : TimeStamp; ml_update_time : Z }.

Record InvalidMaxTsUpdate : Type := { im_attempted_ts : TimeStamp; im_limit : TimeStamp }.

Record ConcurrencyManager : Type := {
  cm_max_ts : TimeStamp;
  cm_lock_table : gmap bytes (option Lock);
  cm_max_ts_limit : MaxTsLimit;
  cm_limit_valid_duration : Z;
  cm_action_on_invalid_max_ts : ActionOnInvalidMaxTs;
  cm_max_ts_drift_allowance_ms : u64
}.

Definition as_millis (d : Z) : Z := d / 1000000.

Definition cm_new_with_config (latest_ts : TimeStamp) (now limit_valid_duration : Z)
    (action : ActionOnInvalidMaxTs) (max_ts_drift_allowance : Z) : ConcurrencyManager :=
  {| cm_max_ts := latest_ts; cm_lock_table := ∅;
     cm_max_ts_limit := {| ml_limit := 0; ml_update_time := now |};
     cm_limit_valid_duration := limit_valid_duration; cm_action_on_invalid_max_ts := action;
     cm_max_ts_drift_allowance_ms := as_u64 (as_millis max_ts_drift_allowance) |}.

Definition DEFAULT_LIMIT_VALID_DURATION : Z := 45 * 1000000000.

Definition cm_new (latest_ts : TimeStamp) (now : Z) : ConcurrencyManager :=
  cm_new_with_config latest_ts now DEFAULT_LIMIT_VALID_DURATION ActPanic 0.

Definition cm_set_max_ts (cm : ConcurrencyManager) (ts : TimeStamp) : ConcurrencyManager :=
  {| cm_max_ts := ts; cm_lock_table := cm_lock_table cm; cm_max_ts_limit := cm_max_ts_limit cm;
     cm_limit_valid_duration := cm_limit_valid_duration cm;
     cm_action_on_invalid_max_ts := cm_action_on_invalid_max_ts cm;
     cm_max_ts_drift_allowance_ms := cm_max_ts_drift_allowance_ms cm |}.
Definition cm_set_limit (cm : ConcurrencyManager) (l : MaxTsLimit) : ConcurrencyManager :=
  {| cm_max_ts := cm_max_ts cm; cm_lock_table := cm_lock_table cm; cm_max_ts_limit := l;
     cm_limit_valid_duration := cm_limit_valid_duration cm;
     cm_action_on_invalid_max_ts := cm_action_on_invalid_max_ts cm;
     cm_max_ts_drift_allowance_ms := cm_max_ts_drift_allowance_ms cm |}.
Definition cm_set_table (cm : ConcurrencyManager) (t : gmap bytes (option Lock)) : ConcurrencyManager :=
  {| cm_max_ts := cm_max_ts cm; cm_lock_table := t; cm_max_ts_limit := cm_max_ts_limit cm;
     cm_limit_valid_duration := cm_limit_valid_duration cm;
     cm_action_on_invalid_max_ts := cm_action_on_invalid_max_ts cm;
     cm_max_ts_drift_allowance_ms := cm_max_ts_drift_allowance_ms cm |}.

(** The compare-exchange loop succeeds in its first round when nothing
    interferes. *)
Definition set_max_ts_limit (now : Z) (cm : ConcurrencyManager) (ts_from_tso : TimeStamp)
    : ConcurrencyManager :=
  if TimeStamp_is_max ts_from_tso then cm
  else
    let limit :=
      TimeStamp_compose (as_u64 (TimeStamp_physical ts_from_tso + cm_max_ts_drift_allowance_ms cm))
        (TimeStamp_logical ts_from_tso) in
    if limit <=? ml_limit (cm_max_ts_limit cm) then cm
    else cm_set_limit cm {| ml_limit := limit; ml_update_time := now |}.

Definition report_error (cm : ConcurrencyManager) (new_ts : TimeStamp) (limit : MaxTsLimit)
    (tso_confirmed : bool) : res InvalidMaxTsUpdate unit :=
  match cm_action_on_invalid_max_ts cm, tso_confirmed with
  | ActPanic, true => Panic
  | ActError, true => Err {| im_attempted_ts := new_ts; im_limit := ml_limit limit |}
  | _, _ => Ok tt
  end.

Definition double_check (now : Z) (tso : option TimeStamp) (cm : ConcurrencyManager)
    (new_ts : TimeStamp) : res InvalidMaxTsUpdate unit * ConcurrencyManager :=
  let '(cm, tso_confirmed) :=
    match tso with Some ts => (set_max_ts_limit now cm ts, true) | None => (cm, false) end in
  let new_limit := cm_max_ts_limit cm in
  if ml_limit new_limit <? new_ts then (report_error cm new_ts new_limit tso_confirmed, cm)
  else (Ok tt, cm).

Definition update_max_ts (now : Z) (tso : option TimeStamp) (cm : ConcurrencyManager)
    (new_ts : TimeStamp) : res InvalidMaxTsUpdate unit * ConcurrencyManager :=
  if TimeStamp_is_max new_ts then (Ok tt, cm)
  else
    let limit := cm_max_ts_limit cm in
    let '(checked, cm) :=
      if (negb (TimeStamp_is_zero (ml_limit limit)) && (ml_limit limit <? new_ts))%bool then
        let duration := now - ml_update_time limit in
        if duration <? cm_limit_valid_duration cm then double_check now tso cm new_ts
        else
          let approximate_limit :=
            TimeStamp_compose
              (as_u64 (TimeStamp_physical (ml_limit limit) + as_u64 (as_millis duration)))
              (TimeStamp_logical (ml_limit limit)) in
          if approximate_limit <? new_ts then double_check now tso cm new_ts else (Ok tt, cm)
      else (Ok tt, cm) in
    match checked with
    | Ok _ => (Ok tt, cm_set_max_ts cm (Z.max (cm_max_ts cm) new_ts))
    | e => (e, cm)
    end.

(** ** The lock table *)

(** [lock_key] waits while another guard of the key is alive: [None]. *)
Definition lock_key (cm : ConcurrencyManager) (key : Key) : option ConcurrencyManager :=
  match cm_lock_table cm !! key with
  | Some _ => None
  | None => Some (cm_set_table cm (<[key := None]> (cm_lock_table cm)))
  end.

(** [KeyHandleGuard::with_lock] storing a lock, and dropping the guard. *)
Definition guard_set_lock (cm : ConcurrencyManager) (key : Key) (lock : option Lock)
    : ConcurrencyManager :=
  cm_set_table cm (<[key := lock]> (cm_lock_table cm)).
Definition guard_drop (cm : ConcurrencyManager) (key : Key) : ConcurrencyManager :=
  cm_set_table cm (delete key (cm_lock_table cm)).

Definition read_key_check {E} (cm : ConcurrencyManager) (key : Key) (check_fn : Lock -> res E unit)
    : res E unit :=
  match cm_lock_table cm !! key with
  | Some (Some lock) => check_fn lock
  | _ => Ok tt
  end.

#[export] Instance bytes_leb_dec {A} : RelDecision (fun x y : bytes * A => bytes_leb (fst x) (fst y) = true).
Proof. intros x y. solve_decision. Defined.

(** The handles in key order. *)
Definition table_entries (cm : ConcurrencyManager) : list (bytes * option Lock) :=
  merge_sort (fun x y => bytes_leb (fst x) (fst y) = true) (map_to_list (cm_lock_table cm)).

Definition in_key_range (start_key end_key : option Key) (k : Key) : bool :=
  (match start_key with Some s => bytes_leb s k | None => true end
   && match end_key with Some e => bytes_ltb k e | None => true end)%bool.

Fixpoint find_first {T} (pred : bytes * option Lock -> option T) (l : list (bytes * option Lock))
    : option T :=
  match l with
  | [] => None
  | e :: l => match pred e with Some t => Some t | None => find_first pred l end
  end.

Definition read_range_check {E} (cm : ConcurrencyManager) (start_key end_key : option Key)
    (check_fn : Key -> Lock -> res E unit) : res E unit :=
  let pred e :=
    match e with
    | (k, Some lock) => match check_fn k lock with Ok _ => None | r => Some r end
    | (_, None) => None
    end in
  match find_first pred (filter (fun e => in_key_range start_key end_key (fst e) = true)
                           (table_entries cm)) with
  | Some r => r
  | None => Ok tt
  end.

Definition global_min_lock (cm : ConcurrencyManager) : option (TimeStamp * Key) :=
  foldl (fun min_lock e =>
           match e with
           | (key, Some lock) =>
               match min_lock with
               | Some (ts, _) => if l_ts lock <? ts then Some (l_ts lock, key) else min_lock
               | None => Some (l_ts lock, key)
               end
           | (_, None) => min_lock
           end) None (table_entries cm).

Definition global_min_lock_ts (cm : ConcurrencyManager) : option TimeStamp :=
  foldl (fun min_lock_ts e =>
           match e with
           | (_, Some lock) =>
               match min_lock_ts with
               | Some ts => if l_ts lock <? ts then Some (l_ts lock) else min_lock_ts
               | None => Some (l_ts lock)
               end
           | (_, None) => min_lock_ts
           end) None (table_entries cm).

(** ** Lemmas *)

Lemma set_max_ts_limit_mono now cm ts :
  ml_limit (cm_max_ts_limit cm) <= ml_limit (cm_max_ts_limit (set_max_ts_limit now cm ts))
  /\ cm_max_ts (set_max_ts_limit now cm ts) = cm_max_ts cm
  /\ cm_lock_table (set_max_ts_limit now cm ts) = cm_lock_table cm
  /\ cm_action_on_invalid_max_ts (set_max_ts_limit now cm ts) = cm_action_on_invalid_max_ts cm.
Proof.
  unfold set_max_ts_limit. destruct (TimeStamp_is_max ts); [done|].
  destruct (Z.leb_spec (TimeStamp_compose (as_u64 (TimeStamp_physical ts
    + cm_max_ts_drift_allowance_ms cm)) (TimeStamp_logical ts)) (ml_limit (cm_max_ts_limit cm)));
    split_and!; cbn; done || lia.
Qed.

(** Nothing but the limit changes in a double check; a failure means that the
    oracle answered and the timestamp is above the limit. *)
Definition checked_ok (tso : option TimeStamp) (cm : ConcurrencyManager) (new_ts : TimeStamp)
    (o : res InvalidMaxTsUpdate unit * ConcurrencyManager) : Prop :=
  cm_max_ts (snd o) = cm_max_ts cm /\ cm_lock_table (snd o) = cm_lock_table cm
  /\ ml_limit (cm_max_ts_limit cm) <= ml_limit (cm_max_ts_limit (snd o))
  /\ cm_action_on_invalid_max_ts (snd o) = cm_action_on_invalid_max_ts cm
  /\ match fst o with
     | Ok _ => True
     | Err e => is_Some tso /\ cm_action_on_invalid_max_ts cm = ActError
         /\ e = {| im_attempted_ts := new_ts; im_limit := ml_limit (cm_max_ts_limit (snd o)) |}
         /\ ml_limit (cm_max_ts_limit (snd o)) < new_ts
     | Panic => is_Some tso /\ cm_action_on_invalid_max_ts cm = ActPanic
         /\ ml_limit (cm_max_ts_limit (snd o)) < new_ts
     end.

Lemma double_check_ok now tso cm new_ts : checked_ok tso cm new_ts (double_check now tso cm new_ts).
Proof.
  unfold double_check. destruct tso as [ts|].
  - destruct (set_max_ts_limit_mono now cm ts) as (Hl & Hm & Ht & Ha).
    destruct (Z.ltb_spec (ml_limit (cm_max_ts_limit (set_max_ts_limit now cm ts))) new_ts);
      unfold checked_ok; cbn [fst snd]; split_and!; try done.
    unfold report_error. rewrite Ha. destruct (cm_action_on_invalid_max_ts cm); cbn; try split_and!; done.
  - destruct (Z.ltb_spec (ml_limit (cm_max_ts_limit cm)) new_ts);
      unfold checked_ok, report_error; cbn; destruct (cm_action_on_invalid_max_ts cm);
      split_and!; done || lia.
Qed.

Lemma checked_ok_refl tso cm new_ts : checked_ok tso cm new_ts (Ok tt, cm).
Proof. unfold checked_ok. cbn. split_and!; done || lia. Qed.

Lemma find_first_none {T} (pred : bytes * option Lock -> option T) l :
  find_first pred l = None <-> forall e, e ∈ l -> pred e = None.
Proof.
  induction l as [|x l IH]; cbn.
  - split; [intros _ e []%not_elem_of_nil|done].
  - destruct (pred x) eqn:E.
    + split; [done|]. intros Hall. rewrite Hall in E by left. done.
    + rewrite IH. split; [intros Hall e [->|He]%elem_of_cons; auto|]. intros Hall e He.
      apply Hall. by right.
Qed.

Lemma find_first_some {T} (pred : bytes * option Lock -> option T) l t :
  find_first pred l = Some t ->
  exists l1 e l2, l = l1 ++ e :: l2 /\ pred e = Some t /\ forall e', e' ∈ l1 -> pred e' = None.
Proof.
  induction l as [|x l IH]; cbn; [done|]. destruct (pred x) eqn:E.
  - intros [= ->]. exists [], x, l. split_and!; [done..|]. intros ? []%not_elem_of_nil.
  - intros Hf. destruct (IH Hf) as (l1 & e & l2 & -> & He & Hl1).
    exists (x :: l1), e, l2. split_and!; [done..|]. intros e' [->|?]%elem_of_cons; auto.
Qed.

Lemma elem_of_table_entries cm e :
  e ∈ table_entries cm <-> cm_lock_table cm !! fst e = Some (snd e).
Proof.
  unfold table_entries. rewrite merge_sort_Permutation. destruct e. apply elem_of_map_to_list.
Qed.

#[export] Instance bytes_leb_total_rel {A} : Total (fun x y : bytes * A => bytes_leb (fst x) (fst y) = true).
Proof. intros x y. apply bytes_leb_total. Qed.
#[export] Instance bytes_leb_trans_rel {A} : Transitive (fun x y : bytes * A => bytes_leb (fst x) (fst y) = true).
Proof. intros x y z. apply bytes_leb_trans. Qed.

Lemma table_entries_sorted cm :
  StronglySorted (fun x y => bytes_leb (fst x) (fst y) = true) (table_entries cm).
Proof. apply Sorted_StronglySorted; [apply _|]. apply Sorted_merge_sort, _. Qed.

Lemma StronglySorted_filter {A} (R : A -> A -> Prop) (P : A -> Prop) `{!forall x, Decision (P x)} l :
  StronglySorted R l -> StronglySorted R (filter P l).
Proof.
  induction 1 as [|x l Hs IH Hall]; [by rewrite filter_nil; constructor|].
  rewrite filter_cons. destruct (decide (P x)); [|done]. constructor; [done|].
  apply Forall_forall. intros y [_ Hy]%list_elem_of_filter. by apply (proj1 (Forall_forall _ _) Hall).
Qed.

Lemma global_min_fold l : forall acc,
  let step := fun min_lock_ts (e : bytes * option Lock) =>
           match e with
           | (_, Some lock) =>
               match min_lock_ts with
               | Some ts => if l_ts lock <? ts then Some (l_ts lock) else min_lock_ts
               | None => Some (l_ts lock)
               end
           | (_, None) => min_lock_ts
           end in
  match foldl step acc l with
  | Some ts =>
      (acc = Some ts \/ exists k lock, (k, Some lock) ∈ l /\ l_ts lock = ts)
      /\ (forall t, acc = Some t -> ts <= t)
      /\ forall k lock, (k, Some lock) ∈ l -> ts <= l_ts lock
  | None => acc = None /\ forall k lock, (k, Some lock) ∉ l
  end.
Proof.
  induction l as [|[k [lock|]] l IH]; intros acc; cbn [foldl].
  - destruct acc as [t|]; [split_and!; [by left|intros ? [= ->]; lia|intros ?? []%not_elem_of_nil]|].
    split; [done|]. intros ??. apply not_elem_of_nil.
  - set (acc' := match acc with Some ts => if l_ts lock <? ts then Some (l_ts lock) else acc
                           | None => Some (l_ts lock) end).
    assert (exists a, acc' = Some a /\ a <= l_ts lock /\ (forall t, acc = Some t -> a <= t)
      /\ (acc = Some a \/ l_ts lock = a)) as (a & Ha & Hle & Hacc & Hor).
    { unfold acc'. destruct acc as [t|]; [|exists (l_ts lock); split_and!; [done|lia|done|by right]].
      destruct (Z.ltb_spec (l_ts lock) t).
      - exists (l_ts lock). split_and!; [done|lia|intros ? [= ->]; lia|by right].
      - exists t. split_and!; [done|lia|intros ? [= ->]; lia|by left]. }
    specialize (IH acc'). rewrite Ha in IH |- *. cbv zeta in IH.
    destruct (foldl _ (Some a) l) as [ts|]; [|by destruct IH].
    destruct IH as (Hsrc & Hmin & Hall). specialize (Hmin a eq_refl). split_and!.
    + destruct Hsrc as [[= ->]|(k' & lock' & Hin & Heq)]; [|right; exists k', lock'; split; [by right|done]].
      destruct Hor as [->|?]; [by left|right; exists k, lock; split; [by left|done]].
    + intros t Ht. specialize (Hacc t Ht). lia.
    + intros k' lock' [[= -> ->]|Hin]%elem_of_cons; [lia|eauto].
  - specialize (IH acc). cbv zeta in IH. destruct (foldl _ acc l) as [ts|].
    + destruct IH as (Hsrc & Hmin & Hall). split_and!; [|done|].
      * destruct Hsrc as [?|(k' & lock' & Hin & Heq)]; [by left|right; exists k', lock'; split; [by right|done]].
      * intros k' lock' [[= ]|Hin]%elem_of_cons. eauto.
    + destruct IH as (Hsrc & Hall). split; [done|]. intros k' lock' [[= ]|Hin]%elem_of_cons. by eapply Hall.
Qed.

Lemma read_range_check_cases {E} cm start_key end_key (check_fn : Key -> Lock -> res E unit) :
  (read_range_check cm start_key end_key check_fn = Ok tt
   /\ forall k lock, cm_lock_table cm !! k = Some (Some lock) ->
        in_key_range start_key end_key k = true -> check_fn k lock = Ok tt)
  \/ exists k lock, cm_lock_table cm !! k = Some (Some lock)
        /\ in_key_range start_key end_key k = true /\ check_fn k lock <> Ok tt
        /\ read_range_check cm start_key end_key check_fn = check_fn k lock
        /\ forall k' lock', cm_lock_table cm !! k' = Some (Some lock') ->
             in_key_range start_key end_key k' = true -> check_fn k' lock' <> Ok tt ->
             bytes_leb k k' = true.
Proof.
  unfold read_range_check. set (pred := fun e : bytes * option Lock => _).
  set (l := filter _ (table_entries cm)).
  assert (forall k o, (k, o) ∈ l <-> cm_lock_table cm !! k = Some o
    /\ in_key_range start_key end_key k = true) as Hl.
  { intros k o. unfold l. rewrite list_elem_of_filter, elem_of_table_entries. cbn. tauto. }
  assert (forall k lock, pred (k, Some lock) = None <-> check_fn k lock = Ok tt) as Hpred.
  { intros k lock. cbn. by destruct (check_fn k lock) as [[]| |]. }
  destruct (find_first pred l) as [r|] eqn:Ef.
  - right. destruct (find_first_some pred l r Ef) as (l1 & [k o] & l2 & El & He & Hl1).
    destruct o as [lock|]; [|done].
    assert ((k, Some lock) ∈ l) as Hin by (rewrite El; set_solver).
    apply Hl in Hin as [Hk Hr]. exists k, lock. split; [done|]. split; [done|].
    assert (check_fn k lock = r /\ r <> Ok tt) as [-> Hne].
    { cbn in He. by destruct (check_fn k lock) as [[]| |]; simplify_eq. }
    split; [done|]. split; [done|]. intros k' lock' Hk' Hr' Hc'.
    assert ((k', Some lock') ∈ l) as Hin' by by apply Hl. rewrite El in Hin'.
    apply elem_of_app in Hin' as [Hin'|[[= -> ->]|Hin']%elem_of_cons].
    + apply Hl1, Hpred in Hin'. done.
    + by apply bytes_leb_lt_or_eq; right.
    + pose proof (StronglySorted_filter _ (fun e => in_key_range start_key end_key (fst e) = true)
        _ (table_entries_sorted cm)) as Hs. fold l in Hs. rewrite El in Hs.
      apply StronglySorted_app in Hs as (_ & _ & Hs). apply StronglySorted_inv in Hs as [_ Hs].
      exact (proj1 (Forall_forall _ _) Hs _ Hin').
  - left. split; [done|]. intros k lock Hk Hr. apply Hpred.
    rewrite find_first_none in Ef. by apply Ef, Hl.
Qed.

Lemma update_max_ts_range now tso cm new_ts :
  u64_ok (cm_max_ts cm) -> u64_ok new_ts -> u64_ok (cm_max_ts (snd (update_max_ts now tso cm new_ts))).
Proof.
  intros Hcm Hts. unfold update_max_ts. destruct (TimeStamp_is_max new_ts); [done|].
  set (check := if (_ && _)%bool then _ else _).
  assert (checked_ok tso cm new_ts check) as (Hm & _).
  { unfold check. repeat case_match; auto using double_check_ok, checked_ok_refl. }
  destruct check as [[u|e|] cm']; cbn [snd cm_set_max_ts cm_max_ts] in *; rewrite ?Hm; [|done..].
  unfold u64_ok in *. lia.
Qed.

Lemma update_max_ts_grows now tso cm new_ts :
  cm_max_ts cm <= cm_max_ts (snd (update_max_ts now tso cm new_ts)).
Proof.
  unfold update_max_ts. destruct (TimeStamp_is_max new_ts); [done|].
  set (check := if (_ && _)%bool then _ else _).
  assert (checked_ok tso cm new_ts check) as (Hm & _).
  { unfold check. repeat case_match; auto using double_check_ok, checked_ok_refl. }
  destruct check as [[u|e|] cm']; cbn [snd cm_set_max_ts cm_max_ts] in *; lia.
Qed.

(** ** Properties *)

(** [update_max_ts].  The maximum timestamp and its limit never decrease
    and the lock table is untouched.  A successful update with a timestamp
    other than the maximal one leaves exactly the maximum of the two, and
    without a limit every update succeeds.  An update fails, or panics, only
    if the oracle answered and the timestamp is still above the limit, according
    to the configured action; the maximum timestamp then stays as it was. *)
Theorem update_max_ts_spec now tso cm new_ts :
  let o := update_max_ts now tso cm new_ts in
  cm_max_ts cm <= cm_max_ts (snd o) /\ cm_lock_table (snd o) = cm_lock_table cm
  /\ ml_limit (cm_max_ts_limit cm) <= ml_limit (cm_max_ts_limit (snd o))
  /\ (ml_limit (cm_max_ts_limit cm) = 0 -> fst o = Ok tt)
  /\ match fst o with
     | Ok _ => new_ts <> TimeStamp_max -> cm_max_ts (snd o) = Z.max (cm_max_ts cm) new_ts
     | Err e => is_Some tso /\ cm_action_on_invalid_max_ts cm = ActError
         /\ e = {| im_attempted_ts := new_ts; im_limit := ml_limit (cm_max_ts_limit (snd o)) |}
         /\ ml_limit (cm_max_ts_limit (snd o)) < new_ts /\ cm_max_ts (snd o) = cm_max_ts cm
     | Panic => is_Some tso /\ cm_action_on_invalid_max_ts cm = ActPanic
         /\ ml_limit (cm_max_ts_limit (snd o)) < new_ts /\ cm_max_ts (snd o) = cm_max_ts cm
     end.
Proof.
  unfold update_max_ts, TimeStamp_is_max, TimeStamp_max. destruct (Z.eqb_spec new_ts u64_max).
  { cbn. split_and!; done || lia. }
  set (check := if (_ && _)%bool then _ else _).
  assert (checked_ok tso cm new_ts check /\ (ml_limit (cm_max_ts_limit cm) = 0 -> check = (Ok tt, cm)))
    as [(Hm & Ht & Hl & Ha & Hr) Hz].
  { unfold check, TimeStamp_is_zero. split; [|by intros ->].
    repeat case_match; auto using double_check_ok, checked_ok_refl. }
  destruct check as [r cm'] eqn:Ec. cbn [fst snd] in *.
  destruct r as [[]|e|]; cbn [fst snd cm_set_max_ts cm_max_ts cm_lock_table cm_max_ts_limit];
    rewrite ?Hm; split_and!; try done || lia; try tauto; intros Hz'; specialize (Hz Hz'); congruence.
Qed.

(** Reading through the lock table.  [read_range_check] passes iff every
    memory lock in the range passes the check, and otherwise fails with the
    result of the smallest failing key; [global_min_lock_ts] is the least start
    timestamp of the memory locks. *)
Theorem lock_table_reads {E} cm start_key end_key (check_fn : Key -> Lock -> res E unit) :
  (read_range_check cm start_key end_key check_fn = Ok tt
   <-> forall k lock, cm_lock_table cm !! k = Some (Some lock) ->
         in_key_range start_key end_key k = true -> check_fn k lock = Ok tt)
  /\ (read_range_check cm start_key end_key check_fn <> Ok tt ->
      exists k lock, cm_lock_table cm !! k = Some (Some lock)
        /\ in_key_range start_key end_key k = true
        /\ read_range_check cm start_key end_key check_fn = check_fn k lock
        /\ forall k' lock', cm_lock_table cm !! k' = Some (Some lock') ->
             in_key_range start_key end_key k' = true -> check_fn k' lock' <> Ok tt ->
             bytes_leb k k' = true)
  /\ match global_min_lock_ts cm with
     | Some ts => (exists k lock, cm_lock_table cm !! k = Some (Some lock) /\ l_ts lock = ts)
         /\ forall k lock, cm_lock_table cm !! k = Some (Some lock) -> ts <= l_ts lock
     | None => forall k lock, cm_lock_table cm !! k <> Some (Some lock)
     end.
Proof.
  split; [|split].
  - destruct (read_range_check_cases cm start_key end_key check_fn)
      as [[-> Hall]|(k & lock & Hk & Hr & Hc & -> & _)]; [done|].
    split; [done|]. intros Hall. by apply Hall.
  - destruct (read_range_check_cases cm start_key end_key check_fn)
      as [[-> Hall]|(k & lock & Hk & Hr & Hc & Hres & Hmin)]; [done|].
    intros _. exists k, lock. done.
  - pose proof (global_min_fold (table_entries cm) None) as Hg. cbv zeta in Hg.
    unfold global_min_lock_ts. destruct (foldl _ None (table_entries cm)) as [ts|].
    + destruct Hg as ([[= ]|(k & lock & Hin & Hts)] & _ & Hmin). split.
      * exists k, lock. apply elem_of_table_entries in Hin. done.
      * intros k' lock' Hk'. by apply (Hmin k'), elem_of_table_entries.
    + destruct Hg as [_ Hno]. intros k lock Hk. apply (Hno k lock). by apply elem_of_table_entries.
Qed.
