(* ===== verification/Engine.v ===== *)
(** * The storage engine the MVCC layer runs on

    Models [components/tikv_kv/src/lib.rs] ([Modify], [SEEK_BOUND]) and the
    in-memory engine [components/tikv_kv/src/btree_engine.rs].  What the MVCC
    layer uses of an engine is the interface [EngineSnapshot] with its laws
    [EngineSnapshotLaws]; the theorems about readers are proved against them
    and the in-memory engine [Store] is an instance.  [get_cf] and iterators of
    the in-memory engine do not fail, so engine I/O errors are not modelled. *)

From Stdlib Require Import ZArith Lia.
From stdpp Require Import base numbers list gmap.
From S2P Require Import Prelude Number Bytes Types Write Lock.

Open Scope Z_scope.

Inductive CF : Type := CF_DEFAULT | CF_LOCK | CF_WRITE.

#[export] Instance CF_eq_dec : EqDecision CF.
Proof. solve_decision. Defined.

Definition SEEK_BOUND : u64 := 8.

(** [Ingest] carries an SST descriptor of the importer, which no code modelled
    here constructs. *)
Inductive Modify : Type :=
| MoDelete (cf : CF) (k : Key)
| MoPut (cf : CF) (k : Key) (v : Value)
| MoPessimisticLock (k : Key) (lock : PessimisticLock)
| MoDeleteRange (cf : CF) (start_key end_key : Key) (notify_only : bool).

(** The names of the column families are ["default"], ["lock"], ["write"]. *)
Definition cf_name_len (cf : CF) : nat :=
  match cf with CF_DEFAULT => 7 | CF_LOCK => 4 | CF_WRITE => 5 end.

Definition Modify_size {E} (m : Modify) : res E nat :=
  let cf_size cf := if decide (cf = CF_DEFAULT) then 0%nat else cf_name_len cf in
  match m with
  | MoDelete cf k => Ok (cf_size cf + length k)%nat
  | MoPut cf k v => Ok (cf_size cf + length k + length v)%nat
  | MoPessimisticLock k _ => Ok (cf_size CF_LOCK + length k)%nat
  | MoDeleteRange _ _ _ _ => Panic
  end.

Definition Modify_key {E} (m : Modify) : res E Key :=
  match m with
  | MoDelete _ k | MoPut _ k _ | MoPessimisticLock k _ => Ok k
  | MoDeleteRange _ _ _ _ => Panic
  end.

(** ** The in-memory engine *)

Record Store : Type := {
  st_default : gmap bytes bytes;
  st_lock : gmap bytes bytes;
  st_write : gmap bytes bytes
}.

Definition BTreeEngine_new : Store := {| st_default := ∅; st_lock := ∅; st_write := ∅ |}.

Definition Store_cf (s : Store) (cf : CF) : gmap bytes bytes :=
  match cf with CF_DEFAULT => st_default s | CF_LOCK => st_lock s | CF_WRITE => st_write s end.

Definition Store_set_cf (s : Store) (cf : CF) (m : gmap bytes bytes) : Store :=
  match cf with
  | CF_DEFAULT => {| st_default := m; st_lock := st_lock s; st_write := st_write s |}
  | CF_LOCK => {| st_default := st_default s; st_lock := m; st_write := st_write s |}
  | CF_WRITE => {| st_default := st_default s; st_lock := st_lock s; st_write := m |}
  end.

Definition Store_get_cf (s : Store) (cf : CF) (key : Key) : option Value := Store_cf s cf !! key.

(** [tree.range(p).next()] and [tree.range(p).next_back()]: the least and the
    greatest entry whose key is in the range. *)
Definition range_first (p : bytes -> bool) (m : gmap bytes bytes) : option (bytes * bytes) :=
  foldr (fun kv acc =>
           if p (fst kv) then
             match acc with
             | Some kv' => if bytes_leb (fst kv) (fst kv') then Some kv else acc
             | None => Some kv
             end
           else acc) None (map_to_list m).

Definition range_last (p : bytes -> bool) (m : gmap bytes bytes) : option (bytes * bytes) :=
  foldr (fun kv acc =>
           if p (fst kv) then
             match acc with
             | Some kv' => if bytes_leb (fst kv') (fst kv) then Some kv else acc
             | None => Some kv
             end
           else acc) None (map_to_list m).

(** [BTreeEngineIterator]: [seek], [seek_for_prev], [next] and [prev] as
    functions of the tree and the key they start from, with no bounds set. *)
Definition Store_seek (s : Store) (cf : CF) (key : Key) : option (bytes * bytes) :=
  range_first (bytes_leb key) (Store_cf s cf).
Definition Store_seek_for_prev (s : Store) (cf : CF) (key : Key) : option (bytes * bytes) :=
  range_last (fun k => bytes_leb k key) (Store_cf s cf).
Definition Store_next (s : Store) (cf : CF) (cur_key : Key) : option (bytes * bytes) :=
  range_first (bytes_ltb cur_key) (Store_cf s cf).
Definition Store_prev (s : Store) (cf : CF) (cur_key : Key) : option (bytes * bytes) :=
  range_last (fun k => bytes_ltb k cur_key) (Store_cf s cf).

(** One round of [write_modifies]; a range deletion is [unimplemented!]. *)
Definition write_modify {E} (s : Store) (m : Modify) : res E Store :=
  match m with
  | MoDelete cf k => Ok (Store_set_cf s cf (delete k (Store_cf s cf)))
  | MoPut cf k v => Ok (Store_set_cf s cf (<[k := v]> (Store_cf s cf)))
  | MoPessimisticLock k lock =>
      let v := Lock_to_bytes (PessimisticLock_into_lock lock) in
      Ok (Store_set_cf s CF_LOCK (<[k := v]> (Store_cf s CF_LOCK)))
  | MoDeleteRange _ _ _ _ => Panic
  end.

Fixpoint write_modifies {E} (s : Store) (ms : list Modify) : res E Store :=
  match ms with
  | [] => Ok s
  | m :: ms => s ← write_modify s m; write_modifies s ms
  end.

(** ** In-memory pessimistic locks of a peer ([raftstore/src/store/txn_ext.rs]) *)

Inductive LocksStatus : Type :=
| LsNormal | LsTransferringLeader | LsMergingRegion | LsNotLeader | LsIsInFlashback.

#[export] Instance LocksStatus_eq_dec : EqDecision LocksStatus.
Proof. solve_decision. Defined.

(** The table maps an encoded key to the lock and its deleted mark. *)
Record PeerPessimisticLocks : Type := {
  pp_map : gmap bytes (PessimisticLock * bool);
  pp_status : LocksStatus;
  pp_term : u64;
  pp_version : u64
}.

(** ** The interface *)

Class EngineSnapshot (S : Type) : Type := {
  get_cf : S -> CF -> Key -> option Value;
  (** The entry [cursor.seek] stops at. *)
  seek_cf : S -> CF -> Key -> option (bytes * bytes);
  (** The number of entries of a column family, used as loop fuel only. *)
  cf_len : S -> CF -> nat;
  (** [snapshot.ext().get_txn_ext()] with its lock table. *)
  txn_ext : S -> option PeerPessimisticLocks
}.

Class EngineSnapshotLaws (S : Type) `{EngineSnapshot S} : Prop := {
  seek_cf_spec (s : S) cf k :
    match seek_cf s cf k with
    | Some (k', v) =>
        get_cf s cf k' = Some v /\ bytes_leb k k' = true
        /\ forall k'', is_Some (get_cf s cf k'') -> bytes_leb k k'' = true -> bytes_leb k' k'' = true
    | None => forall k'', is_Some (get_cf s cf k'') -> bytes_leb k k'' = false
    end;
  cf_len_spec (s : S) cf (ks : list bytes) :
    NoDup ks -> (forall k, k ∈ ks -> is_Some (get_cf s cf k)) -> (length ks <= cf_len s cf)%nat
}.

(** ** Lemmas *)

Lemma range_first_list p l :
  match foldr (fun kv acc =>
           if p (fst kv) : bool then
             match acc with
             | Some kv' => if bytes_leb (fst kv) (fst kv') then Some kv else acc
             | None => Some kv
             end
           else acc) None l with
  | Some kv => kv ∈ l /\ p (fst kv) = true
      /\ forall kv', kv' ∈ l -> p (fst kv') = true -> bytes_leb (fst kv) (fst kv') = true
  | None => forall kv' : bytes * bytes, kv' ∈ l -> p (fst kv') = false
  end.
Proof.
  induction l as [|kv l IH]; cbn [foldr]; [intros ? []%not_elem_of_nil|].
  destruct (foldr _ None l) as [kv'|] eqn:Ef; destruct (p (fst kv)) eqn:Ep.
  - destruct IH as (Hin & Hp & Hmin). destruct (bytes_leb (fst kv) (fst kv')) eqn:Ele.
    + split; [by left|]. split; [done|]. intros kv'' [->|Hin']%elem_of_cons Hp'.
      * by apply bytes_leb_lt_or_eq; right.
      * eapply bytes_leb_trans; [exact Ele|]. by apply Hmin.
    + split; [by right|]. split; [done|]. intros kv'' [->|Hin']%elem_of_cons Hp'; [|by apply Hmin].
      destruct (bytes_leb_total (fst kv) (fst kv')); congruence.
  - destruct IH as (Hin & Hp & Hmin). split; [by right|]. split; [done|].
    intros kv'' [->|Hin']%elem_of_cons Hp'; [congruence|by apply Hmin].
  - split; [by left|]. split; [done|]. intros kv'' [->|Hin']%elem_of_cons Hp'.
    + by apply bytes_leb_lt_or_eq; right.
    + rewrite IH in Hp'; done.
  - intros kv'' [->|Hin']%elem_of_cons; [done|by apply IH].
Qed.

Lemma range_first_spec p m :
  match range_first p m with
  | Some (k, v) => m !! k = Some v /\ p k = true
      /\ forall k', is_Some (m !! k') -> p k' = true -> bytes_leb k k' = true
  | None => forall k', is_Some (m !! k') -> p k' = false
  end.
Proof.
  pose proof (range_first_list p (map_to_list m)) as H. unfold range_first.
  destruct (foldr _ None (map_to_list m)) as [[k v]|].
  - destruct H as (Hin & Hp & Hmin). split; [by apply elem_of_map_to_list|]. split; [done|].
    intros k' [v' Hv'] Hp'. apply (Hmin (k', v')); [by apply elem_of_map_to_list|done].
  - intros k' [v' Hv']. apply (H (k', v')). by apply elem_of_map_to_list.
Qed.

#[export] Instance Store_snapshot : EngineSnapshot Store := {
  get_cf := Store_get_cf;
  seek_cf := Store_seek;
  cf_len := fun s cf => size (Store_cf s cf);
  txn_ext := fun _ => None
}.

Lemma length_keys_le (m : gmap bytes bytes) (ks : list bytes) :
  NoDup ks -> (forall k, k ∈ ks -> is_Some (m !! k)) -> (length ks <= size m)%nat.
Proof.
  intros Hnd Hin. rewrite <-(size_dom (D:=gset bytes)).
  replace (length ks) with (size (list_to_set ks : gset bytes)) by (by apply size_list_to_set).
  apply subseteq_size. intros k Hk%elem_of_list_to_set. by apply elem_of_dom, Hin.
Qed.

#[export] Instance Store_snapshot_laws : EngineSnapshotLaws Store.
Proof.
  split.
  - intros s cf k. cbn. unfold Store_seek, Store_get_cf.
    exact (range_first_spec (bytes_leb k) (Store_cf s cf)).
  - intros s cf ks. cbn. unfold Store_get_cf. apply length_keys_le.
Qed.

Lemma Store_cf_set_eq s cf m : Store_cf (Store_set_cf s cf m) cf = m.
Proof. by destruct cf. Qed.

Lemma Store_cf_set_ne s cf cf' m : cf <> cf' -> Store_cf (Store_set_cf s cf m) cf' = Store_cf s cf'.
Proof. by destruct cf, cf'. Qed.

Lemma write_modifies_app {E} s ms ms' :
  write_modifies (E:=E) s (ms ++ ms') = s ← write_modifies s ms; write_modifies s ms'.
Proof.
  revert s. induction ms as [|m ms IH]; intros s; cbn; [done|].
  destruct (write_modify s m); cbn; auto.
Qed.
