(* ===== verification/Cursor.v ===== *)
(** * Cursors

    Models [components/tikv_kv/src/cursor.rs]: a [Cursor] positions an engine
    iterator, with short cuts.  [max_key] and [min_key] remember where the data
    ends, a forward cursor never moves back, and the [near_] operations step a
    few entries before they seek.  What a cursor uses of an engine iterator is
    [EngineIterator] with its laws; it does not fail in the model.  The read
    marks and statistics of a cursor are counters and not modelled.

    The theorem [near_seek_equivalent]: [near_seek] and [near_seek_for_prev] are
    [seek] and [seek_for_prev], and these find the right entry.  The file also
    models [BTreeEngineIterator] of [components/tikv_kv/src/btree_engine.rs] and
    the bounds it is given. *)

From Stdlib Require Import ZArith Lia.
From stdpp Require Import base numbers list gmap.
From S2P Require Import Prelude Number Bytes Types Write Lock Engine.

Open Scope Z_scope.

Abbreviation Entry := (bytes * bytes)%type.

(** The iterator stands on an entry or is not valid. *)
Class EngineIterator (I : Type) : Type := {
  it_pos : I -> option Entry;
  it_seek : Key -> I -> I;
  it_seek_for_prev : Key -> I -> I;
  it_seek_to_first : I -> I;
  it_seek_to_last : I -> I;
  it_next : I -> I;
  it_prev : I -> I
}.

(** The least and the greatest entry whose key satisfies [p]. *)
Definition least (content : Key -> option Value) (p : Key -> bool) (o : option Entry) : Prop :=
  match o with
  | Some (k, v) => content k = Some v /\ p k = true
      /\ forall k', is_Some (content k') -> p k' = true -> bytes_leb k k' = true
  | None => forall k', is_Some (content k') -> p k' = false
  end.

Definition greatest (content : Key -> option Value) (p : Key -> bool) (o : option Entry) : Prop :=
  match o with
  | Some (k, v) => content k = Some v /\ p k = true
      /\ forall k', is_Some (content k') -> p k' = true -> bytes_leb k' k = true
  | None => forall k', is_Some (content k') -> p k' = false
  end.

(** What an iterator over sorted data promises, for the iterators that are used
    as intended ([it_ok]): the data it ranges over is fixed, and every move goes
    to the entry its name says. *)
Class EngineIteratorLaws (I : Type) `{EngineIterator I} : Type := {
  it_ok : I -> Prop;
  it_content : I -> Key -> option Value;
  it_pos_in i k v : it_ok i -> it_pos i = Some (k, v) -> it_content i k = Some v;
  it_seek_ok k i : it_ok i ->
    it_ok (it_seek k i) /\ it_content (it_seek k i) = it_content i
    /\ least (it_content i) (bytes_leb k) (it_pos (it_seek k i));
  it_seek_for_prev_ok k i : it_ok i ->
    it_ok (it_seek_for_prev k i) /\ it_content (it_seek_for_prev k i) = it_content i
    /\ greatest (it_content i) (fun k' => bytes_leb k' k) (it_pos (it_seek_for_prev k i));
  it_seek_to_first_ok i : it_ok i ->
    it_ok (it_seek_to_first i) /\ it_content (it_seek_to_first i) = it_content i
    /\ least (it_content i) (fun _ => true) (it_pos (it_seek_to_first i));
  it_seek_to_last_ok i : it_ok i ->
    it_ok (it_seek_to_last i) /\ it_content (it_seek_to_last i) = it_content i
    /\ greatest (it_content i) (fun _ => true) (it_pos (it_seek_to_last i));
  it_next_ok i k v : it_ok i -> it_pos i = Some (k, v) ->
    it_ok (it_next i) /\ it_content (it_next i) = it_content i
    /\ least (it_content i) (bytes_ltb k) (it_pos (it_next i));
  it_prev_ok i k v : it_ok i -> it_pos i = Some (k, v) ->
    it_ok (it_prev i) /\ it_content (it_prev i) = it_content i
    /\ greatest (it_content i) (fun k' => bytes_ltb k' k) (it_pos (it_prev i))
}.

Inductive ScanMode : Type := SmForward | SmBackward | SmMixed.

#[export] Instance ScanMode_eq_dec : EqDecision ScanMode.
Proof. solve_decision. Defined.

Record Cursor (I : Type) : Type := {
  cu_iter : I;
  cu_scan_mode : ScanMode;
  cu_prefix_seek : bool;
  cu_min_key : option bytes;
  cu_max_key : option bytes
}.
Arguments cu_iter {I} _.
Arguments cu_scan_mode {I} _.
Arguments cu_prefix_seek {I} _.
Arguments cu_min_key {I} _.
Arguments cu_max_key {I} _.

Definition Cursor_new {I} (iter : I) (mode : ScanMode) (prefix_seek : bool) : Cursor I :=
  {| cu_iter := iter; cu_scan_mode := mode; cu_prefix_seek := prefix_seek;
     cu_min_key := None; cu_max_key := None |}.

Definition cu_set_iter {I} (c : Cursor I) (i : I) : Cursor I :=
  {| cu_iter := i; cu_scan_mode := cu_scan_mode c; cu_prefix_seek := cu_prefix_seek c;
     cu_min_key := cu_min_key c; cu_max_key := cu_max_key c |}.
Definition cu_set_max_key {I} (c : Cursor I) (key : Key) : Cursor I :=
  {| cu_iter := cu_iter c; cu_scan_mode := cu_scan_mode c; cu_prefix_seek := cu_prefix_seek c;
     cu_min_key := cu_min_key c; cu_max_key := Some key |}.
Definition cu_set_min_key {I} (c : Cursor I) (key : Key) : Cursor I :=
  {| cu_iter := cu_iter c; cu_scan_mode := cu_scan_mode c; cu_prefix_seek := cu_prefix_seek c;
     cu_min_key := Some key; cu_max_key := cu_max_key c |}.

Section Cursor.
Context {I : Type} `{EngineIterator I} {E : Type}.
Implicit Types c : Cursor I.

Definition cu_pos c : option Entry := it_pos (cu_iter c).
Definition cu_valid c : bool := bool_decide (is_Some (cu_pos c)).
(** [key] and [value] assert that the iterator is valid. *)
Definition cu_key c : res E bytes := kv ← unwrap (cu_pos c); Ok (fst kv).
Definition cu_value c : res E bytes := kv ← unwrap (cu_pos c); Ok (snd kv).

Definition cu_seek_to_first c : res E (Cursor I * bool) :=
  _ ← assert_ (negb (cu_prefix_seek c));
  let c := cu_set_iter c (it_seek_to_first (cu_iter c)) in Ok (c, cu_valid c).
Definition cu_seek_to_last c : res E (Cursor I * bool) :=
  _ ← assert_ (negb (cu_prefix_seek c));
  let c := cu_set_iter c (it_seek_to_last (cu_iter c)) in Ok (c, cu_valid c).
Definition cu_internal_seek c (key : Key) : res E (Cursor I * bool) :=
  let c := cu_set_iter c (it_seek key (cu_iter c)) in Ok (c, cu_valid c).
Definition cu_internal_seek_for_prev c (key : Key) : res E (Cursor I * bool) :=
  let c := cu_set_iter c (it_seek_for_prev key (cu_iter c)) in Ok (c, cu_valid c).
(** Moving an iterator that is not valid is an error, which the cursor does not
    expect. *)
Definition cu_next c : res E (Cursor I * bool) :=
  _ ← assert_ (cu_valid c);
  let c := cu_set_iter c (it_next (cu_iter c)) in Ok (c, cu_valid c).
Definition cu_prev c : res E (Cursor I * bool) :=
  _ ← assert_ (cu_valid c);
  let c := cu_set_iter c (it_prev (cu_iter c)) in Ok (c, cu_valid c).

(** [self.max_key.map_or(false, |k| k <= key)] and its counterpart. *)
Definition past_max c (key : Key) : bool :=
  match cu_max_key c with Some k => bytes_leb k key | None => false end.
Definition past_min c (key : Key) : bool :=
  match cu_min_key c with Some k => bytes_leb key k | None => false end.

Definition cu_seek c (key : Key) : res E (Cursor I * bool) :=
  _ ← assert_ (negb (bool_decide (cu_scan_mode c = SmBackward)));
  if past_max c key then Ok (c, false)
  else
    here ← (if (bool_decide (cu_scan_mode c = SmForward) && cu_valid c)%bool
            then k ← cu_key c; Ok (bytes_leb key k) else Ok false);
    if (here : bool) then Ok (c, true)
    else
      '(c, found) ← cu_internal_seek c key;
      if (found : bool) then Ok (c, true)
      else Ok (if cu_prefix_seek c then c else cu_set_max_key c key, false).

Definition cu_seek_for_prev c (key : Key) : res E (Cursor I * bool) :=
  _ ← assert_ (negb (bool_decide (cu_scan_mode c = SmForward)));
  if past_min c key then Ok (c, false)
  else
    here ← (if (bool_decide (cu_scan_mode c = SmBackward) && cu_valid c)%bool
            then k ← cu_key c; Ok (bytes_leb k key) else Ok false);
    if (here : bool) then Ok (c, true)
    else
      '(c, found) ← cu_internal_seek_for_prev c key;
      if (found : bool) then Ok (c, true)
      else Ok (if cu_prefix_seek c then c else cu_set_min_key c key, false).

(** [near_loop!]: move while the key is on the wrong side, [n] times at most;
    the flag says that the bound was hit. *)
Fixpoint near_loop (move : Cursor I -> res E (Cursor I * bool)) (cond : bytes -> bool) (n : nat) c
    : res E (Cursor I * bool) :=
  match n with
  | O => Ok (c, true)
  | S n =>
      '(c, moved) ← move c;
      more ← (if (moved : bool) then k ← cu_key c; Ok (cond k) else Ok false);
      if (more : bool) then near_loop move cond n c else Ok (c, false)
  end.

Definition cu_near_seek c (key : Key) : res E (Cursor I * bool) :=
  _ ← assert_ (negb (bool_decide (cu_scan_mode c = SmBackward)));
  if negb (cu_valid c) then cu_seek c key
  else
    k ← cu_key c;
    if (bytes_eqb k key || bool_decide (cu_scan_mode c = SmForward) && bytes_ltb key k)%bool
    then Ok (c, true)
    else if past_max c key then Ok (c, false)
    else if bytes_ltb key k then
      '(c, over) ← near_loop cu_prev (bytes_ltb key) (Z.to_nat SEEK_BOUND) c;
      if (over : bool) then cu_seek c key
      else if cu_valid c then
        k ← cu_key c;
        '(c, _) ← (if bytes_ltb k key then cu_next c else Ok (c, true));
        if cu_valid c then Ok (c, true)
        else Ok (if cu_prefix_seek c then c else cu_set_max_key c key, false)
      else if cu_prefix_seek c then cu_seek c key
      else
        '(c, found) ← cu_seek_to_first c;
        _ ← assert_ found; Ok (c, true)
    else
      '(c, over) ← near_loop cu_next (fun k => bytes_ltb k key) (Z.to_nat SEEK_BOUND) c;
      if (over : bool) then cu_seek c key
      else if cu_valid c then Ok (c, true)
      else Ok (if cu_prefix_seek c then c else cu_set_max_key c key, false).

(** [near_seek] stops stepping and seeks, which [over_seek_bound] counts. *)
Definition near_seek_over c (key : Key) : bool :=
  match cu_pos c with
  | Some (k, _) =>
      negb (bytes_eqb k key || bool_decide (cu_scan_mode c = SmForward) && bytes_ltb key k)%bool
      && negb (past_max c key)
      && match (if bytes_ltb key k then near_loop cu_prev (bytes_ltb key) (Z.to_nat SEEK_BOUND) c
                else near_loop cu_next (fun k => bytes_ltb k key) (Z.to_nat SEEK_BOUND) c) with
         | Ok (_, over) => over
         | _ => false
         end
  | None => false
  end.

Definition cu_near_seek_for_prev c (key : Key) : res E (Cursor I * bool) :=
  _ ← assert_ (negb (bool_decide (cu_scan_mode c = SmForward)));
  if negb (cu_valid c) then cu_seek_for_prev c key
  else
    k ← cu_key c;
    if (bytes_eqb k key || bool_decide (cu_scan_mode c = SmBackward) && bytes_ltb k key)%bool
    then Ok (c, true)
    else if past_min c key then Ok (c, false)
    else if bytes_ltb k key then
      '(c, over) ← near_loop cu_next (fun k => bytes_ltb k key) (Z.to_nat SEEK_BOUND) c;
      if (over : bool) then cu_seek_for_prev c key
      else if cu_valid c then
        k ← cu_key c;
        '(c, _) ← (if bytes_ltb key k then cu_prev c else Ok (c, true));
        if cu_valid c then Ok (c, true)
        else Ok (if cu_prefix_seek c then c else cu_set_min_key c key, false)
      else if cu_prefix_seek c then cu_seek_for_prev c key
      else
        '(c, found) ← cu_seek_to_last c;
        _ ← assert_ found; Ok (c, true)
    else
      '(c, over) ← near_loop cu_prev (bytes_ltb key) (Z.to_nat SEEK_BOUND) c;
      if (over : bool) then cu_seek_for_prev c key
      else if cu_valid c then Ok (c, true)
      else Ok (if cu_prefix_seek c then c else cu_set_min_key c key, false).

Definition cu_get c (key : Key) : res E (Cursor I * option bytes) :=
  '(c, found) ← (if bool_decide (cu_scan_mode c = SmBackward)
                 then cu_near_seek_for_prev c key else cu_near_seek c key);
  if (found : bool) then
    k ← cu_key c;
    if bytes_eqb k key then v ← cu_value c; Ok (c, Some v) else Ok (c, None)
  else Ok (c, None).

Definition cu_reverse_seek c (key : Key) : res E (Cursor I * bool) :=
  '(c, found) ← cu_seek_for_prev c key;
  if (found : bool) then
    k ← cu_key c; if bytes_eqb k key then cu_prev c else Ok (c, true)
  else Ok (c, false).

Definition cu_near_reverse_seek c (key : Key) : res E (Cursor I * bool) :=
  '(c, found) ← cu_near_seek_for_prev c key;
  if (found : bool) then
    k ← cu_key c; if bytes_eqb k key then cu_prev c else Ok (c, true)
  else Ok (c, false).
End Cursor.

(** ** Least and greatest entries *)

Section Order.
Context (content : Key -> option Value).

Lemma least_unique p o o' : least content p o -> least content p o' -> o = o'.
Proof.
  destruct o as [[k v]|], o' as [[k' v']|]; cbn; [| | |done].
  - intros (Hv & Hp & Hmin) (Hv' & Hp' & Hmin'). assert (k = k') as ->; [|by simplify_eq].
    apply bytes_leb_antisym; [apply Hmin|apply Hmin']; eauto.
  - intros (Hv & Hp & _) Hno. rewrite Hno in Hp; [done|eauto].
  - intros Hno (Hv & Hp & _). rewrite Hno in Hp; [done|eauto].
Qed.

Lemma greatest_unique p o o' : greatest content p o -> greatest content p o' -> o = o'.
Proof.
  destruct o as [[k v]|], o' as [[k' v']|]; cbn; [| | |done].
  - intros (Hv & Hp & Hmax) (Hv' & Hp' & Hmax'). assert (k = k') as ->; [|by simplify_eq].
    apply bytes_leb_antisym; [apply Hmax'|apply Hmax]; eauto.
  - intros (Hv & Hp & _) Hno. rewrite Hno in Hp; [done|eauto].
  - intros Hno (Hv & Hp & _). rewrite Hno in Hp; [done|eauto].
Qed.

(** Stepping from below: the next entry is the first one at or above [k]. *)
Lemma least_step ck k o :
  bytes_ltb ck k = true -> least content (bytes_ltb ck) o ->
  match o with Some (k', _) => bytes_leb k k' = true | None => True end -> least content (bytes_leb k) o.
Proof.
  intros Hck. destruct o as [[k' v]|]; cbn.
  - intros (Hv & _ & Hmin) Hk. split_and!; [done..|]. intros k'' Hs Hle. apply Hmin; [done|].
    by eapply bytes_ltb_leb_trans.
  - intros Hno _ k' Hs. destruct (bytes_leb k k') eqn:Hle; [|done].
    rewrite <-(Hno k' Hs). symmetry. by eapply bytes_ltb_leb_trans.
Qed.

Lemma greatest_step ck k o :
  bytes_ltb k ck = true -> greatest content (fun k' => bytes_ltb k' ck) o ->
  match o with Some (k', _) => bytes_leb k' k = true | None => True end ->
  greatest content (fun k' => bytes_leb k' k) o.
Proof.
  intros Hck. destruct o as [[k' v]|]; cbn.
  - intros (Hv & _ & Hmax) Hk. split_and!; [done..|]. intros k'' Hs Hle. apply Hmax; [done|].
    by eapply bytes_leb_ltb_trans.
  - intros Hno _ k' Hs. destruct (bytes_leb k' k) eqn:Hle; [|done].
    rewrite <-(Hno k' Hs). symmetry. by eapply bytes_leb_ltb_trans.
Qed.

(** One step back across [k]. *)
Lemma greatest_next k pk pv o :
  greatest content (fun k' => bytes_leb k' k) (Some (pk, pv)) -> bytes_ltb pk k = true ->
  least content (bytes_ltb pk) o -> least content (bytes_leb k) o.
Proof.
  intros (_ & _ & Hmax) Hpk Hl. apply (least_step pk); [done..|]. destruct o as [[k' v]|]; [|done].
  destruct Hl as (Hv & Hp & _). destruct (bytes_leb k k') eqn:Hle; [done|].
  apply bytes_leb_gt, bytes_ltb_leb in Hle. apply bytes_leb_gt in Hp. rewrite Hmax in Hp; eauto.
Qed.

Lemma least_prev k nk nv o :
  least content (bytes_leb k) (Some (nk, nv)) -> bytes_ltb k nk = true ->
  greatest content (fun k' => bytes_ltb k' nk) o -> greatest content (fun k' => bytes_leb k' k) o.
Proof.
  intros (_ & _ & Hmin) Hnk Hg. apply (greatest_step nk); [done..|]. destruct o as [[k' v]|]; [|done].
  destruct Hg as (Hv & Hp & _). destruct (bytes_leb k' k) eqn:Hle; [done|].
  apply bytes_leb_gt, bytes_ltb_leb in Hle. apply bytes_leb_gt in Hp. rewrite Hmin in Hp; eauto.
Qed.

(** No entry on the other side. *)
Lemma greatest_none_first k o :
  greatest content (fun k' => bytes_leb k' k) None -> least content (fun _ => true) o ->
  least content (bytes_leb k) o.
Proof.
  intros Hno. destruct o as [[k' v]|]; cbn.
  - intros (Hv & _ & Hmin). split_and!; [done| |auto]. destruct (bytes_leb_total k k') as [?|Hle]; [done|].
    rewrite Hno in Hle; eauto. done.
  - intros Hemp k' Hs. by specialize (Hemp k' Hs).
Qed.

Lemma least_none_last k o :
  least content (bytes_leb k) None -> greatest content (fun _ => true) o ->
  greatest content (fun k' => bytes_leb k' k) o.
Proof.
  intros Hno. destruct o as [[k' v]|]; cbn.
  - intros (Hv & _ & Hmax). split_and!; [done| |auto]. destruct (bytes_leb_total k' k) as [?|Hle]; [done|].
    rewrite Hno in Hle; eauto. done.
  - intros Hemp k' Hs. by specialize (Hemp k' Hs).
Qed.

Lemma least_here k v : content k = Some v -> least content (bytes_leb k) (Some (k, v)).
Proof. intros Hv. split_and!; [done| |done]. by apply bytes_leb_lt_or_eq; right. Qed.

Lemma greatest_here k v : content k = Some v -> greatest content (fun k' => bytes_leb k' k) (Some (k, v)).
Proof. intros Hv. split_and!; [done| |done]. by apply bytes_leb_lt_or_eq; right. Qed.
End Order.

(** ** What cursors find *)

Section Spec.
Context {I : Type} `{EngineIteratorLaws I} {E : Type}.
Implicit Types c : Cursor I.

Definition cu_content c : Key -> option Value := it_content (cu_iter c).

(** The marks are right, and the cursor ranges over all its data. *)
Record cursor_inv c : Prop := {
  ci_ok : it_ok (cu_iter c);
  ci_prefix : cu_prefix_seek c = false;
  ci_max : forall m k, cu_max_key c = Some m -> is_Some (cu_content c k) -> bytes_leb m k = false;
  ci_min : forall m k, cu_min_key c = Some m -> is_Some (cu_content c k) -> bytes_leb k m = false
}.

Lemma cursor_inv_new (i : I) mode : it_ok i -> cursor_inv (Cursor_new i mode false).
Proof. by split. Qed.

(** Moves keep the data, the marks and the mode. *)
Record moved (c c' : Cursor I) : Prop := {
  mv_inv : cursor_inv c';
  mv_content : cu_content c' = cu_content c;
  mv_mode : cu_scan_mode c' = cu_scan_mode c
}.

Lemma moved_refl c : cursor_inv c -> moved c c.
Proof. by split. Qed.

Lemma moved_trans c1 c2 c3 : moved c1 c2 -> moved c2 c3 -> moved c1 c3.
Proof. intros [? Hc Hm] [? Hc' Hm']. split; [done|by rewrite Hc'|by rewrite Hm']. Qed.

Lemma moved_iter c i :
  cursor_inv c -> it_ok i -> it_content i = cu_content c -> moved c (cu_set_iter c i).
Proof.
  intros [Hok Hp Hmax Hmin] Hi Hc. split; [|done|done]. split; [done|done| |].
  - intros m k Hm. unfold cu_content. cbn. rewrite Hc. by apply Hmax.
  - intros m k Hm. unfold cu_content. cbn. rewrite Hc. by apply Hmin.
Qed.

Lemma moved_max c k :
  cursor_inv c -> (forall k', is_Some (cu_content c k') -> bytes_leb k k' = false) ->
  moved c (cu_set_max_key c k).
Proof.
  intros [Hok Hp Hmax Hmin] Hno. split; [|done|done]. split; [done..| |done]. intros m k' [= <-]. apply Hno.
Qed.

Lemma moved_min c k :
  cursor_inv c -> (forall k', is_Some (cu_content c k') -> bytes_leb k' k = false) ->
  moved c (cu_set_min_key c k).
Proof.
  intros [Hok Hp Hmax Hmin] Hno. split; [|done|done]. split; [done..|]. intros m k' [= <-]. apply Hno.
Qed.

Lemma cu_pos_in c k v : cursor_inv c -> cu_pos c = Some (k, v) -> cu_content c k = Some v.
Proof. intros Hi. apply it_pos_in, (ci_ok c Hi). Qed.

Lemma cu_valid_true c kv : cu_pos c = Some kv -> cu_valid c = true.
Proof. intros Hp. unfold cu_valid. rewrite Hp. by rewrite bool_decide_eq_true. Qed.

Lemma cu_valid_false c : cu_pos c = None -> cu_valid c = false.
Proof. intros Hp. unfold cu_valid. rewrite Hp. rewrite bool_decide_eq_false. by intros []. Qed.

Lemma cu_key_ok c k v : cu_pos c = Some (k, v) -> cu_key (E:=E) c = Ok k.
Proof. intros Hp. unfold cu_key. by rewrite Hp. Qed.

Lemma past_max_spec c k k' :
  cursor_inv c -> past_max c k = true -> is_Some (cu_content c k') -> bytes_leb k k' = false.
Proof.
  intros Hi. unfold past_max. destruct (cu_max_key c) as [m|] eqn:Hm; [|done]. intros Hle Hs.
  pose proof (ci_max c Hi m k' Hm Hs) as Hf. destruct (bytes_leb k k') eqn:Hk; [|done].
  by rewrite (bytes_leb_trans m k k' Hle Hk) in Hf.
Qed.

Lemma past_min_spec c k k' :
  cursor_inv c -> past_min c k = true -> is_Some (cu_content c k') -> bytes_leb k' k = false.
Proof.
  intros Hi. unfold past_min. destruct (cu_min_key c) as [m|] eqn:Hm; [|done]. intros Hle Hs.
  pose proof (ci_min c Hi m k' Hm Hs) as Hf. destruct (bytes_leb k' k) eqn:Hk; [|done].
  by rewrite (bytes_leb_trans k' k m Hk Hle) in Hf.
Qed.

(** *** Single moves *)

Lemma cu_next_spec c k v :
  cursor_inv c -> cu_pos c = Some (k, v) ->
  exists c', cu_next (E:=E) c = Ok (c', cu_valid c') /\ moved c c'
    /\ least (cu_content c) (bytes_ltb k) (cu_pos c').
Proof.
  intros Hi Hp. destruct (it_next_ok (cu_iter c) k v (ci_ok c Hi) Hp) as (Hok & Hc & Hl).
  unfold cu_next. rewrite (cu_valid_true c (k, v)) by done. cbn [assert_ mbind res_bind].
  eexists. split; [done|]. split; [by apply moved_iter|done].
Qed.

Lemma cu_prev_spec c k v :
  cursor_inv c -> cu_pos c = Some (k, v) ->
  exists c', cu_prev (E:=E) c = Ok (c', cu_valid c') /\ moved c c'
    /\ greatest (cu_content c) (fun k' => bytes_ltb k' k) (cu_pos c').
Proof.
  intros Hi Hp. destruct (it_prev_ok (cu_iter c) k v (ci_ok c Hi) Hp) as (Hok & Hc & Hl).
  unfold cu_prev. rewrite (cu_valid_true c (k, v)) by done. cbn [assert_ mbind res_bind].
  eexists. split; [done|]. split; [by apply moved_iter|done].
Qed.

Lemma cu_internal_seek_spec c k :
  cursor_inv c ->
  exists c', cu_internal_seek (E:=E) c k = Ok (c', cu_valid c') /\ moved c c'
    /\ least (cu_content c) (bytes_leb k) (cu_pos c').
Proof.
  intros Hi. destruct (it_seek_ok k (cu_iter c) (ci_ok c Hi)) as (Hok & Hc & Hl).
  eexists. split; [done|]. split; [by apply moved_iter|done].
Qed.

Lemma cu_internal_seek_for_prev_spec c k :
  cursor_inv c ->
  exists c', cu_internal_seek_for_prev (E:=E) c k = Ok (c', cu_valid c') /\ moved c c'
    /\ greatest (cu_content c) (fun k' => bytes_leb k' k) (cu_pos c').
Proof.
  intros Hi. destruct (it_seek_for_prev_ok k (cu_iter c) (ci_ok c Hi)) as (Hok & Hc & Hl).
  eexists. split; [done|]. split; [by apply moved_iter|done].
Qed.

Lemma cu_seek_to_first_spec c :
  cursor_inv c ->
  exists c', cu_seek_to_first (E:=E) c = Ok (c', cu_valid c') /\ moved c c'
    /\ least (cu_content c) (fun _ => true) (cu_pos c').
Proof.
  intros Hi. destruct (it_seek_to_first_ok (cu_iter c) (ci_ok c Hi)) as (Hok & Hc & Hl).
  unfold cu_seek_to_first. rewrite (ci_prefix c Hi). eexists. split; [done|].
  split; [by apply moved_iter|done].
Qed.

Lemma cu_seek_to_last_spec c :
  cursor_inv c ->
  exists c', cu_seek_to_last (E:=E) c = Ok (c', cu_valid c') /\ moved c c'
    /\ greatest (cu_content c) (fun _ => true) (cu_pos c').
Proof.
  intros Hi. destruct (it_seek_to_last_ok (cu_iter c) (ci_ok c Hi)) as (Hok & Hc & Hl).
  unfold cu_seek_to_last. rewrite (ci_prefix c Hi). eexists. split; [done|].
  split; [by apply moved_iter|done].
Qed.

(** *** Seeks *)

(** Where a seek leaves the cursor: a forward cursor that is already at or past
    the key stays. *)
Definition seek_stop c (k : Key) (o : option Entry) : Prop :=
  match cu_pos c with
  | Some (ck, _) =>
      if (bool_decide (cu_scan_mode c = SmForward) && bytes_leb k ck)%bool then o = cu_pos c
      else least (cu_content c) (bytes_leb k) o
  | None => least (cu_content c) (bytes_leb k) o
  end.

Definition seek_prev_stop c (k : Key) (o : option Entry) : Prop :=
  match cu_pos c with
  | Some (ck, _) =>
      if (bool_decide (cu_scan_mode c = SmBackward) && bytes_leb ck k)%bool then o = cu_pos c
      else greatest (cu_content c) (fun k' => bytes_leb k' k) o
  | None => greatest (cu_content c) (fun k' => bytes_leb k' k) o
  end.

Definition seek_post c (k : Key) (r : res E (Cursor I * bool)) : Prop :=
  exists c' b, r = Ok (c', b) /\ moved c c'
    /\ if (b : bool) then is_Some (cu_pos c') /\ seek_stop c k (cu_pos c')
       else forall k', is_Some (cu_content c k') -> bytes_leb k k' = false.

Definition seek_prev_post c (k : Key) (r : res E (Cursor I * bool)) : Prop :=
  exists c' b, r = Ok (c', b) /\ moved c c'
    /\ if (b : bool) then is_Some (cu_pos c') /\ seek_prev_stop c k (cu_pos c')
       else forall k', is_Some (cu_content c k') -> bytes_leb k' k = false.

(** The cursor does not stay where it is. *)
Definition seek_moves c (k : Key) : Prop :=
  forall ck v, cu_pos c = Some (ck, v) -> cu_scan_mode c = SmForward -> bytes_ltb ck k = true.

Definition seek_prev_moves c (k : Key) : Prop :=
  forall ck v, cu_pos c = Some (ck, v) -> cu_scan_mode c = SmBackward -> bytes_ltb k ck = true.

Lemma seek_stop_moves c k o :
  seek_moves c k -> least (cu_content c) (bytes_leb k) o -> seek_stop c k o.
Proof.
  intros Hm Hl. unfold seek_stop. destruct (cu_pos c) as [[ck v]|] eqn:Hp; [|done].
  destruct (decide (cu_scan_mode c = SmForward)) as [Hf|Hf]; [|by rewrite bool_decide_eq_false_2].
  specialize (Hm ck v Hp Hf). apply bytes_leb_gt in Hm. by rewrite Hm, andb_false_r.
Qed.

Lemma seek_prev_stop_moves c k o :
  seek_prev_moves c k -> greatest (cu_content c) (fun k' => bytes_leb k' k) o -> seek_prev_stop c k o.
Proof.
  intros Hm Hl. unfold seek_prev_stop. destruct (cu_pos c) as [[ck v]|] eqn:Hp; [|done].
  destruct (decide (cu_scan_mode c = SmBackward)) as [Hf|Hf]; [|by rewrite bool_decide_eq_false_2].
  specialize (Hm ck v Hp Hf). apply bytes_leb_gt in Hm. by rewrite Hm, andb_false_r.
Qed.

(** The end of a seek: a valid cursor was found, or the end is noted. *)
Lemma seek_finish c c1 k :
  seek_moves c k -> moved c c1 -> least (cu_content c) (bytes_leb k) (cu_pos c1) ->
  seek_post c k (if cu_valid c1 then Ok (c1, true)
                 else Ok (if cu_prefix_seek c1 then c1 else cu_set_max_key c1 k, false)).
Proof.
  intros Hs Hm Hl. destruct (cu_pos c1) as [kv|] eqn:Hp.
  - rewrite (cu_valid_true c1 kv) by done. exists c1, true. split; [done|]. split; [done|].
    rewrite Hp. split; [eauto|]. by apply seek_stop_moves.
  - rewrite cu_valid_false by done. rewrite (ci_prefix _ (mv_inv _ _ Hm)).
    eexists _, false. split; [done|]. split; [|exact Hl]. eapply moved_trans; [done|]. apply moved_max; [apply Hm|].
    by rewrite (mv_content _ _ Hm).
Qed.

Lemma seek_prev_finish c c1 k :
  seek_prev_moves c k -> moved c c1 -> greatest (cu_content c) (fun k' => bytes_leb k' k) (cu_pos c1) ->
  seek_prev_post c k (if cu_valid c1 then Ok (c1, true)
                      else Ok (if cu_prefix_seek c1 then c1 else cu_set_min_key c1 k, false)).
Proof.
  intros Hs Hm Hl. destruct (cu_pos c1) as [kv|] eqn:Hp.
  - rewrite (cu_valid_true c1 kv) by done. exists c1, true. split; [done|]. split; [done|].
    rewrite Hp. split; [eauto|]. by apply seek_prev_stop_moves.
  - rewrite cu_valid_false by done. rewrite (ci_prefix _ (mv_inv _ _ Hm)).
    eexists _, false. split; [done|]. split; [|exact Hl]. eapply moved_trans; [done|]. apply moved_min; [apply Hm|].
    by rewrite (mv_content _ _ Hm).
Qed.

Lemma cu_seek_spec c k :
  cursor_inv c -> cu_scan_mode c <> SmBackward -> seek_post c k (cu_seek c k).
Proof.
  intros Hi Hmode. unfold cu_seek.
  rewrite (bool_decide_eq_false_2 (cu_scan_mode c = SmBackward)) by done. cbn [negb assert_ mbind res_bind].
  destruct (past_max c k) eqn:Hpm.
  { exists c, false. split; [done|]. split; [by apply moved_refl|]. intros k'. by apply past_max_spec. }
  assert (seek_moves c k -> seek_post c k ('(c, found) ← cu_internal_seek c k;
      if (found : bool) then Ok (c, true)
      else Ok (if cu_prefix_seek c then c else cu_set_max_key c k, false))) as Hgo.
  { intros Hs. destruct (cu_internal_seek_spec c k Hi) as (c1 & -> & Hm & Hl). by apply seek_finish. }
  destruct (cu_pos c) as [[ck v]|] eqn:Hp.
  2:{ rewrite cu_valid_false, andb_false_r by done. apply Hgo. intros ? ?. congruence. }
  rewrite (cu_valid_true c (ck, v)), andb_true_r by done.
  destruct (bool_decide (cu_scan_mode c = SmForward)) eqn:Hf.
  2:{ apply Hgo. intros ck' v' _ Hf'. by rewrite bool_decide_eq_false in Hf. }
  rewrite (cu_key_ok c ck v) by done. cbn [mbind res_bind]. destruct (bytes_leb k ck) eqn:Hle.
  - exists c, true. split; [done|]. split; [by apply moved_refl|]. split; [rewrite Hp; eauto|].
    unfold seek_stop. by rewrite Hp, Hf, Hle.
  - apply Hgo. intros ck' v' Hp' _. rewrite Hp in Hp'. injection Hp' as <- _. by apply bytes_leb_gt.
Qed.

Lemma cu_seek_for_prev_spec c k :
  cursor_inv c -> cu_scan_mode c <> SmForward -> seek_prev_post c k (cu_seek_for_prev c k).
Proof.
  intros Hi Hmode. unfold cu_seek_for_prev.
  rewrite (bool_decide_eq_false_2 (cu_scan_mode c = SmForward)) by done.
  cbn [negb assert_ mbind res_bind]. destruct (past_min c k) eqn:Hpm.
  { exists c, false. split; [done|]. split; [by apply moved_refl|]. intros k'. by apply past_min_spec. }
  assert (seek_prev_moves c k -> seek_prev_post c k ('(c, found) ← cu_internal_seek_for_prev c k;
      if (found : bool) then Ok (c, true)
      else Ok (if cu_prefix_seek c then c else cu_set_min_key c k, false))) as Hgo.
  { intros Hs. destruct (cu_internal_seek_for_prev_spec c k Hi) as (c1 & -> & Hm & Hl).
    by apply seek_prev_finish. }
  destruct (cu_pos c) as [[ck v]|] eqn:Hp.
  2:{ rewrite cu_valid_false, andb_false_r by done. apply Hgo. intros ? ?. congruence. }
  rewrite (cu_valid_true c (ck, v)), andb_true_r by done.
  destruct (bool_decide (cu_scan_mode c = SmBackward)) eqn:Hf.
  2:{ apply Hgo. intros ck' v' _ Hf'. by rewrite bool_decide_eq_false in Hf. }
  rewrite (cu_key_ok c ck v) by done. cbn [mbind res_bind]. destruct (bytes_leb ck k) eqn:Hle.
  - exists c, true. split; [done|]. split; [by apply moved_refl|]. split; [rewrite Hp; eauto|].
    unfold seek_prev_stop. by rewrite Hp, Hf, Hle.
  - apply Hgo. intros ck' v' Hp' _. rewrite Hp in Hp'. injection Hp' as <- _. by apply bytes_leb_gt.
Qed.

(** *** Near seeks *)

(** Stepping forward from below the key: either the first entry at or above it
    is reached, or the bound is hit below it. *)
Lemma near_loop_next k n : forall c ck v,
  cursor_inv c -> cu_pos c = Some (ck, v) -> bytes_ltb ck k = true ->
  exists c' over, near_loop (E:=E) cu_next (fun k' => bytes_ltb k' k) n c = Ok (c', over) /\ moved c c'
    /\ if (over : bool) then exists ck' v', cu_pos c' = Some (ck', v') /\ bytes_ltb ck' k = true
       else least (cu_content c) (bytes_leb k) (cu_pos c').
Proof.
  induction n as [|n IH]; intros c ck v Hi Hp Hlt; cbn [near_loop].
  { exists c, true. split; [done|]. split; [by apply moved_refl|]. eauto. }
  destruct (cu_next_spec c ck v Hi Hp) as (c1 & -> & Hm & Hl). cbn [mbind res_bind].
  destruct (cu_pos c1) as [[k1 v1]|] eqn:Hp1.
  - rewrite (cu_valid_true c1 (k1, v1)), (cu_key_ok c1 k1 v1) by done. cbn [mbind res_bind].
    destruct (bytes_ltb k1 k) eqn:Hk1.
    + destruct (IH c1 k1 v1 (mv_inv _ _ Hm) Hp1 Hk1) as (c' & over & Hloop & Hm' & Hpost).
      exists c', over. split; [done|]. split; [by eapply moved_trans|]. by rewrite <-(mv_content _ _ Hm).
    + exists c1, false. split; [done|]. split; [done|]. rewrite Hp1. apply (least_step _ ck); [done..|].
      by apply bytes_ltb_ge.
  - rewrite cu_valid_false by done. exists c1, false. split; [done|]. split; [done|]. rewrite Hp1.
    by apply (least_step _ ck).
Qed.

Lemma near_loop_prev k n : forall c ck v,
  cursor_inv c -> cu_pos c = Some (ck, v) -> bytes_ltb k ck = true ->
  exists c' over, near_loop (E:=E) cu_prev (bytes_ltb k) n c = Ok (c', over) /\ moved c c'
    /\ if (over : bool) then exists ck' v', cu_pos c' = Some (ck', v') /\ bytes_ltb k ck' = true
       else greatest (cu_content c) (fun k' => bytes_leb k' k) (cu_pos c').
Proof.
  induction n as [|n IH]; intros c ck v Hi Hp Hlt; cbn [near_loop].
  { exists c, true. split; [done|]. split; [by apply moved_refl|]. eauto. }
  destruct (cu_prev_spec c ck v Hi Hp) as (c1 & -> & Hm & Hl). cbn [mbind res_bind].
  destruct (cu_pos c1) as [[k1 v1]|] eqn:Hp1.
  - rewrite (cu_valid_true c1 (k1, v1)), (cu_key_ok c1 k1 v1) by done. cbn [mbind res_bind].
    destruct (bytes_ltb k k1) eqn:Hk1.
    + destruct (IH c1 k1 v1 (mv_inv _ _ Hm) Hp1 Hk1) as (c' & over & Hloop & Hm' & Hpost).
      exists c', over. split; [done|]. split; [by eapply moved_trans|]. by rewrite <-(mv_content _ _ Hm).
    + exists c1, false. split; [done|]. split; [done|]. rewrite Hp1. apply (greatest_step _ ck); [done..|].
      by apply bytes_ltb_ge.
  - rewrite cu_valid_false by done. exists c1, false. split; [done|]. split; [done|]. rewrite Hp1.
    by apply (greatest_step _ ck).
Qed.

(** A seek from a cursor the steps have moved, still on the side they started. *)
Lemma seek_post_moved c c1 k ck1 v1 r :
  moved c c1 -> cu_pos c1 = Some (ck1, v1) ->
  (cu_scan_mode c = SmForward -> bytes_ltb ck1 k = true) -> seek_moves c k ->
  seek_post c1 k r -> seek_post c k r.
Proof.
  intros Hm Hp1 Hlt Hs (c' & b & -> & Hm' & Hpost). exists c', b. split; [done|].
  split; [by eapply moved_trans|]. rewrite (mv_content _ _ Hm) in Hpost. destruct b; [|done].
  destruct Hpost as [Hv Hst]. split; [done|]. apply seek_stop_moves; [done|].
  unfold seek_stop in Hst. rewrite Hp1, (mv_content _ _ Hm), (mv_mode _ _ Hm) in Hst.
  destruct (decide (cu_scan_mode c = SmForward)) as [Hf|Hf]; [|by rewrite bool_decide_eq_false_2 in Hst].
  specialize (Hlt Hf). apply bytes_leb_gt in Hlt. by rewrite Hlt, andb_false_r in Hst.
Qed.

Lemma seek_prev_post_moved c c1 k ck1 v1 r :
  moved c c1 -> cu_pos c1 = Some (ck1, v1) ->
  (cu_scan_mode c = SmBackward -> bytes_ltb k ck1 = true) -> seek_prev_moves c k ->
  seek_prev_post c1 k r -> seek_prev_post c k r.
Proof.
  intros Hm Hp1 Hlt Hs (c' & b & -> & Hm' & Hpost). exists c', b. split; [done|].
  split; [by eapply moved_trans|]. rewrite (mv_content _ _ Hm) in Hpost. destruct b; [|done].
  destruct Hpost as [Hv Hst]. split; [done|]. apply seek_prev_stop_moves; [done|].
  unfold seek_prev_stop in Hst. rewrite Hp1, (mv_content _ _ Hm), (mv_mode _ _ Hm) in Hst.
  destruct (decide (cu_scan_mode c = SmBackward)) as [Hf|Hf]; [|by rewrite bool_decide_eq_false_2 in Hst].
  specialize (Hlt Hf). apply bytes_leb_gt in Hlt. by rewrite Hlt, andb_false_r in Hst.
Qed.

(** The short cut of the near seeks: the cursor is already there. *)
Lemma seek_post_stay c k ck v :
  cursor_inv c -> cu_pos c = Some (ck, v) ->
  (bytes_eqb ck k || bool_decide (cu_scan_mode c = SmForward) && bytes_ltb k ck)%bool = true ->
  seek_post c k (Ok (c, true)).
Proof.
  intros Hi Hp Hc. exists c, true. split; [done|]. split; [by apply moved_refl|].
  rewrite Hp. split; [eauto|]. unfold seek_stop. rewrite Hp.
  apply orb_prop in Hc as [->%bytes_eqb_eq|[-> Hlt]%andb_prop].
  - destruct (_ && _)%bool; [done|]. apply least_here. by apply cu_pos_in.
  - by rewrite (bytes_ltb_leb k ck).
Qed.

Lemma seek_prev_post_stay c k ck v :
  cursor_inv c -> cu_pos c = Some (ck, v) ->
  (bytes_eqb ck k || bool_decide (cu_scan_mode c = SmBackward) && bytes_ltb ck k)%bool = true ->
  seek_prev_post c k (Ok (c, true)).
Proof.
  intros Hi Hp Hc. exists c, true. split; [done|]. split; [by apply moved_refl|].
  rewrite Hp. split; [eauto|]. unfold seek_prev_stop. rewrite Hp.
  apply orb_prop in Hc as [->%bytes_eqb_eq|[-> Hlt]%andb_prop].
  - destruct (_ && _)%bool; [done|]. apply greatest_here. by apply cu_pos_in.
  - by rewrite (bytes_ltb_leb ck k).
Qed.

Lemma not_stay_cases (b : bool) (ck k : bytes) :
  (bytes_eqb ck k || b && bytes_ltb k ck)%bool = false ->
  (bytes_ltb k ck = true /\ b = false) \/ (bytes_ltb k ck = false /\ bytes_ltb ck k = true).
Proof.
  intros [Hne Hf]%orb_false_elim. destruct (bytes_ltb k ck) eqn:Hlt.
  - left. by rewrite andb_true_r in Hf.
  - right. split; [done|]. apply bytes_leb_gt. destruct (bytes_leb k ck) eqn:Hle; [|done].
    apply bytes_ltb_ge in Hlt. rewrite (bytes_leb_antisym ck k) in Hne by done.
    by rewrite (proj2 (bytes_eqb_eq k k) eq_refl) in Hne.
Qed.

(** Back across the key in small steps, then forward to it. *)
Lemma near_seek_back c k ck v :
  cursor_inv c -> cu_scan_mode c = SmMixed -> cu_pos c = Some (ck, v) -> bytes_ltb k ck = true ->
  seek_post c k
    ('(c, over) ← near_loop cu_prev (bytes_ltb k) (Z.to_nat SEEK_BOUND) c;
     if (over : bool) then cu_seek c k
     else if cu_valid c then
       k0 ← cu_key c;
       '(c, _) ← (if bytes_ltb k0 k then cu_next c else Ok (c, true));
       if cu_valid c then Ok (c, true)
       else Ok (if cu_prefix_seek c then c else cu_set_max_key c k, false)
     else if cu_prefix_seek c then cu_seek c k
     else '(c, found) ← cu_seek_to_first c; _ ← assert_ found; Ok (c, true)).
Proof.
  intros Hi Hmode Hp Hlt. assert (seek_moves c k) as Hs by (intros ? ? _; congruence).
  destruct (near_loop_prev k (Z.to_nat SEEK_BOUND) c ck v Hi Hp Hlt) as (c1 & over & -> & Hm & Hg).
  cbn [mbind res_bind]. pose proof (mv_inv _ _ Hm) as Hi1. destruct over.
  { destruct Hg as (ck1 & v1 & Hp1 & Hlt1). apply (seek_post_moved c c1 k ck1 v1); [done..|congruence|done|].
    apply cu_seek_spec; [done|rewrite (mv_mode _ _ Hm); congruence]. }
  destruct (cu_pos c1) as [[k1 v1]|] eqn:Hp1.
  - rewrite (cu_valid_true c1 (k1, v1)), (cu_key_ok c1 k1 v1) by done. cbn [mbind res_bind].
    destruct (bytes_ltb k1 k) eqn:Hk1.
    + destruct (cu_next_spec c1 k1 v1 Hi1 Hp1) as (c2 & -> & Hm2 & Hl). cbn [mbind res_bind].
      apply seek_finish; [done|by eapply moved_trans|]. rewrite (mv_content _ _ Hm) in Hl.
      by eapply greatest_next.
    + apply seek_finish; [done..|]. rewrite Hp1. destruct Hg as (Hv1 & Hle & _).
      apply bytes_ltb_ge in Hk1. rewrite (bytes_leb_antisym k1 k) by done.
      apply least_here. by rewrite (bytes_leb_antisym k k1).
  - rewrite cu_valid_false, (ci_prefix c1) by done.
    destruct (cu_seek_to_first_spec c1 Hi1) as (c2 & -> & Hm2 & Hl). cbn [mbind res_bind].
    rewrite (mv_content _ _ Hm) in Hl. pose proof (greatest_none_first _ k _ Hg Hl) as Hl2.
    pose proof (cu_pos_in c ck v Hi Hp) as Hin.
    destruct (cu_pos c2) as [kv|] eqn:Hp2; [|by specialize (Hl ck ltac:(eauto))].
    rewrite (cu_valid_true c2 kv) by done. cbn [assert_ mbind res_bind].
    exists c2, true. split; [done|]. split; [by eapply moved_trans|]. rewrite Hp2.
    split; [eauto|]. by apply seek_stop_moves.
Qed.

Lemma cu_near_seek_spec c k :
  cursor_inv c -> cu_scan_mode c <> SmBackward -> seek_post c k (cu_near_seek c k).
Proof.
  intros Hi Hmode. unfold cu_near_seek.
  rewrite (bool_decide_eq_false_2 (cu_scan_mode c = SmBackward)) by done. cbn [negb assert_ mbind res_bind].
  destruct (cu_pos c) as [[ck v]|] eqn:Hp; [|rewrite cu_valid_false by done; by apply cu_seek_spec].
  rewrite (cu_valid_true c (ck, v)), (cu_key_ok c ck v) by done. cbn [negb mbind res_bind].
  destruct (_ || _)%bool eqn:Hstay; [by eapply seek_post_stay|].
  destruct (past_max c k) eqn:Hpm.
  { exists c, false. split; [done|]. split; [by apply moved_refl|]. intros k'. by apply past_max_spec. }
  apply not_stay_cases in Hstay as [[Hlt Hf]|[-> Hlt]].
  - rewrite Hlt. rewrite bool_decide_eq_false in Hf. eapply near_seek_back; [done| |done..].
    by destruct (cu_scan_mode c).
  - assert (seek_moves c k) as Hs.
    { intros ck' v' Hp' _. rewrite Hp in Hp'. by injection Hp' as <- _. }
    destruct (near_loop_next k (Z.to_nat SEEK_BOUND) c ck v Hi Hp Hlt) as (c1 & over & -> & Hm & Hl).
    cbn [mbind res_bind]. destruct over; [|by apply seek_finish].
    destruct Hl as (ck1 & v1 & Hp1 & Hlt1). apply (seek_post_moved c c1 k ck1 v1); [done..|].
    apply cu_seek_spec; [apply Hm|by rewrite (mv_mode _ _ Hm)].
Qed.

Lemma near_seek_forth c k ck v :
  cursor_inv c -> cu_scan_mode c = SmMixed -> cu_pos c = Some (ck, v) -> bytes_ltb ck k = true ->
  seek_prev_post c k
    ('(c, over) ← near_loop cu_next (fun k' => bytes_ltb k' k) (Z.to_nat SEEK_BOUND) c;
     if (over : bool) then cu_seek_for_prev c k
     else if cu_valid c then
       k0 ← cu_key c;
       '(c, _) ← (if bytes_ltb k k0 then cu_prev c else Ok (c, true));
       if cu_valid c then Ok (c, true)
       else Ok (if cu_prefix_seek c then c else cu_set_min_key c k, false)
     else if cu_prefix_seek c then cu_seek_for_prev c k
     else '(c, found) ← cu_seek_to_last c; _ ← assert_ found; Ok (c, true)).
Proof.
  intros Hi Hmode Hp Hlt. assert (seek_prev_moves c k) as Hs by (intros ? ? _; congruence).
  destruct (near_loop_next k (Z.to_nat SEEK_BOUND) c ck v Hi Hp Hlt) as (c1 & over & -> & Hm & Hg).
  cbn [mbind res_bind]. pose proof (mv_inv _ _ Hm) as Hi1. destruct over.
  { destruct Hg as (ck1 & v1 & Hp1 & Hlt1). apply (seek_prev_post_moved c c1 k ck1 v1); [done..|congruence|done|].
    apply cu_seek_for_prev_spec; [done|rewrite (mv_mode _ _ Hm); congruence]. }
  destruct (cu_pos c1) as [[k1 v1]|] eqn:Hp1.
  - rewrite (cu_valid_true c1 (k1, v1)), (cu_key_ok c1 k1 v1) by done. cbn [mbind res_bind].
    destruct (bytes_ltb k k1) eqn:Hk1.
    + destruct (cu_prev_spec c1 k1 v1 Hi1 Hp1) as (c2 & -> & Hm2 & Hl). cbn [mbind res_bind].
      apply seek_prev_finish; [done|by eapply moved_trans|]. rewrite (mv_content _ _ Hm) in Hl.
      by eapply least_prev.
    + apply seek_prev_finish; [done..|]. rewrite Hp1. destruct Hg as (Hv1 & Hle & _).
      apply bytes_ltb_ge in Hk1. rewrite (bytes_leb_antisym k1 k) by done.
      apply greatest_here. by rewrite (bytes_leb_antisym k k1).
  - rewrite cu_valid_false, (ci_prefix c1) by done.
    destruct (cu_seek_to_last_spec c1 Hi1) as (c2 & -> & Hm2 & Hl). cbn [mbind res_bind].
    rewrite (mv_content _ _ Hm) in Hl. pose proof (least_none_last _ k _ Hg Hl) as Hl2.
    pose proof (cu_pos_in c ck v Hi Hp) as Hin.
    destruct (cu_pos c2) as [kv|] eqn:Hp2; [|by specialize (Hl ck ltac:(eauto))].
    rewrite (cu_valid_true c2 kv) by done. cbn [assert_ mbind res_bind].
    exists c2, true. split; [done|]. split; [by eapply moved_trans|]. rewrite Hp2.
    split; [eauto|]. by apply seek_prev_stop_moves.
Qed.

Lemma cu_near_seek_for_prev_spec c k :
  cursor_inv c -> cu_scan_mode c <> SmForward -> seek_prev_post c k (cu_near_seek_for_prev c k).
Proof.
  intros Hi Hmode. unfold cu_near_seek_for_prev.
  rewrite (bool_decide_eq_false_2 (cu_scan_mode c = SmForward)) by done. cbn [negb assert_ mbind res_bind].
  destruct (cu_pos c) as [[ck v]|] eqn:Hp; [|rewrite cu_valid_false by done; by apply cu_seek_for_prev_spec].
  rewrite (cu_valid_true c (ck, v)), (cu_key_ok c ck v) by done. cbn [negb mbind res_bind].
  destruct (_ || _)%bool eqn:Hstay; [by eapply seek_prev_post_stay|].
  destruct (past_min c k) eqn:Hpm.
  { exists c, false. split; [done|]. split; [by apply moved_refl|]. intros k'. by apply past_min_spec. }
  assert (bytes_eqb ck k = bytes_eqb k ck) as Hsym.
  { apply eq_true_iff_eq. rewrite !bytes_eqb_eq. naive_solver. }
  rewrite Hsym in Hstay. apply not_stay_cases in Hstay as [[Hlt Hf]|[-> Hlt]].
  - rewrite Hlt. rewrite bool_decide_eq_false in Hf. eapply near_seek_forth; [done| |done..].
    by destruct (cu_scan_mode c).
  - assert (seek_prev_moves c k) as Hs.
    { intros ck' v' Hp' _. rewrite Hp in Hp'. by injection Hp' as <- _. }
    destruct (near_loop_prev k (Z.to_nat SEEK_BOUND) c ck v Hi Hp Hlt) as (c1 & over & -> & Hm & Hl).
    cbn [mbind res_bind]. destruct over; [|by apply seek_prev_finish].
    destruct Hl as (ck1 & v1 & Hp1 & Hlt1). apply (seek_prev_post_moved c c1 k ck1 v1); [done..|].
    apply cu_seek_for_prev_spec; [apply Hm|by rewrite (mv_mode _ _ Hm)].
Qed.

Lemma seek_post_same c k r1 r2 :
  cursor_inv c -> seek_post c k r1 -> seek_post c k r2 ->
  exists c1 c2 b, r1 = Ok (c1, b) /\ r2 = Ok (c2, b) /\ moved c c1 /\ moved c c2
    /\ if (b : bool) then is_Some (cu_pos c1) /\ cu_pos c2 = cu_pos c1 /\ seek_stop c k (cu_pos c1)
       else forall k', is_Some (cu_content c k') -> bytes_leb k k' = false.
Proof.
  assert (forall kv, cursor_inv c -> seek_stop c k (Some kv) ->
    ~ (forall k', is_Some (cu_content c k') -> bytes_leb k k' = false)) as Hex.
  { intros [k' v'] Hi Hst Hno. unfold seek_stop in Hst.
    assert (is_Some (cu_content c k') /\ bytes_leb k k' = true) as [Hs Hle].
    { destruct (cu_pos c) as [[ck v]|] eqn:Hp; [|by destruct Hst as (-> & ? & _)].
      destruct (_ && _)%bool eqn:Hb; [|by destruct Hst as (-> & ? & _)].
      injection Hst as -> ->. apply andb_prop in Hb as [_ Hb]. split; [|done].
      rewrite (cu_pos_in c ck v) by done. eauto. }
    by rewrite Hno in Hle. }
  intros Hi (c1 & b1 & -> & Hm1 & H1) (c2 & b2 & -> & Hm2 & H2). destruct b1, b2.
  - destruct H1 as [Hs1 H1], H2 as [Hs2 H2]. exists c1, c2, true. split_and!; [done..| |done].
    unfold seek_stop in H1, H2. destruct (cu_pos c) as [[ck v]|]; [|by eapply least_unique].
    destruct (_ && _)%bool; [congruence|by eapply least_unique].
  - destruct H1 as [[kv Hkv] H1]. rewrite Hkv in H1. by destruct (Hex kv Hi H1 H2).
  - destruct H2 as [[kv Hkv] H2]. rewrite Hkv in H2. by destruct (Hex kv Hi H2 H1).
  - by exists c1, c2, false.
Qed.

Lemma seek_prev_post_same c k r1 r2 :
  cursor_inv c -> seek_prev_post c k r1 -> seek_prev_post c k r2 ->
  exists c1 c2 b, r1 = Ok (c1, b) /\ r2 = Ok (c2, b) /\ moved c c1 /\ moved c c2
    /\ if (b : bool) then is_Some (cu_pos c1) /\ cu_pos c2 = cu_pos c1 /\ seek_prev_stop c k (cu_pos c1)
       else forall k', is_Some (cu_content c k') -> bytes_leb k' k = false.
Proof.
  assert (forall kv, cursor_inv c -> seek_prev_stop c k (Some kv) ->
    ~ (forall k', is_Some (cu_content c k') -> bytes_leb k' k = false)) as Hex.
  { intros [k' v'] Hi Hst Hno. unfold seek_prev_stop in Hst.
    assert (is_Some (cu_content c k') /\ bytes_leb k' k = true) as [Hs Hle].
    { destruct (cu_pos c) as [[ck v]|] eqn:Hp; [|by destruct Hst as (-> & ? & _)].
      destruct (_ && _)%bool eqn:Hb; [|by destruct Hst as (-> & ? & _)].
      injection Hst as -> ->. apply andb_prop in Hb as [_ Hb]. split; [|done].
      rewrite (cu_pos_in c ck v) by done. eauto. }
    by rewrite Hno in Hle. }
  intros Hi (c1 & b1 & -> & Hm1 & H1) (c2 & b2 & -> & Hm2 & H2). destruct b1, b2.
  - destruct H1 as [Hs1 H1], H2 as [Hs2 H2]. exists c1, c2, true. split_and!; [done..| |done].
    unfold seek_prev_stop in H1, H2. destruct (cu_pos c) as [[ck v]|]; [|by eapply greatest_unique].
    destruct (_ && _)%bool; [congruence|by eapply greatest_unique].
  - destruct H1 as [[kv Hkv] H1]. rewrite Hkv in H1. by destruct (Hex kv Hi H1 H2).
  - destruct H2 as [[kv Hkv] H2]. rewrite Hkv in H2. by destruct (Hex kv Hi H2 H1).
  - by exists c1, c2, false.
Qed.

(** [get] on a cursor that may move both ways is a lookup. *)
Lemma cu_get_spec c k :
  cursor_inv c -> cu_scan_mode c = SmMixed ->
  exists c', cu_get (E:=E) c k = Ok (c', cu_content c k) /\ moved c c'.
Proof.
  intros Hi Hmode. unfold cu_get. rewrite bool_decide_eq_false_2 by congruence.
  destruct (cu_near_seek_spec c k Hi) as (c1 & b & -> & Hm & Hpost); [congruence|].
  cbn [mbind res_bind]. exists c1. split; [|done]. destruct b.
  - destruct Hpost as [[[k1 v1] Hp1] Hst]. rewrite (cu_key_ok c1 k1 v1) by done. cbn [mbind res_bind].
    assert (least (cu_content c) (bytes_leb k) (Some (k1, v1))) as (Hv1 & Hle & Hmin).
    { rewrite <-Hp1. unfold seek_stop in Hst. rewrite Hmode in Hst. by destruct (cu_pos c) as [[ck v]|]. }
    unfold cu_value. rewrite Hp1. cbn [unwrap mbind res_bind snd].
    destruct (bytes_eqb k1 k) eqn:Heq; [apply bytes_eqb_eq in Heq as ->; by rewrite Hv1|].
    destruct (cu_content c k) as [v|] eqn:Hk; [|done]. exfalso.
    assert (bytes_leb k1 k = true) by (apply Hmin; [eauto|by apply bytes_leb_lt_or_eq; right]).
    rewrite (bytes_leb_antisym k1 k) in Heq by done. by rewrite (proj2 (bytes_eqb_eq k k) eq_refl) in Heq.
  - destruct (cu_content c k) as [v|] eqn:Hk; [|done].
    specialize (Hpost k ltac:(eauto)). by rewrite (proj2 (bytes_leb_lt_or_eq k k)) in Hpost by by right.
Qed.
End Spec.

(** ** The iterator of the in-memory engine *)

Record BTreeEngineIterator : Type := {
  bi_tree : gmap bytes bytes;
  bi_cur : option Entry;
  bi_valid : bool;
  bi_lower : option Key;
  bi_upper : option Key
}.

(** The bounds of the options are taken as raw keys. *)
Definition BTreeEngineIterator_new (tree : gmap bytes bytes) (lower_bound upper_bound : option bytes)
    : BTreeEngineIterator :=
  {| bi_tree := tree; bi_cur := None; bi_valid := false;
     bi_lower := option_map Key_from_raw lower_bound; bi_upper := option_map Key_from_raw upper_bound |}.

Definition bi_contains (it : BTreeEngineIterator) (k : Key) : bool :=
  match bi_lower it with Some l => bytes_leb l k | None => true end
  && match bi_upper it with Some u => bytes_ltb k u | None => true end.

(** [item] is the endpoint of the range looked at. *)
Definition seek_to_range_endpoint (it : BTreeEngineIterator) (item : option Entry) : BTreeEngineIterator :=
  match item with
  | Some (k, v) =>
      if bi_contains it k
      then {| bi_tree := bi_tree it; bi_cur := Some (k, v); bi_valid := true;
              bi_lower := bi_lower it; bi_upper := bi_upper it |}
      else {| bi_tree := bi_tree it; bi_cur := bi_cur it; bi_valid := false;
              bi_lower := bi_lower it; bi_upper := bi_upper it |}
  | None => {| bi_tree := bi_tree it; bi_cur := bi_cur it; bi_valid := false;
               bi_lower := bi_lower it; bi_upper := bi_upper it |}
  end.

(** A move before the first seek would panic; a cursor does not make one. *)
#[export] Instance BTreeEngineIterator_iter : EngineIterator BTreeEngineIterator := {
  it_pos := fun it => if bi_valid it then bi_cur it else None;
  it_seek := fun key it => seek_to_range_endpoint it (range_first (bytes_leb key) (bi_tree it));
  it_seek_for_prev := fun key it =>
    seek_to_range_endpoint it (range_last (fun k => bytes_leb k key) (bi_tree it));
  it_seek_to_first := fun it => seek_to_range_endpoint it (range_first (bi_contains it) (bi_tree it));
  it_seek_to_last := fun it => seek_to_range_endpoint it (range_last (bi_contains it) (bi_tree it));
  it_next := fun it =>
    match bi_cur it with
    | Some (k, _) => seek_to_range_endpoint it (range_first (bytes_ltb k) (bi_tree it))
    | None => it
    end;
  it_prev := fun it =>
    match bi_cur it with
    | Some (k, _) => seek_to_range_endpoint it (range_last (fun k' => bytes_ltb k' k) (bi_tree it))
    | None => it
    end
}.

Lemma range_last_list p l :
  match foldr (fun kv acc =>
           if p (fst kv) : bool then
             match acc with
             | Some kv' => if bytes_leb (fst kv') (fst kv) then Some kv else acc
             | None => Some kv
             end
           else acc) None l with
  | Some kv => kv ∈ l /\ p (fst kv) = true
      /\ forall kv', kv' ∈ l -> p (fst kv') = true -> bytes_leb (fst kv') (fst kv) = true
  | None => forall kv' : bytes * bytes, kv' ∈ l -> p (fst kv') = false
  end.
Proof.
  induction l as [|kv l IH]; cbn [foldr]; [intros ? []%not_elem_of_nil|].
  destruct (foldr _ None l) as [kv'|] eqn:Ef; destruct (p (fst kv)) eqn:Ep.
  - destruct IH as (Hin & Hp & Hmax). destruct (bytes_leb (fst kv') (fst kv)) eqn:Ele.
    + split; [by left|]. split; [done|]. intros kv'' [->|Hin']%elem_of_cons Hp'.
      * by apply bytes_leb_lt_or_eq; right.
      * eapply bytes_leb_trans; [by apply Hmax|exact Ele].
    + split; [by right|]. split; [done|]. intros kv'' [->|Hin']%elem_of_cons Hp'; [|by apply Hmax].
      destruct (bytes_leb_total (fst kv') (fst kv)); congruence.
  - destruct IH as (Hin & Hp & Hmax). split; [by right|]. split; [done|].
    intros kv'' [->|Hin']%elem_of_cons Hp'; [congruence|by apply Hmax].
  - split; [by left|]. split; [done|]. intros kv'' [->|Hin']%elem_of_cons Hp'.
    + by apply bytes_leb_lt_or_eq; right.
    + rewrite IH in Hp'; done.
  - intros kv'' [->|Hin']%elem_of_cons; [done|by apply IH].
Qed.

Lemma range_first_least p m : least (fun k => m !! k) p (range_first p m).
Proof. exact (range_first_spec p m). Qed.

Lemma range_last_greatest p m : greatest (fun k => m !! k) p (range_last p m).
Proof.
  pose proof (range_last_list p (map_to_list m)) as H. unfold range_last, greatest.
  destruct (foldr _ None (map_to_list m)) as [[k v]|].
  - destruct H as (Hin & Hp & Hmax). split; [by apply elem_of_map_to_list|]. split; [done|].
    intros k' [v' Hv'] Hp'. apply (Hmax (k', v')); [by apply elem_of_map_to_list|done].
  - intros k' [v' Hv']. apply (H (k', v')). by apply elem_of_map_to_list.
Qed.

(** Iterators without bounds, positioned in their tree. *)
Definition bi_ok (it : BTreeEngineIterator) : Prop :=
  bi_lower it = None /\ bi_upper it = None
  /\ forall k v, bi_valid it = true -> bi_cur it = Some (k, v) -> bi_tree it !! k = Some v.

Lemma seek_endpoint_ok it (P : option Entry -> Prop) item :
  bi_ok it -> P item -> (forall k v, item = Some (k, v) -> bi_tree it !! k = Some v) ->
  bi_ok (seek_to_range_endpoint it item)
  /\ (fun k => bi_tree (seek_to_range_endpoint it item) !! k) = (fun k => bi_tree it !! k)
  /\ P (it_pos (seek_to_range_endpoint it item)).
Proof.
  intros (Hl & Hu & Hp) HP Hin. destruct item as [[k v]|]; cbn [seek_to_range_endpoint].
  - unfold bi_contains. rewrite Hl, Hu. cbn. split_and!; [|done|done]. split_and!; [done..|].
    intros k' v' _ [= <- <-]. by apply Hin.
  - by split_and!.
Qed.

#[export] Instance BTreeEngineIterator_laws : EngineIteratorLaws BTreeEngineIterator.
Proof.
  refine {| it_ok := bi_ok; it_content := fun it k => bi_tree it !! k |}.
  - intros it k v (_ & _ & Hp). cbn. destruct (bi_valid it); [by apply Hp|done].
  - intros k it Hok. apply seek_endpoint_ok; [done|apply range_first_least|].
    intros k' v' E. pose proof (range_first_least (bytes_leb k) (bi_tree it)) as Hr. rewrite E in Hr. apply Hr.
  - intros k it Hok. apply seek_endpoint_ok; [done|apply range_last_greatest|].
    intros k' v' E. pose proof (range_last_greatest (fun k' => bytes_leb k' k) (bi_tree it)) as Hr.
    rewrite E in Hr. apply Hr.
  - intros it Hok. pose proof (range_first_least (bi_contains it) (bi_tree it)) as Hr.
    apply seek_endpoint_ok; [done| |intros k' v' E; rewrite E in Hr; apply Hr].
    destruct Hok as (Hl & Hu & _). unfold bi_contains in *. by rewrite Hl, Hu in *.
  - intros it Hok. pose proof (range_last_greatest (bi_contains it) (bi_tree it)) as Hr.
    apply seek_endpoint_ok; [done| |intros k' v' E; rewrite E in Hr; apply Hr].
    destruct Hok as (Hl & Hu & _). unfold bi_contains in *. by rewrite Hl, Hu in *.
  - intros it k v Hok Hp. cbn in Hp. destruct (bi_valid it); [|done]. cbn [it_next BTreeEngineIterator_iter].
    rewrite Hp. apply seek_endpoint_ok; [done|apply range_first_least|].
    intros k' v' E. pose proof (range_first_least (bytes_ltb k) (bi_tree it)) as Hr. rewrite E in Hr. apply Hr.
  - intros it k v Hok Hp. cbn in Hp. destruct (bi_valid it); [|done]. cbn [it_prev BTreeEngineIterator_iter].
    rewrite Hp. apply seek_endpoint_ok; [done|apply range_last_greatest|].
    intros k' v' E. pose proof (range_last_greatest (fun k' => bytes_ltb k' k) (bi_tree it)) as Hr.
    rewrite E in Hr. apply Hr.
Defined.

Lemma bi_new_ok tree : bi_ok (BTreeEngineIterator_new tree None None).
Proof. by split_and!. Qed.

Section Props.
Context {I : Type} `{EngineIteratorLaws I}.

(** C37. Near seeks are seeks.  On any iterator over sorted data, for a cursor
    whose end marks are right, [near_seek] and [seek] give the same answer,
    without panic, and leave the cursor on the same entry: the first one at or
    above the key, or, for a forward cursor already there or further, the current
    one; they answer no exactly when no entry is at or above the key.  The same
    holds for [near_seek_for_prev] and [seek_for_prev] in the other direction,
    and [get] on a cursor of mixed mode is a lookup.  The cursors that result
    have right end marks again. *)
Theorem near_seek_equivalent (c : Cursor I) (k : Key) :
  cursor_inv c ->
  (cu_scan_mode c <> SmBackward ->
     exists c1 c2 b, cu_seek (E:=unit) c k = Ok (c1, b) /\ cu_near_seek (E:=unit) c k = Ok (c2, b)
       /\ moved c c1 /\ moved c c2
       /\ if (b : bool) then is_Some (cu_pos c1) /\ cu_pos c2 = cu_pos c1 /\ seek_stop c k (cu_pos c1)
          else forall k', is_Some (cu_content c k') -> bytes_leb k k' = false)
  /\ (cu_scan_mode c <> SmForward ->
     exists c1 c2 b, cu_seek_for_prev (E:=unit) c k = Ok (c1, b)
       /\ cu_near_seek_for_prev (E:=unit) c k = Ok (c2, b) /\ moved c c1 /\ moved c c2
       /\ if (b : bool) then is_Some (cu_pos c1) /\ cu_pos c2 = cu_pos c1 /\ seek_prev_stop c k (cu_pos c1)
          else forall k', is_Some (cu_content c k') -> bytes_leb k' k = false)
  /\ (cu_scan_mode c = SmMixed ->
     exists c', cu_get (E:=unit) c k = Ok (c', cu_content c k) /\ moved c c').
Proof.
  intros Hi. split_and!.
  - intros Hmode. by apply seek_post_same; [|apply cu_seek_spec|apply cu_near_seek_spec].
  - intros Hmode.
    by apply seek_prev_post_same; [|apply cu_seek_for_prev_spec|apply cu_near_seek_for_prev_spec].
  - by apply cu_get_spec.
Qed.
End Props.

Definition cursor_tree : gmap bytes bytes := list_to_map [([1], [10]); ([3], [30]); ([5], [50])].
Definition cursor_example : Cursor BTreeEngineIterator :=
  Cursor_new (it_seek [4] (BTreeEngineIterator_new cursor_tree None None)) SmMixed false.

(** From the entry at 5, the first entry at or above 2 is 3. *)
Lemma near_seek_equivalent_witness :
  cu_pos cursor_example = Some ([5], [50])
  /\ exists c1 c2 b, cu_seek (E:=unit) cursor_example [2] = Ok (c1, b)
       /\ cu_near_seek (E:=unit) cursor_example [2] = Ok (c2, b) /\ (b, cu_pos c2) = (true, Some ([3], [30])).
Proof.
  split; [vm_compute; reflexivity|].
  assert (cursor_inv cursor_example) as Hi.
  { apply cursor_inv_new. apply it_seek_ok. apply bi_new_ok. }
  destruct (near_seek_equivalent cursor_example [2] Hi) as (Hn & _ & _).
  destruct (Hn ltac:(discriminate)) as (c1 & c2 & b & Hs & Hns & _).
  exists c1, c2, b. split; [exact Hs|]. split; [exact Hns|].
  vm_compute in Hns. injection Hns as <- <-. vm_compute. reflexivity.
Defined.

(** The bounds a cursor is built with are encoded keys ([CursorBuilder.build]
    passes [into_encoded]), but [BTreeEngineIterator] encodes them again: on the
    in-memory engine, a scan from a key on misses the versions of that key, and
    a scan up to a key includes them. *)
Lemma btree_bounds_reencoded :
  let key := Key_from_raw [107] in
  let tree := {[ Key_append_ts key 10 := [1] ]} in
  let from_key := Cursor_new (BTreeEngineIterator_new tree (Some key) None) SmForward false in
  let to_key := Cursor_new (BTreeEngineIterator_new tree None (Some key)) SmForward false in
  (bytes_leb key (Key_append_ts key 10), bytes_ltb (Key_append_ts key 10) key) = (true, false)
  /\ (match cu_seek (E:=unit) from_key key with Ok (_, b) => Some b | _ => None end) = Some false
  /\ (match cu_seek (E:=unit) to_key key with Ok (_, b) => Some b | _ => None end) = Some true.
Proof. vm_compute. done. Qed.
