(* ===== verification/Reader.v ===== *)
(** * MVCC errors and the MVCC reader

    Models [src/storage/mvcc/mod.rs] (errors), [src/storage/mvcc/reader/mod.rs]
    (commit records) and [src/storage/mvcc/reader/reader.rs]
    ([SnapshotReader], [MvccReader]).  A reader is the data its methods depend
    on; cursors are caches of positions and statistics are counters, so neither
    is state here ([cursor.near_seek] is [seek_cf], as [Cursor.near_seek_equivalent] justifies).  Loops carry as fuel the
    number of entries of the column family plus two; the theorems show that it
    is enough.

    Theorems: what [seek_write], [get_write_with_commit_ts] and
    [get_txn_commit_record] return on a well-formed store, stated on the map
    from commit timestamps to write records of a key. *)

From Stdlib Require Import ZArith Lia.
From stdpp Require Import base numbers list gmap.
From S2P Require Import Prelude Number Bytes Types Write Lock ConcurrencyManager Engine.

Open Scope Z_scope.

(** ** Errors *)

Inductive kv_error : Type := StaleCommand | EpochNotMatch | FlashbackInProgress.

Inductive PessimisticLockNotFoundReason : Type :=
| LockTsMismatch | LockMissingAmendFail | LockForUpdateTsMismatch | NonLockKeyConflict
| FailpointInjected.

Inductive mvcc_error : Type :=
| MvKv (e : kv_error)
| MvIo (k : io_error_kind)
| MvCodec (e : codec_error)
| MvKeyIsLocked (info : LockInfo)
| MvBadFormat (e : txn_types_error)
| MvCommitted (start_ts commit_ts : TimeStamp) (key : bytes)
| MvPessimisticLockRolledBack (start_ts : TimeStamp) (key : bytes)
| MvTxnLockNotFound (start_ts commit_ts : TimeStamp) (key : bytes)
| MvTxnNotFound (start_ts : TimeStamp) (key : bytes)
| MvLockTypeNotMatch (start_ts : TimeStamp) (key : bytes) (pessimistic : bool)
| MvWriteConflict (start_ts conflict_start_ts conflict_commit_ts : TimeStamp)
    (key primary : bytes) (reason : WriteConflictReason)
| MvAlreadyExist (key : bytes) (existing_start_ts : TimeStamp)
| MvDefaultNotFound (key : bytes)
| MvCommitTsExpired (start_ts commit_ts : TimeStamp) (key : bytes) (min_commit_ts : TimeStamp)
| MvKeyVersion
| MvPessimisticLockNotFound (start_ts : TimeStamp) (key : bytes)
    (reason : PessimisticLockNotFoundReason)
| MvCommitTsTooLarge (start_ts min_commit_ts max_commit_ts : TimeStamp)
| MvAssertionFailed (start_ts : TimeStamp) (key : bytes) (assertion : Assertion)
    (existing_start_ts existing_commit_ts : TimeStamp)
| MvLockIfExistsFailed (start_ts : TimeStamp) (key : bytes)
| MvPrimaryMismatch (info : LockInfo)
| MvGenerationOutOfOrder (generation : u64) (key : Key) (lock : Lock)
| MvInvalidMaxTsUpdate (e : InvalidMaxTsUpdate)
| MvOther.

Abbreviation mvcc_res := (res mvcc_error).

(** [impl From<txn_types::Error> for ErrorInner]. *)
Definition mvcc_error_from (e : txn_types_error) : mvcc_error :=
  match e with
  | TtIo k => MvIo k
  | TtCodec e => MvCodec e
  | BadFormatLock | BadFormatWrite => MvBadFormat e
  | TtKeyIsLocked info => MvKeyIsLocked info
  | TtWriteConflict a b c k p r => MvWriteConflict a b c k p r
  end.

(** With [panic_when_unexpected_key_or_data] off, its default. *)
Definition default_not_found_error (key : bytes) : mvcc_error := MvDefaultNotFound key.

(** ** Commit records *)

Record OverlappedWrite : Type := { ow_write : Write; ow_gc_fence : TimeStamp }.

Inductive TxnCommitRecord : Type :=
| TcrNone (overlapped_write : option OverlappedWrite)
| TcrSingleRecord (commit_ts : TimeStamp) (write : Write)
| TcrOverlappedRollback (commit_ts : TimeStamp).

Definition TxnCommitRecord_exist (r : TxnCommitRecord) : bool :=
  match r with TcrNone _ => false | TcrSingleRecord _ _ | TcrOverlappedRollback _ => true end.

Definition TxnCommitRecord_info (r : TxnCommitRecord) : option (TimeStamp * WriteType) :=
  match r with
  | TcrNone _ => None
  | TcrSingleRecord commit_ts write => Some (commit_ts, w_write_type write)
  | TcrOverlappedRollback commit_ts => Some (commit_ts, WtRollback)
  end.

Definition TxnCommitRecord_unwrap_single_record {E} (r : TxnCommitRecord)
    : res E (TimeStamp * WriteType) :=
  match r with TcrSingleRecord commit_ts write => Ok (commit_ts, w_write_type write) | _ => Panic end.

Definition TxnCommitRecord_unwrap_none {E} (r : TxnCommitRecord) : res E (option OverlappedWrite) :=
  match r with TcrNone overlapped_write => Ok overlapped_write | _ => Panic end.

(** ** Readers *)

Record SnapshotReader (Snap : Type) : Type := {
  r_snapshot : Snap;
  r_start_ts : TimeStamp;
  r_term : u64;
  r_version : u64;
  r_allow_in_flashback : bool
}.
Arguments r_snapshot {Snap} _.
Arguments r_start_ts {Snap} _.
Arguments r_term {Snap} _.
Arguments r_version {Snap} _.
Arguments r_allow_in_flashback {Snap} _.

Definition SnapshotReader_new {Snap} (start_ts : TimeStamp) (snapshot : Snap) : SnapshotReader Snap :=
  {| r_snapshot := snapshot; r_start_ts := start_ts; r_term := 0; r_version := 0;
     r_allow_in_flashback := false |}.

Section Reader.
Context {Snap : Type} `{EngineSnapshot Snap}.
Implicit Types r : SnapshotReader Snap.

Definition get_value r (key : Key) (start_ts : TimeStamp) : mvcc_res (option Value) :=
  Ok (get_cf (r_snapshot r) CF_DEFAULT (Key_append_ts key start_ts)).

Definition load_data r (key : Key) (write : Write) : mvcc_res Value :=
  _ ← assert_ (bool_decide (w_write_type write = WtPut));
  match w_short_value write with
  | Some val => Ok val
  | None =>
      let start_ts := w_start_ts write in
      val ← get_value r key start_ts;
      match val with
      | Some val => Ok val
      | None => Err (default_not_found_error (Key_append_ts key start_ts))
      end
  end.

Definition check_term_version_status r (locks : PeerPessimisticLocks) : mvcc_res unit :=
  if (negb (r_term r =? 0) && negb (pp_term locks =? r_term r))%bool then Err (MvKv StaleCommand)
  else if (negb (r_version r =? 0) && negb (pp_version locks =? r_version r))%bool
  then Err (MvKv EpochNotMatch)
  else if (bool_decide (pp_status locks = LsIsInFlashback) && negb (r_allow_in_flashback r))%bool
  then Err (MvKv FlashbackInProgress)
  else Ok tt.

Definition load_in_memory_pessimistic_lock r (key : Key) : mvcc_res (option Lock) :=
  match txn_ext (r_snapshot r) with
  | Some locks =>
      _ ← check_term_version_status r locks;
      Ok (option_map (fun p => PessimisticLock_to_lock (fst p)) (pp_map locks !! key))
  | None => Ok None
  end.

Definition load_lock r (key : Key) : mvcc_res (option Lock) :=
  mem ← load_in_memory_pessimistic_lock r key;
  match mem with
  | Some pessimistic_lock => Ok (Some pessimistic_lock)
  | None =>
      match get_cf (r_snapshot r) CF_LOCK key with
      | Some v => lock ← map_err mvcc_error_from (Lock_parse v); Ok (Some lock)
      | None => Ok None
      end
  end.

Definition seek_write r (key : Key) (ts : TimeStamp) : mvcc_res (option (TimeStamp * Write)) :=
  match seek_cf (r_snapshot r) CF_WRITE (Key_append_ts key ts) with
  | None => Ok None
  | Some (write_key, value) =>
      commit_ts ← map_err MvCodec (Key_decode_ts_from write_key);
      if negb (Key_is_user_key_eq write_key key) then Ok None
      else
        write ← map_err mvcc_error_from (WriteRef_parse value);
        Ok (Some (commit_ts, WriteRef_to_owned write))
  end.

(** The loop of [get_write_with_commit_ts]: [seek_res] is the current record. *)
Fixpoint get_write_loop r (fuel : nat) (key : Key) (ts : TimeStamp)
    (gc_fence_limit : option TimeStamp) (seek_res : option (TimeStamp * Write))
    : mvcc_res (option (Write * TimeStamp)) :=
  match fuel with
  | O => Panic
  | S fuel' =>
      match seek_res with
      | None => Ok None
      | Some (commit_ts, write) =>
          let fence_ok :=
            match gc_fence_limit with
            | Some limit => WriteRef_check_gc_fence_as_latest_version write limit
            | None => true
            end in
          if negb fence_ok then Ok None
          else
            let step_back :=
              if TimeStamp_is_zero ts then Ok None
              else
                ts ← TimeStamp_prev commit_ts;
                seek_res ← seek_write r key ts;
                get_write_loop r fuel' key ts gc_fence_limit seek_res in
            match w_write_type write with
            | WtPut => Ok (Some (write, commit_ts))
            | WtDelete => Ok None
            | WtLock | WtRollback =>
                match w_last_change write with
                | LcNotExist => Ok None
                | LcExist last_change_ts versions =>
                    if SEEK_BOUND <=? versions then
                      match get_cf (r_snapshot r) CF_WRITE (Key_append_ts key last_change_ts) with
                      | None => Ok None
                      | Some value =>
                          write ← map_err mvcc_error_from (WriteRef_parse value);
                          _ ← assert_ (bool_decide (w_write_type write = WtPut)
                                       || bool_decide (w_write_type write = WtDelete));
                          get_write_loop r fuel' key ts gc_fence_limit
                            (Some (last_change_ts, WriteRef_to_owned write))
                      end
                    else step_back
                | LcUnknown => step_back
                end
            end
      end
  end.

Definition read_fuel r : nat := (cf_len (r_snapshot r) CF_WRITE + 2)%nat.

Definition get_write_with_commit_ts r (key : Key) (ts : TimeStamp)
    (gc_fence_limit : option TimeStamp) : mvcc_res (option (Write * TimeStamp)) :=
  seek_res ← seek_write r key ts;
  get_write_loop r (read_fuel r) key ts gc_fence_limit seek_res.

Definition get_write r (key : Key) (ts : TimeStamp) (gc_fence_limit : option TimeStamp)
    : mvcc_res (option Write) :=
  w ← get_write_with_commit_ts r key ts gc_fence_limit; Ok (option_map fst w).

Definition MvccReader_get r (key : Key) (ts : TimeStamp) (gc_fence_limit : option TimeStamp)
    : mvcc_res (option Value) :=
  w ← get_write r key ts gc_fence_limit;
  match w with
  | Some write => v ← load_data r key write; Ok (Some v)
  | None => Ok None
  end.

(** The [SnapshotReader] wrappers pass the start timestamp as fence limit. *)
Definition SnapshotReader_get_write r (key : Key) (ts : TimeStamp) : mvcc_res (option Write) :=
  get_write r key ts (Some (r_start_ts r)).
Definition SnapshotReader_get r (key : Key) (ts : TimeStamp) : mvcc_res (option Value) :=
  MvccReader_get r key ts (Some (r_start_ts r)).
Definition key_exist r (key : Key) (ts : TimeStamp) : mvcc_res bool :=
  w ← get_write r key ts (Some (r_start_ts r)); Ok (bool_decide (is_Some w)).

Fixpoint get_txn_commit_record_loop r (fuel : nat) (key : Key) (start_ts seek_ts gc_fence : TimeStamp)
    : mvcc_res TxnCommitRecord :=
  match fuel with
  | O => Panic
  | S fuel' =>
      found ← seek_write r key seek_ts;
      match found with
      | None => Ok (TcrNone None)
      | Some (commit_ts, write) =>
          if w_start_ts write =? start_ts then Ok (TcrSingleRecord commit_ts write)
          else if commit_ts =? start_ts then
            if w_has_overlapped_rollback write then Ok (TcrOverlappedRollback commit_ts)
            else Ok (TcrNone (Some {| ow_write := write; ow_gc_fence := gc_fence |}))
          else
            let gc_fence :=
              if (bool_decide (w_write_type write = WtPut)
                  || bool_decide (w_write_type write = WtDelete))%bool
              then commit_ts else gc_fence in
            if commit_ts <? start_ts then Ok (TcrNone None)
            else
              seek_ts ← TimeStamp_prev commit_ts;
              get_txn_commit_record_loop r fuel' key start_ts seek_ts gc_fence
      end
  end.

Definition MvccReader_get_txn_commit_record r (key : Key) (start_ts : TimeStamp)
    : mvcc_res TxnCommitRecord :=
  get_txn_commit_record_loop r (read_fuel r) key start_ts TimeStamp_max 0.
Definition get_txn_commit_record r (key : Key) : mvcc_res TxnCommitRecord :=
  MvccReader_get_txn_commit_record r key (r_start_ts r).

Definition get_old_value r (key : Key) (start_ts : TimeStamp) (prev_write_loaded : bool)
    (prev_write : option Write) : mvcc_res OldValue :=
  let of_write w :=
    match w_short_value w with
    | Some value => OvValue value
    | None => OvValueTimeStamp (w_start_ts w)
    end in
  let search :=
    w ← get_write r key start_ts (Some start_ts);
    Ok (match w with Some write => of_write write | None => OvNone end) in
  match prev_write with
  | None => if prev_write_loaded then Ok OvNone else search
  | Some w =>
      if negb (WriteRef_check_gc_fence_as_latest_version w start_ts) then Ok OvNone
      else
        match w_write_type w with
        | WtPut => Ok (of_write w)
        | WtDelete => Ok OvNone
        | WtRollback | WtLock => search
        end
  end.
End Reader.

(** ** The view of a key: its write records by commit timestamp *)

Section View.
Context {Snap : Type} `{EngineSnapshot Snap}.

(** Every entry of the write column family is a version of an encoded key with
    a record the program writes; likewise for locks and values. *)
Definition wf_write_cf (s : Snap) : Prop :=
  forall k v, get_cf s CF_WRITE k = Some v ->
  exists raw ts w, bytes_ok raw /\ u64_ok ts /\ k = Key_append_ts (Key_from_raw raw) ts
    /\ write_ok w /\ v = WriteRef_to_bytes w.

Definition wf_lock_cf (s : Snap) : Prop :=
  forall k v, get_cf s CF_LOCK k = Some v ->
  exists raw l, bytes_ok raw /\ k = Key_from_raw raw /\ lock_ok l /\ v = Lock_to_bytes l.

Definition write_at (s : Snap) (key : Key) (ts : TimeStamp) : option Write :=
  if decide (u64_ok ts) then
    match get_cf s CF_WRITE (Key_append_ts key ts) with
    | Some v => match WriteRef_parse v with Ok w => Some w | _ => None end
    | None => None
    end
  else None.

Definition lock_at (s : Snap) (key : Key) : option Lock :=
  match get_cf s CF_LOCK key with
  | Some v => match Lock_parse v with Ok l => Some l | _ => None end
  | None => None
  end.
End View.

(** *** History of a key

    [newest W ts o]: [o] is the newest record at or below [ts];
    [newest_change]: the newest one that changes data. *)

Definition is_change (w : Write) : bool :=
  match w_write_type w with WtPut | WtDelete => true | WtLock | WtRollback => false end.

Definition newest (W : TimeStamp -> option Write) (ts : TimeStamp)
    (o : option (TimeStamp * Write)) : Prop :=
  match o with
  | Some (c, w) => c <= ts /\ W c = Some w /\ forall t, c < t <= ts -> W t = None
  | None => forall t, t <= ts -> W t = None
  end.

Definition newest_change (W : TimeStamp -> option Write) (ts : TimeStamp)
    (o : option (TimeStamp * Write)) : Prop :=
  match o with
  | Some (c, w) => c <= ts /\ W c = Some w /\ is_change w = true
      /\ forall t w', c < t <= ts -> W t = Some w' -> is_change w' = false
  | None => forall t w', t <= ts -> W t = Some w' -> is_change w' = false
  end.

(** What a reader sees at a timestamp: the newest change if it is a put. *)
Definition visible (o : option (TimeStamp * Write)) : option (Write * TimeStamp) :=
  match o with
  | Some (c, w) => match w_write_type w with WtPut => Some (w, c) | _ => None end
  | None => None
  end.

(** The fence check a reader makes on the record it returns, and its result. *)
Definition fence_ok (limit : option TimeStamp) (w : Write) : bool :=
  match limit with
  | Some limit => WriteRef_check_gc_fence_as_latest_version w limit
  | None => true
  end.

Definition fenced (limit : option TimeStamp) (o : option (TimeStamp * Write))
    : option (Write * TimeStamp) :=
  match o with
  | Some (_, w) => if fence_ok limit w then visible o else None
  | None => None
  end.

Lemma fenced_invisible limit o : visible o = None -> fenced limit o = None.
Proof. destruct o as [[c w]|]; [|done]. cbn [fenced]. intros ->. by destruct (fence_ok limit w). Qed.

(** Where the last-change hint of a record at [c] may point: the newest change
    below it, or, once that has been collected, a place without record below
    which nothing changes. *)
Definition last_change_valid (W : TimeStamp -> option Write) (c : TimeStamp) (lc : LastChange)
    : Prop :=
  match lc with
  | LcUnknown => True
  | LcNotExist => exists o, newest_change W (c - 1) o /\ visible o = None
  | LcExist l _ =>
      u64_ok l /\ ((exists w, newest_change W (c - 1) (Some (l, w)))
       \/ (l < c /\ W l = None /\ newest_change W (c - 1) None))
  end.

Record history_ok (W : TimeStamp -> option Write) : Prop := {
  history_pos : forall t w, W t = Some w -> 0 < t < 2 ^ 64;
  history_last_change : forall c w, W c = Some w -> is_change w = false ->
    last_change_valid W c (w_last_change w);
  history_fence : forall c w, W c = Some w -> is_change w = false ->
    match w_gc_fence w with
    | Some f => f = 0 \/ (c < f /\ exists w', W f = Some w' /\ is_change w' = true)
    | None => True
    end
}.

(** The same above a floor [b]: what a reader needs that stops at the change at
    [b] at the latest ([floor]; no floor when [b] is zero). *)
Record history_from (b : TimeStamp) (W : TimeStamp -> option Write) : Prop := {
  from_pos : forall t w, W t = Some w -> 0 < t < 2 ^ 64;
  from_last_change : forall c w, b < c -> W c = Some w -> is_change w = false ->
    last_change_valid W c (w_last_change w);
  from_fence : forall c w, b < c -> W c = Some w -> is_change w = false ->
    match w_gc_fence w with
    | Some f => f = 0 \/ (c < f /\ exists w', W f = Some w' /\ is_change w' = true)
    | None => True
    end
}.

Definition floor (W : TimeStamp -> option Write) (b ts : TimeStamp) : Prop :=
  b = 0 \/ b <= ts /\ exists w, W b = Some w /\ is_change w = true.

Lemma history_ok_from W : history_ok W -> history_from 0 W.
Proof. intros [Hp Hl Hf]. split; [done|intros c w _; apply Hl|intros c w _; apply Hf]. Qed.

Lemma floor_idle W b ts c w :
  history_from b W -> floor W b ts -> newest W ts (Some (c, w)) -> is_change w = false ->
  b < c /\ floor W b (c - 1).
Proof.
  intros Hh Hb (Hc & Hw & Hno) Hch. destruct Hb as [->|[Hle (wb & Hwb & Hchb)]].
  { split; [|by left]. by apply (from_pos 0 W Hh c w). }
  assert (b < c).
  { destruct (Z.lt_trichotomy b c) as [?|[->|?]]; [done|congruence|]. by rewrite Hno in Hwb by lia. }
  split; [done|]. right. split; [lia|]. eauto.
Qed.

(** The reader's fence limit reaches above the read timestamp only where
    nothing has changed. *)
Definition limit_quiet (W : TimeStamp -> option Write) (ts : TimeStamp) (limit : option TimeStamp)
    : Prop :=
  match limit with
  | Some lim => forall t w, ts < t <= lim -> W t = Some w -> is_change w = false
  | None => True
  end.

Lemma newest_change_unique W ts o o' :
  newest_change W ts o -> newest_change W ts o' -> o = o'.
Proof.
  destruct o as [[c w]|], o' as [[c' w']|]; cbn; try done.
  - intros (Hc & Hw & Hch & Hno) (Hc' & Hw' & Hch' & Hno').
    destruct (Z.lt_trichotomy c c') as [?|[->|?]]; [|congruence|].
    + specialize (Hno c' w'). rewrite Hno in Hch'; done || lia.
    + specialize (Hno' c w). rewrite Hno' in Hch; done || lia.
  - intros (Hc & Hw & Hch & _) Hno. rewrite (Hno c w) in Hch by done. done.
  - intros Hno (Hc & Hw & Hch & _). rewrite (Hno c' w') in Hch by done. done.
Qed.

Lemma newest_change_here W ts c w :
  newest W ts (Some (c, w)) -> is_change w = true -> newest_change W ts (Some (c, w)).
Proof.
  intros (Hc & Hw & Hno) Hch. repeat split; auto. intros t w' Ht Hw'. rewrite Hno in Hw'; done.
Qed.

Lemma newest_change_below W ts c w o :
  newest W ts (Some (c, w)) -> is_change w = false ->
  newest_change W (c - 1) o -> newest_change W ts o.
Proof.
  intros (Hc & Hw & Hno) Hch. destruct o as [[c' w']|]; cbn.
  - intros (Hc' & Hw' & Hch' & Hno'). repeat split; auto; [lia|]. intros t w'' Ht Hw''.
    destruct (Z.lt_trichotomy t c) as [?|[->|?]]; [apply (Hno' t); auto; lia|congruence|].
    rewrite Hno in Hw''; [done|lia].
  - intros Hno' t w' Ht Hw'.
    destruct (Z.lt_trichotomy t c) as [?|[->|?]]; [apply (Hno' t); auto; lia|congruence|].
    rewrite Hno in Hw'; [done|lia].
Qed.

Lemma newest_none_change W ts : newest W ts None -> newest_change W ts None.
Proof. intros Hno t w Ht Hw. rewrite Hno in Hw; done. Qed.

(** *** Histories before garbage collection

    Hints are exact, and a fence points to a change above the record. *)

Definition hint_ok (W : TimeStamp -> option Write) (ts : TimeStamp) (lc : LastChange) : Prop :=
  match lc with
  | LcUnknown => True
  | LcExist l _ => u64_ok l /\ exists w, newest_change W ts (Some (l, w))
  | LcNotExist => exists o, newest_change W ts o /\ visible o = None
  end.

Record key_history (W : TimeStamp -> option Write) : Prop := {
  kh_pos : forall t w, W t = Some w -> 0 < t < 2 ^ 64;
  kh_hint : forall c w, W c = Some w -> is_change w = false -> hint_ok W (c - 1) (w_last_change w);
  kh_fence : forall c w f, W c = Some w -> w_gc_fence w = Some f ->
    f = 0 \/ (c < f /\ exists w', W f = Some w' /\ is_change w' = true)
}.

Lemma key_history_ok W : key_history W -> history_ok W.
Proof.
  intros [Hp Hh Hf]. split; [done| |].
  - intros c w Hw Hch. specialize (Hh c w Hw Hch). destruct (w_last_change w); cbn in *; [done| |done].
    destruct Hh. auto.
  - intros c w Hw Hch. specialize (Hf c w). destruct (w_gc_fence w); auto.
Qed.

(** Fences do not hide the newest change. *)
Lemma fenced_visible W ts limit o :
  key_history W -> newest_change W ts o -> limit_quiet W ts limit -> fenced limit o = visible o.
Proof.
  intros Hh Hn Hq. destruct o as [[c w]|]; [|done]. cbn [fenced].
  destruct (fence_ok limit w) eqn:Hf; [done|]. exfalso.
  unfold fence_ok, WriteRef_check_gc_fence_as_latest_version in Hf.
  destruct limit as [lim|]; [|done]. destruct (w_gc_fence w) as [f|] eqn:Ef; [|done].
  destruct Hn as (Hc & Hw & _ & Hno).
  destruct (kh_fence W Hh c w f Hw Ef) as [->|(Hlt & w' & Hw' & Hch')]; [done|].
  destruct (negb (TimeStamp_is_zero f)), (Z.leb_spec f lim); try done.
  destruct (Z_le_gt_dec f ts).
  - by rewrite (Hno f w') in Hch' by done.
  - rewrite (Hq f w') in Hch'; [done|lia|done].
Qed.

(** *** The commit record of a transaction on a key

    [quiet_above W st lo]: no record above [lo] belongs to the transaction or
    lies at its start timestamp.  [fence_above]: the oldest change above a
    timestamp, zero when there is none. *)

Definition quiet_above (W : TimeStamp -> option Write) (st lo : TimeStamp) : Prop :=
  forall t w, lo < t -> W t = Some w -> w_start_ts w <> st /\ t <> st.

Definition fence_above (W : TimeStamp -> option Write) (lo fence : TimeStamp) : Prop :=
  (fence = 0 /\ forall t w, lo < t -> W t = Some w -> is_change w = false)
  \/ (lo < fence /\ (exists w, W fence = Some w /\ is_change w = true)
      /\ forall t w, lo < t < fence -> W t = Some w -> is_change w = false).

Definition commit_record_spec (W : TimeStamp -> option Write) (st : TimeStamp)
    (rec : TxnCommitRecord) : Prop :=
  match rec with
  | TcrSingleRecord c w => W c = Some w /\ w_start_ts w = st /\ quiet_above W st c
  | TcrOverlappedRollback c =>
      c = st /\ quiet_above W st st
      /\ exists w, W st = Some w /\ w_start_ts w <> st /\ w_has_overlapped_rollback w = true
  | TcrNone (Some ow) =>
      quiet_above W st st /\ W st = Some (ow_write ow) /\ w_start_ts (ow_write ow) <> st
      /\ w_has_overlapped_rollback (ow_write ow) = false /\ fence_above W st (ow_gc_fence ow)
  | TcrNone None => quiet_above W st (st - 1)
  end.

Lemma quiet_above_step W st ts c w :
  newest W ts (Some (c, w)) -> quiet_above W st ts -> w_start_ts w <> st -> c <> st ->
  quiet_above W st (c - 1).
Proof.
  intros (Hc & Hw & Hno) Hq Hst Hne t wt Ht Hwt.
  destruct (Z.lt_trichotomy t c) as [?|[->|?]]; [lia|by simplify_eq|].
  destruct (Z_le_gt_dec t ts); [by rewrite Hno in Hwt|]. apply (Hq t wt); [lia|done].
Qed.

Lemma quiet_above_newest W st ts o :
  newest W ts o -> quiet_above W st ts ->
  quiet_above W st (match o with Some (c, _) => c | None => st - 1 end).
Proof.
  intros Hn Hq t w Ht Hw. destruct (Z_le_gt_dec t ts); [|apply (Hq t w); [lia|done]].
  destruct o as [[c w']|]; [destruct Hn as (_ & _ & Hno)|rename Hn into Hno]; by rewrite Hno in Hw by lia.
Qed.

Lemma fence_above_newest W ts c w fence :
  newest W ts (Some (c, w)) -> fence_above W ts fence -> fence_above W c fence.
Proof.
  intros (Hc & Hw & Hno) Hf.
  assert (forall t wt, c < t -> W t = Some wt -> ts < t) as Hgt.
  { intros t wt Ht Hwt. destruct (Z_le_gt_dec t ts); [by rewrite Hno in Hwt|lia]. }
  destruct Hf as [[-> Hf]|(Hlt & Hw' & Hf)]; [left; eauto|right]. split; [lia|]. split; [done|].
  intros t wt Ht Hwt. apply (Hf t wt); [|done]. split; [apply (Hgt t wt); done || lia|lia].
Qed.

Lemma fence_above_step W c w fence :
  W c = Some w -> fence_above W c fence ->
  fence_above W (c - 1) (if is_change w then c else fence).
Proof.
  intros Hw Hf. destruct (is_change w) eqn:Hch.
  { right. split; [lia|]. split; [eauto|]. intros; lia. }
  assert (forall t wt, c - 1 < t -> W t = Some wt -> t = c /\ wt = w \/ c < t) as Hc.
  { intros t wt Ht Hwt. destruct (decide (t = c)) as [->|]; [left; by simplify_eq|right; lia]. }
  destruct Hf as [[-> Hf]|(Hlt & Hw' & Hf)]; [left; split; [done|]|right; split; [lia|split; [done|]]];
    intros t wt Ht Hwt; (destruct (Hc t wt) as [[-> ->]|?]; [lia|done|done|]);
    apply (Hf t wt); done || lia.
Qed.

Lemma Key_append_ts_leb a b t t' :
  bytes_ok a -> bytes_ok b -> u64_ok t -> u64_ok t' ->
  bytes_leb (Key_append_ts (Key_from_raw a) t) (Key_append_ts (Key_from_raw b) t') = true
  <-> bytes_cmp a b = Lt \/ a = b /\ t' <= t.
Proof.
  intros Ha Hb Ht Ht'. unfold bytes_leb. rewrite Key_append_ts_cmp by done.
  rewrite <-(bytes_cmp_eq a b). destruct (bytes_cmp a b); cbn; [|naive_solver..].
  destruct (Z.compare_spec t' t); naive_solver lia.
Qed.

Section ReaderSpec.
Context {Snap : Type} `{EngineSnapshotLaws Snap}.
Context (r : SnapshotReader Snap) (raw : bytes).
Hypothesis (wf : wf_write_cf (r_snapshot r)) (raw_ok : bytes_ok raw).
Let key := Key_from_raw raw.
Let W := write_at (r_snapshot r) key.

Lemma reader_key_ok : bytes_ok key.
Proof. by apply Key_from_raw_ok. Qed.

Lemma write_at_range t w : W t = Some w -> u64_ok t.
Proof. unfold W, write_at. by destruct (decide (u64_ok t)). Qed.

Lemma write_at_get t v :
  u64_ok t -> get_cf (r_snapshot r) CF_WRITE (Key_append_ts key t) = Some v ->
  exists w, write_ok w /\ v = WriteRef_to_bytes w /\ W t = Some w.
Proof.
  intros Ht Hv. destruct (wf _ _ Hv) as (raw' & ts & w & _ & _ & _ & Hw & ->).
  exists w. unfold W, write_at. rewrite decide_True, Hv by done. by rewrite write_roundtrip.
Qed.

Lemma write_at_some t w :
  W t = Some w ->
  u64_ok t /\ write_ok w
  /\ get_cf (r_snapshot r) CF_WRITE (Key_append_ts key t) = Some (WriteRef_to_bytes w).
Proof.
  intros Hw. pose proof (write_at_range _ _ Hw) as Ht. split; [done|].
  destruct (get_cf (r_snapshot r) CF_WRITE (Key_append_ts key t)) as [v|] eqn:Hv.
  - destruct (write_at_get t v Ht Hv) as (w' & Hok & -> & Hw'). by simplify_eq.
  - unfold W, write_at in Hw. by rewrite decide_True, Hv in Hw.
Qed.

Lemma write_at_none t :
  W t = None -> u64_ok t -> get_cf (r_snapshot r) CF_WRITE (Key_append_ts key t) = None.
Proof.
  intros Hw Ht. destruct (get_cf _ _ _) as [v|] eqn:Hv; [|done].
  destruct (write_at_get t v Ht Hv) as (w' & _ & _ & Hw'). congruence.
Qed.

(** [seek_write] finds the newest record at or below the timestamp. *)
Lemma seek_write_spec ts :
  u64_ok ts ->
  exists o, seek_write r key ts = Ok o /\ newest W ts o
    /\ match o with Some (_, w) => write_ok w | None => True end.
Proof.
  intros Hts. unfold seek_write.
  pose proof (seek_cf_spec (r_snapshot r) CF_WRITE (Key_append_ts key ts)) as Hseek.
  assert (forall t w, W t = Some w -> t <= ts ->
    is_Some (get_cf (r_snapshot r) CF_WRITE (Key_append_ts key t))
    /\ bytes_leb (Key_append_ts key ts) (Key_append_ts key t) = true) as Hcand.
  { intros t w Hw Ht. destruct (write_at_some t w Hw) as (Htok & _ & Hg).
    split; [eauto|]. apply Key_append_ts_leb; auto. }
  destruct (seek_cf (r_snapshot r) CF_WRITE (Key_append_ts key ts)) as [[wk v]|].
  - destruct Hseek as (Hget & Hle & Hmin).
    destruct (wf _ _ Hget) as (raw' & c & w & Hraw' & Hc & -> & Hw & ->).
    rewrite Key_decode_append by done. cbn [map_err mbind res_bind].
    destruct (Key_is_user_key_eq _ key) eqn:Heq.
    + rewrite Key_is_user_key_eq_append in Heq by auto using reader_key_ok with tikv.
      apply Key_from_raw_inj in Heq as ->; [|done..]. cbn [negb].
      rewrite write_roundtrip by done. cbn [map_err mbind res_bind].
      rewrite WriteRef_to_owned_id. exists (Some (c, w)). split; [done|]. split; [|done].
      unfold key in Hle. rewrite Key_append_ts_leb in Hle by done.
      destruct Hle as [Hlt|[_ Hle]]; [by rewrite bytes_cmp_refl in Hlt|].
      split; [done|]. destruct (write_at_get c _ Hc Hget) as (w' & Hw' & E & HW).
      apply WriteRef_to_bytes_inj in E as ->; [|done..]. split; [done|].
      intros t Ht. destruct (W t) as [wt|] eqn:Et; [|done]. exfalso.
      destruct (Hcand t wt Et) as [Hs Hl]; [lia|].
      specialize (Hmin _ Hs Hl). pose proof (write_at_range _ _ Et).
      unfold key in Hmin. rewrite Key_append_ts_leb in Hmin by done.
      destruct Hmin as [Hlt|[_ ?]]; [by rewrite bytes_cmp_refl in Hlt|lia].
    + exists None. split; [done|]. split; [|done]. intros t Ht.
      destruct (W t) as [wt|] eqn:Et; [|done]. exfalso.
      destruct (Hcand t wt Et Ht) as [Hs Hl]. specialize (Hmin _ Hs Hl).
      pose proof (write_at_range _ _ Et).
      unfold key in Hmin, Hle. rewrite Key_append_ts_leb in Hmin, Hle by done.
      assert (raw' = raw) as ->.
      { destruct Hmin as [Hlt|[? _]]; [|done]. destruct Hle as [Hlt'|[? _]]; [|done].
        rewrite (bytes_cmp_antisym raw raw'), Hlt' in Hlt. done. }
      pose proof (proj2 (Key_is_user_key_eq_append key c key reader_key_ok reader_key_ok Hc) eq_refl).
      unfold key in *. congruence.
  - exists None. split; [done|]. split; [|done]. intros t Ht.
    destruct (W t) as [wt|] eqn:Et; [|done]. destruct (Hcand t wt Et Ht) as [Hs Hl].
    rewrite Hseek in Hl; done.
Qed.

(** Versions already visited, and the fuel left. *)
Definition enough_fuel (fuel : nat) (ts : TimeStamp) : Prop :=
  exists vis, NoDup vis /\ (forall t, t ∈ vis -> ts < t /\ is_Some (W t))
    /\ (cf_len (r_snapshot r) CF_WRITE + 2 <= fuel + length vis)%nat.

Lemma enough_fuel_start ts : enough_fuel (read_fuel r) ts.
Proof. exists []. split; [constructor|]. split; [intros ? []%not_elem_of_nil|]. unfold read_fuel. cbn. lia. Qed.

Lemma versions_bounded vis :
  NoDup vis -> (forall t, t ∈ vis -> is_Some (W t)) ->
  (length vis <= cf_len (r_snapshot r) CF_WRITE)%nat.
Proof.
  intros Hnd Hin. rewrite <-(length_map (Key_append_ts key)). apply cf_len_spec.
  - apply NoDup_fmap_2_strong; [|done]. intros t t' Ht Ht' E.
    destruct (Hin t Ht) as [w Hw]. destruct (Hin t' Ht') as [w' Hw'].
    eapply Key_append_ts_inj; [by eapply write_at_range..|done].
  - intros k Hk. apply list_elem_of_fmap in Hk as (t & -> & Ht). destruct (Hin t Ht) as [w Hw].
    apply write_at_some in Hw as (_ & _ & ->). eauto.
Qed.

Lemma enough_fuel_pos fuel ts : enough_fuel fuel ts -> (2 <= fuel)%nat.
Proof.
  intros (vis & Hnd & Hin & Hf).
  assert (length vis <= cf_len (r_snapshot r) CF_WRITE)%nat; [|lia].
  apply versions_bounded; [done|]. intros t Ht. by apply Hin.
Qed.

Lemma enough_fuel_step fuel ts c w :
  enough_fuel (S fuel) ts -> c <= ts -> W c = Some w -> enough_fuel fuel (c - 1).
Proof.
  intros (vis & Hnd & Hin & Hf) Hc Hw. exists (c :: vis). split; [|split].
  - constructor; [|done]. intros Hcin. apply Hin in Hcin. lia.
  - intros t [->|Ht]%elem_of_cons; [split; [lia|eauto]|]. apply Hin in Ht as [? ?].
    split; [lia|done].
  - cbn. lia.
Qed.
(** *** [get_write_with_commit_ts] *)

Lemma get_write_loop_change fuel ts limit c w :
  is_change w = true -> (1 <= fuel)%nat ->
  get_write_loop r fuel key ts limit (Some (c, w)) = Ok (fenced limit (Some (c, w))).
Proof.
  intros Hch Hf. destruct fuel as [|fuel]; [lia|]. cbn [get_write_loop fenced].
  change (match limit with
          | Some limit => WriteRef_check_gc_fence_as_latest_version w limit
          | None => true
          end) with (fence_ok limit w).
  destruct (fence_ok limit w); cbn [negb]; [|done]. unfold is_change in Hch. cbn [visible].
  by destruct (w_write_type w).
Qed.

(** The two ways the loop goes on from a record that changes nothing: to the
    record its hint points to, or to the next older record. *)
Definition get_write_jump (fuel : nat) (ts : TimeStamp) (limit : option TimeStamp) (l : TimeStamp)
    : mvcc_res (option (Write * TimeStamp)) :=
  match get_cf (r_snapshot r) CF_WRITE (Key_append_ts key l) with
  | None => Ok None
  | Some value =>
      write ← map_err mvcc_error_from (WriteRef_parse value);
      _ ← assert_ (bool_decide (w_write_type write = WtPut)
                   || bool_decide (w_write_type write = WtDelete));
      get_write_loop r fuel key ts limit (Some (l, WriteRef_to_owned write))
  end.

Definition get_write_step_back (fuel : nat) (ts : TimeStamp) (limit : option TimeStamp)
    (c : TimeStamp) : mvcc_res (option (Write * TimeStamp)) :=
  if TimeStamp_is_zero ts then Ok None
  else
    ts ← TimeStamp_prev c;
    seek_res ← seek_write r key ts;
    get_write_loop r fuel key ts limit seek_res.

Lemma get_write_loop_idle fuel ts limit c w :
  is_change w = false -> fence_ok limit w = true ->
  get_write_loop r (S fuel) key ts limit (Some (c, w))
  = match w_last_change w with
    | LcUnknown => get_write_step_back fuel ts limit c
    | LcExist l n =>
        if SEEK_BOUND <=? n then get_write_jump fuel ts limit l
        else get_write_step_back fuel ts limit c
    | LcNotExist => Ok None
    end.
Proof.
  intros Hch Hfe. cbn [get_write_loop]. change (match limit with
          | Some limit => WriteRef_check_gc_fence_as_latest_version w limit
          | None => true
          end) with (fence_ok limit w).
  rewrite Hfe. unfold is_change in Hch. by destruct (w_write_type w).
Qed.

Lemma get_write_jump_spec fuel ts limit c l n :
  (1 <= fuel)%nat -> last_change_valid W c (LcExist l n) ->
  exists o, newest_change W (c - 1) o /\ get_write_jump fuel ts limit l = Ok (fenced limit o).
Proof.
  intros Hf [Hl [[w Hn]|(_ & Hnone & Hn)]]; unfold get_write_jump.
  - exists (Some (l, w)). split; [done|]. destruct Hn as (_ & Hw & Hch & _).
    destruct (write_at_some l w Hw) as (_ & Hok & ->). rewrite write_roundtrip by done.
    cbn [map_err mbind res_bind].
    assert (bool_decide (w_write_type w = WtPut) || bool_decide (w_write_type w = WtDelete) = true)%bool
      as -> by (unfold is_change in Hch; by destruct (w_write_type w)).
    cbn [assert_]. rewrite WriteRef_to_owned_id. by apply get_write_loop_change.
  - exists None. split; [done|]. by rewrite write_at_none.
Qed.

Lemma fence_ok_idle limit b c w :
  history_from b W -> b < c -> W c = Some w -> is_change w = false -> limit_quiet W c limit ->
  fence_ok limit w = true.
Proof.
  intros Hh Hb Hw Hch Hq. unfold fence_ok, WriteRef_check_gc_fence_as_latest_version.
  destruct limit as [lim|]; [|done]. pose proof (from_fence b W Hh c w Hb Hw Hch) as Hf.
  destruct (w_gc_fence w) as [f|]; [|done]. destruct Hf as [->|(Hlt & w' & Hw' & Hch')]; [done|].
  destruct (negb (TimeStamp_is_zero f)), (Z.leb_spec f lim); try done.
  by rewrite (Hq f w' (conj Hlt ltac:(done)) Hw') in Hch'.
Qed.

Lemma limit_quiet_step ts limit c w :
  newest W ts (Some (c, w)) -> limit_quiet W ts limit -> limit_quiet W c limit.
Proof.
  intros (Hc & Hw & Hno) Hq. destruct limit as [lim|]; [|done]. intros t wt Ht Hwt.
  destruct (Z_le_gt_dec t ts); [by rewrite Hno in Hwt by lia|]. apply (Hq t wt); [lia|done].
Qed.

Lemma limit_quiet_pred limit c w :
  W c = Some w -> is_change w = false -> limit_quiet W c limit -> limit_quiet W (c - 1) limit.
Proof.
  intros Hw Hch Hq. destruct limit as [lim|]; [|done]. intros t wt Ht Hwt.
  destruct (decide (t = c)) as [->|]; [by simplify_eq|]. apply (Hq t wt); [lia|done].
Qed.

Lemma get_write_loop_spec limit b fuel : forall ts seek_res,
  history_from b W -> floor W b ts -> u64_ok ts -> limit_quiet W ts limit -> enough_fuel fuel ts ->
  newest W ts seek_res ->
  exists o, newest_change W ts o
    /\ get_write_loop r fuel key ts limit seek_res = Ok (fenced limit o).
Proof.
  induction fuel as [|fuel IH]; intros ts seek_res Hh Hb Hts Hq Hf Hn.
  { apply enough_fuel_pos in Hf. lia. }
  destruct seek_res as [[c w]|]; [|by exists None; split; [apply newest_none_change|]].
  destruct (is_change w) eqn:Hch.
  { exists (Some (c, w)). split; [by apply newest_change_here|].
    apply get_write_loop_change; [done|lia]. }
  pose proof Hn as (Hc & Hw & _). destruct (from_pos b W Hh c w Hw) as [Hc0 Hc64].
  destruct (floor_idle W b ts c w Hh Hb Hn Hch) as [Hbc Hb'].
  pose proof (limit_quiet_step ts limit c w Hn Hq) as Hqc.
  assert (2 <= S fuel)%nat as Hf2 by by eapply enough_fuel_pos.
  assert (exists o, newest_change W (c - 1) o
    /\ get_write_step_back fuel ts limit c = Ok (fenced limit o)) as Hback.
  { unfold get_write_step_back, TimeStamp_is_zero, TimeStamp_prev.
    destruct (Z.eqb_spec ts 0); [lia|]. destruct (Z.ltb_spec 0 c); [|lia].
    cbn [assert_ mbind res_bind].
    destruct (seek_write_spec (c - 1)) as (o' & -> & Hn' & _); [unfold u64_ok in *; lia|].
    cbn [mbind res_bind]. apply IH; auto; [unfold u64_ok in *; lia|by eapply limit_quiet_pred|].
    by eapply enough_fuel_step. }
  pose proof (from_last_change b W Hh c w Hbc Hw Hch) as Hlc.
  rewrite get_write_loop_idle by eauto using fence_ok_idle.
  destruct (w_last_change w) as [|l n|].
  - destruct Hback as (o & Ho & ->). eauto using newest_change_below.
  - destruct (SEEK_BOUND <=? n); [|destruct Hback as (o & Ho & ->); eauto using newest_change_below].
    destruct (get_write_jump_spec fuel ts limit c l n) as (o & Ho & ->); [lia|done|].
    eauto using newest_change_below.
  - destruct Hlc as (o & Ho & Hv). exists o. split; [by eapply newest_change_below|].
    by rewrite fenced_invisible.
Qed.

Lemma get_write_from_spec b ts limit :
  history_from b W -> floor W b ts -> u64_ok ts -> limit_quiet W ts limit ->
  exists o, newest_change W ts o
    /\ get_write_with_commit_ts r key ts limit = Ok (fenced limit o).
Proof.
  intros Hh Hb Hts Hq. unfold get_write_with_commit_ts.
  destruct (seek_write_spec ts Hts) as (sr & -> & Hn & _). cbn [mbind res_bind].
  apply (get_write_loop_spec limit b); auto using enough_fuel_start.
Qed.

Lemma get_write_with_commit_ts_spec ts limit :
  history_ok W -> u64_ok ts -> limit_quiet W ts limit ->
  exists o, newest_change W ts o
    /\ get_write_with_commit_ts r key ts limit = Ok (fenced limit o).
Proof. intros Hh. apply (get_write_from_spec 0); [by apply history_ok_from|by left]. Qed.

(** Whatever the history, a record that is found is in range. *)
Lemma get_write_loop_range limit fuel : forall ts sr w c,
  match sr with Some (c, w) => u64_ok c /\ write_ok w | None => True end ->
  get_write_loop r fuel key ts limit sr = Ok (Some (w, c)) -> u64_ok c /\ write_ok w.
Proof.
  induction fuel as [|fuel IH]; intros ts sr w c Hsr Hg; [done|].
  destruct sr as [[c' w']|]; [|done]. destruct Hsr as [Hc' Hw'].
  destruct (is_change w') eqn:Hch.
  { rewrite get_write_loop_change in Hg by (done || lia). unfold is_change in Hch. cbn in Hg.
    destruct (fence_ok limit w'); [|done]. by destruct (w_write_type w'); simplify_eq. }
  assert (get_write_step_back fuel ts limit c' = Ok (Some (w, c)) -> u64_ok c /\ write_ok w) as Hback.
  { unfold get_write_step_back, TimeStamp_prev. destruct (TimeStamp_is_zero ts); [done|].
    destruct (Z.ltb_spec 0 c'); [|done]. cbn [assert_ mbind res_bind].
    destruct (seek_write_spec (c' - 1)) as (o & -> & Hn & Ho); [unfold u64_ok in *; lia|].
    cbn [mbind res_bind]. apply IH. destruct o as [[co wo]|]; [|done].
    destruct Hn as (_ & Hw & _). split; [by eapply write_at_range|done]. }
  destruct (fence_ok limit w') eqn:Hf.
  - rewrite get_write_loop_idle in Hg by done.
    destruct (w_last_change w') as [|l n|] eqn:Hlc; [by apply Hback| |done].
    destruct (SEEK_BOUND <=? n); [|by apply Hback].
    unfold get_write_jump in Hg. destruct (get_cf _ _ _) as [v|] eqn:Hv; [|done].
    pose proof (write_ok_last_change _ Hw') as Hl. rewrite Hlc in Hl. cbn in Hl.
    assert (u64_ok l) as Hlok by (unfold u64_ok; lia).
    destruct (write_at_get l v Hlok Hv) as (wl & Hwl & -> & _).
    rewrite write_roundtrip in Hg by done. cbn [map_err mbind res_bind] in Hg.
    destruct (bool_decide _ || bool_decide _)%bool; [|done]. cbn [assert_] in Hg.
    rewrite WriteRef_to_owned_id in Hg. by apply (IH ts (Some (l, wl))).
  - cbn [get_write_loop] in Hg. change (match limit with
          | Some limit => WriteRef_check_gc_fence_as_latest_version w' limit
          | None => true
          end) with (fence_ok limit w') in Hg. by rewrite Hf in Hg.
Qed.

Lemma get_write_with_commit_ts_range ts limit w c :
  u64_ok ts -> get_write_with_commit_ts r key ts limit = Ok (Some (w, c)) -> u64_ok c /\ write_ok w.
Proof.
  intros Hts. unfold get_write_with_commit_ts. destruct (seek_write_spec ts Hts) as (o & -> & Hn & Ho).
  cbn [mbind res_bind]. apply get_write_loop_range. destruct o as [[co wo]|]; [|done].
  destruct Hn as (_ & Hw & _). split; [by eapply write_at_range|done].
Qed.

(** *** [get_txn_commit_record] *)

Lemma get_txn_commit_record_loop_spec st fuel : forall seek_ts gc_fence,
  u64_ok st -> u64_ok seek_ts -> st <= seek_ts -> enough_fuel fuel seek_ts ->
  quiet_above W st seek_ts -> fence_above W seek_ts gc_fence ->
  exists rec, get_txn_commit_record_loop r fuel key st seek_ts gc_fence = Ok rec
    /\ commit_record_spec W st rec.
Proof.
  induction fuel as [|fuel IH]; intros ts gc_fence Hst Hts Hle Hf Hq Hfe.
  { apply enough_fuel_pos in Hf. lia. }
  cbn [get_txn_commit_record_loop]. destruct (seek_write_spec ts Hts) as (sr & -> & Hn & _).
  cbn [mbind res_bind]. pose proof (quiet_above_newest W st ts sr Hn Hq) as Hqc.
  destruct sr as [[c w]|]; [|by eexists; split].
  pose proof Hn as (Hc & Hw & Hno). pose proof (fence_above_newest W ts c w gc_fence Hn Hfe) as Hfc.
  destruct (Z.eqb_spec (w_start_ts w) st) as [|Hne]; [by eexists; split|].
  destruct (Z.eqb_spec c st) as [->|Hcne].
  { destruct (w_has_overlapped_rollback w) eqn:Ho; eexists; (split; [done|]); cbn; eauto 10. }
  pose proof (quiet_above_step W st ts c w Hn Hq Hne Hcne) as Hq'.
  assert (bool_decide (w_write_type w = WtPut) || bool_decide (w_write_type w = WtDelete)
    = is_change w)%bool as -> by (unfold is_change; by destruct (w_write_type w)).
  pose proof (fence_above_step W c w gc_fence Hw Hfc) as Hf'.
  destruct (Z.ltb_spec c st).
  { eexists. split; [done|]. intros t wt Ht. apply Hq'. lia. }
  unfold TimeStamp_prev. destruct (Z.ltb_spec 0 c); [|unfold u64_ok in *; lia].
  cbn [assert_ mbind res_bind]. apply IH; auto; [unfold u64_ok in *; lia|lia|].
  by eapply enough_fuel_step.
Qed.

Lemma get_txn_commit_record_ok st :
  u64_ok st ->
  exists rec, MvccReader_get_txn_commit_record r key st = Ok rec /\ commit_record_spec W st rec.
Proof.
  intros Hst. assert (forall t w, W t = Some w -> t <= TimeStamp_max) as Hmax.
  { intros t w Hw%write_at_range. unfold u64_ok, TimeStamp_max, u64_max in *. lia. }
  apply get_txn_commit_record_loop_spec; auto using enough_fuel_start.
  - unfold u64_ok, TimeStamp_max, u64_max. lia.
  - unfold u64_ok, TimeStamp_max, u64_max in *. lia.
  - intros t w Ht Hw. apply Hmax in Hw. lia.
  - left. split; [done|]. intros t w Ht Hw. apply Hmax in Hw. lia.
Qed.

End ReaderSpec.
