(* ===== verification/Versions.v ===== *)
(** * Versions in a sorted column family

    How the entries of the write and lock column families lie in the order of
    the engine, for the readers that walk over them with cursors: a version of a
    key is the encoded key followed by its timestamp, newest first.  Stated for
    the data a cursor ranges over ([content]), all of it or a range of it. *)

From Stdlib Require Import ZArith Lia.
From stdpp Require Import base numbers list gmap.
From S2P Require Import Prelude Number Bytes Types Write Lock ConcurrencyManager Engine Cursor Reader.

Open Scope Z_scope.

Definition version_key (raw : bytes) (ts : TimeStamp) : Key := Key_append_ts (Key_from_raw raw) ts.

Definition bytes_lt (a b : bytes) : Prop := bytes_cmp a b = Lt.

(** ** The order of keys *)

Lemma bytes_ltb_lt a b : bytes_ltb a b = true <-> bytes_lt a b.
Proof. unfold bytes_ltb, bytes_lt. by destruct (bytes_cmp a b). Qed.

Lemma bytes_lt_trans a b c : bytes_lt a b -> bytes_lt b c -> bytes_lt a c.
Proof. apply bytes_cmp_lt_trans. Qed.

Lemma bytes_lt_irrefl a : ~ bytes_lt a a.
Proof. unfold bytes_lt. by rewrite bytes_cmp_refl. Qed.

Lemma bytes_lt_total a b : bytes_lt a b \/ a = b \/ bytes_lt b a.
Proof.
  unfold bytes_lt. rewrite (bytes_cmp_antisym a b). destruct (bytes_cmp a b) eqn:E; auto.
  right. left. by apply bytes_cmp_eq.
Qed.

Lemma version_key_leb a b t t' :
  bytes_ok a -> bytes_ok b -> u64_ok t -> u64_ok t' ->
  bytes_leb (version_key a t) (version_key b t') = true <-> bytes_lt a b \/ a = b /\ t' <= t.
Proof. apply Key_append_ts_leb. Qed.

Lemma version_key_ltb a b t t' :
  bytes_ok a -> bytes_ok b -> u64_ok t -> u64_ok t' ->
  bytes_ltb (version_key a t) (version_key b t') = true <-> bytes_lt a b \/ a = b /\ t' < t.
Proof.
  intros Ha Hb Ht Ht'. rewrite <-bytes_leb_gt, <-not_true_iff_false, version_key_leb by done.
  pose proof (bytes_lt_irrefl a). pose proof (bytes_lt_total a b) as [?|[->|?]].
  - split; [by left|]. intros _ [?|[-> _]]; [|done]. by apply (bytes_lt_irrefl a), (bytes_lt_trans a b a).
  - split.
    + intros Hn. right. split; [done|]. destruct (Z_lt_ge_dec t' t); [done|]. destruct Hn. right. split; [done|lia].
    + intros [?|[_ ?]] [?|[_ ?]]; done || lia.
  - split; [intros Hn; by destruct Hn; left|]. intros [?|[-> _]] _; [|done].
    by apply (bytes_lt_irrefl a), (bytes_lt_trans a b a).
Qed.

(** A user key lies just below its versions. *)
Lemma user_key_cmp a b t :
  bytes_ok a -> bytes_ok b -> u64_ok t ->
  bytes_cmp (Key_from_raw a) (version_key b t) = match bytes_cmp a b with Gt => Gt | _ => Lt end.
Proof.
  intros Ha Hb Ht. unfold version_key, Key_append_ts, Key_from_raw.
  rewrite <-(app_nil_r (encode_bytes a)), encode_bytes_cmp by done.
  pose proof (encode_u64_desc_length t) as Hl. by destruct (bytes_cmp a b), (encode_u64_desc t).
Qed.

Lemma user_key_leb a b t :
  bytes_ok a -> bytes_ok b -> u64_ok t ->
  bytes_leb (Key_from_raw a) (version_key b t) = true <-> a = b \/ bytes_lt a b.
Proof.
  intros Ha Hb Ht. unfold bytes_leb. rewrite user_key_cmp by done. unfold bytes_lt.
  rewrite <-bytes_cmp_eq. destruct (bytes_cmp a b); naive_solver.
Qed.

Lemma user_key_order a b :
  bytes_ok a -> bytes_ok b -> bytes_cmp (Key_from_raw a) (Key_from_raw b) = bytes_cmp a b.
Proof.
  intros Ha Hb. unfold Key_from_raw.
  rewrite <-(app_nil_r (encode_bytes a)), <-(app_nil_r (encode_bytes b)), encode_bytes_cmp by done.
  by destruct (bytes_cmp a b).
Qed.

(** The least key above [raw]. *)
Definition bytes_succ (raw : bytes) : bytes := raw ++ [0].

Lemma bytes_succ_ok raw : bytes_ok raw -> bytes_ok (bytes_succ raw).
Proof. intros Hr. apply bytes_ok_app. split; [done|]. repeat constructor; lia. Qed.

Lemma bytes_succ_lt raw : bytes_lt raw (bytes_succ raw).
Proof.
  unfold bytes_lt, bytes_succ. rewrite <-(app_nil_r raw) at 1. by rewrite bytes_cmp_app_l.
Qed.

Lemma bytes_succ_least raw b :
  bytes_ok b -> bytes_lt raw b -> bytes_succ raw = b \/ bytes_lt (bytes_succ raw) b.
Proof.
  unfold bytes_lt, bytes_succ. revert b. induction raw as [|x raw IH]; intros b Hb Hlt.
  - destruct b as [|y b]; [done|]. apply Forall_cons_1 in Hb as [Hy _]. cbn -[Z.compare].
    unfold u8_ok in Hy. destruct (Z.compare_spec 0 y); [subst|by right|lia].
    destruct b; [by left|by right].
  - destruct b as [|y b]; [done|]. apply Forall_cons_1 in Hb as [_ Hb]. cbn -[Z.compare] in *.
    destruct (Z.compare_spec x y); [subst|by right|done].
    destruct (IH b Hb Hlt) as [->|?]; [by left|by right].
Qed.

(** ** The versions of the keys of a write column family *)

Definition wf_versions (content : Key -> option Value) : Prop :=
  forall k v, content k = Some v ->
  exists raw ts w, bytes_ok raw /\ u64_ok ts /\ k = version_key raw ts
    /\ write_ok w /\ v = WriteRef_to_bytes w.

Definition version_at (content : Key -> option Value) (raw : bytes) (ts : TimeStamp) : option Write :=
  if decide (u64_ok ts) then
    match content (version_key raw ts) with
    | Some v => match WriteRef_parse v with Ok w => Some w | _ => None end
    | None => None
    end
  else None.

Section Versions.
Context (content : Key -> option Value).
Hypothesis (wf : wf_versions content).
Let W := version_at content.

Lemma version_at_some raw t w :
  bytes_ok raw -> W raw t = Some w ->
  u64_ok t /\ write_ok w /\ content (version_key raw t) = Some (WriteRef_to_bytes w).
Proof.
  intros Hraw. unfold W, version_at. destruct (decide (u64_ok t)); [|done].
  destruct (content (version_key raw t)) as [v|] eqn:Hv; [|done].
  destruct (wf _ _ Hv) as (raw' & ts & w' & _ & _ & _ & Hok & ->). rewrite write_roundtrip by done.
  by intros [= ->].
Qed.

Lemma version_at_in raw t w :
  u64_ok t -> write_ok w -> content (version_key raw t) = Some (WriteRef_to_bytes w) -> W raw t = Some w.
Proof. intros Ht Hw Hc. unfold W, version_at. by rewrite decide_True, Hc, write_roundtrip. Qed.

(** An entry, as the version it is. *)
Lemma content_version k v :
  content k = Some v ->
  exists raw t w, bytes_ok raw /\ u64_ok t /\ write_ok w /\ k = version_key raw t
    /\ v = WriteRef_to_bytes w /\ W raw t = Some w.
Proof.
  intros Hc. destruct (wf k v Hc) as (raw & t & w & Hraw & Ht & -> & Hw & ->).
  exists raw, t, w. split_and!; try done. by apply version_at_in.
Qed.

(** The position of a cursor at the version [ts] of [raw]: the newest version at
    or below [ts], or a later key, and then there is none. *)
Inductive stands (raw : bytes) (ts : TimeStamp) : option Entry -> Prop :=
| stands_end :
    newest (W raw) ts None ->
    (forall raw' t w, bytes_ok raw' -> bytes_lt raw raw' -> W raw' t = Some w -> False) ->
    stands raw ts None
| stands_version t w :
    u64_ok t -> write_ok w -> newest (W raw) ts (Some (t, w)) ->
    stands raw ts (Some (version_key raw t, WriteRef_to_bytes w))
| stands_later raw' t w :
    bytes_ok raw' -> bytes_lt raw raw' -> u64_ok t -> write_ok w ->
    newest (W raw) ts None -> newest (W raw') TimeStamp_max (Some (t, w)) ->
    (forall raw'' t w, bytes_ok raw'' -> bytes_lt raw raw'' -> bytes_lt raw'' raw' ->
       W raw'' t = Some w -> False) ->
    stands raw ts (Some (version_key raw' t, WriteRef_to_bytes w)).

Lemma u64_le_max t : u64_ok t -> t <= TimeStamp_max.
Proof. unfold u64_ok, TimeStamp_max, u64_max. lia. Qed.

Lemma least_stands raw ts (p : Key -> bool) o :
  bytes_ok raw -> (forall raw' t, bytes_ok raw' -> u64_ok t ->
    (p (version_key raw' t) = true <-> bytes_lt raw raw' \/ raw = raw' /\ t <= ts)) ->
  least content p o -> stands raw ts o.
Proof.
  intros Hraw Hpos Hl.
  assert (forall raw' t w, bytes_ok raw' -> W raw' t = Some w -> u64_ok t
    /\ is_Some (content (version_key raw' t))) as Hin.
  { intros raw' t w Hr' (Ht & _ & Hc)%version_at_some; eauto. }
  destruct o as [[k v]|].
  - destruct Hl as (Hc & Hle & Hmin).
    destruct (content_version k v Hc) as (raw' & t & w & Hraw' & Ht & Hw & -> & -> & HW).
    assert (forall raw'' t' w', bytes_ok raw'' -> W raw'' t' = Some w' -> bytes_lt raw raw'' \/ raw = raw'' /\ t' <= ts ->
      bytes_lt raw' raw'' \/ raw' = raw'' /\ t' <= t) as Hge.
    { intros raw'' t' w' Hr'' Hw' Hord. destruct (Hin raw'' t' w' Hr'' Hw') as [Ht' Hs].
      apply (version_key_leb raw' raw'' t t'); [done..|]. apply Hmin; [done|]. by apply Hpos. }
    apply Hpos in Hle as [Hlt|[-> Hle]]; [| |done..].
    + apply stands_later; try done.
      * intros t' Ht'. destruct (W raw t') as [w'|] eqn:E; [|done]. exfalso.
        destruct (Hge raw t' w' Hraw E ltac:(by right)) as [?|[-> _]]; [|by apply (bytes_lt_irrefl raw)].
        by apply (bytes_lt_irrefl raw), (bytes_lt_trans raw raw' raw).
      * split; [by apply u64_le_max|]. split; [done|]. intros t' Ht'.
        destruct (W raw' t') as [w'|] eqn:E; [|done]. exfalso.
        destruct (Hge raw' t' w' Hraw' E ltac:(by left)) as [?|[_ ?]]; [by apply (bytes_lt_irrefl raw')|lia].
      * intros raw'' t' w' Hr'' Hlt' Hlt'' E.
        destruct (Hge raw'' t' w' Hr'' E ltac:(by left)) as [?|[-> _]]; [|by apply (bytes_lt_irrefl raw'')].
        by apply (bytes_lt_irrefl raw'), (bytes_lt_trans raw' raw'' raw').
    + apply stands_version; try done. split; [done|]. split; [done|]. intros t' Ht'.
      destruct (W raw' t') as [w'|] eqn:E; [|done]. exfalso.
      destruct (Hge raw' t' w' Hraw' E) as [?|[_ ?]]; [right; split; [done|lia]|by apply (bytes_lt_irrefl raw')|lia].
  - apply stands_end.
    + intros t Ht. destruct (W raw t) as [w|] eqn:E; [|done]. exfalso. destruct (Hin raw t w Hraw E) as [Hu Hs].
      specialize (Hl _ Hs). apply not_true_iff_false in Hl. apply Hl, Hpos; auto.
    + intros raw' t w Hraw' Hlt E. destruct (Hin raw' t w Hraw' E) as [Hu Hs].
      specialize (Hl _ Hs). apply not_true_iff_false in Hl. apply Hl, Hpos; auto.
Qed.
End Versions.
