(* ===== verification/AbsState.v ===== *)
(** * The abstract multi-version state and its updates

    The abstract state of the store: for every key its lock, its write records
    by commit timestamp and its values by start timestamp ([Abs]).  The updates
    transactions make to it are [LModify]; [encode_lm] is the engine update
    that implements one, and [write_modifies_refines] says that applying a list
    of encoded updates to a well-formed store applies the updates to the state
    it represents.  Abstract states are compared pointwise ([≡]). *)

From Stdlib Require Import ZArith Lia.
From stdpp Require Import base numbers list gmap.
From S2P Require Import Prelude Number Bytes Types Write Lock Engine Reader.

Open Scope Z_scope.

Record Abs : Type := {
  a_write : Key -> TimeStamp -> option Write;
  a_lock : Key -> option Lock;
  a_value : Key -> TimeStamp -> option Value
}.

#[export] Instance Abs_equiv : Equiv Abs := fun a b =>
  (forall k t, a_write a k t = a_write b k t) /\ (forall k, a_lock a k = a_lock b k)
  /\ (forall k t, a_value a k t = a_value b k t).

#[export] Instance Abs_equivalence : Equivalence (≡@{Abs}).
Proof.
  split.
  - by intros a.
  - intros a b (Hw & Hl & Hv). by split_and!.
  - intros a b c (Hw & Hl & Hv) (Hw' & Hl' & Hv').
    split_and!; intros; etrans; eauto.
Qed.

#[export] Instance a_write_proper : Proper ((≡) ==> (=) ==> (=) ==> (=)) a_write.
Proof. intros a b (Hw & _) k ? <- t ? <-. apply Hw. Qed.
#[export] Instance a_lock_proper : Proper ((≡) ==> (=) ==> (=)) a_lock.
Proof. intros a b (_ & Hl & _) k ? <-. apply Hl. Qed.
#[export] Instance a_value_proper : Proper ((≡) ==> (=) ==> (=) ==> (=)) a_value.
Proof. intros a b (_ & _ & Hv) k ? <- t ? <-. apply Hv. Qed.

Inductive LModify : Type :=
| LPutWrite (k : Key) (t : TimeStamp) (w : Write)
| LDelWrite (k : Key) (t : TimeStamp)
| LPutLock (k : Key) (l : Lock)
| LPutPessimistic (k : Key) (p : PessimisticLock)
| LUnlock (k : Key)
| LPutValue (k : Key) (t : TimeStamp) (v : Value)
| LDelValue (k : Key) (t : TimeStamp).

Definition encode_lm (m : LModify) : Modify :=
  match m with
  | LPutWrite k t w => MoPut CF_WRITE (Key_append_ts k t) (WriteRef_to_bytes w)
  | LDelWrite k t => MoDelete CF_WRITE (Key_append_ts k t)
  | LPutLock k l => MoPut CF_LOCK k (Lock_to_bytes l)
  | LPutPessimistic k p => MoPessimisticLock k p
  | LUnlock k => MoDelete CF_LOCK k
  | LPutValue k t v => MoPut CF_DEFAULT (Key_append_ts k t) v
  | LDelValue k t => MoDelete CF_DEFAULT (Key_append_ts k t)
  end.

Definition upd1 {A} (f : Key -> option A) (k : Key) (o : option A) : Key -> option A :=
  fun k' => if decide (k' = k) then o else f k'.
Definition upd2 {A} (f : Key -> TimeStamp -> option A) (k : Key) (t : TimeStamp) (o : option A)
    : Key -> TimeStamp -> option A :=
  fun k' t' => if decide (k' = k /\ t' = t) then o else f k' t'.

Definition apply_lm (a : Abs) (m : LModify) : Abs :=
  match m with
  | LPutWrite k t w => {| a_write := upd2 (a_write a) k t (Some w); a_lock := a_lock a; a_value := a_value a |}
  | LDelWrite k t => {| a_write := upd2 (a_write a) k t None; a_lock := a_lock a; a_value := a_value a |}
  | LPutLock k l => {| a_write := a_write a; a_lock := upd1 (a_lock a) k (Some l); a_value := a_value a |}
  | LPutPessimistic k p =>
      {| a_write := a_write a; a_lock := upd1 (a_lock a) k (Some (PessimisticLock_into_lock p));
         a_value := a_value a |}
  | LUnlock k => {| a_write := a_write a; a_lock := upd1 (a_lock a) k None; a_value := a_value a |}
  | LPutValue k t v => {| a_write := a_write a; a_lock := a_lock a; a_value := upd2 (a_value a) k t (Some v) |}
  | LDelValue k t => {| a_write := a_write a; a_lock := a_lock a; a_value := upd2 (a_value a) k t None |}
  end.

Definition apply_lms (a : Abs) (ms : list LModify) : Abs := foldl apply_lm a ms.

#[export] Instance apply_lm_proper : Proper ((≡) ==> (=) ==> (≡)) apply_lm.
Proof.
  intros a b (Hw & Hl & Hv) m ? <-. destruct m; split_and!; cbn; intros; unfold upd1, upd2;
    try case_decide; auto.
Qed.

#[export] Instance apply_lms_proper : Proper ((≡) ==> (=) ==> (≡)) apply_lms.
Proof.
  intros a b Hab ms ? <-. revert a b Hab. induction ms as [|m ms IH]; intros a b Hab; cbn; [done|].
  apply IH. by rewrite Hab.
Qed.

(** The updates a transaction may make: encoded keys, records in range. *)
Definition key_ok (k : Key) : Prop := exists raw, bytes_ok raw /\ k = Key_from_raw raw.

Definition lm_ok (m : LModify) : Prop :=
  match m with
  | LPutWrite k t w => key_ok k /\ u64_ok t /\ write_ok w
  | LDelWrite k t | LPutValue k t _ | LDelValue k t => key_ok k /\ u64_ok t
  | LPutLock k l => key_ok k /\ lock_ok l
  | LPutPessimistic k p => key_ok k /\ lock_ok (PessimisticLock_into_lock p)
  | LUnlock k => key_ok k
  end.

(** ** The state a store represents *)

Definition wf_store (s : Store) : Prop := wf_write_cf s /\ wf_lock_cf s.

Definition value_at (s : Store) (k : Key) (t : TimeStamp) : option Value :=
  if decide (u64_ok t) then Store_get_cf s CF_DEFAULT (Key_append_ts k t) else None.

Definition abs (s : Store) : Abs :=
  {| a_write := write_at s; a_lock := lock_at s; a_value := value_at s |}.

Lemma wf_store_empty : wf_store BTreeEngine_new.
Proof. by split; intros k v. Qed.

(** A column family after an insertion or a deletion at a versioned key. *)
Lemma versioned_lookup {A} (m : gmap bytes A) k t k' t' (o : option A) :
  u64_ok t -> u64_ok t' ->
  partial_alter (fun _ => o) (Key_append_ts k t) m !! Key_append_ts k' t'
  = if decide (k' = k /\ t' = t) then o else m !! Key_append_ts k' t'.
Proof.
  intros Ht Ht'. case_decide as Hd.
  - destruct Hd as [-> ->]. by rewrite lookup_partial_alter_eq.
  - rewrite lookup_partial_alter_ne; [done|]. intros E.
    apply Key_append_ts_inj in E as [-> ->]; tauto.
Qed.

Lemma write_at_alter s k t k' t' o :
  u64_ok t -> match o with Some w => write_ok w | None => True end ->
  write_at (Store_set_cf s CF_WRITE
    (partial_alter (fun _ => option_map WriteRef_to_bytes o) (Key_append_ts k t) (Store_cf s CF_WRITE))) k' t'
  = upd2 (write_at s) k t o k' t'.
Proof.
  intros Ht Ho. unfold write_at, upd2. cbn [get_cf Store_snapshot Store_get_cf]. unfold Store_get_cf.
  rewrite Store_cf_set_eq. destruct (decide (u64_ok t')) as [Ht'|Ht'].
  - rewrite versioned_lookup by done. case_decide; [|done].
    destruct o as [w|]; cbn [option_map]; [|done]. by rewrite write_roundtrip.
  - rewrite decide_False; [done|]. intros [_ ->]. done.
Qed.

Lemma value_at_alter s k t k' t' o :
  u64_ok t ->
  value_at (Store_set_cf s CF_DEFAULT
    (partial_alter (fun _ => o) (Key_append_ts k t) (Store_cf s CF_DEFAULT))) k' t'
  = upd2 (value_at s) k t o k' t'.
Proof.
  intros Ht. unfold value_at, upd2, Store_get_cf. rewrite Store_cf_set_eq.
  destruct (decide (u64_ok t')) as [Ht'|Ht']; [by rewrite versioned_lookup|].
  rewrite decide_False; [done|]. intros [_ ->]. done.
Qed.

Lemma lock_at_alter s k k' o :
  match o with Some l => lock_ok l | None => True end ->
  lock_at (Store_set_cf s CF_LOCK
    (partial_alter (fun _ => option_map Lock_to_bytes o) k (Store_cf s CF_LOCK))) k'
  = upd1 (lock_at s) k o k'.
Proof.
  intros Ho. unfold lock_at, upd1. cbn [get_cf Store_snapshot]. unfold Store_get_cf.
  rewrite Store_cf_set_eq. case_decide as Hk.
  - rewrite Hk, lookup_partial_alter_eq. destruct o as [l|]; cbn [option_map]; [|done].
    by rewrite lock_roundtrip.
  - by rewrite lookup_partial_alter_ne.
Qed.

Lemma wf_write_alter s k t o :
  wf_write_cf s -> key_ok k -> u64_ok t -> match o with Some w => write_ok w | None => True end ->
  wf_write_cf (Store_set_cf s CF_WRITE
    (partial_alter (fun _ => option_map WriteRef_to_bytes o) (Key_append_ts k t) (Store_cf s CF_WRITE))).
Proof.
  intros Hwf (raw & Hraw & ->) Ht Ho k' v. cbn [get_cf Store_snapshot]. unfold Store_get_cf.
  rewrite Store_cf_set_eq. destruct (decide (k' = Key_append_ts (Key_from_raw raw) t)) as [->|Hne].
  - rewrite lookup_partial_alter_eq. destruct o as [w|]; cbn [option_map]; [|done].
    intros E. injection E as <-. exists raw, t, w. auto.
  - rewrite lookup_partial_alter_ne by done. apply Hwf.
Qed.

Lemma wf_lock_alter s k o :
  wf_lock_cf s -> key_ok k -> match o with Some l => lock_ok l | None => True end ->
  wf_lock_cf (Store_set_cf s CF_LOCK
    (partial_alter (fun _ => option_map Lock_to_bytes o) k (Store_cf s CF_LOCK))).
Proof.
  intros Hwf (raw & Hraw & ->) Ho k' v. cbn [get_cf Store_snapshot]. unfold Store_get_cf.
  rewrite Store_cf_set_eq. destruct (decide (k' = Key_from_raw raw)) as [->|Hne].
  - rewrite lookup_partial_alter_eq. destruct o as [w|]; cbn [option_map]; [|done].
    intros E. injection E as <-. exists raw, w. auto.
  - rewrite lookup_partial_alter_ne by done. apply Hwf.
Qed.

(** One engine update implements the abstract update it encodes. *)
Lemma write_modify_refines {E} s m :
  wf_store s -> lm_ok m ->
  exists s', write_modify (E:=E) s (encode_lm m) = Ok s' /\ wf_store s'
    /\ abs s' ≡ apply_lm (abs s) m.
Proof.
  intros [Hw Hl] Hm. destruct m as [k t w|k t|k l|k p|k|k t v|k t]; cbn [lm_ok] in Hm.
  - destruct Hm as (Hk & Ht & Hok). eexists. split; [reflexivity|].
    split; [split; [by apply (wf_write_alter s k t (Some w))|exact Hl]|].
    split_and!; [|reflexivity..]. intros k' t'. by apply (write_at_alter s k t k' t' (Some w)).
  - destruct Hm as [Hk Ht]. eexists. split; [reflexivity|].
    split; [split; [by apply (wf_write_alter s k t None)|exact Hl]|].
    split_and!; [|reflexivity..]. intros k' t'. by apply (write_at_alter s k t k' t' None).
  - destruct Hm as [Hk Hok]. eexists. split; [reflexivity|].
    split; [split; [exact Hw|by apply (wf_lock_alter s k (Some l))]|].
    split_and!; [reflexivity| |reflexivity]. intros k'. by apply (lock_at_alter s k k' (Some l)).
  - destruct Hm as [Hk Hok]. eexists. split; [reflexivity|].
    split; [split; [exact Hw|by apply (wf_lock_alter s k (Some (PessimisticLock_into_lock p)))]|].
    split_and!; [reflexivity| |reflexivity]. intros k'.
    by apply (lock_at_alter s k k' (Some (PessimisticLock_into_lock p))).
  - eexists. split; [reflexivity|].
    split; [split; [exact Hw|by apply (wf_lock_alter s k None)]|].
    split_and!; [reflexivity| |reflexivity]. intros k'. by apply (lock_at_alter s k k' None).
  - destruct Hm as [Hk Ht]. eexists. split; [reflexivity|]. split; [by split|].
    split_and!; [reflexivity..|]. intros k' t'. by apply (value_at_alter s k t k' t' (Some v)).
  - destruct Hm as [Hk Ht]. eexists. split; [reflexivity|]. split; [by split|].
    split_and!; [reflexivity..|]. intros k' t'. by apply (value_at_alter s k t k' t' None).
Qed.

Lemma write_modifies_refines {E} ms : forall s,
  wf_store s -> Forall lm_ok ms ->
  exists s', write_modifies (E:=E) s (map encode_lm ms) = Ok s' /\ wf_store s'
    /\ abs s' ≡ apply_lms (abs s) ms.
Proof.
  induction ms as [|m ms IH]; intros s Hwf Hms; [by exists s|].
  apply Forall_cons_1 in Hms as [Hm Hms]. cbn [map write_modifies].
  destruct (write_modify_refines (E:=E) s m Hwf Hm) as (s1 & -> & Hwf1 & Habs1).
  cbn [mbind res_bind]. destruct (IH s1 Hwf1 Hms) as (s2 & -> & Hwf2 & Habs2).
  exists s2. split_and!; [done..|]. rewrite Habs2, Habs1. done.
Qed.

(** ** Reading the abstract state *)

Lemma load_lock_abs (r : SnapshotReader Store) raw :
  wf_store (r_snapshot r) -> bytes_ok raw ->
  load_lock r (Key_from_raw raw) = Ok (a_lock (abs (r_snapshot r)) (Key_from_raw raw)).
Proof.
  intros [_ Hl] Hraw. unfold load_lock, load_in_memory_pessimistic_lock.
  cbn [txn_ext Store_snapshot mbind res_bind a_lock abs]. unfold lock_at.
  destruct (get_cf (r_snapshot r) CF_LOCK (Key_from_raw raw)) as [v|] eqn:Hv; [|done].
  destruct (Hl _ _ Hv) as (raw' & l & _ & _ & Hok & ->). by rewrite lock_roundtrip.
Qed.

(** A reader of the store for a transaction, whatever its term and epoch. *)
Record reader_of (s : Store) (st : TimeStamp) (reader : SnapshotReader Store) : Prop := {
  reader_snapshot : r_snapshot reader = s;
  reader_start : r_start_ts reader = st
}.
Arguments reader_snapshot {s st reader} _.
Arguments reader_start {s st reader} _.

Lemma reader_of_new s st : reader_of s st (SnapshotReader_new st s).
Proof. done. Qed.

Lemma Key_into_raw_from_raw raw : bytes_ok raw -> Key_into_raw (Key_from_raw raw) = Ok raw.
Proof.
  intros Hr. unfold Key_into_raw. rewrite decode_bytes_in_place_eq by auto with tikv.
  apply Key_to_raw_from_raw.
Qed.

(** The lock of a key of a well-formed store is in range. *)
Lemma abs_lock_ok s k l : wf_store s -> a_lock (abs s) k = Some l -> lock_ok l.
Proof.
  intros [_ Hl]. cbn [a_lock abs]. unfold lock_at. destruct (get_cf s CF_LOCK k) as [v|] eqn:Hv; [|done].
  destruct (Hl _ _ Hv) as (raw' & l' & _ & _ & Hok & ->). rewrite lock_roundtrip by done.
  by intros [= ->].
Qed.

Lemma abs_write_ok s raw t w :
  wf_store s -> bytes_ok raw -> a_write (abs s) (Key_from_raw raw) t = Some w -> u64_ok t /\ write_ok w.
Proof.
  intros [Hw _] Hraw Hwt.
  destruct (write_at_some (SnapshotReader_new 0 s) raw Hw t w Hwt) as (Ht & Hok & _). done.
Qed.
