(* ===== verification/ReaderSpec.v ===== *)
(** * What the MVCC reader returns

    The theorems about [MvccReader] and [SnapshotReader] against any engine
    that satisfies [EngineSnapshotLaws], and their instances on a store built
    through the in-memory engine. *)

From Stdlib Require Import ZArith Lia.
From stdpp Require Import base numbers list gmap.
From S2P Require Import Prelude Number Bytes Types Write Lock Engine Reader AbsState.

Open Scope Z_scope.

(** The value a put record stands for. *)
Definition record_value {Snap} `{EngineSnapshot Snap} (s : Snap) (key : Key) (w : Write)
    : option Value :=
  match w_short_value w with
  | Some v => Some v
  | None => get_cf s CF_DEFAULT (Key_append_ts key (w_start_ts w))
  end.

Lemma load_data_put {Snap} `{EngineSnapshot Snap} (r : SnapshotReader Snap) key w :
  w_write_type w = WtPut ->
  load_data r key w
  = match record_value (r_snapshot r) key w with
    | Some v => Ok v
    | None => Err (default_not_found_error (Key_append_ts key (w_start_ts w)))
    end.
Proof.
  intros Hw. unfold load_data, record_value, get_value.
  rewrite bool_decide_eq_true_2 by done. cbn [assert_ mbind res_bind].
  destruct (w_short_value w); [done|]. by destruct (get_cf _ _ _).
Qed.

Lemma fenced_put limit o w c : fenced limit o = Some (w, c) -> w_write_type w = WtPut.
Proof.
  destruct o as [[c' w']|]; cbn; [|done]. destruct (fence_ok limit w'); [|done].
  destruct (w_write_type w') eqn:E; [|done..]. by intros [= <- <-].
Qed.

(** What [get] returns once the record is known. *)
Definition read_result {Snap} `{EngineSnapshot Snap} (s : Snap) (key : Key)
    (o : option (Write * TimeStamp)) : mvcc_res (option Value) :=
  match o with
  | None => Ok None
  | Some (w, _) =>
      match record_value s key w with
      | Some v => Ok (Some v)
      | None => Err (default_not_found_error (Key_append_ts key (w_start_ts w)))
      end
  end.

Lemma MvccReader_get_result {Snap} `{EngineSnapshot Snap} (r : SnapshotReader Snap) key ts limit o :
  get_write_with_commit_ts r key ts limit = Ok (fenced limit o) ->
  MvccReader_get r key ts limit = read_result (r_snapshot r) key (fenced limit o).
Proof.
  intros Hg. unfold MvccReader_get, get_write, read_result. rewrite Hg. cbn [mbind res_bind].
  destruct (fenced limit o) as [[w c]|] eqn:Hf; [|done]. cbn [option_map fst].
  rewrite load_data_put by (by eapply fenced_put). by destruct (record_value _ _ w).
Qed.

Lemma history_ok_ext W W' : (forall t, W t = W' t) -> history_ok W -> history_ok W'.
Proof.
  intros He [Hp Hl Hf].
  assert (forall ts o, newest_change W ts o -> newest_change W' ts o) as Hn.
  { intros ts [[c w]|]; cbn.
    - intros (? & Hw & ? & Hno). rewrite <-He. split_and!; [done..|]. intros t w'. rewrite <-He. eauto.
    - intros Hno t w'. rewrite <-He. eauto. }
  split.
  - intros t w Hw. apply (Hp t w). by rewrite He.
  - intros c w Hw Hch. rewrite <-He in Hw. specialize (Hl c w Hw Hch).
    destruct (w_last_change w) as [|l n|]; cbn in *; [done| |].
    + destruct Hl as [Hu [[w' Hw']|(Hlt & Hnone & Ho)]]; split; [done| |done|].
      * left. exists w'. by apply (Hn _ (Some (l, w'))).
      * right. rewrite <-He. split_and!; [done..|]. by apply (Hn _ None).
    + destruct Hl as (o & Ho & Hv). eauto.
  - intros c w Hw Hch. rewrite <-He in Hw. specialize (Hf c w Hw Hch).
    destruct (w_gc_fence w) as [f|]; [|done]. destruct Hf as [?|(? & w' & Hw' & ?)]; [by left|].
    right. split; [done|]. exists w'. by rewrite <-He.
Qed.

(** ** A store for concrete reads *)

Definition sample_key : Key := Key_from_raw [107].

(** A put, a lock record whose hint points to the put, and a rollback. *)
Definition sample_updates : list LModify :=
  [ LPutWrite sample_key 10 (Write_new WtPut 5 (Some [1]));
    LPutWrite sample_key 20 (Write_set_last_change (Write_new WtLock 15 None) (LcExist 10 9));
    LPutWrite sample_key 30 (Write_new_rollback 30 true) ].

Definition sample_store : Store :=
  match write_modifies (E:=unit) BTreeEngine_new (map encode_lm sample_updates) with
  | Ok s => s
  | _ => BTreeEngine_new
  end.

Lemma sample_key_ok : key_ok sample_key.
Proof. exists [107]. split; [|done]. repeat constructor; unfold u8_ok; lia. Qed.

Lemma sample_raw_ok : bytes_ok [107].
Proof. repeat constructor; unfold u8_ok; lia. Qed.

Lemma sample_updates_ok : Forall lm_ok sample_updates.
Proof.
  repeat constructor; try exact sample_key_ok; cbn; unfold u64_ok, u8_ok; try lia;
    try (repeat constructor; unfold u8_ok; lia).
Qed.

Lemma sample_store_spec :
  wf_store sample_store /\ abs sample_store ≡ apply_lms (abs BTreeEngine_new) sample_updates.
Proof.
  unfold sample_store.
  destruct (write_modifies_refines (E:=unit) sample_updates BTreeEngine_new wf_store_empty
    sample_updates_ok) as (s & -> & Hwf & Ha). done.
Qed.

Definition sample_W (t : TimeStamp) : option Write :=
  if decide (t = 30) then Some (Write_new_rollback 30 true)
  else if decide (t = 20)
  then Some (Write_set_last_change (Write_new WtLock 15 None) (LcExist 10 9))
  else if decide (t = 10) then Some (Write_new WtPut 5 (Some [1])) else None.

Lemma write_at_empty k t : write_at BTreeEngine_new k t = None.
Proof. unfold write_at. by destruct (decide (u64_ok t)). Qed.

Lemma sample_write_at t : write_at sample_store sample_key t = sample_W t.
Proof.
  destruct sample_store_spec as [_ (Hw & _)]. specialize (Hw sample_key t).
  change (a_write (abs sample_store) sample_key t) with (write_at sample_store sample_key t) in Hw.
  rewrite Hw. unfold sample_W. cbn [apply_lms foldl sample_updates apply_lm a_write abs]. unfold upd2.
  repeat (case_decide; try tauto). apply write_at_empty.
Qed.

Lemma sample_history_ok : history_ok (write_at sample_store sample_key).
Proof.
  apply (history_ok_ext sample_W); [intros t; symmetry; apply sample_write_at|].
  split; unfold sample_W; intros c w; repeat case_decide; intros [= <-]; try done; try lia.
  all: intros _; cbn; auto.
  split; [unfold u64_ok; lia|]. left. eexists. split_and!; cbn; [lia|done|done|].
  intros t w' Ht. subst. repeat case_decide; try lia. done.
Qed.

Section Props.
Context {Snap : Type} `{EngineSnapshotLaws Snap}.
Implicit Types r : SnapshotReader Snap.

(** Reads return the newest change.  On a store whose records are well
    formed and whose last-change hints and GC fences are right,
    [get_write_with_commit_ts] with a fence limit that reaches over no change
    always returns, without error, the newest put-or-delete record at or below
    the timestamp: the record when it is a put that passes the GC-fence check,
    nothing otherwise; hints (jumps to [last_change_ts]) make no difference.
    [get_write] and [get] follow: [get] returns the value of that record and
    fails exactly when the record's value is missing from the default column
    family. *)
Theorem get_write_newest_change r raw ts limit :
  wf_write_cf (r_snapshot r) -> bytes_ok raw ->
  history_ok (write_at (r_snapshot r) (Key_from_raw raw)) -> u64_ok ts ->
  limit_quiet (write_at (r_snapshot r) (Key_from_raw raw)) ts limit ->
  exists o, newest_change (write_at (r_snapshot r) (Key_from_raw raw)) ts o
    /\ get_write_with_commit_ts r (Key_from_raw raw) ts limit = Ok (fenced limit o)
    /\ get_write r (Key_from_raw raw) ts limit = Ok (option_map fst (fenced limit o))
    /\ MvccReader_get r (Key_from_raw raw) ts limit
       = read_result (r_snapshot r) (Key_from_raw raw) (fenced limit o).
Proof.
  intros Hwf Hraw Hh Hts Hq.
  destruct (get_write_with_commit_ts_spec r raw Hwf Hraw ts limit Hh Hts Hq) as (o & Ho & Hg).
  exists o. unfold get_write. rewrite Hg. split_and!; [done..|]. by apply MvccReader_get_result.
Qed.

(** C40. The commit record of a transaction.  [get_txn_commit_record] always
    returns, without error or panic, and its answer is the newest record of the
    transaction on the key; else the overlapped rollback mark on the record at
    its start timestamp; else that record as a candidate for overlapping, with
    the oldest change above it as GC fence; and "none" only if no record at or
    above the start timestamp belongs to the transaction. *)
Theorem get_txn_commit_record_correct r raw start_ts :
  wf_write_cf (r_snapshot r) -> bytes_ok raw -> u64_ok start_ts ->
  exists rec,
    MvccReader_get_txn_commit_record r (Key_from_raw raw) start_ts = Ok rec
    /\ commit_record_spec (write_at (r_snapshot r) (Key_from_raw raw)) start_ts rec.
Proof. intros Hwf Hraw Hst. by apply get_txn_commit_record_ok. Qed.
End Props.

Lemma get_write_newest_change_witness :
  let r := SnapshotReader_new 40 sample_store in
  MvccReader_get r sample_key 40 (Some 40) = Ok (Some [1])
  /\ exists o, newest_change (write_at sample_store sample_key) 40 o
       /\ get_write_with_commit_ts r sample_key 40 (Some 40) = Ok (fenced (Some 40) o).
Proof.
  cbn zeta. split; [vm_compute; reflexivity|].
  destruct (get_write_newest_change (SnapshotReader_new 40 sample_store) [107] 40 (Some 40)
    (proj1 (proj1 sample_store_spec)) sample_raw_ok sample_history_ok) as (o & Ho & Hg & _);
    [unfold u64_ok; lia|intros t w Ht; lia|].
  exists o. by split.
Defined.

Lemma get_txn_commit_record_correct_witness :
  let r := SnapshotReader_new 10 sample_store in
  get_txn_commit_record r sample_key
    = Ok (TcrNone (Some {| ow_write := Write_new WtPut 5 (Some [1]); ow_gc_fence := 0 |}))
  /\ exists rec, MvccReader_get_txn_commit_record r sample_key 15 = Ok rec
       /\ commit_record_spec (write_at sample_store sample_key) 15 rec.
Proof.
  cbn zeta. split; [vm_compute; reflexivity|].
  apply (get_txn_commit_record_correct (SnapshotReader_new 10 sample_store) [107] 15);
    [apply sample_store_spec|apply sample_raw_ok|unfold u64_ok; lia].
Defined.
