(* ===== verification/MvccTxn.v ===== *)
(** * The transaction buffer

    Models [src/storage/mvcc/txn.rs].  An [MvccTxn] collects the engine updates
    of a command; nothing reaches the engine before the command succeeds and
    the scheduler writes [into_modifies].  The concurrency manager is shared
    state, threaded through the transaction ([t_cm]); a guard is the key whose
    handle it keeps in the lock table.  The lemmas give every operation as
    an addition of abstract updates ([add_updates]). *)

From Stdlib Require Import ZArith Lia.
From stdpp Require Import base numbers list gmap.
From S2P Require Import Prelude Number Bytes Types Write Lock ConcurrencyManager Engine Reader.
From S2P Require Import AbsState.

Open Scope Z_scope.

Definition MAX_TXN_WRITE_SIZE : nat := 32 * 1024.

Record GcInfo : Type := {
  found_versions : nat;
  deleted_versions : nat;
  is_completed : bool
}.

Record ReleasedLock : Type := {
  rl_start_ts : TimeStamp;
  rl_commit_ts : TimeStamp;
  rl_key : Key;
  rl_pessimistic : bool
}.

Definition ReleasedLock_new (start_ts commit_ts : TimeStamp) (key : Key) (pessimistic : bool)
    : ReleasedLock :=
  {| rl_start_ts := start_ts; rl_commit_ts := commit_ts; rl_key := key; rl_pessimistic := pessimistic |}.

Record MvccTxn : Type := {
  t_start_ts : TimeStamp;
  t_write_size : nat;
  t_modifies : list Modify;
  t_locks_for_1pc : list (Key * Lock * bool);
  t_new_locks : list LockInfo;
  t_cm : ConcurrencyManager;
  t_guards : list Key
}.

Definition MvccTxn_new (start_ts : TimeStamp) (cm : ConcurrencyManager) : MvccTxn :=
  {| t_start_ts := start_ts; t_write_size := 0; t_modifies := []; t_locks_for_1pc := [];
     t_new_locks := []; t_cm := cm; t_guards := [] |}.

Definition into_modifies {E} (t : MvccTxn) : res E (list Modify) :=
  _ ← assert_ (match t_locks_for_1pc t with [] => true | _ => false end); Ok (t_modifies t).

Definition take_guards (t : MvccTxn) : list Key * MvccTxn :=
  (t_guards t,
   {| t_start_ts := t_start_ts t; t_write_size := t_write_size t; t_modifies := t_modifies t;
      t_locks_for_1pc := t_locks_for_1pc t; t_new_locks := t_new_locks t;
      t_cm := t_cm t; t_guards := [] |}).

Definition take_new_locks (t : MvccTxn) : list LockInfo * MvccTxn :=
  (t_new_locks t,
   {| t_start_ts := t_start_ts t; t_write_size := t_write_size t; t_modifies := t_modifies t;
      t_locks_for_1pc := t_locks_for_1pc t; t_new_locks := [];
      t_cm := t_cm t; t_guards := t_guards t |}).

Definition MvccTxn_is_empty (t : MvccTxn) : bool :=
  ((length (t_modifies t) =? 0) && (length (t_locks_for_1pc t) =? 0))%nat%bool.

(** [self.write_size += size; self.modifies.push(write)] *)
Definition push_modify (t : MvccTxn) (size : nat) (write : Modify) : MvccTxn :=
  {| t_start_ts := t_start_ts t; t_write_size := t_write_size t + size;
     t_modifies := t_modifies t ++ [write]; t_locks_for_1pc := t_locks_for_1pc t;
     t_new_locks := t_new_locks t; t_cm := t_cm t; t_guards := t_guards t |}.

Definition push_new_lock (t : MvccTxn) (info : LockInfo) : MvccTxn :=
  {| t_start_ts := t_start_ts t; t_write_size := t_write_size t; t_modifies := t_modifies t;
     t_locks_for_1pc := t_locks_for_1pc t; t_new_locks := t_new_locks t ++ [info];
     t_cm := t_cm t; t_guards := t_guards t |}.

Definition put_lock (t : MvccTxn) (key : Key) (lock : Lock) (is_new : bool) : mvcc_res MvccTxn :=
  t ← (if is_new then
         raw ← unwrap_ok (Key_to_raw key); Ok (push_new_lock t (Lock_into_lock_info lock raw))
       else Ok t);
  let write := MoPut CF_LOCK key (Lock_to_bytes lock) in
  size ← Modify_size write;
  Ok (push_modify t size write).

Definition put_locks_for_1pc (t : MvccTxn) (key : Key) (lock : Lock) (remove_pessimistic_lock : bool)
    : MvccTxn :=
  {| t_start_ts := t_start_ts t; t_write_size := t_write_size t; t_modifies := t_modifies t;
     t_locks_for_1pc := t_locks_for_1pc t ++ [(key, lock, remove_pessimistic_lock)];
     t_new_locks := t_new_locks t; t_cm := t_cm t; t_guards := t_guards t |}.

Definition put_pessimistic_lock (t : MvccTxn) (key : Key) (lock : PessimisticLock) (is_new : bool)
    : mvcc_res MvccTxn :=
  t ← (if is_new then
         raw ← unwrap_ok (Key_to_raw key);
         Ok (push_new_lock t (Lock_into_lock_info (PessimisticLock_to_lock lock) raw))
       else Ok t);
  Ok (push_modify t 0 (MoPessimisticLock key lock)).

Definition unlock_key (t : MvccTxn) (key : Key) (pessimistic : bool) (commit_ts : TimeStamp)
    : mvcc_res (option ReleasedLock * MvccTxn) :=
  let released := ReleasedLock_new (t_start_ts t) commit_ts key pessimistic in
  let write := MoDelete CF_LOCK key in
  size ← Modify_size write;
  Ok (Some released, push_modify t size write).

Definition put_value (t : MvccTxn) (key : Key) (ts : TimeStamp) (value : Value) : mvcc_res MvccTxn :=
  let write := MoPut CF_DEFAULT (Key_append_ts key ts) value in
  size ← Modify_size write; Ok (push_modify t size write).

Definition delete_value (t : MvccTxn) (key : Key) (ts : TimeStamp) : mvcc_res MvccTxn :=
  let write := MoDelete CF_DEFAULT (Key_append_ts key ts) in
  size ← Modify_size write; Ok (push_modify t size write).

Definition put_write (t : MvccTxn) (key : Key) (ts : TimeStamp) (value : Value) : mvcc_res MvccTxn :=
  let write := MoPut CF_WRITE (Key_append_ts key ts) value in
  size ← Modify_size write; Ok (push_modify t size write).

Definition delete_write (t : MvccTxn) (key : Key) (ts : TimeStamp) : mvcc_res MvccTxn :=
  let write := MoDelete CF_WRITE (Key_append_ts key ts) in
  size ← Modify_size write; Ok (push_modify t size write).

Definition Lock_push_rollback_ts (lock : Lock) (ts : TimeStamp) : Lock :=
  Lock_with_rollback_ts lock (l_rollback_ts lock ++ [ts]).

Definition mark_rollback_on_mismatching_lock (t : MvccTxn) (key : Key) (lock : Lock)
    (is_protected : bool) : mvcc_res MvccTxn :=
  _ ← assert_ (negb (l_ts lock =? t_start_ts t));
  if negb is_protected then Ok t
  else if t_start_ts t <? l_min_commit_ts lock then Ok t
  else if negb (l_use_async_commit lock) then Ok t
  else put_lock t key (Lock_push_rollback_ts lock (t_start_ts t)) false.

Definition clear (t : MvccTxn) : MvccTxn :=
  {| t_start_ts := t_start_ts t; t_write_size := 0; t_modifies := []; t_locks_for_1pc := [];
     t_new_locks := []; t_cm := foldr (fun key cm => guard_drop cm key) (t_cm t) (t_guards t);
     t_guards := [] |}.

(** ** Operations as additions of abstract updates *)

Definition modify_size (m : Modify) : nat :=
  match Modify_size (E:=unit) m with Ok n => n | _ => 0 end.

Definition lm_size (m : LModify) : nat :=
  match m with LPutPessimistic _ _ => 0 | _ => modify_size (encode_lm m) end.

Definition add_updates (t : MvccTxn) (ms : list LModify) (infos : list LockInfo) : MvccTxn :=
  {| t_start_ts := t_start_ts t; t_write_size := t_write_size t + sum_list_with lm_size ms;
     t_modifies := t_modifies t ++ map encode_lm ms; t_locks_for_1pc := t_locks_for_1pc t;
     t_new_locks := t_new_locks t ++ infos; t_cm := t_cm t; t_guards := t_guards t |}.

Lemma add_updates_nil t : add_updates t [] [] = t.
Proof. unfold add_updates. cbn. rewrite !app_nil_r, Nat.add_0_r. by destruct t. Qed.

Lemma add_updates_add t ms infos ms' infos' :
  add_updates (add_updates t ms infos) ms' infos' = add_updates t (ms ++ ms') (infos ++ infos').
Proof.
  unfold add_updates. cbn. rewrite map_app, !app_assoc, sum_list_with_app. f_equal. lia.
Qed.

Lemma push_modify_add t m :
  push_modify t (lm_size m) (encode_lm m) = add_updates t [m] [].
Proof. unfold push_modify, add_updates. cbn. rewrite app_nil_r. f_equal. lia. Qed.

Lemma put_lock_old t key lock : put_lock t key lock false = Ok (add_updates t [LPutLock key lock] []).
Proof. rewrite <-push_modify_add. done. Qed.

Lemma put_lock_new t raw lock :
  put_lock t (Key_from_raw raw) lock true
  = Ok (add_updates t [LPutLock (Key_from_raw raw) lock] [Lock_into_lock_info lock raw]).
Proof.
  unfold put_lock. rewrite Key_to_raw_from_raw. unfold unwrap_ok. cbn [mbind res_bind].
  unfold push_new_lock, push_modify, add_updates. cbn -[Lock_to_bytes].
  by rewrite Nat.add_0_r.
Qed.

Lemma put_pessimistic_lock_old t key lock :
  put_pessimistic_lock t key lock false = Ok (add_updates t [LPutPessimistic key lock] []).
Proof. rewrite <-push_modify_add. done. Qed.

Lemma unlock_key_add t key p commit_ts :
  unlock_key t key p commit_ts
  = Ok (Some (ReleasedLock_new (t_start_ts t) commit_ts key p), add_updates t [LUnlock key] []).
Proof. rewrite <-push_modify_add. done. Qed.

Lemma put_value_add t key ts v : put_value t key ts v = Ok (add_updates t [LPutValue key ts v] []).
Proof. rewrite <-push_modify_add. done. Qed.

Lemma delete_value_add t key ts : delete_value t key ts = Ok (add_updates t [LDelValue key ts] []).
Proof. rewrite <-push_modify_add. done. Qed.

Lemma put_write_add t key ts w :
  put_write t key ts (WriteRef_to_bytes w) = Ok (add_updates t [LPutWrite key ts w] []).
Proof. rewrite <-push_modify_add. done. Qed.

Lemma delete_write_add t key ts : delete_write t key ts = Ok (add_updates t [LDelWrite key ts] []).
Proof. rewrite <-push_modify_add. done. Qed.

Create Rewrite HintDb mvcc_txn.
#[export] Hint Rewrite put_lock_old put_pessimistic_lock_old unlock_key_add put_value_add
  delete_value_add put_write_add delete_write_add add_updates_add : mvcc_txn.

(** What the engine holds once the updates of a fresh transaction are written. *)
Lemma add_updates_written {E} s start_ts cm ms infos :
  wf_store s -> Forall lm_ok ms ->
  exists s', (ms' ← into_modifies (add_updates (MvccTxn_new start_ts cm) ms infos);
              write_modifies (E:=E) s ms') = Ok s'
    /\ wf_store s' /\ abs s' ≡ apply_lms (abs s) ms.
Proof.
  intros Hwf Hms. unfold into_modifies. cbn [add_updates MvccTxn_new t_locks_for_1pc t_modifies app
    assert_ mbind res_bind]. by apply write_modifies_refines.
Qed.
