(* ===== verification/Prewrite.v ===== *)
(** * Prewrite

    Models [src/storage/txn/actions/prewrite.rs], [check_data_constraint.rs] and
    [common.rs].  Contexts shared by the whole file: the clock and the oracle's
    answer for [update_max_ts]; the gate of the last-change feature; and the
    cursor counter [stat.write.next], from which [next_last_change_info] makes
    the estimated number of versions.  A failing [write_lock] may leave updates
    in the buffer (the fallback from async commit), so the result of [prewrite]
    is a pair of a value or error and the buffer. *)

From Stdlib Require Import ZArith Lia.
From stdpp Require Import base numbers list gmap.
From S2P Require Import Prelude Number Bytes Types Write Lock ConcurrencyManager Engine Reader.
From S2P Require Import AbsState ReaderSpec MvccTxn.

Open Scope Z_scope.

Inductive CommitKind : Type := TwoPc | OnePc (max_commit_ts : TimeStamp) | Async (max_commit_ts : TimeStamp).

Inductive TransactionKind : Type :=
| Optimistic (skip_constraint_check : bool)
| Pessimistic (for_update_ts : TimeStamp).

Inductive AssertionLevel : Type := AlOff | AlFast | AlStrict.

Inductive PrewriteRequestPessimisticAction : Type :=
| SkipPessimisticCheck | DoPessimisticCheck | DoConstraintCheck.

#[export] Instance AssertionLevel_eq_dec : EqDecision AssertionLevel.
Proof. solve_decision. Defined.
#[export] Instance PessimisticAction_eq_dec : EqDecision PrewriteRequestPessimisticAction.
Proof. solve_decision. Defined.

Record TransactionProperties : Type := {
  tp_start_ts : TimeStamp;
  tp_kind : TransactionKind;
  tp_commit_kind : CommitKind;
  tp_primary : bytes;
  tp_txn_size : u64;
  tp_lock_ttl : u64;
  tp_min_commit_ts : TimeStamp;
  tp_need_old_value : bool;
  tp_is_retry_request : bool;
  tp_assertion_level : AssertionLevel;
  tp_txn_source : u64
}.

Definition TransactionProperties_max_commit_ts (p : TransactionProperties) : mvcc_res TimeStamp :=
  match tp_commit_kind p with TwoPc => Panic | OnePc ts => Ok ts | Async ts => Ok ts end.

Definition TransactionProperties_is_pessimistic (p : TransactionProperties) : bool :=
  match tp_kind p with Optimistic _ => false | Pessimistic _ => true end.

Definition TransactionProperties_for_update_ts (p : TransactionProperties) : TimeStamp :=
  match tp_kind p with Optimistic _ => TimeStamp_zero | Pessimistic ts => ts end.

Inductive LockStatus : Type :=
| LockedStatus (min_commit_ts : TimeStamp)
| PessimisticStatus (for_update_ts : TimeStamp)
| NoneStatus.

Definition LockStatus_has_pessimistic_lock (s : LockStatus) : bool :=
  match s with PessimisticStatus _ => true | _ => false end.

Record PrewriteMutation : Type := {
  pm_key : Key;
  pm_value : option Value;
  pm_mutation_type : MutationType;
  pm_secondary_keys : option (list bytes);
  pm_min_commit_ts : TimeStamp;
  pm_pessimistic_action : PrewriteRequestPessimisticAction;
  pm_lock_type : option LockType;
  pm_lock_ttl : u64;
  pm_last_change : LastChange;
  pm_should_not_exist : bool;
  pm_should_not_write : bool;
  pm_assertion : Assertion;
  pm_txn_props : TransactionProperties
}.

Definition PrewriteMutation_from_mutation (mutation : Mutation) (secondary_keys : option (list bytes))
    (pessimistic_action : PrewriteRequestPessimisticAction) (txn_props : TransactionProperties)
    : mvcc_res PrewriteMutation :=
  let should_not_write := Mutation_should_not_write mutation in
  if (TransactionProperties_is_pessimistic txn_props && should_not_write)%bool then Err MvOther
  else
    let '(key, value) := Mutation_into_key_value mutation in
    Ok {| pm_key := key; pm_value := value; pm_mutation_type := Mutation_mutation_type mutation;
          pm_secondary_keys := secondary_keys; pm_min_commit_ts := tp_min_commit_ts txn_props;
          pm_pessimistic_action := pessimistic_action;
          pm_lock_type := LockType_from_mutation mutation; pm_lock_ttl := tp_lock_ttl txn_props;
          pm_last_change := LcUnknown; pm_should_not_exist := Mutation_should_not_exists mutation;
          pm_should_not_write := should_not_write; pm_assertion := Mutation_get_assertion mutation;
          pm_txn_props := txn_props |}.

Definition pm_set_last_change (m : PrewriteMutation) (lc : LastChange) : PrewriteMutation :=
  {| pm_key := pm_key m; pm_value := pm_value m; pm_mutation_type := pm_mutation_type m;
     pm_secondary_keys := pm_secondary_keys m; pm_min_commit_ts := pm_min_commit_ts m;
     pm_pessimistic_action := pm_pessimistic_action m; pm_lock_type := pm_lock_type m;
     pm_lock_ttl := pm_lock_ttl m; pm_last_change := lc;
     pm_should_not_exist := pm_should_not_exist m; pm_should_not_write := pm_should_not_write m;
     pm_assertion := pm_assertion m; pm_txn_props := pm_txn_props m |}.

Definition pm_set_ttl_and_min_commit_ts (m : PrewriteMutation) (ttl : u64) (mc : TimeStamp)
    : PrewriteMutation :=
  {| pm_key := pm_key m; pm_value := pm_value m; pm_mutation_type := pm_mutation_type m;
     pm_secondary_keys := pm_secondary_keys m; pm_min_commit_ts := mc;
     pm_pessimistic_action := pm_pessimistic_action m; pm_lock_type := pm_lock_type m;
     pm_lock_ttl := ttl; pm_last_change := pm_last_change m;
     pm_should_not_exist := pm_should_not_exist m; pm_should_not_write := pm_should_not_write m;
     pm_assertion := pm_assertion m; pm_txn_props := pm_txn_props m |}.

Definition LockInfo_set_lock_ttl (i : LockInfo) (ttl : u64) : LockInfo :=
  {| li_primary_lock := li_primary_lock i; li_lock_version := li_lock_version i; li_key := li_key i;
     li_lock_ttl := ttl; li_txn_size := li_txn_size i; li_lock_type := li_lock_type i;
     li_lock_for_update_ts := li_lock_for_update_ts i; li_use_async_commit := li_use_async_commit i;
     li_min_commit_ts := li_min_commit_ts i; li_secondaries := li_secondaries i |}.

Definition PrewriteMutation_lock_info (m : PrewriteMutation) (lock : Lock) : mvcc_res LockInfo :=
  raw ← map_err MvCodec (Key_to_raw (pm_key m));
  let info := Lock_into_lock_info lock raw in
  Ok (if TransactionProperties_is_pessimistic (pm_txn_props m) then LockInfo_set_lock_ttl info 0
      else info).

Definition PrewriteMutation_check_lock (m : PrewriteMutation) (lock : Lock)
    (pessimistic_action : PrewriteRequestPessimisticAction) (expected_for_update_ts : option TimeStamp)
    (generation_to_write : u64) : mvcc_res (LockStatus * PrewriteMutation) :=
  let start_ts := tp_start_ts (pm_txn_props m) in
  if negb (l_ts lock =? start_ts) then
    if decide (pessimistic_action = DoPessimisticCheck) then
      raw ← map_err MvCodec (Key_to_raw (pm_key m));
      Err (MvPessimisticLockNotFound start_ts raw LockTsMismatch)
    else
      info ← PrewriteMutation_lock_info m lock;
      Err (MvKeyIsLocked info)
  else
    let m := pm_set_last_change m (l_last_change lock) in
    if Lock_is_pessimistic_lock lock then
      if negb (TransactionProperties_is_pessimistic (pm_txn_props m)) then
        raw ← map_err MvCodec (Key_to_raw (pm_key m));
        Err (MvLockTypeNotMatch start_ts raw true)
      else if match expected_for_update_ts with
              | Some ts => negb (l_for_update_ts lock =? ts)
              | None => false
              end then
        raw ← map_err MvCodec (Key_to_raw (pm_key m));
        Err (MvPessimisticLockNotFound start_ts raw LockForUpdateTsMismatch)
      else
        Ok (PessimisticStatus (l_for_update_ts lock),
            pm_set_ttl_and_min_commit_ts m (Z.max (pm_lock_ttl m) (l_ttl lock))
              (Z.max (pm_min_commit_ts m) (l_min_commit_ts lock)))
    else if ((0 <? generation_to_write) && (generation_to_write <=? l_generation lock))%bool then
      Err (MvGenerationOutOfOrder generation_to_write (pm_key m) lock)
    else if ((0 <? l_generation lock) && pm_should_not_exist m
             && bool_decide (l_lock_type lock = LtPut))%bool then
      raw ← map_err MvCodec (Key_to_raw (pm_key m));
      Err (MvAlreadyExist raw (l_ts lock))
    else
      Ok (LockedStatus (if l_use_async_commit lock then l_min_commit_ts lock else TimeStamp_zero), m).

Definition PrewriteMutation_skip_constraint_check (m : PrewriteMutation) : bool :=
  match tp_kind (pm_txn_props m) with
  | Optimistic s => s
  | Pessimistic _ =>
      match pm_pessimistic_action m with
      | DoPessimisticCheck => true
      | SkipPessimisticCheck => negb (tp_is_retry_request (pm_txn_props m))
      | DoConstraintCheck => false
      end
  end.

Definition PrewriteMutation_need_min_commit_ts (m : PrewriteMutation) : bool :=
  match tp_commit_kind (pm_txn_props m) with Async _ | OnePc _ => true | TwoPc => false end.

Definition PrewriteMutation_try_one_pc (m : PrewriteMutation) : bool :=
  match tp_commit_kind (pm_txn_props m) with OnePc _ => true | _ => false end.

Definition PrewriteMutation_write_conflict_error {A} (m : PrewriteMutation) (write : Write)
    (commit_ts : TimeStamp) (reason : WriteConflictReason) : mvcc_res A :=
  raw ← map_err MvCodec (Key_to_raw (pm_key m));
  Err (MvWriteConflict (tp_start_ts (pm_txn_props m)) (w_start_ts write) commit_ts raw
         (tp_primary (pm_txn_props m)) reason).

Definition PrewriteMutation_assertion_failed_error (m : PrewriteMutation)
    (existing_start_ts existing_commit_ts : TimeStamp) : mvcc_res unit :=
  raw ← map_err MvCodec (Key_to_raw (pm_key m));
  Err (MvAssertionFailed (tp_start_ts (pm_txn_props m)) raw (pm_assertion m)
         existing_start_ts existing_commit_ts).

Definition txn_set_cm (t : MvccTxn) (cm : ConcurrencyManager) : MvccTxn :=
  {| t_start_ts := t_start_ts t; t_write_size := t_write_size t; t_modifies := t_modifies t;
     t_locks_for_1pc := t_locks_for_1pc t; t_new_locks := t_new_locks t; t_cm := cm;
     t_guards := t_guards t |}.

Definition txn_push_guard (t : MvccTxn) (key : Key) : MvccTxn :=
  {| t_start_ts := t_start_ts t; t_write_size := t_write_size t; t_modifies := t_modifies t;
     t_locks_for_1pc := t_locks_for_1pc t; t_new_locks := t_new_locks t; t_cm := t_cm t;
     t_guards := t_guards t ++ [key] |}.

(** The timestamp computed under the key's memory lock. *)
Definition calculate_min_commit_ts (max_ts start_ts for_update_ts lock_min_commit_ts : TimeStamp)
    : mvcc_res TimeStamp :=
  min_commit_ts ← TimeStamp_next (Z.max (Z.max max_ts start_ts) for_update_ts);
  Ok (Z.max lock_min_commit_ts min_commit_ts).

(** [Panic] also stands for waiting forever on a key handle that is held, which
    the latches of the scheduler exclude.  When the timestamp is too large the
    guard is dropped with the error and the lock is as it was. *)
Definition async_commit_timestamps (key : Key) (lock : Lock)
    (start_ts for_update_ts max_commit_ts : TimeStamp) (txn : MvccTxn)
    : mvcc_res (mvcc_res TimeStamp * Lock * MvccTxn) :=
  match lock_key (t_cm txn) key with
  | None => Panic
  | Some cm =>
      min_commit_ts ← calculate_min_commit_ts (cm_max_ts cm) start_ts for_update_ts
                        (l_min_commit_ts lock);
      if (negb (TimeStamp_is_zero max_commit_ts) && (max_commit_ts <? min_commit_ts))%bool then
        Ok (Err (MvCommitTsTooLarge start_ts min_commit_ts max_commit_ts), lock,
            txn_set_cm txn (guard_drop cm key))
      else
        let lock := Lock_set_min_commit_ts lock min_commit_ts in
        Ok (Ok min_commit_ts, lock,
            txn_push_guard (txn_set_cm txn (guard_set_lock cm key (Some lock))) key)
  end.

Section Prewrite.
Context {Snap : Type} `{EngineSnapshot Snap}.
Context (now : Z) (tso : option TimeStamp) (can_enable_last_change_ts : bool).
Context (stat_write_next : SnapshotReader Snap -> Key -> TimeStamp -> u64).
Implicit Types reader : SnapshotReader Snap.

Definition SnapshotReader_get_write_with_commit_ts reader (key : Key) (ts : TimeStamp)
    : mvcc_res (option (Write * TimeStamp)) :=
  get_write_with_commit_ts reader key ts (Some (r_start_ts reader)).

Definition next_last_change_info reader (key : Key) (write : Write) (start_ts commit_ts : TimeStamp)
    : mvcc_res LastChange :=
  match w_write_type write with
  | WtPut | WtDelete => LastChange_make_exist commit_ts 1
  | WtLock | WtRollback =>
      match w_last_change write with
      | LcExist last_change_ts versions => LastChange_make_exist last_change_ts (as_u64 (versions + 1))
      | LcNotExist => Ok LcNotExist
      | LcUnknown =>
          let reader := SnapshotReader_new start_ts (r_snapshot reader) in
          found ← SnapshotReader_get_write_with_commit_ts reader key commit_ts;
          match found with
          | None => Ok LcNotExist
          | Some (w, last_change_ts) =>
              _ ← assert_ (bool_decide (w_write_type w = WtPut));
              LastChange_make_exist last_change_ts (as_u64 (stat_write_next reader key commit_ts + 1))
          end
      end
  end.

Definition check_data_constraint reader (should_not_exist : bool) (write : Write)
    (write_commit_ts : TimeStamp) (key : Key) : mvcc_res unit :=
  let write_is_invalid :=
    match w_gc_fence write with Some gc_fence_ts => negb (TimeStamp_is_zero gc_fence_ts) | None => false end in
  if (negb should_not_exist || bool_decide (w_write_type write = WtDelete) || write_is_invalid)%bool
  then Ok tt
  else
    existing_start_ts ←
      (if decide (w_write_type write = WtPut) then Ok (Some (w_start_ts write))
       else
         prev ← TimeStamp_prev write_commit_ts;
         prev_write ← SnapshotReader_get_write reader key prev;
         Ok (option_map w_start_ts prev_write));
    match existing_start_ts with
    | Some existing_start_ts =>
        raw ← map_err MvCodec (Key_to_raw key);
        Err (MvAlreadyExist raw existing_start_ts)
    | None => Ok tt
    end.

(** The loop of [check_for_newer_version] from [seek_ts] on. *)
Fixpoint check_for_newer_version_loop reader (fuel : nat) (m : PrewriteMutation) (seek_ts : TimeStamp)
    : mvcc_res (option (Write * TimeStamp) * PrewriteMutation) :=
  match fuel with
  | O => Panic
  | S fuel' =>
      let start_ts := tp_start_ts (pm_txn_props m) in
      found ← seek_write reader (pm_key m) seek_ts;
      match found with
      | None =>
          Ok (None, if seek_ts =? TimeStamp_max then pm_set_last_change m LcNotExist else m)
      | Some (commit_ts, write) =>
          if ((commit_ts =? start_ts)
              && (bool_decide (w_write_type write = WtRollback) || w_has_overlapped_rollback write))%bool
          then PrewriteMutation_write_conflict_error m write commit_ts WcSelfRolledBack
          else
            m ← (if seek_ts =? TimeStamp_max then
                   lc ← next_last_change_info reader (pm_key m) write (r_start_ts reader) commit_ts;
                   Ok (pm_set_last_change m lc)
                 else Ok m);
            let accept :=
              _ ← check_data_constraint reader (pm_should_not_exist m) write commit_ts (pm_key m);
              Ok (Some (write, commit_ts), m) in
            match tp_kind (pm_txn_props m) with
            | Optimistic _ =>
                if start_ts <? commit_ts
                then PrewriteMutation_write_conflict_error m write commit_ts WcOptimistic
                else accept
            | Pessimistic for_update_ts =>
                if (bool_decide (pm_pessimistic_action m = DoConstraintCheck) && (start_ts <? commit_ts))%bool
                then PrewriteMutation_write_conflict_error m write commit_ts WcLazyUniquenessCheck
                else if for_update_ts <? commit_ts then
                  if decide (w_write_type write = WtRollback) then
                    seek_ts ← TimeStamp_prev commit_ts;
                    check_for_newer_version_loop reader fuel' m seek_ts
                  else
                    raw ← map_err MvCodec (Key_into_raw (pm_key m));
                    Err (MvPessimisticLockNotFound start_ts raw NonLockKeyConflict)
                else accept
            end
      end
  end.

Definition PrewriteMutation_check_for_newer_version reader (m : PrewriteMutation)
    : mvcc_res (option (Write * TimeStamp) * PrewriteMutation) :=
  check_for_newer_version_loop reader (read_fuel reader) m TimeStamp_max.

Definition has_invalid_gc_fence (w : Write) : bool :=
  match w_gc_fence w with Some gc_fence_ts => negb (TimeStamp_is_zero gc_fence_ts) | None => false end.

Definition PrewriteMutation_check_assertion reader (m : PrewriteMutation)
    (write : option (Write * TimeStamp)) (write_loaded : bool)
    : mvcc_res (option (Write * TimeStamp) * bool) :=
  if (bool_decide (pm_assertion m = ANone)
      || bool_decide (tp_assertion_level (pm_txn_props m) = AlOff))%bool then Ok (None, false)
  else if (negb (bool_decide (tp_assertion_level (pm_txn_props m) = AlStrict)) && negb write_loaded)%bool
  then Ok (None, false)
  else
    let write :=
      match write with
      | Some (w, _) => if (write_loaded && has_invalid_gc_fence w)%bool then None else write
      | None => None
      end in
    let need_reload :=
      (negb write_loaded
       || match write with
          | Some (w, _) => negb (bool_decide (w_write_type w = WtPut))
                           && negb (bool_decide (w_write_type w = WtDelete))
          | None => false
          end)%bool in
    '(write, reloaded_write, reloaded) ←
      (if need_reload then
         let reload_ts := match write with Some (_, ts) => ts | None => TimeStamp_max end in
         reloaded_write ← SnapshotReader_get_write_with_commit_ts reader (pm_key m) reload_ts;
         Ok (reloaded_write, reloaded_write, true)
       else Ok (write, None, false));
    let assertion_err :=
      match pm_assertion m, write with
      | AExist, None => PrewriteMutation_assertion_failed_error m TimeStamp_zero TimeStamp_zero
      | AExist, Some (w, commit_ts) =>
          if decide (w_write_type w = WtDelete)
          then PrewriteMutation_assertion_failed_error m (w_start_ts w) commit_ts else Ok tt
      | ANotExist, Some (w, commit_ts) =>
          if decide (w_write_type w = WtPut)
          then PrewriteMutation_assertion_failed_error m (w_start_ts w) commit_ts else Ok tt
      | _, _ => Ok tt
      end in
    match assertion_err with
    | Ok _ => Ok (reloaded_write, reloaded)
    | e =>
        _ ← (if PrewriteMutation_skip_constraint_check m
             then PrewriteMutation_check_for_newer_version reader m else Ok (None, m));
        _ ← e;
        Ok (reloaded_write, reloaded)
    end.

Definition amend_pessimistic_lock reader (m : PrewriteMutation) : mvcc_res PrewriteMutation :=
  write ← seek_write reader (pm_key m) TimeStamp_max;
  m ← match write with
      | Some (commit_ts, write) =>
          if r_start_ts reader <=? commit_ts then
            raw ← map_err MvCodec (Key_into_raw (pm_key m));
            Err (MvPessimisticLockNotFound (r_start_ts reader) raw LockMissingAmendFail)
          else
            lc ← next_last_change_info reader (pm_key m) write (r_start_ts reader) commit_ts;
            Ok (pm_set_last_change m lc)
      | None => Ok (pm_set_last_change m LcNotExist)
      end;
  _ ← PrewriteMutation_check_assertion reader m (option_map (fun '(ts, w) => (w, ts)) write) true;
  Ok m.

(** The lock [write_lock] starts from, and the value it writes. *)
Definition write_lock_new_lock (m : PrewriteMutation) (lock_status : LockStatus) (generation : u64)
    (lock_type : LockType) : Lock :=
  let props := pm_txn_props m in
  let for_update_ts_to_write :=
    match lock_status with
    | PessimisticStatus from_pessimistic_lock =>
        Z.max (TransactionProperties_for_update_ts props) from_pessimistic_lock
    | _ => TransactionProperties_for_update_ts props
    end in
  let lock :=
    Lock_new lock_type (tp_primary props) (tp_start_ts props) (pm_lock_ttl m) None
      for_update_ts_to_write (tp_txn_size props) (pm_min_commit_ts m) false in
  let lock := Lock_with_generation (Lock_set_txn_source lock (tp_txn_source props)) generation in
  if (can_enable_last_change_ts && bool_decide (pm_lock_type m = Some LtLock))%bool
  then Lock_set_last_change lock (pm_last_change m) else lock.

Definition PrewriteMutation_write_lock (m : PrewriteMutation) (lock_status : LockStatus)
    (txn : MvccTxn) (is_new_lock : bool) (generation : u64)
    : mvcc_res (mvcc_res TimeStamp * MvccTxn) :=
  let props := pm_txn_props m in
  let try_one_pc := PrewriteMutation_try_one_pc m in
  lock_type ← unwrap (pm_lock_type m);
  let lock := write_lock_new_lock m lock_status generation lock_type in
  '(lock, txn) ←
    match pm_value m with
    | Some value =>
        if is_short_value value then Ok (Lock_set_short_value lock (Some value), txn)
        else txn ← put_value txn (pm_key m) (tp_start_ts props) value; Ok (lock, txn)
    | None => Ok (lock, txn)
    end;
  let lock :=
    match pm_secondary_keys m with
    | Some secondary_keys =>
        Lock_set_secondaries (Lock_set_use_async_commit lock true) secondary_keys
    | None => if try_one_pc then Lock_set_use_one_pc lock true else lock
    end in
  '(final_min_commit_ts, lock, try_one_pc, txn) ←
    (if (l_use_async_commit lock || try_one_pc)%bool then
       max_commit_ts ← TransactionProperties_max_commit_ts props;
       '(r, lock, txn) ← async_commit_timestamps (pm_key m) lock (tp_start_ts props)
                           (TransactionProperties_for_update_ts props) max_commit_ts txn;
       match r with
       | Err (MvCommitTsTooLarge _ _ _) =>
           Ok (r, Lock_set_secondaries
                    (Lock_set_use_async_commit (Lock_set_use_one_pc lock false) false) [],
               false, txn)
       | _ => Ok (r, lock, try_one_pc, txn)
       end
     else Ok (Ok TimeStamp_zero, lock, try_one_pc, txn));
  if try_one_pc : bool then
    Ok (final_min_commit_ts,
        put_locks_for_1pc txn (pm_key m) lock (LockStatus_has_pessimistic_lock lock_status))
  else
    txn ← put_lock txn (pm_key m) lock is_new_lock;
    Ok (final_min_commit_ts, txn).

(** [txn.concurrency_manager.update_max_ts(start_ts)?] *)
Definition txn_update_max_ts (txn : MvccTxn) (ts : TimeStamp) : mvcc_res unit * MvccTxn :=
  let '(r, cm) := update_max_ts now tso (t_cm txn) ts in
  (map_err MvInvalidMaxTsUpdate r, txn_set_cm txn cm).

(** The lock check at the head of [prewrite]; the flag is [lock_amended]. *)
Definition prewrite_lock_status reader (m : PrewriteMutation)
    (pessimistic_action : PrewriteRequestPessimisticAction)
    (expected_for_update_ts : option TimeStamp) (generation : u64)
    : mvcc_res (LockStatus * PrewriteMutation * bool) :=
  found ← load_lock reader (pm_key m);
  match found with
  | Some lock =>
      '(status, m) ← PrewriteMutation_check_lock m lock pessimistic_action expected_for_update_ts
                       generation;
      Ok (status, m, false)
  | None =>
      if decide (pessimistic_action = DoPessimisticCheck) then
        _ ← assert_ (generation =? 0);
        m ← amend_pessimistic_lock reader m;
        Ok (NoneStatus, m, true)
      else Ok (NoneStatus, m, false)
  end.

(** The version and assertion checks; the result is the previous write and
    whether it has been loaded. *)
Definition prewrite_checks reader (m : PrewriteMutation) (lock_status : LockStatus)
    (lock_amended : bool) (generation : u64)
    : mvcc_res (option Write * bool * PrewriteMutation) :=
  '(prev_write, m, prev_write_loaded) ←
    (if negb (PrewriteMutation_skip_constraint_check m) then
       '(w, m) ← PrewriteMutation_check_for_newer_version reader m; Ok (w, m, true)
     else Ok (None, m, false));
  let is_subsequent_flush :=
    ((0 <? generation) && match lock_status with LockedStatus _ => true | _ => false end)%bool in
  '(prev_write, prev_write_loaded) ←
    (if (negb lock_amended && negb is_subsequent_flush)%bool then
       '(reloaded_prev_write, reloaded) ← PrewriteMutation_check_assertion reader m prev_write
                                            prev_write_loaded;
       Ok (if reloaded : bool then (reloaded_prev_write, true) else (prev_write, prev_write_loaded))
     else Ok (prev_write, prev_write_loaded));
  Ok (option_map fst prev_write, prev_write_loaded, m).

Definition prewrite_old_value reader (m : PrewriteMutation) (prev_write_loaded : bool)
    (prev_write : option Write) : mvcc_res OldValue :=
  let props := pm_txn_props m in
  match tp_need_old_value props, pm_mutation_type m with
  | true, MtInsert => Ok OvNone
  | true, MtPut | true, MtDelete =>
      if PrewriteMutation_skip_constraint_check m then
        Ok (if TransactionProperties_is_pessimistic props then OvUnspecified else OvNone)
      else
        let ts := match tp_kind props with
                  | Optimistic _ => tp_start_ts props
                  | Pessimistic for_update_ts => for_update_ts
                  end in
        get_old_value reader (pm_key m) ts prev_write_loaded prev_write
  | _, _ => Ok OvUnspecified
  end.

Definition prewrite_with_generation (txn : MvccTxn) reader (txn_props : TransactionProperties)
    (mutation : Mutation) (secondary_keys : option (list bytes))
    (pessimistic_action : PrewriteRequestPessimisticAction)
    (expected_for_update_ts : option TimeStamp) (generation : u64)
    : mvcc_res (TimeStamp * OldValue) * MvccTxn :=
  let fail {A} (r : mvcc_res A) txn : mvcc_res (TimeStamp * OldValue) * MvccTxn :=
    (match r with Err e => Err e | _ => Panic end, txn) in
  match PrewriteMutation_from_mutation mutation secondary_keys pessimistic_action txn_props with
  | Ok m =>
      let '(updated, txn) :=
        if pm_should_not_exist m then txn_update_max_ts txn (tp_start_ts txn_props)
        else (Ok tt, txn) in
      match updated with
      | Ok _ =>
          match prewrite_lock_status reader m pessimistic_action expected_for_update_ts generation with
          | Ok (lock_status, m, lock_amended) =>
              match lock_status, generation =? 0 with
              | LockedStatus ts, true => (Ok (ts, OvUnspecified), txn)
              | _, _ =>
                  match prewrite_checks reader m lock_status lock_amended generation with
                  | Ok (prev_write, prev_write_loaded, m) =>
                      if pm_should_not_write m then
                        let '(updated, txn) := txn_update_max_ts txn (tp_start_ts txn_props) in
                        match updated with
                        | Ok _ =>
                            (min_commit_ts ←
                               (if PrewriteMutation_need_min_commit_ts m then
                                  next ← TimeStamp_next (tp_start_ts txn_props);
                                  Ok (Z.max (tp_min_commit_ts txn_props) next)
                                else Ok TimeStamp_zero);
                             Ok (min_commit_ts, OvUnspecified), txn)
                        | r => fail r txn
                        end
                      else
                        match prewrite_old_value reader m prev_write_loaded prev_write with
                        | Ok old_value =>
                            let is_new_lock :=
                              (negb (bool_decide (pessimistic_action = DoPessimisticCheck))
                               || lock_amended)%bool in
                            match PrewriteMutation_write_lock m lock_status txn is_new_lock generation with
                            | Ok (final_min_commit_ts, txn) =>
                                (ts ← final_min_commit_ts; Ok (ts, old_value), txn)
                            | r => fail r txn
                            end
                        | r => fail r txn
                        end
                  | r => fail r txn
                  end
              end
          | r => fail r txn
          end
      | r => fail r txn
      end
  | r => fail r txn
  end.

Definition prewrite (txn : MvccTxn) reader (txn_props : TransactionProperties) (mutation : Mutation)
    (secondary_keys : option (list bytes)) (pessimistic_action : PrewriteRequestPessimisticAction)
    (expected_for_update_ts : option TimeStamp) : mvcc_res (TimeStamp * OldValue) * MvccTxn :=
  prewrite_with_generation txn reader txn_props mutation secondary_keys pessimistic_action
    expected_for_update_ts 0.
End Prewrite.

(** ** What a prewrite does to a store *)

(** The request is representable on the wire. *)
Record props_ok (p : TransactionProperties) : Prop := {
  props_start_ts : u64_ok (tp_start_ts p);
  props_for_update_ts : u64_ok (TransactionProperties_for_update_ts p);
  props_primary : zlen (tp_primary p) < 2 ^ 62;
  props_txn_size : u64_ok (tp_txn_size p);
  props_lock_ttl : u64_ok (tp_lock_ttl p);
  props_min_commit_ts : u64_ok (tp_min_commit_ts p);
  props_txn_source : u64_ok (tp_txn_source p)
}.

Definition secondaries_ok (o : option (list bytes)) : Prop :=
  match o with
  | Some ks => Forall (fun k => zlen k < 2 ^ 62) ks /\ Z.of_nat (length ks) < 2 ^ 62
  | None => True
  end.

(** The prewrites considered: an optimistic one with its version check, or one of
    a pessimistic transaction that asks for a lock or for the version check.
    Keys that a pessimistic transaction neither locks nor checks depend on the
    decision at the primary key. *)
Definition prewrite_mode (p : TransactionProperties) (action : PrewriteRequestPessimisticAction) : Prop :=
  match tp_kind p with
  | Optimistic skip => skip = false /\ action = SkipPessimisticCheck
  | Pessimistic _ => action <> SkipPessimisticCheck
  end.

Lemma LastChange_make_exist_ok ts n lc :
  u64_ok ts -> u64_ok n -> LastChange_make_exist (E:=mvcc_error) ts n = Ok lc -> last_change_ok lc.
Proof.
  intros Ht Hn. unfold LastChange_make_exist, TimeStamp_is_zero. destruct (Z.eqb_spec ts 0); [done|].
  destruct (Z.ltb_spec 0 n); [|done]. cbn. intros [= <-]. cbn. unfold u64_ok in *. lia.
Qed.

(** *** Only [write_lock] finds the commit timestamp too large *)

Definition is_too_large {A} (r : mvcc_res A) : bool :=
  match r with Err (MvCommitTsTooLarge _ _ _) => true | _ => false end.

Lemma is_too_large_bind {A B} (r : mvcc_res A) (f : A -> mvcc_res B) :
  is_too_large r = false -> (forall x, is_too_large (f x) = false) -> is_too_large (r ≫= f) = false.
Proof. intros Hr Hf. destruct r as [x|e|]; cbn in *; [apply Hf|by destruct e|done]. Qed.

Lemma is_too_large_codec {A} (r : res codec_error A) : is_too_large (map_err MvCodec r) = false.
Proof. by destruct r. Qed.

Lemma is_too_large_types {A} (r : res txn_types_error A) : is_too_large (map_err mvcc_error_from r) = false.
Proof. by destruct r as [|[]|]. Qed.

Lemma is_too_large_assert b : is_too_large (assert_ b) = false.
Proof. by destruct b. Qed.

Create HintDb too_large.
#[export] Hint Resolve is_too_large_codec is_too_large_types is_too_large_assert : too_large.

(** Follows the binds and branches of a result down to calls with a lemma. *)
Ltac too_large :=
  repeat first
    [ done
    | solve [auto with too_large]
    | apply is_too_large_bind; [|intros]
    | match goal with
      | |- context [match ?x with _ => _ end] => destruct x
      | |- context [if ?x then _ else _] => destruct x
      end ].

Section TooLarge.
Context {Snap : Type} `{EngineSnapshot Snap} (stat_next : SnapshotReader Snap -> Key -> TimeStamp -> u64).
Context (r : SnapshotReader Snap).

Lemma make_exist_too_large ts n : is_too_large (LastChange_make_exist ts n) = false.
Proof. unfold LastChange_make_exist. too_large. Qed.

Lemma seek_write_too_large rd key ts : is_too_large (seek_write (Snap:=Snap) rd key ts) = false.
Proof. unfold seek_write. too_large. Qed.

Lemma get_write_loop_too_large (rd : SnapshotReader Snap) fuel key limit :
  forall ts sr, is_too_large (get_write_loop rd fuel key ts limit sr) = false.
Proof.
  pose proof seek_write_too_large. induction fuel as [|fuel IH]; intros ts sr; cbn [get_write_loop]; too_large.
Qed.

#[local] Hint Resolve make_exist_too_large seek_write_too_large get_write_loop_too_large : too_large.

Lemma get_write_too_large rd key ts limit :
  is_too_large (get_write_with_commit_ts (Snap:=Snap) rd key ts limit) = false.
Proof. unfold get_write_with_commit_ts. too_large. Qed.

#[local] Hint Resolve get_write_too_large : too_large.

Lemma next_last_change_info_too_large key w st c :
  is_too_large (next_last_change_info stat_next r key w st c) = false.
Proof. unfold next_last_change_info, SnapshotReader_get_write_with_commit_ts. too_large. Qed.

Lemma check_data_constraint_too_large b w c key : is_too_large (check_data_constraint r b w c key) = false.
Proof.
  unfold check_data_constraint, SnapshotReader_get_write, get_write, TimeStamp_prev. too_large.
Qed.

Lemma write_conflict_too_large {A} m w c reason :
  is_too_large (A:=A) (PrewriteMutation_write_conflict_error m w c reason) = false.
Proof. unfold PrewriteMutation_write_conflict_error. too_large. Qed.

#[local] Hint Resolve next_last_change_info_too_large check_data_constraint_too_large
  write_conflict_too_large : too_large.

Lemma check_for_newer_version_too_large m :
  is_too_large (PrewriteMutation_check_for_newer_version stat_next r m) = false.
Proof.
  unfold PrewriteMutation_check_for_newer_version. generalize (read_fuel r) as fuel, TimeStamp_max as ts.
  intros fuel. revert m.
  induction fuel as [|fuel IH]; intros m ts; cbn [check_for_newer_version_loop]; [done|].
  unfold TimeStamp_prev. too_large.
Qed.

#[local] Hint Resolve check_for_newer_version_too_large : too_large.

Lemma check_assertion_too_large m w loaded :
  is_too_large (PrewriteMutation_check_assertion stat_next r m w loaded) = false.
Proof.
  unfold PrewriteMutation_check_assertion, SnapshotReader_get_write_with_commit_ts,
    PrewriteMutation_assertion_failed_error.
  destruct (_ || _)%bool; [done|]. destruct (_ && _)%bool; [done|].
  apply is_too_large_bind; [too_large|]. intros [[w1 w2] b]. set (err := match pm_assertion m with AExist => _ | _ => _ end).
  assert (is_too_large err = false) as Herr by (unfold err; too_large).
  destruct err as [|e|]; [done| |]; too_large.
Qed.

#[local] Hint Resolve check_assertion_too_large : too_large.

Lemma prewrite_lock_status_too_large m action expected generation :
  is_too_large (prewrite_lock_status stat_next r m action expected generation) = false.
Proof.
  unfold prewrite_lock_status, load_lock, load_in_memory_pessimistic_lock, check_term_version_status,
    PrewriteMutation_check_lock, PrewriteMutation_lock_info, amend_pessimistic_lock. too_large.
Qed.

Lemma prewrite_checks_too_large m status amended generation :
  is_too_large (prewrite_checks stat_next r m status amended generation) = false.
Proof. unfold prewrite_checks. too_large. Qed.

Lemma prewrite_old_value_too_large m loaded w : is_too_large (prewrite_old_value r m loaded w) = false.
Proof. unfold prewrite_old_value, get_old_value, get_write. too_large. Qed.
End TooLarge.

Section PrewriteEffects.
Context (now : Z) (tso : option TimeStamp) (can_enable : bool).
Context (stat_next : SnapshotReader Store -> Key -> TimeStamp -> u64).
Context (s : Store) (raw : bytes) (st : TimeStamp).
Hypothesis (wf : wf_store s) (raw_ok : bytes_ok raw) (st_ok : u64_ok st).
Let key := Key_from_raw raw.
Let W := a_write (abs s) key.
Context (reader : SnapshotReader Store).
Hypothesis (rd : reader_of s st reader).

(** No record of the key excludes the transaction. *)
Definition no_newer : Prop :=
  forall t w, W t = Some w ->
  t <= st /\ (t = st -> w_write_type w <> WtRollback /\ w_has_overlapped_rollback w = false).

Lemma as_u64_u64_ok z : u64_ok (as_u64 z).
Proof. unfold as_u64, u64_ok. apply Z.mod_pos_bound. lia. Qed.

Lemma next_last_change_info_ok w c lc :
  W c = Some w -> next_last_change_info stat_next reader key w st c = Ok lc -> last_change_ok lc.
Proof.
  intros Hw. destruct (abs_write_ok s raw c w wf raw_ok Hw) as [Hc Hok].
  pose proof (write_ok_last_change w Hok) as Hlc. unfold next_last_change_info.
  destruct (w_write_type w) eqn:Ht; try (apply LastChange_make_exist_ok; [done|by vm_compute]).
  all: destruct (w_last_change w) as [|l n|] eqn:El;
    [|apply LastChange_make_exist_ok; [cbn in Hlc; unfold u64_ok; lia|apply as_u64_u64_ok]|by intros [= <-]].
  all: destruct (SnapshotReader_get_write_with_commit_ts _ _ _) as [[[w' l]|]| |] eqn:Hg;
    cbn [mbind res_bind]; [|by intros [= <-]|done|done].
  all: destruct (bool_decide _); [|done]; cbn [assert_ mbind res_bind].
  all: apply LastChange_make_exist_ok; [|apply as_u64_u64_ok].
  all: rewrite (reader_snapshot rd) in Hg;
    by eapply (get_write_with_commit_ts_range (SnapshotReader_new st s) raw (proj1 wf) raw_ok c).
Qed.

(** What hints are computed from: the records, and the hint of a lock. *)
Definition readable_history : Prop :=
  key_history W /\ forall l, a_lock (abs s) key = Some l -> hint_ok W TimeStamp_max (l_last_change l).

(** A last change that describes the records of the key. *)
Definition lock_hint_ok (lc : LastChange) : Prop :=
  last_change_ok lc /\ (readable_history -> hint_ok W TimeStamp_max lc).

Lemma lock_hint_none : (forall t w, W t = Some w -> False) -> lock_hint_ok LcNotExist.
Proof.
  intros Hno. split; [done|]. intros _. exists None. split; [|done]. intros t w _ Hw. by destruct (Hno t w).
Qed.

Lemma newest_max_change c o :
  (forall t w, W t = Some w -> t <= c) -> newest_change W c o -> newest_change W TimeStamp_max o.
Proof.
  intros Hmax. destruct o as [[c' w']|]; cbn.
  - intros (Hc & Hw & Hch & Hno). split_and!; [|done|done|].
    + destruct (abs_write_ok s raw c' w' wf raw_ok Hw) as [Hu _].
      unfold u64_ok, TimeStamp_max, u64_max in *. lia.
    + intros t w Ht Hwt. apply (Hno t w); [|done]. pose proof (Hmax t w Hwt). lia.
  - intros Hno t w _ Hwt. apply (Hno t w); [|done]. by apply (Hmax t w).
Qed.

(** The hint for a new lock, from the newest record of the key. *)
Lemma next_last_change_info_hint w c lc :
  W c = Some w -> (forall t w', W t = Some w' -> t <= c) ->
  next_last_change_info stat_next reader key w st c = Ok lc -> lock_hint_ok lc.
Proof.
  intros Hw Hmax Hlc. split; [by eapply next_last_change_info_ok|]. intros [Hh _].
  assert (newest W c (Some (c, w))) as Hn by (split_and!; [lia|done|intros; lia]).
  assert (forall o, newest_change W (c - 1) o -> is_change w = false -> newest_change W TimeStamp_max o)
    as Hbelow.
  { intros o Ho Hch. apply (newest_max_change c); [done|]. by eapply newest_change_below. }
  destruct (is_change w) eqn:Hch.
  { assert (lc = LcExist c 1) as ->.
    { unfold next_last_change_info in Hlc. unfold is_change in Hch.
      destruct (w_write_type w); try done; unfold LastChange_make_exist in Hlc; by res_inv. }
    split; [by apply (abs_write_ok s raw c w wf raw_ok)|]. exists w.
    apply (newest_max_change c); [done|]. by apply newest_change_here. }
  unfold next_last_change_info in Hlc. pose proof (kh_hint W Hh c w Hw Hch) as Hhint.
  assert (match w_write_type w with WtPut | WtDelete => False | _ => True end) as Hty
    by (unfold is_change in Hch; by destruct (w_write_type w)).
  destruct (w_last_change w) as [|l n|]; cbn in Hhint.
  - assert (exists o, get_write_with_commit_ts (SnapshotReader_new st s) key c (Some st) = Ok (visible o)
      /\ newest_change W c o) as (o & Hg & Ho).
    { assert (limit_quiet W c (Some st)) as Hq
        by (intros t wt Ht Hwt; pose proof (Hmax t wt Hwt); lia).
      destruct (get_write_with_commit_ts_spec (SnapshotReader_new st s) raw (proj1 wf) raw_ok c (Some st)
        (key_history_ok W Hh)) as (o & Ho & Hg);
        [by apply (abs_write_ok s raw c w wf raw_ok)|done|].
      exists o. split; [|done]. unfold key. rewrite Hg. by rewrite (fenced_visible W c). }
    apply (newest_max_change c o Hmax) in Ho.
    rewrite (reader_snapshot rd) in Hlc. unfold SnapshotReader_get_write_with_commit_ts in Hlc.
    cbn [r_start_ts SnapshotReader_new] in Hlc. rewrite Hg in Hlc. cbn [mbind res_bind] in Hlc.
    destruct (visible o) as [[w' l]|] eqn:Hv.
    + assert (exists n, LastChange_make_exist (E:=mvcc_error) l n = Ok lc) as [n Hmk].
      { destruct (w_write_type w); try done; apply res_bind_ok in Hlc as (? & _ & ?); eauto. }
      unfold LastChange_make_exist in Hmk. destruct (negb _); [|done]. destruct (0 <? n); [|done].
      cbn [assert_ mbind res_bind] in Hmk. injection Hmk as <-.
      destruct o as [[c' wo]|]; [|done]. cbn [visible] in Hv. destruct (w_write_type wo); try done.
      injection Hv as <- <-. split; [|eauto]. destruct Ho as (_ & Hwo & _).
      by apply (abs_write_ok s raw c' wo wf raw_ok).
    + assert (lc = LcNotExist) as -> by (destruct (w_write_type w); try done; by injection Hlc).
      by exists o.
  - destruct Hhint as (Hl & w' & Hw'). assert (exists n, lc = LcExist l n) as [n' ->].
    { unfold LastChange_make_exist in Hlc. destruct (w_write_type w); try done;
        destruct (negb _); try done; destruct (0 <? as_u64 (n + 1)); try done; injection Hlc as <-; eauto. }
    split; [done|]. exists w'. by apply Hbelow.
  - destruct Hhint as (o & Ho & Hv).
    assert (lc = LcNotExist) as -> by (destruct (w_write_type w); try done; by injection Hlc).
    exists o. split; [|done]. by apply Hbelow.
Qed.

Lemma LastChange_make_exist_total ts n :
  0 < ts -> 0 <= n < 2 ^ 64 - 1 ->
  LastChange_make_exist (E:=mvcc_error) ts (as_u64 (n + 1)) = Ok (LcExist ts (n + 1)).
Proof.
  intros Hts Hn. unfold LastChange_make_exist, TimeStamp_is_zero, as_u64.
  rewrite Z.mod_small by lia. destruct (Z.eqb_spec ts 0); [lia|]. destruct (Z.ltb_spec 0 (n + 1)); [done|lia].
Qed.

(** Computing the hint fails only when the number of versions overflows. *)
Lemma next_last_change_info_total w c :
  key_history W -> W c = Some w -> (forall t w', W t = Some w' -> t <= c) ->
  (forall r k t, 0 <= stat_next r k t < 2 ^ 64 - 1) ->
  (forall l n, w_last_change w = LcExist l n -> n < 2 ^ 64 - 1) ->
  exists lc, next_last_change_info stat_next reader key w st c = Ok lc.
Proof.
  intros Hh Hw Hmax Hstat Hn. pose proof (kh_pos W Hh c w Hw) as Hc. unfold next_last_change_info.
  destruct (abs_write_ok s raw c w wf raw_ok Hw) as [Hcu Hok]. pose proof (write_ok_last_change w Hok) as Hlc.
  pose proof (LastChange_make_exist_total c 0) as Hone. change (as_u64 (0 + 1)) with 1 in Hone.
  destruct (w_write_type w) eqn:Hty; try (eexists; apply Hone; lia).
  all: destruct (w_last_change w) as [|l n|] eqn:El; [| |by exists LcNotExist].
  2, 4: cbn in Hlc; specialize (Hn l n eq_refl); eexists; apply LastChange_make_exist_total; lia.
  all: assert (limit_quiet W c (Some st)) as Hq by (intros t wt Ht Hwt; pose proof (Hmax t wt Hwt); lia).
  all: destruct (get_write_with_commit_ts_spec (SnapshotReader_new st s) raw (proj1 wf) raw_ok c (Some st)
        (key_history_ok W Hh) Hcu Hq) as (o & Ho & Hg).
  all: unfold SnapshotReader_get_write_with_commit_ts; rewrite (reader_snapshot rd);
    cbn [r_start_ts SnapshotReader_new]; unfold key; rewrite Hg, (fenced_visible W c) by done; cbn [mbind res_bind].
  all: destruct o as [[c' w']|]; cbn [visible]; [|by exists LcNotExist].
  all: destruct (w_write_type w') eqn:Hty'; try (by exists LcNotExist).
  all: rewrite bool_decide_true by done; cbn [assert_ mbind res_bind]; eexists; apply LastChange_make_exist_total; [|apply Hstat].
  all: destruct Ho as (_ & Hw' & _); by apply (kh_pos W Hh c' w').
Qed.

(** The records of the mutation that do not depend on the last change. *)
Definition same_but_last_change (m m' : PrewriteMutation) : Prop :=
  exists lc, lock_hint_ok lc /\ m' = pm_set_last_change m lc.

Lemma newest_max o : newest W TimeStamp_max o -> forall t w, W t = Some w ->
  match o with Some (c, _) => t <= c | None => False end.
Proof.
  intros Hn t w Hw. destruct (abs_write_ok s raw t w wf raw_ok Hw) as [Ht _].
  assert (t <= TimeStamp_max) by (unfold TimeStamp_max, u64_max, u64_ok in *; lia).
  destruct o as [[c w']|]; cbn in Hn.
  - destruct (Z_le_gt_dec t c); [done|]. destruct Hn as (_ & _ & Hno). rewrite Hno in Hw; [done|lia].
  - rewrite Hn in Hw; done.
Qed.

(** Below the newest record the loop leaves the mutation as it is. *)
Lemma check_for_newer_version_below fuel : forall m seek_ts o m',
  pm_key m = key -> 0 <= seek_ts < TimeStamp_max ->
  check_for_newer_version_loop stat_next reader fuel m seek_ts = Ok (o, m') -> m' = m.
Proof.
  induction fuel as [|fuel IH]; intros m seek_ts o m' Hk Hts; [done|]. cbn [check_for_newer_version_loop].
  destruct (Z.eqb_spec seek_ts TimeStamp_max) as [|_]; [lia|]. rewrite Hk.
  destruct (seek_write_spec reader raw) with (ts := seek_ts) as (sr & Hsr & Hn & _);
    [rewrite (reader_snapshot rd); apply wf|done|unfold u64_ok, TimeStamp_max, u64_max in *; lia|].
  fold key in Hsr. rewrite Hsr. cbn [mbind res_bind]. destruct sr as [[c w]|]; [|by intros [= _ <-]].
  destruct Hn as [Hle _]. intros Hc. destruct (_ && _)%bool.
  { unfold PrewriteMutation_write_conflict_error in Hc. by res_inv. }
  destruct (tp_kind (pm_txn_props m)) as [|fu].
  - destruct (_ <? c); [unfold PrewriteMutation_write_conflict_error in Hc; by res_inv|]. by res_inv; simplify_eq.
  - destruct (_ && _)%bool; [unfold PrewriteMutation_write_conflict_error in Hc; by res_inv|].
    destruct (fu <? c); [|by res_inv; simplify_eq]. case_decide; [|by res_inv].
    unfold TimeStamp_prev in Hc. destruct (Z.ltb_spec 0 c); [|done]. cbn in Hc.
    apply IH in Hc; [done..|lia].
Qed.

Lemma check_for_newer_version_inv m o m' :
  pm_key m = key -> tp_start_ts (pm_txn_props m) = st ->
  match tp_kind (pm_txn_props m) with
  | Optimistic _ => True
  | Pessimistic _ => pm_pessimistic_action m = DoConstraintCheck
  end ->
  PrewriteMutation_check_for_newer_version stat_next reader m = Ok (o, m') ->
  no_newer /\ same_but_last_change m m'.
Proof.
  intros Hk Hst Hkind. unfold PrewriteMutation_check_for_newer_version.
  destruct (read_fuel reader) as [|fuel]; [done|]. cbn [check_for_newer_version_loop].
  rewrite Hk, Hst, ?(reader_start rd).
  destruct (seek_write_spec reader raw) with (ts := TimeStamp_max) as (sr & Hsr & Hn & _);
    [rewrite (reader_snapshot rd); apply wf|done|unfold u64_ok, TimeStamp_max, u64_max; lia|].
  rewrite (reader_snapshot rd) in Hn.
  fold key in Hsr. rewrite Hsr. cbn [mbind res_bind]. pose proof (newest_max sr Hn) as Hmax.
  destruct sr as [[c w]|].
  - pose proof (proj1 (proj2 Hn) : W c = Some w) as Hw.
    destruct ((c =? st) && _)%bool eqn:Hself.
    { intros Hc. unfold PrewriteMutation_write_conflict_error in Hc. by res_inv. }
    rewrite Z.eqb_refl. intros Hc. res_inv. cbn [pm_txn_props pm_set_last_change pm_pessimistic_action] in *.
    assert (c <= st /\ m' = pm_set_last_change m a0) as [Hle ->].
    { destruct (tp_kind (pm_txn_props m)) as [|fu].
      - destruct (Z.ltb_spec st c); [unfold PrewriteMutation_write_conflict_error in Hc; by res_inv|].
        by res_inv; simplify_eq.
      - rewrite Hkind in Hc. rewrite bool_decide_true in Hc by done. cbn [andb] in Hc.
        destruct (Z.ltb_spec st c); [unfold PrewriteMutation_write_conflict_error in Hc; by res_inv|].
        split; [done|]. destruct (fu <? c); [|by res_inv; simplify_eq].
        case_decide; [|by res_inv]. unfold TimeStamp_prev in Hc. destruct (Z.ltb_spec 0 c); [|done].
        destruct Hn as [Hcmax _]. cbn [assert_ mbind res_bind] in Hc. eapply check_for_newer_version_below in Hc; [done..|lia]. }
    split.
    + intros t wt Ht. pose proof (Hmax t wt Ht). split; [lia|]. intros ->.
      assert (c = st) as -> by lia.
      assert (wt = w) as -> by congruence. rewrite Z.eqb_refl in Hself. cbn in Hself.
      apply orb_false_iff in Hself as [?%bool_decide_eq_false ?]. done.
    + eexists. split; [|done]. by eapply next_last_change_info_hint.
  - rewrite Z.eqb_refl. intros [= <- <-]. split; [intros t w Ht; by destruct (Hmax t w Ht)|].
    exists LcNotExist. split; [|done]. by apply lock_hint_none.
Qed.

(** [prewrite_mode] for a key: the version check of an optimistic prewrite may
    also be left out when no record excludes the transaction. *)
Definition mode_ok (p : TransactionProperties) (action : PrewriteRequestPessimisticAction) : Prop :=
  match tp_kind p with
  | Optimistic skip => (skip = true -> no_newer) /\ action = SkipPessimisticCheck
  | Pessimistic _ => action <> SkipPessimisticCheck
  end.

Lemma prewrite_mode_ok p action : prewrite_mode p action -> mode_ok p action.
Proof. unfold prewrite_mode, mode_ok. destruct (tp_kind p); [|done]. by intros [-> ->]. Qed.

Lemma prewrite_checks_inv m status amended generation pw loaded m' :
  pm_key m = key -> tp_start_ts (pm_txn_props m) = st ->
  mode_ok (pm_txn_props m) (pm_pessimistic_action m) ->
  prewrite_checks stat_next reader m status amended generation = Ok (pw, loaded, m') ->
  (m' = m \/ same_but_last_change m m') /\ (pm_pessimistic_action m = DoPessimisticCheck \/ no_newer).
Proof.
  intros Hk Hst Hmode Hc. unfold prewrite_checks in Hc.
  res_inv. destruct a as [[a1 a2] a3]. res_inv. destruct a as [b1 b2]. res_inv.
  destruct (PrewriteMutation_skip_constraint_check m) eqn:Hskip; cbn [negb] in H.
  - split; [left; by simplify_eq|]. unfold PrewriteMutation_skip_constraint_check, mode_ok in *.
    destruct (tp_kind _); [right; by apply Hmode|left]. by destruct (pm_pessimistic_action m).
  - res_inv. destruct a as [d1 d2]. res_inv. simplify_eq.
    match goal with Hv : PrewriteMutation_check_for_newer_version _ _ _ = Ok _ |- _ =>
      apply check_for_newer_version_inv in Hv as [Hnn Hsame]; [by auto|done|done|] end.
    unfold PrewriteMutation_skip_constraint_check, mode_ok in *.
    destruct (tp_kind _); [done|]. by destruct (pm_pessimistic_action m).
Qed.

(** The lock under construction, with the for-update timestamp [fu]: in range but
    for the one-phase flag, which is only in memory. *)
Record prelock_ok (lt : LockType) (fu : TimeStamp) (l : Lock) : Prop := {
  prelock_lock_ok : lock_ok (Lock_set_use_one_pc l false);
  prelock_ts : l_ts l = st;
  prelock_type : l_lock_type l = lt;
  prelock_rollback_ts : l_rollback_ts l = [];
  prelock_for_update_ts : l_for_update_ts l = fu;
  prelock_hint : readable_history -> hint_ok W TimeStamp_max (l_last_change l)
}.

Ltac prelock_tac :=
  match goal with H : prelock_ok _ _ ?l |- _ =>
    destruct l; destruct H as [Hok Hts Hty Hrb Hpfu Hhint]; destruct Hok; cbn in *;
    split; [split|..]; cbn in *; auto; try lia end.

Lemma prelock_short_value lt pfu l v :
  prelock_ok lt pfu l -> (length v <= 255)%nat -> prelock_ok lt pfu (Lock_set_short_value l (Some v)).
Proof. intros H Hv. prelock_tac. Qed.

Lemma prelock_one_pc lt pfu l b : prelock_ok lt pfu l -> prelock_ok lt pfu (Lock_set_use_one_pc l b).
Proof. intros H. prelock_tac. Qed.

Lemma prelock_min_commit_ts lt pfu l ts :
  prelock_ok lt pfu l -> u64_ok ts -> prelock_ok lt pfu (Lock_set_min_commit_ts l ts).
Proof. intros H Hts'. prelock_tac. Qed.

Lemma prelock_async lt pfu l ks :
  prelock_ok lt pfu l -> secondaries_ok (Some ks) ->
  prelock_ok lt pfu (Lock_set_secondaries (Lock_set_use_async_commit l true) ks).
Proof. intros H [? ?]. prelock_tac. Qed.

Lemma prelock_fallback lt pfu l :
  prelock_ok lt pfu l ->
  prelock_ok lt pfu (Lock_set_secondaries (Lock_set_use_async_commit (Lock_set_use_one_pc l false) false) []).
Proof. intros H. prelock_tac. Qed.

Lemma prelock_final lt pfu l : prelock_ok lt pfu l -> l_use_one_pc l = false -> lock_ok l.
Proof. intros [Hok _ _ _ _ _] Hpc. destruct l. cbn in *. by subst. Qed.

(** A mutation of a request in range, for the key and the transaction. *)
Record mutation_ok (m : PrewriteMutation) : Prop := {
  mutation_key : pm_key m = key;
  mutation_props : props_ok (pm_txn_props m);
  mutation_start_ts : tp_start_ts (pm_txn_props m) = st;
  mutation_mode : mode_ok (pm_txn_props m) (pm_pessimistic_action m);
  mutation_secondaries : secondaries_ok (pm_secondary_keys m);
  mutation_ttl : u64_ok (pm_lock_ttl m);
  mutation_min_commit_ts : u64_ok (pm_min_commit_ts m);
  mutation_last_change : lock_hint_ok (pm_last_change m)
}.

Lemma mutation_ok_last_change m m' : mutation_ok m -> same_but_last_change m m' -> mutation_ok m'.
Proof. intros Hm (lc & Hlc & ->). destruct Hm. split; auto. Qed.

(** The for-update timestamp of the lock that is replaced. *)
Definition status_for_update_ts (status : LockStatus) : TimeStamp :=
  match status with PessimisticStatus ts => ts | _ => 0 end.

(** The for-update timestamp of the lock that is written. *)
Definition for_update_ts_to_write (p : TransactionProperties) (pfu : TimeStamp) : TimeStamp :=
  Z.max (TransactionProperties_for_update_ts p) pfu.

Lemma new_lock_prelock m status lt :
  mutation_ok m -> u64_ok (status_for_update_ts status) ->
  prelock_ok lt (for_update_ts_to_write (pm_txn_props m) (status_for_update_ts status))
    (write_lock_new_lock can_enable m status 0 lt).
Proof.
  intros [_ Hp Hst _ _ Httl Hmc [Hlc Hhint]] Hfu. destruct Hp. unfold write_lock_new_lock.
  assert (u64_ok (match status with
                  | PessimisticStatus ts => Z.max (TransactionProperties_for_update_ts (pm_txn_props m)) ts
                  | _ => TransactionProperties_for_update_ts (pm_txn_props m)
                  end)) as Hmax by (destruct status; cbn in *; unfold u64_ok in *; lia).
  destruct (can_enable && _)%bool; split; cbn; auto; try (split; cbn; auto; unfold u64_ok in *; done || lia).
  all: destruct status; unfold for_update_ts_to_write; cbn; unfold u64_ok in *; lia.
Qed.

Lemma calculate_min_commit_ts_ok max_ts start fu mc ts :
  u64_ok max_ts -> u64_ok start -> u64_ok fu -> u64_ok mc ->
  calculate_min_commit_ts max_ts start fu mc = Ok ts ->
  u64_ok ts /\ max_ts < ts /\ start < ts /\ fu < ts /\ mc <= ts.
Proof.
  unfold calculate_min_commit_ts, TimeStamp_next, u64_ok, u64_max. intros.
  destruct (Z.ltb_spec (Z.max (Z.max max_ts start) fu) (2 ^ 64 - 1)); [|done].
  cbn in *. simplify_eq. lia.
Qed.

(** The updates of a transaction that did not choose one-phase commit. *)
Definition txn_extends (txn : MvccTxn) (ms : list LModify) (txn' : MvccTxn) : Prop :=
  t_modifies txn' = t_modifies txn ++ map encode_lm ms
  /\ t_locks_for_1pc txn' = t_locks_for_1pc txn /\ t_start_ts txn' = t_start_ts txn.

Lemma txn_extends_trans txn ms txn1 ms' txn2 :
  txn_extends txn ms txn1 -> txn_extends txn1 ms' txn2 -> txn_extends txn (ms ++ ms') txn2.
Proof.
  intros (Hm & Hl & Hs) (Hm' & Hl' & Hs'). split; [|split; congruence].
  by rewrite Hm', Hm, map_app, app_assoc.
Qed.

Lemma txn_extends_add txn ms infos : txn_extends txn ms (add_updates txn ms infos).
Proof. done. Qed.

Lemma txn_extends_refl txn txn' :
  t_modifies txn' = t_modifies txn -> t_locks_for_1pc txn' = t_locks_for_1pc txn ->
  t_start_ts txn' = t_start_ts txn -> txn_extends txn [] txn'.
Proof. intros. split; [by rewrite app_nil_r|done]. Qed.

Lemma put_lock_extends txn l is_new txn' :
  put_lock txn key l is_new = Ok txn' -> txn_extends txn [LPutLock key l] txn'.
Proof.
  destruct is_new; [unfold key; rewrite put_lock_new|rewrite put_lock_old]; by intros [= <-].
Qed.

(** A minimum commit timestamp computed for the transaction: above the reads the
    node has served, the start and the request's for-update timestamp. *)
Definition fresh_ts (max_ts fu ts : TimeStamp) : Prop := max_ts < ts /\ st < ts /\ fu < ts /\ u64_ok ts.

Lemma async_commit_timestamps_inv lt lfu l fu mc txn r l' txn' :
  prelock_ok lt lfu l -> u64_ok (cm_max_ts (t_cm txn)) -> u64_ok fu ->
  async_commit_timestamps key l st fu mc txn = Ok (r, l', txn') ->
  txn_extends txn [] txn'
  /\ ((exists ts, r = Ok ts /\ fresh_ts (cm_max_ts (t_cm txn)) fu ts
         /\ l' = Lock_set_min_commit_ts l ts /\ prelock_ok lt lfu l')
      \/ (l' = l /\ exists ts, r = Err (MvCommitTsTooLarge st ts mc))).
Proof.
  intros Hl Hcm Hfu. unfold async_commit_timestamps, lock_key.
  destruct (cm_lock_table (t_cm txn) !! key); [done|].
  destruct (calculate_min_commit_ts _ _ _ _) as [ts| |] eqn:Hts; cbn [mbind res_bind]; [|done..].
  assert (u64_ok (l_min_commit_ts l)) as Hmin.
  { destruct Hl as [Hok _ _ _ _ _]. destruct l. exact (lock_ok_min_commit_ts _ Hok). }
  apply calculate_min_commit_ts_ok in Hts as (Htsok & Hgt & Hgt' & Hgt'' & _); [|done..].
  destruct (_ && _)%bool; intros E; simplify_eq.
  - split; [by apply txn_extends_refl|]. right. eauto.
  - split; [by apply txn_extends_refl|]. left. exists ts. split_and!; try done.
    by apply prelock_min_commit_ts.
Qed.

(** The value of a mutation is in the lock when it is short and in the default
    column family otherwise. *)
Definition stores_value (value : option bytes) (l : Lock) (vals : list LModify) : Prop :=
  match value with
  | Some v =>
      if is_short_value v then l_short_value l = Some v /\ vals = []
      else l_short_value l = None /\ vals = [LPutValue key st v]
  | None => l_short_value l = None /\ vals = []
  end.

Lemma stores_value_vals value l vals :
  stores_value value l vals -> vals = [] \/ exists v, vals = [LPutValue key st v].
Proof. destruct value as [v|]; cbn; [destruct (is_short_value v)|]; intros [_ ->]; eauto. Qed.

Lemma stores_value_put value l vals :
  stores_value value l vals -> value <> None -> l_short_value l = None -> exists v, vals = [LPutValue key st v].
Proof. destruct value as [v|]; cbn; [destruct (is_short_value v)|]; intros [? ->] ? ?; [congruence|by exists v|done]. Qed.

(** What [write_lock] leaves in the buffer, by its result: a lock of two-phase
    commit; the lock of a transaction that falls back to two phases; a lock of
    async commit; with one-phase commit a lock that is kept apart.  A long value
    goes to the buffer in all cases. *)
Inductive lock_outcome (m : PrewriteMutation) (status : LockStatus) (txn : MvccTxn) (l : Lock)
    (vals : list LModify) : mvcc_res TimeStamp -> MvccTxn -> Prop :=
| lo_two_phase txn' :
    pm_secondary_keys m = None -> PrewriteMutation_try_one_pc m = false -> l_use_one_pc l = false ->
    txn_extends txn (vals ++ [LPutLock key l]) txn' -> lock_outcome m status txn l vals (Ok 0) txn'
| lo_fallback ts mc txn' :
    l_use_one_pc l = false -> txn_extends txn (vals ++ [LPutLock key l]) txn' ->
    lock_outcome m status txn l vals (Err (MvCommitTsTooLarge st ts mc)) txn'
| lo_async ts ks txn' :
    pm_secondary_keys m = Some ks -> PrewriteMutation_try_one_pc m = false ->
    fresh_ts (cm_max_ts (t_cm txn)) (TransactionProperties_for_update_ts (pm_txn_props m)) ts ->
    l_min_commit_ts l = ts -> l_use_async_commit l = true -> l_secondaries l = ks -> l_use_one_pc l = false ->
    txn_extends txn (vals ++ [LPutLock key l]) txn' -> lock_outcome m status txn l vals (Ok ts) txn'
| lo_one_pc ts txn' :
    PrewriteMutation_try_one_pc m = true ->
    fresh_ts (cm_max_ts (t_cm txn)) (TransactionProperties_for_update_ts (pm_txn_props m)) ts ->
    l_min_commit_ts l = ts ->
    t_modifies txn' = t_modifies txn ++ map encode_lm vals ->
    t_locks_for_1pc txn' = t_locks_for_1pc txn ++ [(key, l, LockStatus_has_pessimistic_lock status)] ->
    t_start_ts txn' = t_start_ts txn -> lock_outcome m status txn l vals (Ok ts) txn'.

Definition prepared_lock (m : PrewriteMutation) (pfu : TimeStamp) (l : Lock) (vals : list LModify) : Prop :=
  exists lt, pm_lock_type m = Some lt /\ prelock_ok lt (for_update_ts_to_write (pm_txn_props m) pfu) l
    /\ stores_value (pm_value m) l vals.

(** The value goes into the lock or into the default column family. *)
Lemma write_lock_value m lt lfu l l1 txn txn1 :
  prelock_ok lt lfu l -> l_use_one_pc l = false -> l_short_value l = None -> l_use_async_commit l = false ->
  match pm_value m with
  | Some value =>
      if is_short_value value then Ok (Lock_set_short_value l (Some value), txn)
      else txn ← put_value txn key st value; Ok (l, txn)
  | None => Ok (l, txn)
  end = Ok (l1, txn1) ->
  exists vals, prelock_ok lt lfu l1 /\ l_use_one_pc l1 = false /\ l_use_async_commit l1 = false
    /\ stores_value (pm_value m) l1 vals
    /\ txn_extends txn vals txn1 /\ t_cm txn1 = t_cm txn.
Proof.
  intros Hl Hpc Hsv Has. destruct (pm_value m) as [v|];
    [destruct (is_short_value v) eqn:Hv|]; [| |by intros E; simplify_eq; exists []; split_and!;
      [..|apply txn_extends_refl|]; auto].
  - intros E. simplify_eq. exists [].
    split_and!; [|by destruct l..|cbn; rewrite Hv; by destruct l|by apply txn_extends_refl|done].
    apply prelock_short_value; [done|]. by apply Nat.leb_le in Hv.
  - rewrite put_value_add. cbn [mbind res_bind]. intros E. simplify_eq.
    exists [LPutValue key st v]. split_and!; try done. cbn. by rewrite Hv.
Qed.

(** The timestamps of async commit, or the fallback to two phases. *)
Lemma write_lock_timestamps m lt lfu l r3 l3 pc3 txn txn3 :
  mutation_ok m -> u64_ok (cm_max_ts (t_cm txn)) -> prelock_ok lt lfu l ->
  (if (l_use_async_commit l || PrewriteMutation_try_one_pc m)%bool then
     max_commit_ts ← TransactionProperties_max_commit_ts (pm_txn_props m);
     '(r, lock, txn) ← async_commit_timestamps key l st
                         (TransactionProperties_for_update_ts (pm_txn_props m)) max_commit_ts txn;
     match r with
     | Err (MvCommitTsTooLarge _ _ _) =>
         Ok (r, Lock_set_secondaries
                  (Lock_set_use_async_commit (Lock_set_use_one_pc lock false) false) [],
             false, txn)
     | _ => Ok (r, lock, PrewriteMutation_try_one_pc m, txn)
     end
   else Ok (Ok TimeStamp_zero, l, PrewriteMutation_try_one_pc m, txn)) = Ok (r3, l3, pc3, txn3) ->
  prelock_ok lt lfu l3 /\ txn_extends txn [] txn3 /\ l_short_value l3 = l_short_value l
  /\ ((r3 = Ok 0 /\ l_use_async_commit l = false /\ pc3 = false /\ PrewriteMutation_try_one_pc m = false /\ l3 = l)
      \/ (pc3 = false /\ l_use_one_pc l3 = false /\ exists ts mc, r3 = Err (MvCommitTsTooLarge st ts mc))
      \/ exists ts, r3 = Ok ts /\ pc3 = PrewriteMutation_try_one_pc m /\ l3 = Lock_set_min_commit_ts l ts
           /\ fresh_ts (cm_max_ts (t_cm txn)) (TransactionProperties_for_update_ts (pm_txn_props m)) ts
           /\ (l_use_async_commit l = true \/ PrewriteMutation_try_one_pc m = true)).
Proof.
  intros Hm Hcm Hl. destruct (_ || _)%bool eqn:Hor.
  2: { apply orb_false_iff in Hor as [Ha Hp]. rewrite Hp. intros E. simplify_eq.
       split_and!; [done|by apply txn_extends_refl|done|]. by left. }
  intros Hw. res_inv. destruct a0 as [[r' l'] txn'].
  apply (async_commit_timestamps_inv lt lfu) in H0 as [Hext [(ts & -> & Hts & El & Hl')|(-> & ts & ->)]];
    [| |done|done|apply Hm].
  - simplify_eq. split_and!; [done|done|by destruct l|]. right. right. exists ts.
    apply orb_prop in Hor. by split_and!.
  - simplify_eq. split_and!; [by apply prelock_fallback|done|by destruct l|]. right. left. split_and!; [done|by destruct l|by eauto].
Qed.

(** The flags of the kind of commit. *)
Lemma write_lock_flags m lt lfu l1 :
  mutation_ok m -> prelock_ok lt lfu l1 -> l_use_one_pc l1 = false -> l_use_async_commit l1 = false ->
  let l2 := match pm_secondary_keys m with
            | Some ks => Lock_set_secondaries (Lock_set_use_async_commit l1 true) ks
            | None => if PrewriteMutation_try_one_pc m then Lock_set_use_one_pc l1 true else l1
            end in
  prelock_ok lt lfu l2 /\ (PrewriteMutation_try_one_pc m = false -> l_use_one_pc l2 = false)
  /\ l_short_value l2 = l_short_value l1
  /\ match pm_secondary_keys m with
     | Some ks => l_use_async_commit l2 = true /\ l_secondaries l2 = ks
     | None => l_use_async_commit l2 = false
     end.
Proof.
  intros Hm Hl Hpc Has. pose proof (mutation_secondaries m Hm) as Hsec. destruct (pm_secondary_keys m) as [ks|].
  - split_and!; [by apply prelock_async|intros _|..]; by destruct l1.
  - destruct (PrewriteMutation_try_one_pc m); [|done].
    split_and!; [by apply prelock_one_pc|done|by destruct l1..].
Qed.

Lemma new_lock_flags m status lt :
  let l := write_lock_new_lock can_enable m status 0 lt in
  l_use_one_pc l = false /\ l_short_value l = None /\ l_use_async_commit l = false.
Proof. unfold write_lock_new_lock. by destruct (_ && _)%bool. Qed.

Lemma write_lock_inv m status txn is_new r txn' :
  mutation_ok m -> u64_ok (status_for_update_ts status) -> u64_ok (cm_max_ts (t_cm txn)) ->
  PrewriteMutation_write_lock can_enable m status txn is_new 0 = Ok (r, txn') ->
  exists l vals, prepared_lock m (status_for_update_ts status) l vals /\ lock_outcome m status txn l vals r txn'.
Proof.
  intros Hm Hfu Hcm. unfold PrewriteMutation_write_lock.
  destruct (pm_lock_type m) as [lt|] eqn:Hlt; [|done]. cbn [unwrap mbind res_bind].
  pose proof (new_lock_prelock m status lt Hm Hfu) as Hl0.
  destruct (new_lock_flags m status lt) as (Hpc0 & Hsv0 & Has0).
  set (lock0 := write_lock_new_lock can_enable m status 0 lt) in *. clearbody lock0.
  set (lfu := for_update_ts_to_write (pm_txn_props m) (status_for_update_ts status)) in *.
  rewrite (mutation_key m Hm), (mutation_start_ts m Hm). intros Hw. res_inv.
  destruct a as [l1 txn1]. destruct (write_lock_value m lt lfu lock0 l1 txn txn1 Hl0 Hpc0 Hsv0 Has0 H)
    as (vals & Hl1 & Hpc1 & Has1 & Hvals & Hext1 & Hcm1). clear H.
  destruct (write_lock_flags m lt lfu l1 Hm Hl1 Hpc1 Has1) as (Hl2 & Hpc2 & Hsv2 & Hsec).
  set (l2 := match pm_secondary_keys m with Some ks => _ | None => _ end) in *.
  clearbody l2. res_inv. destruct a as [[[r3 l3] pc3] txn3].
  destruct (write_lock_timestamps m lt lfu l2 r3 l3 pc3 txn1 txn3 Hm) as (Hl3 & Hext3 & Hsv3 & Hout);
    [by rewrite Hcm1|done..|].
  assert (exists lt', Some lt = Some lt' /\ prelock_ok lt' lfu l3 /\ stores_value (pm_value m) l3 vals) as Hprep.
  { exists lt. split_and!; [done..|]. unfold stores_value in *. by rewrite Hsv3, Hsv2. }
  exists l3, vals. split; [unfold prepared_lock; by rewrite Hlt|]. rewrite Hcm1 in Hout.
  pose proof (txn_extends_trans _ _ _ _ _ Hext1 Hext3) as Hext. rewrite app_nil_r in Hext.
  destruct pc3.
  - destruct Hout as [(_ & _ & ? & _)|[(? & _)|(ts & -> & Hpc & -> & Hts & _)]]; [done..|].
    res_inv. simplify_eq. destruct Hext as (Hmod & H1pc & Hst). cbn in *.
    eapply lo_one_pc; try done; [by destruct l2|cbn; by rewrite H1pc].
  - res_inv. simplify_eq. apply put_lock_extends in H0.
    pose proof (txn_extends_trans _ _ _ _ _ Hext H0) as Hall.
    destruct Hout as [(-> & Has & _ & Hone & ->)|[(_ & Hpc & ts & mc & ->)|(ts & -> & Hone & -> & Hts & Hor)]].
    + eapply lo_two_phase; auto. destruct (pm_secondary_keys m); [|done]. destruct Hsec. congruence.
    + by eapply lo_fallback.
    + symmetry in Hone. destruct (pm_secondary_keys m) as [ks|] eqn:Hks.
      * destruct Hsec as [Has Hse]. specialize (Hpc2 Hone). eapply lo_async; try done; by destruct l2.
      * destruct Hor; congruence.
Qed.

(** A prepared mutation, whatever its last change, lease and commit bound. *)
Definition prepared_for (props : TransactionProperties) (mutation : Mutation)
    (secondary_keys : option (list bytes)) (m : PrewriteMutation) : Prop :=
  pm_txn_props m = props /\ pm_secondary_keys m = secondary_keys
  /\ pm_lock_type m = LockType_from_mutation mutation
  /\ pm_value m = snd (Mutation_into_key_value mutation).

Lemma from_mutation_ok props mutation secondary_keys action m :
  Mutation_key mutation = key -> props_ok props -> tp_start_ts props = st ->
  mode_ok props action -> secondaries_ok secondary_keys ->
  PrewriteMutation_from_mutation mutation secondary_keys action props = Ok m ->
  mutation_ok m /\ prepared_for props mutation secondary_keys m /\ pm_pessimistic_action m = action
  /\ pm_should_not_write m = Mutation_should_not_write mutation.
Proof.
  intros Hk Hp Hst Hmode Hsec. unfold PrewriteMutation_from_mutation.
  destruct (_ && _)%bool; [done|]. destruct (Mutation_into_key_value mutation) as [k v] eqn:Hkv.
  assert (k = key) as Hkey by (rewrite <-Hk; by destruct mutation; injection Hkv).
  intros [= <-]. split; [|unfold prepared_for; rewrite Hkv; by split_and!]. pose proof Hp as []. split; cbn; auto. by split.
Qed.

(** Amending a lock that is missing: no record excludes the transaction. *)
Lemma amend_pessimistic_lock_inv m m' :
  pm_key m = key -> amend_pessimistic_lock stat_next reader m = Ok m' ->
  no_newer /\ same_but_last_change m m'.
Proof.
  intros Hk. unfold amend_pessimistic_lock. rewrite Hk, ?(reader_start rd).
  destruct (seek_write_spec reader raw) with (ts := TimeStamp_max) as (sr & Hsr & Hn & _);
    [rewrite (reader_snapshot rd); apply wf|done|unfold u64_ok, TimeStamp_max, u64_max; lia|].
  rewrite (reader_snapshot rd) in Hn.
  fold key in Hsr. rewrite Hsr. cbn [mbind res_bind]. pose proof (newest_max sr Hn) as Hmax.
  destruct sr as [[c w]|].
  - destruct (Z.leb_spec st c); [intros Hc; by res_inv|]. intros Hc. res_inv. split.
    + intros t wt Ht. pose proof (Hmax t wt Ht). split; lia.
    + eexists. split; [|done]. eapply next_last_change_info_hint; [|done..]. apply Hn.
  - intros Hc. res_inv. split; [intros t w Ht; by destruct (Hmax t w Ht)|].
    exists LcNotExist. split; [|done]. by apply lock_hint_none.
Qed.

(** The state of the key that a prewrite may replace by its lock; [pfu] is the
    for-update timestamp of the pessimistic lock, if there is one. *)
Definition may_prewrite (pfu : TimeStamp) : Prop :=
  (a_lock (abs s) key = None /\ no_newer /\ pfu = 0)
  \/ exists l, a_lock (abs s) key = Some l /\ l_ts l = st /\ Lock_is_pessimistic_lock l = true
       /\ pfu = l_for_update_ts l.

(** The lock the status describes is the one of the key. *)
Definition status_of_key (status : LockStatus) : Prop :=
  match status with
  | LockedStatus ts =>
      exists l, a_lock (abs s) key = Some l /\ l_ts l = st /\ Lock_is_pessimistic_lock l = false
        /\ ts = if l_use_async_commit l then l_min_commit_ts l else 0
  | PessimisticStatus fu => exists l, a_lock (abs s) key = Some l /\ l_ts l = st
        /\ Lock_is_pessimistic_lock l = true /\ fu = l_for_update_ts l
  | NoneStatus => a_lock (abs s) key = None
  end.

(** A lock check that passes, and is not a repeated request, finds the key free,
    with no record in the way when the lock is amended, or a pessimistic lock of
    the transaction. *)
Lemma prewrite_lock_status_inv m props mutation secondary_keys expected status m' amended :
  mutation_ok m -> prepared_for props mutation secondary_keys m ->
  prewrite_lock_status stat_next reader m (pm_pessimistic_action m) expected 0 = Ok (status, m', amended) ->
  status_of_key status
  /\ ((exists ts, status = LockedStatus ts)
      \/ (mutation_ok m' /\ prepared_for props mutation secondary_keys m'
          /\ pm_pessimistic_action m' = pm_pessimistic_action m
          /\ pm_should_not_write m' = pm_should_not_write m
          /\ u64_ok (status_for_update_ts status)
          /\ (LockStatus_has_pessimistic_lock status = true -> TransactionProperties_is_pessimistic props = true)
          /\ (pm_pessimistic_action m = DoPessimisticCheck \/ no_newer ->
              may_prewrite (status_for_update_ts status)))).
Proof.
  intros Hm Hpf. unfold prewrite_lock_status. rewrite (mutation_key m Hm).
  pose proof (load_lock_abs reader raw) as Hload. rewrite (reader_snapshot rd) in Hload.
  fold key in Hload. rewrite Hload by done. unfold status_of_key.
  cbn [mbind res_bind].
  destruct (a_lock (abs s) key) as [l|] eqn:Hl.
  - pose proof (abs_lock_ok s key l wf Hl) as Hok.
    intros Hc. res_inv. destruct a as [st' m'']. res_inv. simplify_eq.
    unfold PrewriteMutation_check_lock in H. rewrite (mutation_start_ts m Hm) in H.
    destruct (Z.eqb_spec (l_ts l) st) as [Hts|]; cbn [negb] in H.
    2: { case_decide; by res_inv. }
    destruct (Lock_is_pessimistic_lock l) eqn:Hp.
    + destruct (negb _) eqn:Hpess; [by res_inv|]. destruct (match expected with Some _ => _ | None => _ end); [by res_inv|].
      injection H as <- <-. pose proof (lock_ok_for_update_ts l Hok). split; [by exists l|]. right.
      apply negb_false_iff in Hpess. cbn [pm_txn_props pm_set_last_change] in Hpess. rewrite (proj1 Hpf) in Hpess.
      split; [|split_and!; [done..|]]; [|intros _; right; by exists l].
      destruct Hm. pose proof (lock_ok_ttl l Hok). pose proof (lock_ok_min_commit_ts l Hok).
      split; cbn; auto; try (unfold u64_ok in *; lia). split; [by apply lock_ok_last_change|]. intros [_ Hh]. by apply Hh.
    + destruct (_ && _)%bool; [done|]. destruct (_ && _ && _)%bool; [by res_inv|].
      simplify_eq. split; [by exists l|]. left. eauto.
  - case_decide as Hact; intros Hc.
    + res_inv. split; [done|]. right. destruct (amend_pessimistic_lock_inv m m') as [Hnn Hsame]; [apply Hm|done|].
      split; [by eapply mutation_ok_last_change|]. destruct Hsame as (lc & _ & ->).
      split_and!; [done..|by unfold u64_ok|]. by left.
    + simplify_eq. split; [done|]. right. split_and!; [done..|by unfold u64_ok|]. intros [?|?]; [done|]. by left.
Qed.

Lemma txn_update_max_ts_inv txn ts r txn1 :
  u64_ok (cm_max_ts (t_cm txn)) -> u64_ok ts -> txn_update_max_ts now tso txn ts = (r, txn1) ->
  txn_extends txn [] txn1 /\ u64_ok (cm_max_ts (t_cm txn1)) /\ cm_max_ts (t_cm txn) <= cm_max_ts (t_cm txn1)
  /\ is_too_large r = false.
Proof.
  intros Hcm Hts. unfold txn_update_max_ts.
  pose proof (update_max_ts_range now tso (t_cm txn) ts Hcm Hts) as Hr.
  pose proof (update_max_ts_grows now tso (t_cm txn) ts) as Hg.
  destruct (update_max_ts now tso (t_cm txn) ts) as [r' cm]. intros E. simplify_eq.
  split_and!; [by apply txn_extends_refl|done..|by destruct r'].
Qed.

(** What a prewrite of the key does, by its result: an error that leaves the
    updates as they were; a lock the transaction already has; a check without a
    lock; or the lock of the mutation, on a key that is free with no record that
    excludes the transaction or that has its pessimistic lock. *)
Inductive prewrite_outcome (props : TransactionProperties) (mutation : Mutation)
    (secondary_keys : option (list bytes)) (txn : MvccTxn)
    : mvcc_res (TimeStamp * OldValue) -> MvccTxn -> Prop :=
| po_fail r txn' :
    (forall x, r <> Ok x) -> is_too_large r = false -> txn_extends txn [] txn' ->
    prewrite_outcome props mutation secondary_keys txn r txn'
| po_locked ts ov txn' :
    status_of_key (LockedStatus ts) -> txn_extends txn [] txn' ->
    prewrite_outcome props mutation secondary_keys txn (Ok (ts, ov)) txn'
| po_check r txn' :
    Mutation_should_not_write mutation = true -> is_too_large r = false ->
    (forall ts ov, r = Ok (ts, ov) -> u64_ok ts) -> txn_extends txn [] txn' ->
    prewrite_outcome props mutation secondary_keys txn r txn'
| po_lock status m l vals r ov txn' :
    status_of_key status -> may_prewrite (status_for_update_ts status) ->
    (LockStatus_has_pessimistic_lock status = true -> TransactionProperties_is_pessimistic props = true) ->
    prepared_for props mutation secondary_keys m -> prepared_lock m (status_for_update_ts status) l vals ->
    lock_outcome m status txn l vals r txn' ->
    prewrite_outcome props mutation secondary_keys txn (ts ← r; Ok (ts, ov)) txn'.

Lemma lock_outcome_after m status txn txn0 l vals r txn' :
  txn_extends txn [] txn0 -> cm_max_ts (t_cm txn) <= cm_max_ts (t_cm txn0) ->
  lock_outcome m status txn0 l vals r txn' -> lock_outcome m status txn l vals r txn'.
Proof.
  intros Hext Hcm. assert (forall fu ts, fresh_ts (cm_max_ts (t_cm txn0)) fu ts -> fresh_ts (cm_max_ts (t_cm txn)) fu ts)
    as Hts by (unfold fresh_ts; intuition lia).
  pose proof (fun ms t => txn_extends_trans txn [] txn0 ms t Hext) as Htr. cbn in Htr.
  destruct Hext as (Hm & H1 & Hs). cbn in Hm. rewrite app_nil_r in Hm.
  destruct 1; econstructor; eauto; congruence.
Qed.

(** [write_lock] returns the timestamp that is too large as a value. *)
Lemma write_lock_too_large m status txn is_new generation :
  is_too_large (PrewriteMutation_write_lock can_enable m status txn is_new generation) = false.
Proof.
  unfold PrewriteMutation_write_lock, put_value, put_lock, Modify_size, unwrap, unwrap_ok,
    TransactionProperties_max_commit_ts, async_commit_timestamps, calculate_min_commit_ts, TimeStamp_next. too_large.
Qed.

(** The part of [prewrite] after the lock check, on a key that is not locked by
    the transaction's prewrite. *)
Lemma prewrite_rest_inv txn props mutation secondary_keys m status amended is_new r txn' :
  mutation_ok m -> prepared_for props mutation secondary_keys m ->
  pm_should_not_write m = Mutation_should_not_write mutation ->
  status_of_key status -> u64_ok (status_for_update_ts status) ->
  (LockStatus_has_pessimistic_lock status = true -> TransactionProperties_is_pessimistic props = true) ->
  (pm_pessimistic_action m = DoPessimisticCheck \/ no_newer -> may_prewrite (status_for_update_ts status)) ->
  tp_start_ts props = st -> u64_ok (cm_max_ts (t_cm txn)) ->
  let fail {A} (r : mvcc_res A) txn : mvcc_res (TimeStamp * OldValue) * MvccTxn :=
    (match r with Err e => Err e | _ => Panic end, txn) in
  match prewrite_checks stat_next reader m status amended 0 with
  | Ok (prev_write, prev_write_loaded, m) =>
      if pm_should_not_write m then
        let '(updated, txn) := txn_update_max_ts now tso txn (tp_start_ts props) in
        match updated with
        | Ok _ =>
            (min_commit_ts ←
               (if PrewriteMutation_need_min_commit_ts m then
                  next ← TimeStamp_next (tp_start_ts props);
                  Ok (Z.max (tp_min_commit_ts props) next)
                else Ok TimeStamp_zero);
             Ok (min_commit_ts, OvUnspecified), txn)
        | r => fail r txn
        end
      else
        match prewrite_old_value reader m prev_write_loaded prev_write with
        | Ok old_value =>
            match PrewriteMutation_write_lock can_enable m status txn is_new 0 with
            | Ok (final_min_commit_ts, txn) => (ts ← final_min_commit_ts; Ok (ts, old_value), txn)
            | r => fail r txn
            end
        | r => fail r txn
        end
  | r => fail r txn
  end = (r, txn') ->
  prewrite_outcome props mutation secondary_keys txn r txn'.
Proof.
  intros Hm Hpf Hsnw Hkey Hfu Hpess Hmay Hst Hcm fail.
  assert (forall A (e : mvcc_res A) t, is_too_large e = false -> txn_extends txn [] t ->
    (forall x, e <> Ok x) -> fail A e t = (r, txn') -> prewrite_outcome props mutation secondary_keys txn r txn') as Hfail.
  { intros A e t Hl Ht Ho [= <- <-]. apply po_fail; [by destruct e|by destruct e|done]. }
  assert (txn_extends txn [] txn) as Hrefl by by apply txn_extends_refl.
  pose proof (prewrite_checks_too_large stat_next reader m status amended 0) as Hl1.
  destruct (prewrite_checks _ _ _ _ _ _) as [[[pw loaded] m2]|e|] eqn:Hpc;
    [|by apply (Hfail _ (Err e))|by apply (Hfail unit Panic)].
  apply prewrite_checks_inv in Hpc as [Hsame Hnn]; [|apply Hm..].
  assert (mutation_ok m2 /\ prepared_for props mutation secondary_keys m2
    /\ pm_should_not_write m2 = pm_should_not_write m) as (Hm2 & Hpf2 & Hsnw2).
  { destruct Hsame as [->|Hs]; [done|]. split; [by eapply mutation_ok_last_change|].
    by destruct Hs as (lc & _ & ->). }
  rewrite Hsnw2, Hsnw. destruct (Mutation_should_not_write mutation) eqn:Hw.
  - destruct (txn_update_max_ts now tso txn (tp_start_ts props)) as [r1 txn1] eqn:Hu.
    apply txn_update_max_ts_inv in Hu as (Hext1 & _ & _ & Hl); [|done|by rewrite Hst].
    destruct r1 as [[]|e|]; [|by apply (Hfail _ (Err e))|by apply (Hfail unit Panic)].
    intros [= <- <-]. apply po_check; [done| | |done]; unfold TimeStamp_next; [too_large|].
    intros ts ov Hts. pose proof (props_min_commit_ts _ (mutation_props m2 Hm2)) as Hmc. rewrite (proj1 Hpf2) in Hmc.
    destruct (PrewriteMutation_need_min_commit_ts m2).
    + destruct (Z.ltb_spec (tp_start_ts props) u64_max); [|done]. cbn in Hts. injection Hts as <- _.
      unfold u64_ok, u64_max in *. lia.
    + injection Hts as <- _. by unfold u64_ok.
  - pose proof (prewrite_old_value_too_large reader m2 loaded pw) as Hl2.
    destruct (prewrite_old_value _ _ _ _) as [ov|e|]; [|by apply (Hfail _ (Err e))|by apply (Hfail unit Panic)].
    pose proof (write_lock_too_large m2 status txn is_new 0) as Hl3.
    destruct (PrewriteMutation_write_lock _ _ _ _ _ _) as [[r3 txn3]|e|] eqn:Hwl;
      [|by apply (Hfail _ (Err e))|by apply (Hfail unit Panic)].
    intros [= <- <-]. apply write_lock_inv in Hwl as (l & vals & Hprep & Hout); [|done..].
    by apply (po_lock _ _ _ _ status m2 l vals); [|apply Hmay|..].
Qed.

Lemma prewrite_inv txn props mutation secondary_keys action expected r txn' :
  Mutation_key mutation = key -> props_ok props -> tp_start_ts props = st ->
  mode_ok props action -> secondaries_ok secondary_keys ->
  u64_ok (cm_max_ts (t_cm txn)) ->
  prewrite now tso can_enable stat_next txn reader props mutation secondary_keys
    action expected = (r, txn') ->
  prewrite_outcome props mutation secondary_keys txn r txn'.
Proof.
  intros Hk Hp Hst Hmode Hsec Hcm. unfold prewrite, prewrite_with_generation.
  assert (forall A (e : mvcc_res A) t, is_too_large e = false -> txn_extends txn [] t -> (forall x, e <> Ok x) ->
    (match e with Err e => Err e | _ => Panic end, t) = (r, txn') ->
    prewrite_outcome props mutation secondary_keys txn r txn') as Hfail.
  { intros A e t Hl Ht Ho [= <- <-]. apply po_fail; [by destruct e|by destruct e|done]. }
  assert (txn_extends txn [] txn) as Hrefl by by apply txn_extends_refl.
  destruct (PrewriteMutation_from_mutation _ _ _ _) as [m|e|] eqn:Hfm.
  2-3: unfold PrewriteMutation_from_mutation in Hfm; destruct (_ && _)%bool;
    [|by destruct (Mutation_into_key_value mutation)]; simplify_eq; by apply (Hfail unit (Err MvOther)).
  destruct (from_mutation_ok props mutation secondary_keys action m) as (Hm & Hpf & <- & Hsnw); [done..|].
  set (upd := if pm_should_not_exist m then _ else _).
  assert (exists r0 txn0, upd = (r0, txn0) /\ txn_extends txn [] txn0 /\ u64_ok (cm_max_ts (t_cm txn0))
    /\ cm_max_ts (t_cm txn) <= cm_max_ts (t_cm txn0) /\ is_too_large r0 = false)
    as (r0 & txn0 & -> & Hext0 & Hcm0 & Hle & Hl0).
  { unfold upd. destruct (pm_should_not_exist m); [|by exists (Ok tt), txn].
    destruct (txn_update_max_ts now tso txn (tp_start_ts props)) as [r0 txn0] eqn:Hu.
    exists r0, txn0. split; [done|]. by eapply txn_update_max_ts_inv; [| |done]; [|rewrite Hst]. }
  destruct r0 as [[]|e|]; [|by apply (Hfail unit (Err e) txn0)|by apply (Hfail unit Panic txn0)].
  pose proof (prewrite_lock_status_too_large stat_next reader m (pm_pessimistic_action m) expected 0) as Hl1.
  destruct (prewrite_lock_status _ _ _ _ _ _) as [[[status m1] amended]|e|] eqn:Hls;
    [|by apply (Hfail (LockStatus * PrewriteMutation * bool)%type (Err e) txn0)|by apply (Hfail unit Panic txn0)].
  destruct (prewrite_lock_status_inv m props mutation secondary_keys expected status m1 amended Hm Hpf Hls)
    as [Hkey [(ts & ->)|(Hm1 & Hpf1 & Hact1 & Hsnw1 & Hfu & Hpess & Hmay)]]; [by intros [= <- <-]; apply po_locked|].
  assert (forall r t, prewrite_outcome props mutation secondary_keys txn0 r t ->
    prewrite_outcome props mutation secondary_keys txn r t) as Hafter.
  { intros r' t. pose proof (fun ms t => txn_extends_trans txn [] txn0 ms t Hext0) as Htr. cbn in Htr.
    destruct 1; [apply po_fail|apply po_locked|apply po_check|eapply po_lock]; eauto.
    by eapply lock_outcome_after. }
  rewrite <-Hact1 in Hmay. rewrite Hsnw in Hsnw1.
  destruct status as [ts|from|]; [by intros [= <- <-]; apply po_locked| |].
  all: intros Hrest; apply Hafter; by eapply prewrite_rest_inv; [..|exact Hrest].
Qed.
End PrewriteEffects.
