(* ===== verification/TxnStatus.v ===== *)
(** * Committing, rolling back and inspecting transactions

    Models the actions of [src/storage/txn/actions]: [commit.rs], [cleanup.rs],
    [check_txn_status.rs], and [TxnStatus] of [src/storage/types.rs].  An action
    reads a snapshot and adds updates to the transaction buffer; on an error
    the command fails as a whole and the buffer is dropped, so errors carry no
    buffer.  Metrics and logging are left out. *)

From Stdlib Require Import ZArith Lia.
From stdpp Require Import base numbers list gmap.
From S2P Require Import Prelude Number Bytes Types Write Lock ConcurrencyManager Engine Reader.
From S2P Require Import AbsState ReaderSpec MvccTxn.

Open Scope Z_scope.

Inductive TxnStatus : Type :=
| RolledBack
| TtlExpire
| LockNotExist
| Uncommitted (lock : Lock) (min_commit_ts_pushed : bool)
| Committed (commit_ts : TimeStamp)
| PessimisticRollBack
| LockNotExistDoNothing.

Definition TxnStatus_is_decided (s : TxnStatus) : bool :=
  match s with RolledBack | TtlExpire | Committed _ => true | _ => false end.

Inductive MissingLockAction : Type := MlaRollback | MlaProtectedRollback | MlaReturnError.

#[export] Instance MissingLockAction_eq_dec : EqDecision MissingLockAction.
Proof. solve_decision. Defined.

Definition MissingLockAction_rollback_protect (protect_rollback : bool) : MissingLockAction :=
  if protect_rollback then MlaProtectedRollback else MlaRollback.

Definition MissingLockAction_rollback (rollback_if_not_exist : bool) : MissingLockAction :=
  if rollback_if_not_exist then MlaProtectedRollback else MlaReturnError.

Definition MissingLockAction_collapse_rollback (a : MissingLockAction) : mvcc_res bool :=
  match a with MlaRollback => Ok true | MlaProtectedRollback => Ok false | MlaReturnError => Panic end.

Definition make_rollback (start_ts : TimeStamp) (protected : bool)
    (overlapped_write : option OverlappedWrite) : mvcc_res (option Write) :=
  match overlapped_write with
  | Some ow =>
      _ ← assert_ (w_start_ts (ow_write ow) <? start_ts);
      if protected
      then Ok (Some (Write_set_overlapped_rollback (ow_write ow) true (Some (ow_gc_fence ow))))
      else Ok None
  | None => Ok (Some (Write_new_rollback start_ts protected))
  end.

Definition MissingLockAction_construct_write (a : MissingLockAction) (ts : TimeStamp)
    (overlapped_write : option OverlappedWrite) : mvcc_res (option Write) :=
  collapse ← MissingLockAction_collapse_rollback a;
  make_rollback ts (negb collapse) overlapped_write.

Section Actions.
Context {Snap : Type} `{EngineSnapshot Snap}.
Implicit Types reader : SnapshotReader Snap.
Implicit Types txn : MvccTxn.

(** ** Commit *)

Definition commit txn reader (key : Key) (commit_ts : TimeStamp)
    : mvcc_res (option ReleasedLock * MvccTxn) :=
  let missing :=
    record ← get_txn_commit_record reader key;
    match TxnCommitRecord_info record with
    | Some (_, WtRollback) | None =>
        raw ← map_err MvCodec (Key_into_raw key);
        Err (MvTxnLockNotFound (r_start_ts reader) commit_ts raw)
    | Some (_, WtPut) | Some (_, WtDelete) | Some (_, WtLock) => Ok (None, txn)
    end in
  found ← load_lock reader key;
  match found with
  | Some lock =>
      if l_ts lock =? r_start_ts reader then
        if commit_ts <? l_min_commit_ts lock then
          raw ← map_err MvCodec (Key_into_raw key);
          Err (MvCommitTsExpired (r_start_ts reader) commit_ts raw (l_min_commit_ts lock))
        else if Lock_is_pessimistic_lock lock then
          unlock_key txn key (Lock_is_pessimistic_txn lock) TimeStamp_zero
        else
          write_type ← unwrap (WriteType_from_lock_type (l_lock_type lock));
          let write := Write_new write_type (r_start_ts reader) (l_short_value lock) in
          let write := Write_set_last_change write (l_last_change lock) in
          let write := Write_set_txn_source write (l_txn_source lock) in
          let write :=
            if existsb (Z.eqb commit_ts) (l_rollback_ts lock)
            then Write_set_overlapped_rollback write true None else write in
          txn ← put_write txn key commit_ts (WriteRef_to_bytes write);
          unlock_key txn key (Lock_is_pessimistic_txn lock) commit_ts
      else missing
  | None => missing
  end.

(** ** Rollback *)

(** [if let Some(write) = rollback { txn.put_write(..) }] *)
Definition put_rollback txn (key : Key) (ts : TimeStamp) (rollback : option Write) : mvcc_res MvccTxn :=
  match rollback with
  | Some write => put_write txn key ts (WriteRef_to_bytes write)
  | None => Ok txn
  end.

(** [if let (Some(l), None) = (mismatch_lock, overlapped_write) { .. }] *)
Definition mark_rollback_if_mismatching txn (key : Key) (mismatch_lock : option Lock)
    (overlapped_write : option OverlappedWrite) (is_protected : bool) : mvcc_res MvccTxn :=
  match mismatch_lock, overlapped_write with
  | Some l, None => mark_rollback_on_mismatching_lock txn key l is_protected
  | _, _ => Ok txn
  end.

Definition collapse_prev_rollback txn reader (key : Key) : mvcc_res MvccTxn :=
  found ← seek_write reader key (r_start_ts reader);
  match found with
  | Some (commit_ts, write) =>
      if (bool_decide (w_write_type write = WtRollback) && negb (WriteRef_is_protected write))%bool
      then delete_write txn key commit_ts
      else Ok txn
  | None => Ok txn
  end.

Definition rollback_lock txn reader (key : Key) (lock : Lock) (is_pessimistic_txn collapse_rollback : bool)
    : mvcc_res (option ReleasedLock * MvccTxn) :=
  record ← get_txn_commit_record reader key;
  let already := unlock_key txn key is_pessimistic_txn TimeStamp_zero in
  match record with
  | TcrSingleRecord _ write => if decide (w_write_type write = WtRollback) then already else Panic
  | TcrOverlappedRollback _ => already
  | TcrNone overlapped_write =>
      txn ← (if (match l_short_value lock with None => true | Some _ => false end
                 && bool_decide (l_lock_type lock = LtPut))%bool
             then delete_value txn key (l_ts lock) else Ok txn);
      let protected := (Key_is_encoded_from key (l_primary lock) || (0 <? l_generation lock))%bool in
      rollback ← make_rollback (r_start_ts reader) protected overlapped_write;
      txn ← put_rollback txn key (r_start_ts reader) rollback;
      txn ← (if collapse_rollback then collapse_prev_rollback txn reader key else Ok txn);
      unlock_key txn key is_pessimistic_txn TimeStamp_zero
  end.

Definition check_determined_txn_status reader (primary_key : Key) : mvcc_res (option TxnStatus) :=
  record ← get_txn_commit_record reader primary_key;
  match record with
  | TcrSingleRecord commit_ts write =>
      if decide (w_write_type write = WtRollback) then Ok (Some RolledBack)
      else Ok (Some (Committed commit_ts))
  | TcrOverlappedRollback _ => Ok (Some RolledBack)
  | TcrNone _ => Ok None
  end.

Definition check_txn_status_missing_lock txn reader (primary_key : Key) (mismatch_lock : option Lock)
    (action : MissingLockAction) (resolving_pessimistic_lock : bool)
    : mvcc_res (TxnStatus * MvccTxn) :=
  record ← get_txn_commit_record reader primary_key;
  match record with
  | TcrSingleRecord commit_ts write =>
      if decide (w_write_type write = WtRollback) then Ok (RolledBack, txn)
      else Ok (Committed commit_ts, txn)
  | TcrOverlappedRollback _ => Ok (RolledBack, txn)
  | TcrNone overlapped_write =>
      if decide (action = MlaReturnError) then
        raw ← map_err MvCodec (Key_into_raw primary_key);
        Err (MvTxnNotFound (r_start_ts reader) raw)
      else if resolving_pessimistic_lock then Ok (LockNotExistDoNothing, txn)
      else
        let ts := r_start_ts reader in
        collapse ← MissingLockAction_collapse_rollback action;
        txn ← (if collapse : bool then collapse_prev_rollback txn reader primary_key else Ok txn);
        txn ← mark_rollback_if_mismatching txn primary_key mismatch_lock overlapped_write
                (bool_decide (action = MlaProtectedRollback));
        rollback ← MissingLockAction_construct_write action ts overlapped_write;
        txn ← put_rollback txn primary_key ts rollback;
        Ok (LockNotExist, txn)
  end.

Definition cleanup txn reader (key : Key) (current_ts : TimeStamp) (protect_rollback : bool)
    : mvcc_res (option ReleasedLock * MvccTxn) :=
  let missing l :=
    '(status, txn) ← check_txn_status_missing_lock txn reader key l
                       (MissingLockAction_rollback_protect protect_rollback) false;
    match status with
    | Committed commit_ts =>
        raw ← map_err MvCodec (Key_into_raw key);
        Err (MvCommitted (r_start_ts reader) commit_ts raw)
    | RolledBack => Ok (None, txn)
    | LockNotExist => Ok (None, txn)
    | _ => Panic
    end in
  found ← load_lock reader key;
  match found with
  | Some lock =>
      if l_ts lock =? r_start_ts reader then
        if (negb (TimeStamp_is_zero current_ts)
            && (TimeStamp_physical current_ts <=? as_u64 (TimeStamp_physical (l_ts lock) + l_ttl lock)))%bool
        then
          raw ← map_err MvCodec (Key_into_raw key);
          Err (MvKeyIsLocked (Lock_into_lock_info lock raw))
        else
          rollback_lock txn reader key lock (Lock_is_pessimistic_txn lock) (negb protect_rollback)
      else missing (Some lock)
  | None => missing None
  end.

(** ** Status of a transaction from its primary lock *)

Definition lock_expired (lock : Lock) (current_ts : TimeStamp) : bool :=
  as_u64 (TimeStamp_physical (l_ts lock) + l_ttl lock) <? TimeStamp_physical current_ts.

Definition check_txn_status_from_pessimistic_primary_lock txn reader (primary_key : Key) (lock : Lock)
    (current_ts : TimeStamp) (resolving_pessimistic_lock : bool)
    : mvcc_res (option TxnStatus * option ReleasedLock * MvccTxn) :=
  _ ← assert_ (Lock_is_pessimistic_lock lock);
  determined ← (if Lock_is_pessimistic_lock_with_conflict lock
                then check_determined_txn_status reader primary_key else Ok None);
  match determined with
  | Some txn_status =>
      '(released, txn) ← unlock_key txn primary_key true TimeStamp_zero;
      Ok (Some txn_status, released, txn)
  | None =>
      if lock_expired lock current_ts then
        if resolving_pessimistic_lock then
          '(released, txn) ← unlock_key txn primary_key true TimeStamp_zero;
          Ok (Some PessimisticRollBack, released, txn)
        else
          '(released, txn) ← rollback_lock txn reader primary_key lock true true;
          Ok (Some TtlExpire, released, txn)
      else Ok (None, None, txn)
  end.

(** The last part of [check_txn_status_lock_exists], for a live lock. *)
Definition push_min_commit_ts txn (primary_key : Key) (lock : Lock)
    (current_ts caller_start_ts : TimeStamp)
    : mvcc_res (TxnStatus * option ReleasedLock * MvccTxn) :=
  '(lock, txn) ←
    (if (negb (TimeStamp_is_zero (l_min_commit_ts lock))
         && negb (TimeStamp_is_max caller_start_ts)
         && (l_min_commit_ts lock <=? caller_start_ts))%bool
     then
       next ← TimeStamp_next caller_start_ts;
       let lock := Lock_set_min_commit_ts lock next in
       let lock :=
         if l_min_commit_ts lock <? current_ts then Lock_set_min_commit_ts lock current_ts else lock in
       txn ← put_lock txn primary_key lock false;
       Ok (lock, txn)
     else Ok (lock, txn));
  let min_commit_ts_pushed :=
    ((negb (TimeStamp_is_zero caller_start_ts) && (caller_start_ts <? l_min_commit_ts lock))
     || TimeStamp_is_max caller_start_ts)%bool in
  Ok (Uncommitted lock min_commit_ts_pushed, None, txn).

Definition check_txn_status_lock_exists txn reader (primary_key : Key) (lock : Lock)
    (current_ts caller_start_ts : TimeStamp)
    (force_sync_commit resolving_pessimistic_lock verify_is_primary rollback_if_not_exist : bool)
    : mvcc_res (TxnStatus * option ReleasedLock * MvccTxn) :=
  if (verify_is_primary && negb (Key_is_encoded_from primary_key (l_primary lock)))%bool then
    match resolving_pessimistic_lock, Lock_is_pessimistic_lock lock with
    | false, true =>
        '(txn_status, txn) ← check_txn_status_missing_lock txn reader primary_key None
                               (MissingLockAction_rollback rollback_if_not_exist)
                               resolving_pessimistic_lock;
        '(released, txn) ← unlock_key txn primary_key true TimeStamp_zero;
        Ok (txn_status, released, txn)
    | _, _ =>
        raw ← map_err MvCodec (Key_into_raw primary_key);
        Err (MvPrimaryMismatch (Lock_into_lock_info lock raw))
    end
  else if (l_use_async_commit lock && negb force_sync_commit)%bool then
    Ok (Uncommitted lock false, None, txn)
  else
    let is_pessimistic_txn := negb (TimeStamp_is_zero (l_for_update_ts lock)) in
    if Lock_is_pessimistic_lock lock then
      '(status, released, txn) ← check_txn_status_from_pessimistic_primary_lock txn reader
                                   primary_key lock current_ts resolving_pessimistic_lock;
      match status, released with
      | Some txn_status, Some released_lock => Ok (txn_status, Some released_lock, txn)
      | None, None => push_min_commit_ts txn primary_key lock current_ts caller_start_ts
      | _, _ => Panic
      end
    else if lock_expired lock current_ts then
      '(released, txn) ← rollback_lock txn reader primary_key lock is_pessimistic_txn true;
      Ok (TtlExpire, released, txn)
    else push_min_commit_ts txn primary_key lock current_ts caller_start_ts.
End Actions.

(** ** What the actions do to a store

    [key] is the key the action is about, [W] its write records and [st] the
    start timestamp of the transaction. *)

(** The record a commit writes for a lock. *)
Definition commit_write (l : Lock) (commit_ts : TimeStamp) : Write :=
  let w := Write_new (match l_lock_type l with LtPut => WtPut | LtDelete => WtDelete | _ => WtLock end)
             (l_ts l) (l_short_value l) in
  let w := Write_set_txn_source (Write_set_last_change w (l_last_change l)) (l_txn_source l) in
  if existsb (Z.eqb commit_ts) (l_rollback_ts l) then Write_set_overlapped_rollback w true None else w.

Lemma commit_write_ok l c : lock_ok l -> write_ok (commit_write l c).
Proof.
  intros Hl. unfold commit_write. destruct (existsb _ _); split; cbn; done || apply Hl.
Qed.

Lemma commit_write_start l c : w_start_ts (commit_write l c) = l_ts l.
Proof. unfold commit_write. by destruct (existsb _ _). Qed.

Section StoreActions.
Context (s : Store) (raw : bytes) (st : TimeStamp) (txn : MvccTxn).
Hypothesis (wf : wf_store s) (raw_ok : bytes_ok raw) (st_ok : u64_ok st).
Hypothesis (txn_start : t_start_ts txn = st).
Let key := Key_from_raw raw.
Let W := a_write (abs s) key.
Context (reader : SnapshotReader Store).
Hypothesis (rd : reader_of s st reader).

Lemma action_key_ok : key_ok key.
Proof. by exists raw. Qed.

Lemma action_key_into_raw : Key_into_raw key = Ok raw.
Proof. by apply Key_into_raw_from_raw. Qed.

Lemma reader_commit_record :
  exists rec, get_txn_commit_record reader key = Ok rec /\ commit_record_spec W st rec.
Proof.
  unfold get_txn_commit_record. rewrite (reader_start rd). unfold W, abs. cbn [a_write].
  rewrite <-(reader_snapshot rd). apply get_txn_commit_record_ok; [|done..].
  rewrite (reader_snapshot rd). apply wf.
Qed.

Lemma reader_load_lock : load_lock reader key = Ok (a_lock (abs s) key).
Proof. rewrite <-(reader_snapshot rd). apply load_lock_abs; [|done]. by rewrite (reader_snapshot rd). Qed.

Lemma reader_seek_write ts :
  u64_ok ts ->
  exists o, seek_write reader key ts = Ok o /\ newest W ts o.
Proof.
  intros Hts. destruct (seek_write_spec reader raw) with (ts := ts) as (o & Ho & Hn & _);
    [rewrite (reader_snapshot rd); apply wf|done..|].
  exists o. split; [done|]. by rewrite (reader_snapshot rd) in Hn.
Qed.

(** The outcome of a commit when the key has no lock of the transaction. *)
Definition commit_missing (c : TimeStamp) (rec : TxnCommitRecord)
    : mvcc_res (option ReleasedLock * MvccTxn) :=
  match rec with
  | TcrSingleRecord _ w =>
      if decide (w_write_type w = WtRollback) then Err (MvTxnLockNotFound st c raw) else Ok (None, txn)
  | _ => Err (MvTxnLockNotFound st c raw)
  end.

Definition commit_own_lock (c : TimeStamp) (l : Lock) : mvcc_res (option ReleasedLock * MvccTxn) :=
  if c <? l_min_commit_ts l then Err (MvCommitTsExpired st c raw (l_min_commit_ts l))
  else if Lock_is_pessimistic_lock l then
    Ok (Some (ReleasedLock_new st 0 key (Lock_is_pessimistic_txn l)), add_updates txn [LUnlock key] [])
  else
    Ok (Some (ReleasedLock_new st c key (Lock_is_pessimistic_txn l)),
        add_updates txn [LPutWrite key c (commit_write l c); LUnlock key] []).

Lemma commit_eq c :
  exists rec, commit_record_spec W st rec
  /\ commit txn reader key c
     = match a_lock (abs s) key with
       | Some l => if l_ts l =? st then commit_own_lock c l else commit_missing c rec
       | None => commit_missing c rec
       end.
Proof.
  destruct reader_commit_record as (rec & Hrec & Hspec). exists rec. split; [done|].
  unfold commit. rewrite reader_load_lock, Hrec. cbn [mbind res_bind].
  rewrite !action_key_into_raw, ?(reader_start rd). cbn [map_err mbind res_bind].
  assert (match TxnCommitRecord_info rec with
    | Some (_, WtRollback) | None => Err (MvTxnLockNotFound st c raw)
    | Some (_, WtPut) | Some (_, WtDelete) | Some (_, WtLock) => Ok (None, txn)
    end = commit_missing c rec) as Hm.
  { destruct rec as [ow|c' w|c']; cbn; [done| |done]. by destruct (w_write_type w). }
  destruct (a_lock (abs s) key) as [l|]; [|exact Hm].
  rewrite ?(reader_start rd). destruct (Z.eqb_spec (l_ts l) st) as [Ht|]; [|exact Hm].
  unfold commit_own_lock. destruct (c <? l_min_commit_ts l); [done|].
  destruct (Lock_is_pessimistic_lock l) eqn:Hp; [by rewrite unlock_key_add, txn_start|].
  assert (WriteType_from_lock_type (l_lock_type l)
    = Some (match l_lock_type l with LtPut => WtPut | LtDelete => WtDelete | _ => WtLock end)) as ->.
  { unfold Lock_is_pessimistic_lock in Hp. destruct (l_lock_type l); done. }
  cbn [unwrap mbind res_bind]. rewrite put_write_add. cbn [mbind res_bind].
  rewrite unlock_key_add, add_updates_add. cbn [t_start_ts add_updates]. rewrite txn_start.
  unfold commit_write. by rewrite Ht.
Qed.

(** *** Rollback *)

Definition rollback_record (protected : bool) (ow : option OverlappedWrite) : option Write :=
  match ow with
  | Some ow =>
      if protected then Some (Write_set_overlapped_rollback (ow_write ow) true (Some (ow_gc_fence ow)))
      else None
  | None => Some (Write_new_rollback st protected)
  end.

Definition rollback_updates (protected : bool) (ow : option OverlappedWrite) : list LModify :=
  match rollback_record protected ow with Some w => [LPutWrite key st w] | None => [] end.

(** The previous rollback a new one replaces. *)
Definition collapse_spec (cu : list LModify) : Prop :=
  cu = [] \/ exists c w, cu = [LDelWrite key c] /\ newest W st (Some (c, w))
    /\ w_write_type w = WtRollback /\ WriteRef_is_protected w = false.

Definition mark_updates (mismatch : option Lock) (ow : option OverlappedWrite) (protected : bool)
    : list LModify :=
  match mismatch, ow with
  | Some l, None =>
      if (protected && negb (st <? l_min_commit_ts l) && l_use_async_commit l)%bool
      then [LPutLock key (Lock_push_rollback_ts l st)] else []
  | _, _ => []
  end.

Definition starts_before : Prop := forall t w, W t = Some w -> w_start_ts w <= t.

Lemma make_rollback_eq protected ow :
  starts_before -> commit_record_spec W st (TcrNone ow) ->
  make_rollback st protected ow = Ok (rollback_record protected ow).
Proof.
  intros Hle Hrec. destruct ow as [ow|]; [|done]. unfold make_rollback, rollback_record.
  destruct Hrec as (_ & Hw & Hne & _). specialize (Hle _ _ Hw).
  destruct (Z.ltb_spec (w_start_ts (ow_write ow)) st); [|lia]. by destruct protected.
Qed.

Lemma collapse_eq :
  exists cu, collapse_spec cu
    /\ forall txn', collapse_prev_rollback txn' reader key = Ok (add_updates txn' cu []).
Proof.
  destruct (reader_seek_write st st_ok) as (o & Ho & Hn).
  set (hit := match o with
    | Some (_, w) => (bool_decide (w_write_type w = WtRollback) && negb (WriteRef_is_protected w))%bool
    | None => false end).
  exists (match o with Some (c, _) => if hit then [LDelWrite key c] else [] | None => [] end). split.
  - destruct o as [[c w]|]; [|by left]. destruct hit eqn:E; [|by left]. right. exists c, w.
    unfold hit in E. apply andb_prop in E as [E1%bool_decide_eq_true E2%negb_true_iff]. done.
  - intros txn'. unfold collapse_prev_rollback. rewrite ?(reader_start rd). rewrite Ho.
    cbn [mbind res_bind]. destruct o as [[c w]|]; [|by rewrite add_updates_nil]. fold hit.
    destruct hit; [apply delete_write_add|by rewrite add_updates_nil].
Qed.

Lemma put_rollback_eq txn' protected ow :
  put_rollback txn' key st (rollback_record protected ow)
  = Ok (add_updates txn' (rollback_updates protected ow) []).
Proof.
  unfold rollback_updates, put_rollback. destruct (rollback_record protected ow);
    [apply put_write_add|by rewrite add_updates_nil].
Qed.

Lemma mark_rollback_eq txn' mismatch ow protected :
  t_start_ts txn' = st -> match mismatch with Some l => l_ts l <> st | None => True end ->
  mark_rollback_if_mismatching txn' key mismatch ow protected
  = Ok (add_updates txn' (mark_updates mismatch ow protected) []).
Proof.
  intros Hst Hne. unfold mark_rollback_if_mismatching. destruct mismatch as [l|]; [|by rewrite add_updates_nil].
  destruct ow; [by rewrite add_updates_nil|]. unfold mark_rollback_on_mismatching_lock, mark_updates.
  rewrite Hst. destruct (Z.eqb_spec (l_ts l) st); [done|]. cbn [negb assert_ mbind res_bind].
  destruct protected; cbn [negb andb]; [|by rewrite add_updates_nil].
  destruct (st <? l_min_commit_ts l); cbn [negb andb]; [by rewrite add_updates_nil|].
  destruct (l_use_async_commit l); cbn [negb]; [by apply put_lock_old|by rewrite add_updates_nil].
Qed.

(** What [check_txn_status_missing_lock] answers from the commit record. *)
Definition missing_lock_outcome (mismatch : option Lock) (action : MissingLockAction)
    (resolving : bool) (rec : TxnCommitRecord) (cu : list LModify) : mvcc_res (TxnStatus * MvccTxn) :=
  match rec with
  | TcrSingleRecord c w =>
      Ok (if decide (w_write_type w = WtRollback) then RolledBack else Committed c, txn)
  | TcrOverlappedRollback _ => Ok (RolledBack, txn)
  | TcrNone ow =>
      match action, resolving with
      | MlaReturnError, _ => Err (MvTxnNotFound st raw)
      | _, true => Ok (LockNotExistDoNothing, txn)
      | MlaRollback, false =>
          Ok (LockNotExist, add_updates txn (cu ++ rollback_updates false ow) [])
      | MlaProtectedRollback, false =>
          Ok (LockNotExist, add_updates txn (mark_updates mismatch ow true ++ rollback_updates true ow) [])
      end
  end.

Lemma check_txn_status_missing_lock_eq mismatch action resolving :
  starts_before -> match mismatch with Some l => l_ts l <> st | None => True end ->
  exists rec cu, commit_record_spec W st rec /\ collapse_spec cu
    /\ check_txn_status_missing_lock txn reader key mismatch action resolving
       = missing_lock_outcome mismatch action resolving rec cu.
Proof.
  intros Hle Hne. destruct reader_commit_record as (rec & Hrec & Hspec).
  destruct collapse_eq as (cu & Hcu & Hceq). exists rec, cu. split; [done|]. split; [done|].
  unfold check_txn_status_missing_lock. rewrite Hrec. cbn [mbind res_bind].
  destruct rec as [ow|c w|c]; cbn [missing_lock_outcome]; [|by case_decide|done].
  rewrite action_key_into_raw. rewrite ?(reader_start rd).
  unfold MissingLockAction_construct_write.
  destruct action, resolving; try done; cbn [MissingLockAction_collapse_rollback mbind res_bind];
    rewrite decide_False by done.
  - rewrite Hceq. cbn [mbind res_bind]. rewrite bool_decide_eq_false_2 by done.
    rewrite mark_rollback_eq by done. cbn [mbind res_bind negb].
    rewrite (make_rollback_eq false ow) by done. cbn [mbind res_bind].
    rewrite put_rollback_eq. cbn [mbind res_bind]. rewrite !add_updates_add.
    assert (mark_updates mismatch ow false = []) as -> by (by destruct mismatch, ow).
    by rewrite app_nil_r.
  - cbn [mbind res_bind]. rewrite bool_decide_eq_true_2 by done.
    rewrite mark_rollback_eq by done. cbn [mbind res_bind negb].
    rewrite (make_rollback_eq true ow) by done. cbn [mbind res_bind].
    rewrite put_rollback_eq. cbn [mbind res_bind]. by rewrite !add_updates_add.
Qed.

Definition rollback_protected (l : Lock) : bool :=
  Key_is_encoded_from key (l_primary l) || (0 <? l_generation l).

Definition delete_value_updates (l : Lock) : list LModify :=
  if (match l_short_value l with None => true | Some _ => false end
      && bool_decide (l_lock_type l = LtPut))%bool
  then [LDelValue key (l_ts l)] else [].

Definition rollback_lock_outcome (l : Lock) (pessimistic collapse : bool) (rec : TxnCommitRecord)
    (cu : list LModify) : mvcc_res (option ReleasedLock * MvccTxn) :=
  let released := Some (ReleasedLock_new st 0 key pessimistic) in
  match rec with
  | TcrSingleRecord _ w =>
      if decide (w_write_type w = WtRollback) then Ok (released, add_updates txn [LUnlock key] [])
      else Panic
  | TcrOverlappedRollback _ => Ok (released, add_updates txn [LUnlock key] [])
  | TcrNone ow =>
      Ok (released,
          add_updates txn (delete_value_updates l ++ rollback_updates (rollback_protected l) ow
                           ++ (if collapse then cu else []) ++ [LUnlock key]) [])
  end.

Lemma rollback_lock_eq l pessimistic collapse :
  starts_before ->
  exists rec cu, commit_record_spec W st rec /\ collapse_spec cu
    /\ rollback_lock txn reader key l pessimistic collapse
       = rollback_lock_outcome l pessimistic collapse rec cu.
Proof.
  intros Hle. destruct reader_commit_record as (rec & Hrec & Hspec).
  destruct collapse_eq as (cu & Hcu & Hceq). exists rec, cu. split; [done|]. split; [done|].
  unfold rollback_lock. rewrite Hrec. cbn [mbind res_bind].
  destruct rec as [ow|c w|c]; cbn [rollback_lock_outcome];
    [|case_decide; [|done]; by rewrite unlock_key_add, txn_start|by rewrite unlock_key_add, txn_start].
  assert ((if (match l_short_value l with None => true | Some _ => false end
              && bool_decide (l_lock_type l = LtPut))%bool then delete_value txn key (l_ts l) else Ok txn)
    = Ok (add_updates txn (delete_value_updates l) [])) as ->.
  { unfold delete_value_updates. destruct (_ && _)%bool; [apply delete_value_add|by rewrite add_updates_nil]. }
  cbn [mbind res_bind]. rewrite ?(reader_start rd). fold (rollback_protected l).
  rewrite make_rollback_eq by done. cbn [mbind res_bind]. rewrite put_rollback_eq.
  cbn [mbind res_bind]. rewrite add_updates_add.
  destruct collapse; [rewrite Hceq|]; cbn [mbind res_bind]; rewrite unlock_key_add, !add_updates_add;
    cbn [t_start_ts add_updates]; rewrite txn_start; cbn [app]; by rewrite <-!app_assoc.
Qed.

(** *** Cleanup *)

Definition not_expired (l : Lock) (current_ts : TimeStamp) : bool :=
  negb (TimeStamp_is_zero current_ts)
  && (TimeStamp_physical current_ts <=? as_u64 (TimeStamp_physical (l_ts l) + l_ttl l)).

Definition cleanup_missing (o : mvcc_res (TxnStatus * MvccTxn)) : mvcc_res (option ReleasedLock * MvccTxn) :=
  '(status, txn) ← o;
  match status with
  | Committed commit_ts => Err (MvCommitted st commit_ts raw)
  | RolledBack | LockNotExist => Ok (None, txn)
  | _ => Panic
  end.

Definition own_lock : option Lock :=
  match a_lock (abs s) key with Some l => if l_ts l =? st then Some l else None | None => None end.

Definition mismatch_lock : option Lock :=
  match a_lock (abs s) key with Some l => if l_ts l =? st then None else Some l | None => None end.

Lemma mismatch_lock_ne : match mismatch_lock with Some l => l_ts l <> st | None => True end.
Proof.
  unfold mismatch_lock. destruct (a_lock (abs s) key) as [l|]; [|done].
  by destruct (Z.eqb_spec (l_ts l) st).
Qed.

Lemma cleanup_eq current_ts protect :
  starts_before ->
  exists rec cu, commit_record_spec W st rec /\ collapse_spec cu
    /\ cleanup txn reader key current_ts protect
       = match own_lock with
         | Some l =>
             if not_expired l current_ts then Err (MvKeyIsLocked (Lock_into_lock_info l raw))
             else rollback_lock_outcome l (Lock_is_pessimistic_txn l) (negb protect) rec cu
         | None =>
             cleanup_missing (missing_lock_outcome mismatch_lock
               (MissingLockAction_rollback_protect protect) false rec cu)
         end.
Proof.
  intros Hle. pose proof mismatch_lock_ne as Hne. unfold cleanup, own_lock, mismatch_lock in *.
  rewrite reader_load_lock. cbn [mbind res_bind]. rewrite !action_key_into_raw.
  rewrite ?(reader_start rd).
  destruct (a_lock (abs s) key) as [l|]; [destruct (l_ts l =? st)|].
  - destruct (rollback_lock_eq l (Lock_is_pessimistic_txn l) (negb protect) Hle)
      as (rec & cu & Hrec & Hcu & E). exists rec, cu. split; [done|]. split; [done|].
    rewrite E. unfold not_expired. by destruct (_ && _)%bool.
  - destruct (check_txn_status_missing_lock_eq (Some l) (MissingLockAction_rollback_protect protect)
      false Hle Hne) as (rec & cu & Hrec & Hcu & E). exists rec, cu. split; [done|]. split; [done|].
    by rewrite E.
  - destruct (check_txn_status_missing_lock_eq None (MissingLockAction_rollback_protect protect)
      false Hle Hne) as (rec & cu & Hrec & Hcu & E). exists rec, cu. split; [done|]. split; [done|].
    by rewrite E.
Qed.
End StoreActions.
