(* ===== verification/Commands.v ===== *)
(** * Transaction commands

    Models the write commands of [src/storage/txn/commands] that end or inspect
    transactions: [Commit], [Rollback], [Cleanup], [CheckTxnStatus],
    [CheckSecondaryLocks], [TxnHeartBeat], [ResolveLockLite] and
    [PessimisticRollback].  [process_write] is a function of the snapshot, the
    request context and the concurrency manager; its result carries what the
    scheduler writes and returns, and [execute] applies it to the store the
    snapshot was taken from.  Of the request context the reader uses the term
    and the epoch version, and the prewrite command the other fields.  Row counts
    and, but for prewrite, response policies are left out. *)

From Stdlib Require Import ZArith Lia.
From stdpp Require Import base numbers list gmap.
From S2P Require Import Prelude Number Bytes Types Write Lock ConcurrencyManager Engine Reader.
From S2P Require Import AbsState ReaderSpec MvccTxn Prewrite TxnStatus.

Open Scope Z_scope.

Inductive txn_error : Type :=
| TeMvcc (e : mvcc_error)
| TeCodec (e : codec_error)
| TeInvalidTxnTso (start_ts commit_ts : TimeStamp)
| TeInvalidMaxTsUpdate (e : InvalidMaxTsUpdate)
| TeMaxTimestampNotSynced (region_id : u64) (start_ts : TimeStamp)
| TeOther.

Abbreviation txn_res := (res txn_error).

Inductive SecondaryLocksStatus : Type :=
| SlsLocked (locks : list LockInfo)
| SlsCommitted (commit_ts : TimeStamp)
| SlsRolledBack.

Definition SecondaryLocksStatus_push (s : SecondaryLocksStatus) (lock : LockInfo)
    : txn_res SecondaryLocksStatus :=
  match s with SlsLocked v => Ok (SlsLocked (v ++ [lock])) | _ => Panic end.

(** The result of a pessimistic lock on one key. *)
Inductive PessimisticLockKeyResult : Type :=
| PlEmpty
| PlValue (value : option Value)
| PlExistence (existence : bool)
| PlLockedWithConflict (value : option Value) (conflict_ts : TimeStamp)
| PlWaiting
| PlFailed (e : txn_error).

Inductive WaitTimeout : Type := WaitDefault | WaitMillis (ms : u64).

Record PessimisticLockParameters : Type := {
  plp_primary : bytes;
  plp_start_ts : TimeStamp;
  plp_lock_ttl : u64;
  plp_for_update_ts : TimeStamp;
  plp_wait_timeout : option WaitTimeout;
  plp_return_values : bool;
  plp_min_commit_ts : TimeStamp;
  plp_check_existence : bool;
  plp_is_first_lock : bool;
  plp_lock_only_if_exists : bool;
  plp_allow_lock_with_conflict : bool
}.

(** The digest and the latch hash are functions of the key and the lock
    information; a new one has no token and no shared state. *)
Record WriteResultLockInfo : Type := {
  wl_key : Key;
  wl_should_not_exist : bool;
  wl_lock_info_pb : LockInfo;
  wl_parameters : PessimisticLockParameters
}.

(** Of the results of the locked keys, all errors, the errors are kept. *)
Record PrewriteResult : Type := {
  pr_locks : list txn_error;
  pr_min_commit_ts : TimeStamp;
  pr_one_pc_commit_ts : TimeStamp
}.

(** [PrNextPessimisticRollback scan_key]: the read phase is scheduled next. *)
Inductive ProcessResult : Type :=
| PrRes
| PrTxnStatus (status : TxnStatus)
| PrSecondaryLocksStatus (status : SecondaryLocksStatus)
| PrMultiRes
| PrPessimisticLockRes (r : txn_res (list PessimisticLockKeyResult))
| PrPrewriteResult (result : PrewriteResult)
| PrNextPessimisticRollback (scan_key : Key).

Record WriteResult : Type := {
  wr_modifies : list Modify;
  wr_pr : ProcessResult;
  wr_lock_info : list WriteResultLockInfo;
  wr_released_locks : list ReleasedLock;
  wr_new_acquired_locks : list LockInfo;
  wr_known_txn_status : list (TimeStamp * TimeStamp)
}.

Definition ReleasedLocks_push (locks : list ReleasedLock) (lock : option ReleasedLock)
    : list ReleasedLock := match lock with Some l => locks ++ [l] | None => locks end.

Record Context : Type := {
  ctx_term : u64;
  ctx_region_id : u64;
  ctx_region_version : u64;
  ctx_is_retry_request : bool;
  ctx_txn_source : u64
}.

Definition SnapshotReader_new_with_ctx {Snap} (start_ts : TimeStamp) (snapshot : Snap) (ctx : Context)
    : SnapshotReader Snap :=
  {| r_snapshot := snapshot; r_start_ts := start_ts; r_term := ctx_term ctx;
     r_version := ctx_region_version ctx; r_allow_in_flashback := false |}.

(** The end every command has in common. *)
Definition finish (txn : MvccTxn) (pr : ProcessResult) (released_locks : list ReleasedLock)
    (known_txn_status : list (TimeStamp * TimeStamp)) : txn_res WriteResult :=
  let '(new_acquired_locks, txn) := take_new_locks txn in
  modifies ← into_modifies txn;
  Ok {| wr_modifies := modifies; wr_pr := pr; wr_lock_info := []; wr_released_locks := released_locks;
        wr_new_acquired_locks := new_acquired_locks; wr_known_txn_status := known_txn_status |}.

Section Commands.
Context {Snap : Type} `{EngineSnapshot Snap}.
Context (snapshot : Snap) (ctx : Context) (cm : ConcurrencyManager).
Context (now : Z) (tso : option TimeStamp).
Implicit Types reader : SnapshotReader Snap.

(** The loop over the keys of a command: one action per key on one buffer. *)
Fixpoint for_keys (act : MvccTxn -> Key -> mvcc_res (option ReleasedLock * MvccTxn)) (txn : MvccTxn)
    (keys : list Key) (released : list ReleasedLock) : txn_res (list ReleasedLock * MvccTxn) :=
  match keys with
  | [] => Ok (released, txn)
  | k :: keys =>
      '(l, txn) ← map_err TeMvcc (act txn k);
      for_keys act txn keys (ReleasedLocks_push released l)
  end.

Definition Commit_process_write (keys : list Key) (lock_ts commit_ts : TimeStamp) : txn_res WriteResult :=
  if commit_ts <=? lock_ts then Err (TeInvalidTxnTso lock_ts commit_ts)
  else
    let reader := SnapshotReader_new_with_ctx lock_ts snapshot ctx in
    '(released_locks, txn) ← for_keys (fun txn k => commit txn reader k commit_ts)
                               (MvccTxn_new lock_ts cm) keys [];
    finish txn (PrTxnStatus (Committed commit_ts)) released_locks [(lock_ts, commit_ts)].

Definition Rollback_process_write (keys : list Key) (start_ts : TimeStamp) : txn_res WriteResult :=
  let reader := SnapshotReader_new_with_ctx start_ts snapshot ctx in
  '(released_locks, txn) ← for_keys (fun txn k => cleanup txn reader k TimeStamp_zero false)
                             (MvccTxn_new start_ts cm) keys [];
  finish txn PrRes released_locks [].

Definition ResolveLockLite_process_write (start_ts commit_ts : TimeStamp) (resolve_keys : list Key)
    : txn_res WriteResult :=
  let reader := SnapshotReader_new_with_ctx start_ts snapshot ctx in
  let act txn k :=
    if negb (TimeStamp_is_zero commit_ts) then commit txn reader k commit_ts
    else cleanup txn reader k TimeStamp_zero false in
  '(released_locks, txn) ← for_keys act (MvccTxn_new start_ts cm) resolve_keys [];
  let known_txn_status := if negb (TimeStamp_is_zero commit_ts) then [(start_ts, commit_ts)] else [] in
  finish txn PrRes released_locks known_txn_status.

Definition PessimisticRollback_process_write (keys : list Key) (start_ts for_update_ts : TimeStamp)
    (scan_key : option Key) : txn_res WriteResult :=
  let reader := SnapshotReader_new_with_ctx start_ts snapshot ctx in
  let act txn key :=
    found ← load_lock reader key;
    match found with
    | Some lock =>
        if (Lock_is_pessimistic_lock lock && (l_ts lock =? start_ts)
            && (l_for_update_ts lock <=? for_update_ts))%bool
        then unlock_key txn key true TimeStamp_zero
        else Ok (None, txn)
    | None => Ok (None, txn)
    end in
  '(released_locks, txn) ← for_keys act (MvccTxn_new start_ts cm) keys [];
  let pr := match scan_key with None => PrMultiRes | Some k => PrNextPessimisticRollback k end in
  finish txn pr released_locks [].

Definition Cleanup_process_write (key : Key) (start_ts current_ts : TimeStamp)
    : txn_res WriteResult * ConcurrencyManager :=
  let '(updated, cm) := update_max_ts now tso cm start_ts in
  (_ ← map_err TeInvalidMaxTsUpdate updated;
   let reader := SnapshotReader_new_with_ctx start_ts snapshot ctx in
   '(released, txn) ← map_err TeMvcc (cleanup (MvccTxn_new start_ts cm) reader key current_ts true);
   finish txn PrRes (ReleasedLocks_push [] released) [], cm).

Definition CheckTxnStatus_process_write (primary_key : Key)
    (lock_ts caller_start_ts current_ts : TimeStamp)
    (rollback_if_not_exist force_sync_commit resolving_pessimistic_lock verify_is_primary : bool)
    : txn_res WriteResult * ConcurrencyManager :=
  let new_max_ts := lock_ts in
  let new_max_ts :=
    if (negb (TimeStamp_is_max current_ts) && (new_max_ts <? current_ts))%bool
    then current_ts else new_max_ts in
  let new_max_ts :=
    if (negb (TimeStamp_is_max caller_start_ts) && (new_max_ts <? caller_start_ts))%bool
    then caller_start_ts else new_max_ts in
  let '(updated, cm) := update_max_ts now tso cm new_max_ts in
  (_ ← map_err TeInvalidMaxTsUpdate updated;
   let txn := MvccTxn_new lock_ts cm in
   let reader := SnapshotReader_new_with_ctx lock_ts snapshot ctx in
   let missing l :=
     '(status, txn) ← check_txn_status_missing_lock txn reader primary_key l
                        (MissingLockAction_rollback rollback_if_not_exist) resolving_pessimistic_lock;
     Ok (status, None, txn) in
   found ← map_err TeMvcc (load_lock reader primary_key);
   '(txn_status, released, txn) ←
     map_err TeMvcc
       match found with
       | Some lock =>
           if l_ts lock =? lock_ts then
             check_txn_status_lock_exists txn reader primary_key lock current_ts caller_start_ts
               force_sync_commit resolving_pessimistic_lock verify_is_primary rollback_if_not_exist
           else missing (Some lock)
       | None => missing None
       end;
   let known_txn_status :=
     match txn_status with Committed commit_ts => [(lock_ts, commit_ts)] | _ => [] end in
   finish txn (PrTxnStatus txn_status) (ReleasedLocks_push [] released) known_txn_status, cm).

Definition Lock_set_ttl (l : Lock) (ttl : u64) : Lock :=
  let '(Build_Lock t p ts _ sv fu size mc ac pc sec rb lc src cf g) := l in
  Build_Lock t p ts ttl sv fu size mc ac pc sec rb lc src cf g.

Definition TxnHeartBeat_process_write (primary_key : Key) (start_ts : TimeStamp)
    (advise_ttl min_commit_ts : u64) : txn_res WriteResult :=
  let txn := MvccTxn_new start_ts cm in
  let reader := SnapshotReader_new_with_ctx start_ts snapshot ctx in
  let not_found :=
    raw ← map_err TeCodec (Key_into_raw primary_key);
    Err (TeMvcc (MvTxnNotFound start_ts raw)) in
  found ← map_err TeMvcc (load_lock reader primary_key);
  match found with
  | Some lock =>
      if l_ts lock =? start_ts then
        let '(lock, updated) :=
          if l_ttl lock <? advise_ttl then (Lock_set_ttl lock advise_ttl, true) else (lock, false) in
        let '(lock, updated) :=
          if (negb (l_use_async_commit lock) && (0 <? l_generation lock) && (0 <? min_commit_ts)
              && (l_min_commit_ts lock <? min_commit_ts))%bool
          then (Lock_set_min_commit_ts lock min_commit_ts, true) else (lock, updated) in
        txn ← (if updated : bool then map_err TeMvcc (put_lock txn primary_key lock false) else Ok txn);
        finish txn (PrTxnStatus (Uncommitted lock false)) [] []
      else not_found
  | None => not_found
  end.

(** *** [CheckSecondaryLocks] *)

Inductive SecondaryLockStatus : Type :=
| SlLocked (lock : Lock)
| SlCommitted (commit_ts : TimeStamp)
| SlRolledBack.

(** [check_determined_txn_status] of [check_secondary_locks.rs]. *)
Definition secondary_determined_status reader (key : Key)
    : mvcc_res (SecondaryLockStatus * bool * option OverlappedWrite) :=
  record ← get_txn_commit_record reader key;
  match record with
  | TcrSingleRecord commit_ts write =>
      let status :=
        if decide (w_write_type write = WtRollback) then SlRolledBack else SlCommitted commit_ts in
      Ok (status, false, None)
  | TcrOverlappedRollback _ => Ok (SlRolledBack, false, None)
  | TcrNone overlapped_write => Ok (SlRolledBack, true, overlapped_write)
  end.

Definition check_status_from_lock (txn : MvccTxn) reader (lock : Lock) (key : Key)
    : mvcc_res (SecondaryLockStatus * bool * option OverlappedWrite * option ReleasedLock * MvccTxn) :=
  let locked_with_conflict := Lock_is_pessimistic_lock_with_conflict lock in
  '(status, need_rollback, overlapped_write) ←
    (if locked_with_conflict then
       _ ← assert_ (Lock_is_pessimistic_lock lock);
       secondary_determined_status reader key
     else Ok (SlRolledBack, true, None));
  if negb need_rollback then
    '(released_lock, txn) ← unlock_key txn key true TimeStamp_zero;
    Ok (status, need_rollback, overlapped_write, released_lock, txn)
  else if Lock_is_pessimistic_lock lock then
    '(released_lock, txn) ← unlock_key txn key true TimeStamp_zero;
    overlapped_write_res ←
      (if locked_with_conflict then Ok overlapped_write
       else
         record ← get_txn_commit_record reader key;
         TxnCommitRecord_unwrap_none record);
    Ok (SlRolledBack, true, overlapped_write_res, released_lock, txn)
  else Ok (SlLocked lock, false, None, None, txn).

(** One round of the loop: the status of the key, the lock it released and the
    buffer after the rollback it may have to write. *)
Definition check_secondary_lock (txn : MvccTxn) reader (start_ts : TimeStamp) (key : Key)
    : mvcc_res (SecondaryLockStatus * option ReleasedLock * MvccTxn) :=
  found ← load_lock reader key;
  let missing mismatch_lock :=
    '(status, need_rollback, overlapped_write) ← secondary_determined_status reader key;
    Ok (status, need_rollback, overlapped_write, None, mismatch_lock, txn) in
  '(status, need_rollback, rollback_overlapped_write, released_lock, mismatch_lock, txn) ←
    match found with
    | Some lock =>
        if l_ts lock =? start_ts then
          '(status, need_rollback, overlapped_write, released_lock, txn) ←
            check_status_from_lock txn reader lock key;
          Ok (status, need_rollback, overlapped_write, released_lock, None, txn)
        else missing (Some lock)
    | None => missing None
    end;
  txn ←
    (if need_rollback : bool then
       txn ← match mismatch_lock with
             | Some l => mark_rollback_on_mismatching_lock txn key l true
             | None => Ok txn
             end;
       rollback ← make_rollback start_ts true rollback_overlapped_write;
       match rollback with
       | Some write =>
           txn ← put_write txn key start_ts (WriteRef_to_bytes write);
           collapse_prev_rollback txn reader key
       | None => Ok txn
       end
     else Ok txn);
  Ok (status, released_lock, txn).

Fixpoint check_secondary_locks_loop (txn : MvccTxn) reader (start_ts : TimeStamp) (keys : list Key)
    (released : list ReleasedLock) (result : SecondaryLocksStatus)
    : txn_res (SecondaryLocksStatus * list ReleasedLock * MvccTxn) :=
  match keys with
  | [] => Ok (result, released, txn)
  | key :: keys =>
      '(status, released_lock, txn) ← map_err TeMvcc (check_secondary_lock txn reader start_ts key);
      let released := ReleasedLocks_push released released_lock in
      match status with
      | SlLocked lock =>
          raw ← map_err TeCodec (Key_to_raw key);
          result ← SecondaryLocksStatus_push result (Lock_into_lock_info lock raw);
          check_secondary_locks_loop txn reader start_ts keys released result
      | SlCommitted commit_ts => Ok (SlsCommitted commit_ts, released, txn)
      | SlRolledBack => Ok (SlsRolledBack, released, txn)
      end
  end.

Definition CheckSecondaryLocks_process_write (keys : list Key) (start_ts : TimeStamp)
    : txn_res WriteResult * ConcurrencyManager :=
  let '(updated, cm) := update_max_ts now tso cm start_ts in
  (_ ← map_err TeInvalidMaxTsUpdate updated;
   let reader := SnapshotReader_new_with_ctx start_ts snapshot ctx in
   '(result, released_locks, txn) ← check_secondary_locks_loop (MvccTxn_new start_ts cm) reader start_ts
                                      keys [] (SlsLocked []);
   let known_txn_status :=
     match result with SlsCommitted commit_ts => [(start_ts, commit_ts)] | _ => [] end in
   finish txn (PrSecondaryLocksStatus result) released_locks known_txn_status, cm).
End Commands.
