(* ===== verification/PrewriteCommand.v ===== *)
(** * The prewrite command

    Models [src/storage/txn/commands/prewrite.rs] ([Prewrite],
    [PrewritePessimistic] and the [Prewriter] behind both), the check for a
    transaction that is already committed of [actions/common.rs] and
    [has_data_in_range] of [mvcc/reader/scanner/mod.rs].

    A request prewrites its mutations in order on one buffer.  A key that cannot
    use async commit or one-phase commit makes the whole request fall back to two
    phases; a key that is locked lets the request return the locks and write
    nothing; and when the transaction turns out to be committed already, the
    buffer is cleared and the request succeeds.  The kind of transaction and its
    mutations are the type classes [PrewriteKind] and [MutationLock], as in the
    code.  The answers of the node are arguments: the transaction status cache,
    whether the maximum timestamp is synchronised, and whether the engine gives up
    a seek after too many deleted entries.  Row counts and metrics are left out. *)

From Stdlib Require Import ZArith Lia.
From stdpp Require Import base numbers list gmap.
From S2P Require Import Prelude Number Bytes Types Write Lock ConcurrencyManager Engine Reader.
From S2P Require Import AbsState MvccTxn Prewrite TxnStatus Commands.

Open Scope Z_scope.

Definition FORWARD_MIN_MUTATIONS_NUM : nat := 12.

Abbreviation OldValues := (gmap Key (OldValue * option MutationType)).

(** ** Requests *)

(** The request [Prewrite]; the context of the request is apart. *)
Record Prewrite : Type := {
  p_mutations : list Mutation;
  p_primary : bytes;
  p_start_ts : TimeStamp;
  p_lock_ttl : u64;
  p_skip_constraint_check : bool;
  p_txn_size : u64;
  p_min_commit_ts : TimeStamp;
  p_max_commit_ts : TimeStamp;
  p_secondary_keys : option (list bytes);
  p_try_one_pc : bool;
  p_assertion_level : AssertionLevel
}.

(** A constraint is the index of a mutation and its expected timestamp. *)
Record PrewritePessimistic : Type := {
  pp_mutations : list (Mutation * PrewriteRequestPessimisticAction);
  pp_primary : bytes;
  pp_start_ts : TimeStamp;
  pp_lock_ttl : u64;
  pp_for_update_ts : TimeStamp;
  pp_txn_size : u64;
  pp_min_commit_ts : TimeStamp;
  pp_max_commit_ts : TimeStamp;
  pp_secondary_keys : option (list bytes);
  pp_try_one_pc : bool;
  pp_assertion_level : AssertionLevel;
  pp_for_update_ts_constraints : list (nat * TimeStamp)
}.

Record PessimisticMutation : Type := {
  pmu_mutation : Mutation;
  pmu_pessimistic_action : PrewriteRequestPessimisticAction;
  pmu_expected_for_update_ts : option TimeStamp
}.

Definition PessimisticMutation_new (mutation : Mutation) (action : PrewriteRequestPessimisticAction)
    : PessimisticMutation :=
  {| pmu_mutation := mutation; pmu_pessimistic_action := action; pmu_expected_for_update_ts := None |}.

Class MutationLock (M : Type) : Type := {
  pessimistic_action : M -> PrewriteRequestPessimisticAction;
  pessimistic_expected_for_update_ts : M -> option TimeStamp;
  into_mutation : M -> Mutation
}.

#[export] Instance Mutation_lock : MutationLock Mutation :=
  {| pessimistic_action _ := SkipPessimisticCheck; pessimistic_expected_for_update_ts _ := None;
     into_mutation m := m |}.

#[export] Instance PessimisticMutation_lock : MutationLock PessimisticMutation :=
  {| pessimistic_action := pmu_pessimistic_action;
     pessimistic_expected_for_update_ts := pmu_expected_for_update_ts;
     into_mutation := pmu_mutation |}.

(** [can_skip_constraint_check] may reorder the mutations. *)
Class PrewriteKind (K M : Type) : Type := {
  txn_kind : K -> TransactionKind;
  can_skip_constraint_check {Snap : Type} `{EngineSnapshot Snap} (snapshot : Snap) (skips_exhausted : bool)
      (kind : K) (mutations : list M) : K * list M
}.

(** Whether the column family has an entry from [left] on below [right];
    [skips_exhausted]: the engine stopped after too many deleted entries. *)
Definition has_data_in_range {Snap : Type} `{EngineSnapshot Snap} (snapshot : Snap) (cf : CF)
    (left right : Key) (skips_exhausted : bool) : bool :=
  if skips_exhausted then true
  else match seek_cf snapshot cf left with
       | Some (k, _) => negb (bytes_leb right k)
       | None => false
       end.

(** [mutations.sort_by(|a, b| a.key().cmp(b.key()))], which is stable. *)
Fixpoint insert_mutation (m : Mutation) (ms : list Mutation) : list Mutation :=
  match ms with
  | [] => [m]
  | m' :: ms' =>
      if bytes_leb (Mutation_key m) (Mutation_key m') then m :: ms else m' :: insert_mutation m ms'
  end.

Definition sort_mutations (ms : list Mutation) : list Mutation := foldr insert_mutation [] ms.

(** [struct Optimistic], by its field. *)
Record OptimisticKind : Type := { skip_constraint_check : bool }.

(** A list with more than twelve elements has a first and a last one. *)
Definition Optimistic_can_skip_constraint_check {Snap : Type} `{EngineSnapshot Snap} (snapshot : Snap)
    (skips_exhausted : bool) (kind : OptimisticKind) (mutations : list Mutation)
    : OptimisticKind * list Mutation :=
  if (FORWARD_MIN_MUTATIONS_NUM <? length mutations)%nat then
    let mutations := sort_mutations mutations in
    match head mutations, last mutations with
    | Some first, Some final =>
        if negb (has_data_in_range snapshot CF_WRITE (Mutation_key first)
                   (Key_append_ts (Mutation_key final) TimeStamp_zero) skips_exhausted)
        then ({| skip_constraint_check := true |}, mutations) else (kind, mutations)
    | _, _ => (kind, mutations)
    end
  else (kind, mutations).

#[export] Instance Optimistic_kind : PrewriteKind OptimisticKind Mutation :=
  {| txn_kind kind := Optimistic (skip_constraint_check kind);
     can_skip_constraint_check _ _ := Optimistic_can_skip_constraint_check |}.

(** [struct Pessimistic], by its field. *)
Record PessimisticKind : Type := { kind_for_update_ts : TimeStamp }.

#[export] Instance Pessimistic_kind : PrewriteKind PessimisticKind PessimisticMutation :=
  {| txn_kind kind := Pessimistic (kind_for_update_ts kind);
     can_skip_constraint_check _ _ _ _ kind mutations := (kind, mutations) |}.

(** ** The prewriter *)

Record Prewriter (K M : Type) : Type := {
  pw_kind : K;
  pw_mutations : list M;
  pw_primary : bytes;
  pw_start_ts : TimeStamp;
  pw_lock_ttl : u64;
  pw_txn_size : u64;
  pw_min_commit_ts : TimeStamp;
  pw_max_commit_ts : TimeStamp;
  pw_secondary_keys : option (list bytes);
  pw_old_values : OldValues;
  pw_try_one_pc : bool;
  pw_assertion_level : AssertionLevel;
  pw_ctx : Context
}.
Arguments pw_kind {K M}. Arguments pw_mutations {K M}. Arguments pw_primary {K M}.
Arguments pw_start_ts {K M}. Arguments pw_lock_ttl {K M}. Arguments pw_txn_size {K M}.
Arguments pw_min_commit_ts {K M}. Arguments pw_max_commit_ts {K M}. Arguments pw_secondary_keys {K M}.
Arguments pw_old_values {K M}. Arguments pw_try_one_pc {K M}. Arguments pw_assertion_level {K M}.
Arguments pw_ctx {K M}.

Definition Prewrite_into_prewriter (p : Prewrite) (ctx : Context) : Prewriter OptimisticKind Mutation :=
  {| pw_kind := {| skip_constraint_check := p_skip_constraint_check p |}; pw_mutations := p_mutations p;
     pw_primary := p_primary p; pw_start_ts := p_start_ts p; pw_lock_ttl := p_lock_ttl p;
     pw_txn_size := p_txn_size p; pw_min_commit_ts := p_min_commit_ts p;
     pw_max_commit_ts := p_max_commit_ts p; pw_secondary_keys := p_secondary_keys p; pw_old_values := ∅;
     pw_try_one_pc := p_try_one_pc p; pw_assertion_level := p_assertion_level p; pw_ctx := ctx |}.

Definition set_expected_for_update_ts (m : PessimisticMutation) (ts : TimeStamp) : PessimisticMutation :=
  {| pmu_mutation := pmu_mutation m; pmu_pessimistic_action := pmu_pessimistic_action m;
     pmu_expected_for_update_ts := Some ts |}.

(** The loop over the constraints. *)
Fixpoint set_constraints (mutations : list PessimisticMutation) (constraints : list (nat * TimeStamp))
    : txn_res (list PessimisticMutation) :=
  match constraints with
  | [] => Ok mutations
  | (index, ts) :: constraints =>
      match mutations !! index with
      | None => Err TeOther
      | Some m => set_constraints (<[index := set_expected_for_update_ts m ts]> mutations) constraints
      end
  end.

Definition PrewritePessimistic_into_prewriter (p : PrewritePessimistic) (ctx : Context)
    : txn_res (Prewriter PessimisticKind PessimisticMutation) :=
  mutations ← set_constraints (map (fun '(m, a) => PessimisticMutation_new m a) (pp_mutations p))
                (pp_for_update_ts_constraints p);
  Ok {| pw_kind := {| kind_for_update_ts := pp_for_update_ts p |}; pw_mutations := mutations;
        pw_primary := pp_primary p; pw_start_ts := pp_start_ts p; pw_lock_ttl := pp_lock_ttl p;
        pw_txn_size := pp_txn_size p; pw_min_commit_ts := pp_min_commit_ts p;
        pw_max_commit_ts := pp_max_commit_ts p; pw_secondary_keys := pp_secondary_keys p;
        pw_old_values := ∅; pw_try_one_pc := pp_try_one_pc p;
        pw_assertion_level := pp_assertion_level p; pw_ctx := ctx |}.

(** ** Locks of one-phase commit *)

Definition txn_take_locks_for_1pc (t : MvccTxn) : MvccTxn :=
  {| t_start_ts := t_start_ts t; t_write_size := t_write_size t; t_modifies := t_modifies t;
     t_locks_for_1pc := []; t_new_locks := t_new_locks t; t_cm := t_cm t; t_guards := t_guards t |}.

(** [txn.guards = Vec::new()], which releases the memory locks. *)
Definition txn_drop_guards (t : MvccTxn) : MvccTxn :=
  {| t_start_ts := t_start_ts t; t_write_size := t_write_size t; t_modifies := t_modifies t;
     t_locks_for_1pc := t_locks_for_1pc t; t_new_locks := t_new_locks t;
     t_cm := foldr (fun key cm => guard_drop cm key) (t_cm t) (t_guards t); t_guards := [] |}.

Fixpoint fallback_locks (locks : list (Key * Lock * bool)) (txn : MvccTxn) : mvcc_res MvccTxn :=
  match locks with
  | [] => Ok txn
  | (key, lock, remove_pessimistic_lock) :: locks =>
      txn ← put_lock txn key (Lock_set_use_one_pc lock false) (negb remove_pessimistic_lock);
      fallback_locks locks txn
  end.

Definition fallback_1pc_locks (txn : MvccTxn) : mvcc_res MvccTxn :=
  fallback_locks (t_locks_for_1pc txn) (txn_take_locks_for_1pc txn).

Fixpoint commit_1pc_locks (locks : list (Key * Lock * bool)) (txn : MvccTxn) (commit_ts : TimeStamp)
    (released_locks : list ReleasedLock) : mvcc_res (list ReleasedLock * MvccTxn) :=
  match locks with
  | [] => Ok (released_locks, txn)
  | (key, lock, delete_pessimistic_lock) :: locks =>
      write_type ← unwrap (WriteType_from_lock_type (l_lock_type lock));
      let write := Write_new write_type (t_start_ts txn) (l_short_value lock) in
      let write := Write_set_txn_source (Write_set_last_change write (l_last_change lock))
                     (l_txn_source lock) in
      txn ← put_write txn key commit_ts (WriteRef_to_bytes write);
      '(released_locks, txn) ←
        (if delete_pessimistic_lock : bool then
           '(released, txn) ← unlock_key txn key true commit_ts;
           Ok (ReleasedLocks_push released_locks released, txn)
         else Ok (released_locks, txn));
      commit_1pc_locks locks txn commit_ts released_locks
  end.

Definition handle_1pc_locks (txn : MvccTxn) (commit_ts : TimeStamp)
    : mvcc_res (list ReleasedLock * MvccTxn) :=
  commit_1pc_locks (t_locks_for_1pc txn) (txn_take_locks_for_1pc txn) commit_ts [].

Definition one_pc_commit (try_one_pc : bool) (txn : MvccTxn) (final_min_commit_ts : TimeStamp)
    : mvcc_res (TimeStamp * list ReleasedLock * MvccTxn) :=
  if try_one_pc then
    _ ← assert_ (negb (TimeStamp_is_zero final_min_commit_ts));
    '(released_locks, txn) ← handle_1pc_locks txn final_min_commit_ts;
    Ok (final_min_commit_ts, released_locks, txn)
  else
    _ ← assert_ (match t_locks_for_1pc txn with [] => true | _ => false end);
    Ok (TimeStamp_zero, [], txn).

(** ** Results and environment *)

Inductive ResponsePolicy : Type := OnApplied | OnCommitted | OnProposed.

(** What the result of a prewrite has in addition to [WriteResult]: the extra data
    of the write, the guards of the memory locks, which live until the write is
    finished, and the response policy. *)
Record PrewriteExtra : Type := {
  we_old_values : OldValues;
  we_one_pc : bool;
  we_lock_guards : list Key;
  we_response_policy : ResponsePolicy
}.

Definition we_set_response_policy (e : PrewriteExtra) (policy : ResponsePolicy) : PrewriteExtra :=
  {| we_old_values := we_old_values e; we_one_pc := we_one_pc e; we_lock_guards := we_lock_guards e;
     we_response_policy := policy |}.

(** The answers of the node and the write context: [we_committed] is
    [txn_status_cache.get_committed_no_promote(start_ts)], [we_is_max_ts_synced]
    is [snapshot.ext().is_max_ts_synced()]. *)
Record PrewriteEnv : Type := {
  we_committed : option TimeStamp;
  we_is_max_ts_synced : bool;
  we_skips_exhausted : bool;
  we_read_old_value : bool;
  we_async_apply_prewrite : bool
}.

(** ** The loop over the mutations *)

(** What the loop changes: the buffer, the fields of the prewriter, the kind of
    commit in the properties and the local variables. *)
Record PrewriteLoop : Type := {
  lp_txn : MvccTxn;
  lp_secondary_keys : option (list bytes);
  lp_try_one_pc : bool;
  lp_old_values : OldValues;
  lp_commit_kind : CommitKind;
  lp_async_commit_pk : option Key;
  lp_final_min_commit_ts : TimeStamp;
  lp_locks : list txn_error;
  lp_assertion_failure : option mvcc_error
}.

Definition lp_set_txn (lp : PrewriteLoop) (txn : MvccTxn) : PrewriteLoop :=
  {| lp_txn := txn; lp_secondary_keys := lp_secondary_keys lp; lp_try_one_pc := lp_try_one_pc lp;
     lp_old_values := lp_old_values lp; lp_commit_kind := lp_commit_kind lp;
     lp_async_commit_pk := lp_async_commit_pk lp; lp_final_min_commit_ts := lp_final_min_commit_ts lp;
     lp_locks := lp_locks lp; lp_assertion_failure := lp_assertion_failure lp |}.

(** A key that is prewritten: [final_min_commit_ts] and the old value. *)
Definition lp_prewritten (lp : PrewriteLoop) (ts : TimeStamp) (old_values : OldValues) : PrewriteLoop :=
  {| lp_txn := lp_txn lp; lp_secondary_keys := lp_secondary_keys lp; lp_try_one_pc := lp_try_one_pc lp;
     lp_old_values := old_values; lp_commit_kind := lp_commit_kind lp;
     lp_async_commit_pk := lp_async_commit_pk lp; lp_final_min_commit_ts := ts;
     lp_locks := lp_locks lp; lp_assertion_failure := lp_assertion_failure lp |}.

Definition lp_push_lock (lp : PrewriteLoop) (e : txn_error) : PrewriteLoop :=
  {| lp_txn := lp_txn lp; lp_secondary_keys := lp_secondary_keys lp; lp_try_one_pc := lp_try_one_pc lp;
     lp_old_values := lp_old_values lp; lp_commit_kind := lp_commit_kind lp;
     lp_async_commit_pk := lp_async_commit_pk lp; lp_final_min_commit_ts := lp_final_min_commit_ts lp;
     lp_locks := lp_locks lp ++ [e]; lp_assertion_failure := lp_assertion_failure lp |}.

Definition lp_fail_assertion (lp : PrewriteLoop) (e : mvcc_error) : PrewriteLoop :=
  {| lp_txn := lp_txn lp; lp_secondary_keys := lp_secondary_keys lp; lp_try_one_pc := lp_try_one_pc lp;
     lp_old_values := lp_old_values lp; lp_commit_kind := lp_commit_kind lp;
     lp_async_commit_pk := lp_async_commit_pk lp; lp_final_min_commit_ts := lp_final_min_commit_ts lp;
     lp_locks := lp_locks lp;
     lp_assertion_failure :=
       match lp_assertion_failure lp with None => Some e | Some e0 => Some e0 end |}.

(** The fallback to two phases. *)
Definition lp_fallback (lp : PrewriteLoop) : mvcc_res PrewriteLoop :=
  txn ← fallback_1pc_locks (lp_txn lp);
  Ok {| lp_txn := txn_drop_guards txn; lp_secondary_keys := None; lp_try_one_pc := false;
        lp_old_values := lp_old_values lp; lp_commit_kind := TwoPc; lp_async_commit_pk := None;
        lp_final_min_commit_ts := TimeStamp_zero; lp_locks := lp_locks lp;
        lp_assertion_failure := lp_assertion_failure lp |}.

Definition tp_set_commit_kind (p : TransactionProperties) (kind : CommitKind) : TransactionProperties :=
  {| tp_start_ts := tp_start_ts p; tp_kind := tp_kind p; tp_commit_kind := kind;
     tp_primary := tp_primary p; tp_txn_size := tp_txn_size p; tp_lock_ttl := tp_lock_ttl p;
     tp_min_commit_ts := tp_min_commit_ts p; tp_need_old_value := tp_need_old_value p;
     tp_is_retry_request := tp_is_retry_request p; tp_assertion_level := tp_assertion_level p;
     tp_txn_source := tp_txn_source p |}.

Section PrewriteCommand.
Context {Snap : Type} `{EngineSnapshot Snap}.
Context (now : Z) (tso : option TimeStamp) (can_enable_last_change_ts : bool).
Context (stat_write_next : SnapshotReader Snap -> Key -> TimeStamp -> u64).
Implicit Types reader : SnapshotReader Snap.

(** The error of the prewrite is [e]. *)
Definition check_committed_record_on_err (e : mvcc_error) (txn : MvccTxn) reader (key : Key)
    : txn_res (list txn_error * TimeStamp) * MvccTxn :=
  match get_txn_commit_record reader key with
  | Ok (TcrSingleRecord commit_ts write) =>
      if decide (w_write_type write = WtRollback) then (Err (TeMvcc e), txn)
      else (Ok ([], commit_ts), clear txn)
  | Ok _ => (Err (TeMvcc e), txn)
  | Err e' => (Err (TeMvcc e'), txn)
  | Panic => (Panic, txn)
  end.

Section Loop.
Context {M : Type} `{MutationLock M}.

Fixpoint prewrite_loop reader (props : TransactionProperties) (mutations : list M) (lp : PrewriteLoop)
    : txn_res (list txn_error * TimeStamp) * PrewriteLoop :=
  match mutations with
  | [] =>
      (match lp_assertion_failure lp with
       | Some e => Err (TeMvcc e)
       | None => Ok (lp_locks lp, lp_final_min_commit_ts lp)
       end, lp)
  | m :: mutations =>
      let mutation := into_mutation m in
      let key := Mutation_key mutation in
      let secondaries :=
        if decide (Some key = lp_async_commit_pk lp) then lp_secondary_keys lp
        else option_map (fun _ => []) (lp_secondary_keys lp) in
      let need_min_commit_ts :=
        (match secondaries with Some _ => true | None => false end || lp_try_one_pc lp)%bool in
      let '(prewrite_result, txn) :=
        prewrite now tso can_enable_last_change_ts stat_write_next (lp_txn lp) reader
          (tp_set_commit_kind props (lp_commit_kind lp)) mutation secondaries (pessimistic_action m)
          (pessimistic_expected_for_update_ts m) in
      let lp := lp_set_txn lp txn in
      let fallback :=
        match lp_fallback lp with
        | Ok lp => prewrite_loop reader props mutations lp
        | Err e => (Err (TeMvcc e), lp)
        | Panic => (Panic, lp)
        end in
      match prewrite_result with
      | Ok (ts, old_value) =>
          if negb (need_min_commit_ts && TimeStamp_is_zero ts) then
            let final :=
              if (need_min_commit_ts && (lp_final_min_commit_ts lp <? ts))%bool then ts
              else lp_final_min_commit_ts lp in
            let old_values :=
              insert_old_value_if_resolved (lp_old_values lp) key (t_start_ts txn) old_value
                (Some (Mutation_mutation_type mutation)) in
            prewrite_loop reader props mutations (lp_prewritten lp final old_values)
          else fallback
      | Err e =>
          let '(checked, txn) := check_committed_record_on_err e txn reader key in
          let checked_lp := lp_set_txn lp txn in
          match e with
          | MvWriteConflict start_ts _ conflict_commit_ts _ _ _ =>
              if start_ts <? conflict_commit_ts then (checked, checked_lp) else (Err (TeMvcc e), lp)
          | MvPessimisticLockNotFound _ _ _ => (checked, checked_lp)
          | MvCommitTsTooLarge _ _ _ =>
              match checked with
              | Err _ => fallback
              | _ => (checked, checked_lp)
              end
          | MvKeyIsLocked _ =>
              match checked with
              | Err e => prewrite_loop reader props mutations (lp_push_lock lp e)
              | _ => (checked, checked_lp)
              end
          | MvAssertionFailed _ _ _ _ _ => prewrite_loop reader props mutations (lp_fail_assertion lp e)
          | _ => (Err (TeMvcc e), lp)
          end
      | Panic => (Panic, lp)
      end
  end.
End Loop.

Section Prewriter.
Context {K M : Type} `{PrewriteKind K M} `{MutationLock M}.
Implicit Types self : Prewriter K M.

Definition Prewriter_check_max_ts_synced self (is_max_ts_synced : bool) : txn_res unit :=
  if ((match pw_secondary_keys self with Some _ => true | None => false end || pw_try_one_pc self)
      && negb is_max_ts_synced)%bool
  then Err (TeMaxTimestampNotSynced (ctx_region_id (pw_ctx self)) (pw_start_ts self))
  else Ok tt.

Definition Prewriter_commit_kind self : CommitKind :=
  match pw_secondary_keys self, pw_try_one_pc self with
  | _, true => OnePc (pw_max_commit_ts self)
  | Some _, false => Async (pw_max_commit_ts self)
  | None, false => TwoPc
  end.

Definition Prewriter_props self (read_old_value : bool) : TransactionProperties :=
  {| tp_start_ts := pw_start_ts self; tp_kind := txn_kind (pw_kind self);
     tp_commit_kind := Prewriter_commit_kind self; tp_primary := pw_primary self;
     tp_txn_size := pw_txn_size self; tp_lock_ttl := pw_lock_ttl self;
     tp_min_commit_ts := pw_min_commit_ts self; tp_need_old_value := read_old_value;
     tp_is_retry_request := ctx_is_retry_request (pw_ctx self);
     tp_assertion_level := pw_assertion_level self; tp_txn_source := ctx_txn_source (pw_ctx self) |}.

Definition Prewriter_async_commit_pk self : option Key :=
  match pw_secondary_keys self with
  | Some (_ :: _) => Some (Key_from_raw (pw_primary self))
  | _ => None
  end.

(** The fields of the prewriter that change are in the loop state. *)
Definition Prewriter_prewrite self (txn : MvccTxn) reader (read_old_value : bool)
    : txn_res (list txn_error * TimeStamp) * PrewriteLoop :=
  prewrite_loop reader (Prewriter_props self read_old_value) (pw_mutations self)
    {| lp_txn := txn; lp_secondary_keys := pw_secondary_keys self; lp_try_one_pc := pw_try_one_pc self;
       lp_old_values := pw_old_values self; lp_commit_kind := Prewriter_commit_kind self;
       lp_async_commit_pk := Prewriter_async_commit_pk self; lp_final_min_commit_ts := TimeStamp_zero;
       lp_locks := []; lp_assertion_failure := None |}.

(** The result when every key is prewritten, from the state of the loop. *)
Definition Prewriter_write_result_ok self (lp : PrewriteLoop) (final_min_commit_ts async_commit_ts : TimeStamp)
    : txn_res (WriteResult * PrewriteExtra * ConcurrencyManager) :=
  '(one_pc_commit_ts, released_locks, txn) ←
    map_err TeMvcc (one_pc_commit (lp_try_one_pc lp) (lp_txn lp) final_min_commit_ts);
  let pr := {| pr_locks := []; pr_min_commit_ts := async_commit_ts;
               pr_one_pc_commit_ts := one_pc_commit_ts |} in
  let '(lock_guards, txn) := take_guards txn in
  let '(new_acquired_locks, txn) := take_new_locks txn in
  modifies ← into_modifies txn;
  Ok ({| wr_modifies := modifies; wr_pr := PrPrewriteResult pr; wr_lock_info := [];
         wr_released_locks := released_locks; wr_new_acquired_locks := new_acquired_locks;
         wr_known_txn_status :=
           if negb (TimeStamp_is_zero one_pc_commit_ts) then [(pw_start_ts self, one_pc_commit_ts)]
           else [] |},
      {| we_old_values := lp_old_values lp; we_one_pc := lp_try_one_pc lp; we_lock_guards := lock_guards;
         we_response_policy := OnApplied |}, t_cm txn).

(** The result when some keys are locked: nothing is written. *)
Definition Prewriter_write_result_locked (lp : PrewriteLoop) (locks : list txn_error)
    (async_commit_ts : TimeStamp) : WriteResult * PrewriteExtra * ConcurrencyManager :=
  let pr := {| pr_locks := locks; pr_min_commit_ts := async_commit_ts;
               pr_one_pc_commit_ts := TimeStamp_zero |} in
  ({| wr_modifies := []; wr_pr := PrPrewriteResult pr; wr_lock_info := []; wr_released_locks := [];
      wr_new_acquired_locks := []; wr_known_txn_status := [] |},
   {| we_old_values := ∅; we_one_pc := false; we_lock_guards := []; we_response_policy := OnApplied |},
   t_cm (txn_drop_guards (lp_txn lp))).

Definition Prewriter_write_result self (lp : PrewriteLoop) (locks : list txn_error)
    (final_min_commit_ts : TimeStamp) (async_apply_prewrite : bool)
    : txn_res (WriteResult * PrewriteExtra * ConcurrencyManager) :=
  let async_commit_ts :=
    match lp_secondary_keys lp with Some _ => final_min_commit_ts | None => TimeStamp_zero end in
  '(result, extra, cm) ←
    match locks with
    | [] => Prewriter_write_result_ok self lp final_min_commit_ts async_commit_ts
    | _ => Ok (Prewriter_write_result_locked lp locks async_commit_ts)
    end;
  let extra :=
    if ((negb (TimeStamp_is_zero async_commit_ts) || lp_try_one_pc lp) && async_apply_prewrite)%bool
    then we_set_response_policy extra OnCommitted else extra in
  Ok (result, extra, cm).

Definition Prewriter_set_retry self : Prewriter K M :=
  let ctx := pw_ctx self in
  {| pw_kind := pw_kind self; pw_mutations := pw_mutations self; pw_primary := pw_primary self;
     pw_start_ts := pw_start_ts self; pw_lock_ttl := pw_lock_ttl self; pw_txn_size := pw_txn_size self;
     pw_min_commit_ts := pw_min_commit_ts self; pw_max_commit_ts := pw_max_commit_ts self;
     pw_secondary_keys := pw_secondary_keys self; pw_old_values := pw_old_values self;
     pw_try_one_pc := pw_try_one_pc self; pw_assertion_level := pw_assertion_level self;
     pw_ctx := {| ctx_term := ctx_term ctx; ctx_region_id := ctx_region_id ctx;
                  ctx_region_version := ctx_region_version ctx; ctx_is_retry_request := true;
                  ctx_txn_source := ctx_txn_source ctx |} |}.

Definition Prewriter_set_kind_mutations self (kind : K) (mutations : list M) : Prewriter K M :=
  {| pw_kind := kind; pw_mutations := mutations; pw_primary := pw_primary self;
     pw_start_ts := pw_start_ts self; pw_lock_ttl := pw_lock_ttl self; pw_txn_size := pw_txn_size self;
     pw_min_commit_ts := pw_min_commit_ts self; pw_max_commit_ts := pw_max_commit_ts self;
     pw_secondary_keys := pw_secondary_keys self; pw_old_values := pw_old_values self;
     pw_try_one_pc := pw_try_one_pc self; pw_assertion_level := pw_assertion_level self;
     pw_ctx := pw_ctx self |}.

(** The prewriter after the special cases of retried requests and of a range
    without data. *)
Definition Prewriter_prepare self (snapshot : Snap) (env : PrewriteEnv) : Prewriter K M :=
  let self :=
    match txn_kind (pw_kind self), we_committed env with
    | Pessimistic _, Some _ => Prewriter_set_retry self
    | _, _ => self
    end in
  let '(kind, mutations) :=
    can_skip_constraint_check snapshot (we_skips_exhausted env) (pw_kind self) (pw_mutations self) in
  Prewriter_set_kind_mutations self kind mutations.

(** A buffer that is dropped releases its memory locks. *)
Definition Prewriter_process_write self (snapshot : Snap) (cm : ConcurrencyManager) (env : PrewriteEnv)
    : txn_res (WriteResult * PrewriteExtra) * ConcurrencyManager :=
  let self := Prewriter_prepare self snapshot env in
  match Prewriter_check_max_ts_synced self (we_is_max_ts_synced env) with
  | Ok _ =>
      let reader := SnapshotReader_new_with_ctx (pw_start_ts self) snapshot (pw_ctx self) in
      let '(res, lp) :=
        Prewriter_prewrite self (MvccTxn_new (pw_start_ts self) cm) reader (we_read_old_value env) in
      let dropped := t_cm (txn_drop_guards (lp_txn lp)) in
      match res with
      | Ok (locks, final_min_commit_ts) =>
          match Prewriter_write_result self lp locks final_min_commit_ts (we_async_apply_prewrite env) with
          | Ok (result, extra, cm) => (Ok (result, extra), cm)
          | Err e => (Err e, dropped)
          | Panic => (Panic, dropped)
          end
      | Err e => (Err e, dropped)
      | Panic => (Panic, dropped)
      end
  | Err e => (Err e, cm)
  | Panic => (Panic, cm)
  end.
End Prewriter.

Definition Prewrite_process_write (p : Prewrite) (ctx : Context) (snapshot : Snap)
    (cm : ConcurrencyManager) (env : PrewriteEnv)
    : txn_res (WriteResult * PrewriteExtra) * ConcurrencyManager :=
  Prewriter_process_write (Prewrite_into_prewriter p ctx) snapshot cm env.

Definition PrewritePessimistic_process_write (p : PrewritePessimistic) (ctx : Context) (snapshot : Snap)
    (cm : ConcurrencyManager) (env : PrewriteEnv)
    : txn_res (WriteResult * PrewriteExtra) * ConcurrencyManager :=
  match PrewritePessimistic_into_prewriter p ctx with
  | Ok prewriter => Prewriter_process_write prewriter snapshot cm env
  | Err e => (Err e, cm)
  | Panic => (Panic, cm)
  end.
End PrewriteCommand.
