(* ===== verification/AcquirePessimisticLock.v ===== *)
(** * Acquiring pessimistic locks

    Models [src/storage/txn/actions/acquire_pessimistic_lock.rs] and the command
    of [src/storage/txn/commands/acquire_pessimistic_lock.rs].  The contexts are
    those of [Prewrite]: the clock and the oracle's answer for [update_max_ts],
    the gate of the last-change feature and the cursor counter.  The action is a
    pair of a result and the buffer, because [update_max_ts] has happened even
    when the action fails.  The old values that the command collects for change
    capture are left out.

    The lemmas say what a successful action adds to the buffer, in terms of the
    state of the key ([acquire_inv]), and the same for the command
    ([AcquirePessimisticLock_inv]). *)

From Stdlib Require Import ZArith Lia.
From stdpp Require Import base numbers list gmap.
From S2P Require Import Prelude Number Bytes Types Write Lock ConcurrencyManager Engine Reader.
From S2P Require Import AbsState ReaderSpec MvccTxn Prewrite TxnStatus Commands.

Open Scope Z_scope.

Definition PessimisticLockKeyResult_new_success (need_value need_check_existence : bool)
    (locked_with_conflict_ts : option TimeStamp) (value : option Value) : PessimisticLockKeyResult :=
  match locked_with_conflict_ts with
  | Some conflict_ts => PlLockedWithConflict value conflict_ts
  | None =>
      if need_value then PlValue value
      else if need_check_existence then PlExistence (bool_decide (is_Some value))
      else PlEmpty
  end.

Record ConflictInfo : Type := { ci_conflict_start_ts : TimeStamp; ci_conflict_commit_ts : TimeStamp }.

Definition ConflictInfo_into_write_conflict_error {A} (c : ConflictInfo) (start_ts : TimeStamp)
    (primary key : bytes) : mvcc_res A :=
  Err (MvWriteConflict start_ts (ci_conflict_start_ts c) (ci_conflict_commit_ts c) key primary
         WcPessimisticRetry).

Definition is_already_exist (e : mvcc_error) : bool :=
  match e with MvAlreadyExist _ _ => true | _ => false end.

Section Acquire.
Context {Snap : Type} `{EngineSnapshot Snap}.
Context (now : Z) (tso : option TimeStamp) (can_enable_last_change_ts : bool).
Context (stat_write_next : SnapshotReader Snap -> Key -> TimeStamp -> u64).
Implicit Types reader : SnapshotReader Snap.

Definition load_old_value (need_old_value value_loaded : bool) (val : option Value) reader (key : Key)
    (for_update_ts : TimeStamp) (prev_write_loaded : bool) (prev_write : option Write)
    : mvcc_res OldValue :=
  if negb need_old_value then Ok OvUnspecified
  else if value_loaded then Ok (match val with Some val => OvValue val | None => OvNone end)
  else get_old_value reader key for_update_ts prev_write_loaded prev_write.

(** [check_data_constraint(..).or_else(..)]: an existing value is a write
    conflict when there is one to report. *)
Definition check_constraint_or_conflict reader (should_not_exist : bool) (write : Write)
    (commit_ts : TimeStamp) (key : Key) (conflict : option ConflictInfo) (primary : bytes)
    : mvcc_res unit :=
  match check_data_constraint reader should_not_exist write commit_ts key with
  | Err e =>
      match conflict with
      | Some conflict_info =>
          if is_already_exist e then
            raw ← map_err MvCodec (Key_to_raw key);
            ConflictInfo_into_write_conflict_error conflict_info (r_start_ts reader) primary raw
          else Err e
      | None => Err e
      end
  | r => r
  end.

(** The key is locked by the transaction itself. *)
Definition acquire_own_lock (txn : MvccTxn) reader (key : Key) (lock : Lock) (primary : bytes)
    (should_not_exist : bool) (lock_ttl : u64) (for_update_ts : TimeStamp)
    (need_value need_check_existence : bool) (min_commit_ts : TimeStamp)
    (need_old_value allow_lock_with_conflict need_load_value : bool)
    : mvcc_res (PessimisticLockKeyResult * OldValue * MvccTxn) :=
  let requested_for_update_ts := for_update_ts in
  let '(locked_with_conflict_ts, for_update_ts, need_load_value) :=
    if (allow_lock_with_conflict && (for_update_ts <? l_for_update_ts lock))%bool
    then (Some (l_for_update_ts lock), l_for_update_ts lock, true)
    else (None, for_update_ts, need_load_value) in
  val ←
    (if (need_load_value || need_check_existence || should_not_exist)%bool then
       found ← SnapshotReader_get_write_with_commit_ts reader key for_update_ts;
       match found with
       | Some (write, commit_ts) =>
           let conflict :=
             if requested_for_update_ts <? commit_ts
             then Some {| ci_conflict_start_ts := w_start_ts write; ci_conflict_commit_ts := commit_ts |}
             else None in
           _ ← check_constraint_or_conflict reader should_not_exist write commit_ts key conflict primary;
           if need_load_value then v ← load_data reader key write; Ok (Some v)
           else if need_check_existence then Ok (Some [])
           else Ok None
       | None => Ok None
       end
     else Ok None);
  old_value ← load_old_value need_old_value need_load_value val reader key for_update_ts false None;
  txn ←
    (if l_for_update_ts lock <? for_update_ts then
       put_pessimistic_lock txn key
         {| pl_primary := primary; pl_start_ts := r_start_ts reader; pl_ttl := lock_ttl;
            pl_for_update_ts := for_update_ts; pl_min_commit_ts := min_commit_ts;
            pl_last_change := l_last_change lock;
            pl_is_locked_with_conflict := Lock_is_pessimistic_lock_with_conflict lock |} false
     else Ok txn);
  Ok (PessimisticLockKeyResult_new_success need_value need_check_existence locked_with_conflict_ts val,
      old_value, txn).

Definition rolled_back_error {A} reader (key : Key) : mvcc_res A :=
  raw ← map_err MvCodec (Key_into_raw key);
  Err (MvPessimisticLockRolledBack (r_start_ts reader) raw).

(** The checks of the newest record: the conflict it is, whether the transaction
    has been rolled back, the data constraint. *)
Definition acquire_check_write reader (key : Key) (primary : bytes) (should_not_exist : bool)
    (for_update_ts : TimeStamp) (allow_lock_with_conflict need_load_value : bool)
    (commit_ts : TimeStamp) (write : Write) : mvcc_res (option ConflictInfo * TimeStamp * bool) :=
  let start_ts := r_start_ts reader in
  '(conflict_info, for_update_ts, need_load_value) ←
    (if for_update_ts <? commit_ts then
       if allow_lock_with_conflict then
         Ok (Some {| ci_conflict_start_ts := w_start_ts write; ci_conflict_commit_ts := commit_ts |},
             commit_ts, true)
       else
         raw ← map_err MvCodec (Key_into_raw key);
         Err (MvWriteConflict start_ts (w_start_ts write) commit_ts raw primary WcPessimisticRetry)
     else Ok (None, for_update_ts, need_load_value));
  _ ←
    (if ((commit_ts =? start_ts)
         && (bool_decide (w_write_type write = WtRollback) || w_has_overlapped_rollback write))%bool then
       _ ← assert_ (w_has_overlapped_rollback write || (w_start_ts write =? commit_ts));
       rolled_back_error reader key
     else Ok tt);
  _ ←
    (if start_ts <? commit_ts then
       older ← seek_write reader key start_ts;
       match older with
       | Some (older_commit_ts, older_write) =>
           if ((older_commit_ts =? start_ts)
               && (bool_decide (w_write_type older_write = WtRollback)
                   || w_has_overlapped_rollback older_write))%bool
           then rolled_back_error reader key
           else Ok tt
       | None => Ok tt
       end
     else Ok tt);
  _ ← check_constraint_or_conflict reader should_not_exist write commit_ts key conflict_info primary;
  Ok (conflict_info, for_update_ts, need_load_value).

Definition acquire_value reader (key : Key) (need_load_value : bool) (commit_ts : TimeStamp)
    (write : Write) : mvcc_res (option Value) :=
  match w_write_type write with
  | WtPut =>
      if WriteRef_check_gc_fence_as_latest_version write (r_start_ts reader) then
        if need_load_value then v ← load_data reader key write; Ok (Some v) else Ok (Some [])
      else Ok None
  | WtDelete => Ok None
  | WtLock | WtRollback =>
      prev ← TimeStamp_prev commit_ts;
      if need_load_value then SnapshotReader_get reader key prev
      else w ← SnapshotReader_get_write reader key prev; Ok (option_map (fun _ => []) w)
  end.

(** The key has no lock. *)
Definition acquire_new_lock (txn : MvccTxn) reader (key : Key) (primary : bytes)
    (should_not_exist : bool) (lock_ttl : u64) (for_update_ts : TimeStamp)
    (need_value need_check_existence : bool) (min_commit_ts : TimeStamp)
    (need_old_value lock_only_if_exists allow_lock_with_conflict need_load_value : bool)
    : mvcc_res (PessimisticLockKeyResult * OldValue * MvccTxn) :=
  found ← seek_write reader key TimeStamp_max;
  '(conflict_info, for_update_ts, need_load_value, prev_write, last_change, val) ←
    match found with
    | Some (commit_ts, write) =>
        '(conflict_info, for_update_ts, need_load_value) ←
          acquire_check_write reader key primary should_not_exist for_update_ts allow_lock_with_conflict
            need_load_value commit_ts write;
        last_change ← next_last_change_info stat_write_next reader key write (t_start_ts txn) commit_ts;
        val ←
          (if (need_value || need_check_existence || bool_decide (is_Some conflict_info))%bool
           then acquire_value reader key need_load_value commit_ts write else Ok None);
        Ok (conflict_info, for_update_ts, need_load_value,
            (if need_old_value then Some write else None), last_change, val)
    | None => Ok (None, for_update_ts, need_load_value, None, LcNotExist, None)
    end;
  let last_change := if negb can_enable_last_change_ts then LcUnknown else last_change in
  old_value ← load_old_value need_old_value need_load_value val reader key for_update_ts true prev_write;
  let lock :=
    {| pl_primary := primary; pl_start_ts := r_start_ts reader; pl_ttl := lock_ttl;
       pl_for_update_ts := for_update_ts; pl_min_commit_ts := min_commit_ts;
       pl_last_change := last_change;
       pl_is_locked_with_conflict := bool_decide (is_Some conflict_info) |} in
  txn ←
    (if (negb lock_only_if_exists || bool_decide (is_Some val))%bool
     then put_pessimistic_lock txn key lock true
     else
       match conflict_info with
       | Some conflict_info =>
           raw ← map_err MvCodec (Key_into_raw key);
           ConflictInfo_into_write_conflict_error conflict_info (r_start_ts reader) primary raw
       | None => Ok txn
       end);
  Ok (PessimisticLockKeyResult_new_success need_value need_check_existence
        (option_map ci_conflict_commit_ts conflict_info) val,
      old_value, txn).

Definition acquire_pessimistic_lock (txn : MvccTxn) reader (key : Key) (primary : bytes)
    (should_not_exist : bool) (lock_ttl : u64) (for_update_ts : TimeStamp)
    (need_value need_check_existence : bool) (min_commit_ts : TimeStamp)
    (need_old_value lock_only_if_exists allow_lock_with_conflict : bool)
    : mvcc_res (PessimisticLockKeyResult * OldValue) * MvccTxn :=
  if (lock_only_if_exists && negb need_value)%bool then
    (raw ← map_err MvCodec (Key_into_raw key); Err (MvLockIfExistsFailed (r_start_ts reader) raw), txn)
  else
    let '(updated, txn) :=
      if (should_not_exist || need_value || need_check_existence)%bool
      then txn_update_max_ts now tso txn for_update_ts else (Ok tt, txn) in
    let need_load_value := (need_value || (need_check_existence && need_old_value))%bool in
    let r :=
      _ ← updated;
      found ← load_lock reader key;
      match found with
      | Some lock =>
          if negb (l_ts lock =? r_start_ts reader) then
            raw ← map_err MvCodec (Key_into_raw key);
            Err (MvKeyIsLocked (Lock_into_lock_info lock raw))
          else if negb (Lock_is_pessimistic_lock lock) then
            raw ← map_err MvCodec (Key_into_raw key);
            Err (MvLockTypeNotMatch (r_start_ts reader) raw false)
          else
            acquire_own_lock txn reader key lock primary should_not_exist lock_ttl for_update_ts need_value
              need_check_existence min_commit_ts need_old_value allow_lock_with_conflict need_load_value
      | None =>
          acquire_new_lock txn reader key primary should_not_exist lock_ttl for_update_ts need_value
            need_check_existence min_commit_ts need_old_value lock_only_if_exists allow_lock_with_conflict
            need_load_value
      end in
    match r with
    | Ok (key_res, old_value, txn) => (Ok (key_res, old_value), txn)
    | Err e => (Err e, txn)
    | Panic => (Panic, txn)
    end.

(** ** The command *)

Context (snapshot : Snap) (ctx : Context) (cm : ConcurrencyManager).

(** The loop over the keys: the results, the lock that was met, the buffer. *)
Fixpoint acquire_keys (txn : MvccTxn) reader (keys : list (Key * bool)) (p : PessimisticLockParameters)
    (need_old_value : bool) (res : list PessimisticLockKeyResult)
    : mvcc_res (list PessimisticLockKeyResult * list WriteResultLockInfo) * MvccTxn :=
  match keys with
  | [] => (Ok (res, []), txn)
  | (k, should_not_exist) :: keys =>
      match acquire_pessimistic_lock txn reader k (plp_primary p) should_not_exist (plp_lock_ttl p)
              (plp_for_update_ts p) (plp_return_values p) (plp_check_existence p) (plp_min_commit_ts p)
              need_old_value (plp_lock_only_if_exists p) (plp_allow_lock_with_conflict p) with
      | (Ok (key_res, _), txn) => acquire_keys txn reader keys p need_old_value (res ++ [key_res])
      | (Err (MvKeyIsLocked lock_info), txn) =>
          (Ok ([PlWaiting],
               [{| wl_key := k; wl_should_not_exist := should_not_exist; wl_lock_info_pb := lock_info;
                   wl_parameters := p |}]), clear txn)
      | (Err e, txn) => (Err e, txn)
      | (Panic, txn) => (Panic, txn)
      end
  end.

(** The request without its keys is [p]; [need_old_value] says whether the
    command has to read old values. *)
Definition AcquirePessimisticLock_process_write (keys : list (Key * bool)) (p : PessimisticLockParameters)
    (need_old_value : bool) : txn_res WriteResult * ConcurrencyManager :=
  if (plp_allow_lock_with_conflict p && (1 <? length keys)%nat)%bool then (Err TeOther, cm)
  else
    let start_ts := plp_start_ts p in
    let reader := SnapshotReader_new_with_ctx start_ts snapshot ctx in
    let '(r, txn) := acquire_keys (MvccTxn_new start_ts cm) reader keys p need_old_value [] in
    ('(res, encountered_locks) ← map_err TeMvcc r;
     let '(new_acquired_locks, txn) := take_new_locks txn in
     modifies ← into_modifies txn;
     let '(res, encountered_locks) :=
       match encountered_locks, plp_wait_timeout p with
       | lock :: _, None =>
           let err := TeMvcc (MvKeyIsLocked (wl_lock_info_pb lock)) in
           if plp_allow_lock_with_conflict p then (Ok (<[0%nat := PlFailed err]> res), [])
           else (Err err, [])
       | _, _ => (Ok res, encountered_locks)
       end in
     Ok {| wr_modifies := modifies; wr_pr := PrPessimisticLockRes res; wr_lock_info := encountered_locks;
           wr_released_locks := []; wr_new_acquired_locks := new_acquired_locks;
           wr_known_txn_status := [] |}, t_cm txn).
End Acquire.

(** ** What acquiring a lock does to a store *)

Section AcquireEffects.
Context (now : Z) (tso : option TimeStamp) (can_enable : bool).
Context (stat_next : SnapshotReader Store -> Key -> TimeStamp -> u64).
Context (s : Store) (raw : bytes) (st : TimeStamp).
Hypothesis (wf : wf_store s) (raw_ok : bytes_ok raw) (st_ok : u64_ok st).
Let key := Key_from_raw raw.
Let W := a_write (abs s) key.
Context (reader : SnapshotReader Store).
Hypothesis (rd : reader_of s st reader).

(** The transaction has not been rolled back on the key. *)
Definition not_rolled_back : Prop :=
  forall w, W st = Some w -> w_write_type w <> WtRollback /\ w_has_overlapped_rollback w = false.

(** The state of the key that allows a pessimistic lock with the for-update
    timestamp [fu]. *)
Definition may_lock (fu : TimeStamp) : Prop :=
  (a_lock (abs s) key = None /\ not_rolled_back /\ forall t w, W t = Some w -> t <= fu)
  \/ exists l, a_lock (abs s) key = Some l /\ l_ts l = st /\ Lock_is_pessimistic_lock l = true
       /\ l_for_update_ts l <= fu.

Record acquired_lock (p : PessimisticLock) : Prop := {
  al_may_lock : may_lock (pl_for_update_ts p);
  al_start_ts : pl_start_ts p = st;
  al_ok : lock_ok (PessimisticLock_into_lock p);
  al_hint : readable_history s raw -> hint_ok W TimeStamp_max (pl_last_change p)
}.

Lemma check_not_rolled_back primary sne fu allow nl c w ci fu' nl' :
  newest W TimeStamp_max (Some (c, w)) -> u64_ok fu ->
  acquire_check_write reader key primary sne fu allow nl c w = Ok (ci, fu', nl') ->
  not_rolled_back /\ (forall t w, W t = Some w -> t <= fu') /\ u64_ok fu'.
Proof.
  intros Hn Hfu. pose proof (newest_max s raw wf raw_ok _ Hn : forall t w, W t = Some w -> t <= c) as Hmax.
  destruct (abs_write_ok s raw c w wf raw_ok) as [Hc _]; [apply Hn|].
  unfold acquire_check_write, rolled_back_error. rewrite !(reader_start rd). intros Hr. res_inv.
  destruct a as [[ci0 fu0] nl0]. res_inv.
  assert (c <= fu' /\ u64_ok fu') as [Hle Hfu'].
  { destruct (Z.ltb_spec fu c); [destruct allow; [|by res_inv]|]; simplify_eq; unfold u64_ok in *; lia. }
  split; [|split; [|done]]; [|intros t w' Hw'; pose proof (Hmax t w' Hw'); lia].
  assert (forall wb (x : mvcc_res unit) b, (forall b', x <> Ok b') ->
    (if ((st =? st) && (bool_decide (w_write_type wb = WtRollback) || w_has_overlapped_rollback wb))%bool
     then x else Ok tt) = Ok b ->
    w_write_type wb <> WtRollback /\ w_has_overlapped_rollback wb = false) as Hflags.
  { clear. intros wb x b Hx. rewrite Z.eqb_refl. cbn [andb]. destruct (_ || _)%bool eqn:E; [by intros ?%Hx|].
    by apply orb_false_iff in E as [?%bool_decide_eq_false ?]. }
  intros w' Hw'. pose proof (Hmax st w' Hw'). destruct (Z.ltb_spec st c) as [Hlt|].
  - destruct (seek_write_spec reader raw) with (ts := st) as (sr & Hsr & Hn' & _);
      [rewrite (reader_snapshot rd); apply wf|done..|]. rewrite (reader_snapshot rd) in Hn'.
    fold key in Hsr. rewrite Hsr in H1. cbn [mbind res_bind] in H1.
    destruct sr as [[c' w1]|]; [|assert (W st = None) by (apply Hn'; lia); congruence].
    destruct Hn' as (Hc' & Hw1 & Hno).
    assert (c' = st) as ->.
    { destruct (decide (c' = st)); [done|]. assert (W st = None) as E by (apply Hno; lia). congruence. }
    assert (w1 = w') as -> by (unfold W, key in Hw'; cbn in *; congruence).
    apply Hflags in H1; [done|]. intros b' Hb. by res_inv.
  - assert (c = st) as -> by lia. assert (w' = w) as -> by (destruct Hn as (_ & ? & _); congruence).
    apply Hflags in H0; [done|]. intros b' Hb. by res_inv.
Qed.

Lemma pessimistic_lock_ok p :
  zlen (pl_primary p) < 2 ^ 62 -> u64_ok (pl_start_ts p) -> u64_ok (pl_ttl p) ->
  u64_ok (pl_for_update_ts p) -> u64_ok (pl_min_commit_ts p) -> last_change_ok (pl_last_change p) ->
  lock_ok (PessimisticLock_into_lock p).
Proof. intros. split; cbn; auto; by unfold u64_ok. Qed.

Lemma put_pessimistic_lock_extends txn p is_new txn' :
  put_pessimistic_lock txn key p is_new = Ok txn' -> txn_extends txn [LPutPessimistic key p] txn'
  /\ t_cm txn' = t_cm txn.
Proof.
  unfold put_pessimistic_lock. destruct is_new.
  - unfold key. rewrite Key_to_raw_from_raw. by intros [= <-].
  - by intros [= <-].
Qed.

Lemma acquire_new_lock_inv txn primary sne ttl fu nv nce mc nov loie allow nl r ov txn' :
  a_lock (abs s) key = None -> t_start_ts txn = st ->
  zlen primary < 2 ^ 62 -> u64_ok ttl -> u64_ok fu -> u64_ok mc ->
  acquire_new_lock can_enable stat_next txn reader key primary sne ttl fu nv nce mc nov loie allow nl
    = Ok (r, ov, txn') ->
  t_cm txn' = t_cm txn
  /\ (txn_extends txn [] txn' \/ exists p, acquired_lock p /\ txn_extends txn [LPutPessimistic key p] txn').
Proof.
  intros Hl Hst Hp Httl Hfu Hmc. unfold acquire_new_lock.
  destruct (seek_write_spec reader raw) with (ts := TimeStamp_max) as (sr & Hsr & Hn & _);
    [rewrite (reader_snapshot rd); apply wf|done|unfold u64_ok, TimeStamp_max, u64_max; lia|].
  rewrite (reader_snapshot rd) in Hn. fold key in Hsr, Hn. rewrite Hsr. cbn [mbind res_bind].
  pose proof (newest_max s raw wf raw_ok sr Hn) as Hmax. fold key in Hmax.
  intros Hc. apply res_bind_ok in Hc as ([[[[[ci fu'] nl'] pw] lc] val] & Hfound & Hc).
  assert (not_rolled_back /\ (forall t w, W t = Some w -> t <= fu') /\ u64_ok fu' /\ lock_hint_ok s raw lc)
    as (Hnr & Hle & Hfu' & Hlc).
  { destruct sr as [[c w]|].
    - apply res_bind_ok in Hfound as ([[ci0 fu0] nl0] & H & Hfound).
      apply res_bind_ok in Hfound as (lc0 & H0 & Hfound). apply res_bind_ok in Hfound as (v0 & _ & Hfound).
      injection Hfound as -> -> -> _ -> _.
      destruct (check_not_rolled_back _ _ _ _ _ _ _ _ _ _ Hn Hfu H) as (? & ? & ?). split_and!; try done.
      rewrite Hst in H0. eapply (next_last_change_info_hint stat_next s raw st wf raw_ok reader rd);
        [apply Hn|exact Hmax|exact H0].
    - simplify_eq. split_and!; [|intros t w Hw; by destruct (Hmax t w Hw)|done|].
      + intros w Hw. by destruct (Hmax st w Hw).
      + apply lock_hint_none. intros t w Hw. by apply (Hmax t w). }
  clear Hfound. res_inv. destruct (_ || _)%bool.
  - apply put_pessimistic_lock_extends in H0 as [Hext Hcm]. split; [done|right]. eexists. split; [|exact Hext].
    destruct Hlc as [Hlc Hhint]. rewrite (reader_start rd). split; cbn [pl_for_update_ts pl_start_ts pl_last_change].
    + left. done.
    + done.
    + apply pessimistic_lock_ok; cbn; try done. by destruct can_enable.
    + by destruct can_enable; [|intros _].
  - destruct ci as [ci|]; [by res_inv|]. simplify_eq. split; [done|left]. by apply txn_extends_refl.
Qed.

Lemma acquire_own_lock_inv txn l primary sne ttl fu nv nce mc nov allow nl r ov txn' :
  a_lock (abs s) key = Some l -> l_ts l = st -> Lock_is_pessimistic_lock l = true ->
  zlen primary < 2 ^ 62 -> u64_ok ttl -> u64_ok fu -> u64_ok mc ->
  acquire_own_lock txn reader key l primary sne ttl fu nv nce mc nov allow nl = Ok (r, ov, txn') ->
  t_cm txn' = t_cm txn
  /\ (txn_extends txn [] txn' \/ exists p, acquired_lock p /\ txn_extends txn [LPutPessimistic key p] txn').
Proof.
  intros Hl Hts Hpl Hp Httl Hfu Hmc. unfold acquire_own_lock.
  pose proof (abs_lock_ok s key l wf Hl) as Hok. pose proof (lock_ok_for_update_ts l Hok).
  set (x := if (allow && _)%bool then _ else _).
  assert (exists ts fu' nl', x = (ts, fu', nl') /\ u64_ok fu') as (ts & fu' & nl' & -> & Hfu').
  { unfold x. destruct (allow && _)%bool; by eexists _, _, _. }
  intros Hc. apply res_bind_ok in Hc as (val & _ & Hc). apply res_bind_ok in Hc as (ov' & _ & Hc).
  apply res_bind_ok in Hc as (txn1 & Hput & Hc). injection Hc as _ _ <-.
  destruct (Z.ltb_spec (l_for_update_ts l) fu').
  - apply put_pessimistic_lock_extends in Hput as [Hext Hcm]. split; [done|right]. eexists. split; [|exact Hext].
    rewrite (reader_start rd). split; cbn [pl_for_update_ts pl_start_ts pl_last_change].
    + right. exists l. split_and!; try done. lia.
    + done.
    + apply pessimistic_lock_ok; cbn; try done. by apply lock_ok_last_change.
    + intros [_ Hh]. by apply Hh.
  - injection Hput as <-. split; [done|left]. by apply txn_extends_refl.
Qed.

(** The action leaves the updates as they were, or locks the key. *)
Lemma acquire_inv txn primary sne ttl fu nv nce mc nov loie allow r txn' :
  t_start_ts txn = st -> zlen primary < 2 ^ 62 -> u64_ok ttl -> u64_ok fu -> u64_ok mc ->
  u64_ok (cm_max_ts (t_cm txn)) ->
  acquire_pessimistic_lock now tso can_enable stat_next txn reader key primary sne ttl fu nv nce mc nov
    loie allow = (r, txn') ->
  u64_ok (cm_max_ts (t_cm txn'))
  /\ (txn_extends txn [] txn' \/ exists p, acquired_lock p /\ txn_extends txn [LPutPessimistic key p] txn').
Proof.
  intros Hst Hp Httl Hfu Hmc Hcm. unfold acquire_pessimistic_lock.
  destruct (loie && _)%bool; [intros [= _ <-]; split; [done|left]; by apply txn_extends_refl|].
  set (upd := if (_ || _ || _)%bool then _ else _).
  assert (exists r0 txn0, upd = (r0, txn0) /\ txn_extends txn [] txn0 /\ u64_ok (cm_max_ts (t_cm txn0)))
    as (r0 & txn0 & -> & Hext0 & Hcm0).
  { unfold upd. destruct (_ || _ || _)%bool.
    - destruct (txn_update_max_ts now tso txn fu) as [r0 txn0] eqn:Hu. exists r0, txn0.
      apply txn_update_max_ts_inv in Hu as (? & ? & _); [by split_and!|done..].
    - exists (Ok tt), txn. split_and!; [done|by apply txn_extends_refl|done]. }
  destruct (_ ≫= _) as [[[kr ov] txn1]|e|] eqn:Hr; intros [= _ <-]; [|by split; [|left]..].
  apply res_bind_ok in Hr as (_ & _ & Hr).
  pose proof (load_lock_abs reader raw) as Hload. rewrite (reader_snapshot rd) in Hload.
  fold key in Hload. rewrite Hload in Hr by done. cbn [mbind res_bind] in Hr.
  assert (t_start_ts txn0 = st) as Hst0 by (destruct Hext0 as (_ & _ & ->); done).
  assert (t_cm txn1 = t_cm txn0 /\ (txn_extends txn0 [] txn1 \/ exists p, acquired_lock p
    /\ txn_extends txn0 [LPutPessimistic key p] txn1)) as [-> Hext].
  { destruct (a_lock (abs s) key) as [l|] eqn:Hl; [|eapply acquire_new_lock_inv; [..|exact Hr]; done].
    rewrite (reader_start rd) in Hr. destruct (Z.eqb_spec (l_ts l) st); cbn [negb] in Hr; [|by res_inv].
    destruct (Lock_is_pessimistic_lock l) eqn:Hpl; cbn [negb] in Hr; [|by res_inv].
    eapply acquire_own_lock_inv; [..|exact Hr]; done. }
  split; [done|]. destruct Hext as [Hext|(p & Hal & Hext)].
  - left. exact (txn_extends_trans _ [] _ [] _ Hext0 Hext).
  - right. exists p. split; [done|]. exact (txn_extends_trans _ [] _ _ _ Hext0 Hext).
Qed.
End AcquireEffects.

(** The parameters of a request are in range. *)
Record params_ok (p : PessimisticLockParameters) : Prop := {
  params_primary : zlen (plp_primary p) < 2 ^ 62;
  params_start_ts : u64_ok (plp_start_ts p);
  params_lock_ttl : u64_ok (plp_lock_ttl p);
  params_for_update_ts : u64_ok (plp_for_update_ts p);
  params_min_commit_ts : u64_ok (plp_min_commit_ts p)
}.

(** What the command does to one key. *)
Definition acquire_update (s : Store) (st : TimeStamp) (raw : bytes) (ms : list LModify) : Prop :=
  ms = [] \/ exists p, acquired_lock s raw st p /\ ms = [LPutPessimistic (Key_from_raw raw) p].

Section AcquireCommand.
Context (now : Z) (tso : option TimeStamp) (can_enable : bool).
Context (stat_next : SnapshotReader Store -> Key -> TimeStamp -> u64).
Context (s : Store) (wf : wf_store s) (p : PessimisticLockParameters) (p_ok : params_ok p).
Let st := plp_start_ts p.
Context (reader : SnapshotReader Store) (rd : reader_of s st reader).

Definition raw_keys (raws : list (bytes * bool)) : list (Key * bool) :=
  map (fun '(raw, b) => (Key_from_raw raw, b)) raws.

(** Either every key has its update in the buffer, or a lock was met and the
    buffer is empty. *)
Lemma acquire_keys_inv nov : forall raws txn res r txn',
  Forall bytes_ok raws.*1 -> t_start_ts txn = st -> u64_ok (cm_max_ts (t_cm txn)) ->
  t_locks_for_1pc txn = [] ->
  acquire_keys now tso can_enable stat_next txn reader (raw_keys raws) p nov res = (Ok r, txn') ->
  t_locks_for_1pc txn' = []
  /\ (t_modifies txn' = []
      \/ exists mss, Forall2 (acquire_update s st) raws.*1 mss
           /\ t_modifies txn' = t_modifies txn ++ map encode_lm (concat mss)).
Proof.
  induction raws as [|[raw b] raws IH]; intros txn res r txn' Hraws Hst Hcm H1pc.
  { intros [= _ <-]. split; [done|right]. exists []. split; [constructor|]. by rewrite app_nil_r. }
  cbn [fmap list_fmap fst] in Hraws. apply Forall_cons_1 in Hraws as [Hraw Hraws].
  cbn [raw_keys map acquire_keys].
  destruct (acquire_pessimistic_lock _ _ _ _ _ _ _ _ _ _ _ _ _ _ _ _ _) as [ra txn1] eqn:Ha.
  destruct p_ok. apply (acquire_inv now tso can_enable stat_next s raw st wf Hraw) with (reader := reader) in Ha
    as [Hcm1 Hext]; try done.
  assert (txn_extends txn [] txn1 \/ exists q, acquired_lock s raw st q
    /\ txn_extends txn [LPutPessimistic (Key_from_raw raw) q] txn1) as Hext' by done.
  assert (exists ms, acquire_update s st raw ms /\ txn_extends txn ms txn1) as (ms & Hms & Hmod & Hl & Hs).
  { destruct Hext as [?|(q & ? & ?)]; [exists []; split; [by left|done]|].
    eexists. split; [right; by exists q|done]. }
  destruct ra as [[kr ov]|e|]; [|destruct e; try done; intros [= _ <-]; by split; [|left]|done].
  intros Hrec. apply IH in Hrec as [Hpc Hrec]; [|done|congruence|done|congruence]. split; [done|].
  destruct Hrec as [?|(mss & Hall & Hm)]; [by left|right]. exists (ms :: mss).
  split; [by constructor|]. cbn [concat]. by rewrite Hm, Hmod, map_app, app_assoc.
Qed.
End AcquireCommand.

Lemma AcquirePessimisticLock_inv now tso can_enable stat_next s ctx cm raws p nov wr cm' :
  wf_store s -> params_ok p -> Forall bytes_ok raws.*1 -> u64_ok (cm_max_ts cm) ->
  AcquirePessimisticLock_process_write now tso can_enable stat_next s ctx cm (raw_keys raws) p nov
    = (Ok wr, cm') ->
  exists mss, Forall2 (acquire_update s (plp_start_ts p)) raws.*1 mss
    /\ wr_modifies wr = map encode_lm (concat mss).
Proof.
  intros Hwf Hp Hraws Hcm. unfold AcquirePessimisticLock_process_write. destruct (_ && _)%bool; [done|].
  destruct (acquire_keys _ _ _ _ _ _ _ _ _ _) as [r txn] eqn:Hk.
  intros [= Hr _]. apply res_bind_ok in Hr as ([rs enc] & Hrs & Hr). apply map_err_ok in Hrs as ->.
  apply (acquire_keys_inv now tso can_enable stat_next s Hwf p Hp) in Hk as [Hpc Hk]; try done.
  cbn [take_new_locks] in Hr. apply res_bind_ok in Hr as (mods & Hmods & Hr).
  unfold into_modifies in Hmods. cbn [t_locks_for_1pc t_modifies] in Hmods. rewrite Hpc in Hmods.
  cbn in Hmods. injection Hmods as <-.
  assert (wr_modifies wr = t_modifies txn) as ->.
  { destruct (match enc with [] => _ | _ => _ end). by injection Hr as <-. }
  destruct Hk as [->|(mss & Hall & ->)]; [|by exists mss].
  exists (map (fun _ => []) raws.*1). split.
  - apply Forall2_fmap_r, Forall_Forall2_diag, Forall_forall. intros. by left.
  - clear. by induction raws as [|raw raws IH].
Qed.
