(* ===== verification/KeyInv.v ===== *)
(** * The invariant of a key

    What the protocol guarantees about the write records [W] and the lock [L] of
    one key ([key_inv]), and its preservation by the elementary changes:
    committing a lock, writing or overlapping a rollback, removing a rollback,
    refreshing or marking a lock, locking.  Purely about the abstract state. *)

From Stdlib Require Import ZArith Lia.
From stdpp Require Import base numbers list gmap.
From S2P Require Import Prelude Number Bytes Types Write Lock ConcurrencyManager Engine Reader.
From S2P Require Import AbsState ReaderSpec MvccTxn Prewrite TxnStatus.

Open Scope Z_scope.

Definition upd (W : TimeStamp -> option Write) (c : TimeStamp) (o : option Write) (t : TimeStamp)
    : option Write := if decide (t = c) then o else W t.

(** [ki_start]: rollback records lie at the start timestamp of their
    transaction, all others above it.  [ki_once]: a transaction has at most one
    record.  [ki_overlap]: a record that carries the rollback of the transaction
    starting at its timestamp excludes any other trace of that transaction.
    [ki_lock]: a transaction with a record holds no lock, unless it is committed
    and the lock is a pessimistic one, taken by a request that came late.
    [ki_newest]: nothing was committed above the start and the for-update timestamp
    of a lock.  [ki_marks]: a rollback noted in the lock is
    of a transaction without commit record.  [ki_history], [ki_rollback_hint],
    [ki_lock_hint]: what readers rely on. *)
Record key_inv (W : TimeStamp -> option Write) (L : option Lock) : Prop := {
  ki_start : forall t w, W t = Some w ->
    if decide (w_write_type w = WtRollback) then w_start_ts w = t else w_start_ts w < t;
  ki_once : forall t w t' w', W t = Some w -> W t' = Some w' -> w_start_ts w = w_start_ts w' -> t = t';
  ki_overlap : forall t w, W t = Some w -> w_has_overlapped_rollback w = true ->
    (forall t' w', W t' = Some w' -> w_start_ts w' <> t) /\ (forall l, L = Some l -> l_ts l <> t);
  ki_lock : forall l t w, L = Some l -> W t = Some w -> w_start_ts w = l_ts l ->
    Lock_is_pessimistic_lock l = true /\ w_write_type w <> WtRollback;
  ki_newest : forall l t w, L = Some l -> W t = Some w -> w_write_type w <> WtRollback ->
    t <= Z.max (l_ts l) (l_for_update_ts l);
  ki_marks : forall l ts, L = Some l -> ts ∈ l_rollback_ts l ->
    ts <> l_ts l /\ forall t w, W t = Some w -> w_start_ts w = ts -> t = ts;
  ki_history : key_history W;
  ki_rollback_hint : forall t w, W t = Some w -> w_write_type w = WtRollback -> w_last_change w = LcUnknown;
  ki_lock_hint : forall l, L = Some l -> hint_ok W TimeStamp_max (l_last_change l)
}.

(** ** Hints under changes of the history *)

Lemma newest_change_ext W W' ts o :
  (forall t, W t = W' t) -> newest_change W ts o -> newest_change W' ts o.
Proof.
  intros He. destruct o as [[c w]|]; cbn.
  - intros (? & Hw & ? & Hno). rewrite <-He. split_and!; [done..|]. intros t w'. rewrite <-He. eauto.
  - intros Hno t w'. rewrite <-He. eauto.
Qed.

Lemma hint_ok_map W W' ts lc :
  (forall o, newest_change W ts o ->
     exists o', newest_change W' ts o' /\ option_map fst o' = option_map fst o
       /\ (visible o = None -> visible o' = None)) ->
  hint_ok W ts lc -> hint_ok W' ts lc.
Proof.
  intros Hm. destruct lc as [|l n|]; cbn [hint_ok]; [done| |].
  - intros (Hl & w & Hn). split; [done|]. destruct (Hm _ Hn) as ([[l' w']|] & Hn' & [= ->] & _). eauto.
  - intros (o & Hn & Hv). destruct (Hm _ Hn) as (o' & Hn' & _ & Hv'). eauto.
Qed.

Lemma hint_ok_map_ts W ts ts' lc :
  (forall o, newest_change W ts o -> newest_change W ts' o) -> hint_ok W ts lc -> hint_ok W ts' lc.
Proof.
  intros Hm. destruct lc as [|l n|]; cbn [hint_ok]; [done| |].
  - intros (Hl & w & Hn). split; [done|]. exists w. by apply (Hm (Some (l, w))).
  - intros (o & Hn & Hv). exists o. auto.
Qed.

Lemma hint_ok_mono W W' ts lc :
  (forall o, newest_change W ts o -> newest_change W' ts o) -> hint_ok W ts lc -> hint_ok W' ts lc.
Proof. intros Hm. apply hint_ok_map. intros o Ho. exists o. auto. Qed.

(** Records that change nothing may come and go. *)
Lemma newest_change_idle W c x ts o :
  (forall w, W c = Some w -> is_change w = false) -> (forall w, x = Some w -> is_change w = false) ->
  newest_change W ts o -> newest_change (upd W c x) ts o.
Proof.
  intros Hold Hnew. unfold upd. destruct o as [[c' w']|]; cbn.
  - intros (Hle & Hw & Hch & Hno). split; [done|]. split.
    { case_decide as Hc; [|done]. subst. rewrite Hold in Hch; done. }
    split; [done|]. intros t w Ht. case_decide; [auto|]. by apply Hno.
  - intros Hno t w Ht. case_decide; [auto|]. by apply Hno.
Qed.

(** A record above the timestamp does not matter. *)
Lemma newest_change_above W c x ts o :
  ts < c -> newest_change W ts o -> newest_change (upd W c x) ts o.
Proof.
  intros Hlt. unfold upd. destruct o as [[c' w']|]; cbn.
  - intros (Hle & Hw & Hch & Hno). split; [done|]. rewrite decide_False by lia.
    split_and!; [done..|]. intros t w Ht. rewrite decide_False by lia. by apply Hno.
  - intros Hno t w Ht. rewrite decide_False by lia. by apply Hno.
Qed.

(** Rewriting a record by one of the same type. *)
Lemma hint_ok_same_type W c w w' ts lc :
  W c = Some w -> w_write_type w' = w_write_type w ->
  hint_ok W ts lc -> hint_ok (upd W c (Some w')) ts lc.
Proof.
  intros Hw Hty. assert (is_change w' = is_change w) as Hch by (unfold is_change; by rewrite Hty).
  apply hint_ok_map. intros [[c1 w1]|] Hn; cbn in Hn.
  - destruct Hn as (Hle & Hw1 & Hch1 & Hno).
    exists (Some (c1, if decide (c1 = c) then w' else w1)). split; [|split; [done|]].
    + unfold upd. cbn. split; [done|]. split; [by case_decide|]. split.
      * case_decide; [|done]. subst. simplify_eq. by rewrite Hch.
      * intros t wt Ht. case_decide; [|by apply Hno]. intros [= <-]. subst. rewrite Hch. by apply (Hno c).
    + cbn. case_decide; [|done]. subst. rewrite Hw in Hw1. injection Hw1 as <-. rewrite Hty.
      by destruct (w_write_type w).
  - exists None. split; [|done]. unfold upd. intros t wt Ht. case_decide; [|by apply Hn].
    intros [= <-]. subst. rewrite Hch. by apply (Hn c).
Qed.

Lemma key_history_ext W W' : (forall t, W t = W' t) -> key_history W -> key_history W'.
Proof.
  intros He [Hp Hh Hf]. split.
  - intros t w. rewrite <-He. apply Hp.
  - intros c w Hw Hch. rewrite <-He in Hw. apply (hint_ok_mono W); [|by apply Hh].
    intros o. by apply newest_change_ext.
  - intros c w f. rewrite <-He. intros Hw Hfe. destruct (Hf c w f Hw Hfe) as [?|(? & w' & Hw' & ?)]; [by left|].
    right. split; [done|]. exists w'. by rewrite <-He.
Qed.

Lemma key_history_empty : key_history (fun _ => None).
Proof. by split. Qed.

(** Inserting or removing an idle record. *)
Lemma key_history_idle W c x :
  key_history W -> (forall w, W c = Some w -> is_change w = false) ->
  match x with
  | Some w => 0 < c < 2 ^ 64 /\ is_change w = false /\ w_last_change w = LcUnknown /\ w_gc_fence w = None
  | None => True
  end ->
  key_history (upd W c x).
Proof.
  intros [Hp Hh Hf] Hold Hx.
  assert (forall w, x = Some w -> is_change w = false) as Hnew by (intros w ->; apply Hx). split.
  - intros t w. unfold upd. case_decide; [|apply Hp]. intros ->. subst. apply Hx.
  - intros c' w Hw Hch. unfold upd in Hw. case_decide.
    + subst. destruct Hx as (_ & _ & -> & _). done.
    + apply (hint_ok_mono W); [|by apply Hh]. intros o. by apply newest_change_idle.
  - intros c' w f. unfold upd at 1. case_decide.
    + intros -> Hfe. destruct Hx as (_ & _ & _ & Hx). congruence.
    + intros Hw Hfe. destruct (Hf c' w f Hw Hfe) as [?|(? & w' & Hw' & Hch')]; [by left|].
      right. split; [done|]. exists w'. unfold upd. rewrite decide_False; [done|].
      intros ->. rewrite (Hold w') in Hch'; done.
Qed.

Lemma key_history_same_type W c w w' :
  key_history W -> W c = Some w -> w_write_type w' = w_write_type w -> w_last_change w' = w_last_change w ->
  match w_gc_fence w' with
  | Some f => f = 0 \/ (c < f /\ exists wf, W f = Some wf /\ is_change wf = true)
  | None => True
  end ->
  key_history (upd W c (Some w')).
Proof.
  intros [Hp Hh Hf] Hw Hty Hlc Hfe. split.
  - intros t wt. unfold upd. case_decide; [|apply Hp]. intros _. subst. by apply (Hp c w).
  - intros c' wt Hwt Hch. apply (hint_ok_same_type W c w w'); [done..|]. unfold upd in Hwt. case_decide.
    + simplify_eq. rewrite Hlc. apply Hh; [done|]. unfold is_change in *. by rewrite <-Hty.
    + by apply Hh.
  - intros c' wt f. intros Hwt Hfe'.
    assert (f = 0 \/ (c' < f /\ exists wf, W f = Some wf /\ is_change wf = true)) as [?|(Hlt & wf & Hwf & Hch)];
      [|by left|right].
    { unfold upd in Hwt. case_decide; [|by eapply Hf]. simplify_eq. by rewrite Hfe' in Hfe. }
    split; [done|]. unfold upd. case_decide; [|eauto]. subst. exists w'. split; [done|]. simplify_eq.
    unfold is_change in *. by rewrite Hty.
Qed.

(** Committing above everything that changed. *)
Lemma key_history_commit W c w :
  key_history W -> 0 < c < 2 ^ 64 ->
  (forall t wt, W t = Some wt -> w_write_type wt <> WtRollback -> t < c) ->
  (forall t wt, W t = Some wt -> w_write_type wt = WtRollback -> w_last_change wt = LcUnknown) ->
  w_gc_fence w = None -> (is_change w = false -> hint_ok W (c - 1) (w_last_change w)) ->
  key_history (upd W c (Some w)).
Proof.
  intros [Hp Hh Hf] Hc Hlt Hrb Hfe Hhint. split.
  - intros t wt. unfold upd. case_decide; [|apply Hp]. intros _. by subst.
  - intros c' wt Hwt Hch. unfold upd in Hwt. case_decide.
    + simplify_eq. apply (hint_ok_mono W); [|by apply Hhint]. intros o. apply newest_change_above. lia.
    + destruct (decide (w_write_type wt = WtRollback)) as [Hr|Hr]; [by rewrite (Hrb c' wt)|].
      apply (hint_ok_mono W); [|by apply Hh]. intros o. apply newest_change_above.
      pose proof (Hlt c' wt Hwt Hr). lia.
  - intros c' wt f. intros Hwt Hfe'. unfold upd in Hwt. case_decide; [simplify_eq; congruence|].
    destruct (Hf c' wt f Hwt Hfe') as [?|(? & wf & Hwf & Hch)]; [by left|]. right. split; [done|].
    exists wf. unfold upd. rewrite decide_False; [done|]. intros ->.
    assert (w_write_type wf <> WtRollback) by (unfold is_change in Hch; by destruct (w_write_type wf)).
    assert (c < c) by (by apply (Hlt c wf)). lia.
Qed.

(** ** The invariant *)

Lemma key_inv_ext W W' L L' : (forall t, W t = W' t) -> L = L' -> key_inv W L -> key_inv W' L'.
Proof.
  intros HW <- [Hs Ho Hv Hl Hn Hm Hh Hr Hlh]. split.
  - intros t w. rewrite <-HW. apply Hs.
  - intros t w t' w'. rewrite <-!HW. apply Ho.
  - intros t w. rewrite <-HW. intros Hw Hov. destruct (Hv t w Hw Hov) as [Hv1 Hv2]. split; [|done].
    intros t' w'. rewrite <-HW. apply Hv1.
  - intros l t w. rewrite <-HW. apply Hl.
  - intros l t w. rewrite <-HW. apply Hn.
  - intros l ts Hl' Hts. destruct (Hm l ts Hl' Hts) as [Hm1 Hm2]. split; [done|].
    intros t w. rewrite <-HW. apply Hm2.
  - by eapply key_history_ext.
  - intros t w. rewrite <-HW. apply Hr.
  - intros l Hl'. apply (hint_ok_mono W); [|by apply Hlh]. intros o. by apply newest_change_ext.
Qed.

Lemma key_inv_starts W L t w : key_inv W L -> W t = Some w -> w_start_ts w <= t.
Proof. intros Hi Hw. pose proof (ki_start _ _ Hi t w Hw) as Hs. case_decide; lia. Qed.

Lemma inv_empty : key_inv (fun _ => None) None.
Proof. by split. Qed.

Lemma inv_unlock W L : key_inv W L -> key_inv W None.
Proof.
  intros [Hs Ho Hv Hl Hn Hm Hh Hr Hlh]. split; try done. intros t w Hw Hov. by split; [apply (Hv t w)|].
Qed.

(** Another lock of the same transaction; a prewrite lock only when it is not
    committed. *)
Lemma inv_relock W l l' :
  key_inv W (Some l) -> l_ts l' = l_ts l -> l_for_update_ts l <= l_for_update_ts l' ->
  (Lock_is_pessimistic_lock l = true -> Lock_is_pessimistic_lock l' = false ->
   forall t w, W t = Some w -> w_start_ts w = l_ts l -> w_write_type w = WtRollback) ->
  hint_ok W TimeStamp_max (l_last_change l') ->
  (forall ts, ts ∈ l_rollback_ts l' -> ts ∈ l_rollback_ts l
     \/ (ts <> l_ts l /\ forall t w, W t = Some w -> w_start_ts w = ts -> t = ts)) ->
  key_inv W (Some l').
Proof.
  intros [Hs Ho Hv Hl Hn Hm Hh Hr Hlh] Ht Hfu Hun Hlc Hmk. split; try done.
  - intros t w Hw Hov. destruct (Hv t w Hw Hov) as [Hv1 Hv2]. split; [done|]. intros ? [= <-].
    rewrite Ht. by apply Hv2.
  - intros ? t w [= <-] Hw. rewrite Ht. intros Heq. destruct (Hl l t w eq_refl Hw Heq) as [Hp Hty]. split; [|done].
    destruct (Lock_is_pessimistic_lock l'); [done|]. by destruct (Hty (Hun Hp eq_refl t w Hw Heq)).
  - intros ? t w [= <-] Hw Hty. rewrite Ht. pose proof (Hn l t w eq_refl Hw Hty). lia.
  - intros ? ts [= <-] Hin. rewrite Ht. destruct (Hmk ts Hin); [by apply Hm|done].
  - by intros ? [= <-].
Qed.

Lemma inv_delete W L c :
  key_inv W L -> (forall w, W c = Some w -> w_write_type w = WtRollback) -> key_inv (upd W c None) L.
Proof.
  intros [Hs Ho Hv Hl Hn Hm Hh Hr Hlh] Hrb.
  assert (forall t w, upd W c None t = Some w -> W t = Some w) as Hd.
  { intros t w. unfold upd. by case_decide. }
  assert (forall w, W c = Some w -> is_change w = false) as Hidle.
  { intros w Hw%Hrb. unfold is_change. by rewrite Hw. }
  split.
  - intros t w Hw%Hd. by apply Hs.
  - intros t w t' w' Hw%Hd Hw'%Hd. by eapply Ho.
  - intros t w Hw%Hd Hov. destruct (Hv t w Hw Hov) as [Hv1 Hv2]. split; [|done].
    intros t' w' Hw'%Hd. by eapply Hv1.
  - intros l t w Hlk Hw%Hd. by eapply Hl.
  - intros l t w Hlk Hw%Hd. by eapply Hn.
  - intros l ts Hlk Hts. destruct (Hm l ts Hlk Hts) as [Hm1 Hm2]. split; [done|].
    intros t w Hw%Hd. by eapply Hm2.
  - by apply key_history_idle.
  - intros t w Hw%Hd. by eapply Hr.
  - intros l Hlk. apply (hint_ok_mono W); [|by apply Hlh]. intros o. by apply newest_change_idle.
Qed.

Lemma commit_write_type l c :
  Lock_is_pessimistic_lock l = false ->
  w_write_type (commit_write l c) <> WtRollback
  /\ (is_change (commit_write l c) = false -> l_lock_type l = LtLock)
  /\ w_gc_fence (commit_write l c) = None /\ w_last_change (commit_write l c) = l_last_change l
  /\ (w_has_overlapped_rollback (commit_write l c) = true -> c ∈ l_rollback_ts l).
Proof.
  intros Hp. unfold commit_write, Lock_is_pessimistic_lock in *. destruct (existsb _ _) eqn:E; cbn.
  - split_and!; try done; [by destruct (l_lock_type l)..|]. intros _.
    apply existsb_exists in E as (x & Hin & Heq). apply Z.eqb_eq in Heq as ->. by apply list_elem_of_In.
  - split_and!; try done; by destruct (l_lock_type l).
Qed.

Lemma hint_ok_lower W ts ts' lc :
  ts' <= ts -> (forall t w, ts' < t <= ts -> W t = Some w -> is_change w = false) ->
  hint_ok W ts lc -> hint_ok W ts' lc.
Proof.
  intros Hle Hno. apply hint_ok_map_ts. intros [[c w]|]; cbn.
  - intros (Hc & Hw & Hch & Hn). split_and!; [|done|done|].
    + destruct (Z_le_gt_dec c ts'); [done|]. rewrite (Hno c w) in Hch; [done|lia|done].
    + intros t wt Ht. apply Hn. lia.
  - intros Hn t wt Ht. apply Hn. lia.
Qed.

Lemma inv_commit W l c :
  key_inv W (Some l) -> Lock_is_pessimistic_lock l = false -> u64_ok (l_ts l) -> u64_ok c -> l_ts l < c ->
  l_for_update_ts l < c -> key_inv (upd W c (Some (commit_write l c))) None.
Proof.
  intros Hi Hp Hlu Hcu Hc Hfu. pose proof Hi as [Hs Ho Hv Hl Hn Hm Hh Hr Hlh].
  pose proof (commit_write_start l c) as Hst.
  destruct (commit_write_type l c Hp) as (Hty & Hlt & Hfe & Hlc & Hov).
  assert (forall t w, W t = Some w -> w_write_type w <> WtRollback -> t < c) as Hbelow.
  { intros t w Hw Hw'. pose proof (Hn l t w eq_refl Hw Hw'). lia. }
  split; try done.
  - intros t w. unfold upd. case_decide; [|apply Hs]. intros [= <-]. subst.
    rewrite decide_False by done. lia.
  - intros t w t' w'. unfold upd. repeat case_decide; intros Hw Hw' Heq; simplify_eq; try done;
      [| |by eapply Ho]; rewrite Hst in Heq.
    + destruct (Hl l t' w' eq_refl Hw'); congruence.
    + destruct (Hl l t w eq_refl Hw); congruence.
  - intros t w. unfold upd. case_decide as Ht.
    + intros [= <-] Ho'. subst. split; [|done]. destruct (Hm l c eq_refl (Hov Ho')) as [Hne Hm'].
      intros t' w'. case_decide; [intros [= <-]; lia|]. intros Hw' Heq. by apply (Hm' t' w') in Heq.
    + intros Hw Ho'. destruct (Hv t w Hw Ho') as [Hv1 Hv2]. split; [|done]. intros t' w'.
      case_decide; [|apply Hv1]. intros [= <-]. rewrite Hst. by apply Hv2.
  - apply key_history_commit; try done; [unfold u64_ok in *; lia|]. intros Hch. rewrite Hlc.
    apply (hint_ok_lower W TimeStamp_max); [unfold u64_ok, TimeStamp_max, u64_max in *; lia| |by apply Hlh].
    intros t w Ht Hw. destruct (is_change w) eqn:Hchw; [|done].
    assert (t < c); [|lia]. apply (Hbelow t w Hw). unfold is_change in Hchw. by destruct (w_write_type w).
  - intros t w. unfold upd. case_decide; [by intros [= <-]|apply Hr].
Qed.

Lemma no_record_none W L st ow :
  key_inv W L -> commit_record_spec W st (TcrNone ow) -> forall t w, W t = Some w -> w_start_ts w <> st.
Proof.
  intros Hi Hrec t w Hw Heq. pose proof (key_inv_starts _ _ _ _ Hi Hw).
  destruct ow as [ow|]; cbn in Hrec.
  - destruct Hrec as (Hq & How & Hne & _). destruct (decide (t = st)) as [->|]; [congruence|].
    destruct (Hq t w); done || lia.
  - destruct (Hrec t w); done || lia.
Qed.

(** Setting the rollback flag of a record. *)
Lemma inv_set_overlapped W L c w fence :
  key_inv W L -> W c = Some w -> (forall t w', W t = Some w' -> w_start_ts w' <> c) ->
  (forall l, L = Some l -> l_ts l <> c) -> fence_above W c fence ->
  key_inv (upd W c (Some (Write_set_overlapped_rollback w true (Some fence)))) L.
Proof.
  intros [Hs Ho Hv Hl Hn Hm Hh Hr Hlh] Hw Hnone Hlc Hfe.
  set (w1 := Write_set_overlapped_rollback w true (Some fence)).
  assert (forall t w', upd W c (Some w1) t = Some w' -> exists w0, W t = Some w0
    /\ w_start_ts w' = w_start_ts w0 /\ w_write_type w' = w_write_type w0
    /\ w_last_change w' = w_last_change w0 /\ (t <> c -> w' = w0)) as Hu.
  { intros t w'. unfold upd. case_decide as Ht; [|by exists w']. intros [= <-]. subst. by exists w. }
  split.
  - intros t w' Hw'. destruct (Hu t w' Hw') as (w0 & Hw0 & -> & -> & _). by apply Hs.
  - intros t wa t' wb Ha Hb. destruct (Hu _ _ Ha) as (wa0 & Ha0 & -> & _).
    destruct (Hu _ _ Hb) as (wb0 & Hb0 & -> & _). by eapply Ho.
  - intros t w' Hw' Hov. destruct (Hu _ _ Hw') as (w0 & Hw0 & _ & _ & _ & Hsame).
    assert ((forall t' wb, W t' = Some wb -> w_start_ts wb <> t) /\ (forall l, L = Some l -> l_ts l <> t))
      as [H1 H2].
    { destruct (decide (t = c)) as [->|Hne]; [done|]. specialize (Hsame Hne). subst. by eapply Hv. }
    split; [|done]. intros t' wb Hb. destruct (Hu _ _ Hb) as (wb0 & Hb0 & -> & _). by eapply H1.
  - intros l t w' Hlk Hw'. destruct (Hu _ _ Hw') as (w0 & Hw0 & -> & -> & _). by eapply Hl.
  - intros l t w' Hlk Hw'. destruct (Hu _ _ Hw') as (w0 & Hw0 & _ & -> & _). by eapply Hn.
  - intros l ts Hlk Hts. destruct (Hm l ts Hlk Hts) as [Hm1 Hm2]. split; [done|].
    intros t w' Hw'. destruct (Hu _ _ Hw') as (w0 & Hw0 & -> & _). by eapply Hm2.
  - apply (key_history_same_type W c w); try done. cbn. destruct Hfe as [[-> _]|(? & ? & _)]; auto.
  - intros t w' Hw'. destruct (Hu _ _ Hw') as (w0 & Hw0 & _ & -> & -> & _). by eapply Hr.
  - intros l Hlk. apply (hint_ok_same_type W c w w1); [done..|]. by apply Hlh.
Qed.

(** Writing the rollback record of a transaction without trace. *)
Lemma inv_new_rollback W L st p :
  key_inv W L -> 0 < st < 2 ^ 64 -> quiet_above W st (st - 1) -> (forall l, L = Some l -> l_ts l <> st) ->
  key_inv (upd W st (Some (Write_new_rollback st p))) L.
Proof.
  intros Hi Hst Hq Hlst. pose proof (no_record_none W L st None Hi Hq) as Hnone.
  assert (forall t w, W t = Some w -> t <> st) as Hnost.
  { intros t w Hw ->. destruct (Hq st w); [lia|done|done]. }
  assert (forall w, W st = Some w -> is_change w = false) as Hidle by (intros w Hw; by destruct (Hnost st w)).
  destruct Hi as [Hs Ho Hv Hl Hn Hm Hh Hr Hlh]. split.
  - intros t w. unfold upd. case_decide; [|apply Hs]. intros [= <-]. subst. by rewrite decide_True.
  - intros t w t' w'. unfold upd. repeat case_decide; intros Hw Hw' Heq; simplify_eq; try done;
      [| |by eapply Ho].
    + by destruct (Hnone t' w').
    + by destruct (Hnone t w).
  - intros t w. unfold upd. case_decide; [by intros [= <-]|]. intros Hw Hov.
    destruct (Hv t w Hw Hov) as [Hv1 Hv2]. split; [|done].
    intros t' w'. case_decide; [intros [= <-]|apply Hv1]. cbn. congruence.
  - intros l t w Hlk. unfold upd. case_decide; [intros [= <-]|by apply Hl]. cbn. intros E. by destruct (Hlst l).
  - intros l t w Hlk. unfold upd. case_decide; [by intros [= <-]|by apply Hn].
  - intros l ts Hlk Hts. destruct (Hm l ts Hlk Hts) as [Hm1 Hm2]. split; [done|].
    intros t w. unfold upd. case_decide; [intros [= <-]|by apply Hm2]. cbn. congruence.
  - by apply key_history_idle.
  - intros t w. unfold upd. case_decide; [by intros [= <-]|apply Hr].
  - intros l Hlk. apply (hint_ok_mono W); [|by apply Hlh]. intros o. apply newest_change_idle; [done|].
    by intros w [= <-].
Qed.

Lemma inv_rollback W L st p ow :
  key_inv W L -> 0 < st < 2 ^ 64 -> commit_record_spec W st (TcrNone ow) ->
  (forall l, L = Some l -> l_ts l <> st) ->
  key_inv (match rollback_record st p ow with Some w => upd W st (Some w) | None => W end) L.
Proof.
  intros Hi Hst Hrec Hlst. pose proof (no_record_none W L st ow Hi Hrec) as Hnone.
  destruct ow as [ow|]; cbn [rollback_record]; [destruct p; [|done]|by apply inv_new_rollback].
  destruct Hrec as (_ & How & _ & _ & Hfe). by apply inv_set_overlapped.
Qed.

(** Locking a free key on which the transaction is not rolled back, and not
    committed either unless the lock is pessimistic. *)
Lemma inv_new_lock W l :
  key_inv W None -> l_rollback_ts l = [] -> hint_ok W TimeStamp_max (l_last_change l) ->
  (forall t w, W t = Some w ->
     (w_start_ts w = l_ts l -> Lock_is_pessimistic_lock l = true /\ w_write_type w <> WtRollback)
     /\ (t = l_ts l -> w_has_overlapped_rollback w = false)
     /\ (w_write_type w <> WtRollback -> t <= Z.max (l_ts l) (l_for_update_ts l))) ->
  key_inv W (Some l).
Proof.
  intros [Hs Ho Hv Hl Hn Hm Hh Hrh Hlh] Hr Hhint Hno. split; try done.
  - intros t w Hw Hov. destruct (Hv t w Hw Hov) as [Hv1 _]. split; [done|]. intros ? [= <-] Heq.
    destruct (Hno t w Hw) as (_ & Hst & _). rewrite Hst in Hov; done.
  - intros ? t w [= <-]. by apply Hno.
  - intros ? t w [= <-]. by apply Hno.
  - intros ? ts [= <-]. rewrite Hr. by intros ?%not_elem_of_nil.
  - by intros ? [= <-].
Qed.

Lemma inv_prewrite W l st :
  key_inv W None -> l_ts l = st -> l_rollback_ts l = [] ->
  hint_ok W TimeStamp_max (l_last_change l) ->
  (forall t w, W t = Some w ->
    t <= st /\ (t = st -> w_write_type w <> WtRollback /\ w_has_overlapped_rollback w = false)) ->
  key_inv W (Some l).
Proof.
  intros Hi <- Hr Hhint Hnn. apply inv_new_lock; [done..|]. intros t w Hw.
  pose proof (ki_start _ _ Hi t w Hw) as Hs. destruct (Hnn t w Hw) as [Hle Hst]. split_and!.
  - intros Heq. exfalso. case_decide; [|lia]. destruct Hst; [lia|done].
  - intros Ht. by apply Hst.
  - lia.
Qed.
