(* ===== verification/Protocol.v ===== *)
(** * The transaction protocol on a store

    The abstract effects the actions of a transaction have on one key
    ([effect]), the proof that the actions of [TxnStatus] and [Prewrite] have
    no others, and that the effects preserve the invariant of a key
    ([key_inv]).  The step relation of a store and the theorems about its
    reachable states are in [System] and [SystemSpec]. *)

From Stdlib Require Import ZArith Lia.
From stdpp Require Import base numbers list gmap.
From S2P Require Import Prelude Number Bytes Types Write Lock ConcurrencyManager Engine Reader.
From S2P Require Import AbsState ReaderSpec MvccTxn Prewrite TxnStatus Commands AcquirePessimisticLock KeyInv.

Open Scope Z_scope.

(** A lock whose time to live and minimal commit timestamp moved forward. *)
Definition refreshed (l l' : Lock) : Prop :=
  l_min_commit_ts l <= l_min_commit_ts l'
  /\ exists ttl mc, l' = Lock_set_ttl (Lock_set_min_commit_ts l mc) ttl.

Section Effect.
Context (floor : TimeStamp) (s : Store) (raw : bytes) (st : TimeStamp).
Let key := Key_from_raw raw.
Let W := a_write (abs s) key.
Let L := a_lock (abs s) key.

Definition own (l : Lock) : Prop := L = Some l /\ l_ts l = st.
Definition not_own : Prop := forall l, L = Some l -> l_ts l <> st.

(** A commit timestamp is above the for-update timestamp of the lock: the
    transaction takes it from the oracle after it has locked its keys. *)
Definition above_for_update (c : TimeStamp) : Prop := forall l, own l -> l_for_update_ts l < c.

(** The transaction has not committed on the key. *)
Definition uncommitted : Prop :=
  forall t w, W t = Some w -> w_start_ts w = st -> w_write_type w = WtRollback.

(** A late request may lock a key that its transaction has committed; the
    transaction does not prewrite such a lock. *)
Definition prewrite_fresh : Prop :=
  forall l, own l -> Lock_is_pessimistic_lock l = true -> uncommitted.

(** The lock of a prewrite, and the long value written with it. *)
Record prewritten_lock (l : Lock) (vals : list LModify) : Prop := {
  pw_key : exists pfu, may_prewrite s raw st pfu /\ pfu <= l_for_update_ts l;
  pw_fresh : prewrite_fresh;
  pw_ok : lock_ok l;
  pw_ts : l_ts l = st;
  pw_type : Lock_is_pessimistic_lock l = false;
  pw_marks : l_rollback_ts l = [];
  pw_hint : readable_history s raw -> hint_ok W TimeStamp_max (l_last_change l);
  pw_vals : vals = [] \/ exists v, vals = [LPutValue key st v];
  pw_put : l_lock_type l = LtPut -> l_short_value l = None -> vals <> []
}.

(** [floor] is a timestamp the node has served reads up to: one-phase commit
    takes its timestamp above it. *)
Inductive effect : list LModify -> Prop :=
| eff_none : effect []
| eff_commit l c :
    own l -> Lock_is_pessimistic_lock l = false -> l_min_commit_ts l <= c -> st < c ->
    l_for_update_ts l < c -> u64_ok c -> effect [LPutWrite key c (commit_write l c); LUnlock key]
| eff_unlock l : own l -> effect [LUnlock key]
| eff_refresh l l' : own l -> refreshed l l' -> lock_ok l' -> effect [LPutLock key l']
| eff_rollback_lock l ow cu (p : bool) :
    own l -> commit_record_spec W st (TcrNone ow) -> collapse_spec s raw st cu ->
    effect (delete_value_updates raw l ++ rollback_updates raw st p ow ++ cu ++ [LUnlock key])
| eff_rollback_missing ow cu (p : bool) :
    not_own -> commit_record_spec W st (TcrNone ow) -> collapse_spec s raw st cu ->
    effect (cu ++ rollback_updates raw st p ow)
| eff_rollback_mark ow (p : bool) mk cu :
    not_own -> commit_record_spec W st (TcrNone ow) -> collapse_spec s raw st cu ->
    (mk = [] \/ exists l, L = Some l /\ Z.of_nat (length (l_rollback_ts l)) + 1 < 2 ^ 59
       /\ mk = [LPutLock key (Lock_push_rollback_ts l st)]) ->
    effect (mk ++ rollback_updates raw st p ow ++ cu)
| eff_rollback_unlocked l ow (p : bool) cu :
    own l -> commit_record_spec W st (TcrNone ow) -> collapse_spec s raw st cu ->
    effect ([LUnlock key] ++ rollback_updates raw st p ow ++ cu)
| eff_rollback_stale l ow (p : bool) :
    own l -> commit_record_spec W st (TcrNone ow) ->
    effect (rollback_updates raw st p ow ++ [LUnlock key])
| eff_prewrite l vals : prewritten_lock l vals -> effect (vals ++ [LPutLock key l])
| eff_one_pc l vals c ul :
    prewritten_lock l vals -> floor < c -> st < c -> l_for_update_ts l < c -> u64_ok c ->
    (ul = [LUnlock key] \/ ul = [] /\ L = None) ->
    effect (vals ++ [LPutWrite key c (commit_write l c)] ++ ul)
| eff_acquire p :
    acquired_lock s raw st p -> effect [LPutPessimistic key p].
End Effect.

Lemma prepared_prewritten s raw st props mutation secondary_keys m pfu l vals :
  prepared_for props mutation secondary_keys m -> may_prewrite s raw st pfu -> prewrite_fresh s raw st ->
  prepared_lock s raw st m pfu l vals -> prewritten_lock s raw st (Lock_set_use_one_pc l false) vals.
Proof.
  intros (_ & _ & Hlt & Hval) Hmay Hfresh (lt & Hty & [Hok Hts Hty' Hrb Hfu Hhint] & Hv). rewrite Hlt in Hty.
  rewrite Hval in Hv. split; try (by destruct l).
  - exists pfu. split; [done|]. destruct l. cbn in *. unfold for_update_ts_to_write in Hfu. lia.
  - destruct l; cbn in *; subst. by destruct mutation; cbn in Hty; try discriminate; injection Hty as <-.
  - by eapply stores_value_vals.
  - intros Hput Hs. destruct (stores_value_put raw st _ l vals Hv) as [v ->]; [|by destruct l|done].
    assert (lt = LtPut) as -> by (destruct l; cbn in *; congruence). by destruct mutation.
Qed.

Lemma use_one_pc_same l : l_use_one_pc l = false -> Lock_set_use_one_pc l false = l.
Proof. by destruct l; cbn; intros ->. Qed.

(** ** The actions have these effects only *)

Section ActionEffects.
Context (floor : TimeStamp) (s : Store) (raw : bytes) (st : TimeStamp) (txn : MvccTxn).
Hypothesis (wf : wf_store s) (raw_ok : bytes_ok raw) (st_ok : u64_ok st).
Hypothesis (txn_start : t_start_ts txn = st).
Let key := Key_from_raw raw.
Let W := a_write (abs s) key.
Context (reader : SnapshotReader Store).
Hypothesis (rd : reader_of s st reader).
Hypothesis (starts : starts_before s raw).

(** Locks have room for one more rollback mark. *)
Definition room_to_mark : Prop :=
  forall l, a_lock (abs s) key = Some l -> Z.of_nat (length (l_rollback_ts l)) + 1 < 2 ^ 59.

Lemma own_lock_some l : own_lock s raw st = Some l -> own s raw st l.
Proof.
  unfold own_lock, own. destruct (a_lock (abs s) (Key_from_raw raw)) as [l'|]; [|done].
  destruct (Z.eqb_spec (l_ts l') st); [|done]. by intros [= ->].
Qed.

Lemma own_lock_none : own_lock s raw st = None -> not_own s raw st.
Proof.
  unfold own_lock, not_own. destruct (a_lock (abs s) (Key_from_raw raw)) as [l'|]; [|done].
  destruct (Z.eqb_spec (l_ts l') st); [done|]. by intros _ ? [= ->].
Qed.

Lemma collapse_nil : collapse_spec s raw st [].
Proof. by left. Qed.

Lemma commit_effect c o txn' :
  u64_ok c -> st < c -> above_for_update s raw st c -> commit txn reader key c = Ok (o, txn') ->
  exists ms, txn' = add_updates txn ms [] /\ effect floor s raw st ms.
Proof.
  intros Hc Hlt Hfu. destruct (commit_eq s raw st txn wf raw_ok st_ok txn_start reader rd c) as (rec & _ & E).
  fold key in E. rewrite E.
  assert (commit_missing raw st txn c rec = Ok (o, txn') ->
    exists ms, txn' = add_updates txn ms [] /\ effect floor s raw st ms) as Hmiss.
  { intros Hm. exists []. split; [|constructor]. rewrite add_updates_nil. unfold commit_missing in Hm.
    destruct rec as [?|? w|?]; try done. case_decide; by simplify_eq. }
  destruct (a_lock (abs s) key) as [l|] eqn:Hl; [|done].
  destruct (Z.eqb_spec (l_ts l) st) as [Ht|]; [|done]. unfold commit_own_lock.
  destruct (Z.ltb_spec c (l_min_commit_ts l)); [done|].
  destruct (Lock_is_pessimistic_lock l) eqn:Hp; intros Hm; simplify_eq;
    (eexists; split; [done|]); econstructor; try done; by apply Hfu.
Qed.

Lemma rollback_lock_effect l pessimistic collapse o txn' :
  own s raw st l -> rollback_lock txn reader key l pessimistic collapse = Ok (o, txn') ->
  exists ms, txn' = add_updates txn ms [] /\ effect floor s raw st ms.
Proof.
  intros Hl.
  destruct (rollback_lock_eq s raw st txn wf raw_ok st_ok txn_start reader rd l pessimistic
    collapse starts)
    as (rec & cu & Hrec & Hcu & E). fold key in E. rewrite E.
  unfold rollback_lock_outcome. destruct rec as [ow|c w|c].
  - intros [= _ <-]. eexists. split; [done|]. destruct collapse.
    + by eapply eff_rollback_lock.
    + eapply (eff_rollback_lock floor s raw st l ow []); auto using collapse_nil.
  - case_decide; [|done]. intros [= _ <-]. eexists. split; [done|]. by econstructor.
  - intros [= _ <-]. eexists. split; [done|]. by econstructor.
Qed.

Lemma missing_lock_effect mismatch action resolving o txn' :
  not_own s raw st -> room_to_mark -> (mismatch = None \/ mismatch = a_lock (abs s) key) ->
  check_txn_status_missing_lock txn reader key mismatch action resolving = Ok (o, txn') ->
  exists ms, txn' = add_updates txn ms [] /\ effect floor s raw st ms.
Proof.
  intros Hno Hroom Hmis.
  assert (match mismatch with Some l => l_ts l <> st | None => True end) as Hne.
  { destruct mismatch as [l|]; [|done]. destruct Hmis as [?|?]; [done|]. by apply Hno. }
  destruct (check_txn_status_missing_lock_eq s raw st txn wf raw_ok st_ok txn_start reader rd mismatch
    action resolving starts Hne) as (rec & cu & Hrec & Hcu & E). fold key in E. rewrite E.
  assert (exists ms, txn = add_updates txn ms [] /\ effect floor s raw st ms) as Hnone.
  { exists []. rewrite add_updates_nil. split; [done|constructor]. }
  destruct rec as [ow|c w|c]; cbn [missing_lock_outcome]; [|by intros [= _ <-]..].
  destruct action, resolving; try done; try (by intros [= _ <-]).
  - intros [= _ <-]. eexists. split; [done|]. by apply eff_rollback_missing.
  - intros [= _ <-]. eexists. split; [done|]. destruct mismatch as [l|].
    + destruct Hmis as [?|Hl]; [done|].
      rewrite <-(app_nil_r (rollback_updates raw st true ow)).
      apply eff_rollback_mark; auto using collapse_nil.
      unfold mark_updates. destruct ow; [by left|]. destruct (_ && _)%bool; [right|by left].
      exists l. auto.
    + by apply (eff_rollback_missing floor s raw st ow []); auto using collapse_nil.
Qed.

Lemma cleanup_effect current_ts protect o txn' :
  room_to_mark -> cleanup txn reader key current_ts protect = Ok (o, txn') ->
  exists ms, txn' = add_updates txn ms [] /\ effect floor s raw st ms.
Proof.
  intros Hroom Hc. unfold cleanup in Hc.
  pose proof (reader_load_lock s raw st wf raw_ok reader rd) as Hl. fold key in Hl. rewrite Hl in Hc.
  cbn [mbind res_bind] in Hc. rewrite (reader_start rd) in Hc.
  assert (forall mis, (mis = None \/ mis = a_lock (abs s) key) -> not_own s raw st ->
    ('(status, txn) ← check_txn_status_missing_lock txn reader key mis
                       (MissingLockAction_rollback_protect protect) false;
    match status with
    | Committed commit_ts =>
        raw ← map_err MvCodec (Key_into_raw key);
        Err (MvCommitted st commit_ts raw)
    | RolledBack => Ok (None, txn)
    | LockNotExist => Ok (None, txn)
    | _ => Panic
    end) = Ok (o, txn') -> exists ms, txn' = add_updates txn ms [] /\ effect floor s raw st ms) as Hmiss.
  { intros mis Hmis Hno Hm. apply res_bind_ok in Hm as ([status txn1] & Hm & Hk).
    destruct status; try done; try (by res_inv);
      injection Hk as _ <-; exact (missing_lock_effect _ _ _ _ _ Hno Hroom Hmis Hm). }
  destruct (a_lock (abs s) key) as [l|] eqn:Hlock.
  - destruct (Z.eqb_spec (l_ts l) st) as [Ht|Hne].
    + destruct (_ && _)%bool; [by res_inv|]. by eapply rollback_lock_effect.
    + eapply (Hmiss (Some l)); [by right| |done]. intros l' Hl'. unfold key in Hlock. congruence.
  - eapply (Hmiss None); [by left| |done]. intros l' Hl'. unfold key in Hlock. congruence.
Qed.

Lemma lock_ok_set_min_commit_ts l ts : lock_ok l -> u64_ok ts -> lock_ok (Lock_set_min_commit_ts l ts).
Proof. intros Hl Hts. destruct l, Hl. by split. Qed.

Lemma push_min_commit_ts_effect l current_ts caller o txn' :
  own s raw st l -> u64_ok current_ts -> u64_ok caller ->
  push_min_commit_ts txn key l current_ts caller = Ok (o, txn') ->
  exists ms, txn' = add_updates txn ms [] /\ effect floor s raw st ms.
Proof.
  intros Hl Hcur Hcal. unfold push_min_commit_ts.
  destruct (_ && _ && _)%bool eqn:Hcond; cbn [mbind res_bind].
  - apply andb_prop in Hcond as [_ Hle%Z.leb_le]. unfold TimeStamp_next.
    destruct (Z.ltb_spec caller u64_max); [|done]. cbn [assert_ mbind res_bind].
    rewrite put_lock_old. cbn [mbind res_bind]. intros [= _ <-]. eexists. split; [done|].
    assert (forall ts, l_min_commit_ts (Lock_set_min_commit_ts l ts) = ts
      /\ forall ts', Lock_set_min_commit_ts (Lock_set_min_commit_ts l ts) ts'
         = Lock_set_min_commit_ts l ts') as Hset by by destruct l.
    rewrite (proj1 (Hset (caller + 1))).
    destruct (Z.ltb_spec (caller + 1) current_ts); [rewrite (proj2 (Hset _))|];
      (eapply eff_refresh; [done|split; [rewrite (proj1 (Hset _)); lia|]|]);
      try (apply lock_ok_set_min_commit_ts; [|unfold u64_ok, u64_max in *; lia];
           destruct Hl; by eapply abs_lock_ok);
      eexists (l_ttl l), _; by destruct l.
  - intros [= _ <-]. exists []. rewrite add_updates_nil. split; [done|constructor].
Qed.

Lemma pessimistic_primary_effect l current_ts resolving status rel txn' :
  own s raw st l ->
  check_txn_status_from_pessimistic_primary_lock txn reader key l current_ts resolving
    = Ok (status, rel, txn') ->
  (exists ms, txn' = add_updates txn ms [] /\ effect floor s raw st ms) /\ (status = None -> txn' = txn).
Proof.
  intros Hl Hc. unfold check_txn_status_from_pessimistic_primary_lock in Hc.
  apply res_bind_ok in Hc as ([] & _ & Hc). apply res_bind_ok in Hc as (determined & _ & Hc).
  destruct determined as [det|].
  - rewrite unlock_key_add in Hc. cbn [mbind res_bind] in Hc. injection Hc as <- <- <-. split; [|done].
    eexists. split; [done|]. by econstructor.
  - destruct (lock_expired l current_ts); [destruct resolving|].
    + rewrite unlock_key_add in Hc. cbn [mbind res_bind] in Hc. injection Hc as <- <- <-. split; [|done].
      eexists. split; [done|]. by econstructor.
    + apply res_bind_ok in Hc as ([rel' txn1] & Hr & Hc). injection Hc as <- <- <-. split; [|done].
      by eapply rollback_lock_effect.
    + injection Hc as <- <- <-. split; [|done]. exists []. rewrite add_updates_nil. split; [done|constructor].
Qed.

(** The branch for a pessimistic lock that is not the primary it should be. *)
Lemma stale_primary_effect l rollback_if_not_exist o txn' :
  own s raw st l ->
  ('(txn_status, txn) ← check_txn_status_missing_lock txn reader key None
                               (MissingLockAction_rollback rollback_if_not_exist) false;
   '(released, txn) ← unlock_key txn key true TimeStamp_zero;
   Ok (txn_status, released, txn)) = Ok (o, txn') ->
  exists ms, txn' = add_updates txn ms [] /\ effect floor s raw st ms.
Proof.
  intros Hl.
  destruct (check_txn_status_missing_lock_eq s raw st txn wf raw_ok st_ok txn_start reader rd None
    (MissingLockAction_rollback rollback_if_not_exist) false starts I) as (rec & cu & Hrec & Hcu & E).
  fold key in E. rewrite E.
  assert (exists ms, add_updates txn [LUnlock key] [] = add_updates txn ms [] /\ effect floor s raw st ms) as Hun.
  { eexists. split; [done|]. by econstructor. }
  destruct rec as [ow|c w|c]; cbn [missing_lock_outcome mbind res_bind].
  - destruct rollback_if_not_exist; cbn [MissingLockAction_rollback mbind res_bind]; [|done].
    rewrite unlock_key_add, add_updates_add. cbn [mbind res_bind]. intros [= _ <-].
    eexists. split; [done|]. by eapply eff_rollback_stale.
  - rewrite unlock_key_add. cbn [mbind res_bind]. by intros [= _ <-].
  - rewrite unlock_key_add. cbn [mbind res_bind]. by intros [= _ <-].
Qed.

Lemma lock_exists_effect l current_ts caller force resolving verify rollback_if_not_exist o txn' :
  own s raw st l -> u64_ok current_ts -> u64_ok caller ->
  check_txn_status_lock_exists txn reader key l current_ts caller force resolving verify
    rollback_if_not_exist = Ok (o, txn') ->
  exists ms, txn' = add_updates txn ms [] /\ effect floor s raw st ms.
Proof.
  intros Hl Hcur Hcal. unfold check_txn_status_lock_exists.
  destruct (verify && _)%bool.
  { destruct resolving, (Lock_is_pessimistic_lock l); try (intros Hc; by res_inv).
    by apply (stale_primary_effect l). }
  destruct (_ && _)%bool.
  { intros [= _ <-]. exists []. rewrite add_updates_nil. split; [done|constructor]. }
  destruct (Lock_is_pessimistic_lock l).
  - intros Hc. apply res_bind_ok in Hc as ([[status rel] txn1] & Hp & Hc).
    apply pessimistic_primary_effect in Hp as [Heff Hnone]; [|done].
    destruct status, rel; try done; [by injection Hc as _ <-|].
    rewrite (Hnone eq_refl) in Hc. exact (push_min_commit_ts_effect l current_ts caller o txn' Hl Hcur Hcal Hc).
  - destruct (lock_expired l current_ts).
    + intros Hc. apply res_bind_ok in Hc as ([rel txn1] & Hr & Hc). injection Hc as _ <-.
      by eapply rollback_lock_effect.
    + by apply push_min_commit_ts_effect.
Qed.

Lemma prewrite_effect now tso can_enable stat_next props mutation secondary_keys action expected r txn' :
  Mutation_key mutation = key -> props_ok props -> tp_start_ts props = st ->
  prewrite_mode props action -> secondaries_ok secondary_keys -> prewrite_fresh s raw st ->
  u64_ok (cm_max_ts (t_cm txn)) ->
  prewrite now tso can_enable stat_next txn reader props mutation secondary_keys
    action expected = (r, txn') ->
  t_locks_for_1pc txn' = [] ->
  exists ms, t_modifies txn' = t_modifies txn ++ map encode_lm ms /\ effect floor s raw st ms.
Proof.
  intros Hk Hp Hst Hmode%(prewrite_mode_ok s raw st) Hsec Hfresh Hcm Hpw H1pc.
  apply (prewrite_inv now tso can_enable stat_next s raw st) in Hpw; try done.
  destruct Hpw as [r txn' _ _ Hext|ts ov txn' _ Hext|r txn' _ _ _ Hext|status m l vals r ov txn' _ Hmay _ Hpf Hprep Hout];
    try (exists []; split; [apply Hext|constructor]).
  pose proof (prepared_prewritten _ _ _ _ _ _ _ _ _ _ Hpf Hmay Hfresh Hprep) as Hpl.
  destruct Hout as [txn' _ _ Hpc Hext|ts mc txn' Hpc Hext|ts ks txn' _ _ _ _ _ _ Hpc Hext|ts txn' _ _ _ _ H1 _];
    [..|rewrite H1pc in H1; by destruct (t_locks_for_1pc txn)];
    (exists (vals ++ [LPutLock key l]); split; [apply Hext|]; apply eff_prewrite; by rewrite <-(use_one_pc_same l)).
Qed.

Lemma pessimistic_unlock_effect p o txn' l :
  own s raw st l -> unlock_key txn key p 0 = Ok (o, txn') ->
  exists ms, txn' = add_updates txn ms [] /\ effect floor s raw st ms.
Proof. intros Hl. rewrite unlock_key_add. intros [= _ <-]. eexists. split; [done|]. by econstructor. Qed.

(** The protected rollback [CheckSecondaryLocks] writes. *)
Lemma secondary_rollback_eq txn' ow :
  commit_record_spec W st (TcrNone ow) ->
  exists cu, collapse_spec s raw st cu
  /\ (rollback ← make_rollback st true ow;
      match rollback with
      | Some write =>
          txn ← put_write txn' key st (WriteRef_to_bytes write);
          collapse_prev_rollback txn reader key
      | None => Ok txn'
      end) = Ok (add_updates txn' (rollback_updates raw st true ow ++ cu) []).
Proof.
  intros Hrec. destruct (collapse_eq s raw st wf raw_ok st_ok reader rd) as (cu & Hcu & Hceq).
  exists cu. split; [done|]. rewrite (make_rollback_eq s raw st) by done. cbn [mbind res_bind].
  assert (exists w, rollback_record st true ow = Some w) as [w Hw] by (destruct ow; eauto).
  rewrite Hw, put_write_add. cbn [mbind res_bind]. fold key in Hceq.
  rewrite Hceq, add_updates_add. unfold rollback_updates. by rewrite Hw.
Qed.

Lemma determined_status_none status nr ow :
  secondary_determined_status reader key = Ok (status, nr, ow) ->
  (nr = true -> commit_record_spec W st (TcrNone ow)).
Proof.
  intros Hd ->. unfold secondary_determined_status in Hd.
  destruct (reader_commit_record s raw st wf raw_ok st_ok reader rd) as (rec & Hrec & Hspec).
  fold key in Hrec. rewrite Hrec in Hd. cbn [mbind res_bind] in Hd.
  destruct rec; try done; injection Hd as <- <-; done.
Qed.

(** From a lock of the transaction: nothing, or its release with a rollback
    still to be written when asked for. *)
Lemma check_status_from_lock_inv l status nr ow rel txn' :
  own s raw st l -> check_status_from_lock txn reader l key = Ok (status, nr, ow, rel, txn') ->
  (nr = false /\ exists ms, txn' = add_updates txn ms [] /\ effect floor s raw st ms)
  \/ (nr = true /\ txn' = add_updates txn [LUnlock key] [] /\ commit_record_spec W st (TcrNone ow)).
Proof.
  intros Hl Hc. unfold check_status_from_lock in Hc.
  apply res_bind_ok in Hc as ([[status1 nr1] ow1] & Hdet & Hc).
  assert (effect floor s raw st [LUnlock key]) as Hun by by econstructor.
  destruct nr1; cbn [negb] in Hc.
  - destruct (Lock_is_pessimistic_lock l).
    + rewrite unlock_key_add in Hc. cbn [mbind res_bind] in Hc.
      apply res_bind_ok in Hc as (ow2 & How & Hc). injection Hc as <- <- <- <- <-. right.
      split; [done|]. split; [done|]. destruct (Lock_is_pessimistic_lock_with_conflict l).
      * apply res_bind_ok in Hdet as (? & _ & Hdet). injection How as <-.
        by eapply determined_status_none.
      * destruct (reader_commit_record s raw st wf raw_ok st_ok reader rd) as (rec & Hrec & Hspec).
        fold key in Hrec. rewrite Hrec in How. cbn [mbind res_bind] in How.
        destruct rec; try done. by injection How as <-.
    + injection Hc as <- <- <- <- <-. left. split; [done|]. exists [].
      rewrite add_updates_nil. split; [done|constructor].
  - rewrite unlock_key_add in Hc. cbn [mbind res_bind] in Hc. injection Hc as <- <- <- <- <-.
    left. split; [done|]. eauto.
Qed.

Lemma mark_on_mismatching_inv l txn' :
  a_lock (abs s) key = Some l -> l_ts l <> st -> room_to_mark ->
  mark_rollback_on_mismatching_lock txn key l true = Ok txn' ->
  exists mk, txn' = add_updates txn mk []
    /\ (mk = [] \/ exists l, a_lock (abs s) key = Some l
         /\ Z.of_nat (length (l_rollback_ts l)) + 1 < 2 ^ 59
         /\ mk = [LPutLock key (Lock_push_rollback_ts l st)]).
Proof.
  intros Hl Hne Hroom Hm. exists (mark_updates raw st (Some l) None true). split.
  - pose proof (mark_rollback_eq raw st txn (Some l) None true txn_start Hne) as E.
    cbn [mark_rollback_if_mismatching] in E. fold key in E. rewrite E in Hm. by injection Hm as <-.
  - unfold mark_updates. destruct (_ && _)%bool; [right|by left]. exists l. auto.
Qed.

(** The write the loop body makes when a rollback is needed. *)
Definition secondary_rollback (txn : MvccTxn) (mismatch_lock : option Lock) (ow : option OverlappedWrite)
    : mvcc_res MvccTxn :=
  txn ← match mismatch_lock with
        | Some l => mark_rollback_on_mismatching_lock txn key l true
        | None => Ok txn
        end;
  rollback ← make_rollback st true ow;
  match rollback with
  | Some write =>
      txn ← put_write txn key st (WriteRef_to_bytes write);
      collapse_prev_rollback txn reader key
  | None => Ok txn
  end.

Lemma secondary_rollback_effect mismatch ow txn' :
  not_own s raw st -> room_to_mark -> (mismatch = None \/ mismatch = a_lock (abs s) key) ->
  commit_record_spec W st (TcrNone ow) -> secondary_rollback txn mismatch ow = Ok txn' ->
  exists ms, txn' = add_updates txn ms [] /\ effect floor s raw st ms.
Proof.
  intros Hno Hroom Hmis Hrec Hs. unfold secondary_rollback in Hs.
  apply res_bind_ok in Hs as (txn1 & Hmk & Hs).
  assert (exists mk, txn1 = add_updates txn mk [] /\ (mk = [] \/ exists l, a_lock (abs s) key = Some l
         /\ Z.of_nat (length (l_rollback_ts l)) + 1 < 2 ^ 59
         /\ mk = [LPutLock key (Lock_push_rollback_ts l st)])) as (mk & -> & Hmk').
  { destruct mismatch as [l|].
    - destruct Hmis as [?|Hl]; [done|]. eapply mark_on_mismatching_inv; [done| |done|done]. by apply Hno.
    - injection Hmk as <-. exists []. rewrite add_updates_nil. auto. }
  destruct (secondary_rollback_eq (add_updates txn mk []) ow Hrec) as (cu & Hcu & E).
  rewrite E, add_updates_add in Hs. injection Hs as <-. eexists. split; [done|].
  by apply eff_rollback_mark.
Qed.

Lemma check_secondary_lock_effect status rel txn' :
  room_to_mark -> check_secondary_lock txn reader st key = Ok (status, rel, txn') ->
  exists ms, txn' = add_updates txn ms [] /\ effect floor s raw st ms.
Proof.
  intros Hroom Hc. unfold check_secondary_lock in Hc.
  pose proof (reader_load_lock s raw st wf raw_ok reader rd) as Hl. fold key in Hl. rewrite Hl in Hc.
  cbn [mbind res_bind] in Hc.
  apply res_bind_ok in Hc as ([[[[[status1 nr] ow] rel1] mis] txn1] & Hst1 & Hc).
  apply res_bind_ok in Hc as (txn2 & Hrb & Hc). injection Hc as _ _ <-.
  assert ((exists l, own s raw st l /\ mis = None
      /\ check_status_from_lock txn reader l key = Ok (status1, nr, ow, rel1, txn1))
    \/ (not_own s raw st /\ (mis = None \/ mis = a_lock (abs s) key) /\ txn1 = txn
        /\ secondary_determined_status reader key = Ok (status1, nr, ow)))
    as [(l & Hown & -> & Hcs)|(Hno & Hmis & -> & Hdet)].
  { destruct (a_lock (abs s) key) as [l|] eqn:Hlock; [destruct (Z.eqb_spec (l_ts l) st) as [Ht|Ht]|].
    - left. exists l. apply res_bind_ok in Hst1 as ([[[[? ?] ?] ?] ?] & Hcs & Hst1).
      injection Hst1 as <- <- <- <- <- <-. done.
    - right. apply res_bind_ok in Hst1 as ([[? ?] ?] & Hdet & Hst1).
      injection Hst1 as <- <- <- <- <- <-. split; [|auto]. intros l' Hl'. unfold key in Hlock. congruence.
    - right. apply res_bind_ok in Hst1 as ([[? ?] ?] & Hdet & Hst1).
      injection Hst1 as <- <- <- <- <- <-. split; [|auto]. intros l' Hl'. unfold key in Hlock. congruence. }
  - destruct (check_status_from_lock_inv l status1 nr ow rel1 txn1 Hown Hcs)
      as [(-> & Heff)|(-> & -> & Hrec)]; [by injection Hrb as <-|]. cbn [mbind res_bind] in Hrb.
    destruct (secondary_rollback_eq (add_updates txn [LUnlock key] []) ow Hrec) as (cu & Hcu & E).
    rewrite E, add_updates_add in Hrb. injection Hrb as <-. eexists. split; [done|].
    by eapply eff_rollback_unlocked.
  - destruct nr; [|injection Hrb as <-; exists []; rewrite add_updates_nil; split; [done|constructor]].
    eapply secondary_rollback_effect; [done..| |exact Hrb]. by eapply determined_status_none.
Qed.
End ActionEffects.

(** ** Effects preserve the invariant *)

Section Preservation.
Context (floor : TimeStamp) (s : Store) (raw : bytes) (st : TimeStamp).
Hypothesis (wf : wf_store s) (raw_ok : bytes_ok raw) (st_pos : 0 < st < 2 ^ 64).
Let key := Key_from_raw raw.
Let W := a_write (abs s) key.
Let L := a_lock (abs s) key.
Hypothesis (inv : key_inv W L).

(** The state after a list of updates, seen from the key. *)
Definition W_after (ms : list LModify) : TimeStamp -> option Write := a_write (apply_lms (abs s) ms) key.
Definition L_after (ms : list LModify) : option Lock := a_lock (apply_lms (abs s) ms) key.

Lemma apply_lms_app a ms ms' : apply_lms a (ms ++ ms') = apply_lms (apply_lms a ms) ms'.
Proof. apply foldl_app. Qed.

Lemma W_after_put ms c w t : W_after (ms ++ [LPutWrite key c w]) t = upd (W_after ms) c (Some w) t.
Proof. unfold W_after. rewrite apply_lms_app. cbn. unfold upd2, upd. repeat case_decide; naive_solver. Qed.
Lemma W_after_del ms c t : W_after (ms ++ [LDelWrite key c]) t = upd (W_after ms) c None t.
Proof. unfold W_after. rewrite apply_lms_app. cbn. unfold upd2, upd. repeat case_decide; naive_solver. Qed.
Lemma L_after_put ms l : L_after (ms ++ [LPutLock key l]) = Some l.
Proof. unfold L_after. rewrite apply_lms_app. cbn. unfold upd1. by rewrite decide_True. Qed.
Lemma L_after_unlock ms : L_after (ms ++ [LUnlock key]) = None.
Proof. unfold L_after. rewrite apply_lms_app. cbn. unfold upd1. by rewrite decide_True. Qed.

(** Updates that do not touch the write records, or the lock. *)
Definition keeps_writes (m : LModify) : bool :=
  match m with LPutWrite _ _ _ | LDelWrite _ _ => false | _ => true end.
Definition keeps_lock (m : LModify) : bool :=
  match m with LPutLock _ _ | LPutPessimistic _ _ | LUnlock _ => false | _ => true end.

Lemma W_after_keep ms ms' t : forallb keeps_writes ms' = true -> W_after (ms ++ ms') t = W_after ms t.
Proof.
  unfold W_after. rewrite apply_lms_app. generalize (apply_lms (abs s) ms) as a.
  induction ms' as [|m ms' IH]; intros a; [done|]. intros [Hm Hms]%andb_prop. cbn [apply_lms foldl].
  change (foldl apply_lm (apply_lm a m) ms') with (apply_lms (apply_lm a m) ms').
  rewrite IH by done. by destruct m.
Qed.

Lemma L_after_keep ms ms' : forallb keeps_lock ms' = true -> L_after (ms ++ ms') = L_after ms.
Proof.
  unfold L_after. rewrite apply_lms_app. generalize (apply_lms (abs s) ms) as a.
  induction ms' as [|m ms' IH]; intros a; [done|]. intros [Hm Hms]%andb_prop. cbn [apply_lms foldl].
  change (foldl apply_lm (apply_lm a m) ms') with (apply_lms (apply_lm a m) ms').
  rewrite IH by done. by destruct m.
Qed.

Lemma rollback_updates_keep p ow : forallb keeps_lock (rollback_updates raw st p ow) = true.
Proof. unfold rollback_updates. by destruct (rollback_record st p ow). Qed.

Lemma W_after_rollback ms p ow t :
  W_after (ms ++ rollback_updates raw st p ow) t
  = (match rollback_record st p ow with Some w => upd (W_after ms) st (Some w) | None => W_after ms end) t.
Proof.
  unfold rollback_updates. destruct (rollback_record st p ow); [apply W_after_put|by rewrite app_nil_r].
Qed.

Lemma inv_after_collapse ms cu L' :
  collapse_spec s raw st cu -> (forall t, t <> st -> W_after ms t = W t) ->
  (forall c w, newest W st (Some (c, w)) -> w_write_type w = WtRollback -> c <> st) ->
  key_inv (W_after ms) L' -> key_inv (W_after (ms ++ cu)) L'.
Proof.
  intros [->|(c & w & -> & Hn & Hty & _)] Hms Hne Hi; [by rewrite app_nil_r|].
  eapply (key_inv_ext (upd (W_after ms) c None)); [intros t; symmetry; apply W_after_del|done|].
  apply inv_delete; [done|]. intros w'. rewrite Hms by by eapply Hne.
  destruct Hn as (_ & Hw & _). unfold W, key in *. rewrite Hw. by intros [= <-].
Qed.

Lemma collapse_keep cu : collapse_spec s raw st cu -> forallb keeps_lock cu = true.
Proof. by intros [->|(c & w & -> & _)]. Qed.

Lemma inv_after_rollback ms p ow L' :
  (forall t, W_after ms t = W t) -> commit_record_spec W st (TcrNone ow) ->
  key_inv W L' -> (forall l, L' = Some l -> l_ts l <> st) ->
  key_inv (W_after (ms ++ rollback_updates raw st p ow)) L'.
Proof.
  intros Hms Hrec Hi Hl.
  eapply (key_inv_ext (match rollback_record st p ow with Some w => upd W st (Some w) | None => W end));
    [|done|by apply inv_rollback].
  intros t. rewrite W_after_rollback. destruct (rollback_record st p ow); [|by rewrite Hms].
  unfold upd. by rewrite Hms.
Qed.

Lemma delete_value_keeps l ms t : W_after (ms ++ delete_value_updates raw l) t = W_after ms t.
Proof. apply W_after_keep. unfold delete_value_updates. by destruct (_ && _)%bool. Qed.

Lemma collapse_not_start c w ow :
  commit_record_spec W st (TcrNone ow) -> newest W st (Some (c, w)) -> w_write_type w = WtRollback -> c <> st.
Proof.
  intros Hrec (_ & Hw & _) Hty ->. pose proof (ki_start _ _ inv st w Hw) as Hs.
  rewrite decide_True in Hs by done. by eapply (no_record_none W L st ow inv Hrec).
Qed.

Lemma inv_collapse_rollback cu p ow L' :
  collapse_spec s raw st cu -> commit_record_spec W st (TcrNone ow) ->
  key_inv W L' -> (forall l, L' = Some l -> l_ts l <> st) ->
  key_inv (W_after (cu ++ rollback_updates raw st p ow)) L'.
Proof.
  intros [->|(c & w & -> & Hn & Hty & _)] Hrec Hi Hl; [by apply (inv_after_rollback [])|].
  pose proof (collapse_not_start c w ow Hrec Hn Hty) as Hne.
  eapply (key_inv_ext (upd (W_after ([] ++ rollback_updates raw st p ow)) c None)); [|done|].
  - intros t. rewrite (W_after_rollback [LDelWrite _ c]). pose proof (W_after_rollback [] p ow t) as E.
    pose proof (W_after_del [] c t) as E'. cbn [app] in *. unfold upd in *.
    fold key. destruct (rollback_record st p ow); rewrite ?E, ?E'; repeat case_decide; congruence.
  - apply inv_delete; [by apply inv_after_rollback|]. intros w'. rewrite W_after_rollback.
    destruct Hn as (_ & Hw & _). fold key in Hw. fold W in Hw.
    assert (forall x, upd (W_after []) st x c = Some w' -> w_write_type w' = WtRollback) as Hc.
    { intros x. unfold upd. rewrite decide_False by done. change (W_after [] c) with (W c). congruence. }
    destruct (rollback_record st p ow); [apply Hc|]. change (W_after [] c) with (W c). congruence.
Qed.

Lemma W_after_rollback_ne ms p ow t : t <> st -> W_after (ms ++ rollback_updates raw st p ow) t = W_after ms t.
Proof.
  intros Hne. rewrite W_after_rollback. destruct (rollback_record st p ow); [|done].
  unfold upd. by rewrite decide_False.
Qed.

Lemma inv_rollback_collapse ms p ow cu L' :
  (forall t, W_after ms t = W t) -> commit_record_spec W st (TcrNone ow) -> collapse_spec s raw st cu ->
  key_inv W L' -> (forall l, L' = Some l -> l_ts l <> st) ->
  key_inv (W_after ((ms ++ rollback_updates raw st p ow) ++ cu)) L'.
Proof.
  intros Hms Hrec Hcu Hi Hl. apply inv_after_collapse; [done| | |by apply inv_after_rollback].
  - intros t Hne. by rewrite W_after_rollback_ne.
  - intros c w. by apply (collapse_not_start c w ow).
Qed.

Lemma inv_mark_rollback mk p ow cu :
  not_own s raw st -> commit_record_spec W st (TcrNone ow) -> collapse_spec s raw st cu ->
  (mk = [] \/ exists l, L = Some l /\ Z.of_nat (length (l_rollback_ts l)) + 1 < 2 ^ 59
     /\ mk = [LPutLock key (Lock_push_rollback_ts l st)]) ->
  key_inv (W_after (mk ++ rollback_updates raw st p ow ++ cu))
    (L_after (mk ++ rollback_updates raw st p ow ++ cu)).
Proof.
  intros Hno Hrec Hcu Hmk. rewrite app_assoc.
  rewrite L_after_keep, L_after_keep by eauto using rollback_updates_keep, collapse_keep.
  assert (forall t, W_after mk t = W t) as HW.
  { intros t. apply (W_after_keep []). by destruct Hmk as [->|(l & _ & _ & ->)]. }
  assert (key_inv (W_after ((mk ++ rollback_updates raw st p ow) ++ cu)) L) as Hinv
    by by apply inv_rollback_collapse.
  destruct Hmk as [->|(l & Hl & _ & ->)]; [done|].
  pose proof (L_after_put [] (Lock_push_rollback_ts l st)) as EL. cbn [app] in EL. rewrite EL.
  rewrite Hl in Hinv. apply (inv_relock _ l); [done|by destruct l|by destruct l| | |].
  { intros Hp Hp'. exfalso. destruct l. unfold Lock_is_pessimistic_lock in *. cbn in Hp, Hp'. congruence. }
  { pose proof (ki_lock_hint _ _ Hinv l eq_refl). by destruct l. }
  intros ts Hin. assert (l_rollback_ts (Lock_push_rollback_ts l st) = l_rollback_ts l ++ [st]) as E
    by by destruct l. rewrite E in Hin.
  apply elem_of_app in Hin as [?|Hin]; [by left|right]. apply list_elem_of_singleton in Hin as ->.
  split; [by apply not_eq_sym, Hno|]. intros t w Hw Heq. destruct (decide (t = st)); [done|exfalso].
  assert (W t = Some w) as Hwt.
  { destruct Hcu as [->|(c & ? & -> & _)]; [rewrite app_nil_r in Hw|rewrite W_after_del in Hw; unfold upd in Hw;
      case_decide; [done|]]; by rewrite W_after_rollback_ne, HW in Hw by done. }
  by destruct (no_record_none W L st ow inv Hrec t w).
Qed.

Lemma own_L l : own s raw st l -> L = Some l /\ l_ts l = st.
Proof. done. Qed.

Lemma inv_readable_history : readable_history s raw.
Proof. split; [apply (ki_history _ _ inv)|]. intros l Hl. by apply (ki_lock_hint _ _ inv). Qed.

Lemma inv_after_prewrite l vals : prewritten_lock s raw st l vals -> key_inv W (Some l).
Proof.
  intros [(pfu & Hmay & Hpfu) Hfresh _ Ht _ Hrb Hhint _ _]. specialize (Hhint inv_readable_history). pose proof inv as Hi.
  destruct Hmay as [(Hl & Hnn & _)|(l0 & Hl & Ht0 & Hp0 & ->)];
    fold key L in Hl; rewrite Hl in Hi.
  - by apply (inv_prewrite W l st).
  - apply (inv_relock W l0); [done|congruence|done| |done|rewrite Hrb; by intros ? ?%not_elem_of_nil].
    intros _ _. rewrite Ht0. by apply (Hfresh l0).
Qed.

Lemma inv_after_acquire p : acquired_lock s raw st p -> key_inv W (Some (PessimisticLock_into_lock p)).
Proof.
  intros [Hmay Hst Hok Hhint]. specialize (Hhint inv_readable_history). pose proof inv as Hi.
  destruct Hmay as [(Hl & Hnr & Hle)|(l0 & Hl & Ht0 & Hp0 & Hfu)];
    fold key L in Hl; rewrite Hl in Hi.
  - apply inv_new_lock; [done..|]. cbn [l_ts l_for_update_ts PessimisticLock_into_lock]. intros t w Hw.
    pose proof (ki_start _ _ Hi t w Hw) as Hs. cbn. rewrite Hst. split_and!.
    + intros Heq. split; [done|]. intros Hty. rewrite decide_True in Hs by done.
      assert (t = st) as -> by lia. by destruct (Hnr w Hw) as [[] _].
    + intros ->. by apply (Hnr w Hw).
    + pose proof (Hle t w Hw). lia.
  - apply (inv_relock W l0); [done|cbn; congruence|done|done|done|]. by intros ? ?%not_elem_of_nil.
Qed.

Lemma effect_preserves ms : effect floor s raw st ms -> key_inv (W_after ms) (L_after ms).
Proof.
  intros [ |l c [Hl Ht]%own_L Hp Hmc Hlt Hfu Hc|l [Hl Ht]%own_L|l l' [Hl Ht]%own_L [_ (ttl & mc & ->)] Hok
    |l ow cu p [Hl Ht]%own_L Hrec Hcu|ow cu p Hno Hrec Hcu|ow p mk cu Hno Hrec Hcu Hmk
    |l ow p cu [Hl Ht]%own_L Hrec Hcu|l ow p [Hl Ht]%own_L Hrec
    |l vals Hpl|l vals c ul Hpl _ Hlt Hfu Hc Hul|p Hal].
  - done.
  - pose proof inv as Hi. rewrite Hl in Hi. rewrite <-Ht in Hlt.
    eapply key_inv_ext; [| |apply (inv_commit W l c); try done].
    + intros t. symmetry.
      rewrite (W_after_keep [LPutWrite key c (commit_write l c)] [LUnlock key]) by done.
      apply (W_after_put []).
    + symmetry. apply (L_after_unlock [_]).
    + rewrite Ht. unfold u64_ok. lia.
  - eapply key_inv_ext; [| |by eapply inv_unlock].
    + intros t. symmetry. by apply (W_after_keep [] [LUnlock key]).
    + symmetry. apply (L_after_unlock []).
  - pose proof inv as Hi. rewrite Hl in Hi.
    set (l1 := Lock_set_ttl (Lock_set_min_commit_ts l mc) ttl).
    assert (key_inv W (Some l1)) as Hi1.
    { apply (inv_relock W l l1 Hi); try (by destruct l); [intros Hp Hp'; exfalso; destruct l; unfold Lock_is_pessimistic_lock in *; cbn in Hp, Hp'; congruence| |intros ts Hin; left; by destruct l].
      pose proof (ki_lock_hint _ _ Hi l eq_refl). by destruct l. }
    eapply key_inv_ext; [| |exact Hi1].
    + intros t. symmetry. by apply (W_after_keep [] [LPutLock key l1]).
    + symmetry. apply (L_after_put []).
  - rewrite !app_assoc. rewrite (L_after_unlock _).
    eapply key_inv_ext; [intros t; symmetry; by apply W_after_keep|done|].
    apply inv_rollback_collapse; try done; [|by eapply inv_unlock].
    intros t. apply (delete_value_keeps l []).
  - assert (L_after (cu ++ rollback_updates raw st p ow) = L) as ->.
    { rewrite L_after_keep by apply rollback_updates_keep.
      by apply (L_after_keep []), collapse_keep. }
    apply inv_collapse_rollback; auto.
  - by apply inv_mark_rollback.
  - rewrite app_assoc, L_after_keep, L_after_keep by eauto using rollback_updates_keep, collapse_keep.
    pose proof (L_after_unlock []) as EL. cbn [app] in EL. fold key. rewrite EL.
    apply inv_rollback_collapse; try done. by eapply inv_unlock.
  - rewrite (L_after_unlock _).
    eapply key_inv_ext; [intros t; symmetry; by apply W_after_keep|done|].
    apply (inv_after_rollback []); [done|done|by eapply inv_unlock|done].
  - rewrite (L_after_put _). eapply key_inv_ext; [|done|by eapply inv_after_prewrite].
    intros t. symmetry. rewrite W_after_keep by done.
    apply (W_after_keep []). by destruct (pw_vals _ _ _ _ _ Hpl) as [->|[v ->]].
  - pose proof (inv_after_prewrite l vals Hpl) as Hi. destruct Hpl as [_ _ _ Ht Hp _ _ Hv _].
    eapply key_inv_ext; [| |apply (inv_commit W l c Hi Hp)]; try (rewrite Ht); try done; [..|unfold u64_ok; lia].
    + intros t. symmetry. rewrite app_assoc, W_after_keep by (by destruct Hul as [->|[-> _]]).
      rewrite W_after_put. unfold upd. case_decide; [done|]. apply (W_after_keep []). by destruct Hv as [->|[v ->]].
    + symmetry. rewrite app_assoc. destruct Hul as [->|[-> HL]]; [apply L_after_unlock|].
      rewrite app_nil_r, <-HL, L_after_keep by done. apply (L_after_keep []). by destruct Hv as [->|[v ->]].
  - eapply key_inv_ext; [| |by apply inv_after_acquire].
    + intros t. symmetry. by apply (W_after_keep [] [LPutPessimistic key p]).
    + unfold L_after. cbn. unfold upd1. by rewrite decide_True.
Qed.
End Preservation.

(** ** Effects are well formed, stay on their key and keep committed data *)

Definition lm_key (m : LModify) : Key :=
  match m with
  | LPutWrite k _ _ | LDelWrite k _ | LPutLock k _ | LPutPessimistic k _ | LUnlock k
  | LPutValue k _ _ | LDelValue k _ => k
  end.

Lemma apply_lms_other ms : forall a k,
  Forall (fun m => lm_key m <> k) ms ->
  (forall t, a_write (apply_lms a ms) k t = a_write a k t)
  /\ a_lock (apply_lms a ms) k = a_lock a k
  /\ (forall t, a_value (apply_lms a ms) k t = a_value a k t).
Proof.
  induction ms as [|m ms IH]; intros a k Hms; [done|]. apply Forall_cons_1 in Hms as [Hm Hms].
  destruct (IH (apply_lm a m) k Hms) as (Hw & Hl & Hv). cbn [apply_lms foldl].
  assert ((forall t, a_write (apply_lm a m) k t = a_write a k t) /\ a_lock (apply_lm a m) k = a_lock a k
    /\ (forall t, a_value (apply_lm a m) k t = a_value a k t)) as (Hw1 & Hl1 & Hv1).
  { destruct m; cbn in Hm |- *; unfold upd1, upd2; split_and!; intros; try case_decide; naive_solver. }
  split_and!; intros; etrans; eauto.
Qed.

(** Updates of a key depend on the state of that key only. *)
Lemma apply_lms_local ms : forall a b k,
  (forall t, a_write a k t = a_write b k t) -> a_lock a k = a_lock b k ->
  (forall t, a_value a k t = a_value b k t) ->
  (forall t, a_write (apply_lms a ms) k t = a_write (apply_lms b ms) k t)
  /\ a_lock (apply_lms a ms) k = a_lock (apply_lms b ms) k
  /\ (forall t, a_value (apply_lms a ms) k t = a_value (apply_lms b ms) k t).
Proof.
  induction ms as [|m ms IH]; intros a b k Hw Hl Hv; [done|]. cbn [apply_lms foldl].
  apply IH; destruct m; cbn; unfold upd1, upd2; intros; try case_decide; auto.
Qed.

Section EffectFacts.
Context (floor : TimeStamp) (s : Store) (raw : bytes) (st : TimeStamp).
Hypothesis (wf : wf_store s) (raw_ok : bytes_ok raw) (st_pos : 0 < st < 2 ^ 64).
Let key := Key_from_raw raw.
Let W := a_write (abs s) key.
Let L := a_lock (abs s) key.

Lemma rollback_updates_ok p ow :
  commit_record_spec W st (TcrNone ow) -> Forall lm_ok (rollback_updates raw st p ow).
Proof.
  intros Hrec. unfold rollback_updates. destruct (rollback_record st p ow) as [w|] eqn:Hw; [|constructor].
  apply Forall_singleton. split; [by exists raw|]. split; [unfold u64_ok; lia|].
  destruct ow as [ow|]; cbn in Hw.
  - destruct p; [|done]. injection Hw as <-. destruct Hrec as (_ & How & _ & _ & Hfe).
    destruct (abs_write_ok s raw st _ wf raw_ok How) as [_ [? ? ? ? ?]].
    split; cbn; try done. destruct Hfe as [[-> _]|(_ & (wf' & Hwf' & _) & _)]; [unfold u64_ok; lia|].
    by apply (abs_write_ok s raw _ wf' wf raw_ok).
  - injection Hw as <-. apply write_new_rollback_ok. unfold u64_ok. lia.
Qed.

Lemma collapse_ok cu : collapse_spec s raw st cu -> Forall lm_ok cu.
Proof.
  intros [->|(c & w & -> & (_ & Hw & _) & _)]; [constructor|]. apply Forall_singleton.
  split; [by exists raw|]. by apply (abs_write_ok s raw c w wf raw_ok).
Qed.

Lemma lock_ok_push_rollback l :
  lock_ok l -> Z.of_nat (length (l_rollback_ts l)) + 1 < 2 ^ 59 -> lock_ok (Lock_push_rollback_ts l st).
Proof.
  intros Hl Hlen. destruct l, Hl. cbn in *. split; cbn; try done.
  - apply Forall_app. split; [done|]. apply Forall_singleton. unfold u64_ok. lia.
  - rewrite length_app. cbn. lia.
Qed.

Lemma effect_lm_ok ms : effect floor s raw st ms -> Forall lm_ok ms.
Proof.
  assert (key_ok key) as Hk by by exists raw.
  assert (u64_ok st) as Hst by (unfold u64_ok; lia).
  assert (forall l, L = Some l -> lock_ok l) as HL by (intros l; by apply abs_lock_ok).
  intros [ |l c [Hl Ht] Hp Hmc Hlt Hfu Hc|l Hl|l l' Hl _ Hok|l ow cu p [Hl Ht] Hrec Hcu|ow cu p _ Hrec Hcu
    |ow p mk cu _ Hrec Hcu Hmk|l ow p cu _ Hrec Hcu|l ow p _ Hrec|l vals [_ _ Hok _ _ _ _ Hv _]
    |l vals c ul [_ _ Hok _ _ _ _ Hv _] _ _ _ Hc Hul|p [_ _ Hok _]];
    rewrite ?Forall_app; split_and?; eauto using rollback_updates_ok, collapse_ok;
    try (by repeat (apply Forall_nil_2 || (apply Forall_cons; split))).
  - repeat (apply Forall_nil_2 || (apply Forall_cons; split)); try done. split_and!; try done. apply commit_write_ok. by apply HL.
  - unfold delete_value_updates. destruct (_ && _)%bool; [|constructor]. apply Forall_singleton.
    split; [done|]. apply (lock_ok_ts l). by apply HL.
  - destruct Hmk as [->|(l & Hl & Hlen & ->)]; [constructor|]. apply Forall_singleton. split; [done|].
    apply lock_ok_push_rollback; [by apply HL|done].
  - destruct Hv as [->|[v ->]]; [constructor|]. by apply Forall_singleton.
  - destruct Hv as [->|[v ->]]; [constructor|]. by apply Forall_singleton.
  - apply Forall_singleton. split_and!; [done..|]. by apply commit_write_ok.
  - destruct Hul as [->|[-> _]]; [|constructor]. by apply Forall_singleton.
Qed.

Lemma effect_touches ms : effect floor s raw st ms -> Forall (fun m => lm_key m = key) ms.
Proof.
  assert (forall p ow, Forall (fun m => lm_key m = key) (rollback_updates raw st p ow)) as Hrb.
  { intros p ow. unfold rollback_updates. destruct (rollback_record st p ow); by repeat constructor. }
  assert (forall cu, collapse_spec s raw st cu -> Forall (fun m => lm_key m = key) cu) as Hcu'.
  { intros cu [->|(c & w & -> & _)]; by repeat constructor. }
  intros [ |l c _ _ _ _ _ _|l _|l l' _ _ _|l ow cu p _ _ Hcu|ow cu p _ _ Hcu
    |ow p mk cu _ _ Hcu Hmk|l ow p cu _ _ Hcu|l ow p _ _|l vals Hpl|l vals c ul Hpl _ _ _ _ Hul|p _];
    rewrite ?Forall_app; split_and?; auto; try (by repeat constructor);
    try (destruct (pw_vals _ _ _ _ _ Hpl) as [->|[v ->]]; by repeat constructor).
  - unfold delete_value_updates. destruct (_ && _)%bool; by repeat constructor.
  - destruct Hmk as [->|(l & _ & _ & ->)]; by repeat constructor.
  - destruct Hul as [->|[-> _]]; by repeat constructor.
Qed.

(** *** Durability *)

(** The same commit, up to the mark of another transaction's rollback. *)
Definition same_commit (w w' : Write) : Prop :=
  w_write_type w' = w_write_type w /\ w_start_ts w' = w_start_ts w
  /\ w_short_value w' = w_short_value w /\ w_last_change w' = w_last_change w
  /\ w_txn_source w' = w_txn_source w.

(** An update that keeps the commit record at [c] and the value at [v]. *)
Definition keeps_commit (c v : TimeStamp) (w : Write) (m : LModify) : Prop :=
  match m with
  | LPutWrite _ t w' => t = c -> same_commit w w'
  | LDelWrite _ t => t <> c
  | LPutValue _ t _ | LDelValue _ t => t <> v
  | _ => True
  end.

Lemma same_commit_refl w : same_commit w w.
Proof. done. Qed.

Lemma keeps_commit_durable c v w ms : forall a w0,
  Forall (keeps_commit c v w) ms -> a_write a key c = Some w0 -> same_commit w w0 ->
  (exists w', a_write (apply_lms a ms) key c = Some w' /\ same_commit w w')
  /\ a_value (apply_lms a ms) key v = a_value a key v.
Proof.
  induction ms as [|m ms IH]; intros a w0 Hms Hw Hsame; [eauto|].
  apply Forall_cons_1 in Hms as [Hm Hms]. cbn [apply_lms foldl].
  assert (exists w1, a_write (apply_lm a m) key c = Some w1 /\ same_commit w w1) as (w1 & Hw1 & Hs1).
  { destruct m; cbn in *; eauto; unfold upd2; case_decide; naive_solver. }
  assert (a_value (apply_lm a m) key v = a_value a key v) as Hv.
  { destruct m; cbn in *; eauto; unfold upd2; case_decide; naive_solver. }
  destruct (IH (apply_lm a m) w1 Hms Hw1 Hs1) as [? Hv']. split; [done|].
  etrans; [exact Hv'|done].
Qed.

Hypothesis (inv : key_inv W L).

Lemma effect_keeps_commit ms c w :
  effect floor s raw st ms -> W c = Some w -> w_write_type w <> WtRollback ->
  Forall (keeps_commit c (w_start_ts w) w) ms.
Proof.
  intros Heff Hw Hty.
  assert (forall p ow, commit_record_spec W st (TcrNone ow) ->
    Forall (keeps_commit c (w_start_ts w) w) (rollback_updates raw st p ow)) as Hrb.
  { intros p ow Hrec. unfold rollback_updates. destruct (rollback_record st p ow) as [w'|] eqn:Hw'; [|constructor].
    apply Forall_singleton. cbn. intros <-. destruct ow as [ow|]; cbn in *.
    - destruct p; [|done]. injection Hw' as <-. destruct Hrec as (_ & How & _). by simplify_eq.
    - destruct (Hrec st w); done || lia. }
  assert (forall cu, collapse_spec s raw st cu -> Forall (keeps_commit c (w_start_ts w) w) cu) as Hcu'.
  { intros cu [->|(c' & w' & -> & (_ & Hw' & _) & Hr & _)]; [constructor|]. apply Forall_singleton.
    cbn. intros ->. unfold W, key in Hw. congruence. }
  assert (forall l vals, prewritten_lock s raw st l vals -> Forall (keeps_commit c (w_start_ts w) w) vals) as Hnew.
  { intros l vals [(pfu & Hmay & _) Hfresh _ _ _ _ _ Hv _].
    destruct Hv as [->|[v ->]]; [constructor|]. apply Forall_singleton. cbn. intros E.
    destruct Hmay as [(_ & Hnn & _)|(l0 & Hl & Ht & Hp0 & _)]; [|by apply Hty, (Hfresh l0 (conj Hl Ht) Hp0 c w)].
    pose proof (ki_start _ _ inv c w Hw) as Hs. rewrite decide_False in Hs by done.
    destruct (Hnn c w Hw). lia. }
  destruct Heff as [ |l c' [Hl Ht] Hp Hmc Hlt Hfu Hc|l Hl|l l' Hl _ Hok|l ow cu p [Hl Ht] Hrec Hcu
    |ow cu p _ Hrec Hcu|ow p mk cu _ Hrec Hcu Hmk|l ow p cu _ Hrec Hcu|l ow p _ Hrec
    |l vals Hpl|l vals c' ul Hpl _ Hlt Hfu _ Hul|p _];
    rewrite ?Forall_app; split_and?; auto; try (by repeat constructor).
  - repeat (apply Forall_nil_2 || (apply Forall_cons; split)); [|done]. cbn. intros ->.
    pose proof (ki_newest _ _ inv l c w Hl Hw Hty). lia.
  - unfold delete_value_updates. destruct (_ && _)%bool; [|constructor]. apply Forall_singleton. cbn.
    intros E. apply (no_record_none W L st ow inv Hrec c w Hw). congruence.
  - destruct Hmk as [->|(l & _ & _ & ->)]; by repeat constructor.
  - by eapply Hnew.
  - by eapply Hnew.
  - apply Forall_singleton. cbn. intros ->. destruct Hpl as [(pfu & Hmay & Hpfu) _ _ _ _ _ _ _ _].
    destruct Hmay as [(_ & Hnn & _)|(l0 & Hl & Ht & _ & ->)].
    + destruct (Hnn c w Hw). lia.
    + pose proof (ki_newest _ _ inv l0 c w Hl Hw Hty). lia.
  - destruct Hul as [->|[-> _]]; by repeat constructor.
Qed.
End EffectFacts.
