(* ===== verification/Values.v ===== *)
(** * Long values

    The value of a put that is too long for its record lies in the default
    column family under the start timestamp.  Every effect of [Protocol] keeps
    the values that the records and the lock of the key refer to. *)

From Stdlib Require Import ZArith Lia.
From stdpp Require Import base numbers list gmap.
From S2P Require Import Prelude Number Bytes Types Write Lock ConcurrencyManager Engine Reader.
From S2P Require Import AbsState ReaderSpec MvccTxn Prewrite TxnStatus Commands AcquirePessimisticLock KeyInv Protocol.

Open Scope Z_scope.

Definition values_ok (a : Abs) (k : Key) : Prop :=
  (forall t w, a_write a k t = Some w -> w_write_type w = WtPut -> w_short_value w = None ->
     is_Some (a_value a k (w_start_ts w)))
  /\ (forall l, a_lock a k = Some l -> l_lock_type l = LtPut -> l_short_value l = None ->
        is_Some (a_value a k (l_ts l))).

Section Values.
Context (floor : TimeStamp) (s : Store) (raw : bytes) (st : TimeStamp).
Hypothesis (st_pos : 0 < st < 2 ^ 64).
Let key := Key_from_raw raw.
Let a := abs s.
Hypothesis (inv : key_inv (a_write a key) (a_lock a key)) (vals_ok : values_ok a key).

(** Updates that add no commit record: every one that is there afterwards was
    there before. *)
Definition no_new_commit (m : LModify) : Prop :=
  match m with
  | LPutWrite k t w => w_write_type w <> WtRollback -> exists w0, a_write a key t = Some w0 /\ same_commit w0 w
  | _ => True
  end.

Lemma same_commit_trans w1 w2 w3 : same_commit w1 w2 -> same_commit w2 w3 -> same_commit w1 w3.
Proof. intros (? & ? & ? & ? & ?) (? & ? & ? & ? & ?). split_and!; congruence. Qed.

Lemma commit_origin ms : forall b,
  Forall no_new_commit ms ->
  (forall t w, a_write b key t = Some w -> w_write_type w <> WtRollback ->
     exists w0, a_write a key t = Some w0 /\ same_commit w0 w) ->
  forall t w, a_write (apply_lms b ms) key t = Some w -> w_write_type w <> WtRollback ->
     exists w0, a_write a key t = Some w0 /\ same_commit w0 w.
Proof.
  induction ms as [|m ms IH]; intros b Hms Hb; [done|]. apply Forall_cons_1 in Hms as [Hm Hms].
  cbn [apply_lms foldl]. apply IH; [done|]. intros t w.
  destruct m; cbn in *; try apply Hb; unfold upd2; case_decide as E; try apply Hb; [|done].
  destruct E as [_ ->]. intros [= <-]. by apply Hm.
Qed.

Lemma values_puts ms :
  Forall no_new_commit ms ->
  (forall c w, a_write a key c = Some w -> w_write_type w <> WtRollback ->
     Forall (keeps_commit c (w_start_ts w) w) ms) ->
  forall t w, a_write (apply_lms a ms) key t = Some w -> w_write_type w = WtPut -> w_short_value w = None ->
    is_Some (a_value (apply_lms a ms) key (w_start_ts w)).
Proof.
  intros Hms Hk t w Hw Hty Hsv.
  destruct (commit_origin ms a Hms) with (t := t) (w := w) as (w0 & Hw0 & Hsame);
    [|done|by rewrite Hty|].
  { intros ? w0 ? ?. by exists w0. }
  destruct Hsame as (Hty0 & Hst0 & Hsv0 & _).
  destruct (keeps_commit_durable s raw st st_pos t (w_start_ts w0) w0 ms a w0) as [_ Hv];
    [by apply Hk; [|congruence]|done|done|].
  rewrite Hst0. fold key in Hv. rewrite Hv. apply (proj1 vals_ok t w0); congruence.
Qed.

Lemma rollback_no_new_commit p ow :
  commit_record_spec (a_write a key) st (TcrNone ow) -> Forall no_new_commit (rollback_updates raw st p ow).
Proof.
  intros Hrec. unfold rollback_updates. destruct (rollback_record st p ow) as [w|] eqn:Hw; [|constructor].
  apply Forall_singleton. cbn. destruct ow as [ow|]; cbn [rollback_record] in Hw.
  - destruct p; [|done]. injection Hw as <-. destruct Hrec as (_ & How & _). by exists (ow_write ow).
  - by injection Hw as <-.
Qed.

Lemma collapse_no_new_commit cu : collapse_spec s raw st cu -> Forall no_new_commit cu.
Proof. intros [->|(c & w & -> & _)]; by repeat constructor. Qed.

(** Updates that leave the lock and the values alone. *)
Definition only_writes (m : LModify) : bool :=
  match m with LPutWrite _ _ _ | LDelWrite _ _ => true | _ => false end.

Lemma only_writes_keep ms : forall b,
  forallb only_writes ms = true ->
  a_lock (apply_lms b ms) key = a_lock b key /\ forall t, a_value (apply_lms b ms) key t = a_value b key t.
Proof.
  induction ms as [|m ms IH]; intros b Hms; [done|]. apply andb_prop in Hms as [Hm Hms].
  cbn [apply_lms foldl]. destruct (IH (apply_lm b m) Hms) as [Hl Hv].
  destruct m; done.
Qed.

Lemma rollback_only_writes p ow : forallb only_writes (rollback_updates raw st p ow) = true.
Proof. unfold rollback_updates. by destruct (rollback_record st p ow). Qed.

Lemma collapse_only_writes cu : collapse_spec s raw st cu -> forallb only_writes cu = true.
Proof. by intros [->|(c & w & -> & _)]. Qed.

(** The lock and the values after updates to the write records. *)
Lemma values_after ms ms' :
  Forall no_new_commit (ms ++ ms') ->
  (forall c w, a_write a key c = Some w -> w_write_type w <> WtRollback ->
     Forall (keeps_commit c (w_start_ts w) w) (ms ++ ms')) ->
  forallb only_writes ms' = true ->
  (forall l, a_lock (apply_lms a ms) key = Some l -> l_lock_type l = LtPut -> l_short_value l = None ->
     is_Some (a_value (apply_lms a ms) key (l_ts l))) ->
  values_ok (apply_lms a (ms ++ ms')) key.
Proof.
  intros Hnp Hk Hw Hl. split; [by apply values_puts|]. rewrite apply_lms_app.
  destruct (only_writes_keep ms' (apply_lms a ms) Hw) as [-> Hv]. intros l. rewrite Hv. apply Hl.
Qed.

Lemma commit_write_long l c :
  w_write_type (commit_write l c) = WtPut -> w_short_value (commit_write l c) = None ->
  l_lock_type l = LtPut /\ l_short_value l = None.
Proof. unfold commit_write. intros Hty Hsv. destruct (existsb _ _); cbn in Hty, Hsv; by destruct (l_lock_type l). Qed.

Lemma prewritten_value l vals :
  prewritten_lock s raw st l vals -> l_lock_type l = LtPut -> l_short_value l = None ->
  is_Some (a_value (apply_lms a vals) key (l_ts l)).
Proof.
  intros [_ _ _ Ht _ _ _ Hv Hput] Hty Hsv. specialize (Hput Hty Hsv). destruct Hv as [->|[v ->]]; [done|].
  cbn. unfold upd2. rewrite decide_True by done. by exists v.
Qed.

Lemma effect_values ms : effect floor s raw st ms -> values_ok (apply_lms a ms) key.
Proof.
  intros Heff. pose proof (fun c w => effect_keeps_commit floor s raw st inv ms c w Heff) as Hk.
  assert (forall p ow cu, collapse_spec s raw st cu ->
    forallb only_writes (rollback_updates raw st p ow ++ cu) = true) as Hrc.
  { intros p ow cu Hcu. rewrite forallb_app, rollback_only_writes. by apply collapse_only_writes. }
  destruct Heff as [ |l c [Hl Ht] Hp Hmc Hlt Hfu Hc|l Hl|l l' [Hl Ht] [_ (ttl & mc & ->)] Hok
    |l ow cu p [Hl Ht] Hrec Hcu|ow cu p _ Hrec Hcu|ow p mk cu _ Hrec Hcu Hmk|l ow p cu _ Hrec Hcu|l ow p _ Hrec
    |l vals Hpl|l vals c ul Hpl _ _ _ _ Hul|p _].
  - done.
  - split; [|cbn; unfold upd1; by rewrite decide_True by done].
    intros t w. cbn. unfold upd2. case_decide as E; [|apply vals_ok]. intros [= <-] Hty Hsv.
    destruct (commit_write_long l c Hty Hsv) as [Hty' Hsv']. destruct vals_ok as [_ Hlv].
    rewrite commit_write_start. by apply Hlv.
  - split; [apply vals_ok|]. cbn. unfold upd1. by rewrite decide_True by done.
  - split; [apply vals_ok|]. cbn. unfold upd1. rewrite decide_True by done.
    intros l0 [= <-]. destruct vals_ok as [_ Hlv]. specialize (Hlv l Hl). by destruct l.
  - split.
    + apply values_puts; [|done]. rewrite !Forall_app. split_and!.
      * unfold delete_value_updates. destruct (_ && _)%bool; by repeat constructor.
      * by apply rollback_no_new_commit.
      * by apply collapse_no_new_commit.
      * by repeat constructor.
    + rewrite !app_assoc, apply_lms_app. cbn. unfold upd1. by rewrite decide_True by done.
  - apply (values_after []); cbn [app]; [| done | |apply vals_ok].
    + apply Forall_app. split; [by apply collapse_no_new_commit|by apply rollback_no_new_commit].
    + rewrite forallb_app, rollback_only_writes. by rewrite collapse_only_writes.
  - apply values_after; [|done|by apply Hrc|].
    + rewrite !Forall_app. split_and!; [|by apply rollback_no_new_commit|by apply collapse_no_new_commit].
      destruct Hmk as [->|(l & _ & _ & ->)]; by repeat constructor.
    + destruct Hmk as [->|(l & Hl & _ & ->)]; [apply vals_ok|]. cbn. unfold upd1.
      rewrite decide_True by done. intros l0 [= <-]. destruct vals_ok as [_ Hlv].
      specialize (Hlv l Hl). by destruct l.
  - apply values_after; [|done|by apply Hrc|].
    + rewrite !Forall_app. split_and!; [by repeat constructor|by apply rollback_no_new_commit|by apply collapse_no_new_commit].
    + cbn. unfold upd1. by rewrite decide_True by done.
  - split.
    + apply values_puts; [|done]. rewrite Forall_app. split; [by apply rollback_no_new_commit|by repeat constructor].
    + rewrite apply_lms_app. cbn. unfold upd1. by rewrite decide_True by done.
  - split.
    + apply values_puts; [|done]. destruct (pw_vals _ _ _ _ _ Hpl) as [->|[v ->]]; by repeat constructor.
    + rewrite apply_lms_app. cbn. unfold upd1. rewrite decide_True by done.
      intros l0 [= <-]. by apply prewritten_value.
  - rewrite app_assoc, apply_lms_app, apply_lms_app. set (b := apply_lms a vals).
    assert (values_ok b key) as [Hb _].
    { split; [apply values_puts|]; destruct (pw_vals _ _ _ _ _ Hpl) as [->|[v ->]]; try (by repeat constructor).
      - intros c0 w0 Hw0 Hty0. specialize (Hk c0 w0 Hw0 Hty0). by apply Forall_app in Hk as [Hk _].
      - apply vals_ok.
      - intros l0 Hl0 Hty Hsv. destruct (proj2 vals_ok l0 Hl0 Hty Hsv) as [v0 Hv0].
        cbn. unfold upd2. case_decide; eauto. }
    split.
    + intros t w Hw Hty Hsv.
      assert (is_Some (a_value b key (w_start_ts w))) as Hval; [|by destruct Hul as [->|[-> _]]].
      assert (a_write (apply_lms b [LPutWrite key c (commit_write l c)]) key t = Some w) as Hw'
        by (destruct Hul as [->|[-> _]]; exact Hw).
      revert Hw'. cbn. unfold upd2. case_decide as E; [|intros Hw'; by apply (Hb t w)]. intros [= <-].
      destruct (commit_write_long l c Hty Hsv). rewrite commit_write_start. by apply prewritten_value.
    + destruct Hul as [->|[-> HL]]; [cbn; unfold upd1; by rewrite decide_True by done|]. intros l0 Hl0.
      assert (a_lock b key = None) as Hb0 by (unfold b; by destruct (pw_vals _ _ _ _ _ Hpl) as [->|[v ->]]).
      change (a_lock b key = Some l0) in Hl0. congruence.
  - split; [apply vals_ok|]. cbn. unfold upd1. rewrite decide_True by done. by intros l [= <-].
Qed.

(** A commit record that an effect adds is the commit of the key's lock, or of a
    lock that is committed in one phase, above the reads of the node. *)
Lemma effect_commits ms t w :
  effect floor s raw st ms -> a_write (apply_lms a ms) key t = Some w -> w_write_type w <> WtRollback ->
  (exists w0, a_write a key t = Some w0 /\ same_commit w0 w)
  \/ (exists l, own s raw st l /\ w = commit_write l t /\ l_min_commit_ts l <= t /\ st < t)
  \/ (floor < t /\ exists l vals, prewritten_lock s raw st l vals /\ w = commit_write l t).
Proof.
  assert (forall ms, Forall no_new_commit ms -> a_write (apply_lms a ms) key t = Some w ->
    w_write_type w <> WtRollback -> exists w0, a_write a key t = Some w0 /\ same_commit w0 w) as Hold.
  { intros ms' Hms. apply (commit_origin ms' a Hms). intros ? w0 ? ?. by exists w0. }
  intros Heff. destruct Heff as [ |l c [Hl Ht] Hp Hmc Hlt Hfu Hc|l Hl|l l' _ _ _
    |l ow cu p _ Hrec Hcu|ow cu p _ Hrec Hcu|ow p mk cu _ Hrec Hcu Hmk|l ow p cu _ Hrec Hcu|l ow p _ Hrec
    |l vals Hpl|l vals c ul Hpl Hfl _ _ _ Hul|p _]; intros Hw Hch;
    try (left; apply (Hold _) in Hw; [exact Hw| |done]; rewrite ?Forall_app; split_and?;
         eauto using rollback_no_new_commit, collapse_no_new_commit; by repeat constructor).
  - revert Hw. cbn. unfold upd2. case_decide as E; [|intros Hw; left; by exists w].
    destruct E as [_ ->]. intros [= <-]. right. left. by exists l.
  - left. apply (Hold _) in Hw; [exact Hw| |done]. rewrite ?Forall_app.
    split_and!; eauto using rollback_no_new_commit, collapse_no_new_commit; [|by repeat constructor].
    unfold delete_value_updates. destruct (_ && _)%bool; by repeat constructor.
  - left. apply (Hold _) in Hw; [exact Hw| |done]. rewrite ?Forall_app.
    split_and!; eauto using rollback_no_new_commit, collapse_no_new_commit.
    destruct Hmk as [->|(l & _ & _ & ->)]; by repeat constructor.
  - left. apply (Hold _) in Hw; [exact Hw| |done].
    destruct (pw_vals _ _ _ _ _ Hpl) as [->|[v ->]]; by repeat constructor.
  - assert (a_write (apply_lms (apply_lms a vals) [LPutWrite key c (commit_write l c)]) key t = Some w) as Hw'
      by (rewrite !apply_lms_app in Hw; destruct Hul as [->|[-> _]]; exact Hw).
    revert Hw'. cbn. unfold upd2. case_decide as E.
    + destruct E as [_ ->]. intros [= <-]. right. right. eauto.
    + intros Hw'. left. apply (Hold vals) in Hw'; [done| |done].
      destruct (pw_vals _ _ _ _ _ Hpl) as [->|[v ->]]; by repeat constructor.
Qed.
End Values.

(** ** What a snapshot shows *)

(** The newest put at or below a timestamp, as a value. *)
Definition snapshot_value (a : Abs) (k : Key) (o : option (TimeStamp * Write)) : option bytes :=
  '(w, _) ← visible o; match w_short_value w with Some v => Some v | None => a_value a k (w_start_ts w) end.

Lemma same_commit_change w w' : same_commit w w' -> is_change w' = is_change w.
Proof. intros (Hty & _). unfold is_change. by rewrite Hty. Qed.

(** States with the same changes up to [ts] show the same at [ts]. *)
Lemma snapshot_value_same a b k ts o o' :
  (forall t w, t <= ts -> a_write a k t = Some w -> is_change w = true ->
     (exists w', a_write b k t = Some w' /\ same_commit w w')
     /\ a_value b k (w_start_ts w) = a_value a k (w_start_ts w)) ->
  (forall t w, t <= ts -> a_write b k t = Some w -> is_change w = true ->
     exists w0, a_write a k t = Some w0 /\ is_change w0 = true) ->
  newest_change (a_write a k) ts o -> newest_change (a_write b k) ts o' ->
  snapshot_value b k o' = snapshot_value a k o.
Proof.
  intros Hab Hba Ho Ho'. destruct o as [[c w]|].
  - destruct Ho as (Hc & Hw & Hch & Hno). destruct (Hab c w Hc Hw Hch) as [(w1 & Hw1 & Hs1) Hv1].
    assert (newest_change (a_write b k) ts (Some (c, w1))) as Ho1.
    { split_and!; [done|done|by rewrite (same_commit_change w w1)|]. intros t w' Ht Hw'.
      destruct (is_change w') eqn:E; [|done]. destruct (Hba t w' (proj2 Ht) Hw' E) as (w0 & Hw0 & E0).
      by rewrite (Hno t w0 Ht Hw0) in E0. }
    rewrite (newest_change_unique _ _ _ _ Ho' Ho1). unfold snapshot_value. cbn [visible].
    destruct Hs1 as (Hty & Hst & Hsv & _). rewrite Hty. destruct (w_write_type w); try done.
    cbn [mbind option_bind]. by rewrite Hsv, Hst, Hv1.
  - assert (newest_change (a_write b k) ts None) as Ho1.
    { intros t w' Ht Hw'. destruct (is_change w') eqn:E; [|done].
      destruct (Hba t w' Ht Hw' E) as (w0 & Hw0 & E0). by rewrite (Ho t w0 Ht Hw0) in E0. }
    by rewrite (newest_change_unique _ _ _ _ Ho' Ho1).
Qed.
