(* ===== verification/Effects.v ===== *)
(** * Commands as effects on several keys

    A command leaves at each of its keys one effect of [Protocol] ([effects]); the
    updates of different keys may be interleaved in the write batch, as those of a
    key stay in order.  The store written by a command is well formed and is, at
    every key, the result of one effect ([command_written]). *)

From Stdlib Require Import ZArith Lia.
From stdpp Require Import base numbers list gmap.
From S2P Require Import Prelude Number Bytes Types Write Lock ConcurrencyManager Engine Reader.
From S2P Require Import AbsState ReaderSpec MvccTxn Prewrite TxnStatus Commands AcquirePessimisticLock KeyInv Protocol.

Open Scope Z_scope.

Definition ts_ok (st : TimeStamp) : Prop := 0 < st < 2 ^ 64.

Definition applied (s : Store) (r : txn_res WriteResult) (s' : Store) : Prop :=
  exists wr, r = Ok wr /\ write_modifies (E:=unit) s (wr_modifies wr) = Ok s'.

(** The same updates at every key, in the same order. *)
Definition key_filter (k : Key) (ms : list LModify) : list LModify := filter (fun m => lm_key m = k) ms.

Definition reordered (ms ms' : list LModify) : Prop := forall k, key_filter k ms = key_filter k ms'.

Lemma reordered_app ms1 ms1' ms2 ms2' :
  reordered ms1 ms1' -> reordered ms2 ms2' -> reordered (ms1 ++ ms2) (ms1' ++ ms2').
Proof. intros H1 H2 k. unfold key_filter. rewrite !filter_app. f_equal; [apply H1|apply H2]. Qed.

Lemma key_filter_none k ms : Forall (fun m => lm_key m <> k) ms -> key_filter k ms = [].
Proof. induction 1 as [|m ms Hm _ IH]; [done|]. unfold key_filter. by rewrite filter_cons_False. Qed.

(** Updates of other keys may be moved across. *)
Lemma reordered_swap k0 ms ms' :
  Forall (fun m => lm_key m = k0) ms -> Forall (fun m => lm_key m <> k0) ms' ->
  reordered (ms ++ ms') (ms' ++ ms).
Proof.
  intros Hms Hms' k. unfold key_filter. rewrite !filter_app. fold (key_filter k ms) (key_filter k ms').
  destruct (decide (k = k0)) as [->|Hne].
  - by rewrite (key_filter_none _ ms'), app_nil_r.
  - rewrite (key_filter_none k ms), app_nil_r; [done|]. eapply Forall_impl; [done|]. by intros m ->.
Qed.

Lemma reordered_forall (P : LModify -> Prop) ms ms' : reordered ms ms' -> Forall P ms' -> Forall P ms.
Proof.
  rewrite !Forall_forall. intros Hr HP m Hm. apply HP.
  assert (m ∈ key_filter (lm_key m) ms') as Hf; [|by apply list_elem_of_filter in Hf as []].
  rewrite <-(Hr (lm_key m)). by apply list_elem_of_filter.
Qed.

Definition effects (floor : TimeStamp) (s : Store) (raws : list bytes) (st : TimeStamp)
    (ms : list LModify) : Prop :=
  exists mss, Forall2 (fun raw m => effect floor s raw st m) raws mss /\ reordered ms (concat mss).

Definition store_inv (s : Store) : Prop :=
  wf_store s /\ forall raw, bytes_ok raw ->
    key_inv (a_write (abs s) (Key_from_raw raw)) (a_lock (abs s) (Key_from_raw raw)).

Lemma store_inv_starts s raw : store_inv s -> bytes_ok raw -> starts_before s raw.
Proof. intros [_ Hi] Hr t w Hw. by eapply key_inv_starts; [apply (Hi raw Hr)|]. Qed.

Lemma effects_one floor s raw st ms : effect floor s raw st ms -> effects floor s [raw] st ms.
Proof. intros He. exists [ms]. split; [by repeat constructor|]. cbn. by rewrite app_nil_r. Qed.

Lemma effects_none floor s raws st : effects floor s raws st [].
Proof.
  exists (map (fun _ => []) raws). split; [induction raws; constructor; [apply eff_none|done]|].
  intros k. by induction raws.
Qed.

Lemma effects_cons floor s raw raws st m ms :
  effect floor s raw st m -> effects floor s raws st ms -> effects floor s (raw :: raws) st (m ++ ms).
Proof.
  intros He (mss & Hm & Hr). exists (m :: mss). split; [by constructor|]. cbn [concat]. by apply reordered_app.
Qed.

Lemma for_keys_effects floor s st (act : MvccTxn -> Key -> mvcc_res (option ReleasedLock * MvccTxn)) raws :
  (forall raw txn o txn', raw ∈ raws -> t_start_ts txn = st ->
     act txn (Key_from_raw raw) = Ok (o, txn') ->
     exists ms, txn' = add_updates txn ms [] /\ effect floor s raw st ms) ->
  forall txn released o txn', t_start_ts txn = st ->
  for_keys act txn (map Key_from_raw raws) released = Ok (o, txn') ->
  exists ms, txn' = add_updates txn ms [] /\ effects floor s raws st ms.
Proof.
  intros Hact. induction raws as [|raw raws IH]; intros txn released o txn' Hst; cbn [map for_keys].
  - intros [= _ <-]. exists []. rewrite add_updates_nil. split; [done|apply effects_none].
  - intros Hf. apply res_bind_ok in Hf as ([l txn1] & Ha & Hf). apply map_err_ok in Ha.
    destruct (Hact raw txn l txn1) as (m & -> & Hm); [by left|done|done|].
    destruct (IH (fun r t o t' Hin => Hact r t o t' (list_elem_of_further _ _ _ Hin))
      (add_updates txn m []) _ o txn' Hst Hf) as (ms & -> & Hms).
    exists (m ++ ms). rewrite add_updates_add. split; [done|]. by apply effects_cons.
Qed.

Lemma finish_modifies txn pr released known wr :
  finish txn pr released known = Ok wr -> t_locks_for_1pc txn = [] /\ wr_modifies wr = t_modifies txn.
Proof.
  unfold finish, take_new_locks, into_modifies. cbn [t_locks_for_1pc t_modifies].
  destruct (t_locks_for_1pc txn); [|done]. cbn. by intros [= <-].
Qed.

Lemma reader_of_ctx s st ctx : reader_of s st (SnapshotReader_new_with_ctx st s ctx).
Proof. done. Qed.

Lemma raw_in_ok raws raw : Forall bytes_ok raws -> raw ∈ raws -> bytes_ok raw.
Proof. intros Hraws Hin. exact (proj1 (Forall_forall _ _) Hraws raw Hin). Qed.

(** The updates a command leaves behind. *)
Definition command_effects (floor : TimeStamp) (s : Store) (st : TimeStamp) (raws : list bytes)
    (r : txn_res WriteResult) : Prop :=
  forall wr, r = Ok wr -> exists ms, wr_modifies wr = map encode_lm ms /\ effects floor s raws st ms.

(** Two states agree on a key. *)
Definition agree (a b : Abs) (k : Key) : Prop :=
  (forall t, a_write a k t = a_write b k t) /\ a_lock a k = a_lock b k
  /\ (forall t, a_value a k t = a_value b k t).

Lemma agree_trans a b c k : agree a b k -> agree b c k -> agree a c k.
Proof. intros (? & ? & ?) (? & ? & ?). split_and!; intros; etrans; eauto. Qed.

Lemma agree_sym a b k : agree a b k -> agree b a k.
Proof. intros (? & ? & ?). split_and!; intros; symmetry; eauto. Qed.

Lemma agree_equiv a b k : a ≡ b -> agree a b k.
Proof. intros (? & ? & ?). by split_and!. Qed.

(** Seen from one key, updates of distinct keys are the updates of that key. *)
Lemma key_updates_at (P : bytes -> list LModify -> Prop) raw raws :
  (forall r m, P r m -> Forall (fun lm => lm_key lm = Key_from_raw r) m) -> bytes_ok raw ->
  forall mss a b,
  Forall2 P raws mss -> Forall bytes_ok raws -> NoDup raws -> agree a b (Key_from_raw raw) ->
  (raw ∈ raws /\ exists m, P raw m /\ agree (apply_lms a (concat mss)) (apply_lms b m) (Key_from_raw raw))
  \/ (~ raw ∈ raws /\ agree (apply_lms a (concat mss)) b (Key_from_raw raw)).
Proof.
  intros HP Hraw. assert (forall r m c, P r m -> bytes_ok r -> r <> raw ->
    agree (apply_lms c m) c (Key_from_raw raw)) as Hother.
  { intros r m c Hm Hr Hne. apply apply_lms_other. eapply Forall_impl; [exact (HP r m Hm)|].
    intros lm ->. intros E. by apply Hne, Key_from_raw_inj. }
  induction raws as [|r raws IH]; intros mss a b Hms Hraws Hnd Ha;
    inversion Hms as [|? m ? mss' Hm Hms']; subst.
  - right. split; [by apply not_elem_of_nil|done].
  - apply Forall_cons_1 in Hraws as [Hr Hraws]. apply NoDup_cons in Hnd as [Hni Hnd].
    cbn [concat]. rewrite apply_lms_app. destruct (decide (r = raw)) as [->|Hne].
    + left. split; [by left|]. exists m. split; [done|].
      destruct (IH mss' (apply_lms a m) (apply_lms a m)) as [[? _]|[_ Hag]]; [done..|].
      eapply agree_trans; [done|]. by destruct Ha as (? & ? & ?); apply apply_lms_local.
    + destruct (IH mss' (apply_lms a m) b) as [[Hin Hm']|[Hni' Hag]]; [done..| | |].
      * eapply agree_trans; [by eapply Hother|done].
      * left. split; [by right|done].
      * right. split; [|done]. by rewrite not_elem_of_cons.
Qed.

Lemma apply_key_filter k ms : forall a, agree (apply_lms a ms) (apply_lms a (key_filter k ms)) k.
Proof.
  induction ms as [|m ms IH]; intros a; [done|]. unfold key_filter. rewrite filter_cons.
  cbn [apply_lms foldl]. case_decide as Hk; [apply IH|].
  eapply agree_trans; [apply IH|]. destruct (apply_lms_other [m] a k) as (? & ? & ?); [by constructor|].
  by apply apply_lms_local.
Qed.

Lemma reordered_agree k a ms ms' : reordered ms ms' -> agree (apply_lms a ms) (apply_lms a ms') k.
Proof.
  intros Hr. eapply agree_trans; [apply apply_key_filter|]. rewrite (Hr k).
  apply agree_sym, apply_key_filter.
Qed.

Section StepEffects.
Context (floor : TimeStamp) (s : Store) (st : TimeStamp).
Hypothesis (inv : store_inv s) (st_pos : ts_ok st).
Let wf : wf_store s := proj1 inv.

Lemma effects_at raw raws : bytes_ok raw -> forall ms a,
  effects floor s raws st ms -> Forall bytes_ok raws -> NoDup raws -> agree a (abs s) (Key_from_raw raw) ->
  exists m, effect floor s raw st m /\ agree (apply_lms a ms) (apply_lms (abs s) m) (Key_from_raw raw).
Proof.
  intros Hraw ms a (mss & Hms & Hre) Hraws Hnd Ha.
  assert (forall b, agree (apply_lms a (concat mss)) b (Key_from_raw raw) -> agree (apply_lms a ms) b (Key_from_raw raw))
    as Hag' by (intros b; apply agree_trans; by apply reordered_agree).
  destruct (key_updates_at (fun r m => effect floor s r st m) raw raws (fun r m => effect_touches floor s r st m)
    Hraw mss a (abs s) Hms Hraws Hnd Ha) as [[_ (m & ? & ?)]|[_ Hag]]; [exists m; auto|].
  exists []. split; [constructor|by apply Hag'].
Qed.

Lemma effects_lm_ok raws ms : Forall bytes_ok raws -> effects floor s raws st ms -> Forall lm_ok ms.
Proof.
  intros Hraws (mss & Hms & Hre). apply (reordered_forall lm_ok ms (concat mss)); [done|]. clear Hre. apply Forall_concat.
  induction Hms as [|r m raws mss Hm Hms IH]; [constructor|].
  apply Forall_cons_1 in Hraws as [Hr Hraws]. constructor; [|by apply IH].
  by apply (effect_lm_ok floor s r st wf Hr st_pos m).
Qed.

(** The store a command leaves behind is well formed and, at every key, the
    result of one effect. *)
Lemma effects_written raws ms s' :
  Forall bytes_ok raws -> NoDup raws -> effects floor s raws st ms ->
  write_modifies (E:=unit) s (map encode_lm ms) = Ok s' ->
  wf_store s' /\ forall raw, bytes_ok raw -> exists m,
    effect floor s raw st m /\ agree (abs s') (apply_lms (abs s) m) (Key_from_raw raw).
Proof.
  intros Hraws Hnd He Hw.
  destruct (write_modifies_refines (E:=unit) ms s wf (effects_lm_ok raws ms Hraws He)) as (s1 & Hw1 & Hwf & Ha).
  rewrite Hw in Hw1. injection Hw1 as <-. split; [done|]. intros raw Hr.
  destruct (effects_at raw raws Hr ms (abs s) He Hraws Hnd) as (m & Hm & Hag); [done|].
  exists m. split; [done|]. eapply agree_trans; [by apply agree_equiv|done].
Qed.

Lemma command_written raws r s' :
  Forall bytes_ok raws -> NoDup raws -> command_effects floor s st raws r -> applied s r s' ->
  wf_store s' /\ forall raw, bytes_ok raw -> exists m,
    effect floor s raw st m /\ agree (abs s') (apply_lms (abs s) m) (Key_from_raw raw).
Proof.
  intros Hraws Hnd Hr (wr & Hwr & Hw). destruct (Hr wr Hwr) as (ms & Hms & He).
  rewrite Hms in Hw. by apply (effects_written raws ms).
Qed.
End StepEffects.

