(* ===== verification/PrewriteSpec.v ===== *)
(** * What the prewrite command does

    The loop of [PrewriteCommand] keeps, for the keys it has passed, what happened
    to each ([key_done]): the key was locked by another transaction, the
    transaction had its lock already, the mutation was a check, the lock of the
    mutation is in the buffer, or it waits for one-phase commit.  From it follow
    the effects of the command on its keys ([result_effects]), with which it is
    a step of [System]. *)

From Stdlib Require Import ZArith Lia.
From stdpp Require Import base numbers list gmap.
From S2P Require Import Prelude Number Bytes Types Write Lock ConcurrencyManager Engine Reader.
From S2P Require Import AbsState ReaderSpec MvccTxn Prewrite TxnStatus Commands PrewriteCommand.
From S2P Require Import AcquirePessimisticLock KeyInv Protocol Values Effects.

Open Scope Z_scope.

(** ** The maximum timestamp during a prewrite *)

Lemma async_commit_timestamps_max_ts key l st fu mc txn r l' txn' :
  async_commit_timestamps key l st fu mc txn = Ok (r, l', txn') ->
  cm_max_ts (t_cm txn') = cm_max_ts (t_cm txn).
Proof.
  unfold async_commit_timestamps, lock_key. destruct (cm_lock_table _ !! key); [done|]. intros Ha. res_inv.
  destruct (_ && _)%bool; by simplify_eq.
Qed.

Lemma put_lock_cm txn key l is_new txn' : put_lock txn key l is_new = Ok txn' -> t_cm txn' = t_cm txn.
Proof. unfold put_lock. intros Hp. res_inv. destruct is_new; by res_inv; simplify_eq. Qed.

Lemma write_lock_max_ts can_enable m status txn is_new generation r txn' :
  PrewriteMutation_write_lock can_enable m status txn is_new generation = Ok (r, txn') ->
  cm_max_ts (t_cm txn') = cm_max_ts (t_cm txn).
Proof.
  unfold PrewriteMutation_write_lock. intros Hw. res_inv. destruct a0 as [l1 txn1]. res_inv.
  destruct a0 as [[[r3 l3] pc3] txn3].
  assert (t_cm txn1 = t_cm txn) as <-.
  { destruct (pm_value m) as [v|]; [destruct (is_short_value v); [|rewrite put_value_add in H0; cbn [mbind res_bind] in H0]|]; by simplify_eq. }
  assert (cm_max_ts (t_cm txn3) = cm_max_ts (t_cm txn1)) as <-.
  { clear Hw. destruct (_ || _)%bool; [|by simplify_eq]. res_inv. destruct a1 as [[r' l'] txn2].
    match goal with Ha : async_commit_timestamps _ _ _ _ _ _ = Ok _ |- _ => apply async_commit_timestamps_max_ts in Ha end.
    destruct r' as [ts|[]|]; by simplify_eq. }
  destruct pc3; [by simplify_eq|]. res_inv. simplify_eq.
  match goal with Hp : put_lock _ _ _ _ = Ok _ |- _ => apply put_lock_cm in Hp as -> end. done.
Qed.

Lemma update_max_ts_after now tso txn ts r txn' :
  txn_update_max_ts now tso txn ts = (r, txn') -> u64_ok ts -> u64_ok (cm_max_ts (t_cm txn)) ->
  u64_ok (cm_max_ts (t_cm txn')) /\ cm_max_ts (t_cm txn) <= cm_max_ts (t_cm txn').
Proof.
  unfold txn_update_max_ts. intros E Hts Hcm.
  pose proof (update_max_ts_range now tso (t_cm txn) ts Hcm Hts) as Hr.
  pose proof (update_max_ts_grows now tso (t_cm txn) ts) as Hg.
  destruct (update_max_ts now tso (t_cm txn) ts) as [r' cm]. by simplify_eq.
Qed.

Lemma prewrite_max_ts {Snap : Type} `{EngineSnapshot Snap} now tso can_enable stat_next txn
    (reader : SnapshotReader Snap) props mutation secondary_keys action expected r txn' :
  u64_ok (tp_start_ts props) -> u64_ok (cm_max_ts (t_cm txn)) ->
  prewrite now tso can_enable stat_next txn reader props mutation secondary_keys action expected = (r, txn') ->
  u64_ok (cm_max_ts (t_cm txn')) /\ cm_max_ts (t_cm txn) <= cm_max_ts (t_cm txn').
Proof.
  intros Hst Hcm. unfold prewrite, prewrite_with_generation.
  destruct (PrewriteMutation_from_mutation _ _ _ _) as [m|e|]; [|by intros [= _ <-]..].
  destruct (if pm_should_not_exist m then _ else _) as [r0 txn0] eqn:Hupd.
  assert (u64_ok (cm_max_ts (t_cm txn0)) /\ cm_max_ts (t_cm txn) <= cm_max_ts (t_cm txn0)) as [Hcm0 Hle].
  { destruct (pm_should_not_exist m); [by eapply update_max_ts_after|by simplify_eq]. }
  destruct r0 as [[]|e|]; [|by intros [= _ <-]..].
  destruct (prewrite_lock_status _ _ _ _ _ _) as [[[status m1] amended]|e|]; [|by intros [= _ <-]..].
  destruct status as [ts|from|]; [by intros [= _ <-]| |].
  all: destruct (prewrite_checks _ _ _ _ _ _) as [[[pw loaded] m2]|e|]; [|by intros [= _ <-]..].
  all: destruct (pm_should_not_write m2).
  1, 3: destruct (txn_update_max_ts now tso txn0 (tp_start_ts props)) as [r1 txn1] eqn:Hu;
    apply update_max_ts_after in Hu as [? ?]; [|done..];
    destruct r1 as [[]|e|]; intros [= _ <-]; (split; [done|lia]).
  all: destruct (prewrite_old_value _ _ _ _) as [ov|e|]; [|by intros [= _ <-]..].
  all: destruct (PrewriteMutation_write_lock _ _ _ _ _ _) as [[r3 txn3]|e|] eqn:Hwl; [|by intros [= _ <-]..].
  all: intros [= _ <-]; apply write_lock_max_ts in Hwl as ->; done.
Qed.

(** ** The keys the loop has passed *)

(** A key with its mutation, the updates in the buffer, the lock kept for
    one-phase commit, and whether an error has been noted for it. *)
Record entry : Type := Entry {
  en_raw : bytes;
  en_mutation : Mutation;
  en_ms : list LModify;
  en_pending : option (Lock * bool);
  en_blocked : bool
}.

Definition en_key (e : entry) : Key := Key_from_raw (en_raw e).

Definition pending_locks (es : list entry) : list (Key * Lock * bool) :=
  omap (fun e => match en_pending e with Some (l, del) => Some (en_key e, l, del) | None => None end) es.

(** The updates that commit a pending lock, or that put it after all. *)
Definition commit_tail (c : TimeStamp) (e : entry) : list LModify :=
  match en_pending e with
  | Some (l, del) =>
      LPutWrite (en_key e) c (commit_write (Lock_set_use_one_pc l false) c)
      :: if del : bool then [LUnlock (en_key e)] else []
  | None => []
  end.

Definition fallback_tail (e : entry) : list LModify :=
  match en_pending e with
  | Some (l, _) => [LPutLock (en_key e) (Lock_set_use_one_pc l false)]
  | None => []
  end.

Definition en_fallback (e : entry) : entry :=
  Entry (en_raw e) (en_mutation e) (en_ms e ++ fallback_tail e) None (en_blocked e).

Definition on_key (e : entry) (m : LModify) : Prop := lm_key m = en_key e.

Lemma commit_tail_key c e : Forall (on_key e) (commit_tail c e).
Proof. unfold commit_tail. destruct (en_pending e) as [[l []]|]; by repeat constructor. Qed.

Lemma fallback_tail_key e : Forall (on_key e) (fallback_tail e).
Proof. unfold fallback_tail. destruct (en_pending e) as [[l []]|]; by repeat constructor. Qed.

Lemma entries_other f e es :
  bytes_ok (en_raw e) -> Forall (fun e => bytes_ok (en_raw e)) es -> ~ en_raw e ∈ map en_raw es ->
  (forall e, e ∈ es -> Forall (on_key e) (f e)) ->
  Forall (fun m => lm_key m <> en_key e) (concat (map f es)).
Proof.
  intros He Hes Hni Hf. apply Forall_concat, Forall_map, Forall_forall. intros e' Hin.
  eapply Forall_impl; [by apply Hf|]. intros m -> E.
  apply Hni. apply Key_from_raw_inj in E; [|exact (proj1 (Forall_forall _ _) Hes e' Hin)|done].
  rewrite <-E. apply list_elem_of_In, in_map. by apply list_elem_of_In.
Qed.

(** Updates appended key by key to updates listed key by key. *)
Lemma reordered_tails f g es :
  Forall (fun e => bytes_ok (en_raw e)) es -> NoDup (map en_raw es) ->
  (forall e, e ∈ es -> Forall (on_key e) (f e)) -> (forall e, Forall (on_key e) (g e)) ->
  reordered (concat (map f es) ++ concat (map g es)) (concat (map (fun e => f e ++ g e) es)).
Proof.
  induction es as [|e es IH]; intros Hb Hnd Hf Hg; [done|]. cbn [map concat].
  apply Forall_cons_1 in Hb as [He Hb]. apply NoDup_cons in Hnd as [Hni Hnd].
  assert (reordered (concat (map f es) ++ concat (map g es)) (concat (map (fun e => f e ++ g e) es))) as IH'.
  { apply IH; [done..| |done]. intros e' Hin. apply Hf. by right. }
  intros k. rewrite <-!app_assoc. unfold key_filter. rewrite !filter_app. f_equal.
  specialize (IH' k). unfold key_filter in IH'. rewrite filter_app in IH'. rewrite <-IH', !app_assoc. f_equal.
  rewrite <-!filter_app. symmetry. apply (reordered_swap (en_key e)); [apply Hg|].
  apply entries_other; [done..|]. intros e' Hin. apply Hf. by right.
Qed.

Section Spec.
Context (floor : TimeStamp) (s : Store) (st : TimeStamp).
Hypothesis (inv : store_inv s) (st_pos : ts_ok st).
Let wf : wf_store s := proj1 inv.

(** The secondaries to be recorded in the lock of a key. *)
Context (secondaries_of : bytes -> list bytes).

(** The lock of a mutation. *)
Definition lock_for (raw : bytes) (mutation : Mutation) (l : Lock) (vals : list LModify) : Prop :=
  prewritten_lock s raw st l vals /\ LockType_from_mutation mutation = Some (l_lock_type l)
  /\ stores_value raw st (snd (Mutation_into_key_value mutation)) l vals.

(** A lock of async commit whose minimum commit timestamp is at most [f]. *)
Definition async_lock (raw : bytes) (f : TimeStamp) (l : Lock) : Prop :=
  l_use_async_commit l = true /\ l_secondaries l = secondaries_of raw
  /\ floor < l_min_commit_ts l /\ st < l_min_commit_ts l /\ l_min_commit_ts l <= f.

(** What has happened to a key.  [mode] is the largest minimum commit timestamp so
    far, unless the request commits in two phases. *)
Inductive key_done (mode : option TimeStamp) : entry -> Prop :=
| kd_blocked raw mu : key_done mode (Entry raw mu [] None true)
| kd_locked raw mu ts :
    status_of_key s raw st (LockedStatus ts) -> (forall f, mode = Some f -> ts <> 0 /\ ts <= f) ->
    key_done mode (Entry raw mu [] None false)
| kd_check raw mu : Mutation_should_not_write mu = true -> key_done mode (Entry raw mu [] None false)
| kd_put raw mu l vals :
    lock_for raw mu l vals -> (forall f, mode = Some f -> async_lock raw f l) ->
    key_done mode (Entry raw mu (vals ++ [LPutLock (Key_from_raw raw) l]) None false)
| kd_one_pc raw mu l vals (del : bool) f :
    mode = Some f -> lock_for raw mu (Lock_set_use_one_pc l false) vals ->
    fresh_ts st floor (l_for_update_ts l) (l_min_commit_ts l) -> l_min_commit_ts l <= f ->
    (del = false -> a_lock (abs s) (Key_from_raw raw) = None) ->
    key_done mode (Entry raw mu vals (Some (l, del)) false).

Lemma key_done_grows f f' e : f <= f' -> key_done (Some f) e -> key_done (Some f') e.
Proof.
  intros Hle. destruct 1 as [| |? ? ?|raw mu l vals Hl Ha|raw mu l vals del f0 [= <-] ? ? ? ?];
    [by constructor|eapply kd_locked; [done|]|by constructor|apply kd_put; [done|]|by eapply (kd_one_pc _ _ _ _ _ _ f'); [..|lia|]].
  - intros ? [= <-]. destruct (H0 f eq_refl). split; [done|lia].
  - intros ? [= <-]. destruct (Ha f eq_refl) as (? & ? & ? & ? & ?). split_and!; done || lia.
Qed.

Lemma key_done_fallback mode e : key_done mode e -> key_done None (en_fallback e).
Proof.
  destruct 1; unfold en_fallback, fallback_tail; cbn [en_raw en_mutation en_ms en_pending en_blocked];
    rewrite ?app_nil_r; [by constructor|by eapply kd_locked|by constructor|by apply kd_put|by apply kd_put].
Qed.

Lemma key_done_on_key mode e : key_done mode e -> Forall (on_key e) (en_ms e).
Proof.
  assert (forall raw mu l vals, lock_for raw mu l vals -> Forall (fun m => lm_key m = Key_from_raw raw) vals) as Hv.
  { intros raw mu l vals [[_ _ _ _ _ _ _ Hv _] _]. destruct Hv as [->|[v ->]]; by repeat constructor. }
  destruct 1; cbn; try constructor; [|by eapply Hv]. apply Forall_app. split; [by eapply Hv|by repeat constructor].
Qed.

(** The updates of a key are one effect, when nothing is pending or once the
    pending lock is committed. *)
Lemma key_done_effect mode e :
  key_done mode e -> en_pending e = None -> effect floor s (en_raw e) st (en_ms e).
Proof.
  destruct 1 as [| | |raw mu l vals [Hl _] _|]; cbn; try done; intros _; [by apply eff_none..|by apply eff_prewrite].
Qed.

Lemma key_done_commit f e :
  u64_ok f -> key_done (Some f) e -> effect floor s (en_raw e) st (en_ms e ++ commit_tail f e).
Proof.
  intros Hf Hd. destruct (en_pending e) as [[l del]|] eqn:Hp.
  - destruct Hd as [| | | |raw mu l' vals del' f' [= <-] [Hl _] (Hfl & Hlt & Hfu & _) Hle Hdel];
      cbn in Hp; try done. simplify_eq. unfold commit_tail. cbn [en_ms en_raw en_pending en_key].
    assert (l_for_update_ts (Lock_set_use_one_pc l false) = l_for_update_ts l) as Hfu' by by destruct l.
    apply (eff_one_pc floor s raw st _ vals f (if del then [LUnlock (Key_from_raw raw)] else []));
      [done|lia..|done|]. destruct del; [by left|right]. auto.
  - unfold commit_tail. rewrite Hp, app_nil_r. by eapply key_done_effect.
Qed.

(** *** Pending locks *)

Lemma fallback_locks_eq es : forall txn txn',
  fallback_locks (pending_locks es) txn = Ok txn' ->
  t_modifies txn' = t_modifies txn ++ map encode_lm (concat (map fallback_tail es))
  /\ t_locks_for_1pc txn' = t_locks_for_1pc txn /\ t_start_ts txn' = t_start_ts txn /\ t_cm txn' = t_cm txn.
Proof.
  induction es as [|e es IH]; intros txn txn'; cbn [pending_locks omap list_omap map concat].
  - intros [= <-]. by rewrite app_nil_r.
  - unfold fallback_tail at 1. destruct (en_pending e) as [[l del]|]; [|by apply IH].
    cbn [fallback_locks]. intros Hf. res_inv.
    match goal with Hp : put_lock _ _ _ _ = Ok _ |- _ =>
      pose proof Hp as Hcm; apply put_lock_cm in Hcm; apply put_lock_extends in Hp as (Hm & H1 & Hs) end.
    apply IH in Hf as (-> & -> & -> & ->). rewrite Hm, H1, Hs, Hcm, map_app, app_assoc. done.
Qed.

Lemma commit_1pc_locks_eq f es : Forall (key_done (Some f)) es -> forall txn released released' txn',
  t_start_ts txn = st -> commit_1pc_locks (pending_locks es) txn f released = Ok (released', txn') ->
  t_modifies txn' = t_modifies txn ++ map encode_lm (concat (map (commit_tail f) es))
  /\ t_locks_for_1pc txn' = t_locks_for_1pc txn.
Proof.
  induction 1 as [|e es He _ IH]; intros txn released released' txn' Hst;
    cbn [pending_locks omap list_omap map concat].
  - intros [= _ <-]. by rewrite app_nil_r.
  - unfold commit_tail at 1. destruct (en_pending e) as [[l del]|] eqn:Hp; [|by apply IH].
    destruct He as [| | | |raw mu l' vals del' f' [= <-] [[_ _ _ Ht Hty Hrb _ _ _] _] _ _ _]; cbn in Hp; try done.
    injection Hp as -> ->. cbn [commit_1pc_locks en_key en_raw]. rewrite Hst.
    assert (WriteType_from_lock_type (l_lock_type l)
      = Some (match l_lock_type l with LtPut => WtPut | LtDelete => WtDelete | _ => WtLock end)) as ->.
    { unfold Lock_is_pessimistic_lock in Hty. destruct l; cbn in *. by destruct l_lock_type. }
    cbn [unwrap mbind res_bind].
    set (w := Write_set_txn_source _ _).
    assert (w = commit_write (Lock_set_use_one_pc l false) f) as -> by (destruct l; cbn in *; by subst).
    rewrite put_write_add. cbn [mbind res_bind]. intros Hc. res_inv.
    destruct a as [released1 txn1].
    assert (exists ms, txn1 = add_updates txn (LPutWrite (Key_from_raw raw) f (commit_write (Lock_set_use_one_pc l false) f) :: ms) []
      /\ ms = if del then [LUnlock (Key_from_raw raw)] else []) as (ms & -> & Hms).
    { destruct del; [rewrite unlock_key_add in H; cbn [mbind res_bind] in H|]; injection H as _ <-; [|by eexists].
      exists [LUnlock (Key_from_raw raw)]. split; [|done]. by rewrite add_updates_add. }
    apply IH in Hc as [-> ->]; [|done]. unfold en_key. cbn [en_raw add_updates t_modifies t_locks_for_1pc].
    rewrite <-Hms.     by rewrite map_app, <-app_assoc.
Qed.

(** *** The buffer *)

(** The updates of the passed keys, and their pending locks. *)
Record buffer_inv (es : list entry) (txn : MvccTxn) : Prop := {
  bi_start : t_start_ts txn = st;
  bi_max_ts : u64_ok (cm_max_ts (t_cm txn)) /\ floor <= cm_max_ts (t_cm txn);
  bi_modifies : exists ms, t_modifies txn = map encode_lm ms /\ reordered ms (concat (map en_ms es));
  bi_pending : t_locks_for_1pc txn = pending_locks es
}.

Lemma pending_locks_app es es' : pending_locks (es ++ es') = pending_locks es ++ pending_locks es'.
Proof. apply omap_app. Qed.

(** The buffer after one more key, which adds [ms] and [pend]. *)
Lemma buffer_snoc es txn txn' e :
  buffer_inv es txn -> t_start_ts txn' = t_start_ts txn ->
  u64_ok (cm_max_ts (t_cm txn')) /\ cm_max_ts (t_cm txn) <= cm_max_ts (t_cm txn') ->
  t_modifies txn' = t_modifies txn ++ map encode_lm (en_ms e) ->
  t_locks_for_1pc txn' = t_locks_for_1pc txn ++ pending_locks [e] ->
  buffer_inv (es ++ [e]) txn'.
Proof.
  intros [Hs [_ Hf] (ms & Hm & Hr) Hp] Hs' [Hcm Hle] Hm' Hp'. split.
  - congruence.
  - split; [done|lia].
  - exists (ms ++ en_ms e). rewrite Hm', Hm, map_app. split; [done|]. rewrite map_app, concat_app. cbn.
    rewrite app_nil_r. by apply reordered_app.
  - rewrite Hp', Hp, pending_locks_app. done.
Qed.

Section Key.
Context (now : Z) (tso : option TimeStamp) (can_enable : bool).
Context (stat_next : SnapshotReader Store -> Key -> TimeStamp -> u64).
Context (reader : SnapshotReader Store).
Hypothesis (rd : reader_of s st reader).

(** The for-update timestamp of a pessimistic request covers the transaction's
    pessimistic lock of the key. *)
Definition for_update_covered (props : TransactionProperties) (raw : bytes) : Prop :=
  forall l, own s raw st l -> Lock_is_pessimistic_lock l = true ->
  TransactionProperties_is_pessimistic props = true ->
  l_for_update_ts l <= TransactionProperties_for_update_ts props.

(** The result of a key that needs a commit timestamp, or does not. *)
Definition key_result (need : bool) (r : mvcc_res (TimeStamp * OldValue)) (e : bool -> entry) : Prop :=
  match r with
  | Ok (ts, _) =>
      u64_ok ts
      /\ (need = true -> ts <> 0 -> forall f, ts <= f -> key_done (Some f) (e false))
      /\ (need = false \/ ts = 0 -> key_done None (e false))
  | Err (MvCommitTsTooLarge _ _ _) => key_done None (e false)
  | _ => en_ms (e true) = [] /\ en_pending (e true) = None
  end.

Definition is_one_pc (kind : CommitKind) : bool := match kind with OnePc _ => true | _ => false end.

(** The lock of the mutation, by the outcome of [write_lock]. *)
Lemma lock_outcome_result raw mutation props secs m status txn l vals r ov txn' :
  (forall ks, secs = Some ks -> ks = secondaries_of raw) ->
  (is_one_pc (tp_commit_kind props) = true -> for_update_covered props raw) ->
  (TransactionProperties_is_pessimistic props = true -> prewrite_fresh s raw st) ->
  u64_ok (TransactionProperties_for_update_ts props) -> floor <= cm_max_ts (t_cm txn) ->
  status_of_key s raw st status -> may_prewrite s raw st (status_for_update_ts status) ->
  (LockStatus_has_pessimistic_lock status = true -> TransactionProperties_is_pessimistic props = true) ->
  prepared_for props mutation secs m -> prepared_lock s raw st m (status_for_update_ts status) l vals ->
  lock_outcome raw st m status txn l vals r txn' ->
  exists ms pend,
    t_modifies txn' = t_modifies txn ++ map encode_lm ms /\ t_start_ts txn' = t_start_ts txn
    /\ t_locks_for_1pc txn' = t_locks_for_1pc txn ++ pending_locks [Entry raw mutation ms pend false]
    /\ key_result (match secs with Some _ => true | None => false end || is_one_pc (tp_commit_kind props))
         (ts ← r; Ok (ts, ov)) (Entry raw mutation ms pend)
    /\ (is_one_pc (tp_commit_kind props) = false -> pend = None)
    /\ (is_one_pc (tp_commit_kind props) = true -> forall ts, r = Ok ts -> pend = None -> ms = []).
Proof.
  intros Hsec Hcov Hfresh' Hfu Hfl Hkey Hmay Hpess Hpf Hprep Hout.
  assert (prewrite_fresh s raw st) as Hfresh.
  { intros l0 [Hl0 Ht0] Hp0. destruct status as [?|?|].
    - destruct Hkey as (l1 & Hl1 & _ & Hp1 & _).
      assert (Some l0 = Some l1) as E by (etrans; [symmetry; exact Hl0|exact Hl1]). congruence.
    - by apply (Hfresh' (Hpess eq_refl) l0).
    - assert (Some l0 = None) as E by (etrans; [symmetry; exact Hl0|exact Hkey]). done. }
  assert (lock_for raw mutation (Lock_set_use_one_pc l false) vals) as Hlf.
  { split; [by eapply prepared_prewritten|]. destruct Hpf as (_ & _ & Hlt & Hval).
    destruct Hprep as (lt & Hty & [_ _ Hty' _ _ _] & Hv). rewrite <-Hval, <-Hlt, Hty. destruct l; cbn in *. by subst. }
  destruct Hpf as (Hprops & Hsecs & _ & _).
  assert (PrewriteMutation_try_one_pc m = is_one_pc (tp_commit_kind props)) as Hone
    by (unfold PrewriteMutation_try_one_pc; rewrite Hprops; by destruct (tp_commit_kind props)).
  destruct Hout as [txn' Hs1 Ho1 Hpc (Hm & H1 & Hs)|ts mc txn' Hpc (Hm & H1 & Hs)
    |ts ks txn' Hs1 Ho1 (Hgt & Hst & _ & Hu) Hmin Has Hks Hpc (Hm & H1 & Hs)|ts txn' Ho1 (Hgt & Hst & Hgfu & Hu) Hmin Hm H1 Hs].
  1-3: exists (vals ++ [LPutLock (Key_from_raw raw) l]), None; rewrite app_nil_r; rewrite (use_one_pc_same l Hpc) in Hlf;
    (split; [done|]); (split; [done|]); (split; [done|]); (split; [|split; [done|intros E; by rewrite <-Hone in E; rewrite ?Ho1 in E]]).
  - cbn. rewrite Hsecs in Hs1. rewrite Hs1, <-Hone, Ho1.
    split_and!; [by unfold u64_ok|done|]. intros _. by apply kd_put.
  - cbn. by apply kd_put.
  - cbn. split_and!; [done| |intros _; by apply kd_put].
    intros _ _ f Hle. apply kd_put; [done|]. intros ? [= <-]. rewrite Hsecs in Hs1. specialize (Hsec ks Hs1).
    unfold async_lock. rewrite Hmin, Hks. split_and!; done || lia.
  - exists vals, (Some (l, LockStatus_has_pessimistic_lock status)).
    split; [done|]. split; [done|]. split; [done|]. split; [cbn|split; [intros E; by rewrite <-Hone, Ho1 in E|done]].
    assert (ts <> 0) as Hnz by (unfold ts_ok in st_pos; lia).
    split_and!; [done| |intros [Hn|?]; [|done]].
    + intros _ _ f Hle. rewrite Hprops in Hgfu. eapply kd_one_pc; [done|done| |by rewrite Hmin|].
      * rewrite Hmin. split_and!; [lia|done| |done].
        destruct Hprep as (lt & _ & [_ _ _ _ Hlfu _] & _). rewrite Hlfu. unfold for_update_ts_to_write.
        rewrite Hprops. destruct status as [?|from|]; cbn in *; [unfold u64_ok in *; lia| |unfold u64_ok in *; lia].
        destruct Hkey as (l0 & Hl0 & Ht0 & Hp0 & ->). rewrite Hone in Ho1.
        pose proof (Hcov Ho1 l0 (conj Hl0 Ht0) Hp0 (Hpess eq_refl)). lia.
      * destruct status; cbn in *; try done. intros _. destruct Hkey as (l0 & Hl0 & _ & Hnp & _).
        destruct Hmay as [(? & _)|(l1 & Hl1 & _ & Hp1 & _)]; [done|].
        assert (Some l0 = Some l1) as E by (etrans; [symmetry; exact Hl0|exact Hl1]). congruence.
    + rewrite <-Hone, Ho1 in Hn. by rewrite orb_true_r in Hn.
Qed.

Lemma prewrite_key raw mutation props secs action expected es txn r txn' :
  bytes_ok raw -> Mutation_key mutation = Key_from_raw raw -> props_ok props -> tp_start_ts props = st ->
  mode_ok s raw st props action -> secondaries_ok secs ->
  (forall ks, secs = Some ks -> ks = secondaries_of raw) ->
  (is_one_pc (tp_commit_kind props) = true -> for_update_covered props raw) ->
  (TransactionProperties_is_pessimistic props = true -> prewrite_fresh s raw st) ->
  buffer_inv es txn ->
  prewrite now tso can_enable stat_next txn reader props mutation secs action expected = (r, txn') ->
  exists ms pend, (forall b, buffer_inv (es ++ [Entry raw mutation ms pend b]) txn')
    /\ key_result (match secs with Some _ => true | None => false end || is_one_pc (tp_commit_kind props)) r
         (Entry raw mutation ms pend)
    /\ (is_one_pc (tp_commit_kind props) = false -> pend = None)
    /\ (is_one_pc (tp_commit_kind props) = true -> forall x, r = Ok x -> pend = None -> ms = []).
Proof.
  intros Hr Hk Hp Hst Hmode Hsecok Hsec Hcov Hfresh Hb Hpw.
  assert (u64_ok st) as Hu by (unfold ts_ok, u64_ok in *; lia).
  pose proof (bi_max_ts _ _ Hb) as [Hcm Hfl].
  pose proof (prewrite_max_ts _ _ _ _ _ _ _ _ _ _ _ _ _ (props_start_ts _ Hp) Hcm Hpw) as Hmax.
  apply (prewrite_inv now tso can_enable stat_next s raw st) in Hpw; try done.
  assert (forall b, txn_extends txn [] txn' -> buffer_inv (es ++ [Entry raw mutation [] None b]) txn') as Hnil.
  { intros b (Hm & H1 & Hs). eapply buffer_snoc; [done..|]. cbn. by rewrite app_nil_r. }
  destruct Hpw as [r txn' Hno Hl Hext|ts ov txn' Hkey Hext|r txn' Hsnw Hl Hts Hext|status m l vals r ov txn' Hkey Hmay Hpess Hpf Hprep Hout].
  - exists [], None. split; [auto|]. split; [|done]. destruct r as [x|[]|]; try done. by destruct (Hno x).
  - exists [], None. split; [auto|]. split; [|done]. cbn. split_and!.
    + destruct Hkey as (l & Hl & _ & _ & ->). pose proof (lock_ok_min_commit_ts l (abs_lock_ok s _ l wf Hl)).
      destruct (l_use_async_commit l); [done|by unfold u64_ok].
    + intros _ Hnz f Hle. eapply kd_locked; [exact Hkey|]. by intros ? [= <-].
    + intros _. by eapply kd_locked; [exact Hkey|].
  - exists [], None. split; [auto|]. split; [|done]. destruct r as [[ts ov]|[]|]; try done. cbn.
    split_and!; [by eapply Hts|intros; by apply kd_check|intros; by apply kd_check].
  - destruct (lock_outcome_result raw mutation props secs m status txn l vals r ov txn') as
      (ms & pend & Hm & Hs & H1 & Hres & Hpend & Hwait); try done; [by apply props_for_update_ts|].
    exists ms, pend. split; [intros b; by eapply buffer_snoc|]. split; [done|]. split; [done|].
    intros Ho x Hx. destruct r as [ts| |]; [|done..]. by apply (Hwait Ho ts).
Qed.

(** *** The loop *)

Context {M : Type} `{MutationLock M}.
Context (props : TransactionProperties) (mc : TimeStamp).
Context (sks0 : option (list bytes)) (one0 : bool) (pk0 : option Key).
Hypothesis (props_in_range : props_ok props) (props_start : tp_start_ts props = st).

(** The secondaries that are passed to [prewrite] for a key. *)
Definition secs_for (pk : option Key) (sks : option (list bytes)) (key : Key) : option (list bytes) :=
  if decide (Some key = pk) then sks else option_map (fun _ => []) sks.

Hypothesis (secs_ok : secondaries_ok sks0).
Hypothesis (secs_of : forall raw ks, secs_for pk0 sks0 (Key_from_raw raw) = Some ks -> ks = secondaries_of raw).

Definition kind_of (sks : option (list bytes)) (one : bool) : CommitKind :=
  match sks, one with _, true => OnePc mc | Some _, false => Async mc | None, false => TwoPc end.

Definition needs_ts (sks : option (list bytes)) (one : bool) : bool :=
  (match sks with Some _ => true | None => false end || one)%bool.

Definition lp_mode (lp : PrewriteLoop) : option TimeStamp :=
  if needs_ts (lp_secondary_keys lp) (lp_try_one_pc lp) then Some (lp_final_min_commit_ts lp) else None.

(** The state of the loop, apart from the buffer. *)
Record modes_inv (lp : PrewriteLoop) : Prop := {
  mi_kind : lp_commit_kind lp = kind_of (lp_secondary_keys lp) (lp_try_one_pc lp);
  mi_secs : lp_secondary_keys lp = None \/ (lp_secondary_keys lp = sks0 /\ lp_async_commit_pk lp = pk0);
  mi_one_pc : lp_try_one_pc lp = true -> one0 = true;
  mi_final : u64_ok (lp_final_min_commit_ts lp)
}.

Record loop_inv (es : list entry) (lp : PrewriteLoop) : Prop := {
  li_buffer : buffer_inv es (lp_txn lp);
  li_modes : modes_inv lp;
  li_done : Forall (key_done (lp_mode lp)) es;
  li_pending : lp_try_one_pc lp = false -> Forall (fun e => en_pending e = None) es;
  li_waiting : lp_try_one_pc lp = true -> Forall (fun e => en_pending e = None -> en_ms e = []) es;
  li_blocked : Exists (fun e => en_blocked e = true) es -> lp_locks lp <> [] \/ lp_assertion_failure lp <> None
}.

Definition item_ok (raw : bytes) (m : M) : Prop :=
  bytes_ok raw /\ Mutation_key (into_mutation m) = Key_from_raw raw
  /\ mode_ok s raw st props (pessimistic_action m) /\ (one0 = true -> for_update_covered props raw)
  /\ (TransactionProperties_is_pessimistic props = true -> prewrite_fresh s raw st).

Lemma secs_for_needs pk sks key one :
  (match secs_for pk sks key with Some _ => true | None => false end || one)%bool = needs_ts sks one.
Proof. unfold secs_for, needs_ts. case_decide; [done|]. by destruct sks. Qed.

Lemma kind_of_one_pc sks one : is_one_pc (kind_of sks one) = one.
Proof. by destruct sks, one. Qed.

(** One key of the loop. *)
Lemma loop_key es lp raw m r txn' :
  loop_inv es lp -> item_ok raw m ->
  prewrite now tso can_enable stat_next (lp_txn lp) reader (tp_set_commit_kind props (lp_commit_kind lp))
    (into_mutation m) (secs_for (lp_async_commit_pk lp) (lp_secondary_keys lp) (Mutation_key (into_mutation m)))
    (pessimistic_action m) (pessimistic_expected_for_update_ts m) = (r, txn') ->
  exists ms pend, (forall b, buffer_inv (es ++ [Entry raw (into_mutation m) ms pend b]) txn')
    /\ key_result (needs_ts (lp_secondary_keys lp) (lp_try_one_pc lp)) r (Entry raw (into_mutation m) ms pend)
    /\ (lp_try_one_pc lp = false -> pend = None)
    /\ (lp_try_one_pc lp = true -> forall x, r = Ok x -> pend = None -> ms = []).
Proof.
  intros [Hb [Hkind Hsecs Hone _] _ _ _ _] (Hr & Hk & Hmode & Hcov & Hfresh) Hpw. rewrite Hk in Hpw.
  set (secs := secs_for _ _ _) in Hpw.
  assert (secondaries_ok secs /\ forall ks, secs = Some ks -> ks = secondaries_of raw) as [Hok Hof].
  { unfold secs. destruct Hsecs as [->|[-> ->]]; [unfold secs_for; by case_decide|].
    split; [|by apply secs_of]. unfold secs_for. case_decide; [done|]. by destruct sks0. }
  destruct (prewrite_key raw (into_mutation m) (tp_set_commit_kind props (lp_commit_kind lp)) secs
    (pessimistic_action m) (pessimistic_expected_for_update_ts m) es (lp_txn lp) r txn')
    as (ms & pend & Hbuf & Hres & Hpend & Hwait); try done.
  - by destruct props_in_range; split.
  - cbn. rewrite Hkind, kind_of_one_pc. intros Ho. by apply Hcov, Hone.
  - exists ms, pend. split; [done|]. cbn [tp_commit_kind tp_set_commit_kind] in Hres.
    rewrite Hkind, kind_of_one_pc in Hres. unfold secs in Hres. rewrite secs_for_needs in Hres. split; [done|].
    cbn [tp_commit_kind tp_set_commit_kind] in Hpend, Hwait. by rewrite Hkind, kind_of_one_pc in Hpend, Hwait.
Qed.

(** The three ways the loop goes on: the key is prewritten, the request falls back,
    or the key is blocked. *)
Lemma loop_prewritten es lp txn' raw mu ms pend ts ov old_values :
  let need := needs_ts (lp_secondary_keys lp) (lp_try_one_pc lp) in
  loop_inv es lp -> buffer_inv (es ++ [Entry raw mu ms pend false]) txn' ->
  key_result need (Ok (ts, ov)) (Entry raw mu ms pend) -> (lp_try_one_pc lp = false -> pend = None) ->
  (lp_try_one_pc lp = true -> pend = None -> ms = []) ->
  (need && TimeStamp_is_zero ts)%bool = false ->
  loop_inv (es ++ [Entry raw mu ms pend false])
    (lp_prewritten (lp_set_txn lp txn')
       (if (need && (lp_final_min_commit_ts lp <? ts))%bool then ts else lp_final_min_commit_ts lp) old_values).
Proof.
  intros need [Hb [Hkind Hsecs Hone Hfin] Hdone Hpend Hwait Hblk] Hbuf (Hu & Hneed & Hno) Hpn Hwn Hz.
  set (f' := if (_ && _)%bool then _ else _).
  assert (lp_final_min_commit_ts lp <= f' /\ u64_ok f' /\ (need = true -> ts <= f')) as (Hle & Hf' & Hts).
  { unfold f'. destruct need; cbn [andb]; [|split_and!; [lia|done..]].
    destruct (Z.ltb_spec (lp_final_min_commit_ts lp) ts); split_and!; done || lia. }
  clearbody f'. split; [done|by split| | | |].
  - unfold lp_mode in *. cbn [lp_secondary_keys lp_try_one_pc lp_final_min_commit_ts lp_prewritten lp_set_txn].
    fold need in Hdone |- *. unfold TimeStamp_is_zero in Hz. destruct need; cbn [andb] in Hz.
    + apply Forall_app. split; [|apply Forall_singleton; apply Hneed; [done|lia|auto]].
      eapply Forall_impl; [exact Hdone|]. intros e. by apply key_done_grows.
    + apply Forall_app. split; [done|]. apply Forall_singleton. auto.
  - cbn. intros Ho. apply Forall_app. split; [auto|]. apply Forall_singleton. cbn. auto.
  - cbn. intros Ho. apply Forall_app. split; [auto|]. apply Forall_singleton. cbn. eauto.
  - cbn. intros [Hex|Hex]%Exists_app; [auto|]. by apply Exists_cons in Hex as [|?%Exists_nil].
Qed.

Lemma txn_drop_guards_max_ts txn : cm_max_ts (t_cm (txn_drop_guards txn)) = cm_max_ts (t_cm txn).
Proof. cbn. by induction (t_guards txn). Qed.

Lemma loop_fallback es lp txn' lp' :
  Forall (fun e => exists mode, key_done mode e) es ->
  Forall (fun e => bytes_ok (en_raw e)) es -> NoDup (map en_raw es) -> buffer_inv es txn' ->
  (Exists (fun e => en_blocked e = true) es -> lp_locks lp <> [] \/ lp_assertion_failure lp <> None) ->
  lp_fallback (lp_set_txn lp txn') = Ok lp' -> loop_inv (map en_fallback es) lp'.
Proof.
  intros Hd Hraws Hnd [Hs Hcm (ms & Hm & Hre) Hp] Hblk Hf.
  unfold lp_fallback, fallback_1pc_locks in Hf. cbn [lp_txn lp_set_txn] in Hf. rewrite Hp in Hf. res_inv.
  match goal with Hfl : fallback_locks _ _ = Ok _ |- _ => apply fallback_locks_eq in Hfl as (Hm' & H1 & Hs' & Hc') end.
  cbn [t_modifies t_locks_for_1pc t_start_ts t_cm txn_take_locks_for_1pc] in *.
  assert (pending_locks (map en_fallback es) = []) as Hnil by (clear; induction es as [|e es IH]; done).
  split.
  - split; cbn [lp_txn]; [by cbn; rewrite Hs'| | |].
    + rewrite txn_drop_guards_max_ts. by rewrite Hc'.
    + exists (ms ++ concat (map fallback_tail es)). cbn. rewrite Hm', Hm, map_app. split; [done|].
      rewrite map_map. cbn [en_fallback en_ms]. intros k.
      rewrite <-(reordered_tails en_ms fallback_tail es Hraws Hnd) by
        (try apply fallback_tail_key; intros e He; destruct (proj1 (Forall_forall _ _) Hd e He) as [? ?]; by eapply key_done_on_key).
      by apply (reordered_app ms _ _ _ Hre).
    + cbn. by rewrite H1, Hnil.
  - split; cbn; [done|by left|done|by unfold u64_ok].
  - apply Forall_map. eapply Forall_impl; [exact Hd|]. intros e [mode' He]. by eapply key_done_fallback.
  - intros _. apply Forall_map, Forall_true. done.
  - done.
  - cbn. intros Hex. apply Hblk. clear -Hex. induction es as [|e es IH]; [by apply Exists_nil in Hex|].
    apply Exists_cons in Hex as [?|?]; [by left|right; auto].
Qed.

Lemma loop_blocked es lp lp' raw mu txn' :
  loop_inv es lp -> buffer_inv (es ++ [Entry raw mu [] None true]) txn' -> modes_inv lp' -> lp_txn lp' = txn' ->
  lp_mode lp' = lp_mode lp -> lp_try_one_pc lp' = lp_try_one_pc lp ->
  lp_locks lp' <> [] \/ lp_assertion_failure lp' <> None ->
  loop_inv (es ++ [Entry raw mu [] None true]) lp'.
Proof.
  intros [Hb Hmi Hdone Hpend Hwait _] Hbuf Hmi' Htxn Hmode Hone Hblk. split; [by rewrite Htxn|done| | | |done].
  - rewrite Hmode. apply Forall_app. split; [done|]. apply Forall_singleton. constructor.
  - rewrite Hone. intros Ho. apply Forall_app. split; [auto|]. by apply Forall_singleton.
  - rewrite Hone. intros Ho. apply Forall_app. split; [auto|]. by apply Forall_singleton.
Qed.

(** The transaction has a commit record on the key at [c]. *)
Definition committed_on (raw : bytes) (c : TimeStamp) : Prop :=
  exists w, a_write (abs s) (Key_from_raw raw) c = Some w /\ w_start_ts w = st /\ w_write_type w <> WtRollback.

Lemma check_committed_inv e txn raw r txn' :
  bytes_ok raw -> check_committed_record_on_err e txn reader (Key_from_raw raw) = (r, txn') ->
  match r with
  | Ok (locks, c) => locks = [] /\ committed_on raw c /\ txn' = clear txn
  | _ => True
  end.
Proof.
  intros Hr. unfold check_committed_record_on_err.
  assert (u64_ok st) as Hu by (unfold ts_ok, u64_ok in *; lia).
  destruct (reader_commit_record s raw st wf Hr Hu reader rd) as (rec & -> & Hrec).
  destruct rec as [ow|c w|c]; [by intros [= <- <-]| |by intros [= <- <-]].
  case_decide; intros [= <- <-]; [done|]. split; [done|]. split; [|done]. exists w.
  by destruct Hrec as (? & ? & _).
Qed.

(** The end of the loop: every key is passed, or the transaction is found to be
    committed and the buffer is cleared. *)
Definition loop_end (raws : list bytes) (mus : list Mutation) (r : txn_res (list txn_error * TimeStamp))
    (lp : PrewriteLoop) : Prop :=
  match r with
  | Ok (locks, final) =>
      (exists es, map en_raw es = raws /\ map en_mutation es = mus /\ loop_inv es lp
         /\ locks = lp_locks lp /\ final = lp_final_min_commit_ts lp /\ lp_assertion_failure lp = None)
      \/ (locks = [] /\ (exists raw, raw ∈ raws /\ committed_on raw final)
          /\ t_modifies (lp_txn lp) = [] /\ t_locks_for_1pc (lp_txn lp) = [])
  | _ => True
  end.

Lemma loop_checked raws mus raw e txn checked txn1 lp :
  bytes_ok raw -> raw ∈ raws -> check_committed_record_on_err e txn reader (Key_from_raw raw) = (checked, txn1) ->
  loop_end raws mus checked (lp_set_txn lp txn1).
Proof.
  intros Hr Hin Hc. apply check_committed_inv in Hc; [|done]. destruct checked as [[locks c]| |]; try done.
  destruct Hc as (-> & Hcom & ->). right. split_and!; [done|by exists raw|done..].
Qed.

Lemma prewrite_loop_spec ms : forall es raws lp r lp',
  loop_inv es lp -> Forall2 item_ok raws ms -> Forall (fun e => bytes_ok (en_raw e)) es ->
  NoDup (map en_raw es ++ raws) ->
  prewrite_loop now tso can_enable stat_next reader props ms lp = (r, lp') ->
  loop_end (map en_raw es ++ raws) (map en_mutation es ++ map into_mutation ms) r lp'.
Proof.
  induction ms as [|m ms IH]; intros es raws lp r lp' Hli Hitems Hraws Hnd; cbn [prewrite_loop].
  - inversion Hitems; subst. rewrite !app_nil_r. intros [= <- <-].
    destruct (lp_assertion_failure lp) eqn:Hf; [done|]. left. by exists es.
  - inversion Hitems as [|raw ? raws' ? Hitem Hitems' E1 E2]; subst. fold (secs_for (lp_async_commit_pk lp) (lp_secondary_keys lp) (Mutation_key (into_mutation m))).
    rewrite secs_for_needs. set (need := needs_ts _ _).
    destruct (prewrite _ _ _ _ _ _ _ _ _ _ _) as [pr txn] eqn:Hpw.
    destruct (loop_key es lp raw m pr txn Hli Hitem Hpw) as (ms' & pend & Hbuf & Hres & Hpend & Hwait).
    destruct Hitem as (Hr & Hk & _ & _ & _). rewrite Hk.
    rewrite cons_middle in Hnd |- *. cbn [map]. rewrite (cons_middle (into_mutation m)). rewrite app_assoc in Hnd |- *.
    rewrite (app_assoc (map en_mutation es)).
    assert (Forall bytes_ok (map en_raw es ++ [raw])) as Hall
      by (apply Forall_app; split; [by apply Forall_map|by apply Forall_singleton]).
    assert (forall es1 lp1 r lp', map en_raw es1 = map en_raw es ++ [raw] ->
      map en_mutation es1 = map en_mutation es ++ [into_mutation m] -> loop_inv es1 lp1 ->
      prewrite_loop now tso can_enable stat_next reader props ms lp1 = (r, lp') ->
      loop_end ((map en_raw es ++ [raw]) ++ raws') ((map en_mutation es ++ [into_mutation m]) ++ map into_mutation ms) r lp') as Hgo.
    { intros es1 lp1 r1 lp1' E1 E2 Hli1 Hl. rewrite <-E1, <-E2.
      eapply IH; [done|done| |by rewrite E1|done]. apply Forall_map. by rewrite E1. }
    assert (forall b, map en_raw (es ++ [Entry raw (into_mutation m) ms' pend b]) = map en_raw es ++ [raw]
      /\ map en_mutation (es ++ [Entry raw (into_mutation m) ms' pend b]) = map en_mutation es ++ [into_mutation m]) as Hmap
      by (intros b; by rewrite !map_app).
    assert (key_done None (Entry raw (into_mutation m) ms' pend false) ->
      match lp_fallback (lp_set_txn lp txn) with
      | Ok lp => prewrite_loop now tso can_enable stat_next reader props ms lp
      | Err e => (Err (TeMvcc e), lp_set_txn lp txn)
      | Panic => (Panic, lp_set_txn lp txn)
      end = (r, lp') ->
      loop_end ((map en_raw es ++ [raw]) ++ raws') ((map en_mutation es ++ [into_mutation m]) ++ map into_mutation ms) r lp') as Hfb.
    { intros Hd. destruct (lp_fallback _) as [lp1|e|] eqn:Hf; [|by intros [= <- <-]..].
      destruct (Hmap false) as [E1 E2]. destruct Hli as [_ _ Hdone _ _ Hblk].
      apply (Hgo (map en_fallback (es ++ [Entry raw (into_mutation m) ms' pend false])));
        [by rewrite map_map|by rewrite map_map|].
      apply (loop_fallback _ lp txn); [| | |by apply Hbuf| |done].
      - apply Forall_app. split; [|apply Forall_singleton; eauto]. eapply Forall_impl; [exact Hdone|]. eauto.
      - apply Forall_map. by rewrite E1.
      - rewrite E1. by apply NoDup_app in Hnd as [? _].
      - intros [Hex|Hex]%Exists_app; [auto|]. by apply Exists_cons in Hex as [|?%Exists_nil]. }
    destruct pr as [[ts ov]|e|]; [| |by intros [= <- <-]].
    { destruct (need && TimeStamp_is_zero ts)%bool eqn:Hz; cbn [negb].
      - apply andb_prop in Hz as [_ Hz%Z.eqb_eq]. apply Hfb. apply Hres. by right.
      - destruct (Hmap false) as [E1 E2]. apply (Hgo _ _ _ _ E1 E2). 
        apply (loop_prewritten es lp txn raw _ ms' pend ts ov); [done|apply Hbuf|done|done| |done].
        intros Ho. by apply (Hwait Ho (ts, ov)). }
    destruct (check_committed_record_on_err e txn reader (Key_from_raw raw)) as [checked txn1] eqn:Hck.
    pose proof (loop_checked ((map en_raw es ++ [raw]) ++ raws')
      ((map en_mutation es ++ [into_mutation m]) ++ map into_mutation ms) raw e txn checked txn1 (lp_set_txn lp txn) Hr) as Hchk.
    assert (raw ∈ (map en_raw es ++ [raw]) ++ raws') as Hin by (apply elem_of_app; left; apply elem_of_app; right; by left).
    specialize (Hchk Hin Hck). clear Hin.
    assert (forall lp1, ms' = [] /\ pend = None -> modes_inv lp1 -> lp_txn lp1 = txn -> lp_mode lp1 = lp_mode lp ->
      lp_try_one_pc lp1 = lp_try_one_pc lp -> lp_locks lp1 <> [] \/ lp_assertion_failure lp1 <> None ->
      prewrite_loop now tso can_enable stat_next reader props ms lp1 = (r, lp') ->
      loop_end ((map en_raw es ++ [raw]) ++ raws') ((map en_mutation es ++ [into_mutation m]) ++ map into_mutation ms) r lp') as Hbl.
    { intros lp1 [-> ->] ? ? ? ? ?. destruct (Hmap true) as [E1 E2]. apply (Hgo _ _ _ _ E1 E2).
      by eapply loop_blocked; [done|apply Hbuf|..]. }
    pose proof (li_modes _ _ Hli) as [Hkind Hsecs Hone Hfin].
    destruct e; try (by intros [= <- <-]).
    + destruct checked; [by intros [= <- <-]| |by intros [= <- <-]]. apply Hbl; try done.
      left. cbn. by destruct (lp_locks lp).
    + destruct (_ <? _); by intros [= <- <-].
    + destruct checked; [by intros [= <- <-]| |by intros [= <- <-]]. by apply Hfb.
    + apply Hbl; try done. right. cbn. by destruct (lp_assertion_failure lp).
Qed.

(** *** The result *)

(** All updates of a key. *)
Definition en_final (one_pc : bool) (f : TimeStamp) (e : entry) : list LModify :=
  en_ms e ++ if one_pc then commit_tail f e else [].

(** What a result says: some keys are locked and nothing is written; the
    transaction is committed already and nothing is written; or every key is
    prewritten, and committed with one-phase commit. *)
Definition result_of (raws : list bytes) (mus : list Mutation) (wr : WriteResult) : Prop :=
  exists pr, wr_pr wr = PrPrewriteResult pr
  /\ ((pr_locks pr <> [] /\ wr_modifies wr = [])
      \/ (pr_locks pr = [] /\ wr_modifies wr = [] /\ exists raw c, raw ∈ raws /\ committed_on raw c
            /\ (pr_one_pc_commit_ts pr <> 0 -> pr_one_pc_commit_ts pr = c)
            /\ (pr_min_commit_ts pr <> 0 -> pr_min_commit_ts pr = c))
      \/ (pr_locks pr = [] /\ exists es ms mode (one_pc : bool) f,
            map en_raw es = raws /\ map en_mutation es = mus /\ Forall (key_done mode) es
            /\ Forall (fun e => en_blocked e = false) es
            /\ wr_modifies wr = map encode_lm ms /\ reordered ms (concat (map (en_final one_pc f) es))
            /\ u64_ok f
            /\ (if one_pc then mode = Some f /\ f <> 0 /\ pr_one_pc_commit_ts pr = f
                   /\ Forall (fun e => en_pending e = None -> en_ms e = []) es
                else Forall (fun e => en_pending e = None) es /\ pr_one_pc_commit_ts pr = 0)
            /\ (pr_min_commit_ts pr <> 0 -> mode = Some (pr_min_commit_ts pr)))).

Lemma one_pc_commit_inv es lp f rel c txn' :
  loop_inv es lp -> f = lp_final_min_commit_ts lp ->
  Forall (fun e => bytes_ok (en_raw e)) es -> NoDup (map en_raw es) ->
  one_pc_commit (lp_try_one_pc lp) (lp_txn lp) f = Ok (c, rel, txn') ->
  exists ms, t_modifies txn' = map encode_lm ms
    /\ reordered ms (concat (map (en_final (lp_try_one_pc lp) f) es))
    /\ if lp_try_one_pc lp then lp_mode lp = Some f /\ f <> 0 /\ c = f
         /\ Forall (fun e => en_pending e = None -> en_ms e = []) es
       else Forall (fun e => en_pending e = None) es /\ c = 0.
Proof.
  intros [[Hs _ (ms & Hm & Hre) Hp] _ Hdone Hpend Hwait _] -> Hraws Hnd. unfold one_pc_commit, TimeStamp_is_zero.
  destruct (lp_try_one_pc lp) eqn:Hone.
  - assert (lp_mode lp = Some (lp_final_min_commit_ts lp)) as Hmode.
    { unfold lp_mode, needs_ts. by rewrite Hone, orb_true_r. }
    rewrite Hmode in Hdone.
    destruct (Z.eqb_spec (lp_final_min_commit_ts lp) 0) as [|Hnz]; [done|]. cbn [negb assert_ mbind res_bind].
    intros Hc. res_inv. destruct a as [rel' txn1]. simplify_eq. unfold handle_1pc_locks in *. rewrite Hp in *.
    match goal with Hl : commit_1pc_locks _ _ _ _ = Ok _ |- _ =>
      apply (commit_1pc_locks_eq _ es Hdone) in Hl as [Hm' _]; [|done] end.
    exists (ms ++ concat (map (commit_tail (lp_final_min_commit_ts lp)) es)).
    split; [rewrite Hm'; cbn; by rewrite Hm, map_app|]. split; [|auto]. intros k.
    unfold en_final. rewrite <-(reordered_tails en_ms (commit_tail _) es Hraws Hnd) by
      (try apply commit_tail_key; intros e He; eapply key_done_on_key; exact (proj1 (Forall_forall _ _) Hdone e He)).
    by apply (reordered_app ms _ _ _ Hre).
  - rewrite Hp. destruct (pending_locks es); [|done]. cbn [assert_ mbind res_bind]. intros [= <- _ <-].
    exists ms. split; [done|]. split; [|auto]. unfold en_final.
    assert (map (fun e => en_ms e ++ []) es = map en_ms es) as E by (apply map_ext; intros; apply app_nil_r).
    intros k. rewrite Hre. f_equal. f_equal. symmetry. exact E.
Qed.

Lemma write_result_inv {K : Type} `{PrewriteKind K M} (self : Prewriter K M) raws mus lp locks final async_apply wr extra cm' :
  Forall bytes_ok raws -> NoDup raws -> loop_end raws mus (Ok (locks, final)) lp ->
  Prewriter_write_result self lp locks final async_apply = Ok (wr, extra, cm') ->
  result_of raws mus wr.
Proof.
  intros Hraws Hnd Hend. unfold Prewriter_write_result. intros Hw. res_inv. destruct a as [[wr0 extra0] cm0].
  simplify_eq. unfold result_of. destruct locks as [|e locks].
  2: { simplify_eq. eexists. split; [done|]. by left. }
  unfold Prewriter_write_result_ok in *. res_inv. destruct a as [[c rel] txn].
  unfold take_guards, take_new_locks, into_modifies in *.
  match goal with Ho : one_pc_commit _ _ _ = Ok _ |- _ => rename Ho into Hone end.
  cbn [t_locks_for_1pc t_modifies] in *. res_inv. simplify_eq. eexists. split; [done|]. right.
  cbn [wr_modifies pr_locks pr_one_pc_commit_ts pr_min_commit_ts].
  destruct Hend as [(es & Hr & Hmu & Hli & Hlk & -> & Haf)|(_ & (raw & Hin & Hc) & Hm & Hp)].
  - right. split; [done|]. pose proof Hli as [_ [_ _ _ Hfin] Hdone _ _ Hblk].
    destruct (one_pc_commit_inv es lp (lp_final_min_commit_ts lp) rel c txn Hli eq_refl) as (ms & Hms & Hre & Hc);
      [apply Forall_map; by rewrite Hr|by rewrite Hr|done|].
    exists es, ms, (lp_mode lp), (lp_try_one_pc lp), (lp_final_min_commit_ts lp). split_and!; try done.
    + apply Forall_forall. intros e He. destruct (en_blocked e) eqn:Hbe; [|done].
      destruct Hblk as [?|?]; [|by rewrite Hlk in *|by rewrite Haf in *]. apply Exists_exists. eauto.
    + intros Hnz. unfold lp_mode, needs_ts. by destruct (lp_secondary_keys lp).
  - left. split; [done|]. unfold one_pc_commit, handle_1pc_locks in Hone. rewrite Hp in Hone.
    assert (t_modifies txn = [] /\ (c <> 0 -> c = final)) as [Hm' Hfin].
    { destruct (lp_try_one_pc lp); [destruct (negb _); [|done]|];
        cbn [assert_ mbind res_bind commit_1pc_locks] in Hone; by injection Hone as <- _ <-. }
    split; [done|]. exists raw, final. split_and!; [done..|]. by destruct (lp_secondary_keys lp).
Qed.

(** The updates are one effect per key. *)
Lemma entries_effects es mode (one_pc : bool) f :
  Forall (key_done mode) es -> u64_ok f ->
  (if one_pc then mode = Some f else Forall (fun e => en_pending e = None) es) ->
  Forall (fun e => effect floor s (en_raw e) st (en_final one_pc f e)) es.
Proof.
  intros Hdone Hf Hmode. apply Forall_forall. intros e He.
  pose proof (proj1 (Forall_forall _ _) Hdone e He) as Hd. unfold en_final. destruct one_pc.
  - subst mode. by apply key_done_commit.
  - rewrite app_nil_r. eapply key_done_effect; [done|]. exact (proj1 (Forall_forall _ _) Hmode e He).
Qed.

Lemma result_effects raws mus wr :
  result_of raws mus wr -> exists ms, wr_modifies wr = map encode_lm ms /\ effects floor s raws st ms.
Proof.
  intros (pr & _ & [[_ ->]|[(_ & -> & _)|(_ & es & ms & mode & one & f & <- & _ & Hdone & _ & Hm & Hre & Hf & Hmode & _)]]);
    try (exists []; split; [done|apply effects_none]).
  exists ms. split; [done|]. exists (map (en_final one f) es). split; [|done].
  assert (Forall (fun e => effect floor s (en_raw e) st (en_final one f e)) es) as He
    by (eapply entries_effects; [done..|]; by destruct one, Hmode).
  clear -He. induction He; constructor; done.
Qed.
End Key.
End Spec.
