(* ===== verification/PrewriteRequest.v ===== *)
(** * Prewrite requests

    From the loop of [PrewriteSpec] to the requests [Prewrite] and
    [PrewritePessimistic]: leaving out the version check when the write column
    family has nothing in the range of the keys is sound
    ([range_without_data]), and a request whose mutations name distinct keys has
    the result and the effects of [PrewriteSpec] ([Prewrite_result],
    [PrewritePessimistic_result]). *)

From Stdlib Require Import ZArith Lia Sorting.Sorted.
From stdpp Require Import base numbers list gmap.
From S2P Require Import Prelude Number Bytes Types Write Lock ConcurrencyManager Engine Reader.
From S2P Require Import AbsState ReaderSpec MvccTxn Prewrite TxnStatus Commands PrewriteCommand.
From S2P Require Import AcquirePessimisticLock KeyInv Protocol Values Effects PrewriteSpec.

Open Scope Z_scope.

(** ** The range of a request *)

Lemma Key_from_raw_leb a b :
  bytes_ok a -> bytes_ok b -> bytes_leb (Key_from_raw a) (Key_from_raw b) = bytes_leb a b.
Proof.
  intros Ha Hb. unfold bytes_leb, Key_from_raw. pose proof (encode_bytes_cmp a b [] [] Ha Hb) as E.
  rewrite !app_nil_r in E. rewrite E. by destruct (bytes_cmp a b).
Qed.

Lemma raw_leb_append a b t :
  bytes_ok a -> bytes_ok b -> bytes_leb a b = true ->
  bytes_leb (Key_from_raw a) (Key_append_ts (Key_from_raw b) t) = true.
Proof.
  intros Ha Hb. unfold bytes_leb, Key_append_ts, Key_from_raw. rewrite <-(app_nil_r (encode_bytes a)).
  rewrite encode_bytes_cmp by done. by destruct (bytes_cmp a b).
Qed.

Lemma append_leb_zero b c t :
  bytes_ok b -> bytes_ok c -> u64_ok t -> 0 < t -> bytes_leb b c = true ->
  bytes_leb (Key_append_ts (Key_from_raw c) 0) (Key_append_ts (Key_from_raw b) t) = false.
Proof.
  intros Hb Hc Ht Hpos Hle. unfold bytes_leb. rewrite Key_append_ts_cmp; [|done|done|by unfold u64_ok|done].
  unfold bytes_leb in Hle. rewrite (bytes_cmp_antisym b c). destruct (bytes_cmp b c); try done. cbn.
  by destruct (Z.compare_spec t 0); [lia..|].
Qed.

Lemma insert_mutation_perm m ms : insert_mutation m ms ≡ₚ m :: ms.
Proof.
  induction ms as [|m' ms IH]; [done|]. cbn. destruct (bytes_leb _ _); [done|]. by rewrite IH, Permutation_swap.
Qed.

Lemma sort_mutations_perm ms : sort_mutations ms ≡ₚ ms.
Proof. induction ms as [|m ms IH]; [done|]. cbn. by rewrite insert_mutation_perm, IH. Qed.

(** Every key is at least the first one and at most the last one. *)
Definition key_le (a b : Mutation) : Prop := bytes_leb (Mutation_key a) (Mutation_key b) = true.

Lemma insert_mutation_sorted m ms : StronglySorted key_le ms -> StronglySorted key_le (insert_mutation m ms).
Proof.
  induction 1 as [|m' ms Hs IH Hall]; cbn; [by repeat constructor|].
  destruct (bytes_leb (Mutation_key m) (Mutation_key m')) eqn:Hle.
  - constructor; [by constructor|]. constructor; [done|]. eapply Forall_impl; [exact Hall|].
    intros x Hx. by eapply bytes_leb_trans.
  - constructor; [done|]. rewrite insert_mutation_perm. constructor; [|done]. unfold key_le.
    by destruct (bytes_leb_total (Mutation_key m) (Mutation_key m')); [congruence|].
Qed.

Lemma sort_mutations_sorted ms : StronglySorted key_le (sort_mutations ms).
Proof. induction ms as [|m ms IH]; [constructor|]. by apply insert_mutation_sorted. Qed.

Lemma sorted_bounds ms first final m :
  StronglySorted key_le ms -> head ms = Some first -> last ms = Some final -> m ∈ ms ->
  key_le first m /\ key_le m final.
Proof.
  assert (forall a, key_le a a) as Hrefl by (intros a; unfold key_le; by apply bytes_leb_lt_or_eq; right).
  intros Hs. revert first. induction Hs as [|a ms Hs IH Hall]; intros first; [done|].
  cbn [head]. intros [= <-] Hlast Hin. split.
  - apply elem_of_cons in Hin as [->|Hin]; [done|]. exact (proj1 (Forall_forall _ _) Hall m Hin).
  - destruct ms as [|b ms]; [cbn in Hlast; injection Hlast as <-; apply list_elem_of_singleton in Hin as ->; done|].
    rewrite last_cons_cons in Hlast. apply elem_of_cons in Hin as [->|Hin].
    + exact (proj1 (Forall_forall _ _) Hall final (last_Some_elem_of _ _ Hlast)).
    + by apply (IH b).
Qed.

(** No record of a key in the range, when the range has no data. *)
Lemma range_without_data s raw raw0 raw1 b :
  store_inv s -> bytes_ok raw -> bytes_ok raw0 -> bytes_ok raw1 ->
  bytes_leb raw0 raw = true -> bytes_leb raw raw1 = true ->
  has_data_in_range s CF_WRITE (Key_from_raw raw0) (Key_append_ts (Key_from_raw raw1) TimeStamp_zero) b = false ->
  forall t, a_write (abs s) (Key_from_raw raw) t = None.
Proof.
  intros [Hwf Hi] Hr H0 H1 Hle0 Hle1. unfold has_data_in_range. destruct b; [done|]. intros Hno t.
  destruct (a_write (abs s) (Key_from_raw raw) t) as [w|] eqn:Hw; [exfalso|done].
  pose proof (kh_pos _ (ki_history _ _ (Hi raw Hr)) t w Hw) as Ht.
  assert (is_Some (get_cf s CF_WRITE (Key_append_ts (Key_from_raw raw) t))) as Hget.
  { cbn [a_write abs] in Hw. unfold write_at in Hw. destruct (decide _); [|done].
    destruct (get_cf s CF_WRITE _); [by eexists|done]. }
  pose proof (raw_leb_append raw0 raw t H0 Hr Hle0) as Hleft.
  pose proof (append_leb_zero raw raw1 t Hr H1 ltac:(unfold u64_ok; lia) ltac:(lia) Hle1) as Hright.
  pose proof (seek_cf_spec s CF_WRITE (Key_from_raw raw0)) as Hseek.
  destruct (seek_cf s CF_WRITE (Key_from_raw raw0)) as [[k v]|]; [|by rewrite (Hseek _ Hget) in Hleft].
  destruct Hseek as (_ & _ & Hmin). specialize (Hmin _ Hget Hleft).
  apply negb_false_iff in Hno. unfold TimeStamp_zero in Hno.
  by rewrite (bytes_leb_trans _ _ _ Hno Hmin) in Hright.
Qed.

(** ** Running a prewriter *)

Section Prewriter.
Context (now : Z) (tso : option TimeStamp) (can_enable : bool).
Context (stat_next : SnapshotReader Store -> Key -> TimeStamp -> u64).
Context {K M : Type} `{PrewriteKind K M} `{MutationLock M}.
Implicit Types self : Prewriter K M.

(** The secondaries to be recorded with a key: all of them with the primary key,
    none with the others. *)
Definition request_secondaries (primary : bytes) (sks : option (list bytes)) (raw : bytes) : list bytes :=
  match sks with
  | Some (k :: ks) => if decide (Key_from_raw raw = Key_from_raw primary) then k :: ks else []
  | _ => []
  end.

Lemma request_secondaries_of self raw ks :
  secs_for (Prewriter_async_commit_pk self) (pw_secondary_keys self) (Key_from_raw raw) = Some ks ->
  ks = request_secondaries (pw_primary self) (pw_secondary_keys self) raw.
Proof.
  unfold secs_for, Prewriter_async_commit_pk, request_secondaries.
  destruct (pw_secondary_keys self) as [[|k ks']|]; cbn [option_map].
  - case_decide; by intros [= <-].
  - case_decide as E; intros [= <-]; [|by rewrite decide_False; [|congruence]].
    by rewrite decide_True; [|congruence].
  - by case_decide.
Qed.

Lemma Prewriter_result floor s self cm env raws wr extra :
  let self' := Prewriter_prepare self s env in
  let props := Prewriter_props self' (we_read_old_value env) in
  store_inv s -> ts_ok (pw_start_ts self') -> props_ok props -> secondaries_ok (pw_secondary_keys self') ->
  Forall2 (item_ok s (pw_start_ts self') props (pw_try_one_pc self')) raws (pw_mutations self') -> NoDup raws ->
  u64_ok (cm_max_ts cm) -> floor <= cm_max_ts cm ->
  fst (Prewriter_process_write now tso can_enable stat_next self s cm env) = Ok (wr, extra) ->
  result_of floor s (pw_start_ts self') (request_secondaries (pw_primary self') (pw_secondary_keys self'))
    raws (map into_mutation (pw_mutations self')) wr.
Proof.
  intros self' props Hi Hst Hp Hsec Hitems Hnd Hcm Hfl. unfold Prewriter_process_write. fold self'.
  destruct (Prewriter_check_max_ts_synced self' _) as [[]| |]; [|done..].
  destruct (Prewriter_prewrite _ _ _ _ _ _ _ _) as [res lp] eqn:Hpw.
  destruct res as [[locks final]| |]; [|done..].
  destruct (Prewriter_write_result _ _ _ _ _) as [[[wr0 extra0] cm0]| |] eqn:Hw; [|done..]. intros [= -> ->].
  unfold Prewriter_prewrite in Hpw. fold props in Hpw.
  eapply (prewrite_loop_spec floor s (pw_start_ts self') Hi Hst
    (request_secondaries (pw_primary self') (pw_secondary_keys self')) now tso can_enable stat_next _
    (reader_of_ctx s (pw_start_ts self') (pw_ctx self')) props (pw_max_commit_ts self') (pw_secondary_keys self')
    (pw_try_one_pc self') (Prewriter_async_commit_pk self') Hp eq_refl Hsec (request_secondaries_of self') _ [] raws) in Hpw;
    [|..|done].
  - refine (write_result_inv floor s _ Hst _ _ _ _ _ self' raws _ _ _ _ _ _ _ _ _ Hnd Hpw Hw).
    clear -Hitems. induction Hitems as [|raw m raws ms [? _] _ IH]; by constructor.
  - split; cbn; [|split; cbn; [by unfold Prewriter_commit_kind, kind_of|by right|done|by unfold u64_ok]|constructor|constructor|constructor|].
    + split; cbn; [done|done|by exists []|done].
    + intros Hex. by apply Exists_nil in Hex.
  - done.
  - constructor.
Qed.
End Prewriter.

(** ** Requests *)

(** An optimistic request in range, with distinct keys, that asks for the version
    check. *)
Record prewrite_ok (p : Prewrite) (ctx : Context) (raws : list bytes) : Prop := {
  pok_start_ts : ts_ok (p_start_ts p);
  pok_keys : Forall bytes_ok raws;
  pok_distinct : NoDup raws;
  pok_mutations : map Mutation_key (p_mutations p) = map Key_from_raw raws;
  pok_checked : p_skip_constraint_check p = false;
  pok_primary : zlen (p_primary p) < 2 ^ 62;
  pok_txn_size : u64_ok (p_txn_size p);
  pok_lock_ttl : u64_ok (p_lock_ttl p);
  pok_min_commit_ts : u64_ok (p_min_commit_ts p);
  pok_secondaries : secondaries_ok (p_secondary_keys p);
  pok_txn_source : u64_ok (ctx_txn_source ctx)
}.

(** A pessimistic request in range, with distinct keys, each of which is locked or
    checked; the for-update timestamp of a request that tries one-phase commit
    covers the transaction's pessimistic locks.  The transaction does not prewrite
    a pessimistic lock that it took after it had committed the key. *)
Record prewrite_pessimistic_ok (s : Store) (p : PrewritePessimistic) (ctx : Context) (raws : list bytes)
    : Prop := {
  ppok_start_ts : ts_ok (pp_start_ts p);
  ppok_keys : Forall bytes_ok raws;
  ppok_distinct : NoDup raws;
  ppok_mutations : map Mutation_key (pp_mutations p).*1 = map Key_from_raw raws;
  ppok_actions : Forall (fun a => a <> SkipPessimisticCheck) (pp_mutations p).*2;
  ppok_for_update_ts : u64_ok (pp_for_update_ts p);
  ppok_covered : pp_try_one_pc p = true -> forall raw l, raw ∈ raws -> own s raw (pp_start_ts p) l ->
    Lock_is_pessimistic_lock l = true -> l_for_update_ts l <= pp_for_update_ts p;
  ppok_fresh : forall raw, raw ∈ raws -> prewrite_fresh s raw (pp_start_ts p);
  ppok_primary : zlen (pp_primary p) < 2 ^ 62;
  ppok_txn_size : u64_ok (pp_txn_size p);
  ppok_lock_ttl : u64_ok (pp_lock_ttl p);
  ppok_min_commit_ts : u64_ok (pp_min_commit_ts p);
  ppok_secondaries : secondaries_ok (pp_secondary_keys p);
  ppok_txn_source : u64_ok (ctx_txn_source ctx)
}.

Lemma Forall2_perm {A B} (P : A -> B -> Prop) l k k' :
  Forall2 P l k -> k ≡ₚ k' -> exists l', l ≡ₚ l' /\ Forall2 P l' k'.
Proof.
  intros HP Hperm. revert l HP. induction Hperm as [|y k k' Hp IH|y z k|k1 k2 k3 H1 IH1 H2 IH2]; intros l HP.
  - by exists l.
  - inversion HP as [|x ? l1 ? Hx Hl]; subst. destruct (IH l1 Hl) as (l' & Hl' & HP').
    exists (x :: l'). split; [by constructor|by constructor].
  - inversion HP as [|x ? l1 ? Hx Hl]; subst. inversion Hl as [|x' ? l2 ? Hx' Hl']; subst.
    exists (x' :: x :: l2). split; [apply Permutation_swap|by repeat constructor].
  - destruct (IH1 l HP) as (l1 & Hl1 & HP1). destruct (IH2 l1 HP1) as (l2 & Hl2 & HP2).
    exists l2. split; [by transitivity l1|done].
Qed.

Lemma map_keys_forall2 raws (mus : list Mutation) :
  map Mutation_key mus = map Key_from_raw raws ->
  Forall2 (fun raw m => Mutation_key m = Key_from_raw raw) raws mus.
Proof.
  revert mus. induction raws as [|raw raws IH]; intros [|m mus]; try done; cbn; intros [=]; constructor; auto.
Qed.

Section Requests.
Context (now : Z) (tso : option TimeStamp) (can_enable : bool).
Context (stat_next : SnapshotReader Store -> Key -> TimeStamp -> u64).
Context (floor : TimeStamp) (s : Store) (ctx : Context) (cm : ConcurrencyManager) (env : PrewriteEnv).
Hypothesis (inv : store_inv s).
Hypothesis (cm_in_range : u64_ok (cm_max_ts cm)) (floor_reached : floor <= cm_max_ts cm).

(** Whatever the engine says about the range, the version check is only left out
    for keys without records. *)
Lemma can_skip_sound b p raws kind mus :
  prewrite_ok p ctx raws ->
  Optimistic_can_skip_constraint_check s b {| skip_constraint_check := p_skip_constraint_check p |} (p_mutations p)
    = (kind, mus) ->
  mus ≡ₚ p_mutations p
  /\ exists raws', raws ≡ₚ raws' /\ Forall2 (fun raw m => Mutation_key m = Key_from_raw raw) raws' mus
     /\ (skip_constraint_check kind = true -> forall raw t, raw ∈ raws -> a_write (abs s) (Key_from_raw raw) t = None).
Proof.
  intros Hp. pose proof (map_keys_forall2 raws _ (pok_mutations _ _ _ Hp)) as Hkeys.
  pose proof (pok_checked _ _ _ Hp) as Hchk. unfold Optimistic_can_skip_constraint_check.
  destruct (_ <? _)%nat; [|by intros [= <- <-]; split; [done|]; exists raws; rewrite Hchk].
  destruct (Forall2_perm _ _ _ _ Hkeys (Permutation_sym (sort_mutations_perm (p_mutations p)))) as (raws' & Hraws & Hk').
  pose proof (sort_mutations_sorted (p_mutations p)) as Hsorted. pose proof (sort_mutations_perm (p_mutations p)) as Hperm.
  set (mus0 := sort_mutations (p_mutations p)) in *. clearbody mus0.
  assert (forall k, skip_constraint_check k = false ->
    (k, mus0) = (kind, mus) -> mus ≡ₚ p_mutations p /\ exists raws', raws ≡ₚ raws'
      /\ Forall2 (fun raw m => Mutation_key m = Key_from_raw raw) raws' mus
      /\ (skip_constraint_check kind = true -> forall raw t, raw ∈ raws -> a_write (abs s) (Key_from_raw raw) t = None)) as Hkeep.
  { intros k Hk [= <- <-]. split; [done|]. exists raws'. by rewrite Hk. }
  destruct (head mus0) as [first|] eqn:Hhead; [|by apply Hkeep].
  destruct (last mus0) as [final|] eqn:Hlast; [|by apply Hkeep].
  destruct (has_data_in_range _ _ _ _ _) eqn:Hdata; cbn [negb]; [by apply Hkeep|]. intros [= <- <-].
  split; [done|]. exists raws'. split; [done|]. split; [done|]. intros _ raw t Hin.
  assert (forall m, m ∈ mus0 -> exists r, r ∈ raws /\ Mutation_key m = Key_from_raw r) as Hraw.
  { intros m [i Hi]%list_elem_of_lookup. destruct (Forall2_lookup_r _ _ _ _ _ Hk' Hi) as (r & Hr & Hkr).
    exists r. split; [|done]. rewrite Hraws. by apply list_elem_of_lookup_2 in Hr. }
  destruct (Hraw first) as (raw0 & Hin0 & Hk0); [by apply head_Some_elem_of|].
  destruct (Hraw final) as (raw1 & Hin1 & Hk1); [by apply last_Some_elem_of|].
  rewrite Hk0, Hk1 in Hdata. rewrite Hraws in Hin. apply list_elem_of_lookup in Hin as [i Hi].
  destruct (Forall2_lookup_l _ _ _ _ _ Hk' Hi) as (m & Hm & Hkm). apply list_elem_of_lookup_2 in Hi, Hm.
  rewrite <-Hraws in Hi.
  destruct (sorted_bounds mus0 first final m Hsorted Hhead Hlast Hm) as [Hle0 Hle1].
  unfold key_le in *. rewrite Hk0, Hkm in Hle0. rewrite Hk1, Hkm in Hle1.
  pose proof (fun r => proj1 (Forall_forall _ _) (pok_keys _ _ _ Hp) r) as Hok.
  rewrite Key_from_raw_leb in Hle0, Hle1 by auto. apply (range_without_data s raw raw0 raw1 b); auto.
Qed.

Lemma Prewrite_result p raws wr extra :
  prewrite_ok p ctx raws ->
  fst (Prewrite_process_write now tso can_enable stat_next p ctx s cm env) = Ok (wr, extra) ->
  exists raws' mus, raws ≡ₚ raws' /\ mus ≡ₚ p_mutations p
    /\ Forall2 (fun raw m => Mutation_key m = Key_from_raw raw) raws' mus
    /\ result_of floor s (p_start_ts p) (request_secondaries (p_primary p) (p_secondary_keys p)) raws' mus wr.
Proof.
  intros Hp. unfold Prewrite_process_write. set (self := Prewrite_into_prewriter p ctx).
  destruct (Optimistic_can_skip_constraint_check s (we_skips_exhausted env) (pw_kind self) (pw_mutations self))
    as [kind mus] eqn:Hskip.
  assert (Prewriter_prepare self s env = Prewriter_set_kind_mutations self kind mus) as Hself
    by (unfold Prewriter_prepare; cbn; cbn in Hskip; by rewrite Hskip).
  destruct (can_skip_sound _ p raws kind mus Hp Hskip) as (Hmus & raws' & Hraws & Hkeys & Hnone).
  pose proof (Prewriter_result now tso can_enable stat_next floor s self cm env raws' wr extra) as Hres.
  rewrite Hself in Hres. cbn zeta in Hres. destruct Hp as [Hst Hks Hnd Hmut Hchk Hpr Hsz Httl Hmc Hsec Hsrc].
  intros Hok. exists raws', mus. split_and!; [done..|].
  rewrite <-(map_id mus). apply Hres; try done; cbn.
  - split; cbn; try done. unfold u64_ok, ts_ok in *. lia.
  - apply Forall2_same_length_lookup_2; [by eapply Forall2_length|]. intros i raw m Hr Hm.
    assert (raw ∈ raws) as Hin by (rewrite Hraws; by apply list_elem_of_lookup_2 in Hr).
    pose proof (Forall2_lookup_lr _ _ _ _ _ _ Hkeys Hr Hm) as Hk.
    split_and!; [exact (proj1 (Forall_forall _ _) Hks raw Hin)|done| |intros _|done].
    + split; [|done]. cbn. intros Hs t w Hw. by rewrite (Hnone Hs raw t Hin) in Hw.
    + by intros l _ _.
  - by rewrite <-Hraws.
Qed.

(** Constraints change neither the mutations nor their actions. *)
Lemma set_constraints_same constraints : forall mus mus',
  set_constraints mus constraints = Ok mus' ->
  map pmu_mutation mus' = map pmu_mutation mus
  /\ map pmu_pessimistic_action mus' = map pmu_pessimistic_action mus.
Proof.
  induction constraints as [|[i ts] cs IH]; intros mus mus'; cbn [set_constraints]; [by intros [= <-]|].
  destruct (mus !! i) as [m|] eqn:Hi; [|done]. intros Hs. apply IH in Hs as [-> ->].
  change (pmu_mutation <$> <[i:=set_expected_for_update_ts m ts]> mus = pmu_mutation <$> mus
    /\ pmu_pessimistic_action <$> <[i:=set_expected_for_update_ts m ts]> mus = pmu_pessimistic_action <$> mus).
  rewrite !list_fmap_insert. split; apply list_insert_id; by rewrite list_lookup_fmap, Hi.
Qed.

Lemma PrewritePessimistic_result p raws wr extra :
  prewrite_pessimistic_ok s p ctx raws ->
  fst (PrewritePessimistic_process_write now tso can_enable stat_next p ctx s cm env) = Ok (wr, extra) ->
  result_of floor s (pp_start_ts p) (request_secondaries (pp_primary p) (pp_secondary_keys p)) raws
    (pp_mutations p).*1 wr.
Proof.
  intros Hp. unfold PrewritePessimistic_process_write, PrewritePessimistic_into_prewriter.
  destruct (set_constraints _ _) as [mus| |] eqn:Hcs; [|done..]. cbn [mbind res_bind].
  apply set_constraints_same in Hcs as [Hmus Hacts]. rewrite !map_map in Hmus, Hacts.
  set (self := {| pw_kind := _ |}).
  pose proof (Prewriter_result now tso can_enable stat_next floor s self cm env raws wr extra) as Hres.
  assert (exists retry, Prewriter_prepare self s env = (if retry : bool then Prewriter_set_retry self else self)) as (retry & Hself)
    by (destruct (we_committed env) eqn:E; [exists true|exists false]; unfold Prewriter_prepare; cbn; by rewrite E).
  rewrite Hself in Hres. cbn zeta in Hres.
  destruct Hp as [Hst Hks Hnd Hmut Hact Hfu Hcov Hfresh Hpr Hsz Httl Hmc Hsec Hsrc].
  assert (map pmu_mutation mus = (pp_mutations p).*1) as Hm1.
  { rewrite Hmus. apply map_ext. by intros [m a]. }
  assert (map pmu_pessimistic_action mus = (pp_mutations p).*2) as Hm2.
  { rewrite Hacts. apply map_ext. by intros [m a]. }
  assert (forall props, tp_kind props = Pessimistic (pp_for_update_ts p) ->
    Forall2 (item_ok s (pp_start_ts p) props (pp_try_one_pc p)) raws mus) as Hitems.
  { intros props Hkind. apply Forall2_same_length_lookup_2.
    { pose proof (f_equal length Hmut) as E. pose proof (f_equal length Hm1) as E'.
      rewrite !length_map, ?length_fmap in *. lia. }
    intros i raw m Hr Hm. pose proof (list_elem_of_lookup_2 _ _ _ Hr) as Hin.
    assert ((pp_mutations p).*1 !! i = Some (pmu_mutation m)) as Hi1.
    { rewrite <-Hm1. change (map pmu_mutation mus) with (pmu_mutation <$> mus). by rewrite list_lookup_fmap, Hm. }
    assert ((pp_mutations p).*2 !! i = Some (pmu_pessimistic_action m)) as Hi2.
    { rewrite <-Hm2. change (map pmu_pessimistic_action mus) with (pmu_pessimistic_action <$> mus).
      by rewrite list_lookup_fmap, Hm. }
    split_and!; [exact (proj1 (Forall_forall _ _) Hks raw Hin)| | | |intros _; by apply Hfresh].
    - assert (Some (Mutation_key (pmu_mutation m)) = Some (Key_from_raw raw)) as E; [|by injection E].
      transitivity (map Mutation_key (pp_mutations p).*1 !! i).
      + change (map Mutation_key ?l) with (Mutation_key <$> l). by rewrite list_lookup_fmap, Hi1.
      + rewrite Hmut. change (map Key_from_raw ?l) with (Key_from_raw <$> l). by rewrite list_lookup_fmap, Hr.
    - unfold mode_ok. rewrite Hkind. exact (proj1 (Forall_forall _ _) Hact _ (list_elem_of_lookup_2 _ _ _ Hi2)).
    - intros Hone l Hown Hpl _. unfold TransactionProperties_for_update_ts. rewrite Hkind. by apply (Hcov Hone raw l). }
  intros Hok. rewrite <-Hm1. assert (u64_ok (pp_start_ts p)) as Hu by (unfold u64_ok, ts_ok in *; lia).
  destruct retry; (apply Hres; try done; by apply Hitems).
Qed.

(** *** Effects *)

Definition write_of (r : txn_res (WriteResult * PrewriteExtra)) : txn_res WriteResult := '(wr, _) ← r; Ok wr.

Lemma Prewrite_effects p raws :
  prewrite_ok p ctx raws -> exists raws', raws ≡ₚ raws' /\
  command_effects floor s (p_start_ts p) raws'
    (write_of (fst (Prewrite_process_write now tso can_enable stat_next p ctx s cm env))).
Proof.
  intros Hp. destruct (fst (Prewrite_process_write now tso can_enable stat_next p ctx s cm env)) as [[wr extra]| |] eqn:Hr;
    [|by exists raws..].
  destruct (Prewrite_result p raws wr extra Hp Hr) as (raws' & mus & Hraws & _ & _ & Hres).
  exists raws'. split; [done|]. intros wr' [= <-]. by eapply result_effects.
Qed.

Lemma PrewritePessimistic_effects p raws :
  prewrite_pessimistic_ok s p ctx raws ->
  command_effects floor s (pp_start_ts p) raws
    (write_of (fst (PrewritePessimistic_process_write now tso can_enable stat_next p ctx s cm env))).
Proof.
  intros Hp wr Hw. unfold write_of in Hw. res_inv. destruct a as [wr' extra]. simplify_eq.
  eapply result_effects. by eapply PrewritePessimistic_result.
Qed.
End Requests.
