(* ===== verification/System.v ===== *)
(** * The transactional store as a transition system

    Steps are the commands of [Commands], the acquisition of pessimistic locks of
    [AcquirePessimisticLock], the prewrite requests of [PrewriteCommand] with async
    and one-phase commit, and the [prewrite] of [Prewrite] of one key, each on
    a snapshot of the current store, as the scheduler runs them under latches;
    the reachable stores start from the empty engine.  Requests are in range, a
    command names each key once, start timestamps are positive, and a resolving
    command carries zero or a commit timestamp above the start.  Of the clients
    of pessimistic transactions the steps assume what the protocol asks of them:
    a commit timestamp is above the for-update timestamps of the locks it commits
    ([commit_above]), a prewrite asks for a lock or for the version check
    ([prewrite_mode]), a transaction that has committed a key does not prewrite it
    once more through a pessimistic lock that a late request took afterwards
    ([prewrite_fresh]), and a prewrite that tries one-phase commit has a
    for-update timestamp that covers the pessimistic locks
    ([prewrite_pessimistic_ok]).  [step_after floor] is a step on a node whose
    maximum timestamp has reached [floor].

    The lemmas show that every step keeps the invariant of every key and of the
    stored values; the theorems about reachable stores are in [SystemSpec]. *)

From Stdlib Require Import ZArith Lia.
From stdpp Require Import base numbers list gmap.
From S2P Require Import Prelude Number Bytes Types Write Lock ConcurrencyManager Engine Reader.
From S2P Require Import AbsState ReaderSpec MvccTxn Prewrite TxnStatus Commands AcquirePessimisticLock KeyInv Protocol.
From S2P Require Import Values Effects PrewriteCommand PrewriteSpec PrewriteRequest.

Open Scope Z_scope.

Definition marks_room (s : Store) : Prop := forall raw, room_to_mark s raw.

Definition commit_above (s : Store) (raws : list bytes) (st c : TimeStamp) : Prop :=
  forall raw, raw ∈ raws -> above_for_update s raw st c.

(** A step on a node that has served reads up to [floor]. *)
Inductive step_after (floor : TimeStamp) (s : Store) : Store -> Prop :=
| step_prewrite now tso can_enable stat_next ctx cm raw st props mutation secondary_keys action expected
    r txn' ms s' :
    bytes_ok raw -> ts_ok st -> Mutation_key mutation = Key_from_raw raw -> props_ok props ->
    tp_start_ts props = st -> prewrite_mode props action -> secondaries_ok secondary_keys ->
    prewrite_fresh s raw st -> u64_ok (cm_max_ts cm) ->
    prewrite now tso can_enable stat_next (MvccTxn_new st cm) (SnapshotReader_new_with_ctx st s ctx)
      props mutation secondary_keys action expected = (r, txn') ->
    into_modifies txn' = Ok (E:=unit) ms -> write_modifies (E:=unit) s ms = Ok s' -> step_after floor s s'
| step_prewrite_request now tso can_enable stat_next ctx cm env p raws s' :
    prewrite_ok p ctx raws -> u64_ok (cm_max_ts cm) -> floor <= cm_max_ts cm ->
    applied s (write_of (fst (Prewrite_process_write now tso can_enable stat_next p ctx s cm env))) s' ->
    step_after floor s s'
| step_prewrite_pessimistic now tso can_enable stat_next ctx cm env p raws s' :
    prewrite_pessimistic_ok s p ctx raws -> u64_ok (cm_max_ts cm) -> floor <= cm_max_ts cm ->
    applied s (write_of (fst (PrewritePessimistic_process_write now tso can_enable stat_next p ctx s cm env))) s' ->
    step_after floor s s'
| step_acquire now tso can_enable stat_next ctx cm raws p need_old_value s' :
    Forall bytes_ok raws.*1 -> NoDup raws.*1 -> params_ok p -> ts_ok (plp_start_ts p) ->
    u64_ok (cm_max_ts cm) ->
    applied s (fst (AcquirePessimisticLock_process_write now tso can_enable stat_next s ctx cm
                      (raw_keys raws) p need_old_value)) s' -> step_after floor s s'
| step_commit ctx cm raws st c s' :
    Forall bytes_ok raws -> NoDup raws -> ts_ok st -> u64_ok c -> commit_above s raws st c ->
    applied s (Commit_process_write s ctx cm (map Key_from_raw raws) st c) s' -> step_after floor s s'
| step_rollback ctx cm raws st s' :
    Forall bytes_ok raws -> NoDup raws -> ts_ok st -> marks_room s ->
    applied s (Rollback_process_write s ctx cm (map Key_from_raw raws) st) s' -> step_after floor s s'
| step_resolve ctx cm raws st c s' :
    Forall bytes_ok raws -> NoDup raws -> ts_ok st -> u64_ok c ->
    (c = 0 \/ st < c /\ commit_above s raws st c) -> marks_room s ->
    applied s (ResolveLockLite_process_write s ctx cm st c (map Key_from_raw raws)) s' -> step_after floor s s'
| step_pessimistic_rollback ctx cm raws st for_update_ts scan_key s' :
    Forall bytes_ok raws -> NoDup raws -> ts_ok st ->
    applied s (PessimisticRollback_process_write s ctx cm (map Key_from_raw raws) st for_update_ts
                 scan_key) s' -> step_after floor s s'
| step_cleanup ctx cm now tso raw st current_ts s' :
    bytes_ok raw -> ts_ok st -> marks_room s ->
    applied s (fst (Cleanup_process_write s ctx cm now tso (Key_from_raw raw) st current_ts)) s' ->
    step_after floor s s'
| step_check_txn_status ctx cm now tso raw st caller current_ts rollback force resolving verify s' :
    bytes_ok raw -> ts_ok st -> u64_ok caller -> u64_ok current_ts -> marks_room s ->
    applied s (fst (CheckTxnStatus_process_write s ctx cm now tso (Key_from_raw raw) st caller current_ts
                      rollback force resolving verify)) s' -> step_after floor s s'
| step_check_secondary_locks ctx cm now tso raws st s' :
    Forall bytes_ok raws -> NoDup raws -> ts_ok st -> marks_room s ->
    applied s (fst (CheckSecondaryLocks_process_write s ctx cm now tso (map Key_from_raw raws) st)) s' ->
    step_after floor s s'
| step_heart_beat ctx cm raw st ttl mc s' :
    bytes_ok raw -> ts_ok st -> u64_ok ttl -> u64_ok mc ->
    applied s (TxnHeartBeat_process_write s ctx cm (Key_from_raw raw) st ttl mc) s' -> step_after floor s s'.

Abbreviation step := (step_after 0).

Lemma step_lower floor floor' s s' : step_after floor s s' -> floor' <= floor -> step_after floor' s s'.
Proof.
  intros Hstep Hle. destruct Hstep;
    [eauto using step_prewrite|eapply step_prewrite_request; eauto; lia|eapply step_prewrite_pessimistic; eauto; lia
    |eauto using step_acquire|eauto using step_commit|eauto using step_rollback|eauto using step_resolve
    |eauto using step_pessimistic_rollback|eauto using step_cleanup|eauto using step_check_txn_status
    |eauto using step_check_secondary_locks|eauto using step_heart_beat].
Qed.

Inductive reachable : Store -> Prop :=
| reachable_init : reachable BTreeEngine_new
| reachable_step s s' : reachable s -> step s s' -> reachable s'.

Section CommandEffects.
Context (floor : TimeStamp) (s : Store) (ctx : Context) (cm : ConcurrencyManager) (st : TimeStamp).
Hypothesis (inv : store_inv s) (st_pos : ts_ok st).
Let wf : wf_store s := proj1 inv.
Let reader := SnapshotReader_new_with_ctx st s ctx.

Lemma ts_u64 : u64_ok st.
Proof. unfold u64_ok, ts_ok in *. lia. Qed.

Lemma finish_effects txn ms raws pr released known :
  txn = add_updates (MvccTxn_new st cm) ms [] -> effects floor s raws st ms ->
  command_effects floor s st raws (finish txn pr released known).
Proof. intros -> He wr Hf. apply finish_modifies in Hf as [_ ->]. eauto. Qed.

Lemma keys_command_effects raws act pr known :
  (forall raw txn o txn', raw ∈ raws -> t_start_ts txn = st ->
     act txn (Key_from_raw raw) = Ok (o, txn') ->
     exists ms, txn' = add_updates txn ms [] /\ effect floor s raw st ms) ->
  command_effects floor s st raws
    ('(released, txn) ← for_keys act (MvccTxn_new st cm) (map Key_from_raw raws) [];
     finish txn pr released known).
Proof.
  intros Hact wr Hc. apply res_bind_ok in Hc as ([released txn] & Hf & Hc).
  destruct (for_keys_effects floor s st act raws Hact (MvccTxn_new st cm) [] released txn eq_refl Hf) as (ms & Htxn & Hms).
  by eapply finish_effects.
Qed.

Lemma Commit_effects raws c :
  Forall bytes_ok raws -> u64_ok c -> commit_above s raws st c ->
  command_effects floor s st raws (Commit_process_write s ctx cm (map Key_from_raw raws) st c).
Proof.
  intros Hraws Hc Habove. unfold Commit_process_write. destruct (Z.leb_spec c st); [done|].
  apply keys_command_effects. intros raw txn o txn' Hin Hst Hcm.
  pose proof (raw_in_ok raws raw Hraws Hin) as Hr.
  eapply (commit_effect floor s raw st txn wf Hr ts_u64 Hst reader (reader_of_ctx s st ctx) c); try done.
  by apply Habove.
Qed.

Lemma Acquire_effects now tso can_enable stat_next raws p need_old_value :
  plp_start_ts p = st -> Forall bytes_ok raws.*1 -> params_ok p -> u64_ok (cm_max_ts cm) ->
  command_effects floor s st raws.*1 (fst (AcquirePessimisticLock_process_write now tso can_enable stat_next s ctx cm
                                  (raw_keys raws) p need_old_value)).
Proof.
  intros Hst Hraws Hp Hcm wr Hwr.
  destruct (AcquirePessimisticLock_process_write _ _ _ _ _ _ _ _ _ _) as [r cm'] eqn:Ha. cbn in Hwr. subst r.
  apply AcquirePessimisticLock_inv in Ha as (mss & Hall & ->); [|done..]. rewrite Hst in Hall.
  exists (concat mss). split; [done|]. exists mss. split; [|by intros k].
  induction Hall as [|raw ms raws' mss' Hu Hall IH]; constructor.
  - destruct Hu as [->|(q & Hal & ->)]; [constructor|]. by apply eff_acquire.
  - apply IH. by apply Forall_cons_1 in Hraws as [].
Qed.

Lemma Rollback_effects raws :
  Forall bytes_ok raws -> marks_room s ->
  command_effects floor s st raws (Rollback_process_write s ctx cm (map Key_from_raw raws) st).
Proof.
  intros Hraws Hroom. apply keys_command_effects. intros raw txn o txn' Hin Hst Hcm.
  pose proof (raw_in_ok raws raw Hraws Hin) as Hr.
  eapply (cleanup_effect floor s raw st txn wf Hr ts_u64 Hst reader (reader_of_ctx s st ctx)
      (store_inv_starts s raw inv Hr)); [apply Hroom|exact Hcm].
Qed.

Lemma ResolveLockLite_effects raws c :
  Forall bytes_ok raws -> u64_ok c -> (c = 0 \/ st < c /\ commit_above s raws st c) -> marks_room s ->
  command_effects floor s st raws (ResolveLockLite_process_write s ctx cm st c (map Key_from_raw raws)).
Proof.
  intros Hraws Hc Hlt Hroom. apply keys_command_effects. intros raw txn o txn' Hin Hst.
  pose proof (raw_in_ok raws raw Hraws Hin) as Hr. unfold TimeStamp_is_zero.
  destruct (Z.eqb_spec c 0); cbn [negb]; intros Hcm.
  - eapply (cleanup_effect floor s raw st txn wf Hr ts_u64 Hst reader (reader_of_ctx s st ctx)
      (store_inv_starts s raw inv Hr)); [apply Hroom|exact Hcm].
  - eapply (commit_effect floor s raw st txn wf Hr ts_u64 Hst reader (reader_of_ctx s st ctx) c); try done.
    + lia.
    + destruct Hlt as [?|[_ Habove]]; [done|]. by apply Habove.
Qed.

Lemma PessimisticRollback_effects raws for_update_ts scan_key :
  Forall bytes_ok raws ->
  command_effects floor s st raws
    (PessimisticRollback_process_write s ctx cm (map Key_from_raw raws) st for_update_ts scan_key).
Proof.
  intros Hraws. apply keys_command_effects. intros raw txn o txn' Hin Hst Ha.
  pose proof (raw_in_ok raws raw Hraws Hin) as Hr.
  pose proof (reader_load_lock s raw st wf Hr reader (reader_of_ctx s st ctx)) as Hload.
  fold reader in Ha. cbv beta in Ha. rewrite Hload in Ha. cbn [mbind res_bind] in Ha.
  assert (exists ms, txn = add_updates txn ms [] /\ effect floor s raw st ms) as Hnone.
  { exists []. rewrite add_updates_nil. split; [done|constructor]. }
  destruct (a_lock (abs s) (Key_from_raw raw)) as [l|] eqn:Hl; [|by injection Ha as _ <-].
  destruct (_ && _ && _)%bool eqn:Hcond; [|by injection Ha as _ <-].
  apply andb_prop in Hcond as [[_ Ht%Z.eqb_eq]%andb_prop _].
  eapply pessimistic_unlock_effect; [|done]. by split.
Qed.

Lemma Cleanup_effects now tso raw current_ts :
  bytes_ok raw -> marks_room s ->
  command_effects floor s st [raw] (fst (Cleanup_process_write s ctx cm now tso (Key_from_raw raw) st current_ts)).
Proof.
  intros Hr Hroom wr Hc. unfold Cleanup_process_write in Hc.
  destruct (update_max_ts now tso cm st) as [upd cm']. cbn [fst] in Hc.
  apply res_bind_ok in Hc as (? & _ & Hc). apply res_bind_ok in Hc as ([rel txn] & Hcl & Hc).
  apply map_err_ok in Hcl.
  destruct (cleanup_effect floor s raw st (MvccTxn_new st cm') wf Hr ts_u64 eq_refl reader (reader_of_ctx s st ctx)
    (store_inv_starts s raw inv Hr) current_ts true rel txn (Hroom raw) Hcl) as (ms & -> & He).
  apply finish_modifies in Hc as [_ ->]. exists ms. split; [done|]. by apply effects_one.
Qed.

Lemma CheckTxnStatus_effects now tso raw caller current_ts rollback force resolving verify :
  bytes_ok raw -> u64_ok caller -> u64_ok current_ts -> marks_room s ->
  command_effects floor s st [raw] (fst (CheckTxnStatus_process_write s ctx cm now tso (Key_from_raw raw) st caller
                                current_ts rollback force resolving verify)).
Proof.
  intros Hr Hcal Hcur Hroom wr Hc. unfold CheckTxnStatus_process_write in Hc.
  destruct (update_max_ts now tso cm _) as [upd cm']. cbn [fst] in Hc.
  apply res_bind_ok in Hc as (? & _ & Hc).
  pose proof (reader_load_lock s raw st wf Hr reader (reader_of_ctx s st ctx)) as Hload.
  fold reader in Hc. rewrite Hload in Hc. cbn [map_err mbind res_bind] in Hc.
  apply res_bind_ok in Hc as ([[status rel] txn] & Hst & Hc). apply map_err_ok in Hst.
  assert (exists ms, txn = add_updates (MvccTxn_new st cm') ms [] /\ effect floor s raw st ms) as (ms & -> & He).
  { assert (forall mis, not_own s raw st -> (mis = None \/ mis = a_lock (abs s) (Key_from_raw raw)) ->
      ('(status, txn) ← check_txn_status_missing_lock (MvccTxn_new st cm') reader (Key_from_raw raw) mis
                        (MissingLockAction_rollback rollback) resolving;
       Ok (status, None, txn)) = Ok (status, rel, txn) ->
      exists ms, txn = add_updates (MvccTxn_new st cm') ms [] /\ effect floor s raw st ms) as Hmiss.
    { intros mis Hno Hmis Hm. apply res_bind_ok in Hm as ([status' txn'] & Hm & Hk).
      injection Hk as _ _ <-.
      exact (missing_lock_effect floor s raw st (MvccTxn_new st cm') wf Hr ts_u64 eq_refl reader
        (reader_of_ctx s st ctx) (store_inv_starts s raw inv Hr) mis _ _ _ _ Hno (Hroom raw) Hmis Hm). }
    destruct (a_lock (abs s) (Key_from_raw raw)) as [l|] eqn:Hl;
      [destruct (Z.eqb_spec (l_ts l) st) as [Ht|Ht]|].
    - exact (lock_exists_effect floor s raw st (MvccTxn_new st cm') wf Hr ts_u64 eq_refl reader
        (reader_of_ctx s st ctx) (store_inv_starts s raw inv Hr) l current_ts caller force resolving
        verify rollback (status, rel) txn (conj Hl Ht) Hcur Hcal Hst).
    - eapply (Hmiss (Some l)); [intros l' Hl'; congruence|by right|done].
    - eapply (Hmiss None); [intros l' Hl'; congruence|by left|done]. }
  apply finish_modifies in Hc as [_ ->]. exists ms. split; [done|]. by apply effects_one.
Qed.

Lemma secondary_loop_effects raws : forall txn released result o,
  Forall bytes_ok raws -> marks_room s -> t_start_ts txn = st ->
  check_secondary_locks_loop txn reader st (map Key_from_raw raws) released result = Ok o ->
  exists ms, snd o = add_updates txn ms [] /\ effects floor s raws st ms.
Proof.
  induction raws as [|raw raws IH]; intros txn released result o Hraws Hroom Hst;
    cbn [map check_secondary_locks_loop].
  - intros [= <-]. exists []. rewrite add_updates_nil. split; [done|apply effects_none].
  - apply Forall_cons_1 in Hraws as [Hr Hraws]. intros Hc.
    apply res_bind_ok in Hc as ([[status rel] txn1] & Hs & Hc). apply map_err_ok in Hs.
    destruct (check_secondary_lock_effect floor s raw st txn wf Hr ts_u64 Hst reader (reader_of_ctx s st ctx)
      (store_inv_starts s raw inv Hr) status rel txn1 (Hroom raw) Hs) as (m & -> & Hm).
    destruct status as [l|c|].
    + apply res_bind_ok in Hc as (r & _ & Hc). apply res_bind_ok in Hc as (result' & _ & Hc).
      apply IH in Hc as (ms & -> & Hms); [|done..]. exists (m ++ ms). rewrite add_updates_add.
      split; [done|]. by apply effects_cons.
    + injection Hc as <-. exists (m ++ []). rewrite app_nil_r at 1. split; [done|].
      apply effects_cons; [done|apply effects_none].
    + injection Hc as <-. exists (m ++ []). rewrite app_nil_r at 1. split; [done|].
      apply effects_cons; [done|apply effects_none].
Qed.

Lemma CheckSecondaryLocks_effects now tso raws :
  Forall bytes_ok raws -> marks_room s ->
  command_effects floor s st raws
    (fst (CheckSecondaryLocks_process_write s ctx cm now tso (map Key_from_raw raws) st)).
Proof.
  intros Hraws Hroom wr Hc. unfold CheckSecondaryLocks_process_write in Hc.
  destruct (update_max_ts now tso cm st) as [upd cm']. cbn [fst] in Hc.
  apply res_bind_ok in Hc as (? & _ & Hc). apply res_bind_ok in Hc as ([[result rel] txn] & Hl & Hc).
  destruct (secondary_loop_effects raws (MvccTxn_new st cm') [] (SlsLocked []) (result, rel, txn)
    Hraws Hroom eq_refl Hl) as (ms & Htxn & He). cbn [snd] in Htxn.
  apply finish_modifies in Hc as [_ ->]. exists ms. by rewrite Htxn.
Qed.

Lemma lock_ok_set_ttl l ttl : lock_ok l -> u64_ok ttl -> lock_ok (Lock_set_ttl l ttl).
Proof. intros Hl Ht. destruct l, Hl. by split. Qed.

Lemma TxnHeartBeat_effects raw ttl mc :
  bytes_ok raw -> u64_ok ttl -> u64_ok mc ->
  command_effects floor s st [raw] (TxnHeartBeat_process_write s ctx cm (Key_from_raw raw) st ttl mc).
Proof.
  intros Hr Httl Hmc wr Hc. unfold TxnHeartBeat_process_write in Hc.
  pose proof (reader_load_lock s raw st wf Hr reader (reader_of_ctx s st ctx)) as Hload.
  fold reader in Hc. rewrite Hload in Hc. cbn [map_err mbind res_bind] in Hc.
  destruct (a_lock (abs s) (Key_from_raw raw)) as [l|] eqn:Hl; [|by res_inv].
  destruct (Z.eqb_spec (l_ts l) st) as [Ht|]; [|by apply res_bind_ok in Hc as (? & _ & ?)].
  pose proof (abs_lock_ok s _ l wf Hl) as Hok.
  assert (forall t m, u64_ok t -> u64_ok m -> l_min_commit_ts l <= m ->
    effect floor s raw st [LPutLock (Key_from_raw raw) (Lock_set_ttl (Lock_set_min_commit_ts l m) t)]) as Heff.
  { intros t m Ht' Hm Hle. eapply eff_refresh; [by split|split; [by destruct l|by eexists _, _]|].
    apply lock_ok_set_ttl; [|done]. by apply lock_ok_set_min_commit_ts. }
  assert (forall l' u, (exists t m, l' = Lock_set_ttl (Lock_set_min_commit_ts l m) t
      /\ u64_ok t /\ u64_ok m /\ l_min_commit_ts l <= m) ->
    command_effects floor s st [raw]
      (txn ← (if u : bool then map_err TeMvcc (put_lock (MvccTxn_new st cm) (Key_from_raw raw) l' false)
              else Ok (MvccTxn_new st cm));
       finish txn (PrTxnStatus (Uncommitted l' false)) [] [])) as Hput.
  { intros l' u (t & m & -> & ? & ? & ?) wr' Hw. destruct u.
    - rewrite put_lock_old in Hw. cbn [map_err mbind res_bind] in Hw.
      apply finish_modifies in Hw as [_ ->]. eexists. split; [done|]. by apply effects_one, Heff.
    - apply finish_modifies in Hw as [_ ->]. exists []. split; [done|apply effects_none]. }
  pose proof (lock_ok_ttl l Hok). pose proof (lock_ok_min_commit_ts l Hok).
  assert (forall l1 u1, (exists t, l1 = Lock_set_ttl l t /\ u64_ok t) ->
    command_effects floor s st [raw]
      (let '(lock, updated) :=
         if (negb (l_use_async_commit l1) && (0 <? l_generation l1) && (0 <? mc)
             && (l_min_commit_ts l1 <? mc))%bool
         then (Lock_set_min_commit_ts l1 mc, true) else (l1, u1) in
       txn ← (if updated : bool then map_err TeMvcc (put_lock (MvccTxn_new st cm) (Key_from_raw raw) lock false)
              else Ok (MvccTxn_new st cm));
       finish txn (PrTxnStatus (Uncommitted lock false)) [] [])) as Hmin.
  { intros l1 u1 (t & -> & Hut). destruct (_ && _)%bool eqn:Hb; [apply (Hput _ true)|apply (Hput _ u1)].
    - exists t, mc. apply andb_true_iff in Hb as [_ Hb%Z.ltb_lt].
      destruct l; cbn in *. unfold u64_ok in *. split_and!; done || lia.
    - exists t, (l_min_commit_ts l). destruct l; cbn in *. unfold u64_ok in *. split_and!; done || lia. }
  revert wr Hc. destruct (l_ttl l <? ttl); [apply (Hmin _ true); by exists ttl|apply (Hmin _ false)].
  exists (l_ttl l). by destruct l.
Qed.
End CommandEffects.

(** ** Every step preserves the invariant *)

(** A step is, at every key, one effect of one transaction. *)
Lemma step_effect floor s s' :
  store_inv s -> step_after floor s s' ->
  wf_store s' /\ exists st, ts_ok st /\ forall raw, bytes_ok raw -> exists m,
    effect floor s raw st m /\ agree (abs s') (apply_lms (abs s) m) (Key_from_raw raw).
Proof.
  intros Hi Hstep.
  assert (forall st r raws, ts_ok st -> Forall bytes_ok raws -> NoDup raws ->
    command_effects floor s st raws r -> applied s r s' ->
    wf_store s' /\ exists st, ts_ok st /\ forall raw, bytes_ok raw -> exists m,
      effect floor s raw st m /\ agree (abs s') (apply_lms (abs s) m) (Key_from_raw raw)) as Hcmd.
  { intros st r raws Hst Hraws Hnd Hc Ha.
    destruct (command_written floor s st Hi Hst raws r s' Hraws Hnd Hc Ha) as [? ?]. split; [done|by exists st]. }
  assert (forall raw, bytes_ok raw -> Forall bytes_ok [raw]) as Hone by (intros; by apply Forall_singleton).
  assert (forall raw : bytes, NoDup [raw]) as Hnd by (intros; apply NoDup_singleton).
  destruct Hstep as [now tso can_enable stat_next ctx cm raw st props mutation secondary_keys action
      expected r txn' ms s' Hr Hst Hk Hp Hs Hkind Hsec Hfresh Hcm Hpw Hms Hw
    |now tso can_enable stat_next ctx cm env p raws s' Hp Hcm Hfl Ha
    |now tso can_enable stat_next ctx cm env p raws s' Hp Hcm Hfl Ha
    |now tso can_enable stat_next ctx cm raws p nov s' Hraws Hnd' Hp Hst Hcm Ha| | | | | | | |].
  - assert (t_locks_for_1pc txn' = [] /\ ms = t_modifies txn') as [H1 ->].
    { unfold into_modifies in Hms. destruct (t_locks_for_1pc txn'); [|done]. by injection Hms as <-. }
    destruct (prewrite_effect floor s raw st (MvccTxn_new st cm) (proj1 Hi) Hr (ts_u64 _ Hst)
      (SnapshotReader_new_with_ctx st s ctx) (reader_of_ctx s st ctx) now tso can_enable stat_next props mutation
      secondary_keys action expected r txn' Hk Hp Hs Hkind Hsec Hfresh Hcm Hpw H1) as (ms & Hms' & He).
    cbn [t_modifies MvccTxn_new app] in Hms'. rewrite Hms' in Hw.
    destruct (effects_written floor s st Hi Hst [raw] ms s' (Hone _ Hr) (Hnd _) (effects_one _ _ _ _ _ He) Hw)
      as [? ?]. split; [done|by exists st].
  - destruct (Prewrite_effects now tso can_enable stat_next floor s ctx cm env Hi Hcm Hfl p raws Hp) as (raws' & Hperm & He).
    eapply Hcmd; [..|exact He|exact Ha]; [apply Hp|rewrite <-Hperm; apply Hp|rewrite <-Hperm; apply Hp].
  - eapply Hcmd; [..|by apply PrewritePessimistic_effects|exact Ha]; apply Hp.
  - eapply Hcmd; [done|exact Hraws|exact Hnd'| |exact Ha]. by apply Acquire_effects.
  - eapply Hcmd; [..|done]; [| | |by apply Commit_effects]; auto.
  - eapply Hcmd; [..|done]; [| | |by apply Rollback_effects]; auto.
  - eapply Hcmd; [..|done]; [| | |by apply ResolveLockLite_effects]; auto.
  - eapply Hcmd; [..|done]; [| | |by apply PessimisticRollback_effects]; auto.
  - eapply Hcmd; [..|done]; [| | |by apply Cleanup_effects]; auto.
  - eapply Hcmd; [..|done]; [| | |by apply CheckTxnStatus_effects]; auto.
  - eapply Hcmd; [..|done]; [| | |by apply CheckSecondaryLocks_effects]; auto.
  - eapply Hcmd; [..|done]; [| | |by apply TxnHeartBeat_effects]; auto.
Qed.
