(* ===== verification/Runs.v ===== *)
(** * Concrete runs of the protocol

    A prewrite, a commit and a cleanup on one key, executed by the definitions
    of [Prewrite] and [Commands]: reachable stores for the theorems about them. *)

From Stdlib Require Import ZArith Lia.
From stdpp Require Import base numbers list gmap relations.
From S2P Require Import Prelude Number Bytes Types Write Lock ConcurrencyManager Engine Reader.
From S2P Require Import AbsState ReaderSpec MvccTxn Prewrite TxnStatus Commands AcquirePessimisticLock KeyInv Protocol.
From S2P Require Import Values Effects System.

Open Scope Z_scope.

Definition run_ctx : Context :=
  {| ctx_term := 0; ctx_region_id := 1; ctx_region_version := 0; ctx_is_retry_request := false;
     ctx_txn_source := 0 |}.
Definition run_cm : ConcurrencyManager := cm_new 1 0.

Definition written (s : Store) (ms : list Modify) : Store :=
  match write_modifies (E:=unit) s ms with Ok s' => s' | _ => s end.

Definition run (s : Store) (r : txn_res WriteResult) : Store :=
  match r with Ok wr => written s (wr_modifies wr) | _ => s end.

Lemma written_ok s ms :
  match write_modifies (E:=unit) s ms with Ok _ => true | _ => false end = true ->
  write_modifies (E:=unit) s ms = Ok (written s ms).
Proof. unfold written. by destruct (write_modifies s ms). Qed.

Lemma run_applied s r :
  match r with
  | Ok wr => match write_modifies (E:=unit) s (wr_modifies wr) with Ok _ => true | _ => false end
  | _ => false
  end = true -> applied s r (run s r).
Proof. destruct r as [wr| |]; [|done..]. intros Hw. exists wr. split; [done|]. by apply written_ok. Qed.

Lemma run_commit_above s raws st c :
  forallb (fun raw => match lock_at s (Key_from_raw raw) with
                      | Some l => l_for_update_ts l <? c
                      | None => true
                      end) raws = true ->
  commit_above s raws st c.
Proof.
  intros Hall raw Hin l [Hl _]. rewrite forallb_forall in Hall. apply list_elem_of_In in Hin.
  specialize (Hall raw Hin). cbn [a_lock abs] in Hl. rewrite Hl in Hall. by apply Z.ltb_lt.
Qed.

(** A two-phase transaction that puts one value. *)
Definition run_props (kind : TransactionKind) (start_ts : TimeStamp) : TransactionProperties :=
  {| tp_start_ts := start_ts; tp_kind := kind; tp_commit_kind := TwoPc; tp_primary := [107];
     tp_txn_size := 1; tp_lock_ttl := 3000; tp_min_commit_ts := start_ts + 1; tp_need_old_value := false;
     tp_is_retry_request := false; tp_assertion_level := AlOff; tp_txn_source := 0 |}.

Definition run_prewrite (s : Store) (kind : TransactionKind) (action : PrewriteRequestPessimisticAction)
    (start_ts : TimeStamp) (v : bytes) : mvcc_res (TimeStamp * OldValue) * MvccTxn :=
  prewrite 0 None true (fun _ _ _ => 0) (MvccTxn_new start_ts run_cm)
    (SnapshotReader_new_with_ctx start_ts s run_ctx) (run_props kind start_ts)
    (MPut (Key_from_raw [107]) v ANone) None action None.

Definition prewritten (s : Store) (kind : TransactionKind) (action : PrewriteRequestPessimisticAction)
    (start_ts : TimeStamp) (v : bytes) : Store :=
  written s (t_modifies (snd (run_prewrite s kind action start_ts v))).

Lemma run_props_ok kind st :
  0 < st < 2 ^ 63 -> u64_ok (match kind with Optimistic _ => 0 | Pessimistic ts => ts end) ->
  props_ok (run_props kind st).
Proof.
  intros. split; try (unfold u64_ok, zlen;
    cbn [run_props tp_start_ts tp_kind tp_primary tp_txn_size tp_lock_ttl tp_min_commit_ts tp_txn_source
      length]; lia). by destruct kind.
Qed.

(** The records of a key of a store, and that none is of the transaction. *)
Lemma run_uncommitted s raw st :
  forallb (fun '(k, v) => match WriteRef_parse v with
                          | Ok w => negb (w_start_ts w =? st) | _ => true end) (map_to_list (st_write s)) = true ->
  uncommitted s raw st.
Proof.
  intros Hall t w Hw Hst. exfalso. cbn [a_write abs] in Hw. unfold write_at in Hw.
  destruct (decide (u64_ok t)); [|done].
  destruct (get_cf s CF_WRITE (Key_append_ts (Key_from_raw raw) t)) as [v|] eqn:Hg; [|done].
  rewrite forallb_forall in Hall. change (st_write s !! Key_append_ts (Key_from_raw raw) t = Some v) in Hg.
  apply elem_of_map_to_list, list_elem_of_In, Hall in Hg. cbn beta iota in Hg.
  destruct (WriteRef_parse v); [|done..]. injection Hw as ->. rewrite Hst, Z.eqb_refl in Hg. done.
Qed.

Lemma prewritten_step s kind action st v :
  0 < st < 2 ^ 63 -> u64_ok (match kind with Optimistic _ => 0 | Pessimistic ts => ts end) ->
  prewrite_mode (run_props kind st) action -> uncommitted s [107] st ->
  match t_locks_for_1pc (snd (run_prewrite s kind action st v)) with [] => true | _ => false end = true ->
  match write_modifies (E:=unit) s (t_modifies (snd (run_prewrite s kind action st v))) with
  | Ok _ => true | _ => false end = true ->
  step s (prewritten s kind action st v).
Proof.
  intros Hst Hfu Hmode Hun H1 Hw. eapply (step_prewrite 0 s 0 None true (fun _ _ _ => 0) run_ctx run_cm [107] st
    (run_props kind st) (MPut (Key_from_raw [107]) v ANone) None action None); try done.
  - apply sample_raw_ok.
  - unfold ts_ok. lia.
  - by apply run_props_ok.
  - by intros l _ _.
  - apply surjective_pairing.
  - unfold into_modifies. fold (run_prewrite s kind action st v).
    destruct (t_locks_for_1pc (run_prewrite s kind action st v).2); [|done]. reflexivity.
  - by apply written_ok.
Qed.

(** The transaction started at 5 puts a short value and commits at 10. *)
Definition store_locked : Store := prewritten BTreeEngine_new (Optimistic false) SkipPessimisticCheck 5 [1].
Definition store_committed : Store :=
  run store_locked (Commit_process_write store_locked run_ctx run_cm [Key_from_raw [107]] 5 10).

(** The transaction started at 10 is cleaned up: its rollback is marked on the
    commit record of the first one. *)
Definition store_overlapped : Store :=
  run store_committed
    (fst (Cleanup_process_write store_committed run_ctx run_cm 0 None (Key_from_raw [107]) 10 0)).

Lemma run_raws_ok : Forall bytes_ok [[107]].
Proof. apply Forall_singleton, sample_raw_ok. Qed.

Lemma run_ts_ok st : 0 < st < 2 ^ 63 -> ts_ok st.
Proof. unfold ts_ok. lia. Qed.

Lemma locked_step : step BTreeEngine_new store_locked.
Proof.
  apply prewritten_step; [lia|unfold u64_ok; lia|done|apply run_uncommitted; vm_compute; reflexivity
    |vm_compute; reflexivity..].
Qed.

Lemma committed_step floor : step_after floor store_locked store_committed.
Proof.
  apply (step_commit _ _ run_ctx run_cm [[107]] 5 10);
    [apply run_raws_ok|apply NoDup_singleton|apply run_ts_ok; lia|unfold u64_ok; lia
    |apply run_commit_above; vm_compute; reflexivity|].
  apply run_applied. vm_compute. reflexivity.
Qed.

Lemma locked_no_record key t : a_write (abs store_locked) key t = None.
Proof.
  assert (st_write store_locked = ∅) as E by (vm_compute; reflexivity).
  change (write_at store_locked key t = None). unfold write_at. destruct (decide _); [|done].
  cbn [get_cf Store_snapshot]. unfold Store_get_cf.
  change (Store_cf store_locked CF_WRITE) with (st_write store_locked). by rewrite E, lookup_empty.
Qed.

Lemma committed_room : marks_room store_committed.
Proof.
  intros raw l. assert (st_lock store_committed = ∅) as E by (vm_compute; reflexivity).
  change (lock_at store_committed (Key_from_raw raw) = Some l -> Z.of_nat (length (l_rollback_ts l)) + 1 < 2 ^ 59).
  unfold lock_at. cbn [get_cf Store_snapshot]. unfold Store_get_cf.
  change (Store_cf store_committed CF_LOCK) with (st_lock store_committed). rewrite E. by rewrite lookup_empty.
Qed.

Lemma overlapped_step floor : step_after floor store_committed store_overlapped.
Proof.
  apply (step_cleanup _ _ run_ctx run_cm 0 None [107] 10 0);
    [apply sample_raw_ok|apply run_ts_ok; lia|apply committed_room|].
  apply run_applied. vm_compute. reflexivity.
Qed.

Lemma reachable_locked : reachable store_locked.
Proof. eapply reachable_step; [constructor|apply locked_step]. Qed.

Lemma reachable_committed : reachable store_committed.
Proof. eapply reachable_step; [apply reachable_locked|apply committed_step]. Qed.

(** ** A pessimistic transaction

    The transaction started at 8, before the commit at 10, locks the key with
    for-update timestamp 20, puts a value and commits at 30. *)

Definition run_params (start_ts for_update_ts : TimeStamp) : PessimisticLockParameters :=
  {| plp_primary := [107]; plp_start_ts := start_ts; plp_lock_ttl := 3000; plp_for_update_ts := for_update_ts;
     plp_wait_timeout := None; plp_return_values := true; plp_min_commit_ts := for_update_ts + 1;
     plp_check_existence := false; plp_is_first_lock := true; plp_lock_only_if_exists := false;
     plp_allow_lock_with_conflict := false |}.

Definition run_acquire (s : Store) (start_ts for_update_ts : TimeStamp) : txn_res WriteResult :=
  fst (AcquirePessimisticLock_process_write 0 None true (fun _ _ _ => 0) s run_ctx run_cm
         (raw_keys [([107], false)]) (run_params start_ts for_update_ts) false).

Definition store_acquired : Store := run store_committed (run_acquire store_committed 8 20).
Definition store_pessimistic : Store := prewritten store_acquired (Pessimistic 20) DoPessimisticCheck 8 [2].
Definition store_recommitted : Store :=
  run store_pessimistic (Commit_process_write store_pessimistic run_ctx run_cm [Key_from_raw [107]] 8 30).

Lemma run_params_ok : params_ok (run_params 8 20).
Proof. split; unfold u64_ok, zlen; cbn; lia. Qed.

Lemma acquired_step : step store_committed store_acquired.
Proof.
  apply (step_acquire _ _ 0 None true (fun _ _ _ => 0) run_ctx run_cm [([107], false)] (run_params 8 20) false);
    [apply run_raws_ok|apply NoDup_singleton|apply run_params_ok|apply run_ts_ok; cbn; lia|unfold u64_ok; cbn; lia|].
  apply run_applied. vm_compute. reflexivity.
Qed.

Lemma pessimistic_step : step store_acquired store_pessimistic.
Proof.
  apply prewritten_step; [lia|unfold u64_ok; lia|done|apply run_uncommitted; vm_compute; reflexivity
    |vm_compute; reflexivity..].
Qed.

Lemma recommitted_step : step store_pessimistic store_recommitted.
Proof.
  apply (step_commit _ _ run_ctx run_cm [[107]] 8 30);
    [apply run_raws_ok|apply NoDup_singleton|apply run_ts_ok; lia|unfold u64_ok; lia
    |apply run_commit_above; vm_compute; reflexivity|].
  apply run_applied. vm_compute. reflexivity.
Qed.

Lemma reachable_pessimistic : reachable store_pessimistic.
Proof.
  eapply reachable_step; [|apply pessimistic_step].
  eapply reachable_step; [apply reachable_committed|apply acquired_step].
Qed.

Lemma reachable_recommitted : reachable store_recommitted.
Proof. eapply reachable_step; [apply reachable_pessimistic|apply recommitted_step]. Qed.

(** Both transactions are committed at the end, although the second one started
    first. *)
Lemma recommitted_reads :
  MvccReader_get (SnapshotReader_new 40 store_recommitted) (Key_from_raw [107]) 29 None = Ok (Some [1])
  /\ MvccReader_get (SnapshotReader_new 40 store_recommitted) (Key_from_raw [107]) 30 None = Ok (Some [2]).
Proof. vm_compute. done. Qed.
