(* ===== verification/SystemSpec.v ===== *)
(** * What the protocol guarantees

    Theorems about the reachable stores of [System]: a transaction is decided
    at most once on a key, committed data survives every later command and
    reads repeat, with concrete runs as witnesses.  [Outcome] states what the
    commands promise about the transaction they name. *)

From Stdlib Require Import ZArith Lia.
From stdpp Require Import base numbers list gmap relations.
From S2P Require Import Prelude Number Bytes Types Write Lock ConcurrencyManager Engine Reader.
From S2P Require Import AbsState ReaderSpec MvccTxn Prewrite TxnStatus Commands AcquirePessimisticLock KeyInv Protocol.
From S2P Require Import Values Effects System Runs.

Open Scope Z_scope.

(** ** The invariant on reachable stores *)

Lemma key_inv_agree a b k :
  agree a b k -> key_inv (a_write b k) (a_lock b k) -> key_inv (a_write a k) (a_lock a k).
Proof. intros (Hw & Hl & _). by apply key_inv_ext. Qed.

Lemma store_inv_empty : store_inv BTreeEngine_new.
Proof.
  split; [apply wf_store_empty|]. intros raw Hr.
  eapply key_inv_ext; [| |apply inv_empty]; [intros t; symmetry; apply write_at_empty|done].
Qed.

Lemma step_inv s s' : store_inv s -> step s s' -> store_inv s'.
Proof.
  intros Hi Hstep. destruct (step_effect 0 s s' Hi Hstep) as [Hwf (st & Hst & He)].
  split; [done|]. intros raw Hr. destruct (He raw Hr) as (m & Hm & Hag).
  eapply key_inv_agree; [done|]. by apply (effect_preserves 0 s raw st); [..|apply Hi|].
Qed.

Lemma reachable_inv s : reachable s -> store_inv s.
Proof. induction 1; [apply store_inv_empty|by eapply step_inv]. Qed.

Lemma values_agree a b k : agree a b k -> values_ok b k -> values_ok a k.
Proof.
  intros (Hw & Hl & Hv) [Hp Hq]. split.
  - intros t w. rewrite Hw, Hv. apply Hp.
  - intros l. rewrite Hl, Hv. apply Hq.
Qed.

Lemma reachable_values s raw : reachable s -> bytes_ok raw -> values_ok (abs s) (Key_from_raw raw).
Proof.
  intros Hs Hr. induction Hs as [|s s' Hs IH Hstep].
  - split; [|done]. intros t w. change (a_write _ _ t) with (write_at BTreeEngine_new (Key_from_raw raw) t).
    by rewrite write_at_empty.
  - destruct (reachable_inv s Hs) as [Hwf Hi].
    destruct (step_effect 0 s s' (conj Hwf Hi) Hstep) as [_ (st & Hst & He)].
    destruct (He raw Hr) as (m & Hm & Hag). eapply values_agree; [done|].
    by apply (effect_values 0 s raw st Hst); [apply Hi| |].
Qed.

(** One step keeps a commit record and its value. *)
Lemma step_durable s s' raw c w :
  store_inv s -> step s s' -> bytes_ok raw ->
  a_write (abs s) (Key_from_raw raw) c = Some w -> w_write_type w <> WtRollback ->
  (exists w', a_write (abs s') (Key_from_raw raw) c = Some w' /\ same_commit w w')
  /\ a_value (abs s') (Key_from_raw raw) (w_start_ts w) = a_value (abs s) (Key_from_raw raw) (w_start_ts w).
Proof.
  intros [Hwf Hi] Hstep Hr Hw Hty.
  destruct (step_effect 0 s s' (conj Hwf Hi) Hstep) as [_ (st & Hst & He)].
  destruct (He raw Hr) as (m & Hm & (Hagw & _ & Hagv)). rewrite Hagw, Hagv.
  apply (keeps_commit_durable s raw st Hst c (w_start_ts w) w m (abs s) w); [|done|done].
  by apply (effect_keeps_commit 0 s raw st (Hi raw Hr)).
Qed.

Lemma reachable_steps s s' : reachable s -> rtc step s s' -> reachable s'.
Proof. intros Hs Hsteps. induction Hsteps; [done|]. apply IHHsteps. by eapply reachable_step. Qed.

Lemma steps_durable s s' raw c w :
  reachable s -> rtc step s s' -> bytes_ok raw ->
  a_write (abs s) (Key_from_raw raw) c = Some w -> w_write_type w <> WtRollback ->
  (exists w', a_write (abs s') (Key_from_raw raw) c = Some w' /\ same_commit w w')
  /\ a_value (abs s') (Key_from_raw raw) (w_start_ts w) = a_value (abs s) (Key_from_raw raw) (w_start_ts w).
Proof.
  intros Hs Hsteps Hr. revert w. induction Hsteps as [s|s s1 s' Hstep Hsteps IH]; intros w Hw Hty.
  { split; [by exists w|done]. }
  destruct (step_durable s s1 raw c w (reachable_inv s Hs) Hstep Hr Hw Hty) as [(w1 & Hw1 & Hs1) Hv1].
  destruct (IH (reachable_step s s1 Hs Hstep) w1 Hw1) as [(w2 & Hw2 & Hs2) Hv2].
  { destruct Hs1 as (-> & _). done. }
  pose proof Hs1 as (_ & Hst1 & _). rewrite Hst1 in Hv2. split; [|by rewrite Hv2].
  exists w2. split; [done|]. by eapply same_commit_trans.
Qed.

(** ** The state of a transaction on a key *)

Section Outcome.
Context (s : Store) (raw : bytes) (st : TimeStamp).
Let key := Key_from_raw raw.

(** A commit record of the transaction at [c]. *)
Definition committed_at (c : TimeStamp) : Prop :=
  exists w, a_write (abs s) key c = Some w /\ w_start_ts w = st /\ w_write_type w <> WtRollback.

(** A rollback record of the transaction, or its rollback marked on the record
    that occupies its start timestamp. *)
Definition rolled_back : Prop :=
  exists w, a_write (abs s) key st = Some w
    /\ ((w_start_ts w = st /\ w_write_type w = WtRollback)
        \/ (w_start_ts w <> st /\ w_has_overlapped_rollback w = true)).

Hypothesis (inv : key_inv (a_write (abs s) key) (a_lock (abs s) key)).

Lemma committed_not_rolled_back c : committed_at c -> rolled_back -> False.
Proof.
  intros (w & Hw & Hs & Hty) (w' & Hw' & [[Hs' Hty']|[Hs' Hov]]).
  - assert (c = st) as -> by (eapply (ki_once _ _ inv); eauto; congruence). congruence.
  - destruct (ki_overlap _ _ inv st w' Hw' Hov) as [Hno _]. by apply (Hno c w).
Qed.

(** A transaction that holds the lock is not rolled back, and committed at most
    when the lock is pessimistic. *)
Lemma own_no_outcome l :
  own s raw st l -> ~ rolled_back /\ (Lock_is_pessimistic_lock l = false -> forall c, ~ committed_at c).
Proof.
  intros [Hl Hlt]. split.
  - intros (w & Hw & [[Hst Hty]|[_ Hov]]).
    + by destruct (ki_lock _ _ inv l st w Hl Hw ltac:(congruence)).
    + by apply (proj2 (ki_overlap _ _ inv st w Hw Hov) l).
  - intros Hp c (w & Hw & Hst & _). destruct (ki_lock _ _ inv l c w Hl Hw ltac:(congruence)). congruence.
Qed.

(** The commit record that the reader finds tells the outcome. *)
Lemma record_outcome rec :
  commit_record_spec (a_write (abs s) key) st rec ->
  match rec with
  | TcrSingleRecord c w =>
      if decide (w_write_type w = WtRollback) then rolled_back else committed_at c
  | TcrOverlappedRollback _ => rolled_back
  | TcrNone _ => ~ rolled_back /\ forall c, ~ committed_at c
  end.
Proof.
  destruct rec as [ow|c w|c]; intros Hrec.
  - pose proof (no_record_none _ _ st ow inv Hrec) as Hno. split.
    + intros (w & Hw & [[Hs _]|[Hs Hov]]); [by apply (Hno st w)|]. destruct ow as [ow|]; cbn [commit_record_spec] in Hrec.
      * destruct Hrec as (_ & How & _ & Hn & _). congruence.
      * destruct (Hrec st w); done || lia.
    + intros c (w & Hw & Hs & _). by apply (Hno c w).
  - destruct Hrec as (Hw & Hs & _). pose proof (ki_start _ _ inv c w Hw) as Hst. case_decide; [|by exists w].
    exists w. rewrite Hs in Hst. rewrite Hst. split; [done|]. left. by rewrite Hs.
  - destruct Hrec as (_ & _ & w & Hw & Hs & Hov). exists w. auto.
Qed.
End Outcome.

(** C1. A transaction is decided at most once on a key.  On every store that
    the commands can reach from the empty engine, for every key and start
    timestamp: commit records of the transaction agree on the commit timestamp,
    which lies above the start timestamp; a committed transaction is not rolled
    back, neither by a record nor by an overlapped mark.  A transaction that holds
    the key's lock is not rolled back, is not committed unless the lock is a
    pessimistic one that a late request took, and no commit is above its start and
    for-update timestamps.  Of clients this assumes that a transaction does not
    prewrite such a late pessimistic lock on a key it has committed, and the other
    premises of [step]. *)
Theorem transaction_decided_once s raw st :
  reachable s -> bytes_ok raw ->
  (forall c c', committed_at s raw st c -> committed_at s raw st c' -> c = c')
  /\ (forall c, committed_at s raw st c -> st < c /\ ~ rolled_back s raw st)
  /\ (forall l, own s raw st l ->
        ~ rolled_back s raw st
        /\ (Lock_is_pessimistic_lock l = false -> forall c, ~ committed_at s raw st c)
        /\ (forall st' c, committed_at s raw st' c -> c <= Z.max st (l_for_update_ts l))).
Proof.
  intros Hs Hr. destruct (reachable_inv s Hs) as [_ Hi]. specialize (Hi raw Hr). split_and!.
  - intros c c' (w & Hw & Hst & _) (w' & Hw' & Hst' & _). eapply (ki_once _ _ Hi); eauto. congruence.
  - intros c Hc. split; [|intros Hrb; by eapply committed_not_rolled_back].
    destruct Hc as (w & Hw & <- & Hty). pose proof (ki_start _ _ Hi c w Hw) as Hlt.
    by rewrite decide_False in Hlt.
  - intros l Hown. destruct (own_no_outcome s raw st Hi l Hown). split_and!; [done..|].
    destruct Hown as [Hl Hlt]. intros st' c (w & Hw & _ & Hty). rewrite <-Hlt. by apply (ki_newest _ _ Hi l c w).
Qed.

(** C2. Committed data is durable.  Whatever commands run after a commit, the
    commit record of a transaction stays at its commit timestamp with the same
    kind, start timestamp, short value, last-change hint and source; only the
    mark of another transaction's rollback and its GC fence may be added; and
    the value in the default column family stays. *)
Theorem committed_data_durable s s' raw c w :
  reachable s -> rtc step s s' -> bytes_ok raw ->
  a_write (abs s) (Key_from_raw raw) c = Some w -> w_write_type w <> WtRollback ->
  (exists w', a_write (abs s') (Key_from_raw raw) c = Some w' /\ same_commit w w')
  /\ a_value (abs s') (Key_from_raw raw) (w_start_ts w) = a_value (abs s) (Key_from_raw raw) (w_start_ts w).
Proof. apply steps_durable. Qed.

(** ** Reads *)

Lemma reachable_get s raw st ts limit :
  reachable s -> bytes_ok raw -> u64_ok ts ->
  limit_quiet (a_write (abs s) (Key_from_raw raw)) ts limit ->
  exists o, newest_change (a_write (abs s) (Key_from_raw raw)) ts o
    /\ get_write_with_commit_ts (SnapshotReader_new st s) (Key_from_raw raw) ts limit = Ok (visible o)
    /\ MvccReader_get (SnapshotReader_new st s) (Key_from_raw raw) ts limit
       = Ok (snapshot_value (abs s) (Key_from_raw raw) o).
Proof.
  intros Hs Hr Hts Hq. destruct (reachable_inv s Hs) as [Hwf Hi]. pose proof (ki_history _ _ (Hi raw Hr)) as Hh.
  destruct (get_write_with_commit_ts_spec (SnapshotReader_new st s) raw (proj1 Hwf) Hr ts limit
    (key_history_ok _ Hh) Hts Hq) as (o & Ho & Hg).
  pose proof (fenced_visible _ ts limit o Hh Ho Hq) as Hf. rewrite Hf in Hg.
  exists o. split; [done|]. split; [done|]. unfold MvccReader_get, get_write. rewrite Hg.
  unfold snapshot_value. destruct (visible o) as [[w c]|] eqn:Hv; [|done]. cbn [mbind res_bind option_map fst].
  assert (w_write_type w = WtPut /\ exists t, a_write (abs s) (Key_from_raw raw) t = Some w) as [Hty [t Hw]].
  { destruct o as [[t w0]|]; [|done]. destruct Ho as (_ & Hw0 & _). cbn [visible] in Hv.
    destruct (w_write_type w0) eqn:?; try done. injection Hv as <- <-. eauto. }
  rewrite load_data_put by done. cbn [r_snapshot SnapshotReader_new].
  destruct (reachable_values s raw Hs Hr) as [Hp _]. specialize (Hp t w Hw Hty). unfold record_value.
  cbn [mbind option_bind]. destruct (w_short_value w) as [v|]; [done|]. destruct (Hp eq_refl) as [v Hva].
  rewrite Hva. change (value_at s (Key_from_raw raw) (w_start_ts w) = Some v) in Hva.
  unfold value_at in Hva. case_decide; [|done]. change (get_cf s) with (Store_get_cf s). by rewrite Hva.
Qed.

(** C3. Reads of a reachable store.  On every store that the commands can reach,
    a read at any timestamp whose GC-fence limit reaches over no change returns,
    and its answer is that of the abstract state: the value of the newest put or
    delete at or below the timestamp, from the record or from the default column
    family.  It never fails: hints point to the right record, GC fences hide
    nothing, and no long value is missing. *)
Theorem reachable_reads s raw st ts limit :
  reachable s -> bytes_ok raw -> u64_ok ts ->
  limit_quiet (a_write (abs s) (Key_from_raw raw)) ts limit ->
  exists o, newest_change (a_write (abs s) (Key_from_raw raw)) ts o
    /\ get_write_with_commit_ts (SnapshotReader_new st s) (Key_from_raw raw) ts limit = Ok (visible o)
    /\ MvccReader_get (SnapshotReader_new st s) (Key_from_raw raw) ts limit
       = Ok (snapshot_value (abs s) (Key_from_raw raw) o).
Proof. apply reachable_get. Qed.

Lemma get_same s s' raw st ts :
  reachable s -> rtc step s s' -> bytes_ok raw -> u64_ok ts ->
  (forall t w, t <= ts -> a_write (abs s') (Key_from_raw raw) t = Some w -> is_change w = true ->
     exists w0, a_write (abs s) (Key_from_raw raw) t = Some w0 /\ is_change w0 = true) ->
  MvccReader_get (SnapshotReader_new st s') (Key_from_raw raw) ts (Some ts)
  = MvccReader_get (SnapshotReader_new st s) (Key_from_raw raw) ts (Some ts).
Proof.
  intros Hs Hsteps Hr Hts Hnew.
  destruct (reachable_get s raw st ts (Some ts)) as (o & Ho & _ & ->); [done..|intros ? ? ?; lia|].
  destruct (reachable_get s' raw st ts (Some ts)) as (o' & Ho' & _ & ->);
    [by eapply reachable_steps|done..|intros ? ? ?; lia|].
  f_equal. eapply snapshot_value_same; [|exact Hnew|done..]. intros t w _ Hw Hch.
  apply (steps_durable s s' raw t w); try done. unfold is_change in Hch. by destruct (w_write_type w).
Qed.

(** C4. Reads repeat.  If no command that runs after a read commits a change at
    or below the read timestamp, the same read on any later store gives the same
    answer: rollbacks, collapsed or overlapped rollback records, lock updates and
    commits above the timestamp are invisible to it. *)
Theorem reads_repeatable s s' raw st ts :
  reachable s -> rtc step s s' -> bytes_ok raw -> u64_ok ts ->
  (forall t w, t <= ts -> a_write (abs s') (Key_from_raw raw) t = Some w -> is_change w = true ->
     exists w0, a_write (abs s) (Key_from_raw raw) t = Some w0 /\ is_change w0 = true) ->
  MvccReader_get (SnapshotReader_new st s') (Key_from_raw raw) ts (Some ts)
  = MvccReader_get (SnapshotReader_new st s) (Key_from_raw raw) ts (Some ts).
Proof. apply get_same. Qed.



(** ** Concrete runs *)

Definition committed_record : Write := Write_new WtPut 5 (Some [1]).

Lemma store_committed_record : a_write (abs store_committed) (Key_from_raw [107]) 10 = Some committed_record.
Proof. vm_compute. reflexivity. Qed.

Lemma store_committed_at : committed_at store_committed [107] 5 10.
Proof. exists committed_record. split; [apply store_committed_record|done]. Qed.


Lemma transaction_decided_once_witness :
  committed_at store_committed [107] 5 10 /\ ~ rolled_back store_committed [107] 5.
Proof.
  split; [apply store_committed_at|].
  destruct (transaction_decided_once store_committed [107] 5 reachable_committed sample_raw_ok) as (_ & Hc & _).
  apply (Hc 10). apply store_committed_at.
Defined.

Lemma committed_data_durable_witness :
  (exists w, a_write (abs store_overlapped) (Key_from_raw [107]) 10 = Some w
     /\ w_has_overlapped_rollback w = true)
  /\ (exists w, a_write (abs store_overlapped) (Key_from_raw [107]) 10 = Some w
        /\ same_commit committed_record w).
Proof.
  split; [eexists; split; vm_compute; reflexivity|].
  apply (committed_data_durable store_committed store_overlapped [107] 10 committed_record);
    [apply reachable_committed|apply rtc_once, overlapped_step|apply sample_raw_ok
    |apply store_committed_record|done].
Defined.

Lemma reachable_reads_witness :
  MvccReader_get (SnapshotReader_new 20 store_committed) (Key_from_raw [107]) 20 (Some 20) = Ok (Some [1])
  /\ exists o, MvccReader_get (SnapshotReader_new 20 store_committed) (Key_from_raw [107]) 20 (Some 20)
              = Ok (snapshot_value (abs store_committed) (Key_from_raw [107]) o).
Proof.
  split; [vm_compute; reflexivity|].
  destruct (reachable_reads store_committed [107] 20 20 (Some 20) reachable_committed sample_raw_ok)
    as (o & _ & _ & Hg); [unfold u64_ok; lia|intros t w Ht; lia|]. by exists o.
Defined.

Lemma overlapped_record_10 w t :
  t <= 20 -> a_write (abs store_overlapped) (Key_from_raw [107]) t = Some w -> is_change w = true ->
  exists w0, a_write (abs store_committed) (Key_from_raw [107]) t = Some w0 /\ is_change w0 = true.
Proof.
  intros Ht Hw Hch. destruct (reachable_inv _ reachable_committed) as [Hwf Hi].
  destruct (step_effect 20 _ _ (conj Hwf Hi) (overlapped_step 20)) as [_ (st & _ & He)].
  destruct (He [107] sample_raw_ok) as (m & Hm & (Hag & _)). rewrite Hag in Hw.
  destruct (effect_commits 20 store_committed [107] st m t w Hm Hw) as [(w0 & Hw0 & Hs)|[(l & [Hl _] & _)|[Hgt _]]].
  - intros E. unfold is_change in Hch. by rewrite E in Hch.
  - exists w0. split; [done|]. by rewrite <-(same_commit_change w0 w).
  - vm_compute in Hl. done.
  - lia.
Qed.

Lemma reads_repeatable_witness :
  MvccReader_get (SnapshotReader_new 20 store_overlapped) (Key_from_raw [107]) 20 (Some 20)
  = MvccReader_get (SnapshotReader_new 20 store_committed) (Key_from_raw [107]) 20 (Some 20).
Proof.
  apply (reads_repeatable store_committed store_overlapped [107] 20 20);
    [apply reachable_committed|apply rtc_once, overlapped_step|apply sample_raw_ok|unfold u64_ok; lia|].
  intros t w. apply overlapped_record_10.
Defined.


