(* ===== verification/CommandSpec.v ===== *)
(** * What the commands promise

    [Commit] and [Rollback] on a reachable store: they succeed exactly when
    every key allows the decision, and the store they leave behind has it on
    every key.  Also what acquiring a pessimistic lock on a key answers and
    writes, in terms of the key's lock and records. *)

From Stdlib Require Import ZArith Lia.
From stdpp Require Import base numbers list gmap relations.
From S2P Require Import Prelude Number Bytes Types Write Lock ConcurrencyManager Engine Reader.
From S2P Require Import AbsState ReaderSpec MvccTxn Prewrite TxnStatus Commands AcquirePessimisticLock KeyInv Protocol.
From S2P Require Import Values Effects System Runs SystemSpec.

Open Scope Z_scope.

(** ** Commands that act on each of their keys *)

Section KeysCommand.
Context (st : TimeStamp) (act : MvccTxn -> Key -> mvcc_res (option ReleasedLock * MvccTxn)).
Context (allowed stuck : bytes -> Prop) (updates : bytes -> list LModify -> Prop).

(** The action on a key succeeds, with the given updates, exactly when it is
    allowed; otherwise it fails, or panics on a key where it is stuck. *)
Definition acts (raw : bytes) : Prop :=
  forall txn, t_start_ts txn = st ->
  (allowed raw /\ exists o m, act txn (Key_from_raw raw) = Ok (o, add_updates txn m []) /\ updates raw m)
  \/ (~ allowed raw /\ exists e, act txn (Key_from_raw raw) = Err e)
  \/ (~ allowed raw /\ stuck raw /\ act txn (Key_from_raw raw) = Panic).

Lemma for_keys_acts raws : Forall acts raws -> forall txn released, t_start_ts txn = st ->
  (Forall allowed raws /\ exists rel mss, Forall2 updates raws mss
     /\ for_keys act txn (map Key_from_raw raws) released = Ok (rel, add_updates txn (concat mss) []))
  \/ (~ Forall allowed raws /\ exists e, for_keys act txn (map Key_from_raw raws) released = Err e)
  \/ (~ Forall allowed raws /\ Exists stuck raws /\ for_keys act txn (map Key_from_raw raws) released = Panic).
Proof.
  induction 1 as [|raw raws Hact _ IH]; intros txn released Hst; cbn [map for_keys].
  - left. split; [constructor|]. exists released, []. split; [constructor|]. by rewrite add_updates_nil.
  - destruct (Hact txn Hst) as [(Hal & o & m & -> & Hm)|[(Hno & e & ->)|(Hno & Hstuck & ->)]];
      cbn [map_err mbind res_bind].
    + destruct (IH (add_updates txn m []) (ReleasedLocks_push released o) Hst)
        as [(Hall & rel & mss & Hmss & ->)|[(Hno & e & ->)|(Hno & Hstuck & ->)]].
      * left. split; [by constructor|]. exists rel, (m :: mss). split; [by constructor|].
        by rewrite add_updates_add.
      * right. left. split; [|by eexists]. by intros [_ ?]%Forall_cons_1.
      * right. right. split; [by intros [_ ?]%Forall_cons_1|]. split; [by right|done].
    + right. left. split; [|by eexists]. by intros [? _]%Forall_cons_1.
    + right. right. split; [by intros [? _]%Forall_cons_1|]. split; [by left|done].
Qed.

Context (s : Store) (cm : ConcurrencyManager) (pr : ProcessResult) (known : list (TimeStamp * TimeStamp)).
Hypothesis (wf : wf_store s).
Hypothesis (updates_ok : forall raw m, bytes_ok raw -> updates raw m -> Forall lm_ok m).
Hypothesis (updates_touch : forall raw m, updates raw m -> Forall (fun lm => lm_key lm = Key_from_raw raw) m).

Lemma keys_command raws :
  Forall bytes_ok raws -> NoDup raws -> Forall acts raws ->
  let r := '(released, txn) ← for_keys act (MvccTxn_new st cm) (map Key_from_raw raws) [];
           finish txn pr released known in
  (Forall allowed raws /\ exists wr s', r = Ok wr /\ wr_pr wr = pr
     /\ write_modifies (E:=unit) s (wr_modifies wr) = Ok s' /\ wf_store s'
     /\ forall raw, bytes_ok raw ->
          (raw ∈ raws -> exists m, updates raw m /\ agree (abs s') (apply_lms (abs s) m) (Key_from_raw raw))
          /\ (~ raw ∈ raws -> agree (abs s') (abs s) (Key_from_raw raw)))
  \/ (~ Forall allowed raws /\ exists e, r = Err e)
  \/ (~ Forall allowed raws /\ Exists stuck raws /\ r = Panic).
Proof.
  intros Hraws Hnd Hacts. cbn zeta.
  destruct (for_keys_acts raws Hacts (MvccTxn_new st cm) [] eq_refl)
    as [(Hall & rel & mss & Hmss & ->)|[(Hno & e & ->)|(Hno & Hstuck & ->)]];
    [left|right; left; split; [done|by exists e]|by right; right].
  split; [done|]. cbn [mbind res_bind].
  assert (Forall lm_ok (concat mss)) as Hok.
  { clear -Hmss Hraws updates_ok. induction Hmss as [|raw m raws mss Hm _ IH]; [constructor|].
    apply Forall_cons_1 in Hraws as [Hr Hraws]. apply Forall_app. split; [by eapply updates_ok|by apply IH]. }
  destruct (write_modifies_refines (E:=unit) (concat mss) s wf Hok) as (s' & Hw & Hwf & Ha).
  eexists _, s'. split; [reflexivity|]. split; [done|]. split; [exact Hw|]. split; [done|]. intros raw Hr.
  pose proof (agree_equiv _ _ (Key_from_raw raw) Ha) as Hag.
  destruct (key_updates_at updates raw raws updates_touch Hr mss (abs s) (abs s) Hmss Hraws Hnd)
    as [[Hin (m & Hm & Hag')]|[Hni Hag']]; [done|split..]; try done; intros _.
  - exists m. split; [done|]. by eapply agree_trans.
  - by eapply agree_trans.
Qed.
End KeysCommand.

(** ** [Commit] *)

Section Commit.
Context (s : Store) (ctx : Context) (cm : ConcurrencyManager) (st c : TimeStamp).
Hypothesis (inv : store_inv s) (st_pos : ts_ok st) (c_ok : u64_ok c) (c_above : st < c).
Let wf : wf_store s := proj1 inv.
Let reader := SnapshotReader_new_with_ctx st s ctx.

(** A key may be committed at [c] when it has the transaction's lock and the
    lock allows [c], or when it is committed already. *)
Definition commit_allowed (raw : bytes) : Prop :=
  match own_lock s raw st with
  | Some l => l_min_commit_ts l <= c
  | None => exists c', committed_at s raw st c'
  end.

(** The state of a key after the commit. *)
Definition commit_updates (raw : bytes) : list LModify :=
  match own_lock s raw st with
  | Some l =>
      if Lock_is_pessimistic_lock l then [LUnlock (Key_from_raw raw)]
      else [LPutWrite (Key_from_raw raw) c (commit_write l c); LUnlock (Key_from_raw raw)]
  | None => []
  end.

Lemma commit_acts raw :
  bytes_ok raw ->
  acts st (fun txn k => commit txn reader k c) commit_allowed (fun _ => False)
    (fun raw m => m = commit_updates raw /\ commit_allowed raw) raw.
Proof.
  intros Hr txn Hst. unfold commit_allowed, commit_updates.
  destruct (commit_eq s raw st txn wf Hr (ts_u64 st st_pos) Hst reader (reader_of_ctx s st ctx) c) as (rec & Hrec & E).
  pose proof (record_outcome s raw st (proj2 inv raw Hr) rec Hrec) as Hout. rewrite E. clear E.
  assert (own_lock s raw st = None -> exists o, commit_missing raw st txn c rec = o /\
    (((exists c', committed_at s raw st c') /\ o = Ok (None, txn))
     \/ ((~ exists c', committed_at s raw st c') /\ exists e, o = Err e))) as Hmiss.
  { intros _. eexists. split; [done|]. pose proof (committed_not_rolled_back s raw st (proj2 inv raw Hr)) as Hx.
    destruct rec as [ow|c' w|c']; cbn [commit_missing].
    - right. split; [|by eexists]. intros [c' Hc']. by apply (proj2 Hout c').
    - case_decide; [right; split; [|by eexists]; intros [? ?]; by eapply Hx|left; split; [by exists c'|done]].
    - right. split; [|by eexists]. intros [? ?]. by eapply Hx. }
  unfold own_lock in *. destruct (a_lock (abs s) (Key_from_raw raw)) as [l|];
    [destruct (Z.eqb_spec (l_ts l) st)|].
  - unfold commit_own_lock. destruct (Z.ltb_spec c (l_min_commit_ts l)); [right; left; split; [lia|by eexists]|left].
    split; [done|]. destruct (Lock_is_pessimistic_lock l); by eexists _, _.
  - destruct (Hmiss eq_refl) as (o & -> & [[Hc ->]|[Hc He]]); [left|by right; left].
    split; [done|]. exists None, []. by rewrite add_updates_nil.
  - destruct (Hmiss eq_refl) as (o & -> & [[Hc ->]|[Hc He]]); [left|by right; left].
    split; [done|]. exists None, []. by rewrite add_updates_nil.
Qed.

Lemma commit_updates_ok raw m :
  bytes_ok raw -> m = commit_updates raw /\ commit_allowed raw -> Forall lm_ok m.
Proof.
  intros Hr [-> _]. assert (key_ok (Key_from_raw raw)) as Hk by by exists raw. unfold commit_updates.
  destruct (own_lock s raw st) as [l|] eqn:Hl; [|constructor]. apply own_lock_some in Hl as [Hl _].
  apply (abs_lock_ok s _ l wf) in Hl. destruct (Lock_is_pessimistic_lock l); [by apply Forall_singleton|].
  repeat (apply Forall_nil_2 || (apply Forall_cons; split)); [|done]. split_and!; [done..|]. by apply commit_write_ok.
Qed.

Lemma commit_updates_touch raw m :
  m = commit_updates raw /\ commit_allowed raw -> Forall (fun lm => lm_key lm = Key_from_raw raw) m.
Proof.
  intros [-> _]. unfold commit_updates. destruct (own_lock s raw st); [|constructor].
  destruct (Lock_is_pessimistic_lock _); by repeat constructor.
Qed.

Lemma commit_command raws :
  Forall bytes_ok raws -> NoDup raws ->
  let r := Commit_process_write s ctx cm (map Key_from_raw raws) st c in
  (Forall commit_allowed raws /\ exists wr s', r = Ok wr /\ wr_pr wr = PrTxnStatus (Committed c)
     /\ write_modifies (E:=unit) s (wr_modifies wr) = Ok s'
     /\ forall raw, bytes_ok raw ->
          (~ raw ∈ raws -> agree (abs s') (abs s) (Key_from_raw raw))
          /\ (raw ∈ raws -> not_own s' raw st
              /\ agree (abs s') (apply_lms (abs s) (commit_updates raw)) (Key_from_raw raw)))
  \/ (~ Forall commit_allowed raws /\ exists e, r = Err e).
Proof.
  intros Hraws Hnd. cbn zeta. unfold Commit_process_write. destruct (Z.leb_spec c st) as [?|_]; [lia|].
  destruct (keys_command st (fun txn k => commit txn reader k c)
    commit_allowed (fun _ => False) (fun raw m => m = commit_updates raw /\ commit_allowed raw)
    s cm (PrTxnStatus (Committed c)) [(st, c)] wf commit_updates_ok commit_updates_touch raws Hraws Hnd)
    as [(Hall & wr & s' & Hr & Hpr & Hw & Hwf & Hkeys)|[Hno|(_ & Hstuck & _)]]; [|left; split; [done|]|by right|].
  - eapply Forall_impl; [exact Hraws|]. intros raw Hr. by apply commit_acts.
  - exists wr, s'. split_and!; [done..|].
    intros raw Hr'. destruct (Hkeys raw Hr') as [Hin Hout]. split; [done|]. intros Hmem.
    destruct (Hin Hmem) as (m & [-> _] & Hag). split; [|done]. intros l. destruct Hag as (_ & -> & _).
    unfold commit_updates. destruct (own_lock s raw st) as [l0|] eqn:Hl0.
    + destruct (Lock_is_pessimistic_lock l0); cbn; unfold upd1; by rewrite decide_True by done.
    + intros Hl. exact (own_lock_none s raw st Hl0 l Hl).
  - apply Exists_exists in Hstuck as (? & _ & []).
Qed.
End Commit.

(** C7. The commit command.  On a reachable store, with in-range arguments and
    distinct keys: a commit timestamp not above the start is refused; otherwise
    the command succeeds exactly when every key either holds the transaction's
    lock with a minimal commit timestamp that allows the commit, or is already
    committed (so retries succeed, and a rolled back or unknown key fails the
    whole command).  The updates of a successful command always apply; on the
    store they give, keys with a prewrite lock have the commit record of the
    lock at the commit timestamp, pessimistic locks are released, keys that were
    committed and keys not named are unchanged, and no named key has a lock of
    the transaction. *)
Theorem commit_command_correct s ctx cm raws st c :
  reachable s -> Forall bytes_ok raws -> NoDup raws -> ts_ok st -> u64_ok c ->
  let r := Commit_process_write s ctx cm (map Key_from_raw raws) st c in
  (c <= st /\ r = Err (TeInvalidTxnTso st c))
  \/ (st < c /\ ~ Forall (commit_allowed s st c) raws /\ exists e, r = Err e)
  \/ (st < c /\ Forall (commit_allowed s st c) raws /\ exists wr s',
        r = Ok wr /\ wr_pr wr = PrTxnStatus (Committed c)
        /\ write_modifies (E:=unit) s (wr_modifies wr) = Ok s'
        /\ forall raw, bytes_ok raw ->
             (~ raw ∈ raws -> agree (abs s') (abs s) (Key_from_raw raw))
             /\ (raw ∈ raws -> not_own s' raw st
                 /\ agree (abs s') (apply_lms (abs s) (commit_updates s st c raw)) (Key_from_raw raw))).
Proof.
  intros Hs Hraws Hnd Hst Hc. cbn zeta.
  destruct (Z.leb_spec c st) as [Hle|Hlt].
  - left. split; [done|]. unfold Commit_process_write. by destruct (Z.leb_spec c st); [|lia].
  - right. destruct (commit_command s ctx cm st c (reachable_inv s Hs) Hst Hc Hlt raws Hraws Hnd) as [[? ?]|[? ?]]; auto.
Qed.

(** ** [Rollback] *)

Section Rollback.
Context (s : Store) (ctx : Context) (cm : ConcurrencyManager) (st : TimeStamp).
Hypothesis (inv : store_inv s) (st_pos : ts_ok st) (room : marks_room s).
Let wf : wf_store s := proj1 inv.
Let reader := SnapshotReader_new_with_ctx st s ctx.

Definition rollback_allowed (raw : bytes) : Prop := forall c, ~ committed_at s raw st c.

(** The transaction is committed on the key, and a late request has taken a
    pessimistic lock for it. *)
Definition stale_lock (raw : bytes) : Prop :=
  exists l c, own s raw st l /\ Lock_is_pessimistic_lock l = true /\ committed_at s raw st c.

(** The updates release the transaction's lock, add no commit record, and write
    the rollback unless another transaction's record is in its place. *)
Definition rolls_back (raw : bytes) (m : list LModify) : Prop :=
  effect 0 s raw st m /\ Forall (no_new_commit s raw) m
  /\ (forall l, a_lock (apply_lms (abs s) m) (Key_from_raw raw) = Some l -> l_ts l <> st)
  /\ (a_write (abs s) (Key_from_raw raw) st = None ->
      a_write (apply_lms (abs s) m) (Key_from_raw raw) st
      = Some (Write_new_rollback st (match own_lock s raw st with
                                     | Some l => rollback_protected raw l | None => false end))).

Lemma rollback_none_writes raw ow p cu pre post :
  commit_record_spec (a_write (abs s) (Key_from_raw raw)) st (TcrNone ow) -> collapse_spec s raw st cu ->
  a_write (abs s) (Key_from_raw raw) st = None -> forallb keeps_writes pre = true ->
  forallb keeps_writes post = true ->
  a_write (apply_lms (abs s) (pre ++ rollback_updates raw st p ow ++ cu ++ post)) (Key_from_raw raw) st
  = Some (Write_new_rollback st p)
  /\ a_write (apply_lms (abs s) (pre ++ cu ++ rollback_updates raw st p ow)) (Key_from_raw raw) st
    = Some (Write_new_rollback st p).
Proof.
  intros Hrec Hcu Hst Hpre Hpost.
  assert (ow = None) as -> by (destruct ow as [ow|]; [|done]; by destruct Hrec as (_ & ? & _); simplify_eq).
  cbn [rollback_updates rollback_record]. set (wr := LPutWrite _ st _).
  assert (forall ms, W_after s raw (ms ++ [wr]) st = Some (Write_new_rollback st p)) as Hput.
  { intros ms. unfold wr. rewrite (W_after_put s raw st st_pos). unfold upd. by rewrite decide_True. }
  fold (W_after s raw (pre ++ [wr] ++ cu ++ post)). fold (W_after s raw (pre ++ cu ++ [wr])).
  rewrite (app_assoc pre cu), Hput, !app_assoc. rewrite W_after_keep by done. split; [|done].
  destruct Hcu as [->|(c & w & -> & (_ & Hw & _) & _)]; [by rewrite app_nil_r|].
  rewrite (W_after_del s raw st st_pos). unfold upd. rewrite decide_False; [apply Hput|]. intros <-. congruence.
Qed.

Lemma rollback_lock_rolls_back raw l ow cu :
  own s raw st l -> commit_record_spec (a_write (abs s) (Key_from_raw raw)) st (TcrNone ow) ->
  collapse_spec s raw st cu ->
  rolls_back raw (delete_value_updates raw l ++ rollback_updates raw st (rollback_protected raw l) ow
                  ++ cu ++ [LUnlock (Key_from_raw raw)]).
Proof.
  intros Hown Hrec Hcu. split_and!; [by apply eff_rollback_lock| | |].
  - rewrite !Forall_app. split_and!; [|by apply rollback_no_new_commit|by eapply collapse_no_new_commit|by repeat constructor].
    unfold delete_value_updates. destruct (_ && _)%bool; by repeat constructor.
  - rewrite !app_assoc, apply_lms_app. cbn. unfold upd1. by rewrite decide_True by done.
  - intros Hn. unfold own_lock. destruct Hown as [-> ->]. rewrite Z.eqb_refl.
    apply rollback_none_writes; try done. unfold delete_value_updates. by destruct (_ && _)%bool.
Qed.

Lemma rollback_missing_rolls_back raw ow cu :
  own_lock s raw st = None -> commit_record_spec (a_write (abs s) (Key_from_raw raw)) st (TcrNone ow) ->
  collapse_spec s raw st cu -> rolls_back raw (cu ++ rollback_updates raw st false ow).
Proof.
  intros Hno Hrec Hcu. pose proof (own_lock_none s raw st Hno) as Hno'.
  split_and!; [by apply eff_rollback_missing| | |].
  - apply Forall_app. split; [by eapply collapse_no_new_commit|by apply rollback_no_new_commit].
  - fold (L_after s raw (cu ++ rollback_updates raw st false ow)).
    rewrite L_after_keep by apply rollback_updates_keep.
    pose proof (L_after_keep s raw [] cu) as E. cbn [app] in E. rewrite E by by eapply collapse_keep. apply Hno'.
  - intros Hn. rewrite Hno. by apply (rollback_none_writes raw ow false cu [] []).
Qed.

Lemma rollback_acts raw :
  bytes_ok raw ->
  acts st (fun txn k => cleanup txn reader k TimeStamp_zero false) rollback_allowed stale_lock rolls_back raw.
Proof.
  intros Hr txn Hst. pose proof (proj2 inv raw Hr) as Hi.
  destruct (cleanup_eq s raw st txn wf Hr (ts_u64 st st_pos) Hst reader (reader_of_ctx s st ctx)
    TimeStamp_zero false (store_inv_starts s raw inv Hr)) as (rec & cu & Hrec & Hcu & ->).
  pose proof (record_outcome s raw st Hi rec Hrec) as Hout.
  pose proof (committed_not_rolled_back s raw st Hi) as Hx.
  destruct (own_lock s raw st) as [l|] eqn:Hl.
  - apply own_lock_some in Hl. unfold not_expired. cbn [negb TimeStamp_is_zero Z.eqb TimeStamp_zero andb].
    destruct (own_no_outcome s raw st Hi l Hl) as [Hnr Hnc].
    destruct rec as [ow|c w|c]; cbn [rollback_lock_outcome].
    + left. split; [exact (proj2 Hout)|]. eexists _, _. split; [done|]. by apply rollback_lock_rolls_back.
    + case_decide; [done|]. right. right. split; [intros Hal; by apply (Hal c)|]. split; [|done].
      exists l, c. split_and!; [done| |done]. destruct (Lock_is_pessimistic_lock l); [done|]. by destruct (Hnc eq_refl c).
    + done.
  - assert (rolled_back s raw st -> rolls_back raw []) as Hnil.
    { intros (w & Hw & _). split_and!; [constructor|constructor|exact (own_lock_none s raw st Hl)|congruence]. }
    destruct rec as [ow|c w|c]; cbn [missing_lock_outcome MissingLockAction_rollback_protect cleanup_missing].
    + left. split; [exact (proj2 Hout)|]. eexists _, _. split; [done|]. by apply rollback_missing_rolls_back.
    + case_decide; cbn [mbind res_bind]; [left|right; left; split; [|by eexists]; intros Hal; by apply (Hal c)].
      split; [intros c' Hc'; by eapply Hx|]. eexists _, []. rewrite add_updates_nil. split; [done|auto].
    + left. split; [intros c' Hc'; by eapply Hx|]. eexists _, []. rewrite add_updates_nil. split; [done|auto].
Qed.
End Rollback.

Lemma no_new_commit_allowed s raw st s' m :
  Forall (no_new_commit s raw) m -> agree (abs s') (apply_lms (abs s) m) (Key_from_raw raw) ->
  rollback_allowed s st raw -> rollback_allowed s' st raw.
Proof.
  intros Hm (Hw & _ & _) Hal c (w & Hc & Hst & Hty). rewrite Hw in Hc.
  destruct (commit_origin s raw m (abs s) Hm) with (t := c) (w := w) as (w0 & Hw0 & Hsame); [|done..|].
  { intros ? w0 ? ?. by exists w0. }
  destruct Hsame as (Hty0 & Hst0 & _). apply (Hal c). exists w0. split_and!; congruence.
Qed.

(** C8. The rollback command.  On a reachable store, with in-range arguments and
    distinct keys, the command succeeds exactly when the transaction is committed
    on none of the keys: it never undoes a commit, and it is not refused by
    locks of other transactions, missing locks or earlier rollbacks.  Otherwise it
    fails, or panics when on one of the keys the transaction is committed and a
    late request has taken a pessimistic lock for it.  The updates of a successful
    command always apply; on the store they give, no named key has a lock or a
    commit record of the transaction, a key whose record at the start timestamp was
    free has the rollback record there, protected when the lock was the primary's
    or of a pipelined transaction, and keys not named are unchanged. *)
Theorem rollback_command_correct s ctx cm raws st :
  reachable s -> Forall bytes_ok raws -> NoDup raws -> ts_ok st ->
  let r := Rollback_process_write s ctx cm (map Key_from_raw raws) st in
  (~ Forall (rollback_allowed s st) raws /\ ((exists e, r = Err e) \/ Exists (stale_lock s st) raws /\ r = Panic))
  \/ (Forall (rollback_allowed s st) raws /\ exists wr s',
        r = Ok wr /\ write_modifies (E:=unit) s (wr_modifies wr) = Ok s'
        /\ forall raw, bytes_ok raw ->
             (~ raw ∈ raws -> agree (abs s') (abs s) (Key_from_raw raw))
             /\ (raw ∈ raws -> not_own s' raw st /\ rollback_allowed s' st raw
                 /\ (a_write (abs s) (Key_from_raw raw) st = None ->
                     a_write (abs s') (Key_from_raw raw) st
                     = Some (Write_new_rollback st (match own_lock s raw st with
                              | Some l => rollback_protected raw l | None => false end))))).
Proof.
  intros Hs Hraws Hnd Hst. cbn zeta. unfold Rollback_process_write. pose proof (reachable_inv s Hs) as Hinv.
  destruct (keys_command st (fun txn k => cleanup txn (SnapshotReader_new_with_ctx st s ctx) k TimeStamp_zero false)
    (rollback_allowed s st) (stale_lock s st) (rolls_back s st) s cm PrRes [] (proj1 Hinv)
    (fun raw m Hr Hm => effect_lm_ok 0 s raw st (proj1 Hinv) Hr Hst m (proj1 Hm))
    (fun raw m Hm => effect_touches 0 s raw st m (proj1 Hm)) raws Hraws Hnd)
    as [(Hall & wr & s' & Hr & Hpr & Hw & Hwf & Hkeys)|[(Hno & e & He)|(Hno & Hstuck & Hp)]].
  - eapply Forall_impl; [exact Hraws|]. intros raw Hr. by apply rollback_acts.
  - right. split; [done|]. exists wr, s'. split_and!; [done..|].
    intros raw Hr'. destruct (Hkeys raw Hr') as [Hin Hout]. split; [done|]. intros Hmem.
    destruct (Hin Hmem) as (m & (_ & Hnew & Hlock & Hrec) & Hag).
    pose proof (proj1 (Forall_forall _ _) Hall raw Hmem) as Hal.
    split_and!; [|by eapply no_new_commit_allowed|].
    + intros l. destruct Hag as (_ & -> & _). apply Hlock.
    + intros Hn. destruct Hag as (-> & _). by apply Hrec.
  - left. split; [done|]. left. by exists e.
  - left. split; [done|]. by right.
Qed.

(** ** Acquiring a pessimistic lock *)

Section Acquire.
Context (now : Z) (tso : option TimeStamp) (can_enable : bool).
Context (stat_next : SnapshotReader Store -> Key -> TimeStamp -> u64).
Context (s : Store) (ctx : Context) (raw : bytes) (st : TimeStamp).
Hypothesis (inv : store_inv s) (raw_ok : bytes_ok raw) (st_pos : ts_ok st).
Hypothesis (stat_bound : forall r k t, 0 <= stat_next r k t < 2 ^ 64 - 1).
Let key := Key_from_raw raw.
Let W := a_write (abs s) key.
Let reader := SnapshotReader_new_with_ctx st s ctx.
Hypothesis (versions_bound : forall t w l n, W t = Some w -> w_last_change w = LcExist l n -> n < 2 ^ 64 - 1).

(** The record at the start timestamp tells whether the transaction is rolled back. *)
Lemma rolled_back_flags w :
  W st = Some w ->
  rolled_back s raw st
  <-> (bool_decide (w_write_type w = WtRollback) || w_has_overlapped_rollback w)%bool = true.
Proof.
  intros Hw. pose proof (proj2 inv raw raw_ok) as Hi. pose proof (ki_start _ _ Hi st w Hw) as Hs.
  rewrite orb_true_iff, bool_decide_eq_true. split.
  - intros (w' & Hw' & [[_ Hty]|[_ Hov]]); change (W st = Some w') in Hw'; assert (w' = w) as -> by congruence; auto.
  - intros [Hty|Hov]; exists w; (split; [done|]).
    + rewrite decide_True in Hs by done. by left.
    + right. split; [|done]. exact (proj1 (ki_overlap _ _ Hi st w Hw Hov) st w Hw).
Qed.

Lemma not_rolled_back_none : W st = None -> ~ rolled_back s raw st.
Proof. intros Hn (w & Hw & _). change (W st = Some w) in Hw. congruence. Qed.

(** The checks on the newest record of a free key. *)
Lemma acquire_check_write_cases primary fu nl c w :
  newest W TimeStamp_max (Some (c, w)) ->
  let r := acquire_check_write reader key primary false fu false nl c w in
  (fu < c /\ r = Err (MvWriteConflict st (w_start_ts w) c raw primary WcPessimisticRetry))
  \/ (c <= fu /\ rolled_back s raw st /\ r = Err (MvPessimisticLockRolledBack st raw))
  \/ (c <= fu /\ ~ rolled_back s raw st /\ r = Ok (None, fu, nl)).
Proof.
  intros Hn. cbn zeta. destruct Hn as (Hcm & Hw & Hno). pose proof (proj2 inv raw raw_ok) as Hi.
  assert (rolled_back_error (A:=unit) reader key = Err (MvPessimisticLockRolledBack st raw)) as Herr.
  { unfold rolled_back_error, key. by rewrite Key_into_raw_from_raw. }
  unfold acquire_check_write. fold reader. cbn [r_start_ts SnapshotReader_new_with_ctx reader].
  destruct (Z.ltb_spec fu c); [left; split; [done|]; unfold key; by rewrite Key_into_raw_from_raw|right].
  cbn [mbind res_bind].
  assert (forall w, check_constraint_or_conflict reader false w c key None primary = Ok tt) as Hck
    by (intros; reflexivity).
  destruct (Z.eqb_spec c st) as [->|Hne]; cbn [andb].
  - pose proof (rolled_back_flags w Hw) as Hflags. destruct (_ || _)%bool eqn:E.
    + left. split; [done|]. split; [by apply Hflags|].
      assert ((w_has_overlapped_rollback w || (w_start_ts w =? st))%bool = true) as ->.
      { apply orb_true_iff. destruct (w_has_overlapped_rollback w); [by left|right].
        apply orb_true_iff in E as [Hty%bool_decide_eq_true|]; [|done].
        pose proof (ki_start _ _ Hi st w Hw) as Hs. rewrite decide_True in Hs by done. by apply Z.eqb_eq. }
      cbn [assert_ mbind res_bind]. by rewrite Herr.
    + right. split; [done|]. split; [intros Hrb; by apply Hflags in Hrb|].
      destruct (Z.ltb_spec st st); [lia|]. cbn [mbind res_bind]. by rewrite Hck.
  - destruct (Z.ltb_spec st c) as [Hlt|]; cbn [mbind res_bind].
    + destruct (seek_write_spec reader raw (proj1 (proj1 inv)) raw_ok st (ts_u64 st st_pos)) as (sr & Hsr & Hn' & _).
      fold key in Hsr. rewrite Hsr. cbn [mbind res_bind].
      change (newest W st sr) in Hn'. destruct sr as [[c' w']|].
      * destruct Hn' as (Hc' & Hw' & Hno'). destruct (Z.eqb_spec c' st) as [->|Hne']; cbn [andb].
        -- pose proof (rolled_back_flags w' Hw') as Hflags. destruct (_ || _)%bool eqn:E.
           ++ left. split; [done|]. split; [by apply Hflags|]. by rewrite Herr.
           ++ right. split; [done|]. split; [intros Hrb; by apply Hflags in Hrb|]. cbn [mbind res_bind]. by rewrite Hck.
        -- right. split; [done|]. split; [apply not_rolled_back_none, Hno'; lia|]. cbn [mbind res_bind]. by rewrite Hck.
      * right. split; [done|]. split; [apply not_rolled_back_none, Hn'; lia|]. cbn [mbind res_bind]. by rewrite Hck.
    + right. split; [done|]. split; [|by rewrite Hck]. apply not_rolled_back_none. apply Hno.
      unfold ts_ok, TimeStamp_max, u64_max in *. lia.
Qed.

(** A plain request for a lock on a free key. *)
Lemma acquire_free_cases cm primary ttl fu mc :
  u64_ok fu -> a_lock (abs s) key = None ->
  let txn := MvccTxn_new st cm in
  let r := acquire_new_lock can_enable stat_next txn reader key primary false ttl fu false false mc false
             false false false in
  (exists c w, W c = Some w /\ fu < c
     /\ r = Err (MvWriteConflict st (w_start_ts w) c raw primary WcPessimisticRetry))
  \/ ((forall t w, W t = Some w -> t <= fu) /\ rolled_back s raw st
      /\ r = Err (MvPessimisticLockRolledBack st raw))
  \/ ((forall t w, W t = Some w -> t <= fu) /\ ~ rolled_back s raw st /\ exists lc infos,
        hint_ok W TimeStamp_max lc
        /\ r = Ok (PlEmpty, OvUnspecified,
                  add_updates txn [LPutPessimistic key
                    {| pl_primary := primary; pl_start_ts := st; pl_ttl := ttl; pl_for_update_ts := fu;
                       pl_min_commit_ts := mc; pl_last_change := lc; pl_is_locked_with_conflict := false |}]
                    infos)).
Proof.
  intros Hfu Hl. cbn zeta. unfold acquire_new_lock. pose proof (proj1 inv) as wf.
  pose proof (reader_of_ctx s st ctx) as rd. fold reader in rd.
  pose proof (inv_readable_history s raw (proj2 inv raw raw_ok)) as Hread.
  destruct (seek_write_spec reader raw (proj1 (proj1 inv)) raw_ok TimeStamp_max) as (sr & Hsr & Hn & _);
    [unfold u64_ok, TimeStamp_max, u64_max; lia|].
  fold key in Hsr. rewrite Hsr. cbn [mbind res_bind]. change (newest W TimeStamp_max sr) in Hn.
  pose proof (newest_max s raw wf raw_ok sr Hn) as Hmax. fold key W in Hmax.
  assert (forall p, exists infos, put_pessimistic_lock (MvccTxn_new st cm) key p true
    = Ok (add_updates (MvccTxn_new st cm) [LPutPessimistic key p] infos)) as Hput.
  { intros p. exists [Lock_into_lock_info (PessimisticLock_to_lock p) raw].
    unfold put_pessimistic_lock, key. by rewrite Key_to_raw_from_raw. }
  destruct sr as [[c w]|].
  - pose proof (proj1 (proj2 Hn) : W c = Some w) as Hw.
    destruct (acquire_check_write_cases primary fu false c w Hn) as [[Hlt ->]|[(Hle & Hrb & ->)|(Hle & Hrb & ->)]].
    + left. by exists c, w.
    + right. left. split; [|done]. intros t w' Hw'. pose proof (Hmax t w' Hw'). lia.
    + right. right. split; [intros t w' Hw'; pose proof (Hmax t w' Hw'); lia|]. split; [done|].
      cbn [mbind res_bind t_start_ts MvccTxn_new].
      destruct (next_last_change_info_total stat_next s raw st wf raw_ok reader rd w c (proj1 Hread) Hw Hmax
        stat_bound (fun l n => versions_bound c w l n Hw)) as [lc Hlc].
      destruct (next_last_change_info_hint stat_next s raw st wf raw_ok reader rd w c lc Hw Hmax Hlc) as [_ Hhint].
      fold key in Hlc. rewrite Hlc. cbn [mbind res_bind]. exists (if negb can_enable then LcUnknown else lc).
      destruct (Hput (Build_PessimisticLock primary st ttl fu mc (if negb can_enable then LcUnknown else lc) false))
        as [infos Hp]. exists infos.
      split; [destruct can_enable; [by apply Hhint|done]|]. cbn in Hp |- *. by rewrite Hp.
  - right. right. split; [intros t w' Hw'; by destruct (Hmax t w' Hw')|].
    split; [apply not_rolled_back_none, Hn; unfold ts_ok, TimeStamp_max, u64_max in *; lia|].
    cbn [mbind res_bind]. exists (if negb can_enable then LcUnknown else LcNotExist).
    destruct (Hput (Build_PessimisticLock primary st ttl fu mc (if negb can_enable then LcUnknown else LcNotExist) false))
      as [infos Hp]. exists infos. split; [|cbn in Hp |- *; by rewrite Hp].
    destruct can_enable; [|done]. apply (lock_hint_none s raw); [|done]. intros t w Hw. by apply (Hmax t w).
Qed.
End Acquire.

(** C9. Acquiring a pessimistic lock.  On a reachable store a request that only
    locks one key always answers, unless a number of versions overflows.  A lock
    of another transaction, or a prewrite lock of its own, refuses it; a
    pessimistic lock of its own is renewed when the for-update timestamp has
    moved forward, and kept otherwise.  On a free key a record above the
    for-update timestamp is a write conflict, and a transaction that was rolled
    back on the key is told so; otherwise the key gets the lock, whose hint
    describes the records of the key.  A refused request writes nothing. *)
Theorem acquire_lock_correct now tso can_enable stat_next s ctx cm raw st primary ttl fu mc :
  reachable s -> bytes_ok raw -> ts_ok st -> u64_ok fu ->
  (forall r k t, 0 <= stat_next r k t < 2 ^ 64 - 1) ->
  let key := Key_from_raw raw in
  let W := a_write (abs s) key in
  (forall t w l n, W t = Some w -> w_last_change w = LcExist l n -> n < 2 ^ 64 - 1) ->
  let txn := MvccTxn_new st cm in
  let r := acquire_pessimistic_lock now tso can_enable stat_next txn (SnapshotReader_new_with_ctx st s ctx)
             key primary false ttl fu false false mc false false false in
  let lock lc conflict :=
    {| pl_primary := primary; pl_start_ts := st; pl_ttl := ttl; pl_for_update_ts := fu;
       pl_min_commit_ts := mc; pl_last_change := lc; pl_is_locked_with_conflict := conflict |} in
  match a_lock (abs s) key with
  | Some l =>
      if negb (l_ts l =? st) then r = (Err (MvKeyIsLocked (Lock_into_lock_info l raw)), txn)
      else if negb (Lock_is_pessimistic_lock l) then r = (Err (MvLockTypeNotMatch st raw false), txn)
      else if l_for_update_ts l <? fu then
        r = (Ok (PlEmpty, OvUnspecified),
             add_updates txn [LPutPessimistic key (lock (l_last_change l) (Lock_is_pessimistic_lock_with_conflict l))] [])
      else r = (Ok (PlEmpty, OvUnspecified), txn)
  | None =>
      (exists c w, W c = Some w /\ fu < c
         /\ r = (Err (MvWriteConflict st (w_start_ts w) c raw primary WcPessimisticRetry), txn))
      \/ ((forall t w, W t = Some w -> t <= fu) /\ rolled_back s raw st
          /\ r = (Err (MvPessimisticLockRolledBack st raw), txn))
      \/ ((forall t w, W t = Some w -> t <= fu) /\ ~ rolled_back s raw st
          /\ exists lc infos, hint_ok W TimeStamp_max lc
            /\ r = (Ok (PlEmpty, OvUnspecified), add_updates txn [LPutPessimistic key (lock lc false)] infos))
  end.
Proof.
  intros Hs Hr Hst Hfu Hstat key W Hver txn r lock. pose proof (reachable_inv s Hs) as Hinv.
  assert (load_lock (SnapshotReader_new_with_ctx st s ctx) key = Ok (a_lock (abs s) key)) as Hload
    by by apply load_lock_abs; [apply Hinv|].
  subst r. unfold acquire_pessimistic_lock. cbn [andb orb]. cbn [mbind res_bind]. rewrite Hload.
  cbn [mbind res_bind]. destruct (a_lock (abs s) key) as [l|] eqn:Hl.
  - unfold key. rewrite Key_into_raw_from_raw by done. cbn [r_start_ts SnapshotReader_new_with_ctx].
    destruct (negb (l_ts l =? st)); [done|]. destruct (negb (Lock_is_pessimistic_lock l)); [done|].
    unfold acquire_own_lock. cbn [andb orb mbind res_bind load_old_value negb].
    destruct (l_for_update_ts l <? fu); [|done]. by rewrite put_pessimistic_lock_old.
  - destruct (acquire_free_cases can_enable stat_next s ctx raw st Hinv Hr Hst Hstat Hver cm primary ttl fu mc Hfu Hl)
      as [(c & w & Hw & Hlt & E)|[(Hle & Hrb & E)|(Hle & Hrb & lc & infos & Hlc & E)]]; fold key txn in E; rewrite E.
    + left. by exists c, w.
    + right. by left.
    + right. right. split; [done|]. split; [done|]. by exists lc, infos.
Qed.

Lemma acquire_lock_correct_witness :
  exists info, acquire_pessimistic_lock 0 None true (fun _ _ _ => 0) (MvccTxn_new 7 run_cm)
    (SnapshotReader_new_with_ctx 7 store_locked run_ctx) (Key_from_raw [107]) [107] false 3000 9 false false 10
    false false false = (Err (MvKeyIsLocked info), MvccTxn_new 7 run_cm).
Proof.
  pose proof (acquire_lock_correct 0 None true (fun _ _ _ => 0) store_locked run_ctx run_cm [107] 7 [107] 3000 9 10
    reachable_locked sample_raw_ok ltac:(apply run_ts_ok; lia) ltac:(unfold u64_ok; lia)
    ltac:(intros; lia) ltac:(intros t w l n Hw; by rewrite locked_no_record in Hw)) as H.
  destruct (a_lock (abs store_locked) (Key_from_raw [107])) as [l|] eqn:Hl; [|by vm_compute in Hl].
  assert (l_ts l = 5) as E by (vm_compute in Hl; by injection Hl as <-).
  rewrite E in H. by eexists.
Defined.

Lemma commit_command_correct_witness :
  Forall (commit_allowed store_locked 5 10) [[107]]
  /\ exists wr, Commit_process_write store_locked run_ctx run_cm (map Key_from_raw [[107]]) 5 10 = Ok wr.
Proof.
  assert (Forall (commit_allowed store_locked 5 10) [[107]]) as Hal.
  { apply Forall_singleton. vm_compute. discriminate. }
  split; [exact Hal|].
  destruct (commit_command_correct store_locked run_ctx run_cm [[107]] 5 10 reachable_locked run_raws_ok
    (NoDup_singleton _)) as [[? _]|[(_ & Hno & _)|(_ & _ & wr & s' & Hr & _)]];
    [apply run_ts_ok; lia|unfold u64_ok; lia|lia|done|]. by exists wr.
Defined.

Lemma rollback_command_correct_witness :
  exists e, Rollback_process_write store_committed run_ctx run_cm (map Key_from_raw [[107]]) 5 = Err e.
Proof.
  destruct (rollback_command_correct store_committed run_ctx run_cm [[107]] 5 reachable_committed run_raws_ok
    (NoDup_singleton _)) as [(_ & [He|[_ Hp]])|(Hal & _)]; [apply run_ts_ok; lia|done|vm_compute in Hp; discriminate|].
  apply Forall_cons_1 in Hal as [Hal _]. by destruct (Hal 10 store_committed_at).
Defined.
