(* ===== verification/PrewriteCorrect.v ===== *)
(** * What a prewrite request promises

    A prewrite request on a reachable store: a result with locks writes nothing;
    a result without locks tells the truth about every mutation of the request
    ([prewritten_key]): the key holds the transaction's lock, which allows the
    commit at the answered timestamp, or the mutation is committed at the answered
    one-phase commit timestamp, with its value.  Also two requests that fall
    outside these theorems. *)

From Stdlib Require Import ZArith Lia.
From stdpp Require Import base numbers list gmap relations.
From S2P Require Import Prelude Number Bytes Types Write Lock ConcurrencyManager Engine Reader.
From S2P Require Import AbsState ReaderSpec MvccTxn Prewrite TxnStatus Commands PrewriteCommand AcquirePessimisticLock.
From S2P Require Import KeyInv Protocol Values Effects PrewriteSpec PrewriteRequest System Runs SystemSpec CommandSpec.

Open Scope Z_scope.

Section Outcome.
Context (floor : TimeStamp) (s : Store) (st : TimeStamp) (secondaries_of : bytes -> list bytes).

(** A lock or record of the transaction stands for the value: it has it, or it
    refers to the value written beside it. *)
Definition keeps_value (a : Abs) (raw : bytes) (short_value value : option bytes) : Prop :=
  match value with
  | Some v => short_value = Some v \/ (short_value = None /\ a_value a (Key_from_raw raw) st = Some v)
  | None => short_value = None
  end.

Definition write_type_of (m : Mutation) : option WriteType :=
  LockType_from_mutation m ≫= WriteType_from_lock_type.

(** The state [s'] of the key of a mutation after an answer [pr] without locks. *)
Inductive prewritten_key (s' : Store) (pr : PrewriteResult) (raw : bytes) (m : Mutation) : Prop :=
| pk_check :
    Mutation_should_not_write m = true -> agree (abs s') (abs s) (Key_from_raw raw) -> prewritten_key s' pr raw m
| pk_repeated l :
    own s raw st l -> Lock_is_pessimistic_lock l = false -> agree (abs s') (abs s) (Key_from_raw raw) ->
    (pr_min_commit_ts pr <> 0 -> l_use_async_commit l = true /\ l_min_commit_ts l <= pr_min_commit_ts pr) ->
    (pr_one_pc_commit_ts pr <> 0 -> l_use_async_commit l = true /\ l_min_commit_ts l <= pr_one_pc_commit_ts pr) ->
    prewritten_key s' pr raw m
| pk_locked l :
    pr_one_pc_commit_ts pr = 0 -> own s' raw st l -> LockType_from_mutation m = Some (l_lock_type l) ->
    keeps_value (abs s') raw (l_short_value l) (snd (Mutation_into_key_value m)) ->
    (forall t, a_write (abs s') (Key_from_raw raw) t = a_write (abs s) (Key_from_raw raw) t) ->
    (pr_min_commit_ts pr <> 0 -> async_lock floor st secondaries_of raw (pr_min_commit_ts pr) l) ->
    prewritten_key s' pr raw m
| pk_committed w :
    floor < pr_one_pc_commit_ts pr -> st < pr_one_pc_commit_ts pr ->
    a_lock (abs s') (Key_from_raw raw) = None ->
    a_write (abs s') (Key_from_raw raw) (pr_one_pc_commit_ts pr) = Some w ->
    w_start_ts w = st -> write_type_of m = Some (w_write_type w) ->
    keeps_value (abs s') raw (w_short_value w) (snd (Mutation_into_key_value m)) ->
    (forall t, t <> pr_one_pc_commit_ts pr ->
       a_write (abs s') (Key_from_raw raw) t = a_write (abs s) (Key_from_raw raw) t) ->
    prewritten_key s' pr raw m.

(** The answer of a request on the given keys and mutations. *)
Definition prewrite_answer (raws : list bytes) (mus : list Mutation) (wr : WriteResult) (s' : Store) : Prop :=
  exists pr, wr_pr wr = PrPrewriteResult pr
  /\ ((pr_locks pr <> [] /\ wr_modifies wr = [])
      \/ (pr_locks pr = [] /\ wr_modifies wr = [] /\ exists raw c, raw ∈ raws /\ committed_on s st raw c
            /\ (pr_one_pc_commit_ts pr <> 0 -> pr_one_pc_commit_ts pr = c)
            /\ (pr_min_commit_ts pr <> 0 -> pr_min_commit_ts pr = c))
      \/ (pr_locks pr = []
          /\ (forall raw, bytes_ok raw -> ~ raw ∈ raws -> agree (abs s') (abs s) (Key_from_raw raw))
          /\ Forall (fun m => exists raw, raw ∈ raws /\ Mutation_key m = Key_from_raw raw
                       /\ prewritten_key s' pr raw m) mus)).

Hypothesis (inv : store_inv s) (st_pos : ts_ok st).
Let wf : wf_store s := proj1 inv.

Lemma stores_value_keeps a raw value l vals :
  stores_value raw st value l vals ->
  (forall v, vals = [LPutValue (Key_from_raw raw) st v] -> a_value a (Key_from_raw raw) st = Some v) ->
  keeps_value a raw (l_short_value l) value.
Proof.
  unfold stores_value, keeps_value. destruct value as [v|]; [|tauto].
  destruct (is_short_value v); intros [Hs Hv] Ha; [by left|right]. auto.
Qed.

(** Writing the value of a prewrite changes no lock and no record. *)
Lemma value_updates raw value l vals a :
  stores_value raw st value l vals ->
  (forall k t, a_write (apply_lms a vals) k t = a_write a k t)
  /\ (forall k, a_lock (apply_lms a vals) k = a_lock a k)
  /\ (forall v, vals = [LPutValue (Key_from_raw raw) st v] ->
        a_value (apply_lms a vals) (Key_from_raw raw) st = Some v).
Proof.
  intros Hv. destruct (stores_value_vals raw st value l vals Hv) as [->|[v ->]].
  - split_and!; intros; done.
  - split_and!; [done|done|]. intros v' [= <-]. cbn. unfold upd2. by rewrite decide_True.
Qed.

Lemma put_prewritten s' pr raw m l vals :
  lock_for s st raw m l vals -> pr_one_pc_commit_ts pr = 0 ->
  (pr_min_commit_ts pr <> 0 -> async_lock floor st secondaries_of raw (pr_min_commit_ts pr) l) ->
  agree (abs s') (apply_lms (abs s) (vals ++ [LPutLock (Key_from_raw raw) l])) (Key_from_raw raw) ->
  prewritten_key s' pr raw m.
Proof.
  intros (Hl & Hty & Hv) H1 Hasync (Haw & Hal & Hav). rewrite apply_lms_app in Haw, Hal, Hav.
  destruct (value_updates raw _ l vals (abs s) Hv) as (Hw & _ & Hval).
  apply (pk_locked s' pr raw m l); [done| |done| | |done].
  - split; [|apply Hl]. rewrite Hal. cbn. unfold upd1. by rewrite decide_True.
  - eapply stores_value_keeps; [done|]. intros v E. rewrite Hav. by apply Hval.
  - intros t. rewrite Haw. apply Hw.
Qed.

Lemma commit_write_lock_type l c :
  Lock_is_pessimistic_lock l = false -> WriteType_from_lock_type (l_lock_type l) = Some (w_write_type (commit_write l c)).
Proof.
  unfold Lock_is_pessimistic_lock, commit_write. destruct (existsb _ _); by destruct (l_lock_type l).
Qed.

Lemma commit_write_short l c : w_short_value (commit_write l c) = l_short_value l.
Proof. unfold commit_write. by destruct (existsb _ _). Qed.

Lemma one_pc_prewritten s' pr raw m l vals (del : bool) :
  let c := pr_one_pc_commit_ts pr in
  lock_for s st raw m l vals -> floor < c -> st < c ->
  (del = false -> a_lock (abs s) (Key_from_raw raw) = None) ->
  agree (abs s') (apply_lms (abs s) (vals ++ LPutWrite (Key_from_raw raw) c (commit_write l c)
                                          :: if del then [LUnlock (Key_from_raw raw)] else [])) (Key_from_raw raw) ->
  prewritten_key s' pr raw m.
Proof.
  intros c (Hl & Hty & Hv) Hfl Hst Hdel (Haw & Hal & Hav). rewrite apply_lms_app in Haw, Hal, Hav.
  destruct (value_updates raw _ l vals (abs s) Hv) as (Hw & Hlk & Hval).
  set (a := apply_lms (abs s) vals) in *.
  assert (forall t, a_write (abs s') (Key_from_raw raw) t
    = if decide (t = c) then Some (commit_write l c) else a_write (abs s) (Key_from_raw raw) t) as Haw'.
  { intros t. rewrite Haw, <-Hw. destruct del; cbn; unfold upd2; repeat case_decide; naive_solver. }
  apply (pk_committed s' pr raw m (commit_write l c)); try done.
  - rewrite Hal. destruct del; cbn; [unfold upd1; by rewrite decide_True|rewrite Hlk; auto].
  - fold c. rewrite Haw'. by rewrite decide_True.
  - rewrite commit_write_start. apply Hl.
  - unfold write_type_of. rewrite Hty. apply commit_write_lock_type, Hl.
  - rewrite commit_write_short. eapply stores_value_keeps; [done|]. intros v E. rewrite Hav.
    destruct del; cbn; by apply Hval.
  - intros t Ht. rewrite Haw'. by rewrite decide_False.
Qed.

(** What is done to a key, seen in the store written. *)
Lemma key_done_prewritten mode (one_pc : bool) f s' pr e :
  key_done floor s st secondaries_of mode e -> en_blocked e = false ->
  (if one_pc then mode = Some f /\ pr_one_pc_commit_ts pr = f /\ (en_pending e = None -> en_ms e = [])
   else en_pending e = None /\ pr_one_pc_commit_ts pr = 0) ->
  (pr_min_commit_ts pr <> 0 -> mode = Some (pr_min_commit_ts pr)) ->
  agree (abs s') (apply_lms (abs s) (en_final one_pc f e)) (en_key e) ->
  prewritten_key s' pr (en_raw e) (en_mutation e).
Proof.
  intros Hd Hb Hone Hmin. unfold en_final, commit_tail, en_key.
  destruct Hd as [raw mu|raw mu ts (l & Hl & Hts & Hnp & Ets) Hle|raw mu Hnw|raw mu l vals Hl Ha
    |raw mu l vals del f' Hm Hl (Hfl & Hlt & _ & _) Hle Hdel]; cbn [en_raw en_mutation en_ms en_pending en_blocked] in *.
  - done.
  - replace (if one_pc then [] else []) with (@nil LModify) by by destruct one_pc. intros Hag.
    assert (forall g, mode = Some g -> l_use_async_commit l = true /\ l_min_commit_ts l <= g) as Hg.
    { intros g E. destruct (Hle g E) as [Hnz Hg]. rewrite Ets in Hnz, Hg. by destruct (l_use_async_commit l). }
    eapply pk_repeated; [done..|by intros ?%Hmin%Hg|]. intros Hnz.
    destruct one_pc; [destruct Hone as (Hm & -> & _); by apply Hg|by destruct Hone].
  - replace (if one_pc then [] else []) with (@nil LModify) by by destruct one_pc. intros Hag. by apply pk_check.
  - destruct one_pc.
    + destruct Hone as (_ & _ & Hnil). specialize (Hnil eq_refl). by apply app_eq_nil in Hnil as [_ ?].
    + rewrite app_nil_r. apply put_prewritten; [done|apply Hone|]. by intros ?%Hmin%Ha.
  - destruct one_pc; [|by destruct Hone]. destruct Hone as (Hm' & Hpr & _).
    assert (f' = f) as -> by congruence. rewrite <-Hpr in *. apply one_pc_prewritten; [done|lia|lia|done].
Qed.

Lemma entry_at es raws mus i raw m :
  map en_raw es = raws -> map en_mutation es = mus -> raws !! i = Some raw -> mus !! i = Some m ->
  exists e, es !! i = Some e /\ en_raw e = raw /\ en_mutation e = m.
Proof.
  intros <- <-. change (map ?f es) with (f <$> es). rewrite !list_lookup_fmap. destruct (es !! i) as [e|]; [|done].
  intros [= <-] [= <-]. eauto.
Qed.

Lemma entry_unique es e e' : NoDup (map en_raw es) -> e ∈ es -> e' ∈ es -> en_raw e = en_raw e' -> e = e'.
Proof.
  intros Hnd [i Hi]%list_elem_of_lookup [j Hj]%list_elem_of_lookup E.
  assert (i = j) as ->; [|congruence]. eapply (NoDup_lookup (map en_raw es)); [done|..];
    change (map en_raw es) with (en_raw <$> es); rewrite list_lookup_fmap; [by rewrite Hi|by rewrite Hj, E].
Qed.

Lemma result_answer raws mus wr :
  Forall bytes_ok raws -> NoDup raws -> Forall2 (fun raw m => Mutation_key m = Key_from_raw raw) raws mus ->
  result_of floor s st secondaries_of raws mus wr ->
  exists s', write_modifies (E:=unit) s (wr_modifies wr) = Ok s' /\ wf_store s' /\ prewrite_answer raws mus wr s'.
Proof.
  intros Hraws Hnd Hkeys (pr & Hpr & Hres). destruct Hres as [[Hl Hm]|[(Hl & Hm & Hc)|Hres]];
    [exists s; rewrite Hm; split; [done|]; split; [done|]; exists pr; rewrite Hm; tauto..|].
  destruct Hres as (Hl & es & ms & mode & one & f & Er & Em & Hdone & Hblk & Hm & Hre & Hf & Hmode & Hmin).
  assert (Forall (fun e => effect floor s (en_raw e) st (en_final one f e)) es) as He
    by (eapply entries_effects; [done..|]; by destruct one, Hmode).
  assert (Forall2 (fun r m => effect floor s r st m /\ exists e, e ∈ es /\ en_raw e = r /\ m = en_final one f e)
    raws (map (en_final one f) es)) as Hall.
  { rewrite <-Er. apply Forall2_fmap_2, Forall_Forall2_diag, Forall_forall. intros e Hin.
    split; [exact (proj1 (Forall_forall _ _) He e Hin)|eauto]. }
  assert (effects floor s raws st ms) as Heff.
  { exists (map (en_final one f) es). split; [|done]. eapply Forall2_impl; [exact Hall|]. by intros r m [? _]. }
  destruct (write_modifies_refines (E:=unit) ms s wf (effects_lm_ok floor s st inv st_pos raws ms Hraws Heff))
    as (s' & Hw & Hwf & Ha).
  exists s'. rewrite Hm. split; [done|]. split; [done|]. exists pr. split; [done|]. right. right. split; [done|].
  assert (forall raw b, agree (apply_lms (abs s) (concat (map (en_final one f) es))) b (Key_from_raw raw) ->
    agree (abs s') b (Key_from_raw raw)) as Hag.
  { intros raw b Hb. eapply agree_trans; [by apply agree_equiv|]. eapply agree_trans; [by apply reordered_agree|done]. }
  pose proof (fun raw Hr => key_updates_at _ raw raws (fun r m Hm => effect_touches floor s r st m (proj1 Hm)) Hr
    _ (abs s) (abs s) Hall Hraws Hnd ltac:(done)) as Hat.
  split.
  - intros raw Hr Hni. destruct (Hat raw Hr) as [[? _]|[_ Hb]]; [done|by apply Hag].
  - apply Forall_forall. intros m [i Hi]%list_elem_of_lookup.
    destruct (Forall2_lookup_r _ _ _ _ _ Hkeys Hi) as (raw & Hri & Hk).
    exists raw. split; [by apply list_elem_of_lookup_2 in Hri|]. split; [done|].
    destruct (entry_at es raws mus i raw m Er Em Hri Hi) as (e & Hei & Eraw & <-).
    destruct (Hat raw (raw_in_ok raws raw Hraws (list_elem_of_lookup_2 _ _ _ Hri))) as [[_ (m' & [_ (e' & Hin' & Er' & ->)] & Hb)]|[Hni _]];
      [|by apply list_elem_of_lookup_2 in Hri].
    assert (e' = e) as -> by (apply (entry_unique es e' e); [by rewrite Er|done|by apply list_elem_of_lookup_2 in Hei|congruence]).
    apply list_elem_of_lookup_2 in Hei. rewrite <-Er' in Hb |- *.
    apply (key_done_prewritten mode one f); [..|by apply Hag];
      [exact (proj1 (Forall_forall _ _) Hdone e Hei)|exact (proj1 (Forall_forall _ _) Hblk e Hei)| |done].
    destruct one; [destruct Hmode as (? & _ & ? & Hw1)|destruct Hmode as [Hw1 ?]]; split_and!; try done;
      exact (proj1 (Forall_forall _ _) Hw1 e Hei).
Qed.

(** *** Committing what has been prewritten *)

(** The mutation is committed at [c]; if the transaction had not prewritten the
    key before the request, then with the value of the mutation. *)
Definition committed_mutation (s' : Store) (c : TimeStamp) (raw : bytes) (m : Mutation) : Prop :=
  not_own s' raw st
  /\ exists w, a_write (abs s') (Key_from_raw raw) c = Some w /\ w_start_ts w = st /\ w_write_type w <> WtRollback
     /\ ((forall l, own s raw st l -> Lock_is_pessimistic_lock l = true) ->
         write_type_of m = Some (w_write_type w)
         /\ keeps_value (abs s') raw (w_short_value w) (snd (Mutation_into_key_value m))).

(** The lock an async prewrite leaves on the key of a mutation. *)
Definition prepared_by (s' : Store) (pr : PrewriteResult) (raw : bytes) (m : Mutation) (l : Lock) : Prop :=
  own_lock s' raw st = Some l /\ Lock_is_pessimistic_lock l = false /\ l_min_commit_ts l <= pr_min_commit_ts pr
  /\ ((forall l, own s raw st l -> Lock_is_pessimistic_lock l = true) ->
      LockType_from_mutation m = Some (l_lock_type l)
      /\ keeps_value (abs s') raw (l_short_value l) (snd (Mutation_into_key_value m))).

Lemma own_own_lock s' raw l : own s' raw st l -> own_lock s' raw st = Some l.
Proof. intros [Hl Ht]. unfold own_lock. rewrite Hl. by rewrite Ht, Z.eqb_refl. Qed.

Lemma lock_type_not_pessimistic m l :
  LockType_from_mutation m = Some (l_lock_type l) -> Lock_is_pessimistic_lock l = false.
Proof. unfold Lock_is_pessimistic_lock. by destruct m; cbn; intros [= <-]. Qed.

Lemma prewritten_prepared s' pr raw m :
  prewritten_key s' pr raw m -> Mutation_should_not_write m = false -> pr_one_pc_commit_ts pr = 0 ->
  pr_min_commit_ts pr <> 0 -> exists l, prepared_by s' pr raw m l.
Proof.
  intros Hk Hw H1 Hmin.
  destruct Hk as [Hnw _|l Hl Hnp (Haw & Hal & Hav) Hm _|l _ Hl Hty Hv _ Ha|w _ Hst]; [congruence|..].
  - exists l. split_and!; [|done|by apply Hm|].
    + apply own_own_lock. destruct Hl as [Hl Ht]. split; [|done]. by rewrite Hal.
    + intros Hno. by rewrite (Hno l Hl) in Hnp.
  - exists l. split_and!; [by apply own_own_lock|by eapply lock_type_not_pessimistic| |done].
    destruct (Ha Hmin) as (_ & _ & _ & _ & ?). done.
  - unfold ts_ok in st_pos. lia.
Qed.

Lemma prepared_committed s' s'' pr raw m l c :
  prepared_by s' pr raw m l -> not_own s'' raw st ->
  agree (abs s'') (apply_lms (abs s') (commit_updates s' st c raw)) (Key_from_raw raw) ->
  committed_mutation s'' c raw m.
Proof.
  intros (Hl & Hnp & _ & Hm) Hno (Haw & _ & Hav). split; [done|]. unfold commit_updates in *. rewrite Hl, Hnp in *.
  exists (commit_write l c). split_and!.
  - rewrite Haw. cbn. unfold upd2. by rewrite decide_True.
  - rewrite commit_write_start. apply own_lock_some in Hl as [_ ?]. done.
  - pose proof (commit_write_lock_type l c Hnp) as E. intros E'. rewrite E' in E. by destruct (l_lock_type l).
  - intros Hfirst. destruct (Hm Hfirst) as [Hty Hv]. split; [unfold write_type_of; rewrite Hty; by apply commit_write_lock_type|].
    rewrite commit_write_short. unfold keeps_value in *. destruct (snd _) as [v|]; [|done].
    destruct Hv as [?|[? ?]]; [by left|right]. split; [done|]. by rewrite Hav.
Qed.
End Outcome.

(** Each key of a request is the key of one of its mutations. *)
Lemma request_key (raws : list bytes) mus (P : bytes -> Mutation -> Prop) :
  map Mutation_key mus = map Key_from_raw raws -> Forall bytes_ok raws ->
  Forall (fun m => exists raw, raw ∈ raws /\ Mutation_key m = Key_from_raw raw /\ P raw m) mus ->
  forall raw, raw ∈ raws -> exists m, m ∈ mus /\ P raw m.
Proof.
  intros Hkeys Hraws Hall raw Hin. assert (Key_from_raw raw ∈ map Mutation_key mus) as Hk
    by (rewrite Hkeys; apply list_elem_of_In, in_map; by apply list_elem_of_In).
  apply list_elem_of_In, in_map_iff in Hk as (m & Hm & Hmin). apply list_elem_of_In in Hmin.
  exists m. split; [done|]. destruct (proj1 (Forall_forall _ _) Hall m Hmin) as (raw' & Hin' & Hm' & HP).
  assert (raw' = raw) as <-; [|done].
  apply Key_from_raw_inj; [by eapply raw_in_ok..|congruence].
Qed.

Lemma answer_commits floor s st secs raws mus wr pr s' ctx cm c :
  prewrite_answer floor s st secs raws mus wr s' -> wr_pr wr = PrPrewriteResult pr ->
  store_inv s' -> ts_ok st -> Forall bytes_ok raws -> NoDup raws ->
  map Mutation_key mus = map Key_from_raw raws ->
  Forall (fun m => Mutation_should_not_write m = false) mus ->
  (forall raw t, raw ∈ raws -> ~ committed_on s st raw t) ->
  pr_locks pr = [] -> pr_one_pc_commit_ts pr = 0 -> pr_min_commit_ts pr <> 0 ->
  pr_min_commit_ts pr <= c -> st < c -> u64_ok c ->
  exists wr' s'', Commit_process_write s' ctx cm (map Key_from_raw raws) st c = Ok wr'
    /\ write_modifies (E:=unit) s' (wr_modifies wr') = Ok s''
    /\ Forall (fun m => exists raw, raw ∈ raws /\ Mutation_key m = Key_from_raw raw
                 /\ committed_mutation s st s'' c raw m) mus.
Proof.
  intros (pr' & Hpr & Hres) Hpr' Hinv Hst Hraws Hnd Hkeys Hw Hunc Hl H1 Hmin Hc Hlt Hu.
  assert (pr' = pr) as -> by congruence.
  destruct Hres as [[? _]|[(_ & _ & raw & t & Hin & Hcom & _)|(_ & _ & Hall)]]; [done|by destruct (Hunc raw t Hin)|].
  assert (Forall (fun m => exists raw, raw ∈ raws /\ Mutation_key m = Key_from_raw raw
    /\ exists l, prepared_by s st s' pr raw m l) mus) as Hprep.
  { apply Forall_forall. intros m Hm. destruct (proj1 (Forall_forall _ _) Hall m Hm) as (raw & Hin & Hk & Hpk).
    exists raw. split_and!; [done..|]. eapply prewritten_prepared; [done|done| |done|done].
    exact (proj1 (Forall_forall _ _) Hw m Hm). }
  pose proof (request_key raws mus (fun raw m => exists l, prepared_by s st s' pr raw m l) Hkeys Hraws Hprep) as Hraw.
  destruct (commit_command s' ctx cm st c Hinv Hst Hu Hlt raws Hraws Hnd)
    as [(_ & wr' & s'' & Hr & _ & Hwr & Hafter)|[Hno _]].
  - exists wr', s''. split_and!; [done..|]. eapply Forall_impl; [exact Hprep|].
    intros m (raw & Hin & Hk & l & Hp). exists raw. split_and!; [done..|].
    destruct (proj2 (Hafter raw (raw_in_ok raws raw Hraws Hin)) Hin) as [Hnown Hag]. by eapply prepared_committed.
  - destruct Hno. apply Forall_forall. intros raw Hin. destruct (Hraw raw Hin) as (m & _ & l & Hlk & _ & Hle & _).
    unfold commit_allowed. rewrite Hlk. lia.
Qed.

Lemma prewrite_answer_perm floor s st secs raws raws' mus mus' wr s' :
  raws ≡ₚ raws' -> mus ≡ₚ mus' ->
  prewrite_answer floor s st secs raws mus wr s' -> prewrite_answer floor s st secs raws' mus' wr s'.
Proof.
  intros Hr Hm (pr & Hpr & H). exists pr. split; [done|].
  destruct H as [?|[(? & ? & raw & c & Hin & ?)|(? & Hout & Hall)]]; [by left|right; left|right; right].
  - split_and!; [done..|]. exists raw, c. by rewrite <-Hr.
  - split; [done|]. split; [intros raw ? Hni; apply Hout; [done|by rewrite Hr]|].
    rewrite <-Hm. eapply Forall_impl; [exact Hall|]. intros m (raw & Hin & ?). exists raw. by rewrite <-Hr.
Qed.

(** ** The two requests *)

Section Requests.
Context (now : Z) (tso : option TimeStamp) (can_enable : bool).
Context (stat_next : SnapshotReader Store -> Key -> TimeStamp -> u64).
Context (s : Store) (ctx : Context) (cm : ConcurrencyManager) (env : PrewriteEnv).
Hypothesis (reach : reachable s) (cm_in_range : u64_ok (cm_max_ts cm)).

Lemma optimistic_answer p raws wr extra :
  prewrite_ok p ctx raws ->
  fst (Prewrite_process_write now tso can_enable stat_next p ctx s cm env) = Ok (wr, extra) ->
  exists s', write_modifies (E:=unit) s (wr_modifies wr) = Ok s' /\ reachable s'
    /\ prewrite_answer (cm_max_ts cm) s (p_start_ts p) (request_secondaries (p_primary p) (p_secondary_keys p))
         raws (p_mutations p) wr s'.
Proof.
  intros Hp Hr. pose proof (reachable_inv s reach) as Hi.
  destruct (Prewrite_result now tso can_enable stat_next (cm_max_ts cm) s ctx cm env Hi cm_in_range ltac:(lia) p raws wr extra Hp Hr)
    as (raws' & mus & Hraws & Hmus & Hkeys & Hres).
  destruct (result_answer (cm_max_ts cm) s (p_start_ts p) (request_secondaries (p_primary p) (p_secondary_keys p)) Hi
    (pok_start_ts _ _ _ Hp) raws' mus wr) as (s' & Hw & _ & Ha);
    [rewrite <-Hraws; apply Hp|rewrite <-Hraws; apply Hp|done|done|].
  exists s'. split; [done|]. split; [|by eapply prewrite_answer_perm].
  eapply reachable_step; [done|]. eapply (step_prewrite_request _ _ now tso can_enable stat_next ctx cm env p raws);
    [done|done|apply cm_in_range|]. exists wr. by rewrite Hr.
Qed.

Lemma pessimistic_answer p raws wr extra :
  prewrite_pessimistic_ok s p ctx raws ->
  fst (PrewritePessimistic_process_write now tso can_enable stat_next p ctx s cm env) = Ok (wr, extra) ->
  exists s', write_modifies (E:=unit) s (wr_modifies wr) = Ok s' /\ reachable s'
    /\ prewrite_answer (cm_max_ts cm) s (pp_start_ts p) (request_secondaries (pp_primary p) (pp_secondary_keys p))
         raws (pp_mutations p).*1 wr s'.
Proof.
  intros Hp Hr. pose proof (reachable_inv s reach) as Hi.
  pose proof (PrewritePessimistic_result now tso can_enable stat_next (cm_max_ts cm) s ctx cm env Hi cm_in_range ltac:(lia)
    p raws wr extra Hp Hr) as Hres.
  destruct (result_answer (cm_max_ts cm) s (pp_start_ts p) (request_secondaries (pp_primary p) (pp_secondary_keys p)) Hi
    (ppok_start_ts _ _ _ _ Hp) raws (pp_mutations p).*1 wr) as (s' & Hw & _ & Ha);
    [apply Hp|apply Hp|by eapply map_keys_forall2, ppok_mutations|done|].
  exists s'. split; [done|]. split; [|done].
  eapply reachable_step; [done|]. eapply (step_prewrite_pessimistic _ _ now tso can_enable stat_next ctx cm env p raws);
    [done|done|apply cm_in_range|]. exists wr. by rewrite Hr.
Qed.
End Requests.

(** C10. An optimistic prewrite request on a reachable store, with in-range
    arguments, distinct keys and the version check: when it answers, its updates
    always apply and give a reachable store.  If the answer names locks, nothing is
    written.  If the transaction turns out to be committed, nothing is written and
    the timestamps answered are that of the commit record.  Otherwise keys that are
    not named are unchanged, and the answer is true of every mutation: a check
    changes nothing; a key the transaction had prewritten keeps its lock, which
    allows the answered timestamp; without one-phase commit the key has a lock of
    the transaction with the mutation's type and value and, under async commit,
    the secondaries and a minimal commit timestamp above the start, above every
    timestamp the node has read at, and at most the answered one; with one-phase
    commit the key has no lock and a record of the mutation with its value at the
    answered timestamp, which is above those too. *)
Theorem prewrite_request_correct now tso can_enable stat_next s ctx cm env p raws wr extra :
  reachable s -> u64_ok (cm_max_ts cm) -> prewrite_ok p ctx raws ->
  fst (Prewrite_process_write now tso can_enable stat_next p ctx s cm env) = Ok (wr, extra) ->
  exists s', write_modifies (E:=unit) s (wr_modifies wr) = Ok s' /\ reachable s'
    /\ prewrite_answer (cm_max_ts cm) s (p_start_ts p) (request_secondaries (p_primary p) (p_secondary_keys p))
         raws (p_mutations p) wr s'.
Proof. intros Hs Hcm Hp Hr. by eapply optimistic_answer. Qed.

(** C11. The same for a pessimistic prewrite request, each of whose keys is locked
    or checked, whose transaction has not committed a key where it holds a
    pessimistic lock, and whose for-update timestamp covers the pessimistic locks
    of the transaction when it tries one-phase commit. *)
Theorem prewrite_pessimistic_correct now tso can_enable stat_next s ctx cm env p raws wr extra :
  reachable s -> u64_ok (cm_max_ts cm) -> prewrite_pessimistic_ok s p ctx raws ->
  fst (PrewritePessimistic_process_write now tso can_enable stat_next p ctx s cm env) = Ok (wr, extra) ->
  exists s', write_modifies (E:=unit) s (wr_modifies wr) = Ok s' /\ reachable s'
    /\ prewrite_answer (cm_max_ts cm) s (pp_start_ts p) (request_secondaries (pp_primary p) (pp_secondary_keys p))
         raws (pp_mutations p).*1 wr s'.
Proof. intros Hs Hcm Hp Hr. by eapply pessimistic_answer. Qed.

(** C12. Async commit completes.  An optimistic request, none of whose mutations
    only checks that its key does not exist, comes from a transaction that is
    committed on none of the keys, and answers a minimal commit timestamp, no locks
    and no one-phase commit timestamp.  Then on the store it leaves behind the
    commit command for its keys succeeds at that or any later timestamp, and
    afterwards every mutation is committed there: the key has no lock of the
    transaction and has its commit record, with the type and the value of the
    mutation unless an earlier request had prewritten the key. *)
Theorem async_commit_completes now tso can_enable stat_next s ctx cm env p raws wr extra pr ctx' cm' c :
  reachable s -> u64_ok (cm_max_ts cm) -> prewrite_ok p ctx raws ->
  Forall (fun m => Mutation_should_not_write m = false) (p_mutations p) ->
  (forall raw t, raw ∈ raws -> ~ committed_on s (p_start_ts p) raw t) ->
  fst (Prewrite_process_write now tso can_enable stat_next p ctx s cm env) = Ok (wr, extra) ->
  wr_pr wr = PrPrewriteResult pr -> pr_locks pr = [] -> pr_one_pc_commit_ts pr = 0 -> pr_min_commit_ts pr <> 0 ->
  pr_min_commit_ts pr <= c -> p_start_ts p < c -> u64_ok c ->
  exists s' wr' s'', write_modifies (E:=unit) s (wr_modifies wr) = Ok s'
    /\ Commit_process_write s' ctx' cm' (map Key_from_raw raws) (p_start_ts p) c = Ok wr'
    /\ write_modifies (E:=unit) s' (wr_modifies wr') = Ok s''
    /\ Forall (fun m => exists raw, raw ∈ raws /\ Mutation_key m = Key_from_raw raw
                 /\ committed_mutation s (p_start_ts p) s'' c raw m) (p_mutations p).
Proof.
  intros Hs Hcm Hp Hw Hunc Hr Hpr Hl H1 Hmin Hc Hlt Hu.
  destruct (optimistic_answer now tso can_enable stat_next s ctx cm env Hs Hcm p raws wr extra Hp Hr) as (s' & Hwr & Hs' & Ha).
  destruct (answer_commits _ _ _ _ _ _ _ _ _ ctx' cm' c Ha Hpr (reachable_inv s' Hs')) as (wr' & s'' & Hc' & Hw'' & Hall);
    try done; try apply Hp.
  by exists s', wr', s''.
Qed.

(** ** Runs

    Requests on the store where one transaction has committed at 10, on a node
    that has served reads up to 24. *)

Definition run_env : PrewriteEnv :=
  {| we_committed := None; we_is_max_ts_synced := true; we_skips_exhausted := false;
     we_read_old_value := false; we_async_apply_prewrite := false |}.
Definition read_cm : ConcurrencyManager := cm_new 24 0.

Definition run_request (secondary_keys : option (list bytes)) (try_one_pc : bool) : Prewrite :=
  {| p_mutations := [MPut (Key_from_raw [107]) [3] ANone; MDelete (Key_from_raw [108]) ANone];
     p_primary := [107]; p_start_ts := 12; p_lock_ttl := 3000; p_skip_constraint_check := false;
     p_txn_size := 1; p_min_commit_ts := 0; p_max_commit_ts := 0; p_secondary_keys := secondary_keys;
     p_try_one_pc := try_one_pc; p_assertion_level := AlOff |}.

Definition run_pessimistic (start_ts for_update_ts : TimeStamp) : PrewritePessimistic :=
  {| pp_mutations := [(MPut (Key_from_raw [107]) [9] ANone, DoPessimisticCheck)]; pp_primary := [107];
     pp_start_ts := start_ts; pp_lock_ttl := 3000; pp_for_update_ts := for_update_ts; pp_txn_size := 1;
     pp_min_commit_ts := 0; pp_max_commit_ts := 0; pp_secondary_keys := None; pp_try_one_pc := true;
     pp_assertion_level := AlOff; pp_for_update_ts_constraints := [] |}.

Definition optimistic_run (p : Prewrite) (s : Store) : txn_res (WriteResult * PrewriteExtra) :=
  fst (Prewrite_process_write 0 None true (fun _ _ _ => 0) p run_ctx s read_cm run_env).
Definition pessimistic_run (p : PrewritePessimistic) (s : Store) (cm : ConcurrencyManager)
    : txn_res (WriteResult * PrewriteExtra) :=
  fst (PrewritePessimistic_process_write 0 None true (fun _ _ _ => 0) p run_ctx s cm run_env).

Definition answer_of (r : txn_res (WriteResult * PrewriteExtra)) : option PrewriteResult :=
  match r with
  | Ok (wr, _) => match wr_pr wr with PrPrewriteResult pr => Some pr | _ => None end
  | _ => None
  end.

Lemma answer_of_some r pr :
  answer_of r = Some pr -> exists wr extra, r = Ok (wr, extra) /\ wr_pr wr = PrPrewriteResult pr.
Proof.
  destruct r as [[wr extra]| |]; [|done..]. cbn. intros E. exists wr, extra. split; [done|].
  destruct (wr_pr wr); by simplify_eq.
Qed.

Lemma run_raws2_ok : Forall bytes_ok [[107]; [108]].
Proof. repeat constructor; lia. Qed.

Lemma run_raws2_distinct : NoDup [[107]; [108]].
Proof. apply NoDup_cons. split; [by intros [= ]%list_elem_of_singleton|apply NoDup_singleton]. Qed.

Lemma run_request_ok secondary_keys try_one_pc :
  secondaries_ok secondary_keys -> prewrite_ok (run_request secondary_keys try_one_pc) run_ctx [[107]; [108]].
Proof.
  intros Hs. split; try done; try (unfold ts_ok, u64_ok, zlen; cbn; lia);
    [apply run_raws2_ok|apply run_raws2_distinct].
Qed.

Lemma run_secondaries_ok : secondaries_ok (Some [[108]]).
Proof. split; [by apply Forall_singleton|done]. Qed.

Lemma read_cm_range : u64_ok (cm_max_ts read_cm).
Proof. unfold u64_ok. cbn. lia. Qed.

Lemma reachable_acquired : reachable store_acquired.
Proof. eapply reachable_step; [apply reachable_committed|apply acquired_step]. Qed.

Lemma run_pessimistic_ok : prewrite_pessimistic_ok store_acquired (run_pessimistic 8 20) run_ctx [[107]].
Proof.
  split; try done; try (unfold ts_ok, u64_ok, zlen; cbn; lia);
    [apply run_raws_ok|apply NoDup_singleton|by repeat constructor|
    |intros raw _ l _ _; apply run_uncommitted; vm_compute; reflexivity].
  intros _ raw l Hin%list_elem_of_singleton [Hl _] _. subst raw.
  assert (option_map l_for_update_ts (a_lock (abs store_acquired) (Key_from_raw [107])) = Some 20) as E
    by (vm_compute; reflexivity).
  rewrite Hl in E. injection E as ->. cbn. lia.
Qed.

(** In one phase the two mutations commit at 25, above the reads the node has
    served. *)
Lemma prewrite_request_correct_witness :
  exists wr extra s', optimistic_run (run_request None true) store_committed = Ok (wr, extra)
    /\ wr_pr wr = PrPrewriteResult {| pr_locks := []; pr_min_commit_ts := 0; pr_one_pc_commit_ts := 25 |}
    /\ write_modifies (E:=unit) store_committed (wr_modifies wr) = Ok s' /\ reachable s'.
Proof.
  destruct (answer_of_some (optimistic_run (run_request None true) store_committed)
    {| pr_locks := []; pr_min_commit_ts := 0; pr_one_pc_commit_ts := 25 |}) as (wr & extra & Hr & Hpr);
    [vm_compute; reflexivity|].
  destruct (prewrite_request_correct 0 None true (fun _ _ _ => 0) store_committed run_ctx read_cm run_env
    (run_request None true) [[107]; [108]] wr extra reachable_committed read_cm_range
    (run_request_ok None true I) Hr) as (s' & Hw & Hs' & _).
  exists wr, extra, s'. split; [exact Hr|]. split; [exact Hpr|]. split; [exact Hw|exact Hs'].
Defined.

Lemma prewrite_pessimistic_correct_witness :
  exists wr extra s', pessimistic_run (run_pessimistic 8 20) store_acquired read_cm = Ok (wr, extra)
    /\ wr_pr wr = PrPrewriteResult {| pr_locks := []; pr_min_commit_ts := 0; pr_one_pc_commit_ts := 25 |}
    /\ write_modifies (E:=unit) store_acquired (wr_modifies wr) = Ok s' /\ reachable s'.
Proof.
  destruct (answer_of_some (pessimistic_run (run_pessimistic 8 20) store_acquired read_cm)
    {| pr_locks := []; pr_min_commit_ts := 0; pr_one_pc_commit_ts := 25 |}) as (wr & extra & Hr & Hpr);
    [vm_compute; reflexivity|].
  destruct (prewrite_pessimistic_correct 0 None true (fun _ _ _ => 0) store_acquired run_ctx read_cm run_env
    (run_pessimistic 8 20) [[107]] wr extra reachable_acquired read_cm_range run_pessimistic_ok Hr) as (s' & Hw & Hs' & _).
  exists wr, extra, s'. split; [exact Hr|]. split; [exact Hpr|]. split; [exact Hw|exact Hs'].
Defined.

Lemma run_not_committed raw t : ~ committed_on store_committed 12 raw t.
Proof.
  intros (w & Hw & Hst & Hty). apply Hty.
  refine (run_uncommitted store_committed raw 12 _ t w Hw Hst). vm_compute. reflexivity.
Qed.

(** The request answers 25; its transaction then commits at 30. *)
Lemma async_commit_completes_witness :
  exists s' wr', Commit_process_write s' run_ctx run_cm (map Key_from_raw [[107]; [108]]) 12 30 = Ok wr'.
Proof.
  destruct (answer_of_some (optimistic_run (run_request (Some [[108]]) false) store_committed)
    {| pr_locks := []; pr_min_commit_ts := 25; pr_one_pc_commit_ts := 0 |}) as (wr & extra & Hr & Hpr);
    [vm_compute; reflexivity|].
  destruct (async_commit_completes 0 None true (fun _ _ _ => 0) store_committed run_ctx read_cm run_env
    (run_request (Some [[108]]) false) [[107]; [108]] wr extra _ run_ctx run_cm 30 reachable_committed read_cm_range
    (run_request_ok _ false run_secondaries_ok)
    ltac:(repeat constructor) (fun raw t _ => run_not_committed raw t) Hr Hpr)
    as (s' & wr' & s'' & _ & Hc & _); cbn; [done|done|lia|lia|lia|unfold u64_ok; lia|].
  exists s', wr'. exact Hc.
Defined.

(** ** Requests outside the theorems *)

Definition conflict_params : PessimisticLockParameters :=
  {| plp_primary := [107]; plp_start_ts := 8; plp_lock_ttl := 3000; plp_for_update_ts := 8;
     plp_wait_timeout := None; plp_return_values := true; plp_min_commit_ts := 9;
     plp_check_existence := false; plp_is_first_lock := true; plp_lock_only_if_exists := false;
     plp_allow_lock_with_conflict := true |}.

(** The transaction started at 8 locks the key although a record at 10 is newer
    than its for-update timestamp 8. *)
Definition conflict_run : txn_res WriteResult * ConcurrencyManager :=
  AcquirePessimisticLock_process_write 0 None true (fun _ _ _ => 0) store_committed run_ctx run_cm
    (raw_keys [([107], false)]) conflict_params false.
Definition store_conflict : Store := run store_committed (fst conflict_run).

(** It is then prewritten in one phase with the for-update timestamp it asked for. *)
Definition conflict_commit : txn_res (WriteResult * PrewriteExtra) :=
  pessimistic_run (run_pessimistic 8 8) store_conflict (snd conflict_run).
Definition store_buried : Store := run store_conflict (write_of conflict_commit).

Lemma conflict_step : step store_committed store_conflict.
Proof.
  apply (step_acquire _ _ 0 None true (fun _ _ _ => 0) run_ctx run_cm [([107], false)] conflict_params false);
    [apply run_raws_ok|apply NoDup_singleton|by split; unfold u64_ok, zlen; cbn; lia|apply run_ts_ok; cbn; lia
    |unfold u64_ok; cbn; lia|].
  apply run_applied. vm_compute. reflexivity.
Qed.

Lemma reachable_conflict : reachable store_conflict.
Proof. eapply reachable_step; [apply reachable_committed|apply conflict_step]. Qed.

(** One-phase commit takes its timestamp from the for-update timestamp of the
    request, while the lock takes the larger one of the pessimistic lock.  On a
    reachable store whose key holds a pessimistic lock with for-update timestamp 10
    beside a record at 10, a one-phase prewrite of that transaction with the
    for-update timestamp 8 is answered as committed at 9: below the record the lock
    was taken over, so that a read at 30 still returns the old value. *)
Theorem one_pc_below_for_update :
  reachable store_conflict
  /\ option_map l_for_update_ts (a_lock (abs store_conflict) (Key_from_raw [107])) = Some 10
  /\ answer_of conflict_commit = Some {| pr_locks := []; pr_min_commit_ts := 0; pr_one_pc_commit_ts := 9 |}
  /\ option_map w_start_ts (a_write (abs store_buried) (Key_from_raw [107]) 9) = Some 8
  /\ MvccReader_get (SnapshotReader_new 40 store_buried) (Key_from_raw [107]) 30 None = Ok (Some [1]).
Proof. split; [apply reachable_conflict|]. split_and!; vm_compute; reflexivity. Qed.

(** The transaction started at 25 is rolled back while the one started at 8 holds
    the key. *)
Definition store_rolled_back : Store :=
  run store_acquired (Rollback_process_write store_acquired run_ctx run_cm [Key_from_raw [107]] 25).
Definition rolled_back_commit : txn_res (WriteResult * PrewriteExtra) :=
  pessimistic_run (run_pessimistic 8 20) store_rolled_back read_cm.
Definition store_replaced : Store := run store_rolled_back (write_of rolled_back_commit).

Lemma acquired_room : marks_room store_acquired.
Proof.
  intros raw l Hl. change (lock_at store_acquired (Key_from_raw raw) = Some l) in Hl. unfold lock_at in Hl.
  cbn [get_cf Store_snapshot] in Hl. unfold Store_get_cf in Hl.
  change (Store_cf store_acquired CF_LOCK) with (st_lock store_acquired) in Hl.
  destruct (st_lock store_acquired !! Key_from_raw raw) as [v|] eqn:Hv; [|done].
  assert (forallb (fun '(_, v) => match Lock_parse v with
            | Ok l => Z.of_nat (length (l_rollback_ts l)) + 1 <? 2 ^ 59 | _ => true end)
          (map_to_list (st_lock store_acquired)) = true) as Hall by (vm_compute; reflexivity).
  rewrite forallb_forall in Hall. apply elem_of_map_to_list, list_elem_of_In, Hall in Hv. cbn beta iota in Hv.
  destruct (Lock_parse v) as [l0| |]; simplify_eq. by apply Z.ltb_lt.
Qed.

Lemma rolled_back_step : step store_acquired store_rolled_back.
Proof.
  apply (step_rollback _ _ run_ctx run_cm [[107]] 25);
    [apply run_raws_ok|apply NoDup_singleton|apply run_ts_ok; lia|apply acquired_room|].
  apply run_applied. vm_compute. reflexivity.
Qed.

Lemma reachable_rolled_back : reachable store_rolled_back.
Proof. eapply reachable_step; [apply reachable_acquired|apply rolled_back_step]. Qed.

(** One-phase commit can replace a rollback record: on a reachable store with
    the rollback of the transaction started at 25 and a pessimistic lock of the one
    started at 8, the prewrite of the latter commits at 25, and the record of the
    commit, without a mark of the rollback, takes the place of the rollback. *)
Theorem one_pc_replaces_rollback :
  reachable store_rolled_back
  /\ a_write (abs store_rolled_back) (Key_from_raw [107]) 25 = Some (Write_new_rollback 25 false)
  /\ answer_of rolled_back_commit = Some {| pr_locks := []; pr_min_commit_ts := 0; pr_one_pc_commit_ts := 25 |}
  /\ option_map (fun w => (w_start_ts w, w_has_overlapped_rollback w))
       (a_write (abs store_replaced) (Key_from_raw [107]) 25) = Some (8, false).
Proof. split; [apply reachable_rolled_back|]. split_and!; vm_compute; reflexivity. Qed.

(** One-phase commit asserts that some key was prewritten: a request without
    mutations stops the worker. *)
Lemma one_pc_without_mutations now tso can_enable stat_next s ctx cm env p :
  p_mutations p = [] -> p_try_one_pc p = true -> we_is_max_ts_synced env = true ->
  fst (Prewrite_process_write now tso can_enable stat_next p ctx s cm env) = Panic.
Proof.
  intros Hm H1 He. unfold Prewrite_process_write, Prewriter_process_write, Prewriter_prepare. cbn. rewrite Hm. cbn.
  unfold Prewriter_check_max_ts_synced, Prewriter_prewrite. cbn. rewrite H1, He, andb_false_r. done.
Qed.

(** ** A lock taken after the commit

    A late request of the transaction that has committed at 10 takes a pessimistic
    lock once more.  Checking the transaction's status finds the commit; rolling it
    back panics, since [rollback_lock] does not expect the record. *)
Definition store_late : Store := run store_committed (run_acquire store_committed 5 20).

Lemma late_lock :
  step store_committed store_late
  /\ option_map Lock_is_pessimistic_lock (own_lock store_late [107] 5) = Some true
  /\ committed_at store_late [107] 5 10
  /\ Rollback_process_write store_late run_ctx run_cm [Key_from_raw [107]] 5 = Panic.
Proof.
  split; [|split; [vm_compute; reflexivity|split; [|vm_compute; reflexivity]]].
  - apply (step_acquire _ _ 0 None true (fun _ _ _ => 0) run_ctx run_cm [([107], false)] (run_params 5 20) false);
      [apply run_raws_ok|apply NoDup_singleton|by split; unfold u64_ok, zlen; cbn; lia|apply run_ts_ok; cbn; lia
      |unfold u64_ok; cbn; lia|].
    apply run_applied. vm_compute. reflexivity.
  - exists committed_record. split; [vm_compute; reflexivity|done].
Qed.

(** Were the lock prewritten and committed, the transaction would have a second
    commit record on the key: this is what [prewrite_fresh] excludes. *)
Definition store_twice : Store :=
  let s := prewritten store_late (Pessimistic 20) DoPessimisticCheck 5 [2] in
  run s (Commit_process_write s run_ctx run_cm [Key_from_raw [107]] 5 30).

Lemma late_prewrite_commits_twice :
  committed_at store_twice [107] 5 10
  /\ option_map w_start_ts (a_write (abs store_twice) (Key_from_raw [107]) 30) = Some 5.
Proof. split; [exists committed_record; split; [vm_compute; reflexivity|done]|vm_compute; reflexivity]. Qed.
