(* ===== verification/SpanKeys.v ===== *)
(** * Table keys and hexadecimal strings of the span control plane

    [format_key_prefix] and [format_key_end] of [span_ctl/resolver.rs] write the
    table id in decimal; [hex_encode] and [hex_decode] read and write the keys
    of the placement driver's JSON.  Strings are their UTF-8 bytes. *)

From Stdlib Require Import ZArith Lia.
From stdpp Require Import base numbers list.
From S2P Require Import Prelude.

Open Scope Z_scope.

(** ** Decimal *)

Fixpoint dec_loop (fuel : nat) (n : Z) : bytes :=
  match fuel with
  | O => []
  | S fuel => if n <? 10 then [48 + n] else dec_loop fuel (n / 10) ++ [48 + n mod 10]
  end.

(** [Display] of a 64-bit integer: at most twenty digits. *)
Definition fmt_i64 (n : Z) : bytes :=
  if n <? 0 then 45 :: dec_loop 20 (- n) else dec_loop 20 n.

(** [table_id + 1], wrapping. *)
Definition i64_succ (n : Z) : Z := if n =? 2 ^ 63 - 1 then - 2 ^ 63 else n + 1.

Definition format_key_prefix (table_id : Z) : bytes := [116; 95] ++ fmt_i64 table_id ++ [95].
Definition format_key_end (table_id : Z) : bytes := [116; 95] ++ fmt_i64 (i64_succ table_id) ++ [95].

(** ** Hexadecimal *)

Definition hex_digit (n : Z) : Z := if n <? 10 then 48 + n else 87 + n.

Definition hex_encode (data : bytes) : bytes :=
  flat_map (fun b => [hex_digit (b / 16); hex_digit (b mod 16)]) data.

(** [char::to_digit(16)] of an ASCII byte. *)
Definition hex_value (c : Z) : option Z :=
  if (48 <=? c) && (c <=? 57) then Some (c - 48)
  else if (97 <=? c) && (c <=? 102) then Some (c - 87)
  else if (65 <=? c) && (c <=? 70) then Some (c - 55)
  else None.

(** [u8::from_str_radix(_, 16)] of a two-byte string: a leading plus sign is
    accepted. *)
Definition u8_from_hex (a b : Z) : option Z :=
  if a =? 43 then hex_value b
  else match hex_value a, hex_value b with
       | Some x, Some y => Some (16 * x + y)
       | _, _ => None
       end.

(** A byte that continues a multi-byte character: slicing there panics. *)
Definition is_continuation (b : Z) : bool := (128 <=? b) && (b <=? 191).

Definition boundary (rest : bytes) : bool :=
  match rest with [] => true | b :: _ => negb (is_continuation b) end.

Fixpoint hex_pairs (s : bytes) : res unit bytes :=
  match s with
  | [] => Ok []
  | a :: b :: rest =>
      if negb (boundary rest) then Panic
      else
        match u8_from_hex a b with
        | Some x => xs ← hex_pairs rest; Ok (x :: xs)
        | None => Err tt
        end
  | [_] => Panic
  end.

Definition hex_decode (s : bytes) : res unit bytes :=
  match s with
  | [] => Ok []
  | _ => if negb (Nat.even (length s)) then Err tt else hex_pairs s
  end.

(** ** Lemmas *)

Lemma hex_value_digit n : 0 <= n < 16 -> hex_value (hex_digit n) = Some n.
Proof.
  intros Hn. unfold hex_digit, hex_value.
  destruct (Z.ltb_spec n 10).
  - destruct (Z.leb_spec 48 (48 + n)), (Z.leb_spec (48 + n) 57); try lia. cbn. f_equal. lia.
  - destruct (Z.leb_spec 48 (87 + n)), (Z.leb_spec (87 + n) 57); try lia.
    destruct (Z.leb_spec 97 (87 + n)), (Z.leb_spec (87 + n) 102); try lia. cbn. f_equal. lia.
Qed.

Lemma hex_digit_ascii n : 0 <= n < 16 -> 48 <= hex_digit n <= 102.
Proof. intros Hn. unfold hex_digit. destruct (Z.ltb_spec n 10); lia. Qed.

Lemma hex_boundary data : bytes_ok data -> boundary (hex_encode data) = true.
Proof.
  destruct 1 as [|b data Hb _]; [done|]. cbn [hex_encode flat_map app boundary].
  unfold u8_ok in Hb. pose proof (hex_digit_ascii (b / 16)).
  unfold is_continuation. destruct (Z.leb_spec 128 (hex_digit (b / 16))); [|done].
  exfalso. assert (0 <= b / 16 < 16) by (split; [apply Z.div_pos|apply Z.div_lt_upper_bound]; lia). lia.
Qed.

Lemma hex_pairs_encode data : bytes_ok data -> hex_pairs (hex_encode data) = Ok data.
Proof.
  induction 1 as [|b data Hb Hd IH]; [done|]. unfold u8_ok in Hb.
  cbn [hex_encode flat_map app hex_pairs]. change (flat_map _ data) with (hex_encode data).
  rewrite hex_boundary by done. cbn [negb].
  assert (0 <= b / 16 < 16) as Hq by (split; [apply Z.div_pos|apply Z.div_lt_upper_bound]; lia).
  assert (0 <= b mod 16 < 16) as Hr by (apply Z.mod_pos_bound; lia).
  unfold u8_from_hex. pose proof (hex_digit_ascii (b / 16) Hq).
  destruct (Z.eqb_spec (hex_digit (b / 16)) 43); [lia|].
  rewrite !hex_value_digit by done. rewrite IH. cbn [mbind res_bind].
  rewrite <-(Z.div_mod b 16) by lia. done.
Qed.

Lemma hex_encode_length data : length (hex_encode data) = (2 * length data)%nat.
Proof. induction data as [|b data IH]; [done|]. cbn [hex_encode flat_map app length]. fold (hex_encode data). lia. Qed.

(** Keys survive the hexadecimal of the placement driver: decoding what
    [hex_encode] wrote gives the key back, for every key, the empty one
    included. *)
Theorem hex_roundtrip data : bytes_ok data -> hex_decode (hex_encode data) = Ok data.
Proof.
  intros Hd. unfold hex_decode. pose proof (hex_pairs_encode data Hd) as E.
  destruct (hex_encode data) as [|c s] eqn:Hs; [done|]. rewrite <-Hs in *.
  rewrite hex_encode_length. by rewrite Nat.even_mul.
Qed.

Lemma hex_roundtrip_witness :
  hex_encode [116; 255] = [55; 52; 102; 102] /\ hex_decode (hex_encode [116; 255]) = Ok [116; 255].
Proof. split; [reflexivity|]. apply hex_roundtrip. repeat constructor; lia. Defined.

(** ** The order of decimal keys *)

Lemma dec_fuel f : forall f' n, 0 <= n < 10 ^ Z.of_nat f -> n < 10 ^ Z.of_nat f' ->
  (0 < f)%nat -> (0 < f')%nat -> dec_loop f n = dec_loop f' n.
Proof.
  induction f as [|f IH]; intros [|f'] n Hn Hn' Hf Hf'; try lia. cbn [dec_loop].
  destruct (Z.ltb_spec n 10); [done|]. rewrite Nat2Z.inj_succ, Z.pow_succ_r in Hn, Hn' by lia.
  assert (0 < f)%nat by (destruct f; cbn in *; lia). assert (0 < f')%nat by (destruct f'; cbn in *; lia).
  f_equal. apply IH; try done; [split; [apply Z.div_pos|apply Z.div_lt_upper_bound]|apply Z.div_lt_upper_bound]; lia.
Qed.

Definition dec (n : Z) : bytes := dec_loop 20 n.

Lemma dec_small n : 0 <= n < 10 -> dec n = [48 + n].
Proof. intros Hn. unfold dec. cbn [dec_loop]. destruct (Z.ltb_spec n 10); [done|lia]. Qed.

Lemma dec_step n : 10 <= n < 10 ^ 19 -> dec n = dec (n / 10) ++ [48 + n mod 10].
Proof.
  intros Hn. assert (0 <= n / 10 < 10 ^ 18)
    by (split; [apply Z.div_pos|apply Z.div_lt_upper_bound]; lia).
  unfold dec. rewrite (dec_fuel 20 19 (n / 10)) by lia.
  change (dec_loop 20 n) with (if n <? 10 then [48 + n] else dec_loop 19 (n / 10) ++ [48 + n mod 10]).
  destruct (Z.ltb_spec n 10); [lia|done].
Qed.

(** Strings of equal length in order. *)
Definition dec_lt (a b : bytes) : Prop := length a = length b /\ bytes_cmp a b = Lt.

Lemma dec_lt_app a b x y : length x = length y -> dec_lt a b -> dec_lt (a ++ x) (b ++ y).
Proof.
  intros Hl [Hab Hlt]. split; [rewrite !length_app; lia|]. rewrite bytes_cmp_app by done. by rewrite Hlt.
Qed.

Definition ten_power (n : Z) : Prop := exists k, 1 <= k /\ n = 10 ^ k.

(** Consecutive numbers are in order unless the second has one digit more. *)
Lemma dec_succ_lt f : forall n,
  0 <= n < 10 ^ Z.of_nat f -> n + 1 < 10 ^ 19 -> ~ ten_power (n + 1) -> dec_lt (dec n) (dec (n + 1)).
Proof.
  induction f as [|f IH]; intros n Hn Hub Hten.
  { cbn in Hn. assert (n = 0) as -> by lia. rewrite !dec_small by lia. done. }
  destruct (Z.lt_ge_cases n 9) as [Hs|Hs].
  { rewrite !dec_small by lia. split; [done|]. cbn. destruct (Z.compare_spec (48 + n) (48 + (n + 1))); done || lia. }
  destruct (Z.eq_dec n 9) as [->|]; [exfalso; apply Hten; by exists 1|].
  rewrite Nat2Z.inj_succ, Z.pow_succ_r in Hn by lia.
  assert (0 <= n / 10 < 10 ^ Z.of_nat f) as Hq
    by (split; [apply Z.div_pos|apply Z.div_lt_upper_bound]; lia).
  pose proof (Z.div_mod n 10). pose proof (Z.mod_pos_bound n 10).
  rewrite (dec_step n), (dec_step (n + 1)) by lia. destruct (Z.eq_dec (n mod 10) 9) as [Hd|Hd].
  - assert ((n + 1) / 10 = n / 10 + 1) as -> by (symmetry; apply (Z.div_unique _ 10 _ 0); lia).
    apply dec_lt_app; [done|]. apply IH; [done|lia|].
    intros (k & Hk & Ek). apply Hten. exists (k + 1). split; [lia|]. rewrite Z.pow_add_r by lia. lia.
  - assert ((n + 1) / 10 = n / 10) as -> by (symmetry; apply (Z.div_unique _ 10 _ (n mod 10 + 1)); lia).
    assert ((n + 1) mod 10 = n mod 10 + 1) as -> by (symmetry; apply (Z.mod_unique _ 10 (n / 10)); lia).
    split; [by rewrite !length_app|]. rewrite bytes_cmp_app_l. cbn.
    destruct (Z.compare_spec (48 + n mod 10) (48 + (n mod 10 + 1))); done || lia.
Qed.

(** A power of ten starts with 1 and its predecessor with 9. *)
Lemma dec_ten_power k : forall n, (1 <= k)%nat -> n = 10 ^ Z.of_nat k -> n < 10 ^ 19 ->
  (exists s, dec n = 49 :: s) /\ (exists s, dec (n - 1) = 57 :: s).
Proof.
  induction k as [|k IH]; intros n Hk Hn Hub; [lia|].
  rewrite Nat2Z.inj_succ, Z.pow_succ_r in Hn by lia. destruct k as [|k].
  { cbn in Hn. subst n. split; eexists; vm_compute; reflexivity. }
  destruct (IH (10 ^ Z.of_nat (S k))) as [[s Hs] [s' Hs']]; [lia|done|lia|].
  assert (10 <= 10 ^ Z.of_nat (S k)) by (rewrite Nat2Z.inj_succ, Z.pow_succ_r by lia; lia).
  rewrite (dec_step n), (dec_step (n - 1)) by lia.
  assert (n / 10 = 10 ^ Z.of_nat (S k)) as -> by (symmetry; apply (Z.div_unique _ 10 _ 0); lia).
  assert ((n - 1) / 10 = 10 ^ Z.of_nat (S k) - 1) as -> by (symmetry; apply (Z.div_unique _ 10 _ 9); lia).
  rewrite Hs, Hs'. split; by eexists.
Qed.

(** ** Table ranges *)

Lemma fmt_i64_dec n : 0 <= n -> fmt_i64 n = dec n.
Proof. intros Hn. unfold fmt_i64. destruct (Z.ltb_spec n 0); [lia|done]. Qed.

Lemma i64_succ_eq n : n < 2 ^ 63 - 1 -> i64_succ n = n + 1.
Proof. intros Hn. unfold i64_succ. destruct (Z.eqb_spec n (2 ^ 63 - 1)); lia. Qed.

Section TableRange.
Context (table_id : Z).
Hypothesis (id_ok : 0 <= table_id < 2 ^ 63 - 1).

Lemma prefix_eq : format_key_prefix table_id = [116; 95] ++ dec table_id ++ [95].
Proof. unfold format_key_prefix. by rewrite fmt_i64_dec by lia. Qed.

Lemma end_eq : format_key_end table_id = [116; 95] ++ dec (table_id + 1) ++ [95].
Proof. unfold format_key_end. by rewrite i64_succ_eq, fmt_i64_dec by lia. Qed.

Lemma succ_lt : ~ ten_power (table_id + 1) -> dec_lt (dec table_id) (dec (table_id + 1)).
Proof. intros Hten. apply (dec_succ_lt 19); [|lia|done]. cbn. lia. Qed.

Lemma prefix_start rest : bytes_leb (format_key_prefix table_id) (format_key_prefix table_id ++ rest) = true.
Proof.
  apply bytes_leb_lt_or_eq. rewrite <-(app_nil_r (format_key_prefix table_id)) at 1.
  destruct rest; [by right; rewrite !app_nil_r|left]. by rewrite bytes_cmp_app_l.
Qed.

Lemma prefix_below_end rest :
  ~ ten_power (table_id + 1) ->
  bytes_ltb (format_key_prefix table_id ++ rest) (format_key_end table_id) = true.
Proof.
  intros Hten. unfold bytes_ltb. rewrite prefix_eq, end_eq, <-!app_assoc, bytes_cmp_app_l.
  destruct (succ_lt Hten) as [Hl Hlt]. rewrite bytes_cmp_app by done. by rewrite Hlt.
Qed.

Lemma end_before_start :
  ten_power (table_id + 1) -> bytes_ltb (format_key_end table_id) (format_key_prefix table_id) = true.
Proof.
  intros (k & Hk & Hten). destruct (dec_ten_power (Z.to_nat k) (table_id + 1)) as [[s Hs] [s' Hs']];
    [lia|by rewrite Z2Nat.id by lia|lia|].
  rewrite Z.add_simpl_r in Hs'. unfold bytes_ltb. rewrite prefix_eq, end_eq, bytes_cmp_app_l, Hs, Hs'. done.
Qed.

(** The keys of the tables whose ids extend the next id by one digit. *)
Lemma longer_between d rest :
  ~ ten_power (table_id + 1) -> 0 <= d < 10 -> (table_id + 1) * 10 + d < 2 ^ 63 ->
  bytes_leb (format_key_prefix table_id) (format_key_prefix ((table_id + 1) * 10 + d) ++ rest) = true
  /\ bytes_ltb (format_key_prefix ((table_id + 1) * 10 + d) ++ rest) (format_key_end table_id) = true.
Proof.
  intros Hten Hd Hub. set (m := (table_id + 1) * 10 + d) in *.
  assert (format_key_prefix m = [116; 95] ++ dec (table_id + 1) ++ [48 + d] ++ [95]) as ->.
  { unfold format_key_prefix. rewrite fmt_i64_dec, dec_step by lia.
    assert (m / 10 = table_id + 1) as -> by (symmetry; apply (Z.div_unique _ 10 _ d); lia).
    assert (m mod 10 = d) as -> by (symmetry; apply (Z.mod_unique _ 10 (table_id + 1)); lia).
    by rewrite <-app_assoc. }
  rewrite prefix_eq, end_eq. destruct (succ_lt Hten) as [Hl Hlt]. split.
  - apply bytes_leb_lt_or_eq. left. rewrite <-!app_assoc, bytes_cmp_app_l, bytes_cmp_app by done. by rewrite Hlt.
  - unfold bytes_ltb. rewrite <-!app_assoc, bytes_cmp_app_l, bytes_cmp_app_l. cbn [app bytes_cmp].
    destruct (Z.compare_spec (48 + d) 95); done || lia.
Qed.
End TableRange.
