(* ===== verification/SpanRegistry.v ===== *)
(** * The span control plane of cluster replication

    [components/stream-ingest/src/span_ctl]: replication spans, their region
    workers and the registry with its reverse index ([registry.rs]), and the
    operations of [resolver.rs] on them: splits, the periodic reconcile and the
    discovery of tables.  A [HashMap] is a [gmap]; where the code iterates over
    one, the model uses the order of [map_to_list], and the theorems do not
    depend on it.  The answers of the source cluster's [mysql] and of the
    placement driver are arguments.

    Theorems: the reverse index lists every table for each of its tracked
    regions, whatever operations run, except where a worker was started or revived
    on a span directly, without the registry, as the discovery of tables does
    ([region_index_complete]); what a split
    does ([region_split_correct]); what reconcile does ([reconcile_correct]);
    table discovery follows the source ([discovery_follows_source]), except
    after a failed query ([discovery_misses_ddl]); which keys the span of a
    discovered table contains ([table_span_own_keys],
    [table_span_foreign_keys]). *)

From Stdlib Require Import ZArith Lia.
From stdpp Require Import base numbers list gmap sets.
From S2P Require Import Prelude Number Bytes Types SpanKeys.

Open Scope Z_scope.

(** ** [registry.rs]: spans *)

Inductive WorkerState : Type := WsInitializing | WsSubscribing | WsDraining | WsStopped.

#[export] Instance WorkerState_eq_dec : EqDecision WorkerState.
Proof. solve_decision. Defined.

Record RegionWorker : Type := { rw_region_id : u64; rw_state : WorkerState }.

Inductive SpanState : Type := SsInitialized | SsSubscribing | SsDraining | SsRemoved.

#[export] Instance SpanState_eq_dec : EqDecision SpanState.
Proof. solve_decision. Defined.

Record ReplicationSpan : Type := {
  rs_table_id : Z;
  rs_start_key : bytes;
  rs_end_key : bytes;
  rs_checkpoint_ts : TimeStamp;
  rs_workers : gmap Z RegionWorker;
  rs_state : SpanState
}.

Definition ReplicationSpan_new (table_id : Z) (start_key end_key : bytes) : ReplicationSpan :=
  {| rs_table_id := table_id; rs_start_key := start_key; rs_end_key := end_key;
     rs_checkpoint_ts := TimeStamp_zero; rs_workers := ∅; rs_state := SsInitialized |}.

Definition rs_set_workers (s : ReplicationSpan) (ws : gmap Z RegionWorker) : ReplicationSpan :=
  {| rs_table_id := rs_table_id s; rs_start_key := rs_start_key s; rs_end_key := rs_end_key s;
     rs_checkpoint_ts := rs_checkpoint_ts s; rs_workers := ws; rs_state := rs_state s |}.

Definition rs_set_checkpoint_ts (s : ReplicationSpan) (ts : TimeStamp) : ReplicationSpan :=
  {| rs_table_id := rs_table_id s; rs_start_key := rs_start_key s; rs_end_key := rs_end_key s;
     rs_checkpoint_ts := ts; rs_workers := rs_workers s; rs_state := rs_state s |}.

Definition span_contains_key (s : ReplicationSpan) (key : bytes) : bool :=
  bytes_leb (rs_start_key s) key && bytes_ltb key (rs_end_key s).

(** The ids of the workers that satisfy a predicate on their state. *)
Definition worker_ids (p : WorkerState -> bool) (s : ReplicationSpan) : list Z :=
  (filter (fun '(_, w) => p (rw_state w) = true) (map_to_list (rs_workers s))).*1.

Definition active_region_ids : ReplicationSpan -> list Z :=
  worker_ids (fun st => bool_decide (st = WsSubscribing)).
Definition span_all_region_ids : ReplicationSpan -> list Z :=
  worker_ids (fun st => negb (bool_decide (st = WsStopped))).

Definition start_worker (s : ReplicationSpan) (region_id : u64) : ReplicationSpan :=
  rs_set_workers s
    (<[region_id := {| rw_region_id := region_id; rw_state := WsInitializing |}]> (rs_workers s)).

Definition set_worker_state (st : WorkerState) (w : RegionWorker) : RegionWorker :=
  {| rw_region_id := rw_region_id w; rw_state := st |}.

Definition activate_worker (s : ReplicationSpan) (region_id : u64) : ReplicationSpan :=
  rs_set_workers s (alter (set_worker_state WsSubscribing) region_id (rs_workers s)).
Definition drain_worker (s : ReplicationSpan) (region_id : u64) : ReplicationSpan :=
  rs_set_workers s (alter (set_worker_state WsDraining) region_id (rs_workers s)).
Definition stop_worker (s : ReplicationSpan) (region_id : u64) : ReplicationSpan :=
  rs_set_workers s (delete region_id (alter (set_worker_state WsStopped) region_id (rs_workers s))).

(** [Iterator::min] on timestamps. *)
Definition list_min (l : list Z) : option Z :=
  match l with [] => None | x :: l => Some (foldl Z.min x l) end.

Definition update_checkpoint (s : ReplicationSpan) (region_frontiers : gmap Z TimeStamp)
    : ReplicationSpan :=
  rs_set_checkpoint_ts s
    (default (rs_checkpoint_ts s)
       (list_min (omap (fun rid => region_frontiers !! rid) (active_region_ids s)))).

Definition count_workers (s : ReplicationSpan) (st : WorkerState) : nat :=
  length (filter (fun w => rw_state w = st) (map_to_list (rs_workers s)).*2).

(** ** The registry *)

Record SpanRegistry : Type := {
  sr_spans : gmap Z ReplicationSpan;
  sr_region_index : gmap Z (list Z);
  sr_last_seen_ddl_job_id : Z;
  sr_table_cache : gmap Z bytes
}.

Definition SpanRegistry_new : SpanRegistry :=
  {| sr_spans := ∅; sr_region_index := ∅; sr_last_seen_ddl_job_id := 0; sr_table_cache := ∅ |}.

Definition sr_set_spans (r : SpanRegistry) (m : gmap Z ReplicationSpan) : SpanRegistry :=
  {| sr_spans := m; sr_region_index := sr_region_index r;
     sr_last_seen_ddl_job_id := sr_last_seen_ddl_job_id r; sr_table_cache := sr_table_cache r |}.
Definition sr_set_index (r : SpanRegistry) (m : gmap Z (list Z)) : SpanRegistry :=
  {| sr_spans := sr_spans r; sr_region_index := m;
     sr_last_seen_ddl_job_id := sr_last_seen_ddl_job_id r; sr_table_cache := sr_table_cache r |}.
Definition sr_set_cache (r : SpanRegistry) (m : gmap Z bytes) : SpanRegistry :=
  {| sr_spans := sr_spans r; sr_region_index := sr_region_index r;
     sr_last_seen_ddl_job_id := sr_last_seen_ddl_job_id r; sr_table_cache := m |}.
Definition sr_set_last_seen (r : SpanRegistry) (id : Z) : SpanRegistry :=
  {| sr_spans := sr_spans r; sr_region_index := sr_region_index r;
     sr_last_seen_ddl_job_id := id; sr_table_cache := sr_table_cache r |}.

(** [region_index.entry(rid).or_default()] and [push] *)
Definition index_push (table_id : Z) (index : gmap Z (list Z)) (rid : Z) : gmap Z (list Z) :=
  <[rid := default [] (index !! rid) ++ [table_id]]> index.

Definition upsert_span (r : SpanRegistry) (span : ReplicationSpan) : SpanRegistry :=
  let index := foldl (index_push (rs_table_id span)) (sr_region_index r) (span_all_region_ids span) in
  sr_set_spans (sr_set_index r index) (<[rs_table_id span := span]> (sr_spans r)).

(** Take a table off the entry of a region; an entry that becomes empty goes. *)
Definition index_drop (table_id : Z) (index : gmap Z (list Z)) (rid : Z) : gmap Z (list Z) :=
  match index !! rid with
  | Some tids =>
      let tids := filter (fun t => t <> table_id) tids in
      match tids with [] => delete rid index | _ => <[rid := tids]> index end
  | None => index
  end.

Definition remove_span (r : SpanRegistry) (table_id : Z) : option ReplicationSpan * SpanRegistry :=
  match sr_spans r !! table_id with
  | None => (None, r)
  | Some span =>
      (Some span,
       sr_set_index (sr_set_spans r (delete table_id (sr_spans r)))
         (foldl (index_drop table_id) (sr_region_index r) (span_all_region_ids span)))
  end.

(** *** Queries *)

Definition find_by_key (r : SpanRegistry) (key : bytes) : option ReplicationSpan :=
  snd <$> list_find (fun s => span_contains_key s key = true) (map_to_list (sr_spans r)).*2.

Definition active_spans (r : SpanRegistry) : list ReplicationSpan :=
  filter (fun s => rs_state s = SsSubscribing \/ rs_state s = SsDraining) (map_to_list (sr_spans r)).*2.

Definition table_ids (r : SpanRegistry) : list Z := (map_to_list (sr_spans r)).*1.

Definition count_by_state (r : SpanRegistry) (st : SpanState) : nat :=
  length (filter (fun s => rs_state s = st) (map_to_list (sr_spans r)).*2).

Definition spans_for_region (r : SpanRegistry) (region_id : u64) : list ReplicationSpan :=
  match sr_region_index r !! region_id with
  | None => []
  | Some table_ids => omap (fun tid => sr_spans r !! tid) table_ids
  end.

Definition has_region (r : SpanRegistry) (region_id : u64) : bool :=
  bool_decide (is_Some (sr_region_index r !! region_id)).

Definition all_region_ids (r : SpanRegistry) : list Z := (map_to_list (sr_region_index r)).*1.

(** *** Regions *)

Definition add_region_to_span (r : SpanRegistry) (table_id : Z) (region_id : u64) : SpanRegistry :=
  let r := match sr_spans r !! table_id with
           | Some span => sr_set_spans r (<[table_id := start_worker span region_id]> (sr_spans r))
           | None => r
           end in
  sr_set_index r (index_push table_id (sr_region_index r) region_id).

(** One child region of a split, for one covering table. *)
Definition split_child (table_id : Z) (acc : SpanRegistry * list Z) (child : u64)
    : SpanRegistry * list Z :=
  let '(r, new_to_subscribe) := acc in
  let '(r, new_to_subscribe) :=
    match sr_spans r !! table_id with
    | Some s =>
        let needs_subscribe :=
          match rs_workers s !! child with
          | None => true
          | Some w => bool_decide (rw_state w = WsDraining)
          end in
        if needs_subscribe then
          let s := match rs_workers s !! child with Some _ => stop_worker s child | None => s end in
          (sr_set_spans r (<[table_id := start_worker s child]> (sr_spans r)),
           new_to_subscribe ++ [child])
        else (r, new_to_subscribe)
    | None => (r, new_to_subscribe)
    end in
  (sr_set_index r (index_push table_id (sr_region_index r) child), new_to_subscribe).

(** One table that covers the split region. *)
Definition split_table (parent : u64) (children : list u64) (acc : SpanRegistry * list Z)
    (table_id : Z) : SpanRegistry * list Z :=
  let '(r, new_to_subscribe) := acc in
  let r := match sr_spans r !! table_id with
           | Some s => sr_set_spans r (<[table_id := drain_worker s parent]> (sr_spans r))
           | None => r
           end in
  let r := sr_set_index r (alter (filter (fun t => t <> table_id)) parent (sr_region_index r)) in
  foldl (split_child table_id) (r, new_to_subscribe) children.

Definition on_region_split (r : SpanRegistry) (parent_region_id : u64) (child_region_ids : list u64)
    : SpanRegistry * list Z :=
  let covering_table_ids := default [] (sr_region_index r !! parent_region_id) in
  let '(r, new_to_subscribe) :=
    foldl (split_table parent_region_id child_region_ids) (r, []) covering_table_ids in
  let r := match sr_region_index r !! parent_region_id with
           | None | Some [] => sr_set_index r (delete parent_region_id (sr_region_index r))
           | Some _ => r
           end in
  (r, new_to_subscribe).

(** ** [resolver.rs] *)

Record SplitAction : Type := {
  sa_new_regions : list Z;
  sa_drain_parent_region : option Z;
  sa_checkpoint_ts : TimeStamp
}.

Definition handle_split (span : ReplicationSpan) (parent_region_id : u64) (new_region_ids : list u64)
    : SplitAction * ReplicationSpan :=
  let drain_parent := bool_decide (is_Some (rs_workers span !! parent_region_id)) in
  let '(span, new_regions) :=
    foldl (fun '(span, news) rid =>
             match rs_workers span !! rid with
             | None => (start_worker span rid, news ++ [rid])
             | Some _ => (span, news)
             end) (span, []) new_region_ids in
  let span := if drain_parent then drain_worker span parent_region_id else span in
  ({| sa_new_regions := new_regions;
      sa_drain_parent_region := if drain_parent then Some parent_region_id else None;
      sa_checkpoint_ts := rs_checkpoint_ts span |}, span).

(** A region of the placement driver: id and key range. *)
Definition PdRegion : Type := Z * bytes * bytes.
Definition pd_id (x : PdRegion) : Z := fst (fst x).

Record ReconcileResult : Type := { rr_to_add : list PdRegion; rr_to_remove : list Z }.

(** The regions tracked by any span, as the [HashSet] of [reconcile]. *)
Definition tracked_regions (r : SpanRegistry) : gset Z :=
  list_to_set (flat_map span_all_region_ids (map_to_list (sr_spans r)).*2).

Definition reconcile (r : SpanRegistry) (pd_regions : list PdRegion) : ReconcileResult * SpanRegistry :=
  let pd_set : gset Z := list_to_set (map pd_id pd_regions) in
  let tracked := tracked_regions r in
  let to_add := filter (fun x => pd_id x ∉ tracked) pd_regions in
  let to_remove := filter (fun rid => rid ∉ pd_set) (elements tracked) in
  ({| rr_to_add := to_add; rr_to_remove := to_remove |},
   foldl (fun r rid => sr_set_spans r ((fun span => stop_worker span rid) <$> sr_spans r)) r to_remove).

(** [resolve_spans_to_regions], given the regions that the placement driver
    returns for a key range. *)
Definition resolve_spans_to_regions (query : bytes -> bytes -> option (list u64)) (r : SpanRegistry)
    : SpanRegistry :=
  sr_set_spans r ((fun span =>
    if bool_decide (rs_state span = SsInitialized \/ rs_state span = SsSubscribing) then
      match query (rs_start_key span) (rs_end_key span) with
      | Some region_ids => foldl start_worker span region_ids
      | None => span
      end
    else span) <$> sr_spans r).

Definition make_span_for_table (table_id : Z) : ReplicationSpan :=
  ReplicationSpan_new table_id (format_key_prefix table_id) (format_key_end table_id).

(** [build_initial_spans], given the table ids of the source. *)
Definition build_initial_spans (table_ids : option (list Z)) : list ReplicationSpan :=
  match table_ids with Some ids => map make_span_for_table ids | None => [] end.

(** The spans of new tables enter the registry. *)
Definition create_spans (r : SpanRegistry) (ids : list Z) : SpanRegistry :=
  foldl (fun r tid => upsert_span r (make_span_for_table tid)) r ids.

Definition drop_table (r : SpanRegistry) (tid : Z) : SpanRegistry :=
  let r := snd (remove_span r tid) in sr_set_cache r (delete tid (sr_table_cache r)).

Definition create_table (r : SpanRegistry) (t : Z * bytes) : SpanRegistry :=
  let r := upsert_span r (make_span_for_table (fst t)) in
  sr_set_cache r (<[fst t := snd t]> (sr_table_cache r)).

(** [discover_new_spans], given the newest DDL job and the tables of the source
    ([None] when the query fails). *)
Definition discover_new_spans (r : SpanRegistry) (current_max : Z)
    (current_tables : option (list (Z * bytes))) : list ReplicationSpan * SpanRegistry :=
  if sr_last_seen_ddl_job_id r =? 0 then
    match current_tables with
    | None => ([], r)
    | Some tables =>
        let r := sr_set_cache r (foldl (fun c t => <[fst t := snd t]> c) (sr_table_cache r) tables) in
        let r := create_spans r (map fst tables) in
        (map make_span_for_table (map fst tables), sr_set_last_seen r current_max)
    end
  else if current_max <=? sr_last_seen_ddl_job_id r then ([], r)
  else
    let r := sr_set_last_seen r current_max in
    match current_tables with
    | None => ([], r)
    | Some tables =>
        let current : gset Z := list_to_set (map fst tables) in
        let cached : gset Z := dom (sr_table_cache r) in
        let r := foldl (fun r tid => if decide (tid ∈ current) then r else drop_table r tid)
                   r (elements cached) in
        let new_tables := filter (fun t => fst t ∉ cached) tables in
        (map (fun t => make_span_for_table (fst t)) new_tables, foldl create_table r new_tables)
    end.

(** ** The spans of tables *)

(** Which keys the span of a table contains.  The span of a table contains
    every key with the table's prefix, unless the next id is a power of ten: then
    the range is empty, since decimal ids do not sort by value, and the span
    contains no key at all. *)
Theorem table_span_own_keys table_id :
  0 <= table_id < 2 ^ 63 - 1 ->
  (~ ten_power (table_id + 1) ->
     forall rest, span_contains_key (make_span_for_table table_id) (format_key_prefix table_id ++ rest) = true)
  /\ (ten_power (table_id + 1) -> forall key, span_contains_key (make_span_for_table table_id) key = false).
Proof.
  intros Hid. unfold span_contains_key. cbn [make_span_for_table ReplicationSpan_new rs_start_key rs_end_key].
  split.
  - intros Hten rest. by rewrite prefix_start, prefix_below_end.
  - intros Hten key. pose proof (end_before_start table_id Hid Hten) as Hlt.
    destruct (bytes_leb (format_key_prefix table_id) key) eqn:Hs; [|done]. cbn [andb].
    destruct (bytes_ltb key (format_key_end table_id)) eqn:He; [|done].
    unfold bytes_ltb in *. destruct (bytes_cmp key _) eqn:E1; try done.
    destruct (bytes_cmp (format_key_end table_id) _) eqn:E2; try done.
    pose proof (bytes_cmp_lt_trans _ _ _ E1 E2) as E3.
    unfold bytes_leb in Hs. rewrite bytes_cmp_antisym, E3 in Hs. done.
Qed.

Lemma table_span_own_keys_witness :
  (forall rest, span_contains_key (make_span_for_table 100) (format_key_prefix 100 ++ rest) = true)
  /\ (forall key, span_contains_key (make_span_for_table 99) key = false).
Proof.
  split.
  - apply (table_span_own_keys 100); [lia|]. intros (k & Hk & E).
    assert (10 ^ 2 < 10 ^ k < 10 ^ 3) as [H1 H2] by lia.
    apply Z.pow_lt_mono_r_iff in H1, H2; lia.
  - apply (table_span_own_keys 99); [lia|]. by exists 2.
Defined.

(** Spans of tables overlap.  The span of a table also contains every key of
    the ten tables whose ids are the next id with one more digit, such as tables
    20 to 29 for table 1, so that a key does not determine its table. *)
Theorem table_span_foreign_keys table_id d rest :
  0 <= table_id < 2 ^ 63 - 1 -> ~ ten_power (table_id + 1) -> 0 <= d < 10 ->
  (table_id + 1) * 10 + d < 2 ^ 63 ->
  span_contains_key (make_span_for_table table_id)
    (format_key_prefix ((table_id + 1) * 10 + d) ++ rest) = true.
Proof.
  intros Hid Hten Hd Hub. unfold span_contains_key.
  cbn [make_span_for_table ReplicationSpan_new rs_start_key rs_end_key].
  by destruct (longer_between table_id Hid d rest Hten Hd Hub) as [-> ->].
Qed.

Lemma table_span_foreign_keys_witness :
  span_contains_key (make_span_for_table 1) (format_key_prefix 25 ++ [114]) = true
  /\ span_contains_key (make_span_for_table 25) (format_key_prefix 25 ++ [114]) = true.
Proof.
  split; [|vm_compute; reflexivity].
  apply (table_span_foreign_keys 1 5 [114]); [lia| |lia|lia].
  intros (k & Hk & E). pose proof (Z.pow_le_mono_r 10 1 k). lia.
Defined.

(** ** The reverse index *)

Definition index_at (index : gmap Z (list Z)) (rid : Z) : list Z := default [] (index !! rid).

(** Table [t] is listed for region [rid]. *)
Definition indexed (r : SpanRegistry) (t rid : Z) : Prop := t ∈ index_at (sr_region_index r) rid.

#[export] Instance indexed_dec r t rid : Decision (indexed r t rid).
Proof. unfold indexed. apply _. Defined.

Definition live (st : WorkerState) : bool :=
  match st with WsInitializing | WsSubscribing => true | WsDraining | WsStopped => false end.

(** Every table is listed for the regions of its live workers, with exceptions. *)
Definition index_complete (except : gset (Z * Z)) (r : SpanRegistry) : Prop :=
  forall t s rid w, (t, rid) ∉ except -> sr_spans r !! t = Some s -> rs_workers s !! rid = Some w ->
    live (rw_state w) = true -> indexed r t rid.

Lemma index_push_at tid index rid t rid' :
  t ∈ index_at (index_push tid index rid) rid' <-> t ∈ index_at index rid' \/ (rid' = rid /\ t = tid).
Proof.
  unfold index_at, index_push. destruct (decide (rid' = rid)) as [->|Hne].
  - rewrite lookup_insert_eq; cbn [from_option]. unfold id. rewrite elem_of_app, list_elem_of_singleton. naive_solver.
  - rewrite lookup_insert_ne by done. naive_solver.
Qed.

Lemma index_pushes_at tid rids : forall index t rid',
  t ∈ index_at (foldl (index_push tid) index rids) rid' <->
  t ∈ index_at index rid' \/ (rid' ∈ rids /\ t = tid).
Proof.
  induction rids as [|rid rids IH]; intros index t rid'; cbn [foldl].
  - set_solver.
  - rewrite IH, index_push_at, elem_of_cons. naive_solver.
Qed.

Lemma index_drop_at tid index rid t rid' :
  t ∈ index_at (index_drop tid index rid) rid' <-> t ∈ index_at index rid' /\ ~ (rid' = rid /\ t = tid).
Proof.
  unfold index_drop. destruct (index !! rid) as [tids|] eqn:E.
  - destruct (decide (rid' = rid)) as [->|Hne].
    + trans (t ∈ filter (fun t => t <> tid) tids).
      * unfold index_at. destruct (filter _ _) eqn:F.
        -- by rewrite lookup_delete_eq.
        -- by rewrite lookup_insert_eq.
      * unfold index_at; rewrite E, list_elem_of_filter; cbn. naive_solver.
    + unfold index_at. destruct (filter _ _); rewrite ?lookup_delete_ne, ?lookup_insert_ne by done;
        naive_solver.
  - split; [|tauto]. intros Ht; split; [done|]. intros [-> ->].
    unfold index_at in Ht. rewrite E in Ht. by apply not_elem_of_nil in Ht.
Qed.

Lemma index_drops_at tid rids : forall index t rid',
  t ∈ index_at (foldl (index_drop tid) index rids) rid' <->
  t ∈ index_at index rid' /\ ~ (rid' ∈ rids /\ t = tid).
Proof.
  induction rids as [|rid rids IH]; intros index t rid'; cbn [foldl].
  - set_solver.
  - rewrite IH, index_drop_at, elem_of_cons. naive_solver.
Qed.

Lemma worker_ids_elem p s rid :
  rid ∈ worker_ids p s <-> exists w, rs_workers s !! rid = Some w /\ p (rw_state w) = true.
Proof.
  unfold worker_ids. rewrite list_elem_of_fmap. split.
  - intros ([rid' w] & -> & H). apply list_elem_of_filter in H as [Hp H].
    apply elem_of_map_to_list in H. by exists w.
  - intros (w & Hw & Hp). exists (rid, w). split; [done|].
    apply list_elem_of_filter. split; [done|]. by apply elem_of_map_to_list.
Qed.

Lemma upsert_complete X r span : index_complete X r -> index_complete X (upsert_span r span).
Proof.
  intros H t s rid w Hx Hs Hw Hl. unfold indexed; cbn. rewrite index_pushes_at. cbn in Hs.
  destruct (decide (t = rs_table_id span)) as [->|Hne].
  - rewrite lookup_insert_eq in Hs. injection Hs as ->. right; split; [|done].
    apply worker_ids_elem. exists w. split; [done|]. by destruct (rw_state w).
  - rewrite lookup_insert_ne in Hs by done. left. by eapply H.
Qed.

Lemma remove_complete X r tid : index_complete X r -> index_complete X (snd (remove_span r tid)).
Proof.
  intros H. unfold remove_span. destruct (sr_spans r !! tid) as [span|]; [|done].
  intros t s rid w Hx Hs Hw Hl. unfold indexed; cbn. rewrite index_drops_at. cbn in Hs.
  apply lookup_delete_Some in Hs as [Hne Hs]. split; [by eapply H|]. naive_solver.
Qed.

Lemma start_worker_lookup s rid rid' :
  rs_workers (start_worker s rid) !! rid' =
  if decide (rid' = rid) then Some {| rw_region_id := rid; rw_state := WsInitializing |}
  else rs_workers s !! rid'.
Proof.
  cbn. case_decide as E; [subst; apply lookup_insert_eq|by apply lookup_insert_ne].
Qed.

(** A region that is added is no exception any more. *)
Lemma add_complete X r tid rid :
  index_complete X r -> index_complete (X ∖ {[(tid, rid)]}) (add_region_to_span r tid rid).
Proof.
  intros H t s rid' w Hx Hs Hw Hl. unfold indexed, add_region_to_span; cbn. unfold add_region_to_span in Hs; cbn in Hs.
  assert (Hidx : forall x, sr_region_index (match sr_spans r !! tid with
            | Some span => sr_set_spans r (<[tid := x span]> (sr_spans r)) | None => r end)
            = sr_region_index r) by (intros x; by destruct (sr_spans r !! tid)).
  rewrite Hidx. apply index_push_at.
  destruct (decide ((t, rid') = (tid, rid))) as [[= -> ->]|Hnew]; [by right|].
  assert ((t, rid') ∉ X) as Hx' by set_solver. clear Hx.
  destruct (sr_spans r !! tid) as [span|] eqn:E; [|left; by eapply H].
  cbn in Hs. destruct (decide (t = tid)) as [->|Hne].
  - rewrite lookup_insert_eq in Hs. injection Hs as <-. rewrite start_worker_lookup in Hw.
    case_decide as Er; [congruence|]. left. by eapply H.
  - rewrite lookup_insert_ne in Hs by done. left. by eapply H.
Qed.

(** ** Splits *)

(** Whether a region of a split needs a subscription for a span. *)
Definition resubscribes (w : option RegionWorker) : bool :=
  match w with None => true | Some w => bool_decide (rw_state w = WsDraining) end.

(** The worker of region [rid] after a split of [parent] into [children]. *)
Definition split_worker (parent : Z) (children : list Z) (rid : Z) (w : option RegionWorker)
    : option RegionWorker :=
  if decide (rid ∈ children) then
    if bool_decide (rid = parent) || resubscribes w
    then Some {| rw_region_id := rid; rw_state := WsInitializing |} else w
  else if decide (rid = parent) then set_worker_state WsDraining <$> w
  else w.

Definition child_span (s : ReplicationSpan) (child : Z) : ReplicationSpan :=
  if resubscribes (rs_workers s !! child) then start_worker s child else s.
Definition split_span (parent : Z) (children : list Z) (s : ReplicationSpan) : ReplicationSpan :=
  foldl child_span (drain_worker s parent) children.

Lemma child_span_lookup s child rid :
  rs_workers (child_span s child) !! rid =
  if decide (rid = child) then
    if resubscribes (rs_workers s !! rid)
    then Some {| rw_region_id := rid; rw_state := WsInitializing |} else rs_workers s !! rid
  else rs_workers s !! rid.
Proof.
  unfold child_span. destruct (resubscribes (rs_workers s !! child)) eqn:E.
  - rewrite start_worker_lookup. case_decide; [subst; by rewrite E|done].
  - case_decide; [subst; by rewrite E|done].
Qed.

Lemma child_spans_lookup children : forall s rid,
  rs_workers (foldl child_span s children) !! rid =
  if decide (rid ∈ children) then
    if resubscribes (rs_workers s !! rid)
    then Some {| rw_region_id := rid; rw_state := WsInitializing |} else rs_workers s !! rid
  else rs_workers s !! rid.
Proof.
  induction children as [|c children IH]; intros s rid; cbn [foldl]; [done|].
  rewrite IH, child_span_lookup. destruct (decide (rid = c)) as [->|Hne].
  - rewrite (decide_True (P := c ∈ c :: children)) by set_solver.
    destruct (resubscribes (rs_workers s !! c)) eqn:E; [by case_decide|].
    case_decide; by rewrite ?E.
  - destruct (decide (rid ∈ children)); [rewrite decide_True by set_solver|rewrite decide_False by set_solver]; done.
Qed.

Lemma split_span_lookup parent children s rid :
  rs_workers (split_span parent children s) !! rid
  = split_worker parent children rid (rs_workers s !! rid).
Proof.
  unfold split_span, split_worker. rewrite child_spans_lookup. cbn [drain_worker rs_set_workers rs_workers].
  destruct (decide (rid = parent)) as [->|Hne].
  - rewrite lookup_alter_eq, bool_decide_true by done. cbn [orb].
    destruct (rs_workers s !! parent); cbn; by case_decide.
  - rewrite lookup_alter_ne, bool_decide_false by done. done.
Qed.

(** Only the workers of a span change. *)
Definition workers_only (s s' : ReplicationSpan) : Prop := s' = rs_set_workers s (rs_workers s').

Lemma workers_only_intro s ws : workers_only s (rs_set_workers s ws).
Proof. done. Qed.

Lemma workers_only_trans s1 s2 s3 : workers_only s1 s2 -> workers_only s2 s3 -> workers_only s1 s3.
Proof. intros -> ->. done. Qed.

Lemma workers_only_eq s s' ws :
  workers_only s s' -> (forall rid, rs_workers s' !! rid = ws !! rid) -> s' = rs_set_workers s ws.
Proof. intros -> H. f_equal. cbn in *. by apply map_eq. Qed.

Lemma child_spans_only children : forall s, workers_only s (foldl child_span s children).
Proof.
  induction children as [|c children IH]; intros s; cbn [foldl]; [by destruct s|].
  eapply workers_only_trans; [|apply IH]. unfold child_span. case_match; by destruct s.
Qed.

Lemma split_span_only parent children s : workers_only s (split_span parent children s).
Proof. eapply workers_only_trans; [|apply child_spans_only]. done. Qed.

Lemma split_worker_idem parent children rid w :
  split_worker parent children rid (split_worker parent children rid w)
  = split_worker parent children rid w.
Proof.
  unfold split_worker. case_decide.
  - destruct (bool_decide _); cbn [orb]; [done|]. destruct (resubscribes w) eqn:E; [done|by rewrite E].
  - case_decide; [|done]. by destruct w.
Qed.

Lemma split_span_idem parent children s :
  split_span parent children (split_span parent children s) = split_span parent children s.
Proof.
  rewrite (workers_only_eq (split_span parent children s) (split_span parent children (split_span parent children s))
             (rs_workers (split_span parent children s))).
  - by destruct (split_span parent children s).
  - apply split_span_only.
  - intros rid. rewrite !split_span_lookup. apply split_worker_idem.
Qed.

Lemma restart_worker s rid : start_worker (stop_worker s rid) rid = start_worker s rid.
Proof.
  unfold stop_worker, start_worker, rs_set_workers.
  cbn [rs_table_id rs_start_key rs_end_key rs_checkpoint_ts rs_workers rs_state].
  by rewrite insert_delete_eq, insert_alter_eq.
Qed.

(** The registry after one child region, and the child if it needs a subscription. *)
Definition child_registry (t : Z) (r : SpanRegistry) (child : Z) : SpanRegistry :=
  sr_set_index (sr_set_spans r (alter (fun s => child_span s child) t (sr_spans r)))
    (index_push t (sr_region_index r) child).

Lemma split_child_eq t r news child :
  split_child t (r, news) child =
  (child_registry t r child,
   news ++ match sr_spans r !! t with
           | Some s => if resubscribes (rs_workers s !! child) then [child] else []
           | None => []
           end).
Proof.
  unfold split_child, child_registry. destruct (sr_spans r !! t) as [s|] eqn:E.
  - assert (Ha : alter (fun s => child_span s child) t (sr_spans r)
                 = <[t := child_span s child]> (sr_spans r)).
    { apply map_eq; intros i. destruct (decide (i = t)) as [->|Hne].
      - by rewrite lookup_alter_eq, lookup_insert_eq, E.
      - by rewrite lookup_alter_ne, lookup_insert_ne by done. }
    rewrite Ha. unfold child_span, resubscribes.
    destruct (rs_workers s !! child) as [w|] eqn:Ew; [|done].
    destruct (bool_decide (rw_state w = WsDraining)).
    + by rewrite restart_worker.
    + rewrite app_nil_r. do 2 f_equal. destruct r; unfold sr_set_spans; cbn in *. f_equal.
      symmetry. by apply insert_id.
  - rewrite app_nil_r. do 2 f_equal. destruct r; unfold sr_set_spans; cbn in *. f_equal.
    symmetry. apply map_eq; intros i. destruct (decide (i = t)) as [->|Hne].
    + by rewrite lookup_alter_eq, E.
    + by rewrite lookup_alter_ne.
Qed.

Lemma split_children_spec t children : forall r news r' news',
  foldl (split_child t) (r, news) children = (r', news') ->
  sr_spans r' = alter (fun s => foldl child_span s children) t (sr_spans r)
  /\ sr_region_index r' = foldl (index_push t) (sr_region_index r) children
  /\ (forall c, c ∈ news' <-> c ∈ news \/ (c ∈ children /\
        exists s, sr_spans r !! t = Some s /\ resubscribes (rs_workers s !! c) = true)).
Proof.
  induction children as [|child children IH]; intros r news r' news' E; cbn [foldl] in E.
  - injection E as <- <-. split_and!; [|done|set_solver].
    symmetry. by apply alter_id.
  - rewrite split_child_eq in E. apply IH in E as (-> & -> & Hnews). split_and!.
    + cbn. by rewrite alter_alter_eq.
    + done.
    + intros c. rewrite Hnews. clear IH Hnews. cbn [child_registry sr_set_index sr_set_spans sr_spans].
      rewrite lookup_alter_eq, elem_of_app, elem_of_cons.
      destruct (sr_spans r !! t) as [s|]; cbn; [|set_solver].
      destruct (decide (c = child)) as [->|Hne].
      * destruct (resubscribes (rs_workers s !! child)) eqn:Er; [set_solver|].
        split; [|intros [?|(_ & s' & [= <-] & ?)]; [by left; left|congruence]].
        intros [[?|[]%not_elem_of_nil]|(? & s' & [= <-] & Hr)]; [by left|].
        rewrite child_span_lookup, decide_True, Er in Hr by done. congruence.
      * split.
        -- intros [[?|Hc]|(? & s' & [= <-] & Hr)]; [by left| |].
           ++ destruct (resubscribes _); set_solver.
           ++ rewrite child_span_lookup, decide_False in Hr by done. naive_solver.
        -- intros [?|([?|?] & s' & [= <-] & Hr)]; [by left; left|done|].
           right. split; [done|]. eexists; split; [done|].
           by rewrite child_span_lookup, decide_False.
Qed.

Lemma split_table_spec parent children t r news r' news' :
  split_table parent children (r, news) t = (r', news') ->
  sr_spans r' = alter (split_span parent children) t (sr_spans r)
  /\ (forall t' rid, indexed r' t' rid <->
        (indexed r t' rid /\ ~ (rid = parent /\ t' = t)) \/ (rid ∈ children /\ t' = t))
  /\ (forall c, c ∈ news' <-> c ∈ news \/ (c ∈ children /\
        exists s, sr_spans r !! t = Some s /\ (c = parent \/ resubscribes (rs_workers s !! c) = true))).
Proof.
  intros E. apply split_children_spec in E as (Hs & Hi & Hn).
  assert (Hd : sr_spans (match sr_spans r !! t with
      | Some s => sr_set_spans r (<[t := drain_worker s parent]> (sr_spans r)) | None => r end)
      = alter (fun s => drain_worker s parent) t (sr_spans r)).
  { apply map_eq; intros i. destruct (sr_spans r !! t) eqn:Et; cbn;
      (destruct (decide (i = t)) as [->|]; [rewrite ?lookup_insert_eq, lookup_alter_eq, Et
        | rewrite ?lookup_insert_ne, lookup_alter_ne by done]); done. }
  assert (Hx : sr_region_index (match sr_spans r !! t with
      | Some s => sr_set_spans r (<[t := drain_worker s parent]> (sr_spans r)) | None => r end)
      = sr_region_index r) by by destruct (sr_spans r !! t).
  cbn [sr_set_index sr_spans sr_region_index] in Hs, Hi, Hn. rewrite Hd in Hs, Hn. rewrite Hx in Hi.
  split_and!.
  - by rewrite Hs, alter_alter_eq.
  - intros t' rid. unfold indexed. rewrite Hi, index_pushes_at.
    enough (t' ∈ index_at (alter (filter (fun t0 => t0 <> t)) parent (sr_region_index r)) rid <->
            t' ∈ index_at (sr_region_index r) rid /\ ~ (rid = parent /\ t' = t)) by tauto.
    unfold index_at. destruct (decide (rid = parent)) as [->|Hne].
    + rewrite lookup_alter_eq. destruct (sr_region_index r !! parent); cbn;
        [rewrite list_elem_of_filter|]; set_solver.
    + rewrite lookup_alter_ne by done. naive_solver.
  - intros c. rewrite Hn, lookup_alter_eq. destruct (sr_spans r !! t) as [s|]; cbn; [|set_solver].
    enough (resubscribes (rs_workers (drain_worker s parent) !! c) = true <->
            c = parent \/ resubscribes (rs_workers s !! c) = true) by (clear Hs Hi Hn Hd Hx; naive_solver).
    cbn [drain_worker rs_set_workers rs_workers]. destruct (decide (c = parent)) as [->|Hne].
    + rewrite lookup_alter_eq. destruct (rs_workers s !! parent); cbn; tauto.
    + rewrite lookup_alter_ne by done. tauto.
Qed.

(** All the covering tables, one after the other. *)
Lemma split_tables_spec parent children ts : forall r news r' news',
  foldl (split_table parent children) (r, news) ts = (r', news') ->
  (forall t, sr_spans r' !! t =
     if decide (t ∈ ts) then split_span parent children <$> sr_spans r !! t else sr_spans r !! t)
  /\ (forall t rid, indexed r' t rid <->
        (indexed r t rid /\ ~ (rid = parent /\ t ∈ ts)) \/ (rid ∈ children /\ t ∈ ts))
  /\ (forall c, c ∈ news' <-> c ∈ news \/ (c ∈ children /\ exists t s, t ∈ ts /\
        sr_spans r !! t = Some s /\ (c = parent \/ resubscribes (rs_workers s !! c) = true))).
Proof.
  induction ts as [|t0 ts IH]; intros r news r' news' E; cbn [foldl] in E.
  - injection E as <- <-. split_and!; set_solver.
  - destruct (split_table parent children (r, news) t0) as [r1 news1] eqn:E1.
    apply split_table_spec in E1 as (Hs1 & Hi1 & Hn1). apply IH in E as (Hs & Hi & Hn). clear IH.
    split_and!.
    + intros t. rewrite Hs, Hs1. destruct (decide (t = t0)) as [->|Hne].
      * rewrite lookup_alter_eq, (decide_True (P := t0 ∈ t0 :: ts)) by set_solver.
        case_decide; [|done]. destruct (sr_spans r !! t0); cbn; [by rewrite split_span_idem|done].
      * rewrite lookup_alter_ne by done.
        destruct (decide (t ∈ ts)); [rewrite decide_True by set_solver|rewrite decide_False by set_solver]; done.
    + intros t rid. rewrite Hi, Hi1, elem_of_cons. clear.
      destruct (decide (t = t0)), (decide (rid = parent)), (decide (t ∈ ts)); tauto.
    + intros c. rewrite Hn, Hn1. clear Hs Hi Hi1 Hn Hn1. setoid_rewrite elem_of_cons. rewrite Hs1. split.
      * intros [[?|(? & s & ? & ?)]|(? & t & s & ? & Hs & Hc)]; [by left|by right; eauto 8|].
        destruct (decide (t = t0)) as [->|Hne].
        -- rewrite lookup_alter_eq in Hs. apply fmap_Some in Hs as (s0 & Hs0 & ->).
           right. split; [done|]. exists t0, s0. split_and!; [by left|done|].
           destruct Hc as [->|Hc]; [by left|].
           rewrite split_span_lookup in Hc. unfold split_worker in Hc. rewrite decide_True in Hc by done.
           case_bool_decide; [by left|]. cbn [orb] in Hc. destruct (resubscribes (rs_workers s0 !! c)) eqn:Er; [by right|].
           rewrite Er in Hc. done.
        -- rewrite lookup_alter_ne in Hs by done. right. eauto 10.
      * intros [?|(? & t & s & [->|?] & Hs & Hc)]; [tauto| |].
        -- left; right. eauto.
        -- destruct (decide (t = t0)) as [->|Hne]; [left; right; eauto|].
           right. split; [done|]. exists t, s. rewrite lookup_alter_ne by done. done.
Qed.

Lemma on_region_split_spec r parent children r' news :
  on_region_split r parent children = (r', news) ->
  (forall t, sr_spans r' !! t =
     if decide (indexed r t parent) then split_span parent children <$> sr_spans r !! t
     else sr_spans r !! t)
  /\ (forall t rid, indexed r' t rid <->
        (indexed r t rid /\ rid <> parent) \/ (rid ∈ children /\ indexed r t parent))
  /\ (has_region r' parent = true <-> exists t, indexed r' t parent)
  /\ (forall c, c ∈ news <-> c ∈ children /\ exists t s, indexed r t parent /\
        sr_spans r !! t = Some s /\ (c = parent \/ resubscribes (rs_workers s !! c) = true)).
Proof.
  unfold on_region_split. intros E.
  destruct (foldl _ _ _) as [r1 news1] eqn:E1. apply split_tables_spec in E1 as (Hs & Hi & Hn).
  assert (Hr : sr_spans r' = sr_spans r1 /\ (forall t rid, indexed r' t rid <-> indexed r1 t rid)
     /\ (has_region r' parent = true <-> exists t, indexed r' t parent) /\ news = news1).
  { unfold indexed, has_region, index_at in *. clear Hs Hi Hn.
    destruct (sr_region_index r1 !! parent) as [[|t0 ts]|] eqn:Ep; injection E as <- <-;
      cbn [sr_set_index sr_region_index sr_spans]; split_and!; try done.
    - intros t rid. destruct (decide (rid = parent)) as [->|];
        [by rewrite lookup_delete_eq, Ep|by rewrite lookup_delete_ne].
    - rewrite lookup_delete_eq. split; [done|]. by intros (t & ?%not_elem_of_nil).
    - rewrite Ep, bool_decide_eq_true. split; [|done]. intros _. exists t0. set_solver.
    - intros t rid. destruct (decide (rid = parent)) as [->|];
        [by rewrite lookup_delete_eq, Ep|by rewrite lookup_delete_ne].
    - rewrite lookup_delete_eq. split; [done|]. by intros (t & ?%not_elem_of_nil). }
  destruct Hr as (-> & Hri & Hrp & ->). split_and!.
  - intros t. rewrite Hs. done.
  - intros t rid. rewrite Hri, Hi. unfold indexed, index_at.
    destruct (decide (rid = parent)) as [->|]; tauto.
  - exact Hrp.
  - intros c. rewrite Hn. unfold indexed, index_at. clear. set_solver.
Qed.

Lemma split_complete X r parent children :
  index_complete X r -> index_complete X (fst (on_region_split r parent children)).
Proof.
  intros H. destruct (on_region_split r parent children) as [r' news] eqn:E.
  apply on_region_split_spec in E as (Hs & Hi & _). intros t s rid w Hx Ht Hw Hl. cbn in *.
  rewrite Hs in Ht. apply Hi. case_decide as Hc.
  - apply fmap_Some in Ht as (s0 & Hs0 & ->). rewrite split_span_lookup in Hw.
    unfold split_worker in Hw. case_decide as Hch; [by right|]. left.
    case_decide as Hp; [|split; [by eapply H|done]].
    apply fmap_Some in Hw as (w0 & _ & ->). done.
  - left. split; [by eapply H|]. intros ->. apply Hc. by eapply H.
Qed.

(** C35. What a region split does.  In every span that covers the parent region,
    the parent's worker is drained, every child gets a worker in the
    initializing state unless it has a live one, and a child with the id of the
    parent gets a new worker; no other worker and no other span changes.  The
    index then lists the covering tables for the children and no longer for the
    parent, unless the parent is one of the children; the children that are
    returned are those that got a new worker. *)
Theorem region_split_correct r parent children r' news :
  on_region_split r parent children = (r', news) ->
  (forall t s, indexed r t parent -> sr_spans r !! t = Some s ->
     exists s', sr_spans r' !! t = Some s' /\ workers_only s s' /\
       forall rid, rs_workers s' !! rid = split_worker parent children rid (rs_workers s !! rid))
  /\ (forall t, ~ indexed r t parent -> sr_spans r' !! t = sr_spans r !! t)
  /\ (forall t rid, indexed r' t rid <->
        (indexed r t rid /\ rid <> parent) \/ (rid ∈ children /\ indexed r t parent))
  /\ (has_region r' parent = true <-> parent ∈ children /\ exists t, indexed r t parent)
  /\ (forall c, c ∈ news <-> c ∈ children /\ exists t s, indexed r t parent /\
        sr_spans r !! t = Some s /\ (c = parent \/ resubscribes (rs_workers s !! c) = true)).
Proof.
  intros E. apply on_region_split_spec in E as (Hs & Hi & Hp & Hn). split_and!; [| |done| |done].
  - intros t s Hc Ht. exists (split_span parent children s).
    rewrite Hs, decide_True, Ht by done. split_and!; [done|apply split_span_only|].
    intros rid. apply split_span_lookup.
  - intros t Hc. by rewrite Hs, decide_False.
  - rewrite Hp. setoid_rewrite Hi. clear. naive_solver.
Qed.

(** A registry with table 7 on region 42. *)
Definition one_region : SpanRegistry :=
  add_region_to_span (upsert_span SpanRegistry_new (make_span_for_table 7)) 7 42.

Lemma region_split_correct_witness :
  indexed one_region 7 42
  /\ has_region (fst (on_region_split one_region 42 [43; 44])) 42 = false
  /\ indexed (fst (on_region_split one_region 42 [43; 44])) 7 44
  /\ 44 ∈ snd (on_region_split one_region 42 [43; 44]).
Proof.
  assert (Hi : indexed one_region 7 42) by (vm_compute; constructor).
  destruct (region_split_correct one_region 42 [43; 44] _ _ (surjective_pairing _))
    as (_ & _ & H1 & H2 & H3).
  split_and!; [done| | |].
  - destruct (has_region _ 42); [|done]. destruct (proj1 H2 eq_refl) as (H & _).
    exfalso. clear -H. set_solver.
  - apply H1. right. split; [set_solver|done].
  - apply H3. split; [set_solver|]. exists 7. eexists. split; [done|]. split; [vm_compute; reflexivity|].
    right. reflexivity.
Defined.

(** ** Reconcile *)

Definition stop_all (rids : list Z) (s : ReplicationSpan) : ReplicationSpan := foldl stop_worker s rids.

Lemma stop_worker_lookup s rid rid' :
  rs_workers (stop_worker s rid) !! rid' = if decide (rid' = rid) then None else rs_workers s !! rid'.
Proof.
  cbn [stop_worker rs_set_workers rs_workers]. case_decide as E.
  - subst. apply lookup_delete_eq.
  - by rewrite lookup_delete_ne, lookup_alter_ne.
Qed.

Lemma stop_all_lookup rids : forall s rid,
  rs_workers (stop_all rids s) !! rid = if decide (rid ∈ rids) then None else rs_workers s !! rid.
Proof.
  induction rids as [|r0 rids IH]; intros s rid; [done|]. unfold stop_all; cbn [foldl].
  fold (stop_all rids (stop_worker s r0)). rewrite IH, stop_worker_lookup.
  destruct (decide (rid ∈ rids)); [rewrite decide_True by set_solver; done|].
  destruct (decide (rid = r0)); [rewrite decide_True by set_solver|rewrite decide_False by set_solver]; done.
Qed.

Lemma stop_all_only rids : forall s, workers_only s (stop_all rids s).
Proof.
  induction rids as [|r0 rids IH]; intros s; [by destruct s|].
  eapply workers_only_trans; [|apply IH]. done.
Qed.

Lemma stops_spec rids : forall r,
  let r' := foldl (fun r rid => sr_set_spans r ((fun span => stop_worker span rid) <$> sr_spans r)) r rids in
  sr_spans r' = stop_all rids <$> sr_spans r /\ sr_region_index r' = sr_region_index r.
Proof.
  induction rids as [|r0 rids IH]; intros r; cbn [foldl].
  - split; [|done]. symmetry. apply map_fmap_id.
  - destruct (IH (sr_set_spans r ((fun span => stop_worker span r0) <$> sr_spans r))) as [-> ->].
    split; [|done]. cbn [sr_set_spans sr_spans]. by rewrite <-map_fmap_compose.
Qed.

Lemma tracked_elem r rid :
  rid ∈ tracked_regions r <-> exists t s w, sr_spans r !! t = Some s /\
    rs_workers s !! rid = Some w /\ rw_state w <> WsStopped.
Proof.
  unfold tracked_regions. rewrite elem_of_list_to_set, list_elem_of_In, in_flat_map. split.
  - intros (s & Hs & H). apply list_elem_of_In in Hs, H.
    apply list_elem_of_fmap in Hs as ([t s'] & -> & Hs). apply elem_of_map_to_list in Hs.
    apply worker_ids_elem in H as (w & Hw & Hst). exists t, s', w. split_and!; try done.
    intros E. by rewrite E in Hst.
  - intros (t & s & w & Hs & Hw & Hst). exists s. split; apply list_elem_of_In.
    + apply list_elem_of_fmap. exists (t, s). split; [done|]. by apply elem_of_map_to_list.
    + apply worker_ids_elem. exists w. split; [done|]. by rewrite bool_decide_false.
Qed.

Lemma reconcile_tracked r pd :
  tracked_regions (snd (reconcile r pd)) = tracked_regions r ∩ list_to_set (map pd_id pd).
Proof.
  unfold reconcile. cbn [snd]. apply leibniz_equiv. intros rid. rewrite elem_of_intersection, !tracked_elem.
  destruct (stops_spec (filter (fun rid => rid ∉ (list_to_set (map pd_id pd) : gset Z))
     (elements (tracked_regions r))) r) as [-> _].
  split.
  - intros (t & s & w & Hs & Hw & Hst). rewrite lookup_fmap in Hs. apply fmap_Some in Hs as (s0 & Hs & ->).
    rewrite stop_all_lookup in Hw. case_decide as Hd; [done|].
    split; [by eauto 6|]. rewrite list_elem_of_filter, elem_of_elements, tracked_elem in Hd.
    destruct (decide (rid ∈ (list_to_set (map pd_id pd) : gset Z))); [done|].
    destruct Hd. split; [done|]. eauto 6.
  - intros [(t & s & w & Hs & Hw & Hst) Hp]. eexists t, _, w. rewrite lookup_fmap, Hs.
    split_and!; [done| |done]. rewrite stop_all_lookup, decide_False; [done|].
    rewrite list_elem_of_filter. tauto.
Qed.

Lemma filter_ext_elem {A} (P Q : A -> Prop) `{!forall x, Decision (P x), !forall x, Decision (Q x)} (l : list A) :
  (forall x, x ∈ l -> P x <-> Q x) -> filter P l = filter Q l.
Proof.
  induction l as [|x l IH]; intros HPQ; [done|]. rewrite !filter_cons.
  rewrite IH by set_solver. destruct (HPQ x ltac:(set_solver)). do 2 case_decide; tauto.
Qed.

(** What reconcile does.  It reports exactly the regions of the placement
    driver that no span tracks, and removes from every span exactly the workers
    of tracked regions that the placement driver no longer has; what is tracked
    afterwards is what was tracked and still exists, and a second reconcile
    removes nothing and reports the same regions to add.  The reverse index is
    not updated: a removed region stays in it. *)
Theorem reconcile_correct r pd :
  let '(res, r') := reconcile r pd in
  (forall x, x ∈ rr_to_add res <-> x ∈ pd /\ pd_id x ∉ tracked_regions r)
  /\ (forall rid, rid ∈ rr_to_remove res <-> rid ∈ tracked_regions r /\ ~ rid ∈ map pd_id pd)
  /\ (forall t, sr_spans r' !! t = None <-> sr_spans r !! t = None)
  /\ (forall t s, sr_spans r !! t = Some s ->
        exists s', sr_spans r' !! t = Some s' /\ workers_only s s' /\
          forall rid, rs_workers s' !! rid =
            if decide (rid ∈ rr_to_remove res) then None else rs_workers s !! rid)
  /\ tracked_regions r' = tracked_regions r ∩ list_to_set (map pd_id pd)
  /\ (rr_to_remove (fst (reconcile r' pd)) = [] /\ rr_to_add (fst (reconcile r' pd)) = rr_to_add res)
  /\ sr_region_index r' = sr_region_index r.
Proof.
  pose proof (reconcile_tracked r pd) as Ht. destruct (reconcile r pd) as [res r'] eqn:E. cbn [snd] in Ht.
  unfold reconcile in E. injection E as <- Er. cbn [rr_to_add rr_to_remove].
  pose proof (stops_spec (filter (fun rid => rid ∉ (list_to_set (map pd_id pd) : gset Z))
     (elements (tracked_regions r))) r) as [Hs Hi].
  rewrite Er in Hs, Hi. clear Er. split_and!.
  - intros x. rewrite list_elem_of_filter. tauto.
  - intros rid. rewrite list_elem_of_filter, elem_of_elements, elem_of_list_to_set. tauto.
  - intros t. by rewrite Hs, lookup_fmap, fmap_None.
  - intros t s Hts. eexists. rewrite Hs, lookup_fmap, Hts. split_and!; [done|apply stop_all_only|].
    intros rid. apply stop_all_lookup.
  - exact Ht.
  - unfold reconcile; cbn [fst rr_to_remove]. rewrite Ht. clear. apply elem_of_nil_inv. intros x Hx.
    apply list_elem_of_filter in Hx as [Hx He]. set_solver.
  - unfold reconcile; cbn [fst rr_to_add]. rewrite Ht. clear. apply filter_ext_elem. intros x Hx.
    enough (pd_id x ∈ (list_to_set (map pd_id pd) : gset Z)) by set_solver.
    apply elem_of_list_to_set, list_elem_of_fmap. by exists x.
  - done.
Qed.

Lemma reconcile_complete X r pd : index_complete X r -> index_complete X (snd (reconcile r pd)).
Proof.
  intros H. unfold reconcile. cbn [snd]. intros t s rid w Hx Hs Hw Hl.
  unfold indexed. match type of Hs with sr_spans (foldl _ _ ?l) !! _ = _ =>
    destruct (stops_spec l r) as [E1 E2] end.
  rewrite E1, lookup_fmap in Hs. rewrite E2. apply fmap_Some in Hs as (s0 & Hs & ->).
  rewrite stop_all_lookup in Hw. case_decide; [done|]. by eapply H.
Qed.

(** ** Table discovery *)

Lemma set_cache_complete X r c : index_complete X r -> index_complete X (sr_set_cache r c).
Proof. exact id. Qed.
Lemma set_last_seen_complete X r n : index_complete X r -> index_complete X (sr_set_last_seen r n).
Proof. exact id. Qed.

#[local] Hint Resolve upsert_complete remove_complete split_complete reconcile_complete
  set_cache_complete set_last_seen_complete : core.

Lemma foldl_complete {A} X (f : SpanRegistry -> A -> SpanRegistry) l :
  (forall r x, index_complete X r -> index_complete X (f r x)) ->
  forall r, index_complete X r -> index_complete X (foldl f r l).
Proof. intros Hf. induction l as [|x l IH]; intros r H; cbn [foldl]; auto. Qed.

Lemma discover_complete X r m ts : index_complete X r -> index_complete X (snd (discover_new_spans r m ts)).
Proof.
  intros H. unfold discover_new_spans. destruct (_ =? 0).
  - destruct ts; [|done]. apply set_last_seen_complete. unfold create_spans.
    apply foldl_complete; auto.
  - destruct (_ <=? _); [done|]. destruct ts; [|by apply set_last_seen_complete].
    cbn [snd]. apply foldl_complete; [intros; unfold create_table; auto|].
    apply foldl_complete; [|auto]. intros r' x H'. case_decide; unfold drop_table; auto.
Qed.

(** An operation on one span of the registry ([get_mut]). *)
Definition on_span (r : SpanRegistry) (t : Z) (f : ReplicationSpan -> ReplicationSpan) : SpanRegistry :=
  sr_set_spans r (alter f t (sr_spans r)).

(** The regions that [resolve_spans_to_regions] starts workers for, by table. *)
Definition resolved_workers (query : bytes -> bytes -> option (list u64)) (r : SpanRegistry) : gset (Z * Z) :=
  list_to_set (flat_map (fun '(t, span) =>
    if bool_decide (rs_state span = SsInitialized \/ rs_state span = SsSubscribing)
    then map (pair t) (default [] (query (rs_start_key span) (rs_end_key span))) else []) (map_to_list (sr_spans r))).

(** A worker that is activated though it drains. *)
Definition revived (r : SpanRegistry) (t rid : Z) : gset (Z * Z) :=
  match sr_spans r !! t with
  | Some s => match rs_workers s !! rid with Some w => if live (rw_state w) then ∅ else {[(t, rid)]} | None => ∅ end
  | None => ∅
  end.

(** The operations of the control plane, with the workers (a table and a region)
    that were made live on their span alone, bypassing the registry and its index:
    by the [start_worker] and [activate_worker] of the arm [ddl_discover.tick()],
    by [resolve_spans_to_regions] and by [handle_split]. *)
Inductive registry_step : SpanRegistry * gset (Z * Z) -> SpanRegistry * gset (Z * Z) -> Prop :=
| rstep_upsert r X span : registry_step (r, X) (upsert_span r span, X)
| rstep_remove r X t : registry_step (r, X) (snd (remove_span r t), X)
| rstep_add r X t rid : registry_step (r, X) (add_region_to_span r t rid, X ∖ {[(t, rid)]})
| rstep_start r X t rid : registry_step (r, X) (on_span r t (fun s => start_worker s rid), {[(t, rid)]} ∪ X)
| rstep_activate r X t rid : registry_step (r, X) (on_span r t (fun s => activate_worker s rid), revived r t rid ∪ X)
| rstep_drain r X t rid : registry_step (r, X) (on_span r t (fun s => drain_worker s rid), X)
| rstep_stop r X t rid : registry_step (r, X) (on_span r t (fun s => stop_worker s rid), X)
| rstep_checkpoint r X t fs : registry_step (r, X) (on_span r t (fun s => update_checkpoint s fs), X)
| rstep_split r X parent children : registry_step (r, X) (fst (on_region_split r parent children), X)
| rstep_handle_split r X t parent new :
    registry_step (r, X) (on_span r t (fun s => snd (handle_split s parent new)), list_to_set (map (pair t) new) ∪ X)
| rstep_reconcile r X pd : registry_step (r, X) (snd (reconcile r pd), X)
| rstep_resolve r X query : registry_step (r, X) (resolve_spans_to_regions query r, resolved_workers query r ∪ X)
| rstep_discover r X m ts : registry_step (r, X) (snd (discover_new_spans r m ts), X).

Inductive registry_reachable : SpanRegistry * gset (Z * Z) -> Prop :=
| rreach_new : registry_reachable (SpanRegistry_new, ∅)
| rreach_step x y : registry_reachable x -> registry_step x y -> registry_reachable y.

(** An operation on one span that makes no worker live but those of an exception
    keeps the index complete. *)
Lemma on_span_complete X new r t f :
  (forall s rid w, (t, rid) ∉ new -> sr_spans r !! t = Some s -> rs_workers (f s) !! rid = Some w -> live (rw_state w) = true ->
     exists w0, rs_workers s !! rid = Some w0 /\ live (rw_state w0) = true) ->
  index_complete X r -> index_complete (new ∪ X) (on_span r t f).
Proof.
  intros Hf H t' s rid w Hx Hs Hw Hl. cbn in Hs. unfold indexed; cbn.
  destruct (decide (t' = t)) as [->|Hne].
  - rewrite lookup_alter_eq in Hs. apply fmap_Some in Hs as (s0 & Hs & ->).
    destruct (Hf s0 rid w ltac:(set_solver) Hs Hw Hl) as (w0 & Hw0 & Hl0). eapply H; [set_solver|done..].
  - rewrite lookup_alter_ne in Hs by done. eapply H; [set_solver|done..].
Qed.

Lemma on_span_quiet X r t f :
  (forall s rid w, sr_spans r !! t = Some s -> rs_workers (f s) !! rid = Some w -> live (rw_state w) = true ->
     exists w0, rs_workers s !! rid = Some w0 /\ live (rw_state w0) = true) ->
  index_complete X r -> index_complete X (on_span r t f).
Proof. intros Hf H. rewrite <-(union_empty_l_L X). apply on_span_complete; [|done]. eauto. Qed.

Lemma alter_worker_live f (ws : gmap Z RegionWorker) rid rid' w :
  (forall w0, ws !! rid = Some w0 -> live (rw_state (f w0)) = true -> live (rw_state w0) = true) ->
  alter f rid ws !! rid' = Some w -> live (rw_state w) = true ->
  exists w0, ws !! rid' = Some w0 /\ live (rw_state w0) = true.
Proof.
  intros Hf Hw Hl. destruct (decide (rid' = rid)) as [->|Hne].
  - rewrite lookup_alter_eq in Hw. apply fmap_Some in Hw as (w0 & Hw & ->). eauto.
  - rewrite lookup_alter_ne in Hw by done. eauto.
Qed.

(** [handle_split] starts workers for the new regions only. *)
Lemma split_starts_lookup new rid : rid ∉ new -> forall s (acc : list Z),
  rs_workers (fst (foldl (fun '(span, news) rid =>
    match rs_workers span !! rid with
    | None => (start_worker span rid, news ++ [rid])
    | Some _ => (span, news)
    end) (s, acc) new)) !! rid = rs_workers s !! rid.
Proof.
  induction new as [|x new IH]; intros Hn s acc; [done|]. apply not_elem_of_cons in Hn as [Hne Hn]. cbn [foldl].
  destruct (rs_workers s !! x); [by apply IH|]. rewrite IH, start_worker_lookup by done. by rewrite decide_False.
Qed.

Lemma handle_split_live s parent new rid w :
  rid ∉ new -> rs_workers (snd (handle_split s parent new)) !! rid = Some w -> live (rw_state w) = true ->
  exists w0, rs_workers s !! rid = Some w0 /\ live (rw_state w0) = true.
Proof.
  intros Hn. unfold handle_split. pose proof (split_starts_lookup new rid Hn s []) as Hsame.
  destruct (foldl _ (s, []) new) as [s1 news]. cbn [fst] in Hsame. cbn [snd].
  case_match; [|rewrite Hsame; eauto].
  intros Hw Hl. eapply (alter_worker_live _ _ parent) in Hw; [|done|done]. by rewrite Hsame in Hw.
Qed.

Lemma start_workers_lookup rids : forall s rid,
  rid ∉ rids -> rs_workers (foldl start_worker s rids) !! rid = rs_workers s !! rid.
Proof.
  induction rids as [|x rids IH]; intros s rid Hn; [done|]. apply not_elem_of_cons in Hn as [Hne Hn].
  cbn [foldl]. rewrite IH, start_worker_lookup by done. by rewrite decide_False.
Qed.

Lemma resolve_complete X r query :
  index_complete X r -> index_complete (resolved_workers query r ∪ X) (resolve_spans_to_regions query r).
Proof.
  intros H t s rid w Hx Hs Hw Hl. unfold indexed. cbn in Hs |- *. rewrite lookup_fmap in Hs.
  apply fmap_Some in Hs as (s0 & Hs & ->).
  assert (((t, rid) ∉ X) /\ ((t, rid) ∉ resolved_workers query r)) as [HX Hn] by set_solver.
  enough (rs_workers s0 !! rid = Some w) as Hw0 by (by eapply H).
  rewrite <-Hw. case_bool_decide as Hst; [|done].
  destruct (query (rs_start_key s0) (rs_end_key s0)) as [ids|] eqn:Hq; [|done].
  symmetry. apply start_workers_lookup. intros Hin. apply Hn. unfold resolved_workers.
  apply elem_of_list_to_set, list_elem_of_In, in_flat_map. exists (t, s0).
  split; [by apply list_elem_of_In, elem_of_map_to_list|]. rewrite bool_decide_true by done. rewrite Hq.
  apply list_elem_of_In, list_elem_of_fmap. by exists rid.
Qed.

Lemma registry_step_complete x y : registry_step x y -> index_complete x.2 x.1 -> index_complete y.2 y.1.
Proof.
  intros Hstep H. destruct Hstep as [r X span|r X t|r X t rid|r X t rid|r X t rid|r X t rid|r X t rid|r X t fs|
    r X parent children|r X t parent new|r X pd|r X query|r X m ts]; cbn [fst snd] in *;
    auto using discover_complete, add_complete, resolve_complete.
  - apply on_span_complete; [|done]. intros s rid' w Hn _. rewrite start_worker_lookup. case_decide; [set_solver|eauto].
  - apply on_span_complete; [|done]. intros s rid' w Hn Hs Hw Hl. unfold revived in Hn. rewrite Hs in Hn.
    cbn in Hw. destruct (decide (rid' = rid)) as [->|Hne]; [|rewrite lookup_alter_ne in Hw by done; eauto].
    rewrite lookup_alter_eq in Hw. apply fmap_Some in Hw as (w0 & Hw0 & ->). exists w0. split; [done|].
    rewrite Hw0 in Hn. destruct (live (rw_state w0)); [done|set_solver].
  - apply on_span_quiet; [|done]. intros s rid' w Hs Hw Hl. by eapply alter_worker_live in Hw.
  - apply on_span_quiet; [|done]. intros s rid' w Hs Hw Hl. rewrite stop_worker_lookup in Hw. case_decide; [done|]. eauto.
  - apply on_span_quiet; [|done]. intros s rid' w Hs Hw Hl. cbn in Hw. eauto.
  - apply on_span_complete; [|done]. intros s rid w Hn _. apply handle_split_live. intros Hin. apply Hn.
    apply elem_of_list_to_set, list_elem_of_fmap. by exists rid.
Qed.

(** C34. The reverse index is complete but for the workers that bypass it.
    Whatever the control plane does (spans upserted or removed, regions added,
    workers started, activated, drained or stopped, regions split, checkpoints,
    reconciles, resolutions and table discoveries, in any order), a table is
    listed in the index for every region on which it has an initializing or
    subscribing worker, so that a split of that region finds the table; unless the
    worker was started, or activated while it drained, on its span alone and the
    region has not been added to the table since. *)
Theorem region_index_complete r bypassed t s rid w :
  registry_reachable (r, bypassed) -> (t, rid) ∉ bypassed ->
  sr_spans r !! t = Some s -> rs_workers s !! rid = Some w ->
  rw_state w = WsInitializing \/ rw_state w = WsSubscribing ->
  has_region r rid = true /\ s ∈ spans_for_region r rid.
Proof.
  intros Hr Hx Ht Hw Hst. assert (index_complete bypassed r) as Hc.
  { change (index_complete (r, bypassed).2 (r, bypassed).1). clear -Hr. generalize dependent (r, bypassed).
    intros x Hr. induction Hr; [by intros t s ????|eauto using registry_step_complete]. }
  assert (indexed r t rid) as Hi by (eapply Hc; [done..|]; by destruct Hst as [-> | ->]).
  unfold indexed, index_at in Hi. unfold has_region, spans_for_region.
  destruct (sr_region_index r !! rid) as [ts|]; cbn in Hi; [|by apply not_elem_of_nil in Hi].
  split; [done|]. apply list_elem_of_omap. by exists t.
Qed.

Lemma region_index_complete_witness :
  has_region (fst (on_region_split one_region 42 [42; 43])) 43 = true.
Proof.
  eapply (region_index_complete _ (∅ ∖ {[(7, 42)]}) 7 _ 43).
  - eapply rreach_step; [|apply rstep_split]. eapply rreach_step; [|apply rstep_add].
    eapply rreach_step; [|apply rstep_upsert]. apply rreach_new.
  - set_solver.
  - vm_compute. reflexivity.
  - vm_compute. reflexivity.
  - by left.
Defined.

(** A worker that bypasses the index is missed by a split.  The discovery of tables
    starts and activates a worker on the span of a table, as the task does for the
    regions of a new table; the region is not in the index, and its split drains no
    worker and starts none for the children. *)
Lemma discovered_region_split_missed r t s rid children :
  sr_region_index r !! rid = None -> sr_spans r !! t = Some s ->
  let r' := on_span r t (fun s => activate_worker (start_worker s rid) rid) in
  has_region r' rid = false /\ on_region_split r' rid children = (r', [])
  /\ exists s', sr_spans r' !! t = Some s'
     /\ rs_workers s' !! rid = Some {| rw_region_id := rid; rw_state := WsSubscribing |}.
Proof.
  intros Hi Hs r'. assert (sr_region_index r' !! rid = None) as Hi' by done. split_and!.
  - unfold has_region. by rewrite bool_decide_false by (rewrite Hi'; by intros []).
  - unfold on_region_split. rewrite Hi'. cbn. rewrite Hi. f_equal. subst r'. unfold on_span, sr_set_index, sr_set_spans. cbn.
    by rewrite delete_id.
  - eexists. split; [cbn; rewrite lookup_alter_eq, Hs; reflexivity|].
    cbn. by rewrite lookup_alter_eq, lookup_insert_eq.
Qed.

(** *** Discovery follows the source *)

Lemma remove_span_spans r t :
  sr_spans (snd (remove_span r t)) = delete t (sr_spans r)
  /\ sr_table_cache (snd (remove_span r t)) = sr_table_cache r.
Proof.
  unfold remove_span. destruct (sr_spans r !! t) eqn:E; cbn; [done|].
  split; [|done]. by rewrite delete_id.
Qed.

Lemma drops_spec (current : gset Z) ids : forall r,
  let r' := foldl (fun r tid => if decide (tid ∈ current) then r else drop_table r tid) r ids in
  (forall t, sr_spans r' !! t = if decide (t ∈ ids /\ t ∉ current) then None else sr_spans r !! t)
  /\ (forall t, sr_table_cache r' !! t = if decide (t ∈ ids /\ t ∉ current) then None else sr_table_cache r !! t)
  /\ sr_last_seen_ddl_job_id r' = sr_last_seen_ddl_job_id r.
Proof.
  induction ids as [|i ids IH]; intros r; cbn [foldl].
  { split_and!; [intros t; by rewrite decide_False by set_solver..|done]. }
  case_decide as Hi.
  - destruct (IH r) as (Hs & Hc & ->). split_and!; [| |done]; intros t; rewrite ?Hs, ?Hc;
      apply decide_ext; set_solver.
  - destruct (IH (drop_table r i)) as (Hs & Hc & ->).
    assert (sr_last_seen_ddl_job_id (drop_table r i) = sr_last_seen_ddl_job_id r) as ->
      by (unfold drop_table, remove_span; cbn; by destruct (sr_spans r !! i)).
    assert (sr_spans (drop_table r i) = delete i (sr_spans r)) as Es by apply remove_span_spans.
    assert (sr_table_cache (drop_table r i) = delete i (sr_table_cache r)) as Ec
      by (cbn; f_equal; apply remove_span_spans).
    split_and!; [| |done]; intros t; rewrite ?Hs, ?Hc, ?Es, ?Ec; (destruct (decide (t = i)) as [->|Hne];
      [rewrite lookup_delete_eq, (decide_True (P := i ∈ i :: ids /\ _)) by set_solver; by case_decide
      |rewrite lookup_delete_ne by done; apply decide_ext; set_solver]).
Qed.

Lemma creates_spec tables : forall r,
  let r' := foldl create_table r tables in
  (forall t, sr_spans r' !! t =
     if decide (t ∈ map fst tables) then Some (make_span_for_table t) else sr_spans r !! t)
  /\ dom (sr_table_cache r') = dom (sr_table_cache r) ∪ list_to_set (map fst tables)
  /\ sr_last_seen_ddl_job_id r' = sr_last_seen_ddl_job_id r.
Proof.
  induction tables as [|[i n] tables IH]; intros r; cbn [foldl map].
  { split_and!; [intros t; by rewrite decide_False by set_solver|set_solver|done]. }
  destruct (IH (create_table r (i, n))) as (Hs & -> & ->). split_and!; [|cbn; set_solver|done].
  intros t. rewrite Hs. cbn [create_table upsert_span sr_set_cache sr_set_spans sr_spans fst
    make_span_for_table ReplicationSpan_new rs_table_id].
  destruct (decide (t ∈ map fst tables)); [by rewrite decide_True by set_solver|].
  destruct (decide (t = i)) as [->|Hne].
  - by rewrite lookup_insert_eq, decide_True by set_solver.
  - by rewrite lookup_insert_ne, decide_False by set_solver.
Qed.

(** The table cache has the tables that have a span. *)
Definition cache_matches (r : SpanRegistry) : Prop := dom (sr_table_cache r) = dom (sr_spans r).

Lemma new_tables_ids (known : gset Z) (tables : list (Z * bytes)) :
  map fst (filter (fun t => fst t ∉ known) tables) = filter (fun t => t ∉ known) (map fst tables).
Proof.
  induction tables as [|[i n] tables IH]; [done|]. cbn [map]. rewrite !filter_cons. cbn [fst].
  case_decide; cbn [map fst]; by rewrite IH.
Qed.

Lemma discovery_spans r m tables :
  cache_matches r -> sr_last_seen_ddl_job_id r <> 0 -> sr_last_seen_ddl_job_id r < m ->
  let '(news, r') := discover_new_spans r m (Some tables) in
  news = map make_span_for_table (filter (fun t => t ∉ dom (sr_spans r)) (map fst tables))
  /\ (forall t, sr_spans r' !! t =
        if decide (t ∈ map fst tables) then Some (default (make_span_for_table t) (sr_spans r !! t)) else None)
  /\ dom (sr_table_cache r') = list_to_set (map fst tables)
  /\ sr_last_seen_ddl_job_id r' = m.
Proof.
  intros Hcm H0 Hlt. unfold discover_new_spans.
  rewrite (proj2 (Z.eqb_neq _ _) H0), (proj2 (Z.leb_gt _ _) Hlt).
  cbn [sr_set_last_seen sr_table_cache]. rewrite Hcm.
  destruct (drops_spec (list_to_set (map fst tables)) (elements (dom (sr_spans r)))
              (sr_set_last_seen r m)) as (Hs1 & Hc1 & Hl1).
  set (r1 := foldl _ _ (elements _)) in *.
  destruct (creates_spec (filter (fun t => fst t ∉ dom (sr_spans r)) tables) r1) as (Hs2 & Hd2 & Hl2).
  cbn [sr_set_last_seen sr_spans sr_table_cache] in Hs1, Hc1. rewrite new_tables_ids in Hs2, Hd2.
  split_and!; [by rewrite <-new_tables_ids, map_map| | |by rewrite Hl2, Hl1].
  - intros t. rewrite Hs2, Hs1. clear Hs1 Hs2 Hc1 Hd2.
    pose proof (elem_of_elements (dom (sr_spans r)) t) as He.
    pose proof (elem_of_list_to_set (C := gset Z) t (map fst tables)) as Hl.
    pose proof (list_elem_of_filter (fun t => t ∉ dom (sr_spans r)) (map fst tables) t) as Hf.
    destruct (sr_spans r !! t) as [s|] eqn:Et.
    + assert (t ∈ dom (sr_spans r)) by (apply elem_of_dom; eauto). repeat case_decide; tauto.
    + assert (t ∉ dom (sr_spans r)) by (by apply not_elem_of_dom). repeat case_decide; tauto.
  - rewrite Hd2. apply set_eq. intros t.
    rewrite elem_of_union, !elem_of_list_to_set, elem_of_dom, Hc1, list_elem_of_filter.
    pose proof (elem_of_elements (dom (sr_spans r)) t) as He.
    pose proof (elem_of_list_to_set (C := gset Z) t (map fst tables)) as Hl.
    assert (is_Some (sr_table_cache r !! t) <-> t ∈ dom (sr_spans r)) as Hk by (by rewrite <-Hcm, elem_of_dom).
    pose proof (@is_Some_None bytes) as Hn.
    case_decide; destruct (decide (t ∈ dom (sr_spans r))), (decide (t ∈ map fst tables)); tauto.
Qed.

(** Table discovery follows the source.  When there is a new DDL job and the
    tables can be read, the spans afterwards are exactly those of the tables of
    the source: a table that remains keeps its span with its workers and
    checkpoint, a new table gets a fresh one, which is returned, and the span of
    a dropped table is gone; the table cache again has the tables with a span. *)
Theorem discovery_follows_source r m tables news r' :
  cache_matches r -> sr_last_seen_ddl_job_id r <> 0 -> sr_last_seen_ddl_job_id r < m ->
  discover_new_spans r m (Some tables) = (news, r') ->
  dom (sr_spans r') = list_to_set (map fst tables) /\ cache_matches r'
  /\ (forall t s, sr_spans r !! t = Some s -> t ∈ map fst tables -> sr_spans r' !! t = Some s)
  /\ (forall t, sr_spans r !! t = None -> t ∈ map fst tables ->
        sr_spans r' !! t = Some (make_span_for_table t) /\ make_span_for_table t ∈ news)
  /\ length news = length (filter (fun t => t ∉ dom (sr_spans r)) (map fst tables))
  /\ sr_last_seen_ddl_job_id r' = m.
Proof.
  intros Hcm H0 Hlt E. pose proof (discovery_spans r m tables Hcm H0 Hlt) as Hd. rewrite E in Hd.
  destruct Hd as (-> & Hs & Hc & Hl).
  assert (Hdom : dom (sr_spans r') = list_to_set (map fst tables)).
  { apply set_eq. intros t. rewrite elem_of_dom, elem_of_list_to_set, Hs. case_decide; [by split|].
    split; [intros [? ?]; done|done]. }
  split_and!; [done|by unfold cache_matches; rewrite Hc, Hdom| | | |done].
  - intros t s Ht Hin. by rewrite Hs, decide_True, Ht.
  - intros t Ht Hin. rewrite Hs, decide_True, Ht by done. split; [done|].
    apply list_elem_of_fmap. exists t. split; [done|]. apply list_elem_of_filter.
    split; [by apply not_elem_of_dom|done].
  - apply length_map.
Qed.

Lemma discovery_follows_source_witness :
  let r := snd (discover_new_spans SpanRegistry_new 5 (Some [(7, []); (8, [])])) in
  dom (sr_spans (snd (discover_new_spans r 6 (Some [(8, []); (30, [])])))) = list_to_set [8; 30].
Proof.
  intros r. eapply (discovery_follows_source r 6 [(8, []); (30, [])]); [| | |apply surjective_pairing].
  - vm_compute. reflexivity.
  - vm_compute. discriminate.
  - vm_compute. reflexivity.
Defined.

(** A failed table query loses a DDL event.  The job id is recorded before
    the tables are read: when the read fails, discovery with the same newest job
    finds nothing to do, whatever the tables of the source are by then, so that
    the created or dropped tables go unnoticed until another DDL job. *)
Theorem discovery_misses_ddl r m :
  sr_last_seen_ddl_job_id r <> 0 -> sr_last_seen_ddl_job_id r < m -> 0 < m ->
  let r1 := snd (discover_new_spans r m None) in
  sr_spans r1 = sr_spans r /\ forall tables, discover_new_spans r1 m tables = ([], r1).
Proof.
  intros H0 Hlt Hm. unfold discover_new_spans at 1.
  rewrite (proj2 (Z.eqb_neq _ _) H0), (proj2 (Z.leb_gt _ _) Hlt). cbn [snd].
  split; [done|]. intros tables. unfold discover_new_spans.
  cbn [sr_set_last_seen sr_last_seen_ddl_job_id].
  rewrite (proj2 (Z.eqb_neq m 0)) by lia. by rewrite Z.leb_refl.
Qed.

Lemma discovery_misses_ddl_witness :
  let r := snd (discover_new_spans SpanRegistry_new 5 (Some [(7, [])])) in
  let r1 := snd (discover_new_spans r 6 None) in
  discover_new_spans r1 6 (Some [(7, []); (8, [])]) = ([], r1).
Proof.
  intros r r1. apply (discovery_misses_ddl r 6); [vm_compute; discriminate|vm_compute; reflexivity|lia].
Defined.
