(* ===== verification/SstBatcher.v ===== *)
(** * Buffering and ingesting replicated data

    [components/stream-ingest/src/sst_batcher.rs] (the buffer of an ingest
    worker and its flush), [direct_ingest.rs] (the ingest of one file, delete
    ranges, the cache of target regions) and [run_ingest_worker] of [task.rs]
    (one worker's event loop).

    RocksDB and the placement driver are behind the class [IngestEngine]; its
    laws ([IngestLaws]) state the documented behaviour of the file writer, of
    [IngestExternalFile] and of range deletion.  [MapEngine] is an instance.
    Column families are strings; the instant of the last flush is an integer and
    the present one an argument.

    Theorems: a worker refines the sequential application of the events it
    receives ([ingest_worker_refines]), when no event puts a key that is still
    buffered or that a buffered delete range covers; without the second
    condition a put is lost ([put_after_delete_range_lost]), without the first
    the flush fails, and what a failing flush had buffered is gone
    ([duplicate_key_loses_batch]). *)

From Stdlib Require Import ZArith Lia String.
From stdpp Require Import base numbers list gmap sets strings sorting.
From S2P Require Import Prelude.

Open Scope Z_scope.

(** ** The engine and the placement driver *)

Inductive DeleteStrategy : Type := DeleteFiles | DeleteByKey.

Class IngestEngine (E : Type) : Type := {
  (** the value of a key in a column family *)
  ie_get : E -> string -> bytes -> option bytes;
  (** the file that a writer for a column family makes of a list of pairs *)
  sst_writer : string -> list (bytes * bytes) -> option bytes;
  ingest_external_file_cf : E -> string -> bytes -> option E;
  delete_ranges_cf : E -> string -> DeleteStrategy -> bytes -> bytes -> E;
  (** the region of the target that holds a key *)
  get_region_info : bytes -> option Z
}.

Definition in_range (start_key end_key k : bytes) : bool :=
  bytes_leb start_key k && bytes_ltb k end_key.

(** The value that a list of pairs gives to a key. *)
Definition pair_get (kvs : list (bytes * bytes)) (k : bytes) : option bytes :=
  snd <$> (snd <$> list_find (fun p => fst p = k) kvs).

Definition key_lt (a b : bytes * bytes) : Prop := bytes_cmp (fst a) (fst b) = Lt.

(** The documented behaviour of the engine: a writer takes keys in strictly
    increasing order only, and a file with pairs is not empty; ingesting a file
    sets its keys; deleting whole files removes only keys of the range, deleting
    by key removes all of them. *)
Class IngestLaws (E : Type) `{IngestEngine E} : Prop := {
  writer_sorted cf kvs d : sst_writer cf kvs = Some d -> StronglySorted key_lt kvs;
  writer_nonempty cf kvs d : sst_writer cf kvs = Some d -> kvs <> [] -> d <> [];
  ingest_get e cf kvs d e' : sst_writer cf kvs = Some d -> ingest_external_file_cf e cf d = Some e' ->
    forall cf' k, ie_get e' cf' k =
      if decide (cf' = cf) then match pair_get kvs k with Some v => Some v | None => ie_get e cf' k end
      else ie_get e cf' k;
  delete_files_get e cf s t cf' k :
    ie_get (delete_ranges_cf e cf DeleteFiles s t) cf' k = ie_get e cf' k
    \/ (cf' = cf /\ in_range s t k = true /\ ie_get (delete_ranges_cf e cf DeleteFiles s t) cf' k = None);
  delete_keys_get e cf s t cf' k :
    ie_get (delete_ranges_cf e cf DeleteByKey s t) cf' k =
      if bool_decide (cf' = cf) && in_range s t k then None else ie_get e cf' k
}.

(** An engine on which nothing fails that may succeed. *)
Class Reliable (E : Type) `{IngestEngine E} : Prop := {
  writer_ok cf kvs : StronglySorted key_lt kvs -> is_Some (sst_writer cf kvs);
  ingest_ok e cf kvs d : sst_writer cf kvs = Some d -> is_Some (ingest_external_file_cf e cf d);
  region_ok k : is_Some (get_region_info k)
}.

(** ** Data *)

Record MvccKeyValue : Type := { kv_key : bytes; kv_value : bytes; kv_cf : string }.

#[export] Instance MvccKeyValue_eq_dec : EqDecision MvccKeyValue.
Proof. solve_decision. Defined.

Inductive FlushReason : Type := BufferFull | FrCheckpoint | RangeBoundary | Manual.

Record FlushResult : Type := { fr_region_id : u64; fr_ingested_bytes : u64; fr_ingested_kvs : u64 }.

Inductive flush_error : Type := SstWriterError | IngestError.

Record SstBatcher : Type := {
  kv_buffer : list MvccKeyValue;
  kv_buffer_size : u64;
  max_kv_buffer_size : u64;
  range_buffer : list (bytes * bytes * u64);
  range_buffer_size : u64;
  max_range_buffer_size : u64;
  current_start_key : bytes;
  current_end_key : bytes;
  current_region_id : u64;
  total_flushes : u64;
  total_kvs_written : u64;
  total_bytes_written : u64;
  last_flush_time : Z
}.

Definition SstBatcher_new (max_kv_buffer_size max_range_buffer_size : u64) (now : Z) : SstBatcher :=
  {| kv_buffer := []; kv_buffer_size := 0; max_kv_buffer_size := max_kv_buffer_size;
     range_buffer := []; range_buffer_size := 0; max_range_buffer_size := max_range_buffer_size;
     current_start_key := []; current_end_key := []; current_region_id := 0;
     total_flushes := 0; total_kvs_written := 0; total_bytes_written := 0; last_flush_time := now |}.

Definition elapsed_since_last_flush (b : SstBatcher) (now : Z) : u64 := Z.max 0 (now - last_flush_time b).
Definition pending_kvs (b : SstBatcher) : nat := length (kv_buffer b).

(** [update_current_range]: the new bounds. *)
Definition update_current_range (b : SstBatcher) (key : bytes) : bytes * bytes :=
  (match current_start_key b with [] => key | s => s end, key).

Definition add_kv (b : SstBatcher) (kv : MvccKeyValue) : bool * SstBatcher :=
  let size := as_u64 (kv_buffer_size b + (zlen (kv_key kv) + zlen (kv_value kv))) in
  let '(s, e) := update_current_range b (kv_key kv) in
  (max_kv_buffer_size b <=? size,
   {| kv_buffer := kv_buffer b ++ [kv]; kv_buffer_size := size; max_kv_buffer_size := max_kv_buffer_size b;
      range_buffer := range_buffer b; range_buffer_size := range_buffer_size b;
      max_range_buffer_size := max_range_buffer_size b;
      current_start_key := s; current_end_key := e; current_region_id := current_region_id b;
      total_flushes := total_flushes b; total_kvs_written := total_kvs_written b;
      total_bytes_written := total_bytes_written b; last_flush_time := last_flush_time b |}).

Definition add_delete_range (b : SstBatcher) (start_key end_key : bytes) (ts : u64) : SstBatcher :=
  {| kv_buffer := kv_buffer b; kv_buffer_size := kv_buffer_size b; max_kv_buffer_size := max_kv_buffer_size b;
     range_buffer := range_buffer b ++ [(start_key, end_key, ts)];
     range_buffer_size := as_u64 (range_buffer_size b + (zlen start_key + zlen end_key));
     max_range_buffer_size := max_range_buffer_size b;
     current_start_key := current_start_key b; current_end_key := current_end_key b;
     current_region_id := current_region_id b;
     total_flushes := total_flushes b; total_kvs_written := total_kvs_written b;
     total_bytes_written := total_bytes_written b; last_flush_time := last_flush_time b |}.

Definition set_region (b : SstBatcher) (region_id : u64) : SstBatcher :=
  {| kv_buffer := kv_buffer b; kv_buffer_size := kv_buffer_size b; max_kv_buffer_size := max_kv_buffer_size b;
     range_buffer := range_buffer b; range_buffer_size := range_buffer_size b;
     max_range_buffer_size := max_range_buffer_size b;
     current_start_key := current_start_key b; current_end_key := current_end_key b;
     current_region_id := region_id;
     total_flushes := total_flushes b; total_kvs_written := total_kvs_written b;
     total_bytes_written := total_bytes_written b; last_flush_time := last_flush_time b |}.

Definition should_flush (b : SstBatcher) (reason : FlushReason) : bool :=
  match reason with
  | BufferFull => max_kv_buffer_size b <=? kv_buffer_size b
  | FrCheckpoint | Manual => negb (bool_decide (kv_buffer b = []))
  | RangeBoundary => negb (current_region_id b =? 0) && negb (bool_decide (kv_buffer b = []))
  end.

Definition crosses_region_boundary (b : SstBatcher) (key : bytes) : bool :=
  match current_end_key b with [] => false | _ => bytes_ltb key (current_start_key b) end.

(** ** Flush *)

(** The groups of [kv_buffer.drain(..)] by column family. *)
Definition group_push (groups : gmap string (list MvccKeyValue)) (kv : MvccKeyValue)
    : gmap string (list MvccKeyValue) :=
  <[kv_cf kv := default [] (groups !! kv_cf kv) ++ [kv]]> groups.
Definition cf_groups (kvs : list MvccKeyValue) : gmap string (list MvccKeyValue) :=
  foldl group_push ∅ kvs.

(** [sort_by] on keys: a stable sort. *)
Fixpoint insert_by_key (kv : MvccKeyValue) (l : list MvccKeyValue) : list MvccKeyValue :=
  match l with
  | [] => [kv]
  | y :: l' => if bytes_leb (kv_key kv) (kv_key y) then kv :: l else y :: insert_by_key kv l'
  end.
Definition sort_by_key (l : list MvccKeyValue) : list MvccKeyValue := foldr insert_by_key [] l.

Definition to_pair (kv : MvccKeyValue) : bytes * bytes := (kv_key kv, kv_value kv).

Section Flush.
Context {E : Type} `{IngestEngine E}.

(** [DirectIngestContext::ingest_sst].  An I/O error of the temporary file is a
    failure of the ingest. *)
Definition ingest_sst (e : E) (sst_data first_key last_key : bytes) (cf : string) : res flush_error Z * E :=
  match sst_data with
  | [] => (Ok 0, e)
  | _ =>
      match get_region_info first_key with
      | None => (Err IngestError, e)
      | Some region_id =>
          match ingest_external_file_cf e cf sst_data with
          | Some e' => (Ok region_id, e')
          | None => (Err IngestError, e)
          end
      end
  end.

(** [DirectIngestContext::apply_delete_range]. *)
Definition apply_delete_range (e : E) (start_key end_key : bytes) : E :=
  foldl (fun e cf =>
      delete_ranges_cf (delete_ranges_cf e cf DeleteFiles start_key end_key) cf DeleteByKey start_key end_key)
    e ["default"; "write"; "lock"]%string.

(** One column family of a flush. *)
Definition flush_cf (e : E) (cf : string) (kvs : list MvccKeyValue) : res flush_error (Z * Z) * E :=
  let kvs := sort_by_key kvs in
  match kvs, last kvs with
  | kv :: _, Some kv' =>
      match sst_writer cf (map to_pair kvs) with
      | None => (Err SstWriterError, e)
      | Some sst_data =>
          let '(r, e) := ingest_sst e sst_data (kv_key kv) (kv_key kv' ++ [0]) cf in
          (region_id ← r; Ok (region_id, zlen sst_data), e)
      end
  | _, _ => (Panic, e)
  end.

(** The loop over the groups; an error leaves it. *)
Fixpoint flush_cfs (e : E) (groups : list (string * list MvccKeyValue)) (region_id total_bytes : u64)
    : res flush_error (Z * Z) * E :=
  match groups with
  | [] => (Ok (region_id, total_bytes), e)
  | (cf, kvs) :: groups =>
      match flush_cf e cf kvs with
      | (Ok (region_id, size), e) => flush_cfs e groups region_id (as_u64 (total_bytes + size))
      | (r, e) => (r, e)
      end
  end.

Definition drained (b : SstBatcher) : SstBatcher :=
  {| kv_buffer := []; kv_buffer_size := kv_buffer_size b; max_kv_buffer_size := max_kv_buffer_size b;
     range_buffer := range_buffer b; range_buffer_size := range_buffer_size b;
     max_range_buffer_size := max_range_buffer_size b;
     current_start_key := current_start_key b; current_end_key := current_end_key b;
     current_region_id := current_region_id b;
     total_flushes := total_flushes b; total_kvs_written := total_kvs_written b;
     total_bytes_written := total_bytes_written b; last_flush_time := last_flush_time b |}.

Definition flush (now : Z) (b : SstBatcher) (e : E) : res flush_error FlushResult * SstBatcher * E :=
  if bool_decide (kv_buffer b = []) && bool_decide (range_buffer b = [])
  then (Ok {| fr_region_id := 0; fr_ingested_bytes := 0; fr_ingested_kvs := 0 |}, b, e)
  else
    let kv_count := Z.of_nat (length (kv_buffer b)) in
    match flush_cfs e (map_to_list (cf_groups (kv_buffer b))) 0 0 with
    | (Ok (region_id, total_bytes), e) =>
        let e := foldl (fun e '(start_key, end_key, _) => apply_delete_range e start_key end_key) e (range_buffer b) in
        (Ok {| fr_region_id := region_id; fr_ingested_bytes := total_bytes; fr_ingested_kvs := kv_count |},
         {| kv_buffer := []; kv_buffer_size := 0; max_kv_buffer_size := max_kv_buffer_size b;
            range_buffer := []; range_buffer_size := 0; max_range_buffer_size := max_range_buffer_size b;
            current_start_key := current_start_key b; current_end_key := current_end_key b;
            current_region_id := current_region_id b;
            total_flushes := as_u64 (total_flushes b + 1);
            total_kvs_written := as_u64 (total_kvs_written b + kv_count);
            total_bytes_written := as_u64 (total_bytes_written b + total_bytes);
            last_flush_time := now |}, e)
    | (Err er, e) => (Err er, drained b, e)
    | (Panic, e) => (Panic, drained b, e)
    end.

(** ** The ingest worker *)

Inductive PcrEvent : Type :=
| EvKvBatch (kvs : list MvccKeyValue)
| EvDeleteRange (start_key end_key : bytes) (ts : u64)
| EvCheckpoint (resolved_ts : u64) (region_ids : list u64)
| EvSplit (split_key : bytes) (new_region_ids : list u64)
| EvSstChunk (start_key end_key data : bytes)
| EvNone.

(** An empty column family name is the default one. *)
Definition event_kv (kv : MvccKeyValue) : MvccKeyValue :=
  {| kv_key := kv_key kv; kv_value := kv_value kv;
     kv_cf := if bool_decide (kv_cf kv = EmptyString) then "default"%string else kv_cf kv |}.

Definition add_kvs (b : SstBatcher) (kvs : list MvccKeyValue) : SstBatcher :=
  foldl (fun b kv => snd (add_kv b (event_kv kv))) b kvs.

(** [let _ = batcher.flush()] *)
Definition flush_ignore (now : Z) (b : SstBatcher) (e : E) : SstBatcher * E :=
  let '(_, b, e) := flush now b e in (b, e).

(** The arm [Some(..)] of [run_ingest_worker]. *)
Definition worker_event (flush_interval_ms : u64) (now : Z) (b : SstBatcher) (e : E)
    (region_id : u64) (event : PcrEvent) : SstBatcher * E :=
  match event with
  | EvKvBatch kvs =>
      let '(b, e) :=
        if negb (current_region_id b =? region_id) && should_flush b RangeBoundary
        then flush_ignore now b e else (b, e) in
      let b := add_kvs (set_region b region_id) kvs in
      if should_flush b BufferFull
         || ((0 <? flush_interval_ms) && (flush_interval_ms <=? elapsed_since_last_flush b now))
      then flush_ignore now b e else (b, e)
  | EvDeleteRange start_key end_key ts =>
      let b := add_delete_range (set_region b region_id) start_key end_key ts in
      if max_range_buffer_size b <=? range_buffer_size b then flush_ignore now b e else (b, e)
  | _ => (b, e)
  end.

(** The idle timeout, and the end of the channel. *)
Definition worker_idle (now : Z) (b : SstBatcher) (e : E) : SstBatcher * E :=
  if (0 <? pending_kvs b)%nat then flush_ignore now b e else (b, e).

Inductive worker_input : Type :=
| WiEvent (now : Z) (region_id : u64) (event : PcrEvent)
| WiIdle (now : Z).

Definition worker_step (flush_interval_ms : u64) (be : SstBatcher * E) (i : worker_input) : SstBatcher * E :=
  let '(b, e) := be in
  match i with
  | WiEvent now region_id event => worker_event flush_interval_ms now b e region_id event
  | WiIdle now => worker_idle now b e
  end.

(** [run_ingest_worker]: the inputs until the channel closes at [close_time]. *)
Definition run_ingest_worker (flush_interval_ms : u64) (b : SstBatcher) (e : E)
    (inputs : list worker_input) (close_time : Z) : SstBatcher * E :=
  let '(b, e) := foldl (worker_step flush_interval_ms) (b, e) inputs in
  worker_idle close_time b e.

End Flush.

(** ** The reference: events applied one after the other *)

Definition View : Type := string -> bytes -> option bytes.

Definition view_put (v : View) (kv : MvccKeyValue) : View := fun cf k =>
  if decide (cf = kv_cf kv /\ k = kv_key kv) then Some (kv_value kv) else v cf k.

Definition range_cf (cf : string) : bool :=
  bool_decide (cf ∈ ["default"; "write"; "lock"]%string).

Definition view_delete (v : View) (s t : bytes) : View := fun cf k =>
  if range_cf cf && in_range s t k then None else v cf k.

Definition view_puts (v : View) (kvs : list MvccKeyValue) : View := foldl view_put v kvs.
Definition view_deletes (v : View) (ranges : list (bytes * bytes * u64)) : View :=
  foldl (fun v '(s, t, _) => view_delete v s t) v ranges.

Definition view_event (v : View) (event : PcrEvent) : View :=
  match event with
  | EvKvBatch kvs => view_puts v (map event_kv kvs)
  | EvDeleteRange s t _ => view_delete v s t
  | _ => v
  end.

Definition view_input (v : View) (i : worker_input) : View :=
  match i with WiEvent _ _ event => view_event v event | WiIdle _ => v end.
Definition view_inputs (v : View) (inputs : list worker_input) : View := foldl view_input v inputs.

(** ** Groups and sorting *)

Lemma cf_groups_lookup kvs cf :
  cf_groups kvs !! cf =
  match filter (fun kv => kv_cf kv = cf) kvs with [] => None | l => Some l end.
Proof.
  unfold cf_groups.
  assert (Hgen : forall groups, foldl group_push groups kvs !! cf =
    match default [] (groups !! cf) ++ filter (fun kv => kv_cf kv = cf) kvs with
    | [] => groups !! cf | l => Some l end).
  { induction kvs as [|kv kvs IH]; intros groups; cbn [foldl].
    - rewrite filter_nil, app_nil_r. destruct (groups !! cf) as [[|]|]; done.
    - rewrite IH. unfold group_push. rewrite filter_cons. case_decide as Hc.
      + subst cf. rewrite lookup_insert_eq. cbn [from_option]. unfold id.
        rewrite <-(assoc_L app). cbn [app]. by destruct (from_option _ _ _).
      + by rewrite lookup_insert_ne. }
  rewrite Hgen, lookup_empty. cbn. by destruct (filter _ _).
Qed.

Lemma insert_by_key_perm kv l : insert_by_key kv l ≡ₚ kv :: l.
Proof.
  induction l as [|y l IH]; cbn; [done|]. destruct (bytes_leb _ _); [done|].
  rewrite IH. apply Permutation_swap.
Qed.

Lemma sort_by_key_perm l : sort_by_key l ≡ₚ l.
Proof. induction l as [|x l IH]; cbn; [done|]. by rewrite insert_by_key_perm, IH. Qed.

Definition key_le (a b : MvccKeyValue) : Prop := bytes_leb (kv_key a) (kv_key b) = true.

Lemma insert_by_key_sorted kv l : StronglySorted key_le l -> StronglySorted key_le (insert_by_key kv l).
Proof.
  induction 1 as [|y l Hl IH Hy]; cbn; [by repeat constructor|].
  destruct (bytes_leb (kv_key kv) (kv_key y)) eqn:Hle.
  - constructor; [by constructor|]. constructor; [done|].
    eapply Forall_impl; [exact Hy|]. intros z Hz. by eapply bytes_leb_trans.
  - constructor; [done|]. rewrite insert_by_key_perm. constructor; [|done].
    unfold key_le. destruct (bytes_leb_total (kv_key kv) (kv_key y)); congruence.
Qed.

Lemma sort_by_key_sorted l : StronglySorted key_le (sort_by_key l).
Proof. induction l; cbn; [constructor|by apply insert_by_key_sorted]. Qed.

Lemma sorted_strict l :
  StronglySorted key_le l -> NoDup (map kv_key l) -> StronglySorted key_lt (map to_pair l).
Proof.
  induction 1 as [|x l Hl IH Hx]; intros Hnd; cbn; [constructor|].
  apply NoDup_cons in Hnd as [Hni Hnd]. constructor; [by apply IH|].
  apply Forall_map. rewrite Forall_forall in Hx |- *. intros y Hy. unfold key_lt; cbn.
  specialize (Hx y Hy). apply bytes_leb_lt_or_eq in Hx as [?|Heq]; [done|].
  destruct Hni. rewrite Heq. apply list_elem_of_fmap. eauto.
Qed.

Lemma strict_NoDup l : StronglySorted key_lt (map to_pair l) -> NoDup (map kv_key l).
Proof.
  induction l as [|x l IH]; cbn; intros Hs; [constructor|].
  apply StronglySorted_inv in Hs as [Hs Hx]. constructor; [|by apply IH].
  intros (y & Heq & Hy)%list_elem_of_fmap. rewrite Forall_map, Forall_forall in Hx.
  specialize (Hx y Hy). unfold key_lt in Hx; cbn in Hx. by rewrite Heq, bytes_cmp_refl in Hx.
Qed.

(** ** Views after puts *)

Definition cfkey (kv : MvccKeyValue) : string * bytes := (kv_cf kv, kv_key kv).

Lemma view_put_eq v kv : view_put v kv (kv_cf kv) (kv_key kv) = Some (kv_value kv).
Proof. unfold view_put. by rewrite decide_True. Qed.

Lemma view_put_ne v kv cf k : (cf, k) <> cfkey kv -> view_put v kv cf k = v cf k.
Proof. intros Hne. unfold view_put. rewrite decide_False; [done|]. intros [-> ->]. by apply Hne. Qed.

Lemma view_puts_notin kvs : forall v cf k, ~ (cf, k) ∈ map cfkey kvs -> view_puts v kvs cf k = v cf k.
Proof.
  induction kvs as [|kv kvs IH]; intros v cf k Hn; cbn; [done|].
  cbn in Hn. apply not_elem_of_cons in Hn as [Hne Hn].
  fold (view_puts (view_put v kv) kvs). by rewrite IH, view_put_ne.
Qed.

Lemma view_puts_in kvs : forall v kv, NoDup (map cfkey kvs) -> kv ∈ kvs ->
  view_puts v kvs (kv_cf kv) (kv_key kv) = Some (kv_value kv).
Proof.
  induction kvs as [|x kvs IH]; intros v kv Hnd Hin; [by apply not_elem_of_nil in Hin|].
  cbn in Hnd |- *. apply NoDup_cons in Hnd as [Hni Hnd]. fold (view_puts (view_put v x) kvs).
  apply elem_of_cons in Hin as [->|Hin]; [|by apply IH].
  rewrite view_puts_notin by done. apply view_put_eq.
Qed.

(** The value of a key in a view depends on the view at this key only. *)
Lemma view_puts_local kvs : forall v v' cf k, v cf k = v' cf k -> view_puts v kvs cf k = view_puts v' kvs cf k.
Proof.
  induction kvs as [|kv kvs IH]; intros v v' cf k Heq; cbn; [done|].
  apply IH. unfold view_put. by case_decide.
Qed.

Lemma view_deletes_local rs : forall v v' cf k, v cf k = v' cf k -> view_deletes v rs cf k = view_deletes v' rs cf k.
Proof.
  induction rs as [|[[s t] ts] rs IH]; intros v v' cf k Heq; cbn; [done|].
  apply IH. unfold view_delete. by destruct (_ && _).
Qed.

Lemma view_event_local ev v v' cf k : v cf k = v' cf k -> view_event v ev cf k = view_event v' ev cf k.
Proof.
  intros Heq. destruct ev; cbn; try done; [by apply view_puts_local|].
  unfold view_delete. by destruct (_ && _).
Qed.

Lemma pair_get_in l kv :
  NoDup (map kv_key l) -> kv ∈ l -> pair_get (map to_pair l) (kv_key kv) = Some (kv_value kv).
Proof.
  unfold pair_get. induction l as [|x l IH]; intros Hnd Hin; [by apply not_elem_of_nil in Hin|].
  cbn in Hnd |- *. apply NoDup_cons in Hnd as [Hni Hnd].
  apply elem_of_cons in Hin as [->|Hin]; [by rewrite decide_True|].
  rewrite decide_False.
  - specialize (IH Hnd Hin). by destruct (list_find _ _) as [[]|].
  - intros Heq. apply Hni. rewrite Heq. by apply list_elem_of_fmap_2.
Qed.

Lemma pair_get_notin l k : ~ k ∈ map kv_key l -> pair_get (map to_pair l) k = None.
Proof.
  unfold pair_get. induction l as [|x l IH]; intros Hni; [done|]. cbn in Hni |- *.
  apply not_elem_of_cons in Hni as [Hne Hni]. rewrite decide_False by done.
  specialize (IH Hni). by destruct (list_find _ _) as [[]|].
Qed.

Lemma cfkey_NoDup kvs :
  NoDup (map cfkey kvs) <-> forall cf, NoDup (map kv_key (filter (fun kv => kv_cf kv = cf) kvs)).
Proof.
  induction kvs as [|kv kvs IH]; cbn [map]; [split; [intros _ cf; constructor|constructor]|].
  rewrite NoDup_cons, IH. setoid_rewrite filter_cons. split.
  - intros [Hni Hnd] cf. case_decide as Hc; [|done]. cbn [map]. constructor; [|done].
    intros (y & Hk & Hy)%list_elem_of_fmap. apply list_elem_of_filter in Hy as [Hcf Hy].
    apply Hni. apply list_elem_of_fmap. exists y. split; [|done]. unfold cfkey. congruence.
  - intros Hall. split.
    + intros (y & Hk & Hy)%list_elem_of_fmap. injection Hk as Hcf Hk.
      specialize (Hall (kv_cf kv)). rewrite decide_True in Hall by done. cbn in Hall.
      apply NoDup_cons in Hall as [Hni _]. apply Hni, list_elem_of_fmap. exists y.
      split; [done|]. by apply list_elem_of_filter.
    + intros cf. specialize (Hall cf). case_decide; [|done]. cbn in Hall. by apply NoDup_cons in Hall as [_ Hall].
Qed.

(** ** What a flush does *)

Section FlushSpec.
Context {E : Type} `{IngestEngine E, !IngestLaws E}.

Lemma sorted_keys_perm kvs : map kv_key (sort_by_key kvs) ≡ₚ map kv_key kvs.
Proof. apply fmap_Permutation, sort_by_key_perm. Qed.

Lemma flush_cf_ok e cf kvs x e' :
  flush_cf e cf kvs = (Ok x, e') ->
  NoDup (map kv_key kvs)
  /\ (forall kv, kv ∈ kvs -> ie_get e' cf (kv_key kv) = Some (kv_value kv))
  /\ (forall cf' k, cf' <> cf \/ ~ k ∈ map kv_key kvs -> ie_get e' cf' k = ie_get e cf' k).
Proof.
  unfold flush_cf, ingest_sst. intros Hf. pose proof (sort_by_key_perm kvs) as Hp.
  destruct (sort_by_key kvs) as [|kv0 l] eqn:Es; [done|]. rewrite <-Es in Hp, Hf.
  destruct (last (sort_by_key kvs)) as [kv'|]; [|done].
  destruct (sst_writer cf _) as [d|] eqn:Ew; [|done].
  assert (d <> []) as Hd by (apply (writer_nonempty _ _ _ Ew); by rewrite Es).
  destruct d as [|d0 d]; [done|].
  destruct (get_region_info _); [|done]. destruct (ingest_external_file_cf _ _ _) eqn:Ei; [|done].
  injection Hf as _ <-. pose proof (ingest_get _ _ _ _ _ Ew Ei) as Hget.
  assert (NoDup (map kv_key (sort_by_key kvs))) as Hnd by (eapply strict_NoDup, writer_sorted, Ew).
  split_and!.
  - by rewrite <-sorted_keys_perm.
  - intros kv Hin. rewrite Hget, decide_True by done.
    rewrite (pair_get_in _ kv); [done|done|]. by rewrite Hp.
  - intros cf' k Hor. rewrite Hget. case_decide as Hc; [|done].
    rewrite pair_get_notin; [done|]. rewrite sorted_keys_perm. by destruct Hor.
Qed.

Lemma flush_cfs_ok groups : forall e r t x e',
  NoDup (groups.*1) -> flush_cfs e groups r t = (Ok x, e') ->
  (forall cf kvs, (cf, kvs) ∈ groups -> NoDup (map kv_key kvs))
  /\ (forall cf kvs kv, (cf, kvs) ∈ groups -> kv ∈ kvs -> ie_get e' cf (kv_key kv) = Some (kv_value kv))
  /\ (forall cf k, (forall kvs, (cf, kvs) ∈ groups -> ~ k ∈ map kv_key kvs) -> ie_get e' cf k = ie_get e cf k).
Proof.
  induction groups as [|[cf0 kvs0] groups IH]; intros e r t x e' Hnd Hf; cbn in Hf.
  { injection Hf as _ <-. split_and!; [set_solver|set_solver|done]. }
  destruct (flush_cf e cf0 kvs0) as [[[r1 t1]| |] e1] eqn:E1; try done.
  cbn in Hnd. apply NoDup_cons in Hnd as [Hni Hnd].
  apply flush_cf_ok in E1 as (Hnd1 & Hin1 & Hout1). destruct (IH _ _ _ _ _ Hnd Hf) as (Hnd2 & Hin2 & Hout2).
  assert (Hcf : forall kvs, ~ (cf0, kvs) ∈ groups).
  { intros kvs Hin. apply Hni, list_elem_of_fmap. by exists (cf0, kvs). }
  split_and!.
  - intros cf kvs [[= -> ->]|Hin]%elem_of_cons; [done|by eapply Hnd2].
  - intros cf kvs kv [[= -> ->]|Hin]%elem_of_cons Hkv; [|by eapply Hin2].
    rewrite Hout2 by (intros kvs Hin; by apply Hcf in Hin). by apply Hin1.
  - intros cf k Hk. rewrite Hout2 by (intros kvs Hin; apply Hk; by apply list_elem_of_further).
    apply Hout1. destruct (decide (cf = cf0)) as [->|]; [|by left]. right. apply Hk, list_elem_of_here.
Qed.

Lemma groups_elem buf cf kvs :
  (cf, kvs) ∈ map_to_list (cf_groups buf) <-> kvs = filter (fun kv => kv_cf kv = cf) buf /\ kvs <> [].
Proof.
  rewrite elem_of_map_to_list, cf_groups_lookup. destruct (filter _ _); naive_solver.
Qed.

Lemma flush_groups_view e buf r t x e' :
  flush_cfs e (map_to_list (cf_groups buf)) r t = (Ok x, e') ->
  NoDup (map cfkey buf) /\ forall cf k, ie_get e' cf k = view_puts (ie_get e) buf cf k.
Proof.
  intros Hf. apply flush_cfs_ok in Hf as (Hnd & Hin & Hout); [|apply NoDup_fst_map_to_list].
  assert (NoDup (map cfkey buf)) as Hn.
  { apply cfkey_NoDup. intros cf. destruct (filter (fun kv => kv_cf kv = cf) buf) eqn:Ef; [constructor|].
    rewrite <-Ef. apply (Hnd cf), groups_elem. split; [done|by rewrite Ef]. }
  split; [done|]. intros cf k. destruct (decide ((cf, k) ∈ map cfkey buf)) as [Hc|Hc].
  - apply list_elem_of_fmap in Hc as (kv & [= -> ->] & Hkv). rewrite view_puts_in by done.
    eapply Hin; [|].
    + apply groups_elem. split; [done|]. apply elem_of_not_nil with kv. by apply list_elem_of_filter.
    + by apply list_elem_of_filter.
  - rewrite view_puts_notin by done. apply Hout. intros kvs [-> _]%groups_elem Hk.
    apply list_elem_of_fmap in Hk as (kv & -> & Hkv). apply list_elem_of_filter in Hkv as [<- Hkv].
    apply Hc, list_elem_of_fmap. by exists kv.
Qed.

Lemma apply_delete_range_view e s t cf k :
  ie_get (apply_delete_range e s t) cf k = view_delete (ie_get e) s t cf k.
Proof.
  assert (Hone : forall cf0 e, ie_get (delete_ranges_cf (delete_ranges_cf e cf0 DeleteFiles s t) cf0 DeleteByKey s t) cf k
      = if bool_decide (cf = cf0) && in_range s t k then None else ie_get e cf k).
  { intros cf0 e0. rewrite delete_keys_get. destruct (bool_decide (cf = cf0) && in_range s t k) eqn:Hc; [done|].
    destruct (delete_files_get e0 cf0 s t cf k) as [->|(-> & Hr & _)]; [done|].
    by rewrite Hr, bool_decide_true in Hc. }
  unfold apply_delete_range, view_delete, range_cf. cbn [foldl]. rewrite !Hone.
  destruct (in_range s t k); rewrite ?andb_false_r, ?andb_true_r; [|done].
  repeat case_bool_decide; set_solver.
Qed.

Lemma apply_delete_ranges_view rs : forall e cf k,
  ie_get (foldl (fun e '(s, t, _) => apply_delete_range e s t) e rs) cf k = view_deletes (ie_get e) rs cf k.
Proof.
  induction rs as [|[[s t] ts] rs IH]; intros e cf k; cbn [foldl view_deletes]; [done|].
  rewrite IH. apply view_deletes_local, apply_delete_range_view.
Qed.

(** What the engine will show once the buffers are flushed. *)
Definition pending_view (b : SstBatcher) (e : E) : View :=
  view_deletes (view_puts (ie_get e) (kv_buffer b)) (range_buffer b).

Lemma flush_ok_view now b e r b' e' :
  flush now b e = (Ok r, b', e') ->
  kv_buffer b' = [] /\ range_buffer b' = [] /\ forall cf k, ie_get e' cf k = pending_view b e cf k.
Proof.
  unfold flush, pending_view. intros Hf.
  destruct (bool_decide (kv_buffer b = []) && bool_decide (range_buffer b = [])) eqn:Hb.
  - apply andb_true_iff in Hb as [Hk Hr]. apply bool_decide_eq_true in Hk, Hr.
    injection Hf as _ <- <-. by rewrite Hk, Hr.
  - destruct (flush_cfs _ _ _ _) as [[[r1 t1]| |] e1] eqn:E1; try done.
    injection Hf as _ <- <-. split_and!; [done|done|]. intros cf k. rewrite apply_delete_ranges_view.
    apply view_deletes_local. by apply flush_groups_view in E1 as [_ ->].
Qed.

(** *** A reliable engine takes every group with distinct keys *)

Section FlushReliable.
Context `{!Reliable E}.

Lemma flush_cf_reliable e cf kvs :
  kvs <> [] -> NoDup (map kv_key kvs) -> exists x e', flush_cf e cf kvs = (Ok x, e').
Proof.
  intros Hne Hnd. unfold flush_cf, ingest_sst. pose proof (sort_by_key_perm kvs) as Hp.
  assert (StronglySorted key_lt (map to_pair (sort_by_key kvs))) as Hss
    by (apply sorted_strict; [apply sort_by_key_sorted|by rewrite sorted_keys_perm]).
  destruct (sort_by_key kvs) as [|kv l] eqn:Es; [apply Permutation_nil_l in Hp; congruence|].
  destruct (last (kv :: l)) eqn:El; [|by apply last_None in El].
  destruct (writer_ok cf _ Hss) as [d Hd]. rewrite Hd.
  destruct d as [|d0 d]; [by eauto|]. destruct (region_ok (kv_key kv)) as [rid ->].
  destruct (ingest_ok e cf _ _ Hd) as [e' ->]. cbn. eauto.
Qed.

Lemma flush_cfs_reliable groups : forall e r t,
  (forall cf kvs, (cf, kvs) ∈ groups -> kvs <> [] /\ NoDup (map kv_key kvs)) ->
  exists x e', flush_cfs e groups r t = (Ok x, e').
Proof.
  induction groups as [|[cf kvs] groups IH]; intros e r t Hg; cbn; [by eauto|].
  destruct (Hg cf kvs (list_elem_of_here _ _)) as [Hne Hnd].
  destruct (flush_cf_reliable e cf kvs Hne Hnd) as ([r1 t1] & e1 & ->).
  apply IH. intros cf' kvs' Hin. apply (Hg cf'). by apply list_elem_of_further.
Qed.

Lemma flush_reliable now b e :
  NoDup (map cfkey (kv_buffer b)) -> exists r b' e', flush now b e = (Ok r, b', e').
Proof.
  intros Hnd. unfold flush. destruct (_ && _); [by eauto|].
  destruct (flush_cfs_reliable (map_to_list (cf_groups (kv_buffer b))) e 0 0) as ([r t] & e' & ->); [|by eauto].
  intros cf kvs [-> Hne]%groups_elem. split; [done|]. by apply cfkey_NoDup.
Qed.

(** ** The worker against the reference *)

(** A batch of pairs that the worker can buffer: none of its keys is buffered
    already or occurs twice, or is in a buffered delete range. *)
Definition admissible_kvs (b : SstBatcher) (kvs : list MvccKeyValue) : bool :=
  bool_decide (NoDup (map cfkey (kv_buffer b ++ map event_kv kvs)))
  && forallb (fun kv => forallb (fun '(s, t, _) => negb (in_range s t (kv_key kv))) (range_buffer b)) kvs.

(** A change of region flushes first. *)
Definition admissible (b : SstBatcher) (i : worker_input) : bool :=
  match i with
  | WiEvent _ region_id (EvKvBatch kvs) =>
      if negb (current_region_id b =? region_id) && should_flush b RangeBoundary
      then bool_decide (NoDup (map cfkey (map event_kv kvs)))
      else admissible_kvs b kvs
  | _ => true
  end.

Fixpoint admissible_run (fi : u64) (be : SstBatcher * E) (inputs : list worker_input) : bool :=
  match inputs with
  | [] => true
  | i :: inputs => admissible (fst be) i && admissible_run fi (worker_step fi be i) inputs
  end.

(** The worker's state stands for a view. *)
Definition stands_for (v : View) (be : SstBatcher * E) : Prop :=
  NoDup (map cfkey (kv_buffer (fst be))) /\ forall cf k, pending_view (fst be) (snd be) cf k = v cf k.

Lemma flush_stands v now b e :
  stands_for v (b, e) -> let be := flush_ignore now b e in
  stands_for v be /\ kv_buffer (fst be) = [] /\ range_buffer (fst be) = []
  /\ forall cf k, ie_get (snd be) cf k = v cf k.
Proof.
  intros [Hnd Hv]. unfold flush_ignore. destruct (flush_reliable now b e Hnd) as (r & b' & e' & Hf).
  rewrite Hf. apply flush_ok_view in Hf as (Hk & Hr & Hg). cbn [fst snd] in *. unfold stands_for; cbn [fst snd].
  split_and!; [by rewrite Hk; constructor| |done|done|].
  - intros cf k. unfold pending_view at 1. rewrite Hk, Hr. cbn. by rewrite Hg.
  - intros cf k. by rewrite Hg.
Qed.

Lemma add_kvs_buffers kvs : forall b,
  kv_buffer (add_kvs b kvs) = kv_buffer b ++ map event_kv kvs /\ range_buffer (add_kvs b kvs) = range_buffer b.
Proof.
  induction kvs as [|kv kvs IH]; intros b; cbn [add_kvs foldl map].
  - by rewrite app_nil_r.
  - fold (add_kvs (snd (add_kv b (event_kv kv))) kvs).
    destruct (IH (snd (add_kv b (event_kv kv)))) as [-> ->]. cbn. by rewrite <-(assoc_L app).
Qed.

(** Puts of keys outside the ranges commute with the deletions. *)
Lemma puts_deletes_commute kvs rs : forall v cf k,
  (forall kv s t ts, kv ∈ kvs -> (s, t, ts) ∈ rs -> in_range s t (kv_key kv) = false) ->
  view_deletes (view_puts v kvs) rs cf k = view_puts (view_deletes v rs) kvs cf k.
Proof.
  induction rs as [|[[s t] ts] rs IH]; intros v cf k Hout; cbn [view_deletes foldl]; [done|].
  fold (view_deletes (view_delete (view_puts v kvs) s t) rs) (view_deletes (view_delete v s t) rs).
  rewrite <-IH by (intros kv s' t' ts' Hkv Hr; eapply Hout; [done|by apply list_elem_of_further]).
  apply view_deletes_local. unfold view_delete at 1. destruct (range_cf cf && in_range s t k) eqn:Hc.
  - symmetry. rewrite view_puts_notin; [unfold view_delete; by rewrite Hc|].
    intros (kv & [= -> ->] & Hkv)%list_elem_of_fmap. apply andb_true_iff in Hc as [_ Hc].
    erewrite Hout in Hc; [done|done|apply list_elem_of_here].
  - apply view_puts_local. unfold view_delete. by rewrite Hc.
Qed.

Lemma admissible_kvs_spec b kvs :
  admissible_kvs b kvs = true ->
  NoDup (map cfkey (kv_buffer b ++ map event_kv kvs))
  /\ forall kv s t ts, kv ∈ map event_kv kvs -> (s, t, ts) ∈ range_buffer b -> in_range s t (kv_key kv) = false.
Proof.
  unfold admissible_kvs. intros [Hn Hf]%andb_true_iff. apply bool_decide_eq_true in Hn. split; [done|].
  intros kv s t ts (kv0 & -> & Hkv)%list_elem_of_fmap Hr. cbn.
  apply list_elem_of_In in Hkv, Hr. pose proof (proj1 (forallb_forall _ _) Hf kv0 Hkv) as Hf1.
  pose proof (proj1 (forallb_forall _ _) Hf1 _ Hr) as Hf2. by apply negb_true_iff in Hf2.
Qed.

Lemma puts_stand v b e kvs :
  admissible_kvs b kvs = true -> stands_for v (b, e) ->
  stands_for (view_puts v (map event_kv kvs)) (add_kvs b kvs, e).
Proof.
  intros [Hn Hr]%admissible_kvs_spec [_ Hv]. destruct (add_kvs_buffers kvs b) as [Hk Hrb].
  split; cbn [fst snd] in *; [by rewrite Hk|]. intros cf k. unfold pending_view in *. rewrite Hk, Hrb.
  unfold view_puts at 1. rewrite foldl_app. fold (view_puts (ie_get e) (kv_buffer b)).
  fold (view_puts (view_puts (ie_get e) (kv_buffer b)) (map event_kv kvs)).
  rewrite puts_deletes_commute by done. by apply view_puts_local.
Qed.

Lemma delete_stands v b e s t ts :
  stands_for v (b, e) -> stands_for (view_delete v s t) (add_delete_range b s t ts, e).
Proof.
  intros [Hnd Hv]. split; cbn [fst snd] in *; [done|]. intros cf k. unfold pending_view in *. cbn.
  unfold view_deletes. rewrite foldl_app. cbn. unfold view_delete. destruct (_ && _); [done|]. apply Hv.
Qed.

Lemma set_region_stands v b e rid : stands_for v (b, e) -> stands_for v (set_region b rid, e).
Proof. done. Qed.

Lemma admissible_flushed b kvs :
  kv_buffer b = [] -> range_buffer b = [] -> NoDup (map cfkey (map event_kv kvs)) ->
  admissible_kvs b kvs = true.
Proof.
  intros Hk Hr Hn. unfold admissible_kvs. rewrite Hk, Hr. cbn [app forallb].
  rewrite bool_decide_true by done. cbn [andb]. clear Hn. induction kvs; [done|]. by cbn.
Qed.

Lemma worker_event_stands fi now v b e rid ev :
  admissible b (WiEvent now rid ev) = true -> stands_for v (b, e) ->
  stands_for (view_event v ev) (worker_event fi now b e rid ev).
Proof.
  intros Ha Hs. destruct ev as [kvs|s t ts| | | |]; try done; cbn [worker_event view_event admissible] in *.
  - assert (exists b1 e1, (if negb (current_region_id b =? rid) && should_flush b RangeBoundary
        then flush_ignore now b e else (b, e)) = (b1, e1)
      /\ stands_for v (b1, e1) /\ admissible_kvs b1 kvs = true) as (b1 & e1 & -> & Hs1 & Ha1).
    { destruct (negb (current_region_id b =? rid) && should_flush b RangeBoundary); [|by exists b, e].
      destruct (flush_stands v now b e Hs) as (Hf & Hk & Hr & _). destruct (flush_ignore now b e) as [b1 e1].
      exists b1, e1. split_and!; [done|done|]. apply admissible_flushed; [done|done|].
      by apply bool_decide_eq_true in Ha. }
    assert (stands_for (view_puts v (map event_kv kvs)) (add_kvs (set_region b1 rid) kvs, e1)) as Hs2
      by (by apply puts_stand).
    destruct (_ || _); [|done]. exact (proj1 (flush_stands _ _ _ _ Hs2)).
  - assert (stands_for (view_delete v s t) (add_delete_range (set_region b rid) s t ts, e)) as Hs2
      by (by apply delete_stands).
    destruct (_ <=? _); [|done]. exact (proj1 (flush_stands _ _ _ _ Hs2)).
Qed.

Lemma worker_idle_stands now v b e : stands_for v (b, e) -> stands_for v (worker_idle now b e).
Proof. intros Hs. unfold worker_idle. destruct (_ <? _)%nat; [|done]. exact (proj1 (flush_stands _ _ _ _ Hs)). Qed.

Lemma worker_run_stands fi inputs : forall v be,
  admissible_run fi be inputs = true -> stands_for v be ->
  stands_for (view_inputs v inputs) (foldl (worker_step fi) be inputs).
Proof.
  induction inputs as [|i inputs IH]; intros v [b e] Ha Hs; cbn [foldl]; [done|].
  cbn [admissible_run fst] in Ha. apply andb_true_iff in Ha as [Hi Ha].
  unfold view_inputs; cbn [foldl]. apply IH; [done|].
  destruct i as [now rid ev|now]; [by apply worker_event_stands|by apply worker_idle_stands].
Qed.

End FlushReliable.

End FlushSpec.

(** ** Theorems *)

Lemma view_deletes_outside rs : forall v cf k,
  (forall s t ts, (s, t, ts) ∈ rs -> in_range s t k = false) -> view_deletes v rs cf k = v cf k.
Proof.
  induction rs as [|[[s t] ts] rs IH]; intros v cf k Hk; [done|]. unfold view_deletes. cbn [foldl].
  fold (view_deletes (view_delete v s t) rs). rewrite IH; [|intros s' t' ts' Hin; apply (Hk s' t' ts'); by right].
  unfold view_delete. by rewrite (Hk s t ts), andb_false_r by by left.
Qed.

(** C27. An ingest worker refines the sequential application of its events.  The
    worker buffers pairs and delete ranges, flushes them grouped by column
    family in sorted files on a change of region, a full buffer, a timer or
    idleness, and on exit.  On an engine that does not fail, and as long as no
    event puts a key that is still buffered or that a buffered delete range
    covers, the engine shows, when the worker has ended, in every column family
    exactly what applying the events one by one gives, except for keys in delete
    ranges that are still buffered then.  There are none if pairs were buffered
    when the worker ended, since they are flushed together. *)
Theorem ingest_worker_refines {E : Type} `{IngestEngine E, !IngestLaws E, !Reliable E}
    (flush_interval_ms : u64) (b : SstBatcher) (e : E) (inputs : list worker_input) (close_time : Z) :
  kv_buffer b = [] -> range_buffer b = [] -> admissible_run flush_interval_ms (b, e) inputs = true ->
  let last := fst (foldl (worker_step flush_interval_ms) (b, e) inputs) in
  let '(b', e') := run_ingest_worker flush_interval_ms b e inputs close_time in
  kv_buffer b' = [] /\ (kv_buffer last <> [] -> range_buffer b' = [])
  /\ forall cf k, (forall s t ts, (s, t, ts) ∈ range_buffer b' -> in_range s t k = false) ->
       ie_get e' cf k = view_inputs (ie_get e) inputs cf k.
Proof.
  intros Hk Hr Ha last. unfold run_ingest_worker.
  assert (stands_for (ie_get e) (b, e)) as Hs0.
  { split; cbn [fst snd]; [by rewrite Hk; constructor|]. intros. unfold pending_view. by rewrite Hk, Hr. }
  pose proof (worker_run_stands flush_interval_ms inputs _ _ Ha Hs0) as Hs. subst last.
  destruct (foldl _ _ _) as [b1 e1]. cbn [fst]. unfold worker_idle, pending_kvs.
  destruct (kv_buffer b1) as [|kv l] eqn:Hb1; cbn.
  - split_and!; [done|done|]. intros cf k Hout. destruct Hs as [_ Hs]. cbn [fst snd] in Hs.
    rewrite <-Hs. unfold pending_view. rewrite Hb1. symmetry. by apply view_deletes_outside.
  - destruct (flush_stands _ close_time b1 e1 Hs) as (_ & Hk' & Hr' & Hg).
    destruct (flush_ignore close_time b1 e1) as [b' e']. cbn in *. split_and!; [done|done|]. intros cf k _. apply Hg.
Qed.

(** ** An engine: a map from column families and keys to values *)

Abbreviation MapEngine := (gmap (string * bytes) bytes).

#[export] Instance key_lt_dec : RelDecision key_lt.
Proof. intros a b. unfold key_lt. apply _. Defined.

Definition map_ingest (e : MapEngine) (cf : string) (kvs : list (bytes * bytes)) : MapEngine :=
  foldr (fun p e => <[(cf, fst p) := snd p]> e) e kvs.

#[export] Instance map_engine : IngestEngine MapEngine := {|
  ie_get e cf k := e !! (cf, k);
  sst_writer cf kvs := if decide (StronglySorted key_lt kvs) then Some [Zpos (encode kvs)] else None;
  ingest_external_file_cf e cf d :=
    match d with [Zpos p] => map_ingest e cf <$> decode p | _ => None end;
  delete_ranges_cf e cf strategy s t :=
    match strategy with
    | DeleteFiles => e
    | DeleteByKey => filter (fun x => ~ (fst (fst x) = cf /\ in_range s t (snd (fst x)) = true)) e
    end;
  get_region_info _ := Some 1
|}.

Lemma pair_get_cons k0 v0 kvs k :
  pair_get ((k0, v0) :: kvs) k = if decide (k0 = k) then Some v0 else pair_get kvs k.
Proof. unfold pair_get. cbn. case_decide; [done|]. by destruct (list_find _ kvs) as [[]|]. Qed.

Lemma map_ingest_get kvs e cf cf' k :
  map_ingest e cf kvs !! (cf', k) =
  if decide (cf' = cf) then match pair_get kvs k with Some v => Some v | None => e !! (cf', k) end
  else e !! (cf', k).
Proof.
  induction kvs as [|[k0 v0] kvs IH]; [cbn; by case_decide|]. rewrite pair_get_cons.
  change (map_ingest e cf ((k0, v0) :: kvs)) with (<[(cf, k0) := v0]> (map_ingest e cf kvs)).
  destruct (decide ((cf', k) = (cf, k0))) as [Heq|Hne].
  - injection Heq as -> ->. by rewrite lookup_insert_eq, !decide_True.
  - rewrite lookup_insert_ne, IH by congruence. case_decide; [|done]. subst cf'.
    by rewrite decide_False by congruence.
Qed.

#[export] Instance map_engine_laws : IngestLaws MapEngine.
Proof.
  split; cbn.
  - intros cf kvs d. by case_decide.
  - intros cf kvs d. case_decide; [|done]. by intros [= <-].
  - intros e cf kvs d e'. case_decide; [|done]. intros [= <-]. rewrite decode_encode. cbn.
    intros [= <-] cf' k. apply map_ingest_get.
  - intros e cf s t cf' k. by left.
  - intros e cf s t cf' k. destruct (bool_decide (cf' = cf) && in_range s t k) eqn:Hc.
    + apply map_lookup_filter_None. right. intros v _ Hn. apply Hn. cbn.
      apply andb_true_iff in Hc as [Hc ?]. by apply bool_decide_eq_true in Hc.
    + destruct (e !! (cf', k)) eqn:Hk.
      * apply map_lookup_filter_Some. split; [done|]. cbn. intros [-> Hr].
        by rewrite bool_decide_true, Hr in Hc.
      * apply map_lookup_filter_None. by left.
Qed.

#[export] Instance map_engine_reliable : Reliable MapEngine.
Proof.
  split; cbn.
  - intros cf kvs Hs. by rewrite decide_True.
  - intros e cf kvs d. case_decide; [|done]. intros [= <-]. rewrite decode_encode. by eexists.
  - intros k. by eexists.
Qed.

(** Two batches of different regions and a delete range. *)
Definition example_kv (k v : Z) : MvccKeyValue := {| kv_key := [k]; kv_value := [v]; kv_cf := "write" |}.
Definition example_inputs : list worker_input :=
  [WiEvent 0 1 (EvKvBatch [example_kv 7 70; example_kv 3 30]);
   WiEvent 1 1 (EvDeleteRange [3] [5] 9);
   WiEvent 2 2 (EvKvBatch [example_kv 4 40]);
   WiIdle 9].

Lemma ingest_worker_refines_witness :
  let e := snd (run_ingest_worker (E := MapEngine) 1000 (SstBatcher_new 1000 1000 0) ∅ example_inputs 20) in
  ie_get e "write" [7] = Some [70] /\ ie_get e "write" [3] = None /\ ie_get e "write" [4] = Some [40].
Proof.
  intros e. subst e.
  assert (admissible_run 1000 (SstBatcher_new 1000 1000 0, (∅ : MapEngine)) example_inputs = true) as Ha
    by (vm_compute; reflexivity).
  pose proof (ingest_worker_refines (E := MapEngine) 1000 (SstBatcher_new 1000 1000 0) ∅ example_inputs 20
    eq_refl eq_refl Ha) as H.
  assert (range_buffer (fst (run_ingest_worker (E := MapEngine) 1000 (SstBatcher_new 1000 1000 0) ∅ example_inputs 20)) = [])
    as Hr by (vm_compute; reflexivity).
  cbv zeta in H. destruct (run_ingest_worker _ _ _ _ _) as [b' e']. cbn [fst snd] in *. destruct H as (_ & _ & H).
  split_and!; (etransitivity; [apply H; intros s t ts; rewrite Hr; by intros ?%not_elem_of_nil|vm_compute; reflexivity]).
Defined.

(** ** What is lost *)

Section Losses.
Context {E : Type} `{IngestEngine E, !IngestLaws E}.

Lemma flush_cf_cases e cf kvs :
  kvs <> [] -> (exists x e', flush_cf e cf kvs = (Ok x, e')) \/ (exists er, flush_cf e cf kvs = (Err er, e)).
Proof.
  intros Hne. unfold flush_cf, ingest_sst. pose proof (sort_by_key_perm kvs) as Hp.
  destruct (sort_by_key kvs) as [|kv l] eqn:Es; [apply Permutation_nil_l in Hp; congruence|].
  destruct (last (kv :: l)) eqn:El; [|by apply last_None in El].
  destruct (sst_writer _ _) as [[|d0 d]|]; [by eauto| |by eauto].
  destruct (get_region_info _); [|by eauto]. destruct (ingest_external_file_cf _ _ _); cbn; eauto.
Qed.

Lemma flush_cfs_duplicate cf0 kvs0 groups : forall e r t,
  NoDup (groups.*1) -> (forall cf kvs, (cf, kvs) ∈ groups -> kvs <> []) ->
  (cf0, kvs0) ∈ groups -> ~ NoDup (map kv_key kvs0) ->
  exists er e', flush_cfs e groups r t = (Err er, e') /\ forall k, ie_get e' cf0 k = ie_get e cf0 k.
Proof.
  induction groups as [|[cf kvs] groups IH]; intros e r t Hnd Hne Hin Hdup; [by apply not_elem_of_nil in Hin|].
  cbn [flush_cfs]. destruct (flush_cf_cases e cf kvs) as [([r1 t1] & e1 & Hf)|(er & Hf)];
    [by apply (Hne cf), list_elem_of_here| |rewrite Hf; by eauto].
  rewrite Hf. apply flush_cf_ok in Hf as (Hnd1 & _ & Hout).
  cbn in Hnd. apply NoDup_cons in Hnd as [Hni Hnd].
  apply elem_of_cons in Hin as [[= <- <-]|Hin]; [done|].
  destruct (IH e1 r1 (as_u64 (t + t1)) Hnd) as (er & e' & -> & Hg);
    [intros; by eapply Hne, list_elem_of_further|done|done|].
  exists er, e'. split; [done|]. intros k. rewrite Hg. apply Hout. left. intros ->.
  apply Hni, list_elem_of_fmap. by exists (cf, kvs0).
Qed.

(** A key that is buffered twice loses the batch.  When two buffered pairs
    have the same key in a column family, the flush returns an error: the file
    writer refuses the second one.  The buffer is empty afterwards and the
    engine has not received any pair of this column family, so that all of them
    are lost, since the worker ignores the error. *)
Theorem duplicate_key_loses_batch now b (e : E) l1 kv l2 kv' l3 :
  kv_buffer b = l1 ++ kv :: l2 ++ kv' :: l3 -> cfkey kv = cfkey kv' ->
  exists er b' e', flush now b e = (Err er, b', e') /\ kv_buffer b' = []
    /\ flush_ignore now b e = (b', e')
    /\ forall k, ie_get e' (kv_cf kv) k = ie_get e (kv_cf kv) k.
Proof.
  intros Hb Hk. unfold flush_ignore, flush.
  rewrite bool_decide_false by (rewrite Hb; by destruct l1). cbn [andb].
  set (grp := filter (fun x => kv_cf x = kv_cf kv) (kv_buffer b)).
  assert (kv ∈ grp) as Hin.
  { apply list_elem_of_filter. split; [done|]. rewrite Hb. set_solver. }
  destruct (flush_cfs_duplicate (kv_cf kv) grp (map_to_list (cf_groups (kv_buffer b))) e 0 0)
    as (er & e' & -> & Hg).
  - apply NoDup_fst_map_to_list.
  - intros cf kvs [_ Hne]%groups_elem. exact Hne.
  - apply groups_elem. split; [done|]. by apply elem_of_not_nil with kv.
  - subst grp. rewrite Hb, filter_app, filter_cons, decide_True, filter_app, filter_cons by done.
    injection Hk as Hcf Hk. rewrite decide_True, !map_app by done. cbn. rewrite map_app. cbn.
    intros (_ & _ & Hnd)%NoDup_app. apply NoDup_cons in Hnd as [Hni _]. apply Hni.
    rewrite Hk. apply elem_of_app. right. apply list_elem_of_here.
  - eauto 8.
Qed.

(** A delete range and a later put are applied in the wrong order.  When a
    delete range and then a put of a key in it are buffered together, the flush
    ingests the put and then deletes the range: the key is absent, although in
    the order of the events it is present. *)
Theorem put_after_delete_range_lost now b (e : E) s t ts kv r b' e' :
  range_cf (kv_cf kv) = true -> in_range s t (kv_key kv) = true ->
  flush now (snd (add_kv (add_delete_range b s t ts) kv)) e = (Ok r, b', e') ->
  ie_get e' (kv_cf kv) (kv_key kv) = None
  /\ view_put (view_delete (pending_view b e) s t) kv (kv_cf kv) (kv_key kv) = Some (kv_value kv).
Proof.
  intros Hcf Hr Hf. split; [|apply view_put_eq]. apply flush_ok_view in Hf as (_ & _ & ->).
  unfold pending_view; cbn. unfold view_deletes. rewrite foldl_app. cbn. unfold view_delete.
  by rewrite Hcf, Hr.
Qed.

End Losses.

Lemma duplicate_key_loses_batch_witness :
  let b := add_kvs (SstBatcher_new 1000 1000 0) [example_kv 7 70; example_kv 3 30; example_kv 7 71] in
  exists er b' e', flush (E := MapEngine) 0 b ∅ = (Err er, b', e') /\ kv_buffer b' = []
    /\ forall k, ie_get e' "write" k = None.
Proof.
  intros b. destruct (duplicate_key_loses_batch (E := MapEngine) 0 b ∅ [] (example_kv 7 70)
    [example_kv 3 30] (example_kv 7 71) []) as (er & b' & e' & Hf & Hk & _ & Hg);
    [vm_compute; reflexivity|reflexivity|].
  exists er, b', e'. split_and!; [exact Hf|exact Hk|exact Hg].
Defined.

Lemma put_after_delete_range_lost_witness :
  let b := SstBatcher_new 1000 1000 0 in
  ie_get (snd (flush (E := MapEngine) 5 (snd (add_kv (add_delete_range b [3] [5] 9) (example_kv 4 40))) ∅))
    "write" [4] = None.
Proof.
  intros b. eapply (put_after_delete_range_lost (E := MapEngine) 5 b ∅ [3] [5] 9 (example_kv 4 40));
    [reflexivity|reflexivity|vm_compute; reflexivity].
Defined.
