(* ===== verification/StreamIngest.v ===== *)
(** * The consumer of cluster replication: progress, cutover, life cycle

    [components/stream-ingest/src]: checkpoints ([checkpoint.rs]), the handling
    of control and data events and the periodic topology sync of the event loop
    ([PcrComponents], [diff_topology] and the arms of [run_event_loop] in
    [task.rs]), the commands of the task ([StreamIngestTask::run]), span
    resolution ([subscriber.rs]) and the region cache ([direct_ingest.rs]).

    The checkpoint file and the safe point of the placement driver are a
    [CheckpointStore]; whether a write succeeds is an argument, and so are the
    answers of the placement driver, the subscriptions that succeed and the way
    in which waiting for a cutover ends.  [BTreeMap] and [HashMap] are [gmap].

    Theorems: what is resumed from is the minimum of the last recorded frontier
    ([checkpoint_resume_exact]); when a cutover is ready ([cutover_ready_iff]);
    a region split hides a lagging region from it ([split_hides_lag]); a
    checkpoint is recorded while the data before it is still queued
    ([checkpoint_ahead_of_data]); topology sync ([topology_sync_correct]); the
    target is protected while it replicates, in one process
    ([replication_protected]), but not after a restart
    ([resume_after_restart_unprotected]); a finished cutover's target stays
    armed ([cutover_target_survives]); pausing and resuming a task continues
    from where it stopped ([pause_resume_continues]); which regions a span resolves to
    ([resolve_span_overlap]). *)

From Stdlib Require Import ZArith Lia String.
From stdpp Require Import base numbers list gmap sets strings.
From S2P Require Import Prelude SpanRegistry SstBatcher.

Open Scope Z_scope.

Abbreviation Frontier := (gmap Z Z).

(** ** [checkpoint.rs] *)

Definition global_min_ts (frontier : Frontier) : option Z := list_min (map_to_list frontier).*2.

(** The local file: absent, not readable, or with data that parses or not. *)
Inductive checkpoint_file : Type :=
| CfAbsent
| CfUnreadable
| CfData (parsed : option Frontier).

Record CheckpointStore : Type := { cs_file : checkpoint_file; cs_safe_point : option Z }.

(** [CheckpointManager]: the state beside its clients and paths. *)
Record CheckpointManager : Type := { last_recorded_ts : option Z }.
Definition CheckpointManager_new : CheckpointManager := {| last_recorded_ts := None |}.

Inductive checkpoint_error : Type := CheckpointError.

(** How the writes of [record_checkpoint] end: the local file ([None] for
    success, or what a failed write left), and the safe point. *)
Record checkpoint_io : Type := { io_write : option checkpoint_file; io_pd_ok : bool }.

Definition record_checkpoint (m : CheckpointManager) (st : CheckpointStore) (frontier : Frontier)
    (io : checkpoint_io) : res checkpoint_error unit * CheckpointManager * CheckpointStore :=
  if bool_decide (frontier = ∅) then (Ok tt, m, st)
  else
    let min_ts := default 0 (global_min_ts frontier) in
    if bool_decide (last_recorded_ts m = Some min_ts) then (Ok tt, m, st)
    else
      let m := {| last_recorded_ts := Some min_ts |} in
      let file := match io_write io with None => CfData (Some frontier) | Some broken => broken end in
      if io_pd_ok io
      then (Ok tt, m, {| cs_file := file; cs_safe_point := Some min_ts |})
      else (Err CheckpointError, m, {| cs_file := file; cs_safe_point := cs_safe_point st |}).

Definition load_checkpoint (st : CheckpointStore) : res checkpoint_error Frontier :=
  match cs_file st with
  | CfData (Some frontier) => Ok frontier
  | CfData None => Err CheckpointError
  | CfAbsent | CfUnreadable => Ok ∅
  end.

Definition clear_checkpoint (st : CheckpointStore) (pd_ok : bool) (remove_ok : bool)
    : res checkpoint_error unit * CheckpointStore :=
  if pd_ok then
    (Ok tt, {| cs_file := if remove_ok then CfAbsent else cs_file st; cs_safe_point := Some 0 |})
  else (Err CheckpointError, st).

(** ** [PcrComponents] *)

Definition INGEST_WORKERS : nat := 4.

Record PcrComponents : Type := {
  pc_queues : list (list (u64 * PcrEvent));   (** the channels of the workers *)
  pc_checkpoint_mgr : CheckpointManager;
  pc_frontier : Frontier;
  pc_subscribed : gset Z;                     (** [subscriber.subscribed_regions] *)
  pc_resume_ts : u64;
  pc_span_registry : SpanRegistry;
  pc_span_mode : bool
}.

Definition PcrComponents_new : PcrComponents :=
  {| pc_queues := replicate INGEST_WORKERS []; pc_checkpoint_mgr := CheckpointManager_new;
     pc_frontier := ∅; pc_subscribed := ∅; pc_resume_ts := 0;
     pc_span_registry := SpanRegistry_new; pc_span_mode := false |}.

Definition pc_set_queues (c : PcrComponents) q : PcrComponents :=
  {| pc_queues := q; pc_checkpoint_mgr := pc_checkpoint_mgr c; pc_frontier := pc_frontier c;
     pc_subscribed := pc_subscribed c; pc_resume_ts := pc_resume_ts c;
     pc_span_registry := pc_span_registry c; pc_span_mode := pc_span_mode c |}.
Definition pc_set_frontier (c : PcrComponents) f : PcrComponents :=
  {| pc_queues := pc_queues c; pc_checkpoint_mgr := pc_checkpoint_mgr c; pc_frontier := f;
     pc_subscribed := pc_subscribed c; pc_resume_ts := pc_resume_ts c;
     pc_span_registry := pc_span_registry c; pc_span_mode := pc_span_mode c |}.
Definition pc_set_mgr (c : PcrComponents) m : PcrComponents :=
  {| pc_queues := pc_queues c; pc_checkpoint_mgr := m; pc_frontier := pc_frontier c;
     pc_subscribed := pc_subscribed c; pc_resume_ts := pc_resume_ts c;
     pc_span_registry := pc_span_registry c; pc_span_mode := pc_span_mode c |}.
Definition pc_set_subscribed (c : PcrComponents) s : PcrComponents :=
  {| pc_queues := pc_queues c; pc_checkpoint_mgr := pc_checkpoint_mgr c; pc_frontier := pc_frontier c;
     pc_subscribed := s; pc_resume_ts := pc_resume_ts c;
     pc_span_registry := pc_span_registry c; pc_span_mode := pc_span_mode c |}.
Definition pc_set_registry (c : PcrComponents) r : PcrComponents :=
  {| pc_queues := pc_queues c; pc_checkpoint_mgr := pc_checkpoint_mgr c; pc_frontier := pc_frontier c;
     pc_subscribed := pc_subscribed c; pc_resume_ts := pc_resume_ts c;
     pc_span_registry := r; pc_span_mode := pc_span_mode c |}.
Definition pc_set_span_mode (c : PcrComponents) b : PcrComponents :=
  {| pc_queues := pc_queues c; pc_checkpoint_mgr := pc_checkpoint_mgr c; pc_frontier := pc_frontier c;
     pc_subscribed := pc_subscribed c; pc_resume_ts := pc_resume_ts c;
     pc_span_registry := pc_span_registry c; pc_span_mode := b |}.

(** [StreamSubscriber::subscribe]: [ok] tells whether there is a shared client. *)
Definition subscribe (c : PcrComponents) (region_id : u64) (ok : bool) : bool * PcrComponents :=
  if bool_decide (region_id ∈ pc_subscribed c) then (true, c)
  else if ok then (true, pc_set_subscribed c ({[region_id]} ∪ pc_subscribed c))
  else (false, c).

(** [handle_data_event]; [next] is the shared round-robin counter. *)
Definition handle_data_event (c : PcrComponents) (next : u64) (region_id : u64) (event : PcrEvent)
    : PcrComponents * u64 :=
  let n := Z.of_nat (length (pc_queues c)) in
  let '(idx, next) :=
    if region_id =? 0 then (next mod n, as_u64 (next + 1)) else (region_id mod n, next) in
  (pc_set_queues c (alter (fun q => q ++ [(region_id, event)]) (Z.to_nat idx) (pc_queues c)), next).

Definition is_cutover_ready (cutover_ts : u64) (frontier : Frontier) : bool :=
  if cutover_ts =? 0 then false
  else
    let global_min := default 0 (global_min_ts frontier) in
    if global_min =? 0 then false
    else if cutover_ts =? u64_max then true
    else cutover_ts <=? global_min.

(** [compute_lag] *)
Definition compute_lag (now_secs resolved_ts : u64) : u64 :=
  if resolved_ts =? 0 then 0 else Z.max 0 (now_secs - Z.shiftr resolved_ts 18 / 1000).

(** The lag that the status page of [http_control.rs] computes. *)
Definition status_lag (now_secs min_ts : u64) : u64 := Z.max 0 (now_secs - Z.shiftr min_ts 18).

Inductive control_error : Type := CeCheckpoint | CeCutoverComplete.

(** The subscriptions of the new regions after a split. *)
Definition split_subscribe (ok : bool) (resume_ts : u64) (c : PcrComponents) (new_rid : u64) : PcrComponents :=
  if bool_decide (is_Some (pc_frontier c !! new_rid)) then c
  else
    let c := snd (subscribe c new_rid ok) in
    pc_set_frontier c (<[new_rid := resume_ts]> (pc_frontier c)).

(** [handle_control_event] *)
Definition handle_control_event (cutover_ts : u64) (c : PcrComponents) (st : CheckpointStore) (next : u64)
    (region_id : u64) (event : PcrEvent) (io : checkpoint_io) (subscribe_ok : bool)
    : res control_error unit * PcrComponents * CheckpointStore * u64 :=
  match event with
  | EvCheckpoint resolved_ts region_ids =>
      let frontier := foldl (fun f rid => <[rid := resolved_ts]> f) (pc_frontier c) region_ids in
      let c := pc_set_frontier c frontier in
      let '(r, m, st) := record_checkpoint (pc_checkpoint_mgr c) st frontier io in
      let c := pc_set_mgr c m in
      match r with
      | Ok _ => if is_cutover_ready cutover_ts frontier then (Err CeCutoverComplete, c, st, next)
                else (Ok tt, c, st, next)
      | _ => (Err CeCheckpoint, c, st, next)
      end
  | EvDeleteRange _ _ _ | EvKvBatch _ | EvSstChunk _ _ _ =>
      let '(c, next) := handle_data_event c next region_id event in (Ok tt, c, st, next)
  | EvSplit split_key new_region_ids =>
      let '(r, new_regions) := on_region_split (pc_span_registry c) region_id new_region_ids in
      let c := pc_set_registry c r in
      let resume_ts := default 0 (pc_frontier c !! region_id) in
      let c := pc_set_subscribed c (pc_subscribed c ∖ {[region_id]}) in
      let c := pc_set_frontier c (delete region_id (pc_frontier c)) in
      let c := foldl (fun c rid =>
                  pc_set_frontier (pc_set_subscribed c (pc_subscribed c ∖ {[rid]})) (delete rid (pc_frontier c)))
                 c new_region_ids in
      let c := if pc_span_mode c then c else foldl (split_subscribe subscribe_ok resume_ts) c new_regions in
      (Ok tt, c, st, next)
  | EvNone => (Ok tt, c, st, next)
  end.

(** The arm of [run_event_loop] for a received event: whether the loop ends. *)
Definition loop_event (cutover_ts : u64) (c : PcrComponents) (st : CheckpointStore) (next : u64)
    (region_id : u64) (event : PcrEvent) (io : checkpoint_io) (subscribe_ok : bool)
    : bool * PcrComponents * CheckpointStore * u64 :=
  match event with
  | EvCheckpoint _ _ | EvSplit _ _ =>
      let '(r, c, st, next) := handle_control_event cutover_ts c st next region_id event io subscribe_ok in
      (match r with Err CeCutoverComplete => true | _ => false end, c, st, next)
  | _ => let '(c, next) := handle_data_event c next region_id event in (false, c, st, next)
  end.

(** ** Topology sync *)

Inductive TopologyChange : Type := NewRegion (region_id : u64) | RemovedRegion (region_id : u64).

Record TopologyDiff : Type := {
  new_regions : list TopologyChange;
  removed_regions : list TopologyChange;
  total_in_pd : nat;
  total_in_frontier : nat
}.

Definition diff_topology (pd_regions : list PdRegion) (frontier : Frontier) : TopologyDiff :=
  let pd_set : gset Z := list_to_set (map pd_id pd_regions) in
  {| new_regions := map (fun x => NewRegion (pd_id x))
                      (filter (fun x => frontier !! pd_id x = None) pd_regions);
     removed_regions := map RemovedRegion (filter (fun rid => rid ∉ pd_set) (map_to_list frontier).*1);
     total_in_pd := length pd_regions;
     total_in_frontier := size frontier |}.

(** A new region, subscribed at [resume_ts]. *)
Definition sync_new (ok : u64 -> bool) (resume_ts : u64) (c : PcrComponents) (change : TopologyChange)
    : PcrComponents :=
  match change with
  | NewRegion rid =>
      let '(subscribed, c) := subscribe c rid (ok rid) in
      if subscribed && (0 <? resume_ts)
      then pc_set_frontier c (<[rid := resume_ts]> (pc_frontier c)) else c
  | RemovedRegion _ => c
  end.

Definition sync_removed (c : PcrComponents) (change : TopologyChange) : PcrComponents :=
  match change with
  | RemovedRegion rid => pc_set_frontier c (delete rid (pc_frontier c))
  | NewRegion _ => c
  end.

(** The arm [rediscover.tick()] of [run_event_loop]. *)
Definition rediscover (ok : u64 -> bool) (c : PcrComponents) (pd_regions : list PdRegion) : PcrComponents :=
  match pd_regions with
  | [] => c
  | _ =>
      let resume_ts := default 0 (global_min_ts (pc_frontier c)) in
      let diff := diff_topology pd_regions (pc_frontier c) in
      let c := if pc_span_mode c then c else foldl (sync_new ok resume_ts) c (new_regions diff) in
      foldl sync_removed c (removed_regions diff)
  end.

(** One region of a new span, in the arm [ddl_discover.tick()]. *)
Definition ddl_region (ok : u64 -> bool) (table_id : Z) (c : PcrComponents) (rid : u64) : PcrComponents :=
  if bool_decide (is_Some (pc_frontier c !! rid)) then c
  else
    let '(subscribed, c) := subscribe c rid (ok rid) in
    if subscribed then
      let c := pc_set_frontier c (<[rid := 0]> (pc_frontier c)) in
      pc_set_registry c (on_span (pc_span_registry c) table_id
                           (fun s => activate_worker (start_worker s rid) rid))
    else c.

(** The arm [ddl_discover.tick()]: [resolve] is the placement driver's answer for
    a span. *)
Definition ddl_discover (ok : u64 -> bool) (resolve : ReplicationSpan -> option (list PdRegion))
    (c : PcrComponents) (current_max : Z) (current_tables : option (list (Z * bytes))) : PcrComponents :=
  let '(new_spans, r) := discover_new_spans (pc_span_registry c) current_max current_tables in
  foldl (fun c span =>
      match resolve span with
      | None => c
      | Some pd_regions =>
          if pc_span_mode c then c
          else foldl (ddl_region ok (rs_table_id span)) c (map pd_id pd_regions)
      end) (pc_set_registry c r) new_spans.

(** ** Span resolution ([subscriber.rs]) *)

(** The overlap test of [resolve_span] for the span [start_key, end_key) and a
    region [r_start, r_end). *)
Definition span_overlaps (start_key end_key r_start r_end : bytes) : bool :=
  if bool_decide (start_key = []) && bool_decide (end_key = []) then true
  else if bool_decide (r_start = []) && bool_decide (r_end = []) then true
  else
    let before_end := bool_decide (r_end = []) || bytes_ltb r_start end_key in
    let after_start := bool_decide (start_key = []) || bytes_ltb start_key r_end in
    before_end && after_start.

Definition resolve_span (pd_regions : list PdRegion) (start_key end_key : bytes) : list PdRegion :=
  filter (fun '(rid, r_start, r_end) => rid <> 0 /\ span_overlaps start_key end_key r_start r_end = true)
    pd_regions.

(** ** The region cache of [direct_ingest.rs] *)

Definition RegionCache : Type := gmap Z (bytes * bytes).

Definition cache_contains_key (states : RegionCache) (region_id : u64) (key : bytes) : bool :=
  match states !! region_id with
  | Some (start, end_) => bytes_leb start key && (bool_decide (end_ = []) || bytes_ltb key end_)
  | None => false
  end.

Definition cache_handle_split (states : RegionCache) (split_key : bytes) : RegionCache :=
  let regions_to_update :=
    filter (fun '(_, (start, end_)) =>
      bytes_ltb start split_key && (bool_decide (end_ = []) || bytes_ltb split_key end_) = true)
      (map_to_list states) in
  foldl (fun states x => delete (fst x) states) states regions_to_update.

(** [validate_region_epoch]; the error holds lengths of keys. *)
Definition validate_region_epoch (states : RegionCache) (region_id : u64)
    (expected_start_key expected_end_key : bytes) : res (Z * Z * Z * Z) unit :=
  '(actual_start, actual_end) ← ok_or (0, 0, 0, 0) (states !! region_id);
  let mismatch := Err (zlen expected_start_key, zlen expected_end_key, zlen actual_start, zlen actual_end) in
  if negb (bytes_eqb actual_start expected_start_key) then mismatch
  else if negb (bytes_eqb actual_end expected_end_key) then mismatch
  else Ok tt.

(** ** The task *)

Inductive TaskState : Type :=
| TsIdle | TsSubscribing | TsPaused | TsCuttingOver | TsCompleted | TsActivated | TsFailed.

#[export] Instance TaskState_eq_dec : EqDecision TaskState.
Proof. solve_decision. Defined.

Inductive Task : Type :=
| TConfigChange
| TStartReplication (source_pd : bytes)
| TCreateReplication (source_pd : bytes)
| TPauseReplication
| TResumeReplication
| TStartSubscription (region_id start_ts : u64)
| TCutover (cutover_ts : u64)
| TActivate
| TShutdown.

(** A spawned event loop owns its components until it ends. *)
Inductive event_loop : Type := ElRunning (c : PcrComponents) | ElEnded.

(** [StreamIngestTask] with the files it owns.  [t_loop] is the spawned event
    loop while the task has the channel on which the loop announces its end. *)
Record StreamIngestTask : Type := {
  t_state : TaskState;
  t_components : option PcrComponents;
  t_loop : option event_loop;
  t_cutover_ts : u64;
  t_write_guard : bool;
  t_source_pd : option bytes;
  t_state_file : option string;
  t_source_pd_file : option bytes;
  t_store : CheckpointStore
}.

(** [{:?}] of the state. *)
Definition task_state_name (s : TaskState) : string :=
  match s with
  | TsIdle => "Idle" | TsSubscribing => "Subscribing" | TsPaused => "Paused"
  | TsCuttingOver => "CuttingOver" | TsCompleted => "Completed" | TsActivated => "Activated"
  | TsFailed => "Failed"
  end.

Definition load_persisted_state (file : option string) (stream_ingest_enabled : bool) : TaskState :=
  let fresh := if stream_ingest_enabled then TsPaused else TsIdle in
  match file with
  | Some data =>
      if decide (data = "Subscribing") then TsPaused
      else if decide (data = "Paused") then TsPaused
      else if decide (data = "Completed" \/ data = "Failed") then TsIdle
      else if decide (data = "Activated") then TsIdle
      else fresh
  | None => fresh
  end.

(** [StreamIngestTask::new], on the files of a data directory; [write_guard] is
    the flag of the storage. *)
Definition StreamIngestTask_new (enable write_guard : bool) (state_file : option string)
    (source_pd_file : option bytes) (store : CheckpointStore) : StreamIngestTask :=
  {| t_state := load_persisted_state state_file enable; t_components := Some PcrComponents_new;
     t_loop := None; t_cutover_ts := 0; t_write_guard := write_guard; t_source_pd := source_pd_file;
     t_state_file := state_file; t_source_pd_file := source_pd_file; t_store := store |}.

(** How the outside behaves during a command: file and safe point writes, and
    the end of the wait for a cutover, with the store that the event loop
    leaves. *)
Inductive cutover_wait : Type := CwDone (store : CheckpointStore) | CwDropped | CwTimeout.
Record task_env : Type := {
  te_io : checkpoint_io;          (** the final checkpoint of a stopped loop *)
  te_write_state : bool;
  te_write_pd : bool;
  te_wait : cutover_wait;
  te_clear_pd : bool;
  te_remove_checkpoint : bool;
  te_remove_state : bool
}.

Definition t_set_state (t : StreamIngestTask) (s : TaskState) : StreamIngestTask :=
  {| t_state := s; t_components := t_components t; t_loop := t_loop t; t_cutover_ts := t_cutover_ts t;
     t_write_guard := t_write_guard t; t_source_pd := t_source_pd t; t_state_file := t_state_file t;
     t_source_pd_file := t_source_pd_file t; t_store := t_store t |}.
Definition t_set_guard (t : StreamIngestTask) (b : bool) : StreamIngestTask :=
  {| t_state := t_state t; t_components := t_components t; t_loop := t_loop t; t_cutover_ts := t_cutover_ts t;
     t_write_guard := b; t_source_pd := t_source_pd t; t_state_file := t_state_file t;
     t_source_pd_file := t_source_pd_file t; t_store := t_store t |}.
Definition t_set_loop (t : StreamIngestTask) (components : option PcrComponents) (loop : option event_loop)
    : StreamIngestTask :=
  {| t_state := t_state t; t_components := components; t_loop := loop; t_cutover_ts := t_cutover_ts t;
     t_write_guard := t_write_guard t; t_source_pd := t_source_pd t; t_state_file := t_state_file t;
     t_source_pd_file := t_source_pd_file t; t_store := t_store t |}.
Definition t_set_store (t : StreamIngestTask) (st : CheckpointStore) : StreamIngestTask :=
  {| t_state := t_state t; t_components := t_components t; t_loop := t_loop t; t_cutover_ts := t_cutover_ts t;
     t_write_guard := t_write_guard t; t_source_pd := t_source_pd t; t_state_file := t_state_file t;
     t_source_pd_file := t_source_pd_file t; t_store := st |}.
Definition t_set_cutover (t : StreamIngestTask) (ts : u64) : StreamIngestTask :=
  {| t_state := t_state t; t_components := t_components t; t_loop := t_loop t; t_cutover_ts := ts;
     t_write_guard := t_write_guard t; t_source_pd := t_source_pd t; t_state_file := t_state_file t;
     t_source_pd_file := t_source_pd_file t; t_store := t_store t |}.
Definition t_set_state_file (t : StreamIngestTask) (f : option string) : StreamIngestTask :=
  {| t_state := t_state t; t_components := t_components t; t_loop := t_loop t; t_cutover_ts := t_cutover_ts t;
     t_write_guard := t_write_guard t; t_source_pd := t_source_pd t; t_state_file := f;
     t_source_pd_file := t_source_pd_file t; t_store := t_store t |}.

Definition persist_state (t : StreamIngestTask) (env : task_env) : StreamIngestTask :=
  if te_write_state env then t_set_state_file t (Some (task_state_name (t_state t))) else t.

(** [self.source_pd = Some(..)] and its file. *)
Definition set_source_pd (t : StreamIngestTask) (source_pd : bytes) (env : task_env) : StreamIngestTask :=
  {| t_state := t_state t; t_components := t_components t; t_loop := t_loop t; t_cutover_ts := t_cutover_ts t;
     t_write_guard := t_write_guard t; t_source_pd := Some source_pd; t_state_file := t_state_file t;
     t_source_pd_file := if te_write_pd env then Some source_pd else t_source_pd_file t;
     t_store := t_store t |}.

(** [spawn_event_loop] and the start of [run_event_loop], which subscribes to
    one span in span mode. *)
Definition spawn_event_loop (t : StreamIngestTask) (force_full_scan : bool) : StreamIngestTask :=
  let c := default PcrComponents_new (t_components t) in
  let '(frontier, resume_ts) :=
    if force_full_scan then (pc_frontier c, 0)
    else match load_checkpoint (t_store t) with
         | Ok frontier =>
             if bool_decide (frontier = ∅) then (pc_frontier c, 0)
             else (frontier, default 0 (global_min_ts frontier))
         | _ => (pc_frontier c, 0)
         end in
  let c := {| pc_queues := pc_queues c; pc_checkpoint_mgr := pc_checkpoint_mgr c; pc_frontier := frontier;
              pc_subscribed := pc_subscribed c; pc_resume_ts := resume_ts;
              pc_span_registry := pc_span_registry c; pc_span_mode := true |} in
  t_set_loop t None (Some (ElRunning c)).

(** The end of [run_event_loop]: the frontier is recorded. *)
Definition loop_exit (c : PcrComponents) (st : CheckpointStore) (io : checkpoint_io) : CheckpointStore :=
  if bool_decide (pc_frontier c = ∅) then st
  else snd (record_checkpoint (pc_checkpoint_mgr c) st (pc_frontier c) io).

Definition stop_event_loop (t : StreamIngestTask) (env : task_env) : StreamIngestTask :=
  let t := match t_loop t with
           | Some (ElRunning c) => t_set_store t (loop_exit c (t_store t) (te_io env))
           | _ => t
           end in
  t_set_loop t (Some PcrComponents_new) None.

(** The states in which [StartReplication] and [CreateReplication] are taken. *)
Definition start_accepted (s : TaskState) : bool :=
  match s with
  | TsSubscribing | TsPaused | TsIdle | TsActivated | TsCompleted => true
  | TsCuttingOver | TsFailed => false
  end.

Definition start_replication (t : StreamIngestTask) (source_pd : bytes) (full : bool) (env : task_env)
    : StreamIngestTask :=
  if start_accepted (t_state t) then
    let t := if bool_decide (t_state t = TsSubscribing) then stop_event_loop t env else t in
    let t := t_set_state t TsSubscribing in
    let t := set_source_pd t source_pd env in
    let t := t_set_guard t true in
    persist_state (spawn_event_loop t full) env
  else t.

(** [StreamIngestTask::run] *)
Definition run_task (t : StreamIngestTask) (task : Task) (env : task_env) : StreamIngestTask :=
  match task with
  | TConfigChange | TStartSubscription _ _ => t
  | TStartReplication source_pd => start_replication t source_pd false env
  | TCreateReplication source_pd => start_replication t source_pd true env
  | TPauseReplication =>
      if bool_decide (t_state t = TsSubscribing)
      then persist_state (t_set_state (stop_event_loop t env) TsPaused) env else t
  | TResumeReplication =>
      if bool_decide (t_state t = TsPaused)
      then persist_state (spawn_event_loop (t_set_state t TsSubscribing) false) env else t
  | TCutover cutover_ts =>
      if bool_decide (t_state t = TsSubscribing) then
        let t := persist_state (t_set_state (t_set_cutover t cutover_ts) TsCuttingOver) env in
        match t_loop t with
        | None => t
        | Some _ =>
            match te_wait env with
            | CwDone st =>
                let t := persist_state (t_set_state t TsCompleted) env in
                t_set_loop (t_set_store t st) (Some PcrComponents_new) None
            | CwDropped => t_set_loop t (t_components t) None
            | CwTimeout => persist_state (t_set_state (t_set_loop t (t_components t) None) TsFailed) env
            end
        end
      else t
  | TShutdown =>
      let t := if bool_decide (t_state t = TsSubscribing) then stop_event_loop t env else t in
      persist_state (t_set_state t TsCompleted) env
  | TActivate =>
      if bool_decide (t_state t = TsCompleted) || bool_decide (t_state t = TsSubscribing) then
        let t := if bool_decide (t_state t = TsSubscribing)
                 then t_set_state (stop_event_loop t env) TsCompleted else t in
        let t := t_set_store t (snd (clear_checkpoint (t_store t) (te_clear_pd env) (te_remove_checkpoint env))) in
        let t := if te_remove_state env then t_set_state_file t None else t in
        t_set_guard (t_set_state t TsActivated) false
      else t
  end.

(** ** Minima of a frontier *)

Lemma foldl_min_spec l : forall x,
  (foldl Z.min x l = x \/ foldl Z.min x l ∈ l) /\ foldl Z.min x l <= x /\ Forall (Z.le (foldl Z.min x l)) l.
Proof.
  induction l as [|y l IH]; intros x; cbn [foldl]; [by split_and!; [left|lia|]|].
  destruct (IH (Z.min x y)) as (He & Hle & Hall). split_and!.
  - destruct He as [He|He]; [|right; by apply list_elem_of_further].
    rewrite He. destruct (Z.min_spec x y) as [[_ ->]|[_ ->]]; [by left|right; apply list_elem_of_here].
  - lia.
  - constructor; [lia|done].
Qed.

Lemma list_min_spec l m : list_min l = Some m -> m ∈ l /\ Forall (Z.le m) l.
Proof.
  destruct l as [|x l]; [done|]. cbn. intros [= <-]. destruct (foldl_min_spec l x) as (He & Hle & Hall).
  split; [|by constructor]. destruct He as [->|He]; [apply list_elem_of_here|by apply list_elem_of_further].
Qed.

Lemma global_min_spec f m : global_min_ts f = Some m ->
  (exists rid, f !! rid = Some m) /\ forall rid ts, f !! rid = Some ts -> m <= ts.
Proof.
  unfold global_min_ts. intros [Hin Hall]%list_min_spec. split.
  - apply list_elem_of_fmap in Hin as ([rid ts] & -> & Hin). exists rid. by apply elem_of_map_to_list.
  - intros rid ts Hf. rewrite Forall_forall in Hall. apply Hall, list_elem_of_fmap. exists (rid, ts).
    split; [done|]. by apply elem_of_map_to_list.
Qed.

Lemma global_min_some f : f <> ∅ -> exists m, global_min_ts f = Some m.
Proof.
  intros Hne. unfold global_min_ts. destruct (map_to_list f) as [|[k v] l] eqn:E; cbn; [|by eauto].
  by apply map_to_list_empty_iff in E.
Qed.

Lemma global_min_empty : global_min_ts ∅ = None.
Proof. done. Qed.

(** ** Checkpoints *)

(** C32. What is resumed from is the minimum of the last frontier.  After any
    sequence of checkpoints of non-empty frontiers whose file writes succeed,
    whether or not the safe point could be updated, and whether or not a
    checkpoint was skipped because the minimum had not changed, loading the file
    gives a frontier with the same minimum as the last one, and no region of it
    is resumed from a later time than the region had reached. *)
Theorem checkpoint_resume_exact m st (fs : list (Frontier * bool)) f pd_ok :
  last_recorded_ts m = None -> Forall (fun x => fst x <> ∅) fs -> f <> ∅ ->
  let '(_, st') := foldl (fun '(m, st) x =>
      let '(_, m, st) := record_checkpoint m st (fst x) {| io_write := None; io_pd_ok := snd x |} in (m, st))
    (m, st) (fs ++ [(f, pd_ok)]) in
  exists f' ts, load_checkpoint st' = Ok f' /\ global_min_ts f' = Some ts /\ global_min_ts f = Some ts
    /\ forall rid reached, f !! rid = Some reached -> ts <= reached.
Proof.
  intros Hm Hfs Hf.
  set (step := fun '(m, st) x =>
      let '(_, m, st) := record_checkpoint m st (fst x) {| io_write := None; io_pd_ok := snd x |} in (m, st)).
  set (inv := fun ms : CheckpointManager * CheckpointStore => match last_recorded_ts (fst ms) with
      | None => True
      | Some ts => exists f', cs_file (snd ms) = CfData (Some f') /\ global_min_ts f' = Some ts end).
  assert (Hstep : forall ms x, fst x <> ∅ -> inv ms -> inv (step ms x) /\
      last_recorded_ts (fst (step ms x)) = global_min_ts (fst x)).
  { intros [m0 st0] [f0 b0] Hne Hinv. destruct (global_min_some f0 Hne) as [ts Hts].
    unfold step, record_checkpoint; cbn [fst snd]. rewrite bool_decide_false by done. rewrite Hts. cbn [default from_option id].
    case_bool_decide as Hl; [by split|]. destruct b0; cbn; (split; [|done]); by exists f0. }
  assert (Hinv : forall l ms, Forall (fun x => fst x <> ∅) l -> inv ms -> inv (foldl step ms l)).
  { induction l as [|x l IH]; intros ms Hl Hi; cbn; [done|]. apply Forall_cons in Hl as [Hx Hl].
    apply IH; [done|]. by apply Hstep. }
  rewrite foldl_app. cbn [foldl].
  destruct (Hstep (foldl step (m, st) fs) (f, pd_ok) Hf) as [Hi Hl].
  { apply Hinv; [done|]. unfold inv; cbn. by rewrite Hm. }
  destruct (step (foldl step (m, st) fs) (f, pd_ok)) as [m' st'].
  destruct (global_min_some f Hf) as [ts Hts]. cbn [fst snd] in *. unfold inv in Hi; cbn [fst snd] in Hi.
  rewrite Hl, Hts in Hi. destruct Hi as (f' & Hfile & Hmin).
  exists f', ts. split_and!; [by unfold load_checkpoint; rewrite Hfile|done|done|].
  intros rid reached. by apply global_min_spec.
Qed.

Lemma checkpoint_resume_exact_witness :
  let st0 := {| cs_file := CfAbsent; cs_safe_point := None |} in
  let f1 : Frontier := {[1 := 50; 2 := 70]} in
  let f2 : Frontier := {[1 := 50; 2 := 90]} in
  exists f' ts, load_checkpoint (snd (foldl (fun '(m, st) x =>
      let '(_, m, st) := record_checkpoint m st (fst x) {| io_write := None; io_pd_ok := snd x |} in (m, st))
    (CheckpointManager_new, st0) ([(f1, false)] ++ [(f2, true)]))) = Ok f'
    /\ global_min_ts f' = Some ts /\ global_min_ts f2 = Some ts.
Proof.
  intros st0 f1 f2. pose proof (checkpoint_resume_exact CheckpointManager_new st0 [(f1, false)] f2 true) as Hc.
  destruct (foldl _ _ _) as [m' st']. destruct Hc as (f' & ts & Hl & Hm & Hf & _).
  - reflexivity.
  - repeat constructor. discriminate.
  - discriminate.
  - exists f', ts. split_and!; [exact Hl|exact Hm|exact Hf].
Defined.

(** ** Cutover *)

Lemma cutover_ready_spec target f :
  map_Forall (fun _ ts => 0 <= ts) f ->
  (is_cutover_ready target f = true <->
   target <> 0 /\ f <> ∅ /\ forall rid ts, f !! rid = Some ts -> 0 < ts /\ (target = u64_max \/ target <= ts)).
Proof.
  intros Hpos. unfold is_cutover_ready. destruct (Z.eqb_spec target 0) as [->|Ht]; [naive_solver|].
  destruct (decide (f = ∅)) as [->|Hne]; [rewrite global_min_empty; cbn; naive_solver|].
  destruct (global_min_some f Hne) as [m Hm]. rewrite Hm. cbn [from_option]. unfold id.
  apply global_min_spec in Hm as [(r0 & Hr0) Hall]. pose proof (Hpos r0 m Hr0) as Hm0. cbn in Hm0.
  destruct (Z.eqb_spec m 0) as [->|Hmz].
  { split; [done|]. intros (_ & _ & Ha). destruct (Ha r0 0 Hr0). lia. }
  destruct (Z.eqb_spec target u64_max) as [->|Htm].
  - split; [|done]. intros _. split_and!; [done|done|]. intros rid ts Hf. specialize (Hall rid ts Hf). split; [lia|by left].
  - rewrite Z.leb_le. split.
    + intros Hle. split_and!; [done|done|]. intros rid ts Hf. specialize (Hall rid ts Hf). split; [lia|right; lia].
    + intros (_ & _ & Ha). destruct (Ha r0 m Hr0) as [_ [?|?]]; [done|done].
Qed.

(** When a cutover is ready.  With a target, exactly when there is at least
    one tracked region, every tracked region has made progress, and every one
    has reached the target, which the target "latest" does not ask for. *)
Theorem cutover_ready_iff target f :
  map_Forall (fun _ ts => 0 <= ts) f ->
  (is_cutover_ready target f = true <->
   target <> 0 /\ f <> ∅ /\ forall rid ts, f !! rid = Some ts -> 0 < ts /\ (target = u64_max \/ target <= ts)).
Proof. apply cutover_ready_spec. Qed.

Lemma cutover_ready_iff_witness :
  is_cutover_ready 60 {[1 := 70; 2 := 90]} = true /\ is_cutover_ready 80 {[1 := 70; 2 := 90]} = false.
Proof.
  split; [|reflexivity]. apply (cutover_ready_iff 60 {[1 := 70; 2 := 90]}).
  - intros rid ts H. repeat (rewrite lookup_insert_Some in H || rewrite lookup_singleton_Some in H). lia.
  - split_and!; [lia|discriminate|]. intros rid ts H.
    repeat (rewrite lookup_insert_Some in H || rewrite lookup_singleton_Some in H). lia.
Defined.

Lemma untrack_frontier rids : forall c rid,
  let c' := foldl (fun c rid =>
      pc_set_frontier (pc_set_subscribed c (pc_subscribed c ∖ {[rid]})) (delete rid (pc_frontier c))) c rids in
  pc_frontier c' !! rid = (if decide (rid ∈ rids) then None else pc_frontier c !! rid)
  /\ pc_span_mode c' = pc_span_mode c.
Proof.
  induction rids as [|r rids IH]; intros c rid; cbn [foldl]; [done|].
  destruct (IH (pc_set_frontier (pc_set_subscribed c (pc_subscribed c ∖ {[r]})) (delete r (pc_frontier c))) rid)
    as [-> ->]. split; [|done]. cbn [pc_set_frontier pc_frontier].
  destruct (decide (rid ∈ rids)); [by rewrite decide_True by set_solver|].
  destruct (decide (rid = r)) as [->|].
  - by rewrite lookup_delete_eq, decide_True by set_solver.
  - by rewrite lookup_delete_ne, decide_False by set_solver.
Qed.

Lemma split_frontier target c st next parent key children io ok r c' st' next' :
  pc_span_mode c = true ->
  handle_control_event target c st next parent (EvSplit key children) io ok = (r, c', st', next') ->
  forall rid, pc_frontier c' !! rid = if decide (rid ∈ parent :: children) then None else pc_frontier c !! rid.
Proof.
  intros Hm He rid. cbn [handle_control_event] in He.
  destruct (on_region_split (pc_span_registry c) parent children) as [reg news].
  set (c0 := pc_set_frontier _ (delete parent _)) in He.
  destruct (untrack_frontier children c0 rid) as [Hf Hs]. cbn in Hs. rewrite Hs, Hm in He.
  injection He as _ <- _ _. rewrite Hf. subst c0. cbn [pc_set_frontier pc_set_subscribed pc_set_registry pc_frontier].
  destruct (decide (rid ∈ children)); [by rewrite decide_True by set_solver|].
  destruct (decide (rid = parent)) as [->|].
  - by rewrite lookup_delete_eq, decide_True by set_solver.
  - by rewrite lookup_delete_ne, decide_False by set_solver.
Qed.

(** A region split hides a lagging region from the cutover.  In span mode a
    split takes the parent and the children off the frontier and does not put
    them back.  If the parent had not reached the cutover target and every other
    region had, the cutover was not ready before the split and is ready after
    it, although no more of the parent's data has arrived. *)
Theorem split_hides_lag target c st next parent key children io ok r c' st' next' lag rid0 ts0 :
  pc_span_mode c = true -> target <> 0 -> target <> u64_max ->
  map_Forall (fun _ ts => 0 <= ts) (pc_frontier c) ->
  pc_frontier c !! parent = Some lag -> lag < target ->
  ~ rid0 ∈ parent :: children -> pc_frontier c !! rid0 = Some ts0 ->
  (forall rid ts, ~ rid ∈ parent :: children -> pc_frontier c !! rid = Some ts -> 0 < ts /\ target <= ts) ->
  handle_control_event target c st next parent (EvSplit key children) io ok = (r, c', st', next') ->
  is_cutover_ready target (pc_frontier c) = false /\ is_cutover_ready target (pc_frontier c') = true.
Proof.
  intros Hm Ht Htm Hpos Hlag Hlt Hr0 Hts0 Hothers He. pose proof (split_frontier _ _ _ _ _ _ _ _ _ _ _ _ _ Hm He) as Hf.
  split.
  - apply not_true_is_false. intros Hr. apply cutover_ready_spec in Hr as (_ & _ & Hall); [|done].
    destruct (Hall parent lag Hlag) as [_ [?|?]]; [done|lia].
  - apply cutover_ready_spec.
    + intros rid ts Hrid. rewrite Hf in Hrid. case_decide; [done|]. by eapply Hpos.
    + split_and!; [done| |].
      * intros E. specialize (Hf rid0). by rewrite E, decide_False, Hts0, lookup_empty in Hf.
      * intros rid ts Hrid. rewrite Hf in Hrid. case_decide as Hd; [done|].
        destruct (Hothers rid ts Hd Hrid). split; [done|by right].
Qed.

(** Components in span mode with a lagging region. *)
Definition lagging : PcrComponents :=
  pc_set_span_mode (pc_set_frontier PcrComponents_new {[1 := 10; 2 := 90]}) true.

Lemma split_hides_lag_witness :
  let c' := snd (fst (fst (handle_control_event 80 lagging {| cs_file := CfAbsent; cs_safe_point := None |} 0 1
      (EvSplit [7] [1; 3]) {| io_write := None; io_pd_ok := true |} true))) in
  is_cutover_ready 80 (pc_frontier lagging) = false /\ is_cutover_ready 80 (pc_frontier c') = true.
Proof.
  intros c'. eapply (split_hides_lag 80 lagging {| cs_file := CfAbsent; cs_safe_point := None |} 0 1 [7] [1; 3]
    {| io_write := None; io_pd_ok := true |} true _ c' _ _ 10 2 90).
  - reflexivity.
  - lia.
  - discriminate.
  - intros rid ts H. cbn in H. repeat (rewrite lookup_insert_Some in H || rewrite lookup_singleton_Some in H). lia.
  - reflexivity.
  - lia.
  - set_solver.
  - reflexivity.
  - intros rid ts Hn H. cbn in H. repeat (rewrite lookup_insert_Some in H || rewrite lookup_singleton_Some in H).
    destruct H as [[<- _]|[_ [<- <-]]]; [set_solver|lia].
  - vm_compute. reflexivity.
Defined.

(** ** Checkpoints and data *)

Lemma data_event_queued c next rid ev :
  pc_queues c <> [] ->
  exists q, q ∈ pc_queues (fst (handle_data_event c next rid ev)) /\ (rid, ev) ∈ q.
Proof.
  intros Hq. unfold handle_data_event.
  assert (Hlen : 0 < Z.of_nat (length (pc_queues c))) by (destruct (pc_queues c); [done|cbn; lia]).
  assert (Hidx : forall z, exists q, q ∈ alter (fun q => q ++ [(rid, ev)])
      (Z.to_nat (z mod Z.of_nat (length (pc_queues c)))) (pc_queues c) /\ (rid, ev) ∈ q).
  { intros z. pose proof (Z.mod_pos_bound z _ Hlen) as Hb.
    destruct (lookup_lt_is_Some_2 (pc_queues c) (Z.to_nat (z mod Z.of_nat (length (pc_queues c))))) as [q Hl]; [lia|].
    exists (q ++ [(rid, ev)]). split; [|set_solver]. eapply list_elem_of_lookup_2.
    rewrite list_lookup_alter_eq, Hl. reflexivity. }
  destruct (rid =? 0); cbn; apply Hidx.
Qed.

Lemma checkpoint_frontier resolved rids : forall (f : Frontier) rid,
  foldl (fun f rid => <[rid := resolved]> f) f rids !! rid =
  if decide (rid ∈ rids) then Some resolved else f !! rid.
Proof.
  induction rids as [|r rids IH]; intros f rid; cbn [foldl]; [done|]. rewrite IH.
  destruct (decide (rid ∈ rids)); [by rewrite decide_True by set_solver|].
  destruct (decide (rid = r)) as [->|].
  - by rewrite lookup_insert_eq, decide_True by set_solver.
  - by rewrite lookup_insert_ne, decide_False by set_solver.
Qed.

(** A checkpoint is recorded ahead of the data before it.  A batch of pairs
    goes to the queue of an ingest worker, and the checkpoint that follows it is
    handled at once: when it has been persisted, and a restart would resume from
    it, the batch may still be in the queue, with nothing written to the engine. *)
Theorem checkpoint_ahead_of_data target c st next rid kvs resolved rids ok c1 next1 r c2 st2 next2 :
  pc_queues c <> [] -> rids <> [] ->
  last_recorded_ts (pc_checkpoint_mgr c) <>
    global_min_ts (foldl (fun f rid => <[rid := resolved]> f) (pc_frontier c) rids) ->
  handle_data_event c next rid (EvKvBatch kvs) = (c1, next1) ->
  handle_control_event target c1 st next1 rid (EvCheckpoint resolved rids)
    {| io_write := None; io_pd_ok := true |} ok = (r, c2, st2, next2) ->
  (exists q, q ∈ pc_queues c2 /\ (rid, EvKvBatch kvs) ∈ q)
  /\ exists f, load_checkpoint st2 = Ok f /\ forall rid', rid' ∈ rids -> f !! rid' = Some resolved.
Proof.
  intros Hq Hrids Hmin Hd Hc. destruct (data_event_queued c next rid (EvKvBatch kvs) Hq) as (q & Hin & Hev).
  rewrite Hd in Hin. cbn [fst] in Hin.
  assert (pc_frontier c1 = pc_frontier c /\ pc_checkpoint_mgr c1 = pc_checkpoint_mgr c) as [Hf Hm].
  { unfold handle_data_event in Hd. destruct (rid =? 0); injection Hd as <- _; done. }
  cbn [handle_control_event pc_set_frontier pc_checkpoint_mgr] in Hc. rewrite Hf, Hm in Hc.
  set (f := foldl _ (pc_frontier c) rids) in *.
  assert (f <> ∅) as Hne.
  { destruct rids as [|rid' rids']; [done|]. intros E.
    pose proof (checkpoint_frontier resolved (rid' :: rids') (pc_frontier c) rid') as Hl. fold f in Hl.
    rewrite E, decide_True, lookup_empty in Hl by set_solver. done. }
  destruct (global_min_some f Hne) as [m Hgm]. unfold record_checkpoint in Hc.
  rewrite bool_decide_false, Hgm in Hc by done. cbn [from_option id] in Hc. rewrite Hgm in Hmin.
  rewrite bool_decide_false in Hc by done. cbn [io_write io_pd_ok] in Hc.
  assert (pc_queues c2 = pc_queues c1 /\ cs_file st2 = CfData (Some f)) as [-> Hfile]
    by (destruct (is_cutover_ready _ _); injection Hc as _ <- <- _; done).
  split; [by exists q|]. exists f. unfold load_checkpoint. rewrite Hfile. split; [done|].
  intros rid' Hr. subst f. by rewrite checkpoint_frontier, decide_True.
Qed.

Lemma checkpoint_ahead_of_data_witness :
  let '(c1, n1) := handle_data_event lagging 0 0 (EvKvBatch [example_kv 7 70]) in
  let '(_, c2, st2, _) := handle_control_event 0 c1 {| cs_file := CfAbsent; cs_safe_point := None |} n1 0
      (EvCheckpoint 95 [1; 2]) {| io_write := None; io_pd_ok := true |} true in
  exists q, q ∈ pc_queues c2 /\ (0, EvKvBatch [example_kv 7 70]) ∈ q.
Proof.
  destruct (handle_data_event _ _ _ _) as [c1 n1] eqn:E1.
  destruct (handle_control_event _ _ _ _ _ _ _ _) as [[[r c2] st2] n2] eqn:E2.
  eapply (checkpoint_ahead_of_data 0 lagging _ 0 0 _ 95 [1; 2] true); [| | |exact E1|exact E2].
  - discriminate.
  - discriminate.
  - vm_compute. discriminate.
Defined.

(** ** Topology sync *)

Lemma subscribe_state c rid ok b c' :
  subscribe c rid ok = (b, c') ->
  pc_frontier c' = pc_frontier c /\ pc_span_mode c' = pc_span_mode c
  /\ b = bool_decide (rid ∈ pc_subscribed c) || ok
  /\ pc_subscribed c' = if ok then {[rid]} ∪ pc_subscribed c else pc_subscribed c.
Proof.
  unfold subscribe. case_bool_decide as Hs; [|destruct ok]; intros [= <- <-]; split_and!; try done.
  destruct ok; [|done]. apply set_eq. set_solver.
Qed.

(** Whether a subscription of a region succeeds. *)
Definition may_subscribe (ok : u64 -> bool) (c : PcrComponents) (rid : u64) : bool :=
  bool_decide (rid ∈ pc_subscribed c) || ok rid.

Lemma sync_new_frontier ok resume rids : forall c rid,
  pc_frontier (foldl (sync_new ok resume) c (map NewRegion rids)) !! rid =
  if decide (rid ∈ rids) then
    if may_subscribe ok c rid && (0 <? resume) then Some resume else pc_frontier c !! rid
  else pc_frontier c !! rid.
Proof.
  induction rids as [|r rids IH]; intros c rid; cbn [foldl map]; [done|]. rewrite IH. clear IH.
  cbn [sync_new]. destruct (subscribe c r (ok r)) as [b c'] eqn:Es.
  apply subscribe_state in Es as (Hf & _ & -> & Hs). fold (may_subscribe ok c r).
  set (c1 := if may_subscribe ok c r && _ then _ else _).
  assert (may_subscribe ok c1 rid = may_subscribe ok c rid) as ->.
  { assert (pc_subscribed c1 = pc_subscribed c') as Hc1 by (subst c1; by destruct (_ && _)).
    unfold may_subscribe. rewrite Hc1, Hs. destruct (ok r) eqn:Hok; [|done].
    destruct (decide (rid = r)) as [->|]; [by rewrite Hok, !orb_true_r|].
    f_equal. apply bool_decide_ext. set_solver. }
  assert (pc_frontier c1 !! rid = if decide (rid = r) then
      if may_subscribe ok c r && (0 <? resume) then Some resume else pc_frontier c !! rid
      else pc_frontier c !! rid) as ->.
  { subst c1. destruct (may_subscribe ok c r && (0 <? resume)); cbn [pc_set_frontier pc_frontier]; rewrite Hf.
    - case_decide as E; [subst; by rewrite lookup_insert_eq|by rewrite lookup_insert_ne].
    - by case_decide. }
  destruct (decide (rid = r)) as [->|Hne].
  - rewrite (decide_True (P := r ∈ r :: rids)) by set_solver.
    destruct (may_subscribe ok c r && (0 <? resume)); by case_decide.
  - destruct (decide (rid ∈ rids)); [by rewrite decide_True by set_solver|by rewrite decide_False by set_solver].
Qed.

Lemma sync_removed_frontier rids : forall c rid,
  pc_frontier (foldl sync_removed c (map RemovedRegion rids)) !! rid =
  if decide (rid ∈ rids) then None else pc_frontier c !! rid.
Proof.
  induction rids as [|r rids IH]; intros c rid; cbn [foldl map sync_removed]; [done|]. rewrite IH.
  cbn [pc_set_frontier pc_frontier]. destruct (decide (rid ∈ rids)); [by rewrite decide_True by set_solver|].
  destruct (decide (rid = r)) as [->|].
  - by rewrite lookup_delete_eq, decide_True by set_solver.
  - by rewrite lookup_delete_ne, decide_False by set_solver.
Qed.

(** What a topology sync does to the frontier.  When the placement driver
    returns no region, nothing; otherwise the regions it no longer has are
    dropped, the progress of the others is kept, and a region it has that was
    not tracked is tracked from the global minimum if there is one, unless span
    mode leaves it to the source or its subscription failed. *)
Theorem topology_sync_correct ok c pd :
  (pd = [] -> rediscover ok c pd = c)
  /\ (pd <> [] -> forall rid, pc_frontier (rediscover ok c pd) !! rid =
        if decide (rid ∈ map pd_id pd) then
          match pc_frontier c !! rid with
          | Some ts => Some ts
          | None =>
              let resume_ts := default 0 (global_min_ts (pc_frontier c)) in
              if negb (pc_span_mode c) && may_subscribe ok c rid && (0 <? resume_ts)
              then Some resume_ts else None
          end
        else None).
Proof.
  split; [by intros ->|]. intros Hne rid. unfold rediscover. destruct pd as [|x pd]; [done|].
  set (pds := x :: pd). cbn [diff_topology new_regions removed_regions].
  rewrite sync_removed_frontier, <-(map_map pd_id NewRegion).
  set (resume := default 0 _). set (news := map pd_id (filter _ _)).
  assert (Hnews : rid ∈ news <-> rid ∈ map pd_id pds /\ pc_frontier c !! rid = None).
  { subst news. split.
    - intros (y & -> & [Hy Hin]%list_elem_of_filter)%list_elem_of_fmap. split; [|done]. by apply list_elem_of_fmap_2.
    - intros [(y & -> & Hin)%list_elem_of_fmap Hn]. apply list_elem_of_fmap_2. by apply list_elem_of_filter. }
  assert (Hrem : rid ∈ filter (fun rid => rid ∉ (list_to_set (map pd_id pds) : gset Z)) (map_to_list (pc_frontier c)).*1
     <-> is_Some (pc_frontier c !! rid) /\ ~ rid ∈ map pd_id pds).
  { rewrite list_elem_of_filter, elem_of_list_to_set, list_elem_of_fmap. split.
    - intros [Hn ([r ts] & -> & Hin%elem_of_map_to_list)]. cbn in *. split; [by exists ts|done].
    - intros [[ts Hts] Hn]. split; [done|]. exists (rid, ts). split; [done|]. by apply elem_of_map_to_list. }
  assert (pc_frontier (if pc_span_mode c then c else foldl (sync_new ok resume) c (map NewRegion news)) !! rid =
     if decide (rid ∈ news) then
       if negb (pc_span_mode c) && may_subscribe ok c rid && (0 <? resume) then Some resume else pc_frontier c !! rid
     else pc_frontier c !! rid) as ->.
  { destruct (pc_span_mode c); [by case_decide|]. apply sync_new_frontier. }
  destruct (pc_frontier c !! rid) as [ts|] eqn:Hl.
  - rewrite (decide_False (P := rid ∈ news)) by (rewrite Hnews; naive_solver).
    do 2 case_decide; try done; exfalso; rewrite Hrem in *; naive_solver.
  - rewrite decide_False by (rewrite Hrem; intros [[? ?] _]; done).
    do 2 case_decide; try done; exfalso; rewrite Hnews in *; tauto.
Qed.

(** ** The life cycle *)

(** Pause and resume continue from the frontier: what the manager recorded last
    is in the file. *)
Definition recorded (c : PcrComponents) (st : CheckpointStore) : Prop :=
  match last_recorded_ts (pc_checkpoint_mgr c) with
  | None => True
  | Some ts => exists f, cs_file st = CfData (Some f) /\ global_min_ts f = Some ts
  end.

(** Pausing and resuming continues from where replication was.  A running
    task that is paused and resumed, with its writes succeeding, runs a new
    event loop in span mode with empty queues that starts from the minimum of the
    frontier at the pause, so that nothing after it is skipped. *)
Theorem pause_resume_continues t c env env' ts :
  t_state t = TsSubscribing -> t_loop t = Some (ElRunning c) -> recorded c (t_store t) ->
  global_min_ts (pc_frontier c) = Some ts -> io_write (te_io env) = None ->
  let t' := run_task (run_task t TPauseReplication env) TResumeReplication env' in
  t_state t' = TsSubscribing /\ exists c', t_loop t' = Some (ElRunning c') /\ pc_resume_ts c' = ts
    /\ pc_span_mode c' = true /\ pc_queues c' = replicate INGEST_WORKERS []
    /\ global_min_ts (pc_frontier c') = Some ts.
Proof.
  intros Hs Hl Hrec Hmin Hio t'.
  assert (pc_frontier c <> ∅) as Hne by (intros E; by rewrite E, global_min_empty in Hmin).
  assert (exists f, cs_file (loop_exit c (t_store t) (te_io env)) = CfData (Some f) /\ global_min_ts f = Some ts)
    as (f & Hfile & Hf).
  { unfold loop_exit, record_checkpoint. rewrite !bool_decide_false by done. rewrite Hmin. cbn [from_option id].
    case_bool_decide as Hlr; cbn [snd]; [unfold recorded in Hrec; by rewrite Hlr in Hrec|].
    rewrite Hio. destruct (io_pd_ok _); by exists (pc_frontier c). }
  set (t1 := run_task t TPauseReplication env).
  assert (t_state t1 = TsPaused /\ t_components t1 = Some PcrComponents_new
      /\ t_store t1 = loop_exit c (t_store t) (te_io env)) as (H1 & H2 & H3).
  { subst t1. cbn [run_task]. rewrite bool_decide_true by done. unfold persist_state, stop_event_loop.
    rewrite Hl. by destruct (te_write_state env). }
  assert (f <> ∅) as Hfne by (intros ->; done).
  assert (forall t0, t_state (persist_state t0 env') = t_state t0 /\ t_loop (persist_state t0 env') = t_loop t0) as Hp
    by (intros t0; unfold persist_state; by destruct (te_write_state env')).
  subst t'. fold t1. clearbody t1. cbn [run_task]. rewrite bool_decide_true by done.
  destruct (Hp (spawn_event_loop (t_set_state t1 TsSubscribing) false)) as [-> ->].
  unfold spawn_event_loop. cbn [t_set_state t_components t_store]. unfold load_checkpoint.
  rewrite H2, H3, Hfile. rewrite bool_decide_false by done. cbn. rewrite Hf. split; [done|].
  eexists. split_and!; reflexivity || done.
Qed.

Definition env_ok : task_env :=
  {| te_io := {| io_write := None; io_pd_ok := true |}; te_write_state := true; te_write_pd := true;
     te_wait := CwDone {| cs_file := CfAbsent; cs_safe_point := None |}; te_clear_pd := true;
     te_remove_checkpoint := true; te_remove_state := true |}.

(** A task that replicates, with progress on two regions. *)
Definition replicating : StreamIngestTask :=
  let t := StreamIngestTask_new true false None None {| cs_file := CfAbsent; cs_safe_point := None |} in
  let t := run_task t (TCreateReplication [1]) env_ok in
  t_set_loop t (t_components t) (Some (ElRunning lagging)).

Lemma pause_resume_continues_witness :
  exists c', t_loop (run_task (run_task replicating TPauseReplication env_ok) TResumeReplication env_ok)
             = Some (ElRunning c') /\ pc_resume_ts c' = 10.
Proof.
  destruct (pause_resume_continues replicating lagging env_ok env_ok 10) as (_ & c' & Hl & Hr & _);
    try reflexivity.
  exists c'. split; [exact Hl|exact Hr].
Defined.

Lemma guard_persist t e : t_write_guard (persist_state t e) = t_write_guard t.
Proof. unfold persist_state. by destruct (te_write_state _). Qed.
Lemma guard_set_state t s : t_write_guard (t_set_state t s) = t_write_guard t.
Proof. done. Qed.
Lemma guard_stop t e : t_write_guard (stop_event_loop t e) = t_write_guard t.
Proof. unfold stop_event_loop. by destruct (t_loop _) as [[]|]. Qed.
Lemma guard_spawn t b : t_write_guard (spawn_event_loop t b) = t_write_guard t.
Proof. unfold spawn_event_loop. by destruct (if b then _ else _). Qed.

Lemma persist_keeps t e : t_state (persist_state t e) = t_state t /\ t_loop (persist_state t e) = t_loop t.
Proof. unfold persist_state. by destruct (te_write_state _). Qed.
Lemma persist_cutover t e : t_cutover_ts (persist_state t e) = t_cutover_ts t.
Proof. unfold persist_state. by destruct (te_write_state _). Qed.
Lemma spawn_keeps t b : t_state (spawn_event_loop t b) = t_state t /\ is_Some (t_loop (spawn_event_loop t b)).
Proof. unfold spawn_event_loop. destruct (if b then _ else _). split; [done|by eexists]. Qed.

Lemma guard_start t pd full e :
  t_write_guard t = true \/ start_accepted (t_state t) = true ->
  t_write_guard (start_replication t pd full e) = true.
Proof.
  intros H. unfold start_replication. destruct (start_accepted (t_state t)); [|by destruct H].
  cbv zeta. by rewrite guard_persist, guard_spawn.
Qed.

Lemma guard_run t task e :
  task <> TActivate -> t_write_guard t = true -> t_write_guard (run_task t task e) = true.
Proof.
  intros Hna Hg. destruct task; cbn [run_task]; try done; auto using guard_start.
  - destruct (bool_decide _); [|done]. by rewrite guard_persist, guard_set_state, guard_stop.
  - destruct (bool_decide _); [|done]. by rewrite guard_persist, guard_spawn.
  - destruct (bool_decide _); [|done]. cbv zeta. set (t2 := persist_state _ e).
    assert (t_write_guard t2 = true) as Hg2 by (subst t2; by rewrite guard_persist).
    destruct (t_loop t2); [|done]. destruct (te_wait e); cbn; by rewrite ?guard_persist.
  - cbv zeta. rewrite guard_persist, guard_set_state. destruct (bool_decide _); by rewrite ?guard_stop.
Qed.

(** C33. Write protection within a process.  A start or create command that is
    taken leaves the task subscribing and the target protected; the target stays
    protected under every further command, whatever the outside does, until the
    target is activated. *)
Theorem replication_protected t source_pd full env cmds :
  start_accepted (t_state t) = true -> Forall (fun x => fst x <> TActivate) cmds ->
  let t0 := start_replication t source_pd full env in
  t_state t0 = TsSubscribing /\ is_Some (t_loop t0)
  /\ t_write_guard (foldl (fun t x => run_task t (fst x) (snd x)) t0 cmds) = true.
Proof.
  intros Ha Hc t0. assert (t_write_guard t0 = true) as Hg0 by (apply guard_start; by right).
  assert (t_state t0 = TsSubscribing /\ is_Some (t_loop t0)) as [Hs Hl].
  { subst t0. unfold start_replication. rewrite Ha. cbv zeta. set (t1 := t_set_guard _ true).
    destruct (persist_keeps (spawn_event_loop t1 full) env) as [-> ->].
    destruct (spawn_keeps t1 full) as [-> ?]. done. }
  split_and!; [done|done|]. clear Ha Hs Hl. clearbody t0. revert t0 Hg0.
  induction Hc as [|[task e] cmds Hx Hc IH]; intros t0 Hg0; cbn; [done|].
  apply IH. by apply guard_run.
Qed.

Lemma replication_protected_witness :
  t_write_guard (foldl (fun t x => run_task t (fst x) (snd x))
    (start_replication (StreamIngestTask_new true false None None {| cs_file := CfAbsent; cs_safe_point := None |})
       [1] true env_ok) [(TPauseReplication, env_ok); (TResumeReplication, env_ok); (TShutdown, env_ok)]) = true.
Proof.
  apply (replication_protected (StreamIngestTask_new true false None None {| cs_file := CfAbsent; cs_safe_point := None |})).
  - reflexivity.
  - repeat constructor; discriminate.
Defined.

(** No write protection after a restart.  A process that restarts while it
    replicates or is paused comes back paused with the storage's flag cleared,
    and resuming does not set it: the task is subscribing and the target takes
    writes. *)
Theorem resume_after_restart_unprotected enable file pd store env :
  file = Some (task_state_name TsSubscribing) \/ file = Some (task_state_name TsPaused) ->
  let t := run_task (StreamIngestTask_new enable false file pd store) TResumeReplication env in
  t_state t = TsSubscribing /\ is_Some (t_loop t) /\ t_write_guard t = false.
Proof.
  intros Hfile t. assert (t_state (StreamIngestTask_new enable false file pd store) = TsPaused) as Hp
    by (destruct Hfile as [-> | ->]; reflexivity).
  subst t. cbn [run_task]. rewrite bool_decide_true by done. set (t1 := t_set_state _ TsSubscribing).
  destruct (persist_keeps (spawn_event_loop t1 false) env) as [-> ->]. rewrite guard_persist, guard_spawn.
  destruct (spawn_keeps t1 false) as [-> ?]. done.
Qed.

Lemma resume_after_restart_unprotected_witness :
  t_write_guard (run_task (StreamIngestTask_new true false (t_state_file replicating) None (t_store replicating))
    TResumeReplication env_ok) = false.
Proof.
  apply (resume_after_restart_unprotected true (t_state_file replicating) None (t_store replicating) env_ok).
  left. reflexivity.
Defined.

(** A finished cutover stays armed.  After a cutover to [ts] has completed,
    a replication that is created anew still has the old target: the first
    checkpoint it receives at or after [ts] ends its event loop, although no
    cutover was asked for. *)
Theorem cutover_target_survives t ts st env env' source_pd l :
  t_state t = TsSubscribing -> t_loop t = Some l -> te_wait env = CwDone st -> 0 < ts < u64_max ->
  let t' := run_task (run_task t (TCutover ts) env) (TCreateReplication source_pd) env' in
  t_state t' = TsSubscribing /\ exists c, t_loop t' = Some (ElRunning c) /\
    forall st next rid resolved rids ok, rids <> [] -> ts <= resolved ->
      fst (fst (fst (loop_event (t_cutover_ts t') c st next rid (EvCheckpoint resolved rids)
                       {| io_write := None; io_pd_ok := true |} ok))) = true.
Proof.
  intros Hs Hl Hw Hts t'.
  set (t1 := run_task t (TCutover ts) env).
  assert (t_state t1 = TsCompleted /\ t_components t1 = Some PcrComponents_new /\ t_cutover_ts t1 = ts)
    as (H1 & H2 & H3).
  { subst t1. cbn [run_task]. rewrite bool_decide_true by done. cbv zeta.
    set (t2 := persist_state _ env). assert (t_loop t2 = Some l) as -> by (subst t2; by rewrite (proj2 (persist_keeps _ _))).
    rewrite Hw. split_and!; [|done|].
    - exact (proj1 (persist_keeps (t_set_state t2 TsCompleted) env)).
    - change (t_cutover_ts (persist_state (t_set_state t2 TsCompleted) env) = ts).
      rewrite persist_cutover. subst t2. exact (persist_cutover _ env). }
  assert (t_cutover_ts t' = ts /\ t_state t' = TsSubscribing /\ exists c, t_loop t' = Some (ElRunning c)
      /\ pc_frontier c = ∅ /\ pc_checkpoint_mgr c = CheckpointManager_new) as (-> & H5 & c & H6 & H7 & H8).
  { subst t'. fold t1. clearbody t1. cbn [run_task]. unfold start_replication. rewrite H1. cbn [start_accepted].
    rewrite bool_decide_false by done. unfold persist_state, spawn_event_loop, set_source_pd.
    cbn [t_set_guard t_set_state t_components]. rewrite H2.
    destruct (te_write_state env'); cbn; (split_and!; [done|done|]); eexists; split_and!; reflexivity. }
  split; [done|]. exists c. split; [done|]. intros st0 next rid resolved rids ok Hrids Hres.
  cbn [loop_event handle_control_event pc_set_frontier pc_checkpoint_mgr]. rewrite H7, H8.
  set (f := foldl _ ∅ rids).
  assert (is_cutover_ready ts f = true) as Hready.
  { apply cutover_ready_spec.
    - intros r t0 Hr. subst f. rewrite checkpoint_frontier in Hr. case_decide; [injection Hr as <-; cbn; lia|done].
    - split_and!; [lia| |].
      + destruct rids as [|r0 rids]; [done|]. intros E.
        pose proof (checkpoint_frontier resolved (r0 :: rids) ∅ r0) as Hr. fold f in Hr.
        rewrite E, decide_True, lookup_empty in Hr by set_solver. done.
      + intros r t0 Hr. subst f. rewrite checkpoint_frontier in Hr. case_decide; [|done].
        injection Hr as <-. split; [lia|right; lia]. }
  unfold record_checkpoint. destruct (bool_decide (f = ∅)); [by rewrite Hready|].
  destruct (bool_decide _); [by rewrite Hready|]. cbn [io_pd_ok]. by rewrite Hready.
Qed.

Lemma cutover_target_survives_witness :
  t_cutover_ts (run_task (run_task replicating (TCutover 5) env_ok) (TCreateReplication [2]) env_ok) = 5
  /\ t_state (run_task (run_task replicating (TCutover 5) env_ok) (TCreateReplication [2]) env_ok) = TsSubscribing.
Proof.
  split; [reflexivity|].
  eapply (cutover_target_survives replicating 5 _ env_ok env_ok [2]); [reflexivity|reflexivity|reflexivity|].
  split; reflexivity.
Defined.

(** ** Span resolution *)

(** A key lies in both ranges; an empty end is unbounded. *)
Definition overlap (s e rs re : bytes) : Prop :=
  exists k, bytes_leb s k = true /\ (e = [] \/ bytes_ltb k e = true)
         /\ bytes_leb rs k = true /\ (re = [] \/ bytes_ltb k re = true).

Lemma bytes_le_lt a b c : bytes_leb a b = true -> bytes_ltb b c = true -> bytes_ltb a c = true.
Proof.
  rewrite bytes_leb_lt_or_eq. unfold bytes_ltb. intros [H1| ->]; [|done].
  destruct (bytes_cmp b c) eqn:H2; try done. by rewrite (bytes_cmp_lt_trans _ _ _ H1 H2).
Qed.

(** Which regions a span resolves to.  Between bounded ranges the test is
    exact: a region is included just when it has a key of the span.  The last
    region of the key space, which has no end, is left out of every span that
    has a start key, and a span without an end but with a start includes no
    region with a boundary, although both have keys in common. *)
Theorem resolve_span_overlap s e rs re :
  (e <> [] -> re <> [] -> bytes_ltb s e = true -> bytes_ltb rs re = true ->
     (span_overlaps s e rs re = true <-> overlap s e rs re))
  /\ (s <> [] -> rs <> [] -> span_overlaps s e rs [] = false)
  /\ (s <> [] -> re <> [] -> span_overlaps s [] rs re = false)
  /\ (bytes_leb rs s = true -> e = [] \/ bytes_ltb s e = true -> overlap s e rs []).
Proof.
  unfold span_overlaps. split_and!.
  - intros He Hre Hse Hrse. rewrite !(bool_decide_false (e = [])), !(bool_decide_false (re = [])) by done.
    rewrite !andb_false_r. cbn [orb]. split.
    + intros [H1 H2]%andb_true_iff. assert (bytes_ltb s re = true) as Hsre.
      { apply orb_true_iff in H2 as [Hs|?]; [|done]. apply bool_decide_eq_true in Hs as ->.
        by destruct re. }
      destruct (bytes_leb_total s rs) as [Hle|Hle].
      * exists rs. split_and!; [done|by right|apply bytes_leb_lt_or_eq; by right|by right].
      * exists s. split_and!; [apply bytes_leb_lt_or_eq; by right|by right|done|by right].
    + intros (k & H1 & [?|H2] & H3 & [?|H4]); try done.
      rewrite (bytes_le_lt rs k e) by done. rewrite (bytes_le_lt s k re) by done. by rewrite orb_true_r.
  - intros Hs Hrs. rewrite !(bool_decide_false (s = [])), (bool_decide_false (rs = [])) by done.
    cbn [andb orb]. assert (bytes_ltb s [] = false) as -> by (by destruct s). by rewrite andb_false_r.
  - intros Hs Hre. rewrite !(bool_decide_false (s = [])), !(bool_decide_false (re = [])) by done.
    rewrite andb_false_r. cbn [andb orb]. assert (bytes_ltb rs [] = false) as -> by (by destruct rs). done.
  - intros H1 H2. exists s. split_and!; [apply bytes_leb_lt_or_eq; by right|done|done|by left].
Qed.
