(* ===== verification/Latch.v ===== *)
(** * Latches of the transaction scheduler

    [src/storage/txn/latch.rs]: the waiting queues that serialize commands on
    keys with the same hash.  A slot is the list of its queue, with a hole where
    an element that was not at the front has been removed; the hash of a key is a
    parameter.  Every slot is behind a mutex which [acquire] and [release] take
    once per hash, so that the bodies of their loops, [acquire_one] and
    [release_one], are the atomic steps; commands interleave between them in the
    step relation [latch_step].

    Theorems: each slot implements one FIFO queue per hash
    ([latch_step_fifo]); in every reachable state two commands that hold
    their latches have no hash in common, and [release] never trips an assertion
    ([latches_exclusive]); whatever the interleaving, commands do not block each
    other for ever: without new ones, all finish within a number of steps that the
    state gives ([latches_deadlock_free]); what the sequential [acquire] and [release]
    do, also when latches are kept for a following command
    ([release_keeps_latches]). *)

From Stdlib Require Import ZArith Lia.
From stdpp Require Import base numbers list gmap sets sorting relations.
From S2P Require Import Prelude.

Open Scope Z_scope.

(** ** One slot *)

Definition Latch : Type := list (option (u64 * u64)).

Definition Latch_new : Latch := [].

Fixpoint get_first_req_by_hash (l : Latch) (hash : u64) : option u64 :=
  match l with
  | [] => None
  | Some (h, cid) :: l => if h =? hash then Some cid else get_first_req_by_hash l hash
  | None :: l => get_first_req_by_hash l hash
  end.

(** The holes at the front. *)
Fixpoint maybe_shrink (l : Latch) : Latch :=
  match l with None :: l => maybe_shrink l | _ => l end.

(** The search in the rest of the queue; the element that is taken leaves a hole. *)
Fixpoint take_by_hash (l : Latch) (key_hash : u64) : option (u64 * u64) * Latch :=
  match l with
  | [] => (None, [])
  | Some (h, cid) :: l' =>
      if h =? key_hash then (Some (h, cid), None :: l')
      else let '(r, l'') := take_by_hash l' key_hash in (r, Some (h, cid) :: l'')
  | None :: l' => let '(r, l'') := take_by_hash l' key_hash in (r, None :: l'')
  end.

Definition pop_front (l : Latch) (key_hash : u64) : option (u64 * u64) * Latch :=
  match l with
  | [] => (None, [])
  | Some (h, cid) :: l' =>
      if h =? key_hash then (Some (h, cid), maybe_shrink l') else take_by_hash l key_hash
  | None :: l' => take_by_hash l' key_hash
  end.

Definition wait_for_wake (l : Latch) (key_hash cid : u64) : Latch := l ++ [Some (key_hash, cid)].
Definition push_preemptive (l : Latch) (key_hash cid : u64) : Latch := Some (key_hash, cid) :: l.

(** ** [Lock] *)

Record LatchLock : Type := { required_hashes : list u64; owned_count : nat }.

(** [Vec::dedup] *)
Fixpoint dedup (l : list Z) : list Z :=
  match l with
  | x :: ((y :: _) as l') => if x =? y then dedup l' else x :: dedup l'
  | l => l
  end.

Definition LatchLock_new {K} (hash : K -> u64) (keys : list K) : LatchLock :=
  {| required_hashes := dedup (merge_sort Z.le (map hash keys)); owned_count := 0 |}.

Definition acquired (l : LatchLock) : bool := (length (required_hashes l) =? owned_count l)%nat.
Definition force_assume_acquired (l : LatchLock) : LatchLock :=
  {| required_hashes := required_hashes l; owned_count := length (required_hashes l) |}.
Definition is_write_lock (l : LatchLock) : bool := negb (bool_decide (required_hashes l = [])).

(** ** [Latches] *)

Record Latches : Type := { slots : list Latch; latches_size : u64 }.

(** [usize::next_power_of_two] *)
Definition next_power_of_two (n : u64) : u64 := if n <=? 1 then 1 else 2 ^ Z.log2_up n.

Definition Latches_new (size : u64) : Latches :=
  let size := next_power_of_two size in
  {| slots := replicate (Z.to_nat size) Latch_new; latches_size := size |}.

(** [lock_latch]: the index of the slot. *)
Definition slot_index (ls : Latches) (hash : u64) : nat := Z.to_nat (Z.land hash (latches_size ls - 1)).
Definition lock_latch (ls : Latches) (hash : u64) : Latch := default [] (slots ls !! slot_index ls hash).
Definition put_latch (ls : Latches) (hash : u64) (l : Latch) : Latches :=
  {| slots := <[slot_index ls hash := l]> (slots ls); latches_size := latches_size ls |}.

(** One turn of the loop of [acquire]: whether the latch is acquired. *)
Definition acquire_one (ls : Latches) (key_hash who : u64) : bool * Latches :=
  let latch := lock_latch ls key_hash in
  match get_first_req_by_hash latch key_hash with
  | Some cid =>
      if cid =? who then (true, ls)
      else (false, put_latch ls key_hash (wait_for_wake latch key_hash who))
  | None => (true, put_latch ls key_hash (wait_for_wake latch key_hash who))
  end.

(** The loop; the count of latches acquired. *)
Fixpoint acquire_loop (ls : Latches) (hashes : list u64) (who : u64) : nat * Latches :=
  match hashes with
  | [] => (0%nat, ls)
  | key_hash :: hashes =>
      match acquire_one ls key_hash who with
      | (true, ls) => let '(n, ls) := acquire_loop ls hashes who in (S n, ls)
      | (false, ls) => (0%nat, ls)
      end
  end.

Definition acquire (ls : Latches) (lock : LatchLock) (who : u64) : bool * LatchLock * Latches :=
  let '(acquired_count, ls) := acquire_loop ls (drop (owned_count lock) (required_hashes lock)) who in
  let lock := {| required_hashes := required_hashes lock;
                 owned_count := owned_count lock + acquired_count |} in
  (acquired lock, lock, ls).

(** One turn of the loop of [release]: the latches, the hashes still to keep and
    the command to wake. *)
Definition release_one (ls : Latches) (key_hash who : u64) (keep_cid : option u64) (keep : list u64)
    : res unit (Latches * list u64 * option u64) :=
  let latch := lock_latch ls key_hash in
  let '(popped, latch) := pop_front latch key_hash in
  '(v, front) ← unwrap popped;
  _ ← assert_ (front =? who);
  _ ← assert_ (v =? key_hash);
  '(keep_for_next_cmd, keep) ←
    match keep with
    | next_keep_hash :: keep' =>
        _ ← assert_ (key_hash <=? next_keep_hash);
        Ok (if next_keep_hash =? key_hash then (true, keep') else (false, keep))
    | [] => Ok (false, [])
    end;
  if (keep_for_next_cmd : bool) then
    cid ← unwrap keep_cid;
    Ok (put_latch ls key_hash (push_preemptive latch key_hash cid), keep, None)
  else
    Ok (put_latch ls key_hash latch, keep, get_first_req_by_hash latch key_hash).

Fixpoint release_loop (ls : Latches) (hashes : list u64) (who : u64) (keep_cid : option u64)
    (keep wakeup_list : list u64) : res unit (Latches * list u64) :=
  match hashes with
  | [] => _ ← assert_ (bool_decide (keep = [])); Ok (ls, wakeup_list)
  | key_hash :: hashes =>
      '(ls, keep, wakeup) ← release_one ls key_hash who keep_cid keep;
      release_loop ls hashes who keep_cid keep
        (wakeup_list ++ match wakeup with Some cid => [cid] | None => [] end)
  end.

Definition release (ls : Latches) (lock : LatchLock) (who : u64) (keep_latches_for_next_cmd : option (u64 * LatchLock))
    : res unit (Latches * list u64) :=
  release_loop ls (take (owned_count lock) (required_hashes lock)) who
    (fst <$> keep_latches_for_next_cmd)
    (match keep_latches_for_next_cmd with Some (_, lock) => required_hashes lock | None => [] end) [].

(** ** The queue of a hash *)

Definition entry_cid (h : u64) (x : option (u64 * u64)) : option u64 :=
  match x with Some (h', cid) => if h' =? h then Some cid else None | None => None end.

(** The commands in a slot that wait for a hash, the first one first. *)
Definition cids (h : u64) (l : Latch) : list u64 := omap (entry_cid h) l.

Definition queue (ls : Latches) (h : u64) : list u64 := cids h (lock_latch ls h).

Lemma first_req_head l h : get_first_req_by_hash l h = head (cids h l).
Proof.
  induction l as [|[[h' c]|] l IH]; cbn; [done| |done].
  destruct (h' =? h); [done|]. apply IH.
Qed.

Lemma maybe_shrink_cids l h : cids h (maybe_shrink l) = cids h l.
Proof. induction l as [|[[h' c]|] l IH]; cbn; done. Qed.

Lemma cids_cons x l h : cids h (x :: l) = match entry_cid h x with Some c => c :: cids h l | None => cids h l end.
Proof. unfold cids. cbn. by destruct (entry_cid h x). Qed.

Lemma cids_app l l' h : cids h (l ++ l') = cids h l ++ cids h l'.
Proof. apply omap_app. Qed.

Lemma take_by_hash_spec l h : forall r l', take_by_hash l h = (r, l') ->
  r = (fun c => (h, c)) <$> head (cids h l)
  /\ cids h l' = tail (cids h l) /\ forall h', h' <> h -> cids h' l' = cids h' l.
Proof.
  induction l as [|[[h0 c]|] l IH]; intros r l' E; cbn [take_by_hash] in E.
  - injection E as <- <-. done.
  - destruct (Z.eqb_spec h0 h) as [->|Hne].
    + injection E as <- <-. rewrite !cids_cons. cbn [entry_cid]. rewrite Z.eqb_refl. split_and!; [done|done|].
      intros h' Hh. rewrite !cids_cons. cbn [entry_cid]. by rewrite (proj2 (Z.eqb_neq h h')) by done.
    + destruct (take_by_hash l h) as [r1 l1]. injection E as <- <-.
      destruct (IH _ _ eq_refl) as (-> & Ht & Ho). rewrite !cids_cons. cbn [entry_cid].
      rewrite (proj2 (Z.eqb_neq h0 h)) by done. split_and!; [done|done|].
      intros h' Hh. rewrite !cids_cons, Ho by done. done.
  - destruct (take_by_hash l h) as [r1 l1]. injection E as <- <-.
    destruct (IH _ _ eq_refl) as (-> & Ht & Ho). split_and!; [done|done|]. intros h' Hh. by apply Ho.
Qed.

Lemma pop_front_spec l h r l' : pop_front l h = (r, l') ->
  r = (fun c => (h, c)) <$> head (cids h l)
  /\ cids h l' = tail (cids h l) /\ forall h', h' <> h -> cids h' l' = cids h' l.
Proof.
  unfold pop_front. destruct l as [|[[h0 c]|] l]; intros E.
  - injection E as <- <-. done.
  - destruct (Z.eqb_spec h0 h) as [->|Hne]; [|by apply take_by_hash_spec in E].
    injection E as <- <-. rewrite cids_cons, maybe_shrink_cids. cbn [entry_cid]. rewrite Z.eqb_refl.
    split_and!; [done|done|]. intros h' Hh. rewrite maybe_shrink_cids, cids_cons. cbn [entry_cid].
    by rewrite (proj2 (Z.eqb_neq h h')) by done.
  - by apply take_by_hash_spec in E.
Qed.

Lemma wait_for_wake_cids l h c h' :
  cids h' (wait_for_wake l h c) = cids h' l ++ (if h =? h' then [c] else []).
Proof. unfold wait_for_wake. rewrite cids_app. cbn. by destruct (h =? h'). Qed.

Lemma push_preemptive_cids l h c h' :
  cids h' (push_preemptive l h c) = (if h =? h' then [c] else []) ++ cids h' l.
Proof. unfold push_preemptive. rewrite cids_cons. cbn. by destruct (h =? h'). Qed.

(** *** The queues of all hashes *)

(** The slots are as many as the size says, a power of two. *)
Definition latches_ok (ls : Latches) : Prop :=
  (exists k, 0 <= k /\ latches_size ls = 2 ^ k) /\ length (slots ls) = Z.to_nat (latches_size ls).

Lemma Latches_new_ok n : latches_ok (Latches_new n).
Proof.
  split; cbn; [|by rewrite length_replicate]. unfold next_power_of_two.
  destruct (Z.leb_spec n 1); [by exists 0|]. exists (Z.log2_up n). split; [apply Z.log2_up_nonneg|done].
Qed.

Lemma slot_index_lt ls h : latches_ok ls -> (slot_index ls h < length (slots ls))%nat.
Proof.
  intros ((k & Hk & Hs) & ->). unfold slot_index. rewrite Hs.
  replace (2 ^ k - 1) with (Z.ones k) by (rewrite Z.ones_equiv; lia).
  rewrite Z.land_ones by done. pose proof (Z.mod_pos_bound h (2 ^ k)). lia.
Qed.

Lemma put_latch_ok ls h l : latches_ok ls -> latches_ok (put_latch ls h l).
Proof. intros [Hs Hl]. split; cbn; [done|]. by rewrite length_insert. Qed.

(** Replacing the slot of a hash changes the queues of the hashes in that slot. *)
Lemma put_latch_queue ls h l h' :
  latches_ok ls -> (forall h', h' <> h -> cids h' l = cids h' (lock_latch ls h)) ->
  queue (put_latch ls h l) h' = if decide (h' = h) then cids h l else queue ls h'.
Proof.
  intros Hok Ho. unfold queue, lock_latch, put_latch, slot_index. cbn [slots latches_size].
  fold (slot_index ls h) (slot_index ls h').
  destruct (decide (slot_index ls h' = slot_index ls h)) as [Hi|Hi].
  - rewrite Hi, list_lookup_insert_eq by (by apply slot_index_lt). cbn [from_option]. unfold id.
    case_decide as Hh; [by subst|]. rewrite (Ho h' Hh). unfold lock_latch. by rewrite <-Hi.
  - rewrite list_lookup_insert_ne by done. case_decide as Hh; [by subst|done].
Qed.

Lemma Latches_new_queue n h : queue (Latches_new n) h = [].
Proof.
  unfold queue, lock_latch. cbn. destruct (replicate _ _ !! _) as [l|] eqn:E; [|done].
  apply lookup_replicate in E as [-> _]. done.
Qed.

Lemma acquire_one_queue ls h c b ls' :
  latches_ok ls -> acquire_one ls h c = (b, ls') ->
  latches_ok ls' /\ b = bool_decide (queue ls h = [] \/ head (queue ls h) = Some c)
  /\ forall h', queue ls' h' =
       if decide (h' = h) then (if decide (head (queue ls h) = Some c) then queue ls h else queue ls h ++ [c])
       else queue ls h'.
Proof.
  intros Hok. unfold acquire_one. rewrite first_req_head. fold (queue ls h).
  assert (Hput : forall h', queue (put_latch ls h (wait_for_wake (lock_latch ls h) h c)) h' =
     if decide (h' = h) then queue ls h ++ [c] else queue ls h').
  { intros h'. rewrite put_latch_queue; [|done|].
    - rewrite wait_for_wake_cids, Z.eqb_refl. done.
    - intros h0 Hh. rewrite wait_for_wake_cids. rewrite (proj2 (Z.eqb_neq h h0)) by done. by rewrite app_nil_r. }
  destruct (head (queue ls h)) as [c0|] eqn:Eh.
  - destruct (Z.eqb_spec c0 c) as [->|Hne]; intros [= <- <-].
    + split_and!; [done| |].
      * by rewrite bool_decide_true by (by right).
      * intros h'. case_decide; [subst; by rewrite decide_True|done].
    + split_and!; [by apply put_latch_ok| |].
      * rewrite bool_decide_false; [done|]. intros [E|[= ?]]; [|done]. by rewrite E in Eh.
      * intros h'. rewrite Hput. case_decide; [|done]. by rewrite decide_False by congruence.
  - intros [= <- <-]. apply head_None in Eh. split_and!; [by apply put_latch_ok| |].
    + rewrite bool_decide_true; [done|by left].
    + intros h'. rewrite Hput. done.
Qed.

(** The latch of a hash passes to the command it is kept for, or to the next one
    in the queue, which is woken. *)
Lemma release_one_queue ls h who keep_cid keep :
  latches_ok ls -> head (queue ls h) = Some who ->
  Forall (Z.le h) keep -> (head keep = Some h -> is_Some keep_cid) ->
  exists ls' keep' wake, release_one ls h who keep_cid keep = Ok (ls', keep', wake)
    /\ latches_ok ls'
    /\ (if decide (head keep = Some h) then keep' = tail keep /\ wake = None
        else keep' = keep /\ wake = head (tail (queue ls h)))
    /\ forall h', queue ls' h' =
         if decide (h' = h) then
           (if decide (head keep = Some h) then option_list keep_cid else []) ++ tail (queue ls h)
         else queue ls h'.
Proof.
  intros Hok Hhead Hkeep Hcid. unfold release_one.
  destruct (pop_front (lock_latch ls h) h) as [r l'] eqn:Ep.
  apply pop_front_spec in Ep as (-> & Ht & Ho). fold (queue ls h) in Ht |- *. rewrite Hhead.
  cbn [fmap option_fmap option_map unwrap mbind res_bind]. rewrite !Z.eqb_refl. cbn [assert_ mbind res_bind].
  assert (Hplain : exists ls' keep' wake,
    Ok (put_latch ls h l', keep, get_first_req_by_hash l' h) = @Ok unit _ (ls', keep', wake)
    /\ latches_ok ls' /\ (keep' = keep /\ wake = head (tail (queue ls h)))
    /\ forall h', queue ls' h' = if decide (h' = h) then [] ++ tail (queue ls h) else queue ls h').
  { do 3 eexists. split; [reflexivity|]. split; [by apply put_latch_ok|].
    split; [by rewrite first_req_head, Ht|]. intros h'. rewrite put_latch_queue by done. by rewrite Ht. }
  destruct keep as [|k keep].
  { repeat rewrite decide_False by done. exact Hplain. }
  apply Forall_cons in Hkeep as [Hle Hkeep]. rewrite (proj2 (Z.leb_le h k)) by done. cbn [assert_ mbind res_bind head].
  destruct (Z.eqb_spec k h) as [->|Hne].
  - rewrite decide_True by done. destruct Hcid as [cid ->]; [done|]. cbn [unwrap mbind res_bind].
    do 3 eexists. split; [reflexivity|]. split; [by apply put_latch_ok|]. split; [by rewrite decide_True|].
    intros h'. rewrite put_latch_queue; [|done|].
    + rewrite push_preemptive_cids, Z.eqb_refl, Ht. done.
    + intros h0 Hh. rewrite push_preemptive_cids. rewrite (proj2 (Z.eqb_neq h h0)) by done. by apply Ho.
  - destruct Hplain as (ls' & keep' & wake & E & Hok' & Hkw & Hq). exists ls', keep', wake.
    split; [exact E|]. split; [done|]. split; [by rewrite decide_False by congruence|].
    intros h'. rewrite (decide_False (P := Some k = Some h)) by congruence. apply Hq.
Qed.

(** ** Commands that interleave *)

Inductive phase : Type :=
| Acquiring (i : nat)                  (** in [acquire], [i] latches acquired *)
| Waiting (i : nat) (woken : bool)     (** queued for latch [i] *)
| Holding                              (** all latches acquired *)
| Releasing (i : nat).                 (** in [release], [i] latches released *)

Record command : Type := { c_hashes : list u64; c_phase : phase }.

Definition set_phase (c : command) (p : phase) : command := {| c_hashes := c_hashes c; c_phase := p |}.

Record lstate : Type := { l_latches : Latches; l_cmds : gmap Z command }.

(** A command on the wakeup list. *)
Definition wake_command (c : command) : command :=
  match c_phase c with Waiting i _ => set_phase c (Waiting i true) | _ => c end.
Definition wake_all (wake : option u64) (cmds : gmap Z command) : gmap Z command :=
  match wake with Some c => alter wake_command c cmds | None => cmds end.

Inductive latch_step : lstate -> lstate -> Prop :=
| lstep_start ls cmds c {K : Type} (hash : K -> u64) keys :
    cmds !! c = None ->
    latch_step {| l_latches := ls; l_cmds := cmds |}
      {| l_latches := ls;
         l_cmds := <[c := {| c_hashes := required_hashes (LatchLock_new hash keys); c_phase := Acquiring 0 |}]> cmds |}
| lstep_acquire ls cmds c cmd i h b ls' :
    cmds !! c = Some cmd -> c_phase cmd = Acquiring i -> c_hashes cmd !! i = Some h ->
    acquire_one ls h c = (b, ls') ->
    latch_step {| l_latches := ls; l_cmds := cmds |}
      {| l_latches := ls';
         l_cmds := <[c := set_phase cmd (if b then Acquiring (S i) else Waiting i false)]> cmds |}
| lstep_acquired ls cmds c cmd :
    cmds !! c = Some cmd -> c_phase cmd = Acquiring (length (c_hashes cmd)) ->
    latch_step {| l_latches := ls; l_cmds := cmds |}
      {| l_latches := ls; l_cmds := <[c := set_phase cmd Holding]> cmds |}
| lstep_wake ls cmds c cmd i :
    cmds !! c = Some cmd -> c_phase cmd = Waiting i true ->
    latch_step {| l_latches := ls; l_cmds := cmds |}
      {| l_latches := ls; l_cmds := <[c := set_phase cmd (Acquiring i)]> cmds |}
| lstep_finish ls cmds c cmd :
    cmds !! c = Some cmd -> c_phase cmd = Holding ->
    latch_step {| l_latches := ls; l_cmds := cmds |}
      {| l_latches := ls; l_cmds := <[c := set_phase cmd (Releasing 0)]> cmds |}
| lstep_release ls cmds c cmd i h ls' keep wake :
    cmds !! c = Some cmd -> c_phase cmd = Releasing i -> c_hashes cmd !! i = Some h ->
    release_one ls h c None [] = Ok (ls', keep, wake) ->
    latch_step {| l_latches := ls; l_cmds := cmds |}
      {| l_latches := ls';
         l_cmds := wake_all wake (<[c := set_phase cmd (Releasing (S i))]> cmds) |}
| lstep_released ls cmds c cmd :
    cmds !! c = Some cmd -> c_phase cmd = Releasing (length (c_hashes cmd)) ->
    latch_step {| l_latches := ls; l_cmds := cmds |} {| l_latches := ls; l_cmds := delete c cmds |}.

Inductive latch_reachable : lstate -> Prop :=
| lreach_new n : latch_reachable {| l_latches := Latches_new n; l_cmds := ∅ |}
| lreach_step s s' : latch_reachable s -> latch_step s s' -> latch_reachable s'.

(** *** The invariant *)

(** The hashes whose latches a command has. *)
Definition owned (cmd : command) : list u64 :=
  match c_phase cmd with
  | Acquiring i | Waiting i _ => take i (c_hashes cmd)
  | Holding => c_hashes cmd
  | Releasing i => drop i (c_hashes cmd)
  end.

(** The hash for which a command is or may be queued without owning it. *)
Definition pending (cmd : command) : option u64 :=
  match c_phase cmd with
  | Acquiring i | Waiting i _ => c_hashes cmd !! i
  | _ => None
  end.

Record command_inv (q : u64 -> list u64) (c : u64) (cmd : command) : Prop := {
  ci_sorted : StronglySorted Z.lt (c_hashes cmd);
  ci_owned h : h ∈ owned cmd -> head (q h) = Some c;
  ci_bound i : c_phase cmd = Acquiring i \/ c_phase cmd = Releasing i -> (i <= length (c_hashes cmd))%nat;
  ci_waiting i w : c_phase cmd = Waiting i w ->
    exists h, c_hashes cmd !! i = Some h /\ c ∈ q h /\ (w = true <-> head (q h) = Some c)
}.

(** A queued command owns the hash, waits for it, or is about to find that it is
    the first one. *)
Definition queued_ok (q : u64 -> list u64) (cmds : gmap Z command) (h c : u64) : Prop :=
  exists cmd, cmds !! c = Some cmd /\
    (h ∈ owned cmd \/ (pending cmd = Some h /\ (head (q h) = Some c \/ exists i w, c_phase cmd = Waiting i w))).

Record queues_inv (q : u64 -> list u64) (cmds : gmap Z command) : Prop := {
  qi_nodup h : NoDup (q h);
  qi_command c cmd : cmds !! c = Some cmd -> command_inv q c cmd;
  qi_queued h c : c ∈ q h -> queued_ok q cmds h c
}.

(** *** Sorted hashes *)

Lemma dedup_cons2 x y l : dedup (x :: y :: l) = if x =? y then dedup (y :: l) else x :: dedup (y :: l).
Proof. done. Qed.

Lemma dedup_elem l x : x ∈ dedup l <-> x ∈ l.
Proof.
  induction l as [|y [|z l] IH]; [done|done|]. rewrite dedup_cons2.
  destruct (Z.eqb_spec y z) as [->|]; rewrite ?elem_of_cons, IH; set_solver.
Qed.

Lemma dedup_sorted l : StronglySorted Z.le l -> StronglySorted Z.lt (dedup l).
Proof.
  induction l as [|x [|y l] IH]; intros Hs; [constructor|by repeat constructor|].
  apply StronglySorted_inv in Hs as [Hs Hx]. specialize (IH Hs). rewrite dedup_cons2.
  destruct (Z.eqb_spec x y) as [->|Hne]; [done|]. constructor; [done|].
  apply StronglySorted_inv in Hs as [_ Hy]. rewrite Forall_forall in *.
  intros z Hz. apply dedup_elem, elem_of_cons in Hz as [->|Hz].
  - specialize (Hx y (list_elem_of_here _ _)). lia.
  - specialize (Hy z Hz). specialize (Hx y (list_elem_of_here _ _)). lia.
Qed.

Lemma LatchLock_new_sorted {K} (hash : K -> u64) keys :
  StronglySorted Z.lt (required_hashes (LatchLock_new hash keys)).
Proof. apply dedup_sorted, StronglySorted_merge_sort; apply _. Qed.

Lemma sorted_at l i h :
  StronglySorted Z.lt l -> l !! i = Some h ->
  (forall x, x ∈ take i l -> x < h) /\ (forall x, x ∈ drop (S i) l -> h < x) /\ drop i l = h :: drop (S i) l.
Proof.
  revert i. induction l as [|y l IH]; intros i Hs Hi; [done|].
  apply StronglySorted_inv in Hs as [Hs Hy]. rewrite Forall_forall in Hy. destruct i as [|i]; cbn in Hi |- *.
  - injection Hi as ->. split_and!; [set_solver| |done]. intros x Hx. by apply Hy.
  - destruct (IH i Hs Hi) as (Ht & Hd & He). split_and!; [|done|done].
    intros x [->|Hx]%elem_of_cons; [|by apply Ht]. apply Hy. by eapply list_elem_of_lookup_2.
Qed.

(** *** Preservation *)

Lemma queues_inv_ext q q' cmds : (forall h, q' h = q h) -> queues_inv q cmds -> queues_inv q' cmds.
Proof.
  intros He [Hn Hc Hq]. split.
  - intros h. by rewrite He.
  - intros c cmd Hl. destruct (Hc c cmd Hl) as [H1 H2 H3 H4]. split; [done| |done|].
    + intros h. rewrite He. apply H2.
    + intros i w Hp. destruct (H4 i w Hp) as (h & ? & ? & ?). exists h. by rewrite !He.
  - intros h c. rewrite He. intros Hin. destruct (Hq h c Hin) as (cmd & Hl & Hor).
    exists cmd. split; [done|]. by rewrite He.
Qed.

(** A change of phase that leaves the queues alone. *)
Lemma inv_set_phase q cmds c cmd p :
  queues_inv q cmds -> cmds !! c = Some cmd ->
  owned (set_phase cmd p) = owned cmd -> pending (set_phase cmd p) = pending cmd ->
  (forall i, p = Acquiring i \/ p = Releasing i -> (i <= length (c_hashes cmd))%nat) ->
  (forall i w, p <> Waiting i w) ->
  (forall h, pending cmd = Some h -> c ∈ q h -> head (q h) = Some c) ->
  queues_inv q (<[c := set_phase cmd p]> cmds).
Proof.
  intros [Hn Hc Hq] Hl Ho Hpd Ha Hw Hhead. split; [done| |].
  - intros c' cmd' Hl'. destruct (decide (c' = c)) as [->|Hne].
    + rewrite lookup_insert_eq in Hl'. injection Hl' as <-. destruct (Hc c cmd Hl) as [H1 H2 _ _].
      split; [done| |done|].
      * intros h. rewrite Ho. apply H2.
      * intros i w Hp. by apply Hw in Hp.
    + rewrite lookup_insert_ne in Hl' by done. by apply Hc.
  - intros h c' Hin. destruct (Hq h c' Hin) as (cmd' & Hl' & Hor). destruct (decide (c' = c)) as [->|Hne].
    + exists (set_phase cmd p). rewrite lookup_insert_eq, Ho, Hpd. split; [done|].
      assert (cmd' = cmd) as -> by congruence. destruct Hor as [?|[Hp _]]; [by left|].
      right. split; [done|]. left. by apply Hhead.
    + exists cmd'. by rewrite lookup_insert_ne by done.
Qed.

Lemma inv_start q cmds c hs :
  queues_inv q cmds -> cmds !! c = None -> StronglySorted Z.lt hs ->
  queues_inv q (<[c := {| c_hashes := hs; c_phase := Acquiring 0 |}]> cmds).
Proof.
  intros [Hn Hc Hq] Hl Hs. split; [done| |].
  - intros c' cmd' Hl'. destruct (decide (c' = c)) as [->|Hne].
    + rewrite lookup_insert_eq in Hl'. injection Hl' as <-. split; cbn; [done| | |done].
      * intros h []%not_elem_of_nil.
      * intros i [[= <-]|?]; [lia|done].
    + rewrite lookup_insert_ne in Hl' by done. by apply Hc.
  - intros h c' Hin. destruct (Hq h c' Hin) as (cmd' & Hl' & Hor).
    exists cmd'. rewrite lookup_insert_ne by congruence. done.
Qed.

Lemma inv_released q cmds c cmd :
  queues_inv q cmds -> cmds !! c = Some cmd -> owned cmd = [] -> pending cmd = None ->
  queues_inv q (delete c cmds).
Proof.
  intros [Hn Hc Hq] Hl Ho Hp. split; [done| |].
  - intros c' cmd' [_ Hl']%lookup_delete_Some. by apply Hc.
  - intros h c' Hin. destruct (Hq h c' Hin) as (cmd' & Hl' & Hor). exists cmd'.
    rewrite lookup_delete_ne; [done|]. intros ->. assert (cmd' = cmd) as -> by congruence.
    rewrite Ho, Hp in Hor. destruct Hor as [[]%not_elem_of_nil|[? _]]; done.
Qed.

(** Another command is not affected by a change of the queue of [h] that keeps
    its head and its members. *)
Lemma command_inv_grow q q' h c cmd :
  (forall h', h' <> h -> q' h' = q h') -> (forall x, x ∈ q h -> x ∈ q' h) ->
  (q h <> [] -> head (q' h) = head (q h)) ->
  command_inv q c cmd -> command_inv q' c cmd.
Proof.
  intros Ho Hm Hh [H1 H2 H3 H4]. split; [done| |done|].
  - intros h0 Hin. specialize (H2 h0 Hin). destruct (decide (h0 = h)) as [->|]; [|by rewrite Ho].
    rewrite Hh; [done|]. intros E. by rewrite E in H2.
  - intros i w Hp. destruct (H4 i w Hp) as (h0 & Hi & Hin & Hw). exists h0. split; [done|].
    destruct (decide (h0 = h)) as [->|]; [|by rewrite Ho]. split; [by apply Hm|].
    rewrite Hh; [done|]. intros E. rewrite E in Hin. by apply not_elem_of_nil in Hin.
Qed.

Section Acquire.
Context (q q' : u64 -> list u64) (cmds : gmap Z command) (c : u64) (cmd : command) (i : nat) (h : u64).
Context (Hinv : queues_inv q cmds) (Hl : cmds !! c = Some cmd).
Context (Hp : c_phase cmd = Acquiring i) (Hi : c_hashes cmd !! i = Some h).
Context (Hq' : forall h', q' h' =
  if decide (h' = h) then (if decide (head (q h) = Some c) then q h else q h ++ [c]) else q h').

Let cmd' := set_phase cmd (if bool_decide (q h = [] \/ head (q h) = Some c) then Acquiring (S i) else Waiting i false).

Lemma acquire_other h' : h' <> h -> q' h' = q h'.
Proof. intros Hne. by rewrite Hq', decide_False. Qed.

Lemma acquire_fresh : head (q h) <> Some c -> ~ c ∈ q h.
Proof.
  intros Hh Hin. destruct Hinv as [_ Hc Hq]. destruct (Hq h c Hin) as (cmd0 & Hl0 & Hor).
  assert (cmd0 = cmd) as -> by congruence. unfold owned in Hor. rewrite Hp in Hor.
  destruct Hor as [Ho|[_ [?|(i0 & w & ?)]]]; [|done|done].
  destruct (sorted_at _ _ _ (ci_sorted _ _ _ (Hc c cmd Hl)) Hi) as (Ht & _). apply Ht in Ho. lia.
Qed.

Lemma acquire_at :
  q' h = q h /\ head (q h) = Some c \/ q' h = q h ++ [c] /\ ~ c ∈ q h /\ head (q h) <> Some c.
Proof.
  rewrite Hq', decide_True by done. case_decide as Hh; [by left|right]. eauto using acquire_fresh.
Qed.

Lemma acquire_members x : x ∈ q h -> x ∈ q' h.
Proof. intros Hx. destruct acquire_at as [[-> _]|[-> _]]; [done|]. apply elem_of_app. by left. Qed.

Lemma acquire_head : q h <> [] -> head (q' h) = head (q h).
Proof. intros Hne. destruct acquire_at as [[-> _]|[-> _]]; [done|]. by destruct (q h). Qed.

Lemma acquire_self : c ∈ q' h.
Proof.
  destruct acquire_at as [[-> Hh]|[-> _]]; [by apply head_Some_elem_of|]. apply elem_of_app. right. apply list_elem_of_here.
Qed.

Lemma acquire_got : q h = [] \/ head (q h) = Some c -> head (q' h) = Some c.
Proof.
  intros Hb. destruct acquire_at as [[-> Hh]|(-> & _ & Hh)]; [done|]. destruct Hb as [->|?]; done.
Qed.

Lemma acquire_command : command_inv q' c cmd'.
Proof.
  destruct Hinv as [_ Hc _]. destruct (Hc c cmd Hl) as [H1 H2 H3 _].
  destruct (sorted_at _ _ _ H1 Hi) as (Ht & _ & _).
  assert (Htake : forall x, x ∈ take i (c_hashes cmd) -> head (q' x) = Some c).
  { intros x Hx. rewrite acquire_other; [|apply Ht in Hx; lia]. apply H2. unfold owned. by rewrite Hp. }
  assert (i < length (c_hashes cmd))%nat as Hlen by (by eapply lookup_lt_Some).
  subst cmd'. case_bool_decide as Hb; split; try done.
  - intros x. unfold owned. cbn [set_phase c_phase c_hashes]. rewrite (take_S_r _ _ _ Hi), elem_of_app.
    intros [?| ->%list_elem_of_singleton]; [by apply Htake|by apply acquire_got].
  - intros j [[= <-]|?]; [cbn; lia|done].
  - intros j [?|?]; done.
  - intros j w [= <- <-]. exists h. split_and!; [done|by apply acquire_self|].
    split; [done|]. intros Hh. exfalso. apply Hb. right. rewrite acquire_head in Hh; [done|]. intros E. apply Hb. by left.
Qed.

Lemma inv_acquire : queues_inv q' (<[c := cmd']> cmds).
Proof.
  pose proof acquire_command as Hcmd. destruct Hinv as [Hn Hc Hq]. split.
  - intros h0. destruct (decide (h0 = h)) as [->|]; [|by rewrite acquire_other].
    destruct acquire_at as [[-> _]|(-> & Hni & _)]; [done|]. apply NoDup_app. split_and!; [done|set_solver|].
    apply NoDup_singleton.
  - intros c0 cmd0 Hl0. destruct (decide (c0 = c)) as [->|Hne].
    + rewrite lookup_insert_eq in Hl0. by injection Hl0 as <-.
    + rewrite lookup_insert_ne in Hl0 by done. eapply (command_inv_grow q q' h);
        eauto using acquire_other, acquire_members, acquire_head.
  - intros h0 c0 Hin. destruct (decide (c0 = c)) as [->|Hne].
    + exists cmd'. rewrite lookup_insert_eq. split; [done|]. destruct (decide (h0 = h)) as [->|Hh].
      * subst cmd'. case_bool_decide as Hb.
        -- left. unfold owned. cbn. rewrite (take_S_r _ _ _ Hi). set_solver.
        -- right. unfold pending; cbn. eauto.
      * rewrite acquire_other in Hin by done. destruct (Hq h0 c Hin) as (cmd0 & Hl0 & Hor).
        assert (cmd0 = cmd) as -> by congruence. left. unfold owned, pending in Hor. rewrite Hp in Hor.
        destruct Hor as [Ho|[Ho _]]; [|congruence]. subst cmd'. unfold owned. cbn.
        case_bool_decide; cbn; [|done]. rewrite (take_S_r _ _ _ Hi). set_solver.
    + assert (c0 ∈ q h0) as Hin0.
      { destruct (decide (h0 = h)) as [->|]; [|by rewrite acquire_other in Hin].
        destruct acquire_at as [[E _]|(E & _)]; rewrite E in Hin; [done|]. set_solver. }
      destruct (Hq h0 c0 Hin0) as (cmd0 & Hl0 & Hor). exists cmd0. rewrite lookup_insert_ne by done. split; [done|].
      destruct Hor as [?|[? [Hh|?]]]; [by left|right|right]; (split; [done|]); [left|by right].
      destruct (decide (h0 = h)) as [->|]; [|by rewrite acquire_other]. rewrite acquire_head; [done|].
      intros E. by rewrite E in Hh.
Qed.

End Acquire.

Lemma wake_command_eq cmd :
  wake_command cmd = cmd
  \/ exists i w, c_phase cmd = Waiting i w /\ wake_command cmd = set_phase cmd (Waiting i true).
Proof. unfold wake_command. destruct (c_phase cmd) eqn:E; [by left|right; eauto|by left|by left]. Qed.

Section Release.
Context (q q' : u64 -> list u64) (cmds : gmap Z command) (c : u64) (cmd : command) (i : nat) (h : u64).
Context (Hinv : queues_inv q cmds) (Hl : cmds !! c = Some cmd).
Context (Hp : c_phase cmd = Releasing i) (Hi : c_hashes cmd !! i = Some h).
Context (Hq' : forall h', q' h' = if decide (h' = h) then tail (q h) else q h').

Let cmd' := set_phase cmd (Releasing (S i)).
Let cmds' := wake_all (head (tail (q h))) (<[c := cmd']> cmds).

Lemma release_head : head (q h) = Some c.
Proof.
  destruct Hinv as [_ Hc _]. apply (ci_owned _ _ _ (Hc c cmd Hl)). unfold owned. rewrite Hp.
  destruct (sorted_at _ _ _ (ci_sorted _ _ _ (Hc c cmd Hl)) Hi) as (_ & _ & ->). apply list_elem_of_here.
Qed.

Lemma release_queue : q h = c :: tail (q h).
Proof. pose proof release_head. destruct (q h); [done|]. cbn in *. congruence. Qed.

Lemma release_gone : ~ c ∈ tail (q h).
Proof. pose proof (qi_nodup _ _ Hinv h) as Hn. rewrite release_queue in Hn. by apply NoDup_cons in Hn as [? _]. Qed.

Lemma release_other h' : h' <> h -> q' h' = q h'.
Proof. intros Hne. by rewrite Hq', decide_False. Qed.

Lemma release_at : q' h = tail (q h).
Proof. by rewrite Hq', decide_True. Qed.

(** Whoever is queued behind waits and has not been woken. *)
Lemma release_waiter x : x ∈ tail (q h) -> exists cmdx j, cmds !! x = Some cmdx /\
  c_phase cmdx = Waiting j false /\ c_hashes cmdx !! j = Some h.
Proof.
  intros Hx. assert (x <> c) as Hne by (intros ->; by apply release_gone in Hx).
  assert (x ∈ q h) as Hxq by (rewrite release_queue; set_solver).
  assert (head (q h) <> Some x) as Hnh by (rewrite release_head; congruence).
  destruct Hinv as [_ Hc Hq]. destruct (Hq h x Hxq) as (cmdx & Hlx & Hor).
  destruct (Hc x cmdx Hlx) as [_ Ho _ Hw]. destruct Hor as [Hin|[Hpd [?|(j & w & Hpx)]]]; [|done|].
  - by apply Ho in Hin.
  - exists cmdx, j. destruct (Hw j w Hpx) as (h0 & Hj & _ & Hiff). unfold pending in Hpd. rewrite Hpx in Hpd.
    assert (h0 = h) as -> by congruence. destruct w; [|done]. by destruct Hnh; apply Hiff.
Qed.

Lemma release_lookup x : cmds' !! x =
  if decide (x = c) then Some cmd' else if decide (head (tail (q h)) = Some x) then wake_command <$> cmds !! x
  else cmds !! x.
Proof.
  subst cmds'. unfold wake_all. destruct (head (tail (q h))) as [y|] eqn:Ey.
  - assert (y <> c) as Hyc by (intros ->; apply release_gone; by apply head_Some_elem_of).
    destruct (decide (x = c)) as [->|Hxc]; [by rewrite lookup_alter_ne, lookup_insert_eq|].
    destruct (decide (Some y = Some x)) as [[= ->]|Hne].
    + by rewrite lookup_alter_eq, lookup_insert_ne.
    + by rewrite lookup_alter_ne, lookup_insert_ne by congruence.
  - destruct (decide (x = c)) as [->|Hxc]; [by rewrite lookup_insert_eq|]. by rewrite lookup_insert_ne.
Qed.

Lemma release_self : command_inv q' c cmd'.
Proof.
  destruct (qi_command _ _ Hinv c cmd Hl) as [H1 H2 _ _]. destruct (sorted_at _ _ _ H1 Hi) as (_ & Hd & He).
  apply lookup_lt_Some in Hi as Hlt. split; try done.
  - intros x Hx. cbn in Hx. rewrite release_other; [|apply Hd in Hx; lia].
    apply H2. unfold owned. rewrite Hp, He. by apply list_elem_of_further.
  - intros j [?|[= <-]]; [done|]. cbn. lia.
Qed.

(** Commands that are not woken. *)
Lemma release_rest x cmdx : x <> c -> head (tail (q h)) <> Some x -> cmds !! x = Some cmdx -> command_inv q' x cmdx.
Proof.
  intros Hxc Hnh Hlx. destruct (qi_command _ _ Hinv x cmdx Hlx) as [H1 H2 H3 H4]. split; [done| |done|].
  - intros h0 Hin. specialize (H2 h0 Hin). destruct (decide (h0 = h)) as [->|]; [|by rewrite release_other].
    rewrite release_head in H2. congruence.
  - intros j w Hj. destruct (H4 j w Hj) as (h0 & Hh0 & Hin & Hw). exists h0. split; [done|].
    destruct (decide (h0 = h)) as [->|]; [|by rewrite release_other]. rewrite release_at.
    rewrite release_queue in Hin. apply elem_of_cons in Hin as [?|Hin]; [done|]. split; [done|].
    rewrite release_head in Hw. split; [intros Hwt; apply Hw in Hwt; congruence|done].
Qed.

(** The command that is woken. *)
Lemma release_woken x cmdx : head (tail (q h)) = Some x -> cmds !! x = Some cmdx -> command_inv q' x (wake_command cmdx).
Proof.
  intros Hh Hlx. pose proof (head_Some_elem_of _ _ Hh) as Hx.
  destruct (release_waiter x Hx) as (cmd0 & j & Hl0 & Hj & Hjh). assert (cmd0 = cmdx) as -> by congruence.
  assert (x <> c) as Hxc by (intros ->; by apply release_gone in Hx).
  destruct (qi_command _ _ Hinv x cmdx Hlx) as [H1 H2 H3 H4]. unfold wake_command. rewrite Hj. split; try done.
  - intros h0 Hin. assert (h0 ∈ owned cmdx) as Hin' by (unfold owned in *; cbn in Hin; by rewrite Hj).
    specialize (H2 h0 Hin'). destruct (decide (h0 = h)) as [->|]; [|by rewrite release_other].
    rewrite release_head in H2. congruence.
  - intros j0 [?|?]; done.
  - intros j0 w [= <- <-]. exists h. rewrite release_at. split_and!; [done|done|done].
Qed.

Lemma inv_release : queues_inv q' cmds'.
Proof.
  split.
  - intros h0. destruct (decide (h0 = h)) as [->|]; [|rewrite release_other by done; apply Hinv].
    rewrite release_at. pose proof (qi_nodup _ _ Hinv h) as Hn. rewrite release_queue in Hn.
    by apply NoDup_cons in Hn as [_ ?].
  - intros x cmdx. rewrite release_lookup. case_decide as Hxc.
    + subst x. intros [= <-]. apply release_self.
    + case_decide as Hh; [|by apply release_rest]. intros (cmd0 & Hl0 & ->)%fmap_Some. by apply release_woken.
  - intros h0 x Hin. assert (x ∈ q h0) as Hxq.
    { destruct (decide (h0 = h)) as [->|]; [|by rewrite release_other in Hin].
      rewrite release_at in Hin. rewrite release_queue. set_solver. }
    destruct (qi_queued _ _ Hinv h0 x Hxq) as (cmdx & Hlx & Hor). unfold queued_ok. rewrite release_lookup.
    destruct (decide (x = c)) as [->|Hxc].
    + assert (cmdx = cmd) as -> by congruence. exists cmd'. split; [done|]. left.
      unfold owned, pending in Hor. rewrite Hp in Hor. destruct Hor as [Ho|[? _]]; [|done].
      destruct (sorted_at _ _ _ (ci_sorted _ _ _ (qi_command _ _ Hinv c cmd Hl)) Hi) as (_ & _ & He).
      rewrite He in Ho. apply elem_of_cons in Ho as [->|Ho]; [|done].
      rewrite release_at in Hin. by apply release_gone in Hin.
    + destruct (decide (h0 = h)) as [->|Hh0].
      * rewrite release_at in Hin. destruct (release_waiter x Hin) as (cmd0 & j & Hl0 & Hj & Hjh).
        case_decide.
        -- exists (wake_command cmd0). rewrite Hl0. split; [done|]. right. unfold pending, wake_command. rewrite Hj. cbn. eauto.
        -- exists cmd0. split; [done|]. right. unfold pending. rewrite Hj. eauto.
      * case_decide as Hhx.
        -- exists (wake_command cmdx). rewrite Hlx. split; [done|]. rewrite release_other by done.
           destruct (wake_command_eq cmdx) as [->|(j & w & Hpx & ->)]; [done|].
           unfold owned, pending in Hor |- *. rewrite Hpx in Hor. cbn.
           destruct Hor as [?|[? _]]; [by left|right; eauto].
        -- exists cmdx. split; [done|]. by rewrite release_other.
Qed.

End Release.

(** *** Reachable states *)

Definition latch_inv (s : lstate) : Prop :=
  latches_ok (l_latches s) /\ queues_inv (queue (l_latches s)) (l_cmds s).

Lemma release_one_plain ls h c ls' keep wake :
  latches_ok ls -> head (queue ls h) = Some c -> release_one ls h c None [] = Ok (ls', keep, wake) ->
  latches_ok ls' /\ keep = [] /\ wake = head (tail (queue ls h))
  /\ forall h', queue ls' h' = if decide (h' = h) then tail (queue ls h) else queue ls h'.
Proof.
  intros Hok Hh Hr. destruct (release_one_queue ls h c None [] Hok Hh) as (ls1 & keep1 & wake1 & E & Hok1 & Hkw & Hq);
    [constructor|done|]. rewrite Hr in E. injection E as -> -> ->.
  rewrite decide_False in Hkw by done. destruct Hkw as [-> ->]. split_and!; [done|done|done|].
  intros h'. rewrite Hq. by rewrite (decide_False (P := head (@nil Z) = Some h)).
Qed.

Lemma latch_step_inv s s' : latch_inv s -> latch_step s s' -> latch_inv s'.
Proof.
  intros [Hok Hinv] Hstep.
  destruct Hstep as [ls cmds c K hash keys Hl|ls cmds c cmd i h b ls' Hl Hp Hi Ha|ls cmds c cmd Hl Hp
    |ls cmds c cmd i Hl Hp|ls cmds c cmd Hl Hp|ls cmds c cmd i h ls' keep wake Hl Hp Hi Hr|ls cmds c cmd Hl Hp];
    cbn [l_latches l_cmds] in *.
  - split; [done|]. apply inv_start; [done|done|apply LatchLock_new_sorted].
  - apply acquire_one_queue in Ha as (Hok' & -> & Hq'); [|done]. split; [done|]. by eapply inv_acquire.
  - split; [done|]. apply inv_set_phase; [done|done| | |by intros ? [?|?]|done|].
    + unfold owned. rewrite Hp. cbn. by rewrite take_ge.
    + unfold pending. rewrite Hp. cbn. by rewrite lookup_ge_None_2.
    + unfold pending. rewrite Hp. rewrite lookup_ge_None_2 by done. done.
  - split; [done|]. destruct (ci_waiting _ _ _ (qi_command _ _ Hinv c cmd Hl) i true Hp) as (h & Hi & Hin & Hw).
    apply inv_set_phase; [done|done| | | |done|].
    + unfold owned. by rewrite Hp.
    + unfold pending. by rewrite Hp.
    + intros j [[= <-]|?]; [|done]. apply lookup_lt_Some in Hi. lia.
    + intros h'. unfold pending. rewrite Hp. intros Hh' _. assert (h' = h) as -> by congruence. by apply Hw.
  - split; [done|]. apply inv_set_phase; [done|done| | |intros ? [?|[= <-]]; [done|lia]|done|].
    + unfold owned. by rewrite Hp.
    + unfold pending. by rewrite Hp.
    + unfold pending. by rewrite Hp.
  - assert (head (queue ls h) = Some c) as Hh by (by eapply release_head).
    apply release_one_plain in Hr as (Hok' & -> & -> & Hq'); [|done|done]. split; [done|]. by eapply inv_release.
  - split; [done|]. eapply inv_released; [done|done| |].
    + unfold owned. rewrite Hp. by apply drop_ge.
    + unfold pending. by rewrite Hp.
Qed.

Lemma latch_reachable_inv s : latch_reachable s -> latch_inv s.
Proof.
  induction 1 as [n|s s' _ IH Hs]; [|by eapply latch_step_inv]. split; cbn; [apply Latches_new_ok|]. split.
  - intros h. rewrite Latches_new_queue. constructor.
  - intros c cmd Hl. by rewrite lookup_empty in Hl.
  - intros h c. rewrite Latches_new_queue. intros []%not_elem_of_nil.
Qed.

(** The queues are first in, first out: a step appends to one queue, removes its
    first element, or leaves all as they are. *)
Lemma latch_step_fifo s s' : latch_inv s -> latch_step s s' -> forall h,
  queue (l_latches s') h = queue (l_latches s) h
  \/ (exists c, queue (l_latches s') h = queue (l_latches s) h ++ [c])
  \/ (exists c, queue (l_latches s) h = c :: queue (l_latches s') h).
Proof.
  intros [Hok Hinv] Hstep h0.
  destruct Hstep as [| ls cmds c cmd i h b ls' Hl Hp Hi Ha | | | |ls cmds c cmd i h ls' keep wake Hl Hp Hi Hr|];
    cbn [l_latches l_cmds] in *; try by left.
  - apply acquire_one_queue in Ha as (_ & _ & Hq); [|done]. rewrite Hq.
    destruct (decide (h0 = h)) as [->|]; [|by left].
    destruct (decide (head (queue ls h) = Some c)); [by left|right; left; by eexists].
  - assert (head (queue ls h) = Some c) as Hh by (by eapply release_head).
    apply release_one_plain in Hr as (_ & _ & _ & Hq); [|done|done]. rewrite Hq.
    destruct (decide (h0 = h)) as [->|]; [|by left]. right; right. exists c. destruct (queue ls h); [done|]. cbn in *. congruence.
Qed.

Lemma owned_unique q cmds c1 cmd1 c2 cmd2 h :
  queues_inv q cmds -> cmds !! c1 = Some cmd1 -> cmds !! c2 = Some cmd2 ->
  h ∈ owned cmd1 -> h ∈ owned cmd2 -> c1 = c2.
Proof.
  intros [_ Hc _] H1 H2 Ho1 Ho2. apply (ci_owned _ _ _ (Hc _ _ H1)) in Ho1.
  apply (ci_owned _ _ _ (Hc _ _ H2)) in Ho2. congruence.
Qed.

(** A command that is queued for a later hash owns the earlier ones it is queued
    for. *)
Lemma earlier_owned q cmds c cmd h h' :
  queues_inv q cmds -> cmds !! c = Some cmd -> h < h' -> c ∈ q h -> c ∈ q h' -> h ∈ owned cmd.
Proof.
  intros [_ Hc Hq] Hl Hlt Hin Hin'. pose proof (ci_sorted _ _ _ (Hc _ _ Hl)) as Hs.
  destruct (Hq h c Hin) as (cmd0 & Hl0 & Hor). assert (cmd0 = cmd) as -> by congruence.
  destruct Hor as [?|[Hp _]]; [done|]. exfalso.
  destruct (Hq h' c Hin') as (cmd1 & Hl1 & Hor). assert (cmd1 = cmd) as -> by congruence.
  assert (exists i, owned cmd = take i (c_hashes cmd) /\ c_hashes cmd !! i = Some h) as (i & Ho & Hi).
  { unfold pending, owned in *. destruct (c_phase cmd); try done; eauto. }
  destruct (sorted_at _ _ _ Hs Hi) as (Ht & _). destruct Hor as [Hh'|[Hh' _]].
  - rewrite Ho in Hh'. apply Ht in Hh'. lia.
  - assert (h' = h) by congruence. lia.
Qed.

(** *** Theorems *)

(** C23. Latches exclude each other.  In every state that interleaved commands can
    reach, no two commands have a latch of the same hash, in particular not two
    that have acquired all of theirs; no two are queued together in two latches,
    so that they cannot be in different orders; and a release pops the command
    itself, so that its assertions hold. *)
Theorem latches_exclusive s c1 cmd1 c2 cmd2 :
  latch_reachable s -> l_cmds s !! c1 = Some cmd1 -> l_cmds s !! c2 = Some cmd2 -> c1 <> c2 ->
  (forall h, h ∈ owned cmd1 -> ~ h ∈ owned cmd2)
  /\ (forall h h', h < h' -> c1 ∈ queue (l_latches s) h -> c2 ∈ queue (l_latches s) h ->
        c1 ∈ queue (l_latches s) h' -> ~ c2 ∈ queue (l_latches s) h')
  /\ (forall i h, c_phase cmd1 = Releasing i -> c_hashes cmd1 !! i = Some h ->
        exists ls' wake, release_one (l_latches s) h c1 None [] = Ok (ls', [], wake)).
Proof.
  intros Hr H1 H2 Hne. apply latch_reachable_inv in Hr as [Hok Hinv]. split_and!.
  - intros h Ho1 Ho2. apply Hne. by eapply owned_unique.
  - intros h h' Hlt Hin1 Hin2 Hin1' Hin2'. apply Hne. eapply owned_unique; [done|exact H1|exact H2|..];
      eapply earlier_owned; eauto.
  - intros i h Hp Hi. assert (head (queue (l_latches s) h) = Some c1) as Hh by (by eapply release_head).
    destruct (release_one_queue (l_latches s) h c1 None [] Hok Hh) as (ls' & keep & wake & E & _ & Hk & _);
      [constructor|done|]. rewrite decide_False in Hk by done. destruct Hk as [-> _]. eauto.
Qed.

(** A command that can go on: it is not waiting, or has been woken. *)
Definition runnable (cmd : command) : Prop := forall i, c_phase cmd <> Waiting i false.

(** A step that starts no command. *)
Definition no_new (s s' : lstate) : Prop := forall c, l_cmds s !! c = None -> l_cmds s' !! c = None.
Definition old_step (s s' : lstate) : Prop := latch_step s s' /\ no_new s s'.

Lemma no_new_insert ls ls' (cmds : gmap Z command) c cmd cmd' :
  cmds !! c = Some cmd -> no_new {| l_latches := ls; l_cmds := cmds |} {| l_latches := ls'; l_cmds := <[c := cmd']> cmds |}.
Proof. intros Hl x Hx. cbn in *. rewrite lookup_insert_ne by congruence. done. Qed.

Lemma no_new_release ls ls' (cmds : gmap Z command) c cmd cmd' wake :
  cmds !! c = Some cmd ->
  no_new {| l_latches := ls; l_cmds := cmds |} {| l_latches := ls'; l_cmds := wake_all wake (<[c := cmd']> cmds) |}.
Proof.
  intros Hl x Hx. cbn in *. assert (x <> c) by congruence. unfold wake_all. destruct wake as [y|].
  - destruct (decide (x = y)) as [->|]; [rewrite lookup_alter_eq|rewrite lookup_alter_ne by done];
      by rewrite lookup_insert_ne, Hx by done.
  - by rewrite lookup_insert_ne.
Qed.

#[local] Hint Resolve no_new_insert no_new_release : core.

Lemma runnable_steps s c cmd :
  latch_inv s -> l_cmds s !! c = Some cmd -> runnable cmd ->
  exists s', old_step s s' /\ l_cmds s' !! c <> Some cmd.
Proof.
  intros [Hok Hinv] Hl Hrun. destruct s as [ls cmds]; cbn [l_latches l_cmds] in *.
  pose proof (qi_command _ _ Hinv c cmd Hl) as [Hs Ho Ha Hw].
  assert (Hphase : forall p, p <> c_phase cmd -> <[c := set_phase cmd p]> cmds !! c <> Some cmd).
  { intros p Hp E. rewrite lookup_insert_eq in E. injection E as E. apply Hp. by rewrite <-E. }
  destruct (c_phase cmd) as [i|i [|]| |i] eqn:Hp.
  - destruct (c_hashes cmd !! i) as [h|] eqn:Hi.
    + destruct (acquire_one ls h c) as [b ls'] eqn:E. eexists. split; [by split; [eapply lstep_acquire|eauto]|]. cbn.
      apply Hphase. destruct b; [intros [= ?]; lia|done].
    + apply lookup_ge_None in Hi. specialize (Ha i (or_introl eq_refl)). assert (i = length (c_hashes cmd)) as -> by lia.
      eexists. split; [by split; [eapply lstep_acquired|eauto]|]. cbn. by apply Hphase.
  - eexists. split; [by split; [eapply lstep_wake|eauto]|]. cbn. by apply Hphase.
  - by destruct (Hrun i).
  - eexists. split; [by split; [eapply lstep_finish|eauto]|]. cbn. by apply Hphase.
  - destruct (c_hashes cmd !! i) as [h|] eqn:Hi.
    + assert (head (queue ls h) = Some c) as Hh by (by eapply release_head).
      destruct (release_one_queue ls h c None [] Hok Hh) as (ls' & keep & wake & E & _ & Hk & _); [constructor|done|].
      rewrite decide_False in Hk by done. destruct Hk as [-> ->].
      eexists. split; [by split; [eapply lstep_release|eauto]|]. cbn.
      destruct (release_one_plain _ _ _ _ _ _ Hok Hh E) as (_ & _ & _ & Hq).
      rewrite (release_lookup _ _ _ _ _ _ _ Hinv Hl Hp Hi Hq), decide_True by done.
      intros [= E']. apply (f_equal c_phase) in E'. cbn in E'. rewrite Hp in E'. injection E'. lia.
    + apply lookup_ge_None in Hi. specialize (Ha i (or_intror eq_refl)). assert (i = length (c_hashes cmd)) as -> by lia.
      eexists. split; [by split; [eapply lstep_released|intros x Hx; cbn; by rewrite lookup_delete_None; right]|]. cbn. by rewrite lookup_delete_eq.
Qed.

Lemma hash_bound (cmds : gmap Z command) :
  exists m, forall c cmd h, cmds !! c = Some cmd -> h ∈ c_hashes cmd -> h <= m.
Proof.
  assert (Hlist : forall l : list Z, exists m, forall h, h ∈ l -> h <= m).
  { induction l as [|x l [m Hm]]; [exists 0; set_solver|]. exists (Z.max x m).
    intros h [->|Hh]%elem_of_cons; [lia|]. specialize (Hm h Hh). lia. }
  induction cmds as [|c0 cmd0 cmds Hn [m Hm]] using map_ind.
  - exists 0. intros c cmd h Hl. by rewrite lookup_empty in Hl.
  - destruct (Hlist (c_hashes cmd0)) as [m0 Hm0]. exists (Z.max m m0). intros c cmd h Hl Hh.
    destruct (decide (c = c0)) as [->|Hne].
    + rewrite lookup_insert_eq in Hl. injection Hl as <-. specialize (Hm0 h Hh). lia.
    + rewrite lookup_insert_ne in Hl by done. specialize (Hm c cmd h Hl Hh). lia.
Qed.

(** Whoever is blocked waits for a command that is runnable or is blocked on a
    larger hash. *)
Lemma blocked_leads q cmds m :
  queues_inv q cmds -> (forall c cmd h, cmds !! c = Some cmd -> h ∈ c_hashes cmd -> h <= m) ->
  forall n c cmd i h, cmds !! c = Some cmd -> c_phase cmd = Waiting i false -> c_hashes cmd !! i = Some h ->
    (Z.to_nat (m - h) < n)%nat -> exists c' cmd', cmds !! c' = Some cmd' /\ runnable cmd'.
Proof.
  intros Hinv Hm. induction n as [|n IH]; intros c cmd i h Hl Hp Hi Hn; [lia|].
  destruct (ci_waiting _ _ _ (qi_command _ _ Hinv c cmd Hl) i false Hp) as (h0 & Hi0 & Hin & Hw).
  assert (h0 = h) as -> by congruence.
  destruct (head (q h)) as [c1|] eqn:Eh; [|apply head_None in Eh; rewrite Eh in Hin; by apply not_elem_of_nil in Hin].
  destruct (qi_queued _ _ Hinv h c1 (head_Some_elem_of _ _ Eh)) as (cmd1 & Hl1 & Hor).
  destruct (c_phase cmd1) as [j|j [|]| |j] eqn:Hp1; try (exists c1, cmd1; split; [done|]; intros k E; congruence).
  destruct (ci_waiting _ _ _ (qi_command _ _ Hinv c1 cmd1 Hl1) j false Hp1) as (h1 & Hj & _ & Hw1).
  assert (h < h1) as Hlt.
  { destruct Hor as [Ho|[Hpd _]].
    - unfold owned in Ho. rewrite Hp1 in Ho.
      by apply (sorted_at _ _ _ (ci_sorted _ _ _ (qi_command _ _ Hinv c1 cmd1 Hl1)) Hj) in Ho.
    - unfold pending in Hpd. rewrite Hp1 in Hpd. assert (h1 = h) as -> by congruence.
      destruct Hw1 as [_ Hw1]. by specialize (Hw1 Eh). }
  apply (IH c1 cmd1 j h1 Hl1 Hp1 Hj).
  assert (h1 <= m) by (eapply Hm; [done|by eapply list_elem_of_lookup_2]). lia.
Qed.

(** *** The work that is left *)

(** An upper bound of the steps of a command: for each latch it is to acquire, the
    attempt that queues it, the wakeup, the return and the attempt that succeeds;
    then the execution, and the releases. *)
Definition work (q : u64 -> list u64) (c : u64) (cmd : command) : nat :=
  let n := length (c_hashes cmd) in
  match c_phase cmd with
  | Acquiring i =>
      5 * (n - i) + match c_hashes cmd !! i with Some h => if decide (c ∈ q h) then 0 else 4 | None => 0 end + n + 3
  | Waiting i false => 5 * (n - i) + 2 + n + 3
  | Waiting i true => 5 * (n - i) + 1 + n + 3
  | Holding => n + 2
  | Releasing i => n - i + 1
  end%nat.

Definition work_of (q : u64 -> list u64) (cmds : gmap Z command) : nat :=
  map_fold (fun c cmd n => (work q c cmd + n)%nat) 0%nat cmds.

Definition work_left (s : lstate) : nat := work_of (queue (l_latches s)) (l_cmds s).

Lemma work_of_insert q cmds c cmd :
  cmds !! c = None -> work_of q (<[c := cmd]> cmds) = (work q c cmd + work_of q cmds)%nat.
Proof. intros Hl. unfold work_of. rewrite map_fold_insert_L; [done|intros; lia|done]. Qed.

Lemma work_of_delete q cmds c cmd :
  cmds !! c = Some cmd -> work_of q cmds = (work q c cmd + work_of q (delete c cmds))%nat.
Proof. intros Hl. rewrite <-(insert_delete_id cmds c cmd) at 1 by done. apply work_of_insert, lookup_delete_eq. Qed.

Lemma work_of_le q q' cmds' : forall cmds,
  (forall x cmd', cmds' !! x = Some cmd' -> exists cmd, cmds !! x = Some cmd /\ (work q' x cmd' <= work q x cmd)%nat) ->
  (work_of q' cmds' <= work_of q cmds)%nat.
Proof.
  induction cmds' as [|x cmd' cmds' Hx IH] using map_ind; intros cmds H.
  { unfold work_of at 1. rewrite map_fold_empty. lia. }
  destruct (H x cmd') as (cmd & Hl & Hle); [by rewrite lookup_insert_eq|].
  rewrite work_of_insert, (work_of_delete q cmds x cmd) by done.
  apply Nat.add_le_mono; [done|]. apply IH. intros y cmdy Hy. assert (x <> y) as Hne by congruence. rewrite lookup_delete_ne by done.
  apply (H y). by rewrite lookup_insert_ne.
Qed.

(** A step of one command, when the others have no more work than before. *)
Lemma work_of_step q q' cmds cmds' c cmd :
  cmds !! c = Some cmd ->
  match cmds' !! c with Some cmd' => (work q' c cmd' < work q c cmd)%nat | None => (0 < work q c cmd)%nat end ->
  (forall x cmd', x <> c -> cmds' !! x = Some cmd' -> exists cmd, cmds !! x = Some cmd /\ (work q' x cmd' <= work q x cmd)%nat) ->
  (work_of q' cmds' < work_of q cmds)%nat.
Proof.
  intros Hl Hc Ho. rewrite (work_of_delete q cmds c cmd Hl).
  assert (work_of q' (delete c cmds') <= work_of q (delete c cmds))%nat as Hle.
  { apply work_of_le. intros x cmd' [Hne Hx]%lookup_delete_Some. rewrite lookup_delete_ne by done. by apply Ho. }
  destruct (cmds' !! c) as [cmd'|] eqn:E; [rewrite (work_of_delete q' cmds' c cmd' E); lia|].
  rewrite delete_id in Hle by done. lia.
Qed.

(** The work of a command depends on its own place in the queues only. *)
Lemma work_queues q q' x cmd :
  (forall h, x ∈ q h -> x ∈ q' h) -> (work q' x cmd <= work q x cmd)%nat.
Proof.
  intros Hq. unfold work. destruct (c_phase cmd) as [i|i [|]| |i]; try lia.
  destruct (c_hashes cmd !! i) as [h|]; [|lia]. repeat case_decide; naive_solver lia.
Qed.

Lemma work_phase q q' (cmds : gmap Z command) c cmd p :
  cmds !! c = Some cmd -> (work q' c (set_phase cmd p) < work q c cmd)%nat ->
  (forall x h, x <> c -> x ∈ q h -> x ∈ q' h) ->
  (work_of q' (<[c := set_phase cmd p]> cmds) < work_of q cmds)%nat.
Proof.
  intros Hl Hw Hq. apply (work_of_step q q' _ _ c cmd Hl); [by rewrite lookup_insert_eq|].
  intros x cmd' Hne. rewrite lookup_insert_ne by done. intros Hx. exists cmd'. split; [done|].
  apply work_queues. intros h. by apply Hq.
Qed.

Lemma acquire_work q q' cmds c cmd i h :
  queues_inv q cmds -> cmds !! c = Some cmd -> c_phase cmd = Acquiring i -> c_hashes cmd !! i = Some h ->
  (forall h', q' h' = if decide (h' = h) then (if decide (head (q h) = Some c) then q h else q h ++ [c]) else q h') ->
  (work_of q' (<[c := set_phase cmd (if bool_decide (q h = [] \/ head (q h) = Some c) then Acquiring (S i) else Waiting i false)]> cmds)
   < work_of q cmds)%nat.
Proof.
  intros Hinv Hl Hp Hi Hq'. pose proof (lookup_lt_Some _ _ _ Hi) as Hlt. apply work_phase; [done| |].
  - unfold work. rewrite Hp, Hi. case_bool_decide as Hb; cbn [c_phase c_hashes set_phase].
    + assert (match c_hashes cmd !! S i with Some h0 => if decide (c ∈ q' h0) then 0 else 4 | None => 0 end <= 4)%nat.
      { repeat case_match; lia. }
      lia.
    + rewrite decide_False; [lia|]. apply (acquire_fresh q cmds c cmd i h Hinv Hl Hp Hi). intros Hh. apply Hb. by right.
  - intros x h' _ Hx. rewrite Hq'. repeat case_decide; subst; first [done|set_solver].
Qed.

Lemma release_work q q' cmds c cmd i h :
  queues_inv q cmds -> cmds !! c = Some cmd -> c_phase cmd = Releasing i -> c_hashes cmd !! i = Some h ->
  (forall h', q' h' = if decide (h' = h) then tail (q h) else q h') ->
  (work_of q' (wake_all (head (tail (q h))) (<[c := set_phase cmd (Releasing (S i))]> cmds)) < work_of q cmds)%nat.
Proof.
  intros Hinv Hl Hp Hi Hq'. pose proof (lookup_lt_Some _ _ _ Hi) as Hlt.
  pose proof (release_lookup q q' cmds c cmd i h Hinv Hl Hp Hi Hq') as Hlook.
  assert (forall x h', x <> c -> x ∈ q h' -> x ∈ q' h') as Hq.
  { intros x h' Hne Hx. rewrite Hq'. case_decide; [subst|done]. rewrite (release_queue q q' cmds c cmd i h Hinv Hl Hp Hi Hq') in Hx.
    by apply elem_of_cons in Hx as [?|?]. }
  apply (work_of_step q q' _ _ c cmd Hl).
  - rewrite Hlook, decide_True by done. unfold work. rewrite Hp. cbn [c_phase c_hashes set_phase]. lia.
  - intros x cmd' Hne. rewrite Hlook, decide_False by done. case_decide as Hh.
    + intros (cmdx & Hx & ->)%fmap_Some. exists cmdx. split; [done|]. etrans; [apply work_queues; intros h' Hx'; by apply Hq|].
      destruct (wake_command_eq cmdx) as [->|(j & w & Hpx & ->)]; [done|]. unfold work. rewrite Hpx. cbn. destruct w; lia.
    + intros Hx. exists cmd'. split; [done|]. apply work_queues. intros h' Hx'. by apply Hq.
Qed.

Lemma old_step_work s s' : latch_inv s -> old_step s s' -> (work_left s' < work_left s)%nat.
Proof.
  intros [Hok Hinv] [Hstep Hnew]. unfold work_left.
  destruct Hstep as [ls cmds c K hash keys Hl|ls cmds c cmd i h b ls' Hl Hp Hi Ha|ls cmds c cmd Hl Hp
    |ls cmds c cmd i Hl Hp|ls cmds c cmd Hl Hp|ls cmds c cmd i h ls' keep wake Hl Hp Hi Hr|ls cmds c cmd Hl Hp];
    cbn [l_latches l_cmds] in *.
  - specialize (Hnew c Hl). cbn in Hnew. by rewrite lookup_insert_eq in Hnew.
  - apply acquire_one_queue in Ha as (_ & -> & Hq'); [|done]. by apply acquire_work.
  - apply work_phase; [done| |done]. unfold work. rewrite Hp. cbn. rewrite lookup_ge_None_2 by done. lia.
  - destruct (ci_waiting _ _ _ (qi_command _ _ Hinv c cmd Hl) i true Hp) as (h & Hi & Hin & _).
    apply work_phase; [done| |done]. unfold work. rewrite Hp. cbn. rewrite Hi, decide_True by done. lia.
  - apply work_phase; [done| |done]. unfold work. rewrite Hp. cbn. lia.
  - assert (head (queue ls h) = Some c) as Hh by (by eapply release_head).
    apply release_one_plain in Hr as (_ & -> & -> & Hq'); [|done|done]. by eapply release_work.
  - apply (work_of_step _ _ _ _ c cmd Hl); [rewrite lookup_delete_eq; unfold work; rewrite Hp; lia|].
    intros x cmd' Hne. rewrite lookup_delete_ne by done. eauto.
Qed.

Lemma old_steps_work n s s' : latch_inv s -> nsteps old_step n s s' -> latch_inv s' /\ (n + work_left s' <= work_left s)%nat.
Proof.
  intros Hinv Hn. induction Hn as [s|n s s1 s' Hs _ IH]; [split; [done|lia]|].
  destruct IH as [Hinv' Hle]; [by eapply latch_step_inv; [|apply Hs]|]. split; [done|].
  pose proof (old_step_work s s1 Hinv Hs). lia.
Qed.

(** C24. Latches do not deadlock, and no command waits for ever.  From a reachable
    state, with commands in the midst of their acquisitions and releases, every
    sequence of steps that starts no new command is at most as long as the work
    that is left in the state; and as long as a command is left after such a
    sequence, some command that is not waiting, or has been woken, can take its
    next step.  So whatever the interleaving, all commands have acquired their
    latches, run and released them in the end. *)
Theorem latches_deadlock_free s n s' :
  latch_reachable s -> nsteps old_step n s s' ->
  (n <= work_left s)%nat
  /\ (l_cmds s' <> ∅ ->
      exists c cmd s'', l_cmds s' !! c = Some cmd /\ runnable cmd /\ old_step s' s'' /\ l_cmds s'' !! c <> Some cmd).
Proof.
  intros Hr Hn. apply latch_reachable_inv in Hr. destruct (old_steps_work n s s' Hr Hn) as [Hinv' Hle].
  split; [lia|]. intros Hne. pose proof Hinv' as [_ Hinv].
  assert (exists c cmd, l_cmds s' !! c = Some cmd /\ runnable cmd) as (c & cmd & Hl & Hrun).
  { apply map_choose in Hne as (c & cmd & Hl). destruct (hash_bound (l_cmds s')) as [m Hm].
    destruct (c_phase cmd) as [i|i [|]| |i] eqn:Hp; try (exists c, cmd; split; [done|]; intros k E; congruence).
    destruct (ci_waiting _ _ _ (qi_command _ _ Hinv c cmd Hl) i false Hp) as (h & Hi & _).
    apply (blocked_leads _ _ m Hinv Hm (S (Z.to_nat (m - h))) c cmd i h Hl Hp Hi). lia. }
  destruct (runnable_steps s' c cmd Hinv' Hl Hrun) as (s'' & Hs & Hch). eauto 8.
Qed.

(** Two commands on the same key: the first holds the latch, the second waits. *)
Definition contended : lstate :=
  let ls := snd (acquire_one (Latches_new 256) 5 1) in
  {| l_latches := snd (acquire_one ls 5 2);
     l_cmds := <[2 := {| c_hashes := [5]; c_phase := Waiting 0 false |}]>
                 (<[1 := {| c_hashes := [5]; c_phase := Acquiring 1 |}]>
                   (<[2 := {| c_hashes := [5]; c_phase := Acquiring 0 |}]>
                     {[1 := {| c_hashes := [5]; c_phase := Acquiring 0 |}]})) |}.

Lemma contended_reachable : latch_reachable contended.
Proof.
  eapply lreach_step; [eapply lreach_step; [eapply lreach_step; [eapply lreach_step; [apply (lreach_new 256)|]|]|]|].
  - eapply (lstep_start _ _ 1 id [5]). reflexivity.
  - eapply (lstep_start _ _ 2 id [5]). reflexivity.
  - eapply (lstep_acquire _ _ 1 _ 0 5 true); reflexivity.
  - eapply (lstep_acquire _ _ 2 {| c_hashes := [5]; c_phase := Acquiring 0 |} 0 5 false); reflexivity.
Qed.

Lemma latches_exclusive_witness :
  ~ 5 ∈ owned {| c_hashes := [5]; c_phase := Waiting 0 false |}.
Proof.
  apply (latches_exclusive contended 1 {| c_hashes := [5]; c_phase := Acquiring 1 |} 2
    {| c_hashes := [5]; c_phase := Waiting 0 false |} contended_reachable).
  - reflexivity.
  - reflexivity.
  - lia.
  - apply list_elem_of_here.
Defined.

Lemma latches_deadlock_free_witness :
  work_left contended = 15%nat
  /\ exists c cmd s', l_cmds contended !! c = Some cmd /\ runnable cmd /\ old_step contended s'.
Proof.
  split; [vm_compute; reflexivity|].
  destruct (latches_deadlock_free contended 0 contended contended_reachable) as [_ H].
  - apply nsteps_O.
  - destruct H as (c & cmd & s' & H1 & H2 & H3 & _); [discriminate|]. exists c, cmd, s'. split_and!; [exact H1|exact H2|exact H3].
Defined.

(** ** The sequential release *)

(** What passes the latch of [h] on: the command it is kept for, if any. *)
Definition kept_for (keep_cid : option u64) (keep : list u64) (h : u64) : list u64 :=
  if decide (h ∈ keep) then option_list keep_cid else [].

Lemma sorted_head_elem (l : list Z) h :
  StronglySorted Z.lt l -> Forall (Z.le h) l -> (h ∈ l <-> head l = Some h).
Proof.
  intros Hs Hle. split; [|by apply head_Some_elem_of]. destruct l as [|x l]; [by intros []%not_elem_of_nil|].
  apply StronglySorted_inv in Hs as [_ Hx]. apply Forall_cons in Hle as [Hle _].
  intros [->|Hin]%elem_of_cons; [done|]. rewrite Forall_forall in Hx. specialize (Hx h Hin). lia.
Qed.

Lemma release_loop_spec who keep_cid hs : forall ls keep wake,
  latches_ok ls -> StronglySorted Z.lt hs -> (forall h, h ∈ hs -> head (queue ls h) = Some who) ->
  StronglySorted Z.lt keep -> (forall h, h ∈ keep -> h ∈ hs) -> (keep <> [] -> is_Some keep_cid) ->
  exists ls', release_loop ls hs who keep_cid keep wake
      = Ok (ls', wake ++ omap (fun h => head (tail (queue ls h))) (filter (fun h => ~ h ∈ keep) hs))
    /\ latches_ok ls'
    /\ forall h, queue ls' h = if decide (h ∈ hs) then kept_for keep_cid keep h ++ tail (queue ls h) else queue ls h.
Proof.
  induction hs as [|h hs IH]; intros ls keep wake Hok Hs Hown Hks Hsub Hcid.
  { destruct keep as [|k keep]; [|by destruct (not_elem_of_nil k); apply Hsub, list_elem_of_here].
    exists ls. cbn. rewrite app_nil_r. done. }
  apply StronglySorted_inv in Hs as [Hs Hh]. rewrite Forall_forall in Hh.
  assert (Hle : Forall (Z.le h) keep).
  { apply Forall_forall. intros k Hk. apply Hsub, elem_of_cons in Hk as [->|Hk]; [lia|]. specialize (Hh k Hk). lia. }
  pose proof (sorted_head_elem keep h Hks Hle) as Hhead.
  destruct (release_one_queue ls h who keep_cid keep Hok) as (ls1 & keep1 & w1 & E & Hok1 & Hkw & Hq1).
  { apply Hown, list_elem_of_here. }
  { done. }
  { intros Hhk. apply Hcid. intros ->. done. }
  assert (Hother : forall h', h' ∈ hs -> h' <> h) by (intros h' Hin ->; specialize (Hh h Hin); lia).
  assert (keep1 = (if decide (h ∈ keep) then tail keep else keep)
    /\ w1 = (if decide (h ∈ keep) then None else head (tail (queue ls h)))) as [Hk1 Hw1].
  { destruct (decide (head keep = Some h)) as [Hd|Hd]; [rewrite !decide_True by tauto|rewrite !decide_False by tauto]; done. }
  assert (Hk1e : forall k, k ∈ keep1 <-> k ∈ keep /\ k <> h).
  { intros k. rewrite Hk1. case_decide as Hd.
    - destruct keep as [|k0 keep]; [by apply not_elem_of_nil in Hd|]. cbn [tail].
      assert (k0 = h) as -> by (apply Hhead in Hd; cbn in Hd; congruence).
      apply StronglySorted_inv in Hks as [_ Hlt]. rewrite Forall_forall in Hlt. rewrite elem_of_cons. split.
      + intros Hk. specialize (Hlt k Hk). split; [by right|lia].
      + intros [[->|?] ?]; done.
    - split; [|tauto]. intros Hk. split; [done|]. by intros ->. }
  destruct (IH ls1 keep1 (wake ++ match w1 with Some cid => [cid] | None => [] end)) as (ls' & El & Hok' & Hq').
  { done. } { done. }
  { intros h' Hin. rewrite Hq1, decide_False by (by apply Hother). apply Hown. by apply list_elem_of_further. }
  { rewrite Hk1. case_decide; [|done]. destruct keep; [done|]. by apply StronglySorted_inv in Hks as [? _]. }
  { intros k [Hk Hne]%Hk1e. apply Hsub, elem_of_cons in Hk as [?|?]; done. }
  { intros Hne. apply Hcid. intros ->. rewrite Hk1 in Hne. by case_decide. }
  exists ls'. split; [|split; [done|]].
  - cbn [release_loop]. rewrite E. cbn [mbind res_bind]. rewrite El. do 2 f_equal.
    rewrite filter_cons, <-(assoc_L app). f_equal.
    assert (Hrest : omap (fun h0 => head (tail (queue ls1 h0))) (filter (fun h0 => ~ h0 ∈ keep1) hs)
      = omap (fun h0 => head (tail (queue ls h0))) (filter (fun h0 => ~ h0 ∈ keep) hs)).
    { clear -Hk1e Hq1 Hother. induction hs as [|x hs IH]; [done|]. rewrite !filter_cons.
      assert (x <> h) as Hne by (apply Hother, list_elem_of_here).
      rewrite (decide_ext (~ x ∈ keep1) (~ x ∈ keep)) by (rewrite Hk1e; tauto).
      assert (Hin : forall h', h' ∈ hs -> h' <> h) by (intros; apply Hother; by apply list_elem_of_further).
      specialize (IH Hin). destruct (decide (~ x ∈ keep)); [|exact IH]. cbn. rewrite Hq1, decide_False by done.
      destruct (head (tail (queue ls x))); [f_equal|]; exact IH. }
    rewrite Hrest, Hw1. destruct (decide (h ∈ keep)); [rewrite decide_False by tauto; done|].
    rewrite decide_True by done. cbn. by destruct (head (tail (queue ls h))).
  - intros h0. rewrite Hq', Hq1. unfold kept_for. destruct (decide (h0 = h)) as [->|Hne].
    + rewrite decide_False by (intros Hin; by apply Hother in Hin). rewrite (decide_True (P := h ∈ h :: hs)) by set_solver.
      f_equal. destruct (decide (head keep = Some h)) as [Hd|Hd]; [by rewrite decide_True by tauto|by rewrite decide_False by tauto].
    + rewrite (decide_ext (h0 ∈ h :: hs) (h0 ∈ hs)) by set_solver. destruct (decide (h0 ∈ hs)); [|done].
      by rewrite (decide_ext (h0 ∈ keep1) (h0 ∈ keep)) by (rewrite Hk1e; tauto).
Qed.

(** What a release does.  Releasing an acquired lock, whose command is the
    first one on every hash, always succeeds: on each hash that is kept for the
    following command, that command takes the first place; on every other one
    the next in the queue becomes the first, and exactly these are woken, in the
    order of the hashes; nothing else changes in any queue. *)
Theorem release_keeps_latches ls lock who keep :
  latches_ok ls -> acquired lock = true -> StronglySorted Z.lt (required_hashes lock) ->
  (forall h, h ∈ required_hashes lock -> head (queue ls h) = Some who) ->
  let keep_cid := fst <$> keep in
  let keep_hashes := match keep with Some (_, l) => required_hashes l | None => [] end in
  StronglySorted Z.lt keep_hashes -> (forall h, h ∈ keep_hashes -> h ∈ required_hashes lock) ->
  exists ls', release ls lock who keep
      = Ok (ls', omap (fun h => head (tail (queue ls h)))
                   (filter (fun h => ~ h ∈ keep_hashes) (required_hashes lock)))
    /\ forall h, queue ls' h = if decide (h ∈ required_hashes lock)
                              then kept_for keep_cid keep_hashes h ++ tail (queue ls h) else queue ls h.
Proof.
  intros Hok Hacq Hs Hown kc kh Hks Hsub. apply Nat.eqb_eq in Hacq.
  assert (release ls lock who keep = release_loop ls (required_hashes lock) who kc kh []) as ->
    by (unfold release; by rewrite <-Hacq, firstn_all).
  destruct (release_loop_spec who kc (required_hashes lock) ls kh [] Hok Hs Hown Hks Hsub) as (ls' & -> & _ & Hq).
  - subst kc kh. destruct keep as [[cid l]|]; [by eexists|done].
  - by exists ls'.
Qed.

Lemma release_keeps_latches_witness :
  let ls := snd (acquire_loop (Latches_new 256) [5; 6] 1) in
  let ls := snd (acquire_one ls 6 2) in
  let lock := {| required_hashes := [5; 6]; owned_count := 2 |} in
  exists ls', release ls lock 1 (Some (9, {| required_hashes := [5]; owned_count := 0 |})) = Ok (ls', [2])
    /\ queue ls' 5 = [9] /\ queue ls' 6 = [2].
Proof.
  intros ls0 ls lock.
  destruct (release_keeps_latches ls lock 1 (Some (9, {| required_hashes := [5]; owned_count := 0 |})))
    as (ls' & Hr & Hq).
  - subst ls ls0. split; [|reflexivity]. exists 8. split; [lia|reflexivity].
  - reflexivity.
  - repeat constructor.
  - intros h Hh. apply elem_of_cons in Hh as [->|Hh]; [reflexivity|].
    apply list_elem_of_singleton in Hh as ->. reflexivity.
  - repeat constructor.
  - cbn. set_solver.
  - exists ls'. split; [exact Hr|]. split; rewrite Hq; reflexivity.
Defined.
