(* ===== verification/Deadlock.v ===== *)
(** * The deadlock detector

    [DetectTable] of [src/server/lock_manager/deadlock.rs]: the graph of which
    transaction waits for which, whose edges expire, and the search that is made
    before an edge is added.  [HashMap]s are [gmap]s, iterated in the order of
    [map_to_list]; instants and durations are integers, and the present instant is
    an argument.  The search is a loop with fuel, the number of vertices edges
    lead to plus two, which is enough ([detect_loop_spec]); the walk back that
    builds the wait chain has the number of vertices pushed
    ([wait_chain_loop_spec]).

    Theorems: the graph never has a cycle, expired edges included
    ([wait_for_acyclic]); a request always returns, without a panic, and finds a
    deadlock exactly when its edge would close a cycle of edges that have not
    expired, with the chain of it ([detect_correct]). *)

From Stdlib Require Import ZArith Lia.
From stdpp Require Import base numbers list gmap sets relations.
From S2P Require Import Prelude Types.

Open Scope Z_scope.

(** ** [Locks] *)

Record Locks : Type := {
  lk_ts : TimeStamp;
  lk_keys : list (u64 * bytes);
  lk_resource_group_tag : bytes;
  lk_last_detect_time : Z
}.

Definition Locks_new (ts : TimeStamp) (hash : u64) (key tag : bytes) (now : Z) : Locks :=
  {| lk_ts := ts; lk_keys := [(hash, key)]; lk_resource_group_tag := tag; lk_last_detect_time := now |}.

Definition Locks_push (l : Locks) (lock_hash : u64) (key : bytes) (now : Z) : Locks :=
  {| lk_ts := lk_ts l;
     lk_keys := if existsb (fun '(h, _) => h =? lock_hash) (lk_keys l) then lk_keys l
                else lk_keys l ++ [(lock_hash, key)];
     lk_resource_group_tag := lk_resource_group_tag l; lk_last_detect_time := now |}.

(** [Vec::remove] at the first position of a hash. *)
Fixpoint remove_hash (l : list (u64 * bytes)) (lock_hash : u64) : list (u64 * bytes) :=
  match l with
  | [] => []
  | (h, k) :: l' => if h =? lock_hash then l' else (h, k) :: remove_hash l' lock_hash
  end.

Definition Locks_remove (l : Locks) (lock_hash : u64) : bool * Locks :=
  let keys := remove_hash (lk_keys l) lock_hash in
  (bool_decide (keys = []),
   {| lk_ts := lk_ts l; lk_keys := keys; lk_resource_group_tag := lk_resource_group_tag l;
      lk_last_detect_time := lk_last_detect_time l |}).

Definition set_tag (l : Locks) (tag : bytes) : Locks :=
  {| lk_ts := lk_ts l; lk_keys := lk_keys l; lk_resource_group_tag := tag;
     lk_last_detect_time := lk_last_detect_time l |}.

Definition is_expired (now ttl : Z) (l : Locks) : bool := ttl <=? Z.max 0 (now - lk_last_detect_time l).

Record WaitForEntry : Type := {
  we_txn : u64;
  we_wait_for_txn : u64;
  we_key_hash : u64;
  we_key : bytes;
  we_resource_group_tag : bytes
}.

(** [self.keys[0]] panics when there is none. *)
Definition to_wait_for_entry (l : Locks) (waiter_ts : TimeStamp) : res unit WaitForEntry :=
  '(hash, key) ← unwrap (head (lk_keys l));
  Ok {| we_txn := waiter_ts; we_wait_for_txn := lk_ts l; we_key_hash := hash; we_key := key;
        we_resource_group_tag := lk_resource_group_tag l |}.

(** ** [DetectTable] *)

Abbreviation WaitForMap := (gmap Z (gmap Z Locks)).

Record DetectTable : Type := {
  dt_wait_for_map : WaitForMap;
  dt_ttl : Z;
  dt_last_active_expire : Z;
  dt_now : Z
}.

Definition DetectTable_new (ttl now : Z) : DetectTable :=
  {| dt_wait_for_map := ∅; dt_ttl := ttl; dt_last_active_expire := now; dt_now := now |}.

Definition dt_set_map (t : DetectTable) (m : WaitForMap) : DetectTable :=
  {| dt_wait_for_map := m; dt_ttl := dt_ttl t; dt_last_active_expire := dt_last_active_expire t; dt_now := dt_now t |}.
Definition dt_set_now (t : DetectTable) (now : Z) : DetectTable :=
  {| dt_wait_for_map := dt_wait_for_map t; dt_ttl := dt_ttl t;
     dt_last_active_expire := dt_last_active_expire t; dt_now := now |}.

Definition ACTIVE_EXPIRE_THRESHOLD : Z := 100000.
Definition ACTIVE_EXPIRE_INTERVAL : Z := 3600.

(** [wait_for.retain(|_, locks| !locks.is_expired(now, ttl))] *)
Definition retain_live (now ttl : Z) (wait_for : gmap Z Locks) : gmap Z Locks :=
  filter (fun x => is_expired now ttl (snd x) = false) wait_for.

Definition active_expire (t : DetectTable) : DetectTable :=
  if (ACTIVE_EXPIRE_THRESHOLD <=? Z.of_nat (size (dt_wait_for_map t)))
     && (ACTIVE_EXPIRE_INTERVAL <=? Z.max 0 (dt_now t - dt_last_active_expire t))
  then
    {| dt_wait_for_map := filter (fun x => snd x <> ∅)
                            (retain_live (dt_now t) (dt_ttl t) <$> dt_wait_for_map t);
       dt_ttl := dt_ttl t; dt_last_active_expire := dt_now t; dt_now := dt_now t |}
  else t.

(** *** The search *)

(** The edges of one vertex: [inl] the edge to the goal, or the new stack and
    the predecessors. *)
Fixpoint scan_edges (txn_ts curr_ts : TimeStamp) (edges : list (Z * Locks))
    (stack : list Z) (pushed : gmap Z Z) : (Locks * gmap Z Z) + (list Z * gmap Z Z) :=
  match edges with
  | [] => inr (stack, pushed)
  | (lock_ts, locks) :: edges =>
      if lock_ts =? txn_ts then inl (locks, pushed)
      else match pushed !! lock_ts with
           | None => scan_edges txn_ts curr_ts edges (lock_ts :: stack) (<[lock_ts := curr_ts]> pushed)
           | Some _ => scan_edges txn_ts curr_ts edges stack pushed
           end
  end.

Inductive search_result : Type :=
| Found (curr_ts : TimeStamp) (locks : Locks) (pushed : gmap Z Z)
| NotFound
| OutOfFuel.

(** The [while] loop of [do_detect]. *)
Fixpoint detect_loop (fuel : nat) (now ttl : Z) (txn_ts : TimeStamp) (m : WaitForMap)
    (stack : list Z) (pushed : gmap Z Z) : search_result * WaitForMap :=
  match fuel with
  | O => (OutOfFuel, m)
  | S fuel =>
      match stack with
      | [] => (NotFound, m)
      | curr_ts :: stack =>
          match m !! curr_ts with
          | None => detect_loop fuel now ttl txn_ts m stack pushed
          | Some wait_for =>
              let wait_for := retain_live now ttl wait_for in
              if bool_decide (wait_for = ∅)
              then detect_loop fuel now ttl txn_ts (delete curr_ts m) stack pushed
              else
                let m := <[curr_ts := wait_for]> m in
                match scan_edges txn_ts curr_ts (map_to_list wait_for) stack pushed with
                | inl (locks, pushed) => (Found curr_ts locks pushed, m)
                | inr (stack, pushed) => detect_loop fuel now ttl txn_ts m stack pushed
                end
          end
      end
  end.

(** The vertices that edges lead to. *)
Definition targets (m : WaitForMap) : gset Z := ⋃ ((fun x => dom (snd x)) <$> map_to_list m).

Definition detect_fuel (m : WaitForMap) : nat := S (S (size (targets m))).

(** [generate_wait_chain], built from the end. *)
Fixpoint wait_chain_loop (fuel : nat) (m : WaitForMap) (start lock_ts : TimeStamp) (pushed : gmap Z Z)
    (wait_chain : list WaitForEntry) : res unit (list WaitForEntry) :=
  match fuel with
  | O => Panic
  | S fuel =>
      waiter_ts ← unwrap (pushed !! lock_ts);
      if waiter_ts =? 0 then _ ← assert_ (lock_ts =? start); Ok wait_chain
      else
        locks ← unwrap (m !! waiter_ts ≫= fun wait_for => wait_for !! lock_ts);
        entry ← to_wait_for_entry locks waiter_ts;
        wait_chain_loop fuel m start waiter_ts pushed (entry :: wait_chain)
  end.

Definition generate_wait_chain (m : WaitForMap) (start end_ : TimeStamp) (pushed : gmap Z Z)
    : res unit (list WaitForEntry) :=
  wait_chain_loop (S (size pushed)) m start end_ pushed [].

Definition do_detect (t : DetectTable) (txn_ts wait_for_ts : TimeStamp)
    : res unit (option (u64 * list WaitForEntry)) * DetectTable :=
  let '(r, m) := detect_loop (detect_fuel (dt_wait_for_map t)) (dt_now t) (dt_ttl t) txn_ts
                   (dt_wait_for_map t) [wait_for_ts] {[wait_for_ts := 0]} in
  (match r with
   | Found curr_ts locks pushed =>
       '(hash, _) ← unwrap (head (lk_keys locks));
       last_entry ← to_wait_for_entry locks curr_ts;
       wait_chain ← generate_wait_chain m wait_for_ts curr_ts pushed;
       Ok (Some (hash, wait_chain ++ [last_entry]))
   | NotFound => Ok None
   | OutOfFuel => Panic
   end, dt_set_map t m).

Definition register_if_existed (t : DetectTable) (txn_ts lock_ts : TimeStamp) (lock_hash : u64)
    (key tag : bytes) : bool * DetectTable :=
  match dt_wait_for_map t !! txn_ts with
  | Some wait_for =>
      match wait_for !! lock_ts with
      | Some locks =>
          (true, dt_set_map t (<[txn_ts := <[lock_ts := set_tag (Locks_push locks lock_hash key (dt_now t)) tag]>
                                   wait_for]> (dt_wait_for_map t)))
      | None => (false, t)
      end
  | None => (false, t)
  end.

Definition register (t : DetectTable) (txn_ts lock_ts : TimeStamp) (lock_hash : u64) (key tag : bytes)
    : res unit DetectTable :=
  let wait_for := default ∅ (dt_wait_for_map t !! txn_ts) in
  _ ← assert_ (negb (bool_decide (is_Some (wait_for !! lock_ts))));
  let locks := Locks_new lock_ts lock_hash key tag (dt_now t) in
  Ok (dt_set_map t (<[txn_ts := <[lk_ts locks := locks]> wait_for]> (dt_wait_for_map t))).

Definition detect (t : DetectTable) (now : Z) (txn_ts lock_ts : TimeStamp) (lock_hash : u64) (lock_key tag : bytes)
    : res unit (option (u64 * list WaitForEntry) * DetectTable) :=
  let t := active_expire (dt_set_now t now) in
  let '(existed, t) := register_if_existed t txn_ts lock_ts lock_hash lock_key tag in
  if existed then Ok (None, t)
  else
    let '(r, t) := do_detect t txn_ts lock_ts in
    found ← r;
    match found with
    | Some d => Ok (Some d, t)
    | None => t ← register t txn_ts lock_ts lock_hash lock_key tag; Ok (None, t)
    end.

Definition clean_up_wait_for (t : DetectTable) (txn_ts digest_ts : TimeStamp) (digest_hash : u64) : DetectTable :=
  match dt_wait_for_map t !! txn_ts with
  | Some wait_for =>
      match wait_for !! digest_ts with
      | Some locks =>
          let '(empty, locks) := Locks_remove locks digest_hash in
          if empty then
            let wait_for := delete digest_ts wait_for in
            if bool_decide (wait_for = ∅) then dt_set_map t (delete txn_ts (dt_wait_for_map t))
            else dt_set_map t (<[txn_ts := wait_for]> (dt_wait_for_map t))
          else dt_set_map t (<[txn_ts := <[digest_ts := locks]> wait_for]> (dt_wait_for_map t))
      | None => t
      end
  | None => t
  end.

Definition clean_up (t : DetectTable) (txn_ts : TimeStamp) : DetectTable :=
  dt_set_map t (delete txn_ts (dt_wait_for_map t)).

Definition dt_clear (t : DetectTable) : DetectTable := dt_set_map t ∅.

Definition reset_ttl (t : DetectTable) (ttl : Z) : DetectTable :=
  {| dt_wait_for_map := dt_wait_for_map t; dt_ttl := ttl;
     dt_last_active_expire := dt_last_active_expire t; dt_now := dt_now t |}.

(** ** The graph *)

Definition get2 (m : WaitForMap) (a b : Z) : option Locks := m !! a ≫= fun wait_for => wait_for !! b.

(** [a] waits for [b], whether or not the edge has expired. *)
Definition edge (m : WaitForMap) (a b : Z) : Prop := is_Some (get2 m a b).

(** An edge that has not expired. *)
Definition live_edge (now ttl : Z) (m : WaitForMap) (a b : Z) : Prop :=
  exists l, get2 m a b = Some l /\ is_expired now ttl l = false.

Definition acyclic (m : WaitForMap) : Prop := forall v, ~ tc (edge m) v v.

(** Vertices are timestamps of transactions, and an edge has the key of at least
    one lock. *)
Record table_ok (m : WaitForMap) : Prop := {
  ok_edge a b l : get2 m a b = Some l -> a <> 0 /\ b <> 0 /\ lk_ts l = b /\ lk_keys l <> []
}.

Lemma get2_insert m a wf x b :
  get2 (<[a := wf]> m) x b = if decide (x = a) then wf !! b else get2 m x b.
Proof.
  unfold get2. case_decide as E; [subst; by rewrite lookup_insert_eq|by rewrite lookup_insert_ne].
Qed.

Lemma get2_delete m a x b : get2 (delete a m) x b = if decide (x = a) then None else get2 m x b.
Proof.
  unfold get2. case_decide as E; [subst; by rewrite lookup_delete_eq|by rewrite lookup_delete_ne].
Qed.

Lemma retain_live_lookup now ttl wf b l :
  retain_live now ttl wf !! b = Some l <-> wf !! b = Some l /\ is_expired now ttl l = false.
Proof. unfold retain_live. by rewrite map_lookup_filter_Some. Qed.

(** A vertex of the table, its expired edges removed. *)
Definition purge (now ttl : Z) (m : WaitForMap) (curr : Z) : WaitForMap :=
  match m !! curr with
  | None => m
  | Some wf =>
      let wf := retain_live now ttl wf in
      if bool_decide (wf = ∅) then delete curr m else <[curr := wf]> m
  end.

Lemma purge_get2 now ttl m curr x b l :
  get2 (purge now ttl m curr) x b = Some l <->
  get2 m x b = Some l /\ (x = curr -> is_expired now ttl l = false).
Proof.
  unfold purge. destruct (m !! curr) as [wf|] eqn:E.
  - assert (Hwf : forall y, get2 m curr y = wf !! y) by (intros y; unfold get2; by rewrite E).
    assert (forall y, retain_live now ttl wf !! y = Some l <-> get2 m curr y = Some l /\ is_expired now ttl l = false)
      as Hr by (intros y; rewrite retain_live_lookup, Hwf; done).
    case_bool_decide as He.
    + rewrite get2_delete. case_decide as Hx; [|tauto]. subst x. rewrite He in Hr. specialize (Hr b).
      rewrite lookup_empty in Hr. split; [done|]. intros [H1 H2]. apply Hr. auto.
    + rewrite get2_insert. case_decide as Hx; [|tauto]. subst x. rewrite Hr. tauto.
  - split; [|tauto]. intros H. split; [done|]. intros ->. unfold get2 in H. by rewrite E in H.
Qed.

(** ** The scan of one vertex *)

Lemma scan_edges_spec txn curr edges : forall stack pushed,
  match scan_edges txn curr edges stack pushed with
  | inl (locks, pushed') => (txn, locks) ∈ edges /\ exists news, NoDup news
      /\ (forall x, x ∈ news -> pushed !! x = None /\ x ∈ edges.*1)
      /\ forall v, pushed' !! v = if decide (v ∈ news) then Some curr else pushed !! v
  | inr (stack', pushed') => exists news, stack' = news ++ stack /\ NoDup news
      /\ (forall x, x ∈ news -> pushed !! x = None /\ x ∈ edges.*1)
      /\ (forall v, pushed' !! v = if decide (v ∈ news) then Some curr else pushed !! v)
      /\ (forall b, b ∈ edges.*1 -> b <> txn /\ is_Some (pushed' !! b))
  end.
Proof.
  induction edges as [|[b l] edges IH]; intros stack pushed; cbn [scan_edges].
  { exists []. split_and!; [done|constructor|set_solver|done|set_solver]. }
  destruct (Z.eqb_spec b txn) as [->|Hne].
  { split; [apply list_elem_of_here|]. exists []. split_and!; [constructor|set_solver|done]. }
  destruct (pushed !! b) as [p|] eqn:Eb.
  - specialize (IH stack pushed). destruct (scan_edges _ _ _ _ _) as [[l' p']|[st' p']].
    + destruct IH as (Hin & news & Hnd & Hnew & Hp). split; [by apply list_elem_of_further|].
      exists news. split_and!; [done| |done]. intros x Hx. destruct (Hnew x Hx). split; [done|].
      cbn. by apply list_elem_of_further.
    + destruct IH as (news & -> & Hnd & Hnew & Hp & Hall). exists news. split_and!; [done|done| |done|].
      * intros x Hx. destruct (Hnew x Hx). split; [done|]. cbn. by apply list_elem_of_further.
      * cbn. intros x [->|Hx]%elem_of_cons; [|by apply Hall]. split; [done|]. rewrite Hp.
        case_decide; [by eexists|]. rewrite Eb. by eexists.
  - specialize (IH (b :: stack) (<[b := curr]> pushed)).
    assert (Hb : forall news : list Z, (forall x, x ∈ news -> <[b := curr]> pushed !! x = None /\ x ∈ edges.*1) -> ~ b ∈ news).
    { intros news Hnew Hx. apply Hnew in Hx as [Hx _]. by rewrite lookup_insert_eq in Hx. }
    assert (Hnew' : forall news : list Z, (forall x, x ∈ news -> <[b := curr]> pushed !! x = None /\ x ∈ edges.*1) ->
      forall x, x ∈ news ++ [b] -> pushed !! x = None /\ x ∈ b :: edges.*1).
    { intros news Hnew x [Hx| ->%list_elem_of_singleton]%elem_of_app.
      - assert (x <> b) by (intros ->; by apply (Hb news Hnew)). destruct (Hnew x Hx) as [Hl Hi].
        rewrite lookup_insert_ne in Hl by done. split; [done|by apply list_elem_of_further].
      - split; [done|apply list_elem_of_here]. }
    assert (Hp' : forall (news : list Z) (p' : gmap Z Z), (forall v, p' !! v = if decide (v ∈ news) then Some curr else <[b := curr]> pushed !! v) ->
      forall v, p' !! v = if decide (v ∈ news ++ [b]) then Some curr else pushed !! v).
    { intros news p' Hp v. rewrite Hp. destruct (decide (v ∈ news)); [by rewrite decide_True by set_solver|].
      destruct (decide (v = b)) as [->|].
      - by rewrite lookup_insert_eq, decide_True by set_solver.
      - by rewrite lookup_insert_ne, decide_False by set_solver. }
    assert (Hnd' : forall news : list Z, NoDup news -> ~ b ∈ news -> NoDup (news ++ [b])).
    { intros news Hnd Hn. apply NoDup_app. split_and!; [done|set_solver|apply NoDup_singleton]. }
    destruct (scan_edges _ _ _ _ _) as [[l' p']|[st' p']].
    + destruct IH as (Hin & news & Hnd & Hnew & Hp). split; [by apply list_elem_of_further|].
      exists (news ++ [b]). split_and!; [apply Hnd'; eauto|by apply Hnew'|by apply Hp'].
    + destruct IH as (news & -> & Hnd & Hnew & Hp & Hall). exists (news ++ [b]).
      split_and!; [by rewrite <-(assoc_L app)|apply Hnd'; eauto|by apply Hnew'|by apply Hp'|].
      cbn. intros x [->|Hx]%elem_of_cons; [|by apply Hall]. split; [done|]. rewrite (Hp' news p' Hp).
      rewrite decide_True by set_solver. by eexists.
Qed.

(** ** The search *)

(** What a search leaves of the graph: it removes expired edges only. *)
Definition purged (now ttl : Z) (m0 m : WaitForMap) : Prop :=
  (forall a b l, get2 m a b = Some l -> get2 m0 a b = Some l)
  /\ (forall a b l, get2 m0 a b = Some l -> is_expired now ttl l = false -> get2 m a b = Some l).

(** [ord] lists the pushed vertices, the latest first.  The predecessor of a
    vertex was pushed before it, and the edge from it is in the graph. *)
Record pred_inv (now ttl wf : Z) (m : WaitForMap) (pushed : gmap Z Z) (ord : list Z) : Prop := {
  pi_nodup : NoDup ord;
  pi_dom v : v ∈ ord <-> is_Some (pushed !! v);
  pi_pred v p : pushed !! v = Some p ->
    (v = wf /\ p = 0) \/
    (p <> 0 /\ (exists l, get2 m p v = Some l /\ is_expired now ttl l = false)
     /\ exists o1 o2, ord = o1 ++ v :: o2 /\ p ∈ o2)
}.

Record search_inv (now ttl txn wf : Z) (m0 m : WaitForMap) (stack : list Z) (pushed : gmap Z Z)
    (ord : list Z) : Prop := {
  si_purged : purged now ttl m0 m;
  si_pred : pred_inv now ttl wf m pushed ord;
  si_root : wf ∈ ord;
  si_stack : NoDup stack;
  si_stack_ord v : v ∈ stack -> v ∈ ord;
  si_visited v b l : v ∈ ord -> ~ v ∈ stack -> get2 m v b = Some l ->
    is_expired now ttl l = false /\ b ∈ ord /\ b <> txn;
  si_targets v : v ∈ ord -> v = wf \/ v ∈ targets m0
}.

Lemma detect_loop_step fuel now ttl txn m curr stack pushed :
  detect_loop (S fuel) now ttl txn m (curr :: stack) pushed =
  let m' := purge now ttl m curr in
  match scan_edges txn curr (map_to_list (default ∅ (m' !! curr))) stack pushed with
  | inl (locks, pushed) => (Found curr locks pushed, m')
  | inr (stack, pushed) => detect_loop fuel now ttl txn m' stack pushed
  end.
Proof.
  cbn [detect_loop]. cbv zeta. unfold purge. destruct (m !! curr) as [wf|] eqn:E.
  - cbv zeta. case_bool_decide.
    + rewrite lookup_delete_eq. cbn [from_option]. by rewrite map_to_list_empty.
    + rewrite lookup_insert_eq. done.
  - rewrite E. cbn [from_option]. by rewrite map_to_list_empty.
Qed.

Lemma edges_of_get2 (m : WaitForMap) curr b l :
  (b, l) ∈ map_to_list (default ∅ (m !! curr)) <-> get2 m curr b = Some l.
Proof.
  rewrite elem_of_map_to_list. unfold get2. destruct (m !! curr) as [wf|]; cbn; [done|].
  by rewrite lookup_empty.
Qed.

Lemma edges_of_targets (m : WaitForMap) curr b :
  b ∈ (map_to_list (default ∅ (m !! curr))).*1 <-> exists l, get2 m curr b = Some l.
Proof.
  rewrite list_elem_of_fmap. split.
  - intros ([b' l] & -> & Hin). exists l. by apply edges_of_get2.
  - intros [l Hl]. exists (b, l). split; [done|]. by apply edges_of_get2.
Qed.

Lemma get2_targets (m : WaitForMap) a b l : get2 m a b = Some l -> b ∈ targets m.
Proof.
  unfold get2, targets. destruct (m !! a) as [wf|] eqn:E; [|done]. cbn. intros Hb.
  apply elem_of_union_list. exists (dom wf). split; [|by apply elem_of_dom; eexists].
  apply list_elem_of_fmap. exists (a, wf). split; [done|]. by apply elem_of_map_to_list.
Qed.

Lemma purge_purged now ttl m0 m curr : purged now ttl m0 m -> purged now ttl m0 (purge now ttl m curr).
Proof.
  intros [Hs Hl]. split.
  - intros a b l [H _]%purge_get2. by apply Hs.
  - intros a b l H0 Hx. apply purge_get2. split; [by apply Hl|done].
Qed.

Lemma pred_inv_extend now ttl wf m pushed ord curr news pushed' :
  pred_inv now ttl wf m pushed ord -> curr ∈ ord -> NoDup news ->
  (forall x, x ∈ news -> pushed !! x = None) ->
  (forall x, x ∈ news -> curr <> 0 /\ exists l, get2 m curr x = Some l /\ is_expired now ttl l = false) ->
  (forall v, pushed' !! v = if decide (v ∈ news) then Some curr else pushed !! v) ->
  pred_inv now ttl wf m pushed' (news ++ ord).
Proof.
  intros [Hnd Hdom Hpred] Hcurr Hnn Hnone Hedge Hp. split.
  - apply NoDup_app. split_and!; [done| |done]. intros x Hx [p Hpx]%Hdom. by rewrite (Hnone x Hx) in Hpx.
  - intros v. rewrite elem_of_app, Hp, Hdom. case_decide; [naive_solver|tauto].
  - intros v p. rewrite Hp. case_decide as Hv.
    + intros [= <-]. right. destruct (Hedge v Hv) as [H0 He]. split_and!; [done|done|].
      apply list_elem_of_split in Hv as (n1 & n2 & ->). exists n1, (n2 ++ ord).
      split; [by rewrite <-(assoc_L app)|set_solver].
    + intros [?|(H0 & He & o1 & o2 & -> & Hin)]%Hpred; [by left|]. right. split_and!; [done|done|].
      exists (news ++ o1), o2. split; [by rewrite <-(assoc_L app)|done].
Qed.

Lemma pred_inv_purge now ttl wf m pushed ord curr :
  pred_inv now ttl wf m pushed ord -> pred_inv now ttl wf (purge now ttl m curr) pushed ord.
Proof.
  intros [Hnd Hdom Hpred]. split; [done|done|]. intros v p Hv. destruct (Hpred v p Hv) as [?|(H0 & (l & Hl & Hx) & Ho)]; [by left|].
  right. split_and!; [done| |done]. exists l. split; [by apply purge_get2|done].
Qed.

Lemma search_inv_size now ttl txn wf m0 m stack pushed ord :
  search_inv now ttl txn wf m0 m stack pushed ord -> (length ord <= S (size (targets m0)))%nat.
Proof.
  intros Hi. transitivity (length (wf :: elements (targets m0))); [|done].
  apply submseteq_length, NoDup_submseteq; [apply (pi_nodup _ _ _ _ _ _ (si_pred _ _ _ _ _ _ _ _ _ Hi))|].
  intros v [->|Hv]%(si_targets _ _ _ _ _ _ _ _ _ Hi); [apply list_elem_of_here|].
  apply list_elem_of_further. by apply elem_of_elements.
Qed.

(** The vertices of [closed] lead to vertices of [closed] over edges that have
    not expired, and never to [txn]. *)
Definition closed_set (now ttl txn : Z) (m : WaitForMap) (closed : list Z) : Prop :=
  forall v b l, v ∈ closed -> get2 m v b = Some l -> is_expired now ttl l = false /\ b ∈ closed /\ b <> txn.

Lemma detect_loop_spec now ttl txn wf m0 fuel : forall m stack pushed ord,
  table_ok m0 ->
  search_inv now ttl txn wf m0 m stack pushed ord ->
  (size (targets m0) + 2 + length stack <= fuel + length ord)%nat ->
  match detect_loop fuel now ttl txn m stack pushed with
  | (Found curr locks pushed', m') => purged now ttl m0 m' /\ get2 m' curr txn = Some locks
      /\ is_expired now ttl locks = false
      /\ exists ord', pred_inv now ttl wf m' pushed' ord' /\ curr ∈ ord'
  | (NotFound, m') => purged now ttl m0 m' /\ exists closed, wf ∈ closed /\ closed_set now ttl txn m' closed
  | (OutOfFuel, _) => False
  end.
Proof.
  induction fuel as [|fuel IH]; intros m stack pushed ord Hok Hi Hf.
  { apply search_inv_size in Hi. cbn. lia. }
  destruct stack as [|curr stack].
  { cbn. split; [apply (si_purged _ _ _ _ _ _ _ _ _ Hi)|]. exists ord.
    split; [apply (si_root _ _ _ _ _ _ _ _ _ Hi)|]. intros v b l Hv.
    apply (si_visited _ _ _ _ _ _ _ _ _ Hi); [done|set_solver]. }
  rewrite detect_loop_step. cbv zeta. destruct Hi as [Hpu Hpi Hroot Hst Hso Hvis Htar].
  pose proof (purge_purged now ttl m0 m curr Hpu) as Hpu'.
  pose proof (pred_inv_purge now ttl wf m pushed ord curr Hpi) as Hpi'.
  assert (Hcurr : curr ∈ ord) by (apply Hso, list_elem_of_here).
  assert (Hedge : forall x, x ∈ (map_to_list (default ∅ (purge now ttl m curr !! curr))).*1 ->
    curr <> 0 /\ x ∈ targets m0 /\ exists l, get2 (purge now ttl m curr) curr x = Some l /\ is_expired now ttl l = false).
  { intros x [l Hl]%edges_of_targets. pose proof (proj1 Hpu' _ _ _ Hl) as H0.
    split_and!; [by apply (ok_edge m0 Hok curr x l)|by eapply get2_targets|].
    exists l. split; [done|]. apply purge_get2 in Hl as [_ Hl]. by apply Hl. }
  pose proof (scan_edges_spec txn curr (map_to_list (default ∅ (purge now ttl m curr !! curr))) stack pushed) as Hscan.
  destruct (scan_edges _ _ _ _ _) as [[locks pushed']|[stack' pushed']].
  - destruct Hscan as (Hin & news & Hnn & Hnew & Hp). apply edges_of_get2 in Hin.
    split_and!; [done|done|by apply purge_get2 in Hin as [_ Hin]; apply Hin|].
    exists (news ++ ord). split; [|set_solver]. eapply pred_inv_extend; [done..|by intros x Hx; apply Hnew| |done].
    intros x Hx. apply Hnew in Hx as [_ Hx]. apply Hedge in Hx as (? & _ & ?). done.
  - destruct Hscan as (news & -> & Hnn & Hnew & Hp & Hall).
    assert (Hpi'' : pred_inv now ttl wf (purge now ttl m curr) pushed' (news ++ ord)).
    { eapply pred_inv_extend; [done..|by intros x Hx; apply Hnew| |done].
      intros x Hx. apply Hnew in Hx as [_ Hx]. apply Hedge in Hx as (? & _ & ?). done. }
    apply (IH _ _ _ (news ++ ord) Hok); [|rewrite !length_app; cbn in Hf; lia].
    assert (Hno : forall x, x ∈ news -> ~ x ∈ ord).
    { intros x Hx [p Hpx]%(pi_dom _ _ _ _ _ _ Hpi). apply Hnew in Hx as [Hx _]. by rewrite Hx in Hpx. }
    apply NoDup_cons in Hst as [Hcs Hst].
    split; [done|done|set_solver| | | |].
    + apply NoDup_app. split_and!; [done| |done]. intros x Hx Hs. apply (Hno x Hx), Hso. by apply list_elem_of_further.
    + intros v [Hv|Hv]%elem_of_app; [set_solver|]. apply elem_of_app. right. apply Hso. by apply list_elem_of_further.
    + intros v b l Hv Hn Hl. rewrite elem_of_app in Hn.
      destruct (decide (v = curr)) as [->|Hne].
      * pose proof Hl as Hl'. apply purge_get2 in Hl' as [_ Hx]. split; [by apply Hx|].
        destruct (Hall b) as [Hb Hsome]; [apply edges_of_targets; by eexists|].
        split; [by apply (pi_dom _ _ _ _ _ _ Hpi'')|done].
      * apply purge_get2 in Hl as [Hl _]. destruct (Hvis v b l) as (? & ? & ?); [set_solver|set_solver|done|].
        split_and!; [done|set_solver|done].
    + intros v [Hv|Hv]%elem_of_app; [|by apply Htar]. right. apply Hnew in Hv as [_ Hv]. by apply Hedge in Hv as (_ & ? & _).
Qed.

(** ** The wait chain *)

(** The entries of [chain] are edges of the graph that have not expired, one
    after the other from [a] to [b]. *)
Fixpoint is_chain (now ttl : Z) (m : WaitForMap) (a : Z) (chain : list WaitForEntry) (b : Z) : Prop :=
  match chain with
  | [] => a = b
  | e :: chain =>
      we_txn e = a
      /\ (exists l, get2 m a (we_wait_for_txn e) = Some l /\ is_expired now ttl l = false
                    /\ to_wait_for_entry l a = Ok e)
      /\ is_chain now ttl m (we_wait_for_txn e) chain b
  end.

Lemma is_chain_app now ttl m a c1 b c2 c :
  is_chain now ttl m a c1 b -> is_chain now ttl m b c2 c -> is_chain now ttl m a (c1 ++ c2) c.
Proof.
  revert a. induction c1 as [|e c1 IH]; cbn; intros a; [by intros ->|].
  intros (Ha & He & H1) H2. split_and!; [done|done|by apply IH].
Qed.

Lemma is_chain_purged now ttl m0 m a c b :
  purged now ttl m0 m -> is_chain now ttl m a c b -> is_chain now ttl m0 a c b.
Proof.
  intros [Hs _]. revert a. induction c as [|e c IH]; cbn; intros a; [done|].
  intros (Ha & (l & Hl & Hx & He) & H1). split_and!; [done|exists l; split_and!; [by apply Hs|done|done]|by apply IH].
Qed.

Lemma is_chain_tc now ttl m a c b : is_chain now ttl m a c b -> c <> [] -> tc (live_edge now ttl m) a b.
Proof.
  revert a. induction c as [|e c IH]; cbn; intros a H Hc; [done|].
  destruct H as (Ha & (l & Hl & Hx & _) & H1).
  assert (He : live_edge now ttl m a (we_wait_for_txn e)) by (exists l; done).
  destruct c as [|e' c]; [cbn in H1; subst; by apply tc_once|].
  eapply tc_l; [exact He|]. by apply IH.
Qed.

Lemma to_wait_for_entry_ok m a b l : table_ok m -> get2 m a b = Some l ->
  exists e hash key, to_wait_for_entry l a = Ok e /\ we_txn e = a /\ we_wait_for_txn e = b
    /\ head (lk_keys l) = Some (hash, key) /\ we_key_hash e = hash.
Proof.
  intros Hok Hl. destruct (ok_edge m Hok a b l Hl) as (_ & _ & Hts & Hk).
  unfold to_wait_for_entry. destruct (lk_keys l) as [|[hash key] ks]; [done|]. cbn.
  do 3 eexists. split_and!; [reflexivity|done|done|done|done].
Qed.

Lemma table_ok_purged now ttl m0 m : table_ok m0 -> purged now ttl m0 m -> table_ok m.
Proof. intros Hok [Hs _]. constructor. intros a b l Hl. by apply (ok_edge m0 Hok), Hs. Qed.

(** Walking back from a pushed vertex ends at the start of the search. *)
Lemma wait_chain_loop_spec now ttl wf m pushed ord goal : table_ok m ->
  pred_inv now ttl wf m pushed ord ->
  forall fuel o1 v o2 acc, ord = o1 ++ v :: o2 -> (length o2 < fuel)%nat ->
  is_chain now ttl m v acc goal ->
  exists chain, wait_chain_loop fuel m wf v pushed acc = Ok chain /\ is_chain now ttl m wf chain goal.
Proof.
  intros Hok [Hnd Hdom Hpred]. induction fuel as [|fuel IH]; intros o1 v o2 acc Ho Hf Hc; [lia|].
  cbn [wait_chain_loop]. destruct (proj1 (Hdom v)) as [p Hp]; [subst; set_solver|]. rewrite Hp. cbn.
  destruct (Hpred v p Hp) as [[-> ->]|(H0 & (l & Hl & Hx) & q1 & q2 & Hq & Hin)].
  { cbn. rewrite Z.eqb_refl. cbn. by exists acc. }
  destruct (Z.eqb_spec p 0) as [|_]; [done|]. change (m !! p ≫= fun w => w !! v) with (get2 m p v). rewrite Hl. cbn.
  destruct (to_wait_for_entry_ok m p v l Hok Hl) as (e & h & k & He & He1 & He2 & _). rewrite He. cbn.
  assert (o2 = q2) as ->.
  { rewrite Ho in Hq, Hnd. clear -Hq Hnd. revert o1 Hq Hnd. induction q1 as [|x q1 IHq]; intros [|y o1] Hq Hnd; cbn in Hq.
    - by injection Hq.
    - injection Hq as -> <-. apply NoDup_cons in Hnd as [Hn _]. set_solver.
    - injection Hq as <- ->. apply NoDup_cons in Hnd as [Hn _]. set_solver.
    - injection Hq as -> Hq. apply (IHq o1); [done|]. by apply NoDup_cons in Hnd as [_ ?]. }
  apply list_elem_of_split in Hin as (r1 & r2 & ->).
  apply (IH (o1 ++ v :: r1) p r2).
  - by rewrite Ho, <-(assoc_L app).
  - rewrite length_app in Hf. cbn in Hf. lia.
  - cbn. rewrite He2. split_and!; [done|by exists l|done].
Qed.

Lemma pred_inv_size now ttl wf m pushed ord : pred_inv now ttl wf m pushed ord -> length ord = size pushed.
Proof.
  intros [Hnd Hdom _]. rewrite <-size_dom, <-(size_list_to_set (C := gset Z) ord Hnd). f_equal.
  apply set_eq. intros v. by rewrite elem_of_list_to_set, elem_of_dom.
Qed.

Lemma closed_set_tc now ttl txn m closed a b : closed_set now ttl txn m closed -> a ∈ closed ->
  tc (edge m) a b -> b ∈ closed /\ b <> txn.
Proof.
  intros Hc Ha Ht. induction Ht as [a b [l Hl]|a b c [l Hl] _ IH].
  - by destruct (Hc a b l Ha Hl) as (_ & ? & ?).
  - apply IH. by destruct (Hc a b l Ha Hl) as (_ & ? & _).
Qed.

(** [do_detect] finds a chain exactly when there is a path of live edges. *)
Lemma do_detect_spec t txn wf : table_ok (dt_wait_for_map t) ->
  let m0 := dt_wait_for_map t in
  exists r m, do_detect t txn wf = (Ok r, dt_set_map t m) /\ purged (dt_now t) (dt_ttl t) m0 m
    /\ match r with
       | Some (hash, chain) => exists c e, chain = c ++ [e] /\ we_key_hash e = hash
           /\ is_chain (dt_now t) (dt_ttl t) m0 wf chain txn
       | None => ~ tc (edge m) wf txn
       end.
Proof.
  intros Hok m0. unfold do_detect. fold m0.
  pose proof (detect_loop_spec (dt_now t) (dt_ttl t) txn wf m0 (detect_fuel m0) m0 [wf] {[wf := 0]} [wf] Hok) as Hs.
  destruct (detect_loop _ _ _ _ _ _ _) as [r m].
  assert (Hi : search_inv (dt_now t) (dt_ttl t) txn wf m0 m0 [wf] {[wf := 0]} [wf]).
  { split; [by split| |set_solver|apply NoDup_singleton|done|set_solver|set_solver].
    split; [apply NoDup_singleton| |].
    - intros v. rewrite list_elem_of_singleton. rewrite lookup_singleton_is_Some. naive_solver.
    - intros v p [-> <-]%lookup_singleton_Some. by left. }
  specialize (Hs Hi ltac:(unfold detect_fuel; cbn; lia)).
  destruct r as [curr locks pushed| |]; [| |done].
  - destruct Hs as (Hpu & Hl & Hx & ord & Hpi & Hcurr).
    pose proof (table_ok_purged _ _ _ _ Hok Hpu) as Hok'.
    destruct (to_wait_for_entry_ok m curr txn locks Hok' Hl) as (e & h & k & He & He1 & He2 & Hh & Hk).
    rewrite Hh. cbn [unwrap res_bind]. rewrite He. cbn [res_bind].
    apply list_elem_of_split in Hcurr as (o1 & o2 & Ho).
    pose proof (pred_inv_size _ _ _ _ _ _ Hpi) as Hsz.
    destruct (wait_chain_loop_spec _ _ _ _ _ _ curr Hok' Hpi (S (size pushed)) o1 curr o2 []) as (chain & Hc & Hch);
      [done|rewrite <-Hsz, Ho, length_app; cbn; lia|done|].
    unfold generate_wait_chain. rewrite Hc. cbn. eexists _, m. split; [reflexivity|]. split; [done|].
    exists chain, e. split_and!; [done|done|]. apply (is_chain_purged _ _ _ m); [done|].
    eapply is_chain_app; [done|]. cbn. split_and!; [done|exists locks; by rewrite He2|done].
  - destruct Hs as (Hpu & closed & Hwf & Hc). eexists _, m. split; [reflexivity|]. split; [done|].
    intros Ht. by apply (closed_set_tc _ _ _ _ _ _ _ Hc Hwf) in Ht as [_ ?].
Qed.

(** ** The operations on the graph *)

Lemma active_expire_now t : dt_now (active_expire t) = dt_now t /\ dt_ttl (active_expire t) = dt_ttl t.
Proof. unfold active_expire. by case_match. Qed.

Lemma active_expire_purged t :
  purged (dt_now t) (dt_ttl t) (dt_wait_for_map t) (dt_wait_for_map (active_expire t)).
Proof.
  unfold active_expire. case_match; [|by split]. cbn [dt_wait_for_map].
  assert (Hg : forall a b l, get2 (filter (fun x => snd x <> ∅) (retain_live (dt_now t) (dt_ttl t) <$> dt_wait_for_map t)) a b = Some l
    <-> get2 (dt_wait_for_map t) a b = Some l /\ is_expired (dt_now t) (dt_ttl t) l = false).
  { intros a b l. unfold get2. rewrite !bind_Some. setoid_rewrite map_lookup_filter_Some. setoid_rewrite lookup_fmap_Some. split.
    - intros (wf & [(wf0 & <- & H0) Hne] & Hl). apply retain_live_lookup in Hl as [Hl Hx]. split; [by exists wf0|done].
    - intros [(wf0 & H0 & Hl) Hx]. exists (retain_live (dt_now t) (dt_ttl t) wf0).
      assert (Hr : retain_live (dt_now t) (dt_ttl t) wf0 !! b = Some l) by by apply retain_live_lookup.
      split_and!; [by exists wf0| |done]. intros He. cbn in He. by rewrite He, lookup_empty in Hr. }
  split; intros a b l; rewrite Hg; tauto.
Qed.

Lemma purged_trans now ttl m0 m1 m2 : purged now ttl m0 m1 -> purged now ttl m1 m2 -> purged now ttl m0 m2.
Proof. intros [H1 H1'] [H2 H2']. split; auto. Qed.

Lemma purged_live_edge now ttl m0 m a b : purged now ttl m0 m -> live_edge now ttl m0 a b -> live_edge now ttl m a b.
Proof. intros [_ H] (l & Hl & Hx). exists l. auto. Qed.

Lemma purged_edge now ttl m0 m a b : purged now ttl m0 m -> edge m a b -> edge m0 a b.
Proof. intros [H _] [l Hl]. exists l. auto. Qed.

Lemma live_edge_edge now ttl m a b : live_edge now ttl m a b -> edge m a b.
Proof. intros (l & Hl & _). by exists l. Qed.

Lemma tc_mono {A} (R S : relation A) : (forall a b, R a b -> S a b) -> forall a b, tc R a b -> tc S a b.
Proof. intros H a b Ht. induction Ht; [by apply tc_once, H|eapply tc_l; [by apply H|done]]. Qed.

(** An edge [x -> y] closes no cycle when [x] is not reachable from [y]. *)
Lemma acyclic_add (E E' : relation Z) x y : (forall v, ~ tc E v v) -> ~ rtc E y x ->
  (forall a b, E' a b -> E a b \/ (a = x /\ b = y)) -> forall v, ~ tc E' v v.
Proof.
  intros Hac Hn HE.
  assert (Ht : forall a b, tc E' a b -> tc E a b \/ (rtc E a x /\ rtc E y b)).
  { intros a b Ht. induction Ht as [a b H|a b c H _ IH].
    - apply HE in H as [H|[-> ->]]; [left; by apply tc_once|by right].
    - apply HE in H as [H|[-> ->]]; destruct IH as [IH|[IH1 IH2]].
      + left. by eapply tc_l.
      + right. split; [by eapply rtc_l|done].
      + right. split; [done|by apply tc_rtc].
      + by destruct (Hn IH1). }
  intros v [Hv|[H1 H2]]%Ht; [by apply (Hac v)|]. apply Hn. by transitivity v.
Qed.

(** What [detect] does to the table: the live edges stay, and the edge of the
    request is recorded, now, when no deadlock is reported. *)
Definition recorded (m0 m : WaitForMap) (now ttl txn lock hash : Z) : Prop :=
  (exists l, get2 m txn lock = Some l /\ lk_last_detect_time l = now /\ hash ∈ (lk_keys l).*1)
  /\ (forall a b l, (a, b) <> (txn, lock) -> get2 m a b = Some l -> get2 m0 a b = Some l)
  /\ (forall a b l, (a, b) <> (txn, lock) -> get2 m0 a b = Some l -> is_expired now ttl l = false -> get2 m a b = Some l).

Lemma push_keys l hash key now : hash ∈ (lk_keys (Locks_push l hash key now)).*1.
Proof.
  unfold Locks_push. cbn. destruct (existsb _ _) eqn:E.
  - apply existsb_exists in E as ([h k] & Hin & Heq). apply Z.eqb_eq in Heq as <-.
    apply list_elem_of_fmap. exists (h, k). split; [done|]. by apply list_elem_of_In.
  - rewrite fmap_app. set_solver.
Qed.

Lemma get2_insert2 m a wf b l x y : m !! a = Some wf \/ (m !! a = None /\ wf = ∅) ->
  get2 (<[a := <[b := l]> wf]> m) x y = if decide ((x, y) = (a, b)) then Some l else get2 m x y.
Proof.
  intros Hwf. rewrite get2_insert. case_decide as Hx; [subst x|by rewrite decide_False by congruence].
  case_decide as Hy; [injection Hy as ->; by rewrite lookup_insert_eq|].
  rewrite lookup_insert_ne by congruence. unfold get2. destruct Hwf as [->|[-> ->]]; [done|]. apply lookup_empty.
Qed.

(** A table whose edges are well formed and have no cycle. *)
Definition dag (m : WaitForMap) : Prop := table_ok m /\ acyclic m.

Lemma dag_mono m0 m : dag m0 -> (forall a b l, get2 m a b = Some l -> a <> 0 /\ b <> 0 /\ lk_ts l = b /\ lk_keys l <> [] /\ edge m0 a b) ->
  dag m.
Proof.
  intros [_ Hac] H. split.
  - constructor. intros a b l Hl. destruct (H a b l Hl) as (? & ? & ? & ? & _). done.
  - intros v Hv. apply (Hac v). eapply tc_mono; [|exact Hv]. intros a b [l Hl]. by apply (H a b l Hl).
Qed.

Lemma dag_purged now ttl m0 m : dag m0 -> purged now ttl m0 m -> dag m.
Proof.
  intros Hd [Hs _]. apply (dag_mono m0 m Hd). intros a b l Hl%Hs.
  destruct (ok_edge m0 (proj1 Hd) a b l Hl) as (? & ? & ? & ?). split_and!; [done..|]. by exists l.
Qed.

Lemma no_path_back now ttl m0 txn lock : acyclic m0 -> edge m0 txn lock -> ~ tc (live_edge now ttl m0) lock txn.
Proof.
  intros Hac He Ht. apply (Hac txn). eapply tc_l; [exact He|]. eapply tc_mono; [|exact Ht].
  intros a b. apply live_edge_edge.
Qed.

Lemma register_if_existed_spec t txn lock hash key tag :
  let '(existed, t') := register_if_existed t txn lock hash key tag in
  let m := dt_wait_for_map t in
  if existed then edge m txn lock /\ dt_ttl t' = dt_ttl t
    /\ exists l0, get2 m txn lock = Some l0
       /\ forall x y, get2 (dt_wait_for_map t') x y =
            if decide ((x, y) = (txn, lock)) then Some (set_tag (Locks_push l0 hash key (dt_now t)) tag) else get2 m x y
  else t' = t /\ get2 m txn lock = None.
Proof.
  unfold register_if_existed, edge, get2. destruct (dt_wait_for_map t !! txn) as [wf|] eqn:E; cbn; [|done].
  destruct (wf !! lock) as [l|] eqn:El; [|done]. split_and!; [by eexists|done|].
  exists l. split; [done|]. intros x y. apply get2_insert2. by left.
Qed.

Lemma register_spec t txn lock hash key tag : get2 (dt_wait_for_map t) txn lock = None ->
  exists t', register t txn lock hash key tag = Ok t' /\ dt_ttl t' = dt_ttl t
    /\ forall x y, get2 (dt_wait_for_map t') x y =
         if decide ((x, y) = (txn, lock)) then Some (Locks_new lock hash key tag (dt_now t))
         else get2 (dt_wait_for_map t) x y.
Proof.
  intros Hn. unfold register.
  assert (Hw : default ∅ (dt_wait_for_map t !! txn) !! lock = None).
  { unfold get2 in Hn. destruct (dt_wait_for_map t !! txn); cbn in *; [done|apply lookup_empty]. }
  rewrite bool_decide_eq_false_2 by (rewrite Hw; by intros [? ?]). cbn.
  eexists. split_and!; [reflexivity|done|]. intros x y. cbn. apply get2_insert2.
  destruct (dt_wait_for_map t !! txn); [by left|by right].
Qed.

Lemma recorded_existed m0 m m' now ttl txn lock hash key tag l0 : dag m0 -> purged now ttl m0 m ->
  get2 m txn lock = Some l0 ->
  (forall x y, get2 m' x y = if decide ((x, y) = (txn, lock)) then Some (set_tag (Locks_push l0 hash key now) tag) else get2 m x y) ->
  dag m' /\ recorded m0 m' now ttl txn lock hash.
Proof.
  intros Hd Hpu Hl0 Hm. pose proof (dag_purged _ _ _ _ Hd Hpu) as Hdm. split.
  - apply (dag_mono m m' Hdm). intros a b l. rewrite Hm. case_decide as E.
    + injection E as -> ->. intros [= <-]. cbn. destruct (ok_edge m (proj1 Hdm) _ _ _ Hl0) as (? & ? & ? & ?).
      split_and!; [done..| |by exists l0]. destruct (existsb _ _); [done|]. intros [_ ?]%app_eq_nil. done.
    + intros Hl. destruct (ok_edge m (proj1 Hdm) _ _ _ Hl) as (? & ? & ? & ?). split_and!; [done..|by exists l].
  - split_and!.
    + exists (set_tag (Locks_push l0 hash key now) tag). rewrite Hm, decide_True by done.
      split_and!; [done|done|]. apply (push_keys l0 hash key now).
    + intros a b l Hne. rewrite Hm, decide_False by done. apply (proj1 Hpu).
    + intros a b l Hne Hl Hx. rewrite Hm, decide_False by done. by apply (proj2 Hpu).
Qed.

Lemma recorded_new m0 m m' now ttl txn lock hash key tag : dag m0 -> purged now ttl m0 m ->
  txn <> 0 -> lock <> 0 -> txn <> lock -> ~ tc (edge m) lock txn ->
  (forall x y, get2 m' x y = if decide ((x, y) = (txn, lock)) then Some (Locks_new lock hash key tag now) else get2 m x y) ->
  dag m' /\ recorded m0 m' now ttl txn lock hash.
Proof.
  intros Hd Hpu H1 H2 H3 Hn Hm. pose proof (dag_purged _ _ _ _ Hd Hpu) as Hdm. split; [split|].
  - constructor. intros a b l. rewrite Hm. case_decide as E.
    + injection E as -> ->. intros [= <-]. done.
    + apply (ok_edge m (proj1 Hdm)).
  - refine (acyclic_add (edge m) (edge m') txn lock (proj2 Hdm) _ _).
    + intros Hr. apply rtc_tc in Hr as [Hr|Hr]; [congruence|done].
    + intros a b [l Hl]. rewrite Hm in Hl. case_decide as E; [injection E as -> ->; by right|]. left. by exists l.
  - split_and!.
    + eexists. rewrite Hm, decide_True by done. split_and!; [reflexivity|done|]. cbn. apply list_elem_of_here.
    + intros a b l Hne. rewrite Hm, decide_False by done. apply (proj1 Hpu).
    + intros a b l Hne Hl Hx. rewrite Hm, decide_False by done. by apply (proj2 Hpu).
Qed.

Lemma expire_spec t now : exists t1, active_expire (dt_set_now t now) = t1
  /\ purged now (dt_ttl t) (dt_wait_for_map t) (dt_wait_for_map t1) /\ dt_now t1 = now /\ dt_ttl t1 = dt_ttl t.
Proof.
  eexists. split; [reflexivity|]. split; [apply (active_expire_purged (dt_set_now t now))|].
  apply (active_expire_now (dt_set_now t now)).
Qed.

(** What one request gives. *)
Definition detect_outcome (m0 m : WaitForMap) (now ttl txn lock hash : Z)
    (r : option (u64 * list WaitForEntry)) : Prop :=
  match r with
  | Some (deadlock_hash, chain) => purged now ttl m0 m /\ is_chain now ttl m0 lock chain txn
      /\ exists c e, chain = c ++ [e] /\ we_key_hash e = deadlock_hash
  | None => ~ tc (live_edge now ttl m0) lock txn /\ recorded m0 m now ttl txn lock hash
  end.

Lemma detect_spec t now txn lock hash key tag : dag (dt_wait_for_map t) ->
  txn <> 0 -> lock <> 0 -> txn <> lock ->
  exists r t', detect t now txn lock hash key tag = Ok (r, t')
    /\ dag (dt_wait_for_map t')
    /\ detect_outcome (dt_wait_for_map t) (dt_wait_for_map t') now (dt_ttl t) txn lock hash r.
Proof.
  intros Hd H1 H2 H3. unfold detect.
  destruct (expire_spec t now) as (t1 & -> & Hpu & Hnow & Httl).
  cbv zeta. pose proof (register_if_existed_spec t1 txn lock hash key tag) as Hre.
  destruct (register_if_existed _ _ _ _ _ _) as [[] t2].
  { destruct Hre as (He & _ & l0 & Hl0 & Hm). rewrite Hnow in Hm. eexists _, t2. split; [reflexivity|].
    destruct (recorded_existed _ _ _ _ _ _ _ _ _ _ _ Hd Hpu Hl0 Hm) as [? ?]. split; [done|]. split; [|done].
    apply no_path_back; [apply Hd|]. by eapply purged_edge. }
  destruct Hre as [-> Hno].
  destruct (do_detect_spec t1 txn lock (proj1 (dag_purged _ _ _ _ Hd Hpu))) as (r & m & -> & Hpu2 & Hr).
  rewrite Hnow, Httl in Hpu2, Hr. pose proof (purged_trans _ _ _ _ _ Hpu Hpu2) as Hpu3. cbn.
  destruct r as [[h chain]|].
  - destruct Hr as (c & e & -> & Hh & Hc). do 2 eexists. split; [reflexivity|].
    split; [by eapply dag_purged|]. split_and!; [done|by apply (is_chain_purged _ _ _ (dt_wait_for_map t1))|by eauto].
  - destruct (register_spec (dt_set_map t1 m) txn lock hash key tag) as (t3 & -> & _ & Hm).
    { cbn. destruct (get2 m txn lock) as [l|] eqn:E; [|done]. apply (proj1 Hpu2) in E. by rewrite E in Hno. }
    cbn in Hm. rewrite Hnow in Hm. do 2 eexists. split; [reflexivity|].
    destruct (recorded_new _ _ _ _ _ _ _ _ _ _ Hd Hpu3 H1 H2 H3 Hr Hm) as [? ?]. split; [done|]. split; [|done].
    intros Ht. apply Hr. eapply tc_mono; [|exact Ht]. intros a b Hab. eapply live_edge_edge.
    by eapply purged_live_edge.
Qed.

Lemma clean_up_wait_for_dag t txn lock hash :
  dag (dt_wait_for_map t) -> dag (dt_wait_for_map (clean_up_wait_for t txn lock hash)).
Proof.
  intros Hd. unfold clean_up_wait_for. destruct (dt_wait_for_map t !! txn) as [wf|] eqn:E; [|done].
  destruct (wf !! lock) as [l0|] eqn:El; [|done].
  assert (H0 : get2 (dt_wait_for_map t) txn lock = Some l0) by (unfold get2; by rewrite E).
  assert (Hsame : forall a b l, get2 (dt_wait_for_map t) a b = Some l ->
    a <> 0 /\ b <> 0 /\ lk_ts l = b /\ lk_keys l <> [] /\ edge (dt_wait_for_map t) a b).
  { intros a b l Hl. destruct (ok_edge _ (proj1 Hd) a b l Hl) as (? & ? & ? & ?). split_and!; [done..|by exists l]. }
  cbn. case_bool_decide as Hemp; [case_bool_decide|]; cbn; apply (dag_mono _ _ Hd); intros a b l.
  - rewrite get2_delete. case_decide; [done|]. apply Hsame.
  - rewrite get2_insert. case_decide as Ha; [|apply Hsame]. subst a. intros [_ Hl]%lookup_delete_Some.
    apply Hsame. unfold get2. by rewrite E.
  - rewrite (get2_insert2 _ _ _ _ _ _ _ (or_introl E)). case_decide as Ea; [|apply Hsame].
    injection Ea as -> ->. intros [= <-]. cbn. destruct (Hsame _ _ _ H0) as (? & ? & ? & _ & ?). done.
Qed.

(** The requests the detector serves one at a time. *)
Inductive dt_step : DetectTable -> DetectTable -> Prop :=
| StepDetect t now txn_ts lock_ts hash key tag r t' :
    txn_ts <> 0 -> lock_ts <> 0 -> txn_ts <> lock_ts ->
    detect t now txn_ts lock_ts hash key tag = Ok (r, t') -> dt_step t t'
| StepCleanUpWaitFor t txn_ts lock_ts hash : dt_step t (clean_up_wait_for t txn_ts lock_ts hash)
| StepCleanUp t txn_ts : dt_step t (clean_up t txn_ts)
| StepClear t : dt_step t (dt_clear t)
| StepResetTtl t ttl : dt_step t (reset_ttl t ttl).

Definition dt_reachable (t : DetectTable) : Prop := exists ttl now, rtc dt_step (DetectTable_new ttl now) t.

Lemma dt_step_dag t t' : dt_step t t' -> dag (dt_wait_for_map t) -> dag (dt_wait_for_map t').
Proof.
  intros Hs Hd. destruct Hs as [t now x y h k tag r t' H1 H2 H3 Hr|t x y h|t x|t|t ttl]; [| | | |done].
  - destruct (detect_spec t now x y h k tag Hd H1 H2 H3) as (r' & t1 & Hr' & Hd' & _). rewrite Hr in Hr'. by injection Hr' as <- <-.
  - by apply clean_up_wait_for_dag.
  - apply (dag_mono _ _ Hd). intros a b l. cbn. rewrite get2_delete. case_decide; [done|]. intros Hl.
    destruct (ok_edge _ (proj1 Hd) a b l Hl) as (? & ? & ? & ?). split_and!; [done..|by exists l].
  - apply (dag_mono _ _ Hd). intros a b l. cbn. unfold get2. by rewrite lookup_empty.
Qed.

Lemma dt_reachable_dag t : dt_reachable t -> dag (dt_wait_for_map t).
Proof.
  intros (ttl & now & Hr).
  assert (H0 : dag (dt_wait_for_map (DetectTable_new ttl now))); [|revert Hr H0; generalize (DetectTable_new ttl now); intros t0 Hr;
    induction Hr as [|t1 t2 t3 Hs _ IH]; [done|intros H; apply IH; by eapply dt_step_dag]].
  split; [constructor|]; cbn.
  - intros a b l. unfold get2. by rewrite lookup_empty.
  - intros v Hv. assert (He : forall x, ~ edge ∅ v x) by (intros x [l Hl]; unfold get2 in Hl; by rewrite lookup_empty in Hl).
    destruct Hv as [v y Hy|v y z Hy _]; exact (He y Hy).
Qed.

(** C25. Whatever requests the deadlock detector has served, with whatever clock
    and time to live, its wait-for graph has no cycle.  This counts edges that
    have expired and are still in the table, which a later request can revive:
    the search removes the expired edges of every vertex it visits before the
    new edge is added. *)
Theorem wait_for_acyclic t : dt_reachable t -> acyclic (dt_wait_for_map t).
Proof. intros Hr. apply (dt_reachable_dag t Hr). Qed.

(** C26. [DetectTable::detect] always returns: the search terminates and none of
    the [unwrap]s, indexings and assertions of it, of [generate_wait_chain] and
    of [register] panics.  It reports a deadlock only with a chain of edges that
    have not expired leading from the transaction waited for back to the waiter,
    the reported hash being that of the last edge, and leaves all such edges in
    the table; it reports none only when there is no such path, and then the edge
    of the request is in the table, refreshed, every other edge that has not
    expired being untouched. *)
Theorem detect_correct t now txn lock hash key tag : dt_reachable t ->
  txn <> 0 -> lock <> 0 -> txn <> lock ->
  exists r t', detect t now txn lock hash key tag = Ok (r, t')
    /\ ((exists d, r = Some d) <-> tc (live_edge now (dt_ttl t) (dt_wait_for_map t)) lock txn)
    /\ detect_outcome (dt_wait_for_map t) (dt_wait_for_map t') now (dt_ttl t) txn lock hash r.
Proof.
  intros Hr H1 H2 H3.
  destruct (detect_spec t now txn lock hash key tag (dt_reachable_dag t Hr) H1 H2 H3) as (r & t' & -> & _ & Ho).
  exists r, t'. split_and!; [done| |done]. destruct r as [[h chain]|].
  - destruct Ho as (_ & Hc & c & e & -> & _). split; [|by eauto]. intros _.
    apply (is_chain_tc _ _ _ _ _ _ Hc). by intros [_ ?]%app_eq_nil.
  - destruct Ho as [Hn _]. split; [by intros [? ?]|done].
Qed.

(** ** Witnesses *)

(** Transaction 1 waits for 2 and 2 for 3; the edges live for ten units. *)
Definition example_table : DetectTable :=
  match detect (DetectTable_new 10 0) 1 1 2 100 [7] [] with
  | Ok (_, t) => match detect t 2 2 3 200 [8] [] with Ok (_, t) => t | _ => t end
  | _ => DetectTable_new 10 0
  end.

Lemma example_table_reachable : dt_reachable example_table.
Proof.
  exists 10, 0. eapply rtc_l; [eapply (StepDetect _ 1 1 2 100 [7] []); [lia..|vm_compute; reflexivity]|].
  eapply rtc_l; [eapply (StepDetect _ 2 2 3 200 [8] []); [lia..|vm_compute; reflexivity]|].
  match goal with |- rtc _ ?x ?y => replace y with x by (vm_compute; reflexivity) end. apply rtc_refl.
Defined.

(** The request of 3 for 1 closes the cycle. *)
Lemma wait_for_acyclic_witness : acyclic (dt_wait_for_map example_table)
  /\ edge (dt_wait_for_map example_table) 1 2 /\ edge (dt_wait_for_map example_table) 2 3.
Proof.
  split; [exact (wait_for_acyclic example_table example_table_reachable)|].
  split; eexists; vm_compute; reflexivity.
Defined.

Lemma detect_correct_witness :
  (exists r t', detect example_table 3 3 1 300 [9] [] = Ok (r, t')
    /\ ((exists d, r = Some d) <-> tc (live_edge 3 (dt_ttl example_table) (dt_wait_for_map example_table)) 1 3)
    /\ detect_outcome (dt_wait_for_map example_table) (dt_wait_for_map t') 3 (dt_ttl example_table) 3 1 300 r)
  /\ (exists d t', detect example_table 3 3 1 300 [9] [] = Ok (Some d, t') /\ length (snd d) = 2%nat)
  /\ (exists t', detect example_table 11 3 1 300 [9] [] = Ok (None, t')).
Proof.
  split_and!.
  - apply (detect_correct example_table 3 3 1 300 [9] [] example_table_reachable); lia.
  - do 2 eexists. split; [vm_compute; reflexivity|reflexivity].
  - eexists. vm_compute. reflexivity.
Defined.
