(* ===== verification/Producer.v ===== *)
(** * The producer of cluster replication: live changes

    The source side of replication in [components/cdc/src]: the decoding of
    commit records ([logical_mutation.rs]), the event batcher
    ([pcr_event_batcher.rs]), the subscription registry ([pcr_registry.rs]), what
    a [Delegate] does for replication with the commands of its region
    ([delegate.rs]), the lookup of old values it uses ([old_value.rs]) and the
    tasks of the [Endpoint] that attach delegates and publish the timestamp of
    checkpoints ([endpoint.rs]).

    The generated message code is the class [PcrWire] with the round trip as its
    law.  A channel is a queue in a shared table [Channels]: all clones of a
    sender have one identifier, and sending fails once the receiver is gone.  The
    TiCDC half of the handlers, which works on rows and on downstreams of its
    own, enters as its outcome; the snapshot that old values are read from is an
    [EngineSnapshot].  Instants are milliseconds and are arguments.

    Theorems: the batcher loses nothing and numbers its events
    ([batcher_lossless]); a subscription matches the regions that overlap it
    ([match_region_overlap]); committed records reach the target unchanged
    ([write_records_replicated]); but a value that is not inlined is replaced by
    the empty one ([large_value_replaced]), a disconnected sink loses events
    ([disconnected_sink_loses_events]), the first subscription attaches no
    delegate ([first_subscription_attaches_none]), lock scans are never
    requested ([lock_scan_never_requested]), and the checkpoint that is sent
    does not depend on the locks ([checkpoint_ignores_locks]). *)

From Stdlib Require Import ZArith Lia String.
From stdpp Require Import base numbers list gmap sets strings countable.
From S2P Require Import Prelude Number Bytes Types Write Lock Engine SstBatcher.

Open Scope Z_scope.

(** ** Messages *)

Inductive OpType : Type := OtPut | OtDelete.

Record PcrKv : Type := { pk_key : bytes; pk_value : bytes; pk_op : OpType; pk_cf : string }.

Inductive PcrPayload : Type :=
| PlKvBatch (kvs : list PcrKv)
| PlSstChunk (data start_key end_key : bytes) (write_ts : u64)
| PlCheckpoint (resolved_ts : u64) (region_ids : list u64)
| PlDeleteRange (start_key end_key : bytes) (ts : u64)
| PlSplit (split_key : bytes) (new_region_ids : list u64).

(** [PcrEvent] of [pcrpb.proto]. *)
Record PcrMsg : Type := { pm_stream_seq : u64; pm_event : option PcrPayload; pm_is_snapshot : bool }.

Definition PcrMsg_of (event : PcrPayload) : PcrMsg :=
  {| pm_stream_seq := 0; pm_event := Some event; pm_is_snapshot := false |}.

Class PcrWire : Type := {
  write_to_bytes : PcrMsg -> option bytes;
  parse_from_bytes : bytes -> option PcrMsg
}.

(** The generated code serialises every message, and parsing is its inverse. *)
Class PcrWireLaws `{PcrWire} : Prop := {
  write_total m : is_Some (write_to_bytes m);
  parse_write m data : write_to_bytes m = Some data -> parse_from_bytes data = Some m
}.

(** What the consumer reads of a message: it does not look at [op]. *)
Definition to_event (m : PcrMsg) : PcrEvent :=
  match pm_event m with
  | Some (PlKvBatch kvs) =>
      EvKvBatch (map (fun kv => {| kv_key := pk_key kv; kv_value := pk_value kv; kv_cf := pk_cf kv |}) kvs)
  | Some (PlSstChunk data s e _) => EvSstChunk s e data
  | Some (PlCheckpoint ts ids) => EvCheckpoint ts ids
  | Some (PlDeleteRange s e ts) => EvDeleteRange s e ts
  | Some (PlSplit k ids) => EvSplit k ids
  | None => EvNone
  end.

(** ** Channels *)

Record Channel : Type := { ch_open : bool; ch_queue : list bytes }.
Abbreviation Channels := (gmap nat Channel).

Definition unbounded_send (chs : Channels) (sink : nat) (data : bytes) : bool * Channels :=
  match chs !! sink with
  | Some ch =>
      if ch_open ch
      then (true, <[sink := {| ch_open := true; ch_queue := ch_queue ch ++ [data] |}]> chs)
      else (false, chs)
  | None => (false, chs)
  end.

(** ** [logical_mutation.rs] *)

Definition DATA_PREFIX : u8 := 122.
Definition data_key (key : bytes) : bytes := DATA_PREFIX :: key.

(** [r.ok()] *)
Definition ok_ {E A} (r : res E A) : res unit (option A) :=
  match r with Ok a => Ok (Some a) | Err _ => Ok None | Panic => Panic end.

Inductive LogicalMutation : Type :=
| LmPut (default_key write_key : bytes) (start_ts commit_ts : TimeStamp) (short_value : option bytes)
| LmDelete (default_key write_key : bytes) (start_ts commit_ts : TimeStamp)
| LmRollback (default_key write_key : bytes) (start_ts : TimeStamp).

Definition build_default_key (user_key : bytes) (start_ts : TimeStamp) : bytes :=
  [DATA_PREFIX] ++ user_key ++ be_bytes 8 (not_u64 start_ts).

Definition from_write_cf (cf_key write_bytes : bytes) : res unit (option LogicalMutation) :=
  write ← ok_ (WriteRef_parse write_bytes);
  match write with
  | None => Ok None
  | Some write =>
      commit_ts ← ok_ (Key_decode_ts_from cf_key);
      match commit_ts with
      | None => Ok None
      | Some commit_ts =>
          user_key ← ok_ (Key_truncate_ts_for cf_key);
          match user_key with
          | None => Ok None
          | Some user_key =>
              let default_key := build_default_key user_key (w_start_ts write) in
              Ok match w_write_type write with
                 | WtPut => Some (LmPut default_key cf_key (w_start_ts write) commit_ts (w_short_value write))
                 | WtDelete => Some (LmDelete default_key cf_key (w_start_ts write) commit_ts)
                 | WtRollback => Some (LmRollback default_key cf_key (w_start_ts write))
                 | WtLock => None
                 end
          end
      end
  end.

(** ** [pcr_event_batcher.rs] *)

(** Sizes are lengths of data held in memory and do not wrap. *)
Record PcrEventBatcher : Type := {
  eb_batch : list PcrKv;
  eb_size : Z;
  eb_batch_byte_size : Z;
  eb_seq_num : u64;
  eb_last_flush : Z;
  eb_flush_interval_ms : u64
}.

Definition PcrEventBatcher_new (batch_byte_size flush_interval_ms now : Z) : PcrEventBatcher :=
  {| eb_batch := []; eb_size := 0; eb_batch_byte_size := batch_byte_size; eb_seq_num := 0;
     eb_last_flush := now; eb_flush_interval_ms := flush_interval_ms |}.

Definition eb_add_kv (b : PcrEventBatcher) (key value : bytes) (op : OpType) (cf : string) : PcrEventBatcher :=
  {| eb_batch := eb_batch b ++ [{| pk_key := key; pk_value := value; pk_op := op; pk_cf := cf |}];
     eb_size := eb_size b + (zlen key + zlen value); eb_batch_byte_size := eb_batch_byte_size b;
     eb_seq_num := eb_seq_num b; eb_last_flush := eb_last_flush b;
     eb_flush_interval_ms := eb_flush_interval_ms b |}.

Definition eb_should_flush (b : PcrEventBatcher) (now : Z) : bool :=
  (eb_batch_byte_size b <=? eb_size b)
  || ((0 <? eb_flush_interval_ms b) && (0 <? eb_size b)
      && (eb_flush_interval_ms b <=? Z.max 0 (now - eb_last_flush b))).

Definition eb_flush `{PcrWire} (b : PcrEventBatcher) (now : Z) : option bytes * PcrEventBatcher :=
  match eb_batch b with
  | [] => (None, b)
  | kvs =>
      let seq_num := as_u64 (eb_seq_num b + 1) in
      (write_to_bytes {| pm_stream_seq := seq_num; pm_event := Some (PlKvBatch kvs); pm_is_snapshot := false |},
       {| eb_batch := []; eb_size := 0; eb_batch_byte_size := eb_batch_byte_size b; eb_seq_num := seq_num;
          eb_last_flush := now; eb_flush_interval_ms := eb_flush_interval_ms b |})
  end.

Definition eb_next_seq (b : PcrEventBatcher) : u64 := as_u64 (eb_seq_num b + 1).

(** ** Old values ([old_value.rs]) *)

Abbreviation OldValueCache := (gmap bytes (OldValue * option MutationType)).

Section OldValue.
Context {Snap : Type} `{EngineSnapshot Snap}.

Definition get_value_default (s : Snap) (key : Key) : option Value := get_cf s CF_DEFAULT key.

(** The cursor on the records of one key is bounded by its version zero, and the
    entry after [k] is the first one not before [k ++ [0]]. *)
Definition write_cursor_seek (s : Snap) (upper from : bytes) : option (bytes * bytes) :=
  match seek_cf s CF_WRITE from with
  | Some (k, v) => if bytes_ltb k upper then Some (k, v) else None
  | None => None
  end.

Fixpoint near_seek_old_value_loop (s : Snap) (fuel : nat) (upper user_key : bytes) (seek_ts : TimeStamp)
    (cursor : bytes * bytes) : res unit (option Value) :=
  match fuel with
  | O => Panic
  | S fuel =>
      let '(k, v) := cursor in
      if Key_is_user_key_eq k user_key then
        write ← unwrap_ok (WriteRef_parse v);
        match w_write_type write with
        | WtPut =>
            if WriteRef_check_gc_fence_as_latest_version write seek_ts
            then match w_short_value write with
                 | Some short_value => Ok (Some short_value)
                 | None => Ok (get_value_default s (Key_append_ts user_key (w_start_ts write)))
                 end
            else Ok None
        | WtDelete => Ok None
        | WtRollback | WtLock =>
            match write_cursor_seek s upper (k ++ [0]) with
            | Some cursor => near_seek_old_value_loop s fuel upper user_key seek_ts cursor
            | None => Ok None
            end
        end
      else Ok None
  end.

Definition near_seek_old_value (s : Snap) (key : Key) : res unit (option Value) :=
  '(user_key, seek_ts) ← unwrap_ok (Key_split_on_ts_for key);
  let upper := Key_append_ts user_key 0 in
  match write_cursor_seek s upper key with
  | Some cursor => near_seek_old_value_loop s (S (cf_len s CF_WRITE)) upper user_key seek_ts cursor
  | None => Ok None
  end.

(** [get_old_value]; [unreachable!] and [assert_eq!] panic. *)
Definition cdc_get_old_value (s : Snap) (key : Key) (query_ts : TimeStamp) (cache : OldValueCache)
    : res unit (option Value) * OldValueCache :=
  match cache !! key with
  | Some (old_value, mutation_type) =>
      (match mutation_type with
       | Some MtInsert => match old_value with OvNone => Ok None | _ => Panic end
       | Some MtPut | Some MtDelete | None =>
           match old_value with
           | OvNone => Ok None
           | OvValue value => Ok (Some value)
           | OvValueTimeStamp start_ts =>
               k ← unwrap_ok (Key_truncate_ts key); Ok (get_value_default s (Key_append_ts k start_ts))
           | OvUnspecified | OvSeekWrite _ => Panic
           end
       | _ => Panic
       end, delete key cache)
  | None =>
      (k ← unwrap_ok (Key_truncate_ts key); near_seek_old_value s (Key_append_ts k query_ts), cache)
  end.

End OldValue.

(** ** Lock tracking ([delegate.rs]) *)

Inductive cdc_error : Type := MemoryQuotaExceeded | RegionError | CdcOther.

Record Region : Type := { rg_id : u64; rg_start_key : bytes; rg_end_key : bytes; rg_conf_ver : u64; rg_version : u64 }.
Definition Region_default : Region :=
  {| rg_id := 0; rg_start_key := []; rg_end_key := []; rg_conf_ver := 0; rg_version := 0 |}.

Record MiniLock : Type := { ml_ts : TimeStamp; ml_txn_source : u64 }.

#[export] Instance MiniLock_eq_dec : EqDecision MiniLock.
Proof. solve_decision. Defined.

Inductive PendingLock : Type :=
| Track (key : bytes) (start_ts : MiniLock)
| Untrack (key : bytes) (start_ts : TimeStamp).

Inductive LockTracker : Type :=
| LtrPending
| LtrPreparing (locks : list PendingLock)
| LtrPrepared (region : Region) (locks : gmap bytes MiniLock).

(** [LockModifiedCount]: a timestamp and the change of its number of locks. *)
Abbreviation LockModifiedCount := (TimeStamp * Z)%type.

(** [alloc_ok]: whether the memory quota admits the key. *)
Definition push_lock (tr : LockTracker) (key : bytes) (start_ts : MiniLock) (alloc_ok : bool)
    : res cdc_error (list LockModifiedCount) * LockTracker :=
  match tr with
  | LtrPending => (Panic, tr)
  | LtrPreparing locks =>
      if alloc_ok then (Ok [], LtrPreparing (locks ++ [Track key start_ts]))
      else (Err MemoryQuotaExceeded, tr)
  | LtrPrepared region locks =>
      match locks !! key with
      | Some old =>
          if ml_ts old =? ml_ts start_ts then (Ok [], tr)
          else (Ok [(ml_ts old, -1); (ml_ts start_ts, 1)], LtrPrepared region (<[key := start_ts]> locks))
      | None =>
          (if alloc_ok then Ok [(ml_ts start_ts, 1)] else Err MemoryQuotaExceeded,
           LtrPrepared region (<[key := start_ts]> locks))
      end
  end.

Definition pop_lock (tr : LockTracker) (key : bytes) (start_ts : TimeStamp) (alloc_ok : bool)
    : res cdc_error (list LockModifiedCount) * LockTracker :=
  match tr with
  | LtrPending => (Panic, tr)
  | LtrPreparing locks =>
      if alloc_ok then (Ok [], LtrPreparing (locks ++ [Untrack key start_ts]))
      else (Err MemoryQuotaExceeded, tr)
  | LtrPrepared region locks =>
      match locks !! key with
      | Some lock =>
          if ml_ts lock =? start_ts then (Ok [(start_ts, -1)], LtrPrepared region (delete key locks))
          else (Ok [], tr)
      | None => (Ok [], tr)
      end
  end.

Definition init_lock_tracker (tr : LockTracker) : bool * LockTracker :=
  match tr with LtrPending => (true, LtrPreparing []) | _ => (false, tr) end.

Definition apply_pending (locks : res cdc_error (gmap bytes MiniLock)) (p : PendingLock)
    : res cdc_error (gmap bytes MiniLock) :=
  locks ← locks;
  match p with
  | Track key start_ts =>
      match locks !! key with
      | None => Ok (<[key := start_ts]> locks)
      | Some lock => _ ← assert_ (bool_decide (lock = start_ts)); Ok locks
      end
  | Untrack key start_ts =>
      match locks !! key with
      | Some lock => Ok (if ml_ts lock =? start_ts then delete key locks else locks)
      | None => Ok locks
      end
  end.

Definition finish_prepare_lock_tracker (tr : LockTracker) (region : Region) (locks : gmap bytes MiniLock)
    (alloc_ok : bool) : res cdc_error unit * LockTracker :=
  match tr with
  | LtrPreparing delta =>
      match foldl apply_pending (Ok locks) delta with
      | Ok locks =>
          if alloc_ok then (Ok tt, LtrPrepared region locks) else (Err MemoryQuotaExceeded, LtrPending)
      | Err e => (Err e, LtrPending)
      | Panic => (Panic, LtrPending)
      end
  | _ => (Panic, LtrPending)
  end.

(** ** The delegate of a region *)

Record Delegate : Type := {
  dg_region_id : u64;
  dg_lock_tracker : LockTracker;
  dg_batcher : option PcrEventBatcher;
  dg_sink : option nat;
  dg_cf_default_keys : gset bytes
}.

Definition Delegate_new (region_id : u64) : Delegate :=
  {| dg_region_id := region_id; dg_lock_tracker := LtrPreparing []; dg_batcher := None; dg_sink := None;
     dg_cf_default_keys := ∅ |}.

Definition dg_set_batcher (d : Delegate) (b : PcrEventBatcher) : Delegate :=
  {| dg_region_id := dg_region_id d; dg_lock_tracker := dg_lock_tracker d; dg_batcher := Some b;
     dg_sink := dg_sink d; dg_cf_default_keys := dg_cf_default_keys d |}.
Definition dg_set_default_keys (d : Delegate) (keys : gset bytes) : Delegate :=
  {| dg_region_id := dg_region_id d; dg_lock_tracker := dg_lock_tracker d; dg_batcher := dg_batcher d;
     dg_sink := dg_sink d; dg_cf_default_keys := keys |}.
Definition dg_set_lock_tracker (d : Delegate) (tr : LockTracker) : Delegate :=
  {| dg_region_id := dg_region_id d; dg_lock_tracker := tr; dg_batcher := dg_batcher d;
     dg_sink := dg_sink d; dg_cf_default_keys := dg_cf_default_keys d |}.

Definition enable_pcr (d : Delegate) (event_sink : nat) (buffer_size flush_interval_ms now : Z) : Delegate :=
  {| dg_region_id := dg_region_id d; dg_lock_tracker := LtrPrepared Region_default ∅;
     dg_batcher := Some (default (PcrEventBatcher_new buffer_size flush_interval_ms now) (dg_batcher d));
     dg_sink := Some event_sink; dg_cf_default_keys := dg_cf_default_keys d |}.

Definition has_pcr (d : Delegate) : bool :=
  bool_decide (is_Some (dg_batcher d)) && bool_decide (is_Some (dg_sink d)).

(** A failed send is logged. *)
Definition emit_pcr_event (d : Delegate) (chs : Channels) (event : bytes) : Channels :=
  match dg_sink d with Some sink => snd (unbounded_send chs sink event) | None => chs end.

Definition emit_opt (d : Delegate) (chs : Channels) (event : option bytes) : Channels :=
  match event with Some event => emit_pcr_event d chs event | None => chs end.

Definition maybe_flush_pcr_batcher `{PcrWire} (d : Delegate) (chs : Channels) (now : Z) : Delegate * Channels :=
  match dg_batcher d with
  | Some batcher =>
      if eb_should_flush batcher now then
        let '(event, batcher) := eb_flush batcher now in
        (dg_set_batcher d batcher, emit_opt d chs event)
      else (d, chs)
  | None => (d, chs)
  end.

Definition emit_pcr_split `{PcrWire} (d : Delegate) (chs : Channels) (split_key : bytes)
    (new_region_ids : list u64) : Channels :=
  emit_opt d chs (write_to_bytes (PcrMsg_of (PlSplit split_key new_region_ids))).

(** *** Commands *)

Inductive KeyMode : Type := KmRaw | KmTxn | KmTidb | KmUnknown.

Definition parse_key_mode (key : bytes) : KeyMode :=
  match key with
  | [] => KmUnknown
  | c :: _ =>
      if c =? 114 then KmRaw else if c =? 120 then KmTxn
      else if (c =? 109) || (c =? 116) then KmTidb else KmUnknown
  end.

(** The hand-written reading of a [start_ts] from the bytes after the first. *)
Fixpoint be_varint (val : u64) (v : bytes) : u64 :=
  match v with
  | [] => val
  | b :: v =>
      let val := Z.lor (as_u64 (Z.shiftl val 7)) (Z.land b 127) in
      if Z.land b 128 =? 0 then val else be_varint val v
  end.

(** The fallback for a record that has no logical mutation. *)
Definition write_fallback (b : PcrEventBatcher) (raw_key value : bytes) : PcrEventBatcher :=
  let b := eb_add_kv b (DATA_PREFIX :: raw_key) value OtPut "write" in
  match value with
  | first_byte :: rest =>
      if (8 <=? length raw_key)%nat then
        if (first_byte =? 80) || (first_byte =? 68) || (first_byte =? 76) || (first_byte =? 82) then
          let data_key := take (length raw_key - 8) raw_key in
          let start_ts := not_u64 (be_varint 0 rest) in
          eb_add_kv b ([DATA_PREFIX] ++ data_key ++ be_bytes 8 start_ts) value OtPut "default"
        else eb_add_kv b raw_key value OtPut "default"
      else b
  | [] => b
  end.

Section Commands.
Context {Snap : Type} `{EngineSnapshot Snap} `{PcrWire}.

(** A put of the write column family. *)
Definition pcr_write_put (s : Snap) (default_keys : gset bytes) (b : PcrEventBatcher) (cache : OldValueCache)
    (key value : bytes) : res unit (PcrEventBatcher * OldValueCache) :=
  mutation ← from_write_cf key value;
  match mutation with
  | Some (LmPut default_key write_key start_ts _ short_value) =>
      let seen := bool_decide (default_key ∈ default_keys) in
      '(b, cache) ←
        match short_value with
        | Some val => Ok (if seen then b else eb_add_kv b default_key val OtPut "default", cache)
        | None =>
            let '(r, cache) := cdc_get_old_value s default_key start_ts cache in
            old ← r;
            Ok (match old with
                | Some val => if seen then b else eb_add_kv b default_key val OtPut "default"
                | None => eb_add_kv b default_key [] OtPut "default"
                end, cache)
        end;
      wv ←
        (if seen then
           w ← ok_ (WriteRef_parse value);
           Ok match w with
              | Some w =>
                  let w := WriteRef_to_owned w in
                  WriteRef_to_bytes
                    {| w_write_type := w_write_type w; w_start_ts := w_start_ts w; w_short_value := None;
                       w_has_overlapped_rollback := w_has_overlapped_rollback w; w_gc_fence := w_gc_fence w;
                       w_last_change := w_last_change w; w_txn_source := w_txn_source w |}
              | None => value
              end
         else Ok value);
      Ok (eb_add_kv b (DATA_PREFIX :: write_key) wv OtPut "write", cache)
  | Some (LmDelete default_key write_key _ _) =>
      let b := eb_add_kv b default_key [] OtDelete "default" in
      Ok (eb_add_kv b (DATA_PREFIX :: write_key) value OtPut "write", cache)
  | Some (LmRollback _ _ _) => Ok (b, cache)
  | None => Ok (write_fallback b key value, cache)
  end.

(** The part of [sink_raw_put] for replication; it remembers the default keys. *)
Definition pcr_raw_put (s : Snap) (d : Delegate) (cache : OldValueCache) (cf : string) (key value : bytes)
    : res unit (Delegate * OldValueCache) :=
  match dg_batcher d with
  | None => Ok (d, cache)
  | Some b =>
      if bool_decide (cf = "lock"%string) then Ok (d, cache)
      else if bool_decide (cf = "write"%string) then
        '(b, cache) ← pcr_write_put s (dg_cf_default_keys d) b cache key value;
        Ok (dg_set_batcher d b, cache)
      else
        let dk := DATA_PREFIX :: key in
        Ok (dg_set_batcher (dg_set_default_keys d ({[dk]} ∪ dg_cf_default_keys d))
              (eb_add_kv b dk value OtPut "default"), cache)
  end.

(** The part of [sink_txn_put] for replication; it does not. *)
Definition pcr_txn_put (s : Snap) (d : Delegate) (cache : OldValueCache) (cf : string) (key value : bytes)
    : res unit (Delegate * OldValueCache) :=
  match dg_batcher d with
  | None => Ok (d, cache)
  | Some b =>
      if bool_decide (cf = "lock"%string) then Ok (d, cache)
      else if bool_decide (cf = "write"%string) then
        '(b, cache) ← pcr_write_put s (dg_cf_default_keys d) b cache key value;
        Ok (dg_set_batcher d b, cache)
      else Ok (dg_set_batcher d (eb_add_kv b (DATA_PREFIX :: key) value OtPut "default"), cache)
  end.

Definition pcr_put (s : Snap) (d : Delegate) (cache : OldValueCache) (cf : string) (key value : bytes)
    : res unit (Delegate * OldValueCache) :=
  match parse_key_mode key with
  | KmRaw => pcr_raw_put s d cache cf key value
  | _ => pcr_txn_put s d cache cf key value
  end.

Inductive Request : Type :=
| RqPut (cf : string) (key value : bytes)
| RqIngestSst
| RqDeleteRange (start_key end_key : bytes) (notify_only : bool)
| RqPrewrite (key value lock : bytes)
| RqDelete
| RqOther.

Record dstate : Type := { ds_delegate : Delegate; ds_channels : Channels; ds_cache : OldValueCache }.

Definition ds_set (d : Delegate) (st : dstate) : dstate :=
  {| ds_delegate := d; ds_channels := ds_channels st; ds_cache := ds_cache st |}.
Definition ds_send (chs : Channels) (st : dstate) : dstate :=
  {| ds_delegate := ds_delegate st; ds_channels := chs; ds_cache := ds_cache st |}.

(** The TiCDC half of [sink_put], on the lock tracker and the rows of the
    command, and the delivery of the rows to the downstreams. *)
Variable ticdc_put : LockTracker -> string -> bytes -> bytes -> res cdc_error unit * LockTracker.
Variable ticdc_sink : res cdc_error unit.

Definition sink_put (s : Snap) (st : dstate) (cf : string) (key value : bytes) : res cdc_error unit * dstate :=
  match pcr_put s (ds_delegate st) (ds_cache st) cf key value with
  | Ok (d, cache) =>
      let '(r, tr) := ticdc_put (dg_lock_tracker d) cf key value in
      (r, {| ds_delegate := dg_set_lock_tracker d tr; ds_channels := ds_channels st; ds_cache := cache |})
  | _ => (Panic, st)
  end.

Definition sink_delete_range (st : dstate) (start_key end_key : bytes) : dstate :=
  ds_send (emit_opt (ds_delegate st) (ds_channels st)
             (write_to_bytes (PcrMsg_of (PlDeleteRange start_key end_key 0)))) st.

Definition sink_prewrite (d : Delegate) (raw_key value lock_bytes : bytes) : res cdc_error Delegate :=
  lock ← unwrap_ok (ok_ (Lock_parse lock_bytes));
  let start_ts := match lock with Some l => l_ts l | None => 0 end in
  let encoded_key := [DATA_PREFIX] ++ raw_key ++ be_bytes 8 (not_u64 start_ts) in
  Ok match dg_batcher d with
     | Some b => dg_set_batcher d (eb_add_kv b encoded_key value OtPut "default")
     | None => d
     end.

(** [sink_ingest_sst] validates the file and forwards nothing. *)
Definition sink_request (s : Snap) (st : dstate) (req : Request) : res cdc_error unit * dstate :=
  match req with
  | RqPut cf key value => sink_put s st cf key value
  | RqDeleteRange start_key end_key notify_only =>
      (Ok tt, if notify_only then st else sink_delete_range st start_key end_key)
  | RqPrewrite key value lock =>
      match sink_prewrite (ds_delegate st) key value lock with
      | Ok d => (Ok tt, ds_set d st)
      | Err e => (Err e, st)
      | Panic => (Panic, st)
      end
  | RqIngestSst | RqDelete | RqOther => (Ok tt, st)
  end.

Fixpoint sink_requests (s : Snap) (st : dstate) (reqs : list Request) : res cdc_error unit * dstate :=
  match reqs with
  | [] => (Ok tt, st)
  | req :: reqs =>
      match sink_request s st req with
      | (Ok _, st) => sink_requests s st reqs
      | r => r
      end
  end.

Definition force_flush (d : Delegate) (chs : Channels) (now : Z) : Delegate * Channels :=
  match dg_batcher d with
  | Some batcher =>
      if 0 <? eb_size batcher then
        let '(event, batcher) := eb_flush batcher now in
        (dg_set_batcher d batcher, emit_opt d chs event)
      else (d, chs)
  | None => (d, chs)
  end.

Definition sink_data (s : Snap) (now : Z) (st : dstate) (reqs : list Request) : res cdc_error unit * dstate :=
  match sink_requests s st reqs with
  | (Ok _, st) =>
      let '(d, chs) := maybe_flush_pcr_batcher (ds_delegate st) (ds_channels st) now in
      let '(d, chs) := force_flush d chs now in
      (ticdc_sink, {| ds_delegate := d; ds_channels := chs; ds_cache := ds_cache st |})
  | r => r
  end.

Inductive AdminCmd : Type :=
| AcSplit (left_id right_id : u64) (right_start_key : bytes)
| AcBatchSplit (regions : list (u64 * bytes))
| AcMerge
| AcOther.

Definition sink_admin (st : dstate) (cmd : AdminCmd) : res cdc_error unit * dstate :=
  let emit split_key ids := ds_send (emit_pcr_split (ds_delegate st) (ds_channels st) split_key ids) st in
  match cmd with
  | AcSplit left_id right_id right_start_key => (Err RegionError, emit right_start_key [left_id; right_id])
  | AcBatchSplit regions => (Err RegionError, emit (default [] (snd <$> head regions)) regions.*1)
  | AcMerge => (Err RegionError, st)
  | AcOther => (Ok tt, st)
  end.

Inductive Cmd : Type :=
| CmdError
| CmdData (requests : list Request)
| CmdAdmin (cmd : AdminCmd).

Fixpoint sink_cmds (s : Snap) (now : Z) (st : dstate) (cmds : list Cmd) : res cdc_error unit * dstate :=
  match cmds with
  | [] => (Ok tt, st)
  | cmd :: cmds =>
      match match cmd with
            | CmdError => (Err RegionError, st)
            | CmdData reqs => sink_data s now st reqs
            | CmdAdmin a => sink_admin st a
            end with
      | (Ok _, st) => sink_cmds s now st cmds
      | r => r
      end
  end.

(** [stale]: the batch is of an earlier observation of the region. *)
Definition on_batch (s : Snap) (now : Z) (st : dstate) (stale : bool) (cmds : list Cmd)
    (delete_ranges : list (bytes * bytes)) : res cdc_error unit * dstate :=
  if stale then (Ok tt, st)
  else
    match sink_cmds s now st cmds with
    | (Ok _, st) =>
        let st := foldl (fun st '(start_key, end_key) => sink_delete_range st start_key end_key) st delete_ranges in
        (Ok tt, ds_set (dg_set_default_keys (ds_delegate st) ∅) st)
    | r => r
    end.

End Commands.

(** The end of [Delegate::on_min_ts]; without a prepared tracker it returns
    before. *)
Definition delegate_on_min_ts `{PcrWire} (d : Delegate) (chs : Channels) (now : Z) : Delegate * Channels :=
  match dg_lock_tracker d with
  | LtrPrepared _ _ => maybe_flush_pcr_batcher d chs now
  | _ => (d, chs)
  end.

(** ** [pcr_registry.rs] *)

Record SpanSubscription : Type := {
  ss_start_key : bytes;
  ss_end_key : bytes;
  ss_sink : nat;
  ss_event_buffer_size : Z;
  ss_event_flush_interval_ms : u64
}.

Abbreviation PcrRegistry := (list SpanSubscription).

Definition subscription_matches (r_start r_end : bytes) (sub : SpanSubscription) : bool :=
  let left := bool_decide (ss_start_key sub = []) || bool_decide (r_end = [])
              || bytes_ltb (ss_start_key sub) r_end in
  let right := bool_decide (ss_end_key sub = []) || bool_decide (r_start = [])
               || bytes_ltb r_start (ss_end_key sub) in
  left && right.

Fixpoint match_region (registry : PcrRegistry) (r_start r_end : bytes) : option (nat * Z * u64) :=
  match registry with
  | [] => None
  | sub :: registry =>
      if subscription_matches r_start r_end sub
      then Some (ss_sink sub, ss_event_buffer_size sub, ss_event_flush_interval_ms sub)
      else match_region registry r_start r_end
  end.

(** ** The endpoint *)

Record Endpoint : Type := {
  ep_capture_regions : gmap Z Delegate;
  ep_pcr_registry : PcrRegistry;
  ep_pcr_resolved_ts : u64
}.

Definition ep_set_regions (ep : Endpoint) (m : gmap Z Delegate) : Endpoint :=
  {| ep_capture_regions := m; ep_pcr_registry := ep_pcr_registry ep; ep_pcr_resolved_ts := ep_pcr_resolved_ts ep |}.

Definition auto_match_pcr (d : Delegate) (registry : PcrRegistry) (r_start r_end : bytes) (now : Z) : Delegate :=
  match match_region registry r_start r_end with
  | Some (sink, buf_size, flush_ms) => enable_pcr d sink buf_size flush_ms now
  | None => d
  end.

(** [known]: the store has a reader for the region; [region]: the key range the
    placement driver gives, if it answers. *)
Definition on_start_pcr_stream (ep : Endpoint) (region_id : u64) (event_sink : nat) (buf_size flush_ms now : Z)
    (known : bool) (region : option (bytes * bytes)) : Endpoint :=
  let attach d :=
    let '(r_start, r_end) := default ([], []) region in
    let d := auto_match_pcr d (ep_pcr_registry ep) r_start r_end now in
    let d := if negb (has_pcr d) then enable_pcr d event_sink buf_size flush_ms now else d in
    ep_set_regions ep (<[region_id := d]> (ep_capture_regions ep)) in
  match ep_capture_regions ep !! region_id with
  | Some d => attach d
  | None => if known then attach (Delegate_new region_id) else ep
  end.

Definition register_span_subscription (ep : Endpoint) (sub : SpanSubscription) (now : Z) : Endpoint :=
  let has_sub := bool_decide (is_Some (match_region (ep_pcr_registry ep) [] [])) in
  {| ep_capture_regions :=
       if has_sub
       then (fun d => enable_pcr d (ss_sink sub) (ss_event_buffer_size sub) (ss_event_flush_interval_ms sub) now)
            <$> ep_capture_regions ep
       else ep_capture_regions ep;
     ep_pcr_registry := [sub];
     ep_pcr_resolved_ts := ep_pcr_resolved_ts ep |}.

Definition min_ts_region `{PcrWire} (now : Z) (x : gmap Z Delegate * Channels) (region_id : u64)
    : gmap Z Delegate * Channels :=
  let '(m, chs) := x in
  match m !! region_id with
  | Some d => let '(d, chs) := delegate_on_min_ts d chs now in (<[region_id := d]> m, chs)
  | None => (m, chs)
  end.

(** The part of [Endpoint::on_min_ts] for replication. *)
Definition on_min_ts `{PcrWire} (ep : Endpoint) (chs : Channels) (regions : list u64) (current_ts : TimeStamp) (now : Z)
    : Endpoint * Channels :=
  let '(m, chs) := foldl (min_ts_region now) (ep_capture_regions ep, chs) regions in
  ({| ep_capture_regions := m; ep_pcr_registry := ep_pcr_registry ep; ep_pcr_resolved_ts := current_ts |}, chs).

(** The tick of a bridge: the checkpoint it sends for the regions it knows. *)
Definition checkpoint_tick (ep : Endpoint) (region_ids : list u64) : option PcrMsg :=
  if 0 <? ep_pcr_resolved_ts ep then Some (PcrMsg_of (PlCheckpoint (ep_pcr_resolved_ts ep) region_ids)) else None.

(** ** The batcher *)

Definition kv_size (kv : PcrKv) : Z := zlen (pk_key kv) + zlen (pk_value kv).
Definition kvs_size (kvs : list PcrKv) : Z := foldr (fun kv n => kv_size kv + n) 0 kvs.

Definition eb_adds (b : PcrEventBatcher) (kvs : list PcrKv) : PcrEventBatcher :=
  foldl (fun b kv => eb_add_kv b (pk_key kv) (pk_value kv) (pk_op kv) (pk_cf kv)) b kvs.

(** The size is that of the batch. *)
Definition eb_ok (b : PcrEventBatcher) : Prop := eb_size b = kvs_size (eb_batch b).

Lemma kvs_size_app l k : kvs_size (l ++ k) = kvs_size l + kvs_size k.
Proof. unfold kvs_size. induction l as [|kv l IH]; cbn; [done|]. rewrite IH. lia. Qed.

Lemma eb_add_kv_ok b key value op cf : eb_ok b -> eb_ok (eb_add_kv b key value op cf).
Proof. unfold eb_ok. cbn [eb_add_kv eb_size eb_batch]. intros ->. rewrite kvs_size_app. cbn. unfold kv_size. cbn. lia. Qed.

Lemma eb_adds_batch b kvs : eb_batch (eb_adds b kvs) = eb_batch b ++ kvs.
Proof.
  revert b. induction kvs as [|[k v o c] kvs IH]; intros b; cbn; [by rewrite app_nil_r|].
  rewrite IH. cbn. by rewrite <-(assoc_L app).
Qed.

Lemma eb_adds_ok b kvs : eb_ok b -> eb_ok (eb_adds b kvs).
Proof. revert b. induction kvs as [|kv kvs IH]; intros b Hb; cbn; [done|]. by apply IH, eb_add_kv_ok. Qed.

Lemma eb_adds_app b l k : eb_adds b (l ++ k) = eb_adds (eb_adds b l) k.
Proof. apply foldl_app. Qed.

Lemma kv_size_nonneg kv : 0 <= kv_size kv.
Proof. unfold kv_size, zlen. lia. Qed.

Lemma kvs_size_nonneg l : 0 <= kvs_size l.
Proof. unfold kvs_size. induction l as [|kv l IH]; cbn; [done|]. pose proof (kv_size_nonneg kv). lia. Qed.

Lemma kvs_size_pos l : Forall (fun kv => pk_key kv <> []) l -> l <> [] -> 0 < kvs_size l.
Proof.
  intros Hl Hne. destruct l as [|kv l]; [done|]. inversion Hl as [|? ? Hk _].
  pose proof (kvs_size_nonneg l) as Hn. change (kvs_size (kv :: l)) with (kv_size kv + kvs_size l).
  assert (0 < kv_size kv); [|lia]. unfold kv_size, zlen. destruct (pk_key kv); [done|]. cbn. lia.
Qed.

Inductive eb_op : Type :=
| EoAdd (kv : PcrKv)
| EoFlush (now : Z).

Section Batcher.
Context `{PcrWire}.

(** A run of the batcher, with the data its flushes return. *)
Fixpoint eb_run (b : PcrEventBatcher) (ops : list eb_op) : list bytes * PcrEventBatcher :=
  match ops with
  | [] => ([], b)
  | EoAdd kv :: ops => eb_run (eb_add_kv b (pk_key kv) (pk_value kv) (pk_op kv) (pk_cf kv)) ops
  | EoFlush now :: ops =>
      let '(data, b) := eb_flush b now in
      let '(out, b) := eb_run b ops in
      (match data with Some data => data :: out | None => out end, b)
  end.

Definition added (ops : list eb_op) : list PcrKv :=
  omap (fun o => match o with EoAdd kv => Some kv | EoFlush _ => None end) ops.

Definition msg_kvs (m : PcrMsg) : list PcrKv :=
  match pm_event m with Some (PlKvBatch kvs) => kvs | _ => [] end.

(** The messages numbered from [n + 1] on. *)
Definition numbered (n : Z) (msgs : list PcrMsg) : Prop :=
  forall i m, msgs !! i = Some m -> pm_stream_seq m = as_u64 (n + 1 + Z.of_nat i).

Lemma eb_flush_spec b now : PcrWireLaws -> eb_ok b ->
  let '(data, b') := eb_flush b now in
  eb_batch b' = [] /\ eb_ok b'
  /\ match eb_batch b with
     | [] => data = None /\ b' = b
     | _ => exists d, data = Some d /\ eb_seq_num b' = as_u64 (eb_seq_num b + 1)
         /\ parse_from_bytes d = Some {| pm_stream_seq := as_u64 (eb_seq_num b + 1);
                                         pm_event := Some (PlKvBatch (eb_batch b)); pm_is_snapshot := false |}
     end.
Proof.
  intros HL Hb. unfold eb_flush. destruct (eb_batch b) as [|kv kvs] eqn:E; [done|].
  match goal with |- context [write_to_bytes ?m] => destruct (write_total m) as [d Hd] end.
  split_and!; [done|done|]. exists d. split_and!; [done|done|]. by apply parse_write.
Qed.

Lemma as_u64_add a b : as_u64 (as_u64 a + b) = as_u64 (a + b).
Proof. unfold as_u64. by rewrite Z.add_mod_idemp_l by lia. Qed.

Lemma eb_run_spec : PcrWireLaws -> forall ops b n, eb_ok b -> eb_seq_num b = as_u64 n ->
  exists msgs, parse_from_bytes <$> (eb_run b ops).1 = Some <$> msgs
    /\ concat (map msg_kvs msgs) ++ eb_batch (eb_run b ops).2 = eb_batch b ++ added ops
    /\ numbered n msgs /\ eb_ok (eb_run b ops).2.
Proof.
  intros HL. induction ops as [|[kv|now] ops IH]; intros b n Hb Hn; cbn [eb_run].
  - exists []. cbn. split_and!; [done|by rewrite app_nil_r|done|done].
  - destruct (IH (eb_add_kv b (pk_key kv) (pk_value kv) (pk_op kv) (pk_cf kv)) n) as (msgs & H1 & H2 & H3 & H4);
      [by apply eb_add_kv_ok|done|]. exists msgs. split_and!; [done| |done|done].
    rewrite H2. cbn. destruct kv. by rewrite <-(assoc_L app).
  - pose proof (eb_flush_spec b now HL Hb) as Hf. destruct (eb_flush b now) as [data b'].
    destruct Hf as (Hb' & Hok & Hf). destruct (eb_batch b) as [|kv kvs] eqn:E.
    + destruct Hf as [-> ->]. destruct (IH b n Hb Hn) as (msgs & H1 & H2 & H3 & H4). rewrite E in H2.
      destruct (eb_run b ops) as [out b2]. by exists msgs.
    + destruct Hf as (d & -> & Hs & Hp).
      destruct (IH b' (n + 1)) as (msgs & H1 & H2 & H3 & H4); [done|by rewrite Hs, Hn, as_u64_add|].
      destruct (eb_run b' ops) as [out b2]. cbn in *. rewrite Hb' in H2. eexists (_ :: msgs). cbn. split_and!.
      * by rewrite Hp, H1.
      * rewrite <-(assoc_L app), H2. done.
      * intros [|i] m; cbn; [intros [= <-]; cbn; rewrite Hn, as_u64_add; f_equal; lia|].
        intros Hm%H3. rewrite Hm. f_equal. lia.
      * done.
Qed.

End Batcher.

(** C29. The event batcher of a delegate loses, duplicates and reorders nothing:
    whatever pairs are added and whenever it is flushed, the pairs of the messages
    it returned, parsed back from their bytes, followed by those still buffered,
    are the pairs added, in order; the messages are numbered 1, 2, 3, ... and the
    size it reports is that of the buffered pairs. *)
Theorem batcher_lossless `{PcrWireLaws} size interval now ops :
  let '(out, b) := eb_run (PcrEventBatcher_new size interval now) ops in
  exists msgs, parse_from_bytes <$> out = Some <$> msgs
    /\ concat (map msg_kvs msgs) ++ eb_batch b = added ops
    /\ numbered 0 msgs /\ eb_size b = kvs_size (eb_batch b).
Proof.
  destruct (eb_run_spec _ ops (PcrEventBatcher_new size interval now) 0) as (msgs & H1 & H2 & H3 & H4); [done|done|].
  destruct (eb_run _ ops) as [out b]. exists msgs. split_and!; [done|done|done|done].
Qed.

(** ** Subscriptions *)

(** A key of the range from [s] to [e], where an empty [e] is no bound. *)
Definition in_span (s e k : bytes) : bool := bytes_leb s k && (bool_decide (e = []) || bytes_ltb k e).

Definition span_ok (s e : bytes) : Prop := e = [] \/ bytes_ltb s e = true.

Definition bytes_max (a b : bytes) : bytes := if bytes_leb a b then b else a.

Lemma bytes_max_l a b : bytes_leb a (bytes_max a b) = true.
Proof. unfold bytes_max. destruct (bytes_leb a b) eqn:E; [done|]. apply bytes_leb_lt_or_eq. by right. Qed.

Lemma bytes_max_r a b : bytes_leb b (bytes_max a b) = true.
Proof.
  unfold bytes_max. destruct (bytes_leb a b) eqn:E; [apply bytes_leb_lt_or_eq; by right|].
  destruct (bytes_leb_total a b); congruence.
Qed.

Lemma bytes_ltb_nil_l a : a <> [] -> bytes_ltb [] a = true.
Proof. by destruct a. Qed.

Lemma subscription_matches_spec sub s e : span_ok (ss_start_key sub) (ss_end_key sub) -> span_ok s e ->
  subscription_matches s e sub = true <->
  exists k, in_span (ss_start_key sub) (ss_end_key sub) k = true /\ in_span s e k = true.
Proof.
  intros Hsub Hse. unfold subscription_matches, in_span. rewrite andb_true_iff, !orb_true_iff, !bool_decide_eq_true.
  setoid_rewrite andb_true_iff. setoid_rewrite orb_true_iff. setoid_rewrite bool_decide_eq_true. split.
  - intros [H1 H2]. exists (bytes_max (ss_start_key sub) s). split_and!; [apply bytes_max_l| |apply bytes_max_r|].
    + unfold bytes_max. destruct (bytes_leb _ _) eqn:E; [|tauto].
      destruct (decide (ss_end_key sub = [])); [by left|right].
      destruct H2 as [[?| ->]|?]; [done| |done]. by apply bytes_ltb_nil_l.
    + unfold bytes_max. destruct (bytes_leb _ _) eqn:E; [tauto|].
      destruct (decide (e = [])) as [|He]; [by left|right].
      destruct H1 as [[Hs| ?]|?]; [|done|done]. rewrite Hs. by apply bytes_ltb_nil_l.
  - intros (k & [Hs1 Hs2] & Hk1 & Hk2). split.
    + destruct (decide (e = [])) as [|He]; [by left; right|]. right.
      destruct Hk2 as [?|Hk2]; [done|]. by eapply bytes_leb_ltb_trans.
    + destruct (decide (ss_end_key sub = [])) as [|He]; [by left; left|]. right.
      destruct Hs2 as [?|Hs2]; [done|]. by eapply bytes_leb_ltb_trans.
Qed.

Lemma match_region_some registry s e :
  is_Some (match_region registry s e) <-> exists sub, sub ∈ registry /\ subscription_matches s e sub = true.
Proof.
  induction registry as [|sub registry IH]; cbn.
  { split; [by intros [? ?]|]. by intros (? & []%not_elem_of_nil & _). }
  destruct (subscription_matches s e sub) eqn:E.
  - split; [|by eexists]. intros _. exists sub. split; [apply list_elem_of_here|done].
  - rewrite IH. split.
    + intros (sub' & Hin & Hm). exists sub'. split; [by apply list_elem_of_further|done].
    + intros (sub' & [->|Hin]%elem_of_cons & Hm); [congruence|by exists sub'].
Qed.

(** [PcrRegistry::match_region] attaches a region exactly when some key lies
    both in the region and in a subscribed span, for proper ranges, an empty end
    key being no bound. *)
Theorem match_region_overlap registry s e :
  Forall (fun sub => span_ok (ss_start_key sub) (ss_end_key sub)) registry -> span_ok s e ->
  is_Some (match_region registry s e) <->
  exists sub k, sub ∈ registry /\ in_span (ss_start_key sub) (ss_end_key sub) k = true /\ in_span s e k = true.
Proof.
  rewrite Forall_forall. setoid_rewrite <-list_elem_of_In. intros Hreg Hse. rewrite match_region_some. split.
  - intros (sub & Hin & Hm). destruct (proj1 (subscription_matches_spec sub s e (Hreg sub Hin) Hse) Hm) as (k & H1 & H2).
    by exists sub, k.
  - intros (sub & k & Hin & H1 & H2). exists sub. split; [done|]. apply subscription_matches_spec; [by apply Hreg|done|by exists k].
Qed.

Lemma match_region_whole registry : is_Some (match_region registry [] []) <-> registry <> [].
Proof.
  rewrite match_region_some. split; [by intros (sub & Hin & _) ->; apply not_elem_of_nil in Hin|].
  destruct registry as [|sub registry]; [done|]. intros _. exists sub. split; [apply list_elem_of_here|].
  unfold subscription_matches. by rewrite !(bool_decide_eq_true_2 ([] = [])), !orb_true_r.
Qed.

(** Registering a span while the registry is empty attaches no delegate that
    exists, whatever its region: the existing registry is consulted, not the new
    subscription.  A later registration attaches every delegate, also of regions
    outside the span, and resets its lock tracker. *)
Theorem first_subscription_attaches_none ep sub now :
  (ep_pcr_registry ep = [] ->
   ep_capture_regions (register_span_subscription ep sub now) = ep_capture_regions ep)
  /\ (ep_pcr_registry ep <> [] -> forall id d, ep_capture_regions ep !! id = Some d ->
      exists d', ep_capture_regions (register_span_subscription ep sub now) !! id = Some d'
        /\ dg_sink d' = Some (ss_sink sub) /\ dg_lock_tracker d' = LtrPrepared Region_default ∅)
  /\ ep_pcr_registry (register_span_subscription ep sub now) = [sub].
Proof.
  unfold register_span_subscription. cbn [ep_capture_regions ep_pcr_registry]. split_and!; [| |done].
  - intros ->. done.
  - intros Hne id d Hd. rewrite bool_decide_eq_true_2 by by apply match_region_whole.
    rewrite lookup_fmap, Hd. cbn. by eexists.
Qed.

(** ** Lock tracking *)

(** What happens to the tracker of a delegate between its creation and the end
    of a lock scan. *)
Inductive tracker_step : LockTracker -> LockTracker -> Prop :=
| TsPush tr key lock alloc : tracker_step tr (push_lock tr key lock alloc).2
| TsPop tr key ts alloc : tracker_step tr (pop_lock tr key ts alloc).2
| TsInit tr : tracker_step tr (init_lock_tracker tr).2
| TsEnable d sink size interval now : tracker_step (dg_lock_tracker d) (dg_lock_tracker (enable_pcr d sink size interval now)).

Lemma tracker_step_not_pending tr tr' : tracker_step tr tr' -> tr <> LtrPending -> tr' <> LtrPending.
Proof.
  destruct 1 as [tr key lock alloc|tr key ts alloc|tr|d sink size interval now]; intros Hp; [| | |done].
  - destruct tr as [|l|r l]; cbn; [done|by destruct alloc|].
    destruct (l !! key) as [old|]; [|done]. by destruct (_ =? _).
  - destruct tr as [|l|r l]; cbn; [done|by destruct alloc|].
    destruct (l !! key) as [old|]; [|done]. by destruct (_ =? _).
  - by destruct tr.
Qed.

(** A delegate starts with a tracker that is already collecting changes, so
    [init_lock_tracker] always returns false and the scan of the locks that
    exist when a TiCDC downstream registers is never requested; and once
    replication is enabled, finishing such a scan would panic, and the locks
    tracked before are forgotten. *)
Theorem lock_scan_never_requested region_id tr :
  rtc tracker_step (dg_lock_tracker (Delegate_new region_id)) tr ->
  (init_lock_tracker tr).1 = false
  /\ forall d sink size interval now region locks alloc,
       dg_lock_tracker (enable_pcr d sink size interval now) = LtrPrepared Region_default ∅
       /\ (finish_prepare_lock_tracker (dg_lock_tracker (enable_pcr d sink size interval now)) region locks alloc).1
          = Panic.
Proof.
  intros Hr. split; [|done].
  assert (H0 : dg_lock_tracker (Delegate_new region_id) <> LtrPending) by done.
  revert Hr H0. generalize (dg_lock_tracker (Delegate_new region_id)). intros tr0 Hr.
  induction Hr as [tr|tr1 tr2 tr3 Hs _ IH]; intros H0; [by destruct tr|].
  apply IH. by eapply tracker_step_not_pending.
Qed.

(** ** What reaches the target *)

(** The changes that a transaction makes to a key, as puts of the command. *)
Inductive change : Type :=
| ChWrite (k : bytes) (commit_ts : TimeStamp) (w : Write)
| ChDefault (k : bytes) (start_ts : TimeStamp) (v : bytes)
| ChLock (k v : bytes).

Definition to_request (c : change) : Request :=
  match c with
  | ChWrite k commit_ts w => RqPut "write" (Key_append_ts k commit_ts) (WriteRef_to_bytes w)
  | ChDefault k start_ts v => RqPut "default" (Key_append_ts k start_ts) v
  | ChLock k v => RqPut "lock" k v
  end.

Definition txn_key (k : bytes) : Prop := bytes_ok k /\ match k with [] => False | c :: _ => c <> 114 end.

Definition change_ok (c : change) : Prop :=
  match c with
  | ChWrite k commit_ts w => txn_key k /\ u64_ok commit_ts /\ write_ok w
  | ChDefault k _ _ | ChLock k _ => txn_key k
  end.

Definition default_kv (k : bytes) (start_ts : TimeStamp) (v : bytes) (op : OpType) : PcrKv :=
  {| pk_key := data_key (Key_append_ts k start_ts); pk_value := v; pk_op := op; pk_cf := "default" |}.
Definition write_kv (k : bytes) (commit_ts : TimeStamp) (w : Write) : PcrKv :=
  {| pk_key := data_key (Key_append_ts k commit_ts); pk_value := WriteRef_to_bytes w; pk_op := OtPut; pk_cf := "write" |}.

(** The pairs that are sent for a change. *)
Definition change_kvs (c : change) : list PcrKv :=
  match c with
  | ChWrite k commit_ts w =>
      match w_write_type w with
      | WtPut => [default_kv k (w_start_ts w) (default [] (w_short_value w)) OtPut; write_kv k commit_ts w]
      | WtDelete => [default_kv k (w_start_ts w) [] OtDelete; write_kv k commit_ts w]
      | WtRollback => []
      | WtLock => [write_kv k commit_ts w;
                   default_kv k (be_varint 0 (tail (WriteRef_to_bytes w))) (WriteRef_to_bytes w) OtPut]
      end
  | ChDefault k start_ts v => [default_kv k start_ts v OtPut]
  | ChLock _ _ => []
  end.

Lemma from_write_cf_record k commit_ts w : u64_ok commit_ts -> write_ok w ->
  from_write_cf (Key_append_ts k commit_ts) (WriteRef_to_bytes w) =
  Ok match w_write_type w with
     | WtPut => Some (LmPut (data_key (Key_append_ts k (w_start_ts w))) (Key_append_ts k commit_ts)
                        (w_start_ts w) commit_ts (w_short_value w))
     | WtDelete => Some (LmDelete (data_key (Key_append_ts k (w_start_ts w))) (Key_append_ts k commit_ts)
                           (w_start_ts w) commit_ts)
     | WtRollback => Some (LmRollback (data_key (Key_append_ts k (w_start_ts w))) (Key_append_ts k commit_ts)
                             (w_start_ts w))
     | WtLock => None
     end.
Proof.
  intros Hc Hw. unfold from_write_cf. rewrite write_roundtrip by done. cbn [ok_ mbind res_bind].
  rewrite Key_decode_append by done. cbn [ok_ mbind res_bind].
  pose proof (Key_truncate_append k commit_ts) as Ht. unfold Key_truncate_ts in Ht. unfold Key_truncate_ts_for.
  rewrite Ht. done.
Qed.

Section Replicated.
Context {Snap : Type} `{EngineSnapshotLaws Snap}.

(** No key of the source's key space begins with the prefix of the data keys of
    the engine: those of TiDB begin with [m] or [t]. *)
Definition no_data_prefix (s : Snap) (cache : OldValueCache) : Prop :=
  (forall k, is_Some (get_cf s CF_WRITE k) -> bytes_ok k /\ head k <> Some DATA_PREFIX)
  /\ (forall k, is_Some (cache !! k) -> head k <> Some DATA_PREFIX).

Lemma user_key_eq_head k uk x : bytes_ok k -> bytes_ok (x :: uk) ->
  Key_is_user_key_eq k (x :: uk) = true -> head k = Some x.
Proof. intros Hk Hu Heq. apply Key_is_user_key_eq_spec in Heq as [_ Ht]; [|done|done]. destruct k; [done|]. by injection Ht as ->. Qed.

(** The old value asked for under a data key is never found. *)
Lemma old_value_none s cache k start_ts ts : no_data_prefix s cache -> bytes_ok k -> u64_ok ts ->
  cdc_get_old_value s (data_key (Key_append_ts k start_ts)) ts cache = (Ok None, cache).
Proof.
  intros [Hs Hc] Hk Hts. unfold cdc_get_old_value.
  destruct (cache !! data_key (Key_append_ts k start_ts)) eqn:E; [by destruct (Hc _ (mk_is_Some _ _ E))|].
  change (data_key (Key_append_ts k start_ts)) with (Key_append_ts (data_key k) start_ts).
  rewrite Key_truncate_append. cbn [unwrap_ok mbind res_bind]. f_equal. unfold near_seek_old_value.
  rewrite Key_split_append by done. cbn [unwrap_ok mbind res_bind].
  unfold write_cursor_seek. pose proof (seek_cf_spec s CF_WRITE (Key_append_ts (data_key k) ts)) as Hseek.
  destruct (seek_cf s CF_WRITE _) as [[k' v']|]; [|done]. destruct (bytes_ltb k' _); [|done].
  destruct Hseek as (Hg & _ & _). destruct (Hs k' (mk_is_Some _ _ Hg)) as [Hk' Hh].
  cbn [near_seek_old_value_loop]. destruct (Key_is_user_key_eq k' (data_key k)) eqn:Eq; [|done].
  destruct Hh. eapply user_key_eq_head; [done| |exact Eq]. by constructor.
Qed.

Lemma txn_key_append k ts : txn_key k -> parse_key_mode (Key_append_ts k ts) <> KmRaw.
Proof.
  intros [_ Hk]. destruct k as [|c k]; [done|]. cbn. destruct (Z.eqb_spec c 114); [done|].
  destruct (c =? 120); [done|]. by destruct (_ || _).
Qed.

Lemma write_fallback_lock b k commit_ts w : w_write_type w = WtLock ->
  write_fallback b (Key_append_ts k commit_ts) (WriteRef_to_bytes w) =
  eb_adds b [write_kv k commit_ts w;
             default_kv k (be_varint 0 (tail (WriteRef_to_bytes w))) (WriteRef_to_bytes w) OtPut].
Proof.
  intros Hw. unfold write_fallback.
  assert (Hb : WriteRef_to_bytes w = 76 :: tail (WriteRef_to_bytes w)).
  { unfold WriteRef_to_bytes. by rewrite Hw. }
  assert (Hl : (8 <=? length (Key_append_ts k commit_ts))%nat = true).
  { rewrite Key_append_ts_length. apply Nat.leb_le. lia. }
  assert (Ht : take (length (Key_append_ts k commit_ts) - 8) (Key_append_ts k commit_ts) = k).
  { rewrite Key_append_ts_length. replace (length k + 8 - 8)%nat with (length k) by lia.
    unfold Key_append_ts. by rewrite take_app_length. }
  unfold write_kv. destruct (WriteRef_to_bytes w) as [|x rest]; [done|]. injection Hb as ->.
  rewrite Hl, Ht. done.
Qed.

Lemma pcr_write_put_change s b cache k commit_ts w : no_data_prefix s cache ->
  txn_key k -> u64_ok commit_ts -> write_ok w ->
  pcr_write_put s ∅ b cache (Key_append_ts k commit_ts) (WriteRef_to_bytes w) =
  Ok (eb_adds b (change_kvs (ChWrite k commit_ts w)), cache).
Proof.
  intros Hs [Hk _] Hc Hw. unfold pcr_write_put. rewrite from_write_cf_record by done. cbn [mbind res_bind].
  cbn [change_kvs]. destruct (w_write_type w) eqn:Et; cbn [mbind res_bind].
  - rewrite bool_decide_eq_false_2 by set_solver. destruct (w_short_value w) as [v|]; [done|].
    rewrite old_value_none by (try done; apply Hw). done.
  - done.
  - by rewrite write_fallback_lock.
  - done.
Qed.

Lemma pcr_put_change s d b cache c : no_data_prefix s cache -> change_ok c ->
  dg_batcher d = Some b -> dg_cf_default_keys d = ∅ ->
  let '(cf, key, value) := match to_request c with RqPut cf key value => (cf, key, value) | _ => (EmptyString, [], []) end in
  exists d', pcr_put s d cache cf key value = Ok (d', cache) /\ dg_batcher d' = Some (eb_adds b (change_kvs c))
    /\ dg_cf_default_keys d' = ∅ /\ dg_sink d' = dg_sink d.
Proof.
  intros Hs Hok Hb Hd.
  assert (Hput : forall cf key value, parse_key_mode key <> KmRaw ->
    pcr_put s d cache cf key value = pcr_txn_put s d cache cf key value).
  { intros cf key value Hm. unfold pcr_put. by destruct (parse_key_mode key). }
  destruct c as [k commit_ts w|k start_ts v|k v]; cbn [to_request].
  - destruct Hok as (Hk & Hc & Hw). rewrite Hput by by apply txn_key_append. unfold pcr_txn_put. rewrite Hb, Hd.
    rewrite !bool_decide_eq_false_2, bool_decide_eq_true_2 by done.
    rewrite pcr_write_put_change by done. cbn [mbind res_bind]. by eexists.
  - rewrite Hput by by apply txn_key_append. unfold pcr_txn_put. rewrite Hb.
    rewrite !bool_decide_eq_false_2 by done. by eexists.
  - exists d. split_and!; [|by rewrite Hb|done|done]. rewrite Hput.
    + unfold pcr_txn_put. rewrite Hb. by rewrite bool_decide_eq_true_2.
    + pose proof (txn_key_append k 0 Hok) as Hm. by destruct k.
Qed.

Context `{PcrWireLaws}.
Context (ticdc_put : LockTracker -> string -> bytes -> bytes -> res cdc_error unit * LockTracker).

(** The TiCDC half of the handler accepts the puts. *)
Definition ticdc_accepts : Prop := forall tr cf key value, (ticdc_put tr cf key value).1 = Ok tt.

Lemma sink_requests_changes s : ticdc_accepts -> forall changes st b, no_data_prefix s (ds_cache st) ->
  Forall change_ok changes -> dg_batcher (ds_delegate st) = Some b -> dg_cf_default_keys (ds_delegate st) = ∅ ->
  exists st', sink_requests ticdc_put s st (map to_request changes) = (Ok tt, st')
    /\ dg_batcher (ds_delegate st') = Some (eb_adds b (concat (map change_kvs changes)))
    /\ dg_cf_default_keys (ds_delegate st') = ∅ /\ dg_sink (ds_delegate st') = dg_sink (ds_delegate st)
    /\ ds_channels st' = ds_channels st /\ ds_cache st' = ds_cache st.
Proof.
  intros Hti. induction changes as [|c changes IH]; intros st b Hs Hok Hb Hd.
  { exists st. cbn. by rewrite Hb. }
  apply Forall_cons_1 in Hok as [Hc Hok].
  pose proof (pcr_put_change s (ds_delegate st) b (ds_cache st) c Hs Hc Hb Hd) as Hp.
  assert (exists cf key value, to_request c = RqPut cf key value) as (cf & key & value & Hreq)
    by (destruct c; cbn; eauto).
  rewrite Hreq in Hp. destruct Hp as (d' & Hput & Hb' & Hd' & Hsink).
  cbn [map sink_requests]. rewrite Hreq. cbn [sink_request]. unfold sink_put. rewrite Hput.
  pose proof (Hti (dg_lock_tracker d') cf key value) as Ht.
  destruct (ticdc_put (dg_lock_tracker d') cf key value) as [r tr]. cbn in Ht. subst r.
  destruct (IH {| ds_delegate := dg_set_lock_tracker d' tr; ds_channels := ds_channels st; ds_cache := ds_cache st |}
              (eb_adds b (change_kvs c)) Hs Hok Hb' Hd') as (st' & Hrun & G1 & G2 & G3 & G4 & G5).
  exists st'. split_and!; [exact Hrun| |done|rewrite G3; exact Hsink|done|done].
  rewrite G1. cbn [map concat]. by rewrite eb_adds_app.
Qed.

(** The receiver of a channel replays what was sent. *)
Definition replay (data : list bytes) (v : View) : View :=
  foldl (fun v d => match parse_from_bytes d with Some m => view_event v (to_event m) | None => v end) v data.

Definition kv_put (kv : PcrKv) : MvccKeyValue :=
  {| kv_key := pk_key kv; kv_value := pk_value kv; kv_cf := pk_cf kv |}.

Lemma change_kvs_keys c : Forall (fun kv => pk_key kv <> [] /\ pk_cf kv <> EmptyString) (change_kvs c).
Proof.
  destruct c as [k c w|k s v|k v]; cbn [change_kvs]; [destruct (w_write_type w)|..]; repeat constructor; done.
Qed.

Lemma changes_kvs_keys changes :
  Forall (fun kv => pk_key kv <> [] /\ pk_cf kv <> EmptyString) (concat (map change_kvs changes)).
Proof. induction changes; cbn; [constructor|]. apply Forall_app. split; [apply change_kvs_keys|done]. Qed.

(** The two flushes at the end of a command send the whole batch. *)
Lemma flush_all d chs now b : dg_batcher d = Some b -> eb_ok b ->
  Forall (fun kv => pk_key kv <> []) (eb_batch b) ->
  let '(d1, chs1) := maybe_flush_pcr_batcher d chs now in
  let '(d2, chs2) := force_flush d1 chs1 now in
  (exists b2, dg_batcher d2 = Some b2 /\ eb_batch b2 = [] /\ eb_ok b2)
  /\ dg_sink d2 = dg_sink d /\ dg_cf_default_keys d2 = dg_cf_default_keys d
  /\ ((eb_batch b = [] /\ chs2 = chs)
      \/ exists data seq, chs2 = emit_pcr_event d chs data
         /\ parse_from_bytes data =
            Some {| pm_stream_seq := seq; pm_event := Some (PlKvBatch (eb_batch b)); pm_is_snapshot := false |}).
Proof.
  intros Hb Hok Hkeys. unfold maybe_flush_pcr_batcher. rewrite Hb.
  pose proof (eb_flush_spec b now _ Hok) as Hf. destruct (eb_flush b now) as [data b'] eqn:Ef.
  destruct Hf as (Hb' & Hok' & Hf).
  assert (Hd : force_flush (dg_set_batcher d b') (emit_opt d chs data) now = (dg_set_batcher d b', emit_opt d chs data)).
  { unfold force_flush. cbn [dg_set_batcher dg_batcher]. unfold eb_ok in Hok'. rewrite Hok', Hb'. done. }
  assert (Hout : (eb_batch b = [] /\ emit_opt d chs data = chs)
    \/ exists data' seq, emit_opt d chs data = emit_pcr_event d chs data'
         /\ parse_from_bytes data' =
            Some {| pm_stream_seq := seq; pm_event := Some (PlKvBatch (eb_batch b)); pm_is_snapshot := false |}).
  { destruct (eb_batch b); [left; by destruct Hf as [-> _]|right]. destruct Hf as (dd & -> & _ & Hp). by eauto. }
  destruct (eb_should_flush b now); [rewrite Hd; split_and!; [by exists b'|done|done|done]|].
  unfold force_flush. rewrite Hb. destruct (Z.ltb_spec 0 (eb_size b)) as [|Hs].
  - rewrite Ef. split_and!; [by exists b'|done|done|done].
  - assert (He : eb_batch b = []).
    { destruct (eb_batch b) as [|kv l] eqn:E; [done|]. unfold eb_ok in Hok. rewrite Hok, E in Hs.
      pose proof (kvs_size_pos (kv :: l) Hkeys). naive_solver lia. }
    split_and!; [by exists b|done|done|by left].
Qed.

Lemma emit_open d chs sink ch data : dg_sink d = Some sink -> chs !! sink = Some ch -> ch_open ch = true ->
  emit_pcr_event d chs data = <[sink := {| ch_open := true; ch_queue := ch_queue ch ++ [data] |}]> chs.
Proof. intros Hd Hc Ho. unfold emit_pcr_event, unbounded_send. by rewrite Hd, Hc, Ho. Qed.

Lemma emit_closed d chs data : (forall sink ch, dg_sink d = Some sink -> chs !! sink = Some ch -> ch_open ch = false) ->
  emit_pcr_event d chs data = chs.
Proof.
  intros Hc. unfold emit_pcr_event, unbounded_send. destruct (dg_sink d) as [sink|]; [|done].
  destruct (chs !! sink) as [ch|] eqn:E; [|done]. by rewrite (Hc sink ch).
Qed.

Lemma replay_kvs data seq kvs v : Forall (fun kv => pk_key kv <> [] /\ pk_cf kv <> EmptyString) kvs ->
  parse_from_bytes data = Some {| pm_stream_seq := seq; pm_event := Some (PlKvBatch kvs); pm_is_snapshot := false |} ->
  replay [data] v = view_puts v (map kv_put kvs).
Proof.
  intros Hk Hp. unfold replay. cbn. rewrite Hp. cbn. rewrite map_map. f_equal.
  apply map_ext_Forall. revert Hk. apply Forall_impl. intros kv [_ Hcf]. unfold event_kv, kv_put. cbn.
  by rewrite bool_decide_eq_false_2.
Qed.

(** A delegate between two commands: it replicates and its batch is empty. *)
Record idle (st : dstate) (sink : nat) : Prop := {
  idle_batcher : exists b, dg_batcher (ds_delegate st) = Some b /\ eb_batch b = [] /\ eb_ok b;
  idle_sink : dg_sink (ds_delegate st) = Some sink;
  idle_keys : dg_cf_default_keys (ds_delegate st) = ∅
}.

Lemma sink_data_changes ticdc_sink s now changes st sink : ticdc_accepts -> no_data_prefix s (ds_cache st) ->
  Forall change_ok changes -> idle st sink ->
  let kvs := concat (map change_kvs changes) in
  exists st', sink_data ticdc_put ticdc_sink s now st (map to_request changes) = (ticdc_sink, st')
    /\ idle st' sink /\ ds_cache st' = ds_cache st
    /\ ((kvs = [] /\ ds_channels st' = ds_channels st)
        \/ exists data seq, ds_channels st' = emit_pcr_event (ds_delegate st) (ds_channels st) data
           /\ parse_from_bytes data =
              Some {| pm_stream_seq := seq; pm_event := Some (PlKvBatch kvs); pm_is_snapshot := false |}).
Proof.
  intros Hti Hs Hok [(b & Hb & Hbe & Hbok) Hsink Hkeys] kvs. unfold sink_data.
  destruct (sink_requests_changes s Hti changes st b Hs Hok Hb Hkeys) as (st1 & -> & G1 & G2 & G3 & G4 & G5).
  pose proof (flush_all (ds_delegate st1) (ds_channels st1) now _ G1 (eb_adds_ok _ _ Hbok)) as Hf.
  rewrite eb_adds_batch, Hbe in Hf. cbn [app] in Hf. fold kvs in Hf.
  assert (Hk : Forall (fun kv => pk_key kv <> []) kvs) by (generalize (changes_kvs_keys changes); apply Forall_impl; tauto).
  specialize (Hf Hk).
  destruct (maybe_flush_pcr_batcher _ _ _) as [d1 chs1]. destruct (force_flush d1 chs1 now) as [d2 chs2].
  destruct Hf as (F1 & F2 & F3 & F4). eexists. split; [reflexivity|]. cbn [ds_channels ds_cache].
  split; [split; cbn [ds_delegate]; [done|by rewrite F2, G3|by rewrite F3]|]. split; [done|].
  destruct F4 as [[? ->]|(data & seq & -> & Hp)]; [left; by rewrite G4|right].
  exists data, seq. split; [|done]. unfold emit_pcr_event. by rewrite G3, G4.
Qed.

Lemma replay_app a b v : replay (a ++ b) v = replay b (replay a v).
Proof. apply foldl_app. Qed.

Lemma view_puts_app v a b : view_puts v (a ++ b) = view_puts (view_puts v a) b.
Proof. apply foldl_app. Qed.

(** Commands over a channel with a receiver. *)
Lemma sink_cmds_changes s now : ticdc_accepts -> forall cmds st sink ch, no_data_prefix s (ds_cache st) ->
  Forall (Forall change_ok) cmds -> idle st sink -> ds_channels st !! sink = Some ch -> ch_open ch = true ->
  exists st' new, sink_cmds ticdc_put (Ok tt) s now st (map (fun l => CmdData (map to_request l)) cmds) = (Ok tt, st')
    /\ idle st' sink /\ ds_channels st' !! sink = Some {| ch_open := true; ch_queue := ch_queue ch ++ new |}
    /\ forall v, replay new v = view_puts v (map kv_put (concat (map change_kvs (concat cmds)))).
Proof.
  intros Hti. induction cmds as [|l cmds IH]; intros st sink ch Hs Hok Hidle Hch Hopen.
  { exists st, []. split_and!; [done|done|rewrite Hch, app_nil_r; by destruct ch; cbn in *; subst|done]. }
  apply Forall_cons_1 in Hok as [Hl Hok]. cbn [map sink_cmds].
  destruct (sink_data_changes (Ok tt) s now l st sink Hti Hs Hl Hidle) as (st1 & Hd & Hidle1 & Hc1 & Hsent).
  assert (exists sent, ds_channels st1 !! sink = Some {| ch_open := true; ch_queue := ch_queue ch ++ sent |}
    /\ forall v, replay sent v = view_puts v (map kv_put (concat (map change_kvs l)))) as (sent & Hch1 & Hrep).
  { destruct Hsent as [[He ->]|(data & seq & -> & Hp)].
    - exists []. split; [rewrite Hch, app_nil_r; by destruct ch; cbn in *; subst|]. by rewrite He.
    - exists [data]. split; [rewrite (emit_open _ _ sink ch); [by rewrite lookup_insert_eq|apply Hidle|done|done]|].
      intros v. eapply replay_kvs; [apply changes_kvs_keys|exact Hp]. }
  destruct (IH st1 sink _ ltac:(by rewrite Hc1) Hok Hidle1 Hch1 eq_refl) as (st' & new & Hrun & Hidle' & Hch' & Hrep').
  cbn [ch_queue] in Hch'. exists st', (sent ++ new). split_and!; [|done|by rewrite Hch', (assoc_L app)|].
  - rewrite Hd. exact Hrun.
  - intros v. rewrite replay_app, Hrep, Hrep', <-view_puts_app, <-map_app. cbn [concat].
    by rewrite (map_app change_kvs), concat_app.
Qed.

End Replicated.

(** The records that are committed by changes, as the target stores them. *)
Definition committed (changes : list change) : list MvccKeyValue :=
  omap (fun c => match c with
                 | ChWrite k commit_ts w =>
                     if bool_decide (w_write_type w = WtRollback) then None else Some (kv_put (write_kv k commit_ts w))
                 | _ => None
                 end) changes.

Lemma view_put_other v kv cf k : kv_cf kv <> cf -> view_put v kv cf k = v cf k.
Proof. intros Hcf. unfold view_put. rewrite decide_False; [done|]. by intros [-> _]. Qed.

Lemma view_put_ext v v' kv cf : (forall k, v cf k = v' cf k) -> forall k, view_put v kv cf k = view_put v' kv cf k.
Proof. intros Hv k. unfold view_put. case_decide; [done|apply Hv]. Qed.

Lemma view_puts_ext kvs : forall v v' cf, (forall k, v cf k = v' cf k) ->
  forall k, view_puts v kvs cf k = view_puts v' kvs cf k.
Proof.
  induction kvs as [|kv kvs IH]; intros v v' cf Hv k; cbn; [apply Hv|]. apply IH. intros k'. by apply view_put_ext.
Qed.

Lemma committed_view changes : forall v k,
  view_puts v (map kv_put (concat (map change_kvs changes))) "write" k = view_puts v (committed changes) "write" k.
Proof.
  induction changes as [|c changes IH]; intros v k; [done|]. cbn [map concat]. rewrite map_app, view_puts_app.
  assert (Hd : forall v k' st x op k, view_put v (kv_put (default_kv k' st x op)) "write" k = v "write"%string k)
    by (intros; by apply view_put_other).
  destruct c as [k' c w|k' st x|k' x]; cbn [change_kvs]; [|cbn [map]; rewrite IH; apply view_puts_ext, Hd|apply IH].
  unfold committed. cbn [omap list_omap]. fold (committed changes).
  destruct (w_write_type w) eqn:Et; cbn [map]; rewrite IH;
    [rewrite bool_decide_eq_false_2 by done..|by rewrite bool_decide_eq_true_2];
    apply (view_puts_ext (committed changes)); intros k0; cbn [view_puts foldl].
  - apply view_put_ext. intros k1. apply Hd.
  - apply view_put_ext. intros k1. apply Hd.
  - apply Hd.
Qed.

Lemma view_puts_untouched kvs : forall v cf k,
  (forall kv, kv ∈ kvs -> kv_cf kv = cf -> kv_key kv <> k) -> view_puts v kvs cf k = v cf k.
Proof.
  induction kvs as [|kv kvs IH]; intros v cf k Hk; [done|]. cbn [view_puts foldl]. fold (view_puts (view_put v kv) kvs).
  rewrite IH by (intros kv' Hin; apply Hk; by right). unfold view_put. rewrite decide_False; [done|].
  intros [-> ->]. by apply (Hk kv); [left|..].
Qed.

(** The default entry of a data key is sent for the change. *)
Definition sends_default (key : bytes) (c : change) : Prop :=
  exists kv, kv ∈ change_kvs c /\ pk_cf kv = "default"%string /\ pk_key kv = key.

(** C28. Replication of live transactions: when a delegate handles commands that
    put lock, default and write entries of any keys, in any order, over a channel
    whose receiver is there, and no key of the source's store begins with the
    prefix of data keys, every message parses back, and replaying the messages at
    the target leaves its write column family as if the commit records, rollbacks
    left out, had been written there in that order, each under the engine's data
    key and byte for byte the same.  A value that is inlined in a record is stored
    under its start timestamp as well, unless a later change sends another default
    entry for that key and timestamp.  The batch is empty again after the
    commands. *)
Theorem write_records_replicated {Snap : Type} `{EngineSnapshotLaws Snap} `{PcrWireLaws}
    ticdc_put (s : Snap) now st sink ch cmds :
  ticdc_accepts ticdc_put -> no_data_prefix s (ds_cache st) -> Forall (Forall change_ok) cmds ->
  idle st sink -> ds_channels st !! sink = Some ch -> ch_open ch = true ->
  exists st' new,
    on_batch ticdc_put (Ok tt) s now st false (map (fun l => CmdData (map to_request l)) cmds) [] = (Ok tt, st')
    /\ idle st' sink
    /\ ds_channels st' !! sink = Some {| ch_open := true; ch_queue := ch_queue ch ++ new |}
    /\ forall v, (forall k, replay new v "write" k = view_puts v (committed (concat cmds)) "write" k)
        /\ (forall pre k commit_ts w val post, concat cmds = pre ++ ChWrite k commit_ts w :: post ->
            w_write_type w = WtPut -> w_short_value w = Some val ->
            (forall c, c ∈ post -> ~ sends_default (data_key (Key_append_ts k (w_start_ts w))) c) ->
            replay new v "default" (data_key (Key_append_ts k (w_start_ts w))) = Some val).
Proof.
  intros Hti Hs Hok Hidle Hch Hopen.
  destruct (sink_cmds_changes ticdc_put s now Hti cmds st sink ch Hs Hok Hidle Hch Hopen)
    as (st' & new & Hrun & [Hb Hsk Hkeys] & Hch' & Hrep).
  unfold on_batch. rewrite Hrun. cbn [foldl]. eexists _, new. split; [reflexivity|].
  split; [split; done|]. split; [done|]. intros v. rewrite Hrep. split; [apply committed_view|].
  intros pre k commit_ts w val post -> Ht Hv Hpost. rewrite map_app, concat_app, map_app, view_puts_app. cbn [map concat].
  rewrite map_app, view_puts_app, view_puts_untouched.
  - cbn [change_kvs]. rewrite Ht, Hv. cbn [map view_puts foldl].
    rewrite view_put_other by done. unfold view_put. by rewrite decide_True.
  - intros kv (pk & -> & Hin)%list_elem_of_fmap Hcf Hkey.
    apply list_elem_of_In, in_concat in Hin as (l & Hl%list_elem_of_In & Hin%list_elem_of_In).
    apply list_elem_of_fmap in Hl as (c & -> & Hc). apply (Hpost c Hc). by exists pk.
Qed.

(** A value that is too long to be inlined does not survive replication.  Its
    default entry is sent when it is prewritten, but when its commit record is
    handled the value is looked up as an old value under a key with the data
    prefix, which is no key of the store, nothing is found, and an empty value is
    sent for the same key, after the right one. *)
Theorem large_value_replaced {Snap : Type} `{EngineSnapshotLaws Snap} `{PcrWireLaws}
    ticdc_put (s : Snap) now st sink ch k commit_ts w val :
  ticdc_accepts ticdc_put -> no_data_prefix s (ds_cache st) -> txn_key k -> u64_ok commit_ts -> write_ok w ->
  w_write_type w = WtPut -> w_short_value w = None ->
  idle st sink -> ds_channels st !! sink = Some ch -> ch_open ch = true ->
  exists st' new,
    on_batch ticdc_put (Ok tt) s now st false
      [CmdData [to_request (ChDefault k (w_start_ts w) val)]; CmdData [to_request (ChWrite k commit_ts w)]] []
    = (Ok tt, st')
    /\ ds_channels st' !! sink = Some {| ch_open := true; ch_queue := ch_queue ch ++ new |}
    /\ forall v, replay new v "default" (data_key (Key_append_ts k (w_start_ts w))) = Some []
        /\ replay new v "write" (data_key (Key_append_ts k commit_ts)) = Some (WriteRef_to_bytes w).
Proof.
  intros Hti Hs Hk Hc Hw Ht Hv Hidle Hch Hopen.
  assert (Hok : Forall (Forall change_ok) [[ChDefault k (w_start_ts w) val]; [ChWrite k commit_ts w]]).
  { constructor; [by constructor|]. constructor; [by constructor|constructor]. }
  destruct (sink_cmds_changes ticdc_put s now Hti [[ChDefault k (w_start_ts w) val]; [ChWrite k commit_ts w]] st sink ch
              Hs Hok Hidle Hch Hopen) as (st' & new & Hrun & _ & Hch' & Hrep).
  unfold on_batch. cbn [map] in Hrun. rewrite Hrun. cbn [foldl]. eexists _, new. split; [reflexivity|].
  split; [done|]. intros v. rewrite Hrep. cbn [map concat app change_kvs]. rewrite Ht, Hv. cbn [map app view_puts foldl].
  split; [rewrite view_put_other by done|]; unfold view_put; by rewrite decide_True.
Qed.

(** Once the receiver of its sink is gone, what a delegate sends is lost: the
    batch is emptied before the event is offered to the channel, so no buffered
    pair is left for the sink that a later subscription attaches. *)
Theorem disconnected_sink_loses_events {Snap : Type} `{EngineSnapshotLaws Snap} `{PcrWireLaws}
    ticdc_put ticdc_sink (s : Snap) now st sink changes sink' size interval now' :
  ticdc_accepts ticdc_put -> no_data_prefix s (ds_cache st) -> Forall change_ok changes -> idle st sink ->
  (forall ch, ds_channels st !! sink = Some ch -> ch_open ch = false) ->
  exists st' b, sink_data ticdc_put ticdc_sink s now st (map to_request changes) = (ticdc_sink, st')
    /\ ds_channels st' = ds_channels st
    /\ dg_batcher (enable_pcr (ds_delegate st') sink' size interval now') = Some b /\ eb_batch b = [].
Proof.
  intros Hti Hs Hok Hidle Hclosed.
  destruct (sink_data_changes ticdc_put ticdc_sink s now changes st sink Hti Hs Hok Hidle) as (st' & Hd & Hidle' & _ & Hsent).
  destruct (idle_batcher _ _ Hidle') as (b & Hb & He & _). exists st', b. split_and!; [done| | |done].
  - destruct Hsent as [[_ ?]|(data & seq & Hsent & _)]; [done|]. rewrite Hsent. apply emit_closed.
    intros sink0 ch Hsk Hch. rewrite (idle_sink _ _ Hidle) in Hsk. injection Hsk as <-. by apply Hclosed.
  - unfold enable_pcr. cbn. by rewrite Hb.
Qed.

Lemma flush_keeps_tracker `{PcrWire} d chs now :
  dg_lock_tracker (delegate_on_min_ts d chs now).1 = dg_lock_tracker d.
Proof.
  unfold delegate_on_min_ts, maybe_flush_pcr_batcher. destruct (dg_lock_tracker d) eqn:E; [done|done|].
  destruct (dg_batcher d) as [b|]; [|done]. destruct (eb_should_flush b now); [|done].
  by destruct (eb_flush b now).
Qed.

Lemma on_min_ts_tracker `{PcrWire} now (id : Z) tr : forall regions (m : gmap Z Delegate) chs,
  dg_lock_tracker <$> (m !! id) = Some tr ->
  dg_lock_tracker <$> ((foldl (min_ts_region now) (m, chs) regions).1 !! id) = Some tr.
Proof.
  induction regions as [|r regions IH]; intros m chs Hm; [done|]. cbn [foldl]. unfold min_ts_region at 2.
  destruct (m !! r) as [d|] eqn:Er; [|by apply IH].
  pose proof (flush_keeps_tracker d chs now) as Hk. destruct (delegate_on_min_ts d chs now) as [d' chs'].
  apply IH. destruct (decide (id = r)) as [->|Hne]; [|by rewrite lookup_insert_ne].
  rewrite lookup_insert_eq. rewrite Er in Hm. cbn in *. congruence.
Qed.

(** The timestamp of a checkpoint is the clock, not a resolved timestamp: after
    the endpoint has handled a minimum timestamp, the next checkpoint carries the
    current one whatever locks the delegates track, also locks of transactions
    that started before it and have not been replicated. *)
Theorem checkpoint_ignores_locks `{PcrWire} ep chs regions current_ts now id d region locks region_ids :
  0 < current_ts -> ep_capture_regions ep !! id = Some d -> dg_lock_tracker d = LtrPrepared region locks ->
  let ep' := (on_min_ts ep chs regions current_ts now).1 in
  checkpoint_tick ep' region_ids = Some (PcrMsg_of (PlCheckpoint current_ts region_ids))
  /\ dg_lock_tracker <$> (ep_capture_regions ep' !! id) = Some (LtrPrepared region locks).
Proof.
  intros Hts Hd Htr. unfold on_min_ts.
  pose proof (on_min_ts_tracker now id (LtrPrepared region locks) regions (ep_capture_regions ep) chs) as Ht.
  destruct (foldl (min_ts_region now) _ regions) as [m chs']. cbn. split.
  - unfold checkpoint_tick. cbn. by destruct (Z.ltb_spec 0 current_ts); [|lia].
  - apply Ht. rewrite Hd. cbn. by rewrite Htr.
Qed.

(** ** A wire format *)

(** The bits of a number that stands for the message. *)
Fixpoint pos_bits (p : positive) : bytes :=
  match p with xH => [] | xO p => 0 :: pos_bits p | xI p => 1 :: pos_bits p end.
Fixpoint bits_pos (l : bytes) : positive :=
  match l with [] => xH | b :: l => if b =? 0 then xO (bits_pos l) else xI (bits_pos l) end.

Lemma bits_pos_bits p : bits_pos (pos_bits p) = p.
Proof. induction p; cbn; congruence. Qed.

Abbreviation wire_kv := (bytes * bytes * bool * string)%type.
Abbreviation wire_payload :=
  (list wire_kv + (bytes * bytes * bytes * Z + (Z * list Z + (bytes * bytes * Z + bytes * list Z))))%type.

Definition to_wire_kv (kv : PcrKv) : wire_kv :=
  (pk_key kv, pk_value kv, match pk_op kv with OtPut => true | OtDelete => false end, pk_cf kv).
Definition of_wire_kv (x : wire_kv) : PcrKv :=
  let '(k, v, o, cf) := x in
  {| pk_key := k; pk_value := v; pk_op := if o : bool then OtPut else OtDelete; pk_cf := cf |}.

Definition to_wire_payload (p : PcrPayload) : wire_payload :=
  match p with
  | PlKvBatch kvs => inl (to_wire_kv <$> kvs)
  | PlSstChunk d s e ts => inr (inl (d, s, e, ts))
  | PlCheckpoint ts ids => inr (inr (inl (ts, ids)))
  | PlDeleteRange s e ts => inr (inr (inr (inl (s, e, ts))))
  | PlSplit k ids => inr (inr (inr (inr (k, ids))))
  end.
Definition of_wire_payload (p : wire_payload) : PcrPayload :=
  match p with
  | inl kvs => PlKvBatch (of_wire_kv <$> kvs)
  | inr (inl (d, s, e, ts)) => PlSstChunk d s e ts
  | inr (inr (inl (ts, ids))) => PlCheckpoint ts ids
  | inr (inr (inr (inl (s, e, ts)))) => PlDeleteRange s e ts
  | inr (inr (inr (inr (k, ids)))) => PlSplit k ids
  end.

#[export] Instance bit_wire : PcrWire := {
  write_to_bytes m :=
    Some (pos_bits (encode (pm_stream_seq m, to_wire_payload <$> pm_event m, pm_is_snapshot m)));
  parse_from_bytes data :=
    '(seq, ev, snap) ← (decode (bits_pos data) : option (Z * option wire_payload * bool));
    Some {| pm_stream_seq := seq; pm_event := of_wire_payload <$> ev; pm_is_snapshot := snap |}
}.

Lemma of_to_wire_payload p : of_wire_payload (to_wire_payload p) = p.
Proof.
  destruct p as [kvs| | | |]; cbn; [|done..]. f_equal. rewrite <-list_fmap_compose.
  rewrite <-(list_fmap_id kvs) at 2. apply list_fmap_ext. intros _ [k v [] cf] _; done.
Qed.

#[export] Instance bit_wire_laws : PcrWireLaws.
Proof.
  split; [by eexists|]. intros [seq ev snap] data [= <-]. unfold parse_from_bytes. cbn.
  rewrite bits_pos_bits, decode_encode. cbn. by destruct ev as [p|]; cbn; [rewrite of_to_wire_payload|].
Qed.

(** ** Witnesses *)

Definition example_ticdc (tr : LockTracker) (_ : string) (_ _ : bytes) : res cdc_error unit * LockTracker := (Ok tt, tr).

(** A delegate that replicates into channel 0. *)
Definition example_state (open : bool) : dstate :=
  {| ds_delegate := enable_pcr (Delegate_new 7) 0%nat 1048576 150 0;
     ds_channels := {[0%nat := {| ch_open := open; ch_queue := [] |}]};
     ds_cache := ∅ |}.

Definition example_change : change := ChWrite [116; 1] 20 (Write_new WtPut 10 (Some [1; 2])).

Lemma example_idle open : idle (example_state open) 0.
Proof. split; [by eexists|done|done]. Qed.

Lemma example_no_prefix : no_data_prefix BTreeEngine_new ∅.
Proof.
  split; intros k [v Hv]; [|by rewrite lookup_empty in Hv]. cbn in Hv. unfold Store_get_cf in Hv. cbn in Hv.
  by rewrite lookup_empty in Hv.
Qed.

Lemma example_change_ok : change_ok example_change.
Proof.
  split; [split; [repeat constructor; unfold u8_ok; lia|done]|]. split; [unfold u64_ok; lia|].
  apply write_new_ok; [unfold u64_ok; lia|cbn; lia].
Qed.

Lemma batcher_lossless_witness :
  let kv := {| pk_key := [1]; pk_value := [2]; pk_op := OtPut; pk_cf := "write" |} in
  let '(out, b) := eb_run (PcrEventBatcher_new 10 0 0) [EoAdd kv; EoFlush 5; EoAdd kv] in
  exists msgs, parse_from_bytes <$> out = Some <$> msgs
    /\ concat (map msg_kvs msgs) ++ eb_batch b = [kv; kv]
    /\ numbered 0 msgs /\ eb_size b = kvs_size (eb_batch b).
Proof.
  exact (batcher_lossless 10 0 0 [EoAdd {| pk_key := [1]; pk_value := [2]; pk_op := OtPut; pk_cf := "write" |};
           EoFlush 5; EoAdd {| pk_key := [1]; pk_value := [2]; pk_op := OtPut; pk_cf := "write" |}]).
Defined.

Definition example_sub : SpanSubscription :=
  {| ss_start_key := [10]; ss_end_key := [20]; ss_sink := 0; ss_event_buffer_size := 1024; ss_event_flush_interval_ms := 150 |}.

Lemma match_region_overlap_witness :
  (is_Some (match_region [example_sub] [15] []) <->
   exists sub k, sub ∈ [example_sub] /\ in_span (ss_start_key sub) (ss_end_key sub) k = true /\ in_span [15] [] k = true)
  /\ match_region [example_sub] [20] [30] = None.
Proof.
  split; [|reflexivity]. apply (match_region_overlap [example_sub] [15] []); [|by left].
  constructor; [by right|constructor].
Defined.

Lemma first_subscription_attaches_none_witness :
  let ep := {| ep_capture_regions := {[7 := Delegate_new 7]}; ep_pcr_registry := []; ep_pcr_resolved_ts := 0 |} in
  ep_capture_regions (register_span_subscription ep example_sub 0) = {[7 := Delegate_new 7]}
  /\ match_region (ep_pcr_registry (register_span_subscription ep example_sub 0)) [12] [14] <> None.
Proof.
  split; [|done]. exact (proj1 (first_subscription_attaches_none
    {| ep_capture_regions := {[7 := Delegate_new 7]}; ep_pcr_registry := []; ep_pcr_resolved_ts := 0 |} example_sub 0)
    eq_refl).
Defined.

Lemma lock_scan_never_requested_witness :
  (init_lock_tracker (LtrPreparing [Track [1] {| ml_ts := 5; ml_txn_source := 0 |}])).1 = false.
Proof.
  apply (lock_scan_never_requested 7). eapply rtc_l; [|apply rtc_refl].
  exact (TsPush (LtrPreparing []) [1] {| ml_ts := 5; ml_txn_source := 0 |} true).
Defined.

Lemma write_records_replicated_witness :
  exists st' new,
    on_batch example_ticdc (Ok tt) BTreeEngine_new 5 (example_state true) false
      (map (fun l => CmdData (map to_request l)) [[example_change]]) [] = (Ok tt, st')
    /\ idle st' 0
    /\ ds_channels st' !! 0%nat = Some {| ch_open := true; ch_queue := [] ++ new |}
    /\ forall v, (forall k, replay new v "write" k = view_puts v (committed (concat [[example_change]])) "write" k)
        /\ (forall pre k commit_ts w val post, concat [[example_change]] = pre ++ ChWrite k commit_ts w :: post ->
            w_write_type w = WtPut -> w_short_value w = Some val ->
            (forall c, c ∈ post -> ~ sends_default (data_key (Key_append_ts k (w_start_ts w))) c) ->
            replay new v "default" (data_key (Key_append_ts k (w_start_ts w))) = Some val).
Proof.
  apply (write_records_replicated example_ticdc BTreeEngine_new 5 (example_state true) 0
           {| ch_open := true; ch_queue := [] |} [[example_change]]).
  - done.
  - apply example_no_prefix.
  - constructor; [constructor; [apply example_change_ok|constructor]|constructor].
  - apply example_idle.
  - reflexivity.
  - reflexivity.
Defined.

Lemma large_value_replaced_witness :
  exists st' new,
    on_batch example_ticdc (Ok tt) BTreeEngine_new 5 (example_state true) false
      [CmdData [to_request (ChDefault [116; 1] 10 [1; 2; 3])];
       CmdData [to_request (ChWrite [116; 1] 20 (Write_new WtPut 10 None))]] [] = (Ok tt, st')
    /\ ds_channels st' !! 0%nat = Some {| ch_open := true; ch_queue := [] ++ new |}
    /\ forall v, replay new v "default" (data_key (Key_append_ts [116; 1] 10)) = Some []
        /\ replay new v "write" (data_key (Key_append_ts [116; 1] 20))
           = Some (WriteRef_to_bytes (Write_new WtPut 10 None)).
Proof.
  apply (large_value_replaced example_ticdc BTreeEngine_new 5 (example_state true) 0
           {| ch_open := true; ch_queue := [] |} [116; 1] 20 (Write_new WtPut 10 None) [1; 2; 3]).
  - done.
  - apply example_no_prefix.
  - apply (proj1 example_change_ok).
  - unfold u64_ok. lia.
  - apply write_new_ok; [unfold u64_ok; lia|done].
  - reflexivity.
  - reflexivity.
  - apply example_idle.
  - reflexivity.
  - reflexivity.
Defined.

Lemma disconnected_sink_loses_events_witness :
  exists st' b, sink_data example_ticdc (Ok tt) BTreeEngine_new 5 (example_state false) (map to_request [example_change])
                = (Ok tt, st')
    /\ ds_channels st' = ds_channels (example_state false)
    /\ dg_batcher (enable_pcr (ds_delegate st') 1 1048576 150 9) = Some b /\ eb_batch b = [].
Proof.
  apply (disconnected_sink_loses_events example_ticdc (Ok tt) BTreeEngine_new 5 (example_state false) 0
           [example_change] 1 1048576 150 9).
  - done.
  - apply example_no_prefix.
  - constructor; [apply example_change_ok|constructor].
  - apply example_idle.
  - intros ch Hch. cbn in Hch. injection Hch as <-. reflexivity.
Defined.

Lemma checkpoint_ignores_locks_witness :
  let d := dg_set_lock_tracker (Delegate_new 7) (LtrPrepared Region_default {[ [1] := {| ml_ts := 5; ml_txn_source := 0 |} ]}) in
  let ep := {| ep_capture_regions := {[7 := d]}; ep_pcr_registry := []; ep_pcr_resolved_ts := 0 |} in
  let ep' := (on_min_ts ep ∅ [7] 100 0).1 in
  checkpoint_tick ep' [7] = Some (PcrMsg_of (PlCheckpoint 100 [7]))
  /\ dg_lock_tracker <$> (ep_capture_regions ep' !! 7)
     = Some (LtrPrepared Region_default {[ [1] := {| ml_ts := 5; ml_txn_source := 0 |} ]}).
Proof.
  apply (checkpoint_ignores_locks
    {| ep_capture_regions := {[7 := dg_set_lock_tracker (Delegate_new 7)
         (LtrPrepared Region_default {[ [1] := {| ml_ts := 5; ml_txn_source := 0 |} ]})]};
       ep_pcr_registry := []; ep_pcr_resolved_ts := 0 |} ∅ [7] 100 0 7
    (dg_set_lock_tracker (Delegate_new 7) (LtrPrepared Region_default {[ [1] := {| ml_ts := 5; ml_txn_source := 0 |} ]})));
    [lia|reflexivity|reflexivity].
Defined.
