(* ===== verification/InitialScan.v ===== *)
(** * The producer of cluster replication: the initial scan

    What a subscription sends of the data that is already there:
    the scans of [components/cdc/src/pcr_snapshot.rs], the span bridge
    ([span_bridge.rs]: the regions of a span, the scan of a region and its
    batches) and the events that [pcr_service.rs] makes of a scan of one region.

    An engine snapshot gives the entries of a column family in the order of its
    iterator, or fails to make one; its keys are data keys, with the prefix [z].
    What the placement driver answers is a list of regions, already decoded from
    JSON but with its keys in hexadecimal.

    Theorems: a scan is sent in batches that lose nothing
    ([scan_batches_lossless]); a full scan copies the store
    ([full_scan_copies]); a delta scan sends the changes after a timestamp
    ([delta_scan_exact]) but nothing at all when it is bounded by a region's end
    key ([region_delta_scan_empty]); which regions a span bridge finds
    ([bridge_regions]); the start timestamp of a meta record is misread
    ([meta_start_ts_misread]). *)

From Stdlib Require Import ZArith Lia String.
From stdpp Require Import base numbers list gmap sets strings sorting.
From S2P Require Import Prelude Number Bytes Types Write SpanKeys SstBatcher Producer.

Open Scope Z_scope.

(** ** [pcr_snapshot.rs] *)

Abbreviation Entries := (list (bytes * bytes)).
Abbreviation RawSnapshot := (string -> option Entries).

(** The value of a key in a column family. *)
Definition get_value_cf (snap : RawSnapshot) (cf : string) (key : bytes) : option bytes :=
  entries ← snap cf; pair_get entries key.

Definition stream_cf_full (snap : RawSnapshot) (cf : string) : Entries := default [] (snap cf).

Definition encode_bound (pd_key : bytes) : bytes := Key_append_ts pd_key TimeStamp_max.

(** [iter.seek(target)], with the target as the lower bound. *)
Fixpoint seek_entries (target : bytes) (entries : Entries) : Entries :=
  match entries with
  | [] => []
  | (k, v) :: rest => if bytes_ltb k target then seek_entries target rest else entries
  end.

Definition open_scan (snap : RawSnapshot) (cf : string) (from : bytes) : option Entries :=
  entries ← snap cf;
  Some (match from with [] => entries | _ => seek_entries (encode_bound from) entries end).

(** Both scans take the upper bound and do not use it. *)
Definition scan_default_cf (snap : RawSnapshot) (from to : bytes) (limit : nat) : Entries :=
  take limit (default [] (open_scan snap "default" from)).
Definition scan_write_cf_raw (snap : RawSnapshot) (from to : bytes) (limit : nat) : Entries :=
  take limit (default [] (open_scan snap "write" from)).

(** The bound [!to.is_empty() && user_key >= to]. *)
Definition at_end (to user_key : bytes) : bool := negb (bool_decide (to = [])) && bytes_leb to user_key.

Fixpoint scan_since_loop (since_ts : u64) (to : bytes) (limit : nat) (entries : Entries) : res unit Entries :=
  match limit, entries with
  | S limit', (ek, v) :: entries =>
      commit_ts ← ok_ (Key_decode_ts_from ek);
      user_key ← ok_ (Key_truncate_ts_for ek);
      match commit_ts, user_key with
      | Some commit_ts, Some user_key =>
          if since_ts <? commit_ts then
            if at_end to user_key then Ok []
            else rest ← scan_since_loop since_ts to limit' entries; Ok ((ek, v) :: rest)
          else scan_since_loop since_ts to limit entries
      | _, _ => scan_since_loop since_ts to limit entries
      end
  | _, _ => Ok []
  end.

Definition scan_write_cf_raw_since (snap : RawSnapshot) (since_ts : u64) (limit : nat) (from to : bytes)
    : res unit Entries :=
  scan_since_loop since_ts to limit (default [] (open_scan snap "write" from)).

Abbreviation DeltaEntries := (Entries * list (bytes * bytes * OpType))%type.

(** What one record adds to a delta scan. *)
Definition delta_record (snap : RawSnapshot) (ek v user_key : bytes) (write : Write) : DeltaEntries :=
  let default_key := Key_append_ts user_key (w_start_ts write) in
  match w_write_type write with
  | WtPut =>
      ([(ek, v)],
       match w_short_value write with
       | None =>
           match get_value_cf snap "default" default_key with
           | Some value => [(default_key, value, OtPut)]
           | None => []
           end
       | Some _ => []
       end)
  | WtDelete => ([(ek, v)], [(default_key, [], OtDelete)])
  | _ => ([], [])
  end.

Fixpoint delta_loop (snap : RawSnapshot) (since_ts : u64) (to : bytes) (entries : Entries) : res unit DeltaEntries :=
  match entries with
  | [] => Ok ([], [])
  | (ek, v) :: entries =>
      commit_ts ← ok_ (Key_decode_ts_from ek);
      user_key ← ok_ (Key_truncate_ts_for ek);
      match commit_ts, user_key with
      | Some commit_ts, Some user_key =>
          if since_ts <? commit_ts then
            if at_end to user_key then Ok ([], [])
            else
              write ← ok_ (WriteRef_parse v);
              let '(w, d) := match write with Some write => delta_record snap ek v user_key write | None => ([], []) end in
              '(ws, ds) ← delta_loop snap since_ts to entries;
              Ok (w ++ ws, d ++ ds)
          else delta_loop snap since_ts to entries
      | _, _ => delta_loop snap since_ts to entries
      end
  end.

Definition scan_delta_entries (snap : RawSnapshot) (since_ts : u64) (from to : bytes) : res unit DeltaEntries :=
  match open_scan snap "write" from with
  | None => Ok ([], [])
  | Some entries => delta_loop snap since_ts to entries
  end.

(** ** The scan of a subscription to one region ([pcr_service.rs]) *)

Definition mk_kv (cf : string) (op : OpType) (key value : bytes) : PcrKv :=
  {| pk_key := key; pk_value := value; pk_op := op; pk_cf := cf |}.

Definition snapshot_msg (kvs : list PcrKv) : PcrMsg :=
  {| pm_stream_seq := 0; pm_event := Some (PlKvBatch kvs); pm_is_snapshot := true |}.

(** [slice.chunks(n)] *)
Fixpoint chunks_loop {A} (fuel n : nat) (l : list A) : list (list A) :=
  match fuel, l with
  | S fuel, _ :: _ => take n l :: chunks_loop fuel n (drop n l)
  | _, _ => []
  end.
Definition chunks {A} (n : nat) (l : list A) : list (list A) := chunks_loop (length l) n l.

Definition delta_kvs (delta : DeltaEntries) : list PcrKv :=
  map (fun '(k, v) => mk_kv "write" OtPut k v) delta.1 ++ map (fun '(k, v, op) => mk_kv "default" op k v) delta.2.

(** The limit of the full scans is the largest integer, so all entries are taken. *)
Definition subscribe_scan (snap : RawSnapshot) (start_ts : u64) (scan_start scan_end : bytes) : res unit (list PcrMsg) :=
  all_kvs ←
    (if start_ts =? 0 then
       let all cf := default [] (open_scan snap cf scan_start) in
       Ok (map (fun '(k, v) => mk_kv "default" OtPut k v) (all "default"%string)
           ++ map (fun '(k, v) => mk_kv "write" OtPut k v) (all "write"%string))
     else delta_kvs <$> scan_delta_entries snap start_ts scan_start scan_end);
  Ok (map snapshot_msg (chunks 100 all_kvs)).

(** ** The scan of a span bridge ([span_bridge.rs]) *)

Definition BATCH_BYTES : Z := 1048576.

(** [add_kv] and [maybe_flush] over the pairs, then the residual batch. *)
Fixpoint batch_loop (batch_kvs : list PcrKv) (batch_bytes : Z) (kvs : list PcrKv) : list PcrMsg :=
  match kvs with
  | [] => match batch_kvs with [] => [] | _ => [snapshot_msg batch_kvs] end
  | kv :: kvs =>
      let batch_kvs := batch_kvs ++ [kv] in
      let batch_bytes := batch_bytes + (zlen (pk_key kv) + zlen (pk_value kv)) in
      if BATCH_BYTES <=? batch_bytes then snapshot_msg batch_kvs :: batch_loop [] 0 kvs
      else batch_loop batch_kvs batch_bytes kvs
  end.

(** [k.windows(5).any(|w| w == b"mDB:1")] *)
Definition META_WINDOW : bytes := [109; 68; 66; 58; 49].
Fixpoint has_window (k : bytes) : bool :=
  bytes_eqb (take 5 k) META_WINDOW || match k with [] => false | _ :: k => has_window k end.

(** The position after the variable-length integer at the head. *)
Fixpoint skip_varint (l : bytes) : bytes :=
  match l with
  | [] => []
  | b :: l => if Z.land b 128 =? 0 then l else skip_varint l
  end.

(** The default entries that are made up for the record of a meta key. *)
Definition meta_kvs (snap : RawSnapshot) (k v : bytes) : list PcrKv :=
  let start_ts := be_varint 0 (drop 1 v) in
  let def_key := take (length k - 8) k ++ be_bytes 8 (not_u64 start_ts) in
  let entry value := if (9 <=? length k)%nat then [mk_kv "default" OtPut def_key value] else [] in
  match skip_varint (drop 1 v) with
  | 118 :: rest =>
      match rest with
      | sv_len :: rest => if sv_len <=? zlen rest then entry (take (Z.to_nat sv_len) rest) else []
      | [] => []
      end
  | _ => entry (default [] (get_value_cf snap "default" def_key))
  end.

Definition full_kvs (snap : RawSnapshot) : list PcrKv :=
  map (fun '(k, v) => mk_kv "default" OtPut k v) (stream_cf_full snap "default")
  ++ flat_map (fun '(k, v) => (if has_window k then meta_kvs snap k v else []) ++ [mk_kv "write" OtPut k v])
       (stream_cf_full snap "write").

(** The messages that scanning a region sends: the whole store, whatever the region. *)
Definition scan_region (snap : RawSnapshot) (is_full : bool) (start_ts : u64) : res unit (list PcrMsg) :=
  kvs ← (if is_full then Ok (full_kvs snap) else delta_kvs <$> scan_delta_entries snap start_ts [] []);
  Ok (batch_loop [] 0 kvs).

(** ** The regions of a span *)

(** A region of the answer: identifier (zero when missing), hexadecimal start
    and end key (empty when missing), and epoch. *)
Record PdRegionJson : Type := { pj_id : u64; pj_start : bytes; pj_end : bytes; pj_conf_ver : u64; pj_version : u64 }.

(** [Self::hex_decode(s).unwrap_or_default()] *)
Definition decode_or_default (s : bytes) : res unit bytes :=
  match hex_decode s with Ok k => Ok k | Err _ => Ok [] | Panic => Panic end.

Definition bridge_overlaps (span_start span_end r_start r_end : bytes) : bool :=
  (bool_decide (span_end = []) || bool_decide (r_end = []) || bytes_ltb span_start r_end)
  && (bool_decide (span_start = []) || bool_decide (r_start = []) || bytes_ltb r_start span_end).

Fixpoint resolve_regions (regions : list PdRegionJson) (span_start span_end : bytes)
    : res unit (list (u64 * bytes * bytes * u64 * u64)) :=
  match regions with
  | [] => Ok []
  | r :: regions =>
      if pj_id r =? 0 then resolve_regions regions span_start span_end
      else
        r_start ← decode_or_default (pj_start r);
        r_end ← decode_or_default (pj_end r);
        rest ← resolve_regions regions span_start span_end;
        Ok (if bool_decide (r_start = []) && bool_decide (r_end = []) then rest
            else if bridge_overlaps span_start span_end r_start r_end
            then (pj_id r, r_start, r_end, pj_conf_ver r, pj_version r) :: rest
            else rest)
  end.

(** ** Batches *)

(** Consecutive batches of a list: each but the last reaches the threshold, and
    none reaches it before its last pair. *)
Fixpoint batched (msgs : list PcrMsg) : Prop :=
  match msgs with
  | [] => True
  | m :: rest =>
      (exists l kv, m = snapshot_msg (l ++ [kv]) /\ kvs_size l < BATCH_BYTES
         /\ (rest = [] \/ BATCH_BYTES <= kvs_size (l ++ [kv])))
      /\ batched rest
  end.

Lemma batch_loop_spec kvs : forall cur, kvs_size cur < BATCH_BYTES ->
  concat (map msg_kvs (batch_loop cur (kvs_size cur) kvs)) = cur ++ kvs
  /\ batched (batch_loop cur (kvs_size cur) kvs).
Proof.
  induction kvs as [|kv kvs IH]; intros cur Hcur; cbn [batch_loop].
  - destruct cur as [|x cur _] using rev_ind; [done|]. rewrite app_nil_r.
    assert (Hm : match cur ++ [x] with [] => [] | _ => [snapshot_msg (cur ++ [x])] end = [snapshot_msg (cur ++ [x])])
      by (by destruct cur). rewrite Hm. cbn. rewrite app_nil_r. split; [done|]. split; [|done].
    exists cur, x. split_and!; [done| |by left]. rewrite kvs_size_app in Hcur.
    pose proof (kvs_size_nonneg [x]). lia.
  - assert (Hs : kvs_size cur + (zlen (pk_key kv) + zlen (pk_value kv)) = kvs_size (cur ++ [kv])).
    { rewrite kvs_size_app. cbn. unfold kv_size. lia. }
    rewrite Hs. destruct (Z.leb_spec BATCH_BYTES (kvs_size (cur ++ [kv]))) as [Hb|Hb].
    + destruct (IH [] ltac:(done)) as [H1 H2]. change 0 with (kvs_size []). cbn [map concat]. rewrite H1.
      split; [cbn; by rewrite <-(assoc_L app)|]. split; [|done]. exists cur, kv. auto.
    + destruct (IH (cur ++ [kv]) Hb) as [H1 H2]. split; [|done]. by rewrite H1, <-(assoc_L app).
Qed.

Lemma batched_snapshot msgs : batched msgs -> Forall (fun m => pm_is_snapshot m = true /\ msg_kvs m <> []) msgs.
Proof.
  induction msgs as [|m msgs IH]; [constructor|]. intros [(l & kv & -> & _) Hb]. constructor; [|by apply IH].
  split; [done|]. cbn. by intros [_ ?]%app_eq_nil.
Qed.

(** The batches in which a scan is sent lose and reorder nothing, are never
    empty, are all marked as snapshot data, and have the size the threshold asks
    for: a batch is closed by the first pair that brings it to one megabyte, and
    only the last may be smaller. *)
Theorem scan_batches_lossless kvs :
  let msgs := batch_loop [] 0 kvs in
  concat (map msg_kvs msgs) = kvs /\ batched msgs
  /\ Forall (fun m => pm_is_snapshot m = true /\ msg_kvs m <> []) msgs.
Proof.
  destruct (batch_loop_spec kvs []) as [H1 H2]; [done|]. split_and!; [done|done|]. by apply batched_snapshot.
Qed.

(** ** The full scan *)

Definition replay_msgs (v : View) (msgs : list PcrMsg) : View := foldl (fun v m => view_event v (to_event m)) v msgs.

Lemma replay_msgs_kvs msgs : Forall (fun m => exists kvs, m = snapshot_msg kvs /\ Forall (fun kv => pk_cf kv <> EmptyString) kvs) msgs ->
  forall v, replay_msgs v msgs = view_puts v (map kv_put (concat (map msg_kvs msgs))).
Proof.
  induction 1 as [|m msgs (kvs & -> & Hcf) _ IH]; intros v; [done|]. cbn [replay_msgs foldl]. fold (replay_msgs).
  change (replay_msgs (view_event v (to_event (snapshot_msg kvs))) msgs =
          view_puts v (map kv_put (concat (map msg_kvs (snapshot_msg kvs :: msgs))))).
  rewrite IH. cbn [map concat]. rewrite map_app, view_puts_app. f_equal. cbn. rewrite map_map.
  f_equal. apply map_ext_Forall. eapply Forall_impl; [exact Hcf|]. intros kv Hk. unfold event_kv, kv_put. cbn.
  by rewrite bool_decide_eq_false_2.
Qed.

Lemma view_puts_entries cf0 cf op entries v k : NoDup entries.*1 ->
  view_puts v (map kv_put (map (fun '(k, v) => mk_kv cf op k v) entries)) cf0 k =
  if decide (cf0 = cf) then match pair_get entries k with Some x => Some x | None => v cf0 k end else v cf0 k.
Proof.
  revert v. induction entries as [|[k' v'] entries IH]; intros v Hnd; [by case_decide|].
  apply NoDup_cons in Hnd as [Hn Hnd]. cbn [map]. change (view_puts v (?x :: ?l)) with (view_puts (view_put v x) l).
  rewrite (IH _ Hnd). unfold view_put. cbn [kv_put mk_kv pk_cf pk_key pk_value kv_cf kv_key kv_value].
  destruct (decide (cf0 = cf)) as [->|Hcf].
  - unfold pair_get. cbn [list_find]. destruct (decide (k' = k)) as [->|Hk].
    + rewrite (decide_True _ _ (eq_refl k : fst (k, v') = k)). cbn.
      assert (Hnone : list_find (fun p : bytes * bytes => fst p = k) entries = None).
      { apply list_find_None. apply Forall_forall. intros [k0 v0] Hp Heq. apply Hn. cbn in Heq. subst k0. apply list_elem_of_fmap. by exists (k, v0). }
      rewrite Hnone. cbn. by rewrite decide_True.
    + rewrite (decide_False (P := fst (k', v') = k)) by done. cbn.
      destruct (list_find _ entries) as [[i [x y]]|]; cbn; [done|]. rewrite decide_False; [done|]. intros [_ ?]. done.
  - rewrite decide_False; [done|]. intros [? _]. done.
Qed.

Lemma full_kvs_plain snap : Forall (fun e => has_window (fst e) = false) (stream_cf_full snap "write") ->
  full_kvs snap = map (fun '(k, v) => mk_kv "default" OtPut k v) (stream_cf_full snap "default")
                  ++ map (fun '(k, v) => mk_kv "write" OtPut k v) (stream_cf_full snap "write").
Proof.
  intros Hw. unfold full_kvs. f_equal. induction Hw as [|[k v] l Hk _ IH]; [done|]. cbn in *. by rewrite Hk, IH.
Qed.

Lemma batched_msgs_shape msgs : batched msgs -> Forall (fun kv => pk_cf kv <> EmptyString) (concat (map msg_kvs msgs)) ->
  Forall (fun m => exists kvs, m = snapshot_msg kvs /\ Forall (fun kv => pk_cf kv <> EmptyString) kvs) msgs.
Proof.
  induction msgs as [|m msgs IH]; [constructor|]. intros [(l & kv & -> & _) Hb] Hcf. cbn [map concat] in Hcf.
  apply Forall_app in Hcf as [H1 H2]. constructor; [by exists (l ++ [kv])|by apply IH].
Qed.

(** C30. A full scan copies the store: when no key of it is a meta key, the target
    that replays the messages of the scan of any one region holds, in the default
    and in the write column family, exactly the source's value of every key of the
    source, and what it held before elsewhere. *)
Theorem full_scan_copies snap start_ts :
  NoDup (stream_cf_full snap "default").*1 -> NoDup (stream_cf_full snap "write").*1 ->
  Forall (fun e => has_window (fst e) = false) (stream_cf_full snap "write") ->
  exists msgs, scan_region snap true start_ts = Ok msgs
    /\ forall v cf k, replay_msgs v msgs cf k =
         if decide (cf = "default" \/ cf = "write")%string
         then match pair_get (stream_cf_full snap cf) k with Some x => Some x | None => v cf k end
         else v cf k.
Proof.
  intros Hd Hw Hm. unfold scan_region. cbn [mbind res_bind]. eexists. split; [reflexivity|]. intros v cf k.
  destruct (batch_loop_spec (full_kvs snap) []) as [H1 H2]; [done|]. rewrite app_nil_l in H1.
  change (kvs_size []) with 0 in H1, H2. rewrite full_kvs_plain in * by done.
  rewrite replay_msgs_kvs.
  - rewrite H1, map_app, view_puts_app, view_puts_entries by done.
    rewrite !(view_puts_entries _ "default") by done.
    destruct (decide (cf = "write"%string)) as [->|Hw'].
    + by rewrite (decide_True (P := _ \/ _)) by by right.
    + destruct (decide (cf = "default"%string)) as [->|Hd']; [by rewrite decide_True by by left|].
      by rewrite decide_False by tauto.
  - apply batched_msgs_shape; [done|]. rewrite H1. apply Forall_app.
    split; apply Forall_map, Forall_forall; by intros [k0 v0] _.
Qed.

(** ** The delta scan *)

(** A record of the write column family: a data key, its commit timestamp and
    the record. *)
Record version : Type := { ve_key : bytes; ve_commit_ts : TimeStamp; ve_write : Write }.

Definition version_entry (x : version) : bytes * bytes :=
  (Key_append_ts (ve_key x) (ve_commit_ts x), WriteRef_to_bytes (ve_write x)).

Definition version_ok (x : version) : Prop := u64_ok (ve_commit_ts x) /\ write_ok (ve_write x).

(** A change of data that a delta scan after [since] has to send. *)
Definition in_delta (since : u64) (x : version) : Prop :=
  since < ve_commit_ts x /\ (w_write_type (ve_write x) = WtPut \/ w_write_type (ve_write x) = WtDelete).

Lemma Key_truncate_for_append k ts : Key_truncate_ts_for (Key_append_ts k ts) = Ok k.
Proof. apply (Key_truncate_append k ts). Qed.

(** The order of an iterator: by the bytes of the keys, with the versions of a key
    together. *)
Definition version_before (x y : version) : Prop :=
  bytes_leb (version_entry x).1 (version_entry y).1 = true /\ bytes_leb (ve_key x) (ve_key y) = true.

(** The bounds of a scan: the lower one is compared with the whole entry, the upper
    one with the key without its timestamp. *)
Definition within_bounds (from to : bytes) (x : version) : Prop :=
  (from = [] \/ bytes_leb (encode_bound from) (version_entry x).1 = true)
  /\ (to = [] \/ bytes_ltb (ve_key x) to = true).

Lemma at_end_spec to k : at_end to k = false <-> to = [] \/ bytes_ltb k to = true.
Proof.
  unfold at_end. rewrite andb_false_iff, negb_false_iff, bool_decide_eq_true.
  by rewrite bytes_leb_gt.
Qed.

Lemma at_end_mono to k k' : at_end to k = true -> bytes_leb k k' = true -> at_end to k' = true.
Proof.
  unfold at_end. rewrite !andb_true_iff. intros [H1 H2] Hle. split; [done|]. by eapply bytes_leb_trans.
Qed.

(** What a scan from a list of versions on has to send. *)
Definition due (since : u64) (to : bytes) (x : version) : Prop := in_delta since x /\ at_end to (ve_key x) = false.

Lemma delta_loop_spec snap since to versions : Forall version_ok versions -> StronglySorted version_before versions ->
  exists ws ds, delta_loop snap since to (map version_entry versions) = Ok (ws, ds)
    /\ (forall e, e ∈ ws <-> exists x, x ∈ versions /\ due since to x /\ e = version_entry x)
    /\ (forall d, d ∈ ds <-> exists x, x ∈ versions /\ due since to x
          /\ d ∈ (delta_record snap (version_entry x).1 (version_entry x).2 (ve_key x) (ve_write x)).2).
Proof.
  induction 1 as [|x versions [Hts Hw] _ IH]; intros Hsort.
  2: apply StronglySorted_inv in Hsort as [Hsort Hx]; destruct (IH Hsort) as (ws & ds & Hrun & Hws & Hds); clear IH.
  { exists [], []. split; [done|]. split; intros ?; (split; [by intros []%not_elem_of_nil|]); intros (? & []%not_elem_of_nil & _). }
  cbn [map delta_loop version_entry]. rewrite Key_decode_append, Key_truncate_for_append by done. cbn [ok_ mbind res_bind].
  assert (Hcons : forall P : version -> Prop, (exists y, y ∈ x :: versions /\ P y) <-> P x \/ exists y, y ∈ versions /\ P y)
    by (intros P; setoid_rewrite elem_of_cons; naive_solver).
  destruct (Z.ltb_spec since (ve_commit_ts x)) as [Hs|Hs].
  2: { exists ws, ds. split; [done|]. assert (~ due since to x) by (intros [[? _] _]; lia).
       split; intros e; [rewrite Hws|rewrite Hds]; rewrite Hcons; tauto. }
  destruct (at_end to (ve_key x)) eqn:Hend.
  { assert (forall y, y ∈ x :: versions -> ~ due since to y) as Hno.
    { intros y [-> | Hy]%elem_of_cons [_ He]; [congruence|]. rewrite Forall_forall in Hx. destruct (Hx y Hy) as [_ Hle].
      rewrite (at_end_mono _ _ _ Hend Hle) in He. done. }
    exists [], []. split; [done|]. split; intros e; (split; [by intros []%not_elem_of_nil|]);
      intros (y & Hy & Hd & _); by destruct (Hno y Hy). }
  rewrite write_roundtrip by done. cbn [ok_ mbind res_bind].
  set (d := delta_record snap _ _ (ve_key x) (ve_write x)). destruct d as [w0 d0] eqn:Ed. rewrite Hrun. cbn [mbind res_bind].
  exists (w0 ++ ws), (d0 ++ ds). split; [done|]. subst d.
  assert (Hw0 : forall e, e ∈ w0 <-> due since to x /\ e = version_entry x).
  { intros e. unfold delta_record in Ed. unfold due, in_delta.
    destruct (w_write_type (ve_write x)); injection Ed as <- _; rewrite ?list_elem_of_singleton, ?elem_of_nil;
      unfold version_entry; intuition congruence. }
  assert (Hd0 : forall y, y ∈ d0 -> due since to x).
  { intros y Hy. split; [|done]. split; [done|]. unfold delta_record in Ed. destruct (w_write_type (ve_write x)); [by left|by right|..];
      injection Ed as _ <-; by apply not_elem_of_nil in Hy. }
  split; intros e; rewrite elem_of_app, Hcons; [rewrite Hws, Hw0|rewrite Hds]; [tauto|].
  change (version_entry x).1 with (Key_append_ts (ve_key x) (ve_commit_ts x)).
  change (version_entry x).2 with (WriteRef_to_bytes (ve_write x)). rewrite Ed. cbn [snd]. specialize (Hd0 e).
  clear -Hd0. tauto.
Qed.

(** The default entries that a record adds. *)
Lemma delta_record_defaults snap since x ek value k v op : in_delta since x ->
  (k, v, op) ∈ (delta_record snap ek value (ve_key x) (ve_write x)).2
  <-> k = Key_append_ts (ve_key x) (w_start_ts (ve_write x))
      /\ match w_write_type (ve_write x) with
         | WtDelete => v = [] /\ op = OtDelete
         | _ => w_short_value (ve_write x) = None /\ get_value_cf snap "default" k = Some v /\ op = OtPut
         end.
Proof.
  intros [_ Ht]. unfold delta_record. destruct (w_write_type (ve_write x)) eqn:Ew; [| |by destruct Ht..]; cbn.
  - destruct (w_short_value (ve_write x)); [split; [by intros ?%not_elem_of_nil|naive_solver]|].
    destruct (get_value_cf snap "default" _) as [y|] eqn:Ey.
    + rewrite list_elem_of_singleton. split; [by intros [= -> -> ->]|]. intros (-> & _ & Hv & ->). congruence.
    + split; [by intros ?%not_elem_of_nil|]. intros (-> & _ & Hv & _). congruence.
  - rewrite list_elem_of_singleton. naive_solver.
Qed.

(** A seek skips the entries below its target. *)
Lemma seek_versions target versions : StronglySorted version_before versions ->
  exists rest, seek_entries target (map version_entry versions) = map version_entry rest
    /\ sublist rest versions
    /\ forall x, x ∈ rest <-> x ∈ versions /\ bytes_leb target (version_entry x).1 = true.
Proof.
  induction versions as [|x versions IH]; intros Hs.
  { exists []. split_and!; [done|done|]. intros x. split; [by intros ?%not_elem_of_nil|by intros [? _]]. }
  apply StronglySorted_inv in Hs as [Hs Hx]. cbn [map version_entry seek_entries].
  destruct (bytes_ltb (Key_append_ts (ve_key x) (ve_commit_ts x)) target) eqn:Hlt.
  - destruct (IH Hs) as (rest & -> & Hsub & Hin). exists rest. split_and!; [done|by constructor|].
    intros y. rewrite Hin, elem_of_cons. split; [tauto|]. intros [[-> | Hy] Hle]; [|done].
    apply bytes_ltb_ge in Hle. unfold version_entry in Hle. cbn in Hle. congruence.
  - exists (x :: versions). split_and!; [done|done|]. intros y. split; [|tauto]. intros Hy. split; [done|].
    apply bytes_ltb_ge in Hlt. apply elem_of_cons in Hy as [-> | Hy]; [done|]. rewrite Forall_forall in Hx.
    destruct (Hx y Hy) as [Hle _]. by eapply bytes_leb_trans.
Qed.

(** C31. A delta scan sends exactly the changes it has to.  For any bounds, and
    versions that the iterator yields in order, the scan always returns; the
    records of the write column family it sends are those of puts and deletions
    committed after the given timestamp, at or above the lower bound, whose key is
    below the upper one, and with them the default entries of the values that are
    not inlined, read at the start timestamp of the record, and a tombstone for
    every deletion.  The keys are those of the engine, with the data prefix, and so
    the bounds must be ([region_delta_scan_empty]); empty ones, as a span bridge
    passes them, do not restrict the scan. *)
Theorem delta_scan_exact snap since from to versions :
  Forall version_ok versions -> StronglySorted version_before versions ->
  snap "write"%string = Some (map version_entry versions) ->
  exists ws ds, scan_delta_entries snap since from to = Ok (ws, ds)
    /\ (forall e, e ∈ ws <-> exists x, x ∈ versions /\ in_delta since x /\ within_bounds from to x /\ e = version_entry x)
    /\ (forall k v op, (k, v, op) ∈ ds <-> exists x, x ∈ versions /\ in_delta since x /\ within_bounds from to x
          /\ k = Key_append_ts (ve_key x) (w_start_ts (ve_write x))
          /\ match w_write_type (ve_write x) with
             | WtDelete => v = [] /\ op = OtDelete
             | _ => w_short_value (ve_write x) = None /\ get_value_cf snap "default" k = Some v /\ op = OtPut
             end).
Proof.
  intros Hok Hsort Hsnap. unfold scan_delta_entries, open_scan. rewrite Hsnap. cbn [mbind option_bind].
  assert (exists rest, match from with [] => map version_entry versions | _ => seek_entries (encode_bound from) (map version_entry versions) end
      = map version_entry rest /\ sublist rest versions
    /\ forall x, x ∈ rest <-> x ∈ versions /\ (from = [] \/ bytes_leb (encode_bound from) (version_entry x).1 = true))
    as (rest & -> & Hsub & Hrest).
  { destruct from as [|c from]; [exists versions; split_and!; [done|done|naive_solver]|].
    destruct (seek_versions (encode_bound (c :: from)) versions Hsort) as (rest & -> & Hsub & Hin).
    exists rest. split_and!; [done|done|naive_solver]. }
  destruct (delta_loop_spec snap since to rest) as (ws & ds & -> & Hws & Hds).
  { rewrite Forall_forall in Hok |- *. intros x [Hx _]%Hrest. by apply Hok. }
  { by eapply StronglySorted_sublist. }
  exists ws, ds. split; [done|].
  assert (forall x, x ∈ rest /\ due since to x <-> x ∈ versions /\ in_delta since x /\ within_bounds from to x) as Hiff.
  { intros x. unfold due, within_bounds. rewrite Hrest, at_end_spec. tauto. }
  split.
  - intros e. rewrite Hws. apply exist_proper. intros x. specialize (Hiff x). tauto.
  - intros k v op. rewrite Hds. apply exist_proper. intros x. specialize (Hiff x).
    enough (in_delta since x -> (k, v, op) ∈ (delta_record snap (version_entry x).1 (version_entry x).2 (ve_key x) (ve_write x)).2
      <-> k = Key_append_ts (ve_key x) (w_start_ts (ve_write x))
          /\ match w_write_type (ve_write x) with
             | WtDelete => v = [] /\ op = OtDelete
             | _ => w_short_value (ve_write x) = None /\ get_value_cf snap "default" k = Some v /\ op = OtPut
             end) by tauto.
    apply delta_record_defaults.
Qed.

Lemma seek_entries_forall (P : bytes * bytes -> Prop) target entries :
  Forall P entries -> Forall P (seek_entries target entries).
Proof. induction 1 as [|[k v] l Hk Hl IH]; cbn; [done|]. destruct (bytes_ltb k target); [done|by constructor]. Qed.

(** A key of the engine: a data key with a timestamp. *)
Definition engine_key (k : bytes) : Prop := exists k' ts, k = Key_append_ts (data_key k') ts /\ u64_ok ts.

Lemma delta_loop_bounded snap since c to entries : c < DATA_PREFIX -> Forall (fun e => engine_key (fst e)) entries ->
  delta_loop snap since (c :: to) entries = Ok ([], []).
Proof.
  intros Hc. induction 1 as [|[k v] entries (k' & ts & Hk & Hts) _ IH]; [done|]. cbn [fst] in Hk. subst k. cbn [delta_loop].
  rewrite Key_decode_append, Key_truncate_for_append by done. cbn [ok_ mbind res_bind].
  destruct (since <? ts); [|done].
  assert (He : at_end (c :: to) (data_key k') = true); [|by rewrite He].
  unfold at_end, bytes_leb. rewrite bool_decide_eq_false_2 by done. cbn. unfold DATA_PREFIX in *. destruct (Z.compare_spec c 122); [lia|done|lia].
Qed.

(** Bounded by the end key of a region, as a subscription to one region makes
    it, a delta scan sends nothing, whatever was committed: the keys of the engine
    carry the data prefix, which sorts after every key of a table, and the end key
    is compared without it. *)
Theorem region_delta_scan_empty snap since from c to entries :
  snap "write"%string = Some entries -> Forall (fun e => engine_key (fst e)) entries -> c < DATA_PREFIX ->
  scan_delta_entries snap since from (c :: to) = Ok ([], [])
  /\ (since <> 0 -> subscribe_scan snap since from (c :: to) = Ok []).
Proof.
  intros Hsnap Hk Hc.
  assert (Hs : scan_delta_entries snap since from (c :: to) = Ok ([], [])).
  { unfold scan_delta_entries, open_scan. rewrite Hsnap. cbn [mbind option_bind].
    apply delta_loop_bounded; [done|]. destruct from; [done|]. by apply seek_entries_forall. }
  split; [done|]. intros H0. unfold subscribe_scan. rewrite Hs. destruct (Z.eqb_spec since 0); done.
Qed.

(** ** The regions of a span *)

(** A region as the placement driver describes it. *)
Definition region_json (id : u64) (r_start r_end : bytes) (conf_ver version : u64) : PdRegionJson :=
  {| pj_id := id; pj_start := hex_encode r_start; pj_end := hex_encode r_end; pj_conf_ver := conf_ver; pj_version := version |}.

Lemma bridge_overlaps_bounded s e rs re : s <> [] -> e <> [] -> span_ok s e -> span_ok rs re ->
  bridge_overlaps s e rs re = true <-> exists k, in_span s e k = true /\ in_span rs re k = true.
Proof.
  intros Hs He Hse Hr. set (sub := {| ss_start_key := s; ss_end_key := e; ss_sink := 0%nat;
    ss_event_buffer_size := 0; ss_event_flush_interval_ms := 0 |}).
  pose proof (subscription_matches_spec sub rs re Hse Hr) as Hm. cbn [sub ss_start_key ss_end_key] in Hm. rewrite <-Hm.
  unfold bridge_overlaps, subscription_matches. cbn [sub ss_start_key ss_end_key].
  by rewrite !(bool_decide_eq_false_2 (s = [])), !(bool_decide_eq_false_2 (e = [])) by done.
Qed.

Lemma bridge_overlaps_half s rs re : s <> [] -> rs <> [] -> bridge_overlaps s [] rs re = false.
Proof.
  intros Hs Hrs. unfold bridge_overlaps. rewrite !(bool_decide_eq_false_2 (s = [])), !(bool_decide_eq_false_2 (rs = [])) by done.
  by destruct rs; rewrite ?andb_false_r.
Qed.

Abbreviation BridgeRegion := (u64 * bytes * bytes * u64 * u64)%type.

Definition br_json (r : BridgeRegion) : PdRegionJson :=
  let '(id, r_start, r_end, conf_ver, version) := r in region_json id r_start r_end conf_ver version.
Definition br_start (r : BridgeRegion) : bytes := r.1.1.1.2.
Definition br_end (r : BridgeRegion) : bytes := r.1.1.2.

(** A region with an identifier, whose range is proper. *)
Definition br_ok (r : BridgeRegion) : Prop :=
  r.1.1.1.1 <> 0 /\ bytes_ok (br_start r) /\ bytes_ok (br_end r) /\ span_ok (br_start r) (br_end r).

Definition whole_space (r : BridgeRegion) : Prop := br_start r = [] /\ br_end r = [].

Lemma resolve_regions_spec s e regions : Forall br_ok regions ->
  exists found, resolve_regions (map br_json regions) s e = Ok found
    /\ forall r, r ∈ found <-> r ∈ regions /\ ~ whole_space r /\ bridge_overlaps s e (br_start r) (br_end r) = true.
Proof.
  induction 1 as [|[[[[id rs] re] cv] ver] regions (Hid & Hrs & Hre & _) _ (found & Hrun & Hin)].
  { exists []. split; [done|]. intros r. split; [by intros []%not_elem_of_nil|by intros ([]%not_elem_of_nil & _)]. }
  cbn [br_start br_end fst snd] in *. cbn [map br_json region_json resolve_regions pj_id pj_start pj_end].
  destruct (Z.eqb_spec id 0); [done|]. unfold decode_or_default. rewrite !hex_roundtrip by done. cbn [mbind res_bind].
  rewrite Hrun. cbn [mbind res_bind]. eexists. split; [reflexivity|]. intros r. rewrite elem_of_cons.
  assert (Hw : bool_decide (rs = []) && bool_decide (re = []) = true <-> whole_space (id, rs, re, cv, ver)).
  { rewrite andb_true_iff, !bool_decide_eq_true. done. }
  destruct (bool_decide (rs = []) && bool_decide (re = [])).
  { rewrite Hin. split; [tauto|]. intros ([->|?] & Hn & Ho); [|done]. tauto. }
  destruct (bridge_overlaps s e rs re) eqn:Eo.
  - cbn [pj_conf_ver pj_version]. rewrite elem_of_cons, Hin. split; [|tauto]. intros [->|?]; [|tauto].
    split; [by left|]. split; [|done]. intros Hws%Hw. done.
  - rewrite Hin. split; [tauto|]. intros ([->|?] & Hn & Ho); [cbn in Ho; congruence|tauto].
Qed.

(** The regions a span bridge finds for a span with a start key, from an
    answer that describes regions with proper ranges: for a bounded span those, and
    only those, that share a key with it, except that a region that covers the
    whole key space is never found; for a span without an end key only regions
    without a start key are, so that the regions inside it are missed. *)
Theorem bridge_regions s e regions : s <> [] -> span_ok s e -> Forall br_ok regions ->
  exists found, resolve_regions (map br_json regions) s e = Ok found
    /\ (e <> [] -> forall r, r ∈ found <-> r ∈ regions /\ ~ whole_space r
          /\ exists k, in_span s e k = true /\ in_span (br_start r) (br_end r) k = true)
    /\ (e = [] -> forall r, r ∈ found -> br_start r = []).
Proof.
  intros Hs Hse Hok. destruct (resolve_regions_spec s e regions Hok) as (found & Hrun & Hin).
  exists found. split_and!; [done| |].
  - intros He r. rewrite Hin.
    assert (Hr : r ∈ regions -> span_ok (br_start r) (br_end r)) by (intros; rewrite Forall_forall in Hok; by apply Hok).
    split; intros (Hr' & Hw & Ho); (split_and!; [done|done|]); by apply bridge_overlaps_bounded; auto.
  - intros -> r (_ & _ & Ho)%Hin. destruct (br_start r) as [|x l] eqn:Er; [done|].
    by rewrite bridge_overlaps_half in Ho.
Qed.

(** ** Meta records *)

Lemma land_128 b : u8_ok b -> (Z.land b 128 =? 0) = (b <? 128).
Proof.
  intros Hb. unfold u8_ok in Hb.
  assert (Ht : Z.testbit b 7 = negb (b <? 128)).
  { rewrite Z.testbit_eqb by lia. change (2 ^ 7) with 128. destruct (Z.ltb_spec b 128).
    - by rewrite Z.div_small by lia.
    - replace (b / 128) with 1; [done|]. apply Z.div_unique with (b - 128); lia. }
  destruct (Z.eqb_spec (Z.land b 128) 0) as [E|E].
  - apply (f_equal (fun x => Z.testbit x 7)) in E. rewrite Z.land_spec, Ht in E. change (Z.testbit 128 7) with true in E.
    rewrite andb_true_r, Z.bits_0 in E. by destruct (b <? 128).
  - destruct (b <? 128) eqn:Eb; [|done]. destruct E. apply Z.bits_inj'. intros i Hi. rewrite Z.land_spec, Z.bits_0.
    change 128 with (2 ^ 7). rewrite Z.pow2_bits_eqb by lia. destruct (Z.eqb_spec 7 i) as [<-|]; [|by rewrite andb_false_r].
    by rewrite Ht.
Qed.

Lemma be_varint_bound l v rest : var_enc l v -> forall acc, 0 <= acc -> (acc + 1) * 128 ^ zlen l <= 2 ^ 64 ->
  0 <= be_varint acc (l ++ rest) < (acc + 1) * 128 ^ zlen l.
Proof.
  assert (Hstep : forall acc b, 0 <= acc -> u8_ok b -> acc * 128 < 2 ^ 64 ->
    Z.lor (as_u64 (Z.shiftl acc 7)) (Z.land b 127) = acc * 128 + Z.land b 127 /\ 0 <= Z.land b 127 < 128).
  { intros acc b Ha Hb Hlt. assert (Hl : 0 <= Z.land b 127 < 128).
    { rewrite land_127 by done. unfold u8_ok in Hb. destruct (Z.ltb_spec b 128); lia. }
    split; [|done]. rewrite Z.lor_comm, var_step by (change (2 ^ 7) with 128; lia). change (2 ^ 7) with 128. lia. }
  induction 1 as [b Hb|b l v Hb Hl IH]; intros acc Hacc Hbound; cbn [app be_varint].
  - change (zlen [b]) with 1 in *. rewrite Z.pow_1_r in *.
    destruct (Hstep acc b) as [-> Hd]; [done|unfold u8_ok; lia|lia|].
    rewrite land_128 by (unfold u8_ok; lia). destruct (Z.ltb_spec b 128); lia.
  - assert (Hz : 128 ^ zlen (b :: l) = 128 * 128 ^ zlen l).
    { unfold zlen. cbn [length]. rewrite Nat2Z.inj_succ, Z.pow_succ_r by lia. done. }
    rewrite Hz in *. assert (0 < 128 ^ zlen l) by (apply Z.pow_pos_nonneg; unfold zlen; lia).
    destruct (Hstep acc b) as [-> Hd]; [done|unfold u8_ok; lia|nia|].
    rewrite land_128 by (unfold u8_ok; lia). destruct (Z.ltb_spec b 128); [lia|].
    destruct (IH (acc * 128 + Z.land b 127)) as [H1 H2]; [lia|nia|]. split; [done|]. nia.
Qed.

Lemma var_enc_zlen l v : var_enc l v -> 1 <= zlen l.
Proof. destruct 1; unfold zlen; cbn [length]; lia. Qed.

(** The encoding of a number is no longer than it needs to be. *)
Lemma encode_var_u64_loop_min fuel v : 0 < v -> v < 128 ^ Z.of_nat fuel ->
  128 ^ (zlen (encode_var_u64_loop fuel v) - 1) <= v.
Proof.
  revert v. induction fuel as [|fuel IH]; intros v Hv Hlt; [cbn in Hlt; lia|]. cbn [encode_var_u64_loop].
  destruct (Z.leb_spec 128 v) as [Hge|]; [|change (zlen [as_u8 v] - 1) with 0; rewrite Z.pow_0_r; lia]. rewrite Nat2Z.inj_succ, Z.pow_succ_r in Hlt by lia.
  rewrite shiftr_7. assert (Hd : 0 < v / 128) by (apply Z.div_str_pos; lia).
  assert (Hu : v / 128 < 128 ^ Z.of_nat fuel) by (apply Z.div_lt_upper_bound; lia).
  specialize (IH _ Hd Hu). pose proof (Z.mul_div_le v 128).
  replace (zlen (_ :: encode_var_u64_loop fuel (v / 128)) - 1) with (Z.succ (zlen (encode_var_u64_loop fuel (v / 128)) - 1))
    by (unfold zlen; cbn [length]; lia).
  destruct (encode_var_u64_loop_enc fuel (v / 128)) as [He _]; [lia|destruct fuel; [cbn in Hu; lia|lia]|].
  apply var_enc_zlen in He.
  rewrite Z.pow_succ_r by lia. lia.
Qed.

Lemma be_varint_small v rest : u64_ok v -> 0 < v -> v mod 128 = 0 -> be_varint 0 (encode_var_u64 v ++ rest) < v.
Proof.
  intros Hu Hv Hm. pose proof (encode_var_u64_enc v Hu) as He. pose proof (encode_var_u64_length v Hu) as Hlen.
  pose proof (encode_var_u64_loop_min 10 v Hv (proj2 (u64_128 v Hu))) as Hmin. fold (encode_var_u64 v) in Hmin.
  destruct He as [b Hb|b l v' Hb He]; [rewrite Z.mod_small in Hm; lia|].
  assert (b = 128) as ->.
  { rewrite (Z.mul_comm 128), Z.mod_add, Z.mod_small in Hm by lia. lia. }
  cbn [app be_varint]. replace (zlen (128 :: l) - 1) with (zlen l) in Hmin by (unfold zlen; cbn [length]; lia).
  change (Z.lor (as_u64 (Z.shiftl 0 7)) (Z.land 128 127)) with 0. change (Z.land 128 128 =? 0) with false. cbn match.
  destruct (be_varint_bound l v' rest He 0) as [_ H2]; [done| |lia].
  transitivity (128 ^ 9); [|by vm_compute]. rewrite Z.mul_1_l. apply Z.pow_le_mono_r; [lia|].
  unfold zlen. cbn [length] in Hlen. lia.
Qed.

Lemma skip_varint_enc l v rest : var_enc l v -> skip_varint (l ++ rest) = rest.
Proof.
  induction 1 as [b Hb|b l v Hb _ IH]; cbn [app skip_varint]; rewrite land_128 by (unfold u8_ok; lia).
  - by destruct (Z.ltb_spec b 128); [|lia].
  - by destruct (Z.ltb_spec b 128); [lia|].
Qed.

Lemma short_record_bytes t ts value :
  drop 1 (WriteRef_to_bytes (Write_new t ts (Some value))) = encode_var_u64 ts ++ 118 :: as_u8 (zlen value) :: value.
Proof. unfold WriteRef_to_bytes. cbn. by rewrite !app_nil_r. Qed.

(** A full scan makes up a default entry for every record of a meta key that
    carries its value, and misplaces it: it reads the start timestamp with the
    most significant group first, while records store the least significant one
    first, so that for every start timestamp that is a multiple of 128 the entry
    goes to another, smaller timestamp than that of the record. *)
Theorem meta_start_ts_misread snap k commit_ts ts value :
  u64_ok ts -> 0 < ts -> ts mod 128 = 0 -> (length value <= 255)%nat ->
  exists ts', meta_kvs snap (data_key (Key_append_ts k commit_ts)) (WriteRef_to_bytes (Write_new WtPut ts (Some value)))
              = [mk_kv "default" OtPut (data_key (Key_append_ts k ts')) value]
    /\ ts' < ts.
Proof.
  intros Hu Hp Hm Hl. exists (be_varint 0 (encode_var_u64 ts ++ 118 :: as_u8 (zlen value) :: value)).
  split; [|by apply be_varint_small]. unfold meta_kvs. rewrite short_record_bytes.
  rewrite (skip_varint_enc _ ts) by by apply encode_var_u64_enc.
  assert (Hz : as_u8 (zlen value) = zlen value) by (unfold as_u8, zlen; apply Z.mod_small; lia).
  assert (Hn : Z.to_nat (zlen value) = length value) by (unfold zlen; lia).
  rewrite Hz, Z.leb_refl, Hn, (take_ge value) by lia.
  change (data_key (Key_append_ts k commit_ts)) with (Key_append_ts (data_key k) commit_ts).
  rewrite Key_append_ts_length. replace (length (data_key k) + 8 - 8)%nat with (length (data_key k)) by lia.
  destruct (Nat.leb_spec 9 (length (data_key k) + 8)) as [|H9]; [|cbn in H9; lia].
  unfold Key_append_ts at 1. by rewrite take_app_length.
Qed.

(** ** Witnesses *)

Definition example_versions : list version :=
  [{| ve_key := [122; 116; 1]; ve_commit_ts := 20; ve_write := Write_new WtPut 10 None |};
   {| ve_key := [122; 116; 2]; ve_commit_ts := 5; ve_write := Write_new WtDelete 4 None |}].

Definition example_snapshot : RawSnapshot := fun cf =>
  if bool_decide (cf = "write"%string) then Some (map version_entry example_versions)
  else if bool_decide (cf = "default"%string) then Some [(Key_append_ts [122; 116; 1] 10, [9; 9])]
  else None.

Lemma full_scan_copies_witness :
  exists msgs, scan_region example_snapshot true 0 = Ok msgs
    /\ forall v cf k, replay_msgs v msgs cf k =
         if decide (cf = "default" \/ cf = "write")%string
         then match pair_get (stream_cf_full example_snapshot cf) k with Some x => Some x | None => v cf k end
         else v cf k.
Proof.
  apply (full_scan_copies example_snapshot 0).
  - apply NoDup_singleton.
  - vm_compute. apply NoDup_cons. split; [|apply NoDup_singleton]. intros Hx%list_elem_of_singleton. discriminate Hx.
  - repeat constructor.
Defined.

Lemma example_versions_sorted : StronglySorted version_before example_versions.
Proof. repeat constructor. Qed.

Lemma delta_scan_exact_witness :
  (exists ws ds, scan_delta_entries example_snapshot 3 [122; 116; 1] [122; 116; 2] = Ok (ws, ds)
    /\ forall e, e ∈ ws <-> exists x, x ∈ example_versions /\ in_delta 3 x /\ within_bounds [122; 116; 1] [122; 116; 2] x
         /\ e = version_entry x)
  /\ scan_delta_entries example_snapshot 3 [122; 116; 1] [122; 116; 2]
     = Ok ([version_entry {| ve_key := [122; 116; 1]; ve_commit_ts := 20; ve_write := Write_new WtPut 10 None |}],
           [(Key_append_ts [122; 116; 1] 10, [9; 9], OtPut)]).
Proof.
  split; [|vm_compute; reflexivity].
  destruct (delta_scan_exact example_snapshot 3 [122; 116; 1] [122; 116; 2] example_versions) as (ws & ds & H1 & H2 & _).
  - constructor; [|constructor; [|constructor]]; (split; [unfold u64_ok; cbn; lia|apply write_new_ok; [unfold u64_ok; lia|done]]).
  - apply example_versions_sorted.
  - reflexivity.
  - exists ws, ds. split; [exact H1|exact H2].
Defined.

Lemma region_delta_scan_empty_witness :
  scan_delta_entries example_snapshot 8 [116] [116; 255] = Ok ([], [])
  /\ (8 <> 0 -> subscribe_scan example_snapshot 8 [116] [116; 255] = Ok []).
Proof.
  apply (region_delta_scan_empty example_snapshot 8 [116] 116 [255] (map version_entry example_versions)).
  - reflexivity.
  - constructor; [|constructor; [|constructor]].
    + exists [116; 1], 20. split; [reflexivity|unfold u64_ok; lia].
    + exists [116; 2], 5. split; [reflexivity|unfold u64_ok; lia].
  - unfold DATA_PREFIX. lia.
Defined.

Lemma bridge_regions_witness :
  (exists found, resolve_regions (map br_json [(1, [10], [20], 1, 1); (2, [20], [], 1, 1)]) [15] [] = Ok found
    /\ (@nil Z <> [] -> forall r, r ∈ found <-> r ∈ [(1, [10], [20], 1, 1); (2, [20], [], 1, 1)] /\ ~ whole_space r
          /\ exists k, in_span [15] [] k = true /\ in_span (br_start r) (br_end r) k = true)
    /\ (@nil Z = [] -> forall r, r ∈ found -> br_start r = []))
  /\ resolve_regions (map br_json [(1, [10], [20], 1, 1); (2, [20], [], 1, 1)]) [15] [] = Ok []
  /\ resolve_regions (map br_json [(1, [10], [20], 1, 1); (2, [20], [], 1, 1)]) [15] [18] = Ok [(1, [10], [20], 1, 1)].
Proof.
  split; [|split; vm_compute; reflexivity].
  apply (bridge_regions [15] [] [(1, [10], [20], 1, 1); (2, [20], [], 1, 1)]); [done|by left|].
  constructor; [|constructor; [|constructor]]; (split; [done|]);
    (split; [repeat constructor; unfold u8_ok; lia|]); (split; [repeat constructor; unfold u8_ok; lia|]).
  - by right.
  - by left.
Defined.

Lemma meta_start_ts_misread_witness :
  exists ts', meta_kvs (fun _ => None) (data_key (Key_append_ts META_WINDOW 300))
                (WriteRef_to_bytes (Write_new WtPut 256 (Some [1])))
              = [mk_kv "default" OtPut (data_key (Key_append_ts META_WINDOW ts')) [1]]
    /\ ts' < 256.
Proof. apply (meta_start_ts_misread (fun _ => None) META_WINDOW 300 256 [1]); [unfold u64_ok; lia|lia|reflexivity|cbn; lia]. Defined.
