(* ===== verification/Gc.v ===== *)
(** * Garbage collection of old versions

    Models [src/storage/txn/actions/gc.rs]: [gc] walks the write records of one
    key from the newest to the oldest and deletes what no reader at or above
    the safe point needs, with the values those records own.  The states of the
    walk are [GcState]; a run stops early when the transaction buffer is full,
    and the caller runs it again.

    The effect of a run on the history of the key is [gc_result]; [remain_*] are
    the consequences for readers, used by the theorems in [GcWorker].  A write
    batch stays within a bound ([gc_batch_bounded]). *)

From Stdlib Require Import ZArith Lia.
From stdpp Require Import base numbers list gmap.
From S2P Require Import Prelude Number Bytes Types Write Lock ConcurrencyManager Engine Reader.
From S2P Require Import AbsState ReaderSpec MvccTxn.

Open Scope Z_scope.

Record Gc : Type := {
  gc_cur_ts : TimeStamp;
  gc_info : GcInfo;
  gc_txn : MvccTxn
}.

Inductive GcState : Type :=
| GsRewind (safe_point : TimeStamp)
| GsRemoveIdempotent
| GsRemoveAll (latest_delete : option (TimeStamp * Write)).

Definition Gc_new (txn : MvccTxn) : Gc :=
  {| gc_cur_ts := TimeStamp_max;
     gc_info := {| found_versions := 0; deleted_versions := 0; is_completed := false |};
     gc_txn := txn |}.

Section Gc.
Context {Snap : Type} `{EngineSnapshot Snap}.
Implicit Types reader : SnapshotReader Snap.

Definition Gc_delete_write (key : Key) (g : Gc) (write : Write) (ts : TimeStamp) : mvcc_res Gc :=
  txn ← delete_write (gc_txn g) key ts;
  txn ← (if (bool_decide (w_write_type write = WtPut)
             && bool_decide (w_short_value write = None))%bool
         then delete_value txn key (w_start_ts write)
         else Ok txn);
  Ok {| gc_cur_ts := gc_cur_ts g;
        gc_info := {| found_versions := found_versions (gc_info g);
                      deleted_versions := deleted_versions (gc_info g) + 1;
                      is_completed := is_completed (gc_info g) |};
        gc_txn := txn |}.

Definition Gc_next_write reader (key : Key) (g : Gc)
    : mvcc_res (option (TimeStamp * Write) * Gc) :=
  result ← seek_write reader key (gc_cur_ts g);
  match result with
  | Some (commit, _) =>
      cur_ts ← TimeStamp_prev commit;
      Ok (result,
          {| gc_cur_ts := cur_ts;
             gc_info := {| found_versions := found_versions (gc_info g) + 1;
                           deleted_versions := deleted_versions (gc_info g);
                           is_completed := is_completed (gc_info g) |};
             gc_txn := gc_txn g |})
  | None => Ok (None, g)
  end.

(** [State::step]; the first version at or below the safe point is handled by
    the second state at once. *)
Definition GcState_step (key : Key) (state : GcState) (g : Gc) (write : Write)
    (commit_ts : TimeStamp) : mvcc_res (GcState * Gc) :=
  let remove_idempotent :=
    match w_write_type write with
    | WtPut => Ok (GsRemoveAll None, g)
    | WtDelete => Ok (GsRemoveAll (Some (commit_ts, write)), g)
    | WtRollback | WtLock =>
        g ← Gc_delete_write key g write commit_ts; Ok (GsRemoveIdempotent, g)
    end in
  match state with
  | GsRewind safe_point =>
      if commit_ts <=? safe_point then remove_idempotent else Ok (state, g)
  | GsRemoveIdempotent => remove_idempotent
  | GsRemoveAll _ => g ← Gc_delete_write key g write commit_ts; Ok (state, g)
  end.

(** The buffer is the caller's, and keeps what was deleted before an error. *)
Definition and_then {A} (g : Gc) (m : mvcc_res A) (k : A -> mvcc_res GcInfo * MvccTxn)
    : mvcc_res GcInfo * MvccTxn :=
  match m with
  | Ok a => k a
  | Err e => (Err e, gc_txn g)
  | Panic => (Panic, gc_txn g)
  end.

Fixpoint Gc_run_loop reader (fuel : nat) (key : Key) (state : GcState) (g : Gc)
    : mvcc_res GcInfo * MvccTxn :=
  match fuel with
  | O => (Panic, gc_txn g)
  | S fuel =>
      and_then g (Gc_next_write reader key g) (fun next =>
      let g := snd next in
      match fst next with
      | Some (commit, write) =>
          if (MAX_TXN_WRITE_SIZE <=? t_write_size (gc_txn g))%nat
          then (Ok (gc_info g), gc_txn g)
          else
            and_then g (GcState_step key state g write commit) (fun st =>
            Gc_run_loop reader fuel key (fst st) (snd st))
      | None =>
          and_then g (match state with
                      | GsRemoveAll (Some (commit, write)) => Gc_delete_write key g write commit
                      | _ => Ok g
                      end) (fun g =>
          (Ok {| found_versions := found_versions (gc_info g);
                 deleted_versions := deleted_versions (gc_info g);
                 is_completed := true |}, gc_txn g))
      end)
  end.

Definition Gc_run reader (key : Key) (safe_point : TimeStamp) (g : Gc) : mvcc_res GcInfo * MvccTxn :=
  Gc_run_loop reader (read_fuel reader) key (GsRewind safe_point) g.

Definition gc (txn : MvccTxn) reader (key : Key) (safe_point : TimeStamp)
    : mvcc_res GcInfo * MvccTxn :=
  Gc_run reader key safe_point (Gc_new txn).
End Gc.

(** ** The updates of a run *)

(** What is deleted with one version. *)
Definition version_updates (key : Key) (x : TimeStamp * Write) : list LModify :=
  LDelWrite key x.1
  :: (if (bool_decide (w_write_type x.2 = WtPut) && bool_decide (w_short_value x.2 = None))%bool
      then [LDelValue key (w_start_ts x.2)] else []).

Definition gc_updates (key : Key) (dels : list (TimeStamp * Write)) : list LModify :=
  concat (map (version_updates key) dels).

Lemma gc_updates_snoc key dels x :
  gc_updates key (dels ++ [x]) = gc_updates key dels ++ version_updates key x.
Proof. unfold gc_updates. rewrite map_app, concat_app. cbn. by rewrite app_nil_r. Qed.

Definition owns_value (w : Write) : Prop := w_write_type w = WtPut /\ w_short_value w = None.

(** A buffer that differs from [txn] by the deletion of [dels]. *)
Definition collected (key : Key) (txn : MvccTxn) (dels : list (TimeStamp * Write)) (g : Gc) : Prop :=
  gc_txn g = add_updates txn (gc_updates key dels) []
  /\ deleted_versions (gc_info g) = length dels /\ is_completed (gc_info g) = false.

Lemma Gc_delete_write_spec key txn dels g w ts :
  collected key txn dels g ->
  exists g', Gc_delete_write key g w ts = Ok g' /\ gc_cur_ts g' = gc_cur_ts g
    /\ collected key txn (dels ++ [(ts, w)]) g'.
Proof.
  intros (Ht & Hd & Hc). unfold Gc_delete_write. rewrite Ht. autorewrite with mvcc_txn.
  cbn [mbind res_bind]. unfold collected. rewrite gc_updates_snoc, length_app. unfold version_updates.
  cbn [fst snd length]. destruct (_ && _)%bool; autorewrite with mvcc_txn; cbn [mbind res_bind];
    eexists; (split; [reflexivity|]); cbn; rewrite Hd, <-?app_assoc; split_and!; try done; try lia.
Qed.

(** ** The walk over the versions *)

Section Walk.
Context (W : TimeStamp -> option Write) (sp : TimeStamp).

Definition is_delete (w : Write) : bool := bool_decide (w_write_type w = WtDelete).

(** Everything above [cur] has been handled; [dels] is what was deleted. *)
Definition walk_inv (state : GcState) (cur : TimeStamp) (dels : list (TimeStamp * Write)) : Prop :=
  match state with
  | GsRewind sp' => sp' = sp /\ dels = [] /\ forall t w, cur < t -> W t = Some w -> sp < t
  | GsRemoveIdempotent =>
      cur <= sp /\ (forall x, x ∈ dels <-> cur < x.1 <= sp /\ W x.1 = Some x.2)
      /\ forall x, x ∈ dels -> is_change x.2 = false
  | GsRemoveAll latest =>
      exists c1 w1, newest_change W sp (Some (c1, w1)) /\ cur < c1 <= sp
      /\ (forall x, x ∈ dels <-> cur < x.1 <= sp /\ W x.1 = Some x.2 /\ x.1 <> c1)
      /\ latest = if is_delete w1 then Some (c1, w1) else None
  end.

(** What a run does to the history: it deletes records at or below the safe
    point, either only ones that change nothing, or also older changes, but the
    newest change only if it is a deletion and nothing else remains. *)
Record gc_result (completed : bool) (dels : list (TimeStamp * Write)) : Prop := {
  gr_below : forall x, x ∈ dels -> x.1 <= sp /\ W x.1 = Some x.2;
  gr_keeps : (forall x, x ∈ dels -> is_change x.2 = false)
    \/ exists c1 w1, newest_change W sp (Some (c1, w1))
       /\ (c1 ∉ dels.*1
           \/ is_delete w1 = true /\ forall t w, t <= sp -> W t = Some w -> (t, w) ∈ dels);
  gr_complete : completed = true -> forall t w, t <= sp -> W t = Some w -> (t, w) ∉ dels ->
    newest_change W sp (Some (t, w)) /\ w_write_type w = WtPut
}.

Lemma newest_split cur c w t w' :
  newest W cur (Some (c, w)) -> W t = Some w' -> c - 1 < t -> (t = c /\ w' = w) \/ cur < t.
Proof.
  intros (Hc & Hw & Hno) Hw' Ht. destruct (decide (t = c)) as [->|]; [left; by simplify_eq|].
  destruct (Z_le_gt_dec t cur); [by rewrite Hno in Hw' by lia|right; lia].
Qed.

(** The set handled grows by the version the walk has just met. *)
Lemma handled_step cur c w x :
  newest W cur (Some (c, w)) -> c <= sp ->
  c - 1 < x.1 <= sp /\ W x.1 = Some x.2 <-> (cur < x.1 <= sp /\ W x.1 = Some x.2) \/ x = (c, w).
Proof.
  intros Hn Hc. destruct x as [t w']; cbn. split.
  - intros [Ht Hw']. destruct (newest_split cur c w t w' Hn Hw') as [[-> ->]|?]; [lia|by right|].
    left. split; [lia|done].
  - destruct Hn as (Hle & Hw & _). intros [[Ht Hw']|[= -> ->]]; (split; [lia|done]).
Qed.

Lemma newest_change_met cur c w :
  newest W cur (Some (c, w)) -> c <= sp -> is_change w = true ->
  (forall t w', cur < t <= sp -> W t = Some w' -> is_change w' = false) ->
  newest_change W sp (Some (c, w)).
Proof.
  intros Hn Hc Hch Hidle. pose proof Hn as (Hle & Hw & _). split_and!; [done..|].
  intros t w' Ht Hw'. destruct (newest_split cur c w t w' Hn Hw') as [[-> ->]|?]; [lia..|].
  apply (Hidle t); [lia|done].
Qed.

Lemma is_delete_change w : is_delete w = true -> is_change w = true.
Proof. unfold is_delete, is_change. rewrite bool_decide_eq_true. by intros ->. Qed.

(** The change at or below the safe point is met: nothing is deleted. *)
Lemma walk_change cur dels c w :
  newest W cur (Some (c, w)) -> c <= sp -> is_change w = true ->
  (forall x, x ∈ dels <-> cur < x.1 <= sp /\ W x.1 = Some x.2) ->
  (forall x, x ∈ dels -> is_change x.2 = false) ->
  walk_inv (GsRemoveAll (if is_delete w then Some (c, w) else None)) (c - 1) dels.
Proof.
  intros Hn Hc Hch Hd Hidle. exists c, w. split.
  { apply (newest_change_met cur); auto. intros t w' Ht Hw'. apply (Hidle (t, w')). by apply Hd. }
  split; [lia|]. split; [|done]. intros x. rewrite (Hd x). pose proof Hn as (Hle & _).
  pose proof (handled_step cur c w x Hn Hc) as Hs. split.
  - intros [Hx Hw]. assert (c - 1 < x.1 <= sp /\ W x.1 = Some x.2) as [? ?] by (apply Hs; by left).
    split_and!; [lia..|done|lia].
  - intros (Hx & Hw & Hne). destruct (proj1 Hs) as [?|Heq]; [done|done|]. by subst x.
Qed.

Lemma walk_idle cur dels c w :
  newest W cur (Some (c, w)) -> c <= sp -> is_change w = false ->
  (forall x, x ∈ dels <-> cur < x.1 <= sp /\ W x.1 = Some x.2) ->
  (forall x, x ∈ dels -> is_change x.2 = false) ->
  walk_inv GsRemoveIdempotent (c - 1) (dels ++ [(c, w)]).
Proof.
  intros Hn Hc Hch Hd Hidle. split; [lia|]. split; intros x; rewrite elem_of_app, list_elem_of_singleton.
  - rewrite Hd. by rewrite (handled_step cur c w x Hn Hc).
  - intros [? | ->]; [auto|done].
Qed.

Lemma rewind_idle cur :
  (forall t w, cur < t -> W t = Some w -> sp < t) ->
  forall x : TimeStamp * Write, x ∈ [] <-> cur < x.1 <= sp /\ W x.1 = Some x.2.
Proof.
  intros Hr x. split; [by intros ?%not_elem_of_nil|]. intros [Hx Hw]. specialize (Hr _ _ (proj1 Hx) Hw). lia.
Qed.

Lemma walk_step key txn state dels g c w cur :
  walk_inv state cur dels -> newest W cur (Some (c, w)) -> collected key txn dels g ->
  exists state' g' dels', GcState_step key state g w c = Ok (state', g')
    /\ walk_inv state' (c - 1) dels' /\ collected key txn dels' g' /\ gc_cur_ts g' = gc_cur_ts g.
Proof.
  intros Hi Hn Hg.
  assert (c <= sp -> (forall x, x ∈ dels <-> cur < x.1 <= sp /\ W x.1 = Some x.2) ->
    (forall x, x ∈ dels -> is_change x.2 = false) ->
    exists state' g' dels', GcState_step key GsRemoveIdempotent g w c = Ok (state', g')
    /\ walk_inv state' (c - 1) dels' /\ collected key txn dels' g' /\ gc_cur_ts g' = gc_cur_ts g) as Hidem.
  { intros Hc Hd Hidle. pose proof (walk_change cur dels c w Hn Hc) as Hchange.
    destruct (Gc_delete_write_spec key txn dels g w c Hg) as (g' & Hdel & Hcur & Hg').
    pose proof (walk_idle cur dels c w Hn Hc) as Hidl. unfold is_change, is_delete in *.
    cbn [GcState_step]. destruct (w_write_type w); [eauto 10 | eauto 10 | |];
      rewrite Hdel; cbn [mbind res_bind]; eauto 10. }
  destruct state as [sp'| |latest].
  - destruct Hi as (-> & -> & Hr). cbn [GcState_step]. destruct (Z.leb_spec c sp).
    + apply Hidem; [done|by apply rewind_idle|]. by intros x ?%not_elem_of_nil.
    + exists (GsRewind sp), g, []. split_and!; [done..| |done|done]. split_and!; [done..|].
      intros t w' Ht Hw'. destruct (newest_split cur c w t w' Hn Hw') as [[-> _]|?]; [lia..|eauto].
  - destruct Hi as (Hle & Hd & Hidle). destruct Hn as (? & _). apply Hidem; [lia|done..].
  - destruct Hi as (c1 & w1 & Hn1 & Hc1 & Hd & ->). cbn [GcState_step].
    destruct (Gc_delete_write_spec key txn dels g w c Hg) as (g' & -> & Hcur & Hg').
    cbn [mbind res_bind]. eexists _, g', _. split_and!; [done| |done..]. exists c1, w1.
    pose proof Hn as (? & _). split_and!; [done|lia..| |done]. intros x.
    rewrite elem_of_app, list_elem_of_singleton, Hd.
    pose proof (handled_step cur c w x Hn ltac:(lia)) as Hs. split.
    + intros [(Hx & Hw & Hne) | ->]; [|cbn in *; split_and!; try lia; by apply Hn].
      split_and!; [lia..|done|done].
    + intros (Hx & Hw & Hne). destruct (proj1 Hs) as [[? ?]|?]; [done|left|by right]. done.
Qed.

Lemma walk_stop state cur dels : walk_inv state cur dels -> gc_result false dels.
Proof.
  destruct state as [sp'| |latest]; cbn [walk_inv].
  - intros (_ & -> & _). split; [by intros x ?%not_elem_of_nil|left; by intros x ?%not_elem_of_nil|done].
  - intros (Hle & Hd & Hidle). split; [|by left|done]. intros x Hx%Hd. split; [lia|apply Hx].
  - intros (c1 & w1 & Hn & Hc & Hd & _). split; [| |done].
    + intros x Hx%Hd. split; [lia|apply Hx].
    + right. exists c1, w1. split; [done|]. left. intros ([t w] & -> & Hx)%list_elem_of_fmap.
      apply Hd in Hx. by destruct Hx as (_ & _ & ?).
Qed.

(** The newest deletion goes once everything older is gone. *)
Definition last_deleted (state : GcState) : list (TimeStamp * Write) :=
  match state with GsRemoveAll (Some x) => [x] | _ => [] end.

Lemma walk_done state cur dels :
  walk_inv state cur dels -> newest W cur None -> gc_result true (dels ++ last_deleted state).
Proof.
  intros Hi Hno. assert (forall t w, W t = Some w -> cur < t) as Habove.
  { intros t w Hw. destruct (Z_le_gt_dec t cur); [by rewrite Hno in Hw|lia]. }
  destruct state as [sp'| |latest]; cbn [walk_inv last_deleted] in *; [rewrite app_nil_r..|].
  - destruct Hi as (_ & -> & Hr). split; [by intros x ?%not_elem_of_nil|left; by intros x ?%not_elem_of_nil|].
    intros _ t w Ht Hw. specialize (Hr t w (Habove t w Hw) Hw). lia.
  - destruct Hi as (Hle & Hd & Hidle). split; [|by left|].
    + intros x Hx%Hd. split; [lia|apply Hx].
    + intros _ t w Ht Hw Hnin. destruct Hnin. apply Hd. eauto.
  - destruct Hi as (c1 & w1 & Hn & Hc & Hd & ->). pose proof Hn as (_ & Hw1 & Hch1 & _).
    assert (forall t w, t <= sp -> W t = Some w -> t <> c1 -> (t, w) ∈ dels) as Hall.
    { intros t w Ht Hw Hne. apply Hd. cbn. split_and!; eauto. }
    destruct (is_delete w1) eqn:Hdel; [|rewrite app_nil_r]; split.
    + intros x [Hx%Hd | ->%list_elem_of_singleton]%elem_of_app; [split; [lia|apply Hx]|cbn; split; [lia|done]].
    + right. exists c1, w1. split; [done|]. right. split; [done|]. intros t w Ht Hw.
      apply elem_of_app. destruct (decide (t = c1)) as [->|]; [|by left; apply Hall].
      right. simplify_eq. by apply list_elem_of_singleton.
    + intros _ t w Ht Hw Hnin. destruct Hnin. apply elem_of_app.
      destruct (decide (t = c1)) as [->|]; [|by left; apply Hall]. simplify_eq.
      right. by apply list_elem_of_singleton.
    + intros x Hx%Hd. split; [lia|apply Hx].
    + right. exists c1, w1. split; [done|]. left. intros ([t w] & -> & Hx)%list_elem_of_fmap.
      apply Hd in Hx. by destruct Hx as (_ & _ & ?).
    + intros _ t w Ht Hw Hnin. destruct (decide (t = c1)) as [->|]; [|by destruct Hnin; apply Hall].
      simplify_eq. split; [done|]. unfold is_delete, is_change in *. by destruct (w_write_type w1).
Qed.
End Walk.

(** ** A run on a store *)

Section Run.
Context {Snap : Type} `{EngineSnapshotLaws Snap}.
Context (r : SnapshotReader Snap) (raw : bytes).
Hypothesis (wf : wf_write_cf (r_snapshot r)) (raw_ok : bytes_ok raw).
Let key := Key_from_raw raw.
Let W := write_at (r_snapshot r) key.

Lemma Gc_run_loop_spec txn sp fuel : forall state g dels,
  (forall t w, W t = Some w -> 0 < t < 2 ^ 64) -> u64_ok (gc_cur_ts g) ->
  enough_fuel r raw fuel (gc_cur_ts g) -> walk_inv W sp state (gc_cur_ts g) dels ->
  collected key txn dels g ->
  exists info dels', Gc_run_loop r fuel key state g
    = (Ok info, add_updates txn (gc_updates key dels') [])
    /\ gc_result W sp (is_completed info) dels' /\ deleted_versions info = length dels'
    /\ (is_completed info = false ->
        MAX_TXN_WRITE_SIZE <= t_write_size (add_updates txn (gc_updates key dels') []))%nat.
Proof.
  induction fuel as [|fuel IH]; intros state g dels Hpos Hcur Hf Hi Hg.
  { apply enough_fuel_pos in Hf; [lia|done]. }
  cbn [Gc_run_loop]. unfold Gc_next_write.
  destruct (seek_write_spec r raw wf raw_ok (gc_cur_ts g) Hcur) as (o & Hseek & Hn & _).
  fold key in Hseek. rewrite Hseek. fold key W in Hn. cbn [mbind res_bind]. destruct o as [[c w]|].
  - pose proof Hn as (Hle & Hw & _). pose proof (Hpos c w Hw). unfold TimeStamp_prev.
    destruct (Z.ltb_spec 0 c); [|lia]. cbn [assert_ mbind res_bind and_then fst snd gc_txn].
    pose proof Hg as (Ht & Hd & Hc). destruct (Nat.leb_spec MAX_TXN_WRITE_SIZE (t_write_size (gc_txn g))).
    { eexists _, dels. split; [by rewrite Ht|]. cbn [is_completed deleted_versions]. rewrite Hc, <-Ht.
      split_and!; [by eapply walk_stop|done|done]. }
    set (g1 := {| gc_cur_ts := c - 1; gc_info := _; gc_txn := gc_txn g |}).
    assert (collected key txn dels g1) as Hg1 by done.
    destruct (walk_step W sp key txn state dels g1 c w (gc_cur_ts g) Hi Hn Hg1)
      as (state' & g' & dels' & -> & Hi' & Hg' & Hcur'). cbn [and_then fst snd].
    change (gc_cur_ts g1) with (c - 1) in Hcur'.
    apply (IH state' g' dels'); rewrite ?Hcur'; auto; [unfold u64_ok in *; lia|].
    by eapply enough_fuel_step.
  - pose proof (walk_done W sp state (gc_cur_ts g) dels Hi Hn) as Hres.
    pose proof Hg as (Ht & Hd & Hc).
    destruct state as [| |[[c w]|]]; cbn [last_deleted] in Hres; rewrite ?app_nil_r in Hres.
    all: cbn [and_then fst snd].
    1, 2, 4: by eexists _, dels; rewrite Ht; split; [reflexivity|].
    destruct (Gc_delete_write_spec key txn dels g w c Hg) as (g' & -> & _ & Ht' & Hd' & _).
    cbn [and_then]. eexists _, _. rewrite Ht'. split; [done|by split].
Qed.

Lemma gc_spec txn sp :
  (forall t w, W t = Some w -> 0 < t < 2 ^ 64) ->
  exists info dels, gc txn r key sp = (Ok info, add_updates txn (gc_updates key dels) [])
    /\ gc_result W sp (is_completed info) dels /\ deleted_versions info = length dels
    /\ (is_completed info = false ->
        MAX_TXN_WRITE_SIZE <= t_write_size (add_updates txn (gc_updates key dels) []))%nat.
Proof.
  intros Hpos. apply (Gc_run_loop_spec txn sp (read_fuel r) (GsRewind sp) (Gc_new txn) []); auto.
  - unfold u64_ok, Gc_new, TimeStamp_max, u64_max. cbn. lia.
  - apply enough_fuel_start.
  - split_and!; [done..|]. intros t w Ht Hw. specialize (Hpos t w Hw).
    unfold Gc_new, TimeStamp_max, u64_max in Ht. cbn in Ht. lia.
  - split; [|done]. cbn. by rewrite add_updates_nil.
Qed.
End Run.

(** ** The history after a run *)

Definition remain (W : TimeStamp -> option Write) (dels : list (TimeStamp * Write)) (t : TimeStamp)
    : option Write := if decide (t ∈ dels.*1) then None else W t.

Section After.
Context (W : TimeStamp -> option Write) (sp : TimeStamp) (completed : bool)
  (dels : list (TimeStamp * Write)).
Hypothesis (res : gc_result W sp completed dels).

Lemma remain_some t w : remain W dels t = Some w <-> W t = Some w /\ (t, w) ∉ dels.
Proof.
  unfold remain. case_decide as Hd.
  - split; [done|]. intros [Hw Hn]. apply list_elem_of_fmap in Hd as ([t' w'] & -> & Hin).
    destruct (gr_below _ _ _ _ res _ Hin) as [_ Hw']. cbn in *. by simplify_eq.
  - split; [|by intros []]. intros Hw. split; [done|]. intros Hin. apply Hd.
    apply list_elem_of_fmap. by exists (t, w).
Qed.

Lemma remain_above t w : sp < t -> W t = Some w -> remain W dels t = Some w.
Proof.
  intros Ht Hw. apply remain_some. split; [done|]. intros Hin.
  destruct (gr_below _ _ _ _ res _ Hin). cbn in *. lia.
Qed.

(** The newest change at or above the safe point survives, or it is a deletion
    and nothing at or below the safe point remains. *)
Lemma remain_newest ts o :
  sp <= ts -> newest_change W ts o ->
  newest_change (remain W dels) ts o
  \/ newest_change (remain W dels) ts None
     /\ exists c w, o = Some (c, w) /\ is_delete w = true /\ remain W dels c = None.
Proof.
  intros Hts Hn. destruct o as [[c w]|].
  2:{ left. intros t w Ht [Hw _]%remain_some. by apply (Hn t). }
  destruct Hn as (Hc & Hw & Hch & Hno).
  assert (remain W dels c = Some w -> newest_change (remain W dels) ts (Some (c, w))) as Hkeep.
  { intros Hr. split_and!; [done..|]. intros t w' Ht [Hw' _]%remain_some. by apply (Hno t). }
  destruct (decide ((c, w) ∈ dels)) as [Hin|Hin]; [|left; apply Hkeep, remain_some; done].
  destruct (gr_keeps _ _ _ _ res) as [Hidle|(c1 & w1 & Hn1 & Hk)].
  { specialize (Hidle _ Hin). cbn in Hidle. congruence. }
  pose proof (gr_below _ _ _ _ res _ Hin) as [Hcsp _]. cbn in Hcsp.
  assert (newest_change W sp (Some (c, w))) as Hn.
  { split_and!; [done..|]. intros t w' Ht. apply Hno. lia. }
  pose proof (newest_change_unique W sp _ _ Hn Hn1) as [= <- <-].
  destruct Hk as [Hnin|[Hdel Hall]].
  { destruct Hnin. apply list_elem_of_fmap. by exists (c, w). }
  right. split.
  - intros t w' Ht [Hw' Hnin]%remain_some. destruct (Z_le_gt_dec t sp) as [Hle|Hgt].
    + by destruct (Hnin (Hall t w' Hle Hw')).
    + apply (Hno t); [lia|done].
  - exists c, w. split_and!; [done..|]. unfold remain. rewrite decide_True; [done|].
    apply list_elem_of_fmap. by exists (c, w).
Qed.

Lemma remain_fenced ts o limit :
  sp <= ts -> newest_change W ts o ->
  exists o', newest_change (remain W dels) ts o' /\ fenced limit o' = fenced limit o
    /\ (o' = o \/ o' = None).
Proof.
  intros Hts Hn. destruct (remain_newest ts o Hts Hn) as [Hn'|(Hn' & c & w & -> & Hdel & _)]; [by eauto|].
  exists None. split_and!; [done| |by right]. rewrite (fenced_invisible limit (Some (c, w))); [done|].
  cbn. unfold is_delete in Hdel. rewrite bool_decide_eq_true in Hdel. by rewrite Hdel.
Qed.

(** Hints stay right where the newest change survives, or goes with everything
    a reader could still meet. *)
Lemma remain_hint c lc :
  (forall o, newest_change W (c - 1) o ->
     newest_change (remain W dels) (c - 1) o
     \/ newest_change (remain W dels) (c - 1) None
        /\ exists c' w, o = Some (c', w) /\ is_delete w = true /\ remain W dels c' = None) ->
  last_change_valid W c lc -> last_change_valid (remain W dels) c lc.
Proof.
  intros Hnew. destruct lc as [|l n|]; cbn [last_change_valid]; [done| |].
  - intros [Hu [[w Hn]|(Hlt & Hnone & Hn)]]; (split; [done|]).
    + destruct (Hnew _ Hn) as [Hn'|(Hn' & c1 & w1 & [= <- <-] & _ & Hr)]; [eauto|].
      right. destruct Hn as (Hl & _). split_and!; [lia|done|done].
    + right. split_and!; [done|unfold remain; by case_decide|]. by destruct (Hnew _ Hn) as [?|(? & _)].
  - intros (o & Hn & Hv). destruct (Hnew _ Hn) as [?|(? & _)]; [eauto|by exists None].
Qed.

(** Only records that change nothing were deleted. *)
Lemma remain_idle_newest ts o :
  (forall x, x ∈ dels -> is_change x.2 = false) -> newest_change W ts o -> newest_change (remain W dels) ts o.
Proof.
  intros Hidle. destruct o as [[c w]|]; cbn.
  - intros (Hc & Hw & Hch & Hno). split_and!; [done| |done|].
    + apply remain_some. split; [done|]. intros Hin. specialize (Hidle _ Hin). cbn in Hidle. congruence.
    + intros t w' Ht [Hw' _]%remain_some. by apply (Hno t).
  - intros Hno t w Ht [Hw _]%remain_some. by apply (Hno t).
Qed.

Lemma remain_history_kept b c1 w1 :
  history_from b W -> floor W b sp -> newest_change W sp (Some (c1, w1)) -> c1 ∉ dels.*1 ->
  history_from c1 (remain W dels).
Proof.
  intros Hh Hb (Hc1 & Hw1 & Hch1 & Hno) Hnin.
  assert (forall c w, c1 < c -> W c = Some w -> is_change w = true -> remain W dels c = Some w) as Hkeep.
  { intros c w Hc Hw Hch. apply remain_above; [|done]. destruct (Z_le_gt_dec c sp); [|lia].
    rewrite (Hno c w) in Hch; done. }
  assert (b <= c1) as Hbc.
  { destruct Hb as [->|[Hle (w & Hw & Hch)]]; [apply (from_pos 0 W) in Hw1; [lia|done]|].
    destruct (Z_le_gt_dec b c1); [done|]. rewrite (Hno b w) in Hch; [done|lia|done]. }
  assert (remain W dels c1 = Some w1) as Hr1 by (unfold remain; by rewrite decide_False).
  split.
  - intros t w [Hw _]%remain_some. by apply (from_pos b W Hh t w).
  - intros c w Hc [Hw _]%remain_some Hch. apply remain_hint; [|apply (from_last_change b W Hh c w); done || lia].
    intros [[c' w']|] Hn; left.
    + destruct Hn as (Hle & Hw' & Hch' & Hno'). assert (c1 <= c').
      { destruct (Z_le_gt_dec c1 c'); [done|]. rewrite (Hno' c1 w1) in Hch1; [done|lia|done]. }
      split_and!; [done| |done|].
      * destruct (decide (c' = c1)) as [->|]; [by simplify_eq|apply Hkeep; done || lia].
      * intros t wt Ht [Hwt _]%remain_some. by apply (Hno' t).
    + rewrite (Hn c1 w1) in Hch1; [done|lia|done].
  - intros c w Hc [Hw _]%remain_some Hch. pose proof (from_fence b W Hh c w ltac:(lia) Hw Hch) as Hf.
    destruct (w_gc_fence w) as [f|]; [|done]. destruct Hf as [?|(Hlt & w' & Hw' & Hch')]; [by left|].
    right. split; [done|]. exists w'. split; [apply Hkeep; done || lia|done].
Qed.

Lemma remain_history_above b :
  history_from b W -> floor W b sp ->
  (forall t w, remain W dels t = Some w -> sp < t) -> history_from 0 (remain W dels).
Proof.
  intros Hh Hb Habove.
  assert (forall c w, remain W dels c = Some w -> b < c) as Hbc.
  { intros c w Hr. pose proof (Habove c w Hr). destruct Hb as [->|[? _]]; [|lia].
    apply remain_some in Hr as [Hw _]. by apply (from_pos 0 W Hh c w). }
  split.
  - intros t w [Hw _]%remain_some. by apply (from_pos b W Hh t w).
  - intros c w _ Hr Hch. pose proof (Habove c w Hr). pose proof (Hbc c w Hr).
    apply remain_some in Hr as [Hw _]. apply remain_hint; [|by apply (from_last_change b W Hh c w)].
    intros o. apply remain_newest. lia.
  - intros c w _ Hr Hch. pose proof (Habove c w Hr). pose proof (Hbc c w Hr).
    apply remain_some in Hr as [Hw _]. pose proof (from_fence b W Hh c w ltac:(lia) Hw Hch) as Hf.
    destruct (w_gc_fence w) as [f|]; [|done]. destruct Hf as [?|(Hlt & w' & Hw' & Hch')]; [by left|].
    right. split; [done|]. exists w'. split; [apply remain_above; done || lia|done].
Qed.

Lemma remain_history_idle b :
  history_from b W -> (forall x, x ∈ dels -> is_change x.2 = false) -> history_from b (remain W dels).
Proof.
  intros Hh Hidle. split.
  - intros t w [Hw _]%remain_some. by apply (from_pos b W Hh t w).
  - intros c w Hc [Hw _]%remain_some Hch. apply remain_hint; [|by apply (from_last_change b W Hh c w)].
    intros o Hn. left. by apply remain_idle_newest.
  - intros c w Hc [Hw _]%remain_some Hch. pose proof (from_fence b W Hh c w Hc Hw Hch) as Hf.
    destruct (w_gc_fence w) as [f|]; [|done]. destruct Hf as [?|(Hlt & w' & Hw' & Hch')]; [by left|].
    right. split; [done|]. exists w'. split; [|done]. apply remain_some. split; [done|].
    intros Hin. specialize (Hidle _ Hin). cbn in Hidle. congruence.
Qed.

(** Readers at or above the safe point find a history they can rely on. *)
Lemma remain_history b :
  history_from b W -> floor W b sp ->
  exists b', history_from b' (remain W dels) /\ floor (remain W dels) b' sp.
Proof.
  intros Hh Hb. destruct (gr_keeps _ _ _ _ res) as [Hidle|(c1 & w1 & Hn & [Hnin|[Hdel Hall]])].
  - exists b. split; [by apply remain_history_idle|]. destruct Hb as [?|[Hle (w & Hw & Hch)]]; [by left|].
    right. split; [done|]. exists w. split; [|done]. apply remain_some. split; [done|].
    intros Hin. specialize (Hidle _ Hin). cbn in Hidle. congruence.
  - exists c1. split; [by eapply remain_history_kept|]. destruct Hn as (Hc1 & Hw1 & Hch1 & _).
    right. split; [done|]. exists w1. split; [|done]. unfold remain. by rewrite decide_False.
  - exists 0. split; [|by left]. apply (remain_history_above b); [done..|].
    intros t w [Hw Hnin]%remain_some. destruct (Z_le_gt_dec t sp) as [Hle|]; [|lia].
    by destruct (Hnin (Hall t w Hle Hw)).
Qed.
End After.

(** ** Writing the updates *)

Lemma apply_version_write key x a k t :
  a_write (apply_lms a (version_updates key x)) k t
  = if decide (k = key /\ t = x.1) then None else a_write a k t.
Proof. unfold version_updates. by destruct (_ && _)%bool. Qed.

Lemma apply_gc_write key dels k t : forall a,
  a_write (apply_lms a (gc_updates key dels)) k t
  = if decide (k = key) then remain (a_write a k) dels t else a_write a k t.
Proof.
  induction dels as [|x dels IH]; intros a; [by case_decide|].
  change (gc_updates key (x :: dels)) with (version_updates key x ++ gc_updates key dels).
  unfold apply_lms in *. rewrite foldl_app, IH. unfold remain. rewrite fmap_cons.
  change (foldl apply_lm a (version_updates key x)) with (apply_lms a (version_updates key x)).
  rewrite apply_version_write. destruct (decide (k = key)) as [->|Hk]; [|rewrite decide_False; tauto].
  destruct (decide (t ∈ dels.*1)); [rewrite decide_True; [done|by right]|].
  destruct (decide (t = x.1)) as [->|]; [rewrite !decide_True; [done|by left|done]|].
  rewrite !decide_False; [done|by rewrite not_elem_of_cons|tauto].
Qed.

Lemma apply_gc_lock key dels k : forall a, a_lock (apply_lms a (gc_updates key dels)) k = a_lock a k.
Proof.
  induction dels as [|x dels IH]; intros a; [done|].
  change (gc_updates key (x :: dels)) with (version_updates key x ++ gc_updates key dels).
  unfold apply_lms in *. rewrite foldl_app, IH. unfold version_updates. by destruct (_ && _)%bool.
Qed.

Lemma apply_gc_value key dels k t :
  (k = key -> forall x, x ∈ dels -> owns_value x.2 -> w_start_ts x.2 <> t) -> forall a,
  a_value (apply_lms a (gc_updates key dels)) k t = a_value a k t.
Proof.
  induction dels as [|x dels IH]; intros Hne a; [done|].
  change (gc_updates key (x :: dels)) with (version_updates key x ++ gc_updates key dels).
  unfold apply_lms in *. rewrite foldl_app, IH; [|intros Hk y Hy; apply (Hne Hk); by right].
  unfold version_updates. destruct (_ && _)%bool eqn:E; [|done]. cbn. unfold upd2.
  rewrite decide_False; [done|]. intros [-> ->]. apply andb_prop in E as [Ep Es].
  apply bool_decide_eq_true in Ep, Es. by apply (Hne eq_refl x); [left|..].
Qed.

Lemma gc_updates_ok raw dels :
  bytes_ok raw -> (forall x, x ∈ dels -> u64_ok x.1 /\ write_ok x.2) ->
  Forall lm_ok (gc_updates (Key_from_raw raw) dels).
Proof.
  intros Hraw Hd. assert (key_ok (Key_from_raw raw)) as Hk by by exists raw.
  apply Forall_concat, Forall_map, Forall_forall. intros x Hx. destruct (Hd x Hx) as [Ht Hw].
  unfold version_updates. pose proof (write_ok_start_ts _ Hw).
  destruct (_ && _)%bool; repeat first [apply Forall_nil_2 | apply Forall_cons_2]; done.
Qed.


(** ** The size of a write batch *)

(** The deletion of a version adds its key twice at most, the last deletion, of a
    delete record, once. *)
Definition batch_bound (key : Key) : nat := MAX_TXN_WRITE_SIZE + 3 * length key + 33.

Lemma del_write_size k t : lm_size (LDelWrite k t) = (length k + 13)%nat.
Proof. unfold lm_size, modify_size. cbn. rewrite Key_append_ts_length. case_decide; [done|lia]. Qed.

Lemma del_value_size k t : lm_size (LDelValue k t) = (length k + 8)%nat.
Proof. unfold lm_size, modify_size. cbn. rewrite Key_append_ts_length. by case_decide. Qed.

Lemma Gc_delete_write_size key g w ts g' :
  Gc_delete_write key g w ts = Ok g' ->
  (t_write_size (gc_txn g') <= t_write_size (gc_txn g) + length key + 13
     + if decide (w_write_type w = WtPut) then length key + 8 else 0)%nat.
Proof.
  unfold Gc_delete_write. autorewrite with mvcc_txn. cbn [mbind res_bind].
  destruct (decide (w_write_type w = WtPut)) as [Hp|Hp].
  - destruct (_ && _)%bool; autorewrite with mvcc_txn; cbn [mbind res_bind]; intros [= <-];
      cbn [gc_txn add_updates t_write_size sum_list_with app]; rewrite del_write_size, ?del_value_size; lia.
  - rewrite (bool_decide_eq_false_2 (w_write_type w = WtPut)) by done. cbn [andb mbind res_bind].
    intros [= <-]. cbn [gc_txn add_updates t_write_size sum_list_with]. rewrite del_write_size. lia.
Qed.

Definition latest_is_delete (state : GcState) : Prop :=
  match state with GsRemoveAll (Some (_, w)) => w_write_type w = WtDelete | _ => True end.

Lemma GcState_step_size key state g w c state' g' :
  latest_is_delete state -> GcState_step key state g w c = Ok (state', g') ->
  latest_is_delete state'
  /\ (t_write_size (gc_txn g') <= t_write_size (gc_txn g) + 2 * length key + 21)%nat.
Proof.
  intros Hl. assert (forall st, latest_is_delete st ->
    (g1 ← Gc_delete_write key g w c; Ok (st, g1)) = Ok (state', g') ->
    latest_is_delete state' /\ (t_write_size (gc_txn g') <= t_write_size (gc_txn g) + 2 * length key + 21)%nat)
    as Hdel.
  { intros st Hst (g1 & Hg & [= <- <-])%res_bind_ok. split; [done|].
    apply Gc_delete_write_size in Hg. destruct (decide _); lia. }
  assert (match w_write_type w with
          | WtPut => Ok (GsRemoveAll None, g)
          | WtDelete => Ok (GsRemoveAll (Some (c, w)), g)
          | WtRollback | WtLock => g1 ← Gc_delete_write key g w c; Ok (GsRemoveIdempotent, g1)
          end = Ok (E:=mvcc_error) (state', g') ->
    latest_is_delete state' /\ (t_write_size (gc_txn g') <= t_write_size (gc_txn g) + 2 * length key + 21)%nat)
    as Hidem.
  { destruct (w_write_type w) eqn:E; [intros [= <- <-]; split; [done|lia]|intros [= <- <-]; split; [done|lia]|
      by apply Hdel..]. }
  destruct state as [sp| |latest]; cbn [GcState_step]; [|done|by apply Hdel].
  destruct (c <=? sp); [done|]. intros [= <- <-]. split; [done|lia].
Qed.

Lemma Gc_run_loop_size {Snap} `{EngineSnapshot Snap} (reader : SnapshotReader Snap) fuel key :
  forall state g B, latest_is_delete state ->
  (t_write_size (gc_txn g) + (if state is GsRemoveAll (Some _) then length key + 13 else 0) <= B)%nat ->
  (batch_bound key <= B)%nat ->
  (t_write_size (snd (Gc_run_loop reader fuel key state g)) <= B)%nat.
Proof.
  induction fuel as [|fuel IH]; intros state g B Hl Hg HB; [cbn; lia|]. cbn [Gc_run_loop].
  unfold Gc_next_write. destruct (seek_write reader key (gc_cur_ts g)) as [[[c w]|]| |]; cbn [mbind res_bind];
    [| |cbn; lia..].
  - unfold TimeStamp_prev. destruct (0 <? c); [|cbn; lia]. cbn [assert_ mbind res_bind and_then fst snd gc_txn].
    destruct (Nat.leb_spec MAX_TXN_WRITE_SIZE (t_write_size (gc_txn g))); [cbn; lia|].
    set (g1 := {| gc_cur_ts := c - 1; gc_info := _; gc_txn := gc_txn g |}).
    destruct (GcState_step key state g1 w c) as [[state' g']| |] eqn:E; [|cbn; lia..].
    apply GcState_step_size in E as [Hl' Hs]; [|done]. cbn [and_then fst snd]. apply IH; [done| |done].
    change (gc_txn g1) with (gc_txn g) in Hs. unfold batch_bound in HB. repeat case_match; lia.
  - cbn [and_then fst snd]. destruct state as [| |[[c w]|]]; [cbn; lia..| |cbn; lia].
    destruct (Gc_delete_write key g w c) as [g'| |] eqn:E; [|cbn; lia..].
    apply Gc_delete_write_size in E. cbn in Hl |- *. rewrite Hl in E. case_decide; [done|]. lia.
Qed.

(** Write batches are bounded.  Whatever the store, the key and the safe
    point, and also when a run fails, the buffer after [gc] is either as large
    as before or at most [MAX_TXN_WRITE_SIZE] plus three keys and 33 bytes: the
    check before each version keeps the overshoot to one version and the last
    deletion. *)
Theorem gc_batch_bounded {Snap} `{EngineSnapshot Snap} (txn : MvccTxn) (reader : SnapshotReader Snap)
    (key : Key) (safe_point : TimeStamp) :
  (t_write_size (snd (gc txn reader key safe_point)) <= Nat.max (t_write_size txn) (batch_bound key))%nat.
Proof.
  apply Gc_run_loop_size; [done| |apply Nat.le_max_r].
  cbn [Gc_new gc_txn]. rewrite Nat.add_0_r. apply Nat.le_max_l.
Qed.
