(* ===== verification/GcWorker.v ===== *)
(** * The garbage collection worker

    Models [gc_key], [new_txn], [flush_txn], [get_keys_in_region] and [gc_keys]
    of [src/server/gc_worker/gc_worker.rs], for the keys of one region: the keys
    are collected one after the other into a shared buffer, which is flushed and
    the key tried again whenever a run stops because the buffer is full.

    The theorems: the loop always ends, with every key collected
    ([gc_keys_correct]); collections at safe points that do not fall leave what
    readers at or above the last of them see ([gc_rounds_preserve_reads]). *)

From Stdlib Require Import ZArith Lia.
From stdpp Require Import base numbers list gmap.
From S2P Require Import Prelude Number Bytes Types Write Lock ConcurrencyManager Engine Reader.
From S2P Require Import AbsState ReaderSpec MvccTxn Prewrite TxnStatus KeyInv Commands AcquirePessimisticLock Protocol Values Effects System Runs SystemSpec Gc.

Open Scope Z_scope.

Definition GcInfo_default : GcInfo :=
  {| found_versions := 0; deleted_versions := 0; is_completed := false |}.

Definition GcInfo_complete (i : GcInfo) : GcInfo :=
  {| found_versions := found_versions i; deleted_versions := deleted_versions i; is_completed := true |}.

Definition gc_key (safe_point : TimeStamp) (key : Key) (gc_info : GcInfo) (txn : MvccTxn)
    (reader : SnapshotReader Store) : mvcc_res GcInfo * MvccTxn :=
  let '(r, txn) := gc txn reader key safe_point in
  (next_gc_info ← r;
   Ok {| found_versions := found_versions gc_info + found_versions next_gc_info;
         deleted_versions := deleted_versions gc_info + deleted_versions next_gc_info;
         is_completed := is_completed next_gc_info |}, txn).

(** A dummy concurrency manager: collection takes no locks. *)
Definition new_txn (now : Z) : MvccTxn :=
  MvccTxn_new 0 (cm_new_with_config 1 now (45 * 1000000000) ActLog (46 * 1000000000)).

Definition flush_txn (s : Store) (txn : MvccTxn) : mvcc_res Store :=
  modifies ← into_modifies txn;
  if (0 <? t_write_size txn)%nat then write_modifies s modifies else Ok s.

Fixpoint get_keys_in_region (keys : list Key) (start_key end_key : bytes) : list Key :=
  match keys with
  | [] => []
  | key :: rest =>
      if bytes_ltb key start_key then get_keys_in_region rest start_key end_key
      else if (bytes_eqb end_key [] || bytes_ltb key end_key)%bool
      then key :: get_keys_in_region rest start_key end_key
      else []
  end.

(** The loop over the keys of a region.  The reader sees the store as it was at
    the last flush, which nothing else changes meanwhile. *)
Fixpoint gc_keys_loop (now : Z) (fuel : nat) (s : Store) (safe_point : TimeStamp) (keys : list Key)
    (gc_info : GcInfo) (txn : MvccTxn) (handled_keys wasted_keys : nat)
    : mvcc_res (Store * MvccTxn * (nat * nat)) :=
  match fuel with
  | O => Panic
  | S fuel =>
      match keys with
      | [] => Ok (s, txn, (handled_keys, wasted_keys))
      | key :: rest =>
          let '(r, txn) := gc_key safe_point key gc_info txn (SnapshotReader_new 0 s) in
          gc_info ← (match r with
                     | Ok gc_info => Ok gc_info
                     | Err _ => Ok (GcInfo_complete gc_info)
                     | Panic => Panic
                     end);
          if is_completed gc_info then
            if (0 <? found_versions gc_info)%nat
            then gc_keys_loop now fuel s safe_point rest GcInfo_default txn (S handled_keys) wasted_keys
            else gc_keys_loop now fuel s safe_point rest GcInfo_default txn handled_keys (S wasted_keys)
          else
            s ← flush_txn s txn;
            gc_keys_loop now fuel s safe_point keys gc_info (new_txn now) handled_keys wasted_keys
      end
  end.

Definition gc_keys (now : Z) (s : Store) (keys : list Key) (safe_point : TimeStamp) (start_key end_key : bytes)
    : mvcc_res (Store * (nat * nat)) :=
  _ ← unwrap (head keys);
  last_key ← unwrap (last keys);
  _ ← map_err MvCodec (Key_to_raw last_key);
  st ← gc_keys_loop now (length keys + size (st_write s) + 1) s safe_point
         (get_keys_in_region keys start_key end_key) GcInfo_default (new_txn now) 0 0;
  let '(s, txn, counts) := st in
  s ← flush_txn s txn;
  Ok (s, counts).

(** ** Collection on the abstract state *)

(** A transaction has at most one record, and a reader at or above the safe
    point can rely on the records it meets. *)
Definition collectable (sp : TimeStamp) (W : TimeStamp -> option Write) : Prop :=
  (forall t w t' w', W t = Some w -> W t' = Some w' -> w_start_ts w = w_start_ts w' -> t = t')
  /\ exists b, history_from b W /\ floor W b sp.

(** Nothing is left to collect: of the records at or below the safe point only
    the newest change can remain, and only if it is a put. *)
Definition clean (sp : TimeStamp) (W : TimeStamp -> option Write) : Prop :=
  forall t w, t <= sp -> W t = Some w ->
  newest_change W sp (Some (t, w)) /\ w_write_type w = WtPut.

Definition gc_astep (sp : TimeStamp) (a a' : Abs) : Prop :=
  exists raw completed dels, bytes_ok raw
    /\ gc_result (a_write a (Key_from_raw raw)) sp completed dels
    /\ a' ≡ apply_lms a (gc_updates (Key_from_raw raw) dels).

Lemma history_from_ext b W W' : (forall t, W t = W' t) -> history_from b W -> history_from b W'.
Proof.
  intros He [Hp Hl Hf]. split.
  - intros t w. rewrite <-He. apply Hp.
  - intros c w Hc Hw Hch. rewrite <-He in Hw. specialize (Hl c w Hc Hw Hch).
    destruct (w_last_change w) as [|l n|]; cbn in *; [done| |].
    + destruct Hl as [Hu [[w' Hn]|(Hlt & Hnone & Hn)]]; (split; [done|]).
      * left. exists w'. by apply (newest_change_ext W W' (c - 1) (Some (l, w'))).
      * right. rewrite <-He. split_and!; [done..|]. by apply (newest_change_ext W W' (c - 1) None).
    + destruct Hl as (o & Hn & Hv). exists o. split; [by apply (newest_change_ext W)|done].
  - intros c w Hc Hw Hch. rewrite <-He in Hw. specialize (Hf c w Hc Hw Hch).
    destruct (w_gc_fence w) as [f|]; [|done]. rewrite <-He. exact Hf.
Qed.

Lemma collectable_ext sp W W' : (forall t, W t = W' t) -> collectable sp W -> collectable sp W'.
Proof.
  intros He [Ho (b & Hh & Hb)]. split.
  - intros t w t' w'. rewrite <-!He. apply Ho.
  - exists b. split; [by apply (history_from_ext b W)|]. unfold floor in *. by rewrite <-He.
Qed.

Lemma clean_ext sp W W' : (forall t, W t = W' t) -> clean sp W -> clean sp W'.
Proof.
  intros He Hc t w Ht Hw. rewrite <-He in Hw. destruct (Hc t w Ht Hw) as [Hn Hp].
  split; [|done]. by apply (newest_change_ext W).
Qed.

Lemma gc_result_ext W W' sp completed dels :
  (forall t, W t = W' t) -> gc_result W sp completed dels -> gc_result W' sp completed dels.
Proof.
  intros He [Hb Hk Hc]. split.
  - intros x. rewrite <-He. apply Hb.
  - destruct Hk as [?|(c1 & w1 & Hn & Hk)]; [by left|]. right. exists c1, w1.
    split; [by apply (newest_change_ext W)|]. destruct Hk as [?|[Hd Hall]]; [by left|right].
    split; [done|]. intros t w. rewrite <-He. apply Hall.
  - intros Hcomp t w Ht Hw Hnin. rewrite <-He in Hw. destruct (Hc Hcomp t w Ht Hw Hnin) as [Hn Hp].
    split; [|done]. by apply (newest_change_ext W).
Qed.

Lemma gc_collectable sp W completed dels :
  gc_result W sp completed dels -> collectable sp W -> collectable sp (remain W dels).
Proof.
  intros Hres [Ho (b & Hh & Hb)]. split; [|by eapply remain_history].
  intros t w t' w' [Hw _]%(remain_some W sp completed dels Hres)
    [Hw' _]%(remain_some W sp completed dels Hres). by apply Ho.
Qed.

Lemma gc_clean sp W dels : gc_result W sp true dels -> clean sp (remain W dels).
Proof.
  intros Hres t w Ht Hr. pose proof Hr as [Hw Hnin]%(remain_some W sp true dels Hres).
  destruct (gr_complete _ _ _ _ Hres eq_refl t w Ht Hw Hnin) as [(_ & _ & Hch & Hno) Hp].
  split; [|done]. split_and!; [done..|]. intros t' w' Ht'.
  intros [Hw' _]%(remain_some W sp true dels Hres). by apply (Hno t').
Qed.

(** The history of a collected key, and of any other. *)
Lemma gc_abs_write a a' raw raw' dels :
  bytes_ok raw -> bytes_ok raw' -> a' ≡ apply_lms a (gc_updates (Key_from_raw raw) dels) ->
  forall t, a_write a' (Key_from_raw raw') t
    = if decide (raw' = raw) then remain (a_write a (Key_from_raw raw')) dels t
      else a_write a (Key_from_raw raw') t.
Proof.
  intros Hr Hr' Ha t. rewrite (a_write_proper _ _ Ha _ _ eq_refl _ _ eq_refl), apply_gc_write.
  destruct (decide (raw' = raw)) as [->|Hne]; [by rewrite decide_True|].
  rewrite decide_False; [done|]. intros E. by apply Key_from_raw_inj in E.
Qed.

Definition abs_collectable (sp : TimeStamp) (a : Abs) : Prop :=
  forall raw, bytes_ok raw -> collectable sp (a_write a (Key_from_raw raw)).

Lemma gc_astep_collectable sp a a' : gc_astep sp a a' -> abs_collectable sp a -> abs_collectable sp a'.
Proof.
  intros (raw & completed & dels & Hraw & Hres & Ha) Hi raw' Hraw'.
  pose proof (gc_abs_write a a' raw raw' dels Hraw Hraw' Ha) as Hw.
  eapply collectable_ext; [intros t; symmetry; apply Hw|]. specialize (Hi raw' Hraw').
  destruct (decide (raw' = raw)) as [->|]; [|done]. by eapply gc_collectable.
Qed.

(** The value of a record that stays is not deleted. *)
Lemma gc_astep_value sp a a' raw c w :
  gc_astep sp a a' -> abs_collectable sp a -> bytes_ok raw ->
  a_write a (Key_from_raw raw) c = Some w -> a_write a' (Key_from_raw raw) c = Some w ->
  a_value a' (Key_from_raw raw) (w_start_ts w) = a_value a (Key_from_raw raw) (w_start_ts w).
Proof.
  intros (raw1 & completed & dels & Hraw1 & Hres & Ha) Hi Hraw Hw Hw'.
  rewrite (a_value_proper _ _ Ha _ _ eq_refl _ _ eq_refl). apply apply_gc_value.
  intros E [t wt] Hin _ Heq. cbn in Heq. apply Key_from_raw_inj in E as ->; [|done..].
  destruct (gr_below _ _ _ _ Hres _ Hin) as [_ Hwt]. cbn [fst snd] in Hwt.
  destruct (Hi raw1 Hraw) as [Ho _]. assert (t = c) as -> by (by eapply Ho).
  rewrite (gc_abs_write a a' raw1 raw1 dels) in Hw' by done. rewrite decide_True in Hw' by done.
  apply (remain_some _ _ _ _ Hres) in Hw' as [_ Hn]. apply Hn. rewrite Hw in Hwt. by injection Hwt as ->.
Qed.

(** ** Reads at or above the safe point *)

Definition reads_same (sp : TimeStamp) (a a' : Abs) : Prop :=
  forall raw ts o, bytes_ok raw -> sp <= ts -> newest_change (a_write a (Key_from_raw raw)) ts o ->
  exists o', newest_change (a_write a' (Key_from_raw raw)) ts o'
    /\ (forall limit, fenced limit o' = fenced limit o)
    /\ forall limit w c, fenced limit o = Some (w, c) ->
       a_value a' (Key_from_raw raw) (w_start_ts w) = a_value a (Key_from_raw raw) (w_start_ts w).

Lemma fenced_record limit o w c : fenced limit o = Some (w, c) -> o = Some (c, w).
Proof.
  destruct o as [[c' w']|]; cbn; [|done]. destruct (fence_ok limit w'); [|done].
  destruct (w_write_type w'); [|done..]. by intros [= -> ->].
Qed.

Lemma gc_astep_reads sp a a' : gc_astep sp a a' -> abs_collectable sp a -> reads_same sp a a'.
Proof.
  intros Hs Hi raw ts o Hraw Hts Hn. pose proof Hs as (raw1 & completed & dels & Hraw1 & Hres & Ha).
  pose proof (gc_abs_write a a' raw1 raw dels Hraw1 Hraw Ha) as Hw.
  assert (exists o', newest_change (a_write a' (Key_from_raw raw)) ts o'
    /\ (o' = o \/ o' = None) /\ forall limit, fenced limit o' = fenced limit o) as (o' & Hn' & Ho & Hf).
  { destruct (decide (raw = raw1)) as [->|].
    - destruct (remain_fenced _ _ _ _ Hres ts o None Hts Hn) as (o' & Hn' & _ & Ho). exists o'.
      split; [by apply (newest_change_ext (remain (a_write a (Key_from_raw raw1)) dels))|].
      split; [done|]. intros limit.
      destruct (remain_fenced _ _ _ _ Hres ts o limit Hts Hn) as (o2 & Hn2 & Hf & _).
      by rewrite (newest_change_unique _ _ _ _ Hn' Hn2).
    - exists o. split_and!; [|by left|done]. by apply (newest_change_ext (a_write a (Key_from_raw raw))). }
  exists o'. split_and!; [done..|]. intros limit w c Hfe. pose proof (fenced_record _ _ _ _ Hfe) as ->.
  destruct Ho as [-> | ->]; [|specialize (Hf limit); by rewrite Hfe in Hf].
  apply (gc_astep_value sp a a' raw c w); [done..| |]; [apply Hn|apply Hn'].
Qed.

Lemma reads_same_refl sp a : reads_same sp a a.
Proof. intros raw ts o Hraw Hts Hn. exists o. by split_and!. Qed.

Lemma reads_same_trans sp a b c : reads_same sp a b -> reads_same sp b c -> reads_same sp a c.
Proof.
  intros Hab Hbc raw ts o Hraw Hts Hn. destruct (Hab raw ts o Hraw Hts Hn) as (o1 & Hn1 & Hf1 & Hv1).
  destruct (Hbc raw ts o1 Hraw Hts Hn1) as (o2 & Hn2 & Hf2 & Hv2). exists o2. split; [done|]. split.
  - intros limit. by rewrite Hf2, Hf1.
  - intros limit w t Hf. rewrite (Hv2 limit w t), (Hv1 limit w t); [done..|]. by rewrite Hf1.
Qed.

Lemma gc_asteps_keep sp a a' :
  rtc (gc_astep sp) a a' -> abs_collectable sp a -> abs_collectable sp a' /\ reads_same sp a a'.
Proof.
  induction 1 as [a|a a1 a' Hs _ IH]; intros Hi; [by split; [|apply reads_same_refl]|].
  destruct IH as [Hi' Hr]; [by eapply gc_astep_collectable|]. split; [done|].
  eapply reads_same_trans; [by eapply gc_astep_reads|done].
Qed.

(** A fence limit a reader at [ts] may use. *)
Definition limit_below (limit : option TimeStamp) (ts : TimeStamp) : Prop :=
  match limit with Some lim => lim <= ts | None => True end.

Lemma limit_below_quiet W ts limit : limit_below limit ts -> limit_quiet W ts limit.
Proof. destruct limit as [lim|]; [|done]. cbn. intros Hle t w Ht. lia. Qed.

Lemma collectable_get sp s (r : SnapshotReader Store) raw ts limit :
  wf_store s -> abs_collectable sp (abs s) -> r_snapshot r = s -> bytes_ok raw -> u64_ok ts ->
  sp <= ts -> limit_below limit ts ->
  exists o, newest_change (a_write (abs s) (Key_from_raw raw)) ts o
    /\ MvccReader_get r (Key_from_raw raw) ts limit = read_result s (Key_from_raw raw) (fenced limit o).
Proof.
  intros [Hw _] Hi <- Hraw Hts Hsp Hl. destruct (Hi raw Hraw) as [_ (b & Hh & Hb)].
  destruct (get_write_from_spec r raw Hw Hraw b ts limit Hh) as (o & Ho & Hg);
    [|done|by apply limit_below_quiet|].
  - destruct Hb as [->|[? ?]]; [by left|right; split; [lia|done]].
  - exists o. split; [done|]. by apply MvccReader_get_result.
Qed.

Lemma read_result_same s s' raw limit o :
  wf_store s -> bytes_ok raw ->
  (forall w c, fenced limit o = Some (w, c) -> a_write (abs s) (Key_from_raw raw) c = Some w
     /\ a_value (abs s') (Key_from_raw raw) (w_start_ts w)
        = a_value (abs s) (Key_from_raw raw) (w_start_ts w)) ->
  read_result s' (Key_from_raw raw) (fenced limit o) = read_result s (Key_from_raw raw) (fenced limit o).
Proof.
  intros Hwf Hraw Hv. destruct (fenced limit o) as [[w c]|]; [|done]. destruct (Hv w c eq_refl) as [Hw Hva].
  cbn [read_result]. unfold record_value. destruct (w_short_value w); [done|].
  destruct (abs_write_ok s raw c w Hwf Hraw Hw) as [_ Hok]. pose proof (write_ok_start_ts _ Hok).
  cbn [a_value abs] in Hva. unfold value_at in Hva. rewrite !decide_True in Hva by done.
  cbn [get_cf Store_snapshot]. by rewrite Hva.
Qed.

Lemma reads_same_get sp s s' (r r' : SnapshotReader Store) raw ts limit :
  wf_store s -> wf_store s' -> abs_collectable sp (abs s) -> abs_collectable sp (abs s') ->
  reads_same sp (abs s) (abs s') -> r_snapshot r = s -> r_snapshot r' = s' -> bytes_ok raw ->
  u64_ok ts -> sp <= ts -> limit_below limit ts ->
  MvccReader_get r' (Key_from_raw raw) ts limit = MvccReader_get r (Key_from_raw raw) ts limit.
Proof.
  intros Hwf Hwf' Hi Hi' Hsame Hr Hr' Hraw Hts Hsp Hl.
  destruct (collectable_get sp s r raw ts limit) as (o & Ho & ->); [done..|].
  destruct (collectable_get sp s' r' raw ts limit) as (o' & Ho' & ->); [done..|].
  destruct (Hsame raw ts o Hraw Hsp Ho) as (o2 & Ho2 & Hf & Hv).
  rewrite (newest_change_unique _ _ _ _ Ho' Ho2), Hf. apply read_result_same; [done..|].
  intros w c Hfe. split; [|by eapply Hv]. pose proof (fenced_record _ _ _ _ Hfe) as ->. apply Ho.
Qed.

(** ** The updates a buffer holds *)

Definition is_del (m : LModify) : Prop :=
  match m with LDelWrite _ _ | LDelValue _ _ => True | _ => False end.

Definition pend_updates (pend : list (bytes * list (TimeStamp * Write))) : list LModify :=
  concat (map (fun p => gc_updates (Key_from_raw p.1) p.2) pend).

Lemma pend_updates_snoc pend p :
  pend_updates (pend ++ [p]) = pend_updates pend ++ gc_updates (Key_from_raw p.1) p.2.
Proof. unfold pend_updates. rewrite map_app, concat_app. cbn. by rewrite app_nil_r. Qed.

Lemma pend_updates_del pend : Forall is_del (pend_updates pend).
Proof.
  apply Forall_concat, Forall_map, Forall_forall. intros p _.
  apply Forall_concat, Forall_map, Forall_forall. intros x _.
  unfold version_updates. destruct (_ && _)%bool; repeat first [apply Forall_nil_2 | apply Forall_cons_2]; done.
Qed.

Lemma is_del_size m : is_del m -> (0 < lm_size m)%nat.
Proof. destruct m; cbn; try done; intros _; rewrite Key_append_ts_length; lia. Qed.

Lemma del_updates_size ms : Forall is_del ms -> sum_list_with lm_size ms = 0%nat -> ms = [].
Proof.
  intros Hd Hz. destruct ms as [|m ms]; [done|]. apply Forall_cons_1 in Hd as [Hm _].
  pose proof (is_del_size m Hm). cbn in Hz. lia.
Qed.

(** Deletions only remove entries. *)
Lemma write_modifies_del ms : forall s s',
  Forall is_del ms -> write_modifies (E:=mvcc_error) s (map encode_lm ms) = Ok s' ->
  st_write s' ⊆ st_write s.
Proof.
  induction ms as [|m ms IH]; intros s s' Hd; cbn [map write_modifies]; [by intros [= ->]|].
  apply Forall_cons_1 in Hd as [Hm Hd]. intros (s1 & H1 & Hs)%res_bind_ok.
  etrans; [by apply IH|]. destruct m; cbn in Hm; try done; injection H1 as <-; cbn; [|done].
  apply delete_subseteq.
Qed.

Lemma apply_del_write ms k t : forall a,
  Forall is_del ms -> a_write a k t = None -> a_write (apply_lms a ms) k t = None.
Proof.
  induction ms as [|m ms IH]; intros a Hd Hn; [done|]. apply Forall_cons_1 in Hd as [Hm Hd].
  cbn. apply IH; [done|]. destruct m; cbn in *; try done. unfold upd2. by case_decide.
Qed.

Lemma apply_del_write_in ms k t : forall a,
  Forall is_del ms -> LDelWrite k t ∈ ms -> a_write (apply_lms a ms) k t = None.
Proof.
  induction ms as [|m ms IH]; intros a Hd; [by intros ?%not_elem_of_nil|].
  apply Forall_cons_1 in Hd as [Hm Hd]. intros [<-|Hin]%elem_of_cons; cbn; [|by apply IH].
  apply apply_del_write; [done|]. cbn. unfold upd2. by rewrite decide_True.
Qed.

Lemma pend_updates_in pend raw dels x :
  (raw, dels) ∈ pend -> x ∈ dels -> LDelWrite (Key_from_raw raw) x.1 ∈ pend_updates pend.
Proof.
  rewrite !list_elem_of_In. intros Hp Hx. apply in_concat. exists (gc_updates (Key_from_raw raw) dels).
  split; [by apply (in_map (fun p => gc_updates (Key_from_raw p.1) p.2) _ (raw, dels))|].
  apply in_concat. exists (version_updates (Key_from_raw raw) x). split; [by apply in_map|by left].
Qed.

Lemma pend_updates_cons pend m ms :
  pend_updates pend = m :: ms -> exists raw dels x, (raw, dels) ∈ pend /\ x ∈ dels.
Proof.
  induction pend as [|[raw dels] pend IH]; [done|]. destruct dels as [|x dels].
  - intros E. destruct (IH E) as (raw' & dels' & x & Hp & Hx). exists raw', dels', x. by split; [right|].
  - intros _. exists raw, (x :: dels), x. by split; left.
Qed.

(** [pend]: the versions collected since the last flush. *)
Record pending (now : Z) (sp : TimeStamp) (s : Store) (txn : MvccTxn)
    (pend : list (bytes * list (TimeStamp * Write))) : Prop := {
  pe_txn : txn = add_updates (new_txn now) (pend_updates pend) [];
  pe_res : forall p, p ∈ pend -> bytes_ok p.1
    /\ exists completed, gc_result (a_write (abs s) (Key_from_raw p.1)) sp completed p.2
}.

Definition virt (s : Store) (pend : list (bytes * list (TimeStamp * Write))) : Abs :=
  apply_lms (abs s) (pend_updates pend).

Lemma virt_snoc s pend raw dels :
  virt s (pend ++ [(raw, dels)]) = apply_lms (virt s pend) (gc_updates (Key_from_raw raw) dels).
Proof. unfold virt, apply_lms. by rewrite pend_updates_snoc, foldl_app. Qed.

Lemma virt_other s pend raw :
  bytes_ok raw -> (forall p, p ∈ pend -> bytes_ok p.1) -> raw ∉ pend.*1 ->
  forall t, a_write (virt s pend) (Key_from_raw raw) t = a_write (abs s) (Key_from_raw raw) t.
Proof.
  intros Hraw. induction pend as [|[raw' dels] pend IH] using rev_ind; intros Hok Hnin t; [done|].
  rewrite fmap_app, not_elem_of_app in Hnin. destruct Hnin as [Hnin Hp].
  rewrite virt_snoc, apply_gc_write, decide_False.
  - apply IH; [|done]. intros q Hq. apply Hok. apply elem_of_app. by left.
  - intros E. apply Key_from_raw_inj in E as ->; [|done|apply (Hok (raw', dels)), elem_of_app; right; by left].
    apply Hp. by left.
Qed.

Lemma pend_updates_ok now sp s txn pend :
  wf_store s -> pending now sp s txn pend -> Forall lm_ok (pend_updates pend).
Proof.
  intros Hwf [_ Hr]. apply Forall_concat, Forall_map, Forall_forall. intros p Hp.
  destruct (Hr p Hp) as [Hraw (completed & Hres)]. apply gc_updates_ok; [done|].
  intros x Hx. apply (gr_below _ _ _ _ Hres) in Hx as [_ Hw]. by apply (abs_write_ok s p.1).
Qed.

Lemma flush_txn_spec now sp s txn pend :
  wf_store s -> pending now sp s txn pend ->
  exists s', flush_txn s txn = Ok s' /\ wf_store s' /\ abs s' ≡ virt s pend
    /\ ((0 < t_write_size txn)%nat -> (size (st_write s') < size (st_write s))%nat).
Proof.
  intros Hwf Hp. pose proof (pend_updates_ok _ _ _ _ _ Hwf Hp) as Hok. pose proof Hp as [-> Hr].
  unfold flush_txn, into_modifies. cbn [add_updates new_txn MvccTxn_new t_locks_for_1pc t_write_size
    t_modifies assert_ mbind res_bind app Nat.add].
  destruct (Nat.ltb_spec 0 (sum_list_with lm_size (pend_updates pend))) as [Hpos|Hz].
  2:{ exists s. split_and!; [done..| |lia]. unfold virt.
      by rewrite (del_updates_size (pend_updates pend)) by (apply pend_updates_del || lia). }
  destruct (write_modifies_refines (E:=mvcc_error) (pend_updates pend) s Hwf Hok) as (s' & Hs' & Hwf' & Ha).
  exists s'. split_and!; [done..|]. intros _. apply map_subset_size.
  split; [by eapply write_modifies_del; [apply pend_updates_del|]|].
  destruct (pend_updates pend) as [|m ms] eqn:E; [cbn in Hpos; lia|].
  destruct (pend_updates_cons _ _ _ E) as (raw & dels & x & Hin & Hx).
  pose proof (pend_updates_in _ _ _ _ Hin Hx) as Hdel. rewrite E in Hdel.
  destruct (Hr _ Hin) as [Hraw (completed & Hres)]. cbn [fst snd] in *.
  pose proof (gr_below _ _ _ _ Hres _ Hx) as [_ Hw].
  destruct (write_at_some (SnapshotReader_new 0 s) raw (proj1 Hwf) x.1 x.2 Hw) as (Ht & _ & Hget).
  intros Hsub. assert (a_write (abs s') (Key_from_raw raw) x.1 = None) as Hnone.
  { rewrite (a_write_proper _ _ Ha _ _ eq_refl _ _ eq_refl). apply apply_del_write_in; [|done].
    rewrite <-E. apply pend_updates_del. }
  pose proof (write_at_none (SnapshotReader_new 0 s') raw (proj1 Hwf') x.1 Hnone Ht) as Hg'.
  apply (lookup_weaken _ _ _ _ Hget) in Hsub. change (get_cf s' CF_WRITE (Key_append_ts (Key_from_raw raw) x.1) = None) in Hg'.
  cbn [get_cf Store_snapshot] in Hg'. unfold Store_get_cf in Hg'. cbn in Hg', Hsub. congruence.
Qed.

(** ** The loop *)

Lemma gc_astep_refl sp a a' : a ≡ a' -> gc_astep sp a a'.
Proof.
  intros Ha. exists [], false, []. split; [by constructor|]. split; [|by rewrite Ha].
  split; [by intros x ?%not_elem_of_nil|left; by intros x ?%not_elem_of_nil|done].
Qed.

(** What a collection leaves alone. *)
Definition same_at (sp : TimeStamp) (raws : list bytes) (a a' : Abs) : Prop :=
  (forall k, a_lock a' k = a_lock a k)
  /\ forall raw t, bytes_ok raw -> raw ∉ raws \/ sp < t ->
     a_write a' (Key_from_raw raw) t = a_write a (Key_from_raw raw) t.

Lemma same_at_step sp raw completed dels a raws :
  bytes_ok raw -> raw ∈ raws -> gc_result (a_write a (Key_from_raw raw)) sp completed dels ->
  same_at sp raws a (apply_lms a (gc_updates (Key_from_raw raw) dels)).
Proof.
  intros Hraw Hin Hres. split; [intros k; apply apply_gc_lock|]. intros raw' t Hraw' Ht.
  rewrite (gc_abs_write a _ raw raw' dels) by done. case_decide as E; [subst|done].
  destruct Ht as [?|Ht]; [done|]. unfold remain. case_decide as Hd; [|done].
  apply list_elem_of_fmap in Hd as (x & -> & Hx). apply (gr_below _ _ _ _ Hres) in Hx. lia.
Qed.

Lemma same_at_equiv sp raws a a' : a ≡ a' -> same_at sp raws a a'.
Proof. intros (Hw & Hl & _). split; intros; by rewrite ?Hw, ?Hl. Qed.

Lemma same_at_trans sp raws a b c : same_at sp raws a b -> same_at sp raws b c -> same_at sp raws a c.
Proof. intros [Hl Hw] [Hl' Hw']. split; intros; [by rewrite Hl'|by rewrite Hw', Hw]. Qed.

Lemma same_at_weaken sp raws raws' a b : raws ⊆ raws' -> same_at sp raws a b -> same_at sp raws' a b.
Proof. intros Hsub [Hl Hw]. split; [done|]. intros raw t Hraw Ht. apply Hw; [done|]. set_solver. Qed.

(** A run on a key that is not pending yet. *)
Lemma gc_key_pending now sp s txn pend raw gc_info :
  wf_store s -> abs_collectable sp (virt s pend) -> pending now sp s txn pend -> bytes_ok raw ->
  raw ∉ pend.*1 ->
  exists info dels txn', gc_key sp (Key_from_raw raw) gc_info txn (SnapshotReader_new 0 s) = (Ok info, txn')
    /\ pending now sp s txn' (pend ++ [(raw, dels)])
    /\ gc_result (a_write (virt s pend) (Key_from_raw raw)) sp (is_completed info) dels
    /\ (is_completed info = false -> (0 < t_write_size txn')%nat).
Proof.
  intros Hwf Hi Hp Hraw Hnin. destruct (Hi raw Hraw) as [_ (b & Hh & _)]. pose proof Hp as [Ht Hr].
  assert (forall t, a_write (virt s pend) (Key_from_raw raw) t = a_write (abs s) (Key_from_raw raw) t) as Hv.
  { apply virt_other; [done| |done]. intros p Hin. by apply Hr. }
  apply (history_from_ext b _ _ Hv) in Hh.
  destruct (gc_spec (SnapshotReader_new 0 s) raw (proj1 Hwf) Hraw txn sp (from_pos b _ Hh))
    as (info & dels & Hg & Hres & _ & Hfull).
  unfold gc_key. rewrite Hg. cbn [mbind res_bind]. eexists _, dels, _. split; [done|].
  cbn [is_completed]. split_and!.
  - split.
    + rewrite Ht, pend_updates_snoc, add_updates_add. done.
    + intros p [Hin|Hin]%elem_of_app; [by apply Hr|]. apply list_elem_of_singleton in Hin as ->. eauto.
  - by eapply gc_result_ext; [intros t; symmetry; apply Hv|].
  - intros Hc. specialize (Hfull Hc). unfold MAX_TXN_WRITE_SIZE in Hfull. lia.
Qed.

(** What the loop returns, from the state [a] the buffer stands for. *)
Definition loop_post (now : Z) (sp : TimeStamp) (raws : list bytes) (a : Abs)
    (r : mvcc_res (Store * MvccTxn * (nat * nat))) : Prop :=
  exists s' txn' pend' counts, r = Ok (s', txn', counts)
    /\ wf_store s' /\ pending now sp s' txn' pend'
    /\ rtc (gc_astep sp) a (virt s' pend') /\ same_at sp raws a (virt s' pend')
    /\ forall raw, raw ∈ raws -> clean sp (a_write (virt s' pend') (Key_from_raw raw)).

Lemma loop_post_done now sp raw raws a dels r :
  bytes_ok raw -> raw ∉ raws -> gc_result (a_write a (Key_from_raw raw)) sp true dels ->
  loop_post now sp raws (apply_lms a (gc_updates (Key_from_raw raw) dels)) r ->
  loop_post now sp (raw :: raws) a r.
Proof.
  intros Hraw Hni Hres (s' & txn' & pend' & counts & -> & Hwf' & Hp' & Hrtc & Hsm & Hcl).
  eexists s', txn', pend', counts. split_and!; [done..| | |].
  - eapply rtc_l; [|done]. by exists raw, true, dels.
  - eapply same_at_trans; [eapply same_at_step; [done|by left|done]|].
    eapply same_at_weaken; [|done]. set_solver.
  - intros raw' [->|Hin]%elem_of_cons; [|by apply Hcl].
    eapply clean_ext; [intros t; symmetry; apply (proj2 Hsm raw t Hraw); by left|].
    eapply clean_ext; [|by apply gc_clean]. intros t. by rewrite apply_gc_write, decide_True.
Qed.

Lemma loop_post_flush now sp raw raws a a1 completed dels r :
  bytes_ok raw -> raw ∈ raws -> gc_result (a_write a (Key_from_raw raw)) sp completed dels ->
  a1 ≡ apply_lms a (gc_updates (Key_from_raw raw) dels) ->
  loop_post now sp raws a1 r -> loop_post now sp raws a r.
Proof.
  intros Hraw Hin Hres Ha (s' & txn' & pend' & counts & -> & Hwf' & Hp' & Hrtc & Hsm & Hcl).
  eexists s', txn', pend', counts. split_and!; [done..| | |done].
  - eapply rtc_l; [|done]. by exists raw, completed, dels.
  - eapply same_at_trans; [by eapply same_at_step|].
    eapply same_at_trans; [by apply same_at_equiv; symmetry|done].
Qed.

Lemma gc_keys_loop_spec now sp fuel : forall s raws pend gc_info txn h w,
  Forall bytes_ok raws -> NoDup raws -> wf_store s -> abs_collectable sp (virt s pend) ->
  pending now sp s txn pend -> (forall raw, raw ∈ raws -> raw ∉ pend.*1) ->
  (length raws + size (st_write s) < fuel)%nat ->
  loop_post now sp raws (virt s pend)
    (gc_keys_loop now fuel s sp (map Key_from_raw raws) gc_info txn h w).
Proof.
  induction fuel as [|fuel IH]; intros s raws pend gc_info txn h w Hok Hnd Hwf Hi Hp Hfresh Hf; [lia|].
  destruct raws as [|raw raws]; cbn [gc_keys_loop map].
  { eexists s, txn, pend, _. split_and!; [done..| | |]; [apply rtc_refl|by apply same_at_equiv|].
    by intros raw ?%not_elem_of_nil. }
  pose proof Hok as [Hraw Hok']%Forall_cons_1. pose proof Hnd as [Hni Hnd']%NoDup_cons.
  destruct (gc_key_pending now sp s txn pend raw gc_info) as (info & dels & txn1 & -> & Hp1 & Hres & Hsz);
    [done..|apply Hfresh; by left|]. cbn [mbind res_bind].
  assert (abs_collectable sp (virt s (pend ++ [(raw, dels)]))) as Hi1.
  { eapply gc_astep_collectable; [|exact Hi]. exists raw, (is_completed info), dels. by rewrite virt_snoc. }
  destruct (is_completed info).
  - assert (forall raw', raw' ∈ raws -> raw' ∉ (pend ++ [(raw, dels)]).*1) as Hfresh'.
    { intros raw' Hin. rewrite fmap_app, not_elem_of_app. split; [apply Hfresh; by right|].
      cbn. rewrite list_elem_of_singleton. by intros ->. }
    destruct (0 <? found_versions info)%nat; (eapply loop_post_done; [done..|]);
      rewrite <-virt_snoc; apply IH; done || (cbn in Hf; lia).
  - destruct (flush_txn_spec now sp s txn1 _ Hwf Hp1) as (s1 & -> & Hwf1 & Ha1 & Hlt).
    specialize (Hlt (Hsz eq_refl)). cbn [mbind res_bind].
    eapply (loop_post_flush now sp raw (raw :: raws) (virt s pend) (abs s1));
      [done|by left|done|by rewrite Ha1, virt_snoc|].
    apply (IH s1 (raw :: raws) []); try done.
    + eapply gc_astep_collectable; [by apply gc_astep_refl; symmetry|done].
    + split; [|by intros p ?%not_elem_of_nil]. cbn. by rewrite add_updates_nil.
    + intros raw' _. apply not_elem_of_nil.
    + cbn in *. lia.
Qed.

(** ** Rounds of collection *)

Lemma get_keys_in_region_raws raws start_key end_key :
  exists raws', get_keys_in_region (map Key_from_raw raws) start_key end_key = map Key_from_raw raws'
    /\ raws' `sublist_of` raws.
Proof.
  induction raws as [|raw raws (raws' & IH & Hsub)]; [by exists []|]. cbn [map get_keys_in_region].
  rewrite IH. destruct (bytes_ltb _ _); [exists raws'; split; [done|by constructor]|].
  destruct (_ || _)%bool.
  - exists (raw :: raws'). split; [done|by constructor].
  - exists []. split; [done|apply sublist_nil_l].
Qed.

Definition gc_round (sp : TimeStamp) (s s' : Store) : Prop :=
  exists now raws start_key end_key counts, raws <> [] /\ Forall bytes_ok raws /\ NoDup raws
    /\ gc_keys now s (map Key_from_raw raws) sp start_key end_key = Ok (s', counts).

Definition collectable_store (sp : TimeStamp) (s : Store) : Prop :=
  wf_store s /\ abs_collectable sp (abs s).

Lemma reachable_collectable sp s : reachable s -> collectable_store sp s.
Proof.
  intros [Hwf Hi]%reachable_inv. split; [done|]. intros raw Hraw. pose proof (Hi raw Hraw) as Hk.
  split; [exact (ki_once _ _ Hk)|]. exists 0. split; [|by left].
  apply history_ok_from, key_history_ok, (ki_history _ _ Hk).
Qed.

Lemma gc_keys_spec now sp s raws start_key end_key :
  collectable_store sp s -> raws <> [] -> Forall bytes_ok raws -> NoDup raws ->
  exists s' counts, gc_keys now s (map Key_from_raw raws) sp start_key end_key = Ok (s', counts)
    /\ collectable_store sp s' /\ reads_same sp (abs s) (abs s')
    /\ same_at sp raws (abs s) (abs s')
    /\ forall raw, bytes_ok raw ->
       Key_from_raw raw ∈ get_keys_in_region (map Key_from_raw raws) start_key end_key ->
       clean sp (a_write (abs s') (Key_from_raw raw)).
Proof.
  intros [Hwf Hi] Hne Hok Hnd. destruct (get_keys_in_region_raws raws start_key end_key) as (raws' & Hk & Hsub).
  assert (Forall bytes_ok raws') as Hok'.
  { rewrite Forall_forall in *. intros x Hx. apply Hok. by eapply elem_of_sublist. }
  unfold gc_keys. rewrite Hk.
  assert (exists k, head (map Key_from_raw raws) = Some k) as (k & ->) by (destruct raws; cbn; eauto; done).
  assert (exists raw, last (map Key_from_raw raws) = Some (Key_from_raw raw)) as (raw & ->).
  { destruct (exists_last Hne) as (init & raw & ->). exists raw. rewrite map_app. apply last_snoc. }
  cbn [unwrap mbind res_bind]. rewrite Key_to_raw_from_raw. cbn [map_err mbind res_bind].
  destruct (gc_keys_loop_spec now sp (length (map Key_from_raw raws) + size (st_write s) + 1) s raws' []
    GcInfo_default (new_txn now) 0 0) as (s1 & txn1 & pend1 & counts & -> & Hwf1 & Hp1 & Hrtc & Hsm & Hcl);
    try done.
  { by eapply sublist_NoDup. }
  { split; [|by intros p ?%not_elem_of_nil]. cbn. by rewrite add_updates_nil. }
  { intros raw' _. apply not_elem_of_nil. }
  { rewrite length_map. apply sublist_length in Hsub. lia. }
  cbn [mbind res_bind]. destruct (flush_txn_spec now sp s1 txn1 pend1 Hwf1 Hp1) as (s2 & -> & Hwf2 & Ha2 & _).
  cbn [mbind res_bind]. eexists s2, counts. split; [done|].
  destruct (gc_asteps_keep sp (abs s) (abs s2)) as [Hi2 Hr2]; [|done|].
  { eapply rtc_r; [exact Hrtc|]. by apply gc_astep_refl; symmetry. }
  split_and!; [done..| |].
  - eapply same_at_weaken; [|eapply same_at_trans; [exact Hsm|by apply same_at_equiv; symmetry]].
    intros x Hx. by eapply elem_of_sublist.
  - intros raw1 Hraw (raw' & E & Hin)%list_elem_of_fmap.
    rewrite Forall_forall in Hok'. apply Key_from_raw_inj in E as ->; [|done|by apply Hok'].
    eapply clean_ext; [|by apply Hcl]. intros t. symmetry. by apply (a_write_proper _ _ Ha2).
Qed.

(** Collections one after the other, at safe points that do not fall; the index is
    the last one. *)
Inductive gc_rounds (s : Store) : TimeStamp -> Store -> Prop :=
| gc_rounds_none sp : gc_rounds s sp s
| gc_rounds_more sp sp' s1 s2 :
    gc_rounds s sp s1 -> sp <= sp' -> gc_round sp' s1 s2 -> gc_rounds s sp' s2.

Lemma collectable_grows sp sp' s : sp <= sp' -> collectable_store sp s -> collectable_store sp' s.
Proof.
  intros Hle [Hwf Hi]. split; [done|]. intros raw Hraw. destruct (Hi raw Hraw) as [Ho (b & Hb & Hf)].
  split; [done|]. exists b. split; [done|]. destruct Hf as [->|[? ?]]; [by left|right]. split; [lia|done].
Qed.

Lemma reads_same_grows sp sp' a a' : sp <= sp' -> reads_same sp a a' -> reads_same sp' a a'.
Proof. intros Hle Hr raw ts o Hraw Hts. apply Hr; [done|lia]. Qed.

Lemma gc_rounds_keep sp s s' :
  gc_rounds s sp s' -> reachable s -> collectable_store sp s' /\ reads_same sp (abs s) (abs s').
Proof.
  intros Hgc Hs.
  induction Hgc as [sp|sp sp' s1 s2 _ IH Hle (now & raws & start & end_ & counts & Hne & Hok & Hnd & Hg)].
  { split; [by apply reachable_collectable|apply reads_same_refl]. }
  destruct IH as [Hs1%(collectable_grows _ _ _ Hle) Hr1%(reads_same_grows _ _ _ _ Hle)].
  destruct (gc_keys_spec now sp' s1 raws start end_ Hs1 Hne Hok Hnd) as (s3 & counts3 & Hg3 & Hs3 & Hr & _).
  rewrite Hg in Hg3. injection Hg3 as <- <-. split; [done|]. by eapply reads_same_trans.
Qed.


(** C13. Collection is invisible at and above the safe point.  On every store the
    commands can reach, any number of collections at safe points that do not fall
    leave what [MvccReader.get] returns at any timestamp at or above the last of
    them unchanged, on every key and for every admissible GC-fence limit: the same value, the same
    absence, and never a value missing from the default column family because
    of a deleted version. *)
Theorem gc_rounds_preserve_reads sp s s' (r r' : SnapshotReader Store) raw ts limit :
  reachable s -> gc_rounds s sp s' -> r_snapshot r = s -> r_snapshot r' = s' ->
  bytes_ok raw -> u64_ok ts -> sp <= ts -> limit_below limit ts ->
  MvccReader_get r' (Key_from_raw raw) ts limit = MvccReader_get r (Key_from_raw raw) ts limit.
Proof.
  intros Hs Hgc Hr Hr' Hraw Hts Hsp Hl. pose proof (reachable_collectable sp s Hs) as Hc.
  destruct (gc_rounds_keep sp s s' Hgc Hs) as [Hc' Hsame].
  destruct Hc as [Hwf Hi], Hc' as [Hwf' Hi']. by apply (reads_same_get sp s s').
Qed.

(** ** A concrete collection *)

(** The store of the pessimistic run has two versions of the key; collection at
    30 leaves the newer one. *)
Definition gc_run_store : Store :=
  match gc_keys 0 store_recommitted [Key_from_raw [107]] 30 [] [] with
  | Ok (s, _) => s
  | _ => store_recommitted
  end.

Lemma gc_run_round : gc_round 30 store_recommitted gc_run_store.
Proof.
  exists 0, [[107]], [], [], (1, 0)%nat. split_and!; [done|exact run_raws_ok| |vm_compute; reflexivity].
  apply NoDup_singleton.
Qed.

(** One more collection at 35. *)
Definition gc_again_store : Store :=
  match gc_keys 0 gc_run_store [Key_from_raw [107]] 35 [] [] with
  | Ok (s, _) => s
  | _ => gc_run_store
  end.

Lemma gc_again_round : gc_round 35 gc_run_store gc_again_store.
Proof.
  exists 0, [[107]], [], [], (1, 0)%nat. split_and!; [done|exact run_raws_ok| |vm_compute; reflexivity].
  apply NoDup_singleton.
Qed.

Lemma gc_run_rounds : gc_rounds store_recommitted 30 gc_run_store.
Proof. eapply (gc_rounds_more _ 30); [apply gc_rounds_none|lia|apply gc_run_round]. Qed.

Lemma gc_again_rounds : gc_rounds store_recommitted 35 gc_again_store.
Proof. eapply (gc_rounds_more _ 30); [apply gc_run_rounds|lia|apply gc_again_round]. Qed.


Lemma gc_rounds_preserve_reads_witness :
  MvccReader_get (SnapshotReader_new 40 gc_again_store) (Key_from_raw [107]) 40 (Some 40) = Ok (Some [2])
  /\ MvccReader_get (SnapshotReader_new 40 gc_again_store) (Key_from_raw [107]) 40 (Some 40)
     = MvccReader_get (SnapshotReader_new 40 store_recommitted) (Key_from_raw [107]) 40 (Some 40).
Proof.
  split; [vm_compute; reflexivity|].
  apply (gc_rounds_preserve_reads 35 store_recommitted gc_again_store
    (SnapshotReader_new 40 store_recommitted) (SnapshotReader_new 40 gc_again_store) [107] 40 (Some 40)
    reachable_recommitted gc_again_rounds eq_refl eq_refl);
    [apply sample_raw_ok|unfold u64_ok; lia|lia|cbn; lia].
Defined.
