(* ===== verification/PointGetter.v ===== *)
(** * The point getter

    Models [src/storage/mvcc/reader/point_getter.rs] and [need_check_locks] of
    [src/storage/mod.rs]: [PointGetter] reads single keys, checking their locks,
    with a cursor of mixed mode and prefix seek on the write column family that
    it keeps between reads.  The engine's prefix seek is the interface
    [PrefixIterator].  Statistics and fail points are not modelled, nor is the
    debug assertion in [load_data_from_lock].

    The theorem [point_get_equivalent]: a point get is the lock check followed by
    the read of [MvccReader], and [met_newer_ts_data] is right. *)

From Stdlib Require Import ZArith Lia.
From stdpp Require Import base numbers list gmap.
From S2P Require Import Prelude Number Bytes Types Write Lock ConcurrencyManager Engine Cursor Reader Versions.
From S2P Require Import AbsState ReaderSpec.

Open Scope Z_scope.

Inductive NewerTsCheckState : Type := NtUnknown | NtMet | NtNotMetYet.

#[export] Instance NewerTsCheckState_eq_dec : EqDecision NewerTsCheckState.
Proof. solve_decision. Defined.

#[export] Instance IsolationLevel_eq_dec : EqDecision IsolationLevel.
Proof. solve_decision. Defined.

Definition need_check_locks (iso_level : IsolationLevel) : bool :=
  match iso_level with Si | RcCheckTs => true | Rc => false end.

(** ** Prefix seek *)

(** The prefix of a key of the write column family is all but its last eight
    bytes, the timestamp. *)
Definition same_prefix (k k' : Key) : bool :=
  bytes_eqb (take (length k - 8) k) (take (length k' - 8) k').

(** An engine iterator with [prefix_same_as_start] is valid only inside the
    prefix of the key it was positioned with. *)
Class PrefixIterator (I : Type) `{EngineIterator I} : Type := {
  px_content : I -> Key -> option Value;
  px_seek k i :
    px_content (it_seek k i) = px_content i
    /\ least (px_content i) (fun k' => bytes_leb k k' && same_prefix k k') (it_pos (it_seek k i));
  px_next i k v :
    it_pos i = Some (k, v) ->
    px_content (it_next i) = px_content i
    /\ least (px_content i) (fun k' => bytes_ltb k k' && same_prefix k k') (it_pos (it_next i))
}.

(** ** Point gets *)

Record PointGetter (Snap I : Type) : Type := {
  pg_snapshot : Snap;
  pg_omit_value : bool;
  pg_isolation_level : IsolationLevel;
  pg_ts : TimeStamp;
  pg_bypass_locks : TsSet;
  pg_access_locks : TsSet;
  pg_met_newer_ts_data : NewerTsCheckState;
  pg_write_cursor : Cursor I
}.
Arguments pg_snapshot {Snap I} _.
Arguments pg_omit_value {Snap I} _.
Arguments pg_isolation_level {Snap I} _.
Arguments pg_ts {Snap I} _.
Arguments pg_bypass_locks {Snap I} _.
Arguments pg_access_locks {Snap I} _.
Arguments pg_met_newer_ts_data {Snap I} _.
Arguments pg_write_cursor {Snap I} _.

(** [PointGetterBuilder::build]; the cursor is given the engine's iterator. *)
Definition PointGetter_build {Snap I} (snapshot : Snap) (iter : I) (ts : TimeStamp) (omit_value : bool)
    (isolation_level : IsolationLevel) (bypass_locks access_locks : TsSet)
    (check_has_newer_ts_data : bool) : PointGetter Snap I :=
  {| pg_snapshot := snapshot; pg_omit_value := omit_value; pg_isolation_level := isolation_level;
     pg_ts := ts; pg_bypass_locks := bypass_locks; pg_access_locks := access_locks;
     pg_met_newer_ts_data := if check_has_newer_ts_data then NtNotMetYet else NtUnknown;
     pg_write_cursor := Cursor_new iter SmMixed true |}.

Definition pg_set_cursor {Snap I} (g : PointGetter Snap I) (c : Cursor I) : PointGetter Snap I :=
  {| pg_snapshot := pg_snapshot g; pg_omit_value := pg_omit_value g;
     pg_isolation_level := pg_isolation_level g; pg_ts := pg_ts g; pg_bypass_locks := pg_bypass_locks g;
     pg_access_locks := pg_access_locks g; pg_met_newer_ts_data := pg_met_newer_ts_data g;
     pg_write_cursor := c |}.

(** [if self.met_newer_ts_data == NotMetYet { self.met_newer_ts_data = Met }] *)
Definition pg_meet {Snap I} (g : PointGetter Snap I) : PointGetter Snap I :=
  {| pg_snapshot := pg_snapshot g; pg_omit_value := pg_omit_value g;
     pg_isolation_level := pg_isolation_level g; pg_ts := pg_ts g; pg_bypass_locks := pg_bypass_locks g;
     pg_access_locks := pg_access_locks g;
     pg_met_newer_ts_data :=
       if decide (pg_met_newer_ts_data g = NtNotMetYet) then NtMet else pg_met_newer_ts_data g;
     pg_write_cursor := pg_write_cursor g |}.

Section PointGetter.
Context {Snap I : Type} `{EngineSnapshot Snap} `{EngineIterator I}.
Abbreviation PG := (st_res (PointGetter Snap I) mvcc_error).
Abbreviation on_cursor := (zoom pg_write_cursor pg_set_cursor).

Definition load_data_from_default_cf (write_start_ts : TimeStamp) (user_key : Key) : PG Value :=
  g ← gets id;
  match get_cf (pg_snapshot g) CF_DEFAULT (Key_append_ts user_key write_start_ts) with
  | Some value => mret value
  | None => throw (default_not_found_error (Key_append_ts user_key write_start_ts))
  end.

Definition load_data_from_lock (user_key : Key) (lock : Lock) : PG (option Value) :=
  g ← gets id;
  match l_lock_type lock with
  | LtPut =>
      if pg_omit_value g then mret (Some [])
      else
        match l_short_value lock with
        | Some value => mret (Some value)
        | None => value ← load_data_from_default_cf (l_ts lock) user_key; mret (Some value)
        end
  | LtDelete => mret None
  | LtLock | LtPessimistic => lift Panic
  end.

Definition load_and_check_lock (user_key : Key) : PG (option Lock) :=
  g ← gets id;
  match get_cf (pg_snapshot g) CF_LOCK user_key with
  | Some lock_value =>
      lock ← lift (map_err mvcc_error_from (Lock_parse lock_value));
      _ ← modify pg_meet;
      match Lock_check_ts_conflict lock user_key (pg_ts g) (pg_bypass_locks g) (pg_isolation_level g) with
      | Ok _ => mret None
      | Err e =>
          if TsSet_contains (pg_access_locks g) (l_ts lock) then mret (Some lock)
          else throw (mvcc_error_from e)
      | Panic => lift Panic
      end
  | None => mret None
  end.

(** The loop of [load_data]; [write] is the current record. *)
Fixpoint point_loop (fuel : nat) (user_key : Key) (write : Write) : PG (option Value) :=
  match fuel with
  | O => lift Panic
  | S fuel =>
      g ← gets id;
      let next :=
        found ← on_cursor cu_next;
        if (found : bool) then
          value ← on_cursor (fun c => v ← cu_value c; Ok (c, v));
          write ← lift (map_err mvcc_error_from (WriteRef_parse value));
          point_loop fuel user_key write
        else mret None in
      if negb (WriteRef_check_gc_fence_as_latest_version write (pg_ts g)) then mret None
      else
        match w_write_type write with
        | WtPut =>
            if pg_omit_value g then mret (Some [])
            else
              match w_short_value write with
              | Some value => mret (Some value)
              | None => value ← load_data_from_default_cf (w_start_ts write) user_key; mret (Some value)
              end
        | WtDelete => mret None
        | WtLock | WtRollback =>
            match w_last_change write with
            | LcNotExist => mret None
            | LcExist commit_ts versions =>
                if SEEK_BOUND <=? versions then
                  match get_cf (pg_snapshot g) CF_WRITE (Key_append_ts user_key commit_ts) with
                  | Some v =>
                      write ← lift (map_err mvcc_error_from (WriteRef_parse v));
                      _ ← lift (assert_ (bool_decide (w_write_type write = WtPut)
                                         || bool_decide (w_write_type write = WtDelete)));
                      point_loop fuel user_key write
                  | None => mret None
                  end
                else next
            | LcUnknown => next
            end
        end
  end.

(** The look for newer data: [None] if the key has no version at all, else
    whether the cursor is already on the key. *)
Definition check_newer (user_key : Key) : PG (option bool) :=
  g ← gets id;
  if (bool_decide (pg_met_newer_ts_data g = NtNotMetYet)
      || bool_decide (pg_isolation_level g = RcCheckTs))%bool
  then
    found ← on_cursor (fun c => cu_seek c (Key_append_ts user_key TimeStamp_max));
    if (found : bool) then
      cursor_key ← on_cursor (fun c => k ← cu_key c; Ok (c, k));
      key_commit_ts ← lift (map_err MvCodec (Key_decode_ts_from cursor_key));
      if pg_ts g <? key_commit_ts then
        _ ← modify pg_meet;
        if decide (pg_isolation_level g = RcCheckTs)
        then throw (MvWriteConflict (pg_ts g) 0 key_commit_ts cursor_key [] WcRcCheckTs)
        else mret (Some true)
      else mret (Some true)
    else mret None
  else mret (Some false).

(** The move to the version to read, and the loop from there. *)
Definition read_version (user_key : Key) (use_near_seek : bool) : PG (option Value) :=
  g ← gets id;
  let seek_key := Key_append_ts user_key (pg_ts g) in
  data_found ←
    (if use_near_seek then
       k ← on_cursor (fun c => k ← cu_key c; Ok (c, k));
       if bytes_leb seek_key k then mret true
       else on_cursor (fun c => cu_near_seek c seek_key)
     else on_cursor (fun c => cu_seek c seek_key));
  if (data_found : bool) then
    value ← on_cursor (fun c => v ← cu_value c; Ok (c, v));
    write ← lift (map_err mvcc_error_from (WriteRef_parse value));
    point_loop (cf_len (pg_snapshot g) CF_WRITE + 2) user_key write
  else mret None.

Definition point_load_data (user_key : Key) : PG (option Value) :=
  newer ← check_newer user_key;
  match newer with
  | None => mret None
  | Some use_near_seek => read_version user_key use_near_seek
  end.

Definition point_get (user_key : Key) : PG (option Value) :=
  g ← gets id;
  if need_check_locks (pg_isolation_level g) then
    lock ← load_and_check_lock user_key;
    match lock with
    | Some lock => load_data_from_lock user_key lock
    | None => point_load_data user_key
    end
  else point_load_data user_key.

(** [SnapshotStore.batch_get]: one getter for all keys; an error of one key does
    not end the batch. *)
Fixpoint batch_get (keys : list Key) (g : PointGetter Snap I)
    : list (mvcc_res (option Value)) * PointGetter Snap I :=
  match keys with
  | [] => ([], g)
  | key :: keys =>
      let '(value, g) := point_get key g in
      let '(values, g) := batch_get keys g in
      (value :: values, g)
  end.
End PointGetter.

(** ** The reference: lock check, then the read of [MvccReader] *)

Section Reference.
Context {Snap I : Type} `{EngineSnapshot Snap}.

Definition reference_reader (g : PointGetter Snap I) : SnapshotReader Snap :=
  SnapshotReader_new (pg_ts g) (pg_snapshot g).

Definition reference_data (g : PointGetter Snap I) (key : Key) : mvcc_res (option Value) :=
  let r := reference_reader g in
  newest ← seek_write r key TimeStamp_max;
  match newest with
  | Some (commit_ts, _) =>
      if (bool_decide (pg_isolation_level g = RcCheckTs) && (pg_ts g <? commit_ts))%bool
      then Err (MvWriteConflict (pg_ts g) 0 commit_ts (Key_append_ts key commit_ts) [] WcRcCheckTs)
      else if pg_omit_value g
      then w ← get_write r key (pg_ts g) (Some (pg_ts g)); Ok (option_map (fun _ => []) w)
      else MvccReader_get r key (pg_ts g) (Some (pg_ts g))
  | None => Ok None
  end.

(** The value a lock that may be read through stands for. *)
Definition reference_locked (g : PointGetter Snap I) (key : Key) (lock : Lock) : mvcc_res (option Value) :=
  match l_lock_type lock with
  | LtPut =>
      if pg_omit_value g then Ok (Some [])
      else
        match l_short_value lock with
        | Some value => Ok (Some value)
        | None =>
            match get_cf (pg_snapshot g) CF_DEFAULT (Key_append_ts key (l_ts lock)) with
            | Some value => Ok (Some value)
            | None => Err (default_not_found_error (Key_append_ts key (l_ts lock)))
            end
        end
  | _ => Ok None
  end.

Definition reference_get (g : PointGetter Snap I) (key : Key) : mvcc_res (option Value) :=
  if need_check_locks (pg_isolation_level g) then
    match lock_at (pg_snapshot g) key with
    | Some lock =>
        match Lock_check_ts_conflict lock key (pg_ts g) (pg_bypass_locks g) (pg_isolation_level g) with
        | Err e =>
            if TsSet_contains (pg_access_locks g) (l_ts lock) then reference_locked g key lock
            else Err (mvcc_error_from e)
        | _ => reference_data g key
        end
    | None => reference_data g key
    end
  else reference_data g key.

(** Newer data: a lock that was looked at, or a record above the timestamp. *)
Definition has_newer (g : PointGetter Snap I) (key : Key) : Prop :=
  (need_check_locks (pg_isolation_level g) = true /\ is_Some (lock_at (pg_snapshot g) key))
  \/ exists t w, pg_ts g < t /\ write_at (pg_snapshot g) key t = Some w.
End Reference.

(** ** Prefix seeks find versions *)

Lemma same_prefix_version a b t t' :
  bytes_ok a -> bytes_ok b -> same_prefix (version_key a t) (version_key b t') = true <-> a = b.
Proof.
  intros Ha Hb. unfold same_prefix, version_key. rewrite !Key_append_ts_length, !Nat.add_sub.
  unfold Key_append_ts. rewrite !take_app_length, bytes_eqb_eq. split; [|by intros ->].
  by apply Key_from_raw_inj.
Qed.

(** The versions of one key seen by a cursor that stays inside its prefix. *)
Inductive prefix_stands (W : TimeStamp -> option Write) (raw : bytes) (ts : TimeStamp)
    : option Entry -> Prop :=
| prefix_end : newest W ts None -> prefix_stands W raw ts None
| prefix_version t w :
    u64_ok t -> write_ok w -> newest W ts (Some (t, w)) ->
    prefix_stands W raw ts (Some (version_key raw t, WriteRef_to_bytes w)).

Lemma least_prefix_stands content raw ts p o :
  wf_versions content -> bytes_ok raw ->
  (forall raw' t, bytes_ok raw' -> u64_ok t -> (p (version_key raw' t) = true <-> raw = raw' /\ t <= ts)) ->
  least content p o -> prefix_stands (version_at content raw) raw ts o.
Proof.
  intros wf Hraw Hpos Hl. destruct o as [[k v]|].
  - destruct Hl as (Hc & Hp & Hmin).
    destruct (content_version content wf k v Hc) as (raw' & t & w & Hraw' & Ht & Hw & -> & -> & HW).
    apply Hpos in Hp as [<- Hle]; [|done..]. apply prefix_version; [done..|]. split_and!; [done..|].
    intros t' Ht'. destruct (version_at content raw t') as [w'|] eqn:E; [|done]. exfalso.
    destruct (version_at_some content wf raw t' w' Hraw E) as (Hu & _ & Hc').
    assert (bytes_leb (version_key raw t) (version_key raw t') = true) as Hleb.
    { apply Hmin; [eauto|]. apply Hpos; [done..|]. split; [done|lia]. }
    apply version_key_leb in Hleb as [?|[_ ?]]; [by apply (bytes_lt_irrefl raw)|lia|done..].
  - apply prefix_end. intros t Ht. destruct (version_at content raw t) as [w|] eqn:E; [|done]. exfalso.
    destruct (version_at_some content wf raw t w Hraw E) as (Hu & _ & Hc').
    specialize (Hl _ (ex_intro _ _ Hc')). apply not_true_iff_false in Hl. by apply Hl, Hpos.
Qed.

Lemma prefix_pos_seek raw ts raw' t :
  bytes_ok raw -> u64_ok ts -> bytes_ok raw' -> u64_ok t ->
  (bytes_leb (version_key raw ts) (version_key raw' t)
   && same_prefix (version_key raw ts) (version_key raw' t))%bool = true <-> raw = raw' /\ t <= ts.
Proof.
  intros Hr Hts Hr' Ht. rewrite andb_true_iff, version_key_leb, same_prefix_version by done. split.
  - by intros [[?|[_ ?]] ->]; [destruct (bytes_lt_irrefl raw')|].
  - intros [-> ?]. auto.
Qed.

Lemma prefix_pos_next raw c raw' t :
  bytes_ok raw -> u64_ok c -> bytes_ok raw' -> u64_ok t ->
  (bytes_ltb (version_key raw c) (version_key raw' t)
   && same_prefix (version_key raw c) (version_key raw' t))%bool = true <-> raw = raw' /\ t <= c - 1.
Proof.
  intros Hr Hc Hr' Ht. rewrite andb_true_iff, version_key_ltb, same_prefix_version by done. split.
  - intros [[?|[_ ?]] ->]; [by destruct (bytes_lt_irrefl raw')|]. split; [done|lia].
  - intros [-> ?]. split; [right; split; [done|lia]|done].
Qed.

Section Spec.
Context {Snap I : Type} `{EngineSnapshotLaws Snap} `{PrefixIterator I}.
Implicit Types g : PointGetter Snap I.

(** The cursor of a point getter, wherever it stands. *)
Record cursor_of (s : Snap) (c : Cursor I) : Prop := {
  co_mode : cu_scan_mode c = SmMixed;
  co_prefix : cu_prefix_seek c = true;
  co_max : cu_max_key c = None;
  co_content : px_content (cu_iter c) = get_cf s CF_WRITE
}.

Definition pg_inv g : Prop := cursor_of (pg_snapshot g) (pg_write_cursor g).

Lemma pg_inv_build s (i : I) ts omit iso bypass access check :
  px_content i = get_cf s CF_WRITE -> pg_inv (PointGetter_build s i ts omit iso bypass access check).
Proof. by split. Qed.

Lemma cursor_of_iter s c i :
  cursor_of s c -> px_content i = px_content (cu_iter c) -> cursor_of s (cu_set_iter c i).
Proof. intros [? ? ? Hc] Hi. split; cbn; [done..|]. by rewrite Hi. Qed.

Section Key.
Context (s : Snap) (raw : bytes).
Hypothesis (wf : wf_write_cf s) (raw_ok : bytes_ok raw).
Let key := Key_from_raw raw.
Let W := write_at s key.

Lemma point_seek c ts :
  cursor_of s c -> u64_ok ts ->
  exists c', cu_seek (E:=mvcc_error) c (Key_append_ts key ts) = Ok (c', cu_valid c')
    /\ cursor_of s c' /\ prefix_stands W raw ts (cu_pos c').
Proof.
  intros Hc Hts. destruct (px_seek (Key_append_ts key ts) (cu_iter c)) as [Hcont Hl].
  pose proof Hc as [Hm Hp Hmax Hco]. unfold cu_seek, past_max. rewrite Hm, Hmax. cbn.
  exists (cu_set_iter c (it_seek (Key_append_ts key ts) (cu_iter c))). split.
  - by destruct (cu_valid _); [|cbn; rewrite Hp].
  - split; [by apply cursor_of_iter|]. rewrite Hco in Hl.
    apply (least_prefix_stands (get_cf s CF_WRITE) raw ts _ _ wf raw_ok) in Hl; [done|].
    intros raw' t Hr' Ht. by apply prefix_pos_seek.
Qed.

Lemma point_next c t v :
  cursor_of s c -> u64_ok t -> cu_pos c = Some (version_key raw t, v) ->
  exists c', cu_next (E:=mvcc_error) c = Ok (c', cu_valid c')
    /\ cursor_of s c' /\ prefix_stands W raw (t - 1) (cu_pos c').
Proof.
  intros Hc Ht Hp. destruct (px_next (cu_iter c) _ v Hp) as [Hcont Hl].
  unfold cu_next. rewrite (cu_valid_true c (version_key raw t, v)) by done. cbn [assert_ mbind res_bind].
  eexists. split; [done|]. split; [by apply cursor_of_iter|].
  rewrite (co_content s c Hc) in Hl.
  apply (least_prefix_stands (get_cf s CF_WRITE) raw (t - 1) _ _ wf raw_ok) in Hl; [done|].
  intros raw' t' Hr' Ht'. by apply prefix_pos_next.
Qed.

(** Stepping down to the version [ts] from a newer one. *)
Lemma point_near_loop ts n : forall c t v,
  cursor_of s c -> u64_ok ts -> u64_ok t -> cu_pos c = Some (version_key raw t, v) -> ts < t ->
  exists c' over, near_loop (E:=mvcc_error) cu_next (fun k => bytes_ltb k (Key_append_ts key ts)) n c
      = Ok (c', over)
    /\ cursor_of s c' /\ ((over : bool) = false -> prefix_stands W raw ts (cu_pos c')).
Proof.
  induction n as [|n IH]; intros c t v Hc Hts Ht Hp Hlt; cbn [near_loop]; [by exists c, true|].
  destruct (point_next c t v Hc Ht Hp) as (c1 & -> & Hc1 & Hst). cbn [mbind res_bind].
  inversion Hst as [Hn Hpos|t1 w1 Ht1 Hw1 Hn Hpos]; symmetry in Hpos.
  - rewrite cu_valid_false by done. exists c1, false. split_and!; [done..|]. intros _. rewrite Hpos.
    constructor. intros t' Ht'. apply Hn. lia.
  - rewrite (cu_valid_true c1 _ Hpos), (cu_key_ok c1 _ _ Hpos). cbn [mbind res_bind].
    destruct (bytes_ltb _ _) eqn:Hk.
    + apply (version_key_ltb raw raw t1 ts raw_ok raw_ok Ht1 Hts) in Hk
        as [?|[_ ?]]; [by destruct (bytes_lt_irrefl raw)|]. by apply (IH c1 t1 (WriteRef_to_bytes w1)).
    + exists c1, false. split_and!; [done..|]. intros _. rewrite Hpos. constructor; [done..|].
      destruct Hn as (Hle & Hw & Hno). split_and!; [|done|intros; apply Hno; lia].
      apply not_true_iff_false in Hk. destruct (Z_le_gt_dec t1 ts); [done|]. destruct Hk.
      apply (version_key_ltb raw raw t1 ts raw_ok raw_ok Ht1 Hts). right. split; [done|lia].
Qed.

Lemma point_near_seek c ts t v :
  cursor_of s c -> u64_ok ts -> u64_ok t -> cu_pos c = Some (version_key raw t, v) -> ts < t ->
  exists c' b, cu_near_seek (E:=mvcc_error) c (Key_append_ts key ts) = Ok (c', b)
    /\ b = cu_valid c' /\ cursor_of s c' /\ prefix_stands W raw ts (cu_pos c').
Proof.
  intros Hc Hts Ht Hp Hlt. unfold cu_near_seek. pose proof Hc as [Hm Hpre Hmax Hco].
  rewrite (cu_valid_true c _ Hp), (cu_key_ok c _ _ Hp). unfold past_max. rewrite Hm, Hmax.
  cbn [negb assert_ mbind res_bind]. rewrite !bool_decide_eq_false_2 by done. cbn [negb assert_ mbind res_bind].
  assert (bytes_ltb (version_key raw t) (Key_append_ts key ts) = true) as Hk.
  { apply (version_key_ltb raw raw t ts raw_ok raw_ok Ht Hts). right. split; [done|lia]. }
  assert (bytes_eqb (version_key raw t) (Key_append_ts key ts) = false) as ->.
  { apply not_true_iff_false. rewrite bytes_eqb_eq. intros E. rewrite E in Hk. by rewrite bytes_ltb_irrefl in Hk. }
  cbn [orb andb].
  assert (bytes_ltb (Key_append_ts key ts) (version_key raw t) = false) as ->.
  { apply bytes_ltb_ge. by apply bytes_ltb_leb. }
  destruct (point_near_loop ts (Z.to_nat SEEK_BOUND) c t v Hc Hts Ht Hp Hlt) as (c1 & over & -> & Hc1 & Hst).
  cbn [mbind res_bind]. destruct over.
  - destruct (point_seek c1 ts Hc1 Hts) as (c2 & -> & Hc2 & Hst2). by exists c2, (cu_valid c2).
  - specialize (Hst eq_refl). exists c1. destruct (cu_valid c1) eqn:Hv; [by exists true|].
    rewrite (co_prefix s c1) by done. by exists false.
Qed.

(** *** The loop *)

Let r := SnapshotReader_new 0 s.

(** What a read returns once the record is known. *)
Definition point_result g (o : option (Write * TimeStamp)) : mvcc_res (option Value) :=
  match o with
  | None => Ok None
  | Some (w, c) => if pg_omit_value g then Ok (Some []) else read_result s key (Some (w, c))
  end.

Lemma enough_fuel_mono fuel t t' : t' <= t -> enough_fuel r raw fuel t -> enough_fuel r raw fuel t'.
Proof.
  intros Hle (vis & Hnd & Hin & Hf). exists vis. split_and!; [done| |done]. intros x Hx.
  destruct (Hin x Hx). split; [lia|done].
Qed.

Lemma newest_change_extend ts t w o :
  newest W ts (Some (t, w)) -> newest_change W t o -> newest_change W ts o.
Proof.
  intros (Hle & Hw & Hno). destruct o as [[c w']|]; cbn.
  - intros (Hc & Hw' & Hch & Hno'). split_and!; [lia|done..|]. intros t' wt Ht' Hwt.
    destruct (Z_le_gt_dec t' t); [apply (Hno' t' wt); [lia|done]|]. by rewrite Hno in Hwt by lia.
  - intros Hno' t' wt Ht' Hwt. destruct (Z_le_gt_dec t' t); [by apply (Hno' t')|].
    by rewrite Hno in Hwt by lia.
Qed.

Lemma floor_newest b ts t w :
  newest W ts (Some (t, w)) -> floor W b ts -> floor W b t.
Proof.
  intros (Hle & Hw & Hno) [->|[Hb (wb & Hwb & Hch)]]; [by left|]. right. split; [|eauto].
  destruct (Z_le_gt_dec b t); [done|]. by rewrite Hno in Hwb by lia.
Qed.

Lemma point_loop_change g fuel w c :
  pg_snapshot g = s -> is_change w = true ->
  point_loop (S fuel) key w g = (point_result g (fenced (Some (pg_ts g)) (Some (c, w))), g).
Proof.
  intros Hs Hch. cbn [point_loop fenced fence_ok]. unfold mbind at 1, st_bind at 1. cbn [gets id].
  destruct (WriteRef_check_gc_fence_as_latest_version w (pg_ts g)); cbn [negb]; [|done].
  unfold is_change in Hch. destruct (w_write_type w) eqn:Hty; try done; cbn [visible]; rewrite Hty; [|done].
  cbn [point_result]. destruct (pg_omit_value g); [done|]. cbn [read_result]. unfold record_value.
  destruct (w_short_value w); [done|]. unfold load_data_from_default_cf, mbind, st_bind. cbn [gets id].
  rewrite Hs. by destruct (get_cf s CF_DEFAULT _).
Qed.

(** The two ways on from a record that changes nothing: to the record its hint
    points to, or to the next older record. *)
Definition jump_step (fuel : nat) g (l : TimeStamp) : mvcc_res (option Value) * PointGetter Snap I :=
  (match get_cf (pg_snapshot g) CF_WRITE (Key_append_ts key l) with
   | Some v =>
       write ← lift (map_err mvcc_error_from (WriteRef_parse v));
       _ ← lift (assert_ (bool_decide (w_write_type write = WtPut)
                          || bool_decide (w_write_type write = WtDelete)));
       point_loop fuel key write
   | None => mret None
   end) g.

Definition next_step (fuel : nat) g : mvcc_res (option Value) * PointGetter Snap I :=
  (found ← zoom pg_write_cursor pg_set_cursor cu_next;
   if (found : bool) then
     value ← zoom pg_write_cursor pg_set_cursor (fun c => v ← cu_value c; Ok (c, v));
     write ← lift (map_err mvcc_error_from (WriteRef_parse value));
     point_loop fuel key write
   else mret None) g.

Lemma point_loop_idle fuel g w :
  is_change w = false -> WriteRef_check_gc_fence_as_latest_version w (pg_ts g) = true ->
  point_loop (S fuel) key w g
  = match w_last_change w with
    | LcUnknown => next_step fuel g
    | LcExist l n => if SEEK_BOUND <=? n then jump_step fuel g l else next_step fuel g
    | LcNotExist => (Ok None, g)
    end.
Proof.
  intros Hch Hfe. cbn [point_loop]. unfold mbind at 1, st_bind at 1. cbn [gets id]. rewrite Hfe. cbn [negb].
  unfold is_change in Hch. destruct (w_write_type w); try done;
    (destruct (w_last_change w) as [|l n|]; [done|destruct (SEEK_BOUND <=? n); done|done]).
Qed.

Lemma jump_step_spec g fuel c l n :
  pg_snapshot g = s -> last_change_valid W c (LcExist l n) ->
  exists o, newest_change W (c - 1) o
    /\ jump_step (S fuel) g l = (point_result g (fenced (Some (pg_ts g)) o), g).
Proof.
  intros Hs [Hl [[w Hn]|(_ & Hnone & Hn)]]; unfold jump_step; rewrite Hs.
  - exists (Some (l, w)). split; [done|]. pose proof Hn as (_ & Hw & Hch & _).
    destruct (write_at_some r raw wf l w Hw) as (_ & Hok & Hg).
    change (get_cf s CF_WRITE (Key_append_ts key l) = Some (WriteRef_to_bytes w)) in Hg.
    rewrite Hg. unfold mbind, st_bind. cbn [lift]. rewrite write_roundtrip by done. cbn [map_err].
    assert (bool_decide (w_write_type w = WtPut) || bool_decide (w_write_type w = WtDelete) = true)%bool
      as -> by (unfold is_change in Hch; by destruct (w_write_type w)).
    cbn [assert_]. by apply point_loop_change.
  - exists None. split; [done|]. pose proof (write_at_none r raw wf l Hnone Hl) as Hg.
    change (get_cf s CF_WRITE (Key_append_ts key l) = None) in Hg. by rewrite Hg.
Qed.

(** The next version of the key, if any. *)
Lemma next_step_version g fuel t w :
  pg_snapshot g = s -> pg_inv g -> u64_ok t ->
  cu_pos (pg_write_cursor g) = Some (version_key raw t, WriteRef_to_bytes w) ->
  exists c1, cursor_of s c1
    /\ ((newest W (t - 1) None /\ next_step fuel g = (Ok None, pg_set_cursor g c1))
        \/ exists t1 w1, newest W (t - 1) (Some (t1, w1)) /\ u64_ok t1
           /\ cu_pos c1 = Some (version_key raw t1, WriteRef_to_bytes w1)
           /\ next_step fuel g = point_loop fuel key w1 (pg_set_cursor g c1)).
Proof.
  intros Hs Hg Ht Hpos. unfold pg_inv in Hg. rewrite Hs in Hg.
  destruct (point_next (pg_write_cursor g) t _ Hg Ht Hpos) as (c1 & Hnx & Hc1 & Hst).
  exists c1. split; [done|]. unfold next_step.
  rewrite (st_bind_ok _ _ g _ _ (zoom_ok _ _ _ g _ _ Hnx)).
  inversion Hst as [Hn1 Hp1|t1 w1 Ht1 Hw1 Hn1 Hp1]; symmetry in Hp1.
  - left. by rewrite cu_valid_false.
  - right. exists t1, w1. split_and!; [done..|]. rewrite (cu_valid_true c1 _ Hp1).
    rewrite (st_bind_ok _ _ _ (WriteRef_to_bytes w1) (pg_set_cursor g c1)).
    2:{ unfold zoom, cu_value. cbn [pg_write_cursor pg_set_cursor]. by rewrite Hp1. }
    unfold mbind, st_bind. cbn [lift]. by rewrite write_roundtrip.
Qed.

Lemma point_loop_spec b fuel : forall g w t,
  pg_snapshot g = s -> pg_inv g -> u64_ok t -> W t = Some w ->
  cu_pos (pg_write_cursor g) = Some (version_key raw t, WriteRef_to_bytes w) ->
  history_from b W -> floor W b t -> limit_quiet W t (Some (pg_ts g)) -> enough_fuel r raw fuel t ->
  exists o c', newest_change W t o
    /\ point_loop fuel key w g = (point_result g (fenced (Some (pg_ts g)) o), pg_set_cursor g c')
    /\ cursor_of s c'.
Proof.
  induction fuel as [|fuel IH]; intros g w t Hs Hg Ht Hw Hpos Hh Hb Hq Hf.
  { apply enough_fuel_pos in Hf; [lia|done]. }
  assert (2 <= S fuel)%nat as Hf2 by (eapply enough_fuel_pos; [|done]; done).
  assert (newest W t (Some (t, w))) as Hn by (split_and!; [lia|done|intros; lia]).
  assert (cursor_of s (pg_write_cursor g)) as Hc by (unfold pg_inv in Hg; by rewrite Hs in Hg).
  assert (pg_set_cursor g (pg_write_cursor g) = g) as Hset by by destruct g.
  destruct (is_change w) eqn:Hch.
  { exists (Some (t, w)), (pg_write_cursor g). rewrite Hset. split_and!; [|by apply point_loop_change|done].
    by apply newest_change_here. }
  destruct (floor_idle W b t t w Hh Hb Hn Hch) as [Hbt Hb'].
  pose proof (fence_ok_idle r raw (Some (pg_ts g)) b t w Hh Hbt Hw Hch Hq) as Hfe.
  pose proof (from_last_change b W Hh t w Hbt Hw Hch) as Hlc.
  assert (exists o c', newest_change W (t - 1) o
    /\ next_step fuel g = (point_result g (fenced (Some (pg_ts g)) o), pg_set_cursor g c')
    /\ cursor_of s c') as Hnext.
  { destruct (next_step_version g fuel t w Hs Hg Ht Hpos)
      as (c1 & Hc1 & [[Hn1 ->]|(t1 & w1 & Hn1 & Ht1 & Hp1 & ->)]).
    - exists None, c1. split_and!; [by apply newest_none_change|done|done].
    - pose proof Hn1 as (Hle1 & HW1 & _).
      destruct (IH (pg_set_cursor g c1) w1 t1) as (o & c2 & Ho & Hl & Hc2); try done.
      + unfold pg_inv. cbn. by rewrite Hs.
      + by eapply floor_newest.
      + eapply (limit_quiet_step r raw (t - 1)); [done|]. by eapply (limit_quiet_pred r raw).
      + eapply enough_fuel_mono; [|by eapply (enough_fuel_step r raw fuel t t w)]. done.
      + exists o, c2. split_and!; [by eapply newest_change_extend|exact Hl|done]. }
  rewrite point_loop_idle by done.
  assert (forall o, newest_change W (t - 1) o -> newest_change W t o) as Hbelow
    by (intros o; by apply newest_change_below with (w := w)).
  destruct (w_last_change w) as [|l n|].
  - destruct Hnext as (o & c' & Ho & -> & Hc'). exists o, c'. auto.
  - destruct (SEEK_BOUND <=? n); [|destruct Hnext as (o & c' & Ho & -> & Hc'); exists o, c'; auto].
    destruct fuel as [|fuel]; [lia|]. destruct (jump_step_spec g fuel t l n Hs Hlc) as (o & Ho & ->).
    exists o, (pg_write_cursor g). rewrite Hset. auto.
  - destruct Hlc as (o & Ho & Hv). exists o, (pg_write_cursor g).
    rewrite Hset, fenced_invisible by done. auto.
Qed.

(** *** The look for newer data *)

Lemma newest_unique ts o o' : newest W ts o -> newest W ts o' -> o = o'.
Proof.
  destruct o as [[c w]|], o' as [[c' w']|]; cbn; [| | |done].
  - intros (Hc & Hw & Hno) (Hc' & Hw' & Hno'). destruct (Z.lt_trichotomy c c') as [?|[->|?]]; [|congruence|].
    + by rewrite Hno in Hw' by lia.
    + by rewrite Hno' in Hw by lia.
  - intros (Hc & Hw & _) Hno. by rewrite Hno in Hw.
  - intros Hno (Hc & Hw & _). by rewrite Hno in Hw.
Qed.

(** What a read may change of the getter: where its cursor stands, and whether
    newer data was met. *)
Record same_getter g g' : Prop := {
  sg_snapshot : pg_snapshot g' = pg_snapshot g;
  sg_omit : pg_omit_value g' = pg_omit_value g;
  sg_iso : pg_isolation_level g' = pg_isolation_level g;
  sg_ts : pg_ts g' = pg_ts g;
  sg_bypass : pg_bypass_locks g' = pg_bypass_locks g;
  sg_access : pg_access_locks g' = pg_access_locks g
}.

Definition meet_if (newer : bool) g : NewerTsCheckState :=
  if (newer && bool_decide (pg_met_newer_ts_data g = NtNotMetYet))%bool then NtMet
  else pg_met_newer_ts_data g.

Definition newer_than (ts : TimeStamp) (o : option (TimeStamp * Write)) : bool :=
  match o with Some (t, _) => ts <? t | None => false end.

Definition conflict g (o : option (TimeStamp * Write)) : bool :=
  bool_decide (pg_isolation_level g = RcCheckTs) && newer_than (pg_ts g) o.

Definition conflict_error g (t : TimeStamp) : mvcc_error :=
  MvWriteConflict (pg_ts g) 0 t (Key_append_ts key t) [] WcRcCheckTs.

Lemma pg_meet_met g : pg_met_newer_ts_data (pg_meet g) = meet_if true g.
Proof. unfold meet_if. cbn. by case_decide; [rewrite bool_decide_eq_true_2|rewrite bool_decide_eq_false_2]. Qed.

(** The look is made unless the answer is known and of no interest. *)
Definition looks g : bool :=
  bool_decide (pg_met_newer_ts_data g = NtNotMetYet) || bool_decide (pg_isolation_level g = RcCheckTs).

Lemma check_newer_spec g o :
  pg_snapshot g = s -> pg_inv g -> newest W TimeStamp_max o ->
  exists g1, same_getter g g1 /\ pg_inv g1
    /\ pg_met_newer_ts_data g1 = meet_if (looks g && newer_than (pg_ts g) o) g
    /\ if looks g then
         match o with
         | None => check_newer key g = (Ok None, g1)
         | Some (t, w) =>
             if conflict g o then check_newer key g = (Err (conflict_error g t), g1)
             else check_newer key g = (Ok (Some true), g1)
               /\ cu_pos (pg_write_cursor g1) = Some (version_key raw t, WriteRef_to_bytes w)
         end
       else check_newer key g = (Ok (Some false), g1).
Proof.
  intros Hs Hg Hn. unfold check_newer. rewrite (st_bind_ok _ (gets id) g g g eq_refl). fold (looks g).
  destruct (looks g) eqn:Hlook; [|by exists g; split_and!; [split|..]]. cbn [andb].
  unfold pg_inv in Hg. rewrite Hs in Hg.
  assert (u64_ok TimeStamp_max) as Hmax by (unfold u64_ok, TimeStamp_max, u64_max; lia).
  destruct (point_seek (pg_write_cursor g) TimeStamp_max Hg Hmax) as (c1 & Hseek & Hc1 & Hst).
  rewrite (st_bind_ok _ _ g (cu_valid c1) (pg_set_cursor g c1)) by (by apply zoom_ok).
  inversion Hst as [Hn1 Hp1|t w Ht Hw Hn1 Hp1]; symmetry in Hp1;
    pose proof (newest_unique _ _ _ Hn1 Hn) as <-.
  { rewrite cu_valid_false by done. exists (pg_set_cursor g c1). split_and!; [by split| |done..].
    unfold pg_inv. cbn. by rewrite Hs. }
  rewrite (cu_valid_true c1 _ Hp1).
  rewrite (st_bind_ok _ _ _ (version_key raw t) (pg_set_cursor g c1)).
  2:{ unfold zoom, cu_key. cbn [pg_write_cursor pg_set_cursor]. by rewrite Hp1. }
  rewrite (st_bind_ok _ _ _ t (pg_set_cursor g c1)).
  2:{ unfold lift, version_key. by rewrite Key_decode_append. }
  cbn [newer_than]. unfold conflict. cbn [newer_than]. destruct (pg_ts g <? t).
  2:{ rewrite andb_false_r. exists (pg_set_cursor g c1). split_and!; [by split| |done..].
      unfold pg_inv. cbn. by rewrite Hs. }
  rewrite andb_true_r. exists (pg_meet (pg_set_cursor g c1)). split_and!; [by split| |by rewrite pg_meet_met|].
  { unfold pg_inv. cbn. by rewrite Hs. }
  rewrite (st_bind_ok _ (modify pg_meet) (pg_set_cursor g c1) tt _ eq_refl). case_decide.
  - by rewrite bool_decide_eq_true_2.
  - by rewrite bool_decide_eq_false_2.
Qed.

(** The move to the version to read. *)
Lemma find_version g (on_key : bool) o :
  pg_snapshot g = s -> pg_inv g -> u64_ok (pg_ts g) -> newest W TimeStamp_max o ->
  (on_key = true -> exists t w, o = Some (t, w) /\ u64_ok t /\ write_ok w
     /\ cu_pos (pg_write_cursor g) = Some (version_key raw t, WriteRef_to_bytes w)) ->
  exists c', ((if on_key then
                 k ← zoom pg_write_cursor pg_set_cursor (fun c => k ← cu_key c; Ok (c, k));
                 if bytes_leb (Key_append_ts key (pg_ts g)) k then mret true
                 else zoom pg_write_cursor pg_set_cursor (fun c => cu_near_seek c (Key_append_ts key (pg_ts g)))
               else zoom pg_write_cursor pg_set_cursor (fun c => cu_seek c (Key_append_ts key (pg_ts g)))) g)
             = (Ok (E:=mvcc_error) (cu_valid c'), pg_set_cursor g c')
    /\ cursor_of s c' /\ prefix_stands W raw (pg_ts g) (cu_pos c').
Proof.
  intros Hs Hg Hts Hn Hon. unfold pg_inv in Hg. rewrite Hs in Hg. destruct on_key.
  - destruct (Hon eq_refl) as (t & w & -> & Ht & Hw & Hp).
    rewrite (st_bind_ok _ _ _ (version_key raw t) g).
    2:{ unfold zoom, cu_key. rewrite Hp. cbn. by destruct g. }
    destruct (bytes_leb _ _) eqn:Hle.
    + exists (pg_write_cursor g). rewrite (cu_valid_true _ _ Hp), Hp. split_and!; [by destruct g|done|].
      apply (version_key_leb raw raw (pg_ts g) t raw_ok raw_ok Hts Ht) in Hle
        as [?|[_ ?]]; [by destruct (bytes_lt_irrefl raw)|]. constructor; [done..|].
      destruct Hn as (_ & HW & Hno). split_and!; [done..|]. intros t' Ht'. apply Hno.
      pose proof (u64_le_max _ Hts). lia.
    + assert (pg_ts g < t) as Hlt.
      { destruct (Z_lt_ge_dec (pg_ts g) t); [done|]. apply not_true_iff_false in Hle. destruct Hle.
        apply (version_key_leb raw raw (pg_ts g) t raw_ok raw_ok Hts Ht). right. split; [done|lia]. }
      destruct (point_near_seek (pg_write_cursor g) (pg_ts g) t _ Hg Hts Ht Hp Hlt)
        as (c' & b & Hns & -> & Hc' & Hst). exists c'. split; [|done]. by apply zoom_ok.
  - destruct (point_seek (pg_write_cursor g) (pg_ts g) Hg Hts) as (c' & Hseek & Hc' & Hst).
    exists c'. split; [|done]. by apply zoom_ok.
Qed.

(** *** Reads *)

Section Read.
Context (b : TimeStamp) (g : PointGetter Snap I).
Hypothesis (g_snapshot : pg_snapshot g = s) (g_inv : pg_inv g) (ts_ok : u64_ok (pg_ts g)).
Hypothesis (history : history_from b W) (Hfloor : floor W b (pg_ts g)).

Lemma quiet_here : limit_quiet W (pg_ts g) (Some (pg_ts g)).
Proof. intros t w Ht. lia. Qed.

Lemma reference_data_eq o oc :
  newest W TimeStamp_max o -> newest_change W (pg_ts g) oc ->
  reference_data g key
  = match o with
    | Some (t, _) =>
        if conflict g o then Err (conflict_error g t)
        else point_result g (fenced (Some (pg_ts g)) oc)
    | None => Ok None
    end.
Proof.
  intros Hn Hoc. unfold reference_data. set (rr := reference_reader g).
  assert (r_snapshot rr = s) as Hrs by done.
  assert (u64_ok TimeStamp_max) as Hmax by (unfold u64_ok, TimeStamp_max, u64_max; lia).
  pose proof (seek_write_spec rr raw) as Hspec. pose proof (get_write_from_spec rr raw) as Hget.
  rewrite Hrs in Hspec, Hget. fold key in Hspec, Hget. fold W in Hspec, Hget.
  destruct (Hspec wf raw_ok TimeStamp_max Hmax) as (o1 & -> & Hn1 & _).
  rewrite (newest_unique _ _ _ Hn1 Hn). cbn [mbind res_bind].
  destruct o as [[t w]|]; [|done].
  change (bool_decide (pg_isolation_level g = RcCheckTs) && (pg_ts g <? t))%bool with (conflict g (Some (t, w))).
  destruct (conflict g (Some (t, w))); [done|].
  destruct (Hget wf raw_ok b (pg_ts g) (Some (pg_ts g)) history Hfloor ts_ok quiet_here) as (oc1 & Hoc1 & Hg).
  rewrite (newest_change_unique _ _ _ _ Hoc1 Hoc) in *. unfold point_result.
  destruct (pg_omit_value g).
  - unfold get_write. rewrite Hg. cbn [mbind res_bind]. by destruct (fenced _ oc) as [[? ?]|].
  - rewrite (MvccReader_get_result _ _ _ _ oc) by done. rewrite Hrs. by destruct (fenced _ oc) as [[? ?]|].
Qed.
End Read.

Lemma read_version_spec b g on_key o :
  pg_snapshot g = s -> pg_inv g -> u64_ok (pg_ts g) -> history_from b W -> floor W b (pg_ts g) ->
  newest W TimeStamp_max o ->
  (on_key = true -> exists t w, o = Some (t, w) /\ u64_ok t /\ write_ok w
     /\ cu_pos (pg_write_cursor g) = Some (version_key raw t, WriteRef_to_bytes w)) ->
  exists oc c', newest_change W (pg_ts g) oc
    /\ read_version key on_key g = (point_result g (fenced (Some (pg_ts g)) oc), pg_set_cursor g c')
    /\ cursor_of s c'.
Proof.
  intros Hs Hg Hts Hh Hb Hn Hon. unfold read_version. rewrite (st_bind_ok _ (gets id) g g g eq_refl).
  destruct (find_version g on_key o Hs Hg Hts Hn Hon) as (c1 & Hfind & Hc1 & Hst).
  rewrite (st_bind_ok _ _ _ _ _ Hfind).
  inversion Hst as [Hn1 Hp1|t w Ht Hw Hn1 Hp1]; symmetry in Hp1.
  { rewrite cu_valid_false by done. exists None, c1. split_and!; [by apply newest_none_change|done|done]. }
  rewrite (cu_valid_true c1 _ Hp1).
  rewrite (st_bind_ok _ _ _ (WriteRef_to_bytes w) (pg_set_cursor g c1)).
  2:{ unfold zoom, cu_value. cbn [pg_write_cursor pg_set_cursor]. by rewrite Hp1. }
  rewrite (st_bind_ok _ _ _ w (pg_set_cursor g c1)) by (unfold lift; by rewrite write_roundtrip).
  pose proof Hn1 as (Hle & HW & _).
  destruct (point_loop_spec b (cf_len (pg_snapshot g) CF_WRITE + 2) (pg_set_cursor g c1) w t)
    as (oc & c2 & Hoc & Hl & Hc2); try done.
  - unfold pg_inv. cbn. by rewrite Hs.
  - by eapply floor_newest.
  - eapply (limit_quiet_step r raw (pg_ts g)); [done|exact (quiet_here g)].
  - rewrite Hs. apply enough_fuel_start.
  - exists oc, c2. split_and!; [by eapply newest_change_extend|exact Hl|done].
Qed.

Lemma point_load_data_spec b g o :
  pg_snapshot g = s -> pg_inv g -> u64_ok (pg_ts g) -> history_from b W -> floor W b (pg_ts g) ->
  newest W TimeStamp_max o ->
  exists g', point_load_data key g = (reference_data g key, g') /\ same_getter g g' /\ pg_inv g'
    /\ pg_met_newer_ts_data g' = meet_if (looks g && newer_than (pg_ts g) o) g.
Proof.
  intros Hs Hg Hts Hh Hb Hn.
  destruct (check_newer_spec g o Hs Hg Hn) as (g1 & Hsame & Hg1 & Hmet & Hnew).
  pose proof Hsame as [Hs1 Ho1 Hi1 Ht1 Hb1 Ha1].
  assert (forall on_key, check_newer key g = (Ok (Some on_key), g1) -> conflict g o = false ->
    (on_key = true -> exists t w, o = Some (t, w) /\ u64_ok t /\ write_ok w
       /\ cu_pos (pg_write_cursor g1) = Some (version_key raw t, WriteRef_to_bytes w)) ->
    exists g', point_load_data key g = (reference_data g key, g') /\ same_getter g g' /\ pg_inv g'
      /\ pg_met_newer_ts_data g' = meet_if (looks g && newer_than (pg_ts g) o) g) as Hread.
  { intros on_key Hc Hnc Hon. unfold point_load_data. rewrite (st_bind_ok _ _ _ _ _ Hc).
    destruct (read_version_spec b g1 on_key o) as (oc & c' & Hoc & Hrv & Hc'); rewrite ?Ht1; try done;
      [by rewrite Hs1|]. rewrite Ht1 in Hoc, Hrv.
    exists (pg_set_cursor g1 c'). rewrite Hrv. split_and!; [|by destruct Hsame| |done].
    - f_equal. rewrite (reference_data_eq b g Hs Hts Hh Hb o oc Hn Hoc), Hnc.
      destruct o as [[t w]|]; [unfold point_result; by rewrite Ho1|].
      assert (oc = None) as ->; [|done].
      apply (newest_change_unique W (pg_ts g)); [done|]. intros t w Ht Hw.
      pose proof (u64_le_max _ Hts). by rewrite (Hn t) in Hw by lia.
    - unfold pg_inv. cbn. by rewrite Hs1, Hs. }
  destruct (get_write_from_spec r raw wf raw_ok b (pg_ts g) (Some (pg_ts g)) Hh Hb Hts (quiet_here g))
    as (oc & Hoc & _).
  pose proof (reference_data_eq b g Hs Hts Hh Hb o oc Hn Hoc) as Href.
  destruct (looks g) eqn:Hlook.
  - destruct o as [[t w]|].
    + destruct (conflict g (Some (t, w))) eqn:Hcf.
      * exists g1. unfold point_load_data. rewrite (st_bind_err _ _ _ _ _ Hnew), Href. by split_and!.
      * destruct Hnew as [Hc Hp]. apply (Hread true); [done..|]. intros _. exists t, w.
        destruct Hn as (_ & Hw & _). by destruct (write_at_some r raw wf t w Hw) as (? & ? & _).
    + exists g1. unfold point_load_data. rewrite (st_bind_ok _ _ _ _ _ Hnew), Href. by split_and!.
  - apply (Hread false); [done| |done]. unfold conflict. unfold looks in Hlook.
    apply orb_false_elim in Hlook as [_ ->]. done.
Qed.

(** *** Locks *)

Lemma lock_parsed v :
  wf_lock_cf s -> get_cf s CF_LOCK key = Some v ->
  exists l, Lock_parse v = Ok l /\ lock_at s key = Some l.
Proof.
  intros Hwf Hv. destruct (Hwf _ _ Hv) as (raw' & l & _ & _ & Hok & ->). exists l.
  split; [by apply lock_roundtrip|]. unfold lock_at. rewrite Hv. by rewrite lock_roundtrip.
Qed.

(** A conflict is only ever reported for a lock that writes. *)
Lemma conflict_lock_type l ts bypass iso e :
  Lock_check_ts_conflict l key ts bypass iso = Err e -> l_lock_type l = LtPut \/ l_lock_type l = LtDelete.
Proof.
  unfold Lock_check_ts_conflict, Lock_check_ts_conflict_si, Lock_check_ts_conflict_rc_check_ts,
    Lock_is_pessimistic_lock.
  destruct iso, (l_lock_type l); try done; try (by left); try (by right);
    rewrite ?bool_decide_eq_true_2, ?orb_true_r by done; done.
Qed.

Lemma conflict_no_panic l ts bypass iso : Lock_check_ts_conflict l key ts bypass iso <> Panic.
Proof.
  unfold Lock_check_ts_conflict, Lock_check_ts_conflict_si, Lock_check_ts_conflict_rc_check_ts.
  unfold key. rewrite Key_to_raw_from_raw. destruct iso; cbn [map_err mbind res_bind]; [|done|];
    repeat case_match; done.
Qed.

Lemma locked_value_spec g l :
  pg_snapshot g = s -> l_lock_type l = LtPut \/ l_lock_type l = LtDelete ->
  load_data_from_lock key l g = (reference_locked g key l, g).
Proof.
  intros Hs Hty. unfold load_data_from_lock, reference_locked.
  rewrite (st_bind_ok _ (gets id) g g g eq_refl). destruct Hty as [-> | ->]; [|done].
  destruct (pg_omit_value g); [done|]. destruct (l_short_value l); [done|].
  unfold load_data_from_default_cf, mbind, st_bind. cbn [gets id]. by destruct (get_cf _ _ _).
Qed.

Lemma check_lock_spec g :
  wf_lock_cf s -> pg_snapshot g = s -> need_check_locks (pg_isolation_level g) = true ->
  exists g1, same_getter g g1 /\ pg_write_cursor g1 = pg_write_cursor g
    /\ pg_met_newer_ts_data g1 = meet_if (bool_decide (is_Some (lock_at s key))) g
    /\ ((load_and_check_lock key g = (Ok None, g1) /\ reference_get g key = reference_data g key)
        \/ (exists e, load_and_check_lock key g = (Err e, g1) /\ is_Some (lock_at s key)
           /\ reference_get g key = Err e)
        \/ exists l, load_and_check_lock key g = (Ok (Some l), g1) /\ is_Some (lock_at s key)
           /\ reference_get g key = reference_locked g key l
           /\ (l_lock_type l = LtPut \/ l_lock_type l = LtDelete)).
Proof.
  intros Hwf Hs Hneed. unfold load_and_check_lock, reference_get. rewrite Hneed, Hs.
  rewrite (st_bind_ok _ (gets id) g g g eq_refl). rewrite Hs.
  destruct (get_cf s CF_LOCK key) as [v|] eqn:Hv.
  2:{ assert (lock_at s key = None) as -> by (unfold lock_at; by rewrite Hv).
      exists g. split_and!; [by split|done|done|by left]. }
  destruct (lock_parsed v Hwf Hv) as (l & Hparse & ->).
  exists (pg_meet g). split_and!; [by split|done|by rewrite pg_meet_met, bool_decide_eq_true_2 by eauto|].
  rewrite (st_bind_ok _ _ g l g) by (unfold lift; by rewrite Hparse).
  rewrite (st_bind_ok _ (modify pg_meet) g tt (pg_meet g)) by done.
  pose proof (conflict_no_panic l (pg_ts g) (pg_bypass_locks g) (pg_isolation_level g)) as Hnp.
  destruct (Lock_check_ts_conflict _ _ _ _ _) as [[]|e|] eqn:Hc; [by left| |done].
  apply conflict_lock_type in Hc. right. destruct (TsSet_contains _ _); [right|left]; eauto.
Qed.

Lemma meet_if_looks n g : meet_if (looks g && n) g = meet_if n g.
Proof.
  unfold meet_if, looks. destruct (decide (pg_met_newer_ts_data g = NtNotMetYet)) as [E|E].
  - by rewrite (bool_decide_eq_true_2 _ E).
  - by rewrite (bool_decide_eq_false_2 _ E), !andb_false_r.
Qed.

Lemma meet_if_twice n1 n2 g g1 :
  pg_met_newer_ts_data g1 = meet_if n1 g -> meet_if n2 g1 = meet_if (n1 || n2) g.
Proof.
  intros Hm. unfold meet_if in *. rewrite Hm.
  destruct (decide (pg_met_newer_ts_data g = NtNotMetYet)) as [E|E].
  - rewrite (bool_decide_eq_true_2 _ E), E in *. by destruct n1, n2.
  - rewrite (bool_decide_eq_false_2 _ E), !andb_false_r. by rewrite bool_decide_eq_false_2, andb_false_r.
Qed.

Lemma reference_data_same g g1 : same_getter g g1 -> reference_data g1 key = reference_data g key.
Proof. intros [Hs Ho Hi Ht _ _]. unfold reference_data, reference_reader. by rewrite Hs, Ho, Hi, Ht. Qed.

Lemma same_getter_trans g1 g2 g3 : same_getter g1 g2 -> same_getter g2 g3 -> same_getter g1 g3.
Proof. intros [] []. split; congruence. Qed.

(** A lock was looked at, or there is a newer record. *)
Definition meets_newer g (o : option (TimeStamp * Write)) : bool :=
  need_check_locks (pg_isolation_level g) && bool_decide (is_Some (lock_at s key))
  || newer_than (pg_ts g) o.

Lemma meets_newer_spec g o :
  pg_snapshot g = s -> newest W TimeStamp_max o -> meets_newer g o = true <-> has_newer g key.
Proof.
  intros Hs Hn. unfold meets_newer, has_newer. rewrite Hs, orb_true_iff, andb_true_iff, bool_decide_eq_true.
  apply or_iff_compat_l. unfold newer_than. destruct o as [[t w]|].
  - destruct Hn as (_ & Hw & Hno). rewrite Z.ltb_lt. split; [intros ?; by exists t, w|].
    intros (t' & w' & Hlt & Hw'). destruct (Z_le_gt_dec t' t); [lia|].
    change (W t' = Some w') in Hw'. pose proof (write_at_range r raw t' w' Hw') as Hu.
    pose proof (u64_le_max _ Hu). by rewrite Hno in Hw' by lia.
  - split; [done|]. intros (t' & w' & _ & Hw'). change (W t' = Some w') in Hw'.
    pose proof (write_at_range r raw t' w' Hw') as Hu. by rewrite (Hn t' (u64_le_max _ Hu)) in Hw'.
Qed.

Lemma point_get_spec b g :
  wf_lock_cf s -> pg_snapshot g = s -> pg_inv g -> u64_ok (pg_ts g) ->
  history_from b W -> floor W b (pg_ts g) ->
  exists newer g', point_get key g = (reference_get g key, g') /\ same_getter g g' /\ pg_inv g'
    /\ pg_met_newer_ts_data g' = meet_if newer g /\ (newer = true <-> has_newer g key).
Proof.
  intros Hwfl Hs Hg Hts Hh Hb.
  assert (u64_ok TimeStamp_max) as Hmax by (unfold u64_ok, TimeStamp_max, u64_max; lia).
  destruct (seek_write_spec r raw wf raw_ok TimeStamp_max Hmax) as (o & _ & Hn & _).
  exists (meets_newer g o). pose proof (meets_newer_spec g o Hs Hn) as Hnew.
  unfold point_get. rewrite (st_bind_ok _ (gets id) g g g eq_refl). unfold meets_newer in *.
  destruct (need_check_locks (pg_isolation_level g)) eqn:Hneed; cbn [andb orb] in *.
  - destruct (check_lock_spec g Hwfl Hs Hneed) as (g1 & Hsame & Hcur & Hmet & Hcase).
    assert (pg_inv g1) as Hg1 by (unfold pg_inv; by rewrite Hcur, (sg_snapshot _ _ Hsame)).
    destruct Hcase as [[Hl ->]|[(e & Hl & Hsome & ->)|(l & Hl & Hsome & -> & Hty)]].
    + destruct (point_load_data_spec b g1 o) as (g2 & Hld & Hsame2 & Hg2 & Hmet2);
        rewrite ?(sg_snapshot _ _ Hsame), ?(sg_ts _ _ Hsame); [done..|].
      exists g2. rewrite (st_bind_ok _ _ _ _ _ Hl), Hld, (reference_data_same g g1 Hsame).
      split_and!; [done|by eapply same_getter_trans|done| |done].
      rewrite Hmet2, meet_if_looks, (sg_ts _ _ Hsame). by apply meet_if_twice.
    + exists g1. rewrite (st_bind_err _ _ _ _ _ Hl). split_and!; [done..| |done].
      rewrite Hmet. by rewrite bool_decide_eq_true_2.
    + exists g1. rewrite (st_bind_ok _ _ _ _ _ Hl), locked_value_spec; [|by rewrite (sg_snapshot _ _ Hsame)|done].
      split_and!; [|done..| |done].
      * unfold reference_locked. by rewrite (sg_omit _ _ Hsame), (sg_snapshot _ _ Hsame).
      * rewrite Hmet. by rewrite bool_decide_eq_true_2.
  - destruct (point_load_data_spec b g o Hs Hg Hts Hh Hb Hn) as (g2 & Hld & Hsame2 & Hg2 & Hmet2).
    exists g2. rewrite Hld. unfold reference_get. rewrite Hneed.
    split_and!; [done..| |done]. by rewrite Hmet2, meet_if_looks.
Qed.
End Key.
End Spec.

Section Props.
Context {Snap I : Type} `{EngineSnapshotLaws Snap} `{PrefixIterator I}.
Implicit Types g : PointGetter Snap I.

Lemma reference_get_same g g1 key : same_getter g g1 -> reference_get g1 key = reference_get g key.
Proof.
  intros [Hs Ho Hi Ht Hb Ha].
  unfold reference_get, reference_data, reference_locked, reference_reader.
  by rewrite Hs, Ho, Hi, Ht, Hb, Ha.
Qed.

Lemma has_newer_same g g1 key : same_getter g g1 -> has_newer g1 key <-> has_newer g key.
Proof. intros [Hs _ Hi Ht _ _]. unfold has_newer. by rewrite Hs, Hi, Ht. Qed.

(** The records of a key are what readers at the timestamp rely on. *)
Definition readable g (raw : bytes) : Prop :=
  bytes_ok raw
  /\ exists b, history_from b (write_at (pg_snapshot g) (Key_from_raw raw))
     /\ floor (write_at (pg_snapshot g) (Key_from_raw raw)) b (pg_ts g).

(** C16. Point gets are the reference reads.  On a well-formed store whose
    histories readers can rely on, a batch of point gets with one getter, from
    wherever its cursor stands, returns for every key, in order and without
    panic: the error of the lock conflict, or the value of the lock where it may
    be read through; otherwise what [MvccReader.get] returns at the timestamp, or
    the write conflict with the newest record under [RcCheckTs].  The prefix
    seeks, the near seek past newer records and the jumps over hints make no
    difference.  A getter that checks for newer data answers [Met] afterwards
    exactly when a lock that was looked at or a newer record exists. *)
Theorem point_get_equivalent g raws :
  wf_write_cf (pg_snapshot g) -> wf_lock_cf (pg_snapshot g) -> pg_inv g -> u64_ok (pg_ts g) ->
  (forall raw, raw ∈ raws -> readable g raw) ->
  exists newer g',
    batch_get (map Key_from_raw raws) g = (map (reference_get g) (map Key_from_raw raws), g')
    /\ same_getter g g' /\ pg_inv g'
    /\ pg_met_newer_ts_data g' = meet_if newer g
    /\ (newer = true <-> exists raw, raw ∈ raws /\ has_newer g (Key_from_raw raw)).
Proof.
  revert g. induction raws as [|raw raws IH]; intros g Hw Hl Hg Hts Hr.
  { exists false, g. split_and!; [done|by split|done|done|]. split; [done|]. by intros (? & []%not_elem_of_nil & _). }
  destruct (Hr raw ltac:(by left)) as [Hraw (b & Hh & Hb)].
  destruct (point_get_spec (pg_snapshot g) raw Hw Hraw b g Hl eq_refl Hg Hts Hh Hb)
    as (n1 & g1 & Hget & Hsame & Hg1 & Hm1 & Hn1).
  destruct (IH g1) as (n2 & g2 & Hbatch & Hsame2 & Hg2 & Hm2 & Hn2);
    [by rewrite (sg_snapshot _ _ Hsame)..|done|by rewrite (sg_ts _ _ Hsame)| |].
  { intros raw' Hin. unfold readable. rewrite (sg_snapshot _ _ Hsame), (sg_ts _ _ Hsame). apply Hr. by right. }
  exists (n1 || n2)%bool, g2. cbn [map batch_get]. rewrite Hget, Hbatch. split_and!.
  - f_equal. f_equal. apply map_ext. intros k. by apply reference_get_same.
  - by eapply same_getter_trans.
  - done.
  - rewrite Hm2. by apply meet_if_twice.
  - rewrite orb_true_iff, Hn1, Hn2. setoid_rewrite elem_of_cons. setoid_rewrite (has_newer_same g g1 _ Hsame).
    naive_solver.
Qed.
End Props.

(** ** A prefix iterator over the in-memory engine *)

Record PrefixTree : Type := { pt_tree : gmap bytes bytes; pt_pos : option Entry }.

Definition pt_at (it : PrefixTree) (o : option Entry) : PrefixTree := {| pt_tree := pt_tree it; pt_pos := o |}.

#[export] Instance PrefixTree_iter : EngineIterator PrefixTree := {
  it_pos := pt_pos;
  it_seek := fun k it => pt_at it (range_first (fun k' => bytes_leb k k' && same_prefix k k') (pt_tree it));
  it_seek_for_prev := fun k it =>
    pt_at it (range_last (fun k' => bytes_leb k' k && same_prefix k k') (pt_tree it));
  it_seek_to_first := fun it => pt_at it (range_first (fun _ => true) (pt_tree it));
  it_seek_to_last := fun it => pt_at it (range_last (fun _ => true) (pt_tree it));
  it_next := fun it =>
    match pt_pos it with
    | Some (k, _) => pt_at it (range_first (fun k' => bytes_ltb k k' && same_prefix k k') (pt_tree it))
    | None => it
    end;
  it_prev := fun it =>
    match pt_pos it with
    | Some (k, _) => pt_at it (range_last (fun k' => bytes_ltb k' k && same_prefix k k') (pt_tree it))
    | None => it
    end
}.

#[export] Instance PrefixTree_prefix : PrefixIterator PrefixTree.
Proof.
  refine {| px_content := fun it k => pt_tree it !! k |}.
  - intros k it. split; [done|]. apply range_first_least.
  - intros it k v Hp. cbn in *. rewrite Hp. split; [done|]. apply range_first_least.
Defined.

Definition point_getter_of (s : Store) (ts : TimeStamp) : PointGetter Store PrefixTree :=
  PointGetter_build s {| pt_tree := st_write s; pt_pos := None |} ts false Si (TsSet_new []) (TsSet_new []) true.

Lemma point_get_equivalent_witness :
  let g := point_getter_of sample_store 25 in
  fst (batch_get [sample_key; sample_key] g) = [Ok (Some [1]); Ok (Some [1])]
  /\ exists newer g', batch_get [sample_key; sample_key] g
       = ([reference_get g sample_key; reference_get g sample_key], g')
     /\ pg_met_newer_ts_data g' = meet_if newer g.
Proof.
  cbn zeta. split; [vm_compute; reflexivity|].
  destruct (point_get_equivalent (point_getter_of sample_store 25) [[107]; [107]])
    as (newer & g' & Hb & _ & _ & Hm & _).
  - exact (proj1 (proj1 sample_store_spec)).
  - exact (proj2 (proj1 sample_store_spec)).
  - apply pg_inv_build. reflexivity.
  - unfold u64_ok. cbn. lia.
  - intros raw Hin. assert (raw = [107]) as -> by (rewrite !elem_of_cons, elem_of_nil in Hin; tauto).
    split; [apply sample_raw_ok|]. exists 0. split; [apply history_ok_from, sample_history_ok|by left].
  - exists newer, g'. split; [exact Hb|exact Hm].
Defined.
