(* ===== verification/Scanner.v ===== *)
(** * Range scanners: configuration, cursors and the scan of a store

    Models what the forward and the backward scanner share:
    [src/storage/mvcc/reader/scanner/mod.rs] ([ScannerConfig], [ScannerBuilder],
    [near_load_data_by_write] and its reverse, [load_data_by_lock]), the choice
    of seek of [components/tikv_kv/src/stats.rs] ([load_data_hint]) and the loop
    [Scanner.scan] of [src/storage/txn/store.rs].  [ForwardScanner] (with its
    [Cursors]) and [BackwardKvScanner] have the same fields, one record here.
    What the engine makes of the bounds of an iterator is the interface
    [SnapshotIter].  Of the statistics only the two counters that choose a seek
    are modelled; [fill_cache] only concerns the block cache of the engine.

    The reference of a scan is [reference_scan]: the point reads of the keys. *)

From Stdlib Require Import ZArith Lia.
From stdpp Require Import base numbers list gmap sorting.
From S2P Require Import Prelude Number Bytes Types Write Lock ConcurrencyManager Engine Cursor Reader Versions.
From S2P Require Import AbsState ReaderSpec PointGetter.

Open Scope Z_scope.

(** ** Iterators of a snapshot *)

(** [snapshot.iter(cf, iter_opt)] with the bounds and the hints on commit
    timestamps. *)
Class SnapshotIter (Snap I : Type) : Type := {
  snap_iter : Snap -> CF -> option Key -> option Key -> option TimeStamp -> option TimeStamp -> I
}.

(** The range is left closed, right open. *)
Definition in_bounds (lower upper : option Key) (k : Key) : bool :=
  match lower with Some l => bytes_leb l k | None => true end
  && match upper with Some u => bytes_ltb k u | None => true end.

(** An iterator without hints ranges over the entries between its bounds, and is
    not positioned at first. *)
Class SnapshotIterLaws (Snap I : Type) `{EngineSnapshot Snap} `{EngineIteratorLaws I}
    `{SnapshotIter Snap I} : Prop := {
  snap_iter_ok s cf lower upper : it_ok (snap_iter s cf lower upper None None);
  snap_iter_pos s cf lower upper : it_pos (snap_iter s cf lower upper None None) = None;
  snap_iter_content s cf lower upper k :
    it_content (snap_iter s cf lower upper None None) k
    = if in_bounds lower upper k then get_cf s cf k else None
}.

(** ** The configuration *)

Record ScannerConfig (Snap : Type) : Type := {
  sc_snapshot : Snap;
  sc_omit_value : bool;
  sc_isolation_level : IsolationLevel;
  sc_lower_bound : option Key;
  sc_upper_bound : option Key;
  sc_hint_min_ts : option TimeStamp;
  sc_hint_max_ts : option TimeStamp;
  sc_ts : TimeStamp;
  sc_desc : bool;
  sc_bypass_locks : TsSet;
  sc_access_locks : TsSet;
  sc_check_has_newer_ts_data : bool
}.
Arguments sc_snapshot {Snap} _.
Arguments sc_omit_value {Snap} _.
Arguments sc_isolation_level {Snap} _.
Arguments sc_lower_bound {Snap} _.
Arguments sc_upper_bound {Snap} _.
Arguments sc_hint_min_ts {Snap} _.
Arguments sc_hint_max_ts {Snap} _.
Arguments sc_ts {Snap} _.
Arguments sc_desc {Snap} _.
Arguments sc_bypass_locks {Snap} _.
Arguments sc_access_locks {Snap} _.
Arguments sc_check_has_newer_ts_data {Snap} _.

(** [lower_bound.take()] and [upper_bound.take()] *)
Definition sc_take_bounds {Snap} (cfg : ScannerConfig Snap) : ScannerConfig Snap :=
  {| sc_snapshot := sc_snapshot cfg; sc_omit_value := sc_omit_value cfg;
     sc_isolation_level := sc_isolation_level cfg; sc_lower_bound := None; sc_upper_bound := None;
     sc_hint_min_ts := sc_hint_min_ts cfg; sc_hint_max_ts := sc_hint_max_ts cfg; sc_ts := sc_ts cfg;
     sc_desc := sc_desc cfg; sc_bypass_locks := sc_bypass_locks cfg;
     sc_access_locks := sc_access_locks cfg;
     sc_check_has_newer_ts_data := sc_check_has_newer_ts_data cfg |}.

Definition scan_mode {Snap} (cfg : ScannerConfig Snap) : ScanMode :=
  if sc_desc cfg then SmMixed else SmForward.

Definition create_cf_cursor_with_scan_mode {Snap I} `{SnapshotIter Snap I} (cfg : ScannerConfig Snap)
    (cf : CF) (mode : ScanMode) : Cursor I * ScannerConfig Snap :=
  let hints := decide (cf = CF_WRITE) in
  let iter := snap_iter (sc_snapshot cfg) cf (sc_lower_bound cfg) (sc_upper_bound cfg)
                (if hints then sc_hint_min_ts cfg else None)
                (if hints then sc_hint_max_ts cfg else None) in
  (Cursor_new iter mode false, if decide (cf = CF_DEFAULT) then sc_take_bounds cfg else cfg).

Definition create_cf_cursor {Snap I} `{SnapshotIter Snap I} (cfg : ScannerConfig Snap) (cf : CF)
    : Cursor I * ScannerConfig Snap :=
  create_cf_cursor_with_scan_mode cfg cf (scan_mode cfg).

(** ** Statistics that choose a seek *)

(** [write.over_seek_bound] and [load_data_hint.last_write_over_seek_bound] *)
Record Statistics : Type := {
  ss_over_seek_bound : Z;
  ss_last_over_seek_bound : Z
}.

Definition Statistics_default : Statistics := {| ss_over_seek_bound := 0; ss_last_over_seek_bound := 0 |}.

Inductive LoadDataHint : Type := NearSeek | Seek.

Definition load_data_hint (st : Statistics) : LoadDataHint * Statistics :=
  (if ss_over_seek_bound st =? ss_last_over_seek_bound st then NearSeek else Seek,
   {| ss_over_seek_bound := ss_over_seek_bound st; ss_last_over_seek_bound := ss_over_seek_bound st |}).

(** [statistics.write.over_seek_bound += 1] *)
Definition over_seek_bound (st : Statistics) : Statistics :=
  {| ss_over_seek_bound := ss_over_seek_bound st + 1;
     ss_last_over_seek_bound := ss_last_over_seek_bound st |}.

(** ** Scanners *)

Record KvScanner (Snap I : Type) : Type := {
  ks_cfg : ScannerConfig Snap;
  ks_lock : option (Cursor I);
  ks_write : Cursor I;
  ks_default : option (Cursor I);
  ks_is_started : bool;
  ks_statistics : Statistics;
  ks_met_newer_ts_data : NewerTsCheckState
}.
Arguments ks_cfg {Snap I} _.
Arguments ks_lock {Snap I} _.
Arguments ks_write {Snap I} _.
Arguments ks_default {Snap I} _.
Arguments ks_is_started {Snap I} _.
Arguments ks_statistics {Snap I} _.
Arguments ks_met_newer_ts_data {Snap I} _.

(** [ForwardScanner::new] and [BackwardKvScanner::new] *)
Definition KvScanner_new {Snap I} (cfg : ScannerConfig Snap) (lock : option (Cursor I)) (write : Cursor I)
    (default : option (Cursor I)) : KvScanner Snap I :=
  {| ks_cfg := cfg; ks_lock := lock; ks_write := write; ks_default := default; ks_is_started := false;
     ks_statistics := Statistics_default;
     ks_met_newer_ts_data := if sc_check_has_newer_ts_data cfg then NtNotMetYet else NtUnknown |}.

Definition ks_set_lock {Snap I} (s : KvScanner Snap I) (o : option (Cursor I)) : KvScanner Snap I :=
  {| ks_cfg := ks_cfg s; ks_lock := o; ks_write := ks_write s; ks_default := ks_default s;
     ks_is_started := ks_is_started s; ks_statistics := ks_statistics s;
     ks_met_newer_ts_data := ks_met_newer_ts_data s |}.
Definition ks_set_write {Snap I} (s : KvScanner Snap I) (c : Cursor I) : KvScanner Snap I :=
  {| ks_cfg := ks_cfg s; ks_lock := ks_lock s; ks_write := c; ks_default := ks_default s;
     ks_is_started := ks_is_started s; ks_statistics := ks_statistics s;
     ks_met_newer_ts_data := ks_met_newer_ts_data s |}.
Definition ks_set_default {Snap I} (s : KvScanner Snap I) (o : option (Cursor I)) : KvScanner Snap I :=
  {| ks_cfg := ks_cfg s; ks_lock := ks_lock s; ks_write := ks_write s; ks_default := o;
     ks_is_started := ks_is_started s; ks_statistics := ks_statistics s;
     ks_met_newer_ts_data := ks_met_newer_ts_data s |}.
Definition ks_set_cfg {Snap I} (s : KvScanner Snap I) (cfg : ScannerConfig Snap) : KvScanner Snap I :=
  {| ks_cfg := cfg; ks_lock := ks_lock s; ks_write := ks_write s; ks_default := ks_default s;
     ks_is_started := ks_is_started s; ks_statistics := ks_statistics s;
     ks_met_newer_ts_data := ks_met_newer_ts_data s |}.
Definition ks_set_statistics {Snap I} (s : KvScanner Snap I) (st : Statistics) : KvScanner Snap I :=
  {| ks_cfg := ks_cfg s; ks_lock := ks_lock s; ks_write := ks_write s; ks_default := ks_default s;
     ks_is_started := ks_is_started s; ks_statistics := st;
     ks_met_newer_ts_data := ks_met_newer_ts_data s |}.
Definition ks_start {Snap I} (s : KvScanner Snap I) : KvScanner Snap I :=
  {| ks_cfg := ks_cfg s; ks_lock := ks_lock s; ks_write := ks_write s; ks_default := ks_default s;
     ks_is_started := true; ks_statistics := ks_statistics s;
     ks_met_newer_ts_data := ks_met_newer_ts_data s |}.

(** [if self.met_newer_ts_data == NotMetYet { self.met_newer_ts_data = Met }] *)
Definition ks_meet {Snap I} (s : KvScanner Snap I) : KvScanner Snap I :=
  {| ks_cfg := ks_cfg s; ks_lock := ks_lock s; ks_write := ks_write s; ks_default := ks_default s;
     ks_is_started := ks_is_started s; ks_statistics := ks_statistics s;
     ks_met_newer_ts_data :=
       if decide (ks_met_newer_ts_data s = NtNotMetYet) then NtMet else ks_met_newer_ts_data s |}.

Section Scanner.
Context {Snap I : Type} `{EngineSnapshot Snap} `{EngineIterator I} `{SnapshotIter Snap I}.
Abbreviation SC := (st_res (KvScanner Snap I) mvcc_error).

(** [ScannerBuilder.build] *)
Definition ScannerBuilder_build (cfg : ScannerConfig Snap) : KvScanner Snap I :=
  let '(lock_cursor, cfg) :=
    if need_check_locks (sc_isolation_level cfg)
    then let '(c, cfg) := create_cf_cursor cfg CF_LOCK in (Some c, cfg) else (None, cfg) in
  let '(write_cursor, cfg) := create_cf_cursor cfg CF_WRITE in
  KvScanner_new cfg lock_cursor write_cursor None.

Definition on_write {A} (m : Cursor I -> mvcc_res (Cursor I * A)) : SC A := zoom ks_write ks_set_write m.

(** A cursor that may not exist, unwrapped. *)
Definition unwrapped {A} (m : Cursor I -> mvcc_res (Cursor I * A)) (o : option (Cursor I))
    : mvcc_res (option (Cursor I) * A) :=
  c ← unwrap o; '(c, a) ← m c; Ok (Some c, a).
Definition on_lock {A} (m : Cursor I -> mvcc_res (Cursor I * A)) : SC A :=
  zoom ks_lock ks_set_lock (unwrapped m).
Definition on_default {A} (m : Cursor I -> mvcc_res (Cursor I * A)) : SC A :=
  zoom ks_default ks_set_default (unwrapped m).

(** [cursor.valid()], [cursor.key()] and [cursor.value()] *)
Definition peek {A} (f : Cursor I -> mvcc_res A) (c : Cursor I) : mvcc_res (Cursor I * A) :=
  a ← f c; Ok (c, a).
Definition valid_of (c : Cursor I) : mvcc_res bool := Ok (cu_valid c).

(** The key a cursor stands at, if any. *)
Definition key_of (c : Cursor I) : mvcc_res (option bytes) :=
  if cu_valid c then Some <$> cu_key c else Ok None.

Definition ensure_default_cursor : SC unit :=
  s ← gets id;
  match ks_default s with
  | Some _ => mret tt
  | None =>
      let '(c, cfg) := create_cf_cursor (ks_cfg s) CF_DEFAULT in
      modify (fun s => ks_set_default (ks_set_cfg s cfg) (Some c))
  end.

(** The tail of [near_load_data_by_write] and of its reverse. *)
Definition loaded_value (seek_key : Key) : SC Value :=
  here ← on_default (peek (fun c => if cu_valid c then k ← cu_key c; Ok (bytes_eqb k seek_key)
                                    else Ok false));
  if (here : bool) then on_default (peek cu_value) else throw (default_not_found_error seek_key).

Definition near_load_data_by_write (user_key : Key) (write_start_ts : TimeStamp) : SC Value :=
  let seek_key := Key_append_ts user_key write_start_ts in
  hint ← zoom ks_statistics ks_set_statistics (fun st => let '(h, st) := load_data_hint st in Ok (st, h));
  _ ← on_default (fun c => match hint with
                           | NearSeek => cu_near_seek c seek_key
                           | Seek => cu_seek c seek_key
                           end);
  loaded_value seek_key.

Definition near_reverse_load_data_by_write (user_key : Key) (write_start_ts : TimeStamp) : SC Value :=
  let seek_key := Key_append_ts user_key write_start_ts in
  hint ← zoom ks_statistics ks_set_statistics (fun st => let '(h, st) := load_data_hint st in Ok (st, h));
  _ ← on_default (fun c => match hint with
                           | NearSeek => cu_near_seek_for_prev c seek_key
                           | Seek => cu_seek_for_prev c seek_key
                           end);
  loaded_value seek_key.

Definition load_data_by_lock (current_user_key : Key) (lock : Lock) : SC (option Value) :=
  s ← gets id;
  match l_lock_type lock with
  | LtPut =>
      if sc_omit_value (ks_cfg s) then mret (Some [])
      else
        match l_short_value lock with
        | Some value => mret (Some value)
        | None =>
            value ← (if sc_desc (ks_cfg s)
                     then near_reverse_load_data_by_write current_user_key (l_ts lock)
                     else near_load_data_by_write current_user_key (l_ts lock));
            mret (Some value)
        end
  | LtDelete => mret None
  | LtLock | LtPessimistic => lift Panic
  end.
End Scanner.

(** ** The scan of a store *)

Abbreviation KvPair := (bytes * Value)%type.

Definition is_key_is_locked (e : mvcc_error) : bool :=
  match e with MvKeyIsLocked _ => true | _ => false end.

(** [Scanner.scan] over a scanner with the given [next]. *)
Fixpoint scan_loop {S} (next : st_res S mvcc_error (option (Key * Value))) (fuel : nat)
    (limit sample_step row_count : nat) (results : list (mvcc_res KvPair))
    : st_res S mvcc_error (list (mvcc_res KvPair)) :=
  match fuel with
  | O => lift Panic
  | S fuel => fun s =>
      if decide (limit <= length results)%nat then (Ok results, s)
      else
        match next s with
        | (Ok (Some (k, v)), s) =>
            if decide (0 < sample_step /\ row_count mod sample_step <> 0)%nat
            then scan_loop next fuel limit sample_step (row_count + 1) results s
            else
              match Key_to_raw k with
              | Ok raw => scan_loop next fuel limit sample_step
                            (if decide (0 < sample_step)%nat then row_count + 1 else row_count)
                            (results ++ [Ok (raw, v)]) s
              | Err e => (Err (MvCodec e), s)
              | Panic => (Panic, s)
              end
        | (Ok None, s) => (Ok results, s)
        | (Err e, s) =>
            if is_key_is_locked e then scan_loop next fuel limit sample_step row_count (results ++ [Err e]) s
            else (Err e, s)
        | (Panic, s) => (Panic, s)
        end
  end.

(** A bound for the number of keys with data. *)
Definition scan_fuel {Snap} `{EngineSnapshot Snap} (snapshot : Snap) : nat :=
  (cf_len snapshot CF_WRITE + cf_len snapshot CF_LOCK + 1)%nat.

Definition Scanner_scan {Snap I} `{EngineSnapshot Snap}
    (next : st_res (KvScanner Snap I) mvcc_error (option (Key * Value)))
    (limit sample_step : nat) : st_res (KvScanner Snap I) mvcc_error (list (mvcc_res KvPair)) :=
  s ← gets id;
  scan_loop next (S (scan_fuel (sc_snapshot (ks_cfg s)))) limit sample_step 0 [].

(** The reference: the point reads of the keys in order.  A locked key is part of
    the result, any other error ends the scan.  The keys not read come with it. *)
Fixpoint reference_scan (get : bytes -> mvcc_res (option Value)) (keys : list bytes)
    (limit sample_step row_count : nat) : mvcc_res (list (mvcc_res KvPair)) * list bytes :=
  match limit, keys with
  | O, _ | _, [] => (Ok [], keys)
  | S limit', raw :: keys =>
      let and_then entry row_count :=
        let '(rest, remaining) := reference_scan get keys limit' sample_step row_count in
        (rest ← rest; Ok (entry :: rest), remaining) in
      match get raw with
      | Ok None => reference_scan get keys limit sample_step row_count
      | Ok (Some v) =>
          if decide (0 < sample_step /\ row_count mod sample_step <> 0)%nat
          then reference_scan get keys limit sample_step (row_count + 1)
          else and_then (Ok (raw, v)) (if decide (0 < sample_step)%nat then row_count + 1 else row_count)%nat
      | Err e => if is_key_is_locked e then and_then (Err e) row_count else (Err e, keys)
      | Panic => (Panic, keys)
      end
  end.

(** The next result of a scan and the keys after it. *)
Fixpoint reference_next (get : bytes -> mvcc_res (option Value)) (keys : list bytes)
    : mvcc_res (option (bytes * Value)) * list bytes :=
  match keys with
  | [] => (Ok None, [])
  | raw :: keys =>
      match get raw with
      | Ok None => reference_next get keys
      | Ok (Some v) => (Ok (Some (raw, v)), keys)
      | Err e => (Err e, keys)
      | Panic => (Panic, keys)
      end
  end.

(** The point reads a scan is compared with. *)
Definition reference_of {Snap} (cfg : ScannerConfig Snap) : PointGetter Snap unit :=
  PointGetter_build (sc_snapshot cfg) tt (sc_ts cfg) (sc_omit_value cfg) (sc_isolation_level cfg)
    (sc_bypass_locks cfg) (sc_access_locks cfg) (sc_check_has_newer_ts_data cfg).

(** ** The data between two bounds *)

Section Range.
Context {Snap : Type} `{EngineSnapshotLaws Snap}.
Context (s : Snap) (lower upper : option bytes).

(** The bounds of a scan are user keys. *)
Definition bound_ok (o : option bytes) : Prop := match o with Some raw => bytes_ok raw | None => True end.
Hypothesis (lower_ok : bound_ok lower) (upper_ok : bound_ok upper).

Definition ranged (cf : CF) (k : Key) : option Value :=
  if in_bounds (Key_from_raw <$> lower) (Key_from_raw <$> upper) k then get_cf s cf k else None.

Lemma in_bounds_user raw :
  bytes_ok raw ->
  in_bounds (Key_from_raw <$> lower) (Key_from_raw <$> upper) (Key_from_raw raw) = in_bounds lower upper raw.
Proof.
  intros Hraw. unfold in_bounds, bytes_leb, bytes_ltb. destruct lower as [l|], upper as [u|];
    cbn [fmap option_fmap option_map]; rewrite ?user_key_order by done; done.
Qed.

Lemma in_bounds_version raw t :
  bytes_ok raw -> u64_ok t ->
  in_bounds (Key_from_raw <$> lower) (Key_from_raw <$> upper) (version_key raw t) = in_bounds lower upper raw.
Proof.
  intros Hraw Ht. unfold in_bounds, bytes_leb, bytes_ltb. f_equal.
  - destruct lower as [l|]; [|done]. cbn [fmap option_fmap option_map]. rewrite user_key_cmp by done. by destruct (bytes_cmp l raw).
  - destruct upper as [u|]; [|done]. cbn [fmap option_fmap option_map]. rewrite bytes_cmp_antisym, user_key_cmp by done.
    rewrite (bytes_cmp_antisym raw u). by destruct (bytes_cmp raw u).
Qed.

Lemma ranged_some cf k v :
  ranged cf k = Some v <-> in_bounds (Key_from_raw <$> lower) (Key_from_raw <$> upper) k = true /\ get_cf s cf k = Some v.
Proof. unfold ranged. destruct (in_bounds _ _ _); naive_solver. Qed.

Lemma ranged_versions : wf_write_cf s -> wf_versions (ranged CF_WRITE).
Proof. intros Hwf k v [_ Hv]%ranged_some. by apply Hwf. Qed.

Lemma version_at_ranged raw t :
  bytes_ok raw ->
  version_at (ranged CF_WRITE) raw t
  = if in_bounds lower upper raw then write_at s (Key_from_raw raw) t else None.
Proof.
  intros Hraw. unfold version_at, write_at, ranged, version_key. case_decide; [|by destruct (in_bounds _ _ _)].
  fold (version_key raw t). rewrite in_bounds_version by done. by destruct (in_bounds _ _ _).
Qed.

(** The user keys with data, in order; locks count where they are looked at. *)
Definition has_data (locks : bool) (raw : bytes) : Prop :=
  in_bounds lower upper raw = true
  /\ ((exists t w, write_at s (Key_from_raw raw) t = Some w)
      \/ locks = true /\ is_Some (get_cf s CF_LOCK (Key_from_raw raw))).

Definition lists_keys (locks : bool) (keys : list bytes) : Prop :=
  StronglySorted bytes_lt keys /\ forall raw, raw ∈ keys <-> bytes_ok raw /\ has_data locks raw.

Lemma lists_keys_ok locks keys raw : lists_keys locks keys -> raw ∈ keys -> bytes_ok raw.
Proof. intros [_ Hk] Hin. by apply Hk in Hin as [? _]. Qed.

Lemma lists_keys_range locks keys raw : lists_keys locks keys -> raw ∈ keys -> in_bounds lower upper raw = true.
Proof. intros [_ Hk] Hin. by apply Hk in Hin as [_ [? _]]. Qed.

(** Every key with data has an entry of its own. *)
Lemma keys_entries locks keys :
  wf_write_cf s -> NoDup keys -> (forall raw, raw ∈ keys -> bytes_ok raw /\ has_data locks raw) ->
  exists ws ls, length keys = (length ws + length ls)%nat
    /\ NoDup ws /\ (forall k, k ∈ ws -> is_Some (get_cf s CF_WRITE k)
         /\ exists raw t, raw ∈ keys /\ k = version_key raw t)
    /\ NoDup ls /\ (forall k, k ∈ ls -> is_Some (get_cf s CF_LOCK k) /\ exists raw, raw ∈ keys /\ k = Key_from_raw raw).
Proof.
  intros Hwf. induction keys as [|raw keys IH]; intros Hnd Hd.
  { exists [], []. split_and!; try done; try apply NoDup_nil_2; intros k Hk; by apply elem_of_nil in Hk. }
  apply NoDup_cons in Hnd as [Hnin Hnd].
  destruct IH as (ws & ls & Hlen & Hw & Hws & Hl & Hls); [done|intros; apply Hd; by right|].
  destruct (Hd raw) as [Hraw [_ Hdata]]; [by left|].
  assert (forall raw', raw' ∈ keys -> bytes_ok raw') as Hok by (intros raw' Hin; by apply (Hd raw'); right).
  destruct Hdata as [(t & w & Hwr)|[_ Hlk]].
  - destruct (write_at_some (SnapshotReader_new 0 s) raw Hwf t w Hwr) as (_ & _ & Hg).
    exists (version_key raw t :: ws), ls. split_and!; [cbn; lia| | |done|].
    + apply NoDup_cons. split; [|done]. intros (_ & raw' & t' & Hin & E)%Hws.
      apply (f_equal Key_to_raw) in E. unfold version_key in E. rewrite !Key_to_raw_append in E. by simplify_eq.
    + intros k [->|Hk]%elem_of_cons.
      * split; [by eexists|]. exists raw, t. split; [by left|done].
      * destruct (Hws k Hk) as (? & raw' & t' & Hin & ->). split; [done|]. exists raw', t'. split; [by right|done].
    + intros k Hk. destruct (Hls k Hk) as (? & raw' & Hin & ->). split; [done|]. exists raw'. split; [by right|done].
  - exists ws, (Key_from_raw raw :: ls). split_and!; [cbn; lia|done| | |].
    + intros k Hk. destruct (Hws k Hk) as (? & raw' & t' & Hin & ->). split; [done|].
      exists raw', t'. split; [by right|done].
    + apply NoDup_cons. split; [|done]. intros (_ & raw' & Hin & E)%Hls.
      apply Key_from_raw_inj in E; [by subst|done|by apply Hok].
    + intros k [->|Hk]%elem_of_cons; [split; [done|]; exists raw; split; [by left|done]|].
      destruct (Hls k Hk) as (? & raw' & Hin & ->). split; [done|]. exists raw'. split; [by right|done].
Qed.

Lemma sorted_NoDup keys : StronglySorted bytes_lt keys -> NoDup keys.
Proof.
  induction 1 as [|raw keys _ IH Hall]; [apply NoDup_nil_2|]. apply NoDup_cons. split; [|done].
  intros Hin. rewrite Forall_forall in Hall. by apply (bytes_lt_irrefl raw), Hall.
Qed.

Lemma lists_keys_length locks keys :
  wf_write_cf s -> lists_keys locks keys -> (length keys <= cf_len s CF_WRITE + cf_len s CF_LOCK)%nat.
Proof.
  intros Hwf [Hs Hk]. destruct (keys_entries locks keys Hwf (sorted_NoDup keys Hs)) as
    (ws & ls & -> & Hw & Hws & Hl & Hls); [intros raw; apply Hk|].
  pose proof (cf_len_spec s CF_WRITE ws Hw (fun k Hin => proj1 (Hws k Hin))).
  pose proof (cf_len_spec s CF_LOCK ls Hl (fun k Hin => proj1 (Hls k Hin))). lia.
Qed.
End Range.

(** ** Running the methods of a scanner *)

Lemma cu_value_ok {I} `{EngineIterator I} {E} (c : Cursor I) k v :
  cu_pos c = Some (k, v) -> cu_value (E:=E) c = Ok v.
Proof. intros Hp. unfold cu_value. by rewrite Hp. Qed.

Section Run.
Context {Snap I : Type} `{EngineIterator I}.
Implicit Types x y : KvScanner Snap I.

Lemma gets_bind {S E B} (f : S -> st_res S E B) (x : S) : (s ← gets id; f s) x = f x x.
Proof. done. Qed.

Lemma modify_bind {S E B} h (f : unit -> st_res S E B) (x : S) : (u ← modify h; f u) x = f tt (h x).
Proof. done. Qed.

Lemma lift_bind {S E A B} (r : res E A) (f : A -> st_res S E B) (x : S) a :
  r = Ok a -> (v ← lift r; f v) x = f a x.
Proof. by intros ->. Qed.

Lemma on_write_bind {A B} (m : Cursor I -> mvcc_res (Cursor I * A))
    (f : A -> st_res (KvScanner Snap I) mvcc_error B) x c a :
  m (ks_write x) = Ok (c, a) -> (v ← on_write m; f v) x = f a (ks_set_write x c).
Proof. intros Hm. by apply st_bind_ok, zoom_ok. Qed.

Lemma on_write_peek {A B} (p : Cursor I -> mvcc_res A) (f : A -> st_res (KvScanner Snap I) mvcc_error B) x a :
  p (ks_write x) = Ok a -> (v ← on_write (peek p); f v) x = f a x.
Proof. intros Hp. rewrite (on_write_bind _ f x (ks_write x) a); [by destruct x|]. unfold peek. by rewrite Hp. Qed.

Lemma on_lock_bind {A B} (m : Cursor I -> mvcc_res (Cursor I * A))
    (f : A -> st_res (KvScanner Snap I) mvcc_error B) x c c' a :
  ks_lock x = Some c -> m c = Ok (c', a) -> (v ← on_lock m; f v) x = f a (ks_set_lock x (Some c')).
Proof. intros Hc Hm. apply st_bind_ok, zoom_ok. unfold unwrapped. rewrite Hc. cbn. by rewrite Hm. Qed.

Lemma on_lock_peek {A B} (p : Cursor I -> mvcc_res A) (f : A -> st_res (KvScanner Snap I) mvcc_error B) x c a :
  ks_lock x = Some c -> p c = Ok a -> (v ← on_lock (peek p); f v) x = f a x.
Proof.
  intros Hc Hp. rewrite (on_lock_bind _ f x c c a); [by destruct x; cbn in *; subst|done|].
  unfold peek. by rewrite Hp.
Qed.

Lemma on_default_bind {A B} (m : Cursor I -> mvcc_res (Cursor I * A))
    (f : A -> st_res (KvScanner Snap I) mvcc_error B) x c c' a :
  ks_default x = Some c -> m c = Ok (c', a) -> (v ← on_default m; f v) x = f a (ks_set_default x (Some c')).
Proof. intros Hc Hm. apply st_bind_ok, zoom_ok. unfold unwrapped. rewrite Hc. cbn. by rewrite Hm. Qed.

Lemma on_default_peek {A B} (p : Cursor I -> mvcc_res A)
    (f : A -> st_res (KvScanner Snap I) mvcc_error B) x c a :
  ks_default x = Some c -> p c = Ok a -> (v ← on_default (peek p); f v) x = f a x.
Proof.
  intros Hc Hp. rewrite (on_default_bind _ f x c c a); [by destruct x; cbn in *; subst|done|].
  unfold peek. by rewrite Hp.
Qed.

Lemma valid_of_ok (c : Cursor I) : valid_of c = Ok (cu_valid c).
Proof. done. Qed.

(** What is kept: by moves of the write cursor, and by all steps within a key.
    The bounds of the configuration are gone once the default cursor exists. *)
Record kept_write x y : Prop := {
  kw_lock : ks_lock y = ks_lock x;
  kw_met : ks_met_newer_ts_data y = ks_met_newer_ts_data x;
  kw_started : ks_is_started y = ks_is_started x;
  kw_cfg : ks_cfg y = ks_cfg x;
  kw_default : ks_default y = ks_default x
}.

Record kept x y : Prop := {
  kp_lock : ks_lock y = ks_lock x;
  kp_met : ks_met_newer_ts_data y = ks_met_newer_ts_data x;
  kp_started : ks_is_started y = ks_is_started x;
  kp_cfg : sc_take_bounds (ks_cfg y) = sc_take_bounds (ks_cfg x)
}.

Lemma kept_write_refl x : kept_write x x.
Proof. by split. Qed.
Lemma kept_write_trans x y z : kept_write x y -> kept_write y z -> kept_write x z.
Proof. intros [] []. split; congruence. Qed.
Lemma kept_refl x : kept x x.
Proof. by split. Qed.
Lemma kept_trans x y z : kept x y -> kept y z -> kept x z.
Proof. intros [] []. split; congruence. Qed.
Lemma kept_write_kept x y : kept_write x y -> kept x y.
Proof. intros []. split; congruence. Qed.
End Run.

Lemma cfg_fields {Snap} (c c' : ScannerConfig Snap) :
  sc_take_bounds c' = sc_take_bounds c ->
  sc_snapshot c' = sc_snapshot c /\ sc_ts c' = sc_ts c /\ sc_omit_value c' = sc_omit_value c
  /\ sc_isolation_level c' = sc_isolation_level c /\ sc_desc c' = sc_desc c
  /\ sc_bypass_locks c' = sc_bypass_locks c /\ sc_access_locks c' = sc_access_locks c.
Proof. unfold sc_take_bounds. intros [=]. auto 10. Qed.

(** [Met] once newer data was seen by a scanner that looks for it. *)
Definition met_after (newer : bool) (m : NewerTsCheckState) : NewerTsCheckState :=
  if (newer && bool_decide (m = NtNotMetYet))%bool then NtMet else m.

Lemma met_after_twice n1 n2 m : met_after n2 (met_after n1 m) = met_after (n1 || n2) m.
Proof. by destruct n1, n2, m. Qed.

(** ** Scans over a scanner that reads on *)

Definition encoded (res : mvcc_res (option (bytes * Value))) : mvcc_res (option (Key * Value)) :=
  o ← res; Ok match o with Some (raw, v) => Some (Key_from_raw raw, v) | None => None end.

(** A scan goes on after a result and after a locked key. *)
Definition goes_on {A} (res : mvcc_res A) : Prop := forall e, res = Err e -> is_key_is_locked e = true.

Definition then_scan {A B} (entry : A) (out : mvcc_res (list A) * B) : mvcc_res (list A) * B :=
  (rest ← fst out; Ok (entry :: rest), snd out).

Section Scan.
Context {S : Type} (get : bytes -> mvcc_res (option Value)) (next : st_res S mvcc_error (option (Key * Value))).
Context (Inv : list bytes -> S -> Prop) (Read : list bytes -> list bytes -> S -> S -> Prop).
Hypothesis (read_refl : forall keys x, Read keys keys x x).
Hypothesis (read_trans : forall k1 k2 k3 x y z, Read k1 k2 x y -> Read k2 k3 y z -> Read k1 k3 x z).
Hypothesis (next_ok : forall keys x, Inv keys x ->
  exists y, next x = (encoded (fst (reference_next get keys)), y)
    /\ Read keys (snd (reference_next get keys)) x y
    /\ (goes_on (fst (reference_next get keys)) -> Inv (snd (reference_next get keys)) y)).

Lemma reference_scan_next keys n step row :
  reference_scan get keys (Datatypes.S n) step row
  = match reference_next get keys with
    | (Ok None, rem) => (Ok [], rem)
    | (Ok (Some (raw, v)), rem) =>
        if decide (0 < step /\ row mod step <> 0)%nat then reference_scan get rem (Datatypes.S n) step (row + 1)
        else then_scan (Ok (raw, v)) (reference_scan get rem n step (if decide (0 < step)%nat then row + 1 else row))
    | (Err e, rem) =>
        if is_key_is_locked e then then_scan (Err e) (reference_scan get rem n step row) else (Err e, rem)
    | (Panic, rem) => (Panic, rem)
    end.
Proof.
  induction keys as [|raw keys IH]; [done|]. cbn [reference_next reference_scan].
  destruct (get raw) as [[v|]|e|]; cbn zeta; [|apply IH| |done].
  - case_decide; [done|]. unfold then_scan. by destruct (reference_scan get keys n step _) as [[] ].
  - destruct (is_key_is_locked e); [|done]. unfold then_scan. by destruct (reference_scan get keys n step _) as [[] ].
Qed.

Lemma reference_next_shorter keys :
  (length (snd (reference_next get keys)) < length keys)%nat \/ fst (reference_next get keys) = Ok None.
Proof.
  induction keys as [|raw keys IH]; cbn [reference_next length]; [by right|].
  destruct (get raw) as [[v|]|e|]; cbn [fst snd]; [left; lia| |left; lia..].
  destruct IH; [left; lia|by right].
Qed.

Lemma scan_loop_spec fuel : forall keys x limit step row results,
  Inv keys x -> (length keys < fuel)%nat ->
  let out := reference_scan get keys (limit - length results) step row in
  exists y, scan_loop next fuel limit step row results x = (rest ← fst out; Ok (results ++ rest), y)
    /\ Read keys (snd out) x y /\ (forall l, fst out = Ok l -> Inv (snd out) y).
Proof.
  induction fuel as [|fuel IH]; intros keys x limit step row results Hx Hf; [lia|]. cbn zeta.
  cbn [scan_loop]. case_decide as Hlim.
  { assert (limit - length results = 0)%nat as -> by lia. exists x.
    assert (reference_scan get keys 0 step row = (Ok [], keys)) as -> by (by destruct keys).
    cbn. rewrite app_nil_r. by split_and!. }
  destruct (limit - length results)%nat as [|n] eqn:Hn; [lia|]. rewrite reference_scan_next.
  destruct (next_ok keys x Hx) as (y & Hnext & Hread & Hinv). rewrite Hnext.
  pose proof (reference_next_shorter keys) as Hshort.
  destruct (reference_next get keys) as [[[[raw v]|]|e|] rem]; cbn [fst snd encoded mbind res_bind] in *.
  - assert (Inv rem y) as Hy by (by apply Hinv). assert (length rem < fuel)%nat by (destruct Hshort; [lia|done]).
    case_decide.
    + destruct (IH rem y limit step (row + 1)%nat results Hy) as (z & Hz & Hrz & Hiz); [done|].
      rewrite Hn in *. exists z. split_and!; [done|by eapply read_trans|done].
    + rewrite Key_to_raw_from_raw.
      destruct (IH rem y limit step (if decide (0 < step)%nat then row + 1 else row)%nat (results ++ [Ok (raw, v)]) Hy)
        as (z & Hz & Hrz & Hiz); [done|].
      assert (limit - length (results ++ [Ok (raw, v)]) = n)%nat as Hn' by (rewrite length_app; cbn; lia).
      rewrite Hn' in *. exists z. rewrite Hz. unfold then_scan.
      destruct (reference_scan get rem n step _) as [[l|e|] rem']; cbn in *; rewrite <-?app_assoc; split_and!;
        try done; try (by eapply read_trans); intros ? _; by eapply Hiz.
  - exists y. cbn. rewrite app_nil_r. split_and!; [done..|]. intros _ _. by apply Hinv.
  - destruct (is_key_is_locked e) eqn:Hlk; [|by exists y]. assert (Inv rem y) as Hy.
    { apply Hinv. by intros ? [= <-]. }
    destruct (IH rem y limit step row (results ++ [Err e]) Hy) as (z & Hz & Hrz & Hiz); [destruct Hshort; [lia|done]|].
    assert (limit - length (results ++ [Err e]) = n)%nat as Hn' by (rewrite length_app; cbn; lia).
    rewrite Hn' in *. exists z. rewrite Hz. unfold then_scan.
    destruct (reference_scan get rem n step _) as [[l|e'|] rem']; cbn in *; rewrite <-?app_assoc; split_and!;
      try done; try (by eapply read_trans); intros ? _; by eapply Hiz.
  - by exists y.
Qed.
End Scan.

(** ** A store for concrete scans *)

Definition scan_lock : Lock := Lock_new LtPut [98] 20 3000 (Some [2]) 0 1 21 false.

(** Two committed keys with a locked one between them. *)
Definition scan_updates : list LModify :=
  [ LPutWrite (Key_from_raw [97]) 10 (Write_new WtPut 5 (Some [1]));
    LPutLock (Key_from_raw [98]) scan_lock;
    LPutWrite (Key_from_raw [99]) 12 (Write_new WtPut 8 (Some [3])) ].

Definition scan_store : Store :=
  match write_modifies (E:=unit) BTreeEngine_new (map encode_lm scan_updates) with
  | Ok s => s
  | _ => BTreeEngine_new
  end.

Lemma byte_raw_ok b : 0 <= b < 256 -> bytes_ok [b].
Proof. intros Hb. apply Forall_cons_2; [done|apply Forall_nil_2]. Qed.

Lemma scan_updates_ok : Forall lm_ok scan_updates.
Proof.
  assert (forall b, 0 <= b < 256 -> key_ok (Key_from_raw [b])) as Hk
    by (intros b Hb; exists [b]; split; [by apply byte_raw_ok|done]).
  repeat first [apply Forall_nil_2 | apply Forall_cons_2]; (split; [apply Hk; lia|]).
  1,3: split; [unfold u64_ok; lia|]; apply write_new_ok; [unfold u64_ok; lia|]; cbn; lia.
  split; cbn; try done; unfold u64_ok; try lia; apply Forall_nil_2.
Qed.

Lemma scan_store_spec :
  wf_store scan_store /\ abs scan_store ≡ apply_lms (abs BTreeEngine_new) scan_updates.
Proof.
  unfold scan_store.
  destruct (write_modifies_refines (E:=unit) scan_updates BTreeEngine_new wf_store_empty scan_updates_ok)
    as (s & -> & Hwf & Ha). done.
Qed.

Lemma scan_store_write k t :
  write_at scan_store k t
  = if decide (k = Key_from_raw [99] /\ t = 12) then Some (Write_new WtPut 8 (Some [3]))
    else if decide (k = Key_from_raw [97] /\ t = 10) then Some (Write_new WtPut 5 (Some [1])) else None.
Proof.
  destruct scan_store_spec as [_ (Hw & _)]. specialize (Hw k t).
  change (a_write (abs scan_store) k t) with (write_at scan_store k t) in Hw. rewrite Hw.
  cbn [apply_lms foldl scan_updates apply_lm a_write abs]. unfold upd2.
  repeat (case_decide; try done). apply write_at_empty.
Qed.

Lemma scan_store_lock k : is_Some (get_cf scan_store CF_LOCK k) <-> k = Key_from_raw [98].
Proof.
  destruct scan_store_spec as [[_ Hl] (_ & Ha & _)]. specialize (Ha k).
  cbn [apply_lms foldl scan_updates apply_lm a_lock] in Ha. unfold upd1 in Ha.
  change (a_lock (abs scan_store) k) with (lock_at scan_store k) in Ha.
  change (a_lock (abs BTreeEngine_new) k) with (lock_at BTreeEngine_new k) in Ha.
  assert (lock_at BTreeEngine_new k = None) as Hnone by done. rewrite Hnone in Ha. unfold lock_at in Ha. split.
  - intros [v Hv]. rewrite Hv in Ha. destruct (Hl k v Hv) as (raw & l & _ & _ & Hok & ->).
    rewrite lock_roundtrip in Ha by done. by case_decide.
  - intros ->. rewrite decide_True in Ha by done. by destruct (get_cf scan_store CF_LOCK _).
Qed.

Definition scan_keys : list bytes := [[97]; [98]; [99]].

Lemma scan_keys_ok raw : raw ∈ scan_keys -> bytes_ok raw.
Proof.
  unfold scan_keys. rewrite !elem_of_cons, elem_of_nil. intros [->|[->|[->|[]]]]; apply byte_raw_ok; lia.
Qed.

Lemma scan_store_keys : lists_keys scan_store (Some [97]) None true scan_keys.
Proof.
  split; [repeat first [apply SSorted_nil | apply SSorted_cons | apply Forall_nil_2 | apply Forall_cons_2]; done|].
  assert (forall b b', 0 <= b < 256 -> bytes_ok b' -> Key_from_raw b' = Key_from_raw [b] -> b' = [b]) as Hinj.
  { intros b b' Hb Hb' E. apply Key_from_raw_inj in E; [done|done|by apply byte_raw_ok]. }
  intros raw. split.
  - intros Hin. split; [by apply scan_keys_ok|]. unfold scan_keys in Hin. rewrite !elem_of_cons, elem_of_nil in Hin.
    destruct Hin as [->|[->|[->|[]]]]; (split; [done|]).
    + left. exists 10, (Write_new WtPut 5 (Some [1])). rewrite scan_store_write.
      rewrite decide_False, decide_True; [done|done|]. intros [_ [=]].
    + right. split; [done|]. by apply scan_store_lock.
    + left. exists 12, (Write_new WtPut 8 (Some [3])). rewrite scan_store_write. by rewrite decide_True.
  - intros [Hraw [_ [(t & w & Hw)|[_ Hl]]]]; unfold scan_keys; rewrite !elem_of_cons.
    + rewrite scan_store_write in Hw. case_decide as H1; [apply proj1, Hinj in H1; auto; lia|].
      case_decide as H2; [apply proj1, Hinj in H2; auto; lia|done].
    + apply scan_store_lock, Hinj in Hl; auto. lia.
Qed.

Lemma scan_store_readable {I} (g : PointGetter Store I) raw :
  pg_snapshot g = scan_store -> raw ∈ scan_keys -> readable g raw.
Proof.
  intros Hg Hin. split; [by apply scan_keys_ok|]. exists 0. split; [|by left].
  rewrite Hg. apply history_ok_from. split; intros t w; rewrite scan_store_write; repeat case_decide; intros [= <-]; try done.
  all: lia.
Qed.

(** ** Iterators over a range of the in-memory engine *)

#[export] Instance Store_iter : SnapshotIter Store BTreeEngineIterator := {
  snap_iter := fun s cf lower upper _ _ =>
    BTreeEngineIterator_new (filter (fun kv => in_bounds lower upper kv.1 = true) (Store_cf s cf)) None None
}.

#[export] Instance Store_iter_laws : SnapshotIterLaws Store BTreeEngineIterator.
Proof.
  split.
  - intros s cf lower upper. apply bi_new_ok.
  - done.
  - intros s cf lower upper k. cbn. rewrite map_lookup_filter. unfold Store_get_cf.
    destruct (Store_cf s cf !! k) as [v|]; cbn; [|by destruct (in_bounds lower upper k)].
    destruct (in_bounds lower upper k) eqn:E; [by rewrite option_guard_True|by rewrite option_guard_False].
Qed.

Definition scan_config (iso : IsolationLevel) (desc : bool) : ScannerConfig Store :=
  {| sc_snapshot := scan_store; sc_omit_value := false; sc_isolation_level := iso;
     sc_lower_bound := Some (Key_from_raw [97]); sc_upper_bound := None;
     sc_hint_min_ts := None; sc_hint_max_ts := None; sc_ts := 25; sc_desc := desc;
     sc_bypass_locks := TsSet_new []; sc_access_locks := TsSet_new [];
     sc_check_has_newer_ts_data := true |}.
