(* ===== verification/ScannerSpec.v ===== *)
(** * What the proofs about the scanners share

    The positions of the cursors relative to the keys still to be scanned, in the
    order [ord] of the scan; the contents the cursors range over; reads of one
    key against the reference; and the loops over the keys: a scanner whose
    rounds read one key after the other, in order, scans as [reference_scan]
    says ([scan_correct]). *)

From Stdlib Require Import ZArith Lia.
From stdpp Require Import base numbers list gmap sorting.
From S2P Require Import Prelude Number Bytes Types Write Lock ConcurrencyManager Engine Cursor Reader Versions.
From S2P Require Import AbsState ReaderSpec PointGetter Scanner.

Open Scope Z_scope.

(** ** Where the cursors stand *)

(** The first record, and the first lock, of the keys still to be scanned;
    [first] is the version of a key that is met first. *)
Section Heads.
Context (content : Key -> option Value) (ord : bytes -> bytes -> Prop).
Context (first : bytes -> TimeStamp -> Write -> Prop).

Inductive write_head : list bytes -> option Entry -> Prop :=
| wh_nil : write_head [] None
| wh_here raw keys t w :
    u64_ok t -> write_ok w -> version_at content raw t = Some w -> first raw t w ->
    write_head (raw :: keys) (Some (version_key raw t, WriteRef_to_bytes w))
| wh_skip raw keys o :
    (forall t, version_at content raw t = None) -> write_head keys o -> write_head (raw :: keys) o.

Inductive lock_head : list bytes -> option Entry -> Prop :=
| lh_nil : lock_head [] None
| lh_here raw keys v :
    content (Key_from_raw raw) = Some v -> lock_head (raw :: keys) (Some (Key_from_raw raw, v))
| lh_skip raw keys o :
    content (Key_from_raw raw) = None -> lock_head keys o -> lock_head (raw :: keys) o.

Lemma write_head_none keys :
  (forall raw t, raw ∈ keys -> version_at content raw t = None) -> write_head keys None.
Proof.
  induction keys as [|raw keys IH]; intros Hno; constructor.
  - intros t. apply Hno. by left.
  - apply IH. intros raw' t Hin. apply Hno. by right.
Qed.

Lemma write_head_at keys raw t w :
  StronglySorted ord keys -> raw ∈ keys -> u64_ok t -> write_ok w -> version_at content raw t = Some w ->
  first raw t w -> (forall raw' t', raw' ∈ keys -> ord raw' raw -> version_at content raw' t' = None) ->
  write_head keys (Some (version_key raw t, WriteRef_to_bytes w)).
Proof.
  intros Hs Hin Ht Hw HW Hn. induction Hs as [|raw' keys Hs IH Hall]; intros Hno; [by apply elem_of_nil in Hin|].
  apply elem_of_cons in Hin as [->|Hin]; [by constructor|]. rewrite Forall_forall in Hall.
  constructor.
  - intros t'. apply Hno; [by left|]. by apply Hall.
  - apply IH; [done|]. intros raw'' t' Hin'. apply Hno. by right.
Qed.

Lemma lock_head_none keys :
  (forall raw, raw ∈ keys -> content (Key_from_raw raw) = None) -> lock_head keys None.
Proof.
  induction keys as [|raw keys IH]; intros Hno; constructor.
  - apply Hno. by left.
  - apply IH. intros raw' Hin. apply Hno. by right.
Qed.

Lemma lock_head_at keys raw v :
  StronglySorted ord keys -> raw ∈ keys -> content (Key_from_raw raw) = Some v ->
  (forall raw', raw' ∈ keys -> ord raw' raw -> content (Key_from_raw raw') = None) ->
  lock_head keys (Some (Key_from_raw raw, v)).
Proof.
  intros Hs Hin Hv. induction Hs as [|raw' keys Hs IH Hall]; intros Hno; [by apply elem_of_nil in Hin|].
  apply elem_of_cons in Hin as [->|Hin]; [by constructor|]. rewrite Forall_forall in Hall.
  constructor.
  - apply Hno; [by left|]. by apply Hall.
  - apply IH; [done|]. intros raw'' Hin'. apply Hno. by right.
Qed.

Lemma write_head_in keys k v :
  write_head keys (Some (k, v)) -> exists raw t, raw ∈ keys /\ u64_ok t /\ k = version_key raw t.
Proof.
  intros Hh. remember (Some (k, v)) as o eqn:E. revert E. induction Hh as [|raw keys t w|raw keys o Hno Hh IH];
    intros E; simplify_eq; [exists raw, t; split; [by left|done]|].
  destruct (IH eq_refl) as (raw' & t & Hin & Ht & ->). exists raw', t. split; [by right|done].
Qed.

Lemma lock_head_in keys k v :
  lock_head keys (Some (k, v)) -> exists raw, raw ∈ keys /\ k = Key_from_raw raw.
Proof.
  intros Hh. remember (Some (k, v)) as o eqn:E. revert E. induction Hh as [|raw keys v'|raw keys o Hno Hh IH];
    intros E; simplify_eq; [exists raw; split; [by left|done]|].
  destruct (IH eq_refl) as (raw' & Hin & ->). exists raw'. split; [by right|done].
Qed.
End Heads.

Lemma Key_truncate_version raw t : Key_truncate_ts_for (version_key raw t) = Ok (Key_from_raw raw).
Proof. apply Key_truncate_append. Qed.

(** The choice of the key to work on, from the keys of the two cursors. *)
Record chooses (ord : bytes -> bytes -> Prop)
    (choose : option bytes -> option bytes -> mvcc_res (option (Key * bool * bool))) : Prop := {
  ch_lock k : choose None (Some k) = Ok (Some (k, false, true));
  ch_write a t : choose (Some (version_key a t)) None = Ok (Some (Key_from_raw a, true, false));
  ch_both a t : choose (Some (version_key a t)) (Some (Key_from_raw a)) = Ok (Some (Key_from_raw a, true, true));
  ch_write_first a b t : bytes_ok a -> bytes_ok b -> ord a b ->
    choose (Some (version_key a t)) (Some (Key_from_raw b)) = Ok (Some (Key_from_raw a, true, false));
  ch_lock_first a b t : bytes_ok a -> bytes_ok b -> ord a b ->
    choose (Some (version_key b t)) (Some (Key_from_raw a)) = Ok (Some (Key_from_raw a, false, true))
}.

(** The key to work on is the first one, with what it has. *)
Lemma choose_spec choose ord first cw cl raw keys ow ol :
  chooses ord choose ->
  StronglySorted ord (raw :: keys) -> (forall raw', raw' ∈ raw :: keys -> bytes_ok raw') ->
  (exists t w, version_at cw raw t = Some w) \/ is_Some (cl (Key_from_raw raw)) ->
  write_head cw first (raw :: keys) ow -> lock_head cl (raw :: keys) ol ->
  exists has_write has_lock : bool,
    choose (fst <$> ow) (fst <$> ol) = Ok (Some (Key_from_raw raw, has_write, has_lock))
    /\ (if has_write
        then exists t w, u64_ok t /\ write_ok w /\ version_at cw raw t = Some w /\ first raw t w
          /\ ow = Some (version_key raw t, WriteRef_to_bytes w)
        else (forall t, version_at cw raw t = None) /\ write_head cw first keys ow)
    /\ (if has_lock then exists v, cl (Key_from_raw raw) = Some v /\ ol = Some (Key_from_raw raw, v)
        else cl (Key_from_raw raw) = None /\ lock_head cl keys ol).
Proof.
  intros [Hl1 Hw1 Hboth Hwf Hlf] Hs Hok Hdata Hw Hl. apply StronglySorted_inv in Hs as [_ Hall].
  rewrite Forall_forall in Hall. assert (bytes_ok raw) as Hraw by (apply Hok; by left).
  inversion Hw as [|? ? t w Ht Hwok HW Hn|? ? o Hno Hw']; subst;
    inversion Hl as [|? ? v Hv|? ? o' Hnl Hl']; subst.
  - exists true, true. split; [apply Hboth|]. split; [by exists t, w|by exists v].
  - exists true, false. split; [|split; [by exists t, w|done]].
    destruct ol as [[lk lv]|]; [|apply Hw1].
    destruct (lock_head_in cl keys lk lv Hl') as (raw' & Hin & ->).
    apply Hwf; [done|apply Hok; by right|by apply Hall].
  - exists false, true. split; [|split; [done|by exists v]].
    destruct ow as [[wk wv]|]; [|apply Hl1].
    destruct (write_head_in cw first keys wk wv Hw') as (raw' & t & Hin & _ & ->).
    apply Hlf; [done|apply Hok; by right|by apply Hall].
  - destruct Hdata as [(t & w & HW)|[v Hv]]; [by rewrite Hno in HW|congruence].
Qed.

(** ** On a key *)

Section OnKey.
Context {Snap I : Type} `{EngineIterator I}.
Context (content : Key -> option Value) (raw : bytes).
Hypothesis (raw_ok : bytes_ok raw).
Implicit Types x y : KvScanner Snap I.
Let key := Key_from_raw raw.

Lemma user_key_eq_version raw' t :
  bytes_ok raw' -> u64_ok t -> Key_is_user_key_eq (version_key raw' t) key = bool_decide (raw' = raw).
Proof.
  intros Hr' Ht. pose proof (Key_is_user_key_eq_append (Key_from_raw raw') t key) as Heq.
  destruct (decide (raw' = raw)) as [->|Hne].
  - rewrite bool_decide_eq_true_2 by done. apply Heq; [by apply Key_from_raw_ok..|done|done].
  - rewrite bool_decide_eq_false_2 by done. apply not_true_iff_false.
    rewrite Heq by (done || by apply Key_from_raw_ok). intros E. by apply Key_from_raw_inj in E.
Qed.

(** The cursor is on the key. *)
Definition on_key (o : option Entry) : bool :=
  match o with Some (k, _) => Key_is_user_key_eq k key | None => false end.

Definition at_key (o : option Entry) (t : TimeStamp) (w : Write) : Prop :=
  u64_ok t /\ write_ok w /\ version_at content raw t = Some w
  /\ o = Some (version_key raw t, WriteRef_to_bytes w).

Lemma at_key_on o t w : at_key o t w -> on_key o = true.
Proof. intros (Ht & _ & _ & ->). cbn [on_key]. by rewrite user_key_eq_version, bool_decide_eq_true_2. Qed.

Lemma at_key_valid (c : Cursor I) t w : at_key (cu_pos c) t w -> cu_valid c = true.
Proof. intros (_ & _ & _ & Hp). unfold cu_valid. rewrite Hp. by rewrite bool_decide_eq_true. Qed.

(** At a version of the key, or past its versions. *)
Lemma stands_cases ts o :
  stands content raw ts o ->
  (on_key o = true /\ exists t w, at_key o t w /\ newest (version_at content raw) ts (Some (t, w)))
  \/ (on_key o = false /\ newest (version_at content raw) ts None /\ stands content raw (-1) o).
Proof.
  assert (newest (version_at content raw) (-1) None) as Hlow.
  { intros t Ht. unfold version_at. destruct (decide (u64_ok t)) as [Hu|]; [unfold u64_ok in Hu; lia|done]. }
  destruct 1 as [Hn Hno|t w Ht Hw Hn|raw' t w Hr' Hlt Ht Hw Hn Hn' Hno].
  - right. split; [done|]. split; [done|]. by apply stands_end.
  - left. cbn [on_key]. rewrite user_key_eq_version, bool_decide_eq_true_2 by done. split; [done|].
    exists t, w. split; [|done]. pose proof Hn as (_ & HW & _). done.
  - right. cbn [on_key]. rewrite user_key_eq_version, bool_decide_eq_false_2; [|by intros ->; apply (bytes_lt_irrefl raw)|done..].
    split; [done|]. split; [done|]. by apply stands_later.
Qed.

Lemma head_off first keys o :
  (forall raw', raw' ∈ keys -> bytes_ok raw' /\ raw' <> raw) -> write_head content first keys o -> on_key o = false.
Proof.
  intros Hkeys. destruct o as [[k v]|]; [|done]. intros (raw' & t & Hin & Ht & ->)%write_head_in.
  destruct (Hkeys raw' Hin) as [Hr' Hne]. cbn [on_key].
  by rewrite user_key_eq_version, bool_decide_eq_false_2.
Qed.
End OnKey.

(** ** Runs of the shared steps *)

Section Runs.
Context {Snap I : Type} `{EngineSnapshot Snap} `{EngineIteratorLaws I} `{SnapshotIter Snap I}.
Implicit Types x y : KvScanner Snap I.

Lemma ks_meet_met x : ks_met_newer_ts_data (ks_meet x) = met_after true (ks_met_newer_ts_data x).
Proof. cbn. unfold met_after. by destruct (ks_met_newer_ts_data x). Qed.

Lemma ks_meet_idle x : ks_met_newer_ts_data x <> NtNotMetYet -> ks_meet x = x.
Proof. intros Hm. unfold ks_meet. rewrite decide_False by done. by destruct x. Qed.

(** [valid] and the comparison of the key, as the loops make them. *)
Lemma check_on_key {B} raw x (no yes : st_res (KvScanner Snap I) mvcc_error B) :
  (valid ← on_write (peek valid_of);
   if negb valid then no
   else
     current_key ← on_write (peek cu_key);
     if negb (Key_is_user_key_eq current_key (Key_from_raw raw)) then no else yes) x
  = if on_key raw (cu_pos (ks_write x)) then yes x else no x.
Proof.
  rewrite (on_write_peek valid_of _ x _ (valid_of_ok _)).
  destruct (cu_pos (ks_write x)) as [[k v]|] eqn:Hp; cbn [on_key].
  - rewrite (cu_valid_true _ _ Hp). cbn [negb]. rewrite (on_write_peek cu_key _ x k (cu_key_ok _ k v Hp)).
    by destruct (Key_is_user_key_eq k (Key_from_raw raw)).
  - by rewrite cu_valid_false.
Qed.

Definition lock_pos x : option Entry := match ks_lock x with Some c => cu_pos c | None => None end.

Lemma key_of_pos (c : Cursor I) : key_of c = Ok (fst <$> cu_pos c).
Proof.
  unfold key_of. destruct (cu_pos c) as [[k v]|] eqn:Hp.
  - by rewrite (cu_valid_true _ _ Hp), (cu_key_ok _ _ _ Hp).
  - by rewrite cu_valid_false.
Qed.

Lemma lock_key_run x :
  (match ks_lock x with Some _ => on_lock (peek key_of) | None => mret None end) x
  = (Ok (E:=mvcc_error) (fst <$> lock_pos x), x).
Proof.
  unfold lock_pos. destruct (ks_lock x) as [c|] eqn:Hl; [|done]. unfold on_lock, zoom, unwrapped, peek.
  rewrite Hl. cbn. rewrite key_of_pos. cbn. f_equal. destruct x; cbn in *. by subst.
Qed.

Lemma loaded_value_spec (content : Key -> option Value) x c k :
  ks_default x = Some c -> (forall v, cu_pos c = Some (k, v) <-> content k = Some v) ->
  loaded_value k x = (match content k with Some v => Ok v | None => Err (default_not_found_error k) end, x).
Proof.
  intros Hd Hp. unfold loaded_value.
  assert ((if cu_valid c then k' ← cu_key c; Ok (bytes_eqb k' k) else Ok false)
          = Ok (E:=mvcc_error) (bool_decide (is_Some (content k)))) as Hhere.
  { destruct (cu_pos c) as [[k' v]|] eqn:E.
    - rewrite (cu_valid_true _ _ E), (cu_key_ok _ _ _ E). cbn [mbind res_bind]. f_equal.
      apply eq_true_iff_eq. rewrite bytes_eqb_eq, bool_decide_eq_true. split.
      + intros ->. exists v. by apply Hp.
      + intros [v' Hv']. apply Hp in Hv'. by simplify_eq.
    - rewrite cu_valid_false by done. f_equal. symmetry. apply bool_decide_eq_false. intros [v Hv].
      by apply Hp in Hv. }
  rewrite (on_default_peek _ _ x c _ Hd Hhere). destruct (content k) as [v|].
  - rewrite bool_decide_eq_true_2 by done. destruct (Hp v) as [_ Hpos]. specialize (Hpos eq_refl).
    unfold on_default, zoom, unwrapped, peek. rewrite Hd. cbn. rewrite (cu_value_ok c k v Hpos). cbn.
    f_equal. destruct x; cbn in *. by subst.
  - by rewrite bool_decide_eq_false_2 by (by intros []).
Qed.
End Runs.

(** ** The contents of the cursors *)

Lemma user_key_ltb raw1 raw2 :
  bytes_ok raw1 -> bytes_ok raw2 -> bytes_ltb (Key_from_raw raw1) (Key_from_raw raw2) = true <-> bytes_lt raw1 raw2.
Proof. intros. rewrite bytes_ltb_lt. unfold bytes_lt. by rewrite user_key_order. Qed.

Section Contents.
Context {Snap I : Type} `{SnapshotIterLaws Snap I} `{!EngineSnapshotLaws Snap}.
Implicit Types x y z : KvScanner Snap I.
Context (s : Snap) (lower upper : option bytes) (g : PointGetter Snap unit).
Hypothesis (lower_ok : bound_ok lower) (upper_ok : bound_ok upper).
Hypothesis (g_snapshot : pg_snapshot g = s) (ts_ok : u64_ok (pg_ts g)).
Hypothesis (wf : wf_write_cf s) (wf_lock : wf_lock_cf s).

Definition iter_content (cf : CF) : Key -> option Value :=
  it_content (snap_iter (I:=I) s cf (Key_from_raw <$> lower) (Key_from_raw <$> upper) None None).

Definition checks_locks : bool := need_check_locks (pg_isolation_level g).

(** The locks that are looked at. *)
Definition lock_content : Key -> option Value := if checks_locks then iter_content CF_LOCK else fun _ => None.

Lemma iter_content_ranged cf k : iter_content cf k = ranged s lower upper cf k.
Proof. apply snap_iter_content. Qed.

Lemma iter_versions : wf_versions (iter_content CF_WRITE).
Proof. intros k v Hv. rewrite iter_content_ranged in Hv. by apply (ranged_versions s lower upper wf). Qed.

Lemma iter_version_at raw t :
  bytes_ok raw ->
  version_at (iter_content CF_WRITE) raw t
  = if in_bounds lower upper raw then write_at s (Key_from_raw raw) t else None.
Proof.
  intros Hraw. rewrite <-(version_at_ranged s lower upper) by done. unfold version_at.
  by rewrite iter_content_ranged.
Qed.

Lemma iter_default raw t :
  bytes_ok raw -> u64_ok t -> in_bounds lower upper raw = true ->
  iter_content CF_DEFAULT (version_key raw t) = get_cf s CF_DEFAULT (version_key raw t).
Proof. intros Hraw Ht Hin. rewrite iter_content_ranged. unfold ranged. by rewrite in_bounds_version, Hin. Qed.

Lemma iter_version_data raw t w :
  bytes_ok raw -> version_at (iter_content CF_WRITE) raw t = Some w -> has_data s lower upper checks_locks raw.
Proof.
  intros Hr Hw. rewrite iter_version_at in Hw by done. unfold has_data. destruct (in_bounds lower upper raw); [|done].
  split; [done|]. left. eauto.
Qed.

Lemma lock_content_some k v :
  lock_content k = Some v <-> checks_locks = true
    /\ in_bounds (Key_from_raw <$> lower) (Key_from_raw <$> upper) k = true /\ get_cf s CF_LOCK k = Some v.
Proof.
  unfold lock_content. destruct checks_locks; [|by split; [|intros [? _]]]. rewrite iter_content_ranged, ranged_some.
  split; [by intros [? ?]|by intros (_ & ? & ?)].
Qed.

Lemma lock_content_key k v :
  lock_content k = Some v -> exists raw, bytes_ok raw /\ k = Key_from_raw raw /\ has_data s lower upper checks_locks raw.
Proof.
  intros (Hc & Hin & Hg)%lock_content_some. destruct (wf_lock k v Hg) as (raw' & l & Hr' & -> & _).
  exists raw'. split_and!; [done..|]. split; [by rewrite <-in_bounds_user|]. right. eauto.
Qed.

(** *** The configuration *)

Record cfg_ok (desc : bool) (cfg : ScannerConfig Snap) : Prop := {
  co_snapshot : sc_snapshot cfg = s;
  co_ts : sc_ts cfg = pg_ts g;
  co_omit : sc_omit_value cfg = pg_omit_value g;
  co_iso : sc_isolation_level cfg = pg_isolation_level g;
  co_desc : sc_desc cfg = desc;
  co_bypass : sc_bypass_locks cfg = pg_bypass_locks g;
  co_access : sc_access_locks cfg = pg_access_locks g
}.

Lemma cfg_ok_kept desc x y : kept x y -> cfg_ok desc (ks_cfg x) -> cfg_ok desc (ks_cfg y).
Proof.
  intros [_ _ _ Hc] []. destruct (cfg_fields _ _ Hc) as (? & ? & ? & ? & ? & ? & ?). split; congruence.
Qed.

(** The bounds are in the configuration until the default cursor takes them. *)
Definition default_ok (P : Cursor I -> Prop) x : Prop :=
  match ks_default x with
  | None => sc_lower_bound (ks_cfg x) = Key_from_raw <$> lower
      /\ sc_upper_bound (ks_cfg x) = Key_from_raw <$> upper
  | Some c => P c
  end.

Lemma default_ok_write P x y : kept_write x y -> default_ok P x -> default_ok P y.
Proof. intros [_ _ _ Hc Hd]. unfold default_ok. by rewrite Hd, Hc. Qed.

Definition new_cursor (desc : bool) (cf : CF) : Cursor I :=
  Cursor_new (snap_iter s cf (Key_from_raw <$> lower) (Key_from_raw <$> upper) None None)
    (if desc then SmMixed else SmForward) false.

Lemma ensure_default_spec (P : Cursor I -> Prop) desc x :
  P (new_cursor desc CF_DEFAULT) -> cfg_ok desc (ks_cfg x) -> default_ok P x ->
  exists y c, ensure_default_cursor x = (Ok tt, y) /\ kept x y /\ ks_write y = ks_write x
    /\ ks_default y = Some c /\ P c.
Proof.
  intros HP Hcfg Hd. unfold ensure_default_cursor. rewrite gets_bind. unfold default_ok in Hd.
  destruct (ks_default x) as [c|] eqn:E; [exists x, c; by split_and!|]. destruct Hd as [Hl Hu].
  cbn. eexists _, _. split_and!; [done|by split|done|done|].
  rewrite (co_snapshot _ _ Hcfg), Hl, Hu. unfold scan_mode. by rewrite (co_desc _ _ Hcfg).
Qed.

Definition value_at (raw : bytes) (ts : TimeStamp) : mvcc_res Value :=
  match get_cf s CF_DEFAULT (version_key raw ts) with
  | Some v => Ok v
  | None => Err (default_not_found_error (version_key raw ts))
  end.

(** The value of a lock that may be read through, from the load of the scanner. *)
Lemma load_by_lock_spec desc raw x z l :
  cfg_ok desc (ks_cfg x) -> l_lock_type l = LtPut \/ l_lock_type l = LtDelete ->
  (if desc then near_reverse_load_data_by_write (Key_from_raw raw) (l_ts l)
   else near_load_data_by_write (Key_from_raw raw) (l_ts l)) x = (value_at raw (l_ts l), z) ->
  exists y, (y = x \/ y = z)
    /\ load_data_by_lock (Key_from_raw raw) l x = (reference_locked g (Key_from_raw raw) l, y).
Proof.
  intros Hcfg Hty Hload. unfold load_data_by_lock, reference_locked. rewrite gets_bind, g_snapshot.
  rewrite (co_omit _ _ Hcfg), (co_desc _ _ Hcfg). destruct Hty as [-> | ->]; [|exists x; split; [by left|done]].
  destruct (pg_omit_value g); [exists x; split; [by left|done]|].
  destruct (l_short_value l) as [v|]; [exists x; split; [by left|done]|].
  exists z. split; [by right|]. rewrite (st_bind_eq _ _ _ _ _ Hload). unfold value_at, version_key.
  by destruct (get_cf s CF_DEFAULT _).
Qed.

(** *** Locks *)

(** The scan has started, and the lock cursor is at the first lock. *)
Definition locks_at (keys : list bytes) x : Prop :=
  ks_is_started x = true
  /\ match ks_lock x with
     | Some c => checks_locks = true /\ cursor_inv c /\ cu_content c = lock_content
         /\ lock_head lock_content keys (cu_pos c)
     | None => checks_locks = false
     end.

Lemma locks_at_kept keys x y : kept x y -> locks_at keys x -> locks_at keys y.
Proof. intros Hk. unfold locks_at. by rewrite (kp_lock _ _ Hk), (kp_started _ _ Hk). Qed.

Lemma lock_pos_head keys x : locks_at keys x -> lock_head lock_content keys (lock_pos x).
Proof.
  unfold locks_at, lock_pos. intros [_ Hl]. revert Hl. destruct (ks_lock x) as [c|]; [by intros (_ & _ & _ & ?)|]. intros Hc.
  apply lock_head_none. intros raw' _. unfold lock_content. by rewrite Hc.
Qed.

(** *** One key against the reference *)

Definition is_ok {A} (res : mvcc_res A) : bool := match res with Ok _ => true | _ => false end.

Section Reference.
Context (raw : bytes) (b : TimeStamp).
Hypothesis (raw_ok : bytes_ok raw) (in_range : in_bounds lower upper raw = true).
Let key := Key_from_raw raw.
Let W := write_at s key.
Hypothesis (history : history_from b W) (Hfloor : floor W b (pg_ts g)).

Lemma reference_data_result o :
  newest W TimeStamp_max o ->
  (o = None -> reference_data g key = Ok None)
  /\ (goes_on (reference_data g key) -> is_ok (reference_data g key) = true).
Proof.
  intros Hn.
  destruct (get_write_from_spec (SnapshotReader_new 0 s) raw wf raw_ok b (pg_ts g) (Some (pg_ts g)) history Hfloor ts_ok
    (quiet_here s raw g)) as (oc & Hoc & _).
  pose proof (reference_data_eq s raw wf raw_ok b g g_snapshot ts_ok history Hfloor o oc Hn Hoc) as Href.
  fold key in Href. rewrite Href. split; [by intros ->|]. unfold goes_on.
  destruct o as [[t w]|]; [|done]. destruct (conflict g _); [intros Hc; by specialize (Hc _ eq_refl)|].
  unfold point_result, read_result. destruct (fenced _ _) as [[w' c']|]; [|done].
  destruct (pg_omit_value g); [done|]. destruct (record_value s _ w'); [done|]. intros Hc. by specialize (Hc _ eq_refl).
Qed.

Lemma lock_content_here v : get_cf s CF_LOCK key = Some v -> checks_locks = true -> lock_content key = Some v.
Proof. intros Hv Hc. apply lock_content_some. split_and!; [done| |done]. unfold key. by rewrite in_bounds_user. Qed.

Lemma meets_lock (has_lock : bool) o :
  (if has_lock then is_Some (lock_content key) else lock_content key = None) ->
  meets_newer s raw g o = (has_lock || newer_than (pg_ts g) o)%bool.
Proof.
  intros Hlk. unfold meets_newer. f_equal. fold key. change (need_check_locks (pg_isolation_level g)) with checks_locks.
  destruct has_lock.
  - destruct Hlk as (v & Hv). apply lock_content_some in Hv as (-> & _ & Hv).
    destruct (lock_parsed s raw v wf_lock Hv) as (l & _ & Hl'). fold key in Hl'. rewrite Hl'.
    by rewrite bool_decide_eq_true_2.
  - destruct (decide (checks_locks = true)) as [Hc|Hc]; [|by rewrite (not_true_is_false _ Hc)]. rewrite Hc. cbn [andb].
    apply bool_decide_eq_false_2. intros [l Hl']. unfold lock_at in Hl'.
    destruct (get_cf s CF_LOCK key) as [v|] eqn:Hv; [|done]. by rewrite (lock_content_here v) in Hlk.
Qed.

Lemma reference_get_unlocked : lock_content key = None -> reference_get g key = reference_data g key.
Proof.
  intros Hno. unfold reference_get. change (need_check_locks (pg_isolation_level g)) with checks_locks.
  destruct (decide (checks_locks = true)) as [Hc|Hc]; [|by rewrite (not_true_is_false _ Hc)]. rewrite Hc, g_snapshot.
  destruct (lock_at s key) as [l|] eqn:Hl; [|done]. unfold lock_at in Hl.
  destruct (get_cf s CF_LOCK key) as [v|] eqn:Hv; [|done]. by rewrite (lock_content_here v) in Hno.
Qed.

Lemma reference_get_locked v :
  lock_content key = Some v ->
  exists l, Lock_parse v = Ok l /\ lock_ok l
    /\ reference_get g key
       = match Lock_check_ts_conflict l key (pg_ts g) (pg_bypass_locks g) (pg_isolation_level g) with
         | Err e => if TsSet_contains (pg_access_locks g) (l_ts l) then reference_locked g key l
                    else Err (mvcc_error_from e)
         | _ => reference_data g key
         end.
Proof.
  intros (Hc & _ & Hg)%lock_content_some. destruct (wf_lock key v Hg) as (raw' & l & _ & _ & Hlok & ->).
  exists l. split_and!; [by apply lock_roundtrip|done|]. unfold reference_get. fold checks_locks.
  rewrite Hc, g_snapshot. unfold lock_at. by rewrite Hg, lock_roundtrip.
Qed.

Lemma has_data_here :
  has_data s lower upper checks_locks raw ->
  (exists t w, version_at (iter_content CF_WRITE) raw t = Some w) \/ is_Some (lock_content key).
Proof.
  intros [Hin [(t & w & Hw)|[Hc [v Hv]]]].
  - left. exists t, w. by rewrite iter_version_at, in_range.
  - right. exists v. by apply lock_content_here.
Qed.

(** The versions of the key, as the cursor sees them. *)
Lemma version_here t : version_at (iter_content CF_WRITE) raw t = W t.
Proof. rewrite iter_version_at by done. by rewrite in_range. Qed.

Lemma newest_here ts o : newest (version_at (iter_content CF_WRITE) raw) ts o <-> newest W ts o.
Proof. destruct o as [[t w]|]; cbn; by setoid_rewrite version_here. Qed.
End Reference.

(** *** Building a scanner *)

Section Build.
Context (desc : bool) (cfg : ScannerConfig Snap).
Hypothesis (Hcfg : cfg_ok desc cfg).
Hypothesis (Hlower : sc_lower_bound cfg = Key_from_raw <$> lower) (Hupper : sc_upper_bound cfg = Key_from_raw <$> upper).
Hypothesis (Hhints : sc_hint_min_ts cfg = None /\ sc_hint_max_ts cfg = None).

Lemma create_new cf : cf <> CF_DEFAULT -> create_cf_cursor cfg cf = (new_cursor desc cf, cfg).
Proof.
  intros Hcf. unfold create_cf_cursor, create_cf_cursor_with_scan_mode, new_cursor, scan_mode.
  rewrite (co_snapshot _ _ Hcfg), (co_desc _ _ Hcfg), Hlower, Hupper. destruct Hhints as [-> ->].
  rewrite (decide_False (P:=cf = CF_DEFAULT)) by done. by destruct (decide (cf = CF_WRITE)).
Qed.

Lemma build_eq :
  ScannerBuilder_build cfg
  = KvScanner_new cfg (if checks_locks then Some (new_cursor desc CF_LOCK) else None) (new_cursor desc CF_WRITE) None.
Proof.
  unfold ScannerBuilder_build. rewrite (co_iso _ _ Hcfg), create_new by done. fold checks_locks.
  destruct checks_locks; by rewrite create_new.
Qed.

(** Both cursors are moved to the first entry of the scan. *)
Lemma start_run (m : Cursor I -> mvcc_res (Cursor I * bool)) (write lock : Cursor I) :
  m (new_cursor desc CF_WRITE) = Ok (write, cu_valid write) ->
  m (new_cursor desc CF_LOCK) = Ok (lock, cu_valid lock) ->
  (_ ← on_write m;
   _ ← (match ks_lock (ScannerBuilder_build cfg) with Some _ => on_lock m | None => mret true end);
   modify ks_start) (ScannerBuilder_build cfg)
  = (Ok (E:=mvcc_error) tt, ks_start (KvScanner_new cfg (if checks_locks then Some lock else None) write None)).
Proof.
  intros Hw Hl. rewrite build_eq. set (x := KvScanner_new _ _ _ _).
  rewrite (on_write_bind m _ x write _ Hw). unfold x. destruct checks_locks; cbn [ks_lock KvScanner_new].
  - by rewrite (on_lock_bind m _ (ks_set_write x write) (new_cursor desc CF_LOCK) lock _ eq_refl Hl).
  - by rewrite (st_bind_ok _ (mret true) _ true _ eq_refl).
Qed.
End Build.
End Contents.

(** ** The loops over the keys *)

Section Loop.
Context {Snap I : Type} `{EngineSnapshotLaws Snap}.
Implicit Types x y z : KvScanner Snap I.
Abbreviation SC := (st_res (KvScanner Snap I) mvcc_error).
Context (s : Snap) (g : PointGetter Snap unit) (ord : bytes -> bytes -> Prop) (all : list bytes).
Hypothesis (ord_irrefl : forall a, ~ ord a a) (ord_trans : forall a b c, ord a b -> ord b c -> ord a c).
Hypothesis (all_sorted : StronglySorted ord all).

Abbreviation get := (fun raw => reference_get g (Key_from_raw raw)).

(** The outcome of a key: the next one follows, or the scan returns. *)
Definition outcome (next : SC (option (Key * Value))) (key : Key) (res : mvcc_res (option Value)) y
    : mvcc_res (option (Key * Value)) * KvScanner Snap I :=
  match res with
  | Ok None => next y
  | Ok (Some v) => (Ok (Some (key, v)), y)
  | Err e => (Err e, y)
  | Panic => (Panic, y)
  end.

Definition pending (keys : list bytes) : Prop := exists before, all = before ++ keys.

Lemma pending_tail raw keys : pending (raw :: keys) -> pending keys.
Proof. intros [before E]. exists (before ++ [raw]). by rewrite E, <-app_assoc. Qed.

Lemma pending_in keys raw : pending keys -> raw ∈ keys -> raw ∈ all.
Proof. intros [before E] Hin. rewrite E. apply elem_of_app. by right. Qed.

Lemma pending_sorted keys : pending keys -> StronglySorted ord keys.
Proof.
  intros [before E]. rewrite E in all_sorted. clear E.
  induction before as [|raw before IH]; [done|]. apply IH. by apply StronglySorted_inv in all_sorted as [? _].
Qed.

(** The keys after a key are those still to be scanned. *)
Lemma pending_covers raw keys raw' : pending (raw :: keys) -> raw' ∈ all -> ord raw raw' -> raw' ∈ keys.
Proof.
  intros [before E] Hin Hlt. rewrite E in Hin, all_sorted.
  apply elem_of_app in Hin as [Hin|[->|Hin]%elem_of_cons]; [|by destruct (ord_irrefl raw)|done].
  exfalso. clear E. induction before as [|b before IH]; [by apply elem_of_nil in Hin|].
  apply StronglySorted_inv in all_sorted as [Hs Hall]. apply elem_of_cons in Hin as [->|Hin]; [|auto].
  rewrite Forall_forall in Hall. apply (ord_irrefl b), (ord_trans b raw b); [|done].
  apply Hall, elem_of_app. right. by left.
Qed.

(** The keys read, and the newer data among them. *)
Definition read_to (keys remaining : list bytes) x y : Prop :=
  exists done newer, keys = done ++ remaining
    /\ ks_met_newer_ts_data y = met_after newer (ks_met_newer_ts_data x)
    /\ (newer = true <-> exists raw, raw ∈ done /\ has_newer g (Key_from_raw raw)).

Lemma read_to_refl keys x : read_to keys keys x x.
Proof.
  exists [], false. split_and!; [done|done|]. split; [done|]. by intros (raw & []%elem_of_nil & _).
Qed.

Lemma read_to_trans keys k1 k2 x y z : read_to keys k1 x y -> read_to k1 k2 y z -> read_to keys k2 x z.
Proof.
  intros (d1 & n1 & -> & Hm1 & Hn1) (d2 & n2 & -> & Hm2 & Hn2). exists (d1 ++ d2), (n1 || n2)%bool.
  split_and!; [by rewrite app_assoc|by rewrite Hm2, Hm1, met_after_twice|].
  rewrite orb_true_iff, Hn1, Hn2. setoid_rewrite elem_of_app. naive_solver.
Qed.

(** A loop that reads one key in every round. *)
Context (loop : nat -> SC (option (Key * Value))) (Inv : list bytes -> KvScanner Snap I -> Prop).
Hypothesis (loop_end : forall fuel x, Inv [] x -> loop (S fuel) x = (Ok None, x)).
Hypothesis (loop_round : forall raw keys fuel x, pending (raw :: keys) -> Inv (raw :: keys) x ->
  exists newer y, loop (S fuel) x = outcome (loop fuel) (Key_from_raw raw) (get raw) y
    /\ ks_met_newer_ts_data y = met_after newer (ks_met_newer_ts_data x)
    /\ (newer = true <-> has_newer g (Key_from_raw raw))
    /\ (goes_on (get raw) -> Inv keys y)).

Lemma loop_spec keys : forall fuel x,
  pending keys -> Inv keys x -> (length keys < fuel)%nat ->
  exists y, loop fuel x = (encoded (fst (reference_next get keys)), y)
    /\ read_to keys (snd (reference_next get keys)) x y
    /\ (goes_on (fst (reference_next get keys)) -> Inv (snd (reference_next get keys)) y).
Proof.
  induction keys as [|raw keys IH]; intros fuel x Hp Hx Hf; (destruct fuel as [|fuel]; [lia|]); cbn [reference_next].
  { exists x. split_and!; [by apply loop_end|apply read_to_refl|done]. }
  destruct (loop_round raw keys fuel x Hp Hx) as (newer & y & Hrun & Hmet & Hnew & Hinv).
  assert (read_to (raw :: keys) keys x y) as Hread.
  { exists [raw], newer. split_and!; [done..|]. rewrite Hnew. setoid_rewrite list_elem_of_singleton. naive_solver. }
  cbn [length] in Hf. destruct (reference_get g (Key_from_raw raw)) as [[v|]|e|] eqn:Hg; cbn [outcome] in Hrun.
  - exists y. split_and!; [done..|]. intros _. by apply Hinv.
  - destruct (IH fuel y) as (z & Hz & Hrz & Hiz); [by eapply pending_tail|by apply Hinv|lia|].
    exists z. split_and!; [by rewrite Hrun|by eapply read_to_trans|done].
  - exists y. split_and!; [done..|]. intros Hgo. apply Hinv. intros e' [= <-]. by apply Hgo.
  - exists y. split_and!; [done..|]. intros _. by apply Hinv.
Qed.

Lemma reference_next_pending keys : pending keys -> pending (snd (reference_next get keys)).
Proof.
  induction keys as [|raw keys IH]; intros Hp; cbn [reference_next]; [done|].
  pose proof (pending_tail _ _ Hp) as Hp'. destruct (reference_get g (Key_from_raw raw)) as [[v|]|e|]; auto.
Qed.

(** The scanner: [next] starts a fresh one and runs the loop. *)
Context (next : SC (option (Key * Value))) (fresh : KvScanner Snap I).
Hypothesis (enough : (length all <= cf_len s CF_WRITE + cf_len s CF_LOCK)%nat).
Hypothesis (inv_snapshot : forall keys x, Inv keys x -> sc_snapshot (ks_cfg x) = s).
Hypothesis (fresh_snapshot : sc_snapshot (ks_cfg fresh) = s).
Hypothesis (next_started : forall keys x, Inv keys x -> next x = loop (scan_fuel s) x).
Hypothesis (next_fresh : exists x, Inv all x /\ ks_met_newer_ts_data x = ks_met_newer_ts_data fresh
  /\ next fresh = next x).

Definition scanning (keys : list bytes) x : Prop :=
  pending keys /\ (Inv keys x \/ (keys = all /\ x = fresh)).

Lemma pending_fuel keys : pending keys -> (length keys < scan_fuel s)%nat.
Proof. intros [before E]. rewrite E, length_app in enough. unfold scan_fuel. lia. Qed.

Lemma scanning_next keys x :
  scanning keys x ->
  exists y, next x = (encoded (fst (reference_next get keys)), y)
    /\ read_to keys (snd (reference_next get keys)) x y
    /\ (goes_on (fst (reference_next get keys)) -> scanning (snd (reference_next get keys)) y).
Proof.
  intros [Hp Hx]. pose proof (reference_next_pending keys Hp) as Hp'.
  assert (exists x1, Inv keys x1 /\ ks_met_newer_ts_data x1 = ks_met_newer_ts_data x /\ next x = next x1)
    as (x1 & Hx1 & Hm & ->).
  { destruct Hx as [Hx|[-> ->]]; [by exists x|exact next_fresh]. }
  rewrite (next_started keys x1 Hx1).
  destruct (loop_spec keys (scan_fuel s) x1 Hp Hx1 (pending_fuel keys Hp)) as (y & Hn & Hr & Hy). exists y.
  split_and!; [done| |intros Hgo; split; [done|]; left; auto].
  destruct Hr as (d & n & E & Hmet & Hnew). exists d, n. by rewrite <-Hm.
Qed.

Lemma scanning_scan keys x limit step :
  scanning keys x ->
  let out := reference_scan get keys limit step 0 in
  exists y, Scanner_scan next limit step x = (fst out, y) /\ read_to keys (snd out) x y
    /\ (forall l, fst out = Ok l -> scanning (snd out) y).
Proof.
  intros Hx. cbn zeta. unfold Scanner_scan. rewrite gets_bind.
  assert (sc_snapshot (ks_cfg x) = s) as -> by (destruct Hx as [_ [Hx|[_ ->]]]; eauto).
  destruct (scan_loop_spec get next scanning read_to read_to_refl
    (fun k1 k2 k3 x y z => read_to_trans k1 k2 k3 x y z) scanning_next (S (scan_fuel s)) keys x limit step 0 [] Hx)
    as (y & Hrun & Hread & Hy).
  { pose proof (pending_fuel keys (proj1 Hx)). lia. }
  cbn [length] in *. rewrite Nat.sub_0_r in *. exists y. split_and!; [|done..]. rewrite Hrun.
  f_equal. by destruct (fst (reference_scan get keys limit step 0)).
Qed.

(** A scan of a fresh scanner, and the scans after it. *)
Lemma scan_correct limit step :
  let out := reference_scan get all limit step 0 in
  exists y, Scanner_scan next limit step fresh = (fst out, y)
    /\ read_to all (snd out) fresh y
    /\ forall l, fst out = Ok l -> forall limit' step',
         fst (Scanner_scan next limit' step' y) = fst (reference_scan get (snd out) limit' step' 0).
Proof.
  cbn zeta. destruct (scanning_scan all fresh limit step) as (y & Hrun & Hr & Hy); [split; [by exists []|by right]|].
  exists y. split_and!; [done..|]. intros l Hok limit' step'.
  destruct (scanning_scan _ y limit' step' (Hy l Hok)) as (z & -> & _). done.
Qed.
End Loop.
