(* ===== verification/ForwardScanner.v ===== *)
(** * The forward scanner

    Models [src/storage/mvcc/reader/scanner/forward.rs]: [ForwardScanner] steps
    the cursors of the write and the lock column family together, and hands the
    locks and the records of every key to a [ScanPolicy]; [LatestKvPolicy] returns
    the latest value of every key.  The policies for transaction entries and
    deltas are not modelled.

    The theorem [forward_scan_equivalent]: a scan returns, in order, what the
    point reads of the keys in the range return. *)

From Stdlib Require Import ZArith Lia.
From stdpp Require Import base numbers list gmap sorting.
From S2P Require Import Prelude Number Bytes Types Write Lock ConcurrencyManager Engine Cursor Reader Versions.
From S2P Require Import AbsState ReaderSpec PointGetter Scanner ScannerSpec.

Open Scope Z_scope.

Inductive HandleRes (T : Type) : Type :=
| HrReturn (output : T)
| HrSkip (key : Key)
| HrMoveToNext.
Arguments HrReturn {T} _.
Arguments HrSkip {T} _.
Arguments HrMoveToNext {T}.

(** The user key the cursors stand at, and whether it has a record and a lock. *)
Definition current_key_of (w_key l_key : option bytes) : mvcc_res (option (Key * bool * bool)) :=
  match w_key, l_key with
  | None, None => Ok None
  | None, Some k => Ok (Some (k, false, true))
  | Some k, None => user_key ← map_err MvCodec (Key_truncate_ts_for k); Ok (Some (user_key, true, false))
  | Some wk, Some lk =>
      write_user_key ← map_err MvCodec (Key_truncate_ts_for wk);
      Ok (Some match bytes_cmp write_user_key lk with
               | Lt => (write_user_key, true, false)
               | Gt => (lk, false, true)
               | Eq => (lk, true, true)
               end)
  end.

Section Forward.
Context {Snap I : Type} `{EngineSnapshot Snap} `{EngineIterator I} `{SnapshotIter Snap I}.
Abbreviation SC := (st_res (KvScanner Snap I) mvcc_error).

Record ScanPolicy (Output : Type) : Type := {
  sp_handle_lock : Key -> SC (HandleRes Output);
  sp_handle_write : Key -> SC (HandleRes Output)
}.
Arguments sp_handle_lock {Output} _.
Arguments sp_handle_write {Output} _.

(** ** Moving the write cursor *)

(** The steps of [move_write_cursor_to_next_user_key]; the result says that the
    cursor has left the key. *)
Fixpoint next_user_key_loop (n : nat) (first : bool) (current_user_key : Key) : SC bool :=
  match n with
  | O => mret false
  | S n =>
      _ ← (if first then mret true else on_write cu_next);
      valid ← on_write (peek valid_of);
      if negb valid then mret true
      else
        current_key ← on_write (peek cu_key);
        if negb (Key_is_user_key_eq current_key current_user_key) then mret true
        else next_user_key_loop n false current_user_key
  end.

Definition move_write_cursor_to_next_user_key (current_user_key : Key) : SC unit :=
  left ← next_user_key_loop (Z.to_nat SEEK_BOUND) true current_user_key;
  if (left : bool) then mret tt
  else
    _ ← modify (fun s => ks_set_statistics s (over_seek_bound (ks_statistics s)));
    _ ← on_write (fun c => cu_internal_seek c (Key_append_ts current_user_key 0));
    mret tt.

(** The steps of [move_write_cursor_to_ts]: [None] when the bound is hit. *)
Fixpoint to_ts_loop (n : nat) (first : bool) (user_key : Key) : SC (option bool) :=
  match n with
  | O => mret None
  | S n =>
      valid ← (if first then mret true else _ ← on_write cu_next; on_write (peek valid_of));
      if negb valid then mret (Some false)
      else
        s ← gets id;
        current_key ← on_write (peek cu_key);
        if negb (Key_is_user_key_eq current_key user_key) then mret (Some false)
        else
          key_commit_ts ← lift (map_err MvCodec (Key_decode_ts_from current_key));
          if key_commit_ts <=? sc_ts (ks_cfg s) then mret (Some true)
          else
            _ ← modify ks_meet;
            if decide (sc_isolation_level (ks_cfg s) = RcCheckTs)
            then throw (MvWriteConflict (sc_ts (ks_cfg s)) 0 key_commit_ts current_key [] WcRcCheckTs)
            else to_ts_loop n false user_key
  end.

Definition move_write_cursor_to_ts (user_key : Key) : SC bool :=
  valid ← on_write (peek valid_of);
  _ ← lift (assert_ valid);
  found ← to_ts_loop (Z.to_nat SEEK_BOUND) true user_key;
  match found with
  | Some b => mret b
  | None =>
      _ ← modify (fun s => ks_set_statistics s (over_seek_bound (ks_statistics s)));
      s ← gets id;
      _ ← on_write (fun c => cu_seek c (Key_append_ts user_key (sc_ts (ks_cfg s))));
      valid ← on_write (peek valid_of);
      if negb valid then mret false
      else
        current_key ← on_write (peek cu_key);
        mret (Key_is_user_key_eq current_key user_key)
  end.

(** ** The scan *)

Definition start_cursor (lower_bound : option Key) (c : Cursor I) : mvcc_res (Cursor I * bool) :=
  match lower_bound with Some k => cu_seek c k | None => cu_seek_to_first c end.

Definition forward_start : SC unit :=
  s ← gets id;
  if ks_is_started s then mret tt
  else
    _ ← on_write (start_cursor (sc_lower_bound (ks_cfg s)));
    _ ← (match ks_lock s with
         | Some _ => on_lock (start_cursor (sc_lower_bound (ks_cfg s)))
         | None => mret true
         end);
    modify ks_start.

Fixpoint read_next_loop {Output} (policy : ScanPolicy Output) (fuel : nat) : SC (option Output) :=
  match fuel with
  | O => lift Panic
  | S fuel =>
      s ← gets id;
      w_key ← on_write (peek key_of);
      l_key ← (match ks_lock s with Some _ => on_lock (peek key_of) | None => mret None end);
      current ← lift (current_key_of w_key l_key);
      match current with
      | None => mret None
      | Some (current_user_key, has_write, has_lock) =>
          handled ← (if (has_lock : bool) then
                       _ ← modify ks_meet;
                       sp_handle_lock policy current_user_key
                     else mret (HrSkip current_user_key));
          match handled with
          | HrReturn output => mret (Some output)
          | HrMoveToNext => read_next_loop policy fuel
          | HrSkip current_user_key =>
              if (has_write : bool) then
                is_current_user_key ← move_write_cursor_to_ts current_user_key;
                if (is_current_user_key : bool) then
                  handled ← sp_handle_write policy current_user_key;
                  match handled with
                  | HrReturn output => mret (Some output)
                  | _ => read_next_loop policy fuel
                  end
                else read_next_loop policy fuel
              else read_next_loop policy fuel
          end
      end
  end.

Definition forward_read_next {Output} (policy : ScanPolicy Output) : SC (option Output) :=
  _ ← forward_start;
  s ← gets id;
  read_next_loop policy (scan_fuel (sc_snapshot (ks_cfg s))).

(** ** The latest values *)

Definition latest_handle_lock (current_user_key : Key) : SC (HandleRes (Key * Value)) :=
  s ← gets id;
  if decide (sc_isolation_level (ks_cfg s) = Rc) then mret (HrSkip current_user_key)
  else
    lock_value ← on_lock (peek cu_value);
    lock ← lift (map_err mvcc_error_from (Lock_parse lock_value));
    _ ← on_lock cu_next;
    match Lock_check_ts_conflict lock current_user_key (sc_ts (ks_cfg s)) (sc_bypass_locks (ks_cfg s))
            (sc_isolation_level (ks_cfg s)) with
    | Ok _ => mret (HrSkip current_user_key)
    | Err e =>
        _ ← move_write_cursor_to_next_user_key current_user_key;
        if TsSet_contains (sc_access_locks (ks_cfg s)) (l_ts lock) then
          _ ← ensure_default_cursor;
          val ← load_data_by_lock current_user_key lock;
          mret match val with
               | Some v => HrReturn (current_user_key, v)
               | None => HrMoveToNext
               end
        else throw (mvcc_error_from e)
    | Panic => lift Panic
    end.

(** The loop of [handle_write]: [inr] when the cursor has left the key. *)
Fixpoint handle_write_loop (fuel : nat) (current_user_key : Key) : SC (option Value + unit) :=
  match fuel with
  | O => lift Panic
  | S fuel =>
      s ← gets id;
      value ← on_write (peek cu_value);
      write ← lift (map_err mvcc_error_from (WriteRef_parse value));
      let go_on :=
        valid ← on_write (peek valid_of);
        if negb valid then mret (inr tt)
        else
          current_key ← on_write (peek cu_key);
          if negb (Key_is_user_key_eq current_key current_user_key) then mret (inr tt)
          else handle_write_loop fuel current_user_key in
      if negb (WriteRef_check_gc_fence_as_latest_version write (sc_ts (ks_cfg s))) then mret (inl None)
      else
        match w_write_type write with
        | WtPut =>
            if sc_omit_value (ks_cfg s) then mret (inl (Some []))
            else
              match w_short_value write with
              | Some value => mret (inl (Some value))
              | None =>
                  _ ← ensure_default_cursor;
                  value ← near_load_data_by_write current_user_key (w_start_ts write);
                  mret (inl (Some value))
              end
        | WtDelete => mret (inl None)
        | WtLock | WtRollback =>
            match w_last_change write with
            | LcNotExist => mret (inl None)
            | LcExist last_change_ts estimated_versions_to_last_change =>
                if SEEK_BOUND <=? estimated_versions_to_last_change then
                  _ ← on_write (fun c => cu_seek c (Key_append_ts current_user_key last_change_ts));
                  go_on
                else _ ← on_write cu_next; go_on
            | LcUnknown => _ ← on_write cu_next; go_on
            end
        end
  end.

Definition latest_handle_write (current_user_key : Key) : SC (HandleRes (Key * Value)) :=
  s ← gets id;
  value ← handle_write_loop (cf_len (sc_snapshot (ks_cfg s)) CF_WRITE + 2) current_user_key;
  match value with
  | inr _ => mret (HrSkip current_user_key)
  | inl value =>
      _ ← move_write_cursor_to_next_user_key current_user_key;
      mret match value with
           | Some v => HrReturn (current_user_key, v)
           | None => HrSkip current_user_key
           end
  end.

Definition LatestKvPolicy : ScanPolicy (Key * Value) :=
  {| sp_handle_lock := latest_handle_lock; sp_handle_write := latest_handle_write |}.

(** [Scanner.scan] of the forward scanner *)
Definition forward_scan : nat -> nat -> SC (list (mvcc_res KvPair)) :=
  Scanner_scan (forward_read_next LatestKvPolicy).
End Forward.

(** ** Where the cursors stand *)

(** The newest version of a key comes first. *)
Definition newest_first (content : Key -> option Value) (raw : bytes) (t : TimeStamp) (w : Write) : Prop :=
  newest (version_at content raw) TimeStamp_max (Some (t, w)).

Lemma forward_chooses : chooses bytes_lt current_key_of.
Proof.
  split.
  - done.
  - intros a t. cbn [current_key_of]. by rewrite Key_truncate_version.
  - intros a t. cbn [current_key_of]. rewrite Key_truncate_version. cbn [map_err mbind res_bind].
    by rewrite bytes_cmp_refl.
  - intros a b t Ha Hb Hlt. cbn [current_key_of]. rewrite Key_truncate_version. cbn [map_err mbind res_bind].
    by rewrite user_key_order, Hlt.
  - intros a b t Ha Hb Hlt. cbn [current_key_of]. rewrite Key_truncate_version. cbn [map_err mbind res_bind].
    by rewrite (bytes_cmp_antisym (Key_from_raw a)), user_key_order, Hlt.
Qed.

Section Moves.
Context {I : Type} `{EngineIteratorLaws I} (content : Key -> option Value).
Hypothesis (wf : wf_versions content).
Implicit Types c : Cursor I.

(** A cursor of the forward scanner; once the end was met it is not valid again. *)
Record forward_at c : Prop := {
  fa_inv : cursor_inv c;
  fa_mode : cu_scan_mode c = SmForward;
  fa_content : cu_content c = content;
  fa_max : is_Some (cu_pos c) -> cu_max_key c = None
}.

Lemma forward_moved c c' : forward_at c -> moved c c' -> (is_Some (cu_pos c') -> cu_max_key c' = None) ->
  forward_at c'.
Proof.
  intros [Hi Hm Hc _] [Hi' Hc' Hm'] Hmax. split; [done|by rewrite Hm'|by rewrite Hc'|done].
Qed.

Lemma forward_next c raw t v :
  bytes_ok raw -> u64_ok t -> forward_at c -> cu_pos c = Some (version_key raw t, v) ->
  exists c', cu_next (E:=mvcc_error) c = Ok (c', cu_valid c') /\ forward_at c'
    /\ stands content raw (t - 1) (cu_pos c').
Proof.
  intros Hraw Ht Hc Hp. destruct (cu_next_spec (E:=mvcc_error) c _ v (fa_inv c Hc) Hp) as (c' & Hn & Hm & Hl).
  exists c'. split; [done|]. split.
  - apply (forward_moved c); [done..|]. intros _. unfold cu_next in Hn.
    rewrite (cu_valid_true c _ Hp) in Hn. cbn in Hn. injection Hn as <-. cbn. apply (fa_max c Hc). by rewrite Hp.
  - rewrite (fa_content c Hc) in Hl. apply (least_stands content wf raw (t - 1) _ _ Hraw) in Hl; [done|].
    intros raw' t' Hr' Ht'. rewrite version_key_ltb by done. split; intros [?|[-> ?]]; auto; right; split; done || lia.
Qed.

Lemma forward_internal_seek c raw ts :
  bytes_ok raw -> u64_ok ts -> forward_at c -> is_Some (cu_pos c) ->
  exists c', cu_internal_seek (E:=mvcc_error) c (version_key raw ts) = Ok (c', cu_valid c') /\ forward_at c'
    /\ stands content raw ts (cu_pos c').
Proof.
  intros Hraw Ht Hc Hp.
  destruct (cu_internal_seek_spec (E:=mvcc_error) c (version_key raw ts) (fa_inv c Hc)) as (c' & Hn & Hm & Hl).
  exists c'. split; [done|]. split.
  - apply (forward_moved c); [done..|]. intros _. unfold cu_internal_seek in Hn. injection Hn as <-. cbn.
    by apply (fa_max c Hc).
  - rewrite (fa_content c Hc) in Hl. apply (least_stands content wf raw ts _ _ Hraw) in Hl; [done|].
    intros raw' t' Hr' Ht'. by rewrite version_key_leb.
Qed.

Lemma forward_seek c raw t v ts :
  bytes_ok raw -> u64_ok t -> u64_ok ts -> ts < t -> forward_at c ->
  cu_pos c = Some (version_key raw t, v) ->
  exists c', cu_seek (E:=mvcc_error) c (version_key raw ts) = Ok (c', cu_valid c') /\ forward_at c'
    /\ stands content raw ts (cu_pos c').
Proof.
  intros Hraw Ht Hts Hlt Hc Hp.
  destruct (forward_internal_seek c raw ts Hraw Hts Hc ltac:(by rewrite Hp)) as (c1 & Hseek & Hc1 & Hst).
  unfold cu_seek, past_max. rewrite (fa_mode c Hc), (fa_max c Hc), (cu_valid_true c _ Hp) by (by rewrite Hp).
  rewrite (cu_key_ok c _ _ Hp), (bool_decide_eq_false_2 (SmForward = SmBackward)) by done.
  rewrite (bool_decide_eq_true_2 (SmForward = SmForward)) by done. cbn [negb assert_ mbind res_bind andb].
  replace (bytes_leb (version_key raw ts) (version_key raw t)) with false.
  2:{ symmetry. apply not_true_iff_false. rewrite version_key_leb by done.
      intros [?|[_ ?]]; [by apply (bytes_lt_irrefl raw)|lia]. }
  rewrite Hseek. cbn [mbind res_bind]. destruct (cu_valid c1) eqn:Hv; [exists c1; by rewrite Hv|].
  rewrite (ci_prefix c1 (fa_inv c1 Hc1)). exists (cu_set_max_key c1 (version_key raw ts)).
  assert (cu_pos c1 = None) as Hp1.
  { destruct (cu_pos c1) as [kv|] eqn:E; [|done]. by rewrite (cu_valid_true c1 kv E) in Hv. }
  split_and!; [by rewrite <-Hv| |done]. destruct Hc1 as [Hi1 Hm1 Hco1 _]. split; [|done|done|].
  2:{ unfold cu_pos in *. cbn [cu_iter cu_set_max_key]. rewrite Hp1. by intros []. }
  apply (moved_max c1); [done|]. intros k' [v' Hk']. rewrite Hp1 in Hst. inversion Hst as [Hn Hno| |].
  rewrite Hco1 in Hk'. destruct (content_version content wf k' v' Hk') as (raw' & t' & w & Hr' & Ht' & Hw & -> & -> & HW).
  apply not_true_iff_false. rewrite version_key_leb by done. intros [?|[<- ?]].
  - by apply (Hno raw' t' w).
  - rewrite (Hn t') in HW; done.
Qed.
End Moves.

(** The first move of a cursor, to the start of its range. *)
Lemma least_all content (p : Key -> bool) o :
  (forall k, is_Some (content k) -> p k = true) -> least content p o -> least content (fun _ => true) o.
Proof.
  intros Hp. destruct o as [[k v]|]; cbn.
  - intros (Hv & _ & Hmin). split_and!; [done..|]. intros k' Hk' _. apply Hmin; auto.
  - intros Hno k Hk. by rewrite <-(Hno k Hk), Hp.
Qed.

Lemma start_cursor_spec {I} `{EngineIteratorLaws I} (c : Cursor I) lower :
  cursor_inv c -> cu_scan_mode c = SmForward -> cu_pos c = None -> cu_max_key c = None ->
  (forall k, is_Some (cu_content c k) -> match lower with Some l => bytes_leb l k = true | None => True end) ->
  exists c', start_cursor lower c = Ok (c', cu_valid c') /\ moved c c'
    /\ least (cu_content c) (fun _ => true) (cu_pos c') /\ (is_Some (cu_pos c') -> cu_max_key c' = None).
Proof.
  intros Hi Hm Hp Hmax Hb. destruct lower as [l|]; cbn [start_cursor].
  2:{ destruct (cu_seek_to_first_spec (E:=mvcc_error) c Hi) as (c' & Hs & Hmv & Hl). exists c'.
      split_and!; [done..|]. intros _. unfold cu_seek_to_first in Hs. rewrite (ci_prefix c Hi) in Hs.
      cbn in Hs. by injection Hs as <-. }
  destruct (cu_internal_seek_spec (E:=mvcc_error) c l Hi) as (c1 & Hs & Hmv & Hl).
  assert (cu_max_key c1 = None) as Hmax1 by (unfold cu_internal_seek in Hs; by injection Hs as <-).
  unfold cu_seek, past_max. rewrite Hm, Hmax, (cu_valid_false c Hp).
  rewrite (bool_decide_eq_false_2 (SmForward = SmBackward)), andb_false_r by done.
  cbn [negb assert_ mbind res_bind]. rewrite Hs. cbn [mbind res_bind].
  assert (least (cu_content c) (fun _ => true) (cu_pos c1)) as Hl1 by (by eapply least_all).
  destruct (cu_valid c1) eqn:Hv; [exists c1; by rewrite Hv|]. rewrite (ci_prefix c1 (mv_inv _ _ Hmv)).
  assert (cu_pos c1 = None) as Hp1.
  { destruct (cu_pos c1) as [kv|] eqn:E; [|done]. by rewrite (cu_valid_true c1 kv E) in Hv. }
  exists (cu_set_max_key c1 l). split_and!; [by rewrite <-Hv| |done|].
  - eapply moved_trans; [done|]. apply moved_max; [apply Hmv|]. intros k' Hk'. rewrite (mv_content _ _ Hmv) in Hk'.
    rewrite Hp1 in Hl. by apply Hl.
  - change (is_Some (cu_pos c1) -> cu_max_key (cu_set_max_key c1 l) = None). rewrite Hp1. by intros [].
Qed.

(** ** The moves within a key *)

Section Key.
Context {Snap I : Type} `{EngineSnapshot Snap} `{EngineIteratorLaws I} `{SnapshotIter Snap I}.
Context (content : Key -> option Value) (raw : bytes).
Hypothesis (wf : wf_versions content) (raw_ok : bytes_ok raw).
Implicit Types x y : KvScanner Snap I.
Abbreviation key := (Key_from_raw raw).
Abbreviation W := (version_at content raw).

Abbreviation at_here := (at_key content raw).
Abbreviation on_here := (on_key raw).

Abbreviation ready x := (forward_at content (ks_write x)).
Abbreviation wpos x := (cu_pos (ks_write x)).

Lemma step_next x t w :
  ready x -> at_here (wpos x) t w ->
  exists y, on_write cu_next x = (Ok (cu_valid (ks_write y)), y) /\ kept_write x y /\ ready y
    /\ stands content raw (t - 1) (wpos y).
Proof.
  intros Hx (Ht & Hw & HW & Hp).
  destruct (forward_next content wf (ks_write x) raw t _ raw_ok Ht Hx Hp) as (c' & Hn & Hc' & Hst).
  exists (ks_set_write x c'). split_and!; [by apply zoom_ok|by split|done|done].
Qed.

Lemma step_seek x t w ts :
  ready x -> at_here (wpos x) t w -> u64_ok ts -> ts < t ->
  exists y, on_write (fun c => cu_seek c (Key_append_ts key ts)) x = (Ok (cu_valid (ks_write y)), y)
    /\ kept_write x y /\ ready y /\ stands content raw ts (wpos y).
Proof.
  intros Hx (Ht & Hw & HW & Hp) Hts Hlt.
  destruct (forward_seek content wf (ks_write x) raw t _ ts raw_ok Ht Hts Hlt Hx Hp) as (c' & Hn & Hc' & Hst).
  exists (ks_set_write x c'). split_and!; [by apply zoom_ok|by split|done|done].
Qed.

Lemma next_user_key_loop_spec n : forall x t w,
  ready x -> at_here (wpos x) t w ->
  exists left y, next_user_key_loop n false key x = (Ok left, y) /\ kept_write x y /\ ready y
    /\ if (left : bool) then stands content raw (-1) (wpos y) else exists t w, at_here (wpos y) t w.
Proof.
  induction n as [|n IH]; intros x t w Hx Hat; [exists false, x; split_and!; [done|by split|done|eauto]|].
  cbn [next_user_key_loop]. destruct (step_next x t w Hx Hat) as (y & Hstep & Hk & Hy & Hst).
  rewrite (st_bind_ok _ _ _ _ _ Hstep), check_on_key.
  destruct (stands_cases content raw raw_ok _ _ Hst) as [[-> (t1 & w1 & Hat1 & _)]|(-> & _ & Hst')].
  - destruct (IH y t1 w1 Hy Hat1) as (left & z & Hl & Hk' & Hz & Hres).
    exists left, z. split_and!; [done|by eapply kept_write_trans|done|done].
  - by exists true, y.
Qed.

Lemma next_user_key_first n x :
  next_user_key_loop (S n) true key x
  = if on_here (wpos x) then next_user_key_loop n false key x else (Ok true, x).
Proof.
  cbn [next_user_key_loop]. rewrite (st_bind_ok _ (mret true) x true x eq_refl). apply check_on_key.
Qed.

(** A cursor that is not on the key stays; one that is leaves it. *)
Lemma move_next_off x :
  on_here (wpos x) = false -> move_write_cursor_to_next_user_key key x = (Ok tt, x).
Proof.
  intros Hoff. unfold move_write_cursor_to_next_user_key.
  assert (next_user_key_loop (Z.to_nat SEEK_BOUND) true key x = (Ok true, x)) as Hl.
  { change (Z.to_nat SEEK_BOUND) with 8%nat. by rewrite next_user_key_first, Hoff. }
  by rewrite (st_bind_ok _ _ x true x Hl).
Qed.

Lemma move_next_on x t w :
  ready x -> at_here (wpos x) t w -> W 0 = None ->
  exists y, move_write_cursor_to_next_user_key key x = (Ok tt, y) /\ kept_write x y /\ ready y
    /\ stands content raw (-1) (wpos y).
Proof.
  intros Hx Hat Hzero. unfold move_write_cursor_to_next_user_key.
  assert (exists left y, next_user_key_loop (Z.to_nat SEEK_BOUND) true key x = (Ok left, y) /\ kept_write x y
    /\ ready y /\ if (left : bool) then stands content raw (-1) (wpos y)
                   else exists t w, at_here (wpos y) t w) as (left & y & Hl & Hk & Hy & Hres).
  { change (Z.to_nat SEEK_BOUND) with 8%nat. rewrite next_user_key_first, (at_key_on _ _ raw_ok _ _ _ Hat).
    by apply next_user_key_loop_spec with t w. }
  rewrite (st_bind_ok _ _ x left y Hl). destruct left; [by exists y|]. rewrite modify_bind.
  destruct Hres as (t1 & w1 & Ht1 & Hw1 & HW1 & Hp1).
  destruct (forward_internal_seek content wf (ks_write y) raw 0 raw_ok ltac:(unfold u64_ok; lia) Hy
    ltac:(by rewrite Hp1)) as (c' & Hs & Hc' & Hst).
  rewrite (on_write_bind (fun c => cu_internal_seek c (Key_append_ts key 0)) _ (ks_set_statistics y _) c' _ Hs).
  eexists. split; [done|]. split; [by destruct Hk; split|]. split; [done|].
  destruct (stands_cases content raw raw_ok _ _ Hst) as [[_ (t2 & w2 & (Hu & _ & HW2 & _) & (Hle & _))]|(_ & _ & Hst')]; [|done].
  unfold u64_ok in Hu. assert (t2 = 0) as -> by lia. congruence.
Qed.

(** *** To the version to read *)

Abbreviation ts_of x := (sc_ts (ks_cfg x)).

(** One round on the key. *)
Lemma to_ts_round {B} x t w (yes : st_res (KvScanner Snap I) mvcc_error B) no other
    (conflict : TimeStamp -> TimeStamp -> Key -> st_res (KvScanner Snap I) mvcc_error B) :
  at_here (wpos x) t w ->
  (s ← gets id;
   current_key ← on_write (peek cu_key);
   if negb (Key_is_user_key_eq current_key key) then no
   else
     key_commit_ts ← lift (map_err MvCodec (Key_decode_ts_from current_key));
     if key_commit_ts <=? sc_ts (ks_cfg s) then yes
     else
       _ ← modify ks_meet;
       if decide (sc_isolation_level (ks_cfg s) = RcCheckTs) then conflict (sc_ts (ks_cfg s)) key_commit_ts current_key
       else other) x
  = if t <=? ts_of x then yes x
    else if decide (sc_isolation_level (ks_cfg x) = RcCheckTs)
    then conflict (ts_of x) t (version_key raw t) (ks_meet x) else other (ks_meet x).
Proof.
  intros Hat. pose proof (at_key_on _ _ raw_ok _ _ _ Hat) as Hon. destruct Hat as (Ht & Hw & HW & Hp).
  rewrite gets_bind, (on_write_peek cu_key _ x _ (cu_key_ok _ _ _ Hp)). rewrite Hp in Hon. cbn [on_key] in Hon.
  rewrite Hon. cbn [negb].
  rewrite (lift_bind _ _ x t) by (unfold version_key; by rewrite Key_decode_append).
  destruct (t <=? ts_of x); [done|]. rewrite modify_bind. by case_decide.
Qed.

Lemma to_ts_rest n : forall x t w,
  sc_isolation_level (ks_cfg x) <> RcCheckTs -> ks_met_newer_ts_data x <> NtNotMetYet -> u64_ok (ts_of x) ->
  ready x -> at_here (wpos x) t w -> ts_of x < t ->
  exists found y, to_ts_loop n false key x = (Ok found, y) /\ kept_write x y /\ ready y
    /\ match found with
       | Some b => stands content raw (ts_of x) (wpos y) /\ b = on_here (wpos y)
       | None => exists t w, at_here (wpos y) t w /\ ts_of x < t
       end.
Proof.
  induction n as [|n IH]; intros x t w Hiso Hmet Hts Hx Hat Hlt.
  { exists None, x. split_and!; [done|by split|done|eauto]. }
  cbn [to_ts_loop]. destruct (step_next x t w Hx Hat) as (y & Hstep & Hk & Hy & Hst).
  rewrite (st_bind_ok _ _ x (cu_valid (ks_write y)) y).
  2:{ rewrite (st_bind_ok _ _ _ _ _ Hstep). unfold on_write, zoom. cbn. by destruct y. }
  pose proof Hk as [_ Hkm _ Hkc _].
  destruct (stands_cases content raw raw_ok _ _ Hst) as [[Hon (t1 & w1 & Hat1 & Hn1)]|(Hoff & Hn1 & Hst')].
  - rewrite (at_key_valid _ _ _ _ _ Hat1). cbn [negb].
    rewrite (to_ts_round y t1 w1 _ _ _ (fun ts t k => throw (MvWriteConflict ts 0 t k [] WcRcCheckTs))) by done.
    rewrite Hkc.
    destruct (Z.leb_spec t1 (ts_of x)) as [Hle|Hgt].
    + exists (Some true), y. split_and!; [done..| |by rewrite Hon].
      destruct Hat1 as (Ht1 & Hw1 & HW1 & ->). apply stands_version; [done..|].
      destruct Hn1 as (Hle1 & _ & Hno). split_and!; [done..|]. intros t' Ht'. apply Hno. lia.
    + rewrite decide_False by done. rewrite ks_meet_idle by (by rewrite Hkm).
      destruct (IH y t1 w1) as (found & z & Hl & Hk' & Hz & Hres); rewrite ?Hkc, ?Hkm; try done.
      exists found, z. split_and!; [done|by eapply kept_write_trans|done|]. by rewrite Hkc in Hres.
  - assert (stands content raw (ts_of x) (wpos y)) as Hst''.
    { inversion Hst' as [_ Hno Hp|t' w' Ht' _ [Hle _]|raw' t' w' Hr' Hlt' Ht' Hw' _ Hn' Hno Hp].
      - apply stands_end; [|done]. intros t' Ht'. apply Hn1. lia.
      - unfold u64_ok in Ht'. lia.
      - apply stands_later; try done. intros t'' Ht''. apply Hn1. lia. }
    exists (Some false), y. destruct (cu_valid (ks_write y)) eqn:Hv; cbn [negb].
    + destruct (wpos y) as [[k v]|] eqn:Hp; [|by rewrite cu_valid_false in Hv].
      rewrite gets_bind, (on_write_peek cu_key _ y k (cu_key_ok _ _ _ Hp)).
      pose proof Hoff as Hoff'. cbn [on_key] in Hoff'. rewrite Hoff'. by split_and!.
    + by split_and!.
Qed.

Lemma to_ts_first n x t w :
  at_here (wpos x) t w ->
  to_ts_loop (S n) true key x
  = if t <=? ts_of x then (Ok (Some true), x)
    else if decide (sc_isolation_level (ks_cfg x) = RcCheckTs)
    then (Err (MvWriteConflict (ts_of x) 0 t (version_key raw t) [] WcRcCheckTs), ks_meet x)
    else to_ts_loop n false key (ks_meet x).
Proof.
  intros Hat. cbn [to_ts_loop]. rewrite (st_bind_ok _ (mret true) x true x eq_refl). cbn [negb].
  by rewrite (to_ts_round x t w _ _ _ (fun ts t k => throw (MvWriteConflict ts 0 t k [] WcRcCheckTs))).
Qed.

(** The version to read, or a later key if there is none; newer data is met. *)
Lemma move_to_ts_spec x t w :
  u64_ok (ts_of x) -> ready x -> at_here (wpos x) t w -> newest W TimeStamp_max (Some (t, w)) ->
  if (bool_decide (sc_isolation_level (ks_cfg x) = RcCheckTs) && (ts_of x <? t))%bool
  then move_write_cursor_to_ts key x
       = (Err (MvWriteConflict (ts_of x) 0 t (version_key raw t) [] WcRcCheckTs), ks_meet x)
  else exists y, move_write_cursor_to_ts key x = (Ok (on_here (wpos y)), y)
    /\ kept_write (if ts_of x <? t then ks_meet x else x) y /\ ready y
    /\ stands content raw (ts_of x) (wpos y).
Proof.
  intros Hts Hx Hat Hn. unfold move_write_cursor_to_ts.
  rewrite (on_write_peek valid_of _ x _ (valid_of_ok _)), (at_key_valid _ _ _ _ _ Hat).
  rewrite (lift_bind _ _ x tt) by done. change (Z.to_nat SEEK_BOUND) with 8%nat.
  pose proof (to_ts_first 7 x t w Hat) as Hloop. destruct (Z.ltb_spec (ts_of x) t) as [Hgt|Hle].
  - destruct (Z.leb_spec t (ts_of x)); [lia|]. destruct (decide (sc_isolation_level (ks_cfg x) = RcCheckTs)) as [Hrc|Hrc].
    { rewrite bool_decide_eq_true_2 by done. by rewrite (st_bind_err _ _ _ _ _ Hloop). }
    rewrite bool_decide_eq_false_2 by done. cbn [andb].
    destruct (to_ts_rest 7 (ks_meet x) t w) as (found & y & Hl & Hk & Hy & Hres); try done.
    { cbn. by case_decide. }
    rewrite Hl in Hloop. rewrite (st_bind_ok _ _ _ _ _ Hloop). destruct found as [b|].
    { destruct Hres as [Hst ->]. by exists y. }
    rewrite modify_bind, gets_bind. destruct Hres as (t1 & w1 & Hat1 & Hlt1). pose proof Hk as [_ _ _ Hkc _].
    destruct (step_seek (ks_set_statistics y (over_seek_bound (ks_statistics y))) t1 w1 (ts_of x))
      as (z & Hs & Hkz & Hz & Hst); try done. cbn [ks_cfg ks_set_statistics]. rewrite Hkc.
    cbn [ks_cfg ks_meet]. rewrite (st_bind_ok _ _ _ _ _ Hs). exists z. split_and!; [|by destruct Hk, Hkz; split; cbn in *; congruence|done|done].
    rewrite (on_write_peek valid_of _ z _ (valid_of_ok _)). destruct (wpos z) as [[k v]|] eqn:Hp.
    + rewrite (cu_valid_true _ _ Hp). cbn [negb on_key]. by rewrite (on_write_peek cu_key _ z k (cu_key_ok _ _ _ Hp)).
    + by rewrite cu_valid_false.
  - destruct (Z.leb_spec t (ts_of x)); [|lia]. rewrite andb_false_r. exists x.
    rewrite (st_bind_ok _ _ _ _ _ Hloop), (at_key_on _ _ raw_ok _ _ _ Hat). split_and!; [done|by split|done|].
    destruct Hat as (Ht & Hw & HW & ->). apply stands_version; [done..|]. destruct Hn as (_ & _ & Hno).
    split_and!; [done..|]. intros t' Ht'. apply Hno. pose proof (u64_le_max _ Hts). lia.
Qed.
End Key.

(** ** Values in the default column family *)

Section Default.
Context {Snap I : Type} `{EngineSnapshot Snap} `{EngineIteratorLaws I} `{SnapshotIter Snap I}.
Context (content : Key -> option Value).
Implicit Types x y : KvScanner Snap I.

(** The default cursor, with the keys still to come: where it is past an entry
    that may be asked for, it is at the first one. *)
Record default_at (keys : list bytes) (c : Cursor I) : Prop := {
  da_inv : cursor_inv c;
  da_mode : cu_scan_mode c = SmForward;
  da_content : cu_content c = content;
  da_behind : forall raw ts k v, raw ∈ keys -> u64_ok ts -> cu_pos c = Some (k, v) ->
    bytes_leb (version_key raw ts) k = true -> least content (bytes_leb (version_key raw ts)) (Some (k, v))
}.

Lemma default_seek raw keys c ts r :
  default_at (raw :: keys) c -> u64_ok ts -> seek_post (E:=mvcc_error) c (version_key raw ts) r ->
  exists c' b, r = Ok (c', b) /\ moved c c'
    /\ if (b : bool) then least content (bytes_leb (version_key raw ts)) (cu_pos c')
       else forall k, is_Some (content k) -> bytes_leb (version_key raw ts) k = false.
Proof.
  intros [Hi Hm Hc Hb] Hts (c' & b & -> & Hmv & Hres). exists c', b. split; [done|]. split; [done|].
  rewrite Hc in Hres. destruct b; [|done]. destruct Hres as [_ Hstop]. unfold seek_stop in Hstop.
  rewrite Hc in Hstop. destruct (cu_pos c) as [[k v]|] eqn:Hp; [|done].
  rewrite Hm, (bool_decide_eq_true_2 (SmForward = SmForward)) in Hstop by done. cbn [andb] in Hstop.
  destruct (bytes_leb (version_key raw ts) k) eqn:Hle; [|done]. rewrite Hstop.
  apply (Hb raw ts k v); [by left|done..].
Qed.

(** Where the cursor stands afterwards. *)
Lemma default_found raw keys c ts c' b :
  StronglySorted bytes_lt (raw :: keys) -> (forall raw', raw' ∈ raw :: keys -> bytes_ok raw') ->
  default_at (raw :: keys) c -> u64_ok ts -> moved c c' ->
  (if (b : bool) then least content (bytes_leb (version_key raw ts)) (cu_pos c')
   else forall k, is_Some (content k) -> bytes_leb (version_key raw ts) k = false) ->
  default_at keys c' /\ forall v, cu_pos c' = Some (version_key raw ts, v) <-> content (version_key raw ts) = Some v.
Proof.
  intros Hs Hok [Hi Hm Hc Hb] Hts [Hi' Hc' Hm'] Hres.
  assert (forall k v, cu_pos c' = Some (k, v) -> content k = Some v) as Hin.
  { intros k v Hp. apply (cu_pos_in c' k v) in Hp; [|done]. by rewrite Hc', Hc in Hp. }
  apply StronglySorted_inv in Hs as [_ Hall]. rewrite Forall_forall in Hall. split.
  - split; [done|by rewrite Hm'|by rewrite Hc'|]. intros raw2 ts2 k v Hin2 Hts2 Hp Hle.
    assert (bytes_leb (version_key raw ts) (version_key raw2 ts2) = true) as Hord.
    { apply version_key_leb; [apply Hok; by left|apply Hok; by right|done|done|]. left. by apply Hall. }
    destruct b.
    + rewrite Hp in Hres. destruct Hres as (Hv & _ & Hmin). split_and!; [done..|]. intros k' Hk' Hle'.
      apply Hmin; [done|]. by eapply bytes_leb_trans.
    + exfalso. pose proof (Hin k v Hp) as Hv. specialize (Hres k (ex_intro _ v Hv)).
      rewrite (bytes_leb_trans _ _ _ Hord Hle) in Hres. done.
  - intros v. split; [apply Hin|]. intros Hv. destruct b.
    + by apply (least_unique content (bytes_leb (version_key raw ts))); [|apply least_here].
    + specialize (Hres _ (ex_intro _ v Hv)). apply not_true_iff_false in Hres. destruct Hres. apply bytes_leb_lt_or_eq. by right.
Qed.

Lemma near_load_spec raw keys x c ts :
  StronglySorted bytes_lt (raw :: keys) -> (forall raw', raw' ∈ raw :: keys -> bytes_ok raw') ->
  ks_default x = Some c -> default_at (raw :: keys) c -> u64_ok ts ->
  exists y c', near_load_data_by_write (Key_from_raw raw) ts x
      = (match content (version_key raw ts) with
         | Some v => Ok v
         | None => Err (default_not_found_error (version_key raw ts))
         end, y)
    /\ kept x y /\ ks_cfg y = ks_cfg x /\ ks_write y = ks_write x /\ ks_default y = Some c' /\ default_at keys c'.
Proof.
  intros Hs Hok Hd Hc Hts. unfold near_load_data_by_write.
  set (st := load_data_hint (ks_statistics x)).
  rewrite (st_bind_ok _ _ x (fst st) (ks_set_statistics x (snd st))) by (by apply zoom_ok).
  assert (seek_post (E:=mvcc_error) c (version_key raw ts)
    match fst st with
    | NearSeek => cu_near_seek c (Key_append_ts (Key_from_raw raw) ts)
    | Seek => cu_seek c (Key_append_ts (Key_from_raw raw) ts)
    end) as Hpost.
  { pose proof Hc as [Hi Hm _ _]. destruct (fst st); [apply cu_near_seek_spec|apply cu_seek_spec]; try done;
      by rewrite Hm. }
  destruct (default_seek raw keys c ts _ Hc Hts Hpost) as (c' & b & Hr & Hmv & Hres).
  destruct (default_found raw keys c ts c' b Hs Hok Hc Hts Hmv Hres) as [Hc' Hp].
  rewrite (on_default_bind _ _ (ks_set_statistics x (snd st)) c c' b Hd Hr).
  exists (ks_set_default (ks_set_statistics x (snd st)) (Some c')), c'. split; [|by split_and!; [split|..]].
  by apply loaded_value_spec with c'.
Qed.
End Default.

(** ** Scanning a range *)

Section Spec.
Context {Snap I : Type} `{SnapshotIterLaws Snap I} `{!EngineSnapshotLaws Snap}.
Implicit Types x y z : KvScanner Snap I.
Context (s : Snap) (lower upper : option bytes) (g : PointGetter Snap unit).
Hypothesis (lower_ok : bound_ok lower) (upper_ok : bound_ok upper).
Hypothesis (g_snapshot : pg_snapshot g = s) (ts_ok : u64_ok (pg_ts g)).
Hypothesis (wf : wf_write_cf s) (wf_lock : wf_lock_cf s).

Abbreviation cw := (iter_content (I:=I) s lower upper CF_WRITE).
Abbreviation cd := (iter_content (I:=I) s lower upper CF_DEFAULT).
Abbreviation cl := (lock_content (I:=I) s lower upper g).
Abbreviation checks := (checks_locks g).
Abbreviation cfg_fwd := (cfg_ok s g false).
Let cw_wf : wf_versions cw := iter_versions s lower upper wf.

Abbreviation default_for keys := (default_ok lower upper (default_at cd keys)).

Lemma default_for_tail raw keys x : default_for (raw :: keys) x -> default_for keys x.
Proof.
  unfold default_ok. destruct (ks_default x) as [c|]; [|done]. intros [Hi Hm Hc Hb]. split; [done..|].
  intros raw' ts k v Hin. apply Hb. by right.
Qed.

Lemma ensure_default keys x :
  cfg_fwd (ks_cfg x) -> default_for keys x ->
  exists y c, ensure_default_cursor x = (Ok tt, y) /\ kept x y /\ ks_write y = ks_write x
    /\ ks_default y = Some c /\ default_at cd keys c.
Proof.
  apply ensure_default_spec. split; [apply cursor_inv_new, snap_iter_ok|done|done|].
  intros raw ts k v _ _ Hp. unfold cu_pos in Hp. cbn in Hp. by rewrite snap_iter_pos in Hp.
Qed.

Lemma load_value_spec {B} raw keys x ts (f : Value -> st_res (KvScanner Snap I) mvcc_error B) :
  StronglySorted bytes_lt (raw :: keys) -> (forall raw', raw' ∈ raw :: keys -> bytes_ok raw') ->
  in_bounds lower upper raw = true -> u64_ok ts -> cfg_fwd (ks_cfg x) -> default_for (raw :: keys) x ->
  exists y, (_ ← ensure_default_cursor; v ← near_load_data_by_write (Key_from_raw raw) ts; f v) x
      = match value_at s raw ts with Ok v => f v y | Err e => (Err e, y) | Panic => (Panic, y) end
    /\ kept x y /\ ks_write y = ks_write x /\ default_for keys y.
Proof.
  intros Hs Hok Hin Hts Hcfg Hd.
  destruct (ensure_default (raw :: keys) x Hcfg Hd) as (y & c & He & Hk & Hw & Hy & Hc).
  rewrite (st_bind_ok _ _ _ _ _ He).
  destruct (near_load_spec cd raw keys y c ts Hs Hok Hy Hc Hts) as (z & c' & Hl & Hk' & Hcz & Hwz & Hz & Hc').
  exists z. rewrite iter_default in Hl by (done || apply Hok; by left). fold (value_at s raw ts) in Hl.
  split_and!; [|by eapply kept_trans|congruence|unfold default_ok; by rewrite Hz].
  rewrite (st_bind_eq _ _ _ _ _ Hl). by destruct (value_at s raw ts).
Qed.

(** *** The state between keys *)

Abbreviation head := (write_head cw (newest_first cw)).
Abbreviation locks_here := (locks_at (I:=I) s lower upper g).

Record scan_inv (keys : list bytes) x : Prop := {
  si_cfg : cfg_fwd (ks_cfg x);
  si_default : default_for keys x;
  si_ready : forward_at cw (ks_write x);
  si_write : head keys (cu_pos (ks_write x));
  si_lock : locks_here keys x
}.

Lemma round_end fuel x : scan_inv [] x -> read_next_loop LatestKvPolicy (S fuel) x = (Ok None, x).
Proof.
  intros [_ _ _ Hw Hl]. pose proof (lock_pos_head _ _ _ _ _ _ Hl) as Hl'.
  assert (cu_pos (ks_write x) = None) as Hpw by (by inversion Hw).
  assert (lock_pos x = None) as Hpl by (by inversion Hl').
  cbn [read_next_loop]. rewrite gets_bind, (on_write_peek key_of _ x _ (key_of_pos _)).
  by rewrite (st_bind_ok _ _ _ _ _ (lock_key_run x)), Hpw, Hpl.
Qed.

(** *** The records of one key *)

Section OneKey.
Context (raw : bytes) (keys : list bytes) (b : TimeStamp).
Abbreviation key := (Key_from_raw raw).
Abbreviation W := (write_at s key).
Let r := SnapshotReader_new 0 s.
Hypothesis (sorted : StronglySorted bytes_lt (raw :: keys)).
Hypothesis (keys_ok : forall raw', raw' ∈ raw :: keys -> bytes_ok raw').
Hypothesis (in_range : in_bounds lower upper raw = true).
Hypothesis (history : history_from b W) (Hfloor : floor W b (pg_ts g)).

Abbreviation ready x := (forward_at cw (ks_write x)).
Abbreviation wpos x := (cu_pos (ks_write x)).
Abbreviation at_version x := (at_key cw raw (wpos x)).

Lemma here_ok : bytes_ok raw.
Proof. apply keys_ok. by left. Qed.

Lemma cw_here t : version_at cw raw t = W t.
Proof. apply version_here; [done..|apply here_ok|done]. Qed.

Lemma cw_newest ts o : newest (version_at cw raw) ts o -> newest W ts o.
Proof. apply newest_here; [done..|apply here_ok|done]. Qed.

Lemma cw_zero : version_at cw raw 0 = None.
Proof.
  rewrite cw_here. destruct (W 0) as [w|] eqn:E; [|done]. apply (from_pos b W history) in E. lia.
Qed.

(** Everything but the write cursor, the default cursor and statistics. *)
Record within x y : Prop := {
  wi_kept : kept x y;
  wi_ready : ready y;
  wi_default : default_for keys y
}.

Lemma within_trans x y z : kept x y -> within y z -> within x z.
Proof. intros Hk [Hk' ? ?]. split; [by eapply kept_trans|done|done]. Qed.

(** The rest of the round after a move. *)
Definition go_on (fuel : nat) : st_res (KvScanner Snap I) mvcc_error (option Value + unit) :=
  valid ← on_write (peek valid_of);
  if negb valid then mret (inr tt)
  else
    current_key ← on_write (peek cu_key);
    if negb (Key_is_user_key_eq current_key key) then mret (inr tt)
    else handle_write_loop fuel key.

Lemma handle_write_round fuel x t w :
  at_version x t w ->
  handle_write_loop (S fuel) key x
  = (if negb (WriteRef_check_gc_fence_as_latest_version w (sc_ts (ks_cfg x))) then mret (inl None)
     else
       match w_write_type w with
       | WtPut =>
           if sc_omit_value (ks_cfg x) then mret (inl (Some []))
           else
             match w_short_value w with
             | Some value => mret (inl (Some value))
             | None =>
                 _ ← ensure_default_cursor;
                 value ← near_load_data_by_write key (w_start_ts w);
                 mret (inl (Some value))
             end
       | WtDelete => mret (inl None)
       | WtLock | WtRollback =>
           match w_last_change w with
           | LcNotExist => mret (inl None)
           | LcExist l n =>
               if SEEK_BOUND <=? n then
                 _ ← on_write (fun c => cu_seek c (Key_append_ts key l)); go_on fuel
               else _ ← on_write cu_next; go_on fuel
           | LcUnknown => _ ← on_write cu_next; go_on fuel
           end
       end) x.
Proof.
  intros (Ht & Hw & HW & Hp). cbn [handle_write_loop].
  rewrite gets_bind, (on_write_peek cu_value _ x _ (cu_value_ok _ _ _ Hp)).
  by rewrite (lift_bind _ _ x w) by (by rewrite write_roundtrip).
Qed.

(** What the loop leaves when it returns: the cursor on the key, or past it. *)
Definition loop_post x (res : mvcc_res (option Value))
    (out : mvcc_res (option Value + unit) * KvScanner Snap I) : Prop :=
  within x (snd out)
  /\ match res with
     | Ok v => (fst out = Ok (inl v) /\ exists t w, at_version (snd out) t w)
         \/ (v = None /\ fst out = Ok (inr tt) /\ stands cw raw (-1) (wpos (snd out)))
     | Err e => fst out = Err e
     | Panic => False
     end.

Abbreviation result o := (point_result s raw g (fenced (Some (pg_ts g)) o)).

Lemma handle_write_change fuel x t w :
  cfg_fwd (ks_cfg x) -> default_for (raw :: keys) x -> ready x -> at_version x t w -> is_change w = true ->
  loop_post x (result (Some (t, w))) (handle_write_loop (S fuel) key x).
Proof.
  intros Hcfg Hd Hx Hat Hch. rewrite (handle_write_round fuel x t w Hat), (co_ts _ _ _ _ Hcfg), (co_omit _ _ _ _ Hcfg).
  assert (within x x) as Hself by (split; [by split|done|by eapply default_for_tail]).
  assert (forall v, loop_post x (Ok v) (Ok (inl v), x)) as Hret by (intros v; split; [done|]; left; eauto).
  cbn [fenced fence_ok]. destruct (WriteRef_check_gc_fence_as_latest_version w (pg_ts g)); cbn [negb]; [|apply Hret].
  unfold is_change in Hch. destruct (w_write_type w) eqn:Hty; try done; cbn [visible]; rewrite Hty; [|apply Hret].
  cbn [point_result]. destruct (pg_omit_value g); [apply Hret|]. cbn [read_result]. unfold record_value.
  destruct (w_short_value w) as [v|]; [apply Hret|]. pose proof Hat as (Ht & Hw & HW & Hp).
  destruct (load_value_spec raw keys x (w_start_ts w) (fun v => mret (inl (B:=unit) (Some v))))
    as (y & Hl & Hk & Hwr & Hdy); try done; [by apply write_ok_start_ts|].
  rewrite Hl. unfold value_at, version_key.
  assert (within x y) as Hxy by (split; [done|by rewrite Hwr|done]).
  destruct (get_cf s CF_DEFAULT (Key_append_ts key (w_start_ts w))); [|done]. split; [done|]. left.
  split; [done|]. exists t, w. change (at_version y t w). by rewrite Hwr.
Qed.

(** From a record that changes nothing at [t], the loop goes on below [l]. *)
Definition idle_down (l t : TimeStamp) : Prop :=
  l < t /\ forall t' w', l < t' <= t -> W t' = Some w' -> is_change w' = false.

Lemma idle_floor l t : idle_down l t -> floor W b t -> floor W b l.
Proof.
  intros [Hl Hq] [->|[Hb (w & Hw & Hch)]]; [by left|]. right. split; [|eauto].
  destruct (Z_le_gt_dec b l); [done|]. rewrite (Hq b w) in Hch; [done|lia|done].
Qed.

Lemma idle_quiet l t lim : idle_down l t -> limit_quiet W t lim -> limit_quiet W l lim.
Proof.
  intros [Hl Hq] Hlim. destruct lim as [lim|]; [|done]. intros t' w' Ht' Hw'.
  destruct (Z_le_gt_dec t' t); [apply (Hq t'); [lia|done]|apply (Hlim t'); [lia|done]].
Qed.

Lemma idle_change l t o : idle_down l t -> newest_change W l o -> newest_change W t o.
Proof.
  intros [Hl Hq]. destruct o as [[c w]|]; cbn.
  - intros (Hc & Hw & Hch & Hno). split_and!; [lia|done..|]. intros t' w' Ht' Hw'.
    destruct (Z_le_gt_dec t' l); [apply (Hno t'); [lia|done]|apply (Hq t'); [lia|done]].
  - intros Hno t' w' Ht' Hw'. destruct (Z_le_gt_dec t' l); [by apply (Hno t')|apply (Hq t'); [lia|done]].
Qed.

(** The hint of a record that changes nothing jumps over such records only. *)
Lemma hint_idle t w l n :
  W t = Some w -> is_change w = false -> last_change_valid W t (LcExist l n) -> u64_ok l /\ idle_down l t.
Proof.
  intros Hw Hch [Hl Hcase]. split; [done|].
  assert (forall t' w', t' = t -> W t' = Some w' -> is_change w' = false) as Hself by (intros; by simplify_eq).
  destruct Hcase as [[w' (Hle & _ & _ & Hno)]|(Hlt & _ & Hno)]; (split; [lia|]); intros t' wt Ht' Hwt;
    (destruct (decide (t' = t)) as [->|]; [by apply (Hself t)|]); apply (Hno t'); try done; lia.
Qed.

Lemma go_on_eq fuel y :
  go_on fuel y = if on_key raw (wpos y) then handle_write_loop fuel key y else (Ok (inr tt), y).
Proof. exact (check_on_key raw y (mret (inr tt)) (handle_write_loop fuel key)). Qed.

Lemma handle_write_idle fuel x t w :
  cfg_fwd (ks_cfg x) -> at_version x t w -> is_change w = false ->
  WriteRef_check_gc_fence_as_latest_version w (pg_ts g) = true ->
  handle_write_loop (S fuel) key x
  = match w_last_change w with
    | LcNotExist => (Ok (inl None), x)
    | LcExist l n =>
        if SEEK_BOUND <=? n then (_ ← on_write (fun c => cu_seek c (Key_append_ts key l)); go_on fuel) x
        else (_ ← on_write cu_next; go_on fuel) x
    | LcUnknown => (_ ← on_write cu_next; go_on fuel) x
    end.
Proof.
  intros Hcfg Hat Hch Hfe. rewrite (handle_write_round fuel x t w Hat), (co_ts _ _ _ _ Hcfg), Hfe. cbn [negb].
  unfold is_change in Hch. destruct (w_write_type w); try done;
    (destruct (w_last_change w) as [|l n|]; [done|by destruct (SEEK_BOUND <=? n)|done]).
Qed.

(** One round after a move down from a record that changes nothing. *)
Definition round_ok (fuel : nat) : Prop :=
  forall x t w,
  cfg_fwd (ks_cfg x) -> default_for (raw :: keys) x -> ready x -> at_version x t w ->
  floor W b t -> limit_quiet W t (Some (pg_ts g)) -> enough_fuel r raw fuel t ->
  exists o, newest_change W t o /\ loop_post x (result o) (handle_write_loop fuel key x).

Lemma go_on_spec fuel x y t w l :
  round_ok fuel -> cfg_fwd (ks_cfg x) -> default_for (raw :: keys) x -> W t = Some w ->
  floor W b t -> limit_quiet W t (Some (pg_ts g)) -> enough_fuel r raw (S fuel) t ->
  kept_write x y -> ready y -> idle_down l t -> stands cw raw l (wpos y) ->
  exists o, newest_change W t o /\ loop_post x (result o) (go_on fuel y).
Proof.
  intros IH Hcfg Hd HW Hb Hq Hf Hk Hy Hidle Hst. rewrite go_on_eq. pose proof (kept_write_kept _ _ Hk) as Hk'.
  destruct (stands_cases cw raw here_ok _ _ Hst) as [[-> (t1 & w1 & Hat1 & Hn1)]|(-> & Hn1 & Hst')].
  - apply cw_newest in Hn1. destruct (IH y t1 w1) as (o & Ho & [Hwi Hres]); try done.
    + by eapply cfg_ok_kept.
    + by eapply default_ok_write.
    + eapply floor_newest; [done|]. by eapply idle_floor.
    + eapply (limit_quiet_step r raw l); [done|]. by eapply idle_quiet.
    + eapply enough_fuel_mono; [|by eapply (enough_fuel_step r raw fuel t t w)].
      destruct Hn1 as [? _], Hidle as [? _]. lia.
    + exists o. split; [|split; [by eapply within_trans|done]].
      apply (idle_change l t o Hidle). by eapply newest_change_extend.
  - exists None. split; [apply (idle_change l t None Hidle), newest_none_change, cw_newest, Hn1|].
    split; [split; [done|done|]|right; by split_and!].
    eapply default_for_tail. by eapply default_ok_write.
Qed.

Lemma handle_write_loop_spec fuel : round_ok fuel.
Proof.
  induction fuel as [|fuel IH]; intros x t w Hcfg Hd Hx Hat Hb Hq Hf.
  { apply enough_fuel_pos in Hf; [lia|done]. }
  pose proof Hat as (Ht & Hw & HW & Hp). rewrite cw_here in HW.
  assert (newest W t (Some (t, w))) as Hn by (split_and!; [lia|done|intros; lia]).
  destruct (is_change w) eqn:Hch.
  { exists (Some (t, w)). split; [by apply newest_change_here|by apply handle_write_change]. }
  destruct (floor_idle W b t t w history Hb Hn Hch) as [Hbt _].
  pose proof (fence_ok_idle r raw (Some (pg_ts g)) b t w history Hbt HW Hch Hq) as Hfe.
  pose proof (from_last_change b W history t w Hbt HW Hch) as Hlc.
  assert (exists o, newest_change W t o /\ loop_post x (result o) ((_ ← on_write cu_next; go_on fuel) x)) as Hnext.
  { destruct (step_next cw raw cw_wf here_ok x t w Hx Hat) as (y & Hs & Hk & Hy & Hst).
    rewrite (st_bind_ok _ _ _ _ _ Hs). apply (go_on_spec fuel x y t w (t - 1)); try done. split; [lia|].
    intros t' w' Ht' Hw'. assert (t' = t) as -> by lia. by simplify_eq. }
  rewrite (handle_write_idle fuel x t w) by done. destruct (w_last_change w) as [|l n|]; [done| |].
  - destruct (SEEK_BOUND <=? n); [|done]. destruct (hint_idle t w l n HW Hch Hlc) as [Hl Hidle].
    destruct (step_seek cw raw cw_wf here_ok x t w l Hx Hat Hl) as (y & Hs & Hk & Hy & Hst); [apply Hidle|].
    rewrite (st_bind_ok _ _ _ _ _ Hs). by apply (go_on_spec fuel x y t w l).
  - destruct Hlc as (o & Ho & Hv). exists o. split; [by eapply newest_change_below|].
    rewrite fenced_invisible by done.
    split; [split; [by split|done|by eapply default_for_tail]|]. left. split; [done|]. by exists t, w.
Qed.

Definition handled (res : mvcc_res (option Value)) : mvcc_res (HandleRes (Key * Value)) :=
  v ← res; Ok match v with Some v => HrReturn (key, v) | None => HrSkip key end.

(** The key is done with: the write cursor is past it. *)
Definition past x y : Prop := within x y /\ stands cw raw (-1) (wpos y).

Lemma latest_handle_write_spec x t w :
  cfg_fwd (ks_cfg x) -> default_for (raw :: keys) x -> ready x -> at_version x t w ->
  newest W (pg_ts g) (Some (t, w)) ->
  exists o y, newest_change W (pg_ts g) o /\ latest_handle_write key x = (handled (result o), y)
    /\ kept x y /\ (is_ok (result o) = true -> past x y).
Proof.
  intros Hcfg Hd Hx Hat Hn. unfold latest_handle_write. rewrite gets_bind, (co_snapshot _ _ _ _ Hcfg).
  destruct (handle_write_loop_spec (cf_len s CF_WRITE + 2) x t w) as (o & Ho & [Hwi Hres]); try done.
  { by eapply floor_newest. }
  { eapply (limit_quiet_step r raw (pg_ts g)); [done|]. intros t' w' ?. lia. }
  { apply (enough_fuel_start r). }
  exists o. destruct (handle_write_loop (cf_len s CF_WRITE + 2) key x) as [out y] eqn:Hl. cbn [fst snd] in *.
  assert (newest_change W (pg_ts g) o) as Hch by (by eapply newest_change_extend).
  rewrite (st_bind_eq _ _ _ _ _ Hl). destruct (result o) as [v|e|]; [|subst; by exists y; split_and!; [..|apply Hwi|]|done].
  destruct Hres as [[-> (t1 & w1 & Hat1)]|(-> & -> & Hst)]; [|exists y; by split_and!; [..|apply Hwi|]].
  destruct (move_next_on cw raw cw_wf here_ok y t1 w1 (wi_ready _ _ Hwi) Hat1 cw_zero) as (z & Hm & Hk & Hz & Hst).
  rewrite (st_bind_ok _ _ _ _ _ Hm). exists z. pose proof (kept_write_kept _ _ Hk) as Hk'.
  destruct Hwi as [Hxy Hy Hdy]. assert (within x z) as Hxz.
  { split; [by eapply kept_trans|done|by eapply default_ok_write]. }
  split_and!; [done|by destruct v|apply Hxz|done].
Qed.

(** What [read_next] does with a key that has records. *)
Definition write_part (next : st_res (KvScanner Snap I) mvcc_error (option (Key * Value)))
    : st_res (KvScanner Snap I) mvcc_error (option (Key * Value)) :=
  is_current_user_key ← move_write_cursor_to_ts key;
  if (is_current_user_key : bool) then
    handled ← latest_handle_write key;
    match handled with HrReturn output => mret (Some output) | _ => next end
  else next.

Lemma write_part_spec next x t w :
  cfg_fwd (ks_cfg x) -> default_for (raw :: keys) x -> ready x -> at_version x t w ->
  newest W TimeStamp_max (Some (t, w)) ->
  exists y, write_part next x = outcome next key (reference_data g key) y
    /\ kept (if pg_ts g <? t then ks_meet x else x) y
    /\ (is_ok (reference_data g key) = true -> ready y /\ default_for keys y /\ stands cw raw (-1) (wpos y)).
Proof.
  intros Hcfg Hd Hx Hat Hn. unfold write_part.
  destruct (get_write_from_spec r raw wf here_ok b (pg_ts g) (Some (pg_ts g)) history Hfloor ts_ok (quiet_here s raw g))
    as (oc & Hoc & _).
  pose proof (reference_data_eq s raw wf here_ok b g g_snapshot ts_ok history Hfloor (Some (t, w)) oc Hn Hoc) as Href.
  rewrite Href.
  unfold conflict. cbn [newer_than].
  pose proof (move_to_ts_spec cw raw cw_wf here_ok x t w) as Hmove. rewrite (co_ts _ _ _ _ Hcfg), (co_iso _ _ _ _ Hcfg) in Hmove.
  specialize (Hmove ts_ok Hx Hat).
  assert (newest (version_at cw raw) TimeStamp_max (Some (t, w))) as Hncw.
  { destruct Hn as (? & ? & Hno). split_and!; [done|by rewrite cw_here|]. intros t' Ht'. rewrite cw_here. auto. }
  specialize (Hmove Hncw). destruct (bool_decide _ && _)%bool eqn:Hcf.
  { rewrite (st_bind_err _ _ _ _ _ Hmove). exists (ks_meet x). apply andb_true_iff in Hcf as [_ ->]. by split_and!. }
  destruct Hmove as (y & Hm & Hk & Hy & Hst). rewrite (st_bind_ok _ _ _ _ _ Hm).
  set (x1 := if pg_ts g <? t then ks_meet x else x) in *.
  assert (ks_cfg x1 = ks_cfg x) as Hc1 by (unfold x1; by destruct (pg_ts g <? t)).
  assert (default_for (raw :: keys) x1) as Hd1 by (unfold x1; by destruct (pg_ts g <? t)).
  pose proof (default_ok_write _ _ _ _ _ Hk Hd1) as Hdy.
  destruct (stands_cases cw raw here_ok _ _ Hst) as [[-> (t1 & w1 & Hat1 & Hn1)]|(-> & Hn1 & Hst')].
  - destruct (latest_handle_write_spec y t1 w1) as (o & z & Ho & Hl & Hkz & Hz); try done.
    { rewrite (kw_cfg _ _ Hk), Hc1. done. }
    { by apply cw_newest. }
    rewrite (newest_change_unique _ _ _ _ Hoc Ho). exists z. rewrite (st_bind_eq _ _ _ _ _ Hl). split_and!.
    + destruct (result o) as [[v|]|e|]; done.
    + eapply kept_trans; [by apply kept_write_kept|done].
    + intros Hok. destruct (Hz Hok) as [[_ ? ?] ?]. done.
  - rewrite (newest_change_unique _ _ _ _ Hoc (newest_none_change _ _ (cw_newest _ _ Hn1))).
    exists y. split_and!; [done|by apply kept_write_kept|]. intros _. split_and!; [done| |done].
    by eapply default_for_tail.
Qed.

(** *** The lock of one key *)

Hypothesis (covers : forall raw', bytes_ok raw' -> bytes_lt raw raw' -> has_data s lower upper checks raw' -> raw' ∈ keys).

Lemma keys_above raw' : raw' ∈ keys -> bytes_ok raw' /\ bytes_lt raw raw'.
Proof.
  intros Hin. apply StronglySorted_inv in sorted as [_ Hall]. rewrite Forall_forall in Hall.
  split; [apply keys_ok; by right|by apply Hall].
Qed.

Lemma keys_sorted : StronglySorted bytes_lt keys.
Proof. by apply StronglySorted_inv in sorted as [? _]. Qed.

Lemma stands_head o : stands cw raw (-1) o -> head keys o.
Proof.
  destruct 1 as [Hn Hno|t w Ht Hw [Hle _]|raw' t w Hr' Hlt Ht Hw Hn Hn' Hno].
  - apply write_head_none. intros raw' t Hin. destruct (version_at cw raw' t) as [w|] eqn:E; [|done].
    destruct (keys_above raw' Hin). exfalso. by eapply Hno.
  - unfold u64_ok in Ht. lia.
  - pose proof Hn' as (_ & HW & _). apply write_head_at with bytes_lt; try done; [apply keys_sorted| |].
    + apply covers; [done..|]. by eapply iter_version_data.
    + intros raw'' t' Hin Hlt'. destruct (version_at cw raw'' t') as [w'|] eqn:E; [|done].
      destruct (keys_above raw'' Hin). exfalso. by eapply (Hno raw'').
Qed.

Lemma next_lock_head o : least cl (bytes_ltb key) o -> lock_head cl keys o.
Proof.
  destruct o as [[k v]|].
  - intros (Hv & Hlt & Hmin).
    destruct (lock_content_key s lower upper g lower_ok upper_ok wf_lock k v Hv) as (raw' & Hr' & -> & Hdata).
    apply user_key_ltb in Hlt; [|apply here_ok|done].
    apply lock_head_at with bytes_lt; [apply keys_sorted|by apply covers|done|]. intros raw'' Hin Hlt'.
    destruct (cl (Key_from_raw raw'')) as [v'|] eqn:E; [|done]. exfalso. destruct (keys_above raw'' Hin) as [Hr'' Ha].
    specialize (Hmin _ (ex_intro _ v' E) (proj2 (user_key_ltb raw raw'' here_ok Hr'') Ha)). apply (user_key_ltb raw'' raw') in Hlt'; [|done..].
    apply bytes_leb_gt in Hlt'. congruence.
  - intros Hno. apply lock_head_none. intros raw' Hin. destruct (cl (Key_from_raw raw')) as [v|] eqn:E; [|done].
    destruct (keys_above raw' Hin) as [Hr' Ha]. specialize (Hno _ (ex_intro _ v E)).
    pose proof (proj2 (user_key_ltb raw raw' here_ok Hr') Ha). congruence.
Qed.

(** The write cursor leaves the key, if it is on it. *)
Lemma leave_key x :
  ready x -> (exists t w, at_version x t w) \/ head keys (wpos x) ->
  exists y, move_write_cursor_to_next_user_key key x = (Ok tt, y) /\ kept_write x y /\ ready y
    /\ head keys (wpos y).
Proof.
  intros Hx [(t & w & Hat)|Hh].
  - destruct (move_next_on cw raw cw_wf here_ok x t w Hx Hat cw_zero) as (y & Hm & Hk & Hy & Hst).
    exists y. split_and!; [done..|]. by apply stands_head.
  - exists x. split_and!; [|by split|done|done]. apply (move_next_off raw x).
    apply (head_off cw raw here_ok (newest_first cw) keys); [|done]. intros raw' Hin.
    destruct (keys_above raw' Hin). split; [done|]. intros ->. by apply (bytes_lt_irrefl raw).
Qed.

(** The value of a lock that may be read through. *)
Lemma locked_value_run x l :
  cfg_fwd (ks_cfg x) -> default_for (raw :: keys) x ->
  l_lock_type l = LtPut \/ l_lock_type l = LtDelete -> u64_ok (l_ts l) ->
  exists y, (_ ← ensure_default_cursor; val ← load_data_by_lock key l;
             mret match val with Some v => HrReturn (key, v) | None => HrMoveToNext end) x
      = (match reference_locked g key l with
         | Ok (Some v) => Ok (HrReturn (key, v))
         | Ok None => Ok HrMoveToNext
         | Err e => Err e
         | Panic => Panic
         end, y)
    /\ kept x y /\ ks_write y = ks_write x /\ default_for keys y.
Proof.
  intros Hcfg Hd Hty Hts.
  destruct (ensure_default (raw :: keys) x Hcfg Hd) as (y & c & He & Hk & Hw & Hy & Hc).
  rewrite (st_bind_ok _ _ _ _ _ He). assert (cfg_fwd (ks_cfg y)) as Hcy by (by eapply cfg_ok_kept).
  destruct (near_load_spec cd raw keys y c (l_ts l) sorted keys_ok Hy Hc Hts)
    as (z & c' & Hload & Hkz & Hcz & Hwz & Hz & Hc').
  rewrite iter_default in Hload by (done || apply here_ok). fold (value_at s raw (l_ts l)) in Hload.
  destruct (load_by_lock_spec s g g_snapshot false raw y z l Hcy Hty Hload) as (y' & Hor & Hl).
  exists y'. rewrite (st_bind_eq _ _ _ _ _ Hl). split; [by destruct (reference_locked g key l) as [[v|]|e|]|].
  destruct Hor as [-> | ->].
  - split_and!; [done..|]. eapply default_for_tail. unfold default_ok. by rewrite Hy.
  - split_and!; [by eapply kept_trans|congruence|]. unfold default_ok. by rewrite Hz.
Qed.

(** [handle_lock]: the lock does not matter and the records follow, or the key is
    done with. *)
Lemma handle_lock_spec x c v :
  cfg_fwd (ks_cfg x) -> default_for (raw :: keys) x -> ready x ->
  (exists t w, at_version x t w) \/ head keys (wpos x) ->
  ks_is_started x = true -> ks_lock x = Some c -> checks = true -> cursor_inv c -> cu_content c = cl ->
  cu_pos c = Some (key, v) -> cl key = Some v ->
  exists y, ks_met_newer_ts_data y = ks_met_newer_ts_data x
    /\ ((latest_handle_lock key x = (Ok (HrSkip key), y) /\ reference_get g key = reference_data g key
         /\ ks_cfg y = ks_cfg x /\ ks_default y = ks_default x /\ ks_write y = ks_write x /\ locks_here keys y)
        \/ (latest_handle_lock key x
            = (match reference_get g key with
               | Ok (Some v) => Ok (HrReturn (key, v))
               | Ok None => Ok HrMoveToNext
               | Err e => Err e
               | Panic => Panic
               end, y)
            /\ scan_inv keys y)).
Proof.
  intros Hcfg Hd Hx Hwr Hstx Hlx Hch Hci Hcc Hp Hv. unfold latest_handle_lock. rewrite gets_bind.
  rewrite decide_False by (rewrite (co_iso _ _ _ _ Hcfg); intros E; unfold checks_locks in Hch; by rewrite E in Hch).
  rewrite (on_lock_peek cu_value _ x c v Hlx (cu_value_ok _ _ _ Hp)).
  destruct (reference_get_locked s lower upper g g_snapshot wf_lock raw v Hv) as (l & Hparse & Hlok & Href).
  rewrite (lift_bind _ _ x l) by (by rewrite Hparse).
  destruct (cu_next_spec (E:=mvcc_error) c key _ Hci Hp) as (c' & Hn & Hm & Hl). rewrite Hcc in Hl.
  rewrite (on_lock_bind cu_next _ x c c' _ Hlx Hn).
  set (x1 := ks_set_lock x (Some c')).
  assert (locks_here keys x1) as Hl1.
  { split; [done|]. split_and!; [done|apply Hm|by rewrite (mv_content _ _ Hm)|by apply next_lock_head]. }
  rewrite (co_ts _ _ _ _ Hcfg), (co_bypass _ _ _ _ Hcfg), (co_iso _ _ _ _ Hcfg), (co_access _ _ _ _ Hcfg).
  pose proof (conflict_no_panic raw l (pg_ts g) (pg_bypass_locks g) (pg_isolation_level g)) as Hnp.
  destruct (Lock_check_ts_conflict _ _ _ _ _) as [[]|e|] eqn:Hc; [by exists x1; split; [|left]| |done].
  destruct (leave_key x1 Hx Hwr) as (y & Hmv & Hk & Hy & Hh). rewrite (st_bind_ok _ _ _ _ _ Hmv).
  pose proof (kept_write_kept _ _ Hk) as Hk'. assert (cfg_fwd (ks_cfg y)) as Hcy by (by apply (cfg_ok_kept _ _ _ x1)).
  assert (default_for (raw :: keys) y) as Hdy by (by apply (default_ok_write _ _ _ x1)).
  assert (locks_here keys y) as Hly by (by apply (locks_at_kept _ _ _ _ _ x1)).
  rewrite Href. destruct (TsSet_contains (pg_access_locks g) (l_ts l)).
  - destruct (locked_value_run y l Hcy Hdy (conflict_lock_type raw _ _ _ _ _ Hc) (lock_ok_ts _ Hlok))
      as (z & Hload & Hkz & Hwz & Hdz). exists z. split; [by rewrite (kp_met _ _ Hkz), (kp_met _ _ Hk')|]. right.
    split; [done|]. split; [by eapply cfg_ok_kept|done|by rewrite Hwz|by rewrite Hwz|by eapply locks_at_kept].
  - exists y. split; [apply Hk'|]. right. split; [done|].
    split; [done|by eapply default_for_tail|done..].
Qed.

(** *** One round of [read_next] *)

Hypothesis (here_data : has_data s lower upper checks raw).

Lemma lock_part_outcome next (m : Key -> st_res (KvScanner Snap I) mvcc_error (option (Key * Value))) x y res :
  latest_handle_lock key x = (match res with
                              | Ok (Some v) => Ok (HrReturn (key, v))
                              | Ok None => Ok HrMoveToNext
                              | Err e => Err e
                              | Panic => Panic
                              end, y) ->
  (handled ← latest_handle_lock key;
   match handled with
   | HrReturn output => mret (Some output)
   | HrMoveToNext => next
   | HrSkip k => m k
   end) x = outcome next key res y.
Proof. intros Hl. rewrite (st_bind_eq _ _ _ _ _ Hl). by destruct res as [[v|]|e|]. Qed.

(** The start of a round, with the positions of the cursors. *)
Lemma round_keys fuel x has_write has_lock :
  current_key_of (fst <$> wpos x) (fst <$> lock_pos x) = Ok (Some (key, has_write, has_lock)) ->
  read_next_loop LatestKvPolicy (S fuel) x
  = (let next := read_next_loop LatestKvPolicy fuel in
     let records key := if (has_write : bool) then
         is_current_user_key ← move_write_cursor_to_ts key;
         if (is_current_user_key : bool) then
           handled ← latest_handle_write key;
           match handled with HrReturn output => mret (Some output) | _ => next end
         else next
       else next in
     if (has_lock : bool) then
       handled ← (_ ← modify ks_meet; latest_handle_lock key);
       match handled with
       | HrReturn output => mret (Some output)
       | HrMoveToNext => next
       | HrSkip key => records key
       end
     else records key) x.
Proof.
  intros Hcur. cbn [read_next_loop]. rewrite gets_bind, (on_write_peek key_of _ x _ (key_of_pos _)).
  rewrite (st_bind_ok _ _ _ _ _ (lock_key_run x)), (lift_bind _ _ x _ Hcur). by destruct has_lock.
Qed.

Let data_result o : newest W TimeStamp_max o ->
  (o = None -> reference_data g key = Ok None)
  /\ (goes_on (reference_data g key) -> is_ok (reference_data g key) = true)
  := reference_data_result s g g_snapshot ts_ok wf raw b here_ok history Hfloor o.

Lemma records_spec next (has_write : bool) x :
  cfg_fwd (ks_cfg x) -> default_for (raw :: keys) x -> ready x -> locks_here keys x ->
  (if has_write then exists t w, at_version x t w /\ newest W TimeStamp_max (Some (t, w))
   else newest W TimeStamp_max None /\ head keys (wpos x)) ->
  exists o y, newest W TimeStamp_max o
    /\ (if has_write then write_part next else next) x = outcome next key (reference_data g key) y
    /\ ks_met_newer_ts_data y = met_after (newer_than (pg_ts g) o) (ks_met_newer_ts_data x)
    /\ (goes_on (reference_data g key) -> scan_inv keys y).
Proof.
  intros Hcfg Hd Hx Hl Hw. destruct has_write.
  - destruct Hw as (t & w & Hat & Hn). destruct (write_part_spec next x t w Hcfg Hd Hx Hat Hn) as (y & Hp & Hk & Hy).
    exists (Some (t, w)), y. cbn [newer_than]. split_and!; [done..| |].
    + rewrite (kp_met _ _ Hk). destruct (pg_ts g <? t); [apply ks_meet_met|done].
    + intros Hc. destruct (Hy (proj2 (data_result _ Hn) Hc)) as (Hry & Hdy & Hst).
      split; [|done|done|by apply stands_head|].
      * eapply cfg_ok_kept; [done|]. by destruct (pg_ts g <? t).
      * eapply locks_at_kept; [done|]. by destruct (pg_ts g <? t).
  - destruct Hw as [Hn Hh]. exists None, x. rewrite (proj1 (data_result _ Hn)) by done.
    split_and!; [done..|]. intros _. split; [done|by eapply default_for_tail|done..].
Qed.

(** A round on a key with a lock that is looked at. *)
Lemma locked_round next (has_write : bool) records x c v :
  records key = (if has_write then write_part next else next) ->
  cfg_fwd (ks_cfg x) -> default_for (raw :: keys) x -> ready x ->
  ks_is_started x = true -> ks_lock x = Some c -> checks = true -> cursor_inv c -> cu_content c = cl ->
  cu_pos c = Some (key, v) -> cl key = Some v ->
  (if has_write then exists t w, at_version x t w /\ newest W TimeStamp_max (Some (t, w))
   else newest W TimeStamp_max None /\ head keys (wpos x)) ->
  exists o y, newest W TimeStamp_max o
    /\ (handled ← latest_handle_lock key;
        match handled with
        | HrReturn output => mret (Some output)
        | HrMoveToNext => next
        | HrSkip k => records k
        end) x = outcome next key (reference_get g key) y
    /\ (exists n, ks_met_newer_ts_data y = met_after n (ks_met_newer_ts_data x))
    /\ (goes_on (reference_get g key) -> scan_inv keys y).
Proof.
  intros Hrec Hcfg Hd Hx Hstx Hlx Hch Hci Hcc Hp Hv Hw.
  assert ((exists t w, at_version x t w) \/ head keys (wpos x)) as Hwr.
  { destruct has_write; [|by right; apply Hw]. left. destruct Hw as (t & w & Hat & _). eauto. }
  destruct (handle_lock_spec x c v Hcfg Hd Hx Hwr Hstx Hlx Hch Hci Hcc Hp Hv)
    as (y & Hmet & [(Hl & Href & Hcy & Hdy & Hwy & Hly)|[Hl Hy]]).
  - rewrite Href, (st_bind_ok _ _ _ _ _ Hl), Hrec.
    destruct (records_spec next has_write y) as (o & z & Ho & Hz & Hmz & Hiz); rewrite ?Hcy, ?Hwy; try done.
    { unfold default_ok. by rewrite Hdy, Hcy. }
    exists o, z. rewrite Hz. split_and!; [done..| |done]. exists (newer_than (pg_ts g) o). by rewrite <-Hmet.
  - assert (exists o, newest W TimeStamp_max o) as [o Ho].
    { destruct has_write; [destruct Hw as (t & w & _ & ?); eauto|destruct Hw; eauto]. }
    exists o, y. rewrite (lock_part_outcome next _ x y (reference_get g key) Hl). split_and!; [done..| |done].
    exists false. by rewrite Hmet.
Qed.

Lemma round_spec fuel x :
  scan_inv (raw :: keys) x ->
  exists newer y, read_next_loop LatestKvPolicy (S fuel) x
      = outcome (read_next_loop LatestKvPolicy fuel) key (reference_get g key) y
    /\ ks_met_newer_ts_data y = met_after newer (ks_met_newer_ts_data x)
    /\ (newer = true <-> has_newer g key)
    /\ (goes_on (reference_get g key) -> scan_inv keys y).
Proof.
  intros [Hcfg Hd Hx Hwh Hl].
  pose proof (meets_lock s lower upper g lower_ok upper_ok wf_lock raw here_ok in_range) as Hmeets.
  destruct (choose_spec current_key_of bytes_lt (newest_first cw) cw cl raw keys (wpos x) (lock_pos x) forward_chooses
      sorted keys_ok (has_data_here s lower upper g lower_ok upper_ok raw here_ok in_range here_data) Hwh
      (lock_pos_head _ _ _ _ _ x Hl))
    as (has_write & has_lock & Hcur & Hw & Hlk).
  rewrite (round_keys fuel x has_write has_lock Hcur). cbn zeta.
  assert (if has_write then exists t w, at_version x t w /\ newest W TimeStamp_max (Some (t, w))
          else newest W TimeStamp_max None /\ head keys (wpos x)) as Hrec.
  { destruct has_write.
    - destruct Hw as (t & w & Ht & Hw & HW & Hn & Hp). exists t, w. split; [by split_and!|by apply cw_newest].
    - destruct Hw as [Hno Hh]. split; [|done]. intros t _. rewrite <-cw_here. apply Hno. }
  destruct has_lock.
  - destruct Hlk as (v & Hv & Hp). unfold lock_pos in Hp. unfold locks_at in Hl.
    destruct Hl as [Hstx Hl]. destruct (ks_lock x) as [c|] eqn:Hlx; [|done]. destruct Hl as (Hch & Hci & Hcc & _).
    edestruct (locked_round (read_next_loop LatestKvPolicy fuel) has_write
      (fun key => if has_write then
         is_current_user_key ← move_write_cursor_to_ts key;
         if (is_current_user_key : bool) then
           handled ← latest_handle_write key;
           match handled with HrReturn output => mret (Some output) | _ => read_next_loop LatestKvPolicy fuel end
         else read_next_loop LatestKvPolicy fuel
       else read_next_loop LatestKvPolicy fuel) (ks_meet x) c v)
      as (o & y & Ho & Hrun & [n Hmet] & Hinv); try done.
    exists true, y. split_and!; [exact Hrun| | |done].
    + rewrite Hmet, ks_meet_met, met_after_twice. done.
    + pose proof (meets_newer_spec s raw g o g_snapshot Ho) as Hms. by rewrite (Hmeets true) in Hms.
  - destruct Hlk as [Hno Hlh].
    destruct (records_spec (read_next_loop LatestKvPolicy fuel) has_write x) as (o & y & Ho & Hrun & Hmet & Hinv); try done.
    { unfold locks_at, lock_pos in *. destruct Hl as [? Hl]. split; [done|].
      destruct (ks_lock x); [|done]. by destruct Hl as (? & ? & ? & _). }
    rewrite (reference_get_unlocked s lower upper g lower_ok upper_ok g_snapshot raw here_ok in_range Hno).
    exists (newer_than (pg_ts g) o), y. split_and!; [exact Hrun|done| |done].
    pose proof (meets_newer_spec s raw g o g_snapshot Ho) as Hms. by rewrite (Hmeets false) in Hms.
Qed.
End OneKey.

(** *** The keys of the range *)

Section Keys.
Context (all : list bytes).
Hypothesis (all_keys : lists_keys s lower upper checks all).
Hypothesis (all_readable : forall raw, raw ∈ all -> readable g raw).

Lemma pending_round raw keys fuel x :
  pending all (raw :: keys) -> scan_inv (raw :: keys) x ->
  exists newer y, read_next_loop LatestKvPolicy (S fuel) x
      = outcome (read_next_loop LatestKvPolicy fuel) (Key_from_raw raw) (reference_get g (Key_from_raw raw)) y
    /\ ks_met_newer_ts_data y = met_after newer (ks_met_newer_ts_data x)
    /\ (newer = true <-> has_newer g (Key_from_raw raw))
    /\ (goes_on (reference_get g (Key_from_raw raw)) -> scan_inv keys y).
Proof.
  intros Hp Hx. pose proof (pending_in _ _ raw Hp ltac:(by left)) as Hin. destruct all_keys as [Hsort Hk].
  destruct (all_readable raw Hin) as [Hraw (b & Hh & Hb)]. rewrite g_snapshot in Hh, Hb.
  apply (round_spec raw keys b); try done.
  - by apply (pending_sorted _ all).
  - intros raw' Hin'. eapply lists_keys_ok; [done|]. by eapply pending_in.
  - by eapply lists_keys_range.
  - intros raw' Hr' Hlt Hd. apply (pending_covers bytes_lt all bytes_lt_irrefl bytes_lt_trans Hsort raw); try done.
    by apply Hk.
  - by apply Hk in Hin as [_ ?].
Qed.

(** *** The start *)

Lemma first_write o : least cw (fun _ => true) o -> head all o.
Proof.
  destruct all_keys as [Hs Hk]. intros Hl. destruct o as [[k v]|].
  - destruct Hl as (Hv & _ & Hmin).
    destruct (content_version cw cw_wf k v Hv) as (raw & t & w & Hraw & Ht & Hw & -> & -> & HW).
    assert (forall raw' t' w', bytes_ok raw' -> version_at cw raw' t' = Some w' ->
      bytes_lt raw raw' \/ raw = raw' /\ t' <= t) as Hge.
    { intros raw' t' w' Hr' Hw'. destruct (version_at_some cw cw_wf raw' t' w' Hr' Hw') as (Ht' & _ & Hc).
      apply version_key_leb; [done..|]. apply Hmin; [by eexists|done]. }
    apply write_head_at with bytes_lt; try done.
    + apply Hk. split; [done|]. by eapply iter_version_data.
    + split; [by apply u64_le_max|]. split; [done|]. intros t' Ht'.
      destruct (version_at cw raw t') as [w'|] eqn:E; [|done]. exfalso.
      destruct (Hge raw t' w' Hraw E) as [?|[_ ?]]; [by apply (bytes_lt_irrefl raw)|lia].
    + intros raw' t' Hin Hlt. destruct (version_at cw raw' t') as [w'|] eqn:E; [|done]. exfalso.
      apply Hk in Hin as [Hr' _]. destruct (Hge raw' t' w' Hr' E) as [?|[-> _]]; [|by apply (bytes_lt_irrefl raw')].
      by apply (bytes_lt_irrefl raw), (bytes_lt_trans raw raw' raw).
  - apply write_head_none. intros raw t Hin. apply Hk in Hin as [Hraw _].
    destruct (version_at cw raw t) as [w|] eqn:E; [|done].
    destruct (version_at_some cw cw_wf raw t w Hraw E) as (_ & _ & Hc). by specialize (Hl _ (ex_intro _ _ Hc)).
Qed.

Lemma first_lock o : least cl (fun _ => true) o -> lock_head cl all o.
Proof.
  destruct all_keys as [Hs Hk]. intros Hl. destruct o as [[k v]|].
  - destruct Hl as (Hv & _ & Hmin).
    destruct (lock_content_key s lower upper g lower_ok upper_ok wf_lock k v Hv) as (raw & Hraw & -> & Hdata).
    apply lock_head_at with bytes_lt; try done; [by apply Hk|]. intros raw' Hin Hlt. apply Hk in Hin as [Hr' _].
    destruct (cl (Key_from_raw raw')) as [v'|] eqn:E; [|done]. exfalso.
    specialize (Hmin _ (ex_intro _ v' E) eq_refl). apply (user_key_ltb raw' raw) in Hlt; [|done..].
    apply bytes_leb_gt in Hlt. congruence.
  - apply lock_head_none. intros raw _. destruct (cl (Key_from_raw raw)) as [v|] eqn:E; [|done].
    by specialize (Hl _ (ex_intro _ v E)).
Qed.

Context (cfg : ScannerConfig Snap).
Hypothesis (Hcfg : cfg_fwd cfg).
Hypothesis (Hlower : sc_lower_bound cfg = Key_from_raw <$> lower) (Hupper : sc_upper_bound cfg = Key_from_raw <$> upper).
Hypothesis (Hhints : sc_hint_min_ts cfg = None /\ sc_hint_max_ts cfg = None).

Lemma start_new cf :
  exists c', start_cursor (Key_from_raw <$> lower) (new_cursor s lower upper false cf) = Ok (c', cu_valid c')
    /\ moved (new_cursor s lower upper false cf) c'
    /\ least (iter_content s lower upper cf) (fun _ => true) (cu_pos c')
    /\ (is_Some (cu_pos c') -> cu_max_key c' = None).
Proof.
  apply (start_cursor_spec (new_cursor s lower upper false cf));
    [apply cursor_inv_new, snap_iter_ok|done|apply snap_iter_pos|done|].
  intros k [v Hv]. change (iter_content s lower upper cf k = Some v) in Hv. rewrite iter_content_ranged, ranged_some in Hv.
  destruct Hv as [Hin _]. destruct lower as [l|]; [|done]. cbn [fmap option_fmap option_map] in *.
  unfold in_bounds in Hin. by apply andb_true_iff in Hin as [? _].
Qed.

Lemma start_spec :
  exists y, forward_start (ScannerBuilder_build cfg) = (Ok tt, y) /\ scan_inv all y
    /\ ks_met_newer_ts_data y = ks_met_newer_ts_data (ScannerBuilder_build (I:=I) cfg).
Proof.
  destruct (start_new CF_WRITE) as (cw' & Hsw & Hmw & Hlw & Hxw). destruct (start_new CF_LOCK) as (cl' & Hsl & Hml & Hll & _).
  pose proof (build_eq (I:=I) s lower upper g false cfg Hcfg Hlower Hupper Hhints) as Hbuild.
  eexists. split.
  - unfold forward_start. rewrite gets_bind.
    replace (ks_is_started (ScannerBuilder_build (I:=I) cfg)) with false by (by rewrite Hbuild).
    replace (ks_cfg (ScannerBuilder_build (I:=I) cfg)) with cfg by (by rewrite Hbuild). rewrite Hlower.
    by apply (start_run s lower upper g false cfg Hcfg Hlower Hupper Hhints _ cw' cl' Hsw Hsl).
  - rewrite Hbuild. split; [|done]. split; [done|done| |by apply first_write|].
    + cbn [ks_write ks_start KvScanner_new].
      split; [apply Hmw|by rewrite (mv_mode _ _ Hmw)|by rewrite (mv_content _ _ Hmw)|done].
    + split; [done|]. cbn [ks_lock ks_start KvScanner_new]. pose proof (first_lock (cu_pos cl')) as Hfl.
      unfold lock_content in *. destruct (checks_locks g); [|done].
      split_and!; [done|apply Hml|by rewrite (mv_content _ _ Hml)|by apply Hfl].
Qed.

Lemma forward_scan_spec limit step :
  let out := reference_scan (fun raw => reference_get g (Key_from_raw raw)) all limit step 0 in
  exists y : KvScanner Snap I, forward_scan limit step (ScannerBuilder_build cfg) = (fst out, y)
    /\ read_to g all (snd out) (ScannerBuilder_build cfg) y
    /\ forall l, fst out = Ok l -> forall limit' step',
         fst (forward_scan limit' step' y)
         = fst (reference_scan (fun raw => reference_get g (Key_from_raw raw)) (snd out) limit' step' 0).
Proof.
  apply (scan_correct s g all (read_next_loop LatestKvPolicy) scan_inv round_end pending_round).
  - by apply (lists_keys_length s lower upper checks).
  - intros keys x Hx. apply (co_snapshot _ _ _ _ (si_cfg _ _ Hx)).
  - rewrite (build_eq s lower upper g false cfg Hcfg Hlower Hupper Hhints). apply (co_snapshot _ _ _ _ Hcfg).
  - intros keys x Hx. unfold forward_read_next. pose proof (si_lock _ _ Hx) as [Hst _].
    rewrite (st_bind_ok _ forward_start x tt x) by (unfold forward_start; by rewrite gets_bind, Hst).
    by rewrite gets_bind, (co_snapshot _ _ _ _ (si_cfg _ _ Hx)).
  - destruct start_spec as (x & Hs & Hx & Hmet). exists x. split_and!; [done..|].
    unfold forward_read_next. rewrite (st_bind_ok _ _ _ _ _ Hs). pose proof (si_lock _ _ Hx) as [Hst _].
    by rewrite (st_bind_ok _ forward_start x tt x) by (unfold forward_start; by rewrite gets_bind, Hst).
Qed.
End Keys.
End Spec.

Section Props.
Context {Snap I : Type} `{SnapshotIterLaws Snap I} `{!EngineSnapshotLaws Snap}.

(** C14. Forward scans are point reads.  On a well-formed store whose histories
    readers can rely on, a scan of a range with a scanner just built returns,
    without panic and in order, what the point reads of the keys with data in the
    range return (see [reference_scan]): values, sampled as asked for, and locked
    keys, up to the limit, and the first other error ends it.  The scan leaves the
    scanner so that a further scan goes on with the keys not read, and newer data
    is reported exactly if one of the keys read has some. *)
Theorem forward_scan_equivalent (cfg : ScannerConfig Snap) lower upper keys limit step :
  let get raw := reference_get (reference_of cfg) (Key_from_raw raw) in
  let out := reference_scan get keys limit step 0 in
  wf_write_cf (sc_snapshot cfg) -> wf_lock_cf (sc_snapshot cfg) -> u64_ok (sc_ts cfg) ->
  bound_ok lower -> bound_ok upper -> sc_desc cfg = false ->
  sc_lower_bound cfg = Key_from_raw <$> lower -> sc_upper_bound cfg = Key_from_raw <$> upper ->
  sc_hint_min_ts cfg = None /\ sc_hint_max_ts cfg = None ->
  lists_keys (sc_snapshot cfg) lower upper (need_check_locks (sc_isolation_level cfg)) keys ->
  (forall raw, raw ∈ keys -> readable (reference_of cfg) raw) ->
  exists y : KvScanner Snap I, forward_scan limit step (ScannerBuilder_build cfg) = (fst out, y)
    /\ (exists done newer, keys = done ++ snd out
        /\ ks_met_newer_ts_data y
           = met_after newer (if sc_check_has_newer_ts_data cfg then NtNotMetYet else NtUnknown)
        /\ (newer = true <-> exists raw, raw ∈ done /\ has_newer (reference_of cfg) (Key_from_raw raw)))
    /\ forall l, fst out = Ok l -> forall limit' step',
         fst (forward_scan limit' step' y) = fst (reference_scan get (snd out) limit' step' 0).
Proof.
  cbn zeta. intros Hw Hl Hts Hlo Hup Hdesc Hlower Hupper Hhints Hkeys Hread.
  assert (cfg_ok (sc_snapshot cfg) (reference_of cfg) false cfg) as Hcfg by (by split).
  destruct (forward_scan_spec (I:=I) (sc_snapshot cfg) lower upper (reference_of cfg) Hlo Hup eq_refl Hts Hw Hl keys
    Hkeys Hread cfg Hcfg Hlower Hupper Hhints limit step) as (y & Hrun & (d & n & E & Hm & Hnew) & Hy).
  exists y. split_and!; [done| |done]. exists d, n. split_and!; [done| |done]. rewrite Hm. f_equal.
  by rewrite (build_eq (sc_snapshot cfg) lower upper (reference_of cfg) false).
Qed.
End Props.

Definition forward_example : KvScanner Store BTreeEngineIterator := ScannerBuilder_build (scan_config Si false).

(** The first two keys, one of them locked, and then the rest. *)
Lemma forward_scan_equivalent_witness :
  fst (forward_scan 2 0 forward_example)
  = Ok [Ok ([97], [1]); Err (MvKeyIsLocked (Lock_into_lock_info scan_lock [98]))]
  /\ fst (forward_scan 2 0 (snd (forward_scan 2 0 forward_example))) = Ok [Ok ([99], [3])]
  /\ exists y, forward_scan 2 0 forward_example
       = (fst (reference_scan (fun raw => reference_get (reference_of (scan_config Si false)) (Key_from_raw raw))
            scan_keys 2 0 0), y).
Proof.
  split; [vm_compute; reflexivity|]. split; [vm_compute; reflexivity|].
  destruct (forward_scan_equivalent (I:=BTreeEngineIterator) (scan_config Si false) (Some [97]) None scan_keys 2 0)
    as (y & Hy & _).
  - exact (proj1 (proj1 scan_store_spec)).
  - exact (proj2 (proj1 scan_store_spec)).
  - unfold u64_ok. cbn. lia.
  - apply byte_raw_ok. lia.
  - exact Logic.I.
  - reflexivity.
  - reflexivity.
  - reflexivity.
  - split; reflexivity.
  - exact scan_store_keys.
  - intros raw Hin. apply scan_store_readable; [reflexivity|exact Hin].
  - exists y. exact Hy.
Defined.
