(* ===== verification/BackwardScanner.v ===== *)
(** * The backward scanner

    Models [src/storage/mvcc/reader/scanner/backward.rs]: [BackwardKvScanner]
    returns the latest values of the keys of a range from the last key to the
    first.  It meets the versions of a key from the oldest to the newest, and
    after [REVERSE_SEEK_BOUND] of them seeks the version to read.

    The theorem [backward_scan_equivalent]: under the isolation levels [Si] and
    [Rc] a scan returns, in reverse order, what the point reads of the keys in
    the range return.  Under [RcCheckTs] it does not ([backward_misses_conflict]):
    a newer record is only reported if it is met back_within the bound. *)

From Stdlib Require Import ZArith Lia.
From stdpp Require Import base numbers list gmap sorting.
From S2P Require Import Prelude Number Bytes Types Write Lock ConcurrencyManager Engine Cursor Reader Versions.
From S2P Require Import AbsState ReaderSpec PointGetter Scanner ScannerSpec ForwardScanner.

Open Scope Z_scope.

Definition REVERSE_SEEK_BOUND : Z := 16.

(** The user key the cursors stand at, and whether it has a record and a lock. *)
Definition backward_key_of (w_key l_key : option bytes) : mvcc_res (option (Key * bool * bool)) :=
  match w_key, l_key with
  | None, None => Ok None
  | None, Some lk => Ok (Some (lk, false, true))
  | Some wk, None => user_key ← map_err MvCodec (Key_truncate_ts_for wk); Ok (Some (user_key, true, false))
  | Some wk, Some lk =>
      write_user_key ← map_err MvCodec (Key_truncate_ts_for wk);
      Ok (Some match bytes_cmp write_user_key lk with
               | Lt => (lk, false, true)
               | Gt => (write_user_key, true, false)
               | Eq => (write_user_key, true, true)
               end)
  end.

(** How the first steps of [reverse_get] end: with the version to return, and
    whether another key was met, or with more versions to come. *)
Inductive ReverseStep : Type :=
| RsDone (last_version : option Write) (met_prev_user_key : bool)
| RsMore (last_version : option Write) (last_checked_commit_ts : TimeStamp).

Section Backward.
Context {Snap I : Type} `{EngineSnapshot Snap} `{EngineIterator I} `{SnapshotIter Snap I}.
Abbreviation SC := (st_res (KvScanner Snap I) mvcc_error).

(** ** Moving the write cursor *)

(** The steps of [move_write_cursor_to_prev_user_key]; the result says that the
    cursor has left the key. *)
Fixpoint prev_user_key_loop (n : nat) (first : bool) (current_user_key : Key) : SC bool :=
  match n with
  | O => mret false
  | S n =>
      _ ← (if first then mret true else on_write cu_prev);
      valid ← on_write (peek valid_of);
      if negb valid then mret true
      else
        current_key ← on_write (peek cu_key);
        if negb (Key_is_user_key_eq current_key current_user_key) then mret true
        else prev_user_key_loop n false current_user_key
  end.

Definition move_write_cursor_to_prev_user_key (current_user_key : Key) : SC unit :=
  left ← prev_user_key_loop (Z.to_nat SEEK_BOUND) true current_user_key;
  if (left : bool) then mret tt
  else
    _ ← modify (fun s => ks_set_statistics s (over_seek_bound (ks_statistics s)));
    _ ← on_write (fun c => cu_internal_seek_for_prev c current_user_key);
    mret tt.

(** ** The version to read *)

Definition reverse_load_data_by_write (write : Write) (user_key : Key) : SC Value :=
  s ← gets id;
  if sc_omit_value (ks_cfg s) then mret []
  else
    match w_short_value write with
    | Some value => mret value
    | None =>
        _ ← ensure_default_cursor;
        near_reverse_load_data_by_write user_key (w_start_ts write)
    end.

Definition handle_last_version (some_write : option Write) (user_key : Key) : SC (option Value) :=
  match some_write with
  | None => mret None
  | Some write =>
      s ← gets id;
      if negb (WriteRef_check_gc_fence_as_latest_version write (sc_ts (ks_cfg s))) then mret None
      else
        match w_write_type write with
        | WtPut => value ← reverse_load_data_by_write write user_key; mret (Some value)
        | WtDelete => mret None
        | _ => lift Panic
        end
  end.

(** The first loop of [reverse_get], with [prev] steps. *)
Fixpoint reverse_loop (n : nat) (first : bool) (user_key : Key) (ts : TimeStamp)
    (last_version : option Write) (last_checked_commit_ts : TimeStamp) : SC ReverseStep :=
  match n with
  | O => mret (RsMore last_version last_checked_commit_ts)
  | S n =>
      valid ← (if first then mret true else _ ← on_write cu_prev; on_write (peek valid_of));
      if negb valid then mret (RsDone last_version false)
      else
        current_key ← on_write (peek cu_key);
        commit_ts ← lift (map_err MvCodec (Key_decode_ts_from current_key));
        if negb (Key_is_user_key_eq current_key user_key) then mret (RsDone last_version true)
        else if ts <? commit_ts then
          _ ← modify ks_meet;
          s ← gets id;
          if decide (sc_isolation_level (ks_cfg s) = RcCheckTs)
          then throw (MvWriteConflict (sc_ts (ks_cfg s)) 0 commit_ts current_key [] WcRcCheckTs)
          else mret (RsDone last_version false)
        else
          value ← on_write (peek cu_value);
          write ← lift (map_err mvcc_error_from (WriteRef_parse value));
          reverse_loop n false user_key ts
            match w_write_type write with
            | WtPut | WtDelete => Some write
            | WtLock | WtRollback => last_version
            end commit_ts
  end.

(** The look for a newer version when the last one checked is at [ts]; the
    result says that another key was met. *)
Definition reverse_check_newer (user_key : Key) : SC bool :=
  s ← gets id;
  if decide (ks_met_newer_ts_data s = NtNotMetYet) then
    _ ← on_write cu_prev;
    valid ← on_write (peek valid_of);
    if negb valid then mret false
    else
      current_key ← on_write (peek cu_key);
      if Key_is_user_key_eq current_key user_key then _ ← modify ks_meet; mret false
      else mret true
  else mret false.

(** The second loop of [reverse_get], from the version that was sought. *)
Fixpoint reverse_find (fuel : nat) (user_key : Key) (last_version : option Write)
    (last_checked_commit_ts : TimeStamp) : SC (option Value) :=
  match fuel with
  | O => lift Panic
  | S fuel =>
      current_key ← on_write (peek cu_key);
      current_ts ← lift (map_err MvCodec (Key_decode_ts_from current_key));
      if current_ts <=? last_checked_commit_ts then handle_last_version last_version user_key
      else
        value ← on_write (peek cu_value);
        write ← lift (map_err mvcc_error_from (WriteRef_parse value));
        s ← gets id;
        if negb (WriteRef_check_gc_fence_as_latest_version write (sc_ts (ks_cfg s))) then mret None
        else
          match w_write_type write with
          | WtPut => value ← reverse_load_data_by_write write user_key; mret (Some value)
          | WtDelete => mret None
          | WtLock | WtRollback =>
              _ ← on_write cu_next;
              valid ← on_write (peek valid_of);
              _ ← lift (assert_ valid);
              reverse_find fuel user_key last_version last_checked_commit_ts
          end
  end.

Definition reverse_seek_newest (user_key : Key) (ts : TimeStamp) : SC bool :=
  s ← gets id;
  if decide (ks_met_newer_ts_data s = NtNotMetYet) then
    _ ← on_write (fun c => cu_internal_seek c (Key_append_ts user_key TimeStamp_max));
    valid ← on_write (peek valid_of);
    _ ← lift (assert_ valid);
    current_key ← on_write (peek cu_key);
    key_ts ← lift (map_err MvCodec (Key_decode_ts_from current_key));
    _ ← (if ts <? key_ts then modify ks_meet else mret tt);
    mret true
  else mret false.

Definition reverse_seek_version (user_key : Key) (ts : TimeStamp) (use_near_seek : bool) : SC unit :=
  let seek_key := Key_append_ts user_key ts in
  _ ← (if use_near_seek then
         _ ← modify (fun s => if near_seek_over (E:=mvcc_error) (ks_write s) seek_key
                              then ks_set_statistics s (over_seek_bound (ks_statistics s)) else s);
         on_write (fun c => cu_near_seek c seek_key)
       else on_write (fun c => cu_internal_seek c seek_key));
  valid ← on_write (peek valid_of);
  lift (assert_ valid).

(** [reverse_get], with the flag [met_prev_user_key]; an error is kept until the
    cursor has left the key. *)
Definition reverse_get (user_key : Key) (ts : TimeStamp) : SC (mvcc_res (option Value) * bool) :=
  valid ← on_write (peek valid_of);
  _ ← lift (assert_ valid);
  step ← catch (reverse_loop (Z.to_nat REVERSE_SEEK_BOUND) true user_key ts None 0);
  match step with
  | Ok (RsDone last_version met_prev_user_key) =>
      result ← catch (handle_last_version last_version user_key);
      mret (result, met_prev_user_key)
  | Ok (RsMore last_version last_checked_commit_ts) =>
      if last_checked_commit_ts =? ts then
        met_prev_user_key ← reverse_check_newer user_key;
        result ← catch (handle_last_version last_version user_key);
        mret (result, met_prev_user_key)
      else
        result ← catch (
          _ ← lift (assert_ (last_checked_commit_ts <? ts));
          use_near_seek ← reverse_seek_newest user_key ts;
          _ ← reverse_seek_version user_key ts use_near_seek;
          s ← gets id;
          reverse_find (cf_len (sc_snapshot (ks_cfg s)) CF_WRITE + 2) user_key last_version last_checked_commit_ts);
        mret (result, false)
  | Err e => mret (Err e, false)
  | Panic => lift Panic
  end.

(** ** The scan *)

Definition backward_start_cursor (upper_bound : option Key) (c : Cursor I) : mvcc_res (Cursor I * bool) :=
  match upper_bound with Some k => cu_reverse_seek c k | None => cu_seek_to_last c end.

Definition backward_start : SC unit :=
  s ← gets id;
  if ks_is_started s then mret tt
  else
    _ ← on_write (backward_start_cursor (sc_upper_bound (ks_cfg s)));
    _ ← (match ks_lock s with
         | Some _ => on_lock (backward_start_cursor (sc_upper_bound (ks_cfg s)))
         | None => mret true
         end);
    modify ks_start.

(** The lock of a key: the result so far, and whether the records are still to be
    read or left. *)
Definition backward_check_lock (current_user_key : Key) (has_write : bool)
    : SC (mvcc_res (option Value) * bool) :=
  lock_value ← on_lock (peek cu_value);
  lock ← lift (map_err mvcc_error_from (Lock_parse lock_value));
  _ ← modify ks_meet;
  s ← gets id;
  match Lock_check_ts_conflict lock current_user_key (sc_ts (ks_cfg s)) (sc_bypass_locks (ks_cfg s))
          (sc_isolation_level (ks_cfg s)) with
  | Ok _ => mret (Ok None, has_write)
  | Err e =>
      if TsSet_contains (sc_access_locks (ks_cfg s)) (l_ts lock) then
        _ ← ensure_default_cursor;
        result ← catch (load_data_by_lock current_user_key lock);
        _ ← (if has_write then move_write_cursor_to_prev_user_key current_user_key else mret tt);
        mret (result, false)
      else mret (Err (mvcc_error_from e), has_write)
  | Panic => lift Panic
  end.

(** The records of a key, which the write cursor leaves. *)
Definition backward_read_records (current_user_key : Key) (ts : TimeStamp) (result : mvcc_res (option Value))
    : SC (mvcc_res (option Value)) :=
  '(result, met_prev_user_key) ← (match result with
                                   | Ok _ => reverse_get current_user_key ts
                                   | _ => mret (result, false)
                                   end);
  _ ← (if (met_prev_user_key : bool) then mret tt else move_write_cursor_to_prev_user_key current_user_key);
  mret result.

Fixpoint backward_loop (fuel : nat) : SC (option (Key * Value)) :=
  match fuel with
  | O => lift Panic
  | S fuel =>
      s ← gets id;
      w_key ← on_write (peek key_of);
      l_key ← (match ks_lock s with Some _ => on_lock (peek key_of) | None => mret None end);
      current ← lift (backward_key_of w_key l_key);
      match current with
      | None => mret None
      | Some (current_user_key, has_write, has_lock) =>
          '(result, has_write) ← (if (has_lock : bool) then
                                    checked ← (if need_check_locks (sc_isolation_level (ks_cfg s))
                                               then backward_check_lock current_user_key has_write
                                               else mret (Ok None, has_write));
                                    _ ← (match ks_lock s with Some _ => on_lock cu_prev | None => mret true end);
                                    mret checked
                                  else mret (Ok None, has_write));
          result ← (if (has_write : bool) then backward_read_records current_user_key (sc_ts (ks_cfg s)) result
                    else mret result);
          value ← lift result;
          match value with
          | Some v => mret (Some (current_user_key, v))
          | None => backward_loop fuel
          end
      end
  end.

Definition backward_read_next : SC (option (Key * Value)) :=
  _ ← backward_start;
  s ← gets id;
  backward_loop (scan_fuel (sc_snapshot (ks_cfg s))).

(** [Scanner.scan] of the backward scanner *)
Definition backward_scan : nat -> nat -> SC (list (mvcc_res KvPair)) := Scanner_scan backward_read_next.
End Backward.

(** ** Where the cursors stand *)

(** The oldest version above [ts]. *)
Definition oldest (W : TimeStamp -> option Write) (ts t : TimeStamp) (w : Write) : Prop :=
  ts < t /\ W t = Some w /\ forall t', ts < t' < t -> W t' = None.

(** The oldest version of a key comes first. *)
Definition oldest_first (content : Key -> option Value) (raw : bytes) (t : TimeStamp) (w : Write) : Prop :=
  oldest (version_at content raw) (-1) t w.

Definition bytes_gt (a b : bytes) : Prop := bytes_lt b a.

Lemma bytes_gt_irrefl a : ~ bytes_gt a a.
Proof. apply bytes_lt_irrefl. Qed.

Lemma bytes_gt_trans a b c : bytes_gt a b -> bytes_gt b c -> bytes_gt a c.
Proof. unfold bytes_gt. intros ? ?. by eapply bytes_lt_trans. Qed.

Lemma backward_chooses : chooses bytes_gt backward_key_of.
Proof.
  split.
  - done.
  - intros a t. cbn [backward_key_of]. by rewrite Key_truncate_version.
  - intros a t. cbn [backward_key_of]. rewrite Key_truncate_version. cbn [map_err mbind res_bind].
    by rewrite bytes_cmp_refl.
  - intros a b t Ha Hb Hlt. cbn [backward_key_of]. rewrite Key_truncate_version. cbn [map_err mbind res_bind].
    by rewrite (bytes_cmp_antisym (Key_from_raw b)), user_key_order, Hlt.
  - intros a b t Ha Hb Hlt. cbn [backward_key_of]. rewrite Key_truncate_version. cbn [map_err mbind res_bind].
    by rewrite user_key_order, Hlt.
Qed.

Section Moves.
Context (content : Key -> option Value) (raw : bytes).
Hypothesis (wf : wf_versions content) (raw_ok : bytes_ok raw).
Abbreviation W := (version_at content).

(** The position of a cursor just before the version [ts] of [raw]: the oldest
    newer version, or an earlier key, and then there is none. *)
Inductive backs (ts : TimeStamp) : option Entry -> Prop :=
| backs_end :
    (forall t, ts < t -> W raw t = None) ->
    (forall raw' t w, bytes_ok raw' -> bytes_lt raw' raw -> W raw' t = Some w -> False) ->
    backs ts None
| backs_version t w :
    u64_ok t -> write_ok w -> oldest (W raw) ts t w ->
    backs ts (Some (version_key raw t, WriteRef_to_bytes w))
| backs_earlier raw' t w :
    bytes_ok raw' -> bytes_lt raw' raw -> u64_ok t -> write_ok w ->
    (forall t, ts < t -> W raw t = None) -> oldest_first content raw' t w ->
    (forall raw'' t w, bytes_ok raw'' -> bytes_lt raw'' raw -> bytes_lt raw' raw'' -> W raw'' t = Some w -> False) ->
    backs ts (Some (version_key raw' t, WriteRef_to_bytes w)).

Lemma version_u64 raw' t w : bytes_ok raw' -> W raw' t = Some w -> u64_ok t /\ is_Some (content (version_key raw' t)).
Proof. intros Hr (Ht & _ & Hc)%version_at_some; eauto. Qed.

Lemma greatest_backs ts (p : Key -> bool) o :
  (forall raw' t, bytes_ok raw' -> u64_ok t ->
    (p (version_key raw' t) = true <-> bytes_lt raw' raw \/ raw' = raw /\ ts < t)) ->
  greatest content p o -> backs ts o.
Proof.
  intros Hpos Hl. destruct o as [[k v]|].
  - destruct Hl as (Hc & Hle & Hmax).
    destruct (content_version content wf k v Hc) as (raw' & t & w & Hraw' & Ht & Hw & -> & -> & HW).
    assert (forall raw'' t' w', bytes_ok raw'' -> W raw'' t' = Some w' -> bytes_lt raw'' raw \/ raw'' = raw /\ ts < t' ->
      bytes_lt raw'' raw' \/ raw'' = raw' /\ t <= t') as Hge.
    { intros raw'' t' w' Hr'' Hw' Hord. destruct (version_u64 raw'' t' w' Hr'' Hw') as [Ht' Hs].
      apply (version_key_leb raw'' raw' t' t); [done..|]. apply Hmax; [done|]. by apply Hpos. }
    apply Hpos in Hle as [Hlt|[-> Hlt]]; [| |done..].
    + apply backs_earlier; try done.
      * intros t' Ht'. destruct (W raw t') as [w'|] eqn:E; [|done]. exfalso.
        destruct (Hge raw t' w' raw_ok E ltac:(by right)) as [?|[-> _]]; [|by apply (bytes_lt_irrefl raw')].
        by apply (bytes_lt_irrefl raw), (bytes_lt_trans raw raw' raw).
      * split; [unfold u64_ok in Ht; lia|]. split; [done|]. intros t' Ht'.
        destruct (W raw' t') as [w'|] eqn:E; [|done]. exfalso.
        destruct (Hge raw' t' w' Hraw' E ltac:(by left)) as [?|[_ ?]]; [by apply (bytes_lt_irrefl raw')|lia].
      * intros raw'' t' w' Hr'' Hlt' Hlt'' E.
        destruct (Hge raw'' t' w' Hr'' E ltac:(by left)) as [?|[-> _]]; [|by apply (bytes_lt_irrefl raw')].
        by apply (bytes_lt_irrefl raw'), (bytes_lt_trans raw' raw'' raw').
    + apply backs_version; try done. split; [done|]. split; [done|]. intros t' Ht'.
      destruct (W raw t') as [w'|] eqn:E; [|done]. exfalso.
      destruct (Hge raw t' w' raw_ok E) as [?|[_ ?]]; [right; split; [done|lia]|by apply (bytes_lt_irrefl raw)|lia].
  - apply backs_end.
    + intros t Ht. destruct (W raw t) as [w|] eqn:E; [|done]. exfalso. destruct (version_u64 raw t w raw_ok E) as [Hu Hs].
      specialize (Hl _ Hs). apply not_true_iff_false in Hl. apply Hl, Hpos; auto.
    + intros raw' t w Hraw' Hlt E. destruct (version_u64 raw' t w Hraw' E) as [Hu Hs].
      specialize (Hl _ Hs). apply not_true_iff_false in Hl. apply Hl, Hpos; auto.
Qed.

Lemma no_version_above t : TimeStamp_max < t -> W raw t = None.
Proof.
  intros Ht. destruct (W raw t) as [w|] eqn:E; [|done]. destruct (version_u64 raw t w raw_ok E) as [Hu _].
  pose proof (u64_le_max _ Hu). lia.
Qed.

(** The cursor is on the key, or past it. *)
Lemma backs_cases ts o :
  backs ts o ->
  (on_key raw o = true /\ exists t w, at_key content raw o t w /\ oldest (W raw) ts t w)
  \/ (on_key raw o = false /\ (forall t, ts < t -> W raw t = None) /\ backs TimeStamp_max o).
Proof.
  destruct 1 as [Hn Hno|t w Ht Hw Hn|raw' t w Hr' Hlt Ht Hw Hn Hn' Hno].
  - right. split_and!; [done..|]. apply backs_end; [apply no_version_above|done].
  - left. cbn [on_key]. rewrite user_key_eq_version, bool_decide_eq_true_2 by done. split; [done|].
    exists t, w. split; [|done]. pose proof Hn as (_ & HW & _). done.
  - right. cbn [on_key]. rewrite user_key_eq_version, bool_decide_eq_false_2; [|by intros ->; apply (bytes_lt_irrefl raw)|done..].
    split_and!; [done..|]. apply backs_earlier; try done. apply no_version_above.
Qed.
End Moves.

(** ** The moves back_within a key *)

Section Key.
Context {Snap I : Type} `{EngineSnapshot Snap} `{EngineIteratorLaws I} `{SnapshotIter Snap I}.
Context (content : Key -> option Value) (raw : bytes).
Hypothesis (wf : wf_versions content) (raw_ok : bytes_ok raw).
Implicit Types x y z : KvScanner Snap I.
Implicit Types c : Cursor I.
Abbreviation key := (Key_from_raw raw).
Abbreviation W := (version_at content raw).

(** The cursors of the backward scanner move both ways. *)
Record mixed_at c : Prop := {
  ma_inv : cursor_inv c;
  ma_mode : cu_scan_mode c = SmMixed;
  ma_content : cu_content c = content
}.

Lemma mixed_moved c c' : mixed_at c -> moved c c' -> mixed_at c'.
Proof. intros [Hi Hm Hc] [Hi' Hc' Hm']. split; [done|by rewrite Hm'|by rewrite Hc']. Qed.

Abbreviation ready x := (mixed_at (ks_write x)).
Abbreviation wpos x := (cu_pos (ks_write x)).
Abbreviation at_here := (at_key content raw).

Lemma step_prev x t w :
  ready x -> at_here (wpos x) t w ->
  exists y, on_write cu_prev x = (Ok (cu_valid (ks_write y)), y) /\ kept_write x y /\ ready y
    /\ backs content raw t (wpos y).
Proof.
  intros Hx (Ht & Hw & HW & Hp).
  destruct (cu_prev_spec (E:=mvcc_error) (ks_write x) _ _ (ma_inv _ Hx) Hp) as (c' & Hn & Hm & Hg).
  exists (ks_set_write x c'). split_and!; [by apply zoom_ok|by split|by eapply mixed_moved|].
  rewrite (ma_content _ Hx) in Hg. apply (greatest_backs content raw wf raw_ok t _ _) in Hg; [done|].
  intros raw' t' Hr' Ht'. rewrite version_key_ltb by done. split; intros [?|[-> ?]]; auto.
Qed.

Lemma back_step_next x t w :
  ready x -> at_here (wpos x) t w ->
  exists y, on_write cu_next x = (Ok (cu_valid (ks_write y)), y) /\ kept_write x y /\ ready y
    /\ stands content raw (t - 1) (wpos y).
Proof.
  intros Hx (Ht & Hw & HW & Hp).
  destruct (cu_next_spec (E:=mvcc_error) (ks_write x) _ _ (ma_inv _ Hx) Hp) as (c' & Hn & Hm & Hl).
  exists (ks_set_write x c'). split_and!; [by apply zoom_ok|by split|by eapply mixed_moved|].
  rewrite (ma_content _ Hx) in Hl. apply (least_stands content wf raw (t - 1) _ _ raw_ok) in Hl; [done|].
  intros raw' t' Hr' Ht'. rewrite version_key_ltb by done. split; intros [?|[-> ?]]; auto; right; split; done || lia.
Qed.

Lemma least_version ts o :
  u64_ok ts -> least content (bytes_leb (version_key raw ts)) o -> stands content raw ts o.
Proof.
  intros Hts. apply (least_stands content wf raw ts _ _ raw_ok). intros raw' t' Hr' Ht'. by rewrite version_key_leb.
Qed.

Lemma back_step_seek x ts :
  ready x -> u64_ok ts ->
  exists y, on_write (fun c => cu_internal_seek c (Key_append_ts key ts)) x = (Ok (cu_valid (ks_write y)), y)
    /\ kept_write x y /\ ready y /\ stands content raw ts (wpos y).
Proof.
  intros Hx Hts.
  destruct (cu_internal_seek_spec (E:=mvcc_error) (ks_write x) (version_key raw ts) (ma_inv _ Hx)) as (c' & Hn & Hm & Hl).
  exists (ks_set_write x c'). split_and!; [by apply zoom_ok|by split|by eapply mixed_moved|].
  rewrite (ma_content _ Hx) in Hl. by apply least_version.
Qed.

(** A near seek to a version finds it where there is one. *)
Lemma step_near_seek x ts t w :
  ready x -> u64_ok ts -> W t = Some w -> t <= ts ->
  exists y, on_write (fun c => cu_near_seek c (Key_append_ts key ts)) x = (Ok true, y)
    /\ kept_write x y /\ ready y /\ stands content raw ts (wpos y).
Proof.
  intros Hx Hts HW Hle. destruct (version_u64 content wf raw t w raw_ok HW) as [Ht Hs].
  destruct (cu_near_seek_spec (E:=mvcc_error) (ks_write x) (version_key raw ts) (ma_inv _ Hx)) as (c' & b & Hn & Hm & Hres).
  { by rewrite (ma_mode _ Hx). }
  rewrite (ma_content _ Hx) in Hres. destruct b.
  - exists (ks_set_write x c'). split_and!; [by apply zoom_ok|by split|by eapply mixed_moved|].
    apply least_version; [done|]. destruct Hres as [_ Hst]. unfold seek_stop in Hst.
    rewrite (ma_mode _ Hx), (ma_content _ Hx), (bool_decide_eq_false_2 (SmMixed = SmForward)) in Hst by done.
    by destruct (wpos x) as [[]|].
  - specialize (Hres _ Hs). apply not_true_iff_false in Hres. destruct Hres.
    apply version_key_leb; [done..|]. right. split; [done|lia].
Qed.

(** *** To the previous key *)

Lemma prev_user_key_loop_spec n : forall x t w,
  ready x -> at_here (wpos x) t w ->
  exists left y, prev_user_key_loop n false key x = (Ok left, y) /\ kept_write x y /\ ready y
    /\ if (left : bool) then backs content raw TimeStamp_max (wpos y) else is_Some (wpos y).
Proof.
  induction n as [|n IH]; intros x t w Hx Hat.
  { exists false, x. split_and!; [done|by split|done|]. destruct Hat as (_ & _ & _ & ->). eauto. }
  cbn [prev_user_key_loop]. destruct (step_prev x t w Hx Hat) as (y & Hstep & Hk & Hy & Hst).
  rewrite (st_bind_ok _ _ _ _ _ Hstep), check_on_key.
  destruct (backs_cases _ _ wf raw_ok _ _ Hst) as [[-> (t1 & w1 & Hat1 & _)]|(-> & _ & Hst')].
  - destruct (IH y t1 w1 Hy Hat1) as (left & z & Hl & Hk' & Hz & Hres).
    exists left, z. split_and!; [done|by eapply kept_write_trans|done|done].
  - by exists true, y.
Qed.

Lemma prev_user_key_first n x :
  prev_user_key_loop (S n) true key x
  = if on_key raw (wpos x) then prev_user_key_loop n false key x else (Ok true, x).
Proof.
  cbn [prev_user_key_loop]. rewrite (st_bind_ok _ (mret true) x true x eq_refl). apply check_on_key.
Qed.

(** A cursor that is not on the key stays; one that is leaves it. *)
Lemma move_prev_off x :
  on_key raw (wpos x) = false -> move_write_cursor_to_prev_user_key key x = (Ok tt, x).
Proof.
  intros Hoff. unfold move_write_cursor_to_prev_user_key.
  assert (prev_user_key_loop (Z.to_nat SEEK_BOUND) true key x = (Ok true, x)) as Hl.
  { change (Z.to_nat SEEK_BOUND) with 8%nat. by rewrite prev_user_key_first, Hoff. }
  by rewrite (st_bind_ok _ _ x true x Hl).
Qed.

Lemma move_prev_on x t w :
  ready x -> at_here (wpos x) t w ->
  exists y, move_write_cursor_to_prev_user_key key x = (Ok tt, y) /\ kept_write x y /\ ready y
    /\ backs content raw TimeStamp_max (wpos y).
Proof.
  intros Hx Hat. unfold move_write_cursor_to_prev_user_key.
  assert (exists left y, prev_user_key_loop (Z.to_nat SEEK_BOUND) true key x = (Ok left, y) /\ kept_write x y
    /\ ready y /\ if (left : bool) then backs content raw TimeStamp_max (wpos y)
                   else is_Some (wpos y)) as (left & y & Hl & Hk & Hy & Hres).
  { change (Z.to_nat SEEK_BOUND) with 8%nat. rewrite prev_user_key_first, (at_key_on _ _ raw_ok _ _ _ Hat).
    by apply prev_user_key_loop_spec with t w. }
  rewrite (st_bind_ok _ _ x left y Hl). destruct left; [by exists y|]. rewrite modify_bind.
  destruct (cu_internal_seek_for_prev_spec (E:=mvcc_error) (ks_write y) key (ma_inv _ Hy)) as (c' & Hs & Hm & Hg).
  rewrite (on_write_bind (fun c => cu_internal_seek_for_prev c key) _ (ks_set_statistics y _) c' _ Hs).
  eexists. split; [done|]. split; [by destruct Hk; split|]. split; [by eapply mixed_moved|].
  rewrite (ma_content _ Hy) in Hg. apply (greatest_backs content raw wf raw_ok TimeStamp_max _ _) in Hg; [done|].
  intros raw' t' Hr' Ht'. unfold bytes_leb. rewrite bytes_cmp_antisym, user_key_cmp by done.
  unfold bytes_lt. rewrite (bytes_cmp_antisym raw raw').
  pose proof (u64_le_max _ Ht'). destruct (bytes_cmp raw raw'); cbn; split; intros Hd; try done; try (by left);
    destruct Hd as [?|[_ ?]]; done || lia.
Qed.
End Key.

(** ** Values in the default column family *)

Lemma near_reverse_load_spec {Snap I} `{EngineIteratorLaws I} content (x : KvScanner Snap I) c raw ts :
  ks_default x = Some c -> mixed_at content c ->
  exists y c', near_reverse_load_data_by_write (Key_from_raw raw) ts x
      = (match content (version_key raw ts) with
         | Some v => Ok v
         | None => Err (default_not_found_error (version_key raw ts))
         end, y)
    /\ kept x y /\ ks_cfg y = ks_cfg x /\ ks_write y = ks_write x /\ ks_default y = Some c' /\ mixed_at content c'.
Proof.
  intros Hd Hc. unfold near_reverse_load_data_by_write. set (st := load_data_hint (ks_statistics x)).
  rewrite (st_bind_ok _ _ x (fst st) (ks_set_statistics x (snd st))) by (by apply zoom_ok).
  pose proof Hc as [Hi Hm Hcc].
  assert (seek_prev_post (E:=mvcc_error) c (version_key raw ts)
    match fst st with
    | NearSeek => cu_near_seek_for_prev c (Key_append_ts (Key_from_raw raw) ts)
    | Seek => cu_seek_for_prev c (Key_append_ts (Key_from_raw raw) ts)
    end) as (c' & b & Hr & Hmv & Hres).
  { destruct (fst st); [apply cu_near_seek_for_prev_spec|apply cu_seek_for_prev_spec]; try done; by rewrite Hm. }
  rewrite (on_default_bind _ _ (ks_set_statistics x (snd st)) c c' b Hd Hr).
  assert (mixed_at content c') as Hc' by (by eapply mixed_moved).
  exists (ks_set_default (ks_set_statistics x (snd st)) (Some c')), c'. split; [|by split_and!; [split|..]].
  apply loaded_value_spec with c'; [done|]. intros v. split.
  - intros Hp. apply (cu_pos_in c') in Hp; [|apply Hc']. by rewrite (ma_content _ _ Hc') in Hp.
  - rewrite Hcc in Hres. intros Hv. destruct b.
    + destruct Hres as [_ Hst]. unfold seek_prev_stop in Hst.
      rewrite Hm, Hcc, (bool_decide_eq_false_2 (SmMixed = SmBackward)) in Hst by done. cbn [andb] in Hst.
      apply (greatest_unique content (fun k' => bytes_leb k' (version_key raw ts))); [|by apply greatest_here].
      by destruct (cu_pos c) as [[]|].
    + specialize (Hres _ (ex_intro _ v Hv)). apply not_true_iff_false in Hres. destruct Hres.
      apply bytes_leb_lt_or_eq. by right.
Qed.

(** The first move of a cursor, to the end of its range. *)
Lemma greatest_all content (p : Key -> bool) o :
  (forall k, is_Some (content k) -> p k = true) -> greatest content p o -> greatest content (fun _ => true) o.
Proof.
  intros Hp. destruct o as [[k v]|]; cbn.
  - intros (Hv & _ & Hmax). split_and!; [done..|]. intros k' Hk' _. apply Hmax; auto.
  - intros Hno k Hk. by rewrite <-(Hno k Hk), Hp.
Qed.

Lemma backward_start_cursor_spec {I} `{EngineIteratorLaws I} (c : Cursor I) upper :
  cursor_inv c -> cu_scan_mode c = SmMixed -> cu_min_key c = None ->
  (forall k, is_Some (cu_content c k) -> match upper with Some u => bytes_ltb k u = true | None => True end) ->
  exists c', backward_start_cursor upper c = Ok (c', cu_valid c') /\ moved c c'
    /\ greatest (cu_content c) (fun _ => true) (cu_pos c').
Proof.
  intros Hi Hm Hmin Hb. destruct upper as [u|]; cbn [backward_start_cursor]; [|by apply cu_seek_to_last_spec].
  destruct (cu_internal_seek_for_prev_spec (E:=mvcc_error) c u Hi) as (c1 & Hs & Hmv & Hg).
  unfold cu_reverse_seek, cu_seek_for_prev, past_min. rewrite Hm, Hmin.
  rewrite (bool_decide_eq_false_2 (SmMixed = SmForward)), (bool_decide_eq_false_2 (SmMixed = SmBackward)) by done.
  cbn [negb assert_ mbind res_bind andb]. rewrite Hs. cbn [mbind res_bind].
  assert (greatest (cu_content c) (fun _ => true) (cu_pos c1)) as Hg1.
  { eapply greatest_all; [|done]. intros k Hk. by apply bytes_ltb_leb, Hb. }
  destruct (cu_pos c1) as [[k v]|] eqn:Hp.
  - rewrite (cu_valid_true _ _ Hp). cbn [mbind res_bind]. rewrite (cu_key_ok _ _ _ Hp). cbn [mbind res_bind].
    replace (bytes_eqb k u) with false.
    + exists c1. by rewrite (cu_valid_true _ _ Hp), Hp.
    + symmetry. apply not_true_iff_false. rewrite bytes_eqb_eq. intros ->. destruct Hg1 as (Hv & _).
      specialize (Hb u (ex_intro _ v Hv)). by rewrite bytes_ltb_irrefl in Hb.
  - rewrite (cu_valid_false _ Hp), (ci_prefix c1 (mv_inv _ _ Hmv)). exists (cu_set_min_key c1 u).
    split_and!; [by rewrite (cu_valid_false (cu_set_min_key c1 u) Hp)| |by rewrite <-Hp in Hg1].
    eapply moved_trans; [done|]. apply moved_min; [apply Hmv|]. by rewrite (mv_content _ _ Hmv).
Qed.

(** ** Scanning a range *)

Section Spec.
Context {Snap I : Type} `{SnapshotIterLaws Snap I} `{!EngineSnapshotLaws Snap}.
Implicit Types x y z : KvScanner Snap I.
Context (s : Snap) (lower upper : option bytes) (g : PointGetter Snap unit).
Hypothesis (lower_ok : bound_ok lower) (upper_ok : bound_ok upper).
Hypothesis (g_snapshot : pg_snapshot g = s) (ts_ok : u64_ok (pg_ts g)).
Hypothesis (wf : wf_write_cf s) (wf_lock : wf_lock_cf s).
Hypothesis (iso_ok : pg_isolation_level g <> RcCheckTs).

Abbreviation cw := (iter_content (I:=I) s lower upper CF_WRITE).
Abbreviation cd := (iter_content (I:=I) s lower upper CF_DEFAULT).
Abbreviation cl := (lock_content (I:=I) s lower upper g).
Abbreviation checks := (checks_locks g).
Abbreviation cfg_bwd := (cfg_ok s g true).
Abbreviation default_here := (default_ok (I:=I) lower upper (mixed_at cd)).
Abbreviation head := (write_head cw (oldest_first cw)).
Abbreviation locks_here := (locks_at (I:=I) s lower upper g).
Let cw_wf : wf_versions cw := iter_versions s lower upper wf.

Record back_scan_inv (keys : list bytes) x : Prop := {
  back_si_cfg : cfg_bwd (ks_cfg x);
  back_si_default : default_here x;
  back_si_ready : mixed_at cw (ks_write x);
  back_si_write : head keys (cu_pos (ks_write x));
  back_si_lock : locks_here keys x
}.

Lemma back_ensure_default x :
  cfg_bwd (ks_cfg x) -> default_here x ->
  exists y c, ensure_default_cursor x = (Ok tt, y) /\ kept x y /\ ks_write y = ks_write x
    /\ ks_default y = Some c /\ mixed_at cd c.
Proof. apply ensure_default_spec. split; [apply cursor_inv_new, snap_iter_ok|done|done]. Qed.

Lemma back_round_end fuel x : back_scan_inv [] x -> backward_loop (S fuel) x = (Ok None, x).
Proof.
  intros [_ _ _ Hw Hl]. pose proof (lock_pos_head _ _ _ _ _ _ Hl) as Hl'.
  assert (cu_pos (ks_write x) = None) as Hpw by (by inversion Hw).
  assert (lock_pos x = None) as Hpl by (by inversion Hl').
  cbn [backward_loop]. rewrite gets_bind, (on_write_peek key_of _ x _ (key_of_pos _)).
  by rewrite (st_bind_ok _ _ _ _ _ (lock_key_run x)), Hpw, Hpl.
Qed.

(** *** The records of one key *)

Section OneKey.
Context (raw : bytes) (b : TimeStamp).
Abbreviation key := (Key_from_raw raw).
Abbreviation W := (write_at s key).
Abbreviation ts := (pg_ts g).
Let r := SnapshotReader_new 0 s.
Hypothesis (raw_ok : bytes_ok raw) (in_range : in_bounds lower upper raw = true).
Hypothesis (history : history_from b W) (Hfloor : floor W b ts).

Abbreviation ready x := (mixed_at cw (ks_write x)).
Abbreviation wpos x := (cu_pos (ks_write x)).
Abbreviation at_version x := (at_key cw raw (wpos x)).
Abbreviation left_key x := (backs cw raw TimeStamp_max (wpos x)).

Lemma back_cw_here t : version_at cw raw t = W t.
Proof. by apply version_here. Qed.

Lemma back_cw_newest n o : newest (version_at cw raw) n o -> newest W n o.
Proof. by apply newest_here. Qed.

(** Within a key: the rest of the scanner, and the default cursor. *)
Record back_within x y : Prop := {
  back_wi_kept : kept x y;
  back_wi_write : ks_write y = ks_write x;
  back_wi_default : default_here y
}.

Abbreviation result o := (point_result s raw g (fenced (Some ts) o)).

Lemma reverse_load_spec x w c :
  cfg_bwd (ks_cfg x) -> default_here x -> write_ok w ->
  exists y, (value ← reverse_load_data_by_write w key; mret (Some value)) x
      = (point_result s raw g (Some (w, c)), y) /\ back_within x y.
Proof.
  intros Hcfg Hd Hw. assert (back_within x x) as Hself by (by split; [split|..]).
  assert (exists y, reverse_load_data_by_write w key x
    = (if pg_omit_value g then Ok []
       else match record_value s key w with
            | Some v => Ok v
            | None => Err (default_not_found_error (Key_append_ts key (w_start_ts w)))
            end, y) /\ back_within x y) as (y & Hl & Hwi).
  { unfold reverse_load_data_by_write, record_value. rewrite gets_bind, (co_omit _ _ _ _ Hcfg).
    destruct (pg_omit_value g); [by exists x|]. destruct (w_short_value w) as [v|]; [by exists x|].
    destruct (back_ensure_default x Hcfg Hd) as (y & c' & He & Hk & Hwr & Hy & Hc).
    rewrite (st_bind_ok _ _ _ _ _ He).
    destruct (near_reverse_load_spec cd y c' raw (w_start_ts w) Hy Hc) as (z & c2 & Hl & Hkz & _ & Hwz & Hz & Hc2).
    rewrite iter_default in Hl by (done || by apply write_ok_start_ts). exists z. split; [exact Hl|].
    split; [by eapply kept_trans|congruence|]. unfold default_ok. by rewrite Hz. }
  exists y. split; [|done]. rewrite (st_bind_eq _ _ _ _ _ Hl). cbn [point_result read_result].
  destruct (pg_omit_value g); [done|]. by destruct (record_value s key w).
Qed.

Lemma handle_last_spec x n o :
  cfg_bwd (ks_cfg x) -> default_here x -> newest_change W n o ->
  exists y, handle_last_version (snd <$> o) key x = (result o, y) /\ back_within x y.
Proof.
  intros Hcfg Hd Ho. assert (back_within x x) as Hself by (by split; [split|..]).
  destruct o as [[t w]|]; [|by exists x]. destruct Ho as (_ & Hw & Hch & _).
  destruct (write_at_some r raw wf t w Hw) as (_ & Hwok & _).
  cbn [fmap option_fmap option_map snd handle_last_version]. rewrite gets_bind, (co_ts _ _ _ _ Hcfg).
  cbn [fenced fence_ok]. destruct (WriteRef_check_gc_fence_as_latest_version w ts); cbn [negb]; [|by exists x].
  unfold is_change in Hch. cbn [visible]. destruct (w_write_type w); try done; [|by exists x].
  by apply reverse_load_spec.
Qed.

(** There is newer data. *)
Definition newer_data (newer : bool) : Prop := newer = true <-> exists t w, ts < t /\ W t = Some w.

Abbreviation meet_if newer x := (if (newer : bool) then ks_meet x else x).

(** A change at the version, or the one before. *)
Definition last_change (t : TimeStamp) (w : Write) (o : option (TimeStamp * Write)) : option (TimeStamp * Write) :=
  if is_change w then Some (t, w) else o.

Lemma last_change_newest lc t w o :
  W t = Some w -> lc < t -> (forall t', lc < t' < t -> W t' = None) -> newest_change W lc o ->
  newest_change W t (last_change t w o).
Proof.
  intros Hw Hlt Hno Ho. unfold last_change. destruct (is_change w) eqn:Hch.
  - split_and!; [lia|done..|]. intros t' w' Ht'. lia.
  - destruct o as [[c wc]|].
    + destruct Ho as (Hc & Hwc & Hchc & Hq). split_and!; [lia|done..|]. intros t' w' Ht' Hw'.
      destruct (Z_le_gt_dec t' lc); [apply (Hq t'); [lia|done]|]. destruct (decide (t' = t)) as [->|]; [congruence|].
      rewrite Hno in Hw' by lia. done.
    + intros t' w' Ht' Hw'. destruct (Z_le_gt_dec t' lc); [by apply (Ho t')|].
      destruct (decide (t' = t)) as [->|]; [congruence|]. rewrite Hno in Hw' by lia. done.
Qed.

Lemma newest_change_up lc n o :
  lc <= n -> (forall t, lc < t <= n -> W t = None) -> newest_change W lc o -> newest_change W n o.
Proof.
  intros Hle Hno. destruct o as [[c w]|]; cbn.
  - intros (Hc & Hw & Hch & Hq). split_and!; [lia|done..|]. intros t w' Ht Hw'.
    destruct (Z_le_gt_dec t lc); [apply (Hq t); [lia|done]|]. rewrite Hno in Hw' by lia. done.
  - intros Hq t w' Ht Hw'. destruct (Z_le_gt_dec t lc); [by apply (Hq t)|]. rewrite Hno in Hw' by lia. done.
Qed.

(** One round of the first loop on the key. *)
Lemma reverse_round n x t w o lc :
  cfg_bwd (ks_cfg x) -> at_version x t w ->
  reverse_loop (S n) true key ts (snd <$> o) lc x
  = if ts <? t then (Ok (RsDone (snd <$> o) false), ks_meet x)
    else reverse_loop n false key ts (snd <$> last_change t w o) t x.
Proof.
  intros Hcfg Hat. pose proof (at_key_on _ _ raw_ok _ _ _ Hat) as Hon. destruct Hat as (Ht & Hw & HW & Hp).
  cbn [reverse_loop]. rewrite (st_bind_ok _ (mret true) x true x eq_refl). cbn [negb].
  rewrite (on_write_peek cu_key _ x _ (cu_key_ok _ _ _ Hp)).
  rewrite (lift_bind _ _ x t) by (unfold version_key; by rewrite Key_decode_append).
  rewrite Hp in Hon. cbn [on_key] in Hon. rewrite Hon. cbn [negb]. destruct (ts <? t).
  - rewrite modify_bind, gets_bind. cbn [ks_cfg ks_meet]. rewrite (co_iso _ _ _ _ Hcfg). by rewrite decide_False.
  - rewrite (on_write_peek cu_value _ x _ (cu_value_ok _ _ _ Hp)).
    rewrite (lift_bind _ _ x w) by (by rewrite write_roundtrip). unfold last_change, is_change.
    by destruct (w_write_type w).
Qed.

(** A step back, which may leave the key. *)
Lemma reverse_step n x t w last lc :
  ready x -> at_version x t w ->
  exists y, kept_write x y /\ ready y
    /\ ((reverse_loop (S n) false key ts last lc x = reverse_loop (S n) true key ts last lc y
          /\ exists t1 w1, at_version y t1 w1 /\ oldest W t t1 w1)
        \/ (exists met_prev, reverse_loop (S n) false key ts last lc x = (Ok (RsDone last met_prev), y)
             /\ left_key y /\ forall t', t < t' -> W t' = None)).
Proof.
  intros Hx Hat. destruct (step_prev cw raw cw_wf raw_ok x t w Hx Hat) as (y & Hs & Hk & Hy & Hst).
  exists y. split; [done|]. split; [done|]. cbn [reverse_loop].
  rewrite (st_bind_ok _ (_ ← on_write cu_prev; on_write (peek valid_of)) x (cu_valid (ks_write y)) y).
  2:{ rewrite (st_bind_ok _ _ _ _ _ Hs). unfold on_write, zoom. cbn. by destruct y. }
  destruct (backs_cases cw raw cw_wf raw_ok _ _ Hst) as [[_ (t1 & w1 & Hat1 & Hold)]|(Hoff & Hno & Hleft)].
  - left. rewrite (at_key_valid _ _ _ _ _ Hat1). split; [done|]. exists t1, w1. split; [done|].
    unfold oldest in *. by setoid_rewrite back_cw_here in Hold.
  - right. setoid_rewrite back_cw_here in Hno. destruct (wpos y) as [[k v]|] eqn:Hp.
    + exists true. split_and!; [|done..]. rewrite (cu_valid_true _ _ Hp). cbn [negb].
      rewrite (on_write_peek cu_key _ y _ (cu_key_ok _ _ _ Hp)).
      assert (exists raw' t', u64_ok t' /\ k = version_key raw' t') as (raw' & t' & Ht' & ->)
        by (inversion Hleft; subst; by eexists _, _).
      rewrite (lift_bind _ _ y t') by (unfold version_key; by rewrite Key_decode_append).
      cbn [on_key] in Hoff. by rewrite Hoff.
    + exists false. by rewrite cu_valid_false.
Qed.

(** Where [reverse_get] leaves the cursor. *)
Definition leaves x (met_prev : bool) : Prop :=
  ((exists t w, at_version x t w) \/ left_key x) /\ (met_prev = true -> left_key x).

Definition step_ok x (step : ReverseStep) y : Prop :=
  match step with
  | RsDone last met_prev => exists o newer, last = snd <$> o /\ newest_change W ts o /\ newer_data newer
      /\ kept_write (meet_if newer x) y /\ leaves y met_prev
  | RsMore last lc => exists o w, last = snd <$> o /\ lc <= ts /\ newest_change W lc o /\ at_version y lc w
      /\ kept_write x y
  end.

Lemma reverse_loop_spec n : forall x t w o lc lc',
  cfg_bwd (ks_cfg x) -> ready x -> at_version x t w ->
  lc < t -> lc <= ts -> (forall t', lc < t' < t -> W t' = None) -> newest_change W lc o ->
  exists step y, reverse_loop (S n) true key ts (snd <$> o) lc' x = (Ok step, y) /\ ready y /\ step_ok x step y.
Proof.
  induction n as [|n IH]; intros x t w o lc lc' Hcfg Hx Hat Hlt Hle Hno Ho;
    pose proof Hat as (_ & _ & HW & _); rewrite back_cw_here in HW;
    pose proof (last_change_newest lc t w o HW Hlt Hno Ho) as Ho1;
    rewrite (reverse_round _ x t w o lc' Hcfg Hat); destruct (Z.ltb_spec ts t) as [Hgt|Hge].
  1,3: exists (RsDone (snd <$> o) false), (ks_meet x); split_and!; [done..|]; exists o, true; split_and!; [done| |
    by split; [eauto|done]|by split|split; [left; by exists t, w|done]];
    apply (newest_change_up lc); [done| |done]; intros t' Ht'; apply Hno; lia.
  - cbn [reverse_loop]. exists (RsMore (snd <$> last_change t w o) t), x. split_and!; [done..|].
    exists (last_change t w o), w. by split_and!; [..|split].
  - destruct (reverse_step n x t w (snd <$> last_change t w o) t Hx Hat)
      as (y & Hk & Hy & [[-> (t1 & w1 & Hat1 & Hlt1 & HW1 & Hno1)]|(mp & -> & Hleft & Hnone)]).
    + destruct (IH y t1 w1 (last_change t w o) t t) as (step & z & Hrun & Hz & Hok); try done.
      { by rewrite (kw_cfg _ _ Hk). }
      exists step, z. split_and!; [done..|]. destruct step as [last mp|last lc1]; cbn [step_ok] in *.
      * destruct Hok as (o' & newer & -> & Ho' & Hnew & Hkz & Hleave). exists o', newer. split_and!; [done..| |done].
        eapply kept_write_trans; [|done]. destruct newer; [|done].
        destruct Hk as [? Hm ? ? ?]. split; try done. cbn. by rewrite Hm.
      * destruct Hok as (o' & w' & -> & Hle' & Ho' & Hat' & Hkz). exists o', w'.
        split_and!; [done..|]. by eapply kept_write_trans.
    + exists (RsDone (snd <$> last_change t w o) mp), y. split_and!; [done..|].
      exists (last_change t w o), false. split_and!; [done| | |done|by split; [right|]].
      * apply (newest_change_up t); [done| |done]. intros t' Ht'. apply Hnone. lia.
      * split; [done|]. intros (t' & w' & Ht' & Hw'). rewrite Hnone in Hw' by lia. done.
Qed.

Lemma newest_newer : exists o, newest W TimeStamp_max o /\ newer_data (newer_than ts o).
Proof.
  assert (u64_ok TimeStamp_max) as Hmax by (unfold u64_ok, TimeStamp_max, u64_max; lia).
  destruct (seek_write_spec r raw wf raw_ok TimeStamp_max Hmax) as (o & _ & Hn & _).
  change (newest W TimeStamp_max o) in Hn. exists o. split; [done|]. unfold newer_data, newer_than. destruct o as [[t w]|].
  - destruct Hn as (_ & Hw & Hno). rewrite Z.ltb_lt. split; [intros ?; by exists t, w|].
    intros (t' & w' & Hlt & Hw'). destruct (Z_le_gt_dec t' t); [lia|].
    pose proof (u64_le_max _ (write_at_range r raw t' w' Hw')). by rewrite Hno in Hw' by lia.
  - split; [done|]. intros (t' & w' & _ & Hw').
    by rewrite (Hn t' (u64_le_max _ (write_at_range r raw t' w' Hw'))) in Hw'.
Qed.

Lemma newer_exists : exists newer, newer_data newer.
Proof. destruct newest_newer as (o & _ & Ho). eauto. Qed.

Lemma has_newer_here (has_lock newer : bool) :
  (if has_lock then is_Some (cl key) else cl key = None) -> newer_data newer ->
  (has_lock || newer)%bool = true <-> has_newer g key.
Proof.
  intros Hlk Hnew. destruct newest_newer as (o & Hn & Ho).
  unfold newer_data in *. assert (newer = newer_than ts o) as -> by (apply eq_true_iff_eq; by rewrite Hnew, Ho).
  rewrite <-(meets_newer_spec s raw g o g_snapshot Hn).
  by rewrite (meets_lock s lower upper g lower_ok upper_ok wf_lock raw raw_ok in_range has_lock).
Qed.

Lemma meet_if_idle newer x : ks_met_newer_ts_data x <> NtNotMetYet -> meet_if newer x = x.
Proof. intros Hm. destruct newer; [by apply ks_meet_idle|done]. Qed.

Lemma kept_write_meet x y : kept_write x y -> kept_write (ks_meet x) (ks_meet y).
Proof. intros [? Hm ? ? ?]. split; try done. cbn. by rewrite Hm. Qed.

(** The last version checked is at the timestamp. *)
Lemma reverse_check_newer_spec x w :
  ready x -> at_version x ts w ->
  exists met_prev y newer, reverse_check_newer key x = (Ok met_prev, y) /\ ready y /\ leaves y met_prev
    /\ newer_data newer /\ kept_write (meet_if newer x) y.
Proof.
  intros Hx Hat. unfold reverse_check_newer. rewrite gets_bind.
  destruct (decide (ks_met_newer_ts_data x = NtNotMetYet)) as [Hm|Hm].
  2:{ destruct newer_exists as [newer Hnew]. exists false, x, newer. rewrite meet_if_idle by done.
      split_and!; [done..| |done|by split]. split; [|done]. left. by exists ts, w. }
  destruct (step_prev cw raw cw_wf raw_ok x ts w Hx Hat) as (y & Hs & Hk & Hy & Hst).
  rewrite (st_bind_ok _ _ _ _ _ Hs), (on_write_peek valid_of _ y _ (valid_of_ok _)).
  destruct (backs_cases cw raw cw_wf raw_ok _ _ Hst) as [[Hon (t1 & w1 & Hat1 & Hlt & HW1 & _)]|(Hoff & Hno & Hleft)].
  - rewrite (at_key_valid _ _ _ _ _ Hat1). cbn [negb]. pose proof Hat1 as (_ & _ & _ & Hp).
    rewrite (on_write_peek cu_key _ y _ (cu_key_ok _ _ _ Hp)). rewrite Hp in Hon. cbn [on_key] in Hon. rewrite Hon.
    exists false, (ks_meet y), true. split_and!; [done..| | |by apply kept_write_meet].
    + split; [|done]. left. by exists t1, w1.
    + split; [|done]. intros _. exists t1, w1. by rewrite <-back_cw_here.
  - assert (newer_data false) as Hnew.
    { split; [done|]. intros (t' & w' & Ht' & Hw'). by rewrite <-back_cw_here, Hno in Hw'. }
    destruct (wpos y) as [[k v]|] eqn:Hp.
    + rewrite (cu_valid_true _ _ Hp). cbn [negb]. rewrite (on_write_peek cu_key _ y _ (cu_key_ok _ _ _ Hp)).
      cbn [on_key] in Hoff. rewrite Hoff. exists true, y, false. split_and!; [done..| |done|done]. split; [right|]; by rewrite Hp.
    + rewrite cu_valid_false by done. exists false, y, false. split_and!; [done..| |done|done].
      split; [right|done]. by rewrite Hp.
Qed.

(** *** The version that is sought *)

Lemma quiet_above lc t w : W t = Some w -> is_change w = false -> limit_quiet W t (Some ts) ->
  (forall t', lc < t' < t -> W t' = None) -> limit_quiet W lc (Some ts).
Proof.
  intros Hw Hch Hq Hno t' w' Ht' Hw'. destruct (Z.lt_trichotomy t' t) as [?|[->|?]].
  - by rewrite Hno in Hw' by lia.
  - congruence.
  - by apply (Hq t'); [lia|].
Qed.

Lemma newest_change_quiet n o : n <= ts -> limit_quiet W n (Some ts) -> newest_change W n o -> newest_change W ts o.
Proof.
  intros Hle Hq. destruct o as [[c w]|]; cbn.
  - intros (Hc & Hw & Hch & Hno). split_and!; [lia|done..|]. intros t w' Ht Hw'.
    destruct (Z_le_gt_dec t n); [apply (Hno t); [lia|done]|apply (Hq t); [lia|done]].
  - intros Hno t w' Ht Hw'. destruct (Z_le_gt_dec t n); [by apply (Hno t)|apply (Hq t); [lia|done]].
Qed.

Lemma idle_above t w : W t = Some w -> is_change w = false -> limit_quiet W t (Some ts) -> b < t.
Proof.
  intros Hw Hch Hq. destruct Hfloor as [->|[Hle (wb & Hwb & Hchb)]]; [by apply (from_pos 0 W history t w)|].
  destruct (Z.lt_trichotomy b t) as [?|[->|?]]; [done|congruence|]. by rewrite (Hq b wb) in Hchb.
Qed.

(** One round of the second loop. *)
Lemma reverse_find_round fuel x t w last lc :
  cfg_bwd (ks_cfg x) -> at_version x t w ->
  reverse_find (S fuel) key last lc x
  = (if t <=? lc then handle_last_version last key
     else if negb (WriteRef_check_gc_fence_as_latest_version w ts) then mret None
     else match w_write_type w with
          | WtPut => value ← reverse_load_data_by_write w key; mret (Some value)
          | WtDelete => mret None
          | WtLock | WtRollback =>
              _ ← on_write cu_next;
              valid ← on_write (peek valid_of);
              _ ← lift (assert_ valid);
              reverse_find fuel key last lc
          end) x.
Proof.
  intros Hcfg (Ht & Hw & HW & Hp). cbn [reverse_find]. rewrite (on_write_peek cu_key _ x _ (cu_key_ok _ _ _ Hp)).
  rewrite (lift_bind _ _ x t) by (unfold version_key; by rewrite Key_decode_append). destruct (t <=? lc); [done|].
  rewrite (on_write_peek cu_value _ x _ (cu_value_ok _ _ _ Hp)).
  rewrite (lift_bind _ _ x w) by (by rewrite write_roundtrip). by rewrite gets_bind, (co_ts _ _ _ _ Hcfg).
Qed.

(** A version at or below [n], where there is one. *)
Lemma stands_on x n lc wl :
  W lc = Some wl -> lc <= n -> stands cw raw n (wpos x) ->
  exists t w, at_version x t w /\ newest W n (Some (t, w)) /\ lc <= t.
Proof.
  intros Hl Hle Hst. destruct (stands_cases cw raw raw_ok _ _ Hst) as [[_ (t & w & Hat & Hn)]|(_ & Hn & _)].
  - apply back_cw_newest in Hn. exists t, w. split_and!; [done..|]. destruct Hn as (_ & _ & Hno).
    destruct (Z_le_gt_dec lc t); [done|]. by rewrite Hno in Hl by lia.
  - apply back_cw_newest in Hn. by rewrite (Hn lc) in Hl.
Qed.

Lemma reverse_find_spec fuel : forall x t w o lc wl,
  cfg_bwd (ks_cfg x) -> default_here x -> ready x -> at_version x t w ->
  W lc = Some wl -> lc <= t <= ts -> newest_change W lc o -> limit_quiet W t (Some ts) -> enough_fuel r raw fuel t ->
  exists oc y, newest_change W ts oc /\ reverse_find fuel key (snd <$> o) lc x = (result oc, y)
    /\ kept x y /\ ready y /\ default_here y /\ exists t w, at_version y t w.
Proof.
  induction fuel as [|fuel IH]; intros x t w o lc wl Hcfg Hd Hx Hat Hl [Hlt Hle] Ho Hq Hf.
  { apply enough_fuel_pos in Hf; [lia|done]. }
  pose proof Hat as (Ht & Hw & HW & Hp). rewrite back_cw_here in HW. rewrite (reverse_find_round fuel x t w _ lc Hcfg Hat).
  assert (forall y, back_within x y -> kept x y /\ ready y /\ default_here y /\ exists t w, at_version y t w) as Hend.
  { intros y [Hk Hwr Hdy]. rewrite Hwr. by split_and!; [..|exists t, w]. }
  assert (back_within x x) as Hself by (by split; [split|..]).
  destruct (Z.leb_spec t lc) as [Htl|Htl].
  { assert (t = lc) as -> by lia. destruct (handle_last_spec x lc o Hcfg Hd Ho) as (y & Hrun & Hwi).
    exists o, y. split_and!; [by apply (newest_change_quiet lc)|done|by apply Hend..]. }
  destruct (is_change w) eqn:Hch.
  - assert (newest_change W ts (Some (t, w))) as Hoc by (split_and!; [lia|done..|exact Hq]).
    exists (Some (t, w)). cbn [fenced fence_ok].
    destruct (WriteRef_check_gc_fence_as_latest_version w ts); cbn [negb];
      [|exists x; split_and!; try done; by apply Hend].
    unfold is_change in Hch. cbn [visible]. destruct (w_write_type w); try done.
    + destruct (reverse_load_spec x w t Hcfg Hd Hw) as (y & Hrun & Hwi). exists y.
      split_and!; try done; by apply Hend.
    + exists x. split_and!; try done; by apply Hend.
  - pose proof (fence_ok_idle r raw (Some ts) b t w history (idle_above t w HW Hch Hq) HW Hch Hq) as Hfe.
    cbn [fence_ok] in Hfe. rewrite Hfe. cbn [negb].
    destruct (back_step_next cw raw cw_wf raw_ok x t w Hx Hat) as (y & Hs & Hk & Hy & Hst).
    destruct (stands_on y (t - 1) lc wl Hl ltac:(lia) Hst) as (t1 & w1 & Hat1 & (Hle1 & HW1 & Hno1) & Hlt1).
    destruct (IH y t1 w1 o lc wl) as (oc & z & Hoc & Hrun & Hkz & Hz & Hdz & Hatz); try done.
    + by rewrite (kw_cfg _ _ Hk).
    + by eapply default_ok_write.
    + lia.
    + apply (quiet_above t1 t w); [done..|]. intros t' Ht'. apply Hno1. lia.
    + eapply enough_fuel_mono; [|by eapply (enough_fuel_step r raw fuel t t w)]. done.
    + exists oc, z. split_and!; [done| |by eapply kept_trans; [apply kept_write_kept|]|done..].
      unfold is_change in Hch. destruct (w_write_type w); try done; rewrite (st_bind_ok _ _ _ _ _ Hs),
        (on_write_peek valid_of _ y _ (valid_of_ok _)), (at_key_valid _ _ _ _ _ Hat1); exact Hrun.
Qed.

Lemma reverse_seek_newest_spec x lc wl :
  ready x -> W lc = Some wl ->
  exists near y newer, reverse_seek_newest key ts x = (Ok near, y) /\ newer_data newer
    /\ kept_write (meet_if newer x) y /\ ready y.
Proof.
  intros Hx Hl. unfold reverse_seek_newest. rewrite gets_bind.
  destruct (decide (ks_met_newer_ts_data x = NtNotMetYet)) as [Hm|Hm].
  2:{ destruct newer_exists as [newer Hnew]. exists false, x, newer. by rewrite meet_if_idle. }
  assert (u64_ok TimeStamp_max) as Hmax by (unfold u64_ok, TimeStamp_max, u64_max; lia).
  destruct (back_step_seek cw raw cw_wf raw_ok x TimeStamp_max Hx Hmax) as (y & Hs & Hk & Hy & Hst).
  rewrite (st_bind_ok _ _ _ _ _ Hs), (on_write_peek valid_of _ y _ (valid_of_ok _)).
  destruct (stands_on y TimeStamp_max lc wl Hl (u64_le_max _ (write_at_range r raw lc wl Hl)) Hst)
    as (t & w & Hat & (_ & HW & Hno) & _).
  rewrite (at_key_valid _ _ _ _ _ Hat), (lift_bind _ _ y tt) by done. destruct Hat as (Ht & Hw & _ & Hp).
  rewrite (on_write_peek cu_key _ y _ (cu_key_ok _ _ _ Hp)).
  rewrite (lift_bind _ _ y t) by (unfold version_key; by rewrite Key_decode_append).
  destruct (Z.ltb_spec ts t) as [Hgt|Hle].
  - exists true, (ks_meet y), true. split_and!; [done| |by apply kept_write_meet|done]. split; eauto.
  - exists true, y, false. split_and!; [done| |done|done]. split; [done|]. intros (t' & w' & Ht' & Hw').
    pose proof (u64_le_max _ (write_at_range r raw t' w' Hw')). by rewrite Hno in Hw' by lia.
Qed.

Lemma reverse_seek_version_spec x near lc wl :
  ready x -> W lc = Some wl -> lc <= ts ->
  exists y t w, reverse_seek_version key ts near x = (Ok tt, y) /\ kept_write x y /\ ready y
    /\ at_version y t w /\ newest W ts (Some (t, w)) /\ lc <= t.
Proof.
  intros Hx Hl Hle. unfold reverse_seek_version.
  assert (exists y v, (if near then
      _ ← modify (fun s => if near_seek_over (E:=mvcc_error) (ks_write s) (Key_append_ts key ts)
                           then ks_set_statistics s (over_seek_bound (ks_statistics s)) else s);
      on_write (fun c => cu_near_seek c (Key_append_ts key ts))
    else on_write (fun c => cu_internal_seek c (Key_append_ts key ts))) x = (Ok v, y)
    /\ kept_write x y /\ ready y /\ stands cw raw ts (wpos y)) as (y & v & Hs & Hk & Hy & Hst).
  { destruct near.
    - rewrite modify_bind. set (x1 := if near_seek_over _ _ then _ else _).
      assert (kept_write x x1 /\ ks_write x1 = ks_write x) as [Hk1 Hw1].
      { unfold x1. by destruct (near_seek_over _ _); split; [split| |split|]. }
      destruct (step_near_seek cw raw cw_wf raw_ok x1 ts lc wl) as (y & Hs & Hk & Hy & Hst); try done.
      { by rewrite Hw1. }
      { by rewrite back_cw_here. }
      exists y, true. split_and!; [done|by eapply kept_write_trans|done..].
    - destruct (back_step_seek cw raw cw_wf raw_ok x ts Hx ts_ok) as (y & Hs & Hk & Hy & Hst).
      by exists y, (cu_valid (ks_write y)). }
  rewrite (st_bind_ok _ _ _ _ _ Hs), (on_write_peek valid_of _ y _ (valid_of_ok _)).
  destruct (stands_on y ts lc wl Hl Hle Hst) as (t & w & Hat & Hn & Hlt).
  exists y, t, w. rewrite (at_key_valid _ _ _ _ _ Hat). by split_and!.
Qed.

(** All of the second part. *)
Lemma reverse_sought_spec x lc w o :
  cfg_bwd (ks_cfg x) -> default_here x -> ready x -> at_version x lc w -> lc < ts -> newest_change W lc o ->
  exists oc newer y, (_ ← lift (assert_ (lc <? ts));
      use_near_seek ← reverse_seek_newest key ts;
      _ ← reverse_seek_version key ts use_near_seek;
      s ← gets id;
      reverse_find (cf_len (sc_snapshot (ks_cfg s)) CF_WRITE + 2) key (snd <$> o) lc) x = (result oc, y)
    /\ newest_change W ts oc /\ newer_data newer /\ kept (meet_if newer x) y /\ ready y /\ default_here y
    /\ exists t w, at_version y t w.
Proof.
  intros Hcfg Hd Hx (_ & _ & HW & _) Hlt Ho. rewrite back_cw_here in HW.
  rewrite (lift_bind _ _ x tt) by (by rewrite (proj2 (Z.ltb_lt _ _) Hlt)).
  destruct (reverse_seek_newest_spec x lc w Hx HW) as (near & y & newer & Hs & Hnew & Hk & Hy).
  rewrite (st_bind_ok _ _ _ _ _ Hs).
  destruct (reverse_seek_version_spec y near lc w Hy HW ltac:(lia)) as (z & t1 & w1 & Hv & Hkz & Hz & Hat1 & Hn1 & Hlc).
  rewrite (st_bind_ok _ _ _ _ _ Hv), gets_bind.
  assert (kept_write (meet_if newer x) z) as Hkxz by (by eapply kept_write_trans).
  assert (cfg_bwd (ks_cfg z)) as Hcz by (rewrite (kw_cfg _ _ Hkxz); by destruct newer).
  assert (default_here z) as Hdz by (eapply default_ok_write; [done|]; by destruct newer).
  rewrite (co_snapshot _ _ _ _ Hcz). destruct Hn1 as (Hle1 & HW1 & Hno1).
  destruct (reverse_find_spec (cf_len s CF_WRITE + 2) z t1 w1 o lc w) as (oc & z' & Hoc & Hrun & Hkz' & Hz' & Hdz' & Hatz');
    try done.
  - intros t' w' Ht' Hw'. by rewrite Hno1 in Hw'.
  - apply (enough_fuel_start r).
  - exists oc, newer, z'. split_and!; try done. eapply kept_trans; [by apply kept_write_kept|done].
Qed.

Lemma result_no_panic o : result o <> Panic.
Proof.
  unfold point_result, read_result. destruct (fenced _ o) as [[w c]|]; [|done]. destruct (pg_omit_value g); [done|].
  by destruct (record_value s key w).
Qed.

Lemma handle_last_catch x n o :
  cfg_bwd (ks_cfg x) -> default_here x -> newest_change W n o ->
  exists y, catch (handle_last_version (snd <$> o) key) x = (Ok (result o), y) /\ back_within x y.
Proof.
  intros Hcfg Hd Ho. destruct (handle_last_spec x n o Hcfg Hd Ho) as (y & Hrun & Hwi). exists y. split; [|done].
  apply catch_eq; [done|apply result_no_panic].
Qed.

(** What [reverse_get] does from the oldest version of the key. *)
Lemma reverse_get_spec x t w :
  cfg_bwd (ks_cfg x) -> default_here x -> ready x -> at_version x t w -> oldest_first cw raw t w ->
  exists oc newer met_prev y, reverse_get key ts x = (Ok (result oc, met_prev), y)
    /\ newest_change W ts oc /\ newer_data newer /\ kept (meet_if newer x) y /\ ready y /\ default_here y
    /\ leaves y met_prev.
Proof.
  intros Hcfg Hd Hx Hat (Hpos & _ & Hno). unfold reverse_get.
  rewrite (on_write_peek valid_of _ x _ (valid_of_ok _)), (at_key_valid _ _ _ _ _ Hat), (lift_bind _ _ x tt) by done.
  change (Z.to_nat REVERSE_SEEK_BOUND) with 16%nat.
  destruct (reverse_loop_spec 15 x t w None (-1) 0 Hcfg Hx Hat Hpos) as (step & y & Hloop & Hy & Hok).
  { unfold u64_ok in ts_ok. lia. }
  { intros t' Ht'. rewrite <-back_cw_here. by apply Hno. }
  { intros t' w' Ht' Hw'. pose proof (write_at_range r raw t' w' Hw') as Hu. unfold u64_ok in Hu. lia. }
  rewrite (st_bind_ok _ _ _ _ _ (catch_eq _ _ _ _ Hloop ltac:(done))).
  destruct step as [last mp|last lc]; cbn [step_ok] in Hok.
  - destruct Hok as (o & newer & -> & Ho & Hnew & Hk & Hleave).
    destruct (handle_last_catch y ts o) as (z & Hh & [Hkz Hwz Hdz]); [rewrite (kw_cfg _ _ Hk); by destruct newer| |done|].
    { eapply default_ok_write; [done|]. by destruct newer. }
    rewrite (st_bind_ok _ _ _ _ _ Hh). exists o, newer, mp, z. unfold leaves in *. rewrite Hwz. split_and!; try done.
    1: eapply kept_trans; [by apply kept_write_kept|done]. all: apply Hleave.
  - destruct Hok as (o & w' & -> & Hle & Ho & Haty & Hk).
    assert (cfg_bwd (ks_cfg y)) as Hcy by (by rewrite (kw_cfg _ _ Hk)).
    assert (default_here y) as Hdy by (by eapply default_ok_write).
    destruct (Z.eqb_spec lc ts) as [->|Hne].
    + destruct (reverse_check_newer_spec y w' Hy Haty) as (mp & z & newer & Hc & Hz & Hleave & Hnew & Hkz).
      rewrite (st_bind_ok _ _ _ _ _ Hc).
      destruct (handle_last_catch z ts o) as (z' & Hh & [Hkz' Hwz Hdz]); [rewrite (kw_cfg _ _ Hkz); by destruct newer| |done|].
      { eapply default_ok_write; [done|]. by destruct newer. }
      rewrite (st_bind_ok _ _ _ _ _ Hh). exists o, newer, mp, z'. unfold leaves in *. rewrite Hwz. split_and!; try done.
      1: eapply kept_trans; [|done]; eapply kept_trans; [|by apply kept_write_kept]; apply kept_write_kept;
        destruct newer; [by apply kept_write_meet|done].
      all: apply Hleave.
    + destruct (reverse_sought_spec y lc w' o Hcy Hdy Hy Haty ltac:(lia) Ho)
        as (oc & newer & z & Hrun & Hoc & Hnew & Hkz & Hz & Hdz & Hatz).
      rewrite (st_bind_ok _ _ _ _ _ (catch_eq _ _ _ _ Hrun (result_no_panic oc))).
      exists oc, newer, false, z. split_and!; try done.
      * eapply kept_trans; [|done]. apply kept_write_kept. destruct newer; [by apply kept_write_meet|done].
      * split; [by left|done].
Qed.

Lemma back_reference_data_result oc : newest_change W ts oc -> reference_data g key = result oc.
Proof.
  intros Hoc. destruct newest_newer as (o & Hn & _).
  rewrite (reference_data_eq s raw wf raw_ok b g g_snapshot ts_ok history Hfloor o oc Hn Hoc).
  destruct o as [[t w]|].
  - unfold conflict. by rewrite bool_decide_eq_false_2.
  - assert (oc = None) as ->; [|done]. apply (newest_change_unique W ts); [done|]. intros t w Ht Hw.
    by rewrite Hn in Hw by (pose proof (u64_le_max _ ts_ok); lia).
Qed.

(** *** One round of [read_next] *)

Section Round.
Context (keys : list bytes).
Hypothesis (sorted : StronglySorted bytes_gt (raw :: keys)).
Hypothesis (keys_ok : forall raw', raw' ∈ raw :: keys -> bytes_ok raw').
Hypothesis (covers : forall raw', bytes_ok raw' -> bytes_lt raw' raw -> has_data s lower upper checks raw' -> raw' ∈ keys).
Hypothesis (here_data : has_data s lower upper checks raw).

Lemma keys_below raw' : raw' ∈ keys -> bytes_ok raw' /\ bytes_lt raw' raw.
Proof.
  intros Hin. apply StronglySorted_inv in sorted as [_ Hall]. rewrite Forall_forall in Hall.
  split; [apply keys_ok; by right|by apply Hall].
Qed.

Lemma back_keys_sorted : StronglySorted bytes_gt keys.
Proof. by apply StronglySorted_inv in sorted as [? _]. Qed.

Lemma backs_head o : backs cw raw TimeStamp_max o -> head keys o.
Proof.
  destruct 1 as [Hn Hno|t w Ht Hw [Hgt _]|raw' t w Hr' Hlt Ht Hw Hn Hn' Hno].
  - apply write_head_none. intros raw' t Hin. destruct (version_at cw raw' t) as [w|] eqn:E; [|done].
    destruct (keys_below raw' Hin). exfalso. by eapply Hno.
  - pose proof (u64_le_max _ Ht). lia.
  - pose proof Hn' as (_ & HW & _). apply write_head_at with bytes_gt; try done; [apply back_keys_sorted| |].
    + apply covers; [done..|]. by eapply iter_version_data.
    + intros raw'' t' Hin Hlt'. destruct (version_at cw raw'' t') as [w'|] eqn:E; [|done].
      destruct (keys_below raw'' Hin). exfalso. by eapply (Hno raw'').
Qed.

Lemma prev_lock_head o : greatest cl (fun k => bytes_ltb k key) o -> lock_head cl keys o.
Proof.
  destruct o as [[k v]|].
  - intros (Hv & Hlt & Hmax).
    destruct (lock_content_key s lower upper g lower_ok upper_ok wf_lock k v Hv) as (raw' & Hr' & -> & Hdata).
    apply user_key_ltb in Hlt; [|done..].
    apply lock_head_at with bytes_gt; [apply back_keys_sorted|by apply covers|done|]. intros raw'' Hin Hlt'.
    destruct (cl (Key_from_raw raw'')) as [v'|] eqn:E; [|done]. exfalso. destruct (keys_below raw'' Hin) as [Hr'' Ha].
    specialize (Hmax _ (ex_intro _ v' E) (proj2 (user_key_ltb raw'' raw Hr'' raw_ok) Ha)).
    apply (user_key_ltb raw' raw'') in Hlt'; [|done..]. apply bytes_leb_gt in Hlt'. congruence.
  - intros Hno. apply lock_head_none. intros raw' Hin. destruct (cl (Key_from_raw raw')) as [v|] eqn:E; [|done].
    destruct (keys_below raw' Hin) as [Hr' Ha]. specialize (Hno _ (ex_intro _ v E)).
    pose proof (proj2 (user_key_ltb raw' raw Hr' raw_ok) Ha). congruence.
Qed.

(** The write cursor leaves the key, if it is on it. *)
Lemma back_leave_key x :
  ready x -> (exists t w, at_version x t w) \/ head keys (wpos x) ->
  exists y, move_write_cursor_to_prev_user_key key x = (Ok tt, y) /\ kept_write x y /\ ready y
    /\ head keys (wpos y).
Proof.
  intros Hx [(t & w & Hat)|Hh].
  - destruct (move_prev_on cw raw cw_wf raw_ok x t w Hx Hat) as (y & Hm & Hk & Hy & Hst).
    exists y. split_and!; [done..|]. by apply backs_head.
  - exists x. split_and!; [|by split|done|done]. apply (move_prev_off raw x).
    apply (head_off cw raw raw_ok (oldest_first cw) keys); [|done]. intros raw' Hin.
    destruct (keys_below raw' Hin). split; [done|]. intros ->. by apply (bytes_lt_irrefl raw).
Qed.

(** What is left of the round once the key is done with. *)
Abbreviation done_with x := (ready x /\ default_here x /\ head keys (wpos x)).

Lemma read_records_spec v x t w :
  cfg_bwd (ks_cfg x) -> default_here x -> ready x -> at_version x t w -> oldest_first cw raw t w ->
  exists newer y, backward_read_records key ts (Ok v) x = (Ok (reference_data g key), y)
    /\ newer_data newer /\ kept (meet_if newer x) y /\ done_with y.
Proof.
  intros Hcfg Hd Hx Hat Hold. unfold backward_read_records.
  destruct (reverse_get_spec x t w Hcfg Hd Hx Hat Hold) as (oc & newer & mp & y & Hrun & Hoc & Hnew & Hk & Hy & Hdy & Hon & Hmp).
  rewrite (st_bind_ok _ _ _ _ _ Hrun), (back_reference_data_result oc Hoc). exists newer. destruct mp.
  - exists y. split_and!; try done. by apply backs_head, Hmp.
  - destruct (back_leave_key y Hy) as (z & Hm & Hkz & Hz & Hh); [destruct Hon; [by left|right; by apply backs_head]|].
    rewrite (st_bind_ok _ _ _ _ _ Hm). exists z. split_and!; try done.
    + eapply kept_trans; [done|by apply kept_write_kept].
    + by eapply default_ok_write.
Qed.

Lemma skip_records_spec e x :
  default_here x -> ready x -> (exists t w, at_version x t w) ->
  exists y, backward_read_records key ts (Err e) x = (Ok (Err e), y) /\ kept x y /\ done_with y.
Proof.
  intros Hd Hx Hat. unfold backward_read_records.
  destruct (back_leave_key x Hx) as (y & Hm & Hk & Hy & Hh); [by left|].
  rewrite (st_bind_ok _ (mret (Err e, false)) x (Err e, false) x eq_refl), (st_bind_ok _ _ _ _ _ Hm).
  exists y. split_and!; try done; [by apply kept_write_kept|by eapply default_ok_write].
Qed.

(** The value of a lock that may be read through. *)
Lemma back_locked_value_run x l :
  cfg_bwd (ks_cfg x) -> default_here x -> l_lock_type l = LtPut \/ l_lock_type l = LtDelete -> u64_ok (l_ts l) ->
  exists y, (_ ← ensure_default_cursor; catch (load_data_by_lock key l)) x = (Ok (reference_locked g key l), y)
    /\ back_within x y.
Proof.
  intros Hcfg Hd Hty Hts. destruct (back_ensure_default x Hcfg Hd) as (y & c & He & Hk & Hw & Hy & Hc).
  rewrite (st_bind_ok _ _ _ _ _ He). assert (cfg_bwd (ks_cfg y)) as Hcy by (by eapply cfg_ok_kept).
  destruct (near_reverse_load_spec cd y c raw (l_ts l) Hy Hc) as (z & c' & Hload & Hkz & Hcz & Hwz & Hz & Hc').
  rewrite iter_default in Hload by done. fold (value_at s raw (l_ts l)) in Hload.
  destruct (load_by_lock_spec s g g_snapshot true raw y z l Hcy Hty Hload) as (y' & Hor & Hl).
  exists y'. split.
  - apply catch_eq; [done|]. unfold reference_locked. destruct (l_lock_type l); try done.
    destruct (pg_omit_value g); [done|]. destruct (l_short_value l); [done|]. by destruct (get_cf _ _ _).
  - destruct Hor as [-> | ->].
    + split; [done..|]. unfold default_ok. by rewrite Hy.
    + split; [by eapply kept_trans|congruence|]. unfold default_ok. by rewrite Hz.
Qed.

(** The lock does not matter and the records are read, or it is an error and they
    are left, or the key is done with. *)
Lemma back_check_lock_spec x c v (has_write : bool) :
  cfg_bwd (ks_cfg x) -> default_here x -> ready x ->
  (if has_write then exists t w, at_version x t w else head keys (wpos x)) ->
  ks_lock x = Some c -> cu_pos c = Some (key, v) -> cl key = Some v ->
  exists res hw y, backward_check_lock key has_write x = (Ok (res, hw), y) /\ kept (ks_meet x) y /\ ready y
    /\ default_here y
    /\ ((hw = has_write /\ ks_write y = ks_write x
         /\ (res = Ok None /\ reference_get g key = reference_data g key
             \/ exists e, res = Err e /\ reference_get g key = Err e))
        \/ hw = false /\ res = reference_get g key /\ head keys (wpos y)).
Proof.
  intros Hcfg Hd Hx Hwr Hlx Hp Hv. unfold backward_check_lock.
  rewrite (on_lock_peek cu_value _ x c v Hlx (cu_value_ok _ _ _ Hp)).
  destruct (reference_get_locked s lower upper g g_snapshot wf_lock raw v Hv) as (l & Hparse & Hlok & Href).
  rewrite (lift_bind _ _ x l) by (by rewrite Hparse). rewrite modify_bind, gets_bind. cbn [ks_cfg ks_meet].
  rewrite (co_ts _ _ _ _ Hcfg), (co_bypass _ _ _ _ Hcfg), (co_iso _ _ _ _ Hcfg), (co_access _ _ _ _ Hcfg).
  pose proof (conflict_no_panic raw l ts (pg_bypass_locks g) (pg_isolation_level g)) as Hnp.
  destruct (Lock_check_ts_conflict _ _ _ _ _) as [[]|e|] eqn:Hc; [| |done]; rewrite Href.
  { exists (Ok None), has_write, (ks_meet x). split_and!; try done. left. split_and!; try done. by left. }
  destruct (TsSet_contains (pg_access_locks g) (l_ts l)).
  2:{ exists (Err (mvcc_error_from e)), has_write, (ks_meet x). split_and!; try done. left. split_and!; try done.
      right. eauto. }
  destruct (back_locked_value_run (ks_meet x) l Hcfg Hd (conflict_lock_type raw _ _ _ _ _ Hc) (lock_ok_ts _ Hlok))
    as (y & Hload & [Hk Hwy Hdy]).
  unfold mbind, st_bind in Hload |- *. destruct (ensure_default_cursor (ks_meet x)) as [[[]|?|] x1]; [|done..].
  rewrite Hload. destruct has_write.
  - destruct (back_leave_key y) as (z & Hm & Hkz & Hz & Hh); [by rewrite Hwy|left; by rewrite Hwy|].
    rewrite Hm. exists (reference_locked g key l), false, z. split_and!; try done.
    + eapply kept_trans; [done|by apply kept_write_kept].
    + by eapply default_ok_write.
    + by right.
  - exists (reference_locked g key l), false, y. split_and!; try done; [by rewrite Hwy|]. right. by rewrite Hwy.
Qed.

(** The positions at the start of a round. *)
Abbreviation at_start has_write x :=
  (if (has_write : bool) then exists t w, at_version x t w /\ oldest_first cw raw t w
   else (forall t, W t = None) /\ head keys (wpos x)).

Lemma back_records_spec (has_write : bool) x :
  cfg_bwd (ks_cfg x) -> default_here x -> ready x -> locks_here keys x -> at_start has_write x ->
  exists newer y, (if has_write then backward_read_records key ts (Ok None) else mret (Ok None)) x
      = (Ok (E:=mvcc_error) (reference_data g key), y)
    /\ newer_data newer /\ ks_met_newer_ts_data y = met_after newer (ks_met_newer_ts_data x) /\ back_scan_inv keys y.
Proof.
  intros Hcfg Hd Hx Hl Hst. destruct has_write.
  - destruct Hst as (t & w & Hat & Hold).
    destruct (read_records_spec None x t w Hcfg Hd Hx Hat Hold) as (newer & y & Hrun & Hnew & Hk & Hy & Hdy & Hh).
    exists newer, y. split_and!; try done.
    + rewrite (kp_met _ _ Hk). destruct newer; [apply ks_meet_met|done].
    + split; try done.
      * eapply cfg_ok_kept; [done|]. by destruct newer.
      * eapply locks_at_kept; [done|]. by destruct newer.
  - destruct Hst as [Hno Hh]. exists false, x. split_and!; try done.
    + rewrite (back_reference_data_result None); [done|]. intros t w _. by rewrite Hno.
    + split; [done|]. intros (t & w & _ & Hw). by rewrite Hno in Hw.
Qed.

(** The lock cursor moves on after the lock of the key was looked at. *)
Lemma lock_step x c :
  ks_is_started x = true -> ks_lock x = Some c -> checks = true -> cursor_inv c -> cu_content c = cl ->
  (exists v, cu_pos c = Some (key, v)) ->
  exists c', on_lock cu_prev x = (Ok (cu_valid c'), ks_set_lock x (Some c')) /\ locks_here keys (ks_set_lock x (Some c')).
Proof.
  intros Hst Hlx Hch Hci Hcc [v Hp].
  destruct (cu_prev_spec (E:=mvcc_error) c key v Hci Hp) as (c' & Hn & Hm & Hg). rewrite Hcc in Hg.
  exists c'. split.
  - apply zoom_ok. unfold unwrapped. rewrite Hlx. cbn. by rewrite Hn.
  - split; [done|]. split_and!; [done|apply Hm|by rewrite (mv_content _ _ Hm)|by apply prev_lock_head].
Qed.

(** The start of a round, with the positions of the cursors. *)
Lemma back_round_keys fuel x has_write has_lock :
  cfg_bwd (ks_cfg x) ->
  backward_key_of (fst <$> wpos x) (fst <$> lock_pos x) = Ok (Some (key, has_write, has_lock)) ->
  backward_loop (S fuel) x
  = ('(result, has_write) ← (if (has_lock : bool) then
                               checked ← (if checks then backward_check_lock key has_write
                                          else mret (Ok None, has_write));
                               _ ← (match ks_lock x with Some _ => on_lock cu_prev | None => mret true end);
                               mret checked
                             else mret (Ok None, has_write));
     result ← (if (has_write : bool) then backward_read_records key ts result else mret result);
     value ← lift result;
     match value with
     | Some v => mret (Some (key, v))
     | None => backward_loop fuel
     end) x.
Proof.
  intros Hcfg Hcur. cbn [backward_loop]. rewrite gets_bind, (on_write_peek key_of _ x _ (key_of_pos _)).
  rewrite (st_bind_ok _ _ _ _ _ (lock_key_run x)), (lift_bind _ _ x _ Hcur).
  by rewrite (co_iso _ _ _ _ Hcfg), (co_ts _ _ _ _ Hcfg).
Qed.

Lemma round_outcome fuel m x res y :
  m x = (Ok (E:=mvcc_error) res, y) ->
  (result ← m; value ← lift result;
   match value with
   | Some v => mret (Some (key, v))
   | None => backward_loop fuel
   end) x = outcome (backward_loop fuel) key res y.
Proof. intros Hm. rewrite (st_bind_ok _ _ _ _ _ Hm). by destruct res as [[v|]|e|]. Qed.

(** A round on a key with a lock that is looked at. *)
Lemma back_locked_round fuel x c v (has_write : bool) :
  cfg_bwd (ks_cfg x) -> default_here x -> ready x -> ks_is_started x = true -> ks_lock x = Some c -> checks = true ->
  cursor_inv c -> cu_content c = cl -> cu_pos c = Some (key, v) -> cl key = Some v -> at_start has_write x ->
  exists y, ('(result, has_write) ← (checked ← backward_check_lock key has_write; _ ← on_lock cu_prev; mret checked);
      result ← (if (has_write : bool) then backward_read_records key ts result else mret result);
      value ← lift result;
      match value with
      | Some v => mret (Some (key, v))
      | None => backward_loop fuel
      end) x = outcome (backward_loop fuel) key (reference_get g key) y
    /\ ks_met_newer_ts_data y = met_after true (ks_met_newer_ts_data x) /\ back_scan_inv keys y.
Proof.
  intros Hcfg Hd Hx Hstx Hlx Hch Hci Hcc Hp Hv Hat.
  destruct (back_check_lock_spec x c v has_write) as (res & hw & y & Hrun & Hk & Hy & Hdy & Hres); try done.
  { destruct has_write; [|apply Hat]. destruct Hat as (t & w & ? & _). by exists t, w. }
  assert (ks_met_newer_ts_data y = met_after true (ks_met_newer_ts_data x)) as Hmet by (by rewrite (kp_met _ _ Hk), ks_meet_met).
  destruct (lock_step y c) as (c' & Hs & Hls); try done.
  { by rewrite (kp_started _ _ Hk). }
  { by rewrite (kp_lock _ _ Hk). }
  { eauto. }
  assert (cfg_bwd (ks_cfg y)) as Hcy by (by eapply cfg_ok_kept).
  set (y1 := ks_set_lock y (Some c')) in *.
  rewrite (st_bind_ok _ (checked ← backward_check_lock key has_write; _ ← on_lock cu_prev; mret checked) x (res, hw) y1).
  2:{ rewrite (st_bind_ok _ _ _ _ _ Hrun). by rewrite (st_bind_ok _ _ _ _ _ Hs). }
  destruct Hres as [(-> & Hwy & [[-> Href]|(e & -> & Href)])|(-> & -> & Hh)].
  - destruct (back_records_spec has_write y1) as (newer & z & Hrec & _ & Hmz & Hinv); try done.
    { cbn [ks_write y1 ks_set_lock]. by rewrite Hwy. }
    exists z. rewrite Href. split_and!; [by apply round_outcome| |done].
    rewrite Hmz. cbn [ks_met_newer_ts_data y1 ks_set_lock]. by rewrite Hmet, met_after_twice.
  - assert (exists z, (if has_write then backward_read_records key ts (Err e) else mret (Err e)) y1 = (Ok (Err e), z)
      /\ kept y1 z /\ ready z /\ default_here z /\ head keys (wpos z)) as (z & Hrec & Hkz & Hz & Hdz & Hhz).
    { destruct has_write.
      - apply skip_records_spec; try done. destruct Hat as (t & w & Hat & _). exists t, w.
        cbn [ks_write y1 ks_set_lock]. by rewrite Hwy.
      - exists y1. split_and!; try done. cbn [ks_write y1 ks_set_lock]. rewrite Hwy. apply Hat. }
    exists z. rewrite Href. split_and!; [by apply round_outcome|by rewrite (kp_met _ _ Hkz)|].
    split; try done; [by eapply (cfg_ok_kept _ _ _ y1)|by eapply locks_at_kept].
  - exists y1. split_and!; [by apply round_outcome|done|by split].
Qed.

Lemma back_round_spec fuel x :
  back_scan_inv (raw :: keys) x ->
  exists newer y, backward_loop (S fuel) x = outcome (backward_loop fuel) key (reference_get g key) y
    /\ ks_met_newer_ts_data y = met_after newer (ks_met_newer_ts_data x)
    /\ (newer = true <-> has_newer g key)
    /\ back_scan_inv keys y.
Proof.
  intros [Hcfg Hd Hx Hwh Hl].
  destruct (choose_spec backward_key_of bytes_gt (oldest_first cw) cw cl raw keys (wpos x) (lock_pos x) backward_chooses
      sorted keys_ok (has_data_here s lower upper g lower_ok upper_ok raw raw_ok in_range here_data) Hwh
      (lock_pos_head _ _ _ _ _ x Hl))
    as (has_write & has_lock & Hcur & Hw & Hlk).
  rewrite (back_round_keys fuel x has_write has_lock Hcfg Hcur).
  assert (at_start has_write x) as Hat.
  { destruct has_write.
    - destruct Hw as (t & w & Ht & Hw & HW & Hn & Hp). exists t, w. by split_and!.
    - destruct Hw as [Hno Hh]. split; [|done]. intros t. rewrite <-back_cw_here. apply Hno. }
  destruct has_lock.
  2:{ destruct Hlk as [Hno Hlh]. rewrite (st_bind_ok _ (mret (Ok None, has_write)) x (Ok None, has_write) x eq_refl).
      destruct (back_records_spec has_write x) as (newer & y & Hrun & Hnew & Hmet & Hinv); try done.
      { unfold locks_at, lock_pos in *. destruct Hl as [? Hl]. split; [done|].
        destruct (ks_lock x); [|done]. by destruct Hl as (? & ? & ? & _). }
      exists newer, y. rewrite (reference_get_unlocked s lower upper g lower_ok upper_ok g_snapshot raw raw_ok in_range Hno).
      split_and!; [by apply round_outcome|done| |done]. by apply (has_newer_here false newer). }
  destruct Hlk as (v & Hv & Hp). unfold lock_pos in Hp. unfold locks_at in Hl.
  destruct Hl as [Hstx Hl]. destruct (ks_lock x) as [c|] eqn:Hlx; [|done]. destruct Hl as (Hch & Hci & Hcc & _).
  rewrite Hch. destruct (back_locked_round fuel x c v has_write) as (y & Hrun & Hmet & Hinv); try done.
  exists true, y. split_and!; try done. destruct newer_exists as [newer Hnew].
  rewrite <-(has_newer_here true newer); [done|by exists v|done].
Qed.
End Round.
End OneKey.

(** *** The keys of the range *)

Section Keys.
Context (keys : list bytes).
Hypothesis (all_keys : lists_keys s lower upper checks keys).
Hypothesis (all_readable : forall raw, raw ∈ keys -> readable g raw).
Abbreviation all := (reverse keys).

Lemma reverse_sorted : StronglySorted bytes_gt all.
Proof.
  destruct all_keys as [Hs _]. clear -Hs. induction Hs as [|raw keys _ IH Hall]; [apply SSorted_nil|].
  rewrite reverse_cons. apply StronglySorted_app_2; [|done|apply SSorted_cons; [apply SSorted_nil|apply Forall_nil_2]].
  intros a b Ha Hb. apply list_elem_of_singleton in Hb as ->. rewrite Forall_forall in Hall. apply Hall.
  by apply elem_of_reverse.
Qed.

Lemma all_in raw : raw ∈ all <-> bytes_ok raw /\ has_data s lower upper checks raw.
Proof. rewrite elem_of_reverse. apply all_keys. Qed.

Lemma back_pending_round raw rest fuel x :
  pending all (raw :: rest) -> back_scan_inv (raw :: rest) x ->
  exists newer y, backward_loop (S fuel) x
      = outcome (backward_loop fuel) (Key_from_raw raw) (reference_get g (Key_from_raw raw)) y
    /\ ks_met_newer_ts_data y = met_after newer (ks_met_newer_ts_data x)
    /\ (newer = true <-> has_newer g (Key_from_raw raw))
    /\ (goes_on (reference_get g (Key_from_raw raw)) -> back_scan_inv rest y).
Proof.
  intros Hp Hx. pose proof (pending_in _ _ raw Hp ltac:(by left)) as Hin.
  destruct (all_readable raw (proj1 (elem_of_reverse _ _) Hin)) as [Hraw (b & Hh & Hb)]. rewrite g_snapshot in Hh, Hb.
  destruct (back_round_spec raw b Hraw) with (keys := rest) (fuel := fuel) (x := x) as (newer & y & Hrun & Hmet & Hnew & Hinv);
    try done.
  - apply all_in in Hin as [_ Hin]. apply Hin.
  - apply (pending_sorted _ all); [apply reverse_sorted|done].
  - intros raw' Hin'. apply all_in. by eapply pending_in.
  - intros raw' Hr' Hlt Hd.
    apply (pending_covers bytes_gt all bytes_gt_irrefl bytes_gt_trans reverse_sorted raw); try done. by apply all_in.
  - by apply all_in in Hin as [_ ?].
  - exists newer, y. by split_and!.
Qed.

(** *** The start *)

Lemma last_write o : greatest cw (fun _ => true) o -> head all o.
Proof.
  intros Hl. destruct o as [[k v]|].
  - destruct Hl as (Hv & _ & Hmax).
    destruct (content_version cw cw_wf k v Hv) as (raw & t & w & Hraw & Ht & Hw & -> & -> & HW).
    assert (forall raw' t' w', bytes_ok raw' -> version_at cw raw' t' = Some w' ->
      bytes_lt raw' raw \/ raw' = raw /\ t <= t') as Hle.
    { intros raw' t' w' Hr' Hw'. destruct (version_at_some cw cw_wf raw' t' w' Hr' Hw') as (Ht' & _ & Hc).
      apply version_key_leb; [done..|]. apply Hmax; [by eexists|done]. }
    apply write_head_at with bytes_gt; try done.
    + apply reverse_sorted.
    + apply all_in. split; [done|]. by eapply iter_version_data.
    + split; [unfold u64_ok in Ht; lia|]. split; [done|]. intros t' Ht'.
      destruct (version_at cw raw t') as [w'|] eqn:E; [|done]. exfalso.
      destruct (Hle raw t' w' Hraw E) as [?|[_ ?]]; [by apply (bytes_lt_irrefl raw)|lia].
    + intros raw' t' Hin Hlt. destruct (version_at cw raw' t') as [w'|] eqn:E; [|done]. exfalso.
      apply all_in in Hin as [Hr' _]. destruct (Hle raw' t' w' Hr' E) as [?|[-> _]]; [|by apply (bytes_lt_irrefl raw)].
      by apply (bytes_lt_irrefl raw), (bytes_lt_trans raw raw' raw).
  - apply write_head_none. intros raw t Hin. apply all_in in Hin as [Hraw _].
    destruct (version_at cw raw t) as [w|] eqn:E; [|done].
    destruct (version_at_some cw cw_wf raw t w Hraw E) as (_ & _ & Hc). by specialize (Hl _ (ex_intro _ _ Hc)).
Qed.

Lemma last_lock o : greatest cl (fun _ => true) o -> lock_head cl all o.
Proof.
  intros Hl. destruct o as [[k v]|].
  - destruct Hl as (Hv & _ & Hmax).
    destruct (lock_content_key s lower upper g lower_ok upper_ok wf_lock k v Hv) as (raw & Hraw & -> & Hdata).
    apply lock_head_at with bytes_gt; try done; [apply reverse_sorted|by apply all_in|].
    intros raw' Hin Hlt. apply all_in in Hin as [Hr' _].
    destruct (cl (Key_from_raw raw')) as [v'|] eqn:E; [|done]. exfalso.
    specialize (Hmax _ (ex_intro _ v' E) eq_refl). apply (user_key_ltb raw raw') in Hlt; [|done..].
    apply bytes_leb_gt in Hlt. congruence.
  - apply lock_head_none. intros raw _. destruct (cl (Key_from_raw raw)) as [v|] eqn:E; [|done].
    by specialize (Hl _ (ex_intro _ v E)).
Qed.

Context (cfg : ScannerConfig Snap).
Hypothesis (Hcfg : cfg_bwd cfg).
Hypothesis (Hlower : sc_lower_bound cfg = Key_from_raw <$> lower) (Hupper : sc_upper_bound cfg = Key_from_raw <$> upper).
Hypothesis (Hhints : sc_hint_min_ts cfg = None /\ sc_hint_max_ts cfg = None).

Lemma back_start_new cf :
  exists c', backward_start_cursor (Key_from_raw <$> upper) (new_cursor s lower upper true cf) = Ok (c', cu_valid c')
    /\ moved (new_cursor s lower upper true cf) c'
    /\ greatest (iter_content s lower upper cf) (fun _ => true) (cu_pos c').
Proof.
  apply (backward_start_cursor_spec (new_cursor s lower upper true cf)); [apply cursor_inv_new, snap_iter_ok|done|done|].
  intros k [v Hv]. change (iter_content s lower upper cf k = Some v) in Hv. rewrite iter_content_ranged, ranged_some in Hv.
  destruct Hv as [Hin _]. destruct upper as [u|]; [|done]. cbn [fmap option_fmap option_map] in *.
  unfold in_bounds in Hin. by apply andb_true_iff in Hin as [_ ?].
Qed.

Lemma back_start_spec :
  exists y, backward_start (ScannerBuilder_build cfg) = (Ok tt, y) /\ back_scan_inv all y
    /\ ks_met_newer_ts_data y = ks_met_newer_ts_data (ScannerBuilder_build (I:=I) cfg).
Proof.
  destruct (back_start_new CF_WRITE) as (cw' & Hsw & Hmw & Hlw). destruct (back_start_new CF_LOCK) as (cl' & Hsl & Hml & Hll).
  pose proof (build_eq (I:=I) s lower upper g true cfg Hcfg Hlower Hupper Hhints) as Hbuild.
  eexists. split.
  - unfold backward_start. rewrite gets_bind.
    replace (ks_is_started (ScannerBuilder_build (I:=I) cfg)) with false by (by rewrite Hbuild).
    replace (ks_cfg (ScannerBuilder_build (I:=I) cfg)) with cfg by (by rewrite Hbuild). rewrite Hupper.
    by apply (start_run s lower upper g true cfg Hcfg Hlower Hupper Hhints _ cw' cl' Hsw Hsl).
  - rewrite Hbuild. split; [|done]. split; [done|done| |by apply last_write|].
    + cbn [ks_write ks_start KvScanner_new].
      split; [apply Hmw|by rewrite (mv_mode _ _ Hmw)|by rewrite (mv_content _ _ Hmw)].
    + split; [done|]. cbn [ks_lock ks_start KvScanner_new]. pose proof (last_lock (cu_pos cl')) as Hfl.
      unfold lock_content in *. destruct (checks_locks g); [|done].
      split_and!; [done|apply Hml|by rewrite (mv_content _ _ Hml)|by apply Hfl].
Qed.

Lemma backward_scan_spec limit step :
  let out := reference_scan (fun raw => reference_get g (Key_from_raw raw)) all limit step 0 in
  exists y : KvScanner Snap I, backward_scan limit step (ScannerBuilder_build cfg) = (fst out, y)
    /\ read_to g all (snd out) (ScannerBuilder_build cfg) y
    /\ forall l, fst out = Ok l -> forall limit' step',
         fst (backward_scan limit' step' y)
         = fst (reference_scan (fun raw => reference_get g (Key_from_raw raw)) (snd out) limit' step' 0).
Proof.
  apply (scan_correct s g all backward_loop back_scan_inv back_round_end back_pending_round).
  - rewrite length_reverse. by apply (lists_keys_length s lower upper checks).
  - intros rest x Hx. apply (co_snapshot _ _ _ _ (back_si_cfg _ _ Hx)).
  - rewrite (build_eq s lower upper g true cfg Hcfg Hlower Hupper Hhints). apply (co_snapshot _ _ _ _ Hcfg).
  - intros rest x Hx. unfold backward_read_next. pose proof (back_si_lock _ _ Hx) as [Hst _].
    rewrite (st_bind_ok _ backward_start x tt x) by (unfold backward_start; by rewrite gets_bind, Hst).
    by rewrite gets_bind, (co_snapshot _ _ _ _ (back_si_cfg _ _ Hx)).
  - destruct back_start_spec as (x & Hs & Hx & Hmet). exists x. split_and!; [done..|].
    unfold backward_read_next. rewrite (st_bind_ok _ _ _ _ _ Hs). pose proof (back_si_lock _ _ Hx) as [Hst _].
    by rewrite (st_bind_ok _ backward_start x tt x) by (unfold backward_start; by rewrite gets_bind, Hst).
Qed.
End Keys.
End Spec.

Section Props.
Context {Snap I : Type} `{SnapshotIterLaws Snap I} `{!EngineSnapshotLaws Snap}.

(** C15. Backward scans are point reads.  Under the isolation levels [Si] and [Rc],
    on a well-formed store whose histories readers can rely on, a backward scan of
    a range with a scanner just built returns, without panic and from the last key
    to the first, what the point reads of the keys with data in the range return
    (see [reference_scan]): values, sampled as asked for, and locked keys, up to
    the limit, and the first other error ends it.  Neither the number of versions
    of a key nor the way the cursors find them makes a difference.  The scan leaves
    the scanner so that a further scan goes on with the keys not read, and newer
    data is reported exactly if one of the keys read has some. *)
Theorem backward_scan_equivalent (cfg : ScannerConfig Snap) lower upper keys limit step :
  let get raw := reference_get (reference_of cfg) (Key_from_raw raw) in
  let out := reference_scan get (reverse keys) limit step 0 in
  sc_isolation_level cfg <> RcCheckTs ->
  wf_write_cf (sc_snapshot cfg) -> wf_lock_cf (sc_snapshot cfg) -> u64_ok (sc_ts cfg) ->
  bound_ok lower -> bound_ok upper -> sc_desc cfg = true ->
  sc_lower_bound cfg = Key_from_raw <$> lower -> sc_upper_bound cfg = Key_from_raw <$> upper ->
  sc_hint_min_ts cfg = None /\ sc_hint_max_ts cfg = None ->
  lists_keys (sc_snapshot cfg) lower upper (need_check_locks (sc_isolation_level cfg)) keys ->
  (forall raw, raw ∈ keys -> readable (reference_of cfg) raw) ->
  exists y : KvScanner Snap I, backward_scan limit step (ScannerBuilder_build cfg) = (fst out, y)
    /\ (exists done newer, reverse keys = done ++ snd out
        /\ ks_met_newer_ts_data y
           = met_after newer (if sc_check_has_newer_ts_data cfg then NtNotMetYet else NtUnknown)
        /\ (newer = true <-> exists raw, raw ∈ done /\ has_newer (reference_of cfg) (Key_from_raw raw)))
    /\ forall l, fst out = Ok l -> forall limit' step',
         fst (backward_scan limit' step' y) = fst (reference_scan get (snd out) limit' step' 0).
Proof.
  cbn zeta. intros Hiso Hw Hl Hts Hlo Hup Hdesc Hlower Hupper Hhints Hkeys Hread.
  assert (cfg_ok (sc_snapshot cfg) (reference_of cfg) true cfg) as Hcfg by (by split).
  destruct (backward_scan_spec (I:=I) (sc_snapshot cfg) lower upper (reference_of cfg) Hlo Hup eq_refl Hts Hw Hl Hiso keys
    Hkeys Hread cfg Hcfg Hlower Hupper Hhints limit step) as (y & Hrun & (d & n & E & Hm & Hnew) & Hy).
  exists y. split_and!; [done| |done]. exists d, n. split_and!; [done| |done]. rewrite Hm. f_equal.
  by rewrite (build_eq (sc_snapshot cfg) lower upper (reference_of cfg) true).
Qed.
End Props.

Definition backward_example : KvScanner Store BTreeEngineIterator := ScannerBuilder_build (scan_config Si true).

(** The last two keys, one of them locked, and then the rest. *)
Lemma backward_scan_equivalent_witness :
  fst (backward_scan 2 0 backward_example)
  = Ok [Ok ([99], [3]); Err (MvKeyIsLocked (Lock_into_lock_info scan_lock [98]))]
  /\ fst (backward_scan 2 0 (snd (backward_scan 2 0 backward_example))) = Ok [Ok ([97], [1])]
  /\ exists y, backward_scan 2 0 backward_example
       = (fst (reference_scan (fun raw => reference_get (reference_of (scan_config Si true)) (Key_from_raw raw))
            (reverse scan_keys) 2 0 0), y).
Proof.
  split; [vm_compute; reflexivity|]. split; [vm_compute; reflexivity|].
  destruct (backward_scan_equivalent (I:=BTreeEngineIterator) (scan_config Si true) (Some [97]) None scan_keys 2 0)
    as (y & Hy & _).
  - discriminate.
  - exact (proj1 (proj1 scan_store_spec)).
  - exact (proj2 (proj1 scan_store_spec)).
  - unfold u64_ok. cbn. lia.
  - apply byte_raw_ok. lia.
  - exact Logic.I.
  - reflexivity.
  - reflexivity.
  - reflexivity.
  - split; reflexivity.
  - exact scan_store_keys.
  - intros raw Hin. apply scan_store_readable; [reflexivity|exact Hin].
  - exists y. exact Hy.
Defined.

(** ** A newer record that is not reported *)

(** One key with [n] versions, and a newer one. *)
Definition versions_store (n : Z) : Store :=
  match write_modifies (E:=unit) BTreeEngine_new
          (map encode_lm
             (map (fun i => LPutWrite (Key_from_raw [97]) (2 * i + 2) (Write_new WtPut (2 * i + 1) (Some [i])))
                (seqZ 0 (n + 1)))) with
  | Ok s => s
  | _ => BTreeEngine_new
  end.

(** A scan under [RcCheckTs] at the timestamp of the version before the newest. *)
Definition versions_scan (n : Z) (desc : bool) : KvScanner Store BTreeEngineIterator :=
  ScannerBuilder_build
    {| sc_snapshot := versions_store n; sc_omit_value := false; sc_isolation_level := RcCheckTs;
       sc_lower_bound := None; sc_upper_bound := None; sc_hint_min_ts := None; sc_hint_max_ts := None;
       sc_ts := 2 * n; sc_desc := desc; sc_bypass_locks := TsSet_new [];
       sc_access_locks := TsSet_new []; sc_check_has_newer_ts_data := false |}.

(** A write conflict that backward scans do not report.  Under [RcCheckTs] a
    record above the read timestamp is a write conflict.  A forward scan reports
    it whatever the number of versions; a backward scan reports it for a key with
    fewer than [REVERSE_SEEK_BOUND] versions at or below the timestamp, and returns
    the old value without an error for a key with that many. *)
Theorem backward_misses_conflict :
  fst (forward_scan 1 0 (versions_scan (REVERSE_SEEK_BOUND - 1) false))
  = Err (MvWriteConflict 30 0 32 (Key_append_ts (Key_from_raw [97]) 32) [] WcRcCheckTs)
  /\ fst (backward_scan 1 0 (versions_scan (REVERSE_SEEK_BOUND - 1) true))
     = Err (MvWriteConflict 30 0 32 (Key_append_ts (Key_from_raw [97]) 32) [] WcRcCheckTs)
  /\ fst (forward_scan 1 0 (versions_scan REVERSE_SEEK_BOUND false))
     = Err (MvWriteConflict 32 0 34 (Key_append_ts (Key_from_raw [97]) 34) [] WcRcCheckTs)
  /\ fst (backward_scan 1 0 (versions_scan REVERSE_SEEK_BOUND true)) = Ok [Ok ([97], [15])].
Proof. split_and!; vm_compute; reflexivity. Qed.
