(* ===== verification/ReadProgress.v ===== *)
(** * Read progress of a replica

    [RegionReadProgress], [RegionReadProgressCore] and
    [RegionReadProgressRegistry] of [components/raftstore/src/store/util.rs]: the
    timestamp up to which a replica serves reads without asking the leader.  The
    resolver of the leader publishes items (apply index, timestamp), followers
    receive them with [CheckLeader] requests, and an item counts once the replica
    has applied its index.  Every method takes the mutex of the core, and the
    atomic [safe_ts] is only stored under it, so that methods are atomic steps;
    a reader of [safe_ts] sees the value of some state between them.

    [update_applied] and [merge_safe_ts] also return what they tell the
    coprocessor's observers.  The handle that wakes the advance worker is not
    modelled; the capacity of the pending queue is state, since the code tests
    it, and grows as a [VecDeque] does.

    Theorems: after publications, applications, region merges, pauses and
    resumptions in any order, a [safe_ts] is complete for the data that the replica
    has applied, except for ranges that joined by a merge which an item from before
    it has crossed, or which happened while items were discarded
    ([read_progress_safe]); such an item does make it wrong
    ([stale_item_undoes_merge]); items published in order are all
    accounted for, as the comment of the type states ([read_progress_exact]);
    pending items stay sorted and bounded ([read_progress_bounded]). *)

From Stdlib Require Import ZArith Lia.
From stdpp Require Import base numbers list gmap relations sorting.
From S2P Require Import Prelude.

Open Scope Z_scope.

(** ** Data *)

Record ReadState : Type := { rs_idx : u64; rs_ts : u64 }.

Definition ReadState_default : ReadState := {| rs_idx := 0; rs_ts := 0 |}.

Inductive PeerRole : Type := Voter | Learner | IncomingVoter | DemotingVoter.

Record Peer : Type := {
  peer_id : u64;
  peer_store_id : u64;
  peer_role : PeerRole;
  peer_is_witness : bool
}.

Record RegionEpoch : Type := { conf_ver : u64; epoch_version : u64 }.

(** What is used of [metapb::Region]. *)
Record MetaRegion : Type := { region_id : u64; region_epoch : RegionEpoch; region_peers : list Peer }.

#[export] Instance PeerRole_eq_dec : EqDecision PeerRole.
Proof. solve_decision. Defined.
#[export] Instance Peer_eq_dec : EqDecision Peer.
Proof. solve_decision. Defined.

Definition is_region_epoch_equal (from_epoch current_epoch : RegionEpoch) : bool :=
  (conf_ver from_epoch =? conf_ver current_epoch)
  && (epoch_version from_epoch =? epoch_version current_epoch).

Record LocalLeaderInfo : Type := {
  lli_leader_id : u64;
  lli_leader_term : u64;
  lli_leader_store_id : option u64;
  lli_epoch : RegionEpoch;
  lli_peers : list Peer
}.

(** [raft::INVALID_ID] *)
Definition INVALID_ID : u64 := 0.

Definition LocalLeaderInfo_new (region : MetaRegion) : LocalLeaderInfo :=
  {| lli_leader_id := INVALID_ID; lli_leader_term := 0; lli_leader_store_id := None;
     lli_epoch := region_epoch region; lli_peers := region_peers region |}.

Fixpoint find_store_id (peer_list : list Peer) (id : u64) : option u64 :=
  match peer_list with
  | [] => None
  | peer :: peer_list =>
      if peer_id peer =? id then Some (peer_store_id peer) else find_store_id peer_list id
  end.

(** [kvrpcpb::LeaderInfo] *)
Record LeaderInfo : Type := {
  li_peer_id : u64;
  li_region_id : u64;
  li_term : u64;
  li_region_epoch : RegionEpoch;
  li_read_state : option ReadState
}.

Definition instant : Type := Z.

Record RegionReadProgressCore : Type := {
  core_peer_id : u64;
  core_region_id : u64;
  applied_index : u64;
  read_state : ReadState;
  leader_info : LocalLeaderInfo;
  pending_items : list ReadState;
  pending_capacity : nat;
  last_merge_index : u64;
  pause : bool;
  discard : bool;
  last_instant_of_update_safe_ts : option instant;
  last_instant_of_consume_leader : option instant
}.

Definition find_peer_by_id (region : MetaRegion) (id : u64) : option Peer :=
  head (filter (fun p => peer_id p = id) (region_peers region)).

Definition Core_new (region : MetaRegion) (applied : u64) (cap : nat) (id : u64) : RegionReadProgressCore :=
  let is_witness := match find_peer_by_id region id with Some p => peer_is_witness p | None => false end in
  {| core_peer_id := id; core_region_id := region_id region; applied_index := applied;
     read_state := ReadState_default; leader_info := LocalLeaderInfo_new region;
     pending_items := []; pending_capacity := cap; last_merge_index := 0;
     pause := is_witness; discard := is_witness;
     last_instant_of_update_safe_ts := None; last_instant_of_consume_leader := None |}.

Section updates.
Context (c : RegionReadProgressCore).

Definition set_read_state (rs : ReadState) : RegionReadProgressCore :=
  {| core_peer_id := core_peer_id c; core_region_id := core_region_id c; applied_index := applied_index c;
     read_state := rs; leader_info := leader_info c; pending_items := pending_items c;
     pending_capacity := pending_capacity c; last_merge_index := last_merge_index c;
     pause := pause c; discard := discard c;
     last_instant_of_update_safe_ts := last_instant_of_update_safe_ts c;
     last_instant_of_consume_leader := last_instant_of_consume_leader c |}.

Definition set_pending (items : list ReadState) (cap : nat) : RegionReadProgressCore :=
  {| core_peer_id := core_peer_id c; core_region_id := core_region_id c; applied_index := applied_index c;
     read_state := read_state c; leader_info := leader_info c; pending_items := items;
     pending_capacity := cap; last_merge_index := last_merge_index c;
     pause := pause c; discard := discard c;
     last_instant_of_update_safe_ts := last_instant_of_update_safe_ts c;
     last_instant_of_consume_leader := last_instant_of_consume_leader c |}.

Definition set_applied (applied : u64) : RegionReadProgressCore :=
  {| core_peer_id := core_peer_id c; core_region_id := core_region_id c; applied_index := applied;
     read_state := read_state c; leader_info := leader_info c; pending_items := pending_items c;
     pending_capacity := pending_capacity c; last_merge_index := last_merge_index c;
     pause := pause c; discard := discard c;
     last_instant_of_update_safe_ts := last_instant_of_update_safe_ts c;
     last_instant_of_consume_leader := last_instant_of_consume_leader c |}.

Definition set_last_merge_index (idx : u64) : RegionReadProgressCore :=
  {| core_peer_id := core_peer_id c; core_region_id := core_region_id c; applied_index := applied_index c;
     read_state := read_state c; leader_info := leader_info c; pending_items := pending_items c;
     pending_capacity := pending_capacity c; last_merge_index := idx;
     pause := pause c; discard := discard c;
     last_instant_of_update_safe_ts := last_instant_of_update_safe_ts c;
     last_instant_of_consume_leader := last_instant_of_consume_leader c |}.

Definition set_flags (p d : bool) : RegionReadProgressCore :=
  {| core_peer_id := core_peer_id c; core_region_id := core_region_id c; applied_index := applied_index c;
     read_state := read_state c; leader_info := leader_info c; pending_items := pending_items c;
     pending_capacity := pending_capacity c; last_merge_index := last_merge_index c;
     pause := p; discard := d;
     last_instant_of_update_safe_ts := last_instant_of_update_safe_ts c;
     last_instant_of_consume_leader := last_instant_of_consume_leader c |}.

Definition set_leader_info (li : LocalLeaderInfo) : RegionReadProgressCore :=
  {| core_peer_id := core_peer_id c; core_region_id := core_region_id c; applied_index := applied_index c;
     read_state := read_state c; leader_info := li; pending_items := pending_items c;
     pending_capacity := pending_capacity c; last_merge_index := last_merge_index c;
     pause := pause c; discard := discard c;
     last_instant_of_update_safe_ts := last_instant_of_update_safe_ts c;
     last_instant_of_consume_leader := last_instant_of_consume_leader c |}.

Definition set_instants (update consume : option instant) : RegionReadProgressCore :=
  {| core_peer_id := core_peer_id c; core_region_id := core_region_id c; applied_index := applied_index c;
     read_state := read_state c; leader_info := leader_info c; pending_items := pending_items c;
     pending_capacity := pending_capacity c; last_merge_index := last_merge_index c;
     pause := pause c; discard := discard c;
     last_instant_of_update_safe_ts := update;
     last_instant_of_consume_leader := consume |}.

End updates.

(** ** [RegionReadProgressCore] *)

(** The loop of [update_applied]: the items left, and the newest state that may
    be used. *)
Fixpoint consume_pending (applied : u64) (items : list ReadState) (to_update : ReadState)
    : list ReadState * ReadState :=
  match items with
  | [] => ([], to_update)
  | item :: rest =>
      if applied <? rs_idx item then (items, to_update)
      else consume_pending applied rest (if rs_ts to_update <? rs_ts item then item else to_update)
  end.

Definition Core_update_applied {E} (c : RegionReadProgressCore) (applied : u64)
    : res E (option u64 * RegionReadProgressCore) :=
  _ ← assert_ (applied_index c <=? applied);
  let c := set_applied c applied in
  let '(items, to_update) := consume_pending (applied_index c) (pending_items c) (read_state c) in
  let c := set_pending c items (pending_capacity c) in
  if rs_ts (read_state c) <? rs_ts to_update then
    Ok (Some (rs_ts to_update), set_read_state c to_update)
  else Ok (None, c).

Definition Core_merge_safe_ts {E} (c : RegionReadProgressCore) (source_safe_ts merge_index : u64)
    : res E (option u64 * RegionReadProgressCore) :=
  '(_, c) ← Core_update_applied c merge_index;
  let c := set_last_merge_index c merge_index in
  let target_safe_ts := rs_ts (read_state c) in
  let ts := Z.min source_safe_ts target_safe_ts in
  let c := set_read_state c {| rs_idx := rs_idx (read_state c); rs_ts := ts |} in
  Ok (if ts =? target_safe_ts then None else Some ts, c).

(** [retain] with the flag that alternates: every second item, from the first. *)
Fixpoint retain_alternate {A} (keep : bool) (l : list A) : list A :=
  match l with
  | [] => []
  | x :: l => if negb keep then x :: retain_alternate true l else retain_alternate false l
  end.

(** [VecDeque::push_back]: a full buffer doubles. *)
Definition grown (len cap : nat) : nat :=
  if (len =? cap)%nat then Nat.max (2 * cap) 4 else cap.

Definition Core_push_back (c : RegionReadProgressCore) (item : ReadState) : RegionReadProgressCore :=
  let items := if (pending_capacity c <=? length (pending_items c))%nat
               then retain_alternate false (pending_items c) else pending_items c in
  set_pending c (items ++ [item]) (grown (length items) (pending_capacity c)).

(** The two [matches!] on instants. *)
Definition later_instant (old now : option instant) : bool :=
  match old, now with
  | None, Some _ => true
  | Some l, Some r => l <? r
  | _, None => false
  end.

Definition Core_update_safe_ts (c : RegionReadProgressCore) (idx ts : u64) (now : option instant)
    : option u64 * RegionReadProgressCore :=
  let c := if later_instant (last_instant_of_update_safe_ts c) now
           then set_instants c now (last_instant_of_consume_leader c) else c in
  if idx <? last_merge_index c then (None, c)
  else if idx <=? applied_index c then
    if rs_ts (read_state c) <? ts then (Some ts, set_read_state c {| rs_idx := idx; rs_ts := ts |})
    else (None, c)
  else
    match last (pending_items c) with
    | Some prev_item =>
        if ts <=? rs_ts prev_item then (None, c)
        else if idx <=? rs_idx prev_item then
          (None, set_pending c (removelast (pending_items c) ++ [{| rs_idx := rs_idx prev_item; rs_ts := ts |}])
                             (pending_capacity c))
        else (None, Core_push_back c {| rs_idx := idx; rs_ts := ts |})
    | None => (None, Core_push_back c {| rs_idx := idx; rs_ts := ts |})
    end.

Definition get_leader_info (c : RegionReadProgressCore) : LeaderInfo :=
  let li := leader_info c in
  {| li_peer_id := lli_leader_id li; li_region_id := core_region_id c; li_term := lli_leader_term li;
     li_region_epoch := lli_epoch li;
     li_read_state := Some (default (read_state c) (last (pending_items c))) |}.

(** ** [RegionReadProgress] *)

Record RegionReadProgress : Type := { core : RegionReadProgressCore; safe_ts : u64 }.

(** [coprocessor.on_update_safe_ts(region_id, self_safe_ts, leader_safe_ts)] *)
Record SafeTsEvent : Type := { ev_region_id : u64; ev_self_safe_ts : u64; ev_leader_safe_ts : u64 }.

(** [INVALID_TIMESTAMP] *)
Definition INVALID_TIMESTAMP : u64 := u64_max.

Definition RegionReadProgress_new (region : MetaRegion) (applied : u64) (cap : nat) (id : u64)
    : RegionReadProgress :=
  {| core := Core_new region applied cap id; safe_ts := 0 |}.

(** [self.safe_ts.store(ts)] under the test of [pause], when there is a new value. *)
Definition store_safe_ts (rp : RegionReadProgress) (r : option u64 * RegionReadProgressCore)
    : RegionReadProgress :=
  let '(updated, c) := r in
  {| core := c;
     safe_ts := match updated with Some ts => if negb (pause c) then ts else safe_ts rp | None => safe_ts rp end |}.

Definition RegionReadProgress_update_applied {E} (rp : RegionReadProgress) (applied : u64)
    : res E (RegionReadProgress * list SafeTsEvent) :=
  '(updated, c) ← Core_update_applied (core rp) applied;
  Ok (store_safe_ts rp (updated, c),
      match updated with
      | Some ts =>
          if negb (pause c)
          then [{| ev_region_id := core_region_id c; ev_self_safe_ts := ts; ev_leader_safe_ts := INVALID_TIMESTAMP |}]
          else []
      | None => []
      end).

Definition update_safe_ts_with_time (rp : RegionReadProgress) (apply_index ts : u64) (now : option instant)
    : RegionReadProgress :=
  if ((apply_index =? 0) || (ts =? 0))%bool then rp
  else if discard (core rp) then rp
  else store_safe_ts rp (Core_update_safe_ts (core rp) apply_index ts now).

Definition RegionReadProgress_merge_safe_ts {E} (rp : RegionReadProgress) (source_safe_ts merge_index : u64)
    : res E (RegionReadProgress * list SafeTsEvent) :=
  '(updated, c) ← Core_merge_safe_ts (core rp) source_safe_ts merge_index;
  Ok (store_safe_ts rp (updated, c),
      match updated with
      | Some ts =>
          if negb (pause c)
          then [{| ev_region_id := core_region_id c; ev_self_safe_ts := ts; ev_leader_safe_ts := ts |}]
          else []
      | None => []
      end).

Definition consume_leader_info (rp : RegionReadProgress) (info : LeaderInfo) (now : option instant)
    : bool * RegionReadProgress * list SafeTsEvent :=
  let c := core rp in
  let c := if later_instant (last_instant_of_consume_leader c) now
           then set_instants c (last_instant_of_update_safe_ts c) now else c in
  let rp := {| core := c; safe_ts := safe_ts rp |} in
  let '(rp, events) :=
    match li_read_state info with
    | Some rs =>
        let rp := if (negb (rs_idx rs =? 0) && negb (rs_ts rs =? 0) && negb (discard c))%bool
                  then store_safe_ts rp (Core_update_safe_ts c (rs_idx rs) (rs_ts rs) now) else rp in
        (rp, [{| ev_region_id := li_region_id info; ev_self_safe_ts := safe_ts rp;
                 ev_leader_safe_ts := rs_ts rs |}])
    | None => (rp, [])
    end in
  let lli := leader_info (core rp) in
  ((lli_leader_term lli =? li_term info) && (lli_leader_id lli =? li_peer_id info)
     && is_region_epoch_equal (lli_epoch lli) (li_region_epoch info), rp, events)%bool.

Definition dump_leader_info (rp : RegionReadProgress) : LeaderInfo * option u64 :=
  (get_leader_info (core rp), lli_leader_store_id (leader_info (core rp))).

Definition update_leader_info (rp : RegionReadProgress) (id term : u64) (region : MetaRegion)
    : RegionReadProgress :=
  let li := leader_info (core rp) in
  let epoch := if is_region_epoch_equal (region_epoch region) (lli_epoch li)
               then lli_epoch li else region_epoch region in
  let peers := if decide (lli_peers li = region_peers region) then lli_peers li else region_peers region in
  {| core := set_leader_info (core rp)
       {| lli_leader_id := id; lli_leader_term := term;
          lli_leader_store_id := find_store_id peers id; lli_epoch := epoch; lli_peers := peers |};
     safe_ts := safe_ts rp |}.

Definition RegionReadProgress_pause (rp : RegionReadProgress) : RegionReadProgress :=
  {| core := set_flags (core rp) true (discard (core rp)); safe_ts := 0 |}.

Definition RegionReadProgress_discard (rp : RegionReadProgress) : RegionReadProgress :=
  {| core := set_flags (core rp) true true; safe_ts := safe_ts rp |}.

Definition RegionReadProgress_resume (rp : RegionReadProgress) : RegionReadProgress :=
  {| core := set_flags (core rp) false false; safe_ts := rs_ts (read_state (core rp)) |}.

(** ** [RegionReadProgressRegistry] *)

Abbreviation RegionReadProgressRegistry := (gmap u64 RegionReadProgress).

Definition get_safe_ts (reg : RegionReadProgressRegistry) (id : u64) : option u64 := safe_ts <$> reg !! id.

Definition get_tracked_index (reg : RegionReadProgressRegistry) (id : u64) : option u64 :=
  (fun rp => rs_idx (read_state (core rp))) <$> reg !! id.

(** [iter().min()] *)
Definition min_of (l : list Z) : option Z :=
  match l with [] => None | x :: l => Some (foldl Z.min x l) end.

Definition get_min_resolved_ts (reg : RegionReadProgressRegistry) : u64 :=
  default 0 (min_of (filter (fun ts => ts <> 0) (map (fun e => safe_ts e.2) (map_to_list reg)))).

(** The loop of [handle_check_leaders]: the regions whose leader is the same here. *)
Fixpoint handle_check_leaders (reg : RegionReadProgressRegistry) (leaders : list LeaderInfo)
    (now : option instant) : list u64 * RegionReadProgressRegistry * list SafeTsEvent :=
  match leaders with
  | [] => ([], reg, [])
  | info :: leaders =>
      match reg !! li_region_id info with
      | Some rp =>
          let '(same, rp, events) := consume_leader_info rp info now in
          let '(regions, reg, events') := handle_check_leaders (<[li_region_id info := rp]> reg) leaders now in
          ((if same then [li_region_id info] else []) ++ regions, reg, events ++ events')
      | None => handle_check_leaders reg leaders now
      end
  end.

(** ** The pending items *)

Definition item_lt (a b : ReadState) : Prop := rs_idx a < rs_idx b /\ rs_ts a < rs_ts b.

(** Sorted, and not applied yet. *)
Definition pending_ok (applied : u64) (items : list ReadState) : Prop :=
  StronglySorted item_lt items /\ Forall (fun i => applied < rs_idx i) items.

Lemma consume_pending_spec applied items st left st' :
  StronglySorted item_lt items -> consume_pending applied items st = (left, st') ->
  exists taken, items = taken ++ left /\ Forall (fun i => rs_idx i <= applied) taken
    /\ pending_ok applied left /\ (st' = st \/ st' ∈ taken)
    /\ rs_ts st <= rs_ts st' /\ Forall (fun i => rs_ts i <= rs_ts st') taken.
Proof.
  revert st. induction items as [|i items IH]; intros st Hs; cbn.
  { intros [= <- <-]. exists []. split_and!; try done; by repeat constructor. }
  inversion_clear Hs as [|?? Hs' Hlt]. destruct (Z.ltb_spec applied (rs_idx i)) as [H|H].
  - intros [= <- <-]. exists []. split_and!; try done; [|by left]. split; [by constructor|].
    constructor; [done|]. eapply Forall_impl; [exact Hlt|]. intros x [Hx _]. lia.
  - intros Hc. apply IH in Hc as (taken & -> & Ht & Hl & Hst & Hle & Hmax); [|done].
    exists (i :: taken). split_and!; try done.
    + by constructor.
    + rewrite elem_of_cons. case_match; tauto.
    + revert Hle. zcase; lia.
    + constructor; [|done]. revert Hle. zcase; lia.
Qed.

Lemma retain_alternate_sublist {A} keep (l : list A) : sublist (retain_alternate keep l) l.
Proof.
  revert keep. induction l as [|x l IH]; intros [|]; cbn; [constructor..| |]; constructor; apply IH.
Qed.

Lemma retain_alternate_length {A} (l : list A) :
  (2 * length (retain_alternate false l) <= length l + 1)%nat
  /\ (2 * length (retain_alternate true l) <= length l)%nat.
Proof. induction l as [|x l [IH1 IH2]]; cbn; lia. Qed.

Lemma pending_ok_sublist applied l k : sublist l k -> pending_ok applied k -> pending_ok applied l.
Proof. intros Hl [Hs Hf]. split; [by eapply StronglySorted_sublist|by eapply sublist_Forall]. Qed.

(** An item above the last one is above all. *)
Lemma above_last l i :
  StronglySorted item_lt l -> (forall p, last l = Some p -> item_lt p i) -> Forall (fun x => item_lt x i) l.
Proof.
  intros Hs Hlast. apply Forall_forall. intros x Hx.
  destruct (last l) as [p|] eqn:Hl; [|apply last_None in Hl; subst l; set_solver].
  specialize (Hlast p eq_refl). apply last_Some in Hl as [l' ->].
  apply elem_of_app in Hx as [Hx | ->%list_elem_of_singleton]; [|done].
  assert (item_lt x p) as [H1 H2] by (by apply (StronglySorted_app_1_elem_of _ l' [p]); [..|set_solver]).
  destruct Hlast. split; lia.
Qed.

Lemma pending_ok_snoc applied l i :
  pending_ok applied l -> applied < rs_idx i -> Forall (fun x => item_lt x i) l -> pending_ok applied (l ++ [i]).
Proof.
  intros [Hs Hf] Hi Habove. split; [|by apply Forall_app_2; [|repeat constructor]].
  apply StronglySorted_app_2; [|done|by repeat constructor].
  intros x y Hx ->%list_elem_of_singleton. rewrite Forall_forall in Habove. by apply Habove.
Qed.

(** The last item may get a newer timestamp. *)
Lemma pending_ok_raise applied l p ts :
  pending_ok applied (l ++ [p]) -> rs_ts p < ts ->
  pending_ok applied (l ++ [{| rs_idx := rs_idx p; rs_ts := ts |}]).
Proof.
  intros [Hs Hf] Hts. apply Forall_app in Hf as [Hf Hp]. inversion_clear Hp.
  apply pending_ok_snoc; [|done|].
  - split; [by eapply StronglySorted_app_1_l|done].
  - apply Forall_forall. intros x Hx.
    assert (item_lt x p) as [] by (by apply (StronglySorted_app_1_elem_of _ l [p]); [..|set_solver]).
    split; cbn; lia.
Qed.

(** ** Completeness

    The history of a region: the records that ever become visible in it, each
    with the index at which its range joined the region (0 for the range it had
    at first, the index of the merge otherwise), the index at which it becomes
    visible, and its commit timestamp. *)

Record HistoryItem : Type := { h_joined : u64; h_index : u64; h_commit_ts : u64 }.

(** Of the ranges that joined up to [j], everything committed up to [ts] is
    visible at [idx]. *)
Definition complete_upto (history : list HistoryItem) (j idx ts : u64) : Prop :=
  forall h, h ∈ history -> h_joined h <= j -> h_commit_ts h <= ts -> h_index h <= idx.

Definition complete (history : list HistoryItem) (idx ts : u64) : Prop := complete_upto history idx idx ts.

(** No range joins between two indexes. *)
Definition no_join (history : list HistoryItem) (from to : u64) : Prop :=
  forall h, h ∈ history -> ~ (from < h_joined h <= to).

Section safety.
Context (history : list HistoryItem).

(** No item from before a merge raises the timestamp of one from behind it. *)
Definition in_order (rp : RegionReadProgress) (idx ts : u64) : Prop :=
  forall p, last (pending_items (core rp)) = Some p -> applied_index (core rp) < idx -> rs_ts p < ts ->
    no_join history idx (rs_idx p).

(** What happens to the progress of a replica in good order: items are published
    that are complete where they were taken; commands are applied; a region merges,
    with the source's own safe timestamp; a witness, a snapshot or a merge pauses
    and resumes it. *)
Inductive rp_step : RegionReadProgress -> RegionReadProgress -> Prop :=
| step_publish rp idx ts now :
    complete history idx ts -> in_order rp idx ts ->
    rp_step rp (update_safe_ts_with_time rp idx ts now)
| step_consume rp info now same rp' events :
    (forall rs, li_read_state info = Some rs ->
       complete history (rs_idx rs) (rs_ts rs) /\ in_order rp (rs_idx rs) (rs_ts rs)) ->
    consume_leader_info rp info now = (same, rp', events) -> rp_step rp rp'
| step_apply rp applied rp' events :
    no_join history (applied_index (core rp)) applied ->
    RegionReadProgress_update_applied (E := Empty_set) rp applied = Ok (rp', events) -> rp_step rp rp'
| step_merge rp source m rp' events :
    no_join history (applied_index (core rp)) (m - 1) ->
    (forall h, h ∈ history -> h_joined h = m -> h_commit_ts h <= source -> h_index h <= m) ->
    (discard (core rp) = true -> forall h, h ∈ history -> h_joined h <> m) ->
    RegionReadProgress_merge_safe_ts (E := Empty_set) rp source m = Ok (rp', events) -> rp_step rp rp'
| step_leader rp id term region : rp_step rp (update_leader_info rp id term region)
| step_pause rp : rp_step rp (RegionReadProgress_pause rp)
| step_discard rp : rp_step rp (RegionReadProgress_discard rp)
| step_resume rp : rp_step rp (RegionReadProgress_resume rp).

Record core_inv (c : RegionReadProgressCore) : Prop := {
  ci_read : complete history (applied_index c) (rs_ts (read_state c));
  ci_pending : pending_ok (applied_index c) (pending_items c);
  ci_items : Forall (fun i => complete history (rs_idx i) (rs_ts i)) (pending_items c);
  ci_merge : last_merge_index c <= applied_index c;
  ci_joined : forall h, h ∈ history -> h_joined h <= applied_index c -> h_joined h <= last_merge_index c
}.

Record rp_inv (rp : RegionReadProgress) : Prop := {
  ri_core : core_inv (core rp);
  ri_safe : complete history (applied_index (core rp)) (safe_ts rp);
  ri_running : pause (core rp) = false -> safe_ts rp <= rs_ts (read_state (core rp));
  ri_paused : pause (core rp) = true -> discard (core rp) = false -> safe_ts rp = 0;
  ri_discard : discard (core rp) = true -> pause (core rp) = true
}.

Hypothesis history_positive : forall h, h ∈ history -> 0 < h_commit_ts h.

Lemma complete_zero idx : complete history idx 0.
Proof. intros h Hh _ Hts. specialize (history_positive h Hh). lia. Qed.

Lemma complete_upto_below j idx ts ts' :
  complete_upto history j idx ts -> ts' <= ts -> complete_upto history j idx ts'.
Proof. intros Hc Hle h Hh Hj Hts. apply Hc; [done|done|lia]. Qed.

Lemma complete_extend idx ts j idx' :
  complete history idx ts -> no_join history idx j -> idx <= idx' -> complete_upto history j idx' ts.
Proof.
  intros Hc Hn Hle h Hh Hj Hts. destruct (Z.le_gt_cases (h_joined h) idx) as [H|H].
  - specialize (Hc h Hh H Hts). lia.
  - destruct (Hn h Hh). lia.
Qed.

Lemma no_join_weaken from to from' to' :
  no_join history from to -> from <= from' -> to' <= to -> no_join history from' to'.
Proof. intros Hn H1 H2 h Hh Hj. apply (Hn h Hh). lia. Qed.

Lemma item_complete from j applied i :
  no_join history from j -> from < rs_idx i <= applied -> complete history (rs_idx i) (rs_ts i) ->
  complete_upto history j applied (rs_ts i).
Proof.
  intros Hn Hi Hc. apply (complete_extend (rs_idx i)); [done| |lia].
  by apply (no_join_weaken from j); [|lia|].
Qed.

(** What a method of the core returns: the new timestamp, or nothing if it has not
    fallen. *)
Definition reports (r : option u64) (c c' : RegionReadProgressCore) : Prop :=
  (forall ts, r = Some ts -> rs_ts (read_state c') = ts)
  /\ (r = None -> rs_ts (read_state c) <= rs_ts (read_state c')).

Definition same_flags (c c' : RegionReadProgressCore) : Prop := pause c' = pause c /\ discard c' = discard c.

Lemma Core_update_applied_spec j c applied r c' :
  core_inv c -> no_join history (applied_index c) j -> j <= applied ->
  Core_update_applied (E := Empty_set) c applied = Ok (r, c') ->
  applied_index c <= applied /\ applied_index c' = applied /\ last_merge_index c' = last_merge_index c
  /\ complete_upto history j applied (rs_ts (read_state c'))
  /\ pending_ok applied (pending_items c')
  /\ Forall (fun i => complete history (rs_idx i) (rs_ts i)) (pending_items c')
  /\ same_flags c c' /\ reports r c c' /\ rs_ts (read_state c) <= rs_ts (read_state c').
Proof.
  intros [Hr [Hs Hgt] Hi _ _] Hn Hj. unfold Core_update_applied. cbn.
  destruct (Z.leb_spec (applied_index c) applied) as [Hle|]; cbn; [|done].
  destruct (consume_pending _ _ _) as [left st'] eqn:Hc. cbn.
  apply consume_pending_spec in Hc as (taken & Heq & Ht & Hl & Hst & Hmono & _); [|done].
  rewrite Heq in Hi, Hgt. apply Forall_app in Hi as [Hi1 Hi2], Hgt as [Hgt1 _].
  assert (complete_upto history j applied (rs_ts (read_state c))) as Hold.
  { by apply (complete_extend (applied_index c)). }
  assert (complete_upto history j applied (rs_ts st')) as Hnew.
  { destruct Hst as [-> | Hin]; [done|]. rewrite Forall_forall in Hi1, Hgt1, Ht.
    apply (item_complete (applied_index c)); [done| |by apply Hi1].
    specialize (Hgt1 _ Hin). specialize (Ht _ Hin). cbn in *. lia. }
  destruct (Z.ltb_spec (rs_ts (read_state c)) (rs_ts st')); intros [= <- <-]; cbn.
  - split_and!; try done. split; [by intros ? [= <-]|done].
  - by split_and!.
Qed.

Lemma Core_push_back_pending c i applied :
  pending_ok applied (pending_items c) -> applied < rs_idx i ->
  (forall p, last (pending_items c) = Some p -> item_lt p i) ->
  pending_ok applied (pending_items (Core_push_back c i))
  /\ forall P : ReadState -> Prop, Forall P (pending_items c) -> P i -> Forall P (pending_items (Core_push_back c i)).
Proof.
  intros Hok Hi Hlast. unfold Core_push_back. cbn.
  set (items := if _ : bool then _ else _).
  assert (sublist items (pending_items c)) as Hsub.
  { subst items. case_match; [apply retain_alternate_sublist|done]. }
  split.
  - apply pending_ok_snoc; [by eapply pending_ok_sublist|done|].
    eapply sublist_Forall; [done|]. apply above_last; [apply Hok|done].
  - intros P HP Hpi. apply Forall_app_2; [by eapply sublist_Forall|by constructor].
Qed.

Lemma Core_update_safe_ts_spec c idx ts now r c' :
  core_inv c -> complete history idx ts ->
  (forall p, last (pending_items c) = Some p -> applied_index c < idx -> rs_ts p < ts -> no_join history idx (rs_idx p)) ->
  Core_update_safe_ts c idx ts now = (r, c') ->
  core_inv c' /\ applied_index c' = applied_index c /\ same_flags c c' /\ reports r c c'.
Proof.
  intros Hc Hts Hord. unfold Core_update_safe_ts.
  set (c0 := if later_instant _ _ then _ else _).
  assert (core_inv c0 /\ applied_index c0 = applied_index c /\ same_flags c c0
          /\ rs_ts (read_state c0) = rs_ts (read_state c) /\ pending_items c0 = pending_items c)
    as (Hi & Ha & [Hp Hd] & Hr & Hpi).
  { subst c0. case_match; [|done]. by destruct Hc. }
  clearbody c0. unfold same_flags, reports. rewrite <-Hpi, <-Ha in Hord. rewrite <-Ha, <-Hp, <-Hd, <-Hr.
  clear Hc Ha Hp Hd Hr Hpi c.
  destruct Hi as [Hread Hpend Hitems Hmerge Hjoin].
  destruct (Z.ltb_spec idx (last_merge_index c0)); [intros [= <- <-]; by split_and!|].
  destruct (Z.leb_spec idx (applied_index c0)) as [Hle|Hgt].
  - destruct (Z.ltb_spec (rs_ts (read_state c0)) ts); intros [= <- <-]; [|by split_and!].
    split_and!; try done; [|by intros ? [= <-]]. split; try done. cbn.
    apply (complete_extend idx); [done| |done]. intros h Hh Hj. specialize (Hjoin h Hh). lia.
  - assert ((forall p, last (pending_items c0) = Some p -> item_lt p {| rs_idx := idx; rs_ts := ts |}) ->
      core_inv (Core_push_back c0 {| rs_idx := idx; rs_ts := ts |})) as Hpush.
    { intros Hlast. destruct (Core_push_back_pending c0 (Build_ReadState idx ts) (applied_index c0) Hpend Hgt Hlast) as [H1 H2].
      split; try done. by apply H2. }
    destruct (last (pending_items c0)) as [p|] eqn:Hlast.
    + destruct (Z.leb_spec ts (rs_ts p)); [intros [= <- <-]; by split_and!|].
      destruct (Z.leb_spec idx (rs_idx p)); intros [= <- <-]; split_and!; try done.
      * apply last_Some in Hlast as [l Hl]. rewrite Hl in *. rewrite removelast_last.
        apply Forall_app in Hitems as [Hl1 _].
        split; try done; cbn; rewrite ?Hl; [by apply (pending_ok_raise _ l p)|].
        apply Forall_app_2; [done|]. apply Forall_singleton. cbn.
        apply (complete_extend idx); [done| |done]. by apply Hord.
      * apply Hpush. by intros q [= <-].
    + intros [= <- <-]. split_and!; try done. by apply Hpush.
Qed.

Lemma store_safe_ts_inv rp r c' :
  rp_inv rp -> core_inv c' -> same_flags (core rp) c' -> reports r (core rp) c' ->
  (pause (core rp) = true -> complete history (applied_index c') (safe_ts rp)) ->
  rp_inv (store_safe_ts rp (r, c')).
Proof.
  intros [Hc Hs Hrun Hpa Hd] Hc' [Hp' Hd'] [Hsome Hnone] Hkeep. unfold store_safe_ts.
  split; cbn; try done; rewrite ?Hp', ?Hd'; [| | |done].
  - destruct (pause (core rp)) eqn:Hpause; destruct r as [ts|]; cbn.
    + by apply Hkeep.
    + by apply Hkeep.
    + rewrite <-(Hsome ts eq_refl). apply Hc'.
    + apply (complete_upto_below _ _ (rs_ts (read_state c'))); [apply Hc'|].
      specialize (Hrun eq_refl). specialize (Hnone eq_refl). lia.
  - intros Hpause. rewrite Hpause. destruct r as [ts|]; cbn; [by rewrite (Hsome ts)|].
    specialize (Hrun Hpause). specialize (Hnone eq_refl). lia.
  - intros Hpause. rewrite Hpause. intros Hdis. destruct r; cbn; by apply Hpa.
Qed.

Lemma publish_inv rp idx ts now :
  rp_inv rp -> complete history idx ts -> in_order rp idx ts ->
  rp_inv (store_safe_ts rp (Core_update_safe_ts (core rp) idx ts now)).
Proof.
  intros Hrp Hc Hord. destruct (Core_update_safe_ts _ _ _ _) as [r c'] eqn:Hu.
  apply Core_update_safe_ts_spec in Hu as (Hc' & Ha & Hf & Hr); [|apply Hrp|done|done].
  apply store_safe_ts_inv; try done. rewrite Ha. intros _. apply Hrp.
Qed.

Lemma apply_inv rp applied rp' events :
  rp_inv rp -> no_join history (applied_index (core rp)) applied ->
  RegionReadProgress_update_applied (E := Empty_set) rp applied = Ok (rp', events) -> rp_inv rp'.
Proof.
  intros Hrp Hn. unfold RegionReadProgress_update_applied. intros H. res_inv. destruct a as [r c'].
  destruct (ri_core _ Hrp) as [_ _ _ Hm Hj].
  apply (Core_update_applied_spec applied) in H0 as (Hle & Ha & Hl & Hread & Hp & Hi & Hf & Hr & _);
    [|apply Hrp|done..].
  injection H as <- _. apply store_safe_ts_inv; try done.
  - rewrite <-Ha in Hread, Hp, Hle, Hn. split; try done; [lia|]. intros h Hh Hjh. rewrite Hl. apply Hj; [done|].
    destruct (Z.le_gt_cases (h_joined h) (applied_index (core rp))); [done|]. destruct (Hn h Hh). lia.
  - intros _. rewrite Ha. apply (complete_extend (applied_index (core rp))); [apply Hrp|done|done].
Qed.

Lemma merge_inv rp source m rp' events :
  rp_inv rp -> no_join history (applied_index (core rp)) (m - 1) ->
  (forall h, h ∈ history -> h_joined h = m -> h_commit_ts h <= source -> h_index h <= m) ->
  (discard (core rp) = true -> forall h, h ∈ history -> h_joined h <> m) ->
  RegionReadProgress_merge_safe_ts (E := Empty_set) rp source m = Ok (rp', events) -> rp_inv rp'.
Proof.
  intros Hrp Hn Hsrc Hd. unfold RegionReadProgress_merge_safe_ts, Core_merge_safe_ts. intros H. res_inv.
  destruct a0 as [r0 c0]. cbn in H0. injection H0 as <-.
  match type of H with Ok (?x, _) = _ => assert (rp' = x) as -> by congruence end.
  apply (Core_update_applied_spec (m - 1)) in H1 as (Hle & Ha & Hl & Hread & Hp & Hi & [Hp1 Hd1] & _ & Hmono);
    [|apply Hrp|done|lia].
  apply store_safe_ts_inv; try done.
  - split; cbn; rewrite ?Ha; try done.
    intros h Hh Hj Hts. destruct (Z.eq_dec (h_joined h) m); [apply Hsrc; [done|done|lia]|].
    apply Hread; [done|lia|lia].
  - split; cbn; destruct (Z.eqb_spec (source `min` rs_ts (read_state c0)) (rs_ts (read_state c0))) as [E|E];
      [done|by intros ? [= <-]|by rewrite E|done].
  - intros Hpause. destruct (discard (core rp)) eqn:Hdis; [|rewrite (ri_paused _ Hrp Hpause Hdis); apply complete_zero].
    cbn. rewrite Ha. apply (complete_extend (applied_index (core rp))); [apply Hrp| |done].
    intros h Hh Hj. specialize (Hd eq_refl h Hh). apply (Hn h Hh). lia.
Qed.

Lemma consume_inv rp info now same rp' events :
  rp_inv rp ->
  (forall rs, li_read_state info = Some rs ->
     complete history (rs_idx rs) (rs_ts rs) /\ in_order rp (rs_idx rs) (rs_ts rs)) ->
  consume_leader_info rp info now = (same, rp', events) -> rp_inv rp'.
Proof.
  intros Hrp Hrs. unfold consume_leader_info. set (c := if later_instant _ _ then _ else _).
  assert (rp_inv {| core := c; safe_ts := safe_ts rp |}) as Hrp1.
  { subst c. case_match; [|by destruct rp]. destruct Hrp as [[]]. by split. }
  assert (pending_items c = pending_items (core rp)) as Hpend by (subst c; by case_match).
  destruct (li_read_state info) as [rs|]; cbn; [|by intros [= _ <- _]].
  destruct (Hrs rs eq_refl) as [Hc Hord].
  assert (applied_index c = applied_index (core rp)) as Happ by (subst c; by case_match).
  assert (in_order {| core := c; safe_ts := safe_ts rp |} (rs_idx rs) (rs_ts rs)) as Hord1.
  { unfold in_order. cbn. by rewrite Hpend, Happ. }
  pose proof (publish_inv _ (rs_idx rs) (rs_ts rs) now Hrp1 Hc Hord1) as Hpub.
  intros [= _ <- _]. case_match; [exact Hpub|exact Hrp1].
Qed.

Lemma rp_step_inv rp rp' : rp_step rp rp' -> rp_inv rp -> rp_inv rp'.
Proof.
  intros Hstep Hrp. destruct Hstep as [rp idx ts now Hc Hord|rp info now same rp' events Hrs Hcons|
    rp applied rp' events Hn Hu|rp source m rp' events Hn Hsrc Hd Hm|rp id term region|rp|rp|rp].
  - unfold update_safe_ts_with_time. repeat case_match; try done. by apply publish_inv.
  - by eapply consume_inv.
  - by eapply apply_inv.
  - by eapply merge_inv.
  - by destruct Hrp as [[]].
  - destruct Hrp as [[]]. split; cbn; try done. apply complete_zero.
  - destruct Hrp as [[]]. by split.
  - destruct Hrp as [[]]. by split.
Qed.

Lemma new_inv region applied cap id :
  no_join history 0 applied -> 0 <= applied -> rp_inv (RegionReadProgress_new region applied cap id).
Proof.
  intros Hn Ha. split; cbn; try done; [|apply complete_zero].
  split; cbn; try done; [apply complete_zero|by repeat constructor|].
  intros h Hh Hj. destruct (Z.le_gt_cases (h_joined h) 0); [done|]. destruct (Hn h Hh). lia.
Qed.

Lemma rp_steps_inv rp rp' : rtc rp_step rp rp' -> rp_inv rp -> rp_inv rp'.
Proof. induction 1; [done|]. eauto using rp_step_inv. Qed.

End safety.

(** ** Any order *)

(** The merges that an item crosses: it raises the last pending item, which is from
    behind them. *)
Definition crossing (rp : RegionReadProgress) (idx ts : u64) : list (u64 * u64) :=
  match last (pending_items (core rp)) with
  | Some p => if ((applied_index (core rp) <? idx) && (rs_ts p <? ts))%bool then [(idx, rs_idx p)] else []
  | None => []
  end.

(** The record is in a range that joined within one of the intervals. *)
Definition joined_within (crossed : list (u64 * u64)) (h : HistoryItem) : bool :=
  existsb (fun i => (i.1 <? h_joined h) && (h_joined h <=? i.2))%bool crossed.

(** What can happen to the progress of a replica, with the merges that have been
    crossed by an item or have happened while items were discarded. *)
Inductive progress_step (history : list HistoryItem)
    : RegionReadProgress * list (u64 * u64) -> RegionReadProgress * list (u64 * u64) -> Prop :=
| ps_publish rp crossed idx ts now :
    complete history idx ts ->
    progress_step history (rp, crossed) (update_safe_ts_with_time rp idx ts now, crossed ++ crossing rp idx ts)
| ps_consume rp crossed info now same rp' events :
    (forall rs, li_read_state info = Some rs -> complete history (rs_idx rs) (rs_ts rs)) ->
    consume_leader_info rp info now = (same, rp', events) ->
    progress_step history (rp, crossed)
      (rp', crossed ++ match li_read_state info with Some rs => crossing rp (rs_idx rs) (rs_ts rs) | None => [] end)
| ps_apply rp crossed applied rp' events :
    no_join history (applied_index (core rp)) applied ->
    RegionReadProgress_update_applied (E := Empty_set) rp applied = Ok (rp', events) ->
    progress_step history (rp, crossed) (rp', crossed)
| ps_merge rp crossed source m rp' events :
    no_join history (applied_index (core rp)) (m - 1) ->
    (forall h, h ∈ history -> h_joined h = m -> h_commit_ts h <= source -> h_index h <= m) ->
    RegionReadProgress_merge_safe_ts (E := Empty_set) rp source m = Ok (rp', events) ->
    progress_step history (rp, crossed) (rp', crossed ++ if discard (core rp) then [(m - 1, m)] else [])
| ps_leader rp crossed id term region : progress_step history (rp, crossed) (update_leader_info rp id term region, crossed)
| ps_pause rp crossed : progress_step history (rp, crossed) (RegionReadProgress_pause rp, crossed)
| ps_discard rp crossed : progress_step history (rp, crossed) (RegionReadProgress_discard rp, crossed)
| ps_resume rp crossed : progress_step history (rp, crossed) (RegionReadProgress_resume rp, crossed).

(** The records whose ranges joined undisturbed. *)
Definition undisturbed (crossed : list (u64 * u64)) (history : list HistoryItem) : list HistoryItem :=
  List.filter (fun h => negb (joined_within crossed h)) history.

Lemma undisturbed_elem crossed history h :
  h ∈ undisturbed crossed history <-> h ∈ history /\ joined_within crossed h = false.
Proof. unfold undisturbed. by rewrite list_elem_of_In, filter_In, negb_true_iff, <-list_elem_of_In. Qed.

Lemma undisturbed_no_join crossed history i :
  i ∈ crossed -> no_join (undisturbed crossed history) i.1 i.2.
Proof.
  intros Hi h [_ Hj]%undisturbed_elem Hin. apply not_true_iff_false in Hj. apply Hj.
  apply existsb_exists. exists i. split; [by apply list_elem_of_In|].
  apply andb_true_intro. split; [apply Z.ltb_lt|apply Z.leb_le]; lia.
Qed.

Lemma undisturbed_complete crossed history idx ts :
  complete history idx ts -> complete (undisturbed crossed history) idx ts.
Proof. intros Hc h [Hh _]%undisturbed_elem. by apply Hc. Qed.

Lemma undisturbed_joins crossed history from to :
  no_join history from to -> no_join (undisturbed crossed history) from to.
Proof. intros Hn h [Hh _]%undisturbed_elem. by apply Hn. Qed.

Lemma crossing_in_order crossed history rp idx ts :
  crossing rp idx ts ⊆ crossed -> in_order (undisturbed crossed history) rp idx ts.
Proof.
  intros Hsub p Hp Ha Hts. apply (undisturbed_no_join crossed history (idx, rs_idx p)), Hsub.
  unfold crossing. rewrite Hp, (proj2 (Z.ltb_lt _ _) Ha), (proj2 (Z.ltb_lt _ _) Hts). by left.
Qed.

(** For the undisturbed records every step is one in good order. *)
Lemma progress_step_sim history final x y :
  progress_step history x y -> y.2 ⊆ final -> rp_step (undisturbed final history) x.1 y.1 /\ x.2 ⊆ final.
Proof.
  intros Hstep Hsub. destruct Hstep as [rp cr idx ts now Hc|rp cr info now same rp' ev Hrs Hcons|rp cr applied rp' ev Hn Hu|
    rp cr source m rp' ev Hn Hsrc Hm|rp cr id term region|rp cr|rp cr|rp cr]; cbn [fst snd] in *;
    (split; [|set_solver]).
  - apply step_publish; [by apply undisturbed_complete|]. apply crossing_in_order. set_solver.
  - eapply step_consume; [|exact Hcons]. intros rs Hr. rewrite Hr in Hsub.
    split; [by apply undisturbed_complete, Hrs|]. apply crossing_in_order. set_solver.
  - eapply step_apply; [by apply undisturbed_joins|exact Hu].
  - eapply step_merge; [by apply undisturbed_joins| | |exact Hm].
    + intros h [Hh _]%undisturbed_elem. by apply Hsrc.
    + intros Hd h Hh Hj. rewrite Hd in Hsub. apply (undisturbed_no_join final history (m - 1, m)) in Hh; [cbn in Hh; lia|].
      set_solver.
  - constructor.
  - constructor.
  - constructor.
  - constructor.
Qed.

Lemma progress_steps_sim history final x y :
  rtc (progress_step history) x y -> y.2 ⊆ final -> rtc (rp_step (undisturbed final history)) x.1 y.1 /\ x.2 ⊆ final.
Proof.
  intros Hrtc Hsub. induction Hrtc as [x|x y z Hstep _ IH]; [done|]. destruct (IH Hsub) as [Hr Hy].
  destruct (progress_step_sim history final x y Hstep Hy) as [Hs Hx]. split; [by eapply rtc_l|done].
Qed.

(** C21. A replica's safe timestamp is safe.  Items are published that are
    complete at their own index, commands are applied, regions merge, each source
    with a safe timestamp of its own, and the replica pauses, discards and resumes,
    all in any order.  Every record ever committed at or below the replica's
    [safe_ts], in a range that has joined its region, is visible in what it has
    applied, so that a read at [safe_ts] misses nothing, now or later; except for
    ranges that joined by a merge which an item from before it has crossed, by
    raising a pending item from behind it, or which happened while the replica
    discarded items. *)
Theorem read_progress_safe history region applied cap id rp crossed h :
  (forall h, h ∈ history -> 0 < h_commit_ts h) ->
  0 <= applied -> no_join history 0 applied ->
  rtc (progress_step history) (RegionReadProgress_new region applied cap id, []) (rp, crossed) ->
  h ∈ history -> joined_within crossed h = false ->
  h_joined h <= applied_index (core rp) -> h_commit_ts h <= safe_ts rp ->
  h_index h <= applied_index (core rp).
Proof.
  intros Hpos Ha Hn Hrtc Hh Hcr Hj Hts. apply (progress_steps_sim history crossed) in Hrtc as [Hrtc _]; [|done].
  assert (forall h, h ∈ undisturbed crossed history -> 0 < h_commit_ts h) as Hpos'.
  { intros h' [Hh' _]%undisturbed_elem. by apply Hpos. }
  apply (rp_steps_inv _ Hpos') in Hrtc as [_ Hs _ _ _]; [|by apply new_inv; [..|apply undisturbed_joins|]].
  by apply Hs; [apply undisturbed_elem|..].
Qed.

(** A region that merged at index 15 and took in a record committed at 100. *)
Definition merge_history : list HistoryItem := [{| h_joined := 15; h_index := 15; h_commit_ts := 100 |}].
Definition run_region : MetaRegion :=
  {| region_id := 7; region_epoch := {| conf_ver := 1; epoch_version := 1 |};
     region_peers := [{| peer_id := 1; peer_store_id := 1; peer_role := Voter; peer_is_witness := false |}] |}.

Lemma read_progress_safe_witness :
  exists rp, rtc (progress_step merge_history) (RegionReadProgress_new run_region 5 128 1, []) (rp, []) /\ safe_ts rp = 120
    /\ (15 <= applied_index (core rp) -> 100 <= safe_ts rp -> 15 <= applied_index (core rp)).
Proof.
  set (rp1 := update_safe_ts_with_time (RegionReadProgress_new run_region 5 128 1) 10 130 None).
  destruct (RegionReadProgress_merge_safe_ts (E := Empty_set) rp1 120 15) as [[rp2 ev]| |] eqn:Hm; [|done..].
  assert (rtc (progress_step merge_history) (RegionReadProgress_new run_region 5 128 1, []) (rp2, [])) as Hrtc.
  { eapply rtc_l; [apply (ps_publish _ _ [] 10 130 None)|eapply rtc_once, (ps_merge _ rp1 [] 120 15 rp2 ev)]; try done.
    - intros h ->%list_elem_of_singleton. cbn. lia.
    - intros h ->%list_elem_of_singleton. cbn. lia.
    - intros h ->%list_elem_of_singleton. cbn. lia. }
  exists rp2. split_and!; [done|by vm_compute in Hm; injection Hm as <- _|].
  refine (read_progress_safe merge_history run_region 5 128 1 rp2 []
    {| h_joined := 15; h_index := 15; h_commit_ts := 100 |} _ _ _ Hrtc _ eq_refl); [|lia| |set_solver].
  - intros h ->%list_elem_of_singleton. cbn. lia.
  - intros h ->%list_elem_of_singleton. cbn. lia.
Defined.

(** An item from before a merge can undo the merge's decrease.  Each item is
    complete where it was taken: the one of index 20, from behind the merge at
    15, up to 100, and the one of index 10, from before it, up to 200.  When the
    older item arrives second it does not reach the test of [last_merge_index]
    but raises the timestamp of the pending item of index 20; after the merge
    and index 20 the replica's [safe_ts] is 200, and a record of the merged
    range, committed at 150, is still to come. *)
Theorem stale_item_undoes_merge :
  let history := [{| h_joined := 15; h_index := 25; h_commit_ts := 150 |}] in
  let rp := update_safe_ts_with_time
    (update_safe_ts_with_time (RegionReadProgress_new run_region 5 128 1) 20 100 None) 10 200 None in
  complete history 20 100 /\ complete history 10 200
  /\ (forall h, h ∈ history -> h_joined h = 15 -> h_commit_ts h <= 100 -> h_index h <= 15)
  /\ exists rp1 rp2 ev1 ev2,
      RegionReadProgress_merge_safe_ts (E := Empty_set) rp 100 15 = Ok (rp1, ev1)
      /\ RegionReadProgress_update_applied (E := Empty_set) rp1 20 = Ok (rp2, ev2)
      /\ safe_ts rp2 = 200 /\ ~ complete history 20 (safe_ts rp2).
Proof.
  intros history rp. split_and!.
  - intros h ->%list_elem_of_singleton. cbn. lia.
  - intros h ->%list_elem_of_singleton. cbn. lia.
  - intros h ->%list_elem_of_singleton. cbn. lia.
  - eexists _, _, _, _. split_and!; [vm_compute; reflexivity|vm_compute; reflexivity|reflexivity|].
    intros Hc. specialize (Hc {| h_joined := 15; h_index := 25; h_commit_ts := 150 |}). cbn in Hc.
    apply Hc; [by left|lia|lia|reflexivity].
Qed.

(** ** Items published in order *)

Inductive progress_op : Type :=
| Publish (item : ReadState)
| Applied (applied : u64).

Definition run_op {E} (rp : RegionReadProgress) (op : progress_op) : res E RegionReadProgress :=
  match op with
  | Publish i => Ok (update_safe_ts_with_time rp (rs_idx i) (rs_ts i) None)
  | Applied a => fst <$> RegionReadProgress_update_applied rp a
  end.

Fixpoint run_ops {E} (rp : RegionReadProgress) (ops : list progress_op) : res E RegionReadProgress :=
  match ops with
  | [] => Ok rp
  | op :: ops => rp ← run_op rp op; run_ops rp ops
  end.

Definition published (ops : list progress_op) : list ReadState :=
  omap (fun op => match op with Publish i => Some i | Applied _ => None end) ops.
Definition applications (ops : list progress_op) : list u64 :=
  omap (fun op => match op with Publish _ => None | Applied a => Some a end) ops.

(** The comment of [RegionReadProgress]: every item whose index is applied
    counts. *)
Fixpoint spec_safe_ts (items : list ReadState) (applied : u64) : u64 :=
  match items with
  | [] => 0
  | i :: items =>
      if rs_idx i <=? applied then Z.max (rs_ts i) (spec_safe_ts items applied)
      else spec_safe_ts items applied
  end.

Definition item_le (a b : ReadState) : Prop := rs_idx a <= rs_idx b /\ rs_ts a <= rs_ts b.

Lemma spec_nonneg items a : 0 <= spec_safe_ts items a.
Proof. induction items; cbn; [done|]. case_match; lia. Qed.

Lemma spec_app l k a : spec_safe_ts (l ++ k) a = Z.max (spec_safe_ts l a) (spec_safe_ts k a).
Proof.
  induction l as [|i l IH]; cbn; [pose proof (spec_nonneg k a); lia|]. rewrite IH. case_match; lia.
Qed.

Lemma spec_bound items a b : 0 <= b -> Forall (fun i => rs_ts i <= b) items -> spec_safe_ts items a <= b.
Proof. intros Hb. induction 1; cbn; [done|]. case_match; lia. Qed.

Lemma spec_elem items a i : i ∈ items -> rs_idx i <= a -> rs_ts i <= spec_safe_ts items a.
Proof.
  intros Hi Ha. induction items as [|x items IH]; [by apply not_elem_of_nil in Hi|]. cbn.
  apply elem_of_cons in Hi as [<- | Hi]; [rewrite (proj2 (Z.leb_le _ _) Ha); lia|].
  specialize (IH Hi). case_match; lia.
Qed.

Lemma spec_pending items a : Forall (fun i => a < rs_idx i) items -> spec_safe_ts items a = 0.
Proof. induction 1 as [|i l Hi _ IH]; cbn; [done|]. by rewrite (proj2 (Z.leb_gt _ _) Hi). Qed.

(** What has been published and is applied, at the present index and at every
    later one, is in the read state or among the pending items. *)
Record accounts (items : list ReadState) (rp : RegionReadProgress) : Prop := {
  ac_pause : pause (core rp) = false;
  ac_discard : discard (core rp) = false;
  ac_merge : last_merge_index (core rp) = 0;
  ac_safe : safe_ts rp = rs_ts (read_state (core rp));
  ac_read : 0 <= safe_ts rp;
  ac_pending : pending_ok (applied_index (core rp)) (pending_items (core rp));
  ac_length : (length (pending_items (core rp)) <= length items)%nat;
  ac_index : Forall (fun p => exists i, i ∈ items /\ rs_idx i = rs_idx p) (pending_items (core rp));
  ac_spec : forall a, applied_index (core rp) <= a ->
    spec_safe_ts items a = Z.max (safe_ts rp) (spec_safe_ts (pending_items (core rp)) a)
}.

Lemma accounts_now items rp : accounts items rp -> safe_ts rp = spec_safe_ts items (applied_index (core rp)).
Proof.
  intros [_ _ _ _ Hr [_ Hp] _ _ Hs]. rewrite Hs by done.
  rewrite (spec_pending (pending_items (core rp))) by done. lia.
Qed.

Lemma accounts_applied items rp applied :
  accounts items rp -> applied_index (core rp) <= applied ->
  exists rp' ev, RegionReadProgress_update_applied (E := Empty_set) rp applied = Ok (rp', ev)
    /\ accounts items rp' /\ applied_index (core rp') = applied
    /\ pending_capacity (core rp') = pending_capacity (core rp).
Proof.
  intros [Hpa Hd Hm Hs Hr [Hso Hgt] Hlen Hidx Hsp] Hle.
  unfold RegionReadProgress_update_applied, Core_update_applied. rewrite (proj2 (Z.leb_le _ _) Hle). cbn.
  destruct (consume_pending _ _ _) as [left st'] eqn:Hc. cbn.
  apply consume_pending_spec in Hc as (taken & Heq & Ht & Hl & Hst & Hmono & Hmax); [|done].
  rewrite Heq in Hidx, Hlen, Hsp, Hgt. rewrite length_app in Hlen. apply Forall_app in Hidx as [_ Hidx].
  assert (forall a, applied <= a -> spec_safe_ts items a = Z.max (rs_ts st') (spec_safe_ts left a)) as Hsp'.
  { intros a Ha. rewrite Hsp, spec_app by lia.
    assert (Z.max (safe_ts rp) (spec_safe_ts taken a) = rs_ts st'); [|lia].
    assert (spec_safe_ts taken a <= rs_ts st') by (apply spec_bound; [lia|done]).
    destruct Hst as [-> | Hin]; [lia|].
    rewrite Forall_forall in Ht. specialize (Ht _ Hin). pose proof (spec_elem taken a st' Hin). lia. }
  destruct (Z.ltb_spec (rs_ts (read_state (core rp))) (rs_ts st')) as [Hlt|Hge];
    eexists _, _; (split; [reflexivity|]); split_and!; try done; cbn; rewrite ?Hpa; cbn; split; cbn; try done; try lia.
  intros a Ha. rewrite Hsp' by done. lia.
Qed.

Lemma spec_snoc items i a :
  spec_safe_ts (items ++ [i]) a = if rs_idx i <=? a then Z.max (spec_safe_ts items a) (rs_ts i) else spec_safe_ts items a.
Proof.
  rewrite spec_app. pose proof (spec_nonneg items a). cbn. case_match; lia.
Qed.

Lemma ReadState_eta i : {| rs_idx := rs_idx i; rs_ts := rs_ts i |} = i.
Proof. by destruct i. Qed.

Section publish.
Context (items : list ReadState) (i : ReadState) (rp : RegionReadProgress).
Context (Hacc : accounts items rp) (Hle : Forall (fun x => item_le x i) items).

(** The progress after item [i], given its read state and its pending items. *)
Lemma accounts_with c ts :
  pause c = false -> discard c = false -> last_merge_index c = 0 ->
  applied_index c = applied_index (core rp) -> ts = rs_ts (read_state c) -> safe_ts rp <= ts ->
  pending_ok (applied_index c) (pending_items c) ->
  (length (pending_items c) <= length items + 1)%nat ->
  Forall (fun p => rs_idx p = rs_idx i \/ exists x, x ∈ items /\ rs_idx x = rs_idx p) (pending_items c) ->
  (forall a, applied_index (core rp) <= a ->
     Z.max ts (spec_safe_ts (pending_items c) a)
     = if rs_idx i <=? a
       then Z.max (Z.max (safe_ts rp) (spec_safe_ts (pending_items (core rp)) a)) (rs_ts i)
       else Z.max (safe_ts rp) (spec_safe_ts (pending_items (core rp)) a)) ->
  accounts (items ++ [i]) {| core := c; safe_ts := ts |}.
Proof.
  intros Hpa Hd Hm Ha Hts Hmono Hok Hlen Hidx Hsp. pose proof (ac_read _ _ Hacc).
  split; cbn; try done; [lia|by rewrite length_app| |].
  - eapply Forall_impl; [exact Hidx|]. intros p [E|(x & Hx & E)]; [exists i|exists x]; set_solver.
  - intros a Hle'. rewrite Ha in Hle'. rewrite spec_snoc, Hsp, (ac_spec _ _ Hacc) by done. done.
Qed.

(** An item that changes nothing, since a read state or a pending item covers it. *)
Lemma accounts_covered :
  (forall a, applied_index (core rp) <= a -> rs_idx i <= a ->
     rs_ts i <= Z.max (safe_ts rp) (spec_safe_ts (pending_items (core rp)) a)) ->
  accounts (items ++ [i]) {| core := core rp; safe_ts := safe_ts rp |}.
Proof.
  intros Hcov. destruct Hacc as [Hpa Hd Hm Hs Hr Hpend Hlen Hidx Hsp].
  apply accounts_with; try done; [lia|..].
  - eapply Forall_impl; [exact Hidx|]. by right.
  - intros a Ha. specialize (Hcov a Ha). zcase; lia.
Qed.

Lemma accounts_push :
  (length items < pending_capacity (core rp))%nat -> applied_index (core rp) < rs_idx i ->
  (forall p, last (pending_items (core rp)) = Some p -> item_lt p i) ->
  accounts (items ++ [i]) {| core := Core_push_back (core rp) i; safe_ts := safe_ts rp |}
  /\ pending_capacity (Core_push_back (core rp) i) = pending_capacity (core rp).
Proof.
  intros Hcap Hi Hlast. destruct Hacc as [Hpa Hd Hm Hs Hr Hpend Hlen Hidx Hsp].
  unfold Core_push_back, grown. rewrite (proj2 (Nat.leb_gt _ _)), (proj2 (Nat.eqb_neq _ _)) by lia.
  split; [|done]. apply accounts_with; try done; cbn.
  - apply pending_ok_snoc; [done..|]. apply above_last; [apply Hpend|done].
  - rewrite length_app. cbn. lia.
  - apply Forall_app_2; [|repeat constructor]. eapply Forall_impl; [exact Hidx|]. by right.
  - intros a Ha. rewrite spec_snoc. zcase; lia.
Qed.

Lemma accounts_raise l p :
  pending_items (core rp) = l ++ [p] -> rs_idx p = rs_idx i -> rs_ts p < rs_ts i ->
  accounts (items ++ [i])
    {| core := set_pending (core rp) (l ++ [{| rs_idx := rs_idx p; rs_ts := rs_ts i |}])
                           (pending_capacity (core rp));
       safe_ts := safe_ts rp |}.
Proof.
  intros Hl Hip Hts. destruct Hacc as [Hpa Hd Hm Hs Hr Hpend Hlen Hidx Hsp]. rewrite Hl in *.
  apply accounts_with; try done; cbn.
  - by apply (pending_ok_raise _ l p).
  - rewrite length_app in *. cbn in *. lia.
  - apply Forall_app in Hidx as [Hidx _]. apply Forall_app_2; [|by constructor; [left|]].
    eapply Forall_impl; [exact Hidx|]. by right.
  - intros a Ha. rewrite Hl, !spec_snoc. cbn. rewrite Hip. zcase; lia.
Qed.

Lemma accounts_publish :
  0 < rs_idx i -> 0 < rs_ts i -> (length items < pending_capacity (core rp))%nat ->
  let rp' := update_safe_ts_with_time rp (rs_idx i) (rs_ts i) None in
  accounts (items ++ [i]) rp' /\ applied_index (core rp') = applied_index (core rp)
  /\ pending_capacity (core rp') = pending_capacity (core rp).
Proof.
  intros Hi Hts Hcap. destruct Hacc as [Hpa Hd Hm Hs Hr Hpend Hlen Hidx Hsp]. cbn.
  unfold update_safe_ts_with_time, Core_update_safe_ts. rewrite !(proj2 (Z.eqb_neq _ _)) by lia. cbn. rewrite Hd.
  replace (later_instant _ None) with false by (by destruct (last_instant_of_update_safe_ts (core rp))).
  rewrite Hm, (proj2 (Z.ltb_ge _ _)) by lia. rewrite !ReadState_eta.
  destruct (Z.leb_spec (rs_idx i) (applied_index (core rp))) as [Hlt|Hgt].
  - destruct (Z.ltb_spec (rs_ts (read_state (core rp))) (rs_ts i)); cbn; rewrite ?Hpa; cbn; split_and!; try done.
    + apply accounts_with; try done; cbn; [lia|lia|by eapply Forall_impl; [exact Hidx|by right]|].
      intros a Ha. zcase; lia.
    + apply accounts_covered. cbn. lia.
  - destruct (last (pending_items (core rp))) as [p|] eqn:Hlast; cbn.
    + assert (rs_idx p <= rs_idx i) as Hpi.
      { apply last_Some in Hlast as [l Hl]. rewrite Hl, Forall_app, Forall_singleton in Hidx.
        destruct Hidx as [_ (x & Hx & <-)]. rewrite Forall_forall in Hle. by apply Hle in Hx as []. }
      destruct (Z.leb_spec (rs_ts i) (rs_ts p)); [|destruct (Z.leb_spec (rs_idx i) (rs_idx p))]; cbn; split_and!; try done.
      * apply accounts_covered. intros a Ha Hia. cbn in *.
        pose proof (spec_elem (pending_items (core rp)) a p) as Hel. apply last_Some in Hlast as [l Hl].
        rewrite Hl in *. specialize (Hel ltac:(set_solver)). lia.
      * pose proof Hlast as [l Hl]%last_Some. rewrite Hl, removelast_last. apply accounts_raise; cbn; [done|lia|lia].
      * apply (accounts_push Hcap Hgt). by intros q; rewrite Hlast; intros [= <-].
      * apply (accounts_push Hcap Hgt). by intros q; rewrite Hlast; intros [= <-].
    + split_and!; [apply (accounts_push Hcap Hgt)|done|apply (accounts_push Hcap Hgt)]; by rewrite Hlast.
Qed.

End publish.

Lemma run_accounts ops : forall items rp,
  accounts items rp ->
  StronglySorted item_le (items ++ published ops) ->
  Forall (fun i => 0 < rs_idx i /\ 0 < rs_ts i) (published ops) ->
  StronglySorted Z.le (applied_index (core rp) :: applications ops) ->
  (length items + length (published ops) <= pending_capacity (core rp))%nat ->
  exists rp', run_ops (E := Empty_set) rp ops = Ok rp' /\ accounts (items ++ published ops) rp'
    /\ applied_index (core rp') = default (applied_index (core rp)) (last (applications ops)).
Proof.
  induction ops as [|[i|a] ops IH]; intros items rp Hacc Hs Hpos Ha Hcap.
  - exists rp. cbn. by rewrite app_nil_r.
  - change (published (Publish i :: ops)) with (i :: published ops) in *.
    change (applications (Publish i :: ops)) with (applications ops) in *.
    apply Forall_cons in Hpos as [[Hi Hts] Hpos']. cbn in Hcap.
    assert (Forall (fun x => item_le x i) items) as Hle.
    { apply Forall_forall. intros x Hx. apply (StronglySorted_app_1_elem_of _ items (i :: published ops)); [done..|set_solver]. }
    destruct (accounts_publish items i rp Hacc Hle Hi Hts ltac:(lia)) as (Hacc' & Happ & Hc).
    rewrite cons_middle, app_assoc in Hs |- *.
    destruct (IH _ _ Hacc' Hs Hpos') as (rp' & Hrun & H1 & H2); [by rewrite Happ|rewrite Hc, length_app; cbn; lia|].
    exists rp'. split_and!; try done. by rewrite Happ in H2.
  - change (published (Applied a :: ops)) with (published ops) in *.
    change (applications (Applied a :: ops)) with (a :: applications ops) in *.
    apply StronglySorted_cons in Ha as [[Hle' _]%Forall_cons Ha'].
    destruct (accounts_applied items rp a Hacc Hle') as (rp1 & ev & Hu & Hacc1 & Happ & Hc).
    destruct (IH items rp1) as (rp' & Hrun & H1 & H2); [done|done|done|by rewrite Happ|by rewrite Hc|].
    exists rp'. cbn [run_ops run_op]. rewrite Hu. cbn. split_and!; [done|done|].
    rewrite H2, Happ, last_cons. by destruct (last (applications ops)).
Qed.

(** Items published in order all count.  When the items arrive in the order of
    their indexes and timestamps, as a resolver publishes them, and no more of
    them than the queue has room for, no call fails, and the [safe_ts] is exactly
    what the comment of the type says: the largest timestamp of the items whose
    index has been applied. *)
Theorem read_progress_exact region applied cap id ops :
  StronglySorted item_le (published ops) ->
  Forall (fun i => 0 < rs_idx i /\ 0 < rs_ts i) (published ops) ->
  StronglySorted Z.le (applied :: applications ops) ->
  (length (published ops) <= cap)%nat ->
  (forall p, find_peer_by_id region id = Some p -> peer_is_witness p = false) ->
  exists rp, run_ops (E := Empty_set) (RegionReadProgress_new region applied cap id) ops = Ok rp
    /\ applied_index (core rp) = default applied (last (applications ops))
    /\ safe_ts rp = spec_safe_ts (published ops) (applied_index (core rp)).
Proof.
  intros Hs Hpos Ha Hcap Hw.
  destruct (run_accounts ops [] (RegionReadProgress_new region applied cap id)) as (rp & Hrun & Hacc & Happ); try done.
  - assert (match find_peer_by_id region id with Some p => peer_is_witness p | None => false end = false) as Hf.
    { destruct (find_peer_by_id region id) as [p|]; [by apply Hw|done]. }
    by split; cbn; rewrite ?Hf; repeat constructor.
  - exists rp. split_and!; [done|done|]. by apply accounts_now.
Qed.

Lemma read_progress_exact_witness :
  exists rp, run_ops (E := Empty_set) (RegionReadProgress_new run_region 5 128 1)
      [Publish {| rs_idx := 4; rs_ts := 40 |}; Publish {| rs_idx := 6; rs_ts := 60 |};
       Applied 7; Publish {| rs_idx := 9; rs_ts := 90 |}; Applied 8] = Ok rp
    /\ applied_index (core rp) = 8 /\ safe_ts rp = 60.
Proof.
  destruct (read_progress_exact run_region 5 128 1
      [Publish {| rs_idx := 4; rs_ts := 40 |}; Publish {| rs_idx := 6; rs_ts := 60 |};
       Applied 7; Publish {| rs_idx := 9; rs_ts := 90 |}; Applied 8]) as (rp & H1 & H2 & H3).
  - cbn. repeat constructor; cbn; lia.
  - cbn. repeat constructor; cbn; lia.
  - cbn. repeat constructor; cbn; lia.
  - cbn. lia.
  - cbn. by intros p [= <-].
  - exists rp. split; [exact H1|]. split; [exact H2|]. rewrite H3, H2. reflexivity.
Defined.

(** ** The pending queue is bounded *)

Definition within (cap : nat) (c : RegionReadProgressCore) : Prop :=
  pending_capacity c = cap /\ (length (pending_items c) <= cap)%nat.

Lemma consume_pending_length applied items st left st' :
  consume_pending applied items st = (left, st') -> (length left <= length items)%nat.
Proof.
  revert st. induction items as [|i items IH]; intros st; cbn; [by intros [= <- _]|].
  case_match; [by intros [= <- _]|]. intros Hc. apply IH in Hc. lia.
Qed.

Lemma Core_update_applied_within cap c applied r c' :
  within cap c -> Core_update_applied (E := Empty_set) c applied = Ok (r, c') -> within cap c'.
Proof.
  intros [Hc Hl]. unfold Core_update_applied. intros H. res_inv.
  destruct (consume_pending _ _ _) as [left st'] eqn:Hcons. apply consume_pending_length in Hcons. cbn in *.
  case_match; injection H as _ <-; split; cbn; [done|lia|done|lia].
Qed.

Lemma Core_push_back_within cap c i : (2 <= cap)%nat -> within cap c -> within cap (Core_push_back c i).
Proof.
  intros Hcap [Hc Hl]. unfold within, Core_push_back, grown. rewrite Hc.
  pose proof (proj1 (retain_alternate_length (pending_items c))).
  destruct (Nat.leb_spec cap (length (pending_items c))); cbn; rewrite length_app; cbn;
    case_match eqn:E; try (apply Nat.eqb_eq in E); lia.
Qed.

Lemma Core_update_safe_ts_within cap c idx ts now :
  (2 <= cap)%nat -> within cap c -> within cap (snd (Core_update_safe_ts c idx ts now)).
Proof.
  intros Hcap Hw. unfold Core_update_safe_ts. set (c0 := if later_instant _ _ then _ else _).
  assert (within cap c0) as Hw0 by (subst c0; by case_match). clearbody c0.
  repeat case_match; cbn; try done; try (by apply Core_push_back_within); try apply Hw0.
  destruct Hw0 as [Hc Hl]. split; cbn; [done|]. rewrite length_app. cbn.
  destruct (pending_items c0) as [|x l] using rev_ind; [done|]. rewrite removelast_last.
  rewrite length_app in Hl. cbn in Hl. lia.
Qed.

Lemma store_safe_ts_core rp r : core (store_safe_ts rp r) = snd r.
Proof. by destruct r. Qed.

Lemma rp_step_within cap history rp rp' :
  (2 <= cap)%nat -> rp_step history rp rp' -> within cap (core rp) -> within cap (core rp').
Proof.
  intros Hcap Hstep Hw.
  destruct Hstep as [rp idx ts now _ _|rp info now same rp' events _ Hcons|
    rp applied' rp' events _ Hu|rp source m rp' events _ _ _ Hm|rp id' term region'|rp|rp|rp]; try done.
  - unfold update_safe_ts_with_time. repeat case_match; try done.
    rewrite store_safe_ts_core. by apply Core_update_safe_ts_within.
  - revert Hcons. unfold consume_leader_info. set (c0 := if later_instant _ _ then _ else _).
    assert (within cap c0) as Hw0 by (subst c0; by case_match). clearbody c0.
    destruct (li_read_state info) as [rs|]; cbn; [|by intros [= _ <- _]].
    intros [= _ <- _]. case_match; [|done]. rewrite store_safe_ts_core. by apply Core_update_safe_ts_within.
  - unfold RegionReadProgress_update_applied in Hu. res_inv. destruct a as [r c']. injection Hu as <- _.
    by eapply Core_update_applied_within.
  - unfold RegionReadProgress_merge_safe_ts, Core_merge_safe_ts in Hm. res_inv. destruct a0 as [r c'].
    injection H as <-. injection Hm as <- _. by eapply Core_update_applied_within in H0.
Qed.

(** However many items are published, and however far behind the replica is, the
    queue of pending items does not outgrow its capacity and stays sorted by index
    and timestamp, all above the applied index. *)
Theorem read_progress_bounded region applied cap id rp :
  (2 <= cap)%nat -> 0 <= applied ->
  rtc (rp_step []) (RegionReadProgress_new region applied cap id) rp ->
  (length (pending_items (core rp)) <= cap)%nat
  /\ pending_ok (applied_index (core rp)) (pending_items (core rp)).
Proof.
  intros Hcap Ha Hrtc. split.
  - assert (within cap (core (RegionReadProgress_new region applied cap id))) as Hw by (by split; cbn; [|lia]).
    assert (within cap (core rp)) as [_ Hl]; [|done].
    clear Ha. induction Hrtc; [done|]. eauto using rp_step_within.
  - apply (rp_steps_inv []) in Hrtc as [[]]; [done|by intros h ?%not_elem_of_nil|].
    apply new_inv; [by intros h ?%not_elem_of_nil|by intros h ?%not_elem_of_nil|done].
Qed.
