(* ===== verification/Resolver.v ===== *)
(** * The resolver of timestamps

    [MemoryQuota] of [components/tikv_util/src/memory.rs] and [Resolver] of
    [components/resolved_ts/src/resolver.rs]: the locks of a region, and the
    timestamp up to which no transaction will commit any more.  The quota is
    shared by the resolvers of a store, so that methods pass it along; the
    region's read progress is shared with the raft store and passed to [resolve];
    the status of large transactions, [TxnStatusCache::get], is an argument of
    the methods that ask for it.  Shrinking of hash maps and debug assertions are
    left out.

    Theorems: the heap of timestamps counts the tracked locks
    ([heap_ok]), and the memory in use is that of the tracked keys
    ([quota_holds]), whatever is tracked and untracked; [resolve] returns the
    larger of the last answer and the smaller of its argument and the oldest lock
    ([resolve_spec]). *)

From Stdlib Require Import ZArith Lia.
From stdpp Require Import base numbers list gmap.
From S2P Require Import Prelude Types ReadProgress.

Open Scope Z_scope.

(** ** [MemoryQuota]

    The loads and updates of [alloc] and [free] are taken as one step. *)

Definition MAX_MEMORY_ALLOC_SIZE : u64 := Z.shiftl 1 48.
Definition isize_max : Z := 2 ^ 63 - 1.

(** [isize] arithmetic wraps. *)
Definition as_isize (v : Z) : Z := as_i64 (as_u64 v).
Definition isize_saturating_sub (a b : Z) : Z := Z.max (- 2 ^ 63) (Z.min isize_max (a - b)).

Record MemoryQuota : Type := { mq_in_use : Z; mq_capacity : u64 }.

Definition adjust_capacity (capacity : u64) : u64 := Z.min capacity isize_max.

Definition MemoryQuota_new (capacity : u64) : MemoryQuota :=
  {| mq_in_use := 0; mq_capacity := adjust_capacity capacity |}.

Definition MemoryQuota_in_use (q : MemoryQuota) : u64 := Z.max (mq_in_use q) 0.

Definition MemoryQuota_set_capacity (q : MemoryQuota) (capacity : u64) : MemoryQuota :=
  {| mq_in_use := mq_in_use q; mq_capacity := adjust_capacity capacity |}.

Definition alloc_force (q : MemoryQuota) (bytes : u64) : MemoryQuota :=
  if MAX_MEMORY_ALLOC_SIZE <? bytes then q
  else {| mq_in_use := as_isize (mq_in_use q + bytes); mq_capacity := mq_capacity q |}.

(** [None] is [Err(MemoryQuotaExceeded)]; what was added is taken back. *)
Definition alloc (q : MemoryQuota) (bytes : u64) : option MemoryQuota :=
  let capacity := mq_capacity q in
  if ((as_u64 (isize_saturating_sub capacity (mq_in_use q)) <? bytes)
      || (MAX_MEMORY_ALLOC_SIZE <? bytes))%bool then None
  else if as_isize (capacity - mq_in_use q) <? bytes then None
  else Some {| mq_in_use := as_isize (mq_in_use q + bytes); mq_capacity := capacity |}.

Definition free (q : MemoryQuota) (bytes : u64) : MemoryQuota :=
  if MAX_MEMORY_ALLOC_SIZE <? bytes then q
  else
    let new_in_use := as_isize (mq_in_use q - bytes) in
    {| mq_in_use := if new_in_use <? 0 then as_isize (new_in_use + Z.min (- new_in_use) bytes) else new_in_use;
       mq_capacity := mq_capacity q |}.

(** ** Data *)

Record TxnLocks : Type := { lock_count : u64; sample_lock : option bytes }.

Definition TxnLocks_default : TxnLocks := {| lock_count := 0; sample_lock := None |}.

Inductive TsSource : Type :=
| SrcLock (locks : TxnLocks)
| SrcMemoryLock (key : Key)
| SrcPdTso
| SrcBackupStream
| SrcCdc.

Definition TsSource_key (s : TsSource) : option Key :=
  match s with
  | SrcLock locks => sample_lock locks
  | SrcMemoryLock k => Some k
  | _ => None
  end.

Record LastAttempt : Type := { la_success : bool; la_ts : TimeStamp; la_reason : TsSource }.

(** [TxnState] of [src/storage/txn/txn_status_cache.rs]. *)
Inductive TxnState : Type :=
| Ongoing (min_commit_ts : TimeStamp)
| TxnCommitted (commit_ts : TimeStamp)
| TxnRolledBack.

Record Resolver : Type := {
  rv_region_id : u64;
  locks_by_key : gmap bytes TimeStamp;
  lock_ts_heap : gmap TimeStamp TxnLocks;
  large_txns : gmap TimeStamp TxnLocks;
  large_txn_key_representative : gmap bytes TimeStamp;
  resolved_ts : TimeStamp;
  tracked_index : u64;
  has_read_progress : bool;
  min_ts : TimeStamp;
  stopped : bool;
  last_attempt : option LastAttempt
}.

(** [with_read_progress], given whether there is one. *)
Definition with_read_progress (region_id : u64) (read_progress : bool) : Resolver :=
  {| rv_region_id := region_id; locks_by_key := ∅; lock_ts_heap := ∅; large_txns := ∅;
     large_txn_key_representative := ∅; resolved_ts := TimeStamp_zero; tracked_index := 0;
     has_read_progress := read_progress; min_ts := TimeStamp_zero; stopped := false; last_attempt := None |}.

Definition Resolver_new (region_id : u64) : Resolver := with_read_progress region_id false.

Section updates.
Context (r : Resolver).

Definition set_locks (by_key : gmap bytes TimeStamp) (heap : gmap TimeStamp TxnLocks) : Resolver :=
  {| rv_region_id := rv_region_id r; locks_by_key := by_key; lock_ts_heap := heap;
     large_txns := large_txns r; large_txn_key_representative := large_txn_key_representative r;
     resolved_ts := resolved_ts r; tracked_index := tracked_index r; has_read_progress := has_read_progress r;
     min_ts := min_ts r; stopped := stopped r; last_attempt := last_attempt r |}.

Definition set_large (txns : gmap TimeStamp TxnLocks) (reps : gmap bytes TimeStamp) : Resolver :=
  {| rv_region_id := rv_region_id r; locks_by_key := locks_by_key r; lock_ts_heap := lock_ts_heap r;
     large_txns := txns; large_txn_key_representative := reps;
     resolved_ts := resolved_ts r; tracked_index := tracked_index r; has_read_progress := has_read_progress r;
     min_ts := min_ts r; stopped := stopped r; last_attempt := last_attempt r |}.

Definition set_tracked_index (index : u64) : Resolver :=
  {| rv_region_id := rv_region_id r; locks_by_key := locks_by_key r; lock_ts_heap := lock_ts_heap r;
     large_txns := large_txns r; large_txn_key_representative := large_txn_key_representative r;
     resolved_ts := resolved_ts r; tracked_index := index; has_read_progress := has_read_progress r;
     min_ts := min_ts r; stopped := stopped r; last_attempt := last_attempt r |}.

Definition stop_tracking : Resolver :=
  {| rv_region_id := rv_region_id r; locks_by_key := locks_by_key r; lock_ts_heap := lock_ts_heap r;
     large_txns := large_txns r; large_txn_key_representative := large_txn_key_representative r;
     resolved_ts := resolved_ts r; tracked_index := tracked_index r; has_read_progress := false;
     min_ts := min_ts r; stopped := true; last_attempt := last_attempt r |}.

Definition set_resolved (resolved min : TimeStamp) (attempt : option LastAttempt) : Resolver :=
  {| rv_region_id := rv_region_id r; locks_by_key := locks_by_key r; lock_ts_heap := lock_ts_heap r;
     large_txns := large_txns r; large_txn_key_representative := large_txn_key_representative r;
     resolved_ts := resolved; tracked_index := tracked_index r; has_read_progress := has_read_progress r;
     min_ts := min; stopped := stopped r; last_attempt := attempt |}.

End updates.

(** ** Tracking *)

(** [MemoryQuotaExceeded] *)
Inductive quota_error : Type := MemoryQuotaExceeded.

(** A resolver and the quota it uses. *)
Definition rstate : Type := (Resolver * MemoryQuota)%type.

Definition update_tracked_index {E} (r : Resolver) (index : u64) : res E Resolver :=
  _ ← assert_ (tracked_index r <=? index); Ok (set_tracked_index r index).

Definition lock_heap_size (key : bytes) : u64 := zlen key + 8.

Definition track_normal_lock (start_ts : TimeStamp) (key : bytes) : st_res rstate quota_error unit :=
  fun '(r, q) =>
    let bytes := lock_heap_size key in
    match alloc q bytes with
    | None => (Err MemoryQuotaExceeded, (r, q))
    | Some q =>
        match locks_by_key r !! key with
        | Some _ => (Ok tt, (r, free q bytes))
        | None =>
            let txn_locks := default {| lock_count := lock_count TxnLocks_default; sample_lock := Some key |}
                               (lock_ts_heap r !! start_ts) in
            let txn_locks := {| lock_count := lock_count txn_locks + 1; sample_lock := sample_lock txn_locks |} in
            (Ok tt, (set_locks r (<[key := start_ts]> (locks_by_key r))
                                 (<[start_ts := txn_locks]> (lock_ts_heap r)), q))
        end
    end.

Definition track_large_txn_lock (start_ts : TimeStamp) (key : bytes) : st_res rstate quota_error unit :=
  modify (fun '(r, q) =>
    match large_txns r !! start_ts with
    | Some entry =>
        (set_large r (<[start_ts := {| lock_count := lock_count entry + 1; sample_lock := sample_lock entry |}]>
                        (large_txns r)) (large_txn_key_representative r), q)
    | None =>
        (set_large r (<[start_ts := {| lock_count := 1; sample_lock := Some key |}]> (large_txns r))
                     (<[key := start_ts]> (large_txn_key_representative r)), q)
    end).

(** [if let Some(index) = index { self.update_tracked_index(index) }] *)
Definition note_index (index : option u64) : st_res rstate quota_error unit :=
  match index with
  | Some index => zoom fst (fun s r => (r, snd s)) (fun r => r ← update_tracked_index r index; Ok (r, tt))
  | None => mret tt
  end.

Definition track_lock (start_ts : TimeStamp) (key : bytes) (index : option u64) (generation : u64)
    : st_res rstate quota_error unit :=
  _ ← note_index index;
  if generation =? 0 then track_normal_lock start_ts key else track_large_txn_lock start_ts key.

(** The count of a transaction falls, and the transaction leaves at zero. *)
Definition drop_lock (heap : gmap TimeStamp TxnLocks) (start_ts : TimeStamp) : gmap TimeStamp TxnLocks :=
  match heap !! start_ts with
  | Some txn_locks =>
      let count := if 0 <? lock_count txn_locks then lock_count txn_locks - 1 else lock_count txn_locks in
      if count =? 0 then delete start_ts heap
      else <[start_ts := {| lock_count := count; sample_lock := sample_lock txn_locks |}]> heap
  | None => heap
  end.

Definition untrack_lock (key : bytes) (index : option u64) : st_res rstate quota_error unit :=
  _ ← note_index index;
  modify (fun '(r, q) =>
    match locks_by_key r !! key with
    | Some start_ts =>
        (set_locks r (delete key (locks_by_key r)) (drop_lock (lock_ts_heap r) start_ts),
         free q (lock_heap_size key))
    | None =>
        match large_txn_key_representative r !! key with
        | Some start_ts =>
            (set_large r (delete start_ts (large_txns r)) (delete key (large_txn_key_representative r)), q)
        | None => (r, q)
        end
    end).

(** [Drop for Resolver] *)
Definition Resolver_drop (r : Resolver) (q : MemoryQuota) : MemoryQuota :=
  free q (foldr (fun key bytes => lock_heap_size key + bytes) 0 (map fst (map_to_list (locks_by_key r)))).

(** ** Resolving *)

(** [iter().min_by_key(|(ts, _)| ts)]: the first of the smallest.  It is also the
    first entry of a [BTreeMap]. *)
Fixpoint min_by_ts {A} (l : list (TimeStamp * A)) : option (TimeStamp * A) :=
  match l with
  | [] => None
  | x :: l =>
      match min_by_ts l with
      | Some y => if x.1 <=? y.1 then Some x else Some y
      | None => Some x
      end
  end.

Section status.
(** [txn_status_cache.get] *)
Context (txn_status : TimeStamp -> option TxnState).

Definition lookup_min_commit_ts (start_ts : TimeStamp) : option TimeStamp :=
  match txn_status start_ts with
  | None => Some start_ts
  | Some (Ongoing min_commit_ts) => Some min_commit_ts
  | Some (TxnCommitted _) | Some TxnRolledBack => None
  end.

(** The large transactions that are not decided, with their [min_commit_ts.prev()]. *)
Fixpoint ongoing_large_txns {E} (l : list (TimeStamp * TxnLocks)) : res E (list (TimeStamp * TxnLocks)) :=
  match l with
  | [] => Ok []
  | (start_ts, txn_locks) :: l =>
      match lookup_min_commit_ts start_ts with
      | Some ts => ts ← TimeStamp_prev ts; l ← ongoing_large_txns l; Ok ((ts, txn_locks) :: l)
      | None => ongoing_large_txns l
      end
  end.

Definition oldest_transaction {E} (r : Resolver) : res E (option (TimeStamp * TxnLocks)) :=
  let oldest_normal_txn := min_by_ts (map_to_list (lock_ts_heap r)) in
  large ← ongoing_large_txns (map_to_list (large_txns r));
  let oldest_large_txn := min_by_ts large in
  Ok (match oldest_normal_txn, oldest_large_txn with
      | Some (ts1, txn_locks1), Some (ts2, txn_locks2) =>
          if ts1 <? ts2 then Some (ts1, txn_locks1) else Some (ts2, txn_locks2)
      | Some (ts, txn_locks), None => Some (ts, txn_locks)
      | None, Some (ts, txn_locks) => Some (ts, txn_locks)
      | None, None => None
      end).

Definition resolve {E} (r : Resolver) (rrp : RegionReadProgress) (new_min_ts : TimeStamp)
    (now : option instant) (source : TsSource) : res E (TimeStamp * Resolver * RegionReadProgress) :=
  if stopped r then Ok (resolved_ts r, r, rrp)
  else
    min_lock ← oldest_transaction r;
    let has_lock := match min_lock with Some _ => true | None => false end in
    let min_txn_ts := match min_lock with Some (ts, _) => ts | None => new_min_ts end in
    let new_resolved_ts := Z.min min_txn_ts new_min_ts in
    let reason := match min_lock with
                  | Some (lock_ts, txn_locks) => if lock_ts <? new_min_ts then SrcLock txn_locks else source
                  | None => source
                  end in
    let attempt := {| la_success := negb (new_resolved_ts <=? resolved_ts r);
                      la_ts := new_resolved_ts; la_reason := reason |} in
    let resolved := Z.max (resolved_ts r) new_resolved_ts in
    let rrp := if has_read_progress r
               then update_safe_ts_with_time rrp (tracked_index r) resolved now else rrp in
    let r := set_resolved r resolved
               (Z.max (min_ts r) (if has_lock then new_resolved_ts else new_min_ts)) (Some attempt) in
    Ok (resolved, r, rrp).

End status.

Definition num_transactions (r : Resolver) : nat := (size (lock_ts_heap r) + size (large_txns r))%nat.

Definition num_locks (r : Resolver) : Z :=
  Z.of_nat (size (locks_by_key r))
  + foldr (fun e n => lock_count e.2 + n) 0 (map_to_list (large_txns r)).

Definition take_last_attempt (r : Resolver) : option LastAttempt * Resolver :=
  (last_attempt r, set_resolved r (resolved_ts r) (min_ts r) None).

(** ** The quota *)

Definition quota_ok (q : MemoryQuota) : Prop := 0 <= mq_in_use q <= isize_max /\ 0 <= mq_capacity q <= isize_max.

Lemma as_isize_id v : - 2 ^ 63 <= v < 2 ^ 63 -> as_isize v = v.
Proof.
  intros Hv. unfold as_isize, as_i64, as_u64. destruct (Z.le_gt_cases 0 v).
  - rewrite Z.mod_small by lia. zcase; lia.
  - replace (v mod 2 ^ 64) with (v + 2 ^ 64); [zcase; lia|].
    symmetry. rewrite <-(Z.mod_add v 1) by lia. apply Z.mod_small. lia.
Qed.

(** A request is granted exactly when it fits, and is then counted; else nothing
    changes. *)
Lemma alloc_spec q bytes :
  quota_ok q -> 0 <= bytes ->
  alloc q bytes = if ((mq_in_use q + bytes <=? mq_capacity q) && (bytes <=? MAX_MEMORY_ALLOC_SIZE))%bool
                  then Some {| mq_in_use := mq_in_use q + bytes; mq_capacity := mq_capacity q |} else None.
Proof.
  intros [Hu Hc] Hb. unfold alloc, isize_saturating_sub, isize_max in *.
  rewrite (as_isize_id (_ - _)) by lia.
  rewrite Z.min_r, Z.max_r by lia. unfold as_u64.
  destruct (Z.leb_spec (mq_in_use q + bytes) (mq_capacity q)) as [Hle|Hgt]; cbn.
  - rewrite Z.mod_small by lia. rewrite (proj2 (Z.ltb_ge _ _)) by lia. cbn.
    destruct (Z.ltb_spec MAX_MEMORY_ALLOC_SIZE bytes), (Z.leb_spec bytes MAX_MEMORY_ALLOC_SIZE); cbn; try lia; [done|].
    by rewrite as_isize_id by lia.
  - rewrite (proj2 (Z.ltb_lt (mq_capacity q - mq_in_use q) bytes)) by lia. by case_match.
Qed.

Lemma free_spec q bytes :
  quota_ok q -> 0 <= bytes <= mq_in_use q -> bytes <= MAX_MEMORY_ALLOC_SIZE ->
  free q bytes = {| mq_in_use := mq_in_use q - bytes; mq_capacity := mq_capacity q |}.
Proof.
  intros [Hu Hc] Hb Hm. unfold free, isize_max in *. rewrite (proj2 (Z.ltb_ge _ _)) by lia.
  rewrite as_isize_id by lia. by rewrite (proj2 (Z.ltb_ge _ _)) by lia.
Qed.

(** ** The tracked locks *)

Definition locks_of (m : gmap bytes TimeStamp) (ts : TimeStamp) : gmap bytes TimeStamp :=
  filter (fun e => e.2 = ts) m.

(** The heap counts the tracked keys of each transaction. *)
Definition heap_ok (r : Resolver) : Prop :=
  forall ts, match lock_ts_heap r !! ts with
             | Some txn_locks => lock_count txn_locks = Z.of_nat (size (locks_of (locks_by_key r) ts))
                                 /\ 0 < lock_count txn_locks
             | None => locks_of (locks_by_key r) ts = ∅
             end.

Lemma locks_of_insert m key start_ts ts :
  m !! key = None ->
  locks_of (<[key := start_ts]> m) ts
  = if decide (start_ts = ts) then <[key := start_ts]> (locks_of m ts) else locks_of m ts.
Proof.
  intros Hk. unfold locks_of. case_decide as E.
  - by rewrite map_filter_insert_True.
  - rewrite map_filter_insert_False by done. by rewrite delete_id.
Qed.

Lemma locks_of_delete m key start_ts ts :
  m !! key = Some start_ts ->
  locks_of (delete key m) ts = if decide (start_ts = ts) then delete key (locks_of m ts) else locks_of m ts.
Proof.
  intros Hk. unfold locks_of. rewrite map_filter_delete. case_decide as E; [done|].
  apply delete_id. apply map_lookup_filter_None. right. intros x Hx. cbn. congruence.
Qed.

Lemma locks_of_lookup m key ts : locks_of m ts !! key = Some ts <-> m !! key = Some ts.
Proof. unfold locks_of. rewrite map_lookup_filter_Some. naive_solver. Qed.

Lemma track_heap_ok r key start_ts txn_locks :
  heap_ok r -> locks_by_key r !! key = None ->
  lock_count txn_locks = default 0 (lock_count <$> lock_ts_heap r !! start_ts) + 1 ->
  heap_ok (set_locks r (<[key := start_ts]> (locks_by_key r)) (<[start_ts := txn_locks]> (lock_ts_heap r))).
Proof.
  intros Hok Hk Hc ts. cbn. specialize (Hok ts). rewrite locks_of_insert by done.
  destruct (decide (start_ts = ts)) as [->|Hne]; [|by rewrite lookup_insert_ne].
  rewrite lookup_insert_eq, map_size_insert_None.
  - destruct (lock_ts_heap r !! ts) as [tl|]; cbn in Hc; [lia|]. rewrite Hok, map_size_empty. lia.
  - unfold locks_of. apply map_lookup_filter_None. by left.
Qed.

Lemma untrack_heap_ok r key start_ts :
  heap_ok r -> locks_by_key r !! key = Some start_ts ->
  heap_ok (set_locks r (delete key (locks_by_key r)) (drop_lock (lock_ts_heap r) start_ts)).
Proof.
  intros Hok Hk ts. cbn. pose proof (Hok ts) as Hts. pose proof (Hok start_ts) as Hst. unfold drop_lock.
  rewrite locks_of_delete with (start_ts := start_ts) by done.
  assert (locks_of (locks_by_key r) start_ts !! key = Some start_ts) as Hin by (by apply locks_of_lookup).
  destruct (lock_ts_heap r !! start_ts) as [tl|] eqn:Hl; [|by rewrite Hst, lookup_empty in Hin].
  destruct Hst as [Hcount Hpos]. rewrite (proj2 (Z.ltb_lt _ _) Hpos).
  pose proof (map_size_delete_Some key (locks_of (locks_by_key r) start_ts) (mk_is_Some _ _ Hin)) as Hsz.
  destruct (Z.eqb_spec (lock_count tl - 1) 0) as [Hz|Hz]; destruct (decide (start_ts = ts)) as [<-|Hne].
  - rewrite lookup_delete_eq. apply map_size_empty_inv. lia.
  - by rewrite lookup_delete_ne.
  - rewrite lookup_insert_eq. cbn. assert (size (locks_of (locks_by_key r) start_ts) <> 0%nat) by lia. lia.
  - by rewrite lookup_insert_ne.
Qed.

(** ** Memory of the tracked keys *)

Definition used (m : gmap bytes TimeStamp) : Z := map_fold (fun key _ n => lock_heap_size key + n) 0 m.

Lemma used_insert m key ts : m !! key = None -> used (<[key := ts]> m) = lock_heap_size key + used m.
Proof. intros Hk. unfold used. rewrite map_fold_insert_L; [done|intros; lia|done]. Qed.

Lemma used_delete m key ts : m !! key = Some ts -> used m = lock_heap_size key + used (delete key m).
Proof.
  intros Hk. rewrite <-(insert_delete_id m key ts) at 1 by done. apply used_insert, lookup_delete_eq.
Qed.

Lemma lock_heap_size_pos key : 8 <= lock_heap_size key.
Proof. unfold lock_heap_size, zlen. lia. Qed.

Lemma used_nonneg m : 0 <= used m.
Proof.
  unfold used. apply (map_fold_weak_ind (fun n _ => 0 <= n)); [done|].
  intros key ? ? n _ Hn. pose proof (lock_heap_size_pos key). lia.
Qed.

(** Of the memory in use, [other] bytes are not the resolver's. *)
Definition quota_holds (other : Z) (r : Resolver) (q : MemoryQuota) : Prop :=
  quota_ok q /\ 0 <= other /\ mq_in_use q = other + used (locks_by_key r).

Definition key_fits (key : bytes) : Prop := lock_heap_size key <= MAX_MEMORY_ALLOC_SIZE.

(** The first lock of a key is kept. *)
Definition track_map (m : gmap bytes TimeStamp) (key : bytes) (start_ts : TimeStamp) : gmap bytes TimeStamp :=
  match m !! key with Some _ => m | None => <[key := start_ts]> m end.

(** What tracking leaves alone. *)
Definition same_progress (r r' : Resolver) : Prop :=
  rv_region_id r' = rv_region_id r /\ large_txns r' = large_txns r
  /\ large_txn_key_representative r' = large_txn_key_representative r
  /\ resolved_ts r' = resolved_ts r /\ has_read_progress r' = has_read_progress r /\ min_ts r' = min_ts r
  /\ stopped r' = stopped r /\ last_attempt r' = last_attempt r.

Lemma track_normal_lock_spec other start_ts key r q :
  heap_ok r -> quota_holds other r q -> key_fits key ->
  if mq_in_use q + lock_heap_size key <=? mq_capacity q then
    exists r' q', track_normal_lock start_ts key (r, q) = (Ok tt, (r', q'))
      /\ locks_by_key r' = track_map (locks_by_key r) key start_ts
      /\ heap_ok r' /\ quota_holds other r' q' /\ mq_capacity q' = mq_capacity q
      /\ same_progress r r' /\ tracked_index r' = tracked_index r
  else track_normal_lock start_ts key (r, q) = (Err MemoryQuotaExceeded, (r, q)).
Proof.
  intros Hok (Hq & Ho & Hu) Hfit. unfold track_normal_lock. pose proof (lock_heap_size_pos key) as Hpos.
  rewrite alloc_spec by (done || lia). unfold key_fits in Hfit. rewrite (proj2 (Z.leb_le _ MAX_MEMORY_ALLOC_SIZE)) by done.
  rewrite andb_true_r. destruct (Z.leb_spec (mq_in_use q + lock_heap_size key) (mq_capacity q)) as [Hle|]; [|done].
  assert (quota_ok {| mq_in_use := mq_in_use q + lock_heap_size key; mq_capacity := mq_capacity q |}) as Hq'.
  { destruct Hq. split; cbn; lia. }
  unfold track_map. destruct (locks_by_key r !! key) as [old|] eqn:Hk.
  - destruct Hq as [Hq1 Hq2]. rewrite free_spec by (cbn; done || lia). eexists _, _. split; [reflexivity|]. cbn.
    split_and!; try done. split_and!; cbn; [|done|lia]. split; cbn; lia.
  - eexists _, _. split; [reflexivity|]. split_and!; try done.
    + apply track_heap_ok; [done|done|]. cbn. by destruct (lock_ts_heap r !! start_ts).
    + split_and!; cbn; [done|done|]. rewrite used_insert by done. lia.
Qed.

Lemma note_index_spec index r q :
  note_index index (r, q)
  = match index with
    | Some i => if tracked_index r <=? i then (Ok tt, (set_tracked_index r i, q)) else (Panic, (r, q))
    | None => (Ok tt, (r, q))
    end.
Proof. destruct index as [i|]; [|done]. unfold note_index, zoom, update_tracked_index, assert_. cbn. by destruct (tracked_index r <=? i). Qed.

(** The index a call leaves behind. *)
Definition next_index (r : Resolver) (index : option u64) : u64 := default (tracked_index r) index.

Lemma track_lock_spec other start_ts key index r q :
  heap_ok r -> quota_holds other r q -> key_fits key -> tracked_index r <= next_index r index ->
  if mq_in_use q + lock_heap_size key <=? mq_capacity q then
    exists r' q', track_lock start_ts key index 0 (r, q) = (Ok tt, (r', q'))
      /\ locks_by_key r' = track_map (locks_by_key r) key start_ts
      /\ heap_ok r' /\ quota_holds other r' q' /\ mq_capacity q' = mq_capacity q
      /\ same_progress r r' /\ tracked_index r' = next_index r index
  else exists r', track_lock start_ts key index 0 (r, q) = (Err MemoryQuotaExceeded, (r', q)).
Proof.
  intros Hok Hq Hfit Hidx. unfold track_lock, next_index in *.
  set (r1 := match index with Some i => set_tracked_index r i | None => r end).
  assert (note_index index (r, q) = (Ok tt, (r1, q))) as Hn.
  { rewrite note_index_spec. subst r1. destruct index as [i|]; [|done].
    cbn in Hidx. by rewrite (proj2 (Z.leb_le _ _) Hidx). }
  rewrite (st_bind_ok _ _ _ _ _ Hn). cbn.
  pose proof (track_normal_lock_spec other start_ts key r1 q) as Hspec.
  destruct (_ <=? _); [|exists r1; apply Hspec; by subst r1; destruct index].
  destruct Hspec as (r' & q' & Ht & Hl & Hh & Hq' & Hc & Hs & Hi); [by subst r1; destruct index..|].
  exists r', q'. split_and!; try done; [by subst r1; destruct index..|].
  rewrite Hi. by subst r1; destruct index.
Qed.

(** The locks of large transactions leave those of the normal ones alone. *)
Lemma track_large_lock_spec start_ts key index generation r q :
  tracked_index r <= next_index r index -> generation <> 0 ->
  exists r', track_lock start_ts key index generation (r, q) = (Ok tt, (r', q))
    /\ locks_by_key r' = locks_by_key r /\ lock_ts_heap r' = lock_ts_heap r
    /\ resolved_ts r' = resolved_ts r /\ tracked_index r' = next_index r index.
Proof.
  intros Hidx Hgen. unfold track_lock, next_index in *. rewrite (proj2 (Z.eqb_neq _ _) Hgen).
  set (r1 := match index with Some i => set_tracked_index r i | None => r end).
  assert (note_index index (r, q) = (Ok tt, (r1, q))) as Hn.
  { rewrite note_index_spec. subst r1. destruct index as [i|]; [|done].
    cbn in Hidx. by rewrite (proj2 (Z.leb_le _ _) Hidx). }
  rewrite (st_bind_ok _ _ _ _ _ Hn). unfold track_large_txn_lock, modify.
  destruct (large_txns r1 !! start_ts); eexists; (split; [reflexivity|]); by subst r1; destruct index.
Qed.

Lemma untrack_lock_spec other key index r q :
  heap_ok r -> quota_holds other r q -> (forall ts, locks_by_key r !! key = Some ts -> key_fits key) ->
  tracked_index r <= next_index r index ->
  exists r' q', untrack_lock key index (r, q) = (Ok tt, (r', q'))
    /\ locks_by_key r' = delete key (locks_by_key r)
    /\ heap_ok r' /\ quota_holds other r' q' /\ mq_capacity q' = mq_capacity q
    /\ resolved_ts r' = resolved_ts r /\ (large_txn_key_representative r !! key = None -> same_progress r r')
    /\ tracked_index r' = next_index r index.
Proof.
  intros Hok (Hq & Ho & Hu) Hfit Hidx. unfold untrack_lock, next_index in *.
  set (r1 := match index with Some i => set_tracked_index r i | None => r end).
  assert (note_index index (r, q) = (Ok tt, (r1, q))) as Hn.
  { rewrite note_index_spec. subst r1. destruct index as [i|]; [|done].
    cbn in Hidx. by rewrite (proj2 (Z.leb_le _ _) Hidx). }
  rewrite (st_bind_ok _ _ _ _ _ Hn). cbn.
  assert (locks_by_key r1 = locks_by_key r /\ large_txn_key_representative r1 = large_txn_key_representative r
          /\ heap_ok r1 /\ resolved_ts r1 = resolved_ts r /\ same_progress r r1
          /\ tracked_index r1 = default (tracked_index r) index)
    as (El & Er & Hok1 & Ers & Hsame & Ei) by (by subst r1; destruct index).
  clearbody r1. unfold modify. rewrite El, Er.
  destruct (locks_by_key r !! key) as [ts|] eqn:Hk.
  - pose proof (used_delete _ _ _ Hk) as Hd. pose proof (lock_heap_size_pos key). pose proof (used_nonneg (delete key (locks_by_key r))).
    specialize (Hfit ts eq_refl). unfold key_fits in Hfit. rewrite free_spec by (done || lia).
    eexists _, _. split; [reflexivity|]. cbn. split_and!; try done.
    + rewrite <-El. apply untrack_heap_ok; [done|by rewrite El].
    + split_and!; cbn; [|done|lia]. destruct Hq. split; cbn; lia.
  - rewrite (delete_id _ _ Hk).
    destruct (large_txn_key_representative r !! key); eexists _, q; (split; [reflexivity|]); split_and!; try done;
      unfold quota_holds; cbn; by rewrite El.
Qed.

(** ** What [resolve] answers *)

Lemma min_by_ts_spec {A} (l : list (TimeStamp * A)) :
  match min_by_ts l with
  | Some x => x ∈ l /\ forall y, y ∈ l -> x.1 <= y.1
  | None => l = []
  end.
Proof.
  induction l as [|x l IH]; cbn; [done|]. destruct (min_by_ts l) as [y|].
  - destruct IH as [Hy Hmin]. destruct (Z.leb_spec x.1 y.1); split; try set_solver.
    + intros z [-> | Hz]%elem_of_cons; [done|]. specialize (Hmin z Hz). lia.
    + intros z [-> | Hz]%elem_of_cons; [lia|]. by apply Hmin.
  - subst l. split; [set_solver|]. by intros z ->%list_elem_of_singleton.
Qed.

Lemma heap_lookup r ts :
  heap_ok r -> is_Some (lock_ts_heap r !! ts) <-> exists key, locks_by_key r !! key = Some ts.
Proof.
  intros Hok. specialize (Hok ts). split.
  - intros [tl E]. rewrite E in Hok. destruct Hok as [Hc Hp].
    destruct (map_choose (locks_of (locks_by_key r) ts)) as (key & t & Hk).
    { intros E0. rewrite E0, map_size_empty in Hc. lia. }
    exists key. unfold locks_of in Hk. by apply map_lookup_filter_Some in Hk as [Hk <-].
  - intros [key Hk%locks_of_lookup]. destruct (lock_ts_heap r !! ts); [done|]. by rewrite Hok, lookup_empty in Hk.
Qed.

(** A timestamp below which nothing tracked can commit: every lock of a normal
    transaction has started, every large one that may still commit has its
    smallest commit timestamp, above it. *)
Definition below_locks (txn_status : TimeStamp -> option TxnState) (r : Resolver) (ts : TimeStamp) : Prop :=
  (forall key start_ts, locks_by_key r !! key = Some start_ts -> ts <= start_ts)
  /\ (forall start_ts min_commit_ts, is_Some (large_txns r !! start_ts) ->
        lookup_min_commit_ts txn_status start_ts = Some min_commit_ts -> ts < min_commit_ts).

Section resolve.
Context (txn_status : TimeStamp -> option TxnState) (r : Resolver).
Hypothesis Hheap : heap_ok r.
(** The cached timestamps of large transactions are not zero. *)
Hypothesis Hlarge : forall start_ts min_commit_ts, is_Some (large_txns r !! start_ts) ->
  lookup_min_commit_ts txn_status start_ts = Some min_commit_ts -> 0 < min_commit_ts.

Lemma ongoing_spec l :
  (forall e, e ∈ l -> is_Some (large_txns r !! e.1)) ->
  exists l', ongoing_large_txns (E := Empty_set) txn_status l = Ok l'
    /\ (forall x, x ∈ l' -> exists e, e ∈ l /\ lookup_min_commit_ts txn_status e.1 = Some (x.1 + 1))
    /\ (forall e mc, e ∈ l -> lookup_min_commit_ts txn_status e.1 = Some mc -> exists x, x ∈ l' /\ x.1 = mc - 1).
Proof.
  induction l as [|[st tl] l IH]; intros Hl; cbn.
  { exists []. split_and!; [done|..]; intros ? ?; set_solver. }
  destruct IH as (l' & -> & H1 & H2); [set_solver|]. specialize (Hl (st, tl) ltac:(set_solver)). cbn in Hl.
  destruct (lookup_min_commit_ts txn_status st) as [mc|] eqn:E; cbn.
  - pose proof (Hlarge st mc Hl E). unfold TimeStamp_prev. rewrite (proj2 (Z.ltb_lt _ _)) by done. cbn.
    eexists. split_and!; [done|..].
    + intros x [-> | Hx]%elem_of_cons; cbn.
      * exists (st, tl). split; [set_solver|]. cbn. by replace (mc - 1 + 1) with mc by lia.
      * destruct (H1 x Hx) as (e & He & ?). exists e. set_solver.
    + intros e mc' [-> | He]%elem_of_cons Hmc; cbn in Hmc.
      * exists (mc - 1, tl). split; [set_solver|]. cbn. congruence.
      * destruct (H2 e mc' He Hmc) as (x & Hx & ?). exists x. set_solver.
  - exists l'. split_and!; [done|..].
    + intros x Hx. destruct (H1 x Hx) as (e & He & ?). exists e. set_solver.
    + intros e mc [-> | He]%elem_of_cons Hmc; cbn in Hmc; [congruence|by apply (H2 e)].
Qed.

Lemma oldest_normal :
  match min_by_ts (map_to_list (lock_ts_heap r)) with
  | Some (ts, _) => (exists key, locks_by_key r !! key = Some ts)
                    /\ forall key start_ts, locks_by_key r !! key = Some start_ts -> ts <= start_ts
  | None => forall key start_ts, locks_by_key r !! key <> Some start_ts
  end.
Proof.
  assert (forall key st, locks_by_key r !! key = Some st -> exists tl, (st, tl) ∈ map_to_list (lock_ts_heap r)) as Hk.
  { intros key st Hst. destruct (proj2 (heap_lookup r st Hheap)) as [tl Htl]; [by exists key|].
    exists tl. by apply elem_of_map_to_list. }
  pose proof (min_by_ts_spec (map_to_list (lock_ts_heap r))) as Hn.
  destruct (min_by_ts _) as [[ts tl]|].
  - destruct Hn as [Hin Hmin]. split.
    + apply heap_lookup; [done|]. exists tl. by apply elem_of_map_to_list.
    + intros key st (tl' & Hin')%Hk. by apply (Hmin (st, tl')).
  - intros key st (tl' & Hin')%Hk. rewrite Hn in Hin'. by apply not_elem_of_nil in Hin'.
Qed.

Lemma oldest_large :
  exists l, ongoing_large_txns (E := Empty_set) txn_status (map_to_list (large_txns r)) = Ok l
    /\ match min_by_ts l with
       | Some (ts, _) =>
           (exists start_ts, is_Some (large_txns r !! start_ts)
              /\ lookup_min_commit_ts txn_status start_ts = Some (ts + 1))
           /\ forall start_ts mc, is_Some (large_txns r !! start_ts) ->
                lookup_min_commit_ts txn_status start_ts = Some mc -> ts < mc
       | None => forall start_ts mc, is_Some (large_txns r !! start_ts) ->
                   lookup_min_commit_ts txn_status start_ts <> Some mc
       end.
Proof.
  destruct (ongoing_spec (map_to_list (large_txns r))) as (l & -> & H1 & H2).
  { intros [st tl] He%elem_of_map_to_list. cbn. by rewrite He. }
  exists l. split; [done|]. pose proof (min_by_ts_spec l) as Hg.
  assert (forall st mc, is_Some (large_txns r !! st) -> lookup_min_commit_ts txn_status st = Some mc ->
          exists x, x ∈ l /\ x.1 = mc - 1) as Hl.
  { intros st mc [tl Htl] Hmc. apply (H2 (st, tl)); [by apply elem_of_map_to_list|done]. }
  destruct (min_by_ts l) as [[ts tl]|].
  - destruct Hg as [Hin Hmin]. split.
    + destruct (H1 _ Hin) as ([st tl'] & He%elem_of_map_to_list & Hmc). by exists st.
    + intros st mc Hst Hmc. destruct (Hl st mc Hst Hmc) as (x & Hx & E). specialize (Hmin x Hx). cbn in Hmin. lia.
  - intros st mc Hst Hmc. destruct (Hl st mc Hst Hmc) as (x & Hx & _). rewrite Hg in Hx. by apply not_elem_of_nil in Hx.
Qed.

Lemma oldest_transaction_spec :
  exists o, oldest_transaction (E := Empty_set) txn_status r = Ok o
    /\ match o with
       | Some (ts, _) =>
           below_locks txn_status r ts
           /\ ((exists key, locks_by_key r !! key = Some ts)
               \/ exists start_ts, is_Some (large_txns r !! start_ts)
                  /\ lookup_min_commit_ts txn_status start_ts = Some (ts + 1))
       | None => forall ts, below_locks txn_status r ts
       end.
Proof.
  unfold oldest_transaction. destruct oldest_large as (l & -> & Hg). cbn. eexists. split; [done|].
  pose proof oldest_normal as Hn. unfold below_locks.
  destruct (min_by_ts (map_to_list (lock_ts_heap r))) as [[ts1 tl1]|], (min_by_ts l) as [[ts2 tl2]|].
  - destruct Hn as [Hn1 Hn2], Hg as [Hg1 Hg2]. destruct (Z.ltb_spec ts1 ts2); (split; [split|]); try tauto.
    + intros st mc H1 H2. specialize (Hg2 st mc H1 H2). lia.
    + intros key st H1. specialize (Hn2 key st H1). lia.
  - destruct Hn as [Hn1 Hn2]. split; [split|]; try tauto. intros st mc H1 H2. by destruct (Hg st mc H1).
  - destruct Hg as [Hg1 Hg2]. split; [split|]; try tauto. intros key st H1. by destruct (Hn key st).
  - intros ts. split; [intros key st H1; by destruct (Hn key st)|intros st mc H1 H2; by destruct (Hg st mc H1)].
Qed.

(** [resolve] answers with the larger of its last answer and the largest
    timestamp that is at most its argument and below the locks; it publishes the
    answer with the tracked index. *)
Lemma resolve_spec rrp m now source :
  stopped r = false ->
  exists bound r', resolve (E := Empty_set) txn_status r rrp m now source
      = Ok (resolved_ts r', r',
            if has_read_progress r then update_safe_ts_with_time rrp (tracked_index r) (resolved_ts r') now else rrp)
    /\ resolved_ts r' = Z.max (resolved_ts r) bound
    /\ bound <= m /\ below_locks txn_status r bound
    /\ (bound < m -> forall ts, below_locks txn_status r ts -> ts <= bound)
    /\ locks_by_key r' = locks_by_key r /\ lock_ts_heap r' = lock_ts_heap r /\ large_txns r' = large_txns r
    /\ large_txn_key_representative r' = large_txn_key_representative r
    /\ tracked_index r' = tracked_index r /\ has_read_progress r' = has_read_progress r /\ stopped r' = false.
Proof.
  intros Hs. unfold resolve. rewrite Hs. destruct oldest_transaction_spec as (o & -> & Ho). cbn.
  destruct o as [[ts tl]|].
  - destruct Ho as [[Hb1 Hb2] Hatt]. exists (Z.min ts m).
    match goal with |- context [set_resolved r ?a ?b ?c] => exists (set_resolved r a b c) end. cbn.
    split_and!; try done; [lia|split|].
    + intros key st Hk. specialize (Hb1 key st Hk). lia.
    + intros st mc H1 H2. specialize (Hb2 st mc H1 H2). lia.
    + intros Hlt ts' [H1 H2]. rewrite Z.min_l by lia.
      destruct Hatt as [[key Hk]|(st & Hst & Hmc)]; [by apply (H1 key)|]. specialize (H2 st _ Hst Hmc). lia.
  - rewrite Z.min_id. exists m.
    match goal with |- context [set_resolved r ?a ?b ?c] => exists (set_resolved r a b c) end. cbn.
    split_and!; try done; [apply Ho..|lia].
Qed.

End resolve.

(** An answer shows that no cached timestamp was zero. *)
Lemma ongoing_positive {E} txn_status l : forall l',
  ongoing_large_txns (E := E) txn_status l = Ok l' ->
  forall e mc, e ∈ l -> lookup_min_commit_ts txn_status e.1 = Some mc -> 0 < mc.
Proof.
  induction l as [|[st tl] l IH]; intros l' H e mc; [by intros ?%not_elem_of_nil|]. cbn in H.
  intros [-> | He]%elem_of_cons Hmc.
  - cbn in Hmc. rewrite Hmc in H. unfold TimeStamp_prev in H. by destruct (Z.ltb_spec 0 mc).
  - destruct (lookup_min_commit_ts txn_status st) as [mc'|]; [|by apply (IH l' H e)].
    destruct (TimeStamp_prev mc') as [p| |]; [|done..].
    destruct (ongoing_large_txns txn_status l) as [l1| |]; [|done..]. by apply (IH l1 eq_refl e).
Qed.

Lemma resolve_positive {E} txn_status r rrp m now source x :
  stopped r = false -> resolve (E := E) txn_status r rrp m now source = Ok x ->
  forall start_ts mc, is_Some (large_txns r !! start_ts) -> lookup_min_commit_ts txn_status start_ts = Some mc -> 0 < mc.
Proof.
  unfold resolve, oldest_transaction. intros -> H st mc [tl Hst%elem_of_map_to_list] Hmc.
  destruct (ongoing_large_txns txn_status (map_to_list (large_txns r))) as [l| |] eqn:Hl; [|done..].
  exact (ongoing_positive _ _ _ Hl (st, tl) mc Hst Hmc).
Qed.
