(* ===== verification/ChangeLog.v ===== *)
(** * Change logs of the resolver

    [components/resolved_ts/src/cmd.rs]: the requests of an applied command are
    grouped by key, and each key's group becomes a row, from which the resolver
    learns which locks appear and disappear.  A [HashMap] is traversed in the order
    of [map_to_list].

    Theorems: what the filter of lock-related requests drops changes no row but
    for the values it carries ([lock_only_filter_transparent]). *)

From Stdlib Require Import ZArith Lia String.
From stdpp Require Import base numbers list gmap strings.
From S2P Require Import Prelude Number Bytes Types Write Lock Engine.

Open Scope Z_scope.

(** ** Requests of [raft_cmdpb] *)

Inductive RaftRequest : Type :=
| ReqPut (cf : string) (key value : bytes)
| ReqDelete (cf : string) (key : bytes)
| ReqIngestSst
| ReqOther.

Definition cf_name (cf : CF) : string :=
  match cf with CF_DEFAULT => "default" | CF_LOCK => "lock" | CF_WRITE => "write" end.

(** [From<Modify> for raft_cmdpb::Request]; the default column family has the
    empty name. *)
Definition Request_from (m : Modify) : RaftRequest :=
  let req_cf cf := if decide (cf = CF_DEFAULT) then EmptyString else cf_name cf in
  match m with
  | MoDelete cf k => ReqDelete (req_cf cf) k
  | MoPut cf k v => ReqPut (req_cf cf) k v
  | MoPessimisticLock k lock => ReqPut (cf_name CF_LOCK) k (Lock_to_bytes (PessimisticLock_into_lock lock))
  | MoDeleteRange _ _ _ _ => ReqOther
  end.

(** ** Rows *)

Inductive ChangeRow : Type :=
| RowPrewrite (key : Key) (start_ts : TimeStamp) (lock_type : LockType) (value : option Value) (generation : u64)
| RowCommit (key : Key) (write_type : WriteType) (start_ts commit_ts : option TimeStamp)
| RowOnePc (key : Key) (write_type : WriteType) (commit_ts : TimeStamp) (value : option Value)
| RowIngestSst.

Inductive AdminCmdType : Type :=
| AdSplit | AdBatchSplit | AdPrepareMerge | AdRollbackMerge | AdCommitMerge | AdOther.

Inductive ChangeLog (Error : Type) : Type :=
| LogError (e : Error)
| LogRows (index : u64) (rows : list ChangeRow)
| LogAdmin (cmd : AdminCmdType).
Arguments LogError {Error} e.
Arguments LogRows {Error} index rows.
Arguments LogAdmin {Error} cmd.

Inductive KeyOp : Type :=
| KoPut (ts : option TimeStamp) (value : bytes)
| KoDelete.

(** [into_put().1]; a deletion is [unreachable!]. *)
Definition KeyOp_put_value {E : Type} (op : KeyOp) : res E bytes :=
  match op with KoPut _ value => Ok value | KoDelete => Panic end.

Record RowChange : Type := { rc_write : option KeyOp; rc_lock : option KeyOp; rc_default : option KeyOp }.

Definition RowChange_default : RowChange := {| rc_write := None; rc_lock := None; rc_default := None |}.

(** [Result::ok]; a panic stays one. *)
Definition res_ok {E F A} (r : res E A) : res F (option A) :=
  match r with Ok a => Ok (Some a) | Err _ => Ok None | Panic => Panic end.

Definition decode_write {E : Type} (value : bytes) (is_apply : bool) : res E (option Write) :=
  parsed ← res_ok (WriteRef_parse value);
  match parsed with
  | None => Ok None
  | Some write =>
      if (is_apply && bool_decide (is_Some (w_gc_fence write)))%bool then
        _ ← assert_ (w_has_overlapped_rollback write);
        _ ← assert_ (negb (bool_decide (w_write_type write = WtRollback)));
        Ok None
      else
        match w_write_type write with
        | WtPut | WtDelete | WtRollback => Ok (Some write)
        | WtLock => Ok None
        end
  end.

Definition decode_lock {E : Type} (value : bytes) : res E (option Lock) :=
  parsed ← res_ok (Lock_parse value);
  match parsed with
  | None => Ok None
  | Some lock =>
      match l_lock_type lock with
      | LtPut | LtDelete => Ok (Some lock)
      | LtLock | LtPessimistic => Ok None
      end
  end.

(** [default.map_or(short_value, |v| Some(v.into_put().1))] *)
Definition row_value {E : Type} (default_op : option KeyOp) (short_value : option Value) : res E (option Value) :=
  match default_op with
  | Some op => Some <$> KeyOp_put_value op
  | None => Ok short_value
  end.

(** The closure of [encode_rows]. *)
Definition encode_row {E : Type} (is_one_pc : bool) (key : Key) (row : RowChange) : res E (option ChangeRow) :=
  match rc_write row, rc_lock row with
  | Some (KoPut commit_ts write), _ =>
      decoded ← decode_write write true;
      match decoded with
      | None => Ok None
      | Some write =>
          value ← row_value (rc_default row) (w_short_value write);
          Ok (Some
            (if is_one_pc then RowOnePc key (w_write_type write) (default 0 commit_ts) value
             else RowCommit key (w_write_type write) (Some (w_start_ts write))
                    (if decide (w_write_type write = WtRollback) then None else commit_ts)))
      end
  | None, Some (KoPut _ lock) =>
      decoded ← decode_lock lock;
      match decoded with
      | None => Ok None
      | Some lock =>
          value ← row_value (rc_default row) (l_short_value lock);
          Ok (Some (RowPrewrite key (l_ts lock) (l_lock_type lock) value (l_generation lock)))
      end
  | None, Some KoDelete => Ok (Some (RowCommit key WtRollback None None))
  | _, _ => Panic
  end.

(** [into_iter().filter_map(..).collect()] *)
Fixpoint encode_row_list {E : Type} (is_one_pc : bool) (l : list (Key * RowChange)) : res E (list ChangeRow) :=
  match l with
  | [] => Ok []
  | (key, row) :: l =>
      r ← encode_row is_one_pc key row;
      rows ← encode_row_list is_one_pc l;
      Ok (match r with Some x => x :: rows | None => rows end)
  end.

Definition encode_rows {E : Type} (changes : gmap Key RowChange) (is_one_pc : bool) : res E (list ChangeRow) :=
  encode_row_list is_one_pc (map_to_list changes).

(** ** Grouping *)

Record GroupState : Type := {
  gr_changes : gmap Key RowChange;
  gr_unmatched : gmap Key KeyOp;
  gr_ingest : bool
}.

Definition entry (changes : gmap Key RowChange) (key : Key) : RowChange := default RowChange_default (changes !! key).

Definition set_changes (g : GroupState) (changes : gmap Key RowChange) : GroupState :=
  {| gr_changes := changes; gr_unmatched := gr_unmatched g; gr_ingest := gr_ingest g |}.

(** The key and the timestamp of [key.decode_ts()] and [key.truncate_ts().unwrap()],
    when the first succeeds. *)
Definition split_ts {E : Type} (key : Key) : res E (option (Key * TimeStamp)) :=
  ts ← res_ok (Key_decode_ts key);
  match ts with
  | None => Ok None
  | Some ts => user_key ← unwrap_ok (Key_truncate_ts key); Ok (Some (user_key, ts))
  end.

Definition group_put {E : Type} (g : GroupState) (cf : string) (key : Key) (value : bytes) : res E GroupState :=
  if decide (cf = cf_name CF_WRITE) then
    s ← split_ts key;
    match s with
    | None => Ok g
    | Some (user_key, ts) =>
        let row := entry (gr_changes g) user_key in
        _ ← assert_ (bool_decide (rc_write row = None));
        Ok (set_changes g (<[user_key := {| rc_write := Some (KoPut (Some ts) value);
                                            rc_lock := rc_lock row; rc_default := rc_default row |}]> (gr_changes g)))
    end
  else if decide (cf = cf_name CF_LOCK) then
    let row := entry (gr_changes g) key in
    _ ← assert_ (bool_decide (rc_lock row = None));
    Ok (set_changes g (<[key := {| rc_write := rc_write row; rc_lock := Some (KoPut None value);
                                   rc_default := rc_default row |}]> (gr_changes g)))
  else if decide (cf = EmptyString \/ cf = cf_name CF_DEFAULT) then
    s ← split_ts key;
    match s with
    | None => Ok g
    | Some (user_key, ts) =>
        Ok {| gr_changes := gr_changes g;
              gr_unmatched := <[user_key := KoPut (Some ts) value]> (gr_unmatched g);
              gr_ingest := gr_ingest g |}
    end
  else Ok g.

Definition group_delete (g : GroupState) (cf : string) (key : Key) : GroupState :=
  if decide (cf = cf_name CF_LOCK) then
    let row := entry (gr_changes g) key in
    set_changes g (<[key := {| rc_write := rc_write row; rc_lock := Some KoDelete;
                               rc_default := rc_default row |}]> (gr_changes g))
  else g.

Definition group_request {E : Type} (g : GroupState) (req : RaftRequest) : res E GroupState :=
  match req with
  | ReqIngestSst => Ok {| gr_changes := gr_changes g; gr_unmatched := gr_unmatched g; gr_ingest := true |}
  | ReqPut cf key value => group_put g cf key value
  | ReqDelete cf key => Ok (group_delete g cf key)
  | ReqOther => Ok g
  end.

Fixpoint group_requests {E : Type} (g : GroupState) (requests : list RaftRequest) : res E GroupState :=
  match requests with
  | [] => Ok g
  | req :: requests => g ← group_request g req; group_requests g requests
  end.

(** The loop that gives each row its value: [changes.get_mut(&key)]. *)
Definition match_default (changes : gmap Key RowChange) (e : Key * KeyOp) : gmap Key RowChange :=
  match changes !! e.1 with
  | Some row => <[e.1 := {| rc_write := rc_write row; rc_lock := rc_lock row; rc_default := Some e.2 |}]> changes
  | None => changes
  end.

Definition match_defaults (changes : gmap Key RowChange) (unmatched : gmap Key KeyOp) : gmap Key RowChange :=
  foldl match_default changes (map_to_list unmatched).

Definition group_row_changes {E : Type} (requests : list RaftRequest) : res E (gmap Key RowChange * bool) :=
  g ← group_requests {| gr_changes := ∅; gr_unmatched := ∅; gr_ingest := false |} requests;
  Ok (match_defaults (gr_changes g) (gr_unmatched g), gr_ingest g).

(** ** Commands *)

(** [WriteBatchFlags::ONE_PC] *)
Definition ONE_PC : u64 := 1.

Record Cmd (Error : Type) : Type := {
  cmd_index : u64;
  cmd_error : option Error;
  cmd_admin : option AdminCmdType;
  cmd_flags : u64;
  cmd_requests : list RaftRequest
}.
Arguments cmd_index {Error}.
Arguments cmd_error {Error}.
Arguments cmd_admin {Error}.
Arguments cmd_flags {Error}.
Arguments cmd_requests {Error}.

(** The closure of [encode_change_log]. *)
Definition encode_cmd {Error E : Type} (cmd : Cmd Error) : res E (ChangeLog Error) :=
  match cmd_error cmd with
  | Some e => Ok (LogError e)
  | None =>
      match cmd_admin cmd with
      | Some a => Ok (LogAdmin a)
      | None =>
          let is_one_pc := negb (Z.land (cmd_flags cmd) ONE_PC =? 0) in
          '(changes, has_ingest_sst) ← group_row_changes (cmd_requests cmd);
          rows ← encode_rows changes is_one_pc;
          Ok (LogRows (cmd_index cmd) (if has_ingest_sst : bool then rows ++ [RowIngestSst] else rows))
      end
  end.

Fixpoint encode_change_log {Error E : Type} (cmds : list (Cmd Error)) : res E (list (ChangeLog Error)) :=
  match cmds with
  | [] => Ok []
  | cmd :: cmds => log ← encode_cmd cmd; logs ← encode_change_log cmds; Ok (log :: logs)
  end.

Inductive ObserveLevel : Type := ObNone | ObLockRelated | ObAll.

(** The requests [lock_only_filter] retains. *)
Definition lock_related (req : RaftRequest) : bool :=
  match req with
  | ReqPut cf _ _ | ReqDelete cf _ => bool_decide (cf = cf_name CF_LOCK \/ cf = cf_name CF_WRITE)
  | ReqIngestSst => true
  | ReqOther => false
  end.

(** What [lock_only_filter] makes of a command. *)
Definition retain_lock_related {Error} (cmd : Cmd Error) : Cmd Error :=
  {| cmd_index := cmd_index cmd; cmd_error := cmd_error cmd; cmd_admin := cmd_admin cmd;
     cmd_flags := cmd_flags cmd; cmd_requests := List.filter lock_related (cmd_requests cmd) |}.

Definition lock_only_filter {Error} (level : ObserveLevel) (cmds : list (Cmd Error)) : option (list (Cmd Error)) :=
  if decide (cmds = []) then None
  else
    match level with
    | ObNone => None
    | ObAll => Some cmds
    | ObLockRelated =>
        Some (map retain_lock_related cmds)
    end.

(** ** The filter *)

Definition strip (row : RowChange) : RowChange :=
  {| rc_write := rc_write row; rc_lock := rc_lock row; rc_default := None |}.

(** A row without its value. *)
Definition erase (row : ChangeRow) : ChangeRow :=
  match row with
  | RowPrewrite key start_ts lock_type _ generation => RowPrewrite key start_ts lock_type None generation
  | RowOnePc key write_type commit_ts _ => RowOnePc key write_type commit_ts None
  | row => row
  end.

Definition no_default (changes : gmap Key RowChange) : Prop := forall k row, changes !! k = Some row -> rc_default row = None.

Lemma entry_no_default changes k : no_default changes -> rc_default (entry changes k) = None.
Proof. intros Hn. unfold entry. destruct (changes !! k) as [row|] eqn:E; [by apply (Hn k)|done]. Qed.

Lemma no_default_insert changes k w l :
  no_default changes ->
  no_default (<[k := {| rc_write := w; rc_lock := l; rc_default := rc_default (entry changes k) |}]> changes).
Proof.
  intros Hn k' row. rewrite lookup_insert_Some. intros [[_ <-]|[_ H]]; [by apply entry_no_default|by apply (Hn k')].
Qed.

(** A request that is filtered out only adds a value; one that is retained does
    not look at the values. *)
Lemma group_request_filtered {E : Type} g g1 g' req :
  gr_changes g' = gr_changes g -> gr_ingest g' = gr_ingest g -> gr_unmatched g' = ∅ -> no_default (gr_changes g) ->
  group_request (E := E) g req = Ok g1 ->
  exists g1', group_requests (E := E) g' (if lock_related req then [req] else []) = Ok g1'
    /\ gr_changes g1' = gr_changes g1 /\ gr_ingest g1' = gr_ingest g1 /\ gr_unmatched g1' = ∅
    /\ no_default (gr_changes g1).
Proof.
  intros Hc Hi Hu Hn. destruct req as [cf key value|cf key| |]; cbn [group_request].
  - unfold lock_related, group_put. case_decide as Hw.
    { rewrite (bool_decide_true (_ \/ _)) by auto. intros H. res_inv. cbn [group_requests group_request].
      unfold group_put. rewrite decide_True by done. rewrite H0. cbn. destruct a as [[uk ts]|]; res_inv.
      - rewrite Hc, E0. cbn. eexists. split; [reflexivity|]. cbn. rewrite Hi, Hu.
        split_and!; try done. by apply no_default_insert.
      - by exists g'. }
    case_decide as Hl.
    { rewrite (bool_decide_true (_ \/ _)) by auto. intros H. res_inv. cbn [group_requests group_request].
      unfold group_put. rewrite decide_False, decide_True by done. rewrite Hc, E0. cbn. eexists. split; [reflexivity|].
      cbn. rewrite Hi, Hu. split_and!; try done. by apply no_default_insert. }
    rewrite (bool_decide_false (_ \/ _)) by tauto. intros H. exists g'. cbn. split; [done|].
    case_decide; [|by injection H as <-]. res_inv. destruct a as [[uk ts]|]; by res_inv.
  - intros [= <-]. unfold group_delete, lock_related. case_decide as Hl.
    + rewrite (bool_decide_true (_ \/ _)) by auto. cbn [group_requests group_request]. unfold group_delete.
      rewrite decide_True by done. rewrite Hc. cbn. eexists. split; [reflexivity|]. cbn. rewrite Hi, Hu.
      split_and!; try done. by apply no_default_insert.
    + exists g'. case_bool_decide; cbn [group_requests group_request]; [|done].
      unfold group_delete. by rewrite decide_False.
  - intros [= <-]. cbn. eexists. split; [reflexivity|]. cbn. by rewrite Hc, Hu.
  - intros [= <-]. cbn. by exists g'.
Qed.

Lemma group_requests_app {E : Type} g l k :
  group_requests (E := E) g (l ++ k) = g ← group_requests g l; group_requests g k.
Proof.
  revert g. induction l as [|req l IH]; intros g; cbn; [done|]. destruct (group_request g req); cbn; [|done..]. apply IH.
Qed.

Lemma group_requests_filtered {E : Type} reqs : forall g g1 g',
  gr_changes g' = gr_changes g -> gr_ingest g' = gr_ingest g -> gr_unmatched g' = ∅ -> no_default (gr_changes g) ->
  group_requests (E := E) g reqs = Ok g1 ->
  exists g1', group_requests (E := E) g' (List.filter lock_related reqs) = Ok g1'
    /\ gr_changes g1' = gr_changes g1 /\ gr_ingest g1' = gr_ingest g1 /\ gr_unmatched g1' = ∅
    /\ no_default (gr_changes g1).
Proof.
  induction reqs as [|req reqs IH]; intros g g1 g' Hc Hi Hu Hn; cbn [group_requests].
  { intros [= <-]. by exists g'. }
  intros H. res_inv. destruct (group_request_filtered g a g' req Hc Hi Hu Hn H0) as (g1' & H1 & Hc1 & Hi1 & Hu1 & Hn1).
  destruct (IH a g1 g1' Hc1 Hi1 Hu1 Hn1 H) as (g2' & H2 & Hrest). exists g2'. split; [|done].
  replace (List.filter lock_related (req :: reqs))
    with ((if lock_related req then [req] else []) ++ List.filter lock_related reqs) by (cbn; by case_match).
  rewrite group_requests_app, H1. done.
Qed.

Lemma match_defaults_strip changes unmatched :
  no_default changes -> strip <$> match_defaults changes unmatched = changes.
Proof.
  intros Hn. unfold match_defaults.
  assert (strip <$> changes = changes) as Hs.
  { apply map_eq. intros k. rewrite lookup_fmap. destruct (changes !! k) as [row|] eqn:E; [|done]. cbn.
    f_equal. specialize (Hn k row E). destruct row. cbn in *. by subst. }
  rewrite <-Hs at 2. generalize (map_to_list unmatched). intros l. clear. revert changes.
  induction l as [|[key op] l IH]; intros c; cbn [foldl]; [done|]. rewrite IH. unfold match_default. cbn.
  destruct (c !! key) as [row|] eqn:E; [|done]. rewrite fmap_insert. apply insert_id.
  by rewrite lookup_fmap, E.
Qed.

Lemma encode_row_strip {E : Type} ip key row r :
  encode_row (E := E) ip key row = Ok r ->
  exists r', encode_row (E := E) ip key (strip row) = Ok r' /\ erase <$> r' = erase <$> r.
Proof.
  unfold encode_row. cbn [strip rc_write rc_lock rc_default].
  destruct (rc_write row) as [[ts w|]|]; [| |destruct (rc_lock row) as [[ts l|]|]]; try done; intros H; try by exists r.
  - res_inv. rewrite H0. cbn. destruct a as [w'|]; res_inv; [|by exists None].
    eexists. split; [reflexivity|]. cbn. by case_match.
  - res_inv. rewrite H0. cbn. destruct a as [l'|]; res_inv; [|by exists None]. by eexists.
Qed.

(** What [encode_row_list] returns, as one pass over the entries. *)
Definition erased {E : Type} (ip : bool) (e : Key * RowChange) : option ChangeRow :=
  match encode_row (E := E) ip e.1 e.2 with Ok r => erase <$> r | _ => None end.

Lemma encode_row_list_ok {E : Type} ip l rows :
  encode_row_list (E := E) ip l = Ok rows ->
  (forall e, e ∈ l -> exists r, encode_row (E := E) ip e.1 e.2 = Ok r)
  /\ map erase rows = omap (erased (E := E) ip) l.
Proof.
  revert rows. induction l as [|[k row] l IH]; intros rows H; cbn in H; res_inv.
  { split; [|done]. intros e He. by apply not_elem_of_nil in He. }
  destruct (IH _ H1) as [H2 H3]. split.
  - intros e [-> | He]%elem_of_cons; [by exists a|by apply H2].
  - cbn. unfold erased at 1. cbn. rewrite H0. rewrite <-H3. by destruct a.
Qed.

Lemma encode_row_list_exists {E : Type} ip l :
  (forall e, e ∈ l -> exists r, encode_row (E := E) ip e.1 e.2 = Ok r) ->
  exists rows, encode_row_list (E := E) ip l = Ok rows.
Proof.
  induction l as [|[k row] l IH]; intros Hok; cbn; [by eexists|].
  destruct (Hok (k, row) ltac:(set_solver)) as [r Hr]. cbn in Hr. rewrite Hr. cbn.
  destruct IH as [rows ->]; [set_solver|]. by eexists.
Qed.

Lemma encode_rows_strip {E : Type} ip changes rows :
  encode_rows (E := E) changes ip = Ok rows ->
  exists rows', encode_rows (E := E) (strip <$> changes) ip = Ok rows' /\ map erase rows' = map erase rows.
Proof.
  intros [Hok Hrows]%encode_row_list_ok. unfold encode_rows.
  destruct (encode_row_list_exists (E := E) ip (map_to_list (strip <$> changes))) as [rows' Hrows'].
  { intros [k row'] He%elem_of_map_to_list. cbn. rewrite lookup_fmap in He.
    destruct (changes !! k) as [row|] eqn:Hk; [|done]. injection He as <-.
    destruct (Hok (k, row)) as [r Hr]; [by apply elem_of_map_to_list|].
    apply encode_row_strip in Hr as (r' & Hr' & _). by exists r'. }
  exists rows'. split; [done|]. apply encode_row_list_ok in Hrows' as [_ ->]. rewrite Hrows.
  rewrite map_to_list_fmap. apply list_omap_ext, Forall2_fmap_l, Forall_Forall2_diag, Forall_forall.
  intros [k row] He. unfold erased. cbn.
  destruct (Hok (k, row) He) as [r Hr]. cbn in Hr. destruct (encode_row_strip _ _ _ _ Hr) as (r' & -> & Hr').
  by rewrite Hr.
Qed.

Lemma group_row_changes_filtered {E : Type} reqs changes ingest :
  group_row_changes (E := E) reqs = Ok (changes, ingest) ->
  group_row_changes (E := E) (List.filter lock_related reqs) = Ok (strip <$> changes, ingest).
Proof.
  unfold group_row_changes. intros H. res_inv.
  set (g0 := {| gr_changes := ∅; gr_unmatched := ∅; gr_ingest := false |}) in *.
  destruct (group_requests_filtered (E := E) reqs g0 a g0) as (g' & -> & Hc & Hi & Hu & Hn); try done.
  cbn.
  rewrite match_defaults_strip by done. by rewrite Hc, Hi, Hu.
Qed.

(** Logs that differ in the values of their rows only. *)
Definition same_locks {Error} (log log' : ChangeLog Error) : Prop :=
  match log, log' with
  | LogRows index rows, LogRows index' rows' => index = index' /\ map erase rows' = map erase rows
  | _, _ => log = log'
  end.

Lemma encode_cmd_filtered {Error E : Type} (cmd : Cmd Error) log :
  encode_cmd (E := E) cmd = Ok log ->
  exists log', encode_cmd (E := E) (retain_lock_related cmd) = Ok log' /\ same_locks log log'.
Proof.
  unfold encode_cmd. cbn [retain_lock_related cmd_error cmd_admin cmd_requests cmd_flags cmd_index].
  destruct (cmd_error cmd); [|destruct (cmd_admin cmd)]; intros H; res_inv;
    [by eexists|by eexists|].
  destruct a as [changes ingest]. res_inv. rewrite (group_row_changes_filtered _ _ _ H0). cbn.
  apply encode_rows_strip in H1 as (rows' & -> & Hsame). cbn. eexists. split; [reflexivity|]. cbn.
  split; [done|]. case_match; [|done]. by rewrite !map_app, Hsame.
Qed.

(** C38. Filtering changes nothing for the resolver.  When the commands of a batch
    are encoded, the commands that [lock_only_filter] leaves of it are encoded as
    well, to the same logs with the same rows in the same order; a row can only
    differ in the value it carries, which the resolver does not read.  The filter
    and the encoder agree on what is related to locks. *)
Theorem lock_only_filter_transparent {Error E : Type} (cmds cmds' : list (Cmd Error)) logs :
  lock_only_filter ObLockRelated cmds = Some cmds' ->
  encode_change_log (E := E) cmds = Ok logs ->
  exists logs', encode_change_log (E := E) cmds' = Ok logs' /\ Forall2 same_locks logs logs'.
Proof.
  unfold lock_only_filter. case_decide; [done|]. intros [= <-]. clear. revert logs.
  induction cmds as [|cmd cmds IH]; intros logs H; cbn in H; res_inv; [by exists []|].
  destruct (IH _ H1) as (logs' & Hlogs & Hsame), (encode_cmd_filtered _ _ H0) as (log' & Hlog & Hsame').
  exists (log' :: logs'). split; [|by constructor]. cbn [map encode_change_log].
  rewrite Hlog. cbn. by rewrite Hlogs.
Qed.

(** A command that prewrites a long value and one that commits it. *)
Lemma lock_only_filter_transparent_witness :
  let key := Key_from_raw [107] in
  let lock := Lock_to_bytes (Lock_new LtPut [107] 3 3000 None 0 1 0 false) in
  let write := WriteRef_to_bytes (Write_new WtPut 3 None) in
  let cmd index reqs := {| cmd_index := index; cmd_error := @None unit; cmd_admin := None; cmd_flags := 0;
                           cmd_requests := reqs |} in
  let cmds :=
    [cmd 1 (map Request_from [MoPut CF_DEFAULT (Key_append_ts key 3) [1; 2; 3]; MoPut CF_LOCK key lock]);
     cmd 2 (map Request_from [MoPut CF_WRITE (Key_append_ts key 5) write; MoDelete CF_LOCK key])] in
  exists logs',
    encode_change_log (E := unit) (map retain_lock_related cmds) = Ok logs'
    /\ Forall2 same_locks
         [LogRows 1 [RowPrewrite key 3 LtPut (Some [1; 2; 3]) 0]; LogRows 2 [RowCommit key WtPut (Some 3) (Some 5)]] logs'.
Proof.
  intros key lock write cmd cmds.
  apply (lock_only_filter_transparent (E := unit) cmds (map retain_lock_related cmds)); vm_compute; reflexivity.
Defined.
