(* ===== verification/ResolvedTs.v ===== *)
(** * Resolved timestamps of a region

    [ObserveRegion] of [components/resolved_ts/src/endpoint.rs].  A region is first [Pending]: a scan reports the locks of a snapshot while the
    changes that arrive wait; when the scan ends, the waiting changes are replayed
    and the region is [Ready].  The regions of a store share a quota of memory.

    Theorems: whatever the snapshot and whatever the changes that were observed
    before and after it, a region becomes [Ready] with exactly the locks of its
    history ([initialization_exact]); a failed initialization does not give back
    the memory of the changes it did not replay ([failed_drain_leaks]). *)

From Stdlib Require Import ZArith Lia.
From stdpp Require Import base numbers list gmap relations sorting.
From S2P Require Import Prelude Types Write Lock ReadProgress Resolver ChangeLog.

Open Scope Z_scope.

(** [for x in l { f(x)?; }] *)
Fixpoint for_each {A S E} (f : A -> st_res S E unit) (l : list A) : st_res S E unit :=
  match l with
  | [] => mret tt
  | x :: l => _ ← f x; for_each f l
  end.

(** ** [ObserveRegion] *)

Inductive PendingLock : Type :=
| PlTrack (key : Key) (start_ts : TimeStamp) (generation : u64)
| PlUntrack (key : Key) (start_ts commit_ts : option TimeStamp).

(** A clone of a key has the capacity of its length. *)
Definition PendingLock_heap_size (l : PendingLock) : u64 :=
  match l with PlTrack key _ _ | PlUntrack key _ _ => zlen key end.

Inductive ResolverStatus : Type :=
| StPending (tracked_index : u64) (locks : list PendingLock)
| StReady.

Inductive rts_error : Type := RtsMemoryQuotaExceeded | RtsOther.

Record ObserveRegion : Type := {
  ob_meta : MetaRegion;
  ob_handle_id : u64;
  ob_resolver : Resolver;
  ob_status : ResolverStatus
}.

Definition ObserveRegion_new (meta : MetaRegion) (handle_id : u64) : ObserveRegion :=
  {| ob_meta := meta; ob_handle_id := handle_id; ob_resolver := with_read_progress (region_id meta) true;
     ob_status := StPending 0 [] |}.

(** An observed region and the quota of its store. *)
Definition obs_state : Type := (ObserveRegion * MemoryQuota)%type.

Definition set_resolver (o : ObserveRegion) (r : Resolver) : ObserveRegion :=
  {| ob_meta := ob_meta o; ob_handle_id := ob_handle_id o; ob_resolver := r; ob_status := ob_status o |}.
Definition set_status (o : ObserveRegion) (st : ResolverStatus) : ObserveRegion :=
  {| ob_meta := ob_meta o; ob_handle_id := ob_handle_id o; ob_resolver := ob_resolver o; ob_status := st |}.

(** A method of the resolver; its error is [Error::MemoryQuotaExceeded]. *)
Definition on_resolver (m : st_res rstate quota_error unit) : st_res obs_state rts_error unit :=
  fun '(o, q) =>
    let '(r, (rv, q)) := m (ob_resolver o, q) in
    (map_err (fun _ => RtsMemoryQuotaExceeded) r, (set_resolver o rv, q)).

Definition push_pending_lock (lock : PendingLock) : st_res obs_state rts_error unit :=
  fun '(o, q) =>
    match ob_status o with
    | StReady => (Panic, (o, q))
    | StPending tracked locks =>
        match alloc q (PendingLock_heap_size lock) with
        | None => (Err RtsMemoryQuotaExceeded, (o, q))
        | Some q => (Ok tt, (set_status o (StPending tracked (locks ++ [lock])), q))
        end
    end.

(** [ResolverStatus::update_tracked_index] *)
Definition update_pending_index (index : u64) : st_res obs_state rts_error unit :=
  fun '(o, q) =>
    match ob_status o with
    | StReady => (Panic, (o, q))
    | StPending tracked locks =>
        if tracked <? index then (Ok tt, (set_status o (StPending index locks), q)) else (Panic, (o, q))
    end.

(** The change that waits for the end of the scan; commands of one phase hold no
    lock. *)
Definition pending_of (row : ChangeRow) : option PendingLock :=
  match row with
  | RowPrewrite key start_ts _ _ generation => Some (PlTrack key start_ts generation)
  | RowCommit key _ start_ts commit_ts => Some (PlUntrack key start_ts commit_ts)
  | RowOnePc _ _ _ _ | RowIngestSst => None
  end.

Fixpoint push_rows (rows : list ChangeRow) : st_res obs_state rts_error unit :=
  match rows with
  | [] => mret tt
  | row :: rows =>
      _ ← match pending_of row with Some lock => push_pending_lock lock | None => mret tt end;
      push_rows rows
  end.

(** One row while the resolver is ready. *)
Definition track_row (index : u64) (row : ChangeRow) : st_res obs_state rts_error unit :=
  match row with
  | RowPrewrite key start_ts _ _ generation =>
      raw ← lift (unwrap_ok (Key_to_raw key));
      on_resolver (track_lock start_ts raw (Some index) generation)
  | RowCommit key _ _ _ =>
      raw ← lift (unwrap_ok (Key_to_raw key));
      on_resolver (untrack_lock raw (Some index))
  | RowOnePc _ _ _ _ | RowIngestSst => on_resolver (note_index (Some index))
  end.

Definition track_rows (index : u64) (rows : list ChangeRow) : st_res obs_state rts_error unit :=
  for_each (track_row index) rows.

(** One log while the scan goes on. *)
Definition track_pending_log {Error} (log : ChangeLog Error) : st_res obs_state rts_error unit :=
  match log with
  | LogError _ => mret tt
  | LogAdmin _ => throw RtsOther
  | LogRows index rows => _ ← push_rows rows; update_pending_index index
  end.

(** One log while the resolver is ready. *)
Definition track_ready_log {Error} (log : ChangeLog Error) : st_res obs_state rts_error unit :=
  match log with
  | LogError _ => mret tt
  | LogAdmin (AdSplit | AdBatchSplit | AdPrepareMerge | AdRollbackMerge | AdCommitMerge) =>
      modify (fun '(o, q) => (set_resolver o (stop_tracking (ob_resolver o)), q))
  | LogAdmin AdOther => mret tt
  | LogRows index rows => track_rows index rows
  end.

Definition track_change_log {Error} (logs : list (ChangeLog Error)) : st_res obs_state rts_error unit :=
  status ← gets (fun s => ob_status (fst s));
  match status with
  | StPending _ _ => for_each track_pending_log logs
  | StReady => for_each track_ready_log logs
  end.

Inductive ScanEntries : Type :=
| ScanLock (locks : list (Key * Lock))
| ScanNone.

Definition track_scanned (apply_index : u64) (e : Key * Lock) : st_res obs_state rts_error unit :=
  raw ← lift (unwrap_ok (Key_to_raw e.1));
  on_resolver (track_lock (l_ts e.2) raw (Some apply_index) (l_generation e.2)).

(** One turn of the replay: the iterator of [drain_pending_locks] gives the
    memory of a change back when it hands it out. *)
Definition replay (index : u64) (lock : PendingLock) : st_res obs_state rts_error unit :=
  _ ← modify (fun '(o, q) => (o, free q (PendingLock_heap_size lock)));
  match lock with
  | PlTrack key start_ts generation =>
      raw ← lift (unwrap_ok (Key_to_raw key));
      on_resolver (track_lock start_ts raw (Some index) generation)
  | PlUntrack key _ _ =>
      raw ← lift (unwrap_ok (Key_to_raw key));
      on_resolver (untrack_lock raw (Some index))
  end.

Definition track_scan_locks (entries : ScanEntries) (apply_index : u64) : st_res obs_state rts_error unit :=
  match entries with
  | ScanLock locks =>
      status ← gets (fun s => ob_status (fst s));
      match status with
      | StReady => lift Panic
      | StPending _ _ => for_each (track_scanned apply_index) locks
      end
  | ScanNone =>
      _ ← on_resolver (note_index (Some apply_index));
      status ← gets (fun s => ob_status (fst s));
      _ ← modify (fun '(o, q) => (set_status o StReady, q));
      match status with
      | StReady => lift Panic
      | StPending tracked_index locks => for_each (replay tracked_index) locks
      end
  end.

(** The drops of a resolver and of its status. *)
Definition ObserveRegion_drop (o : ObserveRegion) (q : MemoryQuota) : MemoryQuota :=
  let q := Resolver_drop (ob_resolver o) q in
  match ob_status o with
  | StPending _ ((_ :: _) as locks) => free q (foldr (fun l bytes => PendingLock_heap_size l + bytes) 0 locks)
  | _ => q
  end.

(** ** The locks that rows describe *)

Abbreviation lock_table := (gmap bytes TimeStamp).

(** What a row says of a key: locked at a timestamp, or unlocked. *)
Definition row_effect (row : ChangeRow) : option (Key * option TimeStamp) :=
  match row with
  | RowPrewrite key start_ts _ _ _ => Some (key, Some start_ts)
  | RowCommit key _ _ _ => Some (key, None)
  | RowOnePc _ _ _ _ | RowIngestSst => None
  end.

(** The key a row is about, and the transaction, when the row names it. *)
Definition row_owner (row : ChangeRow) : option (Key * option TimeStamp) :=
  match row with
  | RowPrewrite key start_ts _ _ _ => Some (key, Some start_ts)
  | RowCommit key _ start_ts _ => Some (key, start_ts)
  | RowOnePc _ _ _ _ | RowIngestSst => None
  end.

(** The locks of the store after a row, by the raw key: a record takes away the
    lock of its own transaction only, and a lock that is deleted without a record
    is gone. *)
Definition apply_row (t : lock_table) (row : ChangeRow) : lock_table :=
  match row with
  | RowPrewrite key start_ts _ _ _ =>
      match Key_to_raw key with Ok raw => <[raw := start_ts]> t | _ => t end
  | RowCommit key _ start_ts _ =>
      match Key_to_raw key with
      | Ok raw =>
          match t !! raw with
          | Some ts => if decide (start_ts = None \/ start_ts = Some ts) then delete raw t else t
          | None => t
          end
      | _ => t
      end
  | RowOnePc _ _ _ _ | RowIngestSst => t
  end.

(** The locks that a resolver tracks after a row: it keeps the lock that is there,
    and drops it whatever transaction the record is of. *)
Definition replay_row (t : lock_table) (row : ChangeRow) : lock_table :=
  match row_effect row with
  | Some (key, o) =>
      match Key_to_raw key with
      | Ok raw => match o with Some ts => track_map t raw ts | None => delete raw t end
      | _ => t
      end
  | None => t
  end.

(** While a key is locked, no other transaction locks it or leaves a record
    there. *)
Definition row_fits (t : lock_table) (row : ChangeRow) : Prop :=
  forall key start raw old, row_owner row = Some (key, start) -> Key_to_raw key = Ok raw ->
    t !! raw = Some old -> start = None \/ start = Some old.

Fixpoint rows_fit (t : lock_table) (rows : list ChangeRow) : Prop :=
  match rows with
  | [] => True
  | row :: rows => row_fits t row /\ rows_fit (apply_row t row) rows
  end.

Lemma rows_fit_app t rows rows' :
  rows_fit t (rows ++ rows') <-> rows_fit t rows /\ rows_fit (foldl apply_row t rows) rows'.
Proof.
  revert t. induction rows as [|row rows IH]; intros t; cbn; [tauto|]. rewrite IH. tauto.
Qed.

Lemma replay_row_fits t row : row_fits t row -> replay_row t row = apply_row t row.
Proof.
  intros Hf. unfold replay_row. destruct row as [key ts lt v g|key wt st ct|key wt ct v|]; cbn [row_effect apply_row]; try done.
  - destruct (Key_to_raw key) as [raw| |] eqn:Hk; try done. unfold track_map.
    destruct (t !! raw) as [old|] eqn:Hold; [|done]. destruct (Hf _ _ raw old eq_refl Hk Hold) as [?|[= ->]]; [done|].
    symmetry. by apply insert_id.
  - destruct (Key_to_raw key) as [raw| |] eqn:Hk; try done. destruct (t !! raw) as [old|] eqn:Hold; [|by apply delete_id].
    rewrite decide_True; [done|]. by apply (Hf _ _ raw old eq_refl Hk).
Qed.

Lemma replay_rows_fit rows : forall t, rows_fit t rows -> foldl replay_row t rows = foldl apply_row t rows.
Proof.
  induction rows as [|row rows IH]; intros t; cbn; [done|]. intros [Hf Hr]. rewrite replay_row_fits by done. by apply IH.
Qed.

(** A table that has the lock of the present or of the final table keeps it so. *)
Lemma replay_row_between (s t final : lock_table) row :
  row_fits t row -> (forall k, s !! k = t !! k \/ s !! k = final !! k) ->
  forall k, replay_row s row !! k = apply_row t row !! k \/ replay_row s row !! k = final !! k.
Proof.
  intros Hf Hs k. rewrite <-(replay_row_fits t row Hf). unfold replay_row.
  destruct (row_effect row) as [[key [ts|]]|] eqn:He; [| |apply Hs].
  - assert (row_owner row = Some (key, Some ts)) as Ho by (by destruct row; simplify_eq/=).
    destruct (Key_to_raw key) as [raw| |] eqn:Hk; [|apply Hs..].
    unfold track_map. destruct (decide (k = raw)) as [->|Hne].
    + specialize (Hs raw). destruct (t !! raw) as [old|] eqn:Hold.
      * destruct (Hf _ _ raw old Ho Hk Hold) as [?|[= ->]]; [done|].
        destruct (s !! raw) eqn:E; [rewrite E, Hold; by destruct Hs; [left|right]|rewrite lookup_insert_eq, Hold; by left].
      * destruct (s !! raw) eqn:E; [|rewrite !lookup_insert_eq; by left]. rewrite E. destruct Hs; [done|by right].
    + destruct (s !! raw), (t !! raw); rewrite ?lookup_insert_ne by done; apply Hs.
  - destruct (Key_to_raw key) as [raw| |] eqn:Hk; [|apply Hs..].
    destruct (decide (k = raw)) as [->|Hne]; [rewrite !lookup_delete_eq; by left|].
    rewrite !lookup_delete_ne by done. apply Hs.
Qed.

(** Replaying rows over the table they lead to leads to it again. *)
Lemma replay_again rows : forall t s final : lock_table,
  rows_fit t rows -> final = foldl apply_row t rows ->
  (forall k, s !! k = t !! k \/ s !! k = final !! k) ->
  foldl replay_row s rows = final.
Proof.
  induction rows as [|row rows IH]; intros t s final; cbn.
  { intros _ -> Hs. apply map_eq. intros k. by destruct (Hs k). }
  intros [Hf Hr] -> Hs. apply (IH (apply_row t row)); [done|done|]. by apply replay_row_between.
Qed.

(** A snapshot taken somewhere in a history: replaying the whole history over
    the snapshot's locks gives the locks at its end. *)
Lemma replay_over_snapshot t rows1 rows2 :
  rows_fit t (rows1 ++ rows2) ->
  foldl replay_row (foldl apply_row t rows1) (rows1 ++ rows2) = foldl apply_row t (rows1 ++ rows2).
Proof.
  rewrite rows_fit_app. intros [Hf1 Hf2]. rewrite !foldl_app.
  rewrite (replay_again rows1 t _ _ Hf1 eq_refl) by auto. by apply replay_rows_fit.
Qed.

(** ** Tracking rows *)

(** The resolver tracks the locks of a table, and of the memory in use [other]
    bytes are not for them. *)
Record tracks (other : Z) (t : lock_table) (r : Resolver) (q : MemoryQuota) : Prop := {
  tr_locks : locks_by_key r = t;
  tr_heap : heap_ok r;
  tr_quota : quota_holds other r q;
  tr_fits : forall raw ts, t !! raw = Some ts -> key_fits raw;
  tr_large : large_txns r = ∅;
  tr_rep : large_txn_key_representative r = ∅
}.

(** A step that ends with the resolver tracking [t]. *)
Definition leads_to (other : Z) (t : lock_table) (index : u64) (o : ObserveRegion) (q : MemoryQuota)
    (r : res rts_error unit * obs_state) : Prop :=
  exists r' q', r = (Ok tt, (set_resolver o r', q')) /\ tracks other t r' q' /\ mq_capacity q' = mq_capacity q
    /\ same_progress (ob_resolver o) r' /\ tracked_index r' = index.

Lemma track_map_fits (t : lock_table) raw ts raw' ts' :
  (forall raw ts, t !! raw = Some ts -> key_fits raw) -> key_fits raw ->
  track_map t raw ts !! raw' = Some ts' -> key_fits raw'.
Proof.
  intros Ht Hraw. unfold track_map. case_match; [apply Ht|].
  rewrite lookup_insert_Some. intros [[<- _]|[_ H']]; [done|by apply (Ht _ ts')].
Qed.

Lemma on_track other t o q raw ts index :
  tracks other t (ob_resolver o) q -> key_fits raw -> tracked_index (ob_resolver o) <= index ->
  if mq_in_use q + lock_heap_size raw <=? mq_capacity q then
    leads_to other (track_map t raw ts) index o q (on_resolver (track_lock ts raw (Some index) 0) (o, q))
  else exists s', on_resolver (track_lock ts raw (Some index) 0) (o, q) = (Err RtsMemoryQuotaExceeded, s').
Proof.
  intros [Hl Hh Hq Hf Hla Hre] Hfit Hidx. unfold on_resolver.
  pose proof (track_lock_spec other ts raw (Some index) (ob_resolver o) q Hh Hq Hfit Hidx) as Hspec.
  destruct (_ <=? _).
  - destruct Hspec as (r' & q' & -> & H1 & H2 & H3 & H4 & H5 & H6). exists r', q'. split_and!; try done.
    destruct H5 as (_ & H51 & H52 & _).
    split; [by rewrite H1, Hl|done|done| |by rewrite H51|by rewrite H52].
    intros raw' ts'. by apply track_map_fits.
  - destruct Hspec as [r' ->]. by eexists.
Qed.

Lemma on_untrack other t o q raw index :
  tracks other t (ob_resolver o) q -> tracked_index (ob_resolver o) <= index ->
  leads_to other (delete raw t) index o q (on_resolver (untrack_lock raw (Some index)) (o, q)).
Proof.
  intros [Hl Hh Hq Hf Hla Hre] Hidx. unfold on_resolver.
  destruct (untrack_lock_spec other raw (Some index) (ob_resolver o) q) as (r' & q' & -> & H1 & H2 & H3 & H4 & H5 & H6);
    [done|done|by rewrite Hl; apply Hf|done|].
  destruct H6 as [H6 H7]. specialize (H6 ltac:(by rewrite Hre)). exists r', q'. split_and!; try done.
  destruct H6 as (_ & H51 & H52 & _). split; [by rewrite H1, Hl|done|done| |by rewrite H51|by rewrite H52].
  intros raw' ts' [_ H']%lookup_delete_Some. by apply (Hf raw' ts').
Qed.

Lemma on_note other t o q index :
  tracks other t (ob_resolver o) q -> tracked_index (ob_resolver o) <= index ->
  leads_to other t index o q (on_resolver (note_index (Some index)) (o, q)).
Proof.
  intros [Hl Hh Hq Hf Hla Hre] Hidx. unfold on_resolver. rewrite note_index_spec, (proj2 (Z.leb_le _ _) Hidx).
  exists (set_tracked_index (ob_resolver o) index), q. by split_and!.
Qed.

(** An encoded key, of a size that the quota counts. *)
Definition row_key (key : Key) : Prop :=
  exists raw, key = Key_from_raw raw /\ key_fits raw /\ zlen key <= MAX_MEMORY_ALLOC_SIZE.

(** The rows of normal transactions. *)
Definition row_ok (row : ChangeRow) : Prop :=
  match row with
  | RowPrewrite key _ _ _ generation => row_key key /\ generation = 0
  | RowCommit key _ _ _ => row_key key
  | RowOnePc _ _ _ _ | RowIngestSst => True
  end.

(** The memory that tracking a row asks for. *)
Definition row_cost (row : ChangeRow) : Z :=
  match row with
  | RowPrewrite key _ _ _ _ => match Key_to_raw key with Ok raw => lock_heap_size raw | _ => 0 end
  | _ => 0
  end.

Lemma track_row_spec other t o q index row :
  tracks other t (ob_resolver o) q -> row_ok row -> tracked_index (ob_resolver o) <= index ->
  leads_to other (replay_row t row) index o q (track_row index row (o, q))
  \/ (mq_capacity q < mq_in_use q + row_cost row
      /\ exists s', track_row index row (o, q) = (Err RtsMemoryQuotaExceeded, s')).
Proof.
  intros Ht Hrow Hidx. destruct row as [key ts lt v gen|key wt st ct|key wt ct v|]; cbn [row_ok track_row row_cost] in *.
  - destruct Hrow as [(raw & -> & Hfit & _) ->]. unfold replay_row. cbn [row_effect]. rewrite Key_to_raw_from_raw.
    cbn. pose proof (on_track other t o q raw ts index Ht Hfit Hidx) as Hspec.
    destruct (Z.leb_spec (mq_in_use q + lock_heap_size raw) (mq_capacity q)); [by left|right]. split; [lia|done].
  - destruct Hrow as (raw & -> & Hfit & _). left. unfold replay_row. cbn [row_effect]. rewrite Key_to_raw_from_raw.
    cbn. by apply on_untrack.
  - left. by apply on_note.
  - left. by apply on_note.
Qed.

Lemma set_resolver_twice o r r' : set_resolver (set_resolver o r) r' = set_resolver o r'.
Proof. done. Qed.

Lemma same_progress_trans r1 r2 r3 : same_progress r1 r2 -> same_progress r2 r3 -> same_progress r1 r3.
Proof.
  intros (H1 & H2 & H3 & H4 & H5 & H6 & H7 & H8) (K1 & K2 & K3 & K4 & K5 & K6 & K7 & K8). split_and!; congruence.
Qed.

(** A step after a step. *)
Lemma leads_to_step other t other' t' index index' o q (r : res rts_error unit * obs_state) f :
  leads_to other t index o q r ->
  (forall r1 q1, tracks other t r1 q1 -> mq_capacity q1 = mq_capacity q -> tracked_index r1 = index ->
     leads_to other' t' index' (set_resolver o r1) q1 (f tt (set_resolver o r1, q1))) ->
  leads_to other' t' index' o q (match r with (Ok a, s) => f a s | (Err e, s) => (Err e, s) | (Panic, s) => (Panic, s) end).
Proof.
  intros (r1 & q1 & -> & Ht & Hc & Hs & Hi) Hf. destruct (Hf r1 q1 Ht Hc Hi) as (r2 & q2 & -> & Ht2 & Hc2 & Hs2 & Hi2).
  exists r2, q2. rewrite set_resolver_twice. split_and!; try done; [by rewrite Hc2|].
  by apply (same_progress_trans _ r1).
Qed.

(** ** Initialization *)

(** The memory that a change takes while it waits. *)
Definition pending_cost (row : ChangeRow) : Z :=
  match pending_of row with Some lock => PendingLock_heap_size lock | None => 0 end.

Definition sum_of {A} (cost : A -> Z) (l : list A) : Z := foldr (fun x n => cost x + n) 0 l.

Lemma sum_of_app {A} (cost : A -> Z) l k : sum_of cost (l ++ k) = sum_of cost l + sum_of cost k.
Proof. induction l as [|x l IH]; cbn; [done|]. unfold sum_of in *. cbn. lia. Qed.

Lemma sum_of_nonneg {A} (cost : A -> Z) l : (forall x, 0 <= cost x) -> 0 <= sum_of cost l.
Proof. intros Hc. induction l as [|x l IH]; [done|]. cbn. specialize (Hc x). unfold sum_of in *. lia. Qed.

Lemma pending_cost_nonneg row : 0 <= pending_cost row.
Proof. unfold pending_cost. destruct row; cbn; unfold zlen; lia. Qed.

Lemma row_cost_nonneg row : 0 <= row_cost row.
Proof.
  destruct row as [key| | |]; try done. unfold row_cost. destruct (Key_to_raw key) as [raw| |]; try done.
  pose proof (lock_heap_size_pos raw). lia.
Qed.

Lemma row_ok_pending row : row_ok row -> pending_cost row <= MAX_MEMORY_ALLOC_SIZE.
Proof.
  destruct row; cbn; unfold pending_cost; cbn; [intros [(? & _ & _ & H) _]; done|intros (? & _ & _ & H); done|done|done].
Qed.

Lemma tracks_alloc other t r q bytes :
  tracks other t r q -> 0 <= bytes <= MAX_MEMORY_ALLOC_SIZE -> mq_in_use q + bytes <= mq_capacity q ->
  exists q', alloc q bytes = Some q' /\ tracks (other + bytes) t r q' /\ mq_capacity q' = mq_capacity q
    /\ mq_in_use q' = mq_in_use q + bytes.
Proof.
  intros [Hl Hh ([Hu Hc] & Ho & Hi) Hf Hla Hre] Hb Hroom. eexists. split_and!.
  - rewrite alloc_spec by (by split; [|lia]) || (split; lia) || lia.
    rewrite (proj2 (Z.leb_le _ _)), (proj2 (Z.leb_le _ _)) by lia. reflexivity.
  - split; try done. split_and!; cbn; [|lia|lia]. unfold quota_ok. cbn. lia.
  - done.
  - done.
Qed.

Lemma push_rows_spec rows : forall other t o q tracked locks,
  ob_status o = StPending tracked locks -> tracks other t (ob_resolver o) q -> Forall row_ok rows ->
  mq_in_use q + sum_of pending_cost rows <= mq_capacity q ->
  exists q', push_rows rows (o, q) = (Ok tt, (set_status o (StPending tracked (locks ++ omap pending_of rows)), q'))
    /\ tracks (other + sum_of pending_cost rows) t (ob_resolver o) q' /\ mq_capacity q' = mq_capacity q
    /\ mq_in_use q' = mq_in_use q + sum_of pending_cost rows.
Proof.
  induction rows as [|row rows IH]; intros other t o q tracked locks Hst Ht Hok Hroom.
  { exists q. cbn. rewrite app_nil_r, !Z.add_0_r. destruct o; cbn in *. by subst. }
  inversion_clear Hok as [|?? Hrow Hrows]. cbn [sum_of foldr] in Hroom. fold (sum_of pending_cost rows) in Hroom.
  pose proof (pending_cost_nonneg row). pose proof (sum_of_nonneg pending_cost rows pending_cost_nonneg).
  cbn [push_rows]. destruct (pending_of row) as [lock|] eqn:Hp.
  - assert (PendingLock_heap_size lock = pending_cost row) as Hsz by (unfold pending_cost; by rewrite Hp).
    destruct (tracks_alloc other t (ob_resolver o) q (PendingLock_heap_size lock)) as (q1 & Ha & Ht1 & Hc1 & Hu1);
      [done|rewrite Hsz; split; [done|by apply row_ok_pending]|lia|].
    erewrite st_bind_ok; [|unfold push_pending_lock; rewrite Hst, Ha; reflexivity].
    destruct (IH (other + pending_cost row) t (set_status o (StPending tracked (locks ++ [lock]))) q1 tracked (locks ++ [lock]))
      as (q' & -> & Ht' & Hc' & Hu'); [done|by rewrite <-Hsz|done|lia|].
    exists q'. cbn [omap list_omap sum_of foldr]. rewrite Hp. split_and!; [|by rewrite Z.add_assoc|congruence|unfold sum_of in *; lia].
    by rewrite <-app_assoc.
  - assert (pending_cost row = 0) as Hz by (unfold pending_cost; by rewrite Hp).
    destruct (IH other t o q tracked locks) as (q' & Hpush & Ht' & Hc' & Hu'); [done|done|done|lia|].
    exists q'. cbn [omap list_omap sum_of foldr]. rewrite Hp, Hz. cbn. by split_and!.
Qed.

(** The table that a scan reports. *)
Definition scan_row (e : Key * Lock) : ChangeRow := RowPrewrite e.1 (l_ts e.2) (l_lock_type e.2) None (l_generation e.2).

Lemma track_scanned_row apply_index e s : track_scanned apply_index e s = track_row apply_index (scan_row e) s.
Proof. done. Qed.

Lemma used_track_map (t : lock_table) raw ts : used (track_map t raw ts) <= used t + lock_heap_size raw.
Proof.
  unfold track_map. pose proof (lock_heap_size_pos raw). case_match eqn:E; [lia|]. rewrite used_insert by done. lia.
Qed.

Lemma used_replay_row t row : used (replay_row t row) <= used t + row_cost row.
Proof.
  unfold replay_row, row_cost. destruct row as [key ts lt v g|key wt s c| |]; cbn [row_effect]; try lia.
  - destruct (Key_to_raw key); [apply used_track_map|lia..].
  - destruct (Key_to_raw key) as [raw| |]; try lia. destruct (t !! raw) as [ts|] eqn:E.
    + rewrite (used_delete _ _ _ E). pose proof (lock_heap_size_pos raw). lia.
    + rewrite delete_id by done. lia.
Qed.

Lemma track_rows_spec rows : forall other t o q index,
  tracks other t (ob_resolver o) q -> Forall row_ok rows -> tracked_index (ob_resolver o) <= index ->
  mq_in_use q + sum_of row_cost rows <= mq_capacity q ->
  leads_to other (foldl replay_row t rows) (if decide (rows = []) then tracked_index (ob_resolver o) else index)
    o q (for_each (track_row index) rows (o, q)).
Proof.
  induction rows as [|row rows IH]; intros other t o q index Ht Hok Hidx Hroom.
  { exists (ob_resolver o), q. by destruct o. }
  inversion_clear Hok as [|?? Hrow Hrows]. cbn [sum_of foldr] in Hroom. fold (sum_of row_cost rows) in Hroom.
  pose proof (sum_of_nonneg row_cost rows row_cost_nonneg).
  destruct (track_row_spec other t o q index row Ht Hrow Hidx) as [Hl|[Hno _]]; [|lia].
  cbn [for_each foldl]. rewrite decide_False by done. apply (leads_to_step _ _ _ _ _ _ _ _ _ _ Hl).
  intros r1 q1 Ht1 Hc1 Hi1.
  pose proof (IH other (replay_row t row) (set_resolver o r1) q1 index) as IH'.
  replace (if decide (rows = []) then _ else _) with index in IH' by (case_decide; done).
  apply IH'; [done|done|cbn; lia|].
  destruct Ht as [Hl0 _ (_ & _ & Hu0) _ _ _], Ht1 as [Hl1 _ (_ & _ & Hu1) _ _ _].
  rewrite Hl0 in Hu0. rewrite Hl1 in Hu1. pose proof (used_replay_row t row). lia.
Qed.

Lemma tracks_free other t r q bytes :
  tracks (other + bytes) t r q -> 0 <= other -> 0 <= bytes <= MAX_MEMORY_ALLOC_SIZE ->
  tracks other t r (free q bytes) /\ mq_capacity (free q bytes) = mq_capacity q
  /\ mq_in_use (free q bytes) = mq_in_use q - bytes.
Proof.
  intros [Hl Hh ([Hu Hc] & Ho & Hi) Hf Hla Hre] Ho' Hb. pose proof (used_nonneg (locks_by_key r)).
  rewrite free_spec by (unfold quota_ok; lia). split_and!; try done. split; try done.
  split_and!; cbn; [|done|lia]. unfold quota_ok. cbn. lia.
Qed.

(** A waiting change is replayed as its row would be tracked. *)
Lemma replay_spec row lock other t o q index :
  pending_of row = Some lock -> row_ok row -> 0 <= other ->
  tracks (other + pending_cost row) t (ob_resolver o) q -> tracked_index (ob_resolver o) <= index ->
  mq_in_use q + row_cost row <= mq_capacity q ->
  leads_to other (replay_row t row) index o q (replay index lock (o, q)).
Proof.
  intros Hp Hok Ho Ht Hidx Hroom. assert (PendingLock_heap_size lock = pending_cost row) as Hsz by (unfold pending_cost; by rewrite Hp).
  pose proof (pending_cost_nonneg row). pose proof (row_ok_pending row Hok).
  destruct (tracks_free other t (ob_resolver o) q (pending_cost row) Ht Ho ltac:(lia)) as (Ht1 & Hc1 & Hu1).
  rewrite <-Hsz in Ht1, Hc1, Hu1.
  assert (replay index lock (o, q) = track_row index row (o, free q (PendingLock_heap_size lock))) as ->.
  { by destruct row; cbn in Hp; simplify_eq. }
  destruct (track_row_spec other t o (free q (PendingLock_heap_size lock)) index row Ht1 Hok Hidx)
    as [(r' & q' & -> & H1 & H2 & H3 & H4)|[Hno _]]; [|lia].
  exists r', q'. split_and!; try done. by rewrite H2.
Qed.

Lemma replay_rows_spec rows : forall other t o q index,
  tracks (other + sum_of pending_cost rows) t (ob_resolver o) q -> 0 <= other -> Forall row_ok rows ->
  (omap pending_of rows <> [] -> tracked_index (ob_resolver o) <= index) ->
  mq_in_use q + sum_of row_cost rows <= mq_capacity q ->
  leads_to other (foldl replay_row t rows)
    (if decide (omap pending_of rows = []) then tracked_index (ob_resolver o) else index)
    o q (for_each (replay index) (omap pending_of rows) (o, q)).
Proof.
  induction rows as [|row rows IH]; intros other t o q index Ht Ho Hok Hidx Hroom.
  { cbn in *. rewrite Z.add_0_r in Ht. exists (ob_resolver o), q. by destruct o. }
  inversion_clear Hok as [|?? Hrow Hrows]. cbn [sum_of foldr] in Hroom, Ht.
  fold (sum_of row_cost rows) in Hroom. fold (sum_of pending_cost rows) in Ht.
  pose proof (sum_of_nonneg row_cost rows row_cost_nonneg). pose proof (sum_of_nonneg pending_cost rows pending_cost_nonneg).
  pose proof (row_cost_nonneg row).
  cbn [omap list_omap foldl] in *. destruct (pending_of row) as [lock|] eqn:Hp.
  - cbn [for_each]. rewrite decide_False by done.
    apply (leads_to_step (other + sum_of pending_cost rows) (replay_row t row) _ _ index).
    { apply replay_spec; [done|done|lia| |by apply Hidx|lia].
      by replace (other + sum_of pending_cost rows + pending_cost row)
        with (other + (pending_cost row + sum_of pending_cost rows)) by lia. }
    intros r1 q1 Ht1 Hc1 Hi1.
    pose proof (IH other (replay_row t row) (set_resolver o r1) q1 index) as IH'.
    replace (if decide (_ = []) then _ else _) with index in IH' by (case_decide; done).
    apply IH'; [done|done|done|cbn; lia|].
    destruct Ht as [Hl0 _ (_ & _ & Hu0) _ _ _], Ht1 as [Hl1 _ (_ & _ & Hu1) _ _ _].
    rewrite Hl0 in Hu0. rewrite Hl1 in Hu1. pose proof (used_replay_row t row). pose proof (pending_cost_nonneg row). lia.
  - assert (pending_cost row = 0) as Hz by (unfold pending_cost; by rewrite Hp).
    assert (replay_row t row = t) as -> by (by destruct row).
    apply IH; [by rewrite Hz in Ht|done|done|done|lia].
Qed.

(** What happens to a region until its scan ends: logs are observed, and batches
    of the snapshot's locks arrive. *)
Inductive init_event : Type :=
| InitLog (index : u64) (rows : list ChangeRow)
| InitScan (locks : list (Key * Lock)).

Definition init_step (apply_index : u64) (ev : init_event) : st_res obs_state rts_error unit :=
  match ev with
  | InitLog index rows => track_change_log (Error := unit) [LogRows index rows]
  | InitScan locks => track_scan_locks (ScanLock locks) apply_index
  end.

Definition initialize (apply_index : u64) (events : list init_event) : st_res obs_state rts_error unit :=
  _ ← for_each (init_step apply_index) events; track_scan_locks ScanNone apply_index.

Definition event_rows (ev : init_event) : list ChangeRow := match ev with InitLog _ rows => rows | InitScan _ => [] end.
Definition event_locks (ev : init_event) : list (Key * Lock) := match ev with InitLog _ _ => [] | InitScan l => l end.
Definition event_index (ev : init_event) : option u64 := match ev with InitLog i _ => Some i | InitScan _ => None end.

Definition observed (events : list init_event) : list ChangeRow := events ≫= event_rows.
Definition scanned (events : list init_event) : list (Key * Lock) := events ≫= event_locks.

(** The memory that is asked for altogether. *)
Definition event_cost (ev : init_event) : Z :=
  sum_of pending_cost (event_rows ev) + sum_of row_cost (event_rows ev)
  + sum_of row_cost (map scan_row (event_locks ev)).

(** A scan of a table: its locks, in any order and any number of times. *)
Definition scan_of (t : lock_table) (l : list (Key * Lock)) : Prop :=
  (forall e, e ∈ l -> l_generation e.2 = 0 /\ row_key e.1
     /\ exists raw, e.1 = Key_from_raw raw /\ t !! raw = Some (l_ts e.2))
  /\ (forall raw ts, t !! raw = Some ts -> exists e, e ∈ l /\ e.1 = Key_from_raw raw).

Lemma Key_from_raw_injective raw raw' : Key_from_raw raw = Key_from_raw raw' -> raw = raw'.
Proof. intros E. pose proof (Key_to_raw_from_raw raw) as H1. rewrite E, Key_to_raw_from_raw in H1. congruence. Qed.

Lemma track_map_in (t : lock_table) raw ts : is_Some (track_map t raw ts !! raw).
Proof. unfold track_map. case_match eqn:E; [by rewrite E|by rewrite lookup_insert_eq]. Qed.

Lemma track_map_mono (t : lock_table) raw ts k : is_Some (t !! k) -> is_Some (track_map t raw ts !! k).
Proof. unfold track_map. case_match; [done|]. rewrite lookup_insert. by case_decide. Qed.

Lemma scan_row_replay (s : lock_table) e raw :
  e.1 = Key_from_raw raw -> replay_row s (scan_row e) = track_map s raw (l_ts e.2).
Proof. intros Ee. unfold replay_row, scan_row. cbn [row_effect]. by rewrite Ee, Key_to_raw_from_raw. Qed.

(** Scanned locks of a table are the table's, and none is missed. *)
Lemma scan_fold (t : lock_table) l : forall s : lock_table,
  (forall e, e ∈ l -> exists raw, e.1 = Key_from_raw raw /\ t !! raw = Some (l_ts e.2)) ->
  (forall raw ts, s !! raw = Some ts -> t !! raw = Some ts) ->
  (forall raw ts, foldl replay_row s (map scan_row l) !! raw = Some ts -> t !! raw = Some ts)
  /\ (forall raw, is_Some (s !! raw) \/ (exists e, e ∈ l /\ e.1 = Key_from_raw raw) ->
        is_Some (foldl replay_row s (map scan_row l) !! raw)).
Proof.
  induction l as [|e l IH]; intros s Hl Hs; cbn [map foldl].
  { split; [done|]. intros raw [?|(e & He & _)]; [done|]. by apply not_elem_of_nil in He. }
  destruct (Hl e ltac:(set_solver)) as (raw & Ee & Hraw). rewrite (scan_row_replay s e raw Ee).
  destruct (IH (track_map s raw (l_ts e.2))) as [IH1 IH2].
  { set_solver. }
  { intros k ts. unfold track_map. case_match; [apply Hs|]. rewrite lookup_insert_Some.
    intros [[<- <-]|[_ Hk]]; [done|by apply Hs]. }
  split; [done|]. intros k [Hk|(e' & [-> | He']%elem_of_cons & Ek)]; apply IH2.
  - left. by apply track_map_mono.
  - left. rewrite Ee in Ek. apply Key_from_raw_injective in Ek as <-. apply track_map_in.
  - right. by exists e'.
Qed.

(** The resolver, empty at first, comes to track the scanned table. *)
Lemma scan_table (t : lock_table) l : scan_of t l -> foldl replay_row ∅ (map scan_row l) = t.
Proof.
  intros [H1 H2].
  destruct (scan_fold t l ∅) as [G1 G2]; [intros e He; by apply H1|intros raw ts H; by rewrite lookup_empty in H|].
  apply map_eq. intros raw. destruct (t !! raw) as [ts|] eqn:Et.
  - destruct (G2 raw) as [ts' Hts']; [right; by apply (H2 raw ts)|]. rewrite Hts'. apply G1 in Hts'. congruence.
  - destruct (foldl _ _ _ !! raw) as [ts|] eqn:E; [|done]. apply G1 in E. congruence.
Qed.

(** A region that waits for its scan: the rows observed so far, and the table
    scanned so far. *)
Record waiting (base : Z) (t : lock_table) (tracked : u64) (rows : list ChangeRow) (apply_index : u64)
    (o : ObserveRegion) (q : MemoryQuota) : Prop := {
  wt_status : ob_status o = StPending tracked (omap pending_of rows);
  wt_tracks : tracks (base + sum_of pending_cost rows) t (ob_resolver o) q;
  wt_index : tracked_index (ob_resolver o) <= apply_index;
  wt_rows : Forall row_ok rows
}.

(** What a step leaves alone, and how much memory it takes. *)
Definition step_within (o : ObserveRegion) (q : MemoryQuota) (cost : Z) (o' : ObserveRegion) (q' : MemoryQuota) : Prop :=
  ob_meta o' = ob_meta o /\ ob_handle_id o' = ob_handle_id o /\ same_progress (ob_resolver o) (ob_resolver o')
  /\ mq_capacity q' = mq_capacity q /\ mq_in_use q' <= mq_in_use q + cost.

Lemma init_log_spec base t tracked rows apply_index o q index new :
  waiting base t tracked rows apply_index o q -> Forall row_ok new -> tracked < index ->
  mq_in_use q + sum_of pending_cost new <= mq_capacity q ->
  exists o' q', init_step apply_index (InitLog index new) (o, q) = (Ok tt, (o', q'))
    /\ waiting base t index (rows ++ new) apply_index o' q' /\ step_within o q (sum_of pending_cost new) o' q'.
Proof.
  intros [Hst Ht Hi Hr] Hnew Hlt Hroom.
  destruct (push_rows_spec new _ t o q tracked _ Hst Ht Hnew Hroom) as (q' & Hpush & Ht' & Hc' & Hu').
  eexists _, q'. split_and!.
  - cbn [init_step]. unfold track_change_log. erewrite st_bind_ok by reflexivity. cbn [fst]. rewrite Hst.
    cbn [for_each track_pending_log]. erewrite st_bind_ok; [reflexivity|].
    rewrite (st_bind_ok _ _ _ _ _ Hpush). cbn. rewrite (proj2 (Z.ltb_lt _ _) Hlt). reflexivity.
  - split; cbn; [by rewrite omap_app|by rewrite sum_of_app, Z.add_assoc|done|by apply Forall_app_2].
  - by split_and!; try done; lia.
Qed.

Lemma init_scan_spec base t tracked rows apply_index o q locks :
  waiting base t tracked rows apply_index o q -> Forall row_ok (map scan_row locks) ->
  mq_in_use q + sum_of row_cost (map scan_row locks) <= mq_capacity q ->
  exists o' q', init_step apply_index (InitScan locks) (o, q) = (Ok tt, (o', q'))
    /\ waiting base (foldl replay_row t (map scan_row locks)) tracked rows apply_index o' q'
    /\ step_within o q (sum_of row_cost (map scan_row locks)) o' q'.
Proof.
  intros [Hst Ht Hi Hr] Hl Hroom.
  destruct (track_rows_spec (map scan_row locks) _ t o q apply_index Ht Hl Hi Hroom)
    as (r' & q' & Hrun & Ht' & Hc' & Hs' & Hi').
  exists (set_resolver o r'), q'. split_and!.
  - cbn [init_step track_scan_locks]. erewrite st_bind_ok by reflexivity. cbn [fst]. rewrite Hst, <-Hrun.
    clear. generalize (o, q). induction locks as [|e locks IH]; intros s; [done|]. cbn [map for_each].
    unfold mbind, st_bind. rewrite track_scanned_row. by destruct (track_row _ _ s) as [[[]| |] s'].
  - split; cbn; try done. rewrite Hi'. case_decide; lia.
  - split_and!; try done. destruct Ht as [Hl0 _ (_ & _ & Hu0) _ _ _], Ht' as [Hl1 _ (_ & _ & Hu1) _ _ _].
    rewrite Hl0 in Hu0. rewrite Hl1 in Hu1. clear -Hu0 Hu1.
    assert (used (foldl replay_row t (map scan_row locks)) <= used t + sum_of row_cost (map scan_row locks)); [|lia].
    clear. revert t. induction (map scan_row locks) as [|row l IH]; intros t; [cbn; lia|]. cbn [foldl sum_of foldr].
    specialize (IH (replay_row t row)). pose proof (used_replay_row t row). unfold sum_of in IH. lia.
Qed.

Definition event_ok (ev : init_event) : Prop :=
  Forall row_ok (event_rows ev) /\ Forall row_ok (map scan_row (event_locks ev)).

Lemma event_cost_parts ev :
  0 <= sum_of pending_cost (event_rows ev) /\ 0 <= sum_of row_cost (event_rows ev)
  /\ 0 <= sum_of row_cost (map scan_row (event_locks ev)).
Proof. split_and!; apply sum_of_nonneg; first [apply pending_cost_nonneg|apply row_cost_nonneg]. Qed.

Lemma init_step_spec base t tracked rows apply_index o q ev :
  waiting base t tracked rows apply_index o q -> event_ok ev -> (forall i, event_index ev = Some i -> tracked < i) ->
  mq_in_use q + event_cost ev <= mq_capacity q ->
  exists o' q', init_step apply_index ev (o, q) = (Ok tt, (o', q'))
    /\ waiting base (foldl replay_row t (map scan_row (event_locks ev))) (default tracked (event_index ev))
         (rows ++ event_rows ev) apply_index o' q'
    /\ step_within o q (event_cost ev - sum_of row_cost (event_rows ev)) o' q'.
Proof.
  intros Hw [Hok1 Hok2] Hidx Hroom. pose proof (event_cost_parts ev) as (H1 & H2 & H3). unfold event_cost in *.
  destruct ev as [index new|locks]; cbn [event_rows event_locks event_index] in *.
  - destruct (init_log_spec base t tracked rows apply_index o q index new) as (o' & q' & Hs & Hw' & Hin);
      [done|done|by apply Hidx|lia|]. exists o', q'. split_and!; [done|done|].
    destruct Hin as (? & ? & ? & ? & ?). split_and!; try done. lia.
  - destruct (init_scan_spec base t tracked rows apply_index o q locks) as (o' & q' & Hs & Hw' & Hin); [done|done|lia|].
    exists o', q'. rewrite app_nil_r. split_and!; [done|done|].
    destruct Hin as (? & ? & ? & ? & ?). split_and!; try done. cbn in *. lia.
Qed.

Lemma init_steps_spec events : forall base t tracked rows apply_index o q,
  waiting base t tracked rows apply_index o q -> Forall event_ok events ->
  StronglySorted Z.lt (tracked :: omap event_index events) ->
  mq_in_use q + sum_of event_cost events <= mq_capacity q ->
  exists o' q', for_each (init_step apply_index) events (o, q) = (Ok tt, (o', q'))
    /\ waiting base (foldl replay_row t (map scan_row (scanned events)))
         (default tracked (last (omap event_index events))) (rows ++ observed events) apply_index o' q'
    /\ step_within o q (sum_of event_cost events - sum_of row_cost (observed events)) o' q'.
Proof.
  induction events as [|ev events IH]; intros base t tracked rows apply_index o q Hw Hok Hs Hroom.
  { exists o, q. cbn. rewrite app_nil_r. split_and!; try done. split_and!; try done; lia. }
  apply Forall_cons in Hok as [Hev Hok]. cbn [sum_of foldr] in Hroom. fold (sum_of event_cost events) in Hroom.
  pose proof (event_cost_parts ev) as (C1 & C2 & C3).
  assert (0 <= sum_of event_cost events) as C4.
  { apply sum_of_nonneg. intros x. pose proof (event_cost_parts x). unfold event_cost. lia. }
  apply StronglySorted_cons in Hs as [Hlt Hs]. cbn [omap list_omap] in Hlt, Hs |- *.
  destruct (init_step_spec base t tracked rows apply_index o q ev) as (o1 & q1 & H1 & Hw1 & Hin1); [done|done| |lia|].
  { intros i Hi. rewrite Hi in Hlt. by apply Forall_cons in Hlt as [? _]. }
  destruct Hin1 as (M1 & M2 & M3 & M4 & M5).
  destruct (IH _ _ _ _ _ _ _ Hw1 Hok) as (o' & q' & H2 & Hw2 & N1 & N2 & N3 & N4 & N5).
  { destruct (event_index ev) as [i|]; cbn; [done|]. by apply StronglySorted_cons. }
  { lia. }
  exists o', q'. cbn [for_each]. rewrite (st_bind_ok _ _ _ _ _ H1). split_and!; [done| |].
  - unfold scanned, observed in *. cbn [mbind list_bind]. rewrite map_app, foldl_app, app_assoc.
    replace (default tracked _) with (default (default tracked (event_index ev)) (last (omap event_index events))); [done|].
    destruct (event_index ev) as [i|]; [|done]. cbn. rewrite last_cons. by destruct (last _).
  - split_and!; try congruence; [by eapply same_progress_trans|].
    cbn [sum_of foldr]. fold (sum_of event_cost events).
    unfold observed in *. cbn [mbind list_bind]. rewrite sum_of_app. lia.
Qed.

Lemma scan_end_spec base t tracked rows apply_index o q :
  waiting base t tracked rows apply_index o q -> 0 <= base ->
  (omap pending_of rows <> [] -> apply_index <= tracked) ->
  mq_in_use q + sum_of row_cost rows <= mq_capacity q ->
  exists r' q', track_scan_locks ScanNone apply_index (o, q) = (Ok tt, (set_resolver (set_status o StReady) r', q'))
    /\ tracks base (foldl replay_row t rows) r' q' /\ mq_capacity q' = mq_capacity q
    /\ same_progress (ob_resolver o) r' /\ apply_index <= tracked_index r'.
Proof.
  intros [Hst Ht Hi Hr] Hb Hidx Hroom. cbn [track_scan_locks].
  destruct (on_note _ t o q apply_index Ht Hi) as (r1 & q1 & Hn & Ht1 & Hc1 & Hs1 & Hi1).
  rewrite (st_bind_ok _ _ _ _ _ Hn). erewrite st_bind_ok by reflexivity. erewrite st_bind_ok by reflexivity.
  cbn [fst]. change (ob_status (set_resolver o r1)) with (ob_status o). rewrite Hst.
  assert (mq_in_use q1 = mq_in_use q) as Hu1.
  { destruct Ht as [Hl0 _ (_ & _ & Hu0) _ _ _], Ht1 as [Hl1 _ (_ & _ & Hu1) _ _ _].
    rewrite Hl0 in Hu0. rewrite Hl1 in Hu1. lia. }
  destruct (replay_rows_spec rows base t (set_status (set_resolver o r1) StReady) q1 tracked)
    as (r' & q' & Hrun & Ht' & Hc' & Hs' & Hi'); [done|done|done| |by rewrite Hu1, Hc1|].
  { cbn. rewrite Hi1. done. }
  exists r', q'. split_and!; [exact Hrun|done|congruence|by eapply same_progress_trans|].
  rewrite Hi'. cbn. rewrite Hi1. case_decide as Hd; [done|by apply Hidx].
Qed.

(** C19. A region becomes ready with the locks of its history.  The rows that a
    region observes split, at the snapshot, into those the snapshot has seen and
    later ones; the snapshot's locks arrive in batches, in any order and with
    repetitions, between the logs.  The locks are of generation 0, and while a key
    is locked no other transaction locks it or leaves a record there.  If the quota
    has room for all that is asked of it, no step fails or panics, the region is
    ready, it tracks exactly the locks that the whole history leaves in the store,
    the heap counts them, and the memory in use has grown by these locks alone:
    replaying what the snapshot had seen does no harm. *)
Theorem initialization_exact meta id q apply_index events start rows1 rows2 :
  quota_ok q -> 0 <= apply_index ->
  observed events = rows1 ++ rows2 -> rows_fit start (rows1 ++ rows2) ->
  scan_of (foldl apply_row start rows1) (scanned events) -> Forall event_ok events ->
  StronglySorted Z.lt (0 :: omap event_index events) ->
  (omap pending_of (rows1 ++ rows2) <> [] -> apply_index <= default 0 (last (omap event_index events))) ->
  mq_in_use q + sum_of event_cost events <= mq_capacity q ->
  exists o' q', initialize apply_index events (ObserveRegion_new meta id, q) = (Ok tt, (o', q'))
    /\ ob_status o' = StReady
    /\ tracks (mq_in_use q) (foldl apply_row start (rows1 ++ rows2)) (ob_resolver o') q'
    /\ resolved_ts (ob_resolver o') = 0 /\ apply_index <= tracked_index (ob_resolver o').
Proof.
  intros Hq Ha Hobs Hfit Hscan Hok Hs Hidx Hroom.
  assert (waiting (mq_in_use q) ∅ 0 [] apply_index (ObserveRegion_new meta id) q) as Hw.
  { split; cbn; try done. rewrite Z.add_0_r. split; cbn; try done.
    split_and!; cbn; [done|apply Hq|]. unfold used. rewrite map_fold_empty. lia. }
  destruct (init_steps_spec events _ _ _ _ _ _ _ Hw Hok Hs Hroom) as (o1 & q1 & H1 & Hw1 & M1 & M2 & M3 & M4 & M5).
  cbn [app] in Hw1. rewrite Hobs, (scan_table _ _ Hscan) in Hw1. rewrite Hobs in M5.
  destruct (scan_end_spec _ _ _ _ _ _ _ Hw1 ltac:(apply Hq) Hidx) as (r' & q' & H2 & Ht & Hc & Hp & Hi); [lia|].
  unfold initialize. rewrite (st_bind_ok _ _ _ _ _ H1), H2. eexists _, q'. split_and!; try done; cbn.
  - by rewrite replay_over_snapshot in Ht.
  - destruct Hp as (_ & _ & _ & -> & _), M3 as (_ & _ & _ & -> & _). done.
Qed.

Definition ex_lock (key : bytes) (ts : TimeStamp) : Lock :=
  Lock_new LtPut key ts 3000 None 0 1 0 false.
Definition ex_prewrite (key : bytes) (ts : TimeStamp) : ChangeRow :=
  RowPrewrite (Key_from_raw key) ts LtPut None 0.
Definition ex_commit (key : bytes) (start_ts commit_ts : TimeStamp) : ChangeRow :=
  RowCommit (Key_from_raw key) WtPut (Some start_ts) (Some commit_ts).

Lemma run_row_key k : row_key (Key_from_raw [k]).
Proof. exists [k]. split_and!; [done|unfold key_fits; vm_compute; congruence|vm_compute; congruence]. Qed.

Lemma initialization_exact_witness :
  exists o' q', initialize 5
      [InitLog 5 [ex_prewrite [1] 3]; InitScan [(Key_from_raw [1], ex_lock [1] 3)];
       InitLog 6 [ex_prewrite [2] 7; ex_commit [1] 3 8]]
      (ObserveRegion_new run_region 1, MemoryQuota_new 1000) = (Ok tt, (o', q'))
    /\ ob_status o' = StReady /\ locks_by_key (ob_resolver o') = {[ [2] := 7 ]}.
Proof.
  destruct (initialization_exact run_region 1 (MemoryQuota_new 1000) 5
      [InitLog 5 [ex_prewrite [1] 3]; InitScan [(Key_from_raw [1], ex_lock [1] 3)];
       InitLog 6 [ex_prewrite [2] 7; ex_commit [1] 3 8]] ∅
      [ex_prewrite [1] 3] [ex_prewrite [2] 7; ex_commit [1] 3 8])
    as (o' & q' & H1 & H2 & H3 & _).
  - vm_compute. split; split; congruence.
  - lia.
  - reflexivity.
  - cbn [rows_fit app]. split_and!; [..|done]; intros key start raw old [= <- <-]; rewrite Key_to_raw_from_raw;
      intros [= <-]; vm_compute; intros [= <-]; by right.
  - split.
    + intros e ->%list_elem_of_singleton. split_and!; [done|apply run_row_key|]. by exists [1].
    + intros raw ts Hraw. exists (Key_from_raw [1], ex_lock [1] 3). split; [set_solver|].
      change (foldl apply_row ∅ [ex_prewrite [1] 3]) with (<[[1] := 3]> (∅ : lock_table)) in Hraw.
      apply lookup_insert_Some in Hraw as [[<- _]|[_ Hraw]]; [done|by rewrite lookup_empty in Hraw].
  - repeat constructor; apply run_row_key.
  - cbn. repeat constructor; lia.
  - intros _. cbn. lia.
  - vm_compute. congruence.
  - exists o', q'. split_and!; [exact H1|done|]. rewrite (tr_locks _ _ _ _ H3). vm_compute. reflexivity.
Defined.

(** A failed initialization keeps memory for ever.  Two changes wait while a
    region is scanned; when the scan ends, the first of them does not fit into the
    quota, which has been given back for that change alone.  The region is then
    dropped, but the memory of the change that was not replayed stays counted,
    though nothing holds it: the changes were taken out of the status, whose drop
    would have returned it. *)
Theorem failed_drain_leaks :
  let start := (ObserveRegion_new run_region 1, MemoryQuota_new 20) in
  let log := LogRows (Error := unit) 1 [ex_prewrite [1; 2; 3; 4; 5; 6; 7] 3; ex_prewrite [1; 2; 3; 4; 5; 6; 8] 3] in
  let '(logged, s1) := track_change_log [log] start in
  let '(ended, (o, q)) := track_scan_locks ScanNone 1 s1 in
  logged = Ok tt /\ ended = Err RtsMemoryQuotaExceeded
  /\ locks_by_key (ob_resolver o) = ∅ /\ ob_status o = StReady
  /\ mq_in_use (ObserveRegion_drop o q) = 9 /\ mq_in_use start.2 = 0.
Proof. vm_compute. by split_and!. Qed.
