(* ===== verification/ResolvedTsSpec.v ===== *)
(** * What a resolved timestamp guarantees

    The life of a region after its resolver has become ready, as a step relation:
    logs are tracked, timestamps are resolved and published, and the region may
    stop at a split or a merge.  Beside the code's state stands a history, computed
    from the same rows ([ghost_row]): the locks that the store holds, each with the
    timestamp that had been asked for before it appeared, and the commits.  Rows of
    every transaction are allowed.  A lock is covered while nothing has made the
    resolver lose it: it is of generation 0, and since it was put no other
    transaction has locked its key or left a record there.

    Of the transactions it is assumed ([row_timely]) that one commits above its
    start, and above the timestamps that were taken from the oracle before its
    locks, or the writes of its only phase, were applied, which is what the maximum
    timestamp and the locks in memory are for.

    Theorems: every published item is complete for the covered commits of the
    history, now and later ([resolved_ts_sound]), so that a replica which reads at
    its safe timestamp misses none of them ([resolved_reads_complete]); when no
    transaction disturbs another's lock and all are of generation 0, every commit
    is covered ([undisturbed_covered]).  Commits that are not covered are missed
    indeed: a rollback on a key that another transaction has locked makes the
    resolver forget that lock ([ResolvedTsStore.rollback_hides_lock]). *)

From Stdlib Require Import ZArith Lia.
From stdpp Require Import base numbers list gmap relations sorting.
From S2P Require Import Prelude Types Write Lock ReadProgress Resolver ChangeLog ResolvedTs.

Open Scope Z_scope.

(** ** Histories *)

(** A lock of the store: its transaction, the timestamp asked for before it
    appeared, and whether it is covered. *)
Record HeldLock : Type := { hl_start : TimeStamp; hl_floor : TimeStamp; hl_covered : bool }.

(** A commit: the index of its log, its timestamp, and whether it is of a covered
    lock, or of one phase. *)
Record CommitEvent : Type := { ce_index : u64; ce_ts : TimeStamp; ce_covered : bool }.

Record Ghost : Type := {
  gh_locks : gmap bytes HeldLock;
  gh_floor : TimeStamp;
  gh_commits : list CommitEvent
}.

Definition gh_with (g : Ghost) (locks : gmap bytes HeldLock) (new : list CommitEvent) : Ghost :=
  {| gh_locks := locks; gh_floor := gh_floor g; gh_commits := gh_commits g ++ new |}.

(** The lock of a key after a prewrite.  A lock that its own transaction writes
    again stays what it is; one that takes the place of another's is not covered. *)
Definition gh_locked (g : Ghost) (raw : bytes) (ts : TimeStamp) (generation : u64) : HeldLock :=
  match gh_locks g !! raw with
  | Some l => if hl_start l =? ts then l else {| hl_start := ts; hl_floor := gh_floor g; hl_covered := false |}
  | None => {| hl_start := ts; hl_floor := gh_floor g; hl_covered := generation =? 0 |}
  end.

Definition is_owner (start_ts : option TimeStamp) (l : HeldLock) : bool :=
  match start_ts with Some ts => hl_start l =? ts | None => true end.

(** The locks after a record, or after a lock is deleted without one: a lock of
    another transaction stays, and is not covered any more. *)
Definition gh_left (g : Ghost) (raw : bytes) (start_ts : option TimeStamp) : gmap bytes HeldLock :=
  match gh_locks g !! raw with
  | Some l =>
      if is_owner start_ts l then delete raw (gh_locks g)
      else <[raw := {| hl_start := hl_start l; hl_floor := hl_floor l; hl_covered := false |}]> (gh_locks g)
  | None => gh_locks g
  end.

Definition gh_committed (g : Ghost) (index : u64) (raw : bytes) (start_ts commit_ts : option TimeStamp) : list CommitEvent :=
  match commit_ts with
  | Some ts =>
      [{| ce_index := index; ce_ts := ts;
          ce_covered := match gh_locks g !! raw with Some l => (is_owner start_ts l && hl_covered l)%bool | None => false end |}]
  | None => []
  end.

Definition ghost_row (index : u64) (g : Ghost) (row : ChangeRow) : Ghost :=
  match row with
  | RowPrewrite key ts _ _ generation =>
      match Key_to_raw key with
      | Ok raw => gh_with g (<[raw := gh_locked g raw ts generation]> (gh_locks g)) []
      | _ => g
      end
  | RowCommit key _ start_ts commit_ts =>
      match Key_to_raw key with
      | Ok raw => gh_with g (gh_left g raw start_ts) (gh_committed g index raw start_ts commit_ts)
      | _ => g
      end
  | RowOnePc _ _ commit_ts _ => gh_with g (gh_locks g) [{| ce_index := index; ce_ts := commit_ts; ce_covered := true |}]
  | RowIngestSst => g
  end.

(** Rows have encoded keys; a transaction commits above its start and above the
    timestamps that were asked for before its lock, or its only phase. *)
Definition row_timely (g : Ghost) (row : ChangeRow) : Prop :=
  match row with
  | RowPrewrite key _ _ _ _ => row_key key
  | RowCommit key _ start_ts commit_ts =>
      row_key key /\ forall raw l c, Key_to_raw key = Ok raw -> gh_locks g !! raw = Some l ->
        is_owner start_ts l = true -> commit_ts = Some c -> hl_start l < c /\ hl_floor l < c
  | RowOnePc _ _ commit_ts _ => gh_floor g < commit_ts
  | RowIngestSst => True
  end.

Fixpoint rows_timely (index : u64) (g : Ghost) (rows : list ChangeRow) : Prop :=
  match rows with
  | [] => True
  | row :: rows => row_timely g row /\ rows_timely index (ghost_row index g row) rows
  end.

(** ** Steps *)

Record RegionRun : Type := {
  rn_region : ObserveRegion;
  rn_quota : MemoryQuota;
  rn_index : u64;
  rn_ghost : Ghost;
  rn_published : list ReadState
}.

(** A region that has become ready with the locks of a table, after a history of
    commits. *)
Definition run_start (o : ObserveRegion) (q : MemoryQuota) (index : u64) (t : lock_table)
    (commits : list CommitEvent) : RegionRun :=
  {| rn_region := o; rn_quota := q; rn_index := index;
     rn_ghost := {| gh_locks := (fun ts => {| hl_start := ts; hl_floor := 0; hl_covered := true |}) <$> t;
                    gh_floor := 0; gh_commits := commits |};
     rn_published := [] |}.

Inductive region_step : RegionRun -> RegionRun -> Prop :=
| step_log st index rows o' q' :
    rn_index st < index -> rows_timely index (rn_ghost st) rows ->
    track_ready_log (Error := unit) (LogRows index rows) (rn_region st, rn_quota st) = (Ok tt, (o', q')) ->
    region_step st
      {| rn_region := o'; rn_quota := q'; rn_index := index;
         rn_ghost := foldl (ghost_row index) (rn_ghost st) rows; rn_published := rn_published st |}
| step_resolve st txn_status rrp m now source resolved r' rrp' :
    resolve (E := Empty_set) txn_status (ob_resolver (rn_region st)) rrp m now source = Ok (resolved, r', rrp') ->
    region_step st
      {| rn_region := set_resolver (rn_region st) r'; rn_quota := rn_quota st; rn_index := rn_index st;
         rn_ghost := {| gh_locks := gh_locks (rn_ghost st); gh_floor := Z.max (gh_floor (rn_ghost st)) m;
                        gh_commits := gh_commits (rn_ghost st) |};
         rn_published := rn_published st ++ (if stopped (ob_resolver (rn_region st)) then []
                           else [{| rs_idx := tracked_index (ob_resolver (rn_region st)); rs_ts := resolved |}]) |}
| step_stop st cmd o' q' :
    cmd <> AdOther ->
    track_ready_log (Error := unit) (LogAdmin cmd) (rn_region st, rn_quota st) = (Ok tt, (o', q')) ->
    region_step st {| rn_region := o'; rn_quota := q'; rn_index := rn_index st; rn_ghost := rn_ghost st;
                      rn_published := rn_published st |}.

(** The resolver has every covered lock of a history, and no lock on a free key. *)
Record follows (g : Ghost) (r : Resolver) (q : MemoryQuota) : Prop := {
  fo_heap : heap_ok r;
  fo_quota : exists other, quota_holds other r q;
  fo_fits : forall raw ts, locks_by_key r !! raw = Some ts -> key_fits raw;
  fo_covered : forall raw l, gh_locks g !! raw = Some l -> hl_covered l = true -> locks_by_key r !! raw = Some (hl_start l);
  fo_free : forall raw, gh_locks g !! raw = None -> locks_by_key r !! raw = None
}.

(** A covered lock that can still be committed is at or above what is resolved. *)
Definition locks_above (g : Ghost) (resolved : TimeStamp) : Prop :=
  resolved <= gh_floor g
  /\ forall raw l, gh_locks g !! raw = Some l -> hl_covered l = true -> resolved <= Z.max (hl_start l) (hl_floor l).

Record run_inv (st : RegionRun) : Prop := {
  ri_follows : follows (rn_ghost st) (ob_resolver (rn_region st)) (rn_quota st);
  ri_index : 0 <= tracked_index (ob_resolver (rn_region st)) <= rn_index st;
  ri_commits : forall ce, ce ∈ gh_commits (rn_ghost st) -> ce_index ce <= tracked_index (ob_resolver (rn_region st));
  ri_above : locks_above (rn_ghost st) (resolved_ts (ob_resolver (rn_region st)));
  ri_below : forall p, p ∈ rn_published st -> rs_ts p <= resolved_ts (ob_resolver (rn_region st)) /\ 0 <= rs_idx p;
  ri_complete : forall p ce, p ∈ rn_published st -> ce ∈ gh_commits (rn_ghost st) -> ce_covered ce = true ->
    ce_ts ce <= rs_ts p -> ce_index ce <= rs_idx p
}.

(** A new lock is above what is resolved, and a covered lock commits there. *)
Lemma ghost_row_above index g row resolved :
  row_timely g row -> locks_above g resolved ->
  locks_above (ghost_row index g row) resolved
  /\ exists new, gh_commits (ghost_row index g row) = gh_commits g ++ new
     /\ forall ce, ce ∈ new -> ce_index ce = index /\ (ce_covered ce = true -> resolved < ce_ts ce).
Proof.
  intros Hrow [Hf Hl].
  assert (forall locks, exists new, gh_commits (gh_with g locks []) = gh_commits g ++ new
    /\ forall ce : CommitEvent, ce ∈ new -> ce_index ce = index /\ (ce_covered ce = true -> resolved < ce_ts ce)) as Hnil.
  { intros locks. exists []. split; [done|]. by intros ? ?%not_elem_of_nil. }
  assert (locks_above g resolved /\ exists new, gh_commits g = gh_commits g ++ new
    /\ forall ce : CommitEvent, ce ∈ new -> ce_index ce = index /\ (ce_covered ce = true -> resolved < ce_ts ce)) as Hself.
  { split; [done|]. destruct (Hnil ∅) as (new & E & H). exists new. split; [|done]. cbn in E. by rewrite app_nil_r in E. }
  destruct row as [key ts lt v g0|key wt st ct|key wt ct v|]; cbn [row_timely ghost_row] in *; [..|done].
  - destruct (Key_to_raw key) as [raw| |]; [|done..]. split; [|apply Hnil]. split; [done|].
    intros raw' l. cbn. rewrite lookup_insert_Some. intros [[<- <-]|[_ H]]; [|by apply (Hl raw')].
    unfold gh_locked. destruct (gh_locks g !! raw) as [l|] eqn:E; [case_match; [by apply (Hl raw)|done]|cbn; lia].
  - destruct (Key_to_raw key) as [raw| |]; [|done..]. destruct Hrow as [_ Hrow]. split.
    + split; [done|]. intros raw' l. cbn. unfold gh_left. destruct (gh_locks g !! raw) as [l0|] eqn:E; [|apply Hl].
      destruct (is_owner st l0); [rewrite lookup_delete_Some; intros [_ H]; by apply (Hl raw')|].
      rewrite lookup_insert_Some. intros [[_ <-]|[_ H]]; [done|by apply (Hl raw')].
    + eexists. split; [reflexivity|]. intros ce. unfold gh_committed. destruct ct as [c|]; [|by intros ?%not_elem_of_nil].
      intros ->%list_elem_of_singleton. split; [done|]. cbn. destruct (gh_locks g !! raw) as [l|] eqn:E; [|done].
      intros [Hown Hcov]%andb_prop. destruct (Hrow raw l c eq_refl E Hown eq_refl). specialize (Hl raw l E Hcov). lia.
  - split; [done|]. eexists. split; [reflexivity|]. intros ce ->%list_elem_of_singleton. split; [done|]. cbn. lia.
Qed.

Lemma follows_same g g' r r' q :
  follows g r q -> gh_locks g' = gh_locks g -> locks_by_key r' = locks_by_key r -> lock_ts_heap r' = lock_ts_heap r ->
  follows g' r' q.
Proof.
  intros [H1 [other H2] H3 H4 H5] Eg El Eh. split; rewrite ?Eg, ?El; try done.
  - intros ts. rewrite El, Eh. apply H1.
  - exists other. unfold quota_holds. by rewrite El.
Qed.

(** A prewrite that is tracked. *)
Lemma prewrite_follows g r q r' q' raw ts generation index :
  follows g r q -> key_fits raw -> tracked_index r <= index ->
  track_lock ts raw (Some index) generation (r, q) = (Ok tt, (r', q')) ->
  follows (gh_with g (<[raw := gh_locked g raw ts generation]> (gh_locks g)) []) r' q'
  /\ resolved_ts r' = resolved_ts r /\ tracked_index r' = index.
Proof.
  intros [H1 [other H2] H3 H4 H5] Hfit Hidx Hrun. destruct (Z.eq_dec generation 0) as [->|Hgen].
  - pose proof (track_lock_spec other ts raw (Some index) r q H1 H2 Hfit Hidx) as Hs. destruct (_ <=? _);
      [|destruct Hs as [r1 Hs]; congruence]. destruct Hs as (r1 & q1 & Hs & E1 & E2 & E3 & _ & E5 & E6).
    rewrite Hrun in Hs. injection Hs as <- <-. split; [|destruct E5 as (_ & _ & _ & ? & _); by split].
    split; [done|by exists other|..]; rewrite ?E1; cbn [gh_locks gh_with].
    + intros raw' ts'. by apply track_map_fits.
    + intros raw' l. unfold track_map, gh_locked. rewrite lookup_insert_Some. intros [[<- <-]|[Hne Hl]] Hc.
      * destruct (gh_locks g !! raw) as [l|] eqn:E.
        -- destruct (Z.eqb_spec (hl_start l) ts); [|done]. rewrite (H4 raw l E Hc). by apply H4.
        -- rewrite (H5 raw E). by rewrite lookup_insert_eq.
      * destruct (locks_by_key r !! raw); rewrite ?lookup_insert_ne by done; by apply H4.
    + intros raw' [Hl Hne]%lookup_insert_None. unfold track_map.
      destruct (locks_by_key r !! raw); rewrite ?lookup_insert_ne by done; by apply H5.
  - destruct (track_large_lock_spec ts raw (Some index) generation r q Hidx Hgen) as (r1 & Hs & E1 & E2 & E3 & E4).
    rewrite Hrun in Hs. injection Hs as <- <-. split; [|done].
    split; rewrite ?E1; [intros x; rewrite E1, E2; apply H1|exists other; unfold quota_holds; by rewrite E1|done|..];
      cbn [gh_locks gh_with].
    + intros raw' l. rewrite lookup_insert_Some. intros [[<- <-]|[_ Hl]] Hc; [|by apply H4]. unfold gh_locked in *.
      destruct (gh_locks g !! raw) as [l|] eqn:E; [case_match; [by apply H4|done]|cbn in Hc; lia].
    + intros raw' [Hl _]%lookup_insert_None. by apply H5.
Qed.

(** A record that is tracked. *)
Lemma commit_follows g r q r' q' raw start_ts new index :
  follows g r q -> tracked_index r <= index -> untrack_lock raw (Some index) (r, q) = (Ok tt, (r', q')) ->
  follows (gh_with g (gh_left g raw start_ts) new) r' q' /\ resolved_ts r' = resolved_ts r /\ tracked_index r' = index.
Proof.
  intros [H1 [other H2] H3 H4 H5] Hidx Hrun.
  destruct (untrack_lock_spec other raw (Some index) r q H1 H2 ltac:(by apply H3) Hidx)
    as (r1 & q1 & Hs & E1 & E2 & E3 & _ & E5 & _ & E7).
  rewrite Hrun in Hs. injection Hs as <- <-. split; [|done].
  split; [done|by exists other|..]; rewrite ?E1; cbn [gh_locks gh_with]; unfold gh_left.
  - intros raw' ts' [_ H]%lookup_delete_Some. by apply (H3 raw' ts').
  - intros raw' l. destruct (gh_locks g !! raw) as [l0|] eqn:E.
    + destruct (is_owner start_ts l0).
      * rewrite lookup_delete_Some. intros [Hne Hl] Hc. rewrite lookup_delete_ne by done. by apply H4.
      * rewrite lookup_insert_Some. intros [[_ <-]|[Hne Hl]] Hc; [done|]. rewrite lookup_delete_ne by done. by apply H4.
    + intros Hl Hc. rewrite lookup_delete_ne by congruence. by apply H4.
  - intros raw' Hl. rewrite lookup_delete_None. destruct (decide (raw = raw')) as [|Hne]; [by left|right]. apply H5.
    destruct (gh_locks g !! raw) as [l0|] eqn:E; [|done].
    destruct (is_owner start_ts l0); [by rewrite lookup_delete_ne in Hl|by rewrite lookup_insert_ne in Hl].
Qed.

Lemma track_row_follows index g row o q o' q' :
  follows g (ob_resolver o) q -> row_timely g row -> tracked_index (ob_resolver o) <= index ->
  track_row index row (o, q) = (Ok tt, (o', q')) ->
  follows (ghost_row index g row) (ob_resolver o') q' /\ resolved_ts (ob_resolver o') = resolved_ts (ob_resolver o)
  /\ tracked_index (ob_resolver o') = index.
Proof.
  intros Hf Hrow Hidx. destruct row as [key ts lt v gen|key wt st ct|key wt ct v|]; cbn [row_timely track_row ghost_row] in *.
  - destruct Hrow as (raw & -> & Hfit & _). rewrite Key_to_raw_from_raw. unfold mbind, st_bind. cbn [lift unwrap_ok fst]. unfold on_resolver.
    destruct (track_lock ts raw (Some index) gen (ob_resolver o, q)) as [[[]| |] [r1 q1]] eqn:Hrun; [|done..]. intros [= <- <-]. by eapply prewrite_follows.
  - destruct Hrow as [(raw & -> & Hfit & _) _]. rewrite Key_to_raw_from_raw. unfold mbind, st_bind. cbn [lift unwrap_ok fst]. unfold on_resolver.
    destruct (untrack_lock raw (Some index) (ob_resolver o, q)) as [[[]| |] [r1 q1]] eqn:Hrun; [|done..]. intros [= <- <-]. by eapply commit_follows.
  - unfold on_resolver. rewrite note_index_spec, (proj2 (Z.leb_le _ _) Hidx). intros [= <- <-].
    split_and!; try done. by eapply follows_same.
  - unfold on_resolver. rewrite note_index_spec, (proj2 (Z.leb_le _ _) Hidx). intros [= <- <-].
    split_and!; try done. by eapply follows_same.
Qed.

Lemma track_rows_follow index rows : forall g o q o' q',
  rows_timely index g rows -> follows g (ob_resolver o) q ->
  tracked_index (ob_resolver o) <= index -> locks_above g (resolved_ts (ob_resolver o)) ->
  for_each (track_row index) rows (o, q) = (Ok tt, (o', q')) ->
  follows (foldl (ghost_row index) g rows) (ob_resolver o') q'
  /\ locks_above (foldl (ghost_row index) g rows) (resolved_ts (ob_resolver o))
  /\ resolved_ts (ob_resolver o') = resolved_ts (ob_resolver o)
  /\ tracked_index (ob_resolver o) <= tracked_index (ob_resolver o') <= index
  /\ exists new, gh_commits (foldl (ghost_row index) g rows) = gh_commits g ++ new
     /\ forall ce, ce ∈ new -> ce_index ce <= tracked_index (ob_resolver o')
          /\ (ce_covered ce = true -> resolved_ts (ob_resolver o) < ce_ts ce).
Proof.
  induction rows as [|row rows IH]; intros g o q o' q' Hg Ht Hi Hl.
  { intros [= <- <-]. split_and!; try done. exists []. rewrite app_nil_r. split; [done|]. by intros ce ?%not_elem_of_nil. }
  destruct Hg as [Hrow Hrows]. destruct (ghost_row_above index g row _ Hrow Hl) as (Hl1 & new & Hnew & Hc).
  cbn [for_each foldl]. destruct (track_row index row (o, q)) as [[[]|e|] [o1 q1]] eqn:Hrun;
    rewrite (st_bind_eq _ _ _ _ _ Hrun); [|done..]. intros Hrest.
  destruct (track_row_follows index g row o q o1 q1 Ht Hrow Hi Hrun) as (Ht1 & Hr1 & Hi1).
  destruct (IH (ghost_row index g row) o1 q1 o' q') as (H1 & H2 & H3 & H4 & new' & Hnew' & Hc'); try done.
  { lia. }
  { by rewrite Hr1. }
  rewrite Hr1 in H2, H3, Hc'. split_and!; try done; [lia..|]. exists (new ++ new'). rewrite app_assoc, <-Hnew.
  split; [done|]. intros ce [Hce|Hce]%elem_of_app; [|by apply Hc']. destruct (Hc ce Hce) as [-> ?]. split; [lia|done].
Qed.

Lemma log_inv st index rows o' q' :
  run_inv st -> rn_index st < index -> rows_timely index (rn_ghost st) rows ->
  track_ready_log (Error := unit) (LogRows index rows) (rn_region st, rn_quota st) = (Ok tt, (o', q')) ->
  run_inv {| rn_region := o'; rn_quota := q'; rn_index := index;
             rn_ghost := foldl (ghost_row index) (rn_ghost st) rows; rn_published := rn_published st |}.
Proof.
  intros [Ht Hi Hc Hl Hb Hp] Hlt Hg Hrun.
  destruct (track_rows_follow index rows _ _ _ o' q' Hg Ht ltac:(lia) Hl Hrun)
    as (Ht' & Hl' & Hr & Hi' & new & Hnew & Hc').
  split; cbn; rewrite ?Hr; try done; [lia|..].
  - intros ce. rewrite Hnew. intros [Hce|Hce]%elem_of_app; [specialize (Hc ce Hce); lia|by destruct (Hc' ce Hce)].
  - intros p ce Hin. rewrite Hnew. intros [Hce|Hce]%elem_of_app Hcov Hle; [by apply (Hp p ce)|].
    destruct (Hc' ce Hce) as [_ Hlt']. specialize (Hlt' Hcov). specialize (Hb p Hin). lia.
Qed.

Lemma resolve_inv st txn_status rrp m now source resolved r' rrp' :
  run_inv st ->
  resolve (E := Empty_set) txn_status (ob_resolver (rn_region st)) rrp m now source = Ok (resolved, r', rrp') ->
  run_inv {| rn_region := set_resolver (rn_region st) r'; rn_quota := rn_quota st; rn_index := rn_index st;
             rn_ghost := {| gh_locks := gh_locks (rn_ghost st); gh_floor := Z.max (gh_floor (rn_ghost st)) m;
                            gh_commits := gh_commits (rn_ghost st) |};
             rn_published := rn_published st ++ (if stopped (ob_resolver (rn_region st)) then []
                               else [{| rs_idx := tracked_index (ob_resolver (rn_region st)); rs_ts := resolved |}]) |}.
Proof.
  intros [Ht Hi Hc [Hf Hl] Hb Hp] Hres. destruct (stopped (ob_resolver (rn_region st))) eqn:Hs.
  { unfold resolve in Hres. rewrite Hs in Hres. injection Hres as <- <- <-. rewrite app_nil_r.
    split; cbn; try done; [by eapply follows_same|]. split; [cbn; lia|done]. }
  destruct (resolve_spec txn_status (ob_resolver (rn_region st)) (fo_heap _ _ _ Ht)
    (resolve_positive _ _ _ _ _ _ _ Hs Hres) rrp m now source Hs)
    as (bound & r1 & Hres' & Hr & Hm & [Hbelow _] & _ & E1 & E2 & _ & _ & E5 & _ & _).
  rewrite Hres in Hres'. injection Hres' as -> -> _.
  split; cbn; rewrite ?E5; try done.
  - by eapply follows_same.
  - split; cbn; [lia|]. intros raw l Hraw Hcov. specialize (Hl raw l Hraw Hcov).
    pose proof (Hbelow raw _ (fo_covered _ _ _ Ht raw l Hraw Hcov)). lia.
  - intros p [Hin | ->%list_elem_of_singleton]%elem_of_app; [specialize (Hb p Hin); lia|cbn; lia].
  - intros p ce [Hin | ->%list_elem_of_singleton]%elem_of_app Hce Hcov Hle; [by apply (Hp p ce)|]. cbn. by apply Hc.
Qed.

Lemma region_step_inv st st' : region_step st st' -> run_inv st -> run_inv st'.
Proof.
  intros Hstep Hinv. destruct Hstep as [st index rows o' q' Hlt Hg Hrun|st txn_status rrp m now source res r' rrp' Hres|
    st cmd o' q' Hne Hrun].
  - by apply log_inv.
  - by eapply resolve_inv.
  - assert (o' = set_resolver (rn_region st) (stop_tracking (ob_resolver (rn_region st))) /\ q' = rn_quota st) as [-> ->].
    { by destruct cmd; [injection Hrun as <- <-..|]. }
    destruct Hinv as [Ht Hi Hc Hl Hb Hp]. split; cbn; try done. by eapply follows_same.
Qed.

(** A resolver that tracks the locks of a table, beside whatever large
    transactions. *)
Record ready_with (other : Z) (t : lock_table) (r : Resolver) (q : MemoryQuota) : Prop := {
  rw_locks : locks_by_key r = t;
  rw_heap : heap_ok r;
  rw_quota : quota_holds other r q;
  rw_fits : forall raw ts, t !! raw = Some ts -> key_fits raw /\ 0 <= ts;
  rw_fresh : resolved_ts r = 0
}.

Lemma run_start_inv o q index t commits other :
  ready_with other t (ob_resolver o) q -> 0 <= tracked_index (ob_resolver o) <= index ->
  (forall ce, ce ∈ commits -> ce_index ce <= tracked_index (ob_resolver o)) ->
  run_inv (run_start o q index t commits).
Proof.
  intros [Ht Hh Hq Hf Hr] Hi Hc. split; cbn; rewrite ?Hr; try done.
  - split; cbn; rewrite ?Ht; [done|by exists other|intros raw ts H%Hf; apply H|..].
    + intros raw l. rewrite lookup_fmap. destruct (t !! raw) as [ts|]; [|done]. by intros [= <-].
    + intros raw. rewrite lookup_fmap. by destruct (t !! raw).
  - split; cbn; [done|]. intros raw l. rewrite lookup_fmap. destruct (t !! raw) as [ts|] eqn:E; [|done].
    intros [= <-] _. cbn. destruct (Hf raw ts E). lia.
  - by intros p ?%not_elem_of_nil.
  - by intros p ce ?%not_elem_of_nil.
Qed.

(** ** When all is covered *)

(** A row of generation 0 that meets no lock of another transaction, and commits
    what its transaction has locked. *)
Definition row_own (g : Ghost) (row : ChangeRow) : Prop :=
  match row with
  | RowPrewrite key ts _ _ generation =>
      generation = 0 /\ forall raw l, Key_to_raw key = Ok raw -> gh_locks g !! raw = Some l -> hl_start l = ts
  | RowCommit key _ start_ts commit_ts =>
      forall raw, Key_to_raw key = Ok raw ->
        match gh_locks g !! raw with Some l => is_owner start_ts l = true | None => commit_ts = None end
  | RowOnePc _ _ _ _ | RowIngestSst => True
  end.

Definition all_covered (g : Ghost) : Prop :=
  (forall raw l, gh_locks g !! raw = Some l -> hl_covered l = true)
  /\ (forall ce, ce ∈ gh_commits g -> ce_covered ce = true).

(** Such rows leave every lock and every commit covered. *)
Lemma undisturbed_covered index g row : row_own g row -> all_covered g -> all_covered (ghost_row index g row).
Proof.
  intros Hrow [Hl Hc]. destruct row as [key ts lt v gen|key wt st ct|key wt ct v|]; cbn [row_own ghost_row] in *; [..|done].
  - destruct (Key_to_raw key) as [raw| |]; [|done..]. destruct Hrow as [-> Hrow]. split; cbn; [|by rewrite app_nil_r].
    intros raw' l. rewrite lookup_insert_Some. intros [[<- <-]|[_ H]]; [|by apply (Hl raw')]. unfold gh_locked.
    destruct (gh_locks g !! raw) as [l|] eqn:E; [|done].
    rewrite (proj2 (Z.eqb_eq _ _)) by (by apply (Hrow raw)). by apply (Hl raw).
  - destruct (Key_to_raw key) as [raw| |]; [|done..]. specialize (Hrow raw eq_refl). unfold gh_left, gh_committed.
    destruct (gh_locks g !! raw) as [l|] eqn:E.
    + rewrite Hrow, (Hl raw l E). split; cbn; [intros raw' l' [_ H]%lookup_delete_Some; by apply (Hl raw')|].
      intros ce [Hce|Hce]%elem_of_app; [by apply Hc|]. destruct ct; [|by apply not_elem_of_nil in Hce].
      by apply list_elem_of_singleton in Hce as ->.
    + subst ct. split; cbn; [done|by rewrite app_nil_r].
  - split; cbn; [done|]. by intros ce [Hce | ->%list_elem_of_singleton]%elem_of_app; [apply Hc|].
Qed.

Lemma run_inv_steps st st' : rtc region_step st st' -> run_inv st -> run_inv st'.
Proof. induction 1; [done|]. eauto using region_step_inv. Qed.

(** C18. What a resolver publishes is complete for covered commits.  A region has
    become ready with its locks, and from then on logs with rows of any
    transactions are tracked, timestamps are resolved and the region may stop, in
    any order; a transaction commits above its start and above the timestamps asked
    for before its locks, or its only phase, were applied.  Every covered commit
    whose timestamp is at or below a published timestamp is at or before the
    published index, also every one that comes later: no commit falls below a
    timestamp that has been resolved, if its lock is of generation 0 and, while the
    lock was held, no other transaction locked the key or left a record there. *)
Theorem resolved_ts_sound o q index t commits other st p ce :
  ready_with other t (ob_resolver o) q -> 0 <= tracked_index (ob_resolver o) <= index ->
  (forall ce, ce ∈ commits -> ce_index ce <= tracked_index (ob_resolver o)) ->
  rtc region_step (run_start o q index t commits) st ->
  p ∈ rn_published st -> ce ∈ gh_commits (rn_ghost st) -> ce_covered ce = true ->
  ce_ts ce <= rs_ts p -> ce_index ce <= rs_idx p.
Proof.
  intros Ht Hi Hc Hrtc. pose proof (run_start_inv o q index t commits other Ht Hi Hc) as H0.
  apply (run_inv_steps _ _ Hrtc) in H0 as [_ _ _ _ _ H]. apply H.
Qed.

Definition run_ready : ObserveRegion := set_status (ObserveRegion_new run_region 1) StReady.

Lemma run_ready_with : ready_with 0 ∅ (ob_resolver run_ready) (MemoryQuota_new 1000).
Proof. by split. Qed.

(** A run: a key is locked at 3 and committed at 8, then 10 is resolved. *)
Lemma run_example :
  exists st, rtc region_step (run_start run_ready (MemoryQuota_new 1000) 0 ∅ []) st
    /\ rn_published st = [{| rs_idx := 2; rs_ts := 10 |}]
    /\ gh_commits (rn_ghost st) = [{| ce_index := 2; ce_ts := 8; ce_covered := true |}].
Proof.
  destruct (for_each (track_row 1) [ex_prewrite [1] 3] (run_ready, MemoryQuota_new 1000)) as [r1 [o1 q1]] eqn:H1.
  destruct (for_each (track_row 2) [ex_commit [1] 3 8] (o1, q1)) as [r2 [o2 q2]] eqn:H2.
  destruct (resolve (E := Empty_set) (fun _ => None) (ob_resolver o2)
    (RegionReadProgress_new run_region 0 128 1) 10 None SrcPdTso) as [[[res r'] rrp']| |] eqn:H3;
    [|vm_compute in H1; injection H1 as <- <- <-; vm_compute in H2; injection H2 as <- <- <-; vm_compute in H3; done..].
  assert (r1 = Ok tt /\ r2 = Ok tt /\ res = 10 /\ stopped (ob_resolver o2) = false /\ tracked_index (ob_resolver o2) = 2)
    as (-> & -> & -> & Hs & Hi).
  { vm_compute in H1. injection H1 as <- <- <-. vm_compute in H2. injection H2 as <- <- <-.
    vm_compute in H3. injection H3 as <- <- <-. done. }
  eexists. split.
  - eapply rtc_l; [eapply (step_log _ 1); [cbn; lia| |exact H1]|].
    { split; [apply run_row_key|done]. }
    eapply rtc_l; [eapply (step_log _ 2); [cbn; lia| |exact H2]|].
    { split; [|done]. split; [apply run_row_key|]. intros raw l c. rewrite Key_to_raw_from_raw. intros [= <-].
      vm_compute. by intros [= <-] _ [= <-]. }
    eapply rtc_l; [eapply step_resolve; exact H3|]. apply rtc_refl.
  - cbn. rewrite Hs, Hi. done.
Qed.

Lemma resolved_ts_sound_witness :
  exists st, rtc region_step (run_start run_ready (MemoryQuota_new 1000) 0 ∅ []) st
    /\ rn_published st = [{| rs_idx := 2; rs_ts := 10 |}]
    /\ gh_commits (rn_ghost st) = [{| ce_index := 2; ce_ts := 8; ce_covered := true |}] /\ 2 <= 2.
Proof.
  destruct run_example as (st & Hrtc & Hp & Hc). exists st. split_and!; [exact Hrtc|exact Hp|exact Hc|].
  refine (resolved_ts_sound run_ready (MemoryQuota_new 1000) 0 ∅ [] 0 st {| rs_idx := 2; rs_ts := 10 |}
    {| ce_index := 2; ce_ts := 8; ce_covered := true |} run_ready_with _ _ Hrtc _ _ eq_refl _);
    [done|by intros ce ?%not_elem_of_nil|..|done].
  - rewrite Hp. by apply list_elem_of_singleton.
  - rewrite Hc. by apply list_elem_of_singleton.
Defined.

(** ** Replicas *)

(** A replica of the region, in this store or another: it receives published
    items, in whatever order, applies commands, and may pause. *)
Inductive replica_step (items : list ReadState) : RegionReadProgress -> RegionReadProgress -> Prop :=
| rep_publish rp i now : i ∈ items -> replica_step items rp (update_safe_ts_with_time rp (rs_idx i) (rs_ts i) now)
| rep_consume rp info now same rp' events :
    (forall rs, li_read_state info = Some rs -> rs ∈ items) ->
    consume_leader_info rp info now = (same, rp', events) -> replica_step items rp rp'
| rep_apply rp applied rp' events :
    RegionReadProgress_update_applied (E := Empty_set) rp applied = Ok (rp', events) -> replica_step items rp rp'
| rep_leader rp id term region : replica_step items rp (update_leader_info rp id term region)
| rep_pause rp : replica_step items rp (RegionReadProgress_pause rp)
| rep_discard rp : replica_step items rp (RegionReadProgress_discard rp)
| rep_resume rp : replica_step items rp (RegionReadProgress_resume rp).

(** The covered commits, as the progress of replicas sees them. *)
Definition history_item (ce : CommitEvent) : HistoryItem :=
  {| h_joined := 0; h_index := ce_index ce; h_commit_ts := ce_ts ce |}.

Definition history_of (commits : list CommitEvent) : list HistoryItem :=
  history_item <$> List.filter ce_covered commits.

Lemma history_of_elem commits h :
  h ∈ history_of commits -> exists ce, h = history_item ce /\ ce ∈ commits /\ ce_covered ce = true.
Proof.
  intros (ce & -> & Hin)%list_elem_of_fmap. exists ce. split; [done|].
  by apply list_elem_of_In, filter_In in Hin as [Hin%list_elem_of_In ?].
Qed.

Lemma history_no_join commits from to : 0 <= from -> no_join (history_of commits) from to.
Proof. intros Hf h (ce & -> & _)%history_of_elem. cbn. lia. Qed.

Lemma Core_update_safe_ts_applied c idx ts now : applied_index (snd (Core_update_safe_ts c idx ts now)) = applied_index c.
Proof.
  unfold Core_update_safe_ts. set (c0 := if later_instant _ _ then _ else _).
  assert (applied_index c0 = applied_index c) as <- by (subst c0; by case_match). clearbody c0. by repeat case_match.
Qed.

Section replica.
Context (commits : list CommitEvent) (items : list ReadState).
Hypothesis items_complete : forall p ce, p ∈ items -> ce ∈ commits -> ce_covered ce = true ->
  ce_ts ce <= rs_ts p -> ce_index ce <= rs_idx p.
Hypothesis items_index : forall p, p ∈ items -> 0 <= rs_idx p.

Lemma item_in_history rp p :
  p ∈ items -> complete (history_of commits) (rs_idx p) (rs_ts p) /\ in_order (history_of commits) rp (rs_idx p) (rs_ts p).
Proof.
  intros Hp. split.
  - intros h (ce & -> & Hin & Hcov)%history_of_elem _ Hts. by apply items_complete.
  - intros p' _ _ _. by apply history_no_join, items_index.
Qed.

(** A step of a replica is a step over the history of commits. *)
Lemma replica_step_sim rp rp' :
  replica_step items rp rp' -> 0 <= applied_index (core rp) ->
  rp_step (history_of commits) rp rp' /\ 0 <= applied_index (core rp').
Proof.
  intros Hstep Ha. destruct Hstep as [rp i now Hi|rp info now same rp' events Hrs Hcons|rp applied rp' events Hu|
    rp id term region|rp|rp|rp].
  - split; [apply step_publish; by apply (item_in_history rp)|].
    unfold update_safe_ts_with_time. repeat case_match; try done.
    by rewrite store_safe_ts_core, Core_update_safe_ts_applied.
  - split; [eapply step_consume; [|exact Hcons]; intros rs Hr; by apply item_in_history, Hrs|].
    revert Hcons. unfold consume_leader_info. set (c0 := if later_instant _ _ then _ else _).
    assert (applied_index c0 = applied_index (core rp)) as Hc0 by (subst c0; by case_match). clearbody c0.
    destruct (li_read_state info) as [rs|]; [|intros [= _ <- _]; cbn; by rewrite Hc0].
    intros [= _ <- _]. case_match; [|cbn; by rewrite Hc0].
    by rewrite store_safe_ts_core, Core_update_safe_ts_applied, Hc0.
  - split; [eapply step_apply; [by apply history_no_join|exact Hu]|].
    unfold RegionReadProgress_update_applied, Core_update_applied in Hu. res_inv. destruct a as [r c'].
    destruct (consume_pending _ _ _). injection Hu as <- _. apply Z.leb_le in E.
    case_match; injection H as <- <-; cbn; lia.
  - split; [constructor|done].
  - split; [constructor|done].
  - split; [constructor|done].
  - split; [constructor|done].
Qed.

Lemma replica_steps_sim rp rp' :
  rtc (replica_step items) rp rp' -> 0 <= applied_index (core rp) ->
  rtc (rp_step (history_of commits)) rp rp' /\ 0 <= applied_index (core rp').
Proof.
  induction 1 as [|rp1 rp2 rp3 Hstep _ IH]; [done|]. intros Ha.
  destruct (replica_step_sim _ _ Hstep Ha) as [Hs Ha']. destruct (IH Ha') as [Hrtc Hend].
  split; [by eapply rtc_l|done].
Qed.

End replica.

(** C17. A replica that reads at its safe timestamp misses no covered commit.
    Whatever the resolver of the leader publishes during its life, in whatever
    order a replica receives the items, however far behind it is and whether it
    pauses, every covered commit of the region's log at or below the replica's
    [safe_ts], past or still to come, is among the commands it has applied.  A
    commit is covered if it has one phase, or if its lock is of generation 0 and
    while it was held no other transaction locked the key or left a record there.
    This joins the tracking of locks, the resolution of timestamps and the progress
    of replicas. *)
Theorem resolved_reads_complete o q index t commits other st region applied cap id rp ce :
  ready_with other t (ob_resolver o) q -> 0 <= tracked_index (ob_resolver o) <= index ->
  (forall ce, ce ∈ commits -> ce_index ce <= tracked_index (ob_resolver o)) ->
  rtc region_step (run_start o q index t commits) st ->
  (forall ce, ce ∈ gh_commits (rn_ghost st) -> 0 < ce_ts ce) ->
  0 <= applied -> rtc (replica_step (rn_published st)) (RegionReadProgress_new region applied cap id) rp ->
  ce ∈ gh_commits (rn_ghost st) -> ce_covered ce = true -> ce_ts ce <= safe_ts rp ->
  ce_index ce <= applied_index (core rp).
Proof.
  intros Ht Hi Hc Hrtc Hpos Ha Hrep Hce Hcov Hle.
  pose proof (run_start_inv o q index t commits other Ht Hi Hc) as H0.
  apply (run_inv_steps _ _ Hrtc) in H0 as [_ _ _ _ Hb Hcomp].
  apply (replica_steps_sim (gh_commits (rn_ghost st)) _ Hcomp (fun p Hp => proj2 (Hb p Hp))) in Hrep as [Hrep Ha']; [|done].
  assert (forall h, h ∈ history_of (gh_commits (rn_ghost st)) -> 0 < h_commit_ts h) as Hpos'.
  { intros h (ce' & -> & Hin & _)%history_of_elem. by apply Hpos. }
  apply (rp_steps_inv (history_of (gh_commits (rn_ghost st)))) in Hrep as [_ Hs _ _ _]; [|done|].
  - apply (Hs (history_item ce)); [|done|done].
    apply list_elem_of_fmap. exists ce. split; [done|]. by apply list_elem_of_In, filter_In; rewrite <-list_elem_of_In.
  - by apply new_inv; [|apply history_no_join|].
Qed.

Lemma resolved_reads_complete_witness :
  exists st rp, rtc region_step (run_start run_ready (MemoryQuota_new 1000) 0 ∅ []) st
    /\ rtc (replica_step (rn_published st)) (RegionReadProgress_new run_region 1 128 1) rp
    /\ {| ce_index := 2; ce_ts := 8; ce_covered := true |} ∈ gh_commits (rn_ghost st)
    /\ safe_ts rp = 10 /\ 2 <= applied_index (core rp).
Proof.
  destruct run_example as (st & Hrtc & Hp & Hc).
  set (rp1 := update_safe_ts_with_time (RegionReadProgress_new run_region 1 128 1) 2 10 None).
  destruct (RegionReadProgress_update_applied (E := Empty_set) rp1 3) as [[rp ev]| |] eqn:Hu; [|done..].
  assert (rtc (replica_step (rn_published st)) (RegionReadProgress_new run_region 1 128 1) rp) as Hrep.
  { eapply rtc_l; [|eapply rtc_once, (rep_apply _ rp1 3); exact Hu].
    apply (rep_publish _ _ {| rs_idx := 2; rs_ts := 10 |} None). rewrite Hp. by apply list_elem_of_singleton. }
  assert ({| ce_index := 2; ce_ts := 8; ce_covered := true |} ∈ gh_commits (rn_ghost st)) as Hin
    by (rewrite Hc; by apply list_elem_of_singleton).
  assert (safe_ts rp = 10) as Hs by (vm_compute in Hu; by injection Hu as <- _).
  exists st, rp. split_and!; [exact Hrtc|exact Hrep|exact Hin|exact Hs|].
  refine (resolved_reads_complete run_ready (MemoryQuota_new 1000) 0 ∅ [] 0 st run_region 1 128 1 rp
    {| ce_index := 2; ce_ts := 8; ce_covered := true |} run_ready_with _ _ Hrtc _ _ Hrep Hin eq_refl _);
    [done|by intros ce ?%not_elem_of_nil| |done|by rewrite Hs].
  intros ce. rewrite Hc. by intros ->%list_elem_of_singleton.
Defined.
