(* ===== verification/Leadership.v ===== *)
(** * Confirming leadership

    [components/resolved_ts/src/advance.rs]: the timestamp that the advance worker
    takes, and [LeadershipResolver], which asks the other stores of a region
    whether they know the same leader before a timestamp is resolved, together
    with their answers, [handle_check_leaders] of [raftstore]'s [util.rs].  The
    answers are arguments, in the order in which they arrive; an answer that
    fails or does not come within its time is an error.  Clients, connections and
    metrics are not modelled; a [HashMap] is traversed in the order of
    [map_to_list].  The counters of a quorum are not bounded.

    Theorems: two quorums share a voter ([quorums_intersect]); a region is only
    returned when its leader is in this store and a quorum of its stores have
    agreed ([resolve_acknowledged]), so that a leader that another one has
    superseded is not confirmed any more ([superseded_not_confirmed]). *)

From Stdlib Require Import ZArith Lia.
From stdpp Require Import base numbers list gmap sets.
From S2P Require Import Prelude Types Lock ConcurrencyManager ReadProgress Resolver.

Open Scope Z_scope.

(** ** Quorums *)

Record QuorumCount : Type := {
  voters : Z;
  incoming_voters : Z;
  demoting_voters : Z
}.

Definition QuorumCount_zero : QuorumCount := {| voters := 0; incoming_voters := 0; demoting_voters := 0 |}.

Definition count_role (c : QuorumCount) (role : PeerRole) : QuorumCount :=
  match role with
  | Voter => {| voters := voters c + 1; incoming_voters := incoming_voters c; demoting_voters := demoting_voters c |}
  | IncomingVoter =>
      {| voters := voters c; incoming_voters := incoming_voters c + 1; demoting_voters := demoting_voters c |}
  | DemotingVoter =>
      {| voters := voters c; incoming_voters := incoming_voters c; demoting_voters := demoting_voters c + 1 |}
  | Learner => c
  end.

Definition in_resp (stores : list u64) (peer : Peer) : bool := existsb (fun s => s =? peer_store_id peer) stores.

(** One turn of the loop: all voters, and those that have answered. *)
Definition count_peer (stores : list u64) (acc : QuorumCount * QuorumCount) (peer : Peer) : QuorumCount * QuorumCount :=
  let '(all, resp) := acc in
  (count_role all (peer_role peer), if in_resp stores peer then count_role resp (peer_role peer) else resp).

Definition region_has_quorum (peers : list Peer) (stores : list u64) : bool :=
  let '(all, resp) := foldl (count_peer stores) (QuorumCount_zero, QuorumCount_zero) peers in
  let has_incoming_majority :=
    (voters all + incoming_voters all) / 2 + 1 <=? voters resp + incoming_voters resp in
  let has_demoting_majority :=
    (voters all + demoting_voters all) / 2 + 1 <=? voters resp + demoting_voters resp in
  (has_incoming_majority && has_demoting_majority)%bool.

(** ** [LeadershipResolver] *)

Record RegionProgress : Type := { pr_resolved : bool; pr_peers : list Peer; pr_resps : list u64 }.

Definition RegionProgress_new : RegionProgress := {| pr_resolved := false; pr_peers := []; pr_resps := [] |}.

(** [RegionProgress::clear] *)
Definition RegionProgress_clear (p : RegionProgress) : RegionProgress := RegionProgress_new.

Record LeadershipResolver : Type := {
  lr_store_id : u64;
  store_req_map : gmap u64 (list LeaderInfo);
  progresses : gmap u64 RegionProgress;
  checking_regions : gset u64;
  valid_regions : gset u64;
  gc_interval : Z;
  last_gc_time : instant
}.

Definition LeadershipResolver_new (store_id : u64) (gc_interval : Z) (now : instant) : LeadershipResolver :=
  {| lr_store_id := store_id; store_req_map := ∅; progresses := ∅; checking_regions := ∅; valid_regions := ∅;
     gc_interval := gc_interval; last_gc_time := now |}.

Definition LeadershipResolver_gc (l : LeadershipResolver) (now : instant) : LeadershipResolver :=
  if gc_interval l <? now - last_gc_time l then
    {| lr_store_id := lr_store_id l; store_req_map := ∅; progresses := ∅; checking_regions := ∅; valid_regions := ∅;
       gc_interval := gc_interval l; last_gc_time := now |}
  else l.

(** The requests lose their regions, and the timestamp that is set when they are
    sent. *)
Definition LeadershipResolver_clear (l : LeadershipResolver) : LeadershipResolver :=
  {| lr_store_id := lr_store_id l; store_req_map := (fun _ => []) <$> store_req_map l;
     progresses := RegionProgress_clear <$> progresses l; checking_regions := ∅; valid_regions := ∅;
     gc_interval := gc_interval l; last_gc_time := last_gc_time l |}.

Definition set_round (l : LeadershipResolver) (reqs : gmap u64 (list LeaderInfo)) (progs : gmap u64 RegionProgress)
    (valid : gset u64) : LeadershipResolver :=
  {| lr_store_id := lr_store_id l; store_req_map := reqs; progresses := progs;
     checking_regions := checking_regions l; valid_regions := valid;
     gc_interval := gc_interval l; last_gc_time := last_gc_time l |}.

(** The loop over the peers of a region: the answers this store gives itself,
    the requests, and the votes that are missing. *)
Record PeerLoop : Type := { pl_resps : list u64; pl_reqs : gmap u64 (list LeaderInfo); pl_unvotes : Z }.

Definition check_peer (store_id leader_id : u64) (info : LeaderInfo) (acc : PeerLoop) (peer : Peer) : PeerLoop :=
  if ((peer_store_id peer =? store_id) && (peer_id peer =? leader_id))%bool then
    {| pl_resps := pl_resps acc ++ [store_id]; pl_reqs := pl_reqs acc; pl_unvotes := pl_unvotes acc |}
  else
    {| pl_resps := pl_resps acc;
       pl_reqs := <[peer_store_id peer := default [] (pl_reqs acc !! peer_store_id peer) ++ [info]]> (pl_reqs acc);
       pl_unvotes := if decide (peer_role peer = Learner) then pl_unvotes acc else pl_unvotes acc + 1 |}.

Definition check_region (l : LeadershipResolver) (e : u64 * RegionReadProgress) : LeadershipResolver :=
  let '(region_id, read_progress) := e in
  if decide (region_id ∈ checking_regions l) then
    let lli := leader_info (core read_progress) in
    if decide (lli_leader_store_id lli = Some (lr_store_id l)) then
      let info := get_leader_info (core read_progress) in
      let prog := default RegionProgress_new (progresses l !! region_id) in
      let acc := foldl (check_peer (lr_store_id l) (lli_leader_id lli) info)
                   {| pl_resps := pr_resps prog; pl_reqs := store_req_map l; pl_unvotes := 0 |} (lli_peers lli) in
      if ((pl_unvotes acc =? 0) && region_has_quorum (lli_peers lli) (pl_resps acc))%bool then
        set_round l (pl_reqs acc)
          (<[region_id := {| pr_resolved := true; pr_peers := pr_peers prog; pr_resps := pl_resps acc |}]> (progresses l))
          ({[region_id]} ∪ valid_regions l)
      else
        set_round l (pl_reqs acc)
          (<[region_id := {| pr_resolved := pr_resolved prog; pr_peers := pr_peers prog ++ lli_peers lli;
                             pr_resps := pl_resps acc |}]> (progresses l)) (valid_regions l)
    else l
  else l.

(** [resolve] up to the requests. *)
Definition resolve_start (l : LeadershipResolver) (regions : list u64) (registry : RegionReadProgressRegistry)
    (now : instant) : LeadershipResolver :=
  let l := LeadershipResolver_gc (LeadershipResolver_clear l) now in
  let l := {| lr_store_id := lr_store_id l; store_req_map := store_req_map l; progresses := progresses l;
              checking_regions := checking_regions l ∪ list_to_set regions; valid_regions := valid_regions l;
              gc_interval := gc_interval l; last_gc_time := last_gc_time l |} in
  foldl check_region l (map_to_list registry).

(** The requests that are sent. *)
Definition requests (l : LeadershipResolver) : list (u64 * list LeaderInfo) :=
  filter (fun r => r.2 <> []) (map_to_list (store_req_map l)).

(** The outcome of a request: the store and the regions of its answer, or the
    store that failed. *)
Inductive check_outcome : Type :=
| Answered (to_store : u64) (regions : list u64)
| Failed (to_store : u64).

(** A region in an answer. *)
Definition acknowledge (to_store : u64) (l : LeadershipResolver) (region_id : u64) : LeadershipResolver :=
  match progresses l !! region_id with
  | Some prog =>
      if pr_resolved prog then l
      else
        let resps := pr_resps prog ++ [to_store] in
        if region_has_quorum (pr_peers prog) resps then
          set_round l (store_req_map l)
            (<[region_id := {| pr_resolved := true; pr_peers := pr_peers prog; pr_resps := resps |}]> (progresses l))
            ({[region_id]} ∪ valid_regions l)
        else
          set_round l (store_req_map l)
            (<[region_id := {| pr_resolved := false; pr_peers := pr_peers prog; pr_resps := resps |}]> (progresses l))
            (valid_regions l)
  | None => l
  end.

(** The loop over the outcomes, which ends early when no region is left. *)
Fixpoint resolve_answers (l : LeadershipResolver) (outcomes : list check_outcome) : LeadershipResolver :=
  match outcomes with
  | [] => l
  | o :: outcomes =>
      let l := match o with
               | Answered to_store regions => foldl (acknowledge to_store) l regions
               | Failed _ => l
               end in
      if bool_decide (size (progresses l) <= size (valid_regions l))%nat then l else resolve_answers l outcomes
  end.

(** [resolve]; the set of valid regions is drained. *)
Definition LeadershipResolver_resolve (l : LeadershipResolver) (regions : list u64)
    (registry : RegionReadProgressRegistry) (now : instant) (outcomes : list check_outcome)
    : list u64 * LeadershipResolver :=
  match regions with
  | [] => (regions, l)
  | _ =>
      let l := resolve_answers (resolve_start l regions registry now) outcomes in
      (elements (valid_regions l), set_round l (store_req_map l) (progresses l) ∅)
  end.

(** ** The timestamp of the advance worker *)

(** [advance_ts_for_regions] up to the check of leadership: the timestamp of the
    oracle, or zero when it fails, is registered as read and lowered to the oldest
    lock in memory; [None] when it is refused. *)
Definition advance_min_ts (now : Z) (tso : option TimeStamp) (cm : ConcurrencyManager) (get_tso : option TimeStamp)
    : res InvalidMaxTsUpdate (TimeStamp * TsSource) * ConcurrencyManager :=
  let min_ts := default TimeStamp_zero get_tso in
  match update_max_ts now tso cm min_ts with
  | (Ok _, cm) =>
      (Ok match global_min_lock cm with
          | Some (min_mem_lock_ts, lock) =>
              if min_mem_lock_ts <? min_ts then (min_mem_lock_ts, SrcMemoryLock lock) else (min_ts, SrcPdTso)
          | None => (min_ts, SrcPdTso)
          end, cm)
  | (Err e, cm) => (Err e, cm)
  | (Panic, cm) => (Panic, cm)
  end.

(** ** Counting *)

Definition count_if (f : Peer -> bool) (peers : list Peer) : Z := Z.of_nat (length (List.filter f peers)).

Lemma count_if_cons f p peers : count_if f (p :: peers) = (if f p then 1 else 0) + count_if f peers.
Proof. unfold count_if. cbn. destruct (f p); cbn [length]; lia. Qed.

(** The voters of the configuration that is entered, and of the one that is left. *)
Definition incoming (p : Peer) : bool := match peer_role p with Voter | IncomingVoter => true | _ => false end.
Definition outgoing (p : Peer) : bool := match peer_role p with Voter | DemotingVoter => true | _ => false end.

Lemma count_peers stores peers : forall all resp,
  let '(all', resp') := foldl (count_peer stores) (all, resp) peers in
  voters all' + incoming_voters all' = voters all + incoming_voters all + count_if incoming peers
  /\ voters all' + demoting_voters all' = voters all + demoting_voters all + count_if outgoing peers
  /\ voters resp' + incoming_voters resp'
     = voters resp + incoming_voters resp + count_if (fun p => in_resp stores p && incoming p)%bool peers
  /\ voters resp' + demoting_voters resp'
     = voters resp + demoting_voters resp + count_if (fun p => in_resp stores p && outgoing p)%bool peers.
Proof.
  induction peers as [|p peers IH]; intros all resp; cbn [foldl].
  { unfold count_if. cbn. lia. }
  unfold count_peer at 2. specialize (IH (count_role all (peer_role p))
    (if in_resp stores p then count_role resp (peer_role p) else resp)).
  destruct (foldl _ _ _) as [all' resp']. rewrite !count_if_cons. unfold incoming at 1 3, outgoing at 1 3.
  destruct IH as (H1 & H2 & H3 & H4). rewrite H1, H2, H3, H4.
  destruct (in_resp stores p), (peer_role p); cbn; lia.
Qed.

(** A quorum is a majority of either configuration. *)
Lemma region_has_quorum_spec peers stores :
  region_has_quorum peers stores = true <->
  count_if incoming peers / 2 + 1 <= count_if (fun p => in_resp stores p && incoming p)%bool peers
  /\ count_if outgoing peers / 2 + 1 <= count_if (fun p => in_resp stores p && outgoing p)%bool peers.
Proof.
  unfold region_has_quorum. pose proof (count_peers stores peers QuorumCount_zero QuorumCount_zero) as H.
  destruct (foldl _ _ _) as [all resp]. destruct H as (-> & -> & -> & ->). cbn.
  rewrite andb_true_iff, !Z.leb_le. done.
Qed.

(** Two majorities share a member. *)
Lemma majorities_intersect f a b peers :
  count_if f peers / 2 + 1 <= count_if (fun p => a p && f p)%bool peers ->
  count_if f peers / 2 + 1 <= count_if (fun p => b p && f p)%bool peers ->
  exists p, p ∈ peers /\ f p = true /\ a p = true /\ b p = true.
Proof.
  intros Ha Hb.
  assert (count_if (fun p => a p && f p)%bool peers + count_if (fun p => b p && f p)%bool peers
          <= count_if f peers + count_if (fun p => a p && b p && f p)%bool peers) as Hsum.
  { clear. induction peers as [|p peers IH]; [done|]. rewrite !count_if_cons. destruct (a p), (b p), (f p); cbn; lia. }
  assert (0 < count_if (fun p => a p && b p && f p)%bool peers) as Hpos by (Z.div_mod_to_equations; lia).
  unfold count_if in Hpos. destruct (List.filter _ peers) as [|p l] eqn:Hf; [cbn in Hpos; lia|].
  assert (In p (p :: l)) as Hin by (by left). rewrite <-Hf in Hin.
  apply filter_In in Hin as [Hin Hp]. rewrite !andb_true_iff in Hp. exists p. rewrite list_elem_of_In. tauto.
Qed.

Lemma in_resp_elem stores p : in_resp stores p = true -> peer_store_id p ∈ stores.
Proof.
  unfold in_resp. rewrite existsb_exists. intros (s & Hs & ->%Z.eqb_eq). by apply list_elem_of_In.
Qed.

(** Two quorums of a region, whatever the state of a change of its membership,
    share the store of a voter. *)
Lemma quorums_intersect peers stores1 stores2 :
  region_has_quorum peers stores1 = true -> region_has_quorum peers stores2 = true ->
  exists p, p ∈ peers /\ peer_role p <> Learner /\ peer_store_id p ∈ stores1 /\ peer_store_id p ∈ stores2.
Proof.
  rewrite !region_has_quorum_spec. intros [H1 _] [H2 _].
  destruct (majorities_intersect incoming _ _ peers H1 H2) as (p & Hp & Hr & Ha & Hb). exists p.
  split_and!; [done| |by apply in_resp_elem|by apply in_resp_elem]. intros E. unfold incoming in Hr. by rewrite E in Hr.
Qed.

(** ** What a confirmed region means *)

(** A store's view of the region's leader is that of [info]. *)
Definition agrees (registry : RegionReadProgressRegistry) (info : LeaderInfo) : Prop :=
  exists rp, registry !! li_region_id info = Some rp
    /\ lli_leader_term (leader_info (core rp)) = li_term info
    /\ lli_leader_id (leader_info (core rp)) = li_peer_id info
    /\ is_region_epoch_equal (lli_epoch (leader_info (core rp))) (li_region_epoch info) = true.

(** A registry knows each region by its identifier, and the store of a leader
    from the region's peers. *)
Definition progress_ok (id : u64) (rp : RegionReadProgress) : Prop :=
  core_region_id (core rp) = id
  /\ forall s, lli_leader_store_id (leader_info (core rp)) = Some s ->
       find_store_id (lli_peers (leader_info (core rp))) (lli_leader_id (leader_info (core rp))) = Some s.

Definition registry_ok (registry : RegionReadProgressRegistry) : Prop :=
  forall id rp, registry !! id = Some rp -> progress_ok id rp.

(** Publishing changes neither. *)
Definition same_leader (c c' : RegionReadProgressCore) : Prop :=
  leader_info c' = leader_info c /\ core_region_id c' = core_region_id c.

Lemma Core_update_safe_ts_leader c idx ts now : same_leader c (snd (Core_update_safe_ts c idx ts now)).
Proof.
  unfold Core_update_safe_ts. set (c0 := if later_instant _ _ then _ else _).
  assert (same_leader c c0) as [El Er] by (subst c0; by case_match). clearbody c0.
  unfold same_leader. rewrite <-El, <-Er. by repeat case_match.
Qed.

Lemma consume_leader_info_leader rp info now same rp' events :
  consume_leader_info rp info now = (same, rp', events) ->
  same_leader (core rp) (core rp')
  /\ same = ((lli_leader_term (leader_info (core rp)) =? li_term info)
             && (lli_leader_id (leader_info (core rp)) =? li_peer_id info)
             && is_region_epoch_equal (lli_epoch (leader_info (core rp))) (li_region_epoch info))%bool.
Proof.
  unfold consume_leader_info. set (c0 := if later_instant _ _ then _ else _).
  assert (same_leader (core rp) c0) as Hc0 by (subst c0; by case_match). clearbody c0.
  set (out := match li_read_state info with Some _ => _ | None => _ end).
  assert (same_leader (core rp) (core out.1)) as Hout.
  { subst out. case_match; [|done]. cbn [fst]. case_match; [|done]. rewrite store_safe_ts_core.
    destruct (Core_update_safe_ts_leader c0 (rs_idx r) (rs_ts r) now), Hc0. split; congruence. }
  destruct out as [rp1 ev]. intros [= <- <- _]. split; [done|]. destruct Hout as [E _]. cbn in E. by rewrite E.
Qed.

Lemma update_leader_info_ok rid rp id term region :
  progress_ok rid rp -> progress_ok rid (update_leader_info rp id term region).
Proof. intros [H1 _]. split; [done|]. intros s. done. Qed.

Lemma new_progress_ok region applied cap id : progress_ok (region_id region) (RegionReadProgress_new region applied cap id).
Proof. by split. Qed.

Lemma consume_progress_ok rid rp info now same rp' events :
  progress_ok rid rp -> consume_leader_info rp info now = (same, rp', events) -> progress_ok rid rp'.
Proof. intros [H1 H2] [[Hl Hr] _]%consume_leader_info_leader. unfold progress_ok. by rewrite Hl, Hr. Qed.

Lemma agrees_insert registry rp rp' info info' :
  registry !! li_region_id info' = Some rp -> same_leader (core rp) (core rp') ->
  agrees (<[li_region_id info' := rp']> registry) info -> agrees registry info.
Proof.
  intros Hrp [Hl _] (rp1 & H1 & H2). destruct (decide (li_region_id info = li_region_id info')) as [E|E].
  - rewrite E, lookup_insert_eq in H1. injection H1 as <-. exists rp. by rewrite E, <-Hl.
  - rewrite lookup_insert_ne in H1 by done. by exists rp1.
Qed.

(** A store answers with the regions whose leader it agrees on. *)
Lemma handle_check_leaders_agree leaders : forall registry now r,
  r ∈ (handle_check_leaders registry leaders now).1.1 ->
  exists info, info ∈ leaders /\ li_region_id info = r /\ agrees registry info.
Proof.
  induction leaders as [|info leaders IH]; intros registry now r; cbn [handle_check_leaders].
  { by intros ?%not_elem_of_nil. }
  destruct (registry !! li_region_id info) as [rp|] eqn:Hrp.
  - destruct (consume_leader_info rp info now) as [[same rp'] ev] eqn:Hc.
    apply consume_leader_info_leader in Hc as [Hl ->].
    specialize (IH (<[li_region_id info := rp']> registry) now r).
    destruct (handle_check_leaders _ leaders now) as [[regions reg'] ev']. cbn [fst] in *.
    intros [Hin|Hin]%elem_of_app.
    + case_match eqn:E; [|by apply not_elem_of_nil in Hin]. apply list_elem_of_singleton in Hin as ->.
      rewrite !andb_true_iff, !Z.eqb_eq in E. exists info. split_and!; [by left|done|]. exists rp. tauto.
    + destruct (IH Hin) as (i & Hi & Hr & Ha). exists i. split_and!; [by right|done|].
      by apply (agrees_insert registry rp rp' i info).
  - intros Hin. destruct (IH _ _ _ Hin) as (i & Hi & Hr & Ha). exists i. split_and!; [by right|done|done].
Qed.

(** ** One round *)

Section round.
(** The store, its registry at the start of the round, and who has acknowledged
    which region. *)
Context (me : u64) (registry : RegionReadProgressRegistry) (ok : u64 -> u64 -> Prop).
Hypothesis self_ok : forall r rp, registry !! r = Some rp -> ok r me.

Definition led_here (r : u64) (rp : RegionReadProgress) : Prop :=
  registry !! r = Some rp /\ lli_leader_store_id (leader_info (core rp)) = Some me.

Definition touched (r : u64) (p : RegionProgress) : Prop :=
  exists rp, led_here r rp /\ (forall w, w ∈ pr_resps p -> ok r w)
    /\ (pr_resolved p = false -> pr_peers p = lli_peers (leader_info (core rp))).

Definition confirmed (r : u64) : Prop :=
  exists rp acks, led_here r rp /\ region_has_quorum (lli_peers (leader_info (core rp))) acks = true
    /\ forall w, w ∈ acks -> ok r w.

(** The requests carry the leaders that are in this store. *)
Definition requests_ok (reqs : gmap u64 (list LeaderInfo)) : Prop :=
  forall w infos info, reqs !! w = Some infos -> info ∈ infos ->
    exists r rp, led_here r rp /\ info = get_leader_info (core rp).

Record starting (todo : list u64) (l : LeadershipResolver) : Prop := {
  sg_me : lr_store_id l = me;
  sg_progress : forall r p, progresses l !! r = Some p -> p = RegionProgress_new \/ ((r ∉ todo) /\ touched r p);
  sg_valid : forall r, r ∈ valid_regions l -> confirmed r;
  sg_requests : requests_ok (store_req_map l)
}.

Lemma check_peers_spec leader_id info peers : forall acc,
  let acc' := foldl (check_peer me leader_id info) acc peers in
  (forall w, w ∈ pl_resps acc' -> w ∈ pl_resps acc \/ w = me)
  /\ (forall w infos i, pl_reqs acc' !! w = Some infos -> i ∈ infos ->
        (exists infos0, pl_reqs acc !! w = Some infos0 /\ i ∈ infos0) \/ i = info).
Proof.
  induction peers as [|p peers IH]; intros acc; cbn [foldl]; [split; eauto|].
  destruct (IH (check_peer me leader_id info acc p)) as [H1 H2]. split.
  - intros w Hw. apply H1 in Hw as [Hw | ->]; [|by right]. revert Hw. unfold check_peer. case_match; cbn; [|by left].
    intros [?|?%list_elem_of_singleton]%elem_of_app; auto.
  - intros w infos i Hw Hi. destruct (H2 w infos i Hw Hi) as [(infos0 & Hw0 & Hi0)|?]; [|by right].
    revert Hw0. unfold check_peer. case_match; cbn; [eauto|].
    rewrite lookup_insert_Some. intros [[-> <-]|[_ Hw0]]; [|eauto].
    apply elem_of_app in Hi0 as [Hi0|Hi0%list_elem_of_singleton]; [|by right].
    destruct (pl_reqs acc !! w) as [l0|]; [eauto|by apply not_elem_of_nil in Hi0].
Qed.

Lemma check_region_starting l r rp todo :
  registry !! r = Some rp -> r ∉ todo -> starting (r :: todo) l -> starting todo (check_region l (r, rp)).
Proof.
  intros Hrp Hnew [Hme Hp Hv Hr]. cbn [check_region].
  assert (starting todo l) as Hskip.
  { split; try done. intros r' p' Hp'. destruct (Hp r' p' Hp') as [?|[Hnot ?]]; [by left|right].
    split; [set_solver|done]. }
  case_decide; [|done]. case_decide as Hhere; [|done]. rewrite Hme in Hhere.
  assert (led_here r rp) as Hled by done.
  assert (default RegionProgress_new (progresses l !! r) = RegionProgress_new) as ->.
  { destruct (progresses l !! r) as [p|] eqn:E; [|done]. destruct (Hp r p E) as [-> |[Hn _]]; [done|set_solver]. }
  rewrite Hme.
  match goal with |- context [foldl ?f ?a ?ps] => pose proof (check_peers_spec (lli_leader_id (leader_info (core rp)))
    (get_leader_info (core rp)) ps a) as Hfold; set (acc := foldl f a ps) in * end.
  destruct Hfold as [Hresps Hreqs]. cbn in Hresps, Hreqs.
  assert (forall w, w ∈ pl_resps acc -> ok r w) as Hok.
  { intros w Hw. destruct (Hresps w Hw) as [?%not_elem_of_nil | ->]; [done|by eapply self_ok]. }
  assert (requests_ok (pl_reqs acc)) as Hreq'.
  { intros w infos i Hw Hi. destruct (Hreqs w infos i Hw Hi) as [(infos0 & H1 & H2) | ->]; [by eapply Hr|by exists r, rp]. }
  assert (forall p r' p', touched r p -> <[r := p]> (progresses l) !! r' = Some p' ->
    p' = RegionProgress_new \/ ((r' ∉ todo) /\ touched r' p')) as Hins.
  { intros p r' p' Ht. rewrite lookup_insert_Some. intros [[<- <-]|[Hne Hp']]; [by right|].
    destruct (Hp r' p' Hp') as [?|[Hn ?]]; [by left|right]. split; [set_solver|done]. }
  case_match eqn:Hq.
  - apply andb_true_iff in Hq as [_ Hq]. split; cbn; [done| | |done].
    + intros r' p'. apply Hins. by exists rp.
    + intros r' [-> %elem_of_singleton|?]%elem_of_union; [by exists rp, (pl_resps acc)|by apply Hv].
  - split; cbn; [done| |done|done]. intros r' p'. apply Hins. by exists rp.
Qed.

Lemma check_regions_starting entries : forall l,
  NoDup entries.*1 -> (forall r rp, (r, rp) ∈ entries -> registry !! r = Some rp) ->
  starting entries.*1 l -> starting [] (foldl check_region l entries).
Proof.
  induction entries as [|[r rp] entries IH]; intros l Hnd Hin Hst; cbn [foldl]; [done|].
  cbn in Hnd. apply NoDup_cons in Hnd as [Hr Hnd]. apply IH; [done|set_solver|].
  apply check_region_starting; [apply Hin; by left|done|done].
Qed.

Lemma resolve_start_starting l regions now :
  lr_store_id l = me -> starting [] (resolve_start l regions registry now).
Proof.
  intros Hme. apply check_regions_starting.
  - apply NoDup_fst_map_to_list.
  - intros r rp. by apply elem_of_map_to_list.
  - unfold LeadershipResolver_gc. case_match; split; cbn; try done.
    + intros r p Hp. rewrite lookup_fmap in Hp. destruct (progresses l !! r); [|done]. injection Hp as <-. by left.
    + intros w infos i Hw. rewrite lookup_fmap in Hw. destruct (store_req_map l !! w); [|done]. injection Hw as <-.
      by intros ?%not_elem_of_nil.
Qed.

(** While the answers arrive. *)
Record answering (l : LeadershipResolver) : Prop := {
  an_progress : forall r p, progresses l !! r = Some p ->
    (pr_peers p = [] /\ pr_resolved p = false) \/ touched r p;
  an_valid : forall r, r ∈ valid_regions l -> confirmed r
}.

Lemma no_peers_no_quorum stores : region_has_quorum [] stores = false.
Proof. done. Qed.

Lemma acknowledge_answering w l r : ok r w -> answering l -> answering (acknowledge w l r).
Proof.
  intros Hok [Hp Hv]. unfold acknowledge. destruct (progresses l !! r) as [p|] eqn:E; [|done].
  destruct (pr_resolved p) eqn:Hres; [done|]. destruct (Hp r p E) as [[Hnil _]|(rp & Hled & Hacks & Hpeers)].
  - rewrite Hnil, no_peers_no_quorum. split; cbn; [|done]. intros r' p'. rewrite lookup_insert_Some.
    intros [[<- <-]|[_ ?]]; [by left|by apply Hp].
  - specialize (Hpeers Hres).
    assert (forall w', w' ∈ pr_resps p ++ [w] -> ok r w') as Hacks'.
    { intros w' [?|?%list_elem_of_singleton]%elem_of_app; [by apply Hacks|by subst]. }
    case_match eqn:Hq; split; cbn; try done.
    + intros r' p'. rewrite lookup_insert_Some. intros [[<- <-]|[_ ?]]; [|by apply Hp]. right. by exists rp.
    + intros r' [-> %elem_of_singleton|?]%elem_of_union; [|by apply Hv].
      exists rp, (pr_resps p ++ [w]). by rewrite <-Hpeers.
    + intros r' p'. rewrite lookup_insert_Some. intros [[<- <-]|[_ ?]]; [|by apply Hp]. right. by exists rp.
Qed.

Lemma resolve_answers_answering outcomes : forall l,
  (forall w rs r, Answered w rs ∈ outcomes -> r ∈ rs -> ok r w) -> answering l ->
  answering (resolve_answers l outcomes).
Proof.
  induction outcomes as [|o outcomes IH]; intros l Hok Hl; cbn [resolve_answers]; [done|].
  match goal with |- context [bool_decide (size (progresses ?x) <= _)%nat] => set (l1 := x) end.
  assert (answering l1) as Hl1.
  { subst l1. destruct o as [w rs|]; [|done]. specialize (Hok w rs).
    assert (forall r, r ∈ rs -> ok r w) as Hrs by (intros r Hr; apply Hok; [by left|done]). clear Hok IH.
    revert l Hl Hrs. induction rs as [|r rs IHrs]; intros l Hl Hrs; cbn [foldl]; [done|].
    apply IHrs; [apply acknowledge_answering; [apply Hrs; by left|done]|set_solver]. }
  case_match; [done|]. apply IH; [|done]. intros w rs r Hin. apply Hok. by right.
Qed.

(** A region is returned only when its leader is here and a quorum of its stores
    have acknowledged it. *)
Lemma resolve_acknowledged l regions now outcomes r :
  lr_store_id l = me -> regions <> [] -> (forall w rs r, Answered w rs ∈ outcomes -> r ∈ rs -> ok r w) ->
  r ∈ (LeadershipResolver_resolve l regions registry now outcomes).1 -> confirmed r.
Proof.
  intros Hme Hne Hok. destruct regions as [|r0 regions]; [done|]. cbn [LeadershipResolver_resolve fst].
  rewrite elem_of_elements. apply an_valid. apply resolve_answers_answering; [done|].
  destruct (resolve_start_starting l (r0 :: regions) now Hme) as [_ Hp Hv _]. split; [|done].
  intros r' p Hr'. destruct (Hp r' p Hr') as [-> |[_ ?]]; [by left|by right].
Qed.

End round.

(** ** Rounds in a cluster *)

(** The registries of the stores as time goes by. *)
Abbreviation world := (nat -> u64 -> RegionReadProgressRegistry).

(** A round of a store's resolver: when it starts, when its last answer is given,
    and what it receives. *)
Record Round : Type := {
  rd_resolver : LeadershipResolver;
  rd_regions : list u64;
  rd_now : instant;
  rd_start : nat;
  rd_end : nat;
  rd_outcomes : list check_outcome
}.

Section cluster.
Context (w : world).

Definition rd_store (rd : Round) : u64 := lr_store_id (rd_resolver rd).
Definition rd_registry (rd : Round) : RegionReadProgressRegistry := w (rd_start rd) (rd_store rd).

Definition rd_result (rd : Round) : list u64 :=
  (LeadershipResolver_resolve (rd_resolver rd) (rd_regions rd) (rd_registry rd) (rd_now rd) (rd_outcomes rd)).1.

(** The answers are those of the stores that were asked, or empty. *)
Definition honest (rd : Round) : Prop :=
  rd_regions rd <> [] /\ (rd_start rd <= rd_end rd)%nat
  /\ forall s rs, Answered s rs ∈ rd_outcomes rd -> rs <> [] ->
       exists infos t now, (rd_start rd <= t <= rd_end rd)%nat
         /\ (s, infos) ∈ requests (resolve_start (rd_resolver rd) (rd_regions rd) (rd_registry rd) (rd_now rd))
         /\ rs = (handle_check_leaders (w t s) infos now).1.1.

(** A store has agreed, during the round, with the view of the store that asks. *)
Definition agreed (rd : Round) (r s : u64) : Prop :=
  exists rp t, rd_registry rd !! r = Some rp /\ (rd_start rd <= t <= rd_end rd)%nat
    /\ agrees (w t s) (get_leader_info (core rp)).

Hypothesis world_ok : forall t s, registry_ok (w t s).

Lemma agrees_self rd r rp : rd_registry rd !! r = Some rp -> agrees (rd_registry rd) (get_leader_info (core rp)).
Proof.
  intros Hrp. exists rp. cbn. split_and!; [|done..|].
  - by rewrite (proj1 (world_ok _ _ r rp Hrp)).
  - unfold is_region_epoch_equal. by rewrite !Z.eqb_refl.
Qed.

Lemma honest_agreed rd s rs r :
  honest rd -> Answered s rs ∈ rd_outcomes rd -> r ∈ rs -> agreed rd r s.
Proof.
  intros (Hne & Hle & Hh) Hin Hr.
  destruct (Hh s rs Hin) as (infos & t & now & Ht & Hreq & ->); [by intros -> ; apply not_elem_of_nil in Hr|].
  apply handle_check_leaders_agree in Hr as (info & Hinfo & <- & Hag).
  unfold requests in Hreq. apply list_elem_of_filter in Hreq as [_ Hreq%elem_of_map_to_list].
  destruct (sg_requests _ _ (fun _ _ => True) _ _
    (resolve_start_starting (rd_store rd) (rd_registry rd) _ (fun _ _ _ => I) _ (rd_regions rd) (rd_now rd) eq_refl)
    s infos info Hreq Hinfo) as (r' & rp & [Hrp _] & ->).
  exists rp, t. cbn. rewrite (proj1 (world_ok _ _ r' rp Hrp)). done.
Qed.

(** What a round has established of a region it returns. *)
Lemma round_confirmed rd r :
  honest rd -> r ∈ rd_result rd ->
  exists rp acks, led_here (rd_store rd) (rd_registry rd) r rp
    /\ region_has_quorum (lli_peers (leader_info (core rp))) acks = true
    /\ forall s, s ∈ acks -> exists t, (rd_start rd <= t <= rd_end rd)%nat /\ agrees (w t s) (get_leader_info (core rp)).
Proof.
  intros Hh Hr. pose proof Hh as (Hne & Hle & _).
  apply (resolve_acknowledged (rd_store rd) (rd_registry rd) (agreed rd)) in Hr as (rp & acks & Hled & Hq & Hack);
    [| |done|done|].
  - exists rp, acks. split_and!; try done. intros s Hs. destruct (Hack s Hs) as (rp' & t & Hrp' & Ht & Hag).
    exists t. split; [done|]. destruct Hled as [Hrp _]. by assert (rp' = rp) as -> by congruence.
  - intros r' rp Hrp. exists rp, (rd_start rd). split_and!; [done|done|done|]. by apply (agrees_self rd r').
  - intros s rs r' Hin Hr'. by apply (honest_agreed rd s rs r').
Qed.

(** What Raft promises of a store's view: terms do not fall, and a term has one
    leader. *)
Definition raft_views : Prop := forall t t' s r rp rp',
  (t <= t')%nat -> w t s !! r = Some rp -> w t' s !! r = Some rp' ->
  lli_leader_term (leader_info (core rp)) <= lli_leader_term (leader_info (core rp'))
  /\ (lli_leader_term (leader_info (core rp)) = lli_leader_term (leader_info (core rp')) ->
      lli_leader_id (leader_info (core rp)) <> INVALID_ID -> lli_leader_id (leader_info (core rp')) <> INVALID_ID ->
      lli_leader_id (leader_info (core rp)) = lli_leader_id (leader_info (core rp'))).

Lemma agrees_order t t' s r rp rp' :
  raft_views -> (t <= t')%nat -> core_region_id (core rp) = r -> core_region_id (core rp') = r ->
  agrees (w t s) (get_leader_info (core rp)) -> agrees (w t' s) (get_leader_info (core rp')) ->
  lli_leader_term (leader_info (core rp)) <= lli_leader_term (leader_info (core rp'))
  /\ (lli_leader_term (leader_info (core rp)) = lli_leader_term (leader_info (core rp')) ->
      lli_leader_id (leader_info (core rp)) <> INVALID_ID -> lli_leader_id (leader_info (core rp')) <> INVALID_ID ->
      lli_leader_id (leader_info (core rp)) = lli_leader_id (leader_info (core rp'))).
Proof.
  intros Hraft Ht Hr Hr' (v & Hv & E1 & E2 & _) (v' & Hv' & E3 & E4 & _). cbn in *.
  rewrite Hr in Hv. rewrite Hr' in Hv'. rewrite <-E1, <-E2, <-E3, <-E4. by apply (Hraft t t' s r).
Qed.

End cluster.

(** C20. A superseded leader is not confirmed any more.  Two rounds of any two
    stores, the second starting after the answers of the first, with the answers
    that the stores' own [handle_check_leaders] give at any time during the
    rounds, some of them lost and in any order.  If both return a region whose
    peers are the same, then the leader of the second round has no smaller term;
    and in the same term it is the same peer in the same store.  So after a new
    leader has resolved a timestamp, no old leader that still believes in itself
    resolves one. *)
Theorem superseded_not_confirmed (w : world) rd1 rd2 r rp1 rp2 :
  (forall t s, registry_ok (w t s)) -> raft_views w -> honest w rd1 -> honest w rd2 ->
  (rd_end rd1 <= rd_start rd2)%nat ->
  r ∈ rd_result w rd1 -> r ∈ rd_result w rd2 ->
  rd_registry w rd1 !! r = Some rp1 -> rd_registry w rd2 !! r = Some rp2 ->
  lli_peers (leader_info (core rp1)) = lli_peers (leader_info (core rp2)) ->
  lli_leader_term (leader_info (core rp1)) <= lli_leader_term (leader_info (core rp2))
  /\ (lli_leader_term (leader_info (core rp1)) = lli_leader_term (leader_info (core rp2)) ->
      lli_leader_id (leader_info (core rp1)) <> INVALID_ID -> lli_leader_id (leader_info (core rp2)) <> INVALID_ID ->
      lli_leader_id (leader_info (core rp1)) = lli_leader_id (leader_info (core rp2))
      /\ rd_store rd1 = rd_store rd2).
Proof.
  intros Hw Hraft H1 H2 Hord Hr1 Hr2 Hrp1 Hrp2 Hpeers.
  destruct (round_confirmed w Hw rd1 r H1 Hr1) as (rp & acks1 & [Hrp Hs1] & Hq1 & Hack1).
  assert (rp = rp1) as -> by congruence. clear Hrp.
  destruct (round_confirmed w Hw rd2 r H2 Hr2) as (rp & acks2 & [Hrp Hs2] & Hq2 & Hack2).
  assert (rp = rp2) as -> by congruence. clear Hrp.
  rewrite Hpeers in Hq1. destruct (quorums_intersect _ _ _ Hq1 Hq2) as (p & _ & _ & Hp1 & Hp2).
  destruct (Hack1 _ Hp1) as (t1 & Ht1 & Hag1), (Hack2 _ Hp2) as (t2 & Ht2 & Hag2).
  destruct (Hw _ _ r rp1 Hrp1) as [Hid1 Hst1], (Hw _ _ r rp2 Hrp2) as [Hid2 Hst2].
  destruct (agrees_order w t1 t2 (peer_store_id p) r rp1 rp2 Hraft) as [Hle Hsame]; [lia|done..|].
  split; [done|]. intros Ht Hv1 Hv2. specialize (Hsame Ht Hv1 Hv2). split; [done|].
  specialize (Hst1 _ Hs1). specialize (Hst2 _ Hs2). congruence.
Qed.

(** Three stores; the peer of the second one replaces that of the first. *)
Definition trio : MetaRegion :=
  {| region_id := 1; region_epoch := {| conf_ver := 1; epoch_version := 1 |};
     region_peers := map (fun i => {| peer_id := i; peer_store_id := i; peer_role := Voter; peer_is_witness := false |})
                       [1; 2; 3] |}.

Definition trio_world : world := fun t s =>
  {[ 1 := if (t <? 10)%nat then update_leader_info (RegionReadProgress_new trio 5 8 s) 1 5 trio
          else update_leader_info (RegionReadProgress_new trio 5 8 s) 2 6 trio ]}.

Definition trio_round (s : u64) (start : nat) (outcomes : list check_outcome) : Round :=
  {| rd_resolver := LeadershipResolver_new s 60 0; rd_regions := [1]; rd_now := 1; rd_start := start;
     rd_end := S start; rd_outcomes := outcomes |}.

Lemma trio_world_ok t s : registry_ok (trio_world t s).
Proof.
  intros id rp. unfold trio_world. case_match; intros [<- <-]%lookup_singleton_Some;
    apply update_leader_info_ok, (new_progress_ok trio).
Qed.

Lemma trio_raft : raft_views trio_world.
Proof.
  intros t t' s r rp rp' Hle. unfold trio_world.
  destruct (Nat.ltb_spec t 10), (Nat.ltb_spec t' 10); try lia;
    intros [_ <-]%lookup_singleton_Some [_ <-]%lookup_singleton_Some; vm_compute; split; congruence.
Qed.

Lemma trio_honest s start o :
  s ∈ [1; 2] -> start = 0%nat \/ start = 10%nat -> o = 3 ->
  (start = 0%nat -> s = 1) -> (start = 10%nat -> s = 2) ->
  honest trio_world (trio_round s start [Failed (3 - s); Answered o [1]]).
Proof.
  intros Hs Hst -> H1 H2. split_and!; [done|cbn; lia|]. intros s' rs Hin Hne.
  assert (s' = 3 /\ rs = [1]) as [-> ->].
  { cbn in Hin. apply elem_of_cons in Hin as [?|Hin%list_elem_of_singleton]; [done|by injection Hin]. }
  destruct Hst as [-> | ->]; [rewrite (H1 eq_refl)|rewrite (H2 eq_refl)];
    [exists [get_leader_info (core (update_leader_info (RegionReadProgress_new trio 5 8 1) 1 5 trio))], 0%nat, None
    |exists [get_leader_info (core (update_leader_info (RegionReadProgress_new trio 5 8 2) 2 6 trio))], 10%nat, None];
    (split; [cbn; lia|split; [|vm_compute; reflexivity]]);
    apply list_elem_of_filter; (split; [done|]); apply elem_of_map_to_list; vm_compute; reflexivity.
Qed.

Lemma superseded_not_confirmed_witness :
  let rd1 := trio_round 1 0 [Failed 2; Answered 3 [1]] in
  let rd2 := trio_round 2 10 [Failed 1; Answered 3 [1]] in
  rd_result trio_world rd1 = [1] /\ rd_result trio_world rd2 = [1] /\ 5 <= 6.
Proof.
  intros rd1 rd2. split_and!; [vm_compute; reflexivity..|].
  pose proof (superseded_not_confirmed trio_world rd1 rd2 1
    (update_leader_info (RegionReadProgress_new trio 5 8 1) 1 5 trio)
    (update_leader_info (RegionReadProgress_new trio 5 8 2) 2 6 trio) trio_world_ok trio_raft) as H.
  refine (proj1 (H _ _ _ _ _ eq_refl eq_refl eq_refl)).
  - apply (trio_honest 1 0 3); [set_solver|by left|done|done|done].
  - apply (trio_honest 2 10 3); [set_solver|by right|done|done|done].
  - cbn. lia.
  - apply list_elem_of_lookup_2 with 0%nat. vm_compute. reflexivity.
  - apply list_elem_of_lookup_2 with 0%nat. vm_compute. reflexivity.
Defined.
