(* ===== verification/RtsEndpoint.v ===== *)
(** * The endpoint of resolved timestamps

    [Endpoint] of [components/resolved_ts/src/endpoint.rs]: the observed regions
    of a store, one task at a time.  Registered scans are collected in a list for
    the scanner pool; [StoreMeta::reader] is an argument of the tasks that ask for
    it.  The read progress of a region is shared with the raft store: a region
    holds the address of the one that was registered when it was.  A handle is its
    identifier; the handles that have been stopped are a set.  Diagnosis, metrics
    and the notification of the advance worker change nothing here and are not
    modelled.

    Theorems: whatever the tasks, the memory quota never counts less than the
    regions hold, and never more than the largest capacity it was given
    ([endpoint_memory_covered]); what was observed under a handle that has been
    stopped is ignored for ever ([stopped_handle_ignored]). *)

From Stdlib Require Import ZArith Lia.
From stdpp Require Import base numbers list gmap sets relations.
From S2P Require Import Prelude Types Lock ReadProgress Resolver ChangeLog ResolvedTs.

Open Scope Z_scope.

(** ** State *)

Record ScanTask : Type := { sc_handle : u64; sc_region : MetaRegion; sc_backoff : option Z }.

(** The address of a [RegionReadProgress]. *)
Definition rrp_ref : Type := nat.

Record Endpoint : Type := {
  ep_regions : gmap u64 (ObserveRegion * rrp_ref);
  ep_quota : MemoryQuota;
  ep_read_progress : gmap u64 rrp_ref;
  ep_progress : gmap rrp_ref RegionReadProgress;
  ep_next_id : u64;
  ep_stopped : gset u64;
  ep_scans : list ScanTask
}.

(** [Endpoint::new]; identifiers are drawn from a counter of the process. *)
Definition Endpoint_new (memory_quota : u64) (next_id : u64) : Endpoint :=
  {| ep_regions := ∅; ep_quota := MemoryQuota_new memory_quota; ep_read_progress := ∅; ep_progress := ∅;
     ep_next_id := next_id; ep_stopped := ∅; ep_scans := [] |}.

Definition set_regions (ep : Endpoint) (regions : gmap u64 (ObserveRegion * rrp_ref)) (q : MemoryQuota) : Endpoint :=
  {| ep_regions := regions; ep_quota := q; ep_read_progress := ep_read_progress ep; ep_progress := ep_progress ep;
     ep_next_id := ep_next_id ep; ep_stopped := ep_stopped ep; ep_scans := ep_scans ep |}.

Definition set_progress (ep : Endpoint) (progress : gmap rrp_ref RegionReadProgress) : Endpoint :=
  {| ep_regions := ep_regions ep; ep_quota := ep_quota ep; ep_read_progress := ep_read_progress ep;
     ep_progress := progress; ep_next_id := ep_next_id ep; ep_stopped := ep_stopped ep; ep_scans := ep_scans ep |}.

(** ** Handlers *)

(** Handlers return nothing; they may panic. *)
Abbreviation ep_res := (res Empty_set Endpoint).

(** [Duration::from_secs(30)], in seconds. *)
Definition MEMORY_QUOTA_EXCEEDED_BACKOFF : Z := 30.

Definition register_region (ep : Endpoint) (region : MetaRegion) (backoff : option Z) : ep_res :=
  let id := region_id region in
  _ ← assert_ (bool_decide (ep_regions ep !! id = None));
  match ep_read_progress ep !! id with
  | None => Ok ep
  | Some read_progress =>
      let handle := ep_next_id ep in
      Ok {| ep_regions := <[id := (ObserveRegion_new region handle, read_progress)]> (ep_regions ep);
            ep_quota := ep_quota ep; ep_read_progress := ep_read_progress ep; ep_progress := ep_progress ep;
            ep_next_id := handle + 1; ep_stopped := ep_stopped ep;
            ep_scans := ep_scans ep ++ [{| sc_handle := handle; sc_region := region; sc_backoff := backoff |}] |}
  end.

(** The region is dropped at the end. *)
Definition deregister_region (ep : Endpoint) (id : u64) : Endpoint :=
  match ep_regions ep !! id with
  | Some (observe_region, _) =>
      {| ep_regions := delete id (ep_regions ep); ep_quota := ObserveRegion_drop observe_region (ep_quota ep);
         ep_read_progress := ep_read_progress ep; ep_progress := ep_progress ep; ep_next_id := ep_next_id ep;
         ep_stopped := {[ob_handle_id observe_region]} ∪ ep_stopped ep; ep_scans := ep_scans ep |}
  | None => ep
  end.

Definition set_meta (o : ObserveRegion) (meta : MetaRegion) : ObserveRegion :=
  {| ob_meta := meta; ob_handle_id := ob_handle_id o; ob_resolver := ob_resolver o; ob_status := ob_status o |}.

Definition region_updated (ep : Endpoint) (incoming_region : MetaRegion) : ep_res :=
  let id := region_id incoming_region in
  match ep_regions ep !! id with
  | Some (obs_region, rrp) =>
      if epoch_version (region_epoch (ob_meta obs_region)) =? epoch_version (region_epoch incoming_region)
      then Ok (set_regions ep (<[id := (set_meta obs_region incoming_region, rrp)]> (ep_regions ep)) (ep_quota ep))
      else register_region (deregister_region ep id) incoming_region None
  | None => Ok ep
  end.

(** Whether [compare_region_epoch] succeeds. *)
Definition compare_region_epoch (from_epoch : RegionEpoch) (region : MetaRegion) (check_conf_ver check_ver : bool) : bool :=
  let current_epoch := region_epoch region in
  negb ((check_conf_ver && negb (conf_ver from_epoch =? conf_ver current_epoch))
        || (check_ver && negb (epoch_version from_epoch =? epoch_version current_epoch)))%bool.

Definition region_destroyed (ep : Endpoint) (region : MetaRegion) : Endpoint :=
  match ep_regions ep !! region_id region with
  | Some (observe_region, _) =>
      if compare_region_epoch (region_epoch (ob_meta observe_region)) region true true
      then deregister_region ep (region_id region) else ep
  | None => ep
  end.

(** [reader] is [store_meta.reader], the region as the store knows it. *)
Definition re_register_region (reader : u64 -> option MetaRegion) (ep : Endpoint) (id observe_id : u64)
    (backoff : option Z) : ep_res :=
  match ep_regions ep !! id with
  | Some (observe_region, _) =>
      if ob_handle_id observe_region =? observe_id then
        let ep := deregister_region ep id in
        match reader id with
        | Some region => register_region ep region backoff
        | None => Ok ep
        end
      else Ok ep
  | None => Ok ep
  end.

(** One turn of [handle_resolved_ts_advanced]: the read progress that the region
    holds is advanced. *)
Definition resolve_region (txn_status : TimeStamp -> option TxnState) (now : option instant) (ts : TimeStamp)
    (ts_source : TsSource) (ep : Endpoint) (id : u64) : ep_res :=
  match ep_regions ep !! id with
  | Some (observe_region, ref) =>
      match ob_status observe_region, ep_progress ep !! ref with
      | StReady, Some rrp =>
          '(_, resolver, rrp) ← resolve txn_status (ob_resolver observe_region) rrp ts now ts_source;
          Ok (set_progress
                (set_regions ep (<[id := (set_resolver observe_region resolver, ref)]> (ep_regions ep)) (ep_quota ep))
                (<[ref := rrp]> (ep_progress ep)))
      | _, _ => Ok ep
      end
  | None => Ok ep
  end.

(** A loop of a handler over its arguments. *)
Fixpoint fold_tasks {A} (f : Endpoint -> A -> ep_res) (ep : Endpoint) (l : list A) : ep_res :=
  match l with
  | [] => Ok ep
  | x :: l => ep ← f ep x; fold_tasks f ep l
  end.

Definition handle_resolved_ts_advanced (txn_status : TimeStamp -> option TxnState) (now : option instant)
    (ep : Endpoint) (regions : list u64) (ts : TimeStamp) (ts_source : TsSource) : ep_res :=
  fold_tasks (resolve_region txn_status now ts ts_source) ep regions.

(** What the endpoint uses of a [CmdBatch]. *)
Record CmdBatch : Type := { cb_rts_id : u64; cb_region_id : u64; cb_cmds : list (Cmd unit) }.

(** Runs a method of an observed region; its error is returned. *)
Definition on_region (ep : Endpoint) (id : u64) (observe_region : ObserveRegion) (ref : rrp_ref)
    (m : st_res obs_state rts_error unit) : res Empty_set (option rts_error * Endpoint) :=
  let '(r, (o, q)) := m (observe_region, ep_quota ep) in
  let ep := set_regions ep (<[id := (o, ref)]> (ep_regions ep)) q in
  match r with
  | Ok _ => Ok (None, ep)
  | Err e => Ok (Some e, ep)
  | Panic => Panic
  end.

Definition backoff_of (e : rts_error) : option Z :=
  match e with RtsMemoryQuotaExceeded => Some MEMORY_QUOTA_EXCEEDED_BACKOFF | RtsOther => None end.

(** [encode_change_log] asserts that the batch is of the region. *)
Definition handle_batch (reader : u64 -> option MetaRegion) (ep : Endpoint) (batch : CmdBatch) : ep_res :=
  match cb_cmds batch with
  | [] => Ok ep
  | cmds =>
      match ep_regions ep !! cb_region_id batch with
      | Some (observe_region, ref) =>
          if ob_handle_id observe_region =? cb_rts_id batch then
            _ ← assert_ (region_id (ob_meta observe_region) =? cb_region_id batch);
            logs ← encode_change_log cmds;
            '(error, ep) ← on_region ep (cb_region_id batch) observe_region ref (track_change_log logs);
            match error with
            | Some e => re_register_region reader ep (cb_region_id batch) (cb_rts_id batch) (backoff_of e)
            | None => Ok ep
            end
          else Ok ep
      | None => Ok ep
      end
  end.

Definition handle_change_log (reader : u64 -> option MetaRegion) (ep : Endpoint) (cmd_batch : list CmdBatch) : ep_res :=
  fold_tasks (handle_batch reader) ep cmd_batch.

(** Errors other than that of the quota are dropped. *)
Definition handle_scan_locks (reader : u64 -> option MetaRegion) (ep : Endpoint) (id observe_id : u64)
    (entries : ScanEntries) (apply_index : u64) : ep_res :=
  match ep_regions ep !! id with
  | Some (observe_region, ref) =>
      if ob_handle_id observe_region =? observe_id then
        '(error, ep) ← on_region ep id observe_region ref (track_scan_locks entries apply_index);
        match error with
        | Some RtsMemoryQuotaExceeded =>
            re_register_region reader ep id observe_id (Some MEMORY_QUOTA_EXCEEDED_BACKOFF)
        | _ => Ok ep
        end
      else Ok ep
  | None => Ok ep
  end.

(** [handle_change_config], when the change is accepted: of the configuration the
    endpoint's state only has the capacity. *)
Definition handle_change_config (ep : Endpoint) (memory_quota : u64) : Endpoint :=
  set_regions ep (ep_regions ep) (MemoryQuota_set_capacity (ep_quota ep) memory_quota).

Inductive Task : Type :=
| RegionUpdated (region : MetaRegion)
| RegionDestroyed (region : MetaRegion)
| RegisterRegion (region : MetaRegion)
| DeRegisterRegion (id : u64)
| ReRegisterRegion (id observe_id : u64)
| ResolvedTsAdvanced (regions : list u64) (ts : TimeStamp) (ts_source : TsSource)
| TaskChangeLog (cmd_batch : list CmdBatch)
| ScanLocks (id observe_id : u64) (entries : ScanEntries) (apply_index : u64)
| ChangeConfig (memory_quota : u64).

(** [Runnable::run] *)
Definition Endpoint_run (reader : u64 -> option MetaRegion) (txn_status : TimeStamp -> option TxnState)
    (now : option instant) (ep : Endpoint) (task : Task) : ep_res :=
  match task with
  | RegionDestroyed region => Ok (region_destroyed ep region)
  | RegionUpdated region => region_updated ep region
  | RegisterRegion region => register_region ep region None
  | DeRegisterRegion id => Ok (deregister_region ep id)
  | ReRegisterRegion id observe_id => re_register_region reader ep id observe_id None
  | ResolvedTsAdvanced regions ts ts_source => handle_resolved_ts_advanced txn_status now ep regions ts ts_source
  | TaskChangeLog cmd_batch => handle_change_log reader ep cmd_batch
  | ScanLocks id observe_id entries apply_index => handle_scan_locks reader ep id observe_id entries apply_index
  | ChangeConfig memory_quota => Ok (handle_change_config ep memory_quota)
  end.

(** ** Memory *)

Definition pending_memory (locks : list PendingLock) : Z := sum_of PendingLock_heap_size locks.

(** What a region has taken of the quota. *)
Definition region_memory (o : ObserveRegion) : Z :=
  used (locks_by_key (ob_resolver o))
  + match ob_status o with StPending _ locks => pending_memory locks | StReady => 0 end.

Definition held (regions : gmap u64 (ObserveRegion * rrp_ref)) : Z :=
  map_fold (fun _ e n => region_memory e.1 + n) 0 regions.

(** A computation that keeps a property of its state, however it ends. *)
Definition keeps {S E A} (P : S -> Prop) (m : st_res S E A) : Prop := forall s, P s -> P (m s).2.

Lemma keeps_bind {S E A B} (P : S -> Prop) (m : st_res S E A) (f : A -> st_res S E B) :
  keeps P m -> (forall a, keeps P (f a)) -> keeps P (m ≫= f).
Proof.
  intros Hm Hf s Hs. specialize (Hm s Hs). unfold mbind, st_bind.
  destruct (m s) as [[a|e|] s']; [by apply Hf|done|done].
Qed.

Lemma keeps_lift {S E A} (P : S -> Prop) (m : res E A) : keeps P (lift (S := S) m).
Proof. by intros s. Qed.

Lemma keeps_gets {S E A} (P : S -> Prop) (f : S -> A) : keeps (E := E) P (gets f).
Proof. by intros s. Qed.

Lemma keeps_for_each {A S E} (P : S -> Prop) (f : A -> st_res S E unit) l :
  (forall x, keeps P (f x)) -> keeps P (for_each f l).
Proof.
  intros Hf. induction l as [|x l IH]; cbn [for_each]; [by intros s|]. by apply keeps_bind.
Qed.

(** Giving memory back gives back no more than that. *)
Lemma free_lower q bytes :
  quota_ok q -> 0 <= bytes <= mq_in_use q ->
  quota_ok (free q bytes) /\ mq_in_use q - bytes <= mq_in_use (free q bytes) <= mq_in_use q
  /\ mq_capacity (free q bytes) = mq_capacity q.
Proof.
  intros Hq Hb. destruct (Z.le_gt_cases bytes MAX_MEMORY_ALLOC_SIZE) as [Hm|Hm].
  - rewrite free_spec by done. destruct Hq as [Hu Hc]. split_and!; cbn; try lia. split; cbn; lia.
  - unfold free. rewrite (proj2 (Z.ltb_lt _ _)) by lia. split_and!; done || lia.
Qed.

Lemma alloc_upper q bytes q' :
  quota_ok q -> 0 <= bytes -> alloc q bytes = Some q' ->
  quota_ok q' /\ mq_in_use q' = mq_in_use q + bytes /\ mq_in_use q' <= mq_capacity q /\ mq_capacity q' = mq_capacity q.
Proof.
  intros Hq Hb. rewrite alloc_spec by done. case_match eqn:E; [|done]. intros [= <-].
  apply andb_true_iff in E as [E1%Z.leb_le _]. destruct Hq as [Hu Hc]. split_and!; cbn; try done.
  split; cbn; lia.
Qed.

Lemma zlen_nonneg (l : bytes) : 0 <= zlen l.
Proof. unfold zlen. lia. Qed.

Lemma heap_size_nonneg l : 0 <= PendingLock_heap_size l.
Proof. destruct l; cbn; apply zlen_nonneg. Qed.

Lemma pending_memory_nonneg locks : 0 <= pending_memory locks.
Proof. apply sum_of_nonneg, heap_size_nonneg. Qed.

Lemma region_memory_nonneg o : 0 <= region_memory o.
Proof.
  unfold region_memory. pose proof (used_nonneg (locks_by_key (ob_resolver o))).
  destruct (ob_status o) as [t locks|]; [pose proof (pending_memory_nonneg locks)|]; lia.
Qed.

Section covers.
(** The region and its handle, the capacity, the bound, and what others hold. *)
Context (meta : MetaRegion) (handle : u64) (cap bound : Z).

Record covers (others : Z) (s : obs_state) : Prop := {
  cv_meta : ob_meta s.1 = meta;
  cv_handle : ob_handle_id s.1 = handle;
  cv_quota : quota_ok s.2;
  cv_cap : mq_capacity s.2 = cap /\ cap <= bound;
  cv_others : 0 <= others;
  cv_memory : region_memory s.1 + others <= mq_in_use s.2 <= bound
}.

(** A method of the resolver. *)
Definition resolver_covers (m : st_res rstate quota_error unit) : Prop := forall r q others,
  quota_ok q -> mq_capacity q = cap -> cap <= bound -> 0 <= others ->
  used (locks_by_key r) + others <= mq_in_use q <= bound ->
  let '(r', q') := (m (r, q)).2 in
  quota_ok q' /\ mq_capacity q' = cap /\ used (locks_by_key r') + others <= mq_in_use q' <= bound.

Lemma note_index_covers index : resolver_covers (note_index index).
Proof.
  intros r q others H1 H2 H3 H4 H5. destruct index as [i|]; [|done].
  rewrite note_index_spec. by destruct (tracked_index r <=? i).
Qed.

Lemma track_normal_lock_covers ts key : resolver_covers (track_normal_lock ts key).
Proof.
  intros r q others H1 H2 H3 H4 H5. unfold track_normal_lock.
  assert (0 <= lock_heap_size key) as Hsize by (unfold lock_heap_size; pose proof (zlen_nonneg key); lia).
  destruct (alloc q (lock_heap_size key)) as [q1|] eqn:Ha; [|done].
  apply alloc_upper in Ha as (A1 & A2 & A3 & A4); [|done..].
  destruct (locks_by_key r !! key) as [old|] eqn:Hk; cbn.
  - pose proof (used_nonneg (locks_by_key r)).
    destruct (free_lower q1 (lock_heap_size key)) as (F1 & F2 & F3); [done|lia|]. split_and!; try done; try congruence; lia.
  - rewrite used_insert by done. split_and!; try done; try congruence; lia.
Qed.

Lemma track_large_txn_lock_covers ts key : resolver_covers (track_large_txn_lock ts key).
Proof. intros r q others H1 H2 H3 H4 H5. unfold track_large_txn_lock, modify. cbn.
  by destruct (large_txns r !! ts). Qed.

Lemma resolver_covers_bind m f :
  resolver_covers m -> (forall a, resolver_covers (f a)) -> resolver_covers (m ≫= f).
Proof.
  intros Hm Hf r q others H1 H2 H3 H4 H5. specialize (Hm r q others H1 H2 H3 H4 H5). unfold mbind, st_bind.
  destruct (m (r, q)) as [[a|e|] [r1 q1]]; cbn in Hm |- *; [|done..].
  destruct Hm as (M1 & M2 & M3). by apply Hf.
Qed.

Lemma track_lock_covers ts key index generation : resolver_covers (track_lock ts key index generation).
Proof.
  apply resolver_covers_bind; [apply note_index_covers|]. intros _.
  case_match; [apply track_normal_lock_covers|apply track_large_txn_lock_covers].
Qed.

Lemma untrack_lock_covers key index : resolver_covers (untrack_lock key index).
Proof.
  apply resolver_covers_bind; [apply note_index_covers|]. intros _ r q others H1 H2 H3 H4 H5. unfold modify. cbn.
  destruct (locks_by_key r !! key) as [ts|] eqn:Hk; [|by destruct (large_txn_key_representative r !! key)]. cbn.
  pose proof (used_delete (locks_by_key r) key ts Hk) as Hd. pose proof (used_nonneg (delete key (locks_by_key r))).
  assert (0 <= lock_heap_size key) as Hsize by (unfold lock_heap_size; pose proof (zlen_nonneg key); lia).
  destruct (free_lower q (lock_heap_size key)) as (F1 & F2 & F3); [done|lia|]. split_and!; try done; try congruence; lia.
Qed.

Lemma on_resolver_covers m others : resolver_covers m -> keeps (covers others) (on_resolver m).
Proof.
  intros Hm [o q] [Hme Hh Hq [Hc Hb] Ho Hmem]. cbn in *. unfold on_resolver, region_memory in *.
  set (p := match ob_status o with StPending _ _ => _ | StReady => _ end) in *.
  assert (0 <= p) as Hp by (subst p; case_match; [apply pending_memory_nonneg|done]).
  specialize (Hm (ob_resolver o) q (p + others) Hq Hc Hb). 
  destruct (m (ob_resolver o, q)) as [r [r' q']]. cbn in *.
  destruct Hm as (M1 & M2 & M3); [lia|lia|]. split; cbn; try done. unfold region_memory. cbn. subst p. lia.
Qed.

Lemma push_pending_lock_covers others lock : keeps (covers others) (push_pending_lock lock).
Proof.
  intros [o q] Hcv. unfold push_pending_lock. destruct (ob_status o) as [t locks|] eqn:Hst; [|done].
  destruct (alloc q (PendingLock_heap_size lock)) as [q1|] eqn:Ha; [|done].
  destruct Hcv as [Hme Hh Hq [Hc Hb] Ho Hmem]. unfold region_memory in Hmem. cbn in *. rewrite Hst in Hmem.
  apply alloc_upper in Ha as (A1 & A2 & A3 & A4); [|done|apply heap_size_nonneg].
  split; unfold region_memory; cbn; try done; [split; congruence|].
  unfold pending_memory in *. rewrite sum_of_app. cbn. lia.
Qed.

Lemma update_pending_index_covers others index : keeps (covers others) (update_pending_index index).
Proof.
  intros [o q] Hcv. unfold update_pending_index. destruct (ob_status o) as [t locks|] eqn:Hst; [|done].
  case_match; [|done]. destruct Hcv as [Hme Hh Hq Hc Ho Hmem]. split; try done.
  unfold region_memory in *. cbn in *. by rewrite Hst in Hmem.
Qed.

Lemma track_change_log_covers {Error} others (logs : list (ChangeLog Error)) : keeps (covers others) (track_change_log logs).
Proof.
  apply keeps_bind; [apply keeps_gets|]. intros status. destruct status; apply keeps_for_each; intros log.
  - destruct log as [e|index rows|a]; cbn; [by intros s|apply keeps_bind|by intros s].
    + induction rows as [|row rows IH]; cbn; [by intros s|]. apply keeps_bind; [|by intros []].
      case_match; [apply push_pending_lock_covers|by intros s].
    + intros _. apply update_pending_index_covers.
  - destruct log as [e|index rows|a]; cbn; [by intros s| |].
    + apply keeps_for_each. intros row. destruct row; cbn [track_row];
        [apply keeps_bind; [apply keeps_lift|]; intros raw; apply on_resolver_covers, track_lock_covers
        |apply keeps_bind; [apply keeps_lift|]; intros raw; apply on_resolver_covers, untrack_lock_covers
        |apply on_resolver_covers, note_index_covers..].
    + destruct a; try by intros s. all: intros [o q] [Hme Hh Hq Hc Ho Hmem]; by split.
Qed.

(** The replay gives back what the changes had taken, one after the other. *)
Lemma replays_cover index locks : forall others,
  0 <= others -> forall s, covers (pending_memory locks + others) s -> covers others (for_each (replay index) locks s).2.
Proof.
  induction locks as [|lock locks IH]; intros others Hoth s Hs; [done|].
  cbn [for_each]. unfold mbind, st_bind.
  assert (covers (pending_memory locks + others) (replay index lock s).2) as Hs1.
  { unfold replay. pose proof (pending_memory_nonneg locks) as Hn. pose proof (heap_size_nonneg lock) as Hn'.
    destruct s as [o q]. destruct Hs as [Hme Hh Hq [Hc Hb] Ho Hmem]. cbn [fst snd] in *.
    change (pending_memory (lock :: locks)) with (PendingLock_heap_size lock + pending_memory locks) in *.
    pose proof (region_memory_nonneg o) as Hr.
    destruct (free_lower q (PendingLock_heap_size lock)) as (F1 & F2 & F3); [done|lia|].
    erewrite st_bind_ok by reflexivity.
    assert (covers (pending_memory locks + others) (o, free q (PendingLock_heap_size lock))) as Hs1.
    { split; cbn; try done; [split; congruence|lia|lia]. }
    revert Hs1. generalize (o, free q (PendingLock_heap_size lock)).
    destruct lock; apply keeps_bind; [apply keeps_lift| |apply keeps_lift|];
      intros raw; apply on_resolver_covers; [apply track_lock_covers|apply untrack_lock_covers]. }
  destruct (replay index lock s) as [[a|e|] s1]; cbn in Hs1 |- *; [by apply IH|..];
    destruct Hs1 as [? ? ? ? ? Hm]; split; try done; pose proof (pending_memory_nonneg locks); lia.
Qed.

Lemma track_scan_locks_covers others entries apply_index : keeps (covers others) (track_scan_locks entries apply_index).
Proof.
  destruct entries as [locks|]; cbn [track_scan_locks].
  - apply keeps_bind; [apply keeps_gets|]. intros status. case_match; [|apply keeps_lift].
    apply keeps_for_each. intros e. apply keeps_bind; [apply keeps_lift|]. intros raw.
    apply on_resolver_covers, track_lock_covers.
  - apply keeps_bind; [apply on_resolver_covers, note_index_covers|]. intros _ [o q] Hs.
    erewrite st_bind_ok by reflexivity. erewrite st_bind_ok by reflexivity. cbn [fst].
    destruct (ob_status o) as [t locks|] eqn:Hst.
    + apply replays_cover; [apply Hs|]. destruct Hs as [Hme Hh Hq Hc Ho Hmem]. unfold region_memory in Hmem.
      cbn in *. rewrite Hst in Hmem. pose proof (pending_memory_nonneg locks).
      split; cbn; try done; [lia|]. unfold region_memory. cbn. lia.
    + destruct Hs as [Hme Hh Hq Hc Ho Hmem]. unfold region_memory in Hmem. cbn in Hmem. rewrite Hst in Hmem.
      split; try done.
Qed.

(** Dropping a region gives back what it holds at most. *)
Lemma drop_covers others o q :
  covers others (o, q) ->
  let q' := ObserveRegion_drop o q in
  quota_ok q' /\ mq_capacity q' = cap /\ others <= mq_in_use q' <= bound.
Proof.
  intros [Hme Hh Hq [Hc Hb] Ho Hmem]. unfold region_memory in Hmem. cbn in *.
  assert (foldr (fun key bytes => lock_heap_size key + bytes) 0 (map fst (map_to_list (locks_by_key (ob_resolver o))))
          = used (locks_by_key (ob_resolver o))) as Hused.
  { unfold used. rewrite map_fold_foldr. induction (map_to_list _) as [|[k ts] l IH]; cbn; [done|]. by rewrite IH. }
  unfold ObserveRegion_drop, Resolver_drop. rewrite Hused.
  pose proof (used_nonneg (locks_by_key (ob_resolver o))) as Hn.
  set (u := used (locks_by_key (ob_resolver o))) in *. clearbody u.
  set (p := match ob_status o with StPending _ locks => pending_memory locks | StReady => 0 end) in *.
  assert (0 <= p) as Hp by (subst p; case_match; [apply pending_memory_nonneg|done]).
  destruct (free_lower q u) as (F1 & F2 & F3); [done|lia|].
  destruct (ob_status o) as [t [|l locks]|]; try (split_and!; [done|congruence|lia|lia]).
  subst p. change (foldr _ 0 (l :: locks)) with (pending_memory (l :: locks)).
  destruct (free_lower (free q u) (pending_memory (l :: locks))) as (G1 & G2 & G3); [done|lia|].
  split_and!; [done|congruence|lia|lia].
Qed.

End covers.

(** ** Invariant *)

Lemma held_insert regions id e : regions !! id = None -> held (<[id := e]> regions) = region_memory e.1 + held regions.
Proof. intros Hn. unfold held. rewrite map_fold_insert_L; [done|intros; lia|done]. Qed.

Lemma held_delete regions id e :
  regions !! id = Some e -> held regions = region_memory e.1 + held (delete id regions).
Proof.
  intros He. rewrite <-(insert_delete_id regions id e) at 1 by done. apply held_insert, lookup_delete_eq.
Qed.

Lemma held_replace regions id e : held (<[id := e]> regions) = region_memory e.1 + held (delete id regions).
Proof. rewrite <-insert_delete_eq. apply held_insert, lookup_delete_eq. Qed.

Lemma held_nonneg regions : 0 <= held regions.
Proof.
  unfold held. apply (map_fold_weak_ind (fun n _ => 0 <= n)); [done|]. intros k e m n _ Hn.
  pose proof (region_memory_nonneg e.1). lia.
Qed.

Record ep_inv (bound : Z) (ep : Endpoint) : Prop := {
  ei_quota : quota_ok (ep_quota ep);
  ei_capacity : mq_capacity (ep_quota ep) <= bound;
  ei_memory : held (ep_regions ep) <= mq_in_use (ep_quota ep) <= bound;
  ei_region : forall id o ref, ep_regions ep !! id = Some (o, ref) ->
    region_id (ob_meta o) = id /\ ob_handle_id o < ep_next_id ep /\ (ob_handle_id o ∉ ep_stopped ep);
  ei_unique : forall id o ref id' o' ref', ep_regions ep !! id = Some (o, ref) -> ep_regions ep !! id' = Some (o', ref') ->
    ob_handle_id o = ob_handle_id o' -> id = id';
  ei_stopped : forall h, h ∈ ep_stopped ep -> h < ep_next_id ep
}.

(** A step that keeps the invariant and what has been stopped. *)
Definition steps_to (bound : Z) (ep ep' : Endpoint) : Prop := ep_inv bound ep' /\ ep_stopped ep ⊆ ep_stopped ep'.

Lemma steps_to_trans bound ep1 ep2 ep3 : steps_to bound ep1 ep2 -> steps_to bound ep2 ep3 -> steps_to bound ep1 ep3.
Proof. intros [_ H1] [H2 H3]. split; [done|set_solver]. Qed.

Section invariant.
Context (bound : Z).

Lemma ep_covers ep id o ref :
  ep_inv bound ep -> ep_regions ep !! id = Some (o, ref) ->
  covers (ob_meta o) (ob_handle_id o) (mq_capacity (ep_quota ep)) bound (held (delete id (ep_regions ep))) (o, ep_quota ep).
Proof.
  intros [Hq Hc Hm _ _ _] Ho. rewrite (held_delete _ _ _ Ho) in Hm. split; try done. apply held_nonneg.
Qed.

(** Replacing a region by one with the same name and handle. *)
Lemma replace_inv ep id o ref o' q' :
  ep_inv bound ep -> ep_regions ep !! id = Some (o, ref) ->
  region_id (ob_meta o') = id -> ob_handle_id o' = ob_handle_id o ->
  quota_ok q' -> mq_capacity q' <= bound -> region_memory o' + held (delete id (ep_regions ep)) <= mq_in_use q' <= bound ->
  steps_to bound ep (set_regions ep (<[id := (o', ref)]> (ep_regions ep)) q').
Proof.
  intros [Hq Hc Hm Hr Hu Hs] Ho Hid Hh Hq' Hc' Hm'. split; [|done]. split; cbn; try done.
  - by rewrite held_replace.
  - intros id0 o0 ref0. rewrite lookup_insert_Some. intros [[<- [= <- <-]]|[_ H0]]; [|by eapply Hr].
    split; [done|]. rewrite Hh. by eapply Hr.
  - assert (forall id0 o0 ref0, <[id := (o', ref)]> (ep_regions ep) !! id0 = Some (o0, ref0) ->
      exists o1 ref1, ep_regions ep !! id0 = Some (o1, ref1) /\ ob_handle_id o1 = ob_handle_id o0) as Hback.
    { intros id0 o0 ref0. rewrite lookup_insert_Some. intros [[<- [= <- <-]]|[_ H0]]; eauto. }
    intros id1 o1 r1 id2 o2 r2 H1 H2 E. apply Hback in H1 as (a1 & b1 & K1 & L1), H2 as (a2 & b2 & K2 & L2).
    eapply Hu; [done|done|congruence].
Qed.

Lemma on_region_inv ep id o ref m error ep' :
  ep_inv bound ep -> ep_regions ep !! id = Some (o, ref) ->
  (forall meta h cap others, keeps (covers meta h cap bound others) m) ->
  on_region ep id o ref m = Ok (error, ep') -> steps_to bound ep ep'.
Proof.
  intros Hinv Ho Hm. pose proof (Hm _ _ _ _ _ (ep_covers ep id o ref Hinv Ho)) as Hcv. unfold on_region.
  destruct (m (o, ep_quota ep)) as [r [o' q']]. cbn in Hcv. destruct Hcv as [H1 H2 H3 [H4 H5] H6 H7]. cbn in *.
  intros H. assert (ep' = set_regions ep (<[id := (o', ref)]> (ep_regions ep)) q') as -> by (by destruct r; simplify_eq).
  eapply replace_inv; try done; [|lia]. rewrite H1. by eapply (ei_region bound ep Hinv).
Qed.

Lemma deregister_inv ep id : ep_inv bound ep -> steps_to bound ep (deregister_region ep id).
Proof.
  intros Hinv. unfold deregister_region. destruct (ep_regions ep !! id) as [[o ref]|] eqn:Ho; [|done].
  pose proof (drop_covers _ _ _ _ _ _ _ (ep_covers ep id o ref Hinv Ho)) as (D1 & D2 & D3).
  destruct Hinv as [Hq Hc Hm Hr Hu Hs]. split; [split; cbn; try done|cbn; set_solver].
  - lia.
  - intros id' o' ref' [Hne H']%lookup_delete_Some. destruct (Hr _ _ _ H') as (R1 & R2 & R3). split_and!; [done|done|].
    intros [E%elem_of_singleton|?]%elem_of_union; [|done]. apply Hne. symmetry. by eapply Hu.
  - intros id1 o1 r1 id2 o2 r2 [_ H1]%lookup_delete_Some [_ H2]%lookup_delete_Some. by eapply Hu.
  - intros h [-> %elem_of_singleton|?]%elem_of_union; [by eapply Hr|by apply Hs].
Qed.

Lemma deregister_gone ep id : ep_regions (deregister_region ep id) !! id = None.
Proof.
  unfold deregister_region. destruct (ep_regions ep !! id) as [[o ref]|] eqn:Ho; [|done]. apply lookup_delete_eq.
Qed.

Lemma register_inv ep region backoff ep' :
  ep_inv bound ep -> register_region ep region backoff = Ok ep' -> steps_to bound ep ep'.
Proof.
  intros Hinv. unfold register_region. intros H. res_inv. apply bool_decide_eq_true in E.
  destruct (ep_read_progress ep !! region_id region) as [ref|]; res_inv; [|done].
  destruct Hinv as [Hq Hc Hm Hr Hu Hs]. split; [split; cbn; try done|done].
  - rewrite held_insert by done. unfold region_memory. cbn. unfold used. rewrite map_fold_empty. done.
  - intros id o r. rewrite lookup_insert_Some. intros [[<- [= <- <-]]|[_ H0]].
    + cbn. split_and!; [done|lia|]. intros Hin%Hs. lia.
    + destruct (Hr _ _ _ H0) as (R1 & R2 & R3). split_and!; [done|lia|done].
  - intros id1 o1 r1 id2 o2 r2. rewrite !lookup_insert_Some.
    intros [[<- [= <- <-]]|[_ H1]] [[<- [= <- <-]]|[_ H2]]; cbn; try done.
    + destruct (Hr _ _ _ H2) as (_ & ? & _). lia.
    + destruct (Hr _ _ _ H1) as (_ & ? & _). lia.
    + by eapply Hu.
  - intros h Hh%Hs. lia.
Qed.

Lemma re_register_inv reader ep id observe_id backoff ep' :
  ep_inv bound ep -> re_register_region reader ep id observe_id backoff = Ok ep' -> steps_to bound ep ep'.
Proof.
  intros Hinv. unfold re_register_region. destruct (ep_regions ep !! id) as [[o ref]|]; [|by intros [= <-]].
  case_match; [|by intros [= <-]]. pose proof (deregister_inv ep id Hinv) as Hd.
  destruct (reader id); [|by intros [= <-]]. intros Hreg.
  eapply steps_to_trans; [done|]. eapply register_inv; [apply Hd|done].
Qed.

Lemma fold_tasks_inv {A} (f : Endpoint -> A -> ep_res) l :
  (forall ep x ep', ep_inv bound ep -> f ep x = Ok ep' -> steps_to bound ep ep') ->
  forall ep ep', ep_inv bound ep -> fold_tasks f ep l = Ok ep' -> steps_to bound ep ep'.
Proof.
  intros Hf. induction l as [|x l IH]; intros ep ep' Hinv; cbn; [by intros [= <-]|]. intros H. res_inv.
  pose proof (Hf _ _ _ Hinv H0) as H1. eapply steps_to_trans; [done|]. apply IH; [apply H1|done].
Qed.

Lemma resolve_region_inv txn_status now ts source ep id ep' :
  ep_inv bound ep -> resolve_region txn_status now ts source ep id = Ok ep' -> steps_to bound ep ep'.
Proof.
  intros Hinv. unfold resolve_region. destruct (ep_regions ep !! id) as [[o ref]|] eqn:Ho; [|by intros [= <-]].
  destruct (ob_status o) as [? ?|] eqn:Hst; [by intros [= <-]|].
  destruct (ep_progress ep !! ref) as [rrp|]; [|by intros [= <-]]. intros H. res_inv. destruct a as [[resolved r'] rrp'].
  res_inv. assert (locks_by_key r' = locks_by_key (ob_resolver o)) as Hl.
  { unfold resolve in H0. case_match; res_inv; [by simplify_eq|]. by simplify_eq. }
  pose proof (ep_covers ep id o ref Hinv Ho) as [_ _ C1 [_ C2] _ C3]. cbn in *.
  assert (steps_to bound ep (set_regions ep (<[id := (set_resolver o r', ref)]> (ep_regions ep)) (ep_quota ep)))
    as [[? ? ? ? ? ?] ?]; [|by split].
  apply (replace_inv ep id o ref); try done.
  - exact (proj1 (ei_region bound ep Hinv _ _ _ Ho)).
  - unfold region_memory in *. cbn. by rewrite Hl.
Qed.

Lemma handle_batch_inv reader ep batch ep' :
  ep_inv bound ep -> handle_batch reader ep batch = Ok ep' -> steps_to bound ep ep'.
Proof.
  intros Hinv. unfold handle_batch. destruct (cb_cmds batch) as [ |cmd cmds]; [by intros [= <-]|].
  destruct (ep_regions ep !! cb_region_id batch) as [[o ref]|] eqn:Ho; [|by intros [= <-]].
  case_match; [|by intros [= <-]]. intros Hrun. res_inv. destruct a1 as [error ep1].
  match goal with H : on_region _ _ _ _ _ = Ok _ |- _ =>
    pose proof (on_region_inv _ _ _ _ _ _ _ Hinv Ho (fun m h c ot => track_change_log_covers m h c bound ot a0) H) as Hs end.
  destruct error as [e|]; [|by injection Hrun as <-]. eapply steps_to_trans; [done|].
  eapply re_register_inv; [apply Hs|done].
Qed.

Lemma handle_scan_locks_inv reader ep id observe_id entries apply_index ep' :
  ep_inv bound ep -> handle_scan_locks reader ep id observe_id entries apply_index = Ok ep' -> steps_to bound ep ep'.
Proof.
  intros Hinv. unfold handle_scan_locks.
  destruct (ep_regions ep !! id) as [[o ref]|] eqn:Ho; [|by intros [= <-]].
  case_match; [|by intros [= <-]]. intros H1. res_inv. destruct a as [error ep1].
  pose proof (on_region_inv _ _ _ _ _ _ _ Hinv Ho
    (fun m h c ot => track_scan_locks_covers m h c bound ot entries apply_index) H0) as Hs.
  destruct error as [[]|]; [|by injection H1 as <-..]. eapply steps_to_trans; [done|].
  eapply re_register_inv; [apply Hs|done].
Qed.

Lemma region_updated_inv ep region ep' :
  ep_inv bound ep -> region_updated ep region = Ok ep' -> steps_to bound ep ep'.
Proof.
  intros Hinv. unfold region_updated.
  destruct (ep_regions ep !! region_id region) as [[o ref]|] eqn:Ho; [|by intros [= <-]]. case_match.
  - intros [= <-]. pose proof (ep_covers ep _ o ref Hinv Ho) as [_ _ C1 [_ C2] _ C3]. cbn in *.
    by eapply replace_inv.
  - intros Hreg. pose proof (deregister_inv ep (region_id region) Hinv) as Hd.
    eapply steps_to_trans; [done|]. eapply register_inv; [apply Hd|done].
Qed.

(** ** Runs *)

(** A task, with a capacity within the bound, or a change of the read progress by
    the raft store. *)
Inductive ep_step : Endpoint -> Endpoint -> Prop :=
| step_task reader txn_status now task ep ep' :
    (forall cap, task = ChangeConfig cap -> 0 <= cap <= bound) ->
    Endpoint_run reader txn_status now ep task = Ok ep' -> ep_step ep ep'
| step_raft ep read_progress progress :
    ep_step ep {| ep_regions := ep_regions ep; ep_quota := ep_quota ep; ep_read_progress := read_progress;
                  ep_progress := progress; ep_next_id := ep_next_id ep; ep_stopped := ep_stopped ep;
                  ep_scans := ep_scans ep |}.

Lemma ep_step_inv ep ep' : ep_step ep ep' -> ep_inv bound ep -> steps_to bound ep ep'.
Proof.
  intros Hstep Hinv. destruct Hstep as [reader txn_status now task ep ep' Hcap Hrun|ep rp prog].
  - destruct task; cbn in Hrun.
    + by eapply region_updated_inv.
    + injection Hrun as <-. unfold region_destroyed. repeat case_match; try done. by apply deregister_inv.
    + by eapply register_inv.
    + injection Hrun as <-. by apply deregister_inv.
    + by eapply re_register_inv.
    + eapply fold_tasks_inv; [|done|done]. intros. by eapply resolve_region_inv.
    + eapply fold_tasks_inv; [|done|done]. intros. by eapply handle_batch_inv.
    + by eapply handle_scan_locks_inv.
    + injection Hrun as <-. destruct (Hcap _ eq_refl) as [C1 C2]. destruct Hinv as [[Hu Hc'] Hc Hm Hr Huq Hs].
      split; [|done]. split; cbn; try done; unfold adjust_capacity; [split; cbn|]; unfold adjust_capacity, isize_max in *; lia.
  - destruct Hinv. by split.
Qed.

Lemma ep_steps_inv ep ep' : rtc ep_step ep ep' -> ep_inv bound ep -> steps_to bound ep ep'.
Proof.
  induction 1 as [|ep1 ep2 ep3 Hstep _ IH]; intros Hinv; [done|].
  pose proof (ep_step_inv _ _ Hstep Hinv) as H1. eapply steps_to_trans; [done|]. apply IH, H1.
Qed.

Lemma new_inv_ep capacity next_id : 0 <= capacity <= bound -> ep_inv bound (Endpoint_new capacity next_id).
Proof.
  intros Hc. split; cbn; try done; unfold adjust_capacity.
  - split; cbn; unfold adjust_capacity, isize_max; lia.
  - lia.
  - unfold held. rewrite map_fold_empty. lia.
Qed.

End invariant.

(** C22. The quota counts what is held.  From a fresh endpoint, after any sequence
    of tasks (registrations, updates and removals of regions, logs, scans,
    advances and changes of the capacity, errors and the registrations that
    follow them included) and whatever the raft store does to the read progress
    meanwhile, the locks and the waiting changes of all regions together take no
    more memory than the quota has in use, and this is at most the largest
    capacity that the quota was given. *)
Theorem endpoint_memory_covered bound capacity next_id ep :
  0 <= capacity <= bound -> rtc (ep_step bound) (Endpoint_new capacity next_id) ep ->
  held (ep_regions ep) <= mq_in_use (ep_quota ep) <= bound.
Proof.
  intros Hc Hrtc. apply (ep_steps_inv bound) in Hrtc as [Hinv _]; [|by apply new_inv_ep]. apply Hinv.
Qed.

(** What was observed under a stopped handle is ignored.  Once a handle has
    been stopped, in any later state of the endpoint, whichever regions have been
    registered since, a batch of commands, the locks of a scan and a request to
    register again that carry this handle change nothing, whatever region they
    name.  Handles are not given twice. *)
Theorem stopped_handle_ignored bound capacity next_id ep ep' handle :
  0 <= capacity <= bound -> rtc (ep_step bound) (Endpoint_new capacity next_id) ep ->
  handle ∈ ep_stopped ep -> rtc (ep_step bound) ep ep' ->
  (forall reader batch, cb_rts_id batch = handle -> handle_batch reader ep' batch = Ok ep')
  /\ (forall reader id entries apply_index, handle_scan_locks reader ep' id handle entries apply_index = Ok ep')
  /\ (forall reader id backoff, re_register_region reader ep' id handle backoff = Ok ep').
Proof.
  intros Hc H1 Hin H2. apply (ep_steps_inv bound) in H1 as [Hinv _]; [|by apply new_inv_ep].
  apply (ep_steps_inv bound) in H2 as [Hinv' Hsub]; [|done].
  assert (forall id o ref, ep_regions ep' !! id = Some (o, ref) -> (ob_handle_id o =? handle) = false) as Hno.
  { intros id o ref Ho. destruct (ei_region _ _ Hinv' _ _ _ Ho) as (_ & _ & Hn).
    apply Z.eqb_neq. intros E. apply Hn. rewrite E. by apply Hsub. }
  split_and!.
  - intros reader batch <-. unfold handle_batch. destruct (cb_cmds batch); [done|].
    destruct (ep_regions ep' !! cb_region_id batch) as [[o ref]|] eqn:Ho; [|done]. by rewrite (Hno _ _ _ Ho).
  - intros reader id entries idx. unfold handle_scan_locks.
    destruct (ep_regions ep' !! id) as [[o ref]|] eqn:Ho; [|done]. by rewrite (Hno _ _ _ Ho).
  - intros reader id backoff. unfold re_register_region.
    destruct (ep_regions ep' !! id) as [[o ref]|] eqn:Ho; [|done]. by rewrite (Hno _ _ _ Ho).
Qed.

(** A region is registered, its scan ends, and it is removed. *)
Definition ex_task (ep : Endpoint) (task : Task) : Endpoint :=
  match Endpoint_run (fun _ => Some run_region) (fun _ => None) None ep task with Ok ep => ep | _ => ep end.

Definition ex_endpoint : Endpoint :=
  {| ep_regions := ∅; ep_quota := MemoryQuota_new 1000; ep_read_progress := {[region_id run_region := 0%nat]};
     ep_progress := {[0%nat := RegionReadProgress_new run_region 1 128 1]}; ep_next_id := 0; ep_stopped := ∅;
     ep_scans := [] |}.

Definition ex_registered : Endpoint := ex_task ex_endpoint (RegisterRegion run_region).
Definition ex_scanned : Endpoint :=
  ex_task ex_registered (ScanLocks (region_id run_region) 0 (ScanLock [(Key_from_raw [1], ex_lock [1] 3)]) 1).
Definition ex_removed : Endpoint := ex_task ex_scanned (DeRegisterRegion (region_id run_region)).

Lemma ex_step ep task :
  match Endpoint_run (fun _ => Some run_region) (fun _ => None) None ep task with Ok _ => true | _ => false end = true ->
  match task with ChangeConfig _ => false | _ => true end = true -> ep_step 1000 ep (ex_task ep task).
Proof.
  intros Hrun Htask. apply (step_task 1000 (fun _ => Some run_region) (fun _ => None) None task).
  - intros cap ->. done.
  - unfold ex_task. by destruct (Endpoint_run _ _ _ _ _).
Qed.

Lemma ex_scanned_steps : rtc (ep_step 1000) (Endpoint_new 1000 0) ex_scanned.
Proof.
  apply rtc_l with ex_endpoint; [apply (step_raft 1000 (Endpoint_new 1000 0))|].
  apply rtc_l with ex_registered; [apply ex_step; vm_compute; reflexivity|].
  apply rtc_once, ex_step; vm_compute; reflexivity.
Qed.

Lemma endpoint_memory_covered_witness :
  held (ep_regions ex_scanned) = 9 /\ 9 <= mq_in_use (ep_quota ex_scanned) <= 1000.
Proof.
  split; [vm_compute; reflexivity|].
  exact (endpoint_memory_covered 1000 1000 0 ex_scanned ltac:(lia) ex_scanned_steps).
Defined.

Lemma stopped_handle_ignored_witness :
  0 ∈ ep_stopped ex_removed
  /\ handle_scan_locks (fun _ => None) (ex_task ex_removed (RegisterRegion run_region)) (region_id run_region) 0 ScanNone 2
     = Ok (ex_task ex_removed (RegisterRegion run_region)).
Proof.
  assert (0 ∈ ep_stopped ex_removed) as Hin by (vm_compute; reflexivity). split; [exact Hin|].
  refine (proj1 (proj2 (stopped_handle_ignored 1000 1000 0 ex_removed _ 0 _ _ Hin _)) _ _ _ _); [lia| |].
  - eapply rtc_r; [apply ex_scanned_steps|]. apply ex_step; vm_compute; reflexivity.
  - apply rtc_once, ex_step; vm_compute; reflexivity.
Defined.
