(* ===== verification/ResolvedTsStore.v ===== *)
(** * Resolved timestamps of a store's commands

    The resolver fed with the commands of the transaction layer: the updates of a
    command become requests, the requests rows, and the rows are tracked.

    Theorems: the timestamp of the advance worker is below the commit of every
    transaction whose locks are only in memory or still to come
    ([advance_ts_covered]); a rollback on a key that another transaction has locked makes the
    resolver forget that lock, so that a timestamp is resolved below which a
    commit is still to come ([rollback_hides_lock]). *)

From Stdlib Require Import ZArith Lia.
From stdpp Require Import base numbers list gmap relations.
From S2P Require Import Prelude Number Bytes Types Write Lock ConcurrencyManager Engine Reader.
From S2P Require Import AbsState MvccTxn Prewrite TxnStatus Commands Effects System Runs.
From S2P Require Import ReadProgress Resolver ChangeLog ResolvedTs ResolvedTsSpec Leadership.

Open Scope Z_scope.

(** The log of the command that writes [ms] at [index]. *)
Definition log_of (index : u64) (ms : list Modify) : res unit (ChangeLog unit) :=
  encode_cmd {| cmd_index := index; cmd_error := None; cmd_admin := None; cmd_flags := 0;
                cmd_requests := map Request_from ms |}.

(** A region after the log of a command; [None] when the command or its log
    fails. *)
Definition observe (index : u64) (ms : list Modify) (s : obs_state) : option obs_state :=
  match log_of index ms with
  | Ok log =>
      match track_change_log [log] s with
      | (Ok tt, s) => Some s
      | _ => None
      end
  | _ => None
  end.

Definition modifies_of (r : txn_res WriteResult) : list Modify :=
  match r with Ok wr => wr_modifies wr | _ => [] end.

(** An equation whose left side has a value, which may instantiate the right. *)
Ltac by_computation :=
  lazymatch goal with
  | |- ?l = ?r => let v := eval vm_compute in l in transitivity v; [vm_compute; reflexivity|]; try reflexivity;
                  vm_compute; reflexivity
  end.

(** A rollback can make a resolved timestamp wrong.  The resolver of a region
    is ready and tracks the lock that a transaction started at 5 has put on a key.
    A rollback of another transaction, started at 3, finds no lock of its own on
    that key and leaves a rollback record there, and the lock stays in the store;
    but the row of that record makes the resolver drop the lock it tracks for the
    key, whosever it is.  The timestamp 20 is resolved, and then the first
    transaction commits at 10. *)
Theorem rollback_hides_lock :
  let key := Key_from_raw [107] in
  let rollback := Rollback_process_write store_locked run_ctx run_cm [key] 3 in
  let store_rolled := run store_locked rollback in
  let commit := Commit_process_write store_rolled run_ctx run_cm [key] 5 10 in
  exists o1 q1 o2 q2 o3 rrp,
    observe 1 (t_modifies (snd (run_prewrite BTreeEngine_new (Optimistic false) SkipPessimisticCheck 5 [1])))
      (run_ready, MemoryQuota_new 1000) = Some (o1, q1)
    /\ locks_by_key (ob_resolver o1) = {[ [107] := 5 ]}
    /\ observe 2 (modifies_of rollback) (o1, q1) = Some (o2, q2)
    /\ locks_by_key (ob_resolver o2) = ∅
    /\ l_ts <$> a_lock (abs store_rolled) key = Some 5
    /\ resolve (E := unit) (fun _ => None) (ob_resolver o2) (RegionReadProgress_new run_region 2 128 1) 20 None SrcPdTso
         = Ok (20, o3, rrp)
    /\ safe_ts rrp = 20
    /\ log_of 3 (modifies_of commit) = Ok (LogRows 3 [RowCommit key WtPut (Some 5) (Some 10)]).
Proof.
  intros key rollback store_rolled commit.
  do 6 eexists. split_and!; by_computation.
Qed.

(** ** The timestamp of the advance worker *)

Lemma global_min_lock_fst cm : fst <$> global_min_lock cm = global_min_lock_ts cm.
Proof.
  unfold global_min_lock, global_min_lock_ts. change (@None TimeStamp) with (fst <$> @None (TimeStamp * Key)).
  generalize (@None (TimeStamp * Key)). induction (table_entries cm) as [|[k [lock|]] l IH]; intros acc; cbn [foldl];
    [done| |apply IH].
  rewrite IH. destruct acc as [[ts k0]|]; cbn; [|done]. by case_match.
Qed.

Lemma global_min_lock_below cm k lock :
  cm_lock_table cm !! k = Some (Some lock) -> exists ts key, global_min_lock cm = Some (ts, key) /\ ts <= l_ts lock.
Proof.
  intros Hk. pose proof (global_min_fold (table_entries cm) None) as Hg. cbv zeta in Hg.
  pose proof (global_min_lock_fst cm) as Hf. unfold global_min_lock_ts in Hf.
  rewrite <-Hf in Hg. destruct (global_min_lock cm) as [[ts key]|]; cbn in Hg.
  - exists ts, key. split; [done|]. destruct Hg as (_ & _ & Hmin). by apply (Hmin k), elem_of_table_entries.
  - destruct Hg as [_ Hno]. destruct (Hno k lock). by apply elem_of_table_entries.
Qed.

(** The timestamp that the advance worker takes is covered.  It is at or
    below the start of every lock in memory when it is taken; and a transaction
    that computes its commit timestamp later, to commit asynchronously or in one
    phase, gets one above it.  So a commit at or below the timestamp has its
    lock, or itself, in the store already. *)
Theorem advance_ts_covered now tso cm get_tso ts source cm' :
  advance_min_ts now tso cm get_tso = (Ok (ts, source), cm') -> get_tso <> Some TimeStamp_max ->
  (forall key lock, cm_lock_table cm' !! key = Some (Some lock) -> ts <= l_ts lock)
  /\ (forall txn key lock start_ts for_update_ts max_commit_ts min_commit_ts lock' txn',
       cm_max_ts cm' <= cm_max_ts (t_cm txn) ->
       u64_ok (cm_max_ts (t_cm txn)) -> u64_ok for_update_ts -> u64_ok start_ts -> u64_ok (l_min_commit_ts lock) ->
       async_commit_timestamps key lock start_ts for_update_ts max_commit_ts txn = Ok (Ok min_commit_ts, lock', txn') ->
       ts < min_commit_ts).
Proof.
  unfold advance_min_ts. intros H Hmax.
  destruct (update_max_ts now tso cm (default TimeStamp_zero get_tso)) as [[[]|e|] cm1] eqn:Hu; [|done..].
  injection H as H <-.
  assert (default TimeStamp_zero get_tso <= cm_max_ts cm1) as Hreg.
  { pose proof (update_max_ts_spec now tso cm (default TimeStamp_zero get_tso)) as (_ & _ & _ & _ & Hs).
    rewrite Hu in Hs. cbn in Hs. rewrite Hs; [lia|]. destruct get_tso; cbn; [congruence|done]. }
  assert (ts <= default TimeStamp_zero get_tso) as Hle.
  { destruct (global_min_lock cm1) as [[m k]|]; [|injection H as <- _; lia].
    destruct (Z.ltb_spec m (default TimeStamp_zero get_tso)); injection H as <- _; lia. }
  split.
  - intros key lock Hk. destruct (global_min_lock_below cm1 key lock Hk) as (m & k & Hg & Hm). rewrite Hg in H.
    destruct (Z.ltb_spec m (default TimeStamp_zero get_tso)); injection H as <- _; lia.
  - intros txn key lock st fu mc mct lock' txn' Hcm U1 U2 U3 U4. unfold async_commit_timestamps, lock_key.
    destruct (cm_lock_table (t_cm txn) !! key); [done|]. intros H'. res_inv.
    apply calculate_min_commit_ts_ok in H0 as (_ & Hgt & _); [|done..]. cbn in Hgt.
    destruct (_ && _)%bool; [done|]. injection H' as <- _ _. lia.
Qed.

Lemma advance_ts_covered_witness :
  let cm := guard_set_lock (cm_new 5 0) (Key_from_raw [107]) (Some (ex_lock [107] 8)) in
  exists cm', advance_min_ts 0 None cm (Some 20) = (Ok (8, SrcMemoryLock (Key_from_raw [107])), cm')
    /\ cm_max_ts cm' = 20
    /\ forall key lock, cm_lock_table cm' !! key = Some (Some lock) -> 8 <= l_ts lock.
Proof.
  intros cm. destruct (advance_min_ts 0 None cm (Some 20)) as [r cm'] eqn:Ha.
  assert (r = Ok (8, SrcMemoryLock (Key_from_raw [107])) /\ cm_max_ts cm' = 20) as [-> Hm].
  { vm_compute in Ha. injection Ha as <- <-. split; vm_compute; reflexivity. }
  exists cm'. split; [reflexivity|]. split; [exact Hm|].
  refine (proj1 (advance_ts_covered 0 None cm (Some 20) 8 _ cm' Ha _)). vm_compute. congruence.
Defined.
